(* ===== verification/_CoqProject ===== *)
-Q . S2P
Prelude.v
RustStd.v
Slices.v
Preface.v
Udp.v
Host.v
Tls.v
Alpn.v
Wiping.v
AuthCodec.v
AuthConfig.v
AuthState.v
Authenticator.v
Enrollment.v
Lb.v
Routes.v
Limits.v
Health.v
Dial.v
L4.v
Sniff.v
VirtualBlock.v
VirtualIp.v
DnsWire.v
Resolver.v
DnsServer.v
Peers.v
Reload.v
Revocation.v
Interlock.v
Handshake.v
ClientAuth.v
ConnPool.v
EndpointGroup.v
Invite.v
DnsCache.v
Streams.v
Headers.v
HttpBody.v
HttpForward.v
RouteConfig.v
HttpPlain.v
WebSocket.v
LocalHttp.v
LocalServer.v
TunUdp.v
Tunnel.v
TunTcp.v
NetTcp.v
NetFrames.v
Relay.v
Identity.v
ClientTls.v
Metrics.v
Admin.v
Shutdown.v
Connection.v
DesktopService.v
Storage.v
Flows.v
Copy.v
