(* ===== verification/Prelude.v ===== *)
(** * A verification development for nexapipe

    nexapipe exposes services that sit behind a NAT: a server process opens a
    QUIC endpoint (iroh), clients connect to it, prove who they are, and every
    stream they open is an HTTP request, a TLS passthrough session or a raw
    TCP/UDP tunnel that the server forwards to one of its configured backends.
    A client runs on a user's device: it answers the device's DNS queries with
    addresses of its own, takes the packets and the proxy requests that follow,
    and carries them to a server over a pool of connections.
    The Rust workspace has three crates under src/crates: [nexapipe-proto] (the
    wire formats both ends share), [nexapipe] (the server) and
    [nexapipe-client]; the desktop application beside them has a service that
    runs elevated and starts the client for its user.  This development models the wire formats, what the
    server decides (who is let in, what a client may reach, which backend serves
    it, what the process holds while it does), what it does to the bytes it
    forwards, and the client's half of each of these.

    ** Files, and the code they model

    - The vocabulary.  [Prelude] and [RustStd]: machine integers are [Z] with the
      wrap-around written out, strings and buffers are lists of bytes, [result]
      is [Result] with [let?] for the [?] operator; [RustStd] has the string
      functions of Rust's core library the sources call, UTF-8 included.
      [Slices]: indexing and slicing with their panics, and the type [run] of
      code that may panic or not end.
    - Wire formats (nexapipe-proto): [Preface] (preface.rs: the opening of a
      tunnel stream and the status byte), [Udp] (udp.rs, and the two loops
      of a UDP flow in l4/mod.rs), [Host] (host.rs: the one host-pattern rule),
      [Tls] (tls.rs: the server name of a ClientHello), [Alpn] (alpn.rs,
      protocol.rs), [Wiping] and [AuthCodec] (auth/: the handshake messages and
      the buffer that wipes what it frees).
    - Authentication (nexapipe): [AuthConfig] (auth/config/: clients, devices,
      lockouts, TOTP steps, access lists), [AuthState] (auth/state.rs: the
      counters on disk), [Authenticator] (auth/totp.rs, auth/device_key.rs,
      conn/auth/authenticator.rs: the handler that answers a response),
      [Enrollment] (conn/auth/enrollment.rs: spending an invitation) and
      [Handshake] (conn/auth/handshake.rs: the exchange on the stream, which
      composes the others).
    - Reconfiguration (nexapipe): [Peers] (conn/peers.rs, allow_list.rs: who is
      connected), [Reload] (config_watcher/: folding a new [[auth]] into the live
      one), [Revocation] (conn/mod.rs with the watcher: connections against
      reloads), [Interlock] (enrollments against reloads), [RouteConfig]
      (config/: validation and the routes it yields), [Storage]
      (storage/file.rs: edits of the configuration on disk) and [Identity]
      (config/identity.rs: the key that names the server).
    - Forwarding (nexapipe): [Lb] (lb/: pools, leases, health, the circuit
      breaker), [Routes] (routes/mod.rs: the table, its lookups, path rewriting
      and reload; the address reader of backend_conn.rs), [Limits]
      (conn/limits/: the byte budget and the connection caps), [Health]
      (health/, proxy/health.rs: the checkers), [Dial] (backend_conn.rs: the
      connect budget), [DnsCache] (dns.rs), [L4] (l4/mod.rs: the opening of
      a tunnel stream, which composes [Preface], [AuthConfig]'s access list,
      [Routes], [Lb], [Limits] and [Dial] the way [serve_stream] does), [Sniff]
      (l4/sniff.rs), [Streams] (conn/stream.rs, passthrough.rs: what a stream
      carries), [Copy] (stream_util.rs: copying both ways) and [Connection]
      (conn/mod.rs, limits/streams.rs: the life of a connection and its streams).
    - The process (nexapipe): [Metrics] (metrics.rs: its counters and how they are
      read), [Admin] (admin/: the management listener and its token) and
      [Shutdown] (shutdown/: stopping and draining).
    - HTTP (nexapipe): [Headers] (what crosses the proxy), [HttpBody] (reading and
      lending a request body), [HttpForward] (one request over the tunnel, with
      its attempts), [HttpPlain] (one request of the plaintext listener) and
      [WebSocket] (an upgrade).
    - The client (nexapipe-client): [VirtualBlock] and [VirtualIp] (the addresses
      the tunnel claims and leases), [DnsWire], [Resolver] and [DnsServer] (dns/),
      [ClientAuth] (auth/, run against [Handshake]), [ConnPool]
      (connection_pool/), [EndpointGroup] (endpoint_group/, lb.rs), [Invite]
      (provisioning/), [LocalHttp] (http.rs, local_proxy/: one HTTP connection;
      [LocalServer] has what a server reads of it), [Tunnel] (local_proxy/tunnel.rs, l4.rs: opening a stream), [ClientTls]
      (local_proxy/tls.rs: a TLS connection, by its server name), [TunUdp]
      (tun_proxy/udp.rs, run against [Udp]), [TunTcp] (tun_proxy/tcp.rs and the
      window of mod.rs: one TCP flow), [NetTcp] and [NetFrames]
      (tun_proxy/netstack/: the sockets behind the TUN device, and the packets on
      their way in and out), [Flows] (flow.rs, traffic.rs) and [Relay] (relay.rs,
      discovery.rs: which relays an endpoint uses).
    - The desktop (ui-desktop/src-tauri): [DesktopService] (service/: the requests
      the elevated service takes over its socket).

    ** How the code is represented

    Each handler is one function that threads the state explicitly and has the
    code's guards and early returns in the code's order.  What several tasks
    share is a state with a step relation whose steps are the atomic operations
    of the code (a critical section, an atomic read-modify-write, an answer from
    outside), and the invariants are proved over every reachable state, hence
    over every interleaving: [Lb], [Limits], [Resolver], [Peers], [Revocation],
    [Interlock], [ConnPool], [DnsCache], [HttpBody], [TunUdp], [Tunnel], [TunTcp],
    [NetTcp], [NetFrames], [ClientTls], [Storage], [Flows], [Metrics], [Shutdown]
    and [Connection].  Where a task leaves and returns to shared state inside one function
    the change made by the others is an argument of the function ([Health],
    [Handshake]).  A future that is polled by hand ([HttpForward], [HttpBody]) is a
    function of what each poll sees, and an execution is a sequence of polls.

    Handlers that converse over a stream ([Handshake], [ClientAuth]) are programs
    of a small monad over what its reads return and its writes answer; [joint] puts
    a client's and a server's program on one stream.  A stream is the list of
    chunks its reads return, so that a theorem over every list is a theorem over
    every segmentation.  The file system is a map of paths to files and links; a
    write passes through every state another process could find, any of its steps
    may fail, a failed clean-up included, and a process may be killed between two of
    them ([Storage]).  What hyper does with the copies of a body that is left on the
    client's stream is a sequence of lends, polls and drops ([HttpBody]).
    Pools shared behind an [Arc] live in a store and are named by their key
    ([RouteConfig], [EndpointGroup]).  The TCP state machine under the TUN proxy is
    the class [Socket] with its laws, what the application does between two looks
    of the runner is an argument of the run ([NetTcp]), and the steps of a TLS
    tunnel carry the time at which they happen ([ClientTls]).

    A panic is an outcome of its own ([Sel_panic], [Panic], [None]), and so is a
    loop that does not end, so that a theorem can exclude them.  Clocks
    and random numbers are arguments.  What is not part of the repository is a
    parameter: HMAC, TOTP codes, Ed25519, base32, SHA-256 and hex ([Crypto] and
    section variables), serde_json, [toml_edit], the [url] and [http] crates
    ([http::HeaderMap] is the class [HeaderMap] with its laws), gzip, the TLS
    negotiation, Unicode lower-casing, the resolver, QUIC and the sockets.  The few
    hypotheses about them state documented behaviour (JSON decodes what it encoded,
    the negotiation picks the first name both sides have) and every theorem that
    uses one has a witness with a concrete instance.

    ** What the theorems show

    - The wire formats are exact: what one end writes the other reads back,
      whatever follows it and however it is cut into reads; the decoders accept
      nothing but encodings; bounded input gets a bounded answer, and no input
      makes a reader panic or spin ([Preface], [Udp], [AuthCodec], [Tls],
      [DnsWire], [DnsServer], [Invite]).
    - No byte of a credential stays in memory that was freed ([Wiping]).
    - Who is let in is characterised exactly, guesses are bounded, nobody without
      the secret can lock a client out, an earlier code never works again, a
      restart forgets none of it, and an invitation is spent once and changes
      no credential but its own ([Authenticator], [AuthState], [Enrollment]).
      A client that holds what the server has on file gets in, and an
      invitation is traded for a credential that works at once ([ClientAuth]).
    - What is taken away is taken: no connection that was not told to stop is
      served on a permission a reload removed, a reload undoes no enrollment,
      writers lose none of each other's edits, and a reader of the configuration
      finds the old one or the new one, as long as the file system takes the rename;
      where it is refused the file is written in place, and examples show what a cut
      then leaves ([Reload], [Revocation], [Interlock], [Storage]).  A configuration
      that starts is one that runs, with the backends that are accepted and cannot be
      dialled spelled out ([RouteConfig]).
    - What a client may reach: patterns, access lists and ports ([Host],
      [AuthConfig]), applied at every lookup ([Routes], [L4], [Streams]).
    - Which backend serves: the most specific route, and in its pool a healthy
      backend whose circuit lets requests through; rotation is fair, a count of
      outstanding requests is the number of leases alive, a reload keeps the
      pools, and a backend is out of the rotation exactly while its probes fail
      ([Lb], [Routes], [Health], [EndpointGroup]).
    - What is held is what is counted: the byte budget, the connection caps, the
      flow slots, the flows of the client and the bytes of their queues are exact in
      every interleaving, refusals hold nothing, and everything is given back; a
      tunnel flow is charged for its copy buffers, or for those of its datagrams, a
      request for the body it holds, to the byte ([Limits], [L4], [Copy], [HttpBody],
      [HttpForward], [ConnPool], [TunUdp], [Flows], [Tunnel]).
      A connect ends by its deadline and a dead address cannot starve a live one
      ([Dial]).
    - What is forwarded: hop-by-hop headers stay on their hop, the declared length
      is the body's, no byte of one request is another's, a request that reached a
      backend is not sent to a second one unless it may be repeated, and datagrams
      arrive whole and in order ([Headers], [HttpForward], [HttpPlain], [WebSocket],
      [LocalHttp], [TunUdp], [Copy]).  What the local proxy lets through is one
      request for a proxied name also to a server that ends its lines at a bare line
      feed, of every head that has none ([LocalServer]).  The bytes of a TCP flow through the TUN
      device are the application's in both directions, its end follows its last
      byte, and its tables are given back ([NetTcp], [TunTcp]); a packet on the
      device is told apart by its header alone ([NetFrames]); a TLS connection is
      routed by its server name however its hello was cut ([ClientTls]).
    - What the process says of itself: a scrape reports between what was finished when
      it began and what was begun when it ended, and no histogram descends, with
      every counter a relaxed atomic ([Metrics]); the management surface answers
      nobody without the token and no answer depends on a secret ([Admin]); the
      counts of connections and streams are exact ([Connection]); no accept loop
      misses a request to stop, and the drain ends ([Shutdown]).
    - A server keeps its name over restarts, and takes it from one place
      ([Identity]); an endpoint that was given relays of its own uses no others
      ([Relay]).
    - The elevated service does nothing for a caller that has not proved its token and
      its account ([DesktopService]).
    - The client's names: a name keeps its address while an answer with it is held,
      an answer goes to the query that asked, and a cached answer is not served past
      its records ([VirtualIp], [Resolver], [DnsServer], [DnsCache]).

    Theorems that record where the code departs from what it means to do are
    kept beside the component they are about, as closed examples or with the
    condition under which the departure shows.

    ** Bounds and fuel

    Loops over data recurse on the data.  The others take fuel, and a theorem of
    each file shows that it is enough or that the loop ends by itself:

    - the frames of one buffer ([drain_frames]: a turn consumes at least two bytes,
      so the length plus one is enough), the two TLS loops (an entry consumes at
      least three or four bytes), the trimmers and splitters of [RustStd] and
      [LocalHttp] (a turn consumes at least one byte);
    - names of a DNS message: [read_name] has five turns for each byte of the
      message plus five, as it follows a bounded number of pointers; skipping a
      name consumes a byte a turn;
    - [free_id] tries each of the 65536 identifiers once; the walk over the
      suffixes of a host has one turn for each label;
    - the readers of a WebSocket refusal turn on bytes and reads, and take the sum
      of the two; the attempts of a request are bounded by the configured number,
      the openings of a tunnel by [OPEN_ATTEMPTS], the links of a path by 40 as the
      operating system bounds them;
    - the byte loops of a socket turn once for each octet received and each free
      place of the ring ([NetTcp]);
    - the drain looks ten times a second, so its limit in tenths and two more
      turns are enough ([Shutdown]);
    - the decimal printer has twenty digits for 64 bits.

    Counters keep their width; where a theorem needs a counter away from its
    wrap-around it says so.

    ** What is not modelled

    What the repository only calls: hyper's codec, QUIC and iroh's relays, TLS,
    the TUN devices and the sockets.  What decides nothing about a request:
    logs, the views shown to a user interface, the printing of the command line,
    and the desktop and mobile bindings with
    their user interfaces and platform services, the desktop's elevated service
    apart, of which the installation and the process it starts are left out.  A
    server's reading of chunks is not modelled apart from the proxy's
    ([LocalServer]).  Reading TOML into the
    configuration types (derived by serde) and the creation of a first
    configuration.  Of the client, the TCP state machine (smoltcp) and the packet
    parser (etherparse), which are parameters, and the starting and stopping of the
    tasks of the TUN proxy.  Time passes only while the code waits.

    ** This file

    Machine integers, byte strings and the [Result] type, with the generic
    lemmas and the proof automation the components use.

    - A [u8] is a [Z] in [0, 256); a [Vec<u8>], a [&[u8]] and the UTF-8 bytes
      of a [String] are all [bytes], a list of such integers.  The range is a
      separate predicate ([bytes_ok]) so that a theorem says where it needs it.
    - [to_le_bytes]/[from_le_bytes] (and the big-endian pair) are
      [uN::to_le_bytes]/[uN::from_le_bytes] at a width of [n] bytes.
    - [result] is [Result<T, E>]; [let?] is the [?] operator.  [let!] is [?] on
      [Option]. *)

From Stdlib Require Export Ascii String ZArith Lia.
From stdpp Require Export base list numbers gmap.

#[global] Open Scope Z_scope.

(** ** Results and options *)

Inductive result (A E : Type) : Type :=
| Ok (a : A)
| Err (e : E).
Arguments Ok {A E} a.
Arguments Err {A E} e.

Declare Scope rs_scope.
Delimit Scope rs_scope with rs.
#[global] Open Scope rs_scope.

Notation "'let?' x ':=' c 'in' k" :=
  (match c with Ok x => k | Err err => Err err end)
  (at level 10, x name, c at level 100, k at level 200,
   format "'[v' 'let?'  x  ':='  c  'in' '/' k ']'") : rs_scope.
Notation "'let?' ' p ':=' c 'in' k" :=
  (match c with Ok p => k | Err err => Err err end)
  (at level 10, p strict pattern, c at level 100, k at level 200) : rs_scope.
Notation "'let!' x ':=' c 'in' k" :=
  (match c with Some x => k | None => None end)
  (at level 10, x name, c at level 100, k at level 200,
   format "'[v' 'let!'  x  ':='  c  'in' '/' k ']'") : rs_scope.
Notation "'let!' ' p ':=' c 'in' k" :=
  (match c with Some p => k | None => None end)
  (at level 10, p strict pattern, c at level 100, k at level 200) : rs_scope.

Definition is_ok {A E} (r : result A E) : bool :=
  match r with Ok _ => true | Err _ => false end.

Definition ok_or {A E} (o : option A) (e : E) : result A E :=
  match o with Some a => Ok a | None => Err e end.

Definition is_none {A} (o : option A) : bool :=
  match o with None => true | Some _ => false end.

Definition is_some {A} (o : option A) : bool := negb (is_none o).

#[global] Instance result_eq_dec {A E} `{EqDecision A, EqDecision E} :
  EqDecision (result A E).
Proof. solve_decision. Defined.

(** ** Machine integers *)

Definition is_uint (w z : Z) : Prop := 0 <= z < 2 ^ w.
Abbreviation is_u8 := (is_uint 8).
Abbreviation is_u16 := (is_uint 16).
Abbreviation is_u32 := (is_uint 32).
Abbreviation is_u64 := (is_uint 64).
Definition is_i64 (z : Z) : Prop := - 2 ^ 63 <= z < 2 ^ 63.

#[global] Instance is_uint_dec w z : Decision (is_uint w z).
Proof. unfold is_uint. apply _. Defined.
#[global] Instance is_i64_dec z : Decision (is_i64 z).
Proof. unfold is_i64. apply _. Defined.

(** Release-mode arithmetic: the sum modulo [2^w]. *)
Definition wrapping (w z : Z) : Z := z mod 2 ^ w.

(** [usize::MAX] and the other unsigned maxima, and saturating arithmetic. *)
Definition umax (w : Z) : Z := 2 ^ w - 1.
Definition saturating_add (w a b : Z) : Z := Z.min (a + b) (umax w).
Definition saturating_sub (a b : Z) : Z := Z.max (a - b) 0.

(** [x as i64] on a [u64], and back. *)
Definition u64_as_i64 (z : Z) : Z := if z <? 2 ^ 63 then z else z - 2 ^ 64.
Definition i64_as_u64 (z : Z) : Z := z mod 2 ^ 64.

(** [a.abs_diff(b)]. *)
Definition abs_diff (a b : Z) : Z := Z.abs (a - b).

Lemma wrapping_small w z : is_uint w z -> wrapping w z = z.
Proof. intros. unfold wrapping. by apply Z.mod_small. Qed.

Lemma wrapping_range w z : 0 <= w -> is_uint w (wrapping w z).
Proof. intros. apply Z.mod_pos_bound. apply Z.pow_pos_nonneg; lia. Qed.

Lemma u64_as_i64_as_u64 z : is_i64 z -> u64_as_i64 (i64_as_u64 z) = z.
Proof.
  unfold is_i64, u64_as_i64, i64_as_u64. intros Hz.
  destruct (decide (0 <= z)) as [Hp|Hn].
  - rewrite Z.mod_small by lia. case_match; lia.
  - replace (z mod 2 ^ 64) with (z + 2 ^ 64).
    + case_match; lia.
    + apply Z.mod_unique with (-1); lia.
Qed.

Lemma i64_as_u64_as_i64 z : is_u64 z -> i64_as_u64 (u64_as_i64 z) = z.
Proof.
  unfold is_uint, u64_as_i64, i64_as_u64. intros Hz. case_match eqn:E.
  - rewrite Z.mod_small; lia.
  - symmetry. apply Z.mod_unique with (-1); lia.
Qed.

Lemma i64_as_u64_range z : is_u64 (i64_as_u64 z).
Proof. apply Z.mod_pos_bound. lia. Qed.

Lemma u64_as_i64_range z : is_u64 z -> is_i64 (u64_as_i64 z).
Proof. unfold is_uint, is_i64, u64_as_i64. case_match; lia. Qed.

(** ** Byte strings *)

Abbreviation bytes := (list Z).
Abbreviation bytes_ok := (Forall is_u8).

(** The bytes of an ASCII literal, as [b"..."] and ["..."] denote them. *)
Definition lit (s : string) : bytes :=
  Z.of_N ∘ N_of_ascii <$> list_ascii_of_string s.

Definition chr (c : ascii) : Z := Z.of_N (N_of_ascii c).

(** Length of a buffer, as the [usize] the code compares with. *)
Definition len {A} (l : list A) : Z := Z.of_nat (length l).

Lemma len_nonneg {A} (l : list A) : 0 <= len l.
Proof. unfold len. lia. Qed.

Lemma len_app {A} (l k : list A) : len (l ++ k) = len l + len k.
Proof. unfold len. rewrite length_app. lia. Qed.

Lemma len_cons {A} (x : A) l : len (x :: l) = 1 + len l.
Proof. unfold len. simpl. lia. Qed.

Lemma len_nil {A} : len (@nil A) = 0.
Proof. done. Qed.

(** ** Little- and big-endian integers *)

Fixpoint to_le_bytes (n : nat) (z : Z) : bytes :=
  match n with
  | O => []
  | S m => (z mod 256) :: to_le_bytes m (z / 256)
  end.

Fixpoint from_le_bytes (bs : bytes) : Z :=
  match bs with
  | [] => 0
  | b :: rest => b + 256 * from_le_bytes rest
  end.

Definition to_be_bytes (n : nat) (z : Z) : bytes := reverse (to_le_bytes n z).
Definition from_be_bytes (bs : bytes) : Z := from_le_bytes (reverse bs).

Lemma length_to_le_bytes n z : length (to_le_bytes n z) = n.
Proof. revert z. induction n; simpl; auto. Qed.

Lemma length_to_be_bytes n z : length (to_be_bytes n z) = n.
Proof. unfold to_be_bytes. by rewrite length_reverse, length_to_le_bytes. Qed.

Lemma pow256_succ n : 2 ^ (8 * Z.of_nat (S n)) = 256 * 2 ^ (8 * Z.of_nat n).
Proof.
  replace (8 * Z.of_nat (S n)) with (8 + 8 * Z.of_nat n) by lia.
  rewrite Z.pow_add_r by lia. reflexivity.
Qed.

Lemma from_to_le_bytes n z :
  is_uint (8 * Z.of_nat n) z -> from_le_bytes (to_le_bytes n z) = z.
Proof.
  unfold is_uint. revert z. induction n as [|n IH]; intros z Hz.
  - simpl in *. lia.
  - cbn [to_le_bytes from_le_bytes]. rewrite pow256_succ in Hz.
    rewrite IH.
    + pose proof (Z.div_mod z 256). lia.
    + split; [apply Z.div_pos; lia | apply Z.div_lt_upper_bound; lia].
Qed.

Lemma from_to_be_bytes n z :
  is_uint (8 * Z.of_nat n) z -> from_be_bytes (to_be_bytes n z) = z.
Proof.
  intros. unfold from_be_bytes, to_be_bytes. rewrite reverse_involutive.
  by apply from_to_le_bytes.
Qed.

Lemma to_from_le_bytes bs :
  bytes_ok bs -> to_le_bytes (length bs) (from_le_bytes bs) = bs.
Proof.
  induction 1 as [|b bs Hb Hbs IH]; [done|].
  cbn [length from_le_bytes to_le_bytes].
  unfold is_uint in Hb. replace (2 ^ 8) with 256 in Hb by done.
  rewrite (Z.mul_comm 256), Z.mod_add by lia.
  rewrite Z.div_add, (Z.mod_small b), (Z.div_small b) by lia.
  rewrite Z.add_0_l. by rewrite IH.
Qed.

Lemma to_from_be_bytes bs :
  bytes_ok bs -> to_be_bytes (length bs) (from_be_bytes bs) = bs.
Proof.
  intros H. unfold to_be_bytes, from_be_bytes.
  rewrite <- (length_reverse bs), to_from_le_bytes.
  - apply reverse_involutive.
  - by apply Forall_reverse.
Qed.

Lemma from_le_bytes_range bs :
  bytes_ok bs -> is_uint (8 * len bs) (from_le_bytes bs).
Proof.
  unfold is_uint, len. induction 1 as [|b bs Hb Hbs IH]; [simpl; lia|].
  cbn [length from_le_bytes]. rewrite pow256_succ.
  unfold is_uint in Hb. replace (2 ^ 8) with 256 in Hb by done. lia.
Qed.

Lemma from_be_bytes_range bs :
  bytes_ok bs -> is_uint (8 * len bs) (from_be_bytes bs).
Proof.
  intros. unfold from_be_bytes, len. rewrite <- length_reverse.
  by apply from_le_bytes_range, Forall_reverse.
Qed.

Lemma to_le_bytes_ok n z : bytes_ok (to_le_bytes n z).
Proof.
  revert z. induction n; intros z; constructor; auto.
  unfold is_uint. replace (2 ^ 8) with 256 by done. apply Z.mod_pos_bound. lia.
Qed.

Lemma to_be_bytes_ok n z : bytes_ok (to_be_bytes n z).
Proof. apply Forall_reverse, to_le_bytes_ok. Qed.

(** The two-byte big-endian form, which the wire formats index directly. *)
Lemma to_be_bytes_2 z : is_u16 z -> to_be_bytes 2 z = [z / 256; z mod 256].
Proof.
  intros [H0 H1]. unfold to_be_bytes. simpl.
  rewrite (Z.mod_small (z / 256)); [done|].
  split; [apply Z.div_pos; lia | apply Z.div_lt_upper_bound; lia].
Qed.

Lemma from_be_bytes_2 h l : from_be_bytes [h; l] = h * 256 + l.
Proof. unfold from_be_bytes. simpl. lia. Qed.

(** ** Generic list lemmas *)

Lemma forallb_Forall {A} (p : A -> bool) (l : list A) :
  forallb p l = true <-> Forall (fun x => p x = true) l.
Proof.
  induction l as [|x l IH]; simpl.
  - split; constructor.
  - rewrite andb_true_iff, IH, Forall_cons. done.
Qed.

Lemma existsb_Exists {A} (p : A -> bool) (l : list A) :
  existsb p l = true <-> exists x, x ∈ l /\ p x = true.
Proof.
  rewrite existsb_exists. setoid_rewrite list_elem_of_In. done.
Qed.

Lemma take_app_len {A} (l k : list A) : take (length l) (l ++ k) = l.
Proof. by rewrite take_app_length. Qed.

Lemma drop_app_len {A} (l k : list A) : drop (length l) (l ++ k) = k.
Proof. by rewrite drop_app_length. Qed.

(** ** Automation *)

Create HintDb rs discriminated.
#[export] Hint Resolve to_le_bytes_ok to_be_bytes_ok : rs.
#[export] Hint Resolve Forall_nil_2 Forall_cons_2 Forall_app_2 : rs.
#[export] Hint Resolve Forall_take Forall_drop : rs.
Create Rewrite HintDb len.
#[export] Hint Rewrite @len_app @len_cons @len_nil : len.

Ltac simp_len := autorewrite with len in *.

(** Turns the boolean tests of executable code into propositions. *)
Ltac bools :=
  repeat match goal with
  | H : _ && _ = true |- _ => apply andb_true_iff in H as [? ?]
  | H : _ && _ = false |- _ => apply andb_false_iff in H
  | H : _ || _ = true |- _ => apply orb_true_iff in H
  | H : _ || _ = false |- _ => apply orb_false_iff in H as [? ?]
  | H : negb _ = true |- _ => apply negb_true_iff in H
  | H : negb _ = false |- _ => apply negb_false_iff in H
  | H : bool_decide _ = true |- _ => apply bool_decide_eq_true in H
  | H : bool_decide _ = false |- _ => apply bool_decide_eq_false in H
  | H : (_ =? _) = true |- _ => apply Z.eqb_eq in H
  | H : (_ =? _) = false |- _ => apply Z.eqb_neq in H
  | H : (_ <? _) = true |- _ => apply Z.ltb_lt in H
  | H : (_ <? _) = false |- _ => apply Z.ltb_ge in H
  | H : (_ <=? _) = true |- _ => apply Z.leb_le in H
  | H : (_ <=? _) = false |- _ => apply Z.leb_gt in H
  end.

(** Case analysis on the guard or scrutinee that blocks the goal, recording
    the equation; and the same in a hypothesis. *)
Ltac step_goal :=
  match goal with
  | |- context [ match ?c with _ => _ end ] => destruct c eqn:?
  end.
Ltac step_in H :=
  match type of H with
  | context [ match ?c with _ => _ end ] => destruct c eqn:?
  end.
Ltac steps_in H := repeat (step_in H; simplify_eq/=).

(** Finishes a goal after the case analysis is done. *)
Ltac crush := intros; simpl in *; bools; simplify_eq/=; try done; try lia; eauto with rs.
