(* ===== verification/RustStd.v ===== *)
(** * The parts of [core::str] and [core::char] the sources use.

    A [&str] is its UTF-8 bytes.  Every predicate the sources pass to a
    trimming or splitting function tests for an ASCII character, and an ASCII
    character is one byte that occurs in no longer encoding, so the byte-wise
    functions below agree with the character-wise ones of the library. *)

From Stdlib Require Import Sorted.
From S2P Require Import Prelude.

(** ** ASCII classes and case *)

Definition is_ascii_uppercase (b : Z) : bool := (65 <=? b) && (b <=? 90).
Definition is_ascii_graphic (b : Z) : bool := (33 <=? b) && (b <=? 126).
Definition is_ascii_digit (b : Z) : bool := (48 <=? b) && (b <=? 57).

Definition ascii_lower (b : Z) : Z := if is_ascii_uppercase b then b + 32 else b.
Definition to_ascii_lowercase (s : bytes) : bytes := ascii_lower <$> s.
Definition eq_ignore_ascii_case (s t : bytes) : bool :=
  bool_decide (to_ascii_lowercase s = to_ascii_lowercase t).

Lemma ascii_lower_idemp b : ascii_lower (ascii_lower b) = ascii_lower b.
Proof. unfold ascii_lower, is_ascii_uppercase. repeat case_match; crush. Qed.

Lemma to_ascii_lowercase_idemp s :
  to_ascii_lowercase (to_ascii_lowercase s) = to_ascii_lowercase s.
Proof.
  unfold to_ascii_lowercase. rewrite <- list_fmap_compose.
  apply list_fmap_ext. intros. apply ascii_lower_idemp.
Qed.

Lemma to_ascii_lowercase_app s t :
  to_ascii_lowercase (s ++ t) = to_ascii_lowercase s ++ to_ascii_lowercase t.
Proof. apply fmap_app. Qed.

Lemma length_to_ascii_lowercase s : length (to_ascii_lowercase s) = length s.
Proof. apply length_fmap. Qed.

(** A string with no upper-case letter is its own lower-casing. *)
Lemma to_ascii_lowercase_id s :
  Forall (fun b => is_ascii_uppercase b = false) s -> to_ascii_lowercase s = s.
Proof.
  induction 1 as [|b s Hb _ IH]; [done|]. unfold to_ascii_lowercase in *.
  rewrite fmap_cons, IH. unfold ascii_lower. by rewrite Hb.
Qed.

Lemma ascii_lower_not_upper b : is_ascii_uppercase (ascii_lower b) = false.
Proof.
  unfold ascii_lower. destruct (is_ascii_uppercase b) eqn:E; [|done].
  unfold is_ascii_uppercase in *. crush.
Qed.

Lemma to_ascii_lowercase_no_upper s :
  Forall (fun b => is_ascii_uppercase b = false) (to_ascii_lowercase s).
Proof. apply Forall_fmap, Forall_true. intros. apply ascii_lower_not_upper. Qed.

(** Lower-casing changes neither a character that is not a letter nor the set
    of graphic characters. *)
Lemma ascii_lower_eq_nonletter b c :
  (c < 65 \/ 122 < c \/ (90 < c < 97)) -> (ascii_lower b = c <-> b = c).
Proof. unfold ascii_lower, is_ascii_uppercase. case_match; crush. Qed.

Lemma ascii_lower_graphic b : is_ascii_graphic (ascii_lower b) = is_ascii_graphic b.
Proof.
  unfold ascii_lower, is_ascii_uppercase, is_ascii_graphic.
  destruct ((65 <=? b) && (b <=? 90)) eqn:E; [|done]. crush.
Qed.

(** ** Trimming, stripping and splitting *)

Fixpoint drop_while (p : Z -> bool) (s : bytes) : bytes :=
  match s with
  | [] => []
  | b :: t => if p b then drop_while p t else s
  end.

Definition trim_start_matches (p : Z -> bool) (s : bytes) : bytes := drop_while p s.
Definition trim_end_matches (p : Z -> bool) (s : bytes) : bytes :=
  reverse (drop_while p (reverse s)).
Definition trim_matches (p : Z -> bool) (s : bytes) : bytes :=
  trim_start_matches p (trim_end_matches p s).

(** [s.strip_prefix(c)] for a one-byte [c]. *)
Definition strip_prefix_char (c : Z) (s : bytes) : option bytes :=
  match s with
  | b :: t => if b =? c then Some t else None
  | [] => None
  end.

(** [s.strip_prefix(t)] and [s.strip_suffix(t)]. *)
Fixpoint strip_prefix (t s : bytes) : option bytes :=
  match t, s with
  | [], _ => Some s
  | c :: t', b :: s' => if b =? c then strip_prefix t' s' else None
  | _ :: _, [] => None
  end.
Definition strip_suffix (t s : bytes) : option bytes :=
  match strip_prefix (reverse t) (reverse s) with
  | Some r => Some (reverse r)
  | None => None
  end.

Definition starts_with_char (c : Z) (s : bytes) : bool :=
  match s with b :: _ => b =? c | [] => false end.
Definition ends_with_char (c : Z) (s : bytes) : bool :=
  starts_with_char c (reverse s).

(** [s.split_once(c)]: around the first occurrence. *)
Fixpoint split_once (c : Z) (s : bytes) : option (bytes * bytes) :=
  match s with
  | [] => None
  | b :: t =>
      if b =? c then Some ([], t)
      else match split_once c t with
           | Some (h, r) => Some (b :: h, r)
           | None => None
           end
  end.

(** [str::split] on a character: always at least one piece. *)
Fixpoint split_on (c : Z) (s : bytes) : list bytes :=
  match s with
  | [] => [[]]
  | b :: s =>
      if b =? c then [] :: split_on c s
      else match split_on c s with
           | [] => [[b]]
           | piece :: rest => (b :: piece) :: rest
           end
  end.

(** [s.find(c)]. *)
Fixpoint find_char (c : Z) (s : bytes) : option nat :=
  match s with
  | [] => None
  | b :: t => if b =? c then Some O else S <$> find_char c t
  end.

Definition contains_char (c : Z) (s : bytes) : bool := existsb (fun b => b =? c) s.

Lemma drop_while_spec p s :
  exists d, s = d ++ drop_while p s /\ Forall (fun b => p b = true) d /\
            (forall b t, drop_while p s = b :: t -> p b = false).
Proof.
  induction s as [|b s IH]; simpl; [by exists []|].
  destruct (p b) eqn:E.
  - destruct IH as (d & Hd & Hall & Hh). exists (b :: d). simpl.
    split; [by rewrite <- Hd|]. split; [by constructor|done].
  - exists []. split; [done|]. split; [constructor|]. intros ?? [= -> ->]. done.
Qed.

Lemma drop_while_id p b s : p b = false -> drop_while p (b :: s) = b :: s.
Proof. simpl. by intros ->. Qed.

Lemma drop_while_idemp p s : drop_while p (drop_while p s) = drop_while p s.
Proof.
  destruct (drop_while_spec p s) as (_ & _ & _ & Hh).
  destruct (drop_while p s) eqn:E; [done|]. apply drop_while_id. eauto.
Qed.

Lemma drop_while_all p s :
  Forall (fun b => p b = true) s -> drop_while p s = [].
Proof. induction 1 as [|b s Hb _ IH]; simpl; [done|]. by rewrite Hb. Qed.

Lemma drop_while_app_all p d s :
  Forall (fun b => p b = true) d -> drop_while p (d ++ s) = drop_while p s.
Proof. induction 1 as [|b d Hb _ IH]; simpl; [done|]. by rewrite Hb. Qed.

Lemma drop_while_none p s :
  Forall (fun b => p b = false) s -> drop_while p s = s.
Proof. destruct 1; simpl; [done|]. by rewrite H. Qed.

Lemma drop_while_fmap p f s :
  (forall b, p (f b) = p b) -> drop_while p (f <$> s) = f <$> drop_while p s.
Proof.
  intros Hf. induction s as [|b s IH]; [done|].
  cbn [fmap list_fmap drop_while]. rewrite Hf. by destruct (p b).
Qed.

Lemma trim_end_matches_spec p s :
  exists d, s = trim_end_matches p s ++ d /\ Forall (fun b => p b = true) d.
Proof.
  unfold trim_end_matches.
  destruct (drop_while_spec p (reverse s)) as (d & Hd & Hall & _).
  exists (reverse d). split; [|by apply Forall_reverse].
  rewrite <- reverse_app, <- Hd. by rewrite reverse_involutive.
Qed.

Lemma trim_end_matches_idemp p s :
  trim_end_matches p (trim_end_matches p s) = trim_end_matches p s.
Proof.
  unfold trim_end_matches. by rewrite reverse_involutive, drop_while_idemp.
Qed.

Lemma trim_end_matches_app_all p s d :
  Forall (fun b => p b = true) d ->
  trim_end_matches p (s ++ d) = trim_end_matches p s.
Proof.
  intros Hd. unfold trim_end_matches.
  by rewrite reverse_app, drop_while_app_all by by apply Forall_reverse.
Qed.

Lemma trim_end_matches_fmap p f s :
  (forall b, p (f b) = p b) ->
  trim_end_matches p (f <$> s) = f <$> trim_end_matches p s.
Proof.
  intros. unfold trim_end_matches.
  by rewrite <- fmap_reverse, drop_while_fmap, <- fmap_reverse.
Qed.

Lemma trim_matches_fmap p f s :
  (forall b, p (f b) = p b) -> trim_matches p (f <$> s) = f <$> trim_matches p s.
Proof.
  intros. unfold trim_matches, trim_start_matches.
  by rewrite trim_end_matches_fmap, drop_while_fmap.
Qed.

Lemma trim_matches_none p s :
  Forall (fun b => p b = false) s -> trim_matches p s = s.
Proof.
  intros H. unfold trim_matches, trim_start_matches, trim_end_matches.
  rewrite (drop_while_none p (reverse s)) by by apply Forall_reverse.
  rewrite reverse_involutive. by apply drop_while_none.
Qed.

Lemma trim_end_matches_last p s b :
  p b = false -> trim_end_matches p (s ++ [b]) = s ++ [b].
Proof.
  intros H. unfold trim_end_matches. rewrite reverse_snoc. simpl. rewrite H.
  by rewrite reverse_cons, reverse_involutive.
Qed.

Lemma strip_prefix_Some t s r : strip_prefix t s = Some r <-> s = t ++ r.
Proof.
  revert s. induction t as [|c t IH]; intros s; simpl.
  - split; [by intros [= ->]|by intros ->].
  - destruct s as [|b s]; [done|]. destruct (b =? c) eqn:E; bools.
    + subst. rewrite IH. split; [by intros ->|by intros [= ->]].
    + split; [done|]. intros [= -> ->]. done.
Qed.

Lemma strip_suffix_Some t s r : strip_suffix t s = Some r <-> s = r ++ t.
Proof.
  unfold strip_suffix. split.
  - destruct (strip_prefix _ _) eqn:E; [|done]. intros [= <-].
    apply strip_prefix_Some in E.
    rewrite <- (reverse_involutive s), E, reverse_app, reverse_involutive. done.
  - intros ->. rewrite reverse_app.
    assert (strip_prefix (reverse t) (reverse t ++ reverse r) = Some (reverse r)) as ->
      by by apply strip_prefix_Some.
    by rewrite reverse_involutive.
Qed.

Lemma strip_prefix_char_Some c s r : strip_prefix_char c s = Some r <-> s = c :: r.
Proof.
  destruct s as [|b s]; simpl; [done|]. destruct (b =? c) eqn:E; bools; subst.
  - split; [by intros [= ->]|by intros [= ->]].
  - split; [done|]. intros [= -> ->]. done.
Qed.

Lemma ends_with_char_true c s : ends_with_char c s = true <-> exists r, s = r ++ [c].
Proof.
  unfold ends_with_char. split.
  - destruct (reverse s) as [|b t] eqn:E; simpl; [done|]. intros. bools. subst.
    exists (reverse t). rewrite <- (reverse_involutive s), E. apply reverse_cons.
  - intros [r ->]. rewrite reverse_snoc. simpl. apply Z.eqb_refl.
Qed.

Lemma split_once_Some c s h r :
  split_once c s = Some (h, r) -> s = h ++ c :: r /\ c ∉ h.
Proof.
  revert h. induction s as [|b s IH]; intros h; simpl; [done|].
  destruct (b =? c) eqn:E; bools.
  - intros [= <- <-]. subst. split; [done|apply not_elem_of_nil].
  - destruct (split_once c s) as [[h' r']|]; [|done]. intros [= <- <-].
    destruct (IH h') as [-> Hn]; [done|]. split; [done|].
    intros [->|?]%elem_of_cons; done.
Qed.

Lemma split_once_app c h r :
  c ∉ h -> split_once c (h ++ c :: r) = Some (h, r).
Proof.
  induction h as [|b h IH]; simpl; intros Hn.
  - by rewrite Z.eqb_refl.
  - destruct (b =? c) eqn:E; bools.
    + subst. exfalso. apply Hn. apply elem_of_cons. auto.
    + rewrite IH; [done|]. intros ?. apply Hn. apply elem_of_cons. auto.
Qed.

Lemma split_once_None c s : split_once c s = None <-> c ∉ s.
Proof.
  induction s as [|b s IH]; simpl.
  - split; [intros _; apply not_elem_of_nil|done].
  - rewrite not_elem_of_cons. destruct (b =? c) eqn:E; bools.
    + subst. split; [done|tauto].
    + destruct (split_once c s) as [[??]|]; split; [done|..].
      * intros [_ Hn]. by apply IH in Hn.
      * intros _. split; [congruence|by apply IH].
      * done.
Qed.

Lemma find_char_Some c s n :
  find_char c s = Some n -> exists h r, s = h ++ c :: r /\ length h = n /\ c ∉ h.
Proof.
  revert n. induction s as [|b s IH]; intros n; simpl; [done|].
  destruct (b =? c) eqn:E; bools.
  - intros [= <-]. subst. exists [], s. split; [done|]. split; [done|apply not_elem_of_nil].
  - destruct (find_char c s) as [m|]; [|done]. intros [= <-].
    destruct (IH m) as (h & r & -> & <- & Hn); [done|].
    exists (b :: h), r. split; [done|]. split; [done|].
    by intros [->|?]%elem_of_cons.
Qed.

Lemma find_char_none c s : find_char c s = None <-> c ∉ s.
Proof.
  induction s as [|b s IH]; cbn; [split; [intros _; apply not_elem_of_nil|done]|]. rewrite not_elem_of_cons.
  destruct (b =? c) eqn:E; bools; [subst; split; [done|by intros []]|]. destruct (find_char c s); [naive_solver|].
  rewrite <- IH. naive_solver.
Qed.

Lemma find_char_app c h r : c ∉ h -> find_char c (h ++ c :: r) = Some (length h).
Proof.
  induction h as [|b h IH]; simpl; intros Hn.
  - by rewrite Z.eqb_refl.
  - apply not_elem_of_cons in Hn as [??].
    rewrite (proj2 (Z.eqb_neq b c)) by congruence. by rewrite IH.
Qed.

Lemma contains_char_false c s : contains_char c s = false <-> c ∉ s.
Proof.
  unfold contains_char. induction s as [|b s IH]; simpl.
  - split; [intros _; apply not_elem_of_nil|done].
  - rewrite orb_false_iff, IH, not_elem_of_cons, Z.eqb_neq.
    split; intros [??]; split; congruence.
Qed.

(** ** [str::parse] for unsigned integers

    An optional [+], then at least one decimal digit, with overflow checked
    against the maximum of the type. *)

Fixpoint parse_digits (max acc : Z) (s : bytes) : option Z :=
  match s with
  | [] => Some acc
  | b :: t =>
      if is_ascii_digit b then
        let acc' := 10 * acc + (b - 48) in
        if acc' <=? max then parse_digits max acc' t else None
      else None
  end.

Definition parse_uint (max : Z) (s : bytes) : option Z :=
  match s with
  | [] => None
  | b :: t =>
      if b =? 43 (* + *) then
        match t with [] => None | _ => parse_digits max 0 t end
      else parse_digits max 0 s
  end.

Definition parse_u16 : bytes -> option Z := parse_uint (umax 16).

Lemma parse_digits_range max acc s z :
  0 <= acc <= max -> parse_digits max acc s = Some z -> 0 <= z <= max.
Proof.
  revert acc. induction s as [|b s IH]; intros acc Ha; simpl.
  - intros [= <-]. done.
  - destruct (is_ascii_digit b) eqn:Ed; [|done].
    case_match eqn:El; [|done]. apply IH.
    unfold is_ascii_digit in Ed. crush.
Qed.

Lemma parse_uint_range max s p : 0 <= max -> parse_uint max s = Some p -> 0 <= p <= max.
Proof.
  intros Hm. unfold parse_uint. repeat case_match; try done; apply parse_digits_range; lia.
Qed.

Lemma parse_u16_range s p : parse_u16 s = Some p -> is_u16 p.
Proof. intros H. apply parse_uint_range in H; unfold is_uint, umax in *; lia. Qed.

(** ** Decimal rendering, as [{}] formats an unsigned integer *)

Fixpoint digits_of (fuel : nat) (z : Z) (acc : bytes) : bytes :=
  match fuel with
  | O => acc
  | S f =>
      let acc' := (48 + z mod 10) :: acc in
      if z <? 10 then acc' else digits_of f (z / 10) acc'
  end.

(** Twenty digits hold any [u64]. *)
Definition show_uint (z : Z) : bytes := digits_of 20 z [].

Fixpoint digits_value (acc : Z) (s : bytes) : Z :=
  match s with
  | [] => acc
  | b :: t => digits_value (10 * acc + (b - 48)) t
  end.

Lemma digits_value_app acc s t :
  digits_value acc (s ++ t) = digits_value (digits_value acc s) t.
Proof. revert acc. induction s; simpl; auto. Qed.

Lemma digits_value_mono acc s :
  0 <= acc -> Forall (fun b => is_ascii_digit b = true) s -> acc <= digits_value acc s.
Proof.
  intros Ha H. revert acc Ha. induction H as [|b s Hb _ IH]; intros acc Ha; simpl; [lia|].
  unfold is_ascii_digit in Hb. bools. specialize (IH (10 * acc + (b - 48))). lia.
Qed.

(** Checked parsing of digits succeeds exactly when the value fits. *)
Lemma parse_digits_value max acc s :
  0 <= acc -> Forall (fun b => is_ascii_digit b = true) s ->
  digits_value acc s <= max -> parse_digits max acc s = Some (digits_value acc s).
Proof.
  intros Ha H. revert acc Ha. induction H as [|b s Hb Hs IH]; intros acc Ha Hm; simpl; [done|].
  rewrite Hb. simpl in Hm. unfold is_ascii_digit in Hb. bools.
  pose proof (digits_value_mono (10 * acc + (b - 48)) s ltac:(lia) Hs).
  rewrite (proj2 (Z.leb_le _ _)) by lia. apply IH; lia.
Qed.

Lemma digits_of_spec fuel z acc :
  0 <= z < 10 ^ Z.of_nat fuel ->
  Forall (fun b => is_ascii_digit b = true) acc ->
  (0 < Z.of_nat fuel) ->
  Forall (fun b => is_ascii_digit b = true) (digits_of fuel z acc) /\
  digits_of fuel z acc <> [] /\
  forall s, digits_value 0 (digits_of fuel z acc ++ s) = digits_value z (acc ++ s).
Proof.
  revert z acc. induction fuel as [|f IH]; intros z acc Hz Hacc Hf; [lia|].
  cbn [digits_of].
  assert (is_ascii_digit (48 + z mod 10) = true) as Hd.
  { unfold is_ascii_digit. pose proof (Z.mod_pos_bound z 10).
    rewrite !(proj2 (Z.leb_le _ _)) by lia. done. }
  destruct (z <? 10) eqn:E; bools.
  - split; [by constructor|]. split; [done|]. intros s. simpl.
    rewrite Z.mod_small by lia. f_equal. lia.
  - assert (0 < Z.of_nat f) as Hf'.
    { destruct f; [|lia]. change (10 ^ Z.of_nat 1) with 10 in Hz. lia. }
    replace (Z.of_nat (S f)) with (1 + Z.of_nat f) in Hz by lia.
    rewrite Z.pow_add_r in Hz by lia.
    destruct (IH (z / 10) ((48 + z mod 10) :: acc)) as (H1 & H2 & H3).
    + split; [apply Z.div_pos; lia|apply Z.div_lt_upper_bound; lia].
    + by constructor.
    + done.
    + split; [done|]. split; [done|]. intros s. rewrite H3. simpl. f_equal.
      pose proof (Z.div_mod z 10). lia.
Qed.

(** Printing a port and parsing it back gives the port. *)
Lemma parse_u16_show p : is_u16 p -> parse_u16 (show_uint p) = Some p.
Proof.
  intros [H0 H1]. unfold parse_u16, show_uint.
  destruct (digits_of_spec 20 p []) as (Hd & Hne & Hv); [lia|constructor|lia|].
  specialize (Hv []). rewrite !app_nil_r in Hv. cbn [digits_value] in Hv.
  remember (digits_of 20 p []) as s eqn:Es. clear Es. unfold parse_uint.
  destruct s as [|b t]; [done|].
  assert (b =? 43 = false) as ->.
  { apply Forall_cons in Hd as [Hb _]. unfold is_ascii_digit in Hb. bools.
    apply Z.eqb_neq. lia. }
  rewrite <- Hv. apply parse_digits_value; [lia|done|]. unfold umax. lia.
Qed.

Lemma show_uint_digits p : is_u64 p -> Forall (fun b => is_ascii_digit b = true) (show_uint p).
Proof.
  intros [H0 H1].
  destruct (digits_of_spec 20 p []) as (Hd & _ & _); [lia|constructor|lia|done].
Qed.

(** ** [str::from_utf8]

    The table of well-formed UTF-8 byte sequences as an automaton: after each
    byte, what the next byte of the current character may be. *)

Inductive utf8_state :=
| U_start                (* at a character boundary *)
| U_cont (n : nat)       (* [S n] continuation bytes outstanding *)
| U_first (lo hi : Z) (n : nat). (* next byte in [lo, hi], then [n] more *)

Definition in_range (lo hi b : Z) : bool := (lo <=? b) && (b <=? hi).

Definition utf8_after (n : nat) : utf8_state :=
  match n with O => U_start | S m => U_cont m end.

Definition utf8_step (st : utf8_state) (b : Z) : option utf8_state :=
  match st with
  | U_start =>
      if in_range 0 0x7f b then Some U_start
      else if in_range 0xc2 0xdf b then Some (U_cont 0)
      else if b =? 0xe0 then Some (U_first 0xa0 0xbf 1)
      else if in_range 0xe1 0xec b then Some (U_cont 1)
      else if b =? 0xed then Some (U_first 0x80 0x9f 1)
      else if in_range 0xee 0xef b then Some (U_cont 1)
      else if b =? 0xf0 then Some (U_first 0x90 0xbf 2)
      else if in_range 0xf1 0xf3 b then Some (U_cont 2)
      else if b =? 0xf4 then Some (U_first 0x80 0x8f 2)
      else None
  | U_cont n => if in_range 0x80 0xbf b then Some (utf8_after n) else None
  | U_first lo hi n => if in_range lo hi b then Some (utf8_after n) else None
  end.

Fixpoint utf8_run (st : utf8_state) (s : bytes) : option utf8_state :=
  match s with
  | [] => Some st
  | b :: t => match utf8_step st b with Some st' => utf8_run st' t | None => None end
  end.

Definition utf8_valid (s : bytes) : bool :=
  match utf8_run U_start s with Some U_start => true | _ => false end.

(** [String::from_utf8(bytes).ok()]. *)
Definition from_utf8 (s : bytes) : option bytes := if utf8_valid s then Some s else None.

Lemma utf8_run_app st s t :
  utf8_run st (s ++ t) =
  match utf8_run st s with Some st' => utf8_run st' t | None => None end.
Proof.
  revert st. induction s as [|b s IH]; intros st; simpl; [done|].
  destruct (utf8_step st b); [apply IH|done].
Qed.

Lemma utf8_valid_ascii s :
  Forall (fun b => in_range 0 0x7f b = true) s -> utf8_valid s = true.
Proof.
  intros H. unfold utf8_valid. assert (utf8_run U_start s = Some U_start) as ->; [|done].
  induction H as [|b s Hb _ IH]; [done|]. cbn [utf8_run utf8_step]. by rewrite Hb.
Qed.

Lemma utf8_valid_graphic s :
  Forall (fun b => is_ascii_graphic b = true) s -> utf8_valid s = true.
Proof.
  intros H. apply utf8_valid_ascii. eapply Forall_impl; [exact H|].
  intros b Hb. unfold is_ascii_graphic, in_range in *. crush.
Qed.

#[export] Hint Resolve utf8_valid_graphic to_ascii_lowercase_no_upper : rs.

Lemma drop_while_snoc p s b :
  p b = false -> drop_while p (s ++ [b]) = drop_while p s ++ [b].
Proof.
  intros Hb. induction s as [|c s IH]; simpl; [by rewrite Hb|]. by destruct (p c).
Qed.

Lemma trim_end_matches_cons p b s :
  p b = false -> trim_end_matches p (b :: s) = b :: trim_end_matches p s.
Proof.
  intros Hb. unfold trim_end_matches. rewrite reverse_cons, drop_while_snoc by done.
  apply reverse_snoc.
Qed.

Lemma trim_end_matches_prefix p s : trim_end_matches p s `prefix_of` s.
Proof. destruct (trim_end_matches_spec p s) as (d & Hd & _). by exists d. Qed.

Lemma trim_end_matches_nil p s :
  trim_end_matches p s = [] -> Forall (fun b => p b = true) s.
Proof.
  destruct (trim_end_matches_spec p s) as (d & Hd & ?). intros E. rewrite E in Hd.
  by subst.
Qed.

(** ** [str::trim]: the characters with the Unicode [White_Space] property *)

Definition ws_chars : list bytes :=
  [[9]; [10]; [11]; [12]; [13]; [32]; [0xC2; 0x85]; [0xC2; 0xA0]; [0xE1; 0x9A; 0x80];
   [0xE2; 0x80; 0xA8]; [0xE2; 0x80; 0xA9]; [0xE2; 0x80; 0xAF]; [0xE2; 0x81; 0x9F];
   [0xE3; 0x80; 0x80]]
  ++ ((fun i => [0xE2; 0x80; i]) <$> seqZ 0x80 11).

(** The rest after the first of the given prefixes that applies. *)
Fixpoint strip_any (strip : bytes -> bytes -> option bytes) (ts : list bytes) (s : bytes)
    : option bytes :=
  match ts with
  | [] => None
  | t :: ts => match strip t s with Some r => Some r | None => strip_any strip ts s end
  end.

Fixpoint strip_all (fuel : nat) (strip : bytes -> bytes -> option bytes) (s : bytes) : bytes :=
  match fuel with
  | O => s
  | S fuel =>
      match strip_any strip ws_chars s with
      | Some r => strip_all fuel strip r
      | None => s
      end
  end.

(** Every turn takes at least one byte off, so the length is fuel enough. *)
Definition trim (s : bytes) : bytes :=
  let s := strip_all (length s) strip_prefix s in
  strip_all (length s) strip_suffix s.

Definition parse_usize : bytes -> option Z := parse_uint (umax 64).

(** [chars().filter(|c| !c.is_whitespace())]: every white-space character goes,
    the other bytes stay. *)
Fixpoint remove_ws (fuel : nat) (s : bytes) : bytes :=
  match fuel, s with
  | O, _ | _, [] => []
  | S fuel, b :: t =>
      match strip_any strip_prefix ws_chars s with
      | Some r => remove_ws fuel r
      | None => b :: remove_ws fuel t
      end
  end.

Definition is_ascii_lowercase (b : Z) : bool := (97 <=? b) && (b <=? 122).
Definition ascii_upper (b : Z) : Z := if is_ascii_lowercase b then b - 32 else b.
Definition to_ascii_uppercase (s : bytes) : bytes := ascii_upper <$> s.

(** ** Substrings *)

Definition starts_with (t s : bytes) : bool := is_some (strip_prefix t s).

Fixpoint contains_str (t s : bytes) : bool :=
  starts_with t s || match s with [] => false | _ :: s => contains_str t s end.

(** [s.replace("{}", by)]: every occurrence, left to right, not overlapping. *)
Fixpoint replace_braces (by_ s : bytes) : bytes :=
  match s with
  | 123 :: (125 :: t) => by_ ++ replace_braces by_ t
  | b :: t => b :: replace_braces by_ t
  | [] => []
  end.

(** [s.rsplit_once(c)]: at the last occurrence. *)
Definition rsplit_once (c : Z) (s : bytes) : option (bytes * bytes) :=
  match split_once c (reverse s) with
  | Some (r, h) => Some (reverse h, reverse r)
  | None => None
  end.

(** ** Sorting *)

(** [slice::sort_by_key]: stable. *)
Section SortByKey.
Context {A : Type} (key : A -> Z).

Fixpoint insert_by_key (x : A) (l : list A) : list A :=
  match l with
  | [] => [x]
  | y :: rest => if key x <=? key y then x :: l else y :: insert_by_key x rest
  end.
Definition sort_by_key (l : list A) : list A := fold_right insert_by_key [] l.

Definition key_le (x y : A) : Prop := key x <= key y.

Lemma insert_by_key_perm x l : insert_by_key x l ≡ₚ x :: l.
Proof. induction l as [|y l IH]; cbn; [done|]. case_match; [done|]. rewrite IH. constructor. Qed.

Lemma insert_by_key_sorted x l : StronglySorted key_le l -> StronglySorted key_le (insert_by_key x l).
Proof.
  induction 1 as [|y l Hs IH Hall]; cbn; [repeat constructor|]. destruct (_ <=? _) eqn:E; bools.
  - constructor; [by constructor|]. constructor; [done|]. eapply Forall_impl; [exact Hall|].
    intros z Hz. unfold key_le in *. lia.
  - constructor; [done|]. rewrite insert_by_key_perm. constructor; [unfold key_le; lia|done].
Qed.

Lemma sort_by_key_spec l : sort_by_key l ≡ₚ l /\ StronglySorted key_le (sort_by_key l).
Proof.
  induction l as [|x l [IHp IHs]]; cbn; [split; [done|constructor]|].
  split; [by rewrite insert_by_key_perm, IHp|by apply insert_by_key_sorted].
Qed.
End SortByKey.
