(* ===== verification/Slices.v ===== *)
(** * Slices with their panics

    A computation that indexes a slice, or loops on a condition, ends in one of
    three ways: with a value, with a panic (an index out of range), or not at all
    (more turns than the bound of the model).  The components that parse what a
    stranger sent are written in this type, so that their theorems say that the
    last two never happen.  Positions are [usize] values, kept as [Z]. *)

From S2P Require Import Prelude RustStd.

Inductive run (A : Type) : Type :=
| Val (a : A)
| Panics
| Spins.
Arguments Val {A} a.
Arguments Panics {A}.
Arguments Spins {A}.

Notation "'let*' x ':=' c 'in' k" :=
  (match c with Val x => k | Panics => Panics | Spins => Spins end)
  (at level 10, x name, c at level 100, k at level 200,
   format "'[v' 'let*'  x  ':='  c  'in' '/' k ']'") : rs_scope.
Notation "'let*' ' p ':=' c 'in' k" :=
  (match c with Val p => k | Panics => Panics | Spins => Spins end)
  (at level 10, p strict pattern, c at level 100, k at level 200) : rs_scope.

(** [s[i]] *)
Definition index {A} (s : list A) (i : Z) : run A :=
  match s !! Z.to_nat i with Some b => Val b | None => Panics end.

(** [&s[a..b]] *)
Definition slice {A} (s : list A) (a b : Z) : run (list A) :=
  if (a <=? b) && (b <=? len s) then Val (take (Z.to_nat (b - a)) (drop (Z.to_nat a) s)) else Panics.

(** [s.get(i)] *)
Definition get {A} (s : list A) (i : Z) : option A := s !! Z.to_nat i.

(** [s[i] = b] *)
Definition index_set {A} (s : list A) (i : Z) (b : A) : run (list A) :=
  if (i <? len s) then Val (<[Z.to_nat i := b]> s) else Panics.

(** [u16::from_be_bytes([s[i], s[i + 1]])] *)
Definition index_u16 (s : bytes) (i : Z) : run Z :=
  let* h := index s i in
  let* l := index s (i + 1) in
  Val (from_be_bytes [h; l]).

(** ** Lemmas *)

Lemma index_Val {A} (s : list A) i b : index s i = Val b <-> s !! Z.to_nat i = Some b.
Proof. unfold index. destruct (s !! Z.to_nat i); split; congruence. Qed.

Lemma index_inside {A} (s : list A) i : 0 <= i < len s -> exists b, index s i = Val b.
Proof.
  intros Hi. destruct (lookup_lt_is_Some_2 s (Z.to_nat i)) as [b Hb]; [unfold len in Hi; lia|].
  exists b. by apply index_Val.
Qed.

Lemma index_ok s i b : bytes_ok s -> index s i = Val b -> is_u8 b.
Proof. intros Hs Hi. apply index_Val in Hi. by eapply Forall_lookup_1. Qed.

Lemma slice_inside {A} (s : list A) a b :
  0 <= a <= b -> b <= len s -> slice s a b = Val (take (Z.to_nat (b - a)) (drop (Z.to_nat a) s)).
Proof.
  intros Ha Hb. unfold slice. by rewrite (proj2 (Z.leb_le a b)), (proj2 (Z.leb_le b (len s))) by lia.
Qed.

Lemma index_u16_inside s i : 0 <= i -> i + 1 < len s -> exists z, index_u16 s i = Val z.
Proof.
  intros H0 H1. unfold index_u16. destruct (index_inside s i) as [h ->]; [lia|].
  destruct (index_inside s (i + 1)) as [l ->]; [lia|]. eauto.
Qed.

(** Reading past a known prefix. *)
Lemma index_app_r {A} (s t : list A) i : len s <= i -> index (s ++ t) i = index t (i - len s).
Proof.
  intros Hi. unfold index, len in *. rewrite lookup_app_r by lia.
  by replace (Z.to_nat i - length s)%nat with (Z.to_nat (i - Z.of_nat (length s))) by lia.
Qed.

Lemma index_0 {A} (x : A) s : index (x :: s) 0 = Val x.
Proof. done. Qed.

Lemma slice_app_mid {A} (s t u : list A) a b :
  a = len s -> b = len s + len t -> slice (s ++ t ++ u) a b = Val t.
Proof.
  intros -> ->. pose proof (len_nonneg s). pose proof (len_nonneg t). pose proof (len_nonneg u).
  rewrite slice_inside by (rewrite ?len_app; lia).
  f_equal. replace (Z.to_nat (len s)) with (length s) by (unfold len; lia).
  replace (Z.to_nat (len s + len t - len s)) with (length t) by (unfold len; lia).
  by rewrite drop_app_len, take_app_len.
Qed.

(** Writing the first two elements. *)
Lemma set_byte_0 {A} (h a : A) t : index_set (h :: t) 0 a = Val (a :: t).
Proof. unfold index_set. by rewrite (proj2 (Z.ltb_lt _ _)) by (simp_len; pose proof (len_nonneg t); lia). Qed.
Lemma set_byte_1 {A} (h l a : A) t : index_set (h :: l :: t) 1 a = Val (h :: a :: t).
Proof. unfold index_set. by rewrite (proj2 (Z.ltb_lt _ _)) by (simp_len; pose proof (len_nonneg t); lia). Qed.
