(* ===== verification/Preface.v ===== *)
(** * The L4 preface and the status byte (nexapipe-proto/src/preface.rs).

    The client opens a tunnel stream with a fixed preface naming a protocol, a
    host and a port; the server decodes it from however many bytes have
    arrived and answers with one status byte.  [encode]/[decode] follow the
    Rust methods branch by branch, errors included; the theorems say that the
    two agree, that a partial preface is never mistaken for a complete or a
    broken one, that a verdict never changes as more bytes arrive, and that the
    amount a server has to buffer is bounded. *)

From S2P Require Import Prelude RustStd.

(** Everything that can go wrong while reading or writing the wire format. *)
Inductive ProtoError :=
| NotAPreface
| UnsupportedVersion (v : Z)
| UnknownProto (p : Z)
| InvalidHost
| InvalidPort
| PayloadTooLarge.

#[global] Instance ProtoError_eq_dec : EqDecision ProtoError.
Proof. solve_decision. Defined.

Definition PREFACE_MAGIC : Z := 0x05.
Definition PREFACE_VERSION : Z := 0x01.
Definition MAX_HOST_LEN : Z := 255.
Definition MAX_PREFACE_LEN : Z := 4 + MAX_HOST_LEN + 2.

Definition is_l4_preface (first_byte : Z) : bool := first_byte =? PREFACE_MAGIC.

Inductive L4Proto := Tcp | Udp.

#[global] Instance L4Proto_eq_dec : EqDecision L4Proto.
Proof. solve_decision. Defined.

Definition l4proto_as_byte (p : L4Proto) : Z :=
  match p with Tcp => 0x01 | Udp => 0x02 end.

Definition l4proto_from_byte (byte : Z) : option L4Proto :=
  if byte =? 0x01 then Some Tcp
  else if byte =? 0x02 then Some Udp
  else None.

Inductive Status :=
| StOk | StNoRoute | StBackendFailed | StTooManyFlows | StBadPreface | StUnknown.

#[global] Instance Status_eq_dec : EqDecision Status.
Proof. solve_decision. Defined.

Definition status_as_byte (s : Status) : Z :=
  match s with
  | StOk => 0x00
  | StNoRoute => 0x01
  | StBackendFailed => 0x02
  | StTooManyFlows => 0x03
  | StBadPreface => 0x04
  | StUnknown => 0xff
  end.

Definition status_from_byte (byte : Z) : Status :=
  if byte =? 0x00 then StOk
  else if byte =? 0x01 then StNoRoute
  else if byte =? 0x02 then StBackendFailed
  else if byte =? 0x03 then StTooManyFlows
  else if byte =? 0x04 then StBadPreface
  else StUnknown.

Definition status_is_ok (s : Status) : bool :=
  match s with StOk => true | _ => false end.

Record Preface := mkPreface { pf_proto : L4Proto; pf_host : bytes; pf_port : Z }.

#[global] Instance Preface_eq_dec : EqDecision Preface.
Proof. solve_decision. Defined.

Definition encoded_len (p : Preface) : Z := 4 + len (pf_host p) + 2.

(** Host names on the wire are ASCII graphic characters only. *)
Definition is_valid_host (host : bytes) : bool :=
  negb (bool_decide (host = [])) && (len host <=? MAX_HOST_LEN)
  && forallb is_ascii_graphic host.

(** Appends the preface to [out]; on an error nothing has been pushed. *)
Definition encode (p : Preface) (out : bytes) : result bytes ProtoError :=
  if negb (is_valid_host (pf_host p)) then Err InvalidHost
  else if pf_port p =? 0 then Err InvalidPort
  else Ok (out ++ [PREFACE_MAGIC] ++ [PREFACE_VERSION] ++ [l4proto_as_byte (pf_proto p)]
               ++ [wrapping 8 (len (pf_host p))] ++ pf_host p ++ to_be_bytes 2 (pf_port p)).

Definition preface_to_bytes (p : Preface) : result bytes ProtoError := encode p [].

(** Decodes a preface from the front of [buf]; [Ok None] asks for more bytes.
    Every index below is guarded by a length test, as in the source. *)
Definition decode (buf : bytes) : result (option (Preface * nat)) ProtoError :=
  match buf with
  | [] => Ok None
  | first :: _ =>
      if negb (is_l4_preface first) then Err NotAPreface
      else if len buf <? 4 then Ok None
      else
        let version := buf !!! 1%nat in
        if negb (version =? PREFACE_VERSION) then Err (UnsupportedVersion version)
        else
          let? proto := ok_or (l4proto_from_byte (buf !!! 2%nat))
                              (UnknownProto (buf !!! 2%nat)) in
          let host_len := Z.to_nat (buf !!! 3%nat) in
          if bool_decide (host_len = 0%nat) then Err InvalidHost
          else
            let total := (4 + host_len + 2)%nat in
            if bool_decide (length buf < total)%nat then Ok None
            else
              let host_bytes := take host_len (drop 4 buf) in
              let? host := ok_or (from_utf8 host_bytes) InvalidHost in
              if negb (is_valid_host host) then Err InvalidHost
              else
                let port := from_be_bytes [buf !!! (4 + host_len)%nat;
                                           buf !!! (5 + host_len)%nat] in
                if port =? 0 then Err InvalidPort
                else Ok (Some (mkPreface proto (to_ascii_lowercase host) port, total))
  end.

(** ** Well-formedness and basic facts *)

(** A preface a client may send. *)
Definition preface_ok (p : Preface) : Prop :=
  is_valid_host (pf_host p) = true /\ is_u16 (pf_port p) /\ pf_port p <> 0.

#[global] Instance preface_ok_dec p : Decision (preface_ok p).
Proof. unfold preface_ok. apply _. Defined.

(** The preface as the peer will see it: hosts are compared in lower case. *)
Definition preface_lower (p : Preface) : Preface :=
  mkPreface (pf_proto p) (to_ascii_lowercase (pf_host p)) (pf_port p).

Lemma is_valid_host_spec host :
  is_valid_host host = true <->
  host <> [] /\ len host <= 255 /\ Forall (fun b => is_ascii_graphic b = true) host.
Proof.
  unfold is_valid_host, MAX_HOST_LEN.
  rewrite !andb_true_iff, negb_true_iff, bool_decide_eq_false, Z.leb_le, forallb_Forall.
  tauto.
Qed.

Lemma l4proto_from_as_byte p : l4proto_from_byte (l4proto_as_byte p) = Some p.
Proof. by destruct p. Qed.

Lemma l4proto_from_byte_Some b p : l4proto_from_byte b = Some p -> b = l4proto_as_byte p.
Proof. unfold l4proto_from_byte. repeat case_match; crush. Qed.

(** The four bytes after which the length of the preface is known. *)
Definition header (p : Preface) : bytes :=
  [PREFACE_MAGIC; PREFACE_VERSION; l4proto_as_byte (pf_proto p); len (pf_host p)].

Lemma encode_ok p :
  preface_ok p ->
  preface_to_bytes p = Ok (header p ++ pf_host p ++ to_be_bytes 2 (pf_port p)).
Proof.
  intros (Hh & Hp & Hnz). unfold preface_to_bytes, encode. rewrite Hh. simpl.
  rewrite (proj2 (Z.eqb_neq _ _) Hnz). apply is_valid_host_spec in Hh as (_ & Hl & _).
  rewrite wrapping_small; [done|]. unfold is_uint. pose proof (len_nonneg (pf_host p)). lia.
Qed.

Lemma encode_ok' p bs :
  preface_ok p -> preface_to_bytes p = Ok bs ->
  bs = header p ++ pf_host p ++ to_be_bytes 2 (pf_port p).
Proof. intros Hok. rewrite encode_ok by done. congruence. Qed.

Lemma encode_inv p out bs :
  is_u16 (pf_port p) -> encode p out = Ok bs ->
  preface_ok p /\ preface_to_bytes p = Ok (drop (length out) bs).
Proof.
  unfold encode, preface_to_bytes, preface_ok. intros Hp H.
  destruct (is_valid_host (pf_host p)) eqn:Hh; [|done]. simpl in H.
  destruct (pf_port p =? 0) eqn:Hz; [done|]. bools. injection H as <-.
  split; [done|]. unfold encode. rewrite Hh. simpl.
  rewrite (proj2 (Z.eqb_neq _ _) Hz). by rewrite drop_app_len.
Qed.

(** Decoding anything that starts with a well-formed preface: the shape of the
    answer depends only on how much of it is there. *)
Lemma decode_header p rest :
  preface_ok p ->
  decode (header p ++ rest) =
  if bool_decide (length rest < length (pf_host p) + 2)%nat then Ok None
  else
    let host := take (length (pf_host p)) rest in
    if negb (utf8_valid host && is_valid_host host) then Err InvalidHost
    else
      let port := from_be_bytes [rest !!! length (pf_host p);
                                 rest !!! S (length (pf_host p))] in
      if port =? 0 then Err InvalidPort
      else Ok (Some (mkPreface (pf_proto p) (to_ascii_lowercase host) port,
                     (4 + length (pf_host p) + 2)%nat)).
Proof.
  intros (Hh & Hp & Hnz). apply is_valid_host_spec in Hh as (Hne & Hl & _).
  unfold decode, header. cbn [app]. unfold is_l4_preface. rewrite Z.eqb_refl. cbn [negb].
  rewrite (proj2 (Z.ltb_ge _ _)) by (simp_len; pose proof (len_nonneg rest); lia).
  cbn [list_lookup_total lookup_total]. rewrite Z.eqb_refl. cbn [negb].
  rewrite l4proto_from_as_byte. cbn [ok_or].
  cbv zeta.
  assert (Z.to_nat (len (pf_host p)) = length (pf_host p)) as -> by (unfold len; lia).
  rewrite bool_decide_eq_false_2 by (destruct (pf_host p); simpl; [done|lia]).
  set (n := length (pf_host p)). cbn [length].
  replace (bool_decide (S (S (S (S (length rest)))) < 4 + n + 2)%nat)
    with (bool_decide (length rest < n + 2)%nat)
    by (apply bool_decide_ext; lia).
  case_bool_decide; [done|]. cbn [drop]. rewrite drop_0.
  unfold from_utf8. destruct (utf8_valid (take n rest)); [|done]. cbn [ok_or andb].
  change (4 + n)%nat with (S (S (S (S n)))). change (5 + n)%nat with (S (S (S (S (S n))))).
  cbn [list_lookup_total lookup_total]. done.
Qed.

Lemma decode_encoded p extra :
  preface_ok p ->
  decode (header p ++ pf_host p ++ to_be_bytes 2 (pf_port p) ++ extra)
  = Ok (Some (preface_lower p, Z.to_nat (encoded_len p))).
Proof.
  intros Hok. rewrite decode_header by done. destruct Hok as (Hh & Hp & Hnz).
  rewrite bool_decide_eq_false_2
    by (rewrite !length_app, length_to_be_bytes; lia).
  rewrite take_app_len. cbv zeta. rewrite Hh.
  pose proof (proj1 (is_valid_host_spec _) Hh) as (_ & _ & Hg).
  rewrite utf8_valid_graphic by done. cbn [andb negb].
  rewrite to_be_bytes_2 by done. cbn [app].
  assert (forall d, (pf_host p ++ pf_port p / 256 :: pf_port p mod 256 :: d) !!! length (pf_host p)
          = pf_port p / 256) as ->.
  { intros d. rewrite lookup_total_app_r by lia. by rewrite Nat.sub_diag. }
  assert (forall d, (pf_host p ++ pf_port p / 256 :: pf_port p mod 256 :: d) !!! S (length (pf_host p))
          = pf_port p mod 256) as ->.
  { intros d. rewrite lookup_total_app_r by lia.
    replace (S _ - _)%nat with 1%nat by lia. done. }
  rewrite from_be_bytes_2.
  replace (pf_port p / 256 * 256 + pf_port p mod 256) with (pf_port p)
    by (pose proof (Z.div_mod (pf_port p) 256); lia).
  rewrite (proj2 (Z.eqb_neq _ _) Hnz).
  do 3 f_equal. unfold encoded_len, len. lia.
Qed.

(** The guard structure of [decode] once the first four bytes are there. *)
Lemma decode_four a v pr hl rest :
  decode (a :: v :: pr :: hl :: rest) =
  if negb (is_l4_preface a) then Err NotAPreface
  else if negb (v =? PREFACE_VERSION) then Err (UnsupportedVersion v)
  else
    let? proto := ok_or (l4proto_from_byte pr) (UnknownProto pr) in
    let n := Z.to_nat hl in
    if bool_decide (n = 0%nat) then Err InvalidHost
    else if bool_decide (length rest < n + 2)%nat then Ok None
    else
      let? host := ok_or (from_utf8 (take n rest)) InvalidHost in
      if negb (is_valid_host host) then Err InvalidHost
      else
        let port := from_be_bytes [rest !!! n; rest !!! S n] in
        if port =? 0 then Err InvalidPort
        else Ok (Some (mkPreface proto (to_ascii_lowercase host) port, (4 + n + 2)%nat)).
Proof.
  unfold decode. destruct (negb (is_l4_preface a)); [done|].
  rewrite (proj2 (Z.ltb_ge _ _)) by (simp_len; pose proof (len_nonneg rest); lia).
  cbn [list_lookup_total lookup_total]. destruct (negb (v =? PREFACE_VERSION)); [done|].
  destruct (l4proto_from_byte pr); [|done]. cbn [ok_or]. cbv zeta.
  case_bool_decide; [done|]. cbn [length drop]. rewrite drop_0.
  erewrite bool_decide_ext; [done|lia].
Qed.

(** With fewer than four bytes only the magic can be wrong. *)
Lemma decode_short buf :
  (length buf < 4)%nat ->
  decode buf = Ok None \/ (exists b t, buf = b :: t /\ is_l4_preface b = false
                           /\ decode buf = Err NotAPreface).
Proof.
  intros Hl. destruct buf as [|b t]; [by left|]. unfold decode.
  destruct (is_l4_preface b) eqn:E; simpl.
  - left. rewrite (proj2 (Z.ltb_lt _ _)); [done|]. unfold len. simpl in *. lia.
  - right. by exists b, t.
Qed.

Lemma split_four (buf : bytes) :
  (length buf < 4)%nat \/ exists a v pr hl rest, buf = a :: v :: pr :: hl :: rest.
Proof.
  destruct buf as [|a [|v [|pr [|hl rest]]]]; simpl; [left; lia..|]. right. eauto 6.
Qed.

(** What a sendable preface decodes to, whatever follows it. *)
Lemma decode_wire p bs extra :
  preface_ok p -> preface_to_bytes p = Ok bs ->
  decode (bs ++ extra) = Ok (Some (preface_lower p, length bs))
  /\ len bs = encoded_len p /\ drop (length bs) (bs ++ extra) = extra.
Proof.
  intros Hok Hb. apply encode_ok' in Hb as ->; [|done].
  assert (len (header p ++ pf_host p ++ to_be_bytes 2 (pf_port p)) = encoded_len p) as Hl.
  { unfold encoded_len, len. rewrite !length_app, length_to_be_bytes. simpl length. lia. }
  split; [|split; [done|apply drop_app_len]].
  rewrite <- !app_assoc, decode_encoded by done. do 3 f_equal. unfold len in Hl. lia.
Qed.

Definition sample_preface : Preface := mkPreface Tcp (lit "DB.Iroh.Iakl.Top") 5432.

(** Every strict prefix of an encoded preface asks for more bytes; it is never
    an error and never a half-built preface. *)
Lemma decode_wire_prefix p bs k :
  preface_ok p -> preface_to_bytes p = Ok bs -> (k < length bs)%nat ->
  decode (take k bs) = Ok None.
Proof.
  intros Hok Hb Hk. apply encode_ok' in Hb as ->; [|done].
  rewrite !length_app, length_to_be_bytes in Hk. cbn [header length] in Hk.
  destruct (decide (k < 4)%nat) as [Hs|Hs].
  - destruct (decode_short (take k (header p ++ pf_host p ++ to_be_bytes 2 (pf_port p))))
      as [H|(b & t & Ht & Hm & _)]; [rewrite length_take; lia|done|].
    destruct k; simpl in Ht; [done|]. injection Ht as <- _. done.
  - rewrite (take_app_ge (header p)) by (cbn [header length]; lia).
    rewrite decode_header by done. rewrite bool_decide_eq_true_2; [done|].
    rewrite length_take. cbn [header length]. lia.
Qed.

(** ** Properties *)

(** A preface a client may send survives the wire whatever payload follows
    it in the same read: [decode] returns it (with the host in lower case) and
    reports exactly the bytes it occupied, so the payload is not swallowed. *)
Theorem preface_roundtrip p bs extra :
  preface_ok p -> preface_to_bytes p = Ok bs ->
  decode (bs ++ extra) = Ok (Some (preface_lower p, length bs))
  /\ len bs = encoded_len p /\ drop (length bs) (bs ++ extra) = extra.
Proof. apply decode_wire. Qed.


(** [decode] accepts nothing but encodings.  What it accepts is, byte for
    byte, what [encode] writes for a sendable preface with the same protocol,
    the same port and a host that differs in letter case at most. *)
Theorem preface_decode_sound buf p n :
  bytes_ok buf -> decode buf = Ok (Some (p, n)) ->
  exists host, to_ascii_lowercase host = pf_host p
    /\ preface_ok (mkPreface (pf_proto p) host (pf_port p))
    /\ preface_to_bytes (mkPreface (pf_proto p) host (pf_port p)) = Ok (take n buf)
    /\ (n <= length buf)%nat /\ Z.of_nat n <= MAX_PREFACE_LEN.
Proof.
  intros Hok H. destruct (split_four buf) as [Hs|(a & v & pr & hl & rest & ->)].
  { destruct (decode_short buf Hs) as [E|(?&?&_&_&E)]; rewrite E in H; done. }
  rewrite decode_four in H.
  destruct (is_l4_preface a) eqn:Ha; [|done]. simpl in H.
  destruct (v =? PREFACE_VERSION) eqn:Hv; [|done]. simpl in H.
  destruct (l4proto_from_byte pr) as [proto|] eqn:Hpr; [|done]. cbn [ok_or] in H. cbv zeta in H.
  case_bool_decide; [done|]. case_bool_decide as Hlen; [done|].
  unfold from_utf8 in H. destruct (utf8_valid _); [|done]. cbn [ok_or] in H.
  destruct (is_valid_host _) eqn:Hh; [|done]. cbn [negb] in H.
  destruct (_ =? 0) eqn:Hz; [done|]. injection H as <- <-.
  apply l4proto_from_byte_Some in Hpr. unfold is_l4_preface in Ha. bools. subst.
  rewrite !Forall_cons in Hok. destruct Hok as (_ & _ & _ & Hhl & Hrest).
  set (m := Z.to_nat hl) in *.
  assert (length (take m rest) = m) as Htk by (rewrite length_take; lia).
  destruct (drop m rest) as [|p1 [|p2 tl]] eqn:Hd.
  1,2: apply (f_equal length) in Hd; rewrite length_drop in Hd; simpl in Hd; lia.
  assert (rest = take m rest ++ p1 :: p2 :: tl) as Hr by by rewrite <- Hd, take_drop.
  assert (rest !!! m = p1 /\ rest !!! S m = p2) as [Hm1 Hm2].
  { rewrite Hr, !lookup_total_app_r by lia. rewrite Htk, Nat.sub_diag.
    by replace (S m - m)%nat with 1%nat by lia. }
  rewrite Hm1, Hm2 in Hz |- *.
  exists (take m rest). cbn [pf_proto pf_host pf_port]. split; [done|].
  assert (bytes_ok [p1; p2]) as Hpp.
  { rewrite Hr in Hrest. rewrite Forall_app, !Forall_cons in Hrest. naive_solver. }
  assert (preface_ok (mkPreface proto (take m rest) (from_be_bytes [p1; p2]))) as Hpok.
  { split; [done|]. split; [by apply from_be_bytes_range in Hpp|done]. }
  split; [done|]. split.
  - rewrite encode_ok by done. unfold header. cbn [pf_proto pf_host pf_port app].
    change 2%nat with (length [p1; p2]) at 1.
    rewrite (to_from_be_bytes [p1; p2]) by done.
    f_equal. cbn [Nat.add take]. do 3 f_equal. f_equal.
    + unfold len. rewrite Htk. unfold m. unfold is_uint in Hhl. lia.
    + rewrite Hr at 2. rewrite take_app_ge by lia. rewrite Htk.
      by replace (m + 2 - m)%nat with 2%nat by lia.
  - cbn [length]. unfold MAX_PREFACE_LEN, MAX_HOST_LEN. unfold is_uint in Hhl. lia.
Qed.


(** As bytes arrive the verdict of [decode] only ever changes from "more
    bytes": an error or an accepted preface stays what it is.  And the server
    never has to hold more than [MAX_PREFACE_LEN] bytes to get a verdict. *)
Theorem preface_decode_stable buf more :
  bytes_ok buf ->
  (decode buf <> Ok None -> decode (buf ++ more) = decode buf)
  /\ (decode buf = Ok None -> len buf < MAX_PREFACE_LEN).
Proof.
  intros Hok. destruct (split_four buf) as [Hs|(a & v & pr & hl & rest & ->)].
  - split.
    + destruct (decode_short buf Hs) as [E|(b & t & -> & Hb & E)]; [done|].
      intros _. rewrite E. simpl. unfold decode. by rewrite Hb.
    + intros _. unfold MAX_PREFACE_LEN, MAX_HOST_LEN, len. lia.
  - cbn [app]. rewrite !decode_four. rewrite !Forall_cons in Hok.
    destruct Hok as (_ & _ & _ & Hhl & _). unfold is_uint in Hhl.
    destruct (negb (is_l4_preface a)); [done|].
    destruct (negb (v =? PREFACE_VERSION)); [done|].
    destruct (l4proto_from_byte pr); [|done]. cbn [ok_or]. cbv zeta.
    case_bool_decide; [done|]. case_bool_decide as Hl.
    + split; [done|]. intros _. unfold MAX_PREFACE_LEN, MAX_HOST_LEN. simp_len. unfold len. lia.
    + rewrite bool_decide_eq_false_2 by (rewrite length_app; lia).
      rewrite take_app_le by lia. rewrite !lookup_total_app_l by lia.
      split; [done|]. repeat (case_match; try done).
Qed.


(** The status byte: every status the server sends is read back as itself, and
    only the byte of [StOk] is read as success. *)
Lemma status_roundtrip s : status_from_byte (status_as_byte s) = s.
Proof. by destruct s. Qed.

Lemma status_ok_iff b : status_is_ok (status_from_byte b) = true <-> b = status_as_byte StOk.
Proof. unfold status_from_byte. repeat case_match; crush. Qed.
