(* ===== verification/Udp.v ===== *)
(** * Datagram framing (nexapipe-proto/src/udp.rs) and the client half of a UDP
    tunnel (the [client_to_backend] pump of nexapipe/src/l4/mod.rs).

    A datagram travels as a big-endian [u16] length and its payload.  The pump
    keeps the bytes that have not yet formed a frame in [pending], drains every
    complete frame after each read, and ends the flow on the events the source
    ends it on.  The theorems: the framing is a round trip, cutting the stream
    at arbitrary points loses, merges and reorders nothing, and the buffer the
    flow has paid for is never exceeded, so the pump's own "too much" exit is
    unreachable. *)

From S2P Require Import Prelude RustStd Preface.

Definition MAX_UDP_PAYLOAD : Z := 65507.
Definition FRAME_HEADER_LEN : nat := 2.

Definition encode_frame (payload out : bytes) : result bytes ProtoError :=
  if MAX_UDP_PAYLOAD <? len payload then Err PayloadTooLarge
  else Ok (out ++ to_be_bytes 2 (wrapping 16 (len payload)) ++ payload).

Definition encode_frame_to_vec (payload : bytes) : result bytes ProtoError :=
  encode_frame payload [].

Definition payload_fits_datagram (payload : bytes) : bool :=
  len payload <=? MAX_UDP_PAYLOAD.

Inductive Frame :=
| Incomplete
| Ready (payload : bytes) (consumed : nat).

Definition decode_frame (buf : bytes) : Frame :=
  if bool_decide (length buf < FRAME_HEADER_LEN)%nat then Incomplete
  else
    let n := Z.to_nat (from_be_bytes [buf !!! 0%nat; buf !!! 1%nat]) in
    let total := (FRAME_HEADER_LEN + n)%nat in
    if bool_decide (length buf < total)%nat then Incomplete
    else Ready (take (total - FRAME_HEADER_LEN) (drop FRAME_HEADER_LEN buf)) total.

(** ** The pump *)

Definition UDP_SEND_BUFFER_BYTES : Z := 4 * 1024.
Definition UDP_PENDING_BUFFER_BYTES : Z :=
  Z.of_nat FRAME_HEADER_LEN + umax 16 + UDP_SEND_BUFFER_BYTES.

(** What one [reader.read] under the idle timeout can come back with. *)
Inductive ReadEvent :=
| RBytes (chunk : bytes)   (* [Ok(Ok(n))], n > 0 *)
| REof                     (* [Ok(Ok(0))] *)
| RFailed                  (* [Ok(Err(e))] *)
| RIdle.                   (* the idle timeout *)

(** Why the pump ended; [NeedRead] when it is waiting for the next event. *)
Inductive PumpEnd :=
| NeedRead
| EndEof | EndReadFailed | EndIdle
| EndOversize        (* a frame larger than a datagram *)
| EndSendFailed      (* the backend socket refused a datagram *)
| EndOverflow.       (* more than a frame without completing it *)

(** The inner loop: forward every complete frame of [pending], starting at
    [offset]; returns the datagrams sent, the final offset, and whether the
    flow ended there.  [send_ok] is the backend socket's answer to each
    datagram.  A step consumes at least the two bytes of a length prefix, so
    [S (length pending)] steps are always enough ([drain_frames_fuel]). *)
Fixpoint drain_frames (fuel : nat) (send_ok : bytes -> bool) (pending : bytes)
    (offset : nat) (sent : list bytes) : list bytes * nat * PumpEnd :=
  match fuel with
  | O => (sent, offset, NeedRead)
  | S f =>
      match decode_frame (drop offset pending) with
      | Incomplete => (sent, offset, NeedRead)
      | Ready payload consumed =>
          if negb (payload_fits_datagram payload) then (sent, offset, EndOversize)
          else if negb (send_ok payload) then (sent, offset, EndSendFailed)
          else drain_frames f send_ok pending (offset + consumed)%nat (sent ++ [payload])
      end
  end.

Record Pump := mkPump { pu_pending : bytes; pu_sent : list bytes; pu_end : PumpEnd }.

(** Draining and compacting, as done before every read. *)
Definition pump_drain (send_ok : bytes -> bool) (pending : bytes) (sent : list bytes) : Pump :=
  match drain_frames (S (length pending)) send_ok pending 0 sent with
  | (sent', offset, NeedRead) => mkPump (drop offset pending) sent' NeedRead
  | (sent', _, e) => mkPump pending sent' e
  end.

(** One turn of the outer loop: take a read event, then drain. *)
Definition pump_step (send_ok : bytes -> bool) (p : Pump) (ev : ReadEvent) : Pump :=
  match pu_end p with
  | NeedRead =>
      match ev with
      | REof => mkPump (pu_pending p) (pu_sent p) EndEof
      | RFailed => mkPump (pu_pending p) (pu_sent p) EndReadFailed
      | RIdle => mkPump (pu_pending p) (pu_sent p) EndIdle
      | RBytes chunk =>
          if UDP_PENDING_BUFFER_BYTES <? len (pu_pending p) + len chunk
          then mkPump (pu_pending p) (pu_sent p) EndOverflow
          else pump_drain send_ok (pu_pending p ++ chunk) (pu_sent p)
      end
  | _ => p
  end.

(** The pump over a stream of events, starting from the bytes that arrived
    with the preface. *)
Definition client_to_backend (send_ok : bytes -> bool) (leftover : bytes)
    (evs : list ReadEvent) : Pump :=
  foldl (pump_step send_ok) (pump_drain send_ok leftover []) evs.

(** The other direction: what one [socket.recv] under the idle timeout can
    come back with, and the loop that frames each datagram for the client.
    [write_ok] is the client stream's answer to a frame; a datagram too large
    for a frame is dropped and the loop goes on. *)
Inductive RecvEvent :=
| Datagram (payload : bytes)
| RecvFailed
| RecvIdle.

Inductive DownEnd := Receiving | DownRecvFailed | DownIdle | DownWriteFailed.

Fixpoint backend_to_client (write_ok : bytes -> bool) (written : bytes) (evs : list RecvEvent)
    : bytes * DownEnd :=
  match evs with
  | [] => (written, Receiving)
  | RecvFailed :: _ => (written, DownRecvFailed)
  | RecvIdle :: _ => (written, DownIdle)
  | Datagram payload :: evs =>
      match encode_frame payload [] with
      | Err _ => backend_to_client write_ok written evs
      | Ok frame =>
          if write_ok frame then backend_to_client write_ok (written ++ frame) evs
          else (written, DownWriteFailed)
      end
  end.

(** ** Framing lemmas *)

Lemma encode_frame_ok payload :
  len payload <= MAX_UDP_PAYLOAD ->
  encode_frame_to_vec payload = Ok (to_be_bytes 2 (len payload) ++ payload).
Proof.
  intros H. unfold encode_frame_to_vec, encode_frame.
  rewrite (proj2 (Z.ltb_ge _ _)) by done.
  rewrite wrapping_small; [done|]. unfold MAX_UDP_PAYLOAD, is_uint in *.
  pose proof (len_nonneg payload). lia.
Qed.

(** The frame of a payload that fits. *)
Definition frame_of (payload : bytes) : bytes := to_be_bytes 2 (len payload) ++ payload.

Definition fits (payload : bytes) : Prop := len payload <= MAX_UDP_PAYLOAD.

Lemma fits_u16 payload : fits payload -> is_u16 (len payload).
Proof.
  unfold fits, MAX_UDP_PAYLOAD, is_uint. pose proof (len_nonneg payload). lia.
Qed.

Lemma length_frame_of payload : length (frame_of payload) = (2 + length payload)%nat.
Proof. unfold frame_of. by rewrite length_app, length_to_be_bytes. Qed.

Lemma decode_two h l rest :
  decode_frame (h :: l :: rest) =
  let n := Z.to_nat (from_be_bytes [h; l]) in
  if bool_decide (length rest < n)%nat then Incomplete else Ready (take n rest) (2 + n)%nat.
Proof.
  unfold decode_frame, FRAME_HEADER_LEN. cbn [length lookup_total list_lookup_total].
  rewrite bool_decide_eq_false_2 by lia. cbv zeta. cbn [drop]. rewrite drop_0.
  replace (bool_decide (S (S (length rest)) < 2 + Z.to_nat (from_be_bytes [h; l]))%nat)
    with (bool_decide (length rest < Z.to_nat (from_be_bytes [h; l]))%nat)
    by (apply bool_decide_ext; lia).
  case_bool_decide; [done|]. f_equal. f_equal. lia.
Qed.

Lemma decode_short_frame buf : (length buf < 2)%nat -> decode_frame buf = Incomplete.
Proof. intros. unfold decode_frame, FRAME_HEADER_LEN. by rewrite bool_decide_eq_true_2. Qed.

Lemma split_two (buf : bytes) :
  (length buf < 2)%nat \/ exists h l rest, buf = h :: l :: rest.
Proof. destruct buf as [|h [|l rest]]; simpl; [left; lia..|right; eauto]. Qed.

Lemma decode_frame_of payload rest :
  fits payload ->
  decode_frame (frame_of payload ++ rest) = Ready payload (length (frame_of payload)).
Proof.
  intros Hf. rewrite length_frame_of. unfold frame_of.
  pose proof (fits_u16 _ Hf) as Hu. rewrite to_be_bytes_2 by done. cbn [app].
  rewrite decode_two, from_be_bytes_2. cbv zeta.
  replace (len payload / 256 * 256 + len payload mod 256) with (len payload)
    by (pose proof (Z.div_mod (len payload) 256); lia).
  unfold len. rewrite Nat2Z.id, length_app.
  rewrite bool_decide_eq_false_2 by lia. by rewrite take_app_len.
Qed.

(** A [Ready] frame is a length prefix and its payload, at the front. *)
Lemma decode_frame_Ready buf payload consumed :
  bytes_ok buf -> decode_frame buf = Ready payload consumed ->
  exists rest, buf = frame_of payload ++ rest /\ consumed = length (frame_of payload)
    /\ len payload <= umax 16.
Proof.
  intros Hok. destruct (split_two buf) as [Hs|(h & l & rest & ->)].
  { by rewrite decode_short_frame. }
  rewrite decode_two. cbv zeta. case_bool_decide as Hl; [done|]. intros [= <- <-].
  assert (bytes_ok [h; l]) as Hhl by (rewrite !Forall_cons in *; naive_solver).
  pose proof (from_be_bytes_range _ Hhl) as Hr. unfold len in Hr. simpl in Hr.
  set (n := Z.to_nat (from_be_bytes [h; l])) in *.
  assert (len (take n rest) = from_be_bytes [h; l]) as Hlen.
  { unfold len. rewrite length_take. unfold is_uint in Hr. lia. }
  exists (drop n rest). split; [|split].
  - unfold frame_of. rewrite Hlen.
    change 2%nat with (length [h; l]). rewrite to_from_be_bytes by done.
    simpl. by rewrite take_drop.
  - rewrite length_frame_of, length_take. lia.
  - rewrite Hlen. unfold is_uint, umax in *. lia.
Qed.

(** What [Incomplete] says about the length of the buffer. *)
Lemma decode_frame_Incomplete buf :
  bytes_ok buf -> decode_frame buf = Incomplete ->
  len buf < Z.of_nat FRAME_HEADER_LEN + umax 16.
Proof.
  intros Hok. unfold FRAME_HEADER_LEN, umax.
  destruct (split_two buf) as [Hs|(h & l & rest & ->)]; [unfold len; lia|].
  rewrite decode_two. cbv zeta. case_bool_decide as Hl; [|done]. intros _.
  assert (bytes_ok [h; l]) as Hhl by (rewrite !Forall_cons in *; naive_solver).
  pose proof (from_be_bytes_range _ Hhl) as Hr. unfold is_uint, len in Hr. simpl in Hr.
  simp_len. unfold len. lia.
Qed.

Lemma decode_frame_strict_prefix payload k :
  fits payload -> (k < length (frame_of payload))%nat ->
  decode_frame (take k (frame_of payload)) = Incomplete.
Proof.
  intros Hf Hk. rewrite length_frame_of in Hk.
  destruct (decide (k < 2)%nat); [apply decode_short_frame; rewrite length_take; lia|].
  unfold frame_of. pose proof (fits_u16 _ Hf).
  rewrite to_be_bytes_2 by done. cbn [app].
  destruct k as [|[|k]]; [lia..|]. cbn [take].
  rewrite decode_two, from_be_bytes_2. cbv zeta.
  replace (len payload / 256 * 256 + len payload mod 256) with (len payload)
    by (pose proof (Z.div_mod (len payload) 256); lia).
  rewrite bool_decide_eq_true_2; [done|]. rewrite length_take. unfold len. lia.
Qed.

(** ** Pump lemmas *)

(** The byte stream a client writes for a list of datagrams. *)
Definition framed (ds : list bytes) : bytes := concat (frame_of <$> ds).

Lemma framed_cons d ds : framed (d :: ds) = frame_of d ++ framed ds.
Proof. done. Qed.

Lemma framed_app ds es : framed (ds ++ es) = framed ds ++ framed es.
Proof. unfold framed. by rewrite fmap_app, concat_app. Qed.

Lemma payload_fits_iff payload : payload_fits_datagram payload = true <-> fits payload.
Proof. unfold payload_fits_datagram, fits. apply Z.leb_le. Qed.

(** With the fuel [pump_drain] gives it the inner loop runs to one of its own
    exits; what it sent is exactly the frames it skipped over. *)
Lemma drain_frames_spec fuel send_ok pending offset sent sent' offset' e :
  bytes_ok pending -> (length pending < offset + fuel)%nat ->
  drain_frames fuel send_ok pending offset sent = (sent', offset', e) ->
  exists new, sent' = sent ++ new /\ Forall fits new
    /\ drop offset pending = framed new ++ drop offset' pending
    /\ match e with
       | NeedRead => decode_frame (drop offset' pending) = Incomplete
       | EndOversize => exists big c,
           decode_frame (drop offset' pending) = Ready big c /\ ~ fits big
       | EndSendFailed => exists d c,
           decode_frame (drop offset' pending) = Ready d c /\ send_ok d = false
       | _ => False
       end.
Proof.
  intros Hok. revert offset sent.
  induction fuel as [|f IH]; intros offset sent Hf; simpl.
  - intros [= <- <- <-]. exists []. rewrite app_nil_r.
    split_and!; [done|constructor|done|]. rewrite drop_ge by lia.
    apply decode_short_frame. simpl. lia.
  - destruct (decode_frame (drop offset pending)) as [|d c] eqn:Hd.
    { intros [= <- <- <-]. exists []. by rewrite app_nil_r. }
    destruct (payload_fits_datagram d) eqn:Hfit; simpl.
    2:{ intros [= <- <- <-]. exists []. rewrite app_nil_r.
        split_and!; [done|constructor|done|]. exists d, c. split; [done|].
        rewrite <- payload_fits_iff. congruence. }
    destruct (send_ok d) eqn:Hs; simpl.
    2:{ intros [= <- <- <-]. exists []. rewrite app_nil_r.
        split_and!; [done|constructor|done|]. eauto. }
    destruct (decode_frame_Ready (drop offset pending) d c) as (rest & Hrest & -> & _);
      [by apply Forall_drop|done|].
    intros H. assert (0 < length (frame_of d))%nat by (rewrite length_frame_of; lia).
    destruct (IH (offset + length (frame_of d))%nat (sent ++ [d])) as (new & -> & Hn & Hcut & He);
      [lia|exact H|].
    exists (d :: new). rewrite <- app_assoc. split_and!; [done|..|done].
    + constructor; [by apply payload_fits_iff|done].
    + rewrite Hrest, framed_cons, <- app_assoc. f_equal.
      rewrite <- Hcut, <- drop_drop, Hrest. by rewrite drop_app_len.
Qed.

Lemma pump_drain_spec send_ok pending sent p :
  bytes_ok pending -> pump_drain send_ok pending sent = p ->
  exists new, pu_sent p = sent ++ new /\ Forall fits new
    /\ match pu_end p with
       | NeedRead => pending = framed new ++ pu_pending p
                     /\ decode_frame (pu_pending p) = Incomplete
       | EndOversize => exists tail big c, pending = framed new ++ tail
                     /\ decode_frame tail = Ready big c /\ ~ fits big
       | EndSendFailed => exists d, send_ok d = false
       | _ => False
       end.
Proof.
  intros Hok <-. unfold pump_drain.
  destruct (drain_frames _ _ _ _ _) as [[sent' off] e] eqn:E.
  apply drain_frames_spec in E as (new & -> & Hn & Hcut & He); [|done|lia].
  rewrite drop_0 in Hcut. exists new.
  destruct e; simpl; try done; split_and!; try done; naive_solver.
Qed.

Lemma pump_drain_pending_ok send_ok pending sent :
  bytes_ok pending -> bytes_ok (pu_pending (pump_drain send_ok pending sent)).
Proof.
  intros. unfold pump_drain. destruct (drain_frames _ _ _ _ _) as [[? ?] []]; simpl; auto with rs.
Qed.

(** A [Ready] answer does not change when more bytes follow. *)
Lemma decode_frame_app buf more d c :
  decode_frame buf = Ready d c -> decode_frame (buf ++ more) = Ready d c.
Proof.
  destruct (split_two buf) as [Hs|(h & l & rest & ->)]; [by rewrite decode_short_frame|].
  cbn [app]. rewrite !decode_two. cbv zeta. case_bool_decide; [done|]. intros [= <- <-].
  rewrite bool_decide_eq_false_2 by (rewrite length_app; lia).
  by rewrite take_app_le by lia.
Qed.

(** Framed streams parse in one way only. *)
Lemma framed_prefix ds sent t :
  Forall fits ds -> Forall fits sent -> framed ds = framed sent ++ t ->
  exists ds', ds = sent ++ ds' /\ t = framed ds'.
Proof.
  intros Hds Hs. revert ds Hds. induction Hs as [|d sent Hd _ IH]; intros ds Hds.
  { exists ds. by simpl in *. }
  rewrite framed_cons, <- app_assoc. intros H.
  destruct Hds as [|d' ds Hd' Hds].
  { apply (f_equal length) in H. rewrite length_app, length_frame_of in H. simpl in H. lia. }
  rewrite framed_cons in H.
  assert (d' = d) as ->.
  { pose proof (decode_frame_of d' (framed ds) Hd') as H1. rewrite H in H1.
    rewrite decode_frame_of in H1 by done. congruence. }
  apply app_inv_head in H. destruct (IH ds Hds H) as (ds' & -> & ->). by exists ds'.
Qed.

Lemma framed_Incomplete ds :
  Forall fits ds -> decode_frame (framed ds) = Incomplete -> ds = [].
Proof.
  destruct 1; [done|]. rewrite framed_cons. by rewrite decode_frame_of.
Qed.

(** A read of at most [UDP_SEND_BUFFER_BYTES] always finds room. *)
Lemma pump_step_bytes send_ok p c :
  pu_end p = NeedRead -> bytes_ok (pu_pending p) ->
  decode_frame (pu_pending p) = Incomplete -> len c <= UDP_SEND_BUFFER_BYTES ->
  pump_step send_ok p (RBytes c) = pump_drain send_ok (pu_pending p ++ c) (pu_sent p).
Proof.
  intros He Hok Hi Hc. pose proof (decode_frame_Incomplete _ Hok Hi).
  unfold pump_step. rewrite He.
  by rewrite (proj2 (Z.ltb_ge _ _)) by (unfold UDP_PENDING_BUFFER_BYTES; lia).
Qed.

Lemma pump_foldl_done send_ok p evs :
  pu_end p <> NeedRead -> foldl (pump_step send_ok) p evs = p.
Proof.
  intros. induction evs as [|ev evs IH]; [done|]. simpl.
  unfold pump_step at 2. by destruct (pu_end p).
Qed.

(** ** Properties *)

(** The framing is a round trip.  A datagram of up to 65507 bytes, the
    empty one included, is encoded, and decoding it off the front of any
    buffer gives the payload back and its exact length on the wire; a strict
    prefix of the frame is [Incomplete]; a larger payload is refused. *)
Theorem udp_frame_roundtrip payload rest k :
  (len payload <= MAX_UDP_PAYLOAD ->
   exists frame, encode_frame_to_vec payload = Ok frame
     /\ decode_frame (frame ++ rest) = Ready payload (length frame)
     /\ ((k < length frame)%nat -> decode_frame (take k frame) = Incomplete))
  /\ (MAX_UDP_PAYLOAD < len payload -> encode_frame_to_vec payload = Err PayloadTooLarge).
Proof.
  split.
  - intros H. exists (frame_of payload). split; [by apply encode_frame_ok|].
    split; [by apply decode_frame_of|]. intros. by apply decode_frame_strict_prefix.
  - intros H. unfold encode_frame_to_vec, encode_frame. by rewrite (proj2 (Z.ltb_lt _ _)).
Qed.


(** The delivery invariant: what has been read so far is the frames sent plus
    what is pending, and the pump is waiting. *)
Lemma pump_delivers_inv ds chunks p rest :
  Forall fits ds -> Forall bytes_ok chunks ->
  Forall (fun c => len c <= UDP_SEND_BUFFER_BYTES) chunks ->
  pu_end p = NeedRead -> decode_frame (pu_pending p) = Incomplete ->
  bytes_ok (pu_pending p) -> Forall fits (pu_sent p) ->
  framed ds = framed (pu_sent p) ++ pu_pending p ++ concat chunks ++ rest ->
  let q := foldl (pump_step (fun _ => true)) p (RBytes <$> chunks) in
  pu_end q = NeedRead /\ decode_frame (pu_pending q) = Incomplete
  /\ Forall fits (pu_sent q) /\ framed ds = framed (pu_sent q) ++ pu_pending q ++ rest.
Proof.
  intros Hds Hok Hsz. revert p. induction Hok as [|c chunks Hc _ IH]; intros p He Hi Hpok Hs H; [done|].
  apply Forall_cons in Hsz as [Hcs Hsz]. cbn [fmap list_fmap foldl].
  cbn [concat] in H. rewrite pump_step_bytes by done.
  assert (bytes_ok (pu_pending p ++ c)) as Hpc by auto with rs.
  destruct (pump_drain_spec (fun _ => true) (pu_pending p ++ c) (pu_sent p) _ Hpc eq_refl)
    as (new & Hsent & Hnew & Hend).
  set (q := pump_drain _ _ _) in *.
  assert (forall t, framed ds = framed (pu_sent p) ++ (framed new ++ t) ++ concat chunks ++ rest ->
                    framed ds = framed (pu_sent q) ++ t ++ concat chunks ++ rest) as Hre.
  { intros t ->. rewrite Hsent, framed_app, <- !app_assoc. done. }
  assert (Forall fits (pu_sent q)) as Hsq by (rewrite Hsent; auto with rs).
  rewrite <- !app_assoc in H. rewrite (app_assoc (pu_pending p) c) in H.
  destruct (pu_end q) eqn:Eq; try done.
  - destruct Hend as [Hcut Hinc]. rewrite Hcut in H. apply Hre in H.
    apply IH; try done. by apply pump_drain_pending_ok.
  - destruct Hend as (tail & big & n & Hcut & Hrd & Hbig). exfalso. apply Hbig.
    rewrite Hcut in H. apply Hre in H.
    destruct (framed_prefix _ _ _ Hds Hsq H) as (ds' & -> & Ht).
    apply (decode_frame_app _ (concat chunks ++ rest)) in Hrd. rewrite Ht in Hrd.
    apply Forall_app in Hds as [_ Hds'].
    destruct Hds' as [|d ds' Hd Hds']; [done|].
    rewrite framed_cons, decode_frame_of in Hrd by done. congruence.
  - destruct Hend. done.
Qed.

(** whatever way the transport cuts the client's stream into reads, and
    whatever part of it arrived together with the preface, the pump hands the
    backend exactly the datagrams the client framed, in order, one by one. *)
Theorem udp_pump_delivers ds leftover chunks :
  Forall fits ds -> bytes_ok leftover -> Forall bytes_ok chunks ->
  Forall (fun c => len c <= UDP_SEND_BUFFER_BYTES) chunks ->
  leftover ++ concat chunks = framed ds ->
  client_to_backend (fun _ => true) leftover (RBytes <$> chunks) = mkPump [] ds NeedRead.
Proof.
  intros Hds Hl Hc Hsz H. unfold client_to_backend.
  destruct (pump_drain_spec (fun _ => true) leftover [] _ Hl eq_refl) as (new & Hs & Hn & He).
  pose proof (pump_drain_pending_ok (fun _ => true) leftover [] Hl) as Hpok.
  set (p := pump_drain _ _ _) in *. clearbody p. simpl in Hs.
  assert (pu_end p = NeedRead /\ leftover = framed new ++ pu_pending p
          /\ decode_frame (pu_pending p) = Incomplete) as (E & Hcut & Hi).
  { destruct (pu_end p) eqn:E; try done.
    - destruct He as (tail & big & n & -> & Hrd & Hbig). exfalso. apply Hbig.
      symmetry in H. rewrite <- app_assoc in H.
      destruct (framed_prefix _ _ _ Hds Hn H) as (ds' & -> & Ht).
      apply (decode_frame_app _ (concat chunks)) in Hrd. rewrite Ht in Hrd.
      apply Forall_app in Hds as [_ Hds']. destruct Hds' as [|d ds' Hd _]; [done|].
      rewrite framed_cons, decode_frame_of in Hrd by done. congruence.
    - by destruct He. }
  destruct (pump_delivers_inv ds chunks p []) as (E' & Hi' & Hs' & H'); try done.
  - by rewrite Hs.
  - rewrite <- H, Hs, Hcut, app_nil_r, <- app_assoc. done.
  - rewrite app_nil_r in H'. destruct (framed_prefix _ _ _ Hds Hs' H') as (ds' & Heq & Hp).
    rewrite Hp in Hi'. apply framed_Incomplete in Hi';
      [|by rewrite Heq in Hds; apply Forall_app in Hds as [_ ?]].
    subst ds'. rewrite app_nil_r in Heq. simpl in Hp.
    destruct (foldl _ _ _) as [pe se en]. simpl in *. by subst.
Qed.

Lemma udp_pump_delivers_witness :
  client_to_backend (fun _ => true) [0; 3; 111]
    (RBytes <$> [[110]; [101; 0; 0; 0]; [1; 7]]) = mkPump [] [lit "one"; []; [7]] NeedRead.
Proof.
  apply (udp_pump_delivers [lit "one"; []; [7]]).
  - repeat constructor; vm_compute; discriminate.
  - repeat constructor; unfold is_uint; lia.
  - repeat constructor; unfold is_uint; lia.
  - repeat constructor; vm_compute; discriminate.
  - reflexivity.
Defined.

(** The pump never outgrows the buffer the flow has paid for.  For every
    sequence of reads of at most [UDP_SEND_BUFFER_BYTES] bytes, hostile or not,
    the bytes kept between two reads plus the largest read fit in
    [UDP_PENDING_BUFFER_BYTES], so the "more than a frame without completing
    it" exit is never taken. *)
Theorem udp_pump_bounded send_ok leftover evs :
  bytes_ok leftover ->
  Forall (fun ev => match ev with
                    | RBytes c => bytes_ok c /\ len c <= UDP_SEND_BUFFER_BYTES
                    | _ => True end) evs ->
  let p := client_to_backend send_ok leftover evs in
  pu_end p <> EndOverflow
  /\ (pu_end p = NeedRead -> len (pu_pending p) + UDP_SEND_BUFFER_BYTES <= UDP_PENDING_BUFFER_BYTES).
Proof.
  intros Hl Hev. unfold client_to_backend. cbv zeta.
  set (good := fun p => pu_end p <> EndOverflow /\ bytes_ok (pu_pending p)
    /\ (pu_end p = NeedRead -> decode_frame (pu_pending p) = Incomplete)).
  assert (forall b s, bytes_ok b -> good (pump_drain send_ok b s)) as Hdrain.
  { intros b s Hb. destruct (pump_drain_spec send_ok b s _ Hb eq_refl) as (new & _ & _ & He).
    split; [|split; [by apply pump_drain_pending_ok|]]; destruct (pu_end _); naive_solver. }
  assert (forall q, good q -> good (foldl (pump_step send_ok) q evs)) as Hall.
  { induction Hev as [|ev evs Hev1 _ IH]; intros q Hq; [done|]. cbn [foldl]. apply IH.
    destruct Hq as (Hq1 & Hq2 & Hq3). unfold pump_step.
    destruct (pu_end q) eqn:E; try (split_and!; [by rewrite E|done|by rewrite E]).
    destruct ev as [c| | |]; try (split_and!; simpl; done).
    destruct Hev1 as [Hcok Hcsz]. specialize (Hq3 eq_refl).
    pose proof (pump_step_bytes send_ok q c E Hq2 Hq3 Hcsz) as Hst.
    unfold pump_step in Hst. rewrite E in Hst. rewrite Hst. apply Hdrain. auto with rs. }
  destruct (Hall _ (Hdrain leftover [] Hl)) as (H1 & H2 & H3). split; [done|].
  intros E. pose proof (decode_frame_Incomplete _ H2 (H3 E)).
  unfold UDP_PENDING_BUFFER_BYTES. lia.
Qed.


(** ** The way back *)

(** The datagrams that came before the socket failed or went quiet. *)
Fixpoint received (evs : list RecvEvent) : list bytes :=
  match evs with
  | Datagram payload :: evs => payload :: received evs
  | _ => []
  end.

#[global] Instance fits_dec payload : Decision (fits payload).
Proof. unfold fits. apply _. Defined.

Lemma encode_frame_big payload out : ~ fits payload -> encode_frame payload out = Err PayloadTooLarge.
Proof. unfold fits, encode_frame. intros H. by rewrite (proj2 (Z.ltb_lt _ _)) by lia. Qed.

Lemma backend_to_client_frames write_ok written evs :
  exists k, (backend_to_client write_ok written evs).1 =
      written ++ framed (take k (filter fits (received evs))) /\
    ((forall frame, write_ok frame = true) ->
     take k (filter fits (received evs)) = filter fits (received evs)).
Proof.
  revert written. induction evs as [|[payload| |] evs IH]; intros written;
    try (exists 0%nat; cbn; by rewrite app_nil_r).
  cbn [backend_to_client received]. destruct (decide (fits payload)) as [Hf|Hf].
  - rewrite filter_cons_True by done.
    assert (encode_frame payload [] = Ok (frame_of payload)) as -> by by apply encode_frame_ok.
    destruct (write_ok (frame_of payload)) eqn:Ew.
    + destruct (IH (written ++ frame_of payload)) as (k & Hk & Hall). exists (S k).
      cbn [take]. rewrite Hk, framed_cons, <- app_assoc. split; [done|]. intros Hw.
      f_equal. by apply Hall.
    + exists 0%nat. cbn. rewrite app_nil_r. split; [done|]. intros Hw. by rewrite Hw in Ew.
  - rewrite filter_cons_False, encode_frame_big by done. apply IH.
Qed.

Lemma pump_drain_framed ds :
  Forall fits ds -> Forall bytes_ok ds -> pump_drain (fun _ => true) (framed ds) [] = mkPump [] ds NeedRead.
Proof.
  intros Hds Hok. assert (bytes_ok (framed ds)) as Hb.
  { clear Hds. induction Hok as [|d ds Hd _ IH]; [constructor|]. rewrite framed_cons.
    unfold frame_of. auto with rs. }
  destruct (pump_drain_spec (fun _ => true) (framed ds) [] _ Hb eq_refl) as (new & Hs & Hn & He).
  set (p := pump_drain _ _ _) in *. clearbody p. simpl in Hs.
  destruct (pu_end p) eqn:E; try done; [| |by destruct He].
  - destruct He as [Hcut Hi]. destruct (framed_prefix _ _ _ Hds Hn Hcut) as (ds' & -> & Hp).
    rewrite Hp in Hi. apply Forall_app in Hds as [_ Hds']. apply framed_Incomplete in Hi; [|done].
    subst ds'. rewrite app_nil_r. destruct p. simpl in *. by subst.
  - destruct He as (tail & big & n & Hcut & Hrd & Hbig). exfalso. apply Hbig.
    destruct (framed_prefix _ _ _ Hds Hn Hcut) as (ds' & -> & ->).
    apply Forall_app in Hds as [_ Hds']. destruct Hds' as [|d ds' Hd _]; [done|].
    rewrite framed_cons, decode_frame_of in Hrd by done. by simplify_eq.
Qed.

(** The way back.  Whatever the backend sends, the client is written whole
    frames and nothing else: reading them gives back, in order, the datagrams
    the backend sent that fit a frame, as far as the client's stream took
    them, and all of them when it took every frame; a datagram too large for a
    frame is dropped without disturbing the ones around it. *)
Theorem udp_backend_to_client_frames write_ok evs :
  Forall bytes_ok (received evs) ->
  exists out, pump_drain (fun _ => true) (backend_to_client write_ok [] evs).1 [] =
      mkPump [] out NeedRead /\
    out `prefix_of` filter fits (received evs) /\
    ((forall frame, write_ok frame = true) -> out = filter fits (received evs)).
Proof.
  intros Hok. destruct (backend_to_client_frames write_ok [] evs) as (k & -> & Hall).
  exists (take k (filter fits (received evs))). cbn [app]. split; [|split; [|done]].
  - apply pump_drain_framed; apply Forall_take, Forall_forall; intros d Hd;
      apply list_elem_of_filter in Hd as [Hf Hd]; [done|]. by eapply Forall_forall in Hok.
  - apply prefix_take.
Qed.

