(* ===== verification/Host.v ===== *)
(** * The host-pattern rule (nexapipe-proto/src/host.rs).

    Routes, client allow-lists and the client's own domain list all ask the
    same question, "is this host one of mine?", and both ends answer it with
    the functions below.  The theorems say exactly which hosts a pattern
    matches, that no spelling but ["*"] is the catch-all, that a refused
    pattern matches no host name, and that letter case and trailing dots do not
    matter.  Messages of [pattern_error] are represented by their reason. *)

From S2P Require Import Prelude RustStd.

Definition DOT : Z := 46.
Definition STAR : Z := 42.
Definition COLON : Z := 58.
Definition LBRACKET : Z := 91.
Definition RBRACKET : Z := 93.

Definition is_dot (b : Z) : bool := b =? DOT.
Definition is_bracket (b : Z) : bool := (b =? LBRACKET) || (b =? RBRACKET).

(** The [Cow] only records whether a copy was made; the string is the same. *)
Definition normalize_host (host : bytes) : bytes :=
  let host := trim_end_matches is_dot host in
  let host := trim_matches is_bracket host in
  if existsb is_ascii_uppercase host then to_ascii_lowercase host else host.

Definition normalize_pattern (pattern : bytes) : bytes :=
  let folded := normalize_host pattern in
  if bool_decide (folded = [STAR]) && negb (bool_decide (pattern = [STAR]))
  then to_ascii_lowercase pattern
  else folded.

Definition host_matches (pattern host : bytes) : bool :=
  match strip_prefix_char STAR pattern with
  | None => bool_decide (pattern = host)
  | Some [] => true
  | Some rest =>
      match strip_prefix_char DOT rest with
      | None => false
      | Some suffix =>
          match strip_suffix suffix host with
          | None => false
          | Some prefix => ends_with_char DOT prefix
          end
      end
  end.

Inductive PatternError :=
| PE_empty
| PE_leading_dot (rest : bytes)
| PE_catch_all
| PE_wildcard_shape.

Definition pattern_error (pattern : bytes) : option PatternError :=
  if bool_decide (pattern = []) then Some PE_empty
  else if bool_decide (trim_end_matches is_dot pattern = []) then Some PE_empty
  else
    match strip_prefix_char DOT pattern with
    | Some (b :: rest) => Some (PE_leading_dot (b :: rest))
    | _ =>
        if contains_char STAR pattern && negb (bool_decide (pattern = [STAR]))
           && bool_decide (normalize_host pattern = [STAR])
        then Some PE_catch_all
        else
          match strip_prefix_char STAR pattern with
          | None => None
          | Some rest =>
              match strip_prefix_char DOT rest with
              | None => if bool_decide (rest = []) then None else Some PE_wildcard_shape
              | Some suffix =>
                  if negb (bool_decide (suffix = [])) then None else Some PE_wildcard_shape
              end
          end
    end.

Definition host_matches_any (patterns : list bytes) (host : bytes) : bool :=
  let host := normalize_host host in
  existsb (fun pattern => host_matches (normalize_pattern pattern) host) patterns.

Definition host_and_port (host : bytes) : bytes * option Z :=
  if starts_with_char LBRACKET host then
    match find_char RBRACKET host with
    | Some e =>
        let port := match strip_prefix_char COLON (drop (S e) host) with
                    | Some p => parse_u16 p
                    | None => None
                    end in
        (take (S e) host, port)
    | None => (host, None)
    end
  else
    match split_once COLON host with
    | Some (name, port) => (name, parse_u16 port)
    | None => (host, None)
    end.

(** ** The fold *)

Lemma is_dot_lower b : is_dot (ascii_lower b) = is_dot b.
Proof.
  unfold is_dot, DOT. destruct (b =? 46) eqn:E; bools.
  - by subst.
  - apply Z.eqb_neq. rewrite ascii_lower_eq_nonletter by lia. done.
Qed.

Lemma is_bracket_lower b : is_bracket (ascii_lower b) = is_bracket b.
Proof.
  unfold is_bracket, LBRACKET, RBRACKET. f_equal.
  all: match goal with |- (_ =? ?c) = _ => destruct (b =? c) eqn:E end; bools;
    [by subst|apply Z.eqb_neq; rewrite ascii_lower_eq_nonletter by lia; done].
Qed.

(** The trimmed name, before its case is folded. *)
Definition host_core (host : bytes) : bytes :=
  trim_matches is_bracket (trim_end_matches is_dot host).

Lemma normalize_host_lower host :
  normalize_host host = to_ascii_lowercase (host_core host).
Proof.
  unfold normalize_host. fold (host_core host).
  destruct (existsb _ _) eqn:E; [done|]. symmetry. apply to_ascii_lowercase_id.
  apply Forall_forall. intros b Hb. destruct (is_ascii_uppercase b) eqn:Eb; [|done].
  assert (existsb is_ascii_uppercase (host_core host) = true); [|congruence].
  apply existsb_Exists. eauto.
Qed.

Lemma host_core_lower host :
  host_core (to_ascii_lowercase host) = to_ascii_lowercase (host_core host).
Proof.
  unfold host_core, to_ascii_lowercase.
  rewrite trim_end_matches_fmap by apply is_dot_lower.
  by rewrite trim_matches_fmap by apply is_bracket_lower.
Qed.

Lemma normalize_host_case host :
  normalize_host (to_ascii_lowercase host) = normalize_host host.
Proof.
  by rewrite !normalize_host_lower, host_core_lower, to_ascii_lowercase_idemp.
Qed.

(** The ends of the folded name carry no bracket. *)
Lemma drop_while_head p s b t : drop_while p s = b :: t -> p b = false.
Proof. destruct (drop_while_spec p s) as (_ & _ & _ & H). apply H. Qed.

Lemma trim_start_keeps_last p s t b :
  drop_while p s = t ++ [b] -> exists u, s = u ++ [b].
Proof.
  destruct (drop_while_spec p s) as (d & Hd & _). intros H. rewrite H in Hd.
  exists (d ++ t). by rewrite <- app_assoc.
Qed.

Lemma trim_end_last p s t b : trim_end_matches p s = t ++ [b] -> p b = false.
Proof.
  unfold trim_end_matches. intros H.
  apply (f_equal reverse) in H. rewrite reverse_involutive, reverse_snoc in H.
  eapply drop_while_head. exact H.
Qed.

Lemma host_core_head host b t : host_core host = b :: t -> is_bracket b = false.
Proof. unfold host_core, trim_matches, trim_start_matches. apply drop_while_head. Qed.

Lemma host_core_last host b t : host_core host = t ++ [b] -> is_bracket b = false.
Proof.
  unfold host_core, trim_matches, trim_start_matches. intros H.
  apply trim_start_keeps_last in H as [u H]. by eapply trim_end_last.
Qed.

Lemma normalize_host_head host b t : normalize_host host = b :: t -> is_bracket b = false.
Proof.
  rewrite normalize_host_lower. destruct (host_core host) as [|c u] eqn:E; [done|].
  intros [= <- _]. rewrite is_bracket_lower. by eapply host_core_head.
Qed.

Lemma normalize_host_last host b t : normalize_host host = t ++ [b] -> is_bracket b = false.
Proof.
  rewrite normalize_host_lower. intros H.
  destruct (host_core host) as [|c u _] eqn:E using rev_ind; [by destruct t|].
  rewrite to_ascii_lowercase_app in H. apply app_inj_2 in H as [_ [= <-]]; [|done].
  rewrite is_bracket_lower. by eapply host_core_last.
Qed.

Lemma to_ascii_lowercase_star s : to_ascii_lowercase s = [STAR] <-> s = [STAR].
Proof.
  split; [|by intros ->]. destruct s as [|b [|? ?]]; [done| |done].
  intros [= H]. apply (ascii_lower_eq_nonletter b STAR) in H; [by subst|unfold STAR; lia].
Qed.

Lemma normalize_pattern_star p : normalize_pattern p = [STAR] <-> p = [STAR].
Proof.
  unfold normalize_pattern. destruct (decide (p = [STAR])) as [->|Hp]; [done|].
  rewrite (bool_decide_eq_false_2 (p = _)) by done. rewrite andb_true_r.
  case_bool_decide as Hf; [|done]. by rewrite to_ascii_lowercase_star.
Qed.

(** A name that starts with a byte no fold removes keeps that byte. *)
Lemma host_core_cons b s :
  is_dot b = false -> is_bracket b = false ->
  host_core (b :: s) = b :: trim_end_matches is_bracket (trim_end_matches is_dot s).
Proof.
  intros Hd Hb. unfold host_core, trim_matches, trim_start_matches.
  rewrite !trim_end_matches_cons by done. by apply drop_while_id.
Qed.

Lemma host_core_dot s :
  trim_end_matches is_dot (DOT :: s) <> [] -> exists t, host_core (DOT :: s) = DOT :: t.
Proof.
  intros Hne. pose proof (trim_end_matches_prefix is_dot (DOT :: s)) as [d Hd].
  unfold host_core, trim_matches, trim_start_matches.
  destruct (trim_end_matches is_dot (DOT :: s)) as [|b t]; [done|].
  injection Hd as <- _. exists (trim_end_matches is_bracket t).
  by rewrite trim_end_matches_cons, drop_while_id.
Qed.

Lemma normalize_host_trailing_dots h n :
  normalize_host (h ++ replicate n DOT) = normalize_host h.
Proof.
  rewrite !normalize_host_lower. unfold host_core.
  by rewrite trim_end_matches_app_all by by apply Forall_replicate.
Qed.

(** ** Matching *)

Lemma host_matches_spec pattern host :
  host_matches pattern host = true <->
  pattern = [STAR] \/
  (starts_with_char STAR pattern = false /\ pattern = host) \/
  (exists suffix label, pattern = STAR :: DOT :: suffix /\ host = label ++ DOT :: suffix).
Proof.
  unfold host_matches. destruct pattern as [|b p]; simpl.
  { rewrite bool_decide_eq_true. naive_solver. }
  destruct (b =? STAR) eqn:E; bools; [subst b|rewrite bool_decide_eq_true; naive_solver].
  destruct p as [|c p]; simpl; [naive_solver|].
  destruct (c =? DOT) eqn:E; bools; [subst c|naive_solver].
  destruct (strip_suffix p host) as [pre|] eqn:Es.
  - apply strip_suffix_Some in Es. rewrite ends_with_char_true. split.
    + intros [l ->]. right; right. exists p, l. rewrite Es, <- app_assoc. done.
    + intros [?|[[??]|(q & l & [= <-] & H)]]; [done..|]. exists l.
      rewrite Es in H. apply (app_inv_tail p). rewrite H, <- app_assoc. done.
  - split; [done|]. intros [?|[[??]|(q & l & [= <-] & ->)]]; [done..|].
    assert (strip_suffix p (l ++ DOT :: p) = Some (l ++ [DOT])); [|congruence].
    apply strip_suffix_Some. by rewrite <- app_assoc.
Qed.

(** which hosts a list of patterns covers.  A list covers a host exactly
    when it holds the literal catch-all ["*"] (no other spelling acts as one),
    or a non-wildcard pattern whose folded form is the folded host, or a
    wildcard ["*.suffix"] with the host ending in [".suffix"] at a label
    boundary.  The apex [suffix] alone is not covered by its own wildcard. *)
Theorem host_matches_any_exact patterns host :
  host_matches_any patterns host = true <->
  [STAR] ∈ patterns \/
  exists pattern, pattern ∈ patterns /\
    ((starts_with_char STAR (normalize_pattern pattern) = false /\
      normalize_pattern pattern = normalize_host host) \/
     exists suffix label,
       normalize_pattern pattern = STAR :: DOT :: suffix /\
       normalize_host host = label ++ DOT :: suffix).
Proof.
  unfold host_matches_any. rewrite existsb_Exists. setoid_rewrite host_matches_spec.
  setoid_rewrite normalize_pattern_star. naive_solver.
Qed.

(** Letter case and trailing dots never decide a match: two hosts that
    differ only in ASCII case and trailing dots are covered by the same lists,
    and so is a list whose patterns are written in another case. *)
Lemma host_matches_any_fold patterns host host' :
  eq_ignore_ascii_case (trim_end_matches is_dot host) (trim_end_matches is_dot host') = true ->
  host_matches_any (to_ascii_lowercase <$> patterns) host = host_matches_any patterns host'.
Proof.
  intros Heq. apply bool_decide_eq_true in Heq.
  assert (normalize_host host = normalize_host host') as Hh.
  { rewrite !normalize_host_lower, <- !host_core_lower.
    unfold host_core, to_ascii_lowercase in *.
    rewrite !trim_end_matches_fmap by apply is_dot_lower. by rewrite Heq. }
  assert (forall p, normalize_pattern (to_ascii_lowercase p) = normalize_pattern p) as Hp.
  { intros p. unfold normalize_pattern.
    rewrite normalize_host_case, to_ascii_lowercase_idemp.
    by rewrite (bool_decide_ext _ _ (to_ascii_lowercase_star p)). }
  unfold host_matches_any. rewrite Hh. induction patterns as [|p ps IH]; [done|].
  cbn [fmap list_fmap existsb]. by rewrite Hp, IH.
Qed.

(** A host as a DNS query or a preface can carry it, once folded: it has
    labels at both ends. *)
Definition dns_shaped (host : bytes) : Prop :=
  host <> [] /\ starts_with_char DOT host = false /\ ends_with_char DOT host = false.

(** The catch-all in another spelling: what is left of a ["*"] that is not
    alone is a run of dots, or the pattern starts with a bracket. *)
Lemma catch_all_spelling p :
  p <> [STAR] -> normalize_host p = [STAR] ->
  (exists b t, p = b :: t /\ is_bracket b = true) \/
  (exists t, p = STAR :: t /\ t <> [] /\
             (starts_with_char DOT t = true -> Forall (fun b => is_dot b = true) t)).
Proof.
  intros Hp Hn. destruct p as [|b t]; [done|].
  destruct (is_bracket b) eqn:Hb; [left; eauto|]. right. exists t.
  rewrite normalize_host_lower, to_ascii_lowercase_star in Hn.
  destruct (is_dot b) eqn:Hd.
  { apply Z.eqb_eq in Hd as ->.
    destruct (decide (trim_end_matches is_dot (DOT :: t) = [])) as [E|E].
    - unfold host_core in Hn. by rewrite E in Hn.
    - apply host_core_dot in E as [u Hu]. by rewrite Hu in Hn. }
  rewrite host_core_cons in Hn by done. injection Hn as -> Ht.
  split; [done|]. split; [by intros ->|]. intros Hdot.
  destruct t as [|c t]; [done|]. simpl in Hdot. apply Z.eqb_eq in Hdot as ->.
  apply trim_end_matches_nil. apply trim_end_matches_nil in Ht.
  destruct (trim_end_matches_prefix is_dot (DOT :: t)) as [d Hd'].
  destruct (trim_end_matches is_dot (DOT :: t)); [done|].
  injection Hd' as <- _. inversion Ht. done.
Qed.

(** A wildcard whose star is not followed by a dot keeps that shape. *)
Lemma wildcard_shape_kept p t :
  p = STAR :: t -> starts_with_char DOT t = false -> normalize_host p <> [STAR] ->
  exists b u, normalize_host p = STAR :: b :: u /\ b <> DOT.
Proof.
  intros -> Ht. rewrite normalize_host_lower, host_core_cons by done.
  destruct (trim_end_matches is_bracket (trim_end_matches is_dot t)) as [|b u] eqn:Eu; [done|].
  intros _.
  exists (ascii_lower b), (to_ascii_lowercase u). split; [done|].
  assert ((b :: u) `prefix_of` t) as [d Hd].
  { rewrite <- Eu. etrans; apply trim_end_matches_prefix. }
  subst t. simpl in Ht. apply Z.eqb_neq in Ht. intros H.
  apply Ht. by apply (ascii_lower_eq_nonletter b DOT) in H; [|unfold DOT; lia].
Qed.

(** A pattern folded as itself matches nothing but a host that starts with a
    bracket or ends with a dot, when it is a catch-all in disguise. *)
Lemma catch_all_spelling_matches p h :
  p <> [STAR] -> normalize_host p = [STAR] -> dns_shaped (normalize_host h) ->
  host_matches (to_ascii_lowercase p) (normalize_host h) = false.
Proof.
  intros Hp Hn (_ & _ & Hend). apply not_true_iff_false. rewrite host_matches_spec.
  intros [H|[[Hs H]|(suf & l & H & Hh)]].
  - by apply (proj1 (to_ascii_lowercase_star p)) in H.
  - destruct (catch_all_spelling p Hp Hn) as [(b & t & -> & Hb)|(t & -> & _)]; [|done].
    symmetry in H. apply normalize_host_head in H. by rewrite is_bracket_lower, Hb in H.
  - destruct p as [|b p]; [done|]. injection H as Hb Ht.
    apply (ascii_lower_eq_nonletter b STAR) in Hb as ->; [|unfold STAR; lia].
    destruct (catch_all_spelling _ Hp Hn) as [(b & t & [= <- _] & Hb)|(t & [= <-] & Hne & Hd)]; [done|].
    destruct p as [|c p]; [done|]. injection Ht as Hc Ht.
    apply (ascii_lower_eq_nonletter c DOT) in Hc as ->; [|unfold DOT; lia].
    specialize (Hd eq_refl). rewrite to_ascii_lowercase_id in Ht.
    + subst suf. rewrite Hh in Hend. apply not_true_iff_false in Hend. apply Hend.
      apply ends_with_char_true.
      destruct (exists_last (l := DOT :: p)) as (q & c & Hq); [done|].
      exists (l ++ q). rewrite Hq in Hd |- *. apply Forall_app in Hd as [_ Hd].
      inversion Hd as [|?? Hc]. apply Z.eqb_eq in Hc as ->. apply app_assoc.
    + apply Forall_inv_tail in Hd. eapply Forall_impl; [exact Hd|].
      intros b Hb. by apply Z.eqb_eq in Hb as ->.
Qed.

(** A pattern the configuration check refuses covers no host a client can name:
    whatever the reason for the refusal, the pattern matches no DNS-shaped host,
    so a configuration that skipped the check cannot widen what is proxied. *)
Lemma refused_matches_nothing pattern e host :
  pattern_error pattern = Some e -> dns_shaped (normalize_host host) ->
  host_matches (normalize_pattern pattern) (normalize_host host) = false.
Proof.
  intros He Hh. unfold normalize_pattern.
  destruct (decide (normalize_host pattern = [STAR] /\ pattern <> [STAR])) as [[Hn Hp]|Hno].
  { rewrite bool_decide_eq_true_2, bool_decide_eq_false_2 by done.
    by apply catch_all_spelling_matches. }
  replace (bool_decide (normalize_host pattern = [STAR]) && _) with false
    by (repeat case_bool_decide; simpl; tauto).
  apply not_true_iff_false. rewrite host_matches_spec. intros Hm.
  destruct Hh as (Hne & Hs & _).
  unfold pattern_error in He.
  destruct (bool_decide (pattern = [])) eqn:E0; [|destruct (bool_decide (trim_end_matches _ _ = [])) eqn:E1]; bools.
  1,2: assert (normalize_host pattern = []) as Hz
      by (rewrite normalize_host_lower; unfold host_core; by subst || by rewrite E1);
    rewrite Hz in Hm; naive_solver.
  destruct pattern as [|b t]; [done|].
  destruct (b =? DOT) eqn:Eb; bools.
  { subst b. apply host_core_dot in E1 as [u Hu].
    rewrite normalize_host_lower, Hu in Hm. cbn in Hm.
    destruct Hm as [?|[[_ Hx]|(?&?&?&?)]]; [done| |done]. by rewrite <- Hx in Hs. }
  assert (strip_prefix_char DOT (b :: t) = None) as Hsd
    by (simpl; by rewrite (proj2 (Z.eqb_neq _ _))).
  rewrite Hsd in He.
  destruct (_ && _ && _) eqn:Ec; bools; [tauto|].
  cbn [strip_prefix_char] in He. destruct (b =? STAR) eqn:Es; bools; [subst b|done].
  assert (starts_with_char DOT t = false) as Hst.
  { destruct t as [|c t]; [done|]. simpl in *. destruct (c =? DOT) eqn:E; bools; [subst|done].
    destruct t; [|done]. by destruct Hno. }
  destruct (wildcard_shape_kept _ t eq_refl Hst) as (c & u & Hcu & Hc).
  { intros Hx. apply Hno. split; [done|]. intros [= ->]. done. }
  rewrite Hcu in Hm. destruct Hm as [?|[[??]|(?&?&[= ? ?]&?)]]; done.
Qed.

(** ** Host and port *)

(** An authority printed as [name:port] is read back as that name and that
    port: for a bare name without a colon, and for a bracketed IPv6 literal
    whose own colons stay part of the address.  Without a port the whole
    authority is the host. *)
Theorem host_and_port_roundtrip name port :
  is_u16 port ->
  ((COLON ∉ name /\ starts_with_char LBRACKET name = false) \/
   (exists addr, name = LBRACKET :: addr ++ [RBRACKET] /\ RBRACKET ∉ addr)) ->
  host_and_port (name ++ COLON :: show_uint port) = (name, Some port) /\
  host_and_port name = (name, None).
Proof.
  intros Hp [[Hc Hb]|(addr & -> & Hr)].
  - assert (starts_with_char LBRACKET (name ++ COLON :: show_uint port) = false) as Hb'
      by by destruct name.
    unfold host_and_port. rewrite Hb, Hb', split_once_app by done.
    rewrite (proj2 (split_once_None _ _)) by done. by rewrite parse_u16_show.
  - assert (RBRACKET ∉ LBRACKET :: addr) as Hr' by (apply not_elem_of_cons; done).
    assert (forall r, host_and_port ((LBRACKET :: addr) ++ RBRACKET :: r) =
      (LBRACKET :: addr ++ [RBRACKET],
       match strip_prefix_char COLON r with Some p => parse_u16 p | None => None end)) as Hgen.
    { intros r. unfold host_and_port. cbn [app starts_with_char].
      rewrite Z.eqb_refl. change (LBRACKET :: addr ++ RBRACKET :: r)
        with ((LBRACKET :: addr) ++ RBRACKET :: r). rewrite find_char_app by done.
      replace ((LBRACKET :: addr) ++ RBRACKET :: r)
        with (((LBRACKET :: addr) ++ [RBRACKET]) ++ r) by by rewrite <- app_assoc.
      replace (S (length (LBRACKET :: addr))) with (length ((LBRACKET :: addr) ++ [RBRACKET]))
        by (rewrite length_app; simpl; lia).
      by rewrite take_app_len, drop_app_len. }
    split; [|by apply (Hgen [])].
    replace ((LBRACKET :: addr ++ [RBRACKET]) ++ COLON :: show_uint port)
      with ((LBRACKET :: addr) ++ RBRACKET :: COLON :: show_uint port)
      by (simpl; by rewrite <- app_assoc).
    rewrite Hgen. simpl. by rewrite parse_u16_show.
Qed.

