(* ===== verification/Tls.v ===== *)
(** * The TLS [ClientHello] and the name inside it (nexapipe-proto/src/tls.rs).

    [extract_sni] walks a record with the bounds-checked [Cursor] of the source;
    the two [while] loops run with the number of bytes left as fuel, which
    [extensions_loop_fuel] and [names_loop_fuel] show to be enough.  The
    specification is [hello_sni], a one-line definition on a structured hello;
    [extract_sni_spec] is the refinement. *)

From S2P Require Import Prelude RustStd.

Definition TLS_HANDSHAKE : Z := 22.
Definition HANDSHAKE_CLIENT_HELLO : Z := 1.
Definition EXT_SERVER_NAME : Z := 0.
Definition NAME_TYPE_HOST : Z := 0.
Definition MAX_HOST_NAME_LEN : Z := 253.

Definition is_tls_handshake (first_byte : Z) : bool := first_byte =? TLS_HANDSHAKE.

Definition is_presentable_host_name (name : bytes) : bool :=
  negb (bool_decide (name = [])) && (len name <=? MAX_HOST_NAME_LEN)
  && forallb is_ascii_graphic name.

(** ** The cursor *)

Record Cursor := { c_data : bytes; c_pos : nat }.

Definition cursor_new (data : bytes) : Cursor := {| c_data := data; c_pos := 0 |}.

Definition cursor_u8 (c : Cursor) : option (Z * Cursor) :=
  let! value := c_data c !! c_pos c in
  Some (value, {| c_data := c_data c; c_pos := c_pos c + 1 |}).

Definition cursor_u16 (c : Cursor) : option (Z * Cursor) :=
  let! '(high, c) := cursor_u8 c in
  let! '(low, c) := cursor_u8 c in
  Some (Z.lor (Z.shiftl high 8) low, c).

(** [checked_add] cannot fail where the slice is in range: a slice is shorter
    than [usize::MAX]; out of range, both answer [None]. *)
Definition cursor_take (n : nat) (c : Cursor) : option (bytes * Cursor) :=
  let end_ := (c_pos c + n)%nat in
  if bool_decide (end_ <= length (c_data c))%nat
  then Some (take n (drop (c_pos c) (c_data c)), {| c_data := c_data c; c_pos := end_ |})
  else None.

Definition cursor_skip (n : nat) (c : Cursor) : option Cursor :=
  let! '(_, c) := cursor_take n c in Some c.

Definition cursor_remaining (c : Cursor) : nat := (length (c_data c) - c_pos c)%nat.

(** ** The parser *)

(** How the walk of a name list ends: the function returns, or the list is
    exhausted and the next extension is looked at. *)
Inductive names_outcome :=
| Return (r : option bytes)
| ListEnd.

Fixpoint names_loop (fuel : nat) (list : Cursor) : names_outcome :=
  if bool_decide (3 <= cursor_remaining list)%nat then
    match fuel with
    | O => Return None
    | S fuel =>
        match cursor_u8 list with
        | None => Return None
        | Some (name_type, list) =>
            match cursor_u16 list with
            | None => Return None
            | Some (name_len, list) =>
                match cursor_take (Z.to_nat name_len) list with
                | None => Return None
                | Some (name, list) =>
                    if negb (name_type =? NAME_TYPE_HOST) then names_loop fuel list
                    else
                      Return (let! name := from_utf8 name in
                              if is_presentable_host_name name then Some name else None)
                end
            end
        end
    end
  else ListEnd.

Fixpoint extensions_loop (fuel : nat) (extensions : Cursor) : option bytes :=
  if bool_decide (4 <= cursor_remaining extensions)%nat then
    match fuel with
    | O => None
    | S fuel =>
        let! '(ext_type, extensions) := cursor_u16 extensions in
        let! '(ext_len, extensions) := cursor_u16 extensions in
        let! '(ext_data, extensions) := cursor_take (Z.to_nat ext_len) extensions in
        if ext_type =? EXT_SERVER_NAME then
          let! list := cursor_skip 2 (cursor_new ext_data) in
          match names_loop (cursor_remaining list) list with
          | Return r => r
          | ListEnd => extensions_loop fuel extensions
          end
        else extensions_loop fuel extensions
    end
  else None.

(** The part of [extract_sni] that reads the record. *)
Definition extract_sni_record (record : Cursor) : option bytes :=
  let! record := cursor_skip 5 record in
  let! '(ty, record) := cursor_u8 record in
  if negb (ty =? HANDSHAKE_CLIENT_HELLO) then None
  else
    let! record := cursor_skip 3 record in
    let! record := cursor_skip 2 record in
    let! record := cursor_skip 32 record in
    let! '(session_id_len, record) := cursor_u8 record in
    let! record := cursor_skip (Z.to_nat session_id_len) record in
    let! '(cipher_suites_len, record) := cursor_u16 record in
    let! record := cursor_skip (Z.to_nat cipher_suites_len) record in
    let! '(compression_len, record) := cursor_u8 record in
    let! record := cursor_skip (Z.to_nat compression_len) record in
    let! '(extensions_len, record) := cursor_u16 record in
    let! '(data, record) := cursor_take (Z.to_nat extensions_len) record in
    let extensions := cursor_new data in
    extensions_loop (cursor_remaining extensions) extensions.

Definition extract_sni (data : bytes) : option bytes :=
  let header := cursor_new data in
  let! '(ty, header) := cursor_u8 header in
  if negb (ty =? TLS_HANDSHAKE) then None
  else
    let! header := cursor_skip 2 header in
    let! '(record_len, header) := cursor_u16 header in
    let record_end := (5 + Z.to_nat record_len)%nat in
    if bool_decide (length data < record_end)%nat then None
    else extract_sni_record (cursor_new (take record_end data)).

(** ** The specification: a structured hello *)

Inductive HelloExt :=
| ServerName (list_len : bytes) (names : list (Z * bytes)) (trailing : bytes)
| OtherExt (ext_type : Z) (data : bytes).

Record Hello := {
  h_record_version : bytes;
  h_handshake_len : bytes;
  h_client_version : bytes;
  h_random : bytes;
  h_session_id : bytes;
  h_cipher_suites : bytes;
  h_compression : bytes;
  h_extensions : list HelloExt;
  h_trailing : bytes;
}.

Definition ext_names (e : HelloExt) : list (Z * bytes) :=
  match e with ServerName _ names _ => names | OtherExt _ _ => [] end.

(** The name a hello carries: that of the first [host_name] entry, over all
    the [server_name] extensions, when it can be presented. *)
Definition first_host (names : list (Z * bytes)) : option bytes :=
  match filter (fun n => n.1 = NAME_TYPE_HOST) names with
  | [] => None
  | (_, name) :: _ => Some name
  end.

Definition names_sni (names : list (Z * bytes)) : option bytes :=
  match first_host names with
  | None => None
  | Some name => if is_presentable_host_name name then Some name else None
  end.

Definition hello_sni (h : Hello) : option bytes :=
  names_sni (h_extensions h ≫= ext_names).

(** ** Its encoding (RFC 8446, RFC 6066) *)

Definition be16 (n : nat) : bytes := to_be_bytes 2 (Z.of_nat n).

Definition encode_name (n : Z * bytes) : bytes := n.1 :: be16 (length n.2) ++ n.2.

Definition encode_ext (e : HelloExt) : bytes :=
  let '(ty, data) :=
    match e with
    | ServerName list_len names trailing =>
        (EXT_SERVER_NAME, list_len ++ (names ≫= encode_name) ++ trailing)
    | OtherExt ty data => (ty, data)
    end in
  to_be_bytes 2 ty ++ be16 (length data) ++ data.

Definition encode_hello_body (h : Hello) : bytes :=
  HANDSHAKE_CLIENT_HELLO :: h_handshake_len h ++ h_client_version h ++ h_random h
  ++ Z.of_nat (length (h_session_id h)) :: h_session_id h
  ++ be16 (length (h_cipher_suites h)) ++ h_cipher_suites h
  ++ Z.of_nat (length (h_compression h)) :: h_compression h
  ++ be16 (length (h_extensions h ≫= encode_ext)) ++ (h_extensions h ≫= encode_ext)
  ++ h_trailing h.

Definition encode_hello (h : Hello) : bytes :=
  TLS_HANDSHAKE :: h_record_version h ++ be16 (length (encode_hello_body h))
  ++ encode_hello_body h.

(** Each length fits the field that carries it. *)
Definition u16_long (s : bytes) : Prop := len s < 65536.

Definition ext_ok (e : HelloExt) : Prop :=
  match e with
  | ServerName list_len names trailing =>
      length list_len = 2%nat /\ (length trailing < 3)%nat /\
      u16_long (list_len ++ (names ≫= encode_name) ++ trailing)
  | OtherExt ty data => is_u16 ty /\ ty <> EXT_SERVER_NAME /\ u16_long data
  end.

Record hello_ok (h : Hello) : Prop := {
  ok_record_version : length (h_record_version h) = 2%nat;
  ok_handshake_len : length (h_handshake_len h) = 3%nat;
  ok_client_version : length (h_client_version h) = 2%nat;
  ok_random : length (h_random h) = 32%nat;
  ok_session_id : (length (h_session_id h) < 256)%nat;
  ok_compression : (length (h_compression h) < 256)%nat;
  ok_extensions : Forall ext_ok (h_extensions h);
  ok_body : u16_long (encode_hello_body h);
}.

(** ** Cursor lemmas *)

(** The cursor stands in front of [r]. *)
Definition at_rest (c : Cursor) (r : bytes) : Prop :=
  exists pre, c_data c = pre ++ r /\ c_pos c = length pre.

Lemma at_rest_new data : at_rest (cursor_new data) data.
Proof. by exists []. Qed.

Lemma at_rest_remaining c r : at_rest c r -> cursor_remaining c = length r.
Proof.
  intros (pre & Hd & Hp). unfold cursor_remaining. rewrite Hd, Hp, length_app. lia.
Qed.

Lemma cursor_u8_at c b r :
  at_rest c (b :: r) -> exists c', cursor_u8 c = Some (b, c') /\ at_rest c' r.
Proof.
  intros (pre & Hd & Hp). unfold cursor_u8. rewrite Hd, Hp, list_lookup_middle by done.
  eexists. split; [done|]. exists (pre ++ [b]). simpl.
  rewrite length_app, <- app_assoc. split; [done|simpl; lia].
Qed.

Lemma cursor_take_at c x r :
  at_rest c (x ++ r) ->
  exists c', cursor_take (length x) c = Some (x, c') /\ at_rest c' r.
Proof.
  intros (pre & Hd & Hp). unfold cursor_take. rewrite Hp, Hd.
  rewrite bool_decide_eq_true_2 by (rewrite !length_app; lia).
  rewrite drop_app_len, take_app_len. eexists. split; [done|].
  exists (pre ++ x). simpl. by rewrite length_app, <- app_assoc.
Qed.

Lemma cursor_skip_at c n x r :
  at_rest c (x ++ r) -> length x = n ->
  exists c', cursor_skip n c = Some c' /\ at_rest c' r.
Proof.
  intros H <-. apply cursor_take_at in H as (c' & H & ?). unfold cursor_skip.
  rewrite H. eauto.
Qed.

Lemma lor_shift8 h l : is_u8 l -> Z.lor (Z.shiftl h 8) l = h * 256 + l.
Proof.
  intros Hl. pose proof (Z.add_lor_land (Z.shiftl h 8) l) as H.
  assert (Z.land (Z.shiftl h 8) l = 0) as Hz.
  { apply Z.bits_inj'. intros n Hn. rewrite Z.land_spec, Z.bits_0.
    destruct (decide (n < 8)).
    - by rewrite Z.shiftl_spec_low.
    - rewrite (Z.bits_above_log2 l n), andb_false_r; [done|unfold is_uint in *; lia|].
      destruct (decide (l = 0)) as [->|]; [simpl; lia|].
      apply Z.lt_le_trans with 8; [|lia]. apply Z.log2_lt_pow2; unfold is_uint in *; lia. }
  rewrite Hz in H. rewrite (Z.shiftl_mul_pow2 h 8) in * by lia.
  change (2 ^ 8) with 256 in *. lia.
Qed.

Lemma cursor_u16_at c z r :
  is_u16 z -> at_rest c (to_be_bytes 2 z ++ r) ->
  exists c', cursor_u16 c = Some (z, c') /\ at_rest c' r.
Proof.
  intros Hz. rewrite to_be_bytes_2 by done. intros H. unfold cursor_u16.
  apply cursor_u8_at in H as (c1 & -> & H). apply cursor_u8_at in H as (c2 & -> & H).
  eexists. split; [|done]. rewrite lor_shift8.
  - do 2 f_equal. pose proof (Z.div_mod z 256). lia.
  - unfold is_uint. pose proof (Z.mod_pos_bound z 256). lia.
Qed.

(** A length field followed by its data. *)
Lemma cursor_u16_take_at c x r :
  u16_long x -> at_rest c (be16 (length x) ++ x ++ r) ->
  exists n c1 c2, cursor_u16 c = Some (n, c1) /\
    cursor_take (Z.to_nat n) c1 = Some (x, c2) /\ at_rest c2 r.
Proof.
  intros Hx H. apply cursor_u16_at in H as (c1 & H1 & H);
    [|unfold u16_long, len, is_uint in *; lia].
  apply cursor_take_at in H as (c2 & H2 & H).
  exists (Z.of_nat (length x)), c1, c2. by rewrite Nat2Z.id.
Qed.

Lemma cursor_u8_remaining c b c' :
  cursor_u8 c = Some (b, c') -> (cursor_remaining c = 1 + cursor_remaining c')%nat.
Proof.
  unfold cursor_u8. destruct (_ !! _) eqn:E; [|done]. intros [= <- <-].
  apply lookup_lt_Some in E. unfold cursor_remaining. simpl. lia.
Qed.

Lemma cursor_u16_remaining c b c' :
  cursor_u16 c = Some (b, c') -> (cursor_remaining c = 2 + cursor_remaining c')%nat.
Proof.
  unfold cursor_u16. destruct (cursor_u8 c) as [[h c1]|] eqn:E1; [|done].
  destruct (cursor_u8 c1) as [[l c2]|] eqn:E2; [|done]. intros [= <- <-].
  apply cursor_u8_remaining in E1, E2. lia.
Qed.

Lemma cursor_take_remaining n c x c' :
  cursor_take n c = Some (x, c') -> (cursor_remaining c = n + cursor_remaining c')%nat.
Proof.
  unfold cursor_take. case_bool_decide; [|done]. intros [= <- <-].
  unfold cursor_remaining. simpl. lia.
Qed.

Ltac spend :=
  repeat match goal with
  | H : cursor_u8 _ = Some _ |- _ => apply cursor_u8_remaining in H
  | H : cursor_u16 _ = Some _ |- _ => apply cursor_u16_remaining in H
  | H : cursor_take _ _ = Some _ |- _ => apply cursor_take_remaining in H
  end.

(** ** Fuel: every turn of a loop consumes its entry's header *)

Lemma names_loop_fuel f1 f2 c :
  (cursor_remaining c <= f1)%nat -> (cursor_remaining c <= f2)%nat ->
  names_loop f1 c = names_loop f2 c.
Proof.
  revert f2 c. induction f1 as [|f1 IH]; intros [|f2] c H1 H2; simpl;
    case_bool_decide; try done; try lia.
  destruct (cursor_u8 c) as [[b c1]|] eqn:?; [|done].
  destruct (cursor_u16 c1) as [[n c2]|] eqn:?; [|done].
  destruct (cursor_take _ c2) as [[x c3]|] eqn:?; [|done]. spend.
  destruct (negb _); [apply IH; lia|done].
Qed.

Lemma extensions_loop_fuel f1 f2 c :
  (cursor_remaining c <= f1)%nat -> (cursor_remaining c <= f2)%nat ->
  extensions_loop f1 c = extensions_loop f2 c.
Proof.
  revert f2 c. induction f1 as [|f1 IH]; intros [|f2] c H1 H2; simpl;
    case_bool_decide; try done; try lia.
  destruct (cursor_u16 c) as [[b c1]|] eqn:?; [|done].
  destruct (cursor_u16 c1) as [[n c2]|] eqn:?; [|done].
  destruct (cursor_take _ c2) as [[x c3]|] eqn:?; [|done]. spend.
  destruct (_ =? _); [|apply IH; lia]. destruct (cursor_skip _ _); [|done].
  destruct (names_loop _ _); [done|apply IH; lia].
Qed.

(** ** Refinement of the specification *)

Lemma is_presentable_utf8 name :
  is_presentable_host_name name = true -> from_utf8 name = Some name.
Proof.
  unfold is_presentable_host_name, from_utf8. intros H. bools.
  by rewrite utf8_valid_graphic by by apply forallb_Forall.
Qed.

Lemma host_entry_outcome name :
  (let! name := from_utf8 name in
   if is_presentable_host_name name then Some name else None) =
  if is_presentable_host_name name then Some name else None.
Proof.
  destruct (is_presentable_host_name name) eqn:E.
  - rewrite is_presentable_utf8 by done. by rewrite E.
  - unfold from_utf8. destruct (utf8_valid name); [by rewrite E|done].
Qed.

Lemma length_be16 n : length (be16 n) = 2%nat.
Proof. apply length_to_be_bytes. Qed.

Lemma encode_names_cons ty name names trailing :
  (((ty, name) :: names) ≫= encode_name) ++ trailing =
  ty :: be16 (length name) ++ name ++ (names ≫= encode_name) ++ trailing.
Proof. rewrite bind_cons. unfold encode_name at 1. cbn [fst snd app]. by rewrite <- !app_assoc. Qed.

Lemma u16_long_entry b x y z : u16_long (b :: x ++ y ++ z) -> u16_long y /\ u16_long z.
Proof.
  unfold u16_long. intros. simp_len. pose proof (len_nonneg x). pose proof (len_nonneg y).
  pose proof (len_nonneg z). lia.
Qed.

Lemma names_loop_spec fuel names trailing c :
  at_rest c ((names ≫= encode_name) ++ trailing) ->
  u16_long ((names ≫= encode_name) ++ trailing) -> (length trailing < 3)%nat ->
  (cursor_remaining c <= fuel)%nat ->
  names_loop fuel c =
    match first_host names with
    | None => ListEnd
    | Some name => Return (if is_presentable_host_name name then Some name else None)
    end.
Proof.
  revert fuel c. induction names as [|[ty name] names IH]; intros fuel c Hc Hl Ht Hf.
  - apply at_rest_remaining in Hc. simpl in Hc.
    destruct fuel; simpl; rewrite bool_decide_eq_false_2 by lia; done.
  - rewrite encode_names_cons in Hc, Hl. pose proof (at_rest_remaining _ _ Hc) as Hr.
    apply u16_long_entry in Hl as [Hn Hl].
    rewrite length_cons, length_app, length_be16 in Hr.
    destruct fuel as [|fuel]; [lia|]. cbn [names_loop].
    rewrite bool_decide_eq_true_2 by lia.
    apply cursor_u8_at in Hc as (c1 & -> & Hc).
    apply cursor_u16_take_at in Hc as (n & c2 & c3 & -> & -> & Hc); [|done].
    unfold first_host. rewrite filter_cons. cbn [fst].
    destruct (ty =? NAME_TYPE_HOST) eqn:E; bools.
    + rewrite decide_True by done. by rewrite host_entry_outcome.
    + rewrite decide_False by done. apply IH; [done..|].
      apply at_rest_remaining in Hc. rewrite !length_app in *. lia.
Qed.

Lemma first_host_app a b :
  first_host (a ++ b) = match first_host a with Some n => Some n | None => first_host b end.
Proof.
  unfold first_host. rewrite filter_app.
  by destruct (filter _ a) as [|[? ?] ?].
Qed.

Lemma u16_long_app_inv x y : u16_long (x ++ y) -> u16_long x /\ u16_long y.
Proof.
  unfold u16_long. intros. simp_len. pose proof (len_nonneg x). pose proof (len_nonneg y). lia.
Qed.

(** One extension: its type and its data, both read off the front. *)
Definition ext_type (e : HelloExt) : Z :=
  match e with ServerName _ _ _ => EXT_SERVER_NAME | OtherExt ty _ => ty end.
Definition ext_data (e : HelloExt) : bytes :=
  match e with
  | ServerName list_len names trailing => list_len ++ (names ≫= encode_name) ++ trailing
  | OtherExt _ data => data
  end.

Lemma encode_ext_parts e :
  encode_ext e = to_be_bytes 2 (ext_type e) ++ be16 (length (ext_data e)) ++ ext_data e.
Proof. by destruct e. Qed.

Lemma ext_read_at c e r :
  ext_ok e -> at_rest c (encode_ext e ++ r) ->
  exists c1 n c2 c3, cursor_u16 c = Some (ext_type e, c1) /\ cursor_u16 c1 = Some (n, c2) /\
    cursor_take (Z.to_nat n) c2 = Some (ext_data e, c3) /\ at_rest c3 r.
Proof.
  intros He. rewrite encode_ext_parts, <- !app_assoc. intros H.
  apply cursor_u16_at in H as (c1 & H1 & H).
  - apply cursor_u16_take_at in H as (n & c2 & c3 & H2 & H3 & H); [by exists c1, n, c2, c3|].
    destruct e; apply He.
  - destruct e; [done|apply He].
Qed.

Lemma server_name_outcome list_len names trailing :
  ext_ok (ServerName list_len names trailing) ->
  (let! list := cursor_skip 2 (cursor_new (list_len ++ (names ≫= encode_name) ++ trailing)) in
   Some (names_loop (cursor_remaining list) list)) =
  Some (match first_host names with
        | None => ListEnd
        | Some name => Return (if is_presentable_host_name name then Some name else None)
        end).
Proof.
  intros (Hl & Ht & Hu).
  pose proof (at_rest_new (list_len ++ (names ≫= encode_name) ++ trailing)) as H0.
  apply (cursor_skip_at _ 2) in H0 as (c & -> & Hc); [|done].
  f_equal. eapply names_loop_spec; [exact Hc| |done|done]. by apply u16_long_app_inv in Hu as [_ Hu].
Qed.

Lemma extensions_loop_spec fuel exts c :
  at_rest c (exts ≫= encode_ext) -> Forall ext_ok exts ->
  (cursor_remaining c <= fuel)%nat ->
  extensions_loop fuel c = names_sni (exts ≫= ext_names).
Proof.
  intros Hc Hok. revert fuel c Hc. induction Hok as [|e exts He _ IH]; intros fuel c Hc Hf.
  - apply at_rest_remaining in Hc. simpl in Hc.
    destruct fuel; simpl; rewrite bool_decide_eq_false_2 by lia; done.
  - rewrite bind_cons in Hc. pose proof (at_rest_remaining _ _ Hc) as Hr.
    rewrite length_app, encode_ext_parts, !length_app, length_to_be_bytes, length_be16 in Hr.
    destruct fuel as [|fuel]; [lia|]. cbn [extensions_loop].
    rewrite bool_decide_eq_true_2 by lia.
    apply ext_read_at in Hc as (c1 & n & c2 & c3 & -> & -> & -> & Hc); [|done].
    assert (extensions_loop fuel c3 = names_sni (exts ≫= ext_names)) as Hrec.
    { apply IH; [done|]. apply at_rest_remaining in Hc. lia. }
    rewrite bind_cons. unfold names_sni in *. rewrite first_host_app.
    destruct e as [ll names tr|ty data]; cbn [ext_type ext_data ext_names].
    + rewrite Z.eqb_refl. pose proof (server_name_outcome _ _ _ He) as Ho.
      destruct (cursor_skip _ _) as [cl|]; [|done]. injection Ho as ->.
      by destruct (first_host names).
    + destruct He as (_ & Hne & _). by rewrite (proj2 (Z.eqb_neq _ _) Hne).
Qed.

Lemma body_long h :
  u16_long (encode_hello_body h) ->
  u16_long (h_cipher_suites h) /\ u16_long (h_extensions h ≫= encode_ext).
Proof.
  unfold u16_long, encode_hello_body. repeat (rewrite len_cons || rewrite len_app).
  repeat match goal with |- context [len ?l] =>
    lazymatch goal with H : 0 <= len l |- _ => fail | _ => pose proof (len_nonneg l) end end.
  lia.
Qed.

Lemma extract_sni_record_spec h c pre :
  hello_ok h -> length pre = 5%nat -> at_rest c (pre ++ encode_hello_body h) ->
  extract_sni_record c = hello_sni h.
Proof.
  intros [] Hp H. apply body_long in ok_body0 as [Hcs Hext].
  unfold extract_sni_record, encode_hello_body in *.
  apply (cursor_skip_at _ 5) in H as (c0 & -> & H); [|done].
  apply cursor_u8_at in H as (c1 & -> & H). cbn [negb Z.eqb HANDSHAKE_CLIENT_HELLO].
  apply (cursor_skip_at _ 3) in H as (c2 & -> & H); [|done].
  apply (cursor_skip_at _ 2) in H as (c3 & -> & H); [|done].
  apply (cursor_skip_at _ 32) in H as (c4 & -> & H); [|done].
  apply cursor_u8_at in H as (c5 & -> & H).
  apply (cursor_skip_at _ (length (h_session_id h))) in H as (c6 & H6 & H); [|done].
  rewrite Nat2Z.id, H6.
  apply cursor_u16_take_at in H as (n & c7 & c8 & -> & H8 & H); [|done].
  unfold cursor_skip at 1. rewrite H8.
  apply cursor_u8_at in H as (c9 & -> & H).
  apply (cursor_skip_at _ (length (h_compression h))) in H as (c10 & H10 & H); [|done].
  rewrite Nat2Z.id, H10.
  apply cursor_u16_take_at in H as (m & c11 & c12 & -> & -> & H); [|done].
  apply extensions_loop_spec; [apply at_rest_new|done|done].
Qed.

(** What the function reads before it looks inside the record. *)
Lemma extract_sni_header v0 v1 n rest :
  is_u16 n ->
  extract_sni (TLS_HANDSHAKE :: v0 :: v1 :: to_be_bytes 2 n ++ rest) =
  if bool_decide (len rest < n) then None
  else extract_sni_record
         (cursor_new (TLS_HANDSHAKE :: v0 :: v1 :: to_be_bytes 2 n ++ take (Z.to_nat n) rest)).
Proof.
  intros Hn. unfold extract_sni.
  pose proof (at_rest_new (TLS_HANDSHAKE :: [v0; v1] ++ to_be_bytes 2 n ++ rest)) as H.
  cbn [app] in H.
  apply cursor_u8_at in H as (c1 & -> & H). cbn [negb Z.eqb TLS_HANDSHAKE].
  apply (cursor_skip_at _ 2 [v0; v1]) in H as (c2 & -> & H); [|done].
  apply cursor_u16_at in H as (c3 & -> & H); [|done].
  rewrite !length_cons, length_app, length_to_be_bytes. unfold is_uint, len in *.
  case_bool_decide; case_bool_decide; try lia; [done|].
  replace (5 + Z.to_nat n)%nat with (S (S (S (2 + Z.to_nat n)))) by lia. cbn [take].
  rewrite take_app, length_to_be_bytes. rewrite take_ge by (rewrite length_to_be_bytes; lia).
  by replace (2 + Z.to_nat n - 2)%nat with (Z.to_nat n) by lia.
Qed.

(** The reader on a written hello. *)
Lemma extract_sni_hello h junk :
  hello_ok h -> extract_sni (encode_hello h ++ junk) = hello_sni h.
Proof.
  intros Hh. destruct (h_record_version h) as [|v0 [|v1 [|? ?]]] eqn:Ev;
    try (destruct Hh; rewrite Ev in *; done).
  unfold encode_hello. rewrite Ev. unfold be16.
  assert (u16_long (encode_hello_body h)) as Hb by apply Hh. unfold u16_long in Hb.
  cbn [app]. rewrite <- app_assoc, extract_sni_header by (unfold is_uint, len in *; lia).
  rewrite bool_decide_eq_false_2 by (simp_len; pose proof (len_nonneg junk); unfold len in *; lia).
  rewrite Nat2Z.id, take_app_len.
  eapply (extract_sni_record_spec h _
    (TLS_HANDSHAKE :: v0 :: v1 :: to_be_bytes 2 (Z.of_nat (length (encode_hello_body h)))));
    [done|by rewrite !length_cons, length_to_be_bytes|].
  cbn [app]. apply at_rest_new.
Qed.

(** C14: the parser reads the name RFC 6066 puts there.  On the encoding of any
    well-formed [ClientHello], whatever other extensions and name types it
    carries, in whatever order, and whatever bytes follow the record,
    [extract_sni] answers the first [host_name] entry when it can be presented
    and [None] otherwise. *)
Theorem extract_sni_spec h junk :
  hello_ok h -> extract_sni (encode_hello h ++ junk) = hello_sni h.
Proof. apply extract_sni_hello. Qed.

(** The answer depends on the record alone.  Once the record is complete,
    the bytes behind it, which the two ends of the tunnel do not share, never
    change the answer; and a name that was found stays found. *)
Theorem extract_sni_record_only data v0 v1 b3 b4 rest junk :
  data = TLS_HANDSHAKE :: v0 :: v1 :: b3 :: b4 :: rest ->
  bytes_ok data -> from_be_bytes [b3; b4] <= len rest ->
  extract_sni (data ++ junk) =
  extract_sni (TLS_HANDSHAKE :: v0 :: v1 :: b3 :: b4 ::
               take (Z.to_nat (from_be_bytes [b3; b4])) rest).
Proof.
  intros -> Hok Hn.
  assert (bytes_ok [b3; b4]) as Hb.
  { rewrite !Forall_cons in *. rewrite Forall_nil. tauto. }
  pose proof (to_from_be_bytes _ Hb) as Hbe. pose proof (from_be_bytes_range _ Hb) as Hr.
  change (8 * len [b3; b4]) with 16 in Hr. simpl length in Hbe.
  set (n := from_be_bytes [b3; b4]) in *.
  assert (forall r, extract_sni (TLS_HANDSHAKE :: v0 :: v1 :: b3 :: b4 :: r) =
    if bool_decide (len r < n) then None
    else extract_sni_record
      (cursor_new (TLS_HANDSHAKE :: v0 :: v1 :: b3 :: b4 :: take (Z.to_nat n) r))) as Hgen.
  { intros r. pose proof (extract_sni_header v0 v1 n r Hr) as H. by rewrite Hbe in H. }
  cbn [app]. rewrite !Hgen. unfold is_uint, len in *. rewrite length_app, length_take.
  do 2 rewrite bool_decide_eq_false_2 by lia.
  rewrite take_app_le, take_take by lia. by rewrite Nat.min_id.
Qed.

Lemma names_loop_presentable fuel c name :
  names_loop fuel c = Return (Some name) -> is_presentable_host_name name = true.
Proof.
  revert c. induction fuel as [|fuel IH]; intros c; simpl; case_bool_decide; try done.
  destruct (cursor_u8 c) as [[b c1]|]; [|done].
  destruct (cursor_u16 c1) as [[n c2]|]; [|done].
  destruct (cursor_take _ c2) as [[x c3]|]; [|done].
  destruct (negb _); [apply IH|]. rewrite host_entry_outcome.
  destruct (is_presentable_host_name x) eqn:E; [|done]. by intros [= <-].
Qed.

Lemma extensions_loop_presentable fuel c name :
  extensions_loop fuel c = Some name -> is_presentable_host_name name = true.
Proof.
  revert c. induction fuel as [|fuel IH]; intros c; simpl; case_bool_decide; try done.
  destruct (cursor_u16 c) as [[b c1]|]; [|done].
  destruct (cursor_u16 c1) as [[n c2]|]; [|done].
  destruct (cursor_take _ c2) as [[x c3]|]; [|done].
  destruct (_ =? _); [|apply IH]. destruct (cursor_skip _ _); [|done].
  destruct (names_loop _ _) as [r|] eqn:E; [|apply IH]. intros ->.
  by eapply names_loop_presentable.
Qed.

(** No input makes the parser name a host that cannot be logged: the name
    it answers is 1 to 253 bytes of printable ASCII, so it carries no control
    character, no space and no line break. *)
Lemma extract_sni_presentable data name :
  extract_sni data = Some name ->
  0 < len name <= MAX_HOST_NAME_LEN /\ Forall (fun b => 33 <= b <= 126) name.
Proof.
  unfold extract_sni, extract_sni_record. intros H.
  repeat (case_match; try discriminate H).
  apply extensions_loop_presentable in H. unfold is_presentable_host_name in H.
  apply andb_true_iff in H as [H Hg]. apply andb_true_iff in H as [Hne Hl].
  apply Z.leb_le in Hl. split.
  - destruct name as [|b name]; [done|]. rewrite len_cons in *.
    pose proof (len_nonneg name). lia.
  - apply forallb_Forall in Hg. eapply Forall_impl; [exact Hg|].
    unfold is_ascii_graphic. intros b Hb. bools. lia.
Qed.

(** A hello with a foreign extension and a foreign name type in front of the
    host name. *)
Definition sample_hello : Hello := {|
  h_record_version := [3; 1];
  h_handshake_len := [0; 0; 80];
  h_client_version := [3; 3];
  h_random := replicate 32 7;
  h_session_id := [1; 2; 3];
  h_cipher_suites := [19; 1];
  h_compression := [0];
  h_extensions :=
    [OtherExt 10 [0; 2; 0; 29];
     ServerName [0; 20] [(1, [9; 9]); (NAME_TYPE_HOST, lit "api.example.com")] []];
  h_trailing := [];
|}.

Lemma sample_hello_ok : hello_ok sample_hello.
Proof.
  constructor; try reflexivity; try (simpl; lia).
  cbn [h_extensions sample_hello]. rewrite !Forall_cons, Forall_nil. repeat split; done || (simpl; lia).
Qed.

Lemma extract_sni_spec_witness :
  extract_sni (encode_hello sample_hello ++ [1; 2; 3]) = Some (lit "api.example.com").
Proof.
  rewrite (extract_sni_spec sample_hello [1; 2; 3] sample_hello_ok).
  vm_compute. reflexivity.
Defined.


