(* ===== verification/Alpn.v ===== *)
(** * Choosing the protocol at the handshake
    (nexapipe-proto/src/alpn.rs and nexapipe-proto/src/protocol.rs).

    The negotiation itself belongs to the QUIC/TLS library: it is a parameter,
    with the one rule the sources rely on ("the first of the accept side's
    entries that the peer also offers") as its hypothesis. *)

From S2P Require Import Prelude RustStd.

Definition ALPN_NEXAPIPE : bytes := lit "nexapipe".
Definition ALPN_NEXAPIPE_LEGACY : bytes := 5 :: lit "nexapipe".
Definition ALPN_NEXAPIPE_ALL : list bytes := [ALPN_NEXAPIPE; ALPN_NEXAPIPE_LEGACY].

Definition ALPN_HTTP : bytes := lit "nexapipe/http".
Definition ALPN_L4 : bytes := lit "nexapipe/l4".
Definition ALPN_TLS : bytes := lit "nexapipe/tls".

Inductive Protocol := Http | L4 | Tls | Legacy.

#[global] Instance Protocol_eq_dec : EqDecision Protocol.
Proof. solve_decision. Defined.

Definition alpn (p : Protocol) : bytes :=
  match p with
  | Http => ALPN_HTTP
  | L4 => ALPN_L4
  | Tls => ALPN_TLS
  | Legacy => ALPN_NEXAPIPE
  end.

Definition from_alpn (a : bytes) : option Protocol :=
  if bool_decide (a = ALPN_HTTP) then Some Http
  else if bool_decide (a = ALPN_L4) then Some L4
  else if bool_decide (a = ALPN_TLS) then Some Tls
  else if bool_decide (a = ALPN_NEXAPIPE) then Some Legacy
  else if bool_decide (a = ALPN_NEXAPIPE_LEGACY) then Some Legacy
  else None.

Definition protocol_name (p : Protocol) : bytes :=
  match p with
  | Http => lit "http"
  | L4 => lit "l4"
  | Tls => lit "tls"
  | Legacy => lit "legacy"
  end.

Definition accepted_alpns : list bytes :=
  (alpn <$> [Http; L4; Tls]) ++ ALPN_NEXAPIPE_ALL.

Definition offered_alpns (protocol : Protocol) : list bytes :=
  alpn protocol :: filter (fun a => a <> alpn protocol) ALPN_NEXAPIPE_ALL.

(** The names are distinct: decoding a name and naming a protocol are
    inverse, up to the legacy spelling of the generic name. *)
Lemma from_alpn_iff a p :
  from_alpn a = Some p <-> a = alpn p \/ (p = Legacy /\ a = ALPN_NEXAPIPE_LEGACY).
Proof.
  split.
  - unfold from_alpn. repeat case_bool_decide; intros [= <-]; auto.
  - intros [->|[-> ->]]; [destruct p|]; vm_compute; reflexivity.
Qed.

Lemma accepted_alpns_known a :
  a ∈ accepted_alpns <-> is_some (from_alpn a) = true.
Proof.
  split.
  - unfold accepted_alpns, ALPN_NEXAPIPE_ALL. simpl. rewrite !elem_of_cons.
    intros [->|[->|[->|[->|[->|H]]]]]; [vm_compute; reflexivity..|]. by apply elem_of_nil in H.
  - destruct (from_alpn a) as [p|] eqn:E; [|done]. intros _.
    apply from_alpn_iff in E as [->|[_ ->]]; [destruct p|];
      unfold accepted_alpns, ALPN_NEXAPIPE_ALL; simpl; rewrite !elem_of_cons; auto 7.
Qed.

Section Negotiation.
  (** The handshake of the QUIC library: the accept list, the offer list, and
      the protocol agreed on, if any. *)
  Variable negotiate : list bytes -> list bytes -> option bytes.
  Hypothesis negotiate_first_accepted : forall accepted offered,
    negotiate accepted offered = List.find (fun a => bool_decide (a ∈ offered)) accepted.

(** A client gets the protocol it asks for.  Whatever protocol a client
    names, the negotiation against the server's list agrees on a name that
    both sides decode as that protocol, and the generic names in the offer
    never win over it; against a server of the older vintage, which accepts
    the legacy spelling alone, the same offer is served as [Legacy]; and no
    offer ever agrees on a name the server cannot decode. *)
Theorem negotiation_picks_requested p :
  (exists a, negotiate accepted_alpns (offered_alpns p) = Some a /\ from_alpn a = Some p) /\
  (exists a, negotiate [ALPN_NEXAPIPE_LEGACY] (offered_alpns p) = Some a /\
             from_alpn a = Some Legacy) /\
  (forall offered a, negotiate accepted_alpns offered = Some a ->
     a ∈ offered /\ is_some (from_alpn a) = true).
Proof using negotiate_first_accepted.
  split; [|split].
  - exists (alpn p). rewrite negotiate_first_accepted. destruct p; vm_compute; done.
  - exists ALPN_NEXAPIPE_LEGACY. rewrite negotiate_first_accepted. destruct p; vm_compute; done.
  - intros offered a. rewrite negotiate_first_accepted. intros [Hin Ho]%find_some.
    apply bool_decide_eq_true in Ho. split; [done|]. apply accepted_alpns_known.
    by apply list_elem_of_In.
Qed.

End Negotiation.

