(* ===== verification/Wiping.v ===== *)
(** * The buffer that wipes the block it leaves behind
    (nexapipe-proto/src/auth/mod.rs, [WipingBuffer]).

    A credential is serialized into this buffer.  The model keeps the [Vec] it
    wraps as its bytes and its capacity, and records every block that is handed
    back to the allocator, with what was in it: a [Vec] that has to grow on its
    own hands its old block back as it stands, one that was zeroized hands back
    zeros.  The invariant says that nothing but zeros is ever handed back. *)

From S2P Require Import Prelude RustStd.

(** A [Vec<u8>] and the blocks the allocator got back so far. *)
Record Vec := { v_bytes : bytes; v_cap : Z; v_freed : list bytes }.

Definition vec_with_capacity (capacity : Z) (freed : list bytes) : Vec :=
  {| v_bytes := []; v_cap := capacity; v_freed := freed |}.

(** [Vec::push] and [Vec::extend_from_slice]: in place where the capacity is
    there; otherwise the contents move to a bigger block and the old block goes
    back to the allocator with the contents still in it (amortized growth). *)
Definition vec_extend (other : bytes) (v : Vec) : Vec :=
  let wanted := len (v_bytes v) + len other in
  if wanted <=? v_cap v then
    {| v_bytes := v_bytes v ++ other; v_cap := v_cap v; v_freed := v_freed v |}
  else
    {| v_bytes := v_bytes v ++ other; v_cap := Z.max (2 * v_cap v) wanted;
       v_freed := v_bytes v :: v_freed v |}.

(** [Zeroize for Vec<u8>]: the whole capacity is overwritten and the length
    becomes zero; dropping the [Vec] afterwards hands back zeros. *)
Definition vec_zeroized_block (v : Vec) : bytes := replicate (Z.to_nat (v_cap v)) 0.

(** The smallest power of two that is at least [n]. *)
Definition next_power_of_two (n : Z) : Z := 2 ^ Z.log2_up n.

(** ** [WipingBuffer] *)

Definition SERIALIZED_CAPACITY : Z := 4096.

Definition wb_with_capacity (capacity : Z) : Vec := vec_with_capacity capacity [].

Definition wb_reserve_for (extra : Z) (b : Vec) : Vec :=
  if extra <=? v_cap b - len (v_bytes b) then b
  else
    let wanted := len (v_bytes b) + extra in
    let fresh := vec_with_capacity (next_power_of_two wanted) (v_freed b) in
    let fresh := vec_extend (v_bytes b) fresh in
    {| v_bytes := v_bytes fresh; v_cap := v_cap fresh;
       v_freed := vec_zeroized_block b :: v_freed fresh |}.

Definition wb_push (byte : Z) (b : Vec) : Vec := vec_extend [byte] (wb_reserve_for 1 b).

Definition wb_extend_from_slice (other : bytes) (b : Vec) : Vec :=
  vec_extend other (wb_reserve_for (len other) b).

(** [into_wiped]: the bytes move into a [Zeroizing] buffer, and the empty [Vec]
    that takes their place owns no block. *)
Definition wb_into_wiped (b : Vec) : bytes * list bytes := (v_bytes b, v_freed b).

(** [Drop]: the block goes back zeroized. *)
Definition wb_drop (b : Vec) : list bytes := vec_zeroized_block b :: v_freed b.

(** ** The invariant *)

Definition wiped (block : bytes) : Prop := Forall (fun b => b = 0) block.

Record wb_inv (b : Vec) : Prop := {
  inv_fits : len (v_bytes b) <= v_cap b;
  inv_freed : Forall wiped (v_freed b);
}.

Lemma wiped_zeroized b : wiped (vec_zeroized_block b).
Proof. apply Forall_replicate. done. Qed.

Lemma next_power_of_two_ge n : n <= next_power_of_two n.
Proof.
  unfold next_power_of_two. destruct (decide (1 < n)) as [H|H].
  - apply Z.log2_up_spec. done.
  - rewrite Z.log2_up_eqn0 by lia. lia.
Qed.

Lemma wb_with_capacity_inv n : 0 <= n -> wb_inv (wb_with_capacity n).
Proof. split; [done|constructor]. Qed.

Lemma vec_extend_fits other v :
  len (v_bytes v) + len other <= v_cap v ->
  vec_extend other v =
    {| v_bytes := v_bytes v ++ other; v_cap := v_cap v; v_freed := v_freed v |}.
Proof. intros H. unfold vec_extend. by rewrite (proj2 (Z.leb_le _ _)). Qed.

Lemma wb_reserve_for_spec extra b :
  0 <= extra -> wb_inv b ->
  let b' := wb_reserve_for extra b in
  wb_inv b' /\ v_bytes b' = v_bytes b /\ len (v_bytes b) + extra <= v_cap b'.
Proof.
  intros He [Hf Hw]. unfold wb_reserve_for. destruct (_ <=? _) eqn:E; bools.
  - repeat split; auto; lia.
  - pose proof (next_power_of_two_ge (len (v_bytes b) + extra)).
    rewrite vec_extend_fits by (simpl; rewrite len_nil; lia). simpl.
    repeat split; simpl; try lia. constructor; auto using wiped_zeroized.
Qed.

Lemma wb_extend_spec other b :
  wb_inv b ->
  wb_inv (wb_extend_from_slice other b) /\
  v_bytes (wb_extend_from_slice other b) = v_bytes b ++ other.
Proof.
  intros Hb. unfold wb_extend_from_slice.
  destruct (wb_reserve_for_spec (len other) b) as ([Hf Hw] & Hbytes & Hcap);
    [apply len_nonneg|done|].
  rewrite vec_extend_fits by (rewrite Hbytes; lia). simpl. rewrite Hbytes.
  split; [|done]. split; simpl; [rewrite len_app; lia|done].
Qed.

Lemma wb_push_spec byte b :
  wb_inv b -> wb_inv (wb_push byte b) /\ v_bytes (wb_push byte b) = v_bytes b ++ [byte].
Proof. apply (wb_extend_spec [byte]). Qed.

Lemma wb_drop_wiped b : wb_inv b -> Forall wiped (wb_drop b).
Proof. intros [_ H]. constructor; auto using wiped_zeroized. Qed.

#[export] Hint Resolve wb_drop_wiped inv_freed : rs.
