(* ===== verification/AuthCodec.v ===== *)
(** * The handshake messages and their two wire forms
    (nexapipe-proto/src/auth/{mod,codec,message,challenge}.rs).

    [Writer] and [Reader] are the source's, over the wiping buffer; the JSON
    form is serde's, a parameter of [to_payload] and [from_payload].  Error
    strings are represented by their reason and the numbers they print. *)

From S2P Require Import Prelude RustStd Wiping.

(** ** Algorithms and formats (auth/mod.rs) *)

Inductive Algorithm := Sha1 | Sha256 | Sha512.

#[global] Instance Algorithm_eq_dec : EqDecision Algorithm.
Proof. solve_decision. Defined.

Definition algorithm_name (a : Algorithm) : bytes :=
  match a with Sha1 => lit "sha1" | Sha256 => lit "sha256" | Sha512 => lit "sha512" end.

Definition algorithm_from_name (name : bytes) : option Algorithm :=
  if eq_ignore_ascii_case name (lit "sha1") then Some Sha1
  else if eq_ignore_ascii_case name (lit "sha256") then Some Sha256
  else if eq_ignore_ascii_case name (lit "sha512") then Some Sha512
  else None.

Definition algorithm_to_byte (a : Algorithm) : Z :=
  match a with Sha1 => 1 | Sha256 => 2 | Sha512 => 3 end.

Definition algorithm_from_byte (byte : Z) : option Algorithm :=
  if byte =? 1 then Some Sha1
  else if byte =? 2 then Some Sha256
  else if byte =? 3 then Some Sha512
  else None.

Definition VERSION_JSON : Z := 0.
Definition VERSION_BINARY : Z := 1.

Inductive Format := LegacyJson | Json | Binary.

Definition version_byte (f : Format) : option Z :=
  match f with
  | LegacyJson => None
  | Json => Some VERSION_JSON
  | Binary => Some VERSION_BINARY
  end.

Definition from_version (version : Z) : option Format :=
  if version =? VERSION_JSON then Some Json
  else if version =? VERSION_BINARY then Some Binary
  else None.

Inductive BinaryError :=
| BE_string_too_long (n : Z)
| BE_bytes_too_long (n : Z)
| BE_overclaims
| BE_truncated (have want : Z)
| BE_not_utf8
| BE_flags (kind flags : Z)
| BE_algorithm
| BE_unknown_kind (kind : Z)
| BE_empty.

Inductive CodecError (JsonError : Type) :=
| CodecJson (e : JsonError)
| CodecBinary (e : BinaryError).
Arguments CodecJson {JsonError} e.
Arguments CodecBinary {JsonError} e.

Definition MAX_CLIENT_ID_LEN : Z := 255.
Definition MAX_DEVICE_ID_LEN : Z := 255.

Definition is_presentable_id (id : bytes) (max_len : Z) : bool :=
  negb (bool_decide (id = [])) && (len id <=? max_len) && forallb is_ascii_graphic id.
Definition is_presentable_client_id (id : bytes) : bool :=
  is_presentable_id id MAX_CLIENT_ID_LEN.
Definition is_presentable_device_id (id : bytes) : bool :=
  is_presentable_id id MAX_DEVICE_ID_LEN.

(** ** Message kinds and flags (codec.rs) *)

Definition KIND_START : Z := 1.
Definition KIND_CHALLENGE : Z := 2.
Definition KIND_RESPONSE : Z := 3.
Definition KIND_OK : Z := 4.
Definition KIND_FAILED : Z := 5.
Definition KIND_ENROLL_START : Z := 6.
Definition KIND_ENROLL_ISSUE : Z := 7.
Definition KIND_ENROLL_FAILED : Z := 8.

Definition FLAG_DEVICE_ID : Z := 1.
Definition FLAG_PUBLIC_KEY : Z := 2.
Definition FLAG_VERSION : Z := 4.

Definition allowed_flags (kind : Z) : Z :=
  if kind =? KIND_START then Z.lor FLAG_DEVICE_ID FLAG_VERSION
  else if kind =? KIND_RESPONSE then FLAG_DEVICE_ID
  else if kind =? KIND_ENROLL_START then Z.lor FLAG_DEVICE_ID FLAG_PUBLIC_KEY
  else if kind =? KIND_ENROLL_ISSUE then FLAG_DEVICE_ID
  else 0.

(** ** [Writer]: the state survives an error, because its buffer is dropped *)

Abbreviation Writer := Vec.
Abbreviation wresult := (Writer * result unit BinaryError)%type.

Notation "'do?' w ':=' c 'in' k" :=
  (match c with (w, Ok tt) => k | (w, Err err) => (w, Err err) end)
  (at level 10, w name, c at level 100, k at level 200) : rs_scope.

Definition writer_default : Writer := wb_with_capacity SERIALIZED_CAPACITY.
Definition writer_u8 (value : Z) (w : Writer) : Writer := wb_push value w.
Definition writer_u16 (value : Z) (w : Writer) : Writer :=
  wb_extend_from_slice (to_le_bytes 2 value) w.
Definition writer_u32 (value : Z) (w : Writer) : Writer :=
  wb_extend_from_slice (to_le_bytes 4 value) w.
Definition writer_u64 (value : Z) (w : Writer) : Writer :=
  wb_extend_from_slice (to_le_bytes 8 value) w.
Definition writer_i64 (value : Z) (w : Writer) : Writer :=
  wb_extend_from_slice (to_le_bytes 8 (i64_as_u64 value)) w.

Definition writer_string (value : bytes) (w : Writer) : wresult :=
  if umax 16 <? len value then (w, Err (BE_string_too_long (len value)))
  else (wb_extend_from_slice value (writer_u16 (len value) w), Ok tt).

Definition writer_bytes (value : bytes) (w : Writer) : wresult :=
  if umax 32 <? len value then (w, Err (BE_bytes_too_long (len value)))
  else (wb_extend_from_slice value (writer_u32 (len value) w), Ok tt).

Definition writer_opt_string (value : option bytes) (w : Writer) : wresult :=
  match value with Some value => writer_string value w | None => (w, Ok tt) end.

(** ** [Reader] *)

Record Reader := { r_bytes : bytes; r_at : nat }.

Definition reader_new (bs : bytes) : Reader := {| r_bytes := bs; r_at := 0 |}.

Definition reader_take (n : Z) (r : Reader) : result (bytes * Reader) BinaryError :=
  let end_ := Z.of_nat (r_at r) + n in
  if umax 64 <? end_ then Err BE_overclaims
  else if len (r_bytes r) <? end_ then
    Err (BE_truncated (len (r_bytes r) - Z.of_nat (r_at r)) n)
  else Ok (take (Z.to_nat n) (drop (r_at r) (r_bytes r)),
           {| r_bytes := r_bytes r; r_at := Z.to_nat end_ |}).

Definition reader_uint (n : Z) (r : Reader) : result (Z * Reader) BinaryError :=
  let? '(bs, r) := reader_take n r in Ok (from_le_bytes bs, r).

(** [self.take(1)?[0]]; the slice has one byte. *)
Definition reader_u8 : Reader -> result (Z * Reader) BinaryError := reader_uint 1.
Definition reader_u16 : Reader -> result (Z * Reader) BinaryError := reader_uint 2.
Definition reader_u32 : Reader -> result (Z * Reader) BinaryError := reader_uint 4.
Definition reader_u64 : Reader -> result (Z * Reader) BinaryError := reader_uint 8.
Definition reader_i64 (r : Reader) : result (Z * Reader) BinaryError :=
  let? '(z, r) := reader_u64 r in Ok (u64_as_i64 z, r).

Definition reader_string (r : Reader) : result (bytes * Reader) BinaryError :=
  let? '(n, r) := reader_u16 r in
  let? '(bs, r) := reader_take n r in
  match from_utf8 bs with
  | Some s => Ok (s, r)
  | None => Err BE_not_utf8
  end.

Definition reader_bytes (r : Reader) : result (bytes * Reader) BinaryError :=
  let? '(n, r) := reader_u32 r in
  reader_take n r.

(** [if flags & flag != 0 { Some(read()?) } else { None }]. *)
Definition reader_optional {A} (flags flag : Z)
    (read : Reader -> result (A * Reader) BinaryError) (r : Reader)
    : result (option A * Reader) BinaryError :=
  if negb (Z.land flags flag =? 0)
  then let? '(a, r) := read r in Ok (Some a, r)
  else Ok (None, r).

(** ** The messages (message.rs) *)

Inductive AuthMessage :=
| Start (client_id : bytes) (timestamp : Z) (device_id : option bytes) (version : option Z)
| Challenge (nonce : bytes)
| Response (client_id : bytes) (timestamp : Z) (totp_code signature : bytes)
    (device_id : option bytes)
| AuthOk
| Failed (reason : bytes)
| EnrollStart (client_id token : bytes) (device_id public_key : option bytes)
| EnrollIssue (client_id secret : bytes) (algorithm : Algorithm) (digits period : Z)
    (device_id : option bytes)
| EnrollFailed (reason : bytes).

Definition announced_version (m : AuthMessage) : option Z :=
  match m with Start _ _ _ version => version | _ => None end.

Definition set_flag (present : bool) (flag flags : Z) : Z :=
  if present then Z.lor flags flag else flags.

Definition write_binary (m : AuthMessage) (w : Writer) : wresult :=
  match m with
  | Start client_id timestamp device_id version =>
      let flags := set_flag (is_some device_id) FLAG_DEVICE_ID 0 in
      let flags := set_flag (is_some version) FLAG_VERSION flags in
      let w := writer_u8 flags (writer_u8 KIND_START w) in
      do? w := writer_string client_id w in
      let w := writer_i64 timestamp w in
      do? w := writer_opt_string device_id w in
      (match version with Some version => writer_u8 version w | None => w end, Ok tt)
  | Challenge nonce =>
      let w := writer_u8 0 (writer_u8 KIND_CHALLENGE w) in
      writer_bytes nonce w
  | Response client_id timestamp totp_code signature device_id =>
      let flags := set_flag (is_some device_id) FLAG_DEVICE_ID 0 in
      let w := writer_u8 flags (writer_u8 KIND_RESPONSE w) in
      do? w := writer_string client_id w in
      let w := writer_i64 timestamp w in
      do? w := writer_string totp_code w in
      do? w := writer_bytes signature w in
      writer_opt_string device_id w
  | AuthOk => (writer_u8 0 (writer_u8 KIND_OK w), Ok tt)
  | Failed reason =>
      let w := writer_u8 0 (writer_u8 KIND_FAILED w) in
      writer_string reason w
  | EnrollStart client_id token device_id public_key =>
      let flags := set_flag (is_some device_id) FLAG_DEVICE_ID 0 in
      let flags := set_flag (is_some public_key) FLAG_PUBLIC_KEY flags in
      let w := writer_u8 flags (writer_u8 KIND_ENROLL_START w) in
      do? w := writer_string client_id w in
      do? w := writer_string token w in
      do? w := writer_opt_string device_id w in
      writer_opt_string public_key w
  | EnrollIssue client_id secret algorithm digits period device_id =>
      let flags := set_flag (is_some device_id) FLAG_DEVICE_ID 0 in
      let w := writer_u8 flags (writer_u8 KIND_ENROLL_ISSUE w) in
      do? w := writer_string client_id w in
      do? w := writer_string secret w in
      let w := writer_u8 (algorithm_to_byte algorithm) w in
      let w := writer_u32 digits w in
      let w := writer_u64 period w in
      writer_opt_string device_id w
  | EnrollFailed reason =>
      let w := writer_u8 0 (writer_u8 KIND_ENROLL_FAILED w) in
      writer_string reason w
  end.

(** The body of a message of each kind, once kind and flags are read. *)
Definition read_body (kind flags : Z) (r : Reader) : result AuthMessage BinaryError :=
  if kind =? KIND_START then
    let? '(client_id, r) := reader_string r in
    let? '(timestamp, r) := reader_i64 r in
    let? '(device_id, r) := reader_optional flags FLAG_DEVICE_ID reader_string r in
    let? '(version, r) := reader_optional flags FLAG_VERSION reader_u8 r in
    Ok (Start client_id timestamp device_id version)
  else if kind =? KIND_CHALLENGE then
    let? '(nonce, r) := reader_bytes r in
    Ok (Challenge nonce)
  else if kind =? KIND_RESPONSE then
    let? '(client_id, r) := reader_string r in
    let? '(timestamp, r) := reader_i64 r in
    let? '(totp_code, r) := reader_string r in
    let? '(signature, r) := reader_bytes r in
    let? '(device_id, r) := reader_optional flags FLAG_DEVICE_ID reader_string r in
    Ok (Response client_id timestamp totp_code signature device_id)
  else if kind =? KIND_OK then Ok AuthOk
  else if kind =? KIND_FAILED then
    let? '(reason, r) := reader_string r in
    Ok (Failed reason)
  else if kind =? KIND_ENROLL_START then
    let? '(client_id, r) := reader_string r in
    let? '(token, r) := reader_string r in
    let? '(device_id, r) := reader_optional flags FLAG_DEVICE_ID reader_string r in
    let? '(public_key, r) := reader_optional flags FLAG_PUBLIC_KEY reader_string r in
    Ok (EnrollStart client_id token device_id public_key)
  else if kind =? KIND_ENROLL_ISSUE then
    let? '(client_id, r) := reader_string r in
    let? '(secret, r) := reader_string r in
    let? '(byte, r) := reader_u8 r in
    let? algorithm := ok_or (algorithm_from_byte byte) BE_algorithm in
    let? '(digits, r) := reader_u32 r in
    let? '(period, r) := reader_u64 r in
    let? '(device_id, r) := reader_optional flags FLAG_DEVICE_ID reader_string r in
    Ok (EnrollIssue client_id secret algorithm digits period device_id)
  else if kind =? KIND_ENROLL_FAILED then
    let? '(reason, r) := reader_string r in
    Ok (EnrollFailed reason)
  else Err (BE_unknown_kind kind).

Definition from_binary (payload : bytes) : result AuthMessage BinaryError :=
  let r := reader_new payload in
  let? '(kind, r) := reader_u8 r in
  let? '(flags, r) := reader_u8 r in
  if negb (Z.land flags (Z.land (Z.lnot (allowed_flags kind)) 255) =? 0)
  then Err (BE_flags kind flags)
  else read_body kind flags r.

Section Payload.
(** serde_json's encoder into a writer, and its decoder. *)
Context {JsonError : Type}.
Variable json_to_writer : AuthMessage -> result bytes JsonError.
Variable json_from_slice : bytes -> result AuthMessage JsonError.

Definition map_json {A} (r : result A JsonError) : result A (CodecError JsonError) :=
  match r with Ok a => Ok a | Err e => Err (CodecJson e) end.
Definition map_binary {A} (r : result A BinaryError) : result A (CodecError JsonError) :=
  match r with Ok a => Ok a | Err e => Err (CodecBinary e) end.

Definition to_bytes (m : AuthMessage) : result bytes JsonError :=
  let? text := json_to_writer m in
  Ok (wb_into_wiped (wb_extend_from_slice text (wb_with_capacity SERIALIZED_CAPACITY))).1.

Definition to_payload (m : AuthMessage) (format : Format)
    : result bytes (CodecError JsonError) :=
  match format with
  | LegacyJson => map_json (to_bytes m)
  | Json =>
      let payload := wb_push VERSION_JSON (wb_with_capacity SERIALIZED_CAPACITY) in
      let? text := map_json (json_to_writer m) in
      Ok (wb_into_wiped (wb_extend_from_slice text payload)).1
  | Binary =>
      let writer := writer_u8 VERSION_BINARY writer_default in
      match write_binary m writer with
      | (writer, Ok _) => Ok (wb_into_wiped writer).1
      | (writer, Err e) => Err (CodecBinary e)
      end
  end.

Definition from_payload (payload : bytes)
    : result (AuthMessage * Format) (CodecError JsonError) :=
  match payload with
  | [] => Err (CodecBinary BE_empty)
  | first :: rest =>
      if first =? VERSION_JSON then
        let? m := map_json (json_from_slice rest) in Ok (m, Json)
      else if first =? VERSION_BINARY then
        let? m := map_binary (from_binary rest) in Ok (m, Binary)
      else
        let? m := map_json (json_from_slice payload) in Ok (m, LegacyJson)
  end.
End Payload.

(** The blocks handed back to the allocator while a binary payload is written,
    whether it is returned or its writer is dropped on the error path. *)
Definition to_payload_binary_freed (m : AuthMessage) : list bytes :=
  match write_binary m (writer_u8 VERSION_BINARY writer_default) with
  | (writer, Ok _) => (wb_into_wiped writer).2
  | (writer, Err _) => wb_drop writer
  end.

(** ** The challenge (challenge.rs) *)

Definition challenge_message (nonce : bytes) (timestamp : Z) : bytes :=
  nonce ++ to_le_bytes 8 (i64_as_u64 timestamp).

(** [hmac] is HMAC-SHA256 of the key and the message, with the failure of
    [new_from_slice] on the key. *)
Definition hmac_challenge {E} (hmac : bytes -> bytes -> result bytes E)
    (secret nonce : bytes) (timestamp : Z) : result bytes E :=
  hmac secret (challenge_message nonce timestamp).

(** ** The reference encoding *)

Definition enc_string (s : bytes) : bytes := to_le_bytes 2 (len s) ++ s.
Definition enc_bytes (s : bytes) : bytes := to_le_bytes 4 (len s) ++ s.
Definition enc_i64 (z : Z) : bytes := to_le_bytes 8 (i64_as_u64 z).
Definition enc_opt {A} (enc : A -> bytes) (o : option A) : bytes :=
  match o with Some a => enc a | None => [] end.
Definition opt_flag {A} (o : option A) (flag : Z) : Z := if is_some o then flag else 0.

Definition msg_kind (m : AuthMessage) : Z :=
  match m with
  | Start _ _ _ _ => KIND_START
  | Challenge _ => KIND_CHALLENGE
  | Response _ _ _ _ _ => KIND_RESPONSE
  | AuthOk => KIND_OK
  | Failed _ => KIND_FAILED
  | EnrollStart _ _ _ _ => KIND_ENROLL_START
  | EnrollIssue _ _ _ _ _ _ => KIND_ENROLL_ISSUE
  | EnrollFailed _ => KIND_ENROLL_FAILED
  end.

Definition msg_flags (m : AuthMessage) : Z :=
  match m with
  | Start _ _ device_id version =>
      opt_flag device_id FLAG_DEVICE_ID + opt_flag version FLAG_VERSION
  | Response _ _ _ _ device_id | EnrollIssue _ _ _ _ _ device_id =>
      opt_flag device_id FLAG_DEVICE_ID
  | EnrollStart _ _ device_id public_key =>
      opt_flag device_id FLAG_DEVICE_ID + opt_flag public_key FLAG_PUBLIC_KEY
  | _ => 0
  end.

Definition msg_body (m : AuthMessage) : bytes :=
  match m with
  | Start client_id timestamp device_id version =>
      enc_string client_id ++ enc_i64 timestamp ++ enc_opt enc_string device_id
      ++ enc_opt (fun v => [v]) version
  | Challenge nonce => enc_bytes nonce
  | Response client_id timestamp totp_code signature device_id =>
      enc_string client_id ++ enc_i64 timestamp ++ enc_string totp_code
      ++ enc_bytes signature ++ enc_opt enc_string device_id
  | AuthOk => []
  | Failed reason | EnrollFailed reason => enc_string reason
  | EnrollStart client_id token device_id public_key =>
      enc_string client_id ++ enc_string token ++ enc_opt enc_string device_id
      ++ enc_opt enc_string public_key
  | EnrollIssue client_id secret algorithm digits period device_id =>
      enc_string client_id ++ enc_string secret ++ [algorithm_to_byte algorithm]
      ++ to_le_bytes 4 digits ++ to_le_bytes 8 period ++ enc_opt enc_string device_id
  end.

Definition encode_binary (m : AuthMessage) : bytes :=
  msg_kind m :: msg_flags m :: msg_body m.

(** The strings and byte vectors of a message, and the two ranges of its
    values: what the Rust types guarantee, and what fits the wire. *)
Definition msg_strings (m : AuthMessage) : list bytes :=
  match m with
  | Start c _ d _ => c :: option_list d
  | Challenge _ | AuthOk => []
  | Response c _ t _ d => c :: t :: option_list d
  | Failed r | EnrollFailed r => [r]
  | EnrollStart c t d p => c :: t :: option_list d ++ option_list p
  | EnrollIssue c s _ _ _ d => c :: s :: option_list d
  end.

Definition msg_blobs (m : AuthMessage) : list bytes :=
  match m with Challenge n => [n] | Response _ _ _ s _ => [s] | _ => [] end.

Definition msg_typed (m : AuthMessage) : Prop :=
  Forall (fun s => utf8_valid s = true) (msg_strings m) /\
  match m with
  | Start _ t _ v => is_i64 t /\ (forall b, v = Some b -> is_u8 b)
  | Response _ t _ _ _ => is_i64 t
  | EnrollIssue _ _ _ digits period _ => is_u32 digits /\ is_u64 period
  | _ => True
  end.

Definition msg_fits (m : AuthMessage) : Prop :=
  Forall (fun s => len s <= umax 16) (msg_strings m) /\
  Forall (fun s => len s <= umax 32) (msg_blobs m).

(** ** What the writer writes *)

(** The outcome [o] keeps the buffer's invariant; it is [Ok] exactly when [ok]
    holds, and then the buffer holds [s]. *)
Definition wspec (o : wresult) (ok : Prop) (s : bytes) : Prop :=
  wb_inv o.1 /\
  match o.2 with
  | Ok _ => ok /\ v_bytes o.1 = s
  | Err _ => ~ ok
  end.

Lemma wspec_iff o P Q s t : (P <-> Q) -> s = t -> wspec o P s -> wspec o Q t.
Proof.
  intros HPQ -> [Hi H]. split; [done|]. destruct (o.2); [naive_solver|tauto].
Qed.

Lemma wspec_ret w : wb_inv w -> wspec (w, Ok tt) True (v_bytes w).
Proof. intros. by split. Qed.

Lemma wspec_bind o k P Q s t :
  wspec o P s -> (forall w, wb_inv w -> v_bytes w = s -> wspec (k w) Q t) ->
  wspec (do? w := o in k w) (P /\ Q) t.
Proof.
  destruct o as [w1 [[]|e]]; intros [Hi Ho] Hk; simpl in *.
  - destruct Ho as [HP Hb]. destruct (Hk w1 Hi Hb) as [Hi2 H2]. split; [done|].
    destruct ((k w1).2); tauto.
  - split; [done|]. simpl. tauto.
Qed.

Lemma wspec_counted n w s :
  wb_inv w ->
  wspec (wb_extend_from_slice s (wb_extend_from_slice (to_le_bytes n (len s)) w), Ok tt)
    True (v_bytes w ++ to_le_bytes n (len s) ++ s).
Proof.
  intros Hw. destruct (wb_extend_spec (to_le_bytes n (len s)) w Hw) as [Hi Hb].
  destruct (wb_extend_spec s _ Hi) as [Hi2 Hb2]. split; [done|].
  split; [done|]. simpl. by rewrite Hb2, Hb, <- app_assoc.
Qed.

Lemma wspec_string w s :
  wb_inv w -> wspec (writer_string s w) (len s <= umax 16) (v_bytes w ++ enc_string s).
Proof.
  intros Hw. unfold writer_string. destruct (_ <? _) eqn:E; bools.
  - split; [done|]. simpl. lia.
  - eapply wspec_iff; [| |by apply wspec_counted]; [tauto|done].
Qed.

Lemma wspec_bytes w s :
  wb_inv w -> wspec (writer_bytes s w) (len s <= umax 32) (v_bytes w ++ enc_bytes s).
Proof.
  intros Hw. unfold writer_bytes. destruct (_ <? _) eqn:E; bools.
  - split; [done|]. simpl. lia.
  - eapply wspec_iff; [| |by apply wspec_counted]; [tauto|done].
Qed.

Lemma wspec_opt w o :
  wb_inv w -> wspec (writer_opt_string o w)
    (Forall (fun s => len s <= umax 16) (option_list o)) (v_bytes w ++ enc_opt enc_string o).
Proof.
  intros Hw. destruct o as [s|]; simpl.
  - eapply wspec_iff; [|done|by apply wspec_string]. by rewrite Forall_singleton.
  - eapply wspec_iff; [| |by apply wspec_ret]; [|by rewrite app_nil_r].
    split; [constructor|done].
Qed.

(** Runs one step of a writer: a plain write is named, a fallible one is bound. *)
Ltac wpure :=
  match goal with
  | Hw : wb_inv ?w |- context [writer_u8 ?b ?w] =>
      let Hi := fresh "Hi" in let Hb := fresh "Hb" in
      destruct (wb_push_spec b w Hw) as [Hi Hb]; fold (writer_u8 b w) in Hi, Hb;
      generalize dependent (writer_u8 b w); intros
  | Hw : wb_inv ?w |- context [wb_extend_from_slice ?s ?w] =>
      let Hi := fresh "Hi" in let Hb := fresh "Hb" in
      destruct (wb_extend_spec s w Hw) as [Hi Hb];
      generalize dependent (wb_extend_from_slice s w); intros
  end.
Ltac wleaf :=
  first [by apply wspec_string | by apply wspec_bytes | by apply wspec_opt | by apply wspec_ret].
Ltac wbytes :=
  repeat match goal with H : v_bytes ?x = _ |- context [v_bytes ?x] => rewrite H; clear H end;
  rewrite <- ?app_assoc; try reflexivity;
  unfold encode_binary, msg_body; cbn [enc_opt]; by rewrite !app_nil_r.
Ltac wrun :=
  repeat (unfold writer_i64, writer_u32, writer_u64;
    first [ wpure | eapply wspec_bind; [wleaf|intros] ]);
  eapply wspec_iff; [reflexivity| |wleaf].

Lemma write_binary_spec m w :
  wb_inv w -> wspec (write_binary m w) (msg_fits m) (v_bytes w ++ encode_binary m).
Proof.
  intros Hw. unfold msg_fits.
  destruct m as [? ? [?|] [?|]| |? ? ? ? [?|]| | |? ? [?|] [?|]|? ? ? ? ? [?|]|];
    unfold write_binary.
  all: eapply wspec_iff; [|reflexivity|wrun; wbytes].
  all: simpl; rewrite ?Forall_cons, ?Forall_nil; tauto.
Qed.

(** ** What the reader reads *)

(** The reader stands in front of [s]; a slice is at most [isize::MAX] long. *)
Definition at_front (r : Reader) (s : bytes) : Prop :=
  len (r_bytes r) < 2 ^ 63 /\
  exists pre, r_bytes r = pre ++ s /\ r_at r = length pre.

Lemma at_front_new s : len s < 2 ^ 63 -> at_front (reader_new s) s.
Proof. split; [done|]. by exists []. Qed.

Lemma reader_take_at r x s :
  at_front r (x ++ s) -> exists r', reader_take (len x) r = Ok (x, r') /\ at_front r' s.
Proof.
  intros (Hl & pre & Hb & Ha). unfold reader_take. rewrite Ha.
  assert (len (r_bytes r) = len pre + len x + len s) as Hlen by (rewrite Hb, !len_app; lia).
  fold (len pre). pose proof (len_nonneg s). pose proof (len_nonneg pre). pose proof (len_nonneg x).
  rewrite (proj2 (Z.ltb_ge _ _)) by (unfold umax; lia).
  rewrite (proj2 (Z.ltb_ge _ _)) by lia.
  unfold len at 1. rewrite Nat2Z.id, Hb, drop_app_len, take_app_len.
  eexists. split; [done|]. split; [simpl; by rewrite <- Hb|].
  exists (pre ++ x). simpl. rewrite <- app_assoc, length_app. unfold len. split; [done|lia].
Qed.

Lemma reader_take_inv r s n x r' :
  0 <= n -> at_front r s -> reader_take n r = Ok (x, r') ->
  len x = n /\ exists s', s = x ++ s' /\ at_front r' s'.
Proof.
  intros Hn (Hl & pre & Hb & Ha). unfold reader_take. rewrite Ha.
  destruct (_ <? _); [done|]. destruct (_ <? _) eqn:E; [done|]. bools.
  rewrite Hb, drop_app_len, len_app in *. fold (len pre) in *. intros [= <- <-].
  split; [unfold len in *; rewrite length_take; lia|].
  exists (drop (Z.to_nat n) s). rewrite take_drop. split; [done|].
  split; [simpl; rewrite len_app; lia|]. exists (pre ++ take (Z.to_nat n) s). simpl.
  rewrite <- app_assoc, take_drop, length_app, length_take. unfold len in *. split; [done|lia].
Qed.

(** The contract between a reader and the encoding of what it reads: it reads
    back every valid value, and whatever it reads is valid and was encoded
    that way. *)
Class Codec {A} (read : Reader -> result (A * Reader) BinaryError)
    (enc : A -> bytes) (valid : A -> Prop) : Prop := {
  codec_fwd : forall r a s, valid a -> at_front r (enc a ++ s) ->
    exists r', read r = Ok (a, r') /\ at_front r' s;
  codec_inv : forall r s a r', at_front r s -> bytes_ok s -> read r = Ok (a, r') ->
    valid a /\ exists s', s = enc a ++ s' /\ at_front r' s' /\ bytes_ok s';
}.

#[global] Instance uint_codec (n : nat) :
  Codec (reader_uint (Z.of_nat n)) (to_le_bytes n) (is_uint (8 * Z.of_nat n)).
Proof.
  split.
  - intros r a s Ha H. apply reader_take_at in H as (r' & H & Hr). unfold reader_uint.
    unfold len in H. rewrite length_to_le_bytes in H. rewrite H.
    exists r'. by rewrite from_to_le_bytes.
  - intros r s a r' Hr Hs. unfold reader_uint.
    destruct (reader_take _ r) as [[x r1]|] eqn:E; [|done]. intros [= <- <-].
    apply (reader_take_inv _ _ _ _ _ (Nat2Z.is_nonneg n) Hr) in E as (Hx & s' & -> & Hr').
    apply Forall_app in Hs as [Hxo Hs]. split.
    + rewrite <- Hx. by apply from_le_bytes_range.
    + exists s'. replace n with (length x) by (unfold len in Hx; lia).
      by rewrite to_from_le_bytes.
Qed.

#[global] Instance i64_codec : Codec reader_i64 enc_i64 is_i64.
Proof.
  unfold reader_i64, reader_u64. split.
  - intros r a s Ha H. unfold enc_i64 in H.
    apply (codec_fwd (Codec := uint_codec 8)) in H as (r' & H & Hr).
    + change (Z.of_nat 8) with 8 in H. rewrite H. exists r'. by rewrite u64_as_i64_as_u64.
    + apply i64_as_u64_range.
  - intros r s a r' Hr Hs. destruct (reader_uint 8 r) as [[z r1]|] eqn:E; [|done].
    intros [= <- <-]. apply (codec_inv (Codec := uint_codec 8) _ _ _ _ Hr Hs) in E as (Hz & s' & -> & ?).
    split; [by apply u64_as_i64_range|]. exists s'. unfold enc_i64.
    by rewrite i64_as_u64_as_i64.
Qed.

(** A counted run of bytes, with the count in [n] bytes. *)
Lemma counted_fwd (n : nat) r x s :
  is_uint (8 * Z.of_nat n) (len x) -> at_front r ((to_le_bytes n (len x) ++ x) ++ s) ->
  exists r1 r', reader_uint (Z.of_nat n) r = Ok (len x, r1) /\
    reader_take (len x) r1 = Ok (x, r') /\ at_front r' s.
Proof.
  intros Hx. rewrite <- app_assoc. intros H.
  apply (codec_fwd (Codec := uint_codec n)) in H as (r1 & H1 & H); [|done].
  apply reader_take_at in H as (r' & H2 & H). by exists r1, r'.
Qed.

Lemma counted_inv (n : nat) r s z r1 x r' :
  at_front r s -> bytes_ok s -> reader_uint (Z.of_nat n) r = Ok (z, r1) ->
  reader_take z r1 = Ok (x, r') ->
  is_uint (8 * Z.of_nat n) (len x) /\
  exists s', s = (to_le_bytes n (len x) ++ x) ++ s' /\ at_front r' s' /\ bytes_ok s'.
Proof.
  intros Hr Hs H1 H2.
  apply (codec_inv (Codec := uint_codec n) _ _ _ _ Hr Hs) in H1 as (Hz & s1 & -> & Hr1 & Hs1).
  apply (reader_take_inv _ _ _ _ _ (proj1 Hz) Hr1) in H2 as (<- & s' & -> & Hr').
  split; [done|]. exists s'. rewrite <- app_assoc. apply Forall_app in Hs1 as [_ ?]. done.
Qed.

#[global] Instance string_codec :
  Codec reader_string enc_string (fun s => utf8_valid s = true /\ len s <= umax 16).
Proof.
  unfold reader_string, reader_u16. split.
  - intros r a s [Hu Hl] H. apply (counted_fwd 2) in H as (r1 & r' & H1 & H2 & H).
    + change (Z.of_nat 2) with 2 in H1. rewrite H1, H2. unfold from_utf8. rewrite Hu. by exists r'.
    + pose proof (len_nonneg a). unfold is_uint, umax in *. lia.
  - intros r s a r' Hr Hs. destruct (reader_uint 2 r) as [[n r1]|] eqn:E1; [|done].
    destruct (reader_take n r1) as [[x r2]|] eqn:E2; [|done].
    unfold from_utf8. destruct (utf8_valid x) eqn:Eu; [|done]. intros [= <- <-].
    destruct (counted_inv 2 _ _ _ _ _ _ Hr Hs E1 E2) as [Hx ?]. split; [|done].
    split; [done|]. unfold is_uint, umax in *. lia.
Qed.

#[global] Instance bytes_codec :
  Codec reader_bytes enc_bytes (fun s => len s <= umax 32).
Proof.
  unfold reader_bytes, reader_u32. split.
  - intros r a s Hl H. apply (counted_fwd 4) in H as (r1 & r' & H1 & H2 & H).
    + change (Z.of_nat 4) with 4 in H1. rewrite H1, H2. by exists r'.
    + pose proof (len_nonneg a). unfold is_uint, umax in *. lia.
  - intros r s a r' Hr Hs. destruct (reader_uint 4 r) as [[n r1]|] eqn:E1; [|done].
    intros E2. destruct (counted_inv 4 _ _ _ _ _ _ Hr Hs E1 E2) as [Hx ?]. split; [|done].
    unfold is_uint, umax in *. lia.
Qed.

#[global] Instance u8_codec : Codec reader_u8 (fun b => [b]) is_u8.
Proof.
  destruct (uint_codec 1) as [F I]. split.
  - intros r a s Ha H. apply F; [done|]. simpl. rewrite Z.mod_small; [done|].
    unfold is_uint in *; lia.
  - intros r s a r' Hr Hs H. destruct (I _ _ _ _ Hr Hs H) as (Ha & s' & -> & ?).
    split; [done|]. exists s'. simpl. rewrite Z.mod_small; [done|]. unfold is_uint in *; simpl in Ha; lia.
Qed.
#[global] Instance u32_codec : Codec reader_u32 (to_le_bytes 4) is_u32 := uint_codec 4.
#[global] Instance u64_codec : Codec reader_u64 (to_le_bytes 8) is_u64 := uint_codec 8.

(** A field that is there exactly when its flag is set. *)
#[global] Instance optional_codec {A} flags flag read (enc : A -> bytes) valid :
  Codec read enc valid ->
  Codec (reader_optional flags flag read) (enc_opt enc)
    (fun o => is_some o = negb (Z.land flags flag =? 0) /\ forall a, o = Some a -> valid a).
Proof.
  intros HC. unfold reader_optional. split.
  - intros r [a|] s [<- Hv] H; simpl in *; [|by exists r].
    apply (codec_fwd (Codec := HC)) in H as (r' & -> & H); [by exists r'|auto].
  - intros r s o r' Hr Hs. destruct (negb _) eqn:E.
    + destruct (read r) as [[a r1]|] eqn:E1; [|done]. intros [= <- <-].
      destruct (codec_inv (Codec := HC) _ _ _ _ Hr Hs E1) as [Hv ?].
      split; [|done]. split; [done|]. by intros ? [= <-].
    + intros [= <- <-]. split; [done|]. by exists s.
Qed.

Lemma algorithm_byte_iff b a : algorithm_from_byte b = Some a <-> b = algorithm_to_byte a.
Proof.
  split; [|intros ->; by destruct a]. unfold algorithm_from_byte.
  repeat case_match; intros [= <-]; bools; done.
Qed.

(** The flags byte carries exactly the flags of the fields that are there. *)
Definition flag_part (a f flag : Z) : Z :=
  if Z.land a flag =? 0 then 0 else if negb (Z.land f flag =? 0) then flag else 0.
Definition flags_of (a f : Z) : Z :=
  flag_part a f FLAG_DEVICE_ID + flag_part a f FLAG_PUBLIC_KEY + flag_part a f FLAG_VERSION.
Definition flags_check (f : Z) : bool :=
  forallb (fun a => negb (Z.land f (Z.land (Z.lnot a) 255) =? 0) || (f =? flags_of a f))
    [0; 1; 3; 5].

Lemma flags_exact kind f :
  is_u8 f -> Z.land f (Z.land (Z.lnot (allowed_flags kind)) 255) = 0 ->
  f = flags_of (allowed_flags kind) f.
Proof.
  intros Hf Hl. assert (forallb flags_check (seqZ 0 256) = true) as H by (vm_compute; reflexivity).
  rewrite forallb_Forall, Forall_forall in H. specialize (H f).
  unfold flags_check in H. rewrite forallb_Forall, Forall_forall in H.
  specialize (H ltac:(apply elem_of_seqZ; unfold is_uint in Hf; lia) (allowed_flags kind)).
  rewrite Hl in H. simpl in H. apply Z.eqb_eq, H.
  unfold allowed_flags. repeat case_match; apply (bool_decide_unpack _); vm_compute; exact I.
Qed.

(** ** Decoding is the inverse of encoding *)

Ltac read_valid :=
  match goal with
  | |- _ /\ forall _, _ -> _ => split; [vm_compute; reflexivity|intros ? [= <-]; read_valid]
  | |- is_u8 (algorithm_to_byte ?a) => by destruct a
  | _ => simpl in *; naive_solver
  end.
Ltac read_next H :=
  match goal with
  | |- match ?c with _ => _ end = _ =>
      lazymatch c with
      | ok_or _ _ => rewrite (proj2 (algorithm_byte_iff _ _) eq_refl); cbn [ok_or]
      | reader_u8 _ => apply (codec_fwd (Codec := u8_codec)) in H as (? & -> & H); [|read_valid]
      | ?rd ?r => eapply (codec_fwd (read := rd)) in H as (? & -> & H); [|read_valid]
      end
  end.

Lemma read_body_fwd m r s :
  msg_typed m -> msg_fits m -> at_front r (msg_body m ++ s) ->
  read_body (msg_kind m) (msg_flags m) r = Ok m.
Proof.
  intros [Hu Ht] [Hs Hb] H.
  destruct m as [? ? [?|] [?|]| |? ? ? ? [?|]| | |? ? [?|] [?|]|? ? a ? ? [?|]|];
    cbn [msg_body msg_kind] in *; rewrite <- ?app_assoc in H;
    simpl in Hu, Hs, Hb, Ht; rewrite ?Forall_cons in *;
    cbv [read_body KIND_START KIND_CHALLENGE KIND_RESPONSE KIND_OK KIND_FAILED
         KIND_ENROLL_START KIND_ENROLL_ISSUE KIND_ENROLL_FAILED]; cbn [Z.eqb Pos.eqb].
  all: repeat read_next H; reflexivity.
Qed.

Lemma from_binary_encode m trailing :
  len (encode_binary m ++ trailing) < 2 ^ 63 -> msg_typed m -> msg_fits m ->
  from_binary (encode_binary m ++ trailing) = Ok m.
Proof.
  intros Hl Ht Hf. apply at_front_new in Hl. unfold from_binary.
  revert Hl. generalize (reader_new (encode_binary m ++ trailing)) as r. intros r H.
  change (at_front r ([msg_kind m] ++ [msg_flags m] ++ msg_body m ++ trailing)) in H.
  apply (codec_fwd (Codec := u8_codec)) in H as (r1 & -> & H); [|by destruct m].
  apply (codec_fwd (Codec := u8_codec)) in H as (r2 & -> & H).
  - assert (Z.land (msg_flags m) (Z.land (Z.lnot (allowed_flags (msg_kind m))) 255) = 0) as ->
      by (destruct m as [? ? [?|] [?|]| |? ? ? ? [?|]| | |? ? [?|] [?|]|? ? a ? ? [?|]|]; done).
    by eapply read_body_fwd.
  - by destruct m as [? ? [?|] [?|]| |? ? ? ? [?|]| | |? ? [?|] [?|]|? ? a ? ? [?|]|].
Qed.

(** Takes one successful read apart: the bytes it consumed, and the rest. *)
Ltac unread Hr Hs H :=
  match type of H with
  | match ?c with _ => _ end = _ =>
      lazymatch c with
      | ok_or ?o _ =>
          let a := fresh "a" in let E := fresh "E" in
          destruct o as [a|] eqn:E; [cbn [ok_or] in H|discriminate H];
          apply algorithm_byte_iff in E; subst
      | ?rd ?r =>
          let E := fresh "E" in let v := fresh "v" in
          let Hr' := fresh "Hr" in let Hs' := fresh "Hs" in
          destruct c as [[v ?]|] eqn:E; [|discriminate H];
          apply (codec_inv (read := rd) _ _ _ _ Hr Hs) in E as (? & ? & -> & Hr' & Hs');
          clear Hr Hs; rename Hr' into Hr; rename Hs' into Hs
      end
  end.

Lemma Forall_option_list {A} (P : A -> Prop) o :
  (forall a, o = Some a -> P a) -> Forall P (option_list o).
Proof. destruct o; simpl; [rewrite Forall_singleton; auto|constructor]. Qed.

Lemma opt_flag_some {A} (o : option A) flags flag :
  is_some o = negb (Z.land flags flag =? 0) ->
  opt_flag o flag = if negb (Z.land flags flag =? 0) then flag else 0.
Proof. unfold opt_flag. by intros ->. Qed.

Ltac flags_eq :=
  repeat match goal with H : is_some ?o = negb (Z.land _ _ =? 0) |- _ =>
    rewrite (opt_flag_some _ _ _ H); clear H end;
  unfold flags_of, flag_part;
  repeat match goal with |- context [Z.land ?f ?b =? 0] =>
    is_var f; destruct (Z.land f b =? 0) end; reflexivity.

Lemma read_body_inv kind flags r s m :
  at_front r s -> bytes_ok s -> flags = flags_of (allowed_flags kind) flags ->
  read_body kind flags r = Ok m ->
  kind = msg_kind m /\ flags = msg_flags m /\ msg_typed m /\ msg_fits m /\
  exists s', s = msg_body m ++ s'.
Proof.
  intros Hr Hs Hf H. unfold read_body in H.
  repeat match type of H with (if ?b then _ else _) = _ => destruct b eqn:?; bools; subst end;
    try discriminate H; repeat unread Hr Hs H; injection H as <-.
  all: split; [done|]; split; [|split; [|split]].
  all: cbn [msg_flags msg_body msg_strings msg_blobs]; unfold msg_typed, msg_fits; cbn [msg_strings msg_blobs].
  all: repeat match goal with H : _ /\ _ |- _ => destruct H end.
  all: try (by rewrite Hf; flags_eq).
  all: try (eexists; rewrite <- ?app_assoc; reflexivity).
  all: rewrite ?Forall_cons, ?Forall_app, ?Forall_nil;
    repeat match goal with |- _ /\ _ => split end; auto;
    apply Forall_option_list; naive_solver.
Qed.

Lemma from_binary_sound p m :
  bytes_ok p -> len p < 2 ^ 63 -> from_binary p = Ok m ->
  msg_typed m /\ msg_fits m /\ exists trailing, p = encode_binary m ++ trailing.
Proof.
  intros Hs Hl H. pose proof (at_front_new _ Hl) as Hr. unfold from_binary in H.
  generalize dependent (reader_new p). intros r H Hr.
  unread Hr Hs H. unread Hr Hs H.
  destruct (negb _) eqn:El; [done|]. bools.
  apply (read_body_inv _ _ _ _ _ Hr Hs) in H as (-> & -> & ? & ? & s' & ->);
    [|by apply flags_exact].
  split; [done|]. split; [done|]. by exists s'.
Qed.

(** C4: the binary decoder accepts exactly the encodings.  A payload decodes to
    a message precisely when it is that message's one encoding, possibly with
    trailing bytes behind it: nothing truncated, no other flag byte, no string
    that is not UTF-8, no unknown kind or algorithm ever decodes, and the
    message that comes out has every value in the range of its type. *)
Theorem from_binary_exact p m :
  bytes_ok p -> len p < 2 ^ 63 ->
  from_binary p = Ok m <->
  msg_typed m /\ msg_fits m /\ exists trailing, p = encode_binary m ++ trailing.
Proof.
  intros Hs Hl. split; [by apply from_binary_sound|].
  intros (Ht & Hf & trailing & ->). by apply from_binary_encode.
Qed.

Lemma from_binary_exact_witness :
  from_binary [3; 0; 1; 0; 97] = Err (BE_truncated 0 8) /\
  (from_binary [4; 0; 9] = Ok AuthOk <->
   msg_typed AuthOk /\ msg_fits AuthOk /\ exists trailing, [4; 0; 9] = encode_binary AuthOk ++ trailing).
Proof.
  split; [vm_compute; reflexivity|].
  apply (from_binary_exact [4; 0; 9] AuthOk); [|vm_compute; reflexivity].
  rewrite !Forall_cons, Forall_nil. vm_compute. repeat split; done.
Defined.

Section PayloadRoundTrip.
  Context {JsonError : Type}.
  Variable json_to_writer : AuthMessage -> result bytes JsonError.
  Variable json_from_slice : bytes -> result AuthMessage JsonError.
  (** serde_json reads back what it writes, and an internally tagged enum is
      written as an object. *)
  Hypothesis json_roundtrip : forall m text,
    msg_typed m -> len text < 2 ^ 63 -> json_to_writer m = Ok text -> json_from_slice text = Ok m.
  Hypothesis json_object : forall m text,
    json_to_writer m = Ok text -> exists rest, text = 123 :: rest.

(** A message survives the wire in every format.  Whatever [to_payload]
    puts on the wire, [from_payload] reads back as the same message, and it
    knows from the first byte alone which of the three forms it was; the
    binary form exists exactly when every string and byte vector fits its
    length field, and is then the version byte followed by the encoding. *)
Theorem payload_roundtrip m :
  msg_typed m ->
  (forall format p, to_payload json_to_writer m format = Ok p -> len p < 2 ^ 63 ->
     from_payload json_from_slice p = Ok (m, format)) /\
  (forall p, to_payload json_to_writer m Binary = Ok p <->
     msg_fits m /\ p = VERSION_BINARY :: encode_binary m).
Proof using json_roundtrip json_object.
  intros Hm.
  assert (Hnew : wb_inv (wb_with_capacity SERIALIZED_CAPACITY)) by by apply wb_with_capacity_inv.
  assert (Hbin : forall p, to_payload json_to_writer m Binary = Ok p <->
     msg_fits m /\ p = VERSION_BINARY :: encode_binary m).
  { intros p. unfold to_payload, writer_default, writer_u8.
    destruct (wb_push_spec VERSION_BINARY _ Hnew) as [Hi Hb].
    pose proof (write_binary_spec m _ Hi) as [_ H]. rewrite Hb in H.
    destruct (write_binary m _) as [w [[]|e]]; simpl in *; [|naive_solver].
    destruct H as [Hf ->]. naive_solver. }
  split; [|done]. intros [] p Hp Hl.
  - unfold to_payload, map_json, to_bytes in Hp.
    destruct (json_to_writer m) as [text|] eqn:E; [|done].
    cbn [wb_into_wiped fst] in Hp.
    destruct (wb_extend_spec text _ Hnew) as [_ Hb]. rewrite Hb in Hp. injection Hp as <-.
    destruct (json_object _ _ E) as [rest ->]. cbn. by rewrite (json_roundtrip m).
  - unfold to_payload, map_json in Hp.
    destruct (json_to_writer m) as [text|] eqn:E; [|done]. cbn [wb_into_wiped fst] in Hp.
    destruct (wb_push_spec VERSION_JSON _ Hnew) as [Hi Hb].
    destruct (wb_extend_spec text _ Hi) as [_ Hb2]. rewrite Hb2, Hb in Hp. injection Hp as <-.
    cbn [v_bytes wb_with_capacity vec_with_capacity app] in *. rewrite len_cons in Hl. cbn.
    rewrite (json_roundtrip m); [done|done|lia|done].
  - apply Hbin in Hp as [Hf ->]. cbn. rewrite len_cons in Hl.
    rewrite <- (app_nil_r (encode_binary m)).
    rewrite from_binary_encode; [done|rewrite app_nil_r; lia|done|done].
Qed.

End PayloadRoundTrip.

(** A text form that satisfies what is assumed of serde's: the brace, then the
    fields. *)
Definition sample_json_to (m : AuthMessage) : result bytes BinaryError :=
  match write_binary m writer_default with
  | (w, Ok _) => Ok (123 :: v_bytes w)
  | (_, Err e) => Err e
  end.
Definition sample_json_from (text : bytes) : result AuthMessage BinaryError :=
  from_binary (drop 1 text).

Lemma sample_json_ok m text :
  sample_json_to m = Ok text -> msg_fits m /\ text = 123 :: encode_binary m.
Proof.
  assert (wb_inv writer_default) as Hnew by by apply wb_with_capacity_inv.
  unfold sample_json_to. pose proof (write_binary_spec m _ Hnew) as [_ H].
  destruct (write_binary m _) as [w [[]|e]]; [|done]. simpl in H. destruct H as [? ->].
  by intros [= <-].
Qed.

Definition sample_start : AuthMessage :=
  Start (lit "alice") 1700000000 (Some (lit "phone")) (Some 1).


(** No byte of a credential is left in freed memory.  Whatever message is
    written in the binary form, and whether the write succeeds or fails half
    way and drops its writer, every block that goes back to the allocator is
    all zeros. *)
Theorem to_payload_binary_wipes m : Forall wiped (to_payload_binary_freed m).
Proof.
  unfold to_payload_binary_freed, writer_default, writer_u8.
  destruct (wb_push_spec VERSION_BINARY (wb_with_capacity SERIALIZED_CAPACITY)) as [Hi _];
    [by apply wb_with_capacity_inv|].
  pose proof (write_binary_spec m _ Hi) as [H _].
  destruct (write_binary m _) as [w [?|e]]; simpl in *; [apply H|by apply wb_drop_wiped].
Qed.

(** The signed bytes bind both the nonce and the timestamp: two challenge
    messages are equal only when both are, so a proof made for one connection
    or one moment is a proof for no other. *)
Theorem challenge_message_injective n n' t t' :
  is_i64 t -> is_i64 t' -> challenge_message n t = challenge_message n' t' -> n = n' /\ t = t'.
Proof.
  unfold challenge_message. intros Ht Ht' H.
  apply app_inj_2 in H as [-> H]; [|by rewrite !length_to_le_bytes].
  split; [done|]. apply (f_equal from_le_bytes) in H.
  rewrite !from_to_le_bytes in H by apply i64_as_u64_range. apply (f_equal u64_as_i64) in H.
  by rewrite !u64_as_i64_as_u64 in H.
Qed.

