(* ===== verification/AuthConfig.v ===== *)
(** * The authentication configuration and its counters
    (nexapipe/src/auth/config/{mod,client,device,step,acl}.rs, and
    [normalize_secret] of nexapipe/src/auth/otpauth.rs).

    A [HashMap<String, _>] is a [gmap] over the bytes of its keys; [unix_now()]
    is the argument [now].  Counters keep their width: [failed_attempts] is a
    [u32], a timestamp a [u64]. *)

From S2P Require Import Prelude RustStd Host AuthCodec.

(** ** Steps (step.rs) *)

Inductive StepVerdict := Accepted (moved : bool) | Refused.

Definition accept_step (last : option Z) (step : Z) : option Z * StepVerdict :=
  match last with
  | Some previous =>
      if step <? previous then (last, Refused)
      else (Some step, Accepted (negb (bool_decide (last = Some step))))
  | None => (Some step, Accepted (negb (bool_decide (last = Some step))))
  end.

(** ** Access control (acl.rs) *)

Record ClientAcl := {
  acl_hosts : option (list bytes);
  acl_ports : option (list Z);
  acl_strict_ports : bool;
}.

Definition unrestricted : ClientAcl :=
  {| acl_hosts := None; acl_ports := None; acl_strict_ports := false |}.

Definition from_hosts_and_ports (hosts : option (list bytes)) (ports : option (list Z)) : ClientAcl :=
  {| acl_hosts := (fun hosts : list bytes => normalize_pattern <$> hosts) <$> hosts; acl_ports := ports; acl_strict_ports := false |}.

Definition with_strict_ports (strict : bool) (a : ClientAcl) : ClientAcl :=
  {| acl_hosts := acl_hosts a; acl_ports := acl_ports a; acl_strict_ports := strict |}.

Definition acl_allows (a : ClientAcl) (host : bytes) : bool :=
  match acl_hosts a with
  | None => true
  | Some patterns =>
      let host := normalize_host host in
      existsb (fun pattern => host_matches pattern host) patterns
  end.

Definition allows_port (a : ClientAcl) (port : Z) : bool :=
  match acl_ports a with
  | None => true
  | Some ports => existsb (Z.eqb port) ports
  end.

Definition allows_backend_port (a : ClientAcl) (port : Z) : bool :=
  if negb (acl_strict_ports a) then true else allows_port a port.

Definition allows_target (a : ClientAcl) (host : bytes) (port : Z) : bool :=
  acl_allows a host && allows_port a port.

Definition limits_ports (a : ClientAcl) : bool := is_some (acl_ports a).

(** ** Devices and clients (device.rs, client.rs) *)

Record DeviceAuth := {
  d_secret : bytes;
  d_public_key : option bytes;
  d_created_at : bytes;
  d_last_used : option Z;
  d_last_used_step : option Z;
}.

Record ClientAuth := {
  c_secret : bytes;
  c_created_at : bytes;
  c_allow_hosts : option (list bytes);
  c_allow_ports : option (list Z);
  c_allow_ports_strict : bool;
  c_pending_enrollment : option bytes;
  c_devices : gmap bytes DeviceAuth;
  c_unnamed_device_allowed : bool;
  c_last_used : option Z;
  c_last_used_step : option Z;
  c_failed_attempts : Z;
  c_locked_until : option Z;
  c_enrollment_failed_attempts : Z;
  c_enrollment_locked_until : option Z;
}.

(** Field updates, as the assignments of the source. *)
Definition device_with_step (step : option Z) (d : DeviceAuth) : DeviceAuth := {|
  d_secret := d_secret d; d_public_key := d_public_key d; d_created_at := d_created_at d;
  d_last_used := d_last_used d; d_last_used_step := step |}.
Definition device_with_last_used (t : option Z) (d : DeviceAuth) : DeviceAuth := {|
  d_secret := d_secret d; d_public_key := d_public_key d; d_created_at := d_created_at d;
  d_last_used := t; d_last_used_step := d_last_used_step d |}.

(** The lockout counters, the enrollment counters and the use stamps of a
    client, set together. *)
Definition client_with (c : ClientAuth) (devices : gmap bytes DeviceAuth)
    (last_used last_used_step : option Z) (failed_attempts : Z) (locked_until : option Z)
    (e_failed_attempts : Z) (e_locked_until : option Z) : ClientAuth := {|
  c_secret := c_secret c; c_created_at := c_created_at c; c_allow_hosts := c_allow_hosts c;
  c_allow_ports := c_allow_ports c; c_allow_ports_strict := c_allow_ports_strict c;
  c_pending_enrollment := c_pending_enrollment c; c_devices := devices;
  c_unnamed_device_allowed := c_unnamed_device_allowed c;
  c_last_used := last_used; c_last_used_step := last_used_step;
  c_failed_attempts := failed_attempts; c_locked_until := locked_until;
  c_enrollment_failed_attempts := e_failed_attempts;
  c_enrollment_locked_until := e_locked_until |}.

Definition client_with_lockout (failed_attempts : Z) (locked_until : option Z) (c : ClientAuth) :=
  client_with c (c_devices c) (c_last_used c) (c_last_used_step c) failed_attempts locked_until
    (c_enrollment_failed_attempts c) (c_enrollment_locked_until c).
Definition client_with_enrollment (failed_attempts : Z) (locked_until : option Z) (c : ClientAuth) :=
  client_with c (c_devices c) (c_last_used c) (c_last_used_step c) (c_failed_attempts c)
    (c_locked_until c) failed_attempts locked_until.
Definition client_with_devices (devices : gmap bytes DeviceAuth) (c : ClientAuth) :=
  client_with c devices (c_last_used c) (c_last_used_step c) (c_failed_attempts c)
    (c_locked_until c) (c_enrollment_failed_attempts c) (c_enrollment_locked_until c).
Definition client_with_step (step : option Z) (c : ClientAuth) :=
  client_with c (c_devices c) (c_last_used c) step (c_failed_attempts c)
    (c_locked_until c) (c_enrollment_failed_attempts c) (c_enrollment_locked_until c).

Definition device_accept_step (step : Z) (d : DeviceAuth) : DeviceAuth * StepVerdict :=
  let '(last, verdict) := accept_step (d_last_used_step d) step in
  (device_with_step last d, verdict).

Definition client_accept_step (step : Z) (c : ClientAuth) : ClientAuth * StepVerdict :=
  let '(last, verdict) := accept_step (c_last_used_step c) step in
  (client_with_step last c, verdict).

Definition until_after (now : Z) (until : option Z) : bool :=
  match until with Some until => now <? until | None => false end.
Definition until_passed (now : Z) (until : option Z) : bool :=
  match until with Some until => until <=? now | None => false end.

Definition is_locked_out (now : Z) (c : ClientAuth) : bool := until_after now (c_locked_until c).

Definition refresh_lockout (now : Z) (c : ClientAuth) : ClientAuth :=
  if until_passed now (c_locked_until c) then client_with_lockout 0 None c else c.

Definition record_failure (now max_attempts lockout_duration : Z) (c : ClientAuth) : ClientAuth :=
  let n := wrapping 32 (c_failed_attempts c + 1) in
  client_with_lockout n
    (if max_attempts <=? n then Some (wrapping 64 (now + lockout_duration)) else c_locked_until c) c.

Definition is_enrollment_locked_out (now : Z) (c : ClientAuth) : bool :=
  until_after now (c_enrollment_locked_until c).

Definition refresh_enrollment_lockout (now : Z) (c : ClientAuth) : ClientAuth :=
  if until_passed now (c_enrollment_locked_until c) then client_with_enrollment 0 None c else c.

Definition record_enrollment_success (c : ClientAuth) : ClientAuth := client_with_enrollment 0 None c.

Definition record_enrollment_failure (now max_attempts lockout_duration : Z) (c : ClientAuth)
    : ClientAuth :=
  let n := wrapping 32 (c_enrollment_failed_attempts c + 1) in
  client_with_enrollment n
    (if max_attempts <=? n then Some (wrapping 64 (now + lockout_duration))
     else c_enrollment_locked_until c) c.

Definition record_success (now : Z) (c : ClientAuth) : ClientAuth :=
  client_with c (c_devices c) (Some now) (c_last_used_step c) 0 None
    (c_enrollment_failed_attempts c) (c_enrollment_locked_until c).

Definition record_device_success (now : Z) (device : bytes) (c : ClientAuth) : ClientAuth * bool :=
  match c_devices c !! device with
  | None => (c, false)
  | Some entry =>
      let moved := negb (bool_decide (d_last_used entry = Some now)) in
      (client_with_devices (<[device := device_with_last_used (Some now) entry]> (c_devices c)) c,
       moved)
  end.

Definition client_acl (c : ClientAuth) : ClientAcl :=
  with_strict_ports (c_allow_ports_strict c)
    (from_hosts_and_ports (c_allow_hosts c) (c_allow_ports c)).

(** ** The section (mod.rs) *)

Inductive TotpAlgorithm := SHA1 | SHA256 | SHA512.

Definition totp_algorithm_name (a : TotpAlgorithm) : bytes :=
  match a with SHA1 => lit "sha1" | SHA256 => lit "sha256" | SHA512 => lit "sha512" end.

Definition algorithm_of (a : TotpAlgorithm) : Algorithm :=
  match a with SHA1 => Sha1 | SHA256 => Sha256 | SHA512 => Sha512 end.

Record AuthConfig := {
  a_enabled : bool;
  a_issuer : bytes;
  a_algorithm : TotpAlgorithm;
  a_time_step : Z;
  a_digits : Z;
  a_window : Z;
  a_clients : gmap bytes ClientAuth;
  a_max_attempts : Z;
  a_lockout_duration : Z;
}.

Definition auth_config_default : AuthConfig := {|
  a_enabled := false; a_issuer := lit "NexaPipe"; a_algorithm := SHA1; a_time_step := 30;
  a_digits := 6; a_window := 1; a_clients := ∅; a_max_attempts := 5; a_lockout_duration := 300 |}.

Definition with_clients (clients : gmap bytes ClientAuth) (a : AuthConfig) : AuthConfig := {|
  a_enabled := a_enabled a; a_issuer := a_issuer a; a_algorithm := a_algorithm a;
  a_time_step := a_time_step a; a_digits := a_digits a; a_window := a_window a;
  a_clients := clients; a_max_attempts := a_max_attempts a;
  a_lockout_duration := a_lockout_duration a |}.

Definition device_snapshot (d : DeviceAuth) : DeviceAuth := {|
  d_secret := []; d_public_key := None; d_created_at := [];
  d_last_used := d_last_used d; d_last_used_step := d_last_used_step d |}.

Definition client_snapshot (c : ClientAuth) : ClientAuth := {|
  c_secret := []; c_created_at := []; c_allow_hosts := None; c_allow_ports := None;
  c_allow_ports_strict := false; c_pending_enrollment := c_pending_enrollment c;
  c_devices := device_snapshot <$> c_devices c;
  c_unnamed_device_allowed := c_unnamed_device_allowed c;
  c_last_used := c_last_used c; c_last_used_step := c_last_used_step c;
  c_failed_attempts := c_failed_attempts c; c_locked_until := c_locked_until c;
  c_enrollment_failed_attempts := c_enrollment_failed_attempts c;
  c_enrollment_locked_until := c_enrollment_locked_until c |}.

Definition counter_snapshot (a : AuthConfig) : AuthConfig := {|
  a_enabled := a_enabled a; a_issuer := []; a_algorithm := a_algorithm a;
  a_time_step := a_time_step a; a_digits := a_digits a; a_window := a_window a;
  a_clients := client_snapshot <$> a_clients a; a_max_attempts := a_max_attempts a;
  a_lockout_duration := a_lockout_duration a |}.

Definition config_accept_step (client_id : bytes) (device_id : option bytes) (step : Z)
    (a : AuthConfig) : AuthConfig * StepVerdict :=
  match a_clients a !! client_id with
  | None => (a, Refused)
  | Some client =>
      match device_id with
      | Some name =>
          match c_devices client !! name with
          | Some device =>
              let '(device, verdict) := device_accept_step step device in
              let client := client_with_devices (<[name := device]> (c_devices client)) client in
              (with_clients (<[client_id := client]> (a_clients a)) a, verdict)
          | None => (a, Refused)
          end
      | None =>
          let '(client, verdict) := client_accept_step step client in
          (with_clients (<[client_id := client]> (a_clients a)) a, verdict)
      end
  end.

Definition holds_inline_secrets (a : AuthConfig) : bool :=
  existsb (fun client =>
    negb (bool_decide (c_secret client = []))
    || existsb (fun device => negb (bool_decide (d_secret device = [])))
         (map_to_list (c_devices client)).*2) (map_to_list (a_clients a)).*2.

(** ** Secrets (otpauth.rs, mod.rs) *)

Definition BASE32_ALPHABET : bytes := lit "ABCDEFGHIJKLMNOPQRSTUVWXYZ234567".

Definition normalize_secret (raw : bytes) : option bytes :=
  let cleaned := to_ascii_uppercase
                   (filter (fun b => b <> 61) (remove_ws (length raw) raw)) in
  if bool_decide (cleaned = []) || negb (forallb (fun b => contains_char b BASE32_ALPHABET) cleaned)
  then None else Some cleaned.

(** [base32_decode] is the base32 crate's RFC 4648 decoder, without padding. *)
Definition decode_base32_secret (base32_decode : bytes -> option bytes) (stored : bytes)
    : option bytes :=
  let! secret := normalize_secret stored in base32_decode secret.

(** ** Access control *)

Lemma existsb_fmap {A B} (f : A -> B) p l : existsb p (f <$> l) = existsb (fun x => p (f x)) l.
Proof. induction l as [|x l IH]; [done|]. cbn. by rewrite <- IH. Qed.

(** A client's access list is the shared host rule.  What the server lets a
    client reach is exactly what the configured patterns cover under
    [host_matches_any], the rule the client applies to the same list, and a
    client without a list reaches everything; the port list is membership, an
    absent one allows every port, and a backend's own port is held against it
    only in strict mode. *)
Theorem client_acl_spec c host port :
  acl_allows (client_acl c) host =
    match c_allow_hosts c with None => true | Some hosts => host_matches_any hosts host end /\
  allows_target (client_acl c) host port =
    acl_allows (client_acl c) host &&
    match c_allow_ports c with None => true | Some ports => bool_decide (port ∈ ports) end /\
  allows_backend_port (client_acl c) port =
    (negb (c_allow_ports_strict c) || allows_port (client_acl c) port).
Proof.
  split; [|split].
  - unfold acl_allows, client_acl, host_matches_any. simpl.
    destruct (c_allow_hosts c); [|done]. apply existsb_fmap.
  - unfold allows_target. f_equal. unfold allows_port, client_acl. simpl.
    destruct (c_allow_ports c) as [ports|]; [|done]. symmetry.
    case_bool_decide as H.
    + symmetry. apply existsb_Exists. exists port. by rewrite Z.eqb_refl.
    + symmetry. apply not_true_iff_false. intros (x & Hx & E)%existsb_Exists. bools. by subst.
  - unfold allows_backend_port. simpl. by destruct (c_allow_ports_strict c).
Qed.

(** ** Lockout *)

Lemma refresh_lockout_spec now c :
  refresh_lockout now c =
  if is_locked_out now c || bool_decide (c_locked_until c = None) then c
  else client_with_lockout 0 None c.
Proof.
  unfold refresh_lockout, is_locked_out, until_passed, until_after.
  destruct (c_locked_until c) as [u|]; [|done].
  rewrite (bool_decide_eq_false_2 (Some u = None)) by done. rewrite orb_false_r.
  destruct (u <=? now) eqn:E1, (now <? u) eqn:E2; bools; try done; lia.
Qed.

(** A refreshed client is either locked, or has no lock at all. *)
Lemma refresh_lockout_settled now c :
  c_locked_until (refresh_lockout now c) = None \/
  is_locked_out now (refresh_lockout now c) = true.
Proof.
  rewrite refresh_lockout_spec. destruct (is_locked_out now c) eqn:E; [by right|].
  simpl. case_bool_decide; by left.
Qed.

(** ** Steps *)

(** The memory only moves forward. *)
Definition not_behind (last : option Z) (step : Z) : Prop := forall p, last = Some p -> p <= step.

Lemma accept_step_cases last step :
  (accept_step last step = (Some step, Accepted (negb (bool_decide (last = Some step)))) /\
   not_behind last step) \/
  (accept_step last step = (last, Refused) /\ ~ not_behind last step).
Proof.
  unfold accept_step, not_behind. destruct last as [p|]; [|left; by split].
  destruct (step <? p) eqn:E; bools.
  - right. split; [done|]. intros H. specialize (H p eq_refl). lia.
  - left. split; [done|]. by intros q [= <-].
Qed.
