(* ===== verification/AuthState.v ===== *)
(** * What the authentication counters look like on disk
    (nexapipe/src/auth/state.rs; the writer is [persist_auth_state] of
    nexapipe/src/conn/auth/state.rs).

    [snapshot] takes the counters out of a configuration, [apply] puts them into
    one that was read from the configuration file.  SHA-256 and the hex encoder
    are parameters. *)

From S2P Require Import Prelude RustStd AuthConfig.

Record DeviceState := { ds_last_used : option Z; ds_last_used_step : option Z }.

Record ClientState := {
  cs_failed_attempts : Z;
  cs_locked_until : option Z;
  cs_enrollment_failed_attempts : Z;
  cs_enrollment_locked_until : option Z;
  cs_enrollment_token_fingerprint : option bytes;
  cs_last_used : option Z;
  cs_last_used_step : option Z;
  cs_devices : gmap bytes DeviceState;
}.

Record RuntimeState := { rs_clients : gmap bytes ClientState }.

Section State.
Variable sha256 : bytes -> bytes.
Variable hex_encode : bytes -> bytes.

Definition token_fingerprint (token : bytes) : bytes := hex_encode (take 16 (sha256 token)).

Definition enrollment_fingerprint (client : ClientAuth) : option bytes :=
  if (c_enrollment_failed_attempts client =? 0) && is_none (c_enrollment_locked_until client)
  then None
  else token_fingerprint <$> c_pending_enrollment client.

Definition device_state (d : DeviceAuth) : option DeviceState :=
  if is_none (d_last_used d) && is_none (d_last_used_step d) then None
  else Some {| ds_last_used := d_last_used d; ds_last_used_step := d_last_used_step d |}.

Definition is_empty (s : ClientState) : bool :=
  (cs_failed_attempts s =? 0) && is_none (cs_locked_until s)
  && (cs_enrollment_failed_attempts s =? 0) && is_none (cs_enrollment_locked_until s)
  && is_none (cs_last_used s) && is_none (cs_last_used_step s)
  && bool_decide (cs_devices s = ∅).

Definition client_state (client : ClientAuth) : option ClientState :=
  let devices := omap device_state (c_devices client) in
  let state := {|
    cs_failed_attempts := c_failed_attempts client;
    cs_locked_until := c_locked_until client;
    cs_enrollment_failed_attempts := c_enrollment_failed_attempts client;
    cs_enrollment_locked_until := c_enrollment_locked_until client;
    cs_enrollment_token_fingerprint := enrollment_fingerprint client;
    cs_last_used := c_last_used client;
    cs_last_used_step := c_last_used_step client;
    cs_devices := devices |} in
  if is_empty state then None else Some state.

Definition snapshot (config : AuthConfig) : RuntimeState :=
  {| rs_clients := omap client_state (a_clients config) |}.

Definition enrollment_counters_belong_to_this_token (state : ClientState) (client : ClientAuth)
    : bool :=
  match cs_enrollment_token_fingerprint state with
  | None => true
  | Some recorded =>
      match c_pending_enrollment client with
      | None => false
      | Some pending => bool_decide (recorded = token_fingerprint pending)
      end
  end.

Definition apply_device (states : gmap bytes DeviceState) (name : bytes) (d : DeviceAuth)
    : DeviceAuth :=
  match states !! name with
  | None => d
  | Some s => device_with_step (ds_last_used_step s) (device_with_last_used (ds_last_used s) d)
  end.

Definition apply_client (state : RuntimeState) (id : bytes) (client : ClientAuth) : ClientAuth :=
  match rs_clients state !! id with
  | None => client
  | Some s =>
      let mine := enrollment_counters_belong_to_this_token s client in
      client_with client
        (map_imap (fun name d => Some (apply_device (cs_devices s) name d)) (c_devices client))
        (cs_last_used s) (cs_last_used_step s) (cs_failed_attempts s) (cs_locked_until s)
        (if mine then cs_enrollment_failed_attempts s else c_enrollment_failed_attempts client)
        (if mine then cs_enrollment_locked_until s else c_enrollment_locked_until client)
  end.

Definition apply (state : RuntimeState) (config : AuthConfig) : AuthConfig :=
  with_clients (map_imap (fun id c => Some (apply_client state id c)) (a_clients config)) config.

(** What a restart loses: every counter and stamp back at its default, as the
    configuration file, which holds none of them, is read. *)
Definition device_fresh (d : DeviceAuth) : DeviceAuth :=
  device_with_step None (device_with_last_used None d).
Definition client_fresh (c : ClientAuth) : ClientAuth :=
  client_with c (device_fresh <$> c_devices c) None None 0 None 0 None.
Definition restarted (config : AuthConfig) : AuthConfig :=
  with_clients (client_fresh <$> a_clients config) config.

(** The same configuration, with another invitation pending. *)
Definition with_pending (token : option bytes) (c : ClientAuth) : ClientAuth := {|
  c_secret := c_secret c; c_created_at := c_created_at c; c_allow_hosts := c_allow_hosts c;
  c_allow_ports := c_allow_ports c; c_allow_ports_strict := c_allow_ports_strict c;
  c_pending_enrollment := token; c_devices := c_devices c;
  c_unnamed_device_allowed := c_unnamed_device_allowed c;
  c_last_used := c_last_used c; c_last_used_step := c_last_used_step c;
  c_failed_attempts := c_failed_attempts c; c_locked_until := c_locked_until c;
  c_enrollment_failed_attempts := c_enrollment_failed_attempts c;
  c_enrollment_locked_until := c_enrollment_locked_until c |}.

Lemma apply_device_restored devices name d :
  devices !! name = Some d ->
  apply_device (omap device_state devices) name (device_fresh d) = d.
Proof.
  intros Hd. unfold apply_device. rewrite lookup_omap, Hd. simpl. unfold device_state.
  destruct d as [? ? ? [|] [|]]; done.
Qed.

Lemma fingerprint_belongs client state :
  cs_enrollment_token_fingerprint state = enrollment_fingerprint client ->
  enrollment_counters_belong_to_this_token state (client_fresh client) = true.
Proof.
  intros H. unfold enrollment_counters_belong_to_this_token. rewrite H.
  unfold enrollment_fingerprint. destruct (_ && _); [done|]. simpl.
  destruct (c_pending_enrollment client); [|done]. by apply bool_decide_eq_true_2.
Qed.

Lemma devices_restored (devices : gmap bytes DeviceAuth) :
  map_imap (fun name d => Some (apply_device (omap device_state devices) name d))
    (device_fresh <$> devices) = devices.
Proof.
  apply map_eq. intros name. rewrite map_lookup_imap, lookup_fmap.
  destruct (devices !! name) as [d|] eqn:E; [|done]. simpl. f_equal. by apply apply_device_restored.
Qed.

Lemma devices_untouched (devices : gmap bytes DeviceAuth) :
  omap device_state devices = ∅ -> device_fresh <$> devices = devices.
Proof.
  intros H. apply map_eq. intros name. rewrite lookup_fmap.
  destruct (devices !! name) as [d|] eqn:E; [|done]. simpl. f_equal.
  assert (omap device_state devices !! name = None) as Hn by by rewrite H, lookup_empty.
  rewrite lookup_omap, E in Hn. simpl in Hn. unfold device_state in Hn.
  destruct d as [? ? ? [|] [|]]; done.
Qed.

Lemma client_restored clients id c :
  clients !! id = Some c ->
  apply_client {| rs_clients := omap client_state clients |} id (client_fresh c) = c.
Proof.
  intros Hc. unfold apply_client. cbn [rs_clients]. rewrite lookup_omap, Hc. simpl.
  unfold client_state. destruct (is_empty _) eqn:E.
  - unfold is_empty in E. cbn in E. bools. destruct c; cbn in *.
    repeat match goal with
    | H : is_none ?x = true |- _ => destruct x; [discriminate H|]; clear H
    end. subst. unfold client_fresh, client_with. simpl. by rewrite devices_untouched.
  - cbn [cs_devices]. rewrite fingerprint_belongs by done. cbn. rewrite devices_restored.
    by destruct c.
Qed.

(** C18: a restart forgets nothing.  Whatever the counters are when they are
    written (through the copy without secrets that the writer takes), reading
    the configuration file again and applying what was written restores the
    configuration exactly: every failed attempt, lockout, step and stamp, of
    every client and every device. *)
Theorem restart_restores config :
  apply (snapshot (counter_snapshot config)) (restarted config) = config.
Proof.
  assert (snapshot (counter_snapshot config) = snapshot config) as ->.
  { unfold snapshot, counter_snapshot. simpl. f_equal. apply map_eq. intros id.
    rewrite !lookup_omap, lookup_fmap. destruct (a_clients config !! id) as [c|]; [|done]. simpl.
    assert (omap device_state (device_snapshot <$> c_devices c) = omap device_state (c_devices c)) as Hd.
    { apply map_eq. intros name. rewrite !lookup_omap, lookup_fmap.
      by destruct (c_devices c !! name) as [[]|]. }
    unfold client_state. cbn [client_snapshot c_devices]. rewrite Hd. done. }
  unfold apply, restarted, snapshot. destruct config as [? ? ? ? ? ? clients ? ?].
  unfold with_clients. cbn. f_equal. apply map_eq. intros id.
  rewrite map_lookup_imap, lookup_fmap. destruct (clients !! id) as [c|] eqn:E; [|done].
  simpl. f_equal. by apply client_restored.
Qed.

(** A new invitation starts with a clean slate.  Enrollment failures counted
    against one token are not applied to a client whose pending token has
    another fingerprint, or that has none pending: its enrollment counters stay
    as the file has them, while everything else of it is restored. *)
Theorem new_token_not_locked config id c token :
  a_clients config !! id = Some c ->
  is_some (enrollment_fingerprint c) = true ->
  (forall t, token = Some t -> enrollment_fingerprint c <> Some (token_fingerprint t)) ->
  apply_client (snapshot config) id (with_pending token (client_fresh c)) =
  with_pending token (client_with_enrollment 0 None c).
Proof.
  intros Hc Hf Hne. unfold apply_client, snapshot. cbn [rs_clients].
  rewrite lookup_omap, Hc. simpl. unfold client_state. destruct (is_empty _) eqn:E.
  - unfold is_empty in E. cbn in E. rewrite !andb_true_iff in E.
    destruct E as ((((((_ & _) & H1) & H2) & _) & _) & _).
    unfold enrollment_fingerprint in Hf. by rewrite H1, H2 in Hf.
  - unfold enrollment_counters_belong_to_this_token. cbn [cs_enrollment_token_fingerprint].
    destruct (enrollment_fingerprint c) as [fp|] eqn:Efp; [|done].
    assert (match token with None => false | Some t => bool_decide (fp = token_fingerprint t) end
            = false) as Hm.
    { destruct token as [t|]; [|done]. apply bool_decide_eq_false. specialize (Hne t eq_refl). congruence. }
    cbn [c_pending_enrollment with_pending]. rewrite Hm. cbn.
    by rewrite devices_restored.
Qed.

End State.

Definition sample_client : ClientAuth := {|
  c_secret := lit "JBSWY3DPEHPK3PXP"; c_created_at := lit "0"; c_allow_hosts := None;
  c_allow_ports := None; c_allow_ports_strict := false; c_pending_enrollment := Some (lit "tok-a");
  c_devices := ∅; c_unnamed_device_allowed := true; c_last_used := None; c_last_used_step := Some 7;
  c_failed_attempts := 2; c_locked_until := None; c_enrollment_failed_attempts := 3;
  c_enrollment_locked_until := Some 900 |}.

Definition sample_auth : AuthConfig :=
  with_clients {[lit "alice" := sample_client]} auth_config_default.

