(* ===== verification/Authenticator.v ===== *)
(** * Proving a client (nexapipe/src/auth/totp.rs, nexapipe/src/auth/device_key.rs
    and nexapipe/src/conn/auth/authenticator.rs).

    [verify_response] checks one response against a configuration;
    [authenticate] is the whole handler of [ConfigAuthenticator], which runs
    under the configuration's write lock: the expired lockout is cleared, the
    response is checked, the step, the stamps and the counters are recorded.
    The cryptography (base32, hex, HMAC, TOTP, Ed25519) is the record [Crypto];
    nothing is assumed of it.  The wall clock is read once per request. *)

From S2P Require Import Prelude RustStd AuthCodec AuthConfig.

Record Crypto := {
  PublicKey : Type;
  Signature : Type;
  base32_decode : bytes -> option bytes;
  hex_decode : bytes -> option bytes;
  public_key_from_bytes : bytes -> option PublicKey;
  signature_try_from : bytes -> option Signature;
  key_verify : PublicKey -> bytes -> Signature -> bool;
  hmac_sha256 : bytes -> bytes -> result bytes unit;
  (** The TOTP builder and its [check_current]: algorithm, digits, skew, step
      duration, secret, code and clock; the step the code belongs to. *)
  totp_check : TotpAlgorithm -> Z -> Z -> Z -> bytes -> bytes -> Z -> result (option Z) unit;
}.

Definition TIMESTAMP_WINDOW_SECS : Z := 30.
Definition PUBLIC_KEY_LEN : Z := 32.

Inductive Verified := VAccepted (step : option Z) | WrongCode.

Inductive AuthError :=
| ClientNotFound
| UnknownDevice
| InvalidSecret
| TotpCreationFailed
| LockedOut
| InvalidCode
| StaleTimestamp
| ChallengeMismatch
| UnnamedDeviceNotAllowed
| WrongSignature
| MalformedSignature
| ProtocolError (msg : bytes).

Record AuthRequest := {
  q_client_id : bytes;
  q_device_id : option bytes;
  q_nonce : bytes;
  q_timestamp : Z;
  q_signature : bytes;
  q_code : bytes;
}.

Definition constant_time_eq (a b : bytes) : bool :=
  if negb (length a =? length b)%nat then false
  else
    let diff := fold_left (fun diff xy => Z.lor diff (Z.lxor xy.1 xy.2)) (zip a b) 0 in
    diff =? 0.

Section Verify.
Variable cr : Crypto.

(** The error strings are of no consequence: the caller maps them all to
    [InvalidSecret]. *)
Definition parse_public_key (stored : bytes) : option (PublicKey cr) :=
  let spelled := trim stored in
  let! decoded := hex_decode cr spelled in
  if negb (len decoded =? PUBLIC_KEY_LEN) then None
  else public_key_from_bytes cr decoded.

Definition ed25519_verify (key : PublicKey cr) (nonce : bytes) (timestamp : Z) (signature : bytes)
    : bool :=
  match signature_try_from cr signature with
  | None => false
  | Some signature => key_verify cr key (challenge_message nonce timestamp) signature
  end.

Inductive Proof_ := ProofSecret (secret : bytes) | ProofKey (key : PublicKey cr).

Definition hmac_signature (secret nonce : bytes) (timestamp : Z) : result bytes AuthError :=
  match hmac_challenge (hmac_sha256 cr) secret nonce timestamp with
  | Ok s => Ok s
  | Err _ => Err InvalidSecret
  end.

Definition check_code (config : AuthConfig) (now : Z) (secret code : bytes)
    : result (option Z) AuthError :=
  if umax 8 <? a_digits config then Err TotpCreationFailed
  else if umax 16 <? a_window config then Err TotpCreationFailed
  else
    match totp_check cr (a_algorithm config) (a_digits config) (a_window config)
            (a_time_step config) secret code now with
    | Ok step => Ok step
    | Err _ => Err TotpCreationFailed
    end.

(** What the server holds for whoever answered. *)
Definition proof_of (client : ClientAuth) (device_id : option bytes) : result Proof_ AuthError :=
  match device_id with
  | None =>
      if negb (c_unnamed_device_allowed client) then Err UnnamedDeviceNotAllowed
      else ok_or (ProofSecret <$> decode_base32_secret (base32_decode cr) (c_secret client)) InvalidSecret
  | Some name =>
      match c_devices client !! name with
      | None => Err UnknownDevice
      | Some device =>
          match d_public_key device with
          | Some key => ok_or (ProofKey <$> parse_public_key key) InvalidSecret
          | None =>
              ok_or (ProofSecret <$> decode_base32_secret (base32_decode cr) (d_secret device))
                InvalidSecret
          end
      end
  end.

Definition verify_response (config : AuthConfig) (now : Z) (q : AuthRequest)
    : result Verified AuthError :=
  if negb (a_enabled config) then Ok (VAccepted None)
  else
    let? client := ok_or (a_clients config !! q_client_id q) ClientNotFound in
    if is_locked_out now client then Err LockedOut
    else
      let? proof := proof_of client (q_device_id q) in
      if TIMESTAMP_WINDOW_SECS <? abs_diff now (q_timestamp q) then Err StaleTimestamp
      else
        match proof with
        | ProofSecret secret =>
            let? expected := hmac_signature secret (q_nonce q) (q_timestamp q) in
            if negb (constant_time_eq (q_signature q) expected) then Err ChallengeMismatch
            else
              let? step := check_code config now secret (q_code q) in
              match step with
              | Some step => Ok (VAccepted (Some step))
              | None => Ok WrongCode
              end
        | ProofKey key =>
            if is_none (signature_try_from cr (q_signature q)) then Err MalformedSignature
            else if negb (ed25519_verify key (q_nonce q) (q_timestamp q) (q_signature q))
            then Err WrongSignature
            else Ok (VAccepted None)
        end.

(** ** The handler *)

(** What the handler leaves behind: the configuration, the answer, whether the
    counters are written to disk, and the identity the connection is
    registered under. *)
Record Authenticated := {
  o_config : AuthConfig;
  o_answer : result ClientAcl AuthError;
  o_dirty : bool;
  o_registered : option (bytes * option bytes);
}.

Definition update_client (f : ClientAuth -> ClientAuth) (id : bytes) (config : AuthConfig)
    : AuthConfig := with_clients (alter f id (a_clients config)) config.

Definition refused (config : AuthConfig) (dirty : bool) (e : AuthError) : Authenticated :=
  {| o_config := config; o_answer := Err e; o_dirty := dirty; o_registered := None |}.

(** The rest of that branch once the step was not refused: the device's stamp,
    the success, the access list and the registration. *)
Definition record_accepted (config : AuthConfig) (now : Z) (q : AuthRequest) (step_moved : bool)
    : Authenticated :=
  let id := q_client_id q in
  let '(config, device_stamp_moved) :=
    match q_device_id q with
    | None => (config, false)
    | Some name =>
        match a_clients config !! id with
        | None => (config, false)
        | Some client =>
            let '(client, moved) := record_device_success now name client in
            (with_clients (<[id := client]> (a_clients config)) config, moved)
        end
    end in
  let dirty := step_moved || device_stamp_moved ||
    match a_clients config !! id with
    | Some c => negb (c_failed_attempts c =? 0) || is_some (c_locked_until c)
    | None => false
    end in
  let config := if dirty then update_client (record_success now) id config else config in
  let acl := match a_clients config !! id with
             | Some client => client_acl client
             | None => unrestricted
             end in
  {| o_config := config; o_answer := Ok acl; o_dirty := dirty;
     o_registered := Some (id, q_device_id q) |}.

(** The branch of a response that proved itself. *)
Definition accept (config : AuthConfig) (now : Z) (q : AuthRequest) (step : option Z)
    : Authenticated :=
  let '(config, verdict) :=
    match step with
    | Some step => config_accept_step (q_client_id q) (q_device_id q) step config
    | None => (config, Accepted false)
    end in
  match verdict with
  | Refused => refused config false InvalidCode
  | Accepted step_moved => record_accepted config now q step_moved
  end.

Definition authenticate (config : AuthConfig) (now : Z) (q : AuthRequest) : Authenticated :=
  let config := update_client (refresh_lockout now) (q_client_id q) config in
  match verify_response config now q with
  | Ok (VAccepted step) => accept config now q step
  | Ok WrongCode =>
      let config := update_client
        (record_failure now (a_max_attempts config) (a_lockout_duration config))
        (q_client_id q) config in
      refused config true InvalidCode
  | Err e => refused config false e
  end.

(** Requests in the order they take the lock. *)
Fixpoint serve (config : AuthConfig) (qs : list (Z * AuthRequest))
    : AuthConfig * list (result ClientAcl AuthError) :=
  match qs with
  | [] => (config, [])
  | (now, q) :: qs =>
      let o := authenticate config now q in
      let '(config, answers) := serve (o_config o) qs in
      (config, o_answer o :: answers)
  end.
End Verify.

(** ** The comparison *)

Lemma fold_lor_zero l acc :
  fold_left (fun diff xy => Z.lor diff (Z.lxor xy.1 xy.2)) l acc = 0 <->
  acc = 0 /\ Forall (fun xy : Z * Z => xy.1 = xy.2) l.
Proof.
  revert acc. induction l as [|[x y] l IH]; intros acc; simpl.
  - rewrite Forall_nil. tauto.
  - rewrite IH, Forall_cons, Z.lor_eq_0_iff, Z.lxor_eq_0_iff. simpl. tauto.
Qed.

(** The comparison that touches every byte is equality. *)
Lemma constant_time_eq_spec a b : constant_time_eq a b = true <-> a = b.
Proof.
  unfold constant_time_eq. destruct (length a =? length b)%nat eqn:E; simpl.
  - apply Nat.eqb_eq in E. rewrite Z.eqb_eq, fold_lor_zero. split; [|intros ->].
    + intros [_ H]. revert b E H. induction a as [|x a IH]; intros [|y b] E H; try done.
      inversion H; simplify_eq/=. f_equal. by apply IH.
    + split; [done|]. clear E. induction b; constructor; auto.
  - apply Nat.eqb_neq in E. split; [done|]. by intros ->.
Qed.

(** ** What counts as a proof *)

Section Proofs.
Variable cr : Crypto.

(** The secret signed this connection's challenge, and the code is one of
    [step]. *)
Definition signed (q : AuthRequest) (secret : bytes) : Prop :=
  hmac_sha256 cr secret (challenge_message (q_nonce q) (q_timestamp q)) = Ok (q_signature q).

Definition code_step (config : AuthConfig) (now : Z) (q : AuthRequest) (secret : bytes)
    (step : option Z) : Prop :=
  a_digits config <= umax 8 /\ a_window config <= umax 16 /\
  totp_check cr (a_algorithm config) (a_digits config) (a_window config) (a_time_step config)
    secret (q_code q) now = Ok step.

(** The secret the server holds for whoever answered, if it is a secret. *)
Inductive holds_secret (client : ClientAuth) : option bytes -> bytes -> Prop :=
| HS_client secret :
    c_unnamed_device_allowed client = true ->
    decode_base32_secret (base32_decode cr) (c_secret client) = Some secret ->
    holds_secret client None secret
| HS_device name device secret :
    c_devices client !! name = Some device -> d_public_key device = None ->
    decode_base32_secret (base32_decode cr) (d_secret device) = Some secret ->
    holds_secret client (Some name) secret.

(** Or the device key. *)
Inductive holds_key (client : ClientAuth) : option bytes -> PublicKey cr -> Prop :=
| HK_device name device stored key :
    c_devices client !! name = Some device -> d_public_key device = Some stored ->
    parse_public_key cr stored = Some key ->
    holds_key client (Some name) key.

Lemma proof_of_secret client dev secret :
  proof_of cr client dev = Ok (ProofSecret cr secret) <-> holds_secret client dev secret.
Proof.
  unfold proof_of. split.
  - destruct dev as [name|].
    + destruct (c_devices client !! name) as [d|] eqn:Ed; [|done].
      destruct (d_public_key d) eqn:Ek.
      * by destruct (parse_public_key cr l).
      * destruct (decode_base32_secret _ _) eqn:E; [|done]. intros [= <-]. by eapply HS_device.
    + destruct (c_unnamed_device_allowed client) eqn:Eu; [|done]. simpl.
      destruct (decode_base32_secret _ _) eqn:E; [|done]. intros [= <-]. by apply HS_client.
  - destruct 1 as [secret Hu Hd|name d secret Hd Hk Hs].
    + rewrite Hu. simpl. by rewrite Hd.
    + by rewrite Hd, Hk, Hs.
Qed.

Lemma proof_of_key client dev key :
  proof_of cr client dev = Ok (ProofKey cr key) <-> holds_key client dev key.
Proof.
  unfold proof_of. split.
  - destruct dev as [name|].
    + destruct (c_devices client !! name) as [d|] eqn:Ed; [|done].
      destruct (d_public_key d) eqn:Ek.
      * destruct (parse_public_key cr l) eqn:E; [|done]. intros [= <-]. by eapply HK_device.
      * by destruct (decode_base32_secret _ _).
    + destruct (c_unnamed_device_allowed client); [|done]. simpl.
      by destruct (decode_base32_secret _ _).
  - destruct 1 as [name d stored key Hd Hk Hp]. by rewrite Hd, Hk, Hp.
Qed.

(** A response that proves itself, and the step its code belongs to: none when
    the proof is a signature. *)
Definition proved (config : AuthConfig) (now : Z) (client : ClientAuth) (q : AuthRequest)
    (step : option Z) : Prop :=
  (exists secret s, holds_secret client (q_device_id q) secret /\ signed q secret /\
     code_step config now q secret (Some s) /\ step = Some s) \/
  (exists key sig, holds_key client (q_device_id q) key /\
     signature_try_from cr (q_signature q) = Some sig /\
     key_verify cr key (challenge_message (q_nonce q) (q_timestamp q)) sig = true /\ step = None).

(** A response that is signed with the right secret and carries a wrong code. *)
Definition wrong_guess (config : AuthConfig) (now : Z) (client : ClientAuth) (q : AuthRequest) : Prop :=
  exists secret, holds_secret client (q_device_id q) secret /\ signed q secret /\
    code_step config now q secret None.

Definition admissible (now : Z) (client : ClientAuth) (q : AuthRequest) : Prop :=
  is_locked_out now client = false /\ abs_diff now (q_timestamp q) <= TIMESTAMP_WINDOW_SECS.

Lemma hmac_signature_ok secret q :
  hmac_signature cr secret (q_nonce q) (q_timestamp q) = Ok (q_signature q) <-> signed q secret.
Proof.
  unfold hmac_signature, hmac_challenge, signed. by destruct (hmac_sha256 cr _ _); split; intros [= ->].
Qed.

Lemma check_code_ok config now q secret step :
  check_code cr config now secret (q_code q) = Ok step <-> code_step config now q secret step.
Proof.
  unfold check_code, code_step.
  destruct (umax 8 <? _) eqn:E1; bools; [split; [done|lia]|].
  destruct (umax 16 <? _) eqn:E2; bools; [split; [done|lia]|].
  destruct (totp_check _ _ _ _ _ _ _ _); split.
  - intros [= ->]. done.
  - by intros (_ & _ & [= ->]).
  - done.
  - by intros (_ & _ & ?).
Qed.

(** What [verify_response] says of a secret-based response. *)
Lemma secret_branch config now q secret v :
  (let? expected := hmac_signature cr secret (q_nonce q) (q_timestamp q) in
   if negb (constant_time_eq (q_signature q) expected) then Err ChallengeMismatch
   else let? step := check_code cr config now secret (q_code q) in
        match step with Some step => Ok (VAccepted (Some step)) | None => Ok WrongCode end) = Ok v <->
  signed q secret /\ exists step, code_step config now q secret step /\
    v = match step with Some step => VAccepted (Some step) | None => WrongCode end.
Proof.
  rewrite <- hmac_signature_ok. setoid_rewrite <- check_code_ok.
  destruct (hmac_signature cr secret (q_nonce q) (q_timestamp q)) as [expected|]; [|naive_solver].
  destruct (constant_time_eq (q_signature q) expected) eqn:E; simpl.
  - apply constant_time_eq_spec in E as ->.
    destruct (check_code cr config now secret (q_code q)) as [[step|]|]; naive_solver.
  - split; [done|]. intros [[= Heq] _].
    assert (constant_time_eq (q_signature q) expected = true) as Ht by by apply constant_time_eq_spec.
    congruence.
Qed.

Lemma key_branch key q v :
  (if is_none (signature_try_from cr (q_signature q)) then Err MalformedSignature
   else if negb (ed25519_verify cr key (q_nonce q) (q_timestamp q) (q_signature q))
   then Err WrongSignature else Ok (VAccepted None)) = Ok v <->
  (exists sig, signature_try_from cr (q_signature q) = Some sig /\
    key_verify cr key (challenge_message (q_nonce q) (q_timestamp q)) sig = true) /\ v = VAccepted None.
Proof.
  unfold ed25519_verify. destruct (signature_try_from cr (q_signature q)) as [sig|]; simpl.
  - destruct (key_verify _ _ _ _) eqn:E; simpl.
    + split; [intros [= <-]; eauto|by intros [_ ->]].
    + split; [done|]. intros [(? & [= <-] & ?) _]. congruence.
  - split; [done|]. by intros [(? & ? & _) _].
Qed.

Lemma verify_response_ok config now q v :
  a_enabled config = true ->
  verify_response cr config now q = Ok v <->
  exists client, a_clients config !! q_client_id q = Some client /\ admissible now client q /\
    match v with
    | VAccepted step => proved config now client q step
    | WrongCode => wrong_guess config now client q
    end.
Proof.
  intros He. unfold verify_response. rewrite He. cbn [negb].
  destruct (a_clients config !! q_client_id q) as [client|]; cbn [ok_or];
    [|split; [done|by intros (? & ? & _)]].
  unfold admissible. destruct (is_locked_out now client) eqn:El.
  { split; [done|]. intros (? & [= <-] & [? _] & _). congruence. }
  destruct (_ <? _) eqn:Et; bools.
  { split; [by destruct (proof_of _ _ _)|]. intros (? & [= <-] & [_ ?] & _). lia. }
  assert (Hsec : forall s, holds_secret client (q_device_id q) s <->
    proof_of cr client (q_device_id q) = Ok (ProofSecret cr s)) by (intros; by rewrite proof_of_secret).
  assert (Hkey : forall k, holds_key client (q_device_id q) k <->
    proof_of cr client (q_device_id q) = Ok (ProofKey cr k)) by (intros; by rewrite proof_of_key).
  unfold proved, wrong_guess.
  destruct (proof_of cr client (q_device_id q)) as [[secret|key]|e] eqn:Ep.
  - rewrite secret_branch. split.
    + intros [Hs (step & Hc & ->)]. exists client. split; [done|]. split; [done|].
      destruct step as [s|]; [left; exists secret, s|exists secret]; rewrite Hsec; auto.
    + intros (? & [= <-] & _ & Hv). split; destruct v as [step|].
      all: try destruct Hv as [(s & t & Hh & Hs & Hc & ->)|(k & ? & Hh & _)].
      all: try destruct Hv as (s & Hh & Hs & Hc).
      all: rewrite ?Hsec, ?Hkey in Hh; simplify_eq; eauto.
  - rewrite key_branch. split.
    + intros [(sig & Hs & Hv) ->]. exists client. split; [done|]. split; [done|].
      right. exists key, sig. rewrite Hkey. auto.
    + intros (? & [= <-] & _ & Hv). split; destruct v as [step|].
      all: try destruct Hv as [(s & t & Hh & Hs & Hc & ->)|(k & sig & Hh & Hs & Hk & ->)].
      all: try destruct Hv as (s & Hh & Hs & Hc).
      all: rewrite ?Hsec, ?Hkey in Hh; simplify_eq; eauto.
  - split; [done|]. intros (? & [= <-] & _ & Hv). destruct v as [step|].
    all: try destruct Hv as [(s & t & Hh & _)|(k & sig & Hh & _)].
    all: try destruct Hv as (s & Hh & _).
    all: rewrite ?Hsec, ?Hkey in Hh; done.
Qed.

(** ** What the handler does to the configuration *)

(** The last step accepted from a client, or from one of its devices. *)
Definition last_step (client : ClientAuth) (dev : option bytes) : option Z :=
  match dev with
  | None => c_last_used_step client
  | Some name => c_devices client !! name ≫= d_last_used_step
  end.

Definition lockout (client : ClientAuth) : Z * option Z :=
  (c_failed_attempts client, c_locked_until client).

Definition set_last_step (dev : option bytes) (step : Z) (client : ClientAuth) : ClientAuth :=
  match dev with
  | None => client_with_step (Some step) client
  | Some name =>
      client_with_devices (alter (device_with_step (Some step)) name (c_devices client)) client
  end.

(** The entry the response names is there. *)
Definition known_device (client : ClientAuth) (dev : option bytes) : Prop :=
  forall name, dev = Some name -> is_Some (c_devices client !! name).

Lemma with_clients_id config : with_clients (a_clients config) config = config.
Proof. by destruct config. Qed.

Lemma client_with_step_id c : client_with_step (c_last_used_step c) c = c.
Proof. by destruct c. Qed.

Lemma device_with_step_id d : device_with_step (d_last_used_step d) d = d.
Proof. by destruct d. Qed.

Lemma client_with_devices_id c : client_with_devices (c_devices c) c = c.
Proof. by destruct c. Qed.

Lemma insert_as_alter {A} (f : A -> A) (k : bytes) (m : gmap bytes A) x :
  m !! k = Some x -> <[k := f x]> m = alter f k m.
Proof.
  intros H. apply map_eq. intros j. destruct (decide (k = j)) as [<-|Hne].
  - by rewrite lookup_insert_eq, lookup_alter_eq, H.
  - by rewrite lookup_insert_ne, lookup_alter_ne.
Qed.

Lemma update_client_compose f g id config :
  update_client f id (update_client g id config) = update_client (fun c => f (g c)) id config.
Proof.
  unfold update_client, with_clients. simpl. f_equal.
  apply map_eq. intros j. destruct (decide (id = j)) as [<-|Hne].
  - rewrite !lookup_alter_eq. by destruct (a_clients config !! id).
  - by rewrite !lookup_alter_ne.
Qed.

Lemma lookup_update_client f id config :
  a_clients (update_client f id config) !! id = f <$> a_clients config !! id.
Proof. apply lookup_alter_eq. Qed.

Lemma config_accept_step_spec id dev step config client :
  a_clients config !! id = Some client -> known_device client dev ->
  (not_behind (last_step client dev) step /\
   config_accept_step id dev step config =
     (update_client (set_last_step dev step) id config,
      Accepted (negb (bool_decide (last_step client dev = Some step))))) \/
  (~ not_behind (last_step client dev) step /\
   config_accept_step id dev step config = (config, Refused)).
Proof.
  intros Hc Hd. unfold config_accept_step. rewrite Hc. destruct dev as [name|]; simpl.
  - destruct (Hd name eq_refl) as [d Hdev]. rewrite Hdev. unfold device_accept_step. simpl.
    destruct (accept_step_cases (d_last_used_step d) step) as [[-> Hn]|[-> Hn]]; [left|right];
      (split; [done|]).
    + unfold update_client. rewrite <- (insert_as_alter _ _ _ _ Hc). simpl.
      by rewrite <- (insert_as_alter _ _ _ _ Hdev).
    + rewrite device_with_step_id, (insert_id _ _ _ Hdev), client_with_devices_id.
      by rewrite (insert_id _ _ _ Hc), with_clients_id.
  - unfold client_accept_step.
    destruct (accept_step_cases (c_last_used_step client) step) as [[-> Hn]|[-> Hn]]; [left|right];
      (split; [done|]).
    + unfold update_client. by rewrite <- (insert_as_alter _ _ _ _ Hc).
    + rewrite client_with_step_id. by rewrite (insert_id _ _ _ Hc), with_clients_id.
Qed.

Lemma last_step_set client dev step dev' :
  known_device client dev ->
  last_step (set_last_step dev step client) dev' =
  if bool_decide (dev' = dev) then Some step else last_step client dev'.
Proof.
  intros Hd. case_bool_decide as E; [subst dev'|]; destruct dev as [name|]; simpl.
  - destruct (Hd name eq_refl) as [d Hdev]. by rewrite lookup_alter_eq, Hdev.
  - done.
  - destruct dev' as [name'|]; [|done]. simpl. by rewrite lookup_alter_ne by congruence.
  - by destruct dev'.
Qed.

(** The device's use stamp, as an update of the client. *)
Definition stamp (now : Z) (dev : option bytes) (client : ClientAuth) : ClientAuth :=
  match dev with None => client | Some name => (record_device_success now name client).1 end.

Lemma last_step_stamp now dev client dev' : last_step (stamp now dev client) dev' = last_step client dev'.
Proof.
  destruct dev as [name|]; [|done]. simpl. unfold record_device_success.
  destruct (c_devices client !! name) as [d|] eqn:E; [|done]. destruct dev' as [name'|]; [|done].
  simpl. destruct (decide (name = name')) as [<-|Hne].
  - by rewrite lookup_insert_eq, E.
  - by rewrite lookup_insert_ne.
Qed.

Lemma stamp_keeps now dev client :
  lockout (stamp now dev client) = lockout client /\
  client_acl (stamp now dev client) = client_acl client.
Proof.
  destruct dev as [name|]; [|done]. simpl. unfold record_device_success.
  by destruct (c_devices client !! name).
Qed.

Lemma set_last_step_keeps dev step client :
  lockout (set_last_step dev step client) = lockout client /\
  client_acl (set_last_step dev step client) = client_acl client.
Proof. by destruct dev. Qed.

(** What is left of a client after a response of it was accepted. *)
Record client_after (client client' : ClientAuth) (dev : option bytes) (step : option Z) : Prop := {
  after_acl : client_acl client' = client_acl client;
  after_lockout : lockout client' = (0, None);
  after_step : forall dev', last_step client' dev' =
    match step with
    | Some s => if bool_decide (dev' = dev) then Some s else last_step client dev'
    | None => last_step client dev'
    end;
}.

Definition fresh_step (client : ClientAuth) (dev step : option _) : Prop :=
  forall s, step = Some s -> not_behind (last_step client dev) s.

Lemma record_accepted_spec config now q client moved :
  a_clients config !! q_client_id q = Some client ->
  exists F, o_config (record_accepted config now q moved) = update_client F (q_client_id q) config /\
    o_answer (record_accepted config now q moved) = Ok (client_acl client) /\
    client_acl (F client) = client_acl client /\ lockout (F client) = (0, None) /\
    forall dev', last_step (F client) dev' = last_step client dev'.
Proof.
  intros Hc. unfold record_accepted. set (id := q_client_id q) in *.
  destruct (match q_device_id q with None => (config, false) | Some _ => _ end)
    as [config1 device_moved] eqn:E1.
  assert (config1 = update_client (stamp now (q_device_id q)) id config) as ->.
  { unfold update_client. rewrite <- (insert_as_alter _ _ _ _ Hc). unfold stamp.
    destruct (q_device_id q) as [name|]; simplify_eq.
    - rewrite Hc in E1. by destruct (record_device_success now name client); simplify_eq.
    - by rewrite (insert_id _ _ _ Hc), with_clients_id. }
  rewrite lookup_update_client, Hc. cbn [fmap option_fmap option_map].
  destruct (stamp_keeps now (q_device_id q) client) as [Hl Ha].
  destruct (moved || _ || _) eqn:Ed; cbn [o_config o_answer].
  - exists (fun c => record_success now (stamp now (q_device_id q) c)).
    rewrite update_client_compose, lookup_update_client, Hc. cbn [fmap option_fmap option_map].
    split; [done|]. split; [by f_equal|]. split; [done|]. split; [done|]. intros dev'.
    rewrite <- (last_step_stamp now (q_device_id q) client dev'). by destruct dev'.
  - exists (stamp now (q_device_id q)). rewrite lookup_update_client, Hc.
    cbn [fmap option_fmap option_map]. rewrite Ha. split; [done|]. split; [done|]. split; [done|].
    split; [|apply last_step_stamp]. apply orb_false_iff in Ed as [_ Ed].
    apply orb_false_iff in Ed as [E2 E3]. unfold lockout. bools. rewrite E2.
    by destruct (c_locked_until (stamp now (q_device_id q) client)).
Qed.

Lemma accept_spec config now q step client :
  a_clients config !! q_client_id q = Some client -> known_device client (q_device_id q) ->
  (fresh_step client (q_device_id q) step /\
   exists F, o_config (accept config now q step) = update_client F (q_client_id q) config /\
     o_answer (accept config now q step) = Ok (client_acl client) /\
     client_after client (F client) (q_device_id q) step) \/
  (~ fresh_step client (q_device_id q) step /\
   accept config now q step = refused config false InvalidCode).
Proof.
  intros Hc Hd. unfold accept, fresh_step. destruct step as [s|].
  - destruct (config_accept_step_spec _ _ s _ _ Hc Hd) as [[Hn ->]|[Hn ->]]; [left|right].
    + split; [by intros ? [= <-]|].
      destruct (record_accepted_spec
        (update_client (set_last_step (q_device_id q) s) (q_client_id q) config) now q
        (set_last_step (q_device_id q) s client)
        (negb (bool_decide (last_step client (q_device_id q) = Some s))))
        as (F & -> & -> & Ha & Hl & Hst).
      { by rewrite lookup_update_client, Hc. }
      destruct (set_last_step_keeps (q_device_id q) s client) as [_ Hacl].
      exists (fun c => F (set_last_step (q_device_id q) s c)).
      rewrite update_client_compose, Hacl in *. split; [done|]. split; [done|].
      split; [done|done|]. intros dev'. rewrite Hst. by apply last_step_set.
    + split; [|done]. intros H. by apply Hn, H.
  - left. split; [done|]. 
    destruct (record_accepted_spec config now q client false Hc) as (F & -> & -> & Ha & Hl & Hst).
    exists F. split; [done|]. split; [done|]. by split.
Qed.

(** Clearing an expired lockout changes nothing a response is checked against. *)
Lemma refresh_keeps now c :
  is_locked_out now (refresh_lockout now c) = is_locked_out now c /\
  client_acl (refresh_lockout now c) = client_acl c /\
  (forall dev, last_step (refresh_lockout now c) dev = last_step c dev) /\
  (forall dev secret, holds_secret (refresh_lockout now c) dev secret <-> holds_secret c dev secret) /\
  (forall dev key, holds_key (refresh_lockout now c) dev key <-> holds_key c dev key).
Proof.
  unfold refresh_lockout, until_passed, is_locked_out.
  destruct (c_locked_until c) as [u|] eqn:E; [|by rewrite E].
  destruct (u <=? now) eqn:Eu; [|by rewrite E]. bools. split.
  { simpl. symmetry. apply Z.ltb_ge. lia. }
  split; [done|]. split; [by intros []|].
  split; intros dev x; split; inversion 1; simplify_eq; econstructor; eauto.
Qed.

Lemma proved_known config now c q step : proved config now c q step -> known_device c (q_device_id q).
Proof.
  intros H name Hn. unfold proved in H. rewrite Hn in H.
  destruct H as [(? & ? & H & _)|(? & ? & H & _)]; inversion H; simplify_eq; eauto.
Qed.

Inductive auth_outcome (config : AuthConfig) (now : Z) (q : AuthRequest) (c c' : ClientAuth)
    : result ClientAcl AuthError -> Prop :=
| O_accepted step :
    admissible now c q -> proved config now c q step -> fresh_step c (q_device_id q) step ->
    client_after c c' (q_device_id q) step ->
    auth_outcome config now q c c' (Ok (client_acl c))
| O_wrong :
    admissible now c q -> wrong_guess config now c q ->
    c' = record_failure now (a_max_attempts config) (a_lockout_duration config) (refresh_lockout now c) ->
    auth_outcome config now q c c' (Err InvalidCode)
| O_refused e :
    (forall step, admissible now c q -> proved config now c q step ->
       ~ fresh_step c (q_device_id q) step) ->
    ~ (admissible now c q /\ wrong_guess config now c q) ->
    c' = refresh_lockout now c ->
    auth_outcome config now q c c' (Err e).

Lemma proved_functional config now c q s1 s2 :
  proved config now c q s1 -> proved config now c q s2 -> s1 = s2.
Proof.
  intros [(x & ? & H1 & _ & (_ & _ & E1) & ->)|(k & ? & H1 & _ & _ & ->)]
         [(y & ? & H2 & _ & (_ & _ & E2) & ->)|(k' & ? & H2 & _ & _ & ->)]; try done.
  - assert (x = y) as <-; [|congruence].
    apply proof_of_secret in H1, H2. congruence.
  - apply proof_of_secret in H1. apply proof_of_key in H2. congruence.
  - apply proof_of_key in H1. apply proof_of_secret in H2. congruence.
Qed.

Lemma proved_not_wrong config now c q step :
  proved config now c q step -> ~ wrong_guess config now c q.
Proof.
  intros [(x & ? & H1 & _ & (_ & _ & E1) & ->)|(k & ? & H1 & _ & _ & ->)]
         (y & H2 & _ & (_ & _ & E2)); apply proof_of_secret in H2.
  - apply proof_of_secret in H1. assert (x = y) as <- by congruence. congruence.
  - apply proof_of_key in H1. congruence.
Qed.

(** The handler's whole effect: on the client it names, by what was shown; on
    nobody else. *)
Lemma authenticate_effect config now q c :
  a_enabled config = true -> a_clients config !! q_client_id q = Some c ->
  exists F, o_config (authenticate cr config now q) = update_client F (q_client_id q) config /\
    auth_outcome config now q c (F c) (o_answer (authenticate cr config now q)).
Proof.
  intros He Hc. unfold authenticate.
  set (config' := update_client (refresh_lockout now) (q_client_id q) config).
  assert (Hc' : a_clients config' !! q_client_id q = Some (refresh_lockout now c))
    by (unfold config'; by rewrite lookup_update_client, Hc).
  destruct (refresh_keeps now c) as (Hlk & Hacl & Hst & Hsec & Hkey).
  assert (Hadm : admissible now (refresh_lockout now c) q <-> admissible now c q)
    by (unfold admissible; by rewrite Hlk).
  assert (Hprv : forall step, proved config' now (refresh_lockout now c) q step <-> proved config now c q step)
    by (intros; unfold proved; setoid_rewrite Hsec; setoid_rewrite Hkey; done).
  assert (Hwg : wrong_guess config' now (refresh_lockout now c) q <-> wrong_guess config now c q)
    by (unfold wrong_guess; setoid_rewrite Hsec; done).
  assert (Hfr : forall step, fresh_step (refresh_lockout now c) (q_device_id q) step <->
                fresh_step c (q_device_id q) step)
    by (intros; unfold fresh_step; by rewrite Hst).
  assert (Hok := fun v => verify_response_ok config' now q v He). setoid_rewrite Hc' in Hok.
  destruct (verify_response cr config' now q) as [[step|]|e].
  - destruct (proj1 (Hok _) eq_refl) as (? & [= <-] & Ha & Hp).
    destruct (accept_spec config' now q step _ Hc' (proved_known _ _ _ _ _ Hp))
      as [[Hfresh (F & -> & -> & [H1 H2 H3])]|[Hfresh ->]].
    + exists (fun x => F (refresh_lockout now x)). unfold config'. rewrite update_client_compose.
      split; [done|]. rewrite Hacl. rewrite Hadm, Hprv, Hfr in *.
      eapply O_accepted; [done|done|done|]. split; [congruence|done|]. intros dev'. rewrite H3.
      by rewrite Hst.
    + exists (refresh_lockout now). split; [done|]. rewrite Hadm, Hprv, Hfr in *. apply O_refused; [|..|done].
      * intros s _ Hp'. by rewrite (proved_functional _ _ _ _ _ _ Hp' Hp).
      * intros [_ Hw]. by eapply proved_not_wrong.
  - destruct (proj1 (Hok _) eq_refl) as (? & [= <-] & Ha & Hw). eexists. unfold config'.
    cbn [refused o_config o_answer]. rewrite update_client_compose. split; [reflexivity|].
    rewrite Hadm, Hwg in *. by apply O_wrong.
  - exists (refresh_lockout now). split; [done|]. apply O_refused; [|..|done].
    + intros s Ha Hp. assert (@Err Verified AuthError e = Ok (VAccepted s)); [|done]. apply Hok. eexists.
      split; [done|]. by rewrite Hadm, Hprv.
    + intros [Ha Hw]. assert (@Err Verified AuthError e = Ok WrongCode); [|done]. apply Hok. eexists.
      split; [done|]. by rewrite Hadm, Hwg.
Qed.

Lemma authenticate_unknown config now q :
  a_enabled config = true -> a_clients config !! q_client_id q = None ->
  o_answer (authenticate cr config now q) = Err ClientNotFound.
Proof.
  intros He Hc. unfold authenticate, verify_response.
  change (a_enabled (update_client _ _ config)) with (a_enabled config).
  rewrite He, lookup_update_client, Hc. done.
Qed.

(** The handler touches the client a response names, and nothing else. *)
Lemma authenticate_frame config now q :
  a_enabled config = true ->
  exists F, o_config (authenticate cr config now q) = update_client F (q_client_id q) config.
Proof.
  intros He. destruct (a_clients config !! q_client_id q) as [c|] eqn:Hc.
  - destruct (authenticate_effect config now q c He Hc) as (F & ? & _). eauto.
  - exists (refresh_lockout now). unfold authenticate, verify_response.
    change (a_enabled (update_client _ _ config)) with (a_enabled config).
    by rewrite He, lookup_update_client, Hc.
Qed.

Lemma lookup_update_client_ne f id id' config :
  id <> id' -> a_clients (update_client f id config) !! id' = a_clients config !! id'.
Proof. apply lookup_alter_ne. Qed.

Lemma authenticate_ok_iff config now q acl :
  a_enabled config = true ->
  o_answer (authenticate cr config now q) = Ok acl <->
  exists c step, a_clients config !! q_client_id q = Some c /\ admissible now c q /\
    proved config now c q step /\ fresh_step c (q_device_id q) step /\ acl = client_acl c.
Proof.
  intros He. destruct (a_clients config !! q_client_id q) as [c|] eqn:Hc.
  - destruct (authenticate_effect config now q c He Hc) as (F & _ & Ho). split.
    + intros Hok. rewrite Hok in Ho. inversion Ho; simplify_eq. eauto 8.
    + intros (? & step & [= <-] & Ha & Hp & Hf & ->). inversion Ho as [| |e Hn]; simplify_eq.
      * done.
      * exfalso. by eapply proved_not_wrong.
      * by destruct (Hn step).
  - rewrite authenticate_unknown by done. split; [done|]. by intros (? & ? & ? & _).
Qed.

(** C1: who is let in.  With authentication on, the handler answers [Ok] exactly
    when the client is configured and not locked out, the timestamp is within
    the window, the response is proven by what the server holds for whoever
    answered (the client's own secret where an unnamed device is allowed, the
    named device's secret, or its key), over this connection's challenge, and
    the code's step is not behind the last one accepted; and what is granted is
    that client's access list. *)
Theorem authenticate_iff config now q acl :
  a_enabled config = true ->
  o_answer (authenticate cr config now q) = Ok acl <->
  exists c step, a_clients config !! q_client_id q = Some c /\ admissible now c q /\
    proved config now c q step /\ fresh_step c (q_device_id q) step /\ acl = client_acl c.
Proof. apply authenticate_ok_iff. Qed.

(** C6: an attacker without the secret cannot lock a client out, and cannot
    unlock one.  Whatever response is processed, a client's failure counter and
    lockout stay as they are, except that an expired lockout is cleared, an
    accepted response clears both, and a response that is validly signed with
    the secret held for it, but carries a wrong code, counts one failure.  In
    particular no other client is ever touched. *)
Theorem lockout_only_by_signed_guess config now q id c :
  a_enabled config = true -> a_clients config !! id = Some c ->
  exists c', a_clients (o_config (authenticate cr config now q)) !! id = Some c' /\
    (lockout c' = lockout c \/
     (id = q_client_id q /\
      ((until_passed now (c_locked_until c) = true /\ lockout c' = (0, None)) \/
       ((exists acl, o_answer (authenticate cr config now q) = Ok acl) /\ lockout c' = (0, None)) \/
       (admissible now c q /\ wrong_guess config now c q /\
        lockout c' = lockout (record_failure now (a_max_attempts config)
                                (a_lockout_duration config) (refresh_lockout now c)))))).
Proof.
  intros He Hc. destruct (decide (id = q_client_id q)) as [->|Hne].
  - destruct (authenticate_effect config now q c He Hc) as (F & HF & Ho).
    rewrite HF, lookup_update_client, Hc. exists (F c). split; [done|].
    inversion Ho as [step Ha Hp Hf [_ Hl _]|Ha Hw Hl|e _ _ Hl]; simplify_eq.
    + right. eauto 8.
    + right. rewrite Hl. eauto 8.
    + rewrite Hl. unfold refresh_lockout. destruct (until_passed _ _) eqn:E; [right|by left].
      split; [done|]. by left.
  - destruct (authenticate_frame config now q He) as [F HF].
    rewrite HF, lookup_update_client_ne by done. exists c. auto.
Qed.

(** ** How many guesses an attacker gets *)

Definition is_wrong_guess (config : AuthConfig) (now : Z) (q : AuthRequest) : bool :=
  match verify_response cr (update_client (refresh_lockout now) (q_client_id q) config) now q with
  | Ok WrongCode => true
  | _ => false
  end.

(** The wrong codes that were checked for [id] in a run of requests. *)
Fixpoint guesses (id : bytes) (config : AuthConfig) (qs : list (Z * AuthRequest)) : Z :=
  match qs with
  | [] => 0
  | (now, q) :: qs =>
      (if bool_decide (q_client_id q = id) && is_wrong_guess config now q then 1 else 0)
      + guesses id (o_config (authenticate cr config now q)) qs
  end.

Fixpoint never_accepted (id : bytes) (config : AuthConfig) (qs : list (Z * AuthRequest)) : Prop :=
  match qs with
  | [] => True
  | (now, q) :: qs =>
      (q_client_id q = id -> is_ok (o_answer (authenticate cr config now q)) = false) /\
      never_accepted id (o_config (authenticate cr config now q)) qs
  end.

Lemma is_wrong_guess_iff config now q c :
  a_enabled config = true -> a_clients config !! q_client_id q = Some c ->
  is_wrong_guess config now q = true <-> admissible now c q /\ wrong_guess config now c q.
Proof.
  intros He Hc. unfold is_wrong_guess.
  set (config' := update_client (refresh_lockout now) (q_client_id q) config).
  pose proof (verify_response_ok config' now q WrongCode He) as Hok.
  unfold config' in Hok at 2. rewrite lookup_update_client, Hc in Hok.
  destruct (refresh_keeps now c) as (Hlk & _ & _ & Hsec & _).
  assert (verify_response cr config' now q = Ok WrongCode <->
          admissible now c q /\ wrong_guess config now c q) as H.
  { rewrite Hok. unfold admissible, wrong_guess. split.
    - intros (? & [= <-] & Ha & Hw). rewrite Hlk in Ha. setoid_rewrite Hsec in Hw. done.
    - intros [Ha Hw]. eexists. split; [done|]. rewrite Hlk. setoid_rewrite Hsec. done. }
  rewrite <- H. by destruct (verify_response cr config' now q) as [[|]|].
Qed.

Lemma locked_no_guesses id config qs c u :
  a_enabled config = true -> a_clients config !! id = Some c -> c_locked_until c = Some u ->
  Forall (fun tq => tq.1 < u) qs -> guesses id config qs = 0.
Proof.
  revert config c. induction qs as [|[now q] qs IH]; intros config c He Hc Hu Ht; [done|].
  apply Forall_cons in Ht as [Hnow Ht]. cbn [guesses fst] in *.
  assert (is_locked_out now c = true) as Hl by (unfold is_locked_out; rewrite Hu; by apply Z.ltb_lt).
  case_bool_decide as Eid; cbn [andb].
  - subst id. destruct (is_wrong_guess config now q) eqn:Ew.
    { apply (is_wrong_guess_iff _ _ _ _ He Hc) in Ew as [[Ha _] _]. congruence. }
    destruct (authenticate_effect config now q c He Hc) as (F & HF & Ho).
    assert (F c = c) as HFc.
    { inversion Ho as [? [Ha _]|[Ha _]|e _ _ Hr]; simplify_eq; try congruence.
      rewrite Hr. unfold refresh_lockout, until_passed. rewrite Hu.
      by rewrite (proj2 (Z.leb_gt _ _)). }
    rewrite (IH _ c); [done| |rewrite HF, lookup_update_client, Hc; simpl; by rewrite HFc|done|done].
    by rewrite HF.
  - destruct (authenticate_frame config now q He) as [F HF].
    rewrite (IH _ c); [done| |by rewrite HF, lookup_update_client_ne|done|done]. by rewrite HF.
Qed.

(** C5: guessing is bounded.  Take a client that is not locked out and has [f]
    failures on record.  However many requests arrive within one lockout period,
    for this client and for others, in whatever order the clock shows them, as
    long as none of them is accepted for this client, at most [max_attempts - f]
    wrong codes of it are checked: after that every response is turned away
    without its code being looked at. *)
Theorem guesses_bounded id config qs c t0 :
  a_enabled config = true -> a_clients config !! id = Some c ->
  c_locked_until c = None -> 0 <= c_failed_attempts c < a_max_attempts config ->
  a_max_attempts config < 2 ^ 32 ->
  Forall (fun tq => t0 <= tq.1 < t0 + a_lockout_duration config /\
                    0 <= tq.1 + a_lockout_duration config < 2 ^ 64) qs ->
  never_accepted id config qs ->
  guesses id config qs <= a_max_attempts config - c_failed_attempts c.
Proof.
  revert config c. induction qs as [|[now q] qs IH]; intros config c He Hc Hn Hf Hm Ht Hna;
    [simpl; lia|].
  apply Forall_cons in Ht as [[Hnow Hov] Ht]. cbn [guesses never_accepted fst] in *.
  destruct Hna as [Hna Hrest]. case_bool_decide as Eid; cbn [andb].
  - subst id. specialize (Hna eq_refl).
    assert (refresh_lockout now c = c) as Hr by (unfold refresh_lockout; by rewrite Hn).
    destruct (authenticate_effect config now q c He Hc) as (F & HF & Ho).
    assert (Hc' : a_clients (o_config (authenticate cr config now q)) !! q_client_id q = Some (F c))
      by by rewrite HF, lookup_update_client, Hc.
    inversion Ho as [s Ha Hp Hfr Hca Hans|Ha Hw HFc Hans|e _ Hw HFc Hans];
      rewrite <- Hans in Hna; [done|..]; rewrite Hr in HFc; rewrite HF in *.
    + rewrite (proj2 (is_wrong_guess_iff _ _ _ _ He Hc)) by done.
      unfold record_failure in HFc. rewrite wrapping_small in HFc by (unfold is_uint; lia).
      destruct (_ <=? _) eqn:E; bools.
      * erewrite (locked_no_guesses _ _ _ (F c)); [lia|done|done|by rewrite HFc|].
        eapply Forall_impl; [exact Ht|]. intros [t ?] [? _]. cbn [fst] in *.
        rewrite wrapping_small by (unfold is_uint; lia). lia.
      * assert (Hl : lockout (F c) = (c_failed_attempts c + 1, None)) by by rewrite HFc, <- Hn.
        injection Hl as Hl1 Hl2.
        specialize (IH (update_client F (q_client_id q) config) (F c) He Hc' Hl2).
        change (a_max_attempts (update_client F _ config)) with (a_max_attempts config) in IH.
        specialize (IH ltac:(lia) Hm Ht Hrest). lia.
    + destruct (is_wrong_guess config now q) eqn:Ew.
      { by apply (is_wrong_guess_iff _ _ _ _ He Hc) in Ew. }
      specialize (IH (update_client F (q_client_id q) config) c He ltac:(by rewrite Hc', HFc)
        Hn Hf Hm Ht Hrest).
      change (a_max_attempts (update_client F _ config)) with (a_max_attempts config) in IH. lia.
  - destruct (authenticate_frame config now q He) as [F HF]. rewrite HF in *.
    specialize (IH (update_client F (q_client_id q) config) c He
      ltac:(by rewrite lookup_update_client_ne) Hn Hf Hm Ht Hrest).
    change (a_max_attempts (update_client F _ config)) with (a_max_attempts config) in IH. lia.
Qed.

(** ** Steps over a run *)

Lemma authenticate_last_step config now q id c dev s :
  a_enabled config = true -> a_clients config !! id = Some c -> last_step c dev = Some s ->
  exists c', a_clients (o_config (authenticate cr config now q)) !! id = Some c' /\
    exists s', last_step c' dev = Some s' /\ s <= s'.
Proof.
  intros He Hc Hs. destruct (decide (id = q_client_id q)) as [->|Hne].
  - destruct (authenticate_effect config now q c He Hc) as (F & HF & Ho).
    rewrite HF, lookup_update_client, Hc. exists (F c). split; [done|].
    inversion Ho as [step Ha Hp Hf [_ _ Hst]|Ha Hw HFc|e _ _ HFc].
    + rewrite Hst. destruct step as [t|]; [|eauto with lia].
      case_bool_decide as E; [subst dev|eauto with lia].
      exists t. split; [done|]. by apply (Hf t eq_refl).
    + exists s. rewrite HFc. destruct (refresh_keeps now c) as (_ & _ & Hst & _).
      split; [|lia]. rewrite <- Hs, <- Hst. by destruct dev.
    + exists s. rewrite HFc. destruct (refresh_keeps now c) as (_ & _ & Hst & _).
      rewrite Hst. split; [done|lia].
  - destruct (authenticate_frame config now q He) as [F HF].
    rewrite HF, lookup_update_client_ne by done. exists c. eauto with lia.
Qed.

Lemma serve_last_step config qs id c dev s :
  a_enabled config = true -> a_clients config !! id = Some c -> last_step c dev = Some s ->
  a_enabled (serve cr config qs).1 = true /\
  exists c', a_clients (serve cr config qs).1 !! id = Some c' /\
    exists s', last_step c' dev = Some s' /\ s <= s'.
Proof.
  revert config c s. induction qs as [|[now q] qs IH]; intros config c s He Hc Hs; simpl.
  { split; [done|]. eauto with lia. }
  destruct (authenticate_last_step config now q id c dev s He Hc Hs) as (c1 & Hc1 & s1 & Hs1 & Hle).
  destruct (authenticate_frame config now q He) as [F HF].
  assert (a_enabled (o_config (authenticate cr config now q)) = true) as He1 by by rewrite HF.
  destruct (IH _ c1 s1 He1 Hc1 Hs1) as (He2 & c2 & Hc2 & s2 & Hs2 & Hle2).
  destruct (serve cr (o_config (authenticate cr config now q)) qs) as [config2 answers].
  split; [done|]. exists c2. split; [done|]. exists s2. split; [done|lia].
Qed.

(** an earlier code never works again.  Once a code of step [s] was accepted
    from a client or one of its devices, no response from the same one whose
    code belongs to an earlier step is accepted, however many requests of
    anybody were served in between, whatever the clock says, and even though
    the code may still be inside the acceptance window. *)
Theorem earlier_step_refused config now q acl c s qs config' now' q' c' s' :
  a_enabled config = true -> a_clients config !! q_client_id q = Some c ->
  proved config now c q (Some s) -> o_answer (authenticate cr config now q) = Ok acl ->
  config' = (serve cr (o_config (authenticate cr config now q)) qs).1 ->
  q_client_id q' = q_client_id q -> q_device_id q' = q_device_id q ->
  a_clients config' !! q_client_id q' = Some c' -> proved config' now' c' q' (Some s') -> s' < s ->
  is_ok (o_answer (authenticate cr config' now' q')) = false.
Proof.
  intros He Hc Hp Hok -> Hid Hdev Hc' Hp' Hlt.
  destruct (authenticate_effect config now q c He Hc) as (F & HF & Ho).
  rewrite Hok in Ho. inversion Ho as [step Ha Hp1 Hf [_ _ Hst] Hacl| |]; subst.
  rewrite (proved_functional _ _ _ _ _ _ Hp1 Hp) in Hst. specialize (Hst (q_device_id q)).
  rewrite bool_decide_eq_true_2 in Hst by done.
  destruct (serve_last_step (o_config (authenticate cr config now q)) qs (q_client_id q) (F c)
    (q_device_id q) s) as (He2 & c2 & Hc2 & s2 & Hs2 & Hle);
    [by rewrite HF|by rewrite HF, lookup_update_client, Hc|done|].
  rewrite Hid, Hc2 in Hc'. injection Hc' as ->.
  destruct (authenticate_effect _ now' q' c' He2) as (F' & _ & Ho'); [by rewrite Hid|].
  inversion Ho' as [step' Ha' Hp2 Hf'| |]; [|done..].
  assert (step' = Some s') as -> by by eapply proved_functional.
  specialize (Hf' s' eq_refl s2). rewrite Hdev in Hf'. specialize (Hf' Hs2). lia.
Qed.
End Proofs.

(** ** A worked example *)

(** Toy primitives: the tag of a message is the key in front of it, and the
    code of a step is the step's number in decimal. *)
Definition toy_crypto : Crypto := {|
  PublicKey := bytes;
  Signature := bytes;
  base32_decode := Some;
  hex_decode := Some;
  public_key_from_bytes := Some;
  signature_try_from := Some;
  key_verify := fun key msg sig => bool_decide (sig = key ++ msg);
  hmac_sha256 := fun key msg => Ok (key ++ msg);
  totp_check := fun _ _ window step_len _ code now =>
    let at_ := now / step_len in
    Ok (List.find (fun s => bool_decide (code = show_uint s)) [at_ - 1; at_; at_ + 1]);
|}.

Definition toy_client : ClientAuth := {|
  c_secret := lit "AAAA"; c_created_at := []; c_allow_hosts := None; c_allow_ports := None;
  c_allow_ports_strict := false; c_pending_enrollment := None; c_devices := ∅;
  c_unnamed_device_allowed := true; c_last_used := None; c_last_used_step := None;
  c_failed_attempts := 0; c_locked_until := None; c_enrollment_failed_attempts := 0;
  c_enrollment_locked_until := None |}.

Definition toy_config : AuthConfig := {|
  a_enabled := true; a_issuer := []; a_algorithm := SHA1; a_time_step := 30; a_digits := 6;
  a_window := 1; a_clients := {[lit "alice" := toy_client]}; a_max_attempts := 2;
  a_lockout_duration := 300 |}.

Definition toy_request (timestamp : Z) (code : bytes) : AuthRequest := {|
  q_client_id := lit "alice"; q_device_id := None; q_nonce := [1; 2; 3]; q_timestamp := timestamp;
  q_signature := lit "AAAA" ++ challenge_message [1; 2; 3] timestamp; q_code := code |}.

Lemma toy_proved config c timestamp code step :
  decode_base32_secret (base32_decode toy_crypto) (c_secret c) = Some (lit "AAAA") ->
  c_unnamed_device_allowed c = true ->
  code_step toy_crypto config timestamp (toy_request timestamp code) (lit "AAAA") (Some step) ->
  proved toy_crypto config timestamp c (toy_request timestamp code) (Some step).
Proof.
  intros Hs Hu Hc. left. exists (lit "AAAA"), step. split; [by constructor|].
  split; [reflexivity|]. split; [exact Hc|reflexivity].
Qed.

Lemma authenticate_iff_witness :
  o_answer (authenticate toy_crypto toy_config 600 (toy_request 600 (show_uint 20))) =
  Ok (client_acl toy_client).
Proof.
  apply (authenticate_iff toy_crypto); [reflexivity|].
  exists toy_client, (Some 20). split; [vm_compute; reflexivity|].
  split; [split; [reflexivity|vm_compute; discriminate]|].
  split; [|split; [intros s _ p E; discriminate E|reflexivity]].
  apply toy_proved; [vm_compute; reflexivity|reflexivity|].
  split; [vm_compute; discriminate|]. split; [vm_compute; discriminate|]. vm_compute. reflexivity.
Defined.

Lemma lockout_only_by_signed_guess_witness :
  exists c', a_clients (o_config (authenticate toy_crypto toy_config 600
      (toy_request 600 (lit "999999")))) !! lit "alice" = Some c' /\ c_failed_attempts c' = 1.
Proof.
  destruct (lockout_only_by_signed_guess toy_crypto toy_config 600 (toy_request 600 (lit "999999"))
    (lit "alice") toy_client eq_refl ltac:(vm_compute; reflexivity)) as (c' & Hc & _).
  exists c'. split; [exact Hc|]. vm_compute in Hc. by injection Hc as <-.
Defined.

Lemma guesses_bounded_witness :
  guesses toy_crypto (lit "alice") toy_config
    [(600, toy_request 600 (lit "1")); (601, toy_request 601 (lit "2"));
     (602, toy_request 602 (lit "3"))] <= 2 /\
  guesses toy_crypto (lit "alice") toy_config
    [(600, toy_request 600 (lit "1")); (601, toy_request 601 (lit "2"));
     (602, toy_request 602 (lit "3"))] = 2.
Proof.
  split; [|vm_compute; reflexivity].
  apply (guesses_bounded toy_crypto (lit "alice") toy_config _ toy_client 600).
  - reflexivity.
  - vm_compute. reflexivity.
  - reflexivity.
  - vm_compute. split; [discriminate|reflexivity].
  - vm_compute. reflexivity.
  - rewrite !Forall_cons, Forall_nil. vm_compute. repeat split; discriminate.
  - vm_compute. repeat split; reflexivity.
Defined.

Lemma earlier_step_refused_witness :
  is_ok (o_answer (authenticate toy_crypto
    (o_config (authenticate toy_crypto toy_config 600 (toy_request 600 (show_uint 20)))) 601
    (toy_request 601 (show_uint 19)))) = false.
Proof.
  eapply (earlier_step_refused toy_crypto toy_config 600 (toy_request 600 (show_uint 20))
    (client_acl toy_client) toy_client 20 []
    (o_config (authenticate toy_crypto toy_config 600 (toy_request 600 (show_uint 20))))
    601 (toy_request 601 (show_uint 19)) _ 19).
  - reflexivity.
  - vm_compute. reflexivity.
  - apply toy_proved; [vm_compute; reflexivity|reflexivity|].
    split; [vm_compute; discriminate|]. split; [vm_compute; discriminate|]. vm_compute. reflexivity.
  - vm_compute. reflexivity.
  - reflexivity.
  - reflexivity.
  - reflexivity.
  - vm_compute. reflexivity.
  - apply toy_proved; [vm_compute; reflexivity|reflexivity|].
    split; [vm_compute; discriminate|]. split; [vm_compute; discriminate|]. vm_compute. reflexivity.
  - reflexivity.
Defined.
