(* ===== verification/Enrollment.v ===== *)
(** * Enrolling a device (nexapipe/src/conn/auth/enrollment.rs, and
    [public_key_hex] of nexapipe/src/auth/device_key.rs).

    An invitation carries a client's one-time token; the first client that
    presents it is issued a credential, a fresh secret or the key it offers, and
    the token is dropped in the same write.  The handler runs under the write
    lock of the configuration, so it is one function of it; the secret it mints,
    the date it stamps and what the storage answers are arguments, and the
    hexadecimal spelling of a key is a parameter.

    The file shows that a token is spent once and by whoever holds it, that no
    enrollment touches a credential that is not its own, and that a refused or
    failed one leaves every credential as it was. *)

From S2P Require Import Prelude RustStd AuthCodec AuthConfig Authenticator.

(** ** The verdict *)

Inductive EnrollmentVerdict := EV_Accept | EV_Refuse (counted : bool).

Definition verdict_counted (v : EnrollmentVerdict) : bool :=
  match v with EV_Refuse true => true | _ => false end.

Inductive EnrollmentSlot :=
| SlotDevice (name : bytes) (previous : option DeviceAuth)
| SlotShared (previous : bytes).

Inductive IssuedCredential :=
| DeviceSecret (name secret : bytes)
| DeviceKey (name key : bytes)
| SharedSecret (secret : bytes).

(** Why the client is told it failed: the one answer every refusal of a token
    has, the two requests that cannot be recorded, and a write that failed. *)
Inductive EnrollRefusal := NotAccepted | KeyNeedsName | BadKey | NotSaved (error : bytes).

Inductive EnrollReply := ReplyIssue (message : AuthMessage) | ReplyFailed (why : EnrollRefusal).

(** What the handler leaves behind: the configuration, the reply, whether the
    counters are written, and what the configuration file was told to record. *)
Record Enrolled := {
  en_config : AuthConfig;
  en_reply : EnrollReply;
  en_dirty : bool;
  en_recorded : option IssuedCredential;
}.

Definition client_with_secret (secret : bytes) (pending : option bytes)
    (devices : gmap bytes DeviceAuth) (c : ClientAuth) : ClientAuth := {|
  c_secret := secret; c_created_at := c_created_at c; c_allow_hosts := c_allow_hosts c;
  c_allow_ports := c_allow_ports c; c_allow_ports_strict := c_allow_ports_strict c;
  c_pending_enrollment := pending; c_devices := devices;
  c_unnamed_device_allowed := c_unnamed_device_allowed c;
  c_last_used := c_last_used c; c_last_used_step := c_last_used_step c;
  c_failed_attempts := c_failed_attempts c; c_locked_until := c_locked_until c;
  c_enrollment_failed_attempts := c_enrollment_failed_attempts c;
  c_enrollment_locked_until := c_enrollment_locked_until c |}.

Section Enroll.
Variable cr : Crypto.
Variable public_key_hex : PublicKey cr -> bytes.

Definition holds_the_key_on_file (entry : DeviceAuth) (offered : option bytes) : bool :=
  match offered with
  | None => false
  | Some offered =>
      match d_public_key entry with
      | None => false
      | Some stored =>
          match parse_public_key cr offered with
          | None => false
          | Some offered => constant_time_eq stored (public_key_hex offered)
          end
      end
  end.

Definition enrollment_verdict (cfg : AuthConfig) (now : Z) (client_id token : bytes)
    (device public_key : option bytes) : EnrollmentVerdict :=
  match a_clients cfg !! client_id with
  | None => EV_Refuse false
  | Some client =>
      if is_locked_out now client then EV_Refuse false
      else if is_enrollment_locked_out now client then EV_Refuse false
      else
        match c_pending_enrollment client with
        | None => EV_Refuse false
        | Some expected =>
            if bool_decide (expected = []) then EV_Refuse false
            else if negb (constant_time_eq expected token) then EV_Refuse true
            else if match device with
                    | None => false
                    | Some name =>
                        match c_devices client !! name with
                        | None => false
                        | Some entry => negb (holds_the_key_on_file entry public_key)
                        end
                    end
            then EV_Refuse false
            else EV_Accept
        end
  end.

(** ** Issuing and undoing *)

Definition new_device (created_at secret : bytes) (key : option bytes) : DeviceAuth := {|
  d_secret := secret; d_public_key := key; d_created_at := created_at;
  d_last_used := None; d_last_used_step := None |}.

Definition issue_enrolled_secret (created_at client_id : bytes) (issued : IssuedCredential)
    (cfg : AuthConfig) : AuthConfig * EnrollmentSlot :=
  match a_clients cfg !! client_id with
  | None => (cfg, SlotShared [])
  | Some client =>
      let '(client, slot) :=
        match issued with
        | DeviceSecret name secret =>
            (client_with_secret (c_secret client) None
               (<[name := new_device created_at secret None]> (c_devices client)) client,
             SlotDevice name (c_devices client !! name))
        | DeviceKey name key =>
            (client_with_secret (c_secret client) None
               (<[name := new_device created_at [] (Some key)]> (c_devices client)) client,
             SlotDevice name (c_devices client !! name))
        | SharedSecret secret =>
            (client_with_secret secret None (c_devices client) client,
             SlotShared (c_secret client))
        end in
      (with_clients (<[client_id := client]> (a_clients cfg)) cfg, slot)
  end.

Definition undo_enrolled_secret (client_id : bytes) (slot : EnrollmentSlot) (token : bytes)
    (cfg : AuthConfig) : AuthConfig :=
  update_client (fun client =>
    match slot with
    | SlotDevice name (Some previous) =>
        client_with_secret (c_secret client) (Some token) (<[name := previous]> (c_devices client)) client
    | SlotDevice name None =>
        client_with_secret (c_secret client) (Some token) (delete name (c_devices client)) client
    | SlotShared previous =>
        client_with_secret previous (Some token) (c_devices client) client
    end) client_id cfg.

Definition count_enrollment_failure (now max_attempts lockout_duration : Z) (client_id : bytes)
    (cfg : AuthConfig) : AuthConfig :=
  update_client (record_enrollment_failure now max_attempts lockout_duration) client_id cfg.

(** ** The handler *)

(** Which credential a request is for, or why it cannot be recorded. *)
Definition credential_for (secret : bytes) (device public_key : option bytes)
    : result IssuedCredential EnrollRefusal :=
  match public_key with
  | None =>
      match device with
      | Some name => Ok (DeviceSecret name secret)
      | None => Ok (SharedSecret secret)
      end
  | Some offered =>
      match device with
      | None => Err KeyNeedsName
      | Some name =>
          match parse_public_key cr offered with
          | None => Err BadKey
          | Some key => Ok (DeviceKey name (public_key_hex key))
          end
      end
  end.

(** The message that hands the credential over. *)
Definition enroll_issue (cfg : AuthConfig) (client_id : bytes) (issued : IssuedCredential) : AuthMessage :=
  let '(secret, device_id) :=
    match issued with
    | DeviceSecret name secret => (secret, Some name)
    | DeviceKey name _ => ([], Some name)
    | SharedSecret secret => (secret, None)
    end in
  EnrollIssue client_id secret (algorithm_of (a_algorithm cfg)) (a_digits cfg) (a_time_step cfg) device_id.

Definition failed (cfg : AuthConfig) (why : EnrollRefusal) (dirty : bool)
    (recorded : option IssuedCredential) : Enrolled :=
  {| en_config := cfg; en_reply := ReplyFailed why; en_dirty := dirty; en_recorded := recorded |}.

(** The branch of an accepted token: the credential is recorded before
    anything is promised, and taken back when it could not be. *)
Definition enroll_accepted (cfg : AuthConfig) (now : Z) (created_at secret client_id token : bytes)
    (device public_key : option bytes) (saved : result unit bytes) : Enrolled :=
  match credential_for secret device public_key with
  | Err why => failed cfg why false None
  | Ok issued =>
      let '(cfg, slot) := issue_enrolled_secret created_at client_id issued cfg in
      match saved with
      | Err e => failed (undo_enrolled_secret client_id slot token cfg) (NotSaved e) false (Some issued)
      | Ok _ =>
          let dirty := match a_clients cfg !! client_id with
                       | Some c => negb (c_failed_attempts c =? 0) || is_some (c_locked_until c)
                                   || negb (c_enrollment_failed_attempts c =? 0)
                                   || is_some (c_enrollment_locked_until c)
                       | None => false
                       end in
          let cfg := if dirty
                     then update_client (fun c => record_enrollment_success (record_success now c))
                            client_id cfg
                     else cfg in
          {| en_config := cfg; en_reply := ReplyIssue (enroll_issue cfg client_id issued);
             en_dirty := dirty; en_recorded := Some issued |}
      end
  end.

Definition enroll_client (cfg : AuthConfig) (now : Z) (created_at secret client_id token : bytes)
    (device public_key : option bytes) (saved : result unit bytes) : Enrolled :=
  let cfg := update_client (fun c => refresh_enrollment_lockout now (refresh_lockout now c))
               client_id cfg in
  match enrollment_verdict cfg now client_id token device public_key with
  | EV_Accept => enroll_accepted cfg now created_at secret client_id token device public_key saved
  | v =>
      let cfg := if verdict_counted v
                 then count_enrollment_failure now (a_max_attempts cfg) (a_lockout_duration cfg) client_id cfg
                 else cfg in
      failed cfg NotAccepted (verdict_counted v) None
  end.

(** ** What the verdict depends on *)

(** What a client can prove itself with, and the token it is waiting on. *)
Definition credentials (c : ClientAuth) : bytes * option bytes * gmap bytes DeviceAuth :=
  (c_secret c, c_pending_enrollment c, c_devices c).

(** The client as the handler sees it: lockouts that ran out are dropped. *)
Definition refreshed (now : Z) (c : ClientAuth) : ClientAuth :=
  refresh_enrollment_lockout now (refresh_lockout now c).

Definition waiting (now : Z) (c : ClientAuth) (token : bytes) : Prop :=
  is_locked_out now c = false /\ is_enrollment_locked_out now c = false /\
  c_pending_enrollment c = Some token /\ token <> [].

Lemma refreshed_credentials now c : credentials (refreshed now c) = credentials c.
Proof.
  unfold refreshed, refresh_enrollment_lockout, refresh_lockout. by repeat case_match.
Qed.

(** The branches that refuse: the left-hand side is false, and so is the right. *)
Ltac unpack := repeat match goal with
  | H : ex _ |- _ => destruct H
  | H : _ /\ _ |- _ => destruct H
  end.
Ltac refuses := split; [done|]; intros; unpack; congruence.

Lemma verdict_accept cfg now id token device public_key :
  enrollment_verdict cfg now id token device public_key = EV_Accept <->
  exists client, a_clients cfg !! id = Some client /\ waiting now client token /\
    forall name entry, device = Some name -> c_devices client !! name = Some entry ->
      holds_the_key_on_file entry public_key = true.
Proof.
  unfold enrollment_verdict, waiting. destruct (a_clients cfg !! id) as [client|]; [|refuses].
  destruct (is_locked_out now client) eqn:E1; [refuses|].
  destruct (is_enrollment_locked_out now client) eqn:E2; [refuses|].
  destruct (c_pending_enrollment client) as [expected|] eqn:E3; [|refuses].
  case_bool_decide as E4; [refuses|].
  destruct (constant_time_eq expected token) eqn:E5; cbn [negb].
  - apply constant_time_eq_spec in E5 as ->. destruct device as [name|]; [|split; [|done]; intros _; by exists client].
    destruct (c_devices client !! name) as [entry|] eqn:E6; [|split; [|done]; intros _; exists client; split_and!; try done; congruence].
    destruct (holds_the_key_on_file entry public_key) eqn:E7; cbn [negb].
    2:{ split; [done|]. intros (c & [= <-] & _ & H). by rewrite (H name entry) in E7. }
    split; [|done]. intros _. exists client. split; [done|]. split; [done|]. naive_solver.
  - split; [done|]. intros (c & [= <-] & (_ & _ & Hp & _) & _). assert (expected = token) as -> by congruence.
    assert (constant_time_eq token token = true) by by apply constant_time_eq_spec. congruence.
Qed.

Lemma verdict_counts cfg now id token device public_key :
  verdict_counted (enrollment_verdict cfg now id token device public_key) = true <->
  exists client expected, a_clients cfg !! id = Some client /\ waiting now client expected /\
    expected <> token.
Proof.
  unfold enrollment_verdict, waiting. destruct (a_clients cfg !! id) as [client|]; [|refuses].
  destruct (is_locked_out now client) eqn:E1; [refuses|].
  destruct (is_enrollment_locked_out now client) eqn:E2; [refuses|].
  destruct (c_pending_enrollment client) as [expected|] eqn:E3; [|refuses].
  case_bool_decide as E4; [refuses|].
  destruct (constant_time_eq expected token) eqn:E5; cbn [negb].
  - apply constant_time_eq_spec in E5 as ->. split; [by repeat case_match|].
    intros. unpack. congruence.
  - split; [|done]. intros _. exists client, expected. split; [done|]. split; [done|].
    intros ->. assert (constant_time_eq token token = true) by by apply constant_time_eq_spec.
    congruence.
Qed.

(** ** Issuing and undoing cancel out *)

Lemma issue_undo created_at id issued token cfg client :
  a_clients cfg !! id = Some client -> c_pending_enrollment client = Some token ->
  undo_enrolled_secret id (issue_enrolled_secret created_at id issued cfg).2 token
    (issue_enrolled_secret created_at id issued cfg).1 = cfg.
Proof.
  intros Hc Hp. unfold issue_enrolled_secret, undo_enrolled_secret, update_client. rewrite Hc.
  destruct cfg as [en iss al ts dg wi cs ma ld]. cbn in Hc.
  destruct issued as [name secret|name key|secret]; cbn;
    [destruct (c_devices client !! name) eqn:E..|]; unfold with_clients; cbn; f_equal;
    rewrite alter_insert_eq; apply insert_id; rewrite Hc; f_equal; destruct client; cbn in *; subst;
    unfold client_with_secret; cbn; f_equal;
    symmetry; [rewrite insert_insert_eq; by apply insert_id|by apply delete_insert_id|
      rewrite insert_insert_eq; by apply insert_id|by apply delete_insert_id].
Qed.

(** ** Outcomes *)

(** The handler's view of the configuration, after the refresh. *)
Definition refresh_config (now : Z) (id : bytes) (cfg : AuthConfig) : AuthConfig :=
  update_client (refreshed now) id cfg.

Lemma refresh_config_lookup now id cfg :
  a_clients (refresh_config now id cfg) !! id = refreshed now <$> a_clients cfg !! id.
Proof. unfold refresh_config, update_client. cbn. by rewrite lookup_alter_eq. Qed.

Lemma update_client_lookup_ne f id id' cfg :
  id' <> id -> a_clients (update_client f id cfg) !! id' = a_clients cfg !! id'.
Proof. intros H. unfold update_client. cbn. by rewrite lookup_alter_ne. Qed.

(** What a failed enrollment may have done to the client it named. *)
Definition only_counted (now max_attempts lockout_duration : Z) (dirty : bool) (c : ClientAuth)
    : ClientAuth :=
  if dirty then record_enrollment_failure now max_attempts lockout_duration (refreshed now c)
  else refreshed now c.

Lemma enroll_failed_config cfg now created_at secret id token device public_key saved why :
  let o := enroll_client cfg now created_at secret id token device public_key saved in
  en_reply o = ReplyFailed why ->
  en_config o = update_client (only_counted now (a_max_attempts cfg) (a_lockout_duration cfg) (en_dirty o))
                  id cfg /\
  (en_dirty o = true <-> exists client expected,
     a_clients cfg !! id = Some client /\ waiting now (refreshed now client) expected /\ expected <> token).
Proof.
  cbv zeta. unfold enroll_client. fold (refreshed now). fold (refresh_config now id cfg).
  pose proof (verdict_accept (refresh_config now id cfg) now id token device public_key) as Ha.
  pose proof (verdict_counts (refresh_config now id cfg) now id token device public_key) as Hc.
  rewrite refresh_config_lookup in Ha, Hc.
  assert ((exists client expected, refreshed now <$> a_clients cfg !! id = Some client /\
             waiting now client expected /\ expected <> token) <->
          exists client expected, a_clients cfg !! id = Some client /\
             waiting now (refreshed now client) expected /\ expected <> token) as Hm.
  { destruct (a_clients cfg !! id); cbn; naive_solver. }
  rewrite Hm in Hc. clear Hm.
  destruct (enrollment_verdict _ now id token device public_key) as [|counted].
  - destruct (proj1 Ha eq_refl) as (client & Hcl & (_ & _ & Hp & _) & _). cbn [verdict_counted] in Hc.
    assert (forall o, en_dirty o = false -> en_config o = refresh_config now id cfg ->
      en_config o = update_client (only_counted now (a_max_attempts cfg) (a_lockout_duration cfg) (en_dirty o)) id cfg /\
      (en_dirty o = true <-> exists client expected, a_clients cfg !! id = Some client /\
         waiting now (refreshed now client) expected /\ expected <> token)) as Hgo.
    { intros o -> ->. split; [done|exact Hc]. }
    unfold enroll_accepted. destruct (credential_for secret device public_key) as [issued|why'];
      [|intros _; by apply Hgo].
    pose proof (issue_undo created_at id issued token (refresh_config now id cfg) client) as Hu.
    rewrite refresh_config_lookup in Hu. specialize (Hu Hcl Hp).
    destruct (issue_enrolled_secret created_at id issued (refresh_config now id cfg)) as [cfg' slot].
    destruct saved as [u|e]; [done|]. intros _. apply Hgo; [done|exact Hu].
  - intros _. cbn [en_config en_dirty failed]. split; [|exact Hc].
    destruct counted; cbn [verdict_counted]; [|done].
    unfold count_enrollment_failure, refresh_config. by rewrite update_client_compose.
Qed.

(** a failed enrollment is harmless.  Whatever request is refused, for
    whatever reason, and also when the credential was issued and could not be
    saved, every credential and every outstanding token of every client is what
    it was; no other client is touched at all; and the client's own
    authentication counter is not moved (a lockout that had run out is dropped,
    no more).  The one thing that is counted, and only against the enrollment,
    is a wrong guess at a token that is outstanding. *)
Theorem enrollment_failure_harmless cfg now created_at secret id token device public_key saved why :
  let o := enroll_client cfg now created_at secret id token device public_key saved in
  en_reply o = ReplyFailed why ->
  (forall id', credentials <$> a_clients (en_config o) !! id' = credentials <$> a_clients cfg !! id') /\
  (forall id', id' <> id -> a_clients (en_config o) !! id' = a_clients cfg !! id') /\
  (forall c c', a_clients cfg !! id = Some c -> a_clients (en_config o) !! id = Some c' ->
     lockout c' = lockout (refresh_lockout now c)) /\
  (en_dirty o = true <-> exists client expected, a_clients cfg !! id = Some client /\
     waiting now (refreshed now client) expected /\ expected <> token).
Proof.
  intros o Hf. destruct (enroll_failed_config cfg now created_at secret id token device public_key saved why Hf)
    as [Hcfg Hd]. fold o in Hcfg, Hd. rewrite Hcfg.
  assert (forall c, credentials (only_counted now (a_max_attempts cfg) (a_lockout_duration cfg) (en_dirty o) c)
    = credentials c) as Hcred.
  { intros c. rewrite <- (refreshed_credentials now c). unfold only_counted. by destruct (en_dirty o). }
  split; [|split; [|split; [|done]]].
  - intros id'. destruct (decide (id' = id)) as [->|Hne]; [|by rewrite update_client_lookup_ne].
    unfold update_client. cbn. rewrite lookup_alter_eq.
    destruct (a_clients cfg !! id); cbn; [by rewrite Hcred|done].
  - intros id' Hne. by rewrite update_client_lookup_ne.
  - intros c c' Hc. unfold update_client. cbn. rewrite lookup_alter_eq, Hc. cbn. intros [= <-].
    unfold only_counted, refreshed, refresh_enrollment_lockout, lockout.
    destruct (en_dirty o); by case_match.
Qed.

(** The credentials of a client once [issued] was recorded. *)
Definition granted (created_at : bytes) (issued : IssuedCredential) (c : ClientAuth)
    : bytes * option bytes * gmap bytes DeviceAuth :=
  match issued with
  | DeviceSecret name secret =>
      (c_secret c, None, <[name := new_device created_at secret None]> (c_devices c))
  | DeviceKey name key =>
      (c_secret c, None, <[name := new_device created_at [] (Some key)]> (c_devices c))
  | SharedSecret secret => (secret, None, c_devices c)
  end.

(** The name a credential is issued under is free, or it is the same key. *)
Definition no_takeover (issued : IssuedCredential) (c : ClientAuth) : Prop :=
  match issued with
  | DeviceSecret name _ => c_devices c !! name = None
  | DeviceKey name key => forall entry, c_devices c !! name = Some entry -> d_public_key entry = Some key
  | SharedSecret _ => True
  end.

Lemma credentials_devices c c' : credentials c = credentials c' -> c_devices c = c_devices c'.
Proof. by intros [= _ _ ?]. Qed.

Lemma accepted_no_takeover secret device public_key issued c :
  credential_for secret device public_key = Ok issued ->
  (forall name entry, device = Some name -> c_devices c !! name = Some entry ->
     holds_the_key_on_file entry public_key = true) ->
  no_takeover issued c.
Proof.
  unfold credential_for, no_takeover, holds_the_key_on_file. intros Hc Hk.
  destruct public_key as [offered|], device as [name|]; simplify_eq; try done.
  - destruct (parse_public_key cr offered) as [key|]; [|done]. simplify_eq. intros entry He.
    specialize (Hk name entry eq_refl He). destruct (d_public_key entry) as [stored|]; [|done].
    by apply constant_time_eq_spec in Hk as ->.
  - destruct (c_devices c !! name) as [entry|] eqn:E; [|done]. by specialize (Hk name entry eq_refl E).
Qed.

(** What an enrollment leaves of a client besides its credentials. *)
Definition standing (c : ClientAuth) : bool * option Z * ClientAcl :=
  (c_unnamed_device_allowed c, c_last_used_step c, client_acl c).

Lemma refreshed_standing now c : standing (refreshed now c) = standing c.
Proof. unfold refreshed, refresh_enrollment_lockout, refresh_lockout. by repeat case_match. Qed.

Lemma refreshed_unlocked now c :
  is_locked_out now (refreshed now c) = false -> c_locked_until (refreshed now c) = None.
Proof.
  assert (c_locked_until (refreshed now c) = c_locked_until (refresh_lockout now c)) as ->
    by (unfold refreshed, refresh_enrollment_lockout; by case_match).
  unfold is_locked_out, refreshed, refresh_enrollment_lockout, refresh_lockout, until_passed.
  destruct (c_locked_until c) as [u|] eqn:E; [|by rewrite E]. destruct (u <=? now) eqn:Ele; [done|].
  case_match; cbn; rewrite E; cbn; intros; bools; lia.
Qed.

Lemma issue_clients created_at id issued cfg client :
  a_clients cfg !! id = Some client ->
  exists client', a_clients (issue_enrolled_secret created_at id issued cfg).1 =
      <[id := client']> (a_clients cfg) /\ credentials client' = granted created_at issued client /\
      standing client' = standing client /\ c_locked_until client' = c_locked_until client.
Proof.
  intros Hc. unfold issue_enrolled_secret. rewrite Hc.
  destruct issued; eexists; split_and!; reflexivity.
Qed.

(** A client that waits on no token is refused, whatever is presented. *)
Lemma no_token_refused cfg now created_at secret id token device public_key saved :
  (forall c, a_clients cfg !! id = Some c -> c_pending_enrollment c = None) ->
  en_reply (enroll_client cfg now created_at secret id token device public_key saved) =
  ReplyFailed NotAccepted.
Proof.
  intros Hn. unfold enroll_client. fold (refreshed now). fold (refresh_config now id cfg).
  destruct (enrollment_verdict _ now id token device public_key) eqn:E; [|done].
  apply verdict_accept in E as (client & Hcl & (_ & _ & Hp & _) & _).
  rewrite refresh_config_lookup in Hcl. destruct (a_clients cfg !! id) as [c|]; [|done].
  simplify_eq/=. pose proof (refreshed_credentials now c) as Hr.
  assert (c_pending_enrollment (refreshed now c) = c_pending_enrollment c) by (by injection Hr).
  specialize (Hn c eq_refl). congruence.
Qed.

(** What a granted enrollment has done. *)
Record enrolled_ok (cfg : AuthConfig) (now : Z) (created_at secret id token : bytes)
    (device public_key : option bytes) (saved : result unit bytes) (o : Enrolled)
    (message : AuthMessage) (client client' : ClientAuth) (issued : IssuedCredential) : Prop := {
  eo_client : a_clients cfg !! id = Some client;
  eo_token : waiting now (refreshed now client) token;
  eo_issued : credential_for secret device public_key = Ok issued;
  eo_recorded : en_recorded o = Some issued /\ is_ok saved = true;
  eo_message : message = enroll_issue cfg id issued;
  eo_clients : a_clients (en_config o) = <[id := client']> (a_clients cfg);
  eo_granted : credentials client' = granted created_at issued client;
  eo_no_takeover : no_takeover issued client;
  eo_standing : standing client' = standing client;
  eo_unlocked : c_locked_until client' = None;
  eo_settings : en_config o = with_clients (a_clients (en_config o)) cfg;
}.

Lemma enroll_issued cfg now created_at secret id token device public_key saved message :
  let o := enroll_client cfg now created_at secret id token device public_key saved in
  en_reply o = ReplyIssue message ->
  exists client client' issued,
    enrolled_ok cfg now created_at secret id token device public_key saved o message client client' issued.
Proof.
  cbv zeta. unfold enroll_client. fold (refreshed now). fold (refresh_config now id cfg).
  destruct (enrollment_verdict _ now id token device public_key) eqn:Ev; [|done].
  apply verdict_accept in Ev as (rc & Hrc & Hw & Hk). unfold enroll_accepted.
  destruct (credential_for secret device public_key) as [issued|] eqn:Ecf; [|done].
  destruct (issue_clients created_at id issued (refresh_config now id cfg) rc Hrc) as (c1 & Hcs & Hg & Hst & Hun).
  assert ((issue_enrolled_secret created_at id issued (refresh_config now id cfg)).1 =
          with_clients (<[id := c1]> (a_clients (refresh_config now id cfg))) (refresh_config now id cfg)) as Hcfg.
  { rewrite <- Hcs. unfold issue_enrolled_secret. rewrite Hrc. by destruct issued. }
  destruct (issue_enrolled_secret _ id issued _) as [cfg1 slot]. cbn [fst] in Hcfg. subst cfg1.
  destruct saved as [u|e]; [|done]. cbn [a_clients with_clients]. rewrite lookup_insert_eq.
  rewrite refresh_config_lookup in Hrc. destruct (a_clients cfg !! id) as [client|] eqn:Ec; [|done].
  cbn in Hrc. injection Hrc as <-.
  assert (granted created_at issued (refreshed now client) = granted created_at issued client) as Hgr.
  { pose proof (refreshed_credentials now client) as Hr. injection Hr as H1 _ H3.
    unfold granted. by rewrite H1, H3. }
  assert (<[id := c1]> (a_clients (refresh_config now id cfg)) = <[id := c1]> (a_clients cfg)) as Hins.
  { unfold refresh_config, update_client. cbn. apply insert_alter_eq. }
  rewrite (refreshed_unlocked now client) in Hun by apply Hw. rewrite refreshed_standing in Hst.
  intros Hm. exists client.
  assert (no_takeover issued client) as Hnt.
  { eapply accepted_no_takeover; [exact Ecf|]. intros name entry Hd He. apply (Hk name entry Hd).
    by rewrite (credentials_devices _ _ (refreshed_credentials now client)). }
  destruct (negb (c_failed_attempts c1 =? 0) || _ || _ || _) eqn:Ed; cbn in *; injection Hm as <-.
  - exists (record_enrollment_success (record_success now c1)), issued. split; cbn; try done.
    + by rewrite Hins, alter_insert_eq.
    + by rewrite <- Hgr, <- Hg.
  - exists c1, issued. split; cbn; try done. by rewrite <- Hgr, <- Hg.
Qed.

(** A request with the token of the invitation, for a credential that can be
    recorded, is granted once it is saved. *)
Lemma enroll_grants cfg now created_at secret id token device public_key client issued :
  a_clients cfg !! id = Some client -> waiting now (refreshed now client) token ->
  credential_for secret device public_key = Ok issued ->
  (forall name entry, device = Some name -> c_devices client !! name = Some entry ->
     holds_the_key_on_file entry public_key = true) ->
  exists message, en_reply (enroll_client cfg now created_at secret id token device public_key (Ok tt)) = ReplyIssue message.
Proof.
  intros Hc Hw Hi Hk. unfold enroll_client. fold (refreshed now). fold (refresh_config now id cfg).
  assert (enrollment_verdict (refresh_config now id cfg) now id token device public_key = EV_Accept) as ->.
  { apply verdict_accept. exists (refreshed now client). rewrite refresh_config_lookup, Hc. split; [done|]. split; [done|].
    intros name entry Hd. rewrite (credentials_devices _ _ (refreshed_credentials now client)). by apply Hk. }
  unfold enroll_accepted. rewrite Hi. destruct (issue_enrolled_secret _ _ _ _) as [cfg1 slot]. by eexists.
Qed.

(** C7: an invitation is spent once, by whoever holds its token, and on nothing
    but its own credential.  A credential is issued only to a request that
    presents the client's outstanding, non-empty token while neither lockout
    holds, and only after it was saved.  The issued credential is then the
    named device's or, for a request without a name, the client's secret;
    every other device and every other client is untouched, a device that is
    already enrolled keeps its credential unless the very same key is offered
    again, and the message carries what was recorded.  The token is gone: until
    a new one is set, every further enrollment of that client is refused,
    whatever it presents. *)
Theorem enrollment_spends_token cfg now created_at secret id token device public_key saved message :
  let o := enroll_client cfg now created_at secret id token device public_key saved in
  en_reply o = ReplyIssue message ->
  (exists client client' issued,
     enrolled_ok cfg now created_at secret id token device public_key saved o message client client' issued) /\
  (forall now' created_at' secret' token' device' public_key' saved',
     en_reply (enroll_client (en_config o) now' created_at' secret' id token' device' public_key' saved') =
     ReplyFailed NotAccepted).
Proof.
  intros o Hm. destruct (enroll_issued cfg now created_at secret id token device public_key saved message Hm)
    as (client & client' & issued & Hok). fold o in Hok. split; [by eauto|].
  intros. apply no_token_refused. intros c Hc. destruct Hok as [_ _ _ _ _ Hcs Hg _].
  rewrite Hcs, lookup_insert_eq in Hc. injection Hc as <-.
  unfold granted in Hg. destruct issued; by injection Hg.
Qed.
End Enroll.

(** A client that waits on a token. *)
Definition invited_client : ClientAuth := {|
  c_secret := lit "AAAA"; c_created_at := []; c_allow_hosts := None; c_allow_ports := None;
  c_allow_ports_strict := false; c_pending_enrollment := Some (lit "token"); c_devices := ∅;
  c_unnamed_device_allowed := true; c_last_used := None; c_last_used_step := None;
  c_failed_attempts := 0; c_locked_until := None; c_enrollment_failed_attempts := 1;
  c_enrollment_locked_until := None |}.
Definition invited : AuthConfig :=
  with_clients {[ lit "alice" := invited_client ]} auth_config_default.

Lemma enrollment_failure_harmless_witness :
  credentials <$> a_clients (en_config (enroll_client toy_crypto (fun key => key) invited 100 (lit "now")
      (lit "BBBB") (lit "alice") (lit "guess") (Some (lit "phone")) None (Ok tt))) !! lit "alice" =
  credentials <$> a_clients invited !! lit "alice".
Proof.
  apply (enrollment_failure_harmless toy_crypto (fun key => key) invited 100 (lit "now") (lit "BBBB")
    (lit "alice") (lit "guess") (Some (lit "phone")) None (Ok tt) NotAccepted).
  vm_compute. reflexivity.
Defined.

Lemma enrollment_spends_token_witness :
  en_reply (enroll_client toy_crypto (fun key => key)
    (en_config (enroll_client toy_crypto (fun key => key) invited 100 (lit "now") (lit "BBBB") (lit "alice")
       (lit "token") (Some (lit "phone")) None (Ok tt)))
    101 (lit "now") (lit "CCCC") (lit "alice") (lit "token") (Some (lit "tablet")) None (Ok tt)) =
  ReplyFailed NotAccepted.
Proof.
  apply (enrollment_spends_token toy_crypto (fun key => key) invited 100 (lit "now") (lit "BBBB")
    (lit "alice") (lit "token") (Some (lit "phone")) None (Ok tt)
    (EnrollIssue (lit "alice") (lit "BBBB") Sha1 6 30 (Some (lit "phone")))).
  vm_compute. reflexivity.
Defined.
