(* ===== verification/Lb.v ===== *)
(** * Backend pools (nexapipe/src/lb/{pool,circuit,status,strategy}.rs, and the
    [CircuitBreaker] settings of nexapipe/src/config/schema.rs).

    One pool is its backends, its strategy and its rotation counter; an
    [Instant] is a number of nanoseconds on a monotonic clock, passed in, and so
    is the random number.  The counters are [usize] and wrap at [2^64].  Indexing
    out of range is the outcome [Sel_panic], so that a theorem can exclude it.

    The file shows which backend a pool hands out and when it refuses, that a
    backend's outstanding count is the number of leases alive on it, that the
    round-robin visits every candidate, and what the circuit breaker does with
    any history of answers and failures. *)

From S2P Require Import Prelude RustStd.

(** ** Settings (config/schema.rs) *)

Record CircuitBreakerConfig := {
  cfg_enabled : option bool;
  cfg_failure_threshold : option Z;
  cfg_reset_secs : option Z;
}.

Record CircuitBreaker := {
  cb_enabled : bool;
  cb_failure_threshold : Z;
  cb_reset : Z;
}.

Definition clamp (lo hi z : Z) : Z := Z.max lo (Z.min hi z).
Definition from_secs (s : Z) : Z := s * 1000000000.

Definition circuit_breaker_resolve (config : CircuitBreakerConfig) : CircuitBreaker := {|
  cb_enabled := default true (cfg_enabled config);
  cb_failure_threshold := clamp 1 1000 (default 5 (cfg_failure_threshold config));
  cb_reset := from_secs (Z.min 3600 (default 30 (cfg_reset_secs config)));
|}.

(** ** The state of one backend *)

Inductive Phase := Closed | Open.

#[global] Instance Phase_eq_dec : EqDecision Phase.
Proof. solve_decision. Defined.

Record CircuitState := {
  phase : Phase;
  failures : Z;
  opened_at : option Z;
}.

Definition circuit_new : CircuitState :=
  {| phase := Closed; failures := 0; opened_at := None |}.

Record BackendStatus := { last_check : option Z; consecutive_failures : Z }.

Definition status_default : BackendStatus := {| last_check := None; consecutive_failures := 0 |}.
Definition mark_healthy (now : Z) (s : BackendStatus) : BackendStatus :=
  {| last_check := Some now; consecutive_failures := 0 |}.
Definition mark_unhealthy (now : Z) (s : BackendStatus) : BackendStatus :=
  {| last_check := Some now; consecutive_failures := wrapping 64 (consecutive_failures s + 1) |}.

Record BackendEntry := {
  be_url : bytes;
  be_origin : result bytes bytes;
  be_healthy : bool;
  be_status : BackendStatus;
  be_in_flight : Z;
  be_circuit : CircuitState;
  be_breaker : option CircuitBreaker;
}.

(** What the [url] crate makes of an address: the scheme, the host, the port
    that is written, and that port or the scheme's own. *)
Record ParsedUrl := {
  u_scheme : bytes;
  u_host : option bytes;
  u_port : option Z;
  u_port_or_known_default : option Z;
}.

Definition origin_of (url_parse : bytes -> result ParsedUrl bytes) (url : bytes)
    : result bytes bytes :=
  match url_parse url with
  | Err e => Err (lit "invalid backend URL: " ++ e)
  | Ok parsed =>
      match u_host parsed with
      | None => Err (lit "backend URL missing host")
      | Some host =>
          let port := default 80 (u_port_or_known_default parsed) in
          Ok (u_scheme parsed ++ lit "://" ++ host ++ lit ":" ++ show_uint port)
      end
  end.

Definition backend_new (url_parse : bytes -> result ParsedUrl bytes) (url : bytes)
    : BackendEntry := {|
  be_url := url;
  be_origin := origin_of url_parse url;
  be_healthy := true;
  be_status := status_default;
  be_in_flight := 0;
  be_circuit := circuit_new;
  be_breaker := None;
|}.

Definition set_circuit (c : CircuitState) (e : BackendEntry) : BackendEntry := {|
  be_url := be_url e; be_origin := be_origin e; be_healthy := be_healthy e;
  be_status := be_status e; be_in_flight := be_in_flight e; be_circuit := c;
  be_breaker := be_breaker e |}.
Definition set_in_flight (n : Z) (e : BackendEntry) : BackendEntry := {|
  be_url := be_url e; be_origin := be_origin e; be_healthy := be_healthy e;
  be_status := be_status e; be_in_flight := n; be_circuit := be_circuit e;
  be_breaker := be_breaker e |}.
Definition set_health (healthy : bool) (s : BackendStatus) (e : BackendEntry) : BackendEntry := {|
  be_url := be_url e; be_origin := be_origin e; be_healthy := healthy;
  be_status := s; be_in_flight := be_in_flight e; be_circuit := be_circuit e;
  be_breaker := be_breaker e |}.
(** [OnceLock::set]: the first value stays. *)
Definition set_breaker (b : CircuitBreaker) (e : BackendEntry) : BackendEntry := {|
  be_url := be_url e; be_origin := be_origin e; be_healthy := be_healthy e;
  be_status := be_status e; be_in_flight := be_in_flight e; be_circuit := be_circuit e;
  be_breaker := match be_breaker e with Some b' => Some b' | None => Some b end |}.

(** [at.elapsed()]: saturates at zero. *)
Definition elapsed (now at_ : Z) : Z := saturating_sub now at_.

Definition circuit_allows (now : Z) (e : BackendEntry) : bool :=
  match be_breaker e with
  | None => true
  | Some breaker =>
      if negb (cb_enabled breaker) then true
      else
        match phase (be_circuit e) with
        | Closed => true
        | Open =>
            match opened_at (be_circuit e) with
            | Some at_ => cb_reset breaker <=? elapsed now at_
            | None => true
            end
        end
  end.

Definition circuit_succeeded (e : BackendEntry) : BackendEntry := set_circuit circuit_new e.

Definition circuit_failed (now : Z) (e : BackendEntry) : BackendEntry :=
  match be_breaker e with
  | None => e
  | Some breaker =>
      if negb (cb_enabled breaker) then e
      else
        let c := be_circuit e in
        let n := wrapping 64 (failures c + 1) in
        if bool_decide (phase c = Open) || (cb_failure_threshold breaker <=? n)
        then set_circuit {| phase := Open; failures := n; opened_at := Some now |} e
        else set_circuit {| phase := phase c; failures := n; opened_at := opened_at c |} e
  end.

(** ** The pool *)

Inductive LoadBalancingStrategy := RoundRobin | Random | LeastConn.

Record BackendPool := {
  backends : list BackendEntry;
  strategy : LoadBalancingStrategy;
  round_robin_index : Z;
}.

Definition pool_new (url_parse : bytes -> result ParsedUrl bytes) (urls : list bytes)
    (s : LoadBalancingStrategy) : BackendPool :=
  {| backends := backend_new url_parse <$> urls; strategy := s; round_robin_index := 0 |}.

Definition with_backends (bs : list BackendEntry) (p : BackendPool) : BackendPool :=
  {| backends := bs; strategy := strategy p; round_robin_index := round_robin_index p |}.

Definition set_circuit_breaker (b : CircuitBreaker) (p : BackendPool) : BackendPool :=
  with_backends (set_breaker b <$> backends p) p.

(** [fetch_add(1)] on the rotation counter: the old value, and the pool after. *)
Definition next_cursor (p : BackendPool) : Z * BackendPool :=
  (round_robin_index p,
   {| backends := backends p; strategy := strategy p;
      round_robin_index := wrapping 64 (round_robin_index p + 1) |}).

Definition least_of (counts : list (nat * Z)) : Z :=
  match counts with
  | [] => 0
  | (_, n) :: rest => fold_left (fun m c => Z.min m c.2) rest n
  end.

(** [xs[i % xs.len()]], with the panics of both operators. *)
Definition index_mod {A} (xs : list A) (i : Z) : option A :=
  if bool_decide (xs = []) then None else xs !! Z.to_nat (i mod len xs).

Definition least_conn_pick (counts : list (nat * Z)) (cursor : Z) : option nat :=
  let least := least_of counts in
  let tied := fst <$> filter (fun c => c.2 = least) counts in
  index_mod tied cursor.

Inductive selection := Sel_panic | Sel_none | Sel_some (idx : nat).

Definition lease (idx : nat) (p : BackendPool) : BackendPool * selection :=
  match backends p !! idx with
  | None => (p, Sel_panic)
  | Some e =>
      (with_backends (<[idx := set_in_flight (wrapping 64 (be_in_flight e + 1)) e]> (backends p)) p,
       Sel_some idx)
  end.

(** A test on [self.backends[i]]; every index tested came from the vector. *)
Definition entry_is (f : BackendEntry -> bool) (p : BackendPool) (i : nat) : bool :=
  match backends p !! i with Some e => f e | None => false end.

(** Indices of the entries that satisfy a test, and [retain] on indices. *)
Definition indices_where (f : BackendEntry -> bool) (p : BackendPool) : list nat :=
  filter (fun i => entry_is f p i = true) (seq 0 (length (backends p))).

Definition retain_where (f : BackendEntry -> bool) (p : BackendPool) (is_ : list nat) : list nat :=
  filter (fun i => entry_is f p i = true) is_.

Definition excluded (exclude : list bytes) (e : BackendEntry) : bool :=
  existsb (fun x => bool_decide (x = be_url e)) exclude.

Definition prefer_untried (exclude : list bytes) (p : BackendPool) (is_ : list nat) : list nat :=
  let untried e := negb (excluded exclude e) in
  let any_untried := existsb (entry_is untried p) is_ in
  if any_untried then retain_where untried p is_ else is_.

Definition pick (rand : Z) (candidates : list nat) (p : BackendPool) : option nat * BackendPool :=
  match strategy p with
  | RoundRobin => let '(index, p) := next_cursor p in (index_mod candidates index, p)
  | Random => (index_mod candidates rand, p)
  | LeastConn =>
      let counts := (fun i => (i, default 0 (be_in_flight <$> backends p !! i))) <$> candidates in
      let '(cursor, p) := next_cursor p in
      (least_conn_pick counts cursor, p)
  end.

Definition select_backend_excluding (exclude : list bytes) (now rand : Z) (p : BackendPool)
    : BackendPool * selection :=
  let healthy_backends := indices_where be_healthy p in
  if bool_decide (healthy_backends = []) then
    if bool_decide (length (backends p) = 1%nat) then lease 0 p else (p, Sel_none)
  else
    let healthy_backends := retain_where (circuit_allows now) p healthy_backends in
    if bool_decide (healthy_backends = []) then (p, Sel_none)
    else
      match pick rand (prefer_untried exclude p healthy_backends) p with
      | (None, p) => (p, Sel_panic)
      | (Some idx, p) => lease idx p
      end.

Definition select_backend (now rand : Z) (p : BackendPool) : BackendPool * selection :=
  select_backend_excluding [] now rand p.

(** Applies an update to the entry a lease holds. *)
Definition update_entry (f : BackendEntry -> BackendEntry) (idx : nat) (p : BackendPool)
    : BackendPool := with_backends (alter f idx (backends p)) p.

Definition lease_drop : nat -> BackendPool -> BackendPool :=
  update_entry (fun e => set_in_flight (wrapping 64 (be_in_flight e - 1)) e).
Definition record_success : nat -> BackendPool -> BackendPool := update_entry circuit_succeeded.
Definition record_failure (now : Z) : nat -> BackendPool -> BackendPool :=
  update_entry (circuit_failed now).

Definition set_backend_health (now : Z) (url : bytes) (healthy : bool) (p : BackendPool)
    : BackendPool :=
  with_backends
    ((fun e => if bool_decide (be_url e = url)
               then set_health healthy
                      ((if healthy then mark_healthy now else mark_unhealthy now) (be_status e)) e
               else e) <$> backends p) p.

Definition outstanding (url : bytes) (p : BackendPool) : Z :=
  fold_left (fun count e => if bool_decide (be_url e = url)
                            then wrapping 64 (count + be_in_flight e) else count) (backends p) 0.
Definition healthy_count (p : BackendPool) : Z :=
  len (filter (fun e => be_healthy e = true) (backends p)).
Definition pool_backends (p : BackendPool) : list bytes := be_url <$> backends p.
Definition get_backend_statuses (p : BackendPool) : list (bytes * bool) :=
  (fun e => (be_url e, be_healthy e)) <$> backends p.

(** ** Which backend is handed out *)

(** The backends a request may be sent to: the healthy ones whose circuit lets
    a request through. *)
Definition serving (now : Z) (p : BackendPool) (i : nat) : Prop :=
  entry_is be_healthy p i = true /\ entry_is (circuit_allows now) p i = true.

Definition serving_list (now : Z) (p : BackendPool) : list nat :=
  retain_where (circuit_allows now) p (indices_where be_healthy p).

Definition untried (exclude : list bytes) (p : BackendPool) (i : nat) : Prop :=
  entry_is (fun e => negb (excluded exclude e)) p i = true.

Lemma entry_is_lt f p i : entry_is f p i = true -> (i < length (backends p))%nat.
Proof.
  unfold entry_is. destruct (backends p !! i) eqn:E; [|done]. by apply lookup_lt_Some in E.
Qed.

Lemma elem_of_indices_where f p i : i ∈ indices_where f p <-> entry_is f p i = true.
Proof.
  unfold indices_where. rewrite list_elem_of_filter, elem_of_seq.
  split; [tauto|]. intros H. split; [done|]. apply entry_is_lt in H. lia.
Qed.

Lemma elem_of_serving_list now p i : i ∈ serving_list now p <-> serving now p i.
Proof.
  unfold serving_list, retain_where, serving.
  rewrite list_elem_of_filter, elem_of_indices_where. tauto.
Qed.

Lemma serving_list_nil now p :
  indices_where be_healthy p <> [] \/ serving_list now p = [].
Proof.
  destruct (decide (indices_where be_healthy p = [])) as [E|]; [right|by left].
  unfold serving_list. by rewrite E.
Qed.

Lemma elem_of_prefer_untried exclude p is_ i :
  i ∈ prefer_untried exclude p is_ <->
  i ∈ is_ /\ ((exists j, j ∈ is_ /\ untried exclude p j) -> untried exclude p i).
Proof.
  unfold prefer_untried, retain_where, untried. destruct (existsb _ _) eqn:E.
  - apply existsb_Exists in E. rewrite list_elem_of_filter. tauto.
  - assert (~ exists j, j ∈ is_ /\ entry_is (fun e => negb (excluded exclude e)) p j = true) as Hn.
    { intros Hx. apply existsb_Exists in Hx. by rewrite Hx in E. }
    tauto.
Qed.

Lemma prefer_untried_ne exclude p is_ : is_ <> [] -> prefer_untried exclude p is_ <> [].
Proof.
  unfold prefer_untried. destruct (existsb _ _) eqn:E; [|done]. intros _ Hn.
  apply existsb_Exists in E as (j & Hj & Hu).
  assert (j ∈ retain_where (fun e => negb (excluded exclude e)) p is_) as H
    by by apply list_elem_of_filter.
  rewrite Hn in H. by apply elem_of_nil in H.
Qed.

Lemma index_mod_elem {A} (xs : list A) i : xs <> [] -> exists x, index_mod xs i = Some x /\ x ∈ xs.
Proof.
  intros Hne. unfold index_mod. rewrite bool_decide_eq_false_2 by done.
  assert (0 < len xs) by (destruct xs; [done|rewrite len_cons; pose proof (len_nonneg xs); lia]).
  pose proof (Z.mod_pos_bound i (len xs)).
  destruct (lookup_lt_is_Some_2 xs (Z.to_nat (i mod len xs))) as [x Hx]; [unfold len in *; lia|].
  exists x. split; [done|]. by eapply list_elem_of_lookup_2.
Qed.

Lemma least_of_spec c counts :
  (exists x, x ∈ c :: counts /\ x.2 = least_of (c :: counts)) /\
  forall x, x ∈ c :: counts -> least_of (c :: counts) <= x.2.
Proof.
  destruct c as [i n]. cbn [least_of]. revert i n.
  induction counts as [|[j m] counts IH]; intros i n.
  - split; [exists (i, n); split; [by constructor|done]|]. intros x ->%list_elem_of_singleton. done.
  - cbn [fold_left snd]. destruct (IH i (Z.min n m)) as [(x & Hx & Hl) Hmin]. split.
    + apply elem_of_cons in Hx as [->|Hx].
      * simpl in Hl. destruct (Z.min_spec n m) as [[_ E]|[_ E]]; rewrite E in *;
          [exists (i, n)|exists (j, m)]; rewrite !elem_of_cons; auto.
      * exists x. rewrite !elem_of_cons. auto.
    + intros y. rewrite !elem_of_cons.
      pose proof (Hmin (i, Z.min n m) ltac:(by constructor)) as H0. simpl in H0.
      intros [->|[->|Hy]]; simpl; [lia|lia|]. apply Hmin. by constructor.
Qed.

(** A backend's outstanding count, as the snapshot reads it. *)
Definition load (p : BackendPool) (i : nat) : Z := default 0 (be_in_flight <$> backends p !! i).

Lemma least_conn_pick_spec p candidates cursor :
  candidates <> [] ->
  exists i, least_conn_pick ((fun i => (i, load p i)) <$> candidates) cursor = Some i /\
    i ∈ candidates /\ forall j, j ∈ candidates -> load p i <= load p j.
Proof.
  intros Hne. unfold least_conn_pick.
  destruct candidates as [|c cs]; [done|]. cbn [fmap list_fmap].
  set (counts := (c, load p c) :: _).
  destruct (least_of_spec (c, load p c) ((fun i => (i, load p i)) <$> cs)) as [(x & Hx & Hl) Hmin].
  fold counts in Hx, Hl, Hmin.
  destruct (index_mod_elem (fst <$> filter (fun c => c.2 = least_of counts) counts) cursor)
    as (i & -> & Hi).
  { intros Hn%fmap_nil_inv.
    assert (x ∈ filter (fun c => c.2 = least_of counts) counts) as H by by apply list_elem_of_filter.
    rewrite Hn in H. by apply elem_of_nil in H. }
  assert (forall y, y ∈ counts <-> y.2 = load p y.1 /\ y.1 ∈ c :: cs) as Hc.
  { intros [j n]. unfold counts. change ((c, load p c) :: _) with ((fun i => (i, load p i)) <$> c :: cs).
    rewrite list_elem_of_fmap. simpl. split; [intros (? & [= -> ->] & ?); done|].
    intros [-> ?]. eauto. }
  apply list_elem_of_fmap in Hi as ([i' n] & -> & Hi). apply list_elem_of_filter in Hi as [Hn Hi].
  apply Hc in Hi as [Hld Hi]. cbn [fst snd] in *. exists i'. split; [done|]. split; [done|].
  intros j Hj. rewrite <- Hld, Hn. apply (Hmin (j, load p j)). by apply Hc.
Qed.

Lemma pick_spec rand candidates p :
  candidates <> [] ->
  exists i p', pick rand candidates p = (Some i, p') /\ i ∈ candidates /\
    backends p' = backends p /\ strategy p' = strategy p /\
    (strategy p = LeastConn -> forall j, j ∈ candidates -> load p i <= load p j) /\
    (strategy p = RoundRobin ->
       index_mod candidates (round_robin_index p) = Some i /\
       round_robin_index p' = wrapping 64 (round_robin_index p + 1)).
Proof.
  intros Hne. unfold pick. destruct (strategy p) eqn:Es; cbn [next_cursor].
  - destruct (index_mod_elem candidates (round_robin_index p) Hne) as (i & Hi & ?).
    exists i. eexists. rewrite Hi. repeat split; done.
  - destruct (index_mod_elem candidates rand Hne) as (i & Hi & ?).
    exists i. eexists. rewrite Hi. repeat split; done.
  - destruct (least_conn_pick_spec p candidates (round_robin_index p) Hne) as (i & Hi & ? & Hmin).
    fold (load p). unfold load in Hi at 1. rewrite Hi.
    exists i. eexists. repeat split; auto; done.
Qed.

Lemma lease_spec idx p :
  (idx < length (backends p))%nat ->
  exists e, backends p !! idx = Some e /\
    lease idx p =
      (with_backends (<[idx := set_in_flight (wrapping 64 (be_in_flight e + 1)) e]> (backends p)) p,
       Sel_some idx).
Proof.
  intros H. apply lookup_lt_is_Some_2 in H as [e He]. exists e. unfold lease. by rewrite He.
Qed.

(** What handing out [i] does to the pool: one more request outstanding on
    [i], and nothing else but the rotation. *)
Definition leased (i : nat) (p p' : BackendPool) : Prop :=
  exists e, backends p !! i = Some e /\
    backends p' = <[i := set_in_flight (wrapping 64 (be_in_flight e + 1)) e]> (backends p) /\
    strategy p' = strategy p.

(** What a choice may be, given the pool it was made from. *)
Definition selection_ok (exclude : list bytes) (now : Z) (p : BackendPool)
    (outcome : BackendPool * selection) : Prop :=
  match outcome with
  | (_, Sel_panic) => False
  | (p', Sel_none) =>
      p' = p /\ (forall i, ~ serving now p i) /\
      ~ (length (backends p) = 1%nat /\ entry_is be_healthy p 0 = false)
  | (p', Sel_some i) =>
      leased i p p' /\
      ((serving now p i /\
        ((exists j, serving now p j /\ untried exclude p j) -> untried exclude p i) /\
        (strategy p = LeastConn -> forall j, serving now p j ->
           (untried exclude p i -> untried exclude p j) -> load p i <= load p j)) \/
       (length (backends p) = 1%nat /\ i = 0%nat /\ entry_is be_healthy p 0 = false))
  end.

Lemma select_backend_cases exclude now rand p :
  selection_ok exclude now p (select_backend_excluding exclude now rand p).
Proof.
  unfold selection_ok, select_backend_excluding. fold (serving_list now p).
  case_bool_decide as Hh.
  { assert (forall i, entry_is be_healthy p i = false) as Hall.
    { intros i. apply not_true_iff_false. rewrite <- elem_of_indices_where, Hh. apply not_elem_of_nil. }
    case_bool_decide as Hl.
    - destruct (lease_spec 0 p) as (e & He & ->); [lia|]. split; [by exists e|]. right. auto.
    - split; [done|]. split; [|tauto]. intros i [Hi _]. by rewrite Hall in Hi. }
  case_bool_decide as Hs.
  { split; [done|]. split.
    - intros i Hi. apply elem_of_serving_list in Hi. rewrite Hs in Hi. by apply elem_of_nil in Hi.
    - intros [Hl H0]. destruct (indices_where be_healthy p) as [|i l] eqn:E; [done|].
      assert (entry_is be_healthy p i = true) as Hi
        by (apply elem_of_indices_where; rewrite E; by constructor).
      pose proof (entry_is_lt _ _ _ Hi). replace i with 0%nat in Hi by lia. congruence. }
  destruct (pick_spec rand _ p (prefer_untried_ne exclude p _ Hs))
    as (i & p1 & -> & Hi & Hb & Hst & Hmin & _).
  apply elem_of_prefer_untried in Hi as [Hi Hu]. apply elem_of_serving_list in Hi.
  destruct (lease_spec i p1) as (e & He & ->); [rewrite Hb; by eapply entry_is_lt, Hi|].
  rewrite Hb in *. split; [by exists e|]. left. split; [done|].
  setoid_rewrite elem_of_serving_list in Hu. split; [done|].
  intros Hlc j Hj Hij. apply Hmin; [done|]. apply elem_of_prefer_untried.
  setoid_rewrite elem_of_serving_list. auto.
Qed.

(** C8: which backend a pool hands out.  The choice never panics, whatever the
    strategy, the counters and the random number.  When something is serving
    (healthy, circuit letting requests through), one of those is handed out:
    an untried one if there is any, and under [LeastConn] one with the fewest
    requests outstanding.  When nothing is serving the pool refuses, with the
    one exception of a single backend that is merely unhealthy.  Handing out a
    backend counts one request on it and changes nothing else. *)
Theorem select_backend_spec exclude now rand p :
  selection_ok exclude now p (select_backend_excluding exclude now rand p).
Proof. apply select_backend_cases. Qed.

(** A pool of one does refuse: its only backend is healthy, and its circuit is
    open. *)
Lemma pool_of_one_refused exclude now rand e s rr :
  be_healthy e = true -> circuit_allows now e = false ->
  let p := {| backends := [e]; strategy := s; round_robin_index := rr |} in
  select_backend_excluding exclude now rand p = (p, Sel_none).
Proof.
  intros Hh Hc p. unfold select_backend_excluding.
  assert (indices_where be_healthy p = [0%nat]) as ->.
  { unfold indices_where. cbn [backends p length seq]. unfold entry_is. cbn. by rewrite Hh. }
  cbn [bool_decide]. unfold retain_where, entry_is. cbn. by rewrite Hc.
Qed.

(** ** Rotation *)

(** [n] requests in a row, with nothing else happening to the pool. *)
Fixpoint select_many (n : nat) (exclude : list bytes) (now rand : Z) (p : BackendPool)
    : list selection :=
  match n with
  | O => []
  | S n =>
      let '(p', s) := select_backend_excluding exclude now rand p in
      s :: select_many n exclude now rand p'
  end.

(** Two pools that differ in their counters alone offer the same candidates. *)
Definition same_shape (p p' : BackendPool) : Prop :=
  strategy p = strategy p' /\ length (backends p) = length (backends p') /\
  forall f, (forall e n, f (set_in_flight n e) = f e) -> forall i, entry_is f p i = entry_is f p' i.

Lemma leased_same_shape i p p' : leased i p p' -> same_shape p p'.
Proof.
  intros (e & He & Hb & Hs). split; [done|]. split; [by rewrite Hb, length_insert|].
  intros f Hf j. unfold entry_is. rewrite Hb.
  destruct (decide (i = j)) as [<-|Hij].
  - rewrite list_lookup_insert_eq by by eapply lookup_lt_Some. by rewrite He, Hf.
  - by rewrite list_lookup_insert_ne.
Qed.

Lemma filter_entry_ext f p p' (l : list nat) :
  (forall i, entry_is f p i = entry_is f p' i) ->
  filter (fun i => entry_is f p i = true) l = filter (fun i => entry_is f p' i = true) l.
Proof. intros H. apply list_filter_iff. intros i. by rewrite H. Qed.

Lemma same_shape_candidates exclude now p p' :
  same_shape p p' ->
  serving_list now p = serving_list now p' /\
  forall l, prefer_untried exclude p l = prefer_untried exclude p' l.
Proof.
  intros (_ & Hl & Hf). split.
  - unfold serving_list, retain_where, indices_where. rewrite Hl.
    rewrite (filter_entry_ext be_healthy p p') by by apply Hf.
    apply filter_entry_ext. by apply Hf.
  - intros l. unfold prefer_untried, retain_where.
    assert (forall i, entry_is (fun e => negb (excluded exclude e)) p i =
                      entry_is (fun e => negb (excluded exclude e)) p' i) as Hu by by apply Hf.
    rewrite (filter_entry_ext _ p p') by done.
    assert (existsb (entry_is (fun e => negb (excluded exclude e)) p) l =
            existsb (entry_is (fun e => negb (excluded exclude e)) p') l) as ->; [|done].
    induction l as [|x l IH]; [done|]. cbn [existsb]. by rewrite Hu, IH.
Qed.

(** One round-robin choice, as a function of the candidates and the cursor. *)
Lemma select_round_robin exclude now rand p c :
  strategy p = RoundRobin -> prefer_untried exclude p (serving_list now p) = c -> c <> [] ->
  exists i p', select_backend_excluding exclude now rand p = (p', Sel_some i) /\
    index_mod c (round_robin_index p) = Some i /\ same_shape p p' /\
    round_robin_index p' = wrapping 64 (round_robin_index p + 1).
Proof.
  intros Hst Hc Hne. unfold select_backend_excluding. fold (serving_list now p).
  assert (serving_list now p <> []) as Hs.
  { intros E. rewrite E in Hc. by subst c. }
  destruct (serving_list_nil now p) as [Hh|?]; [|done].
  rewrite !bool_decide_eq_false_2 by done. rewrite Hc.
  destruct (pick_spec rand c p Hne) as (i & p1 & -> & Hi & Hb & Hst1 & _ & Hrr).
  destruct (Hrr Hst) as [Hix Hri].
  assert (serving now p i) as Hsi.
  { rewrite <- Hc in Hi. apply elem_of_prefer_untried in Hi as [Hi _]. by apply elem_of_serving_list. }
  destruct (lease_spec i p1) as (e & He & ->); [rewrite Hb; by eapply entry_is_lt, Hsi|].
  rewrite Hb in *. eexists i, _. split; [done|]. split; [done|]. split; [|done].
  apply (leased_same_shape i). by exists e.
Qed.

Lemma select_many_round_robin n exclude now rand p c :
  strategy p = RoundRobin -> prefer_untried exclude p (serving_list now p) = c -> c <> [] ->
  0 <= round_robin_index p -> round_robin_index p + Z.of_nat n <= 2 ^ 64 ->
  select_many n exclude now rand p =
  (fun k => match index_mod c (round_robin_index p + Z.of_nat k) with
            | Some i => Sel_some i | None => Sel_panic end) <$> seq 0 n.
Proof.
  intros Hst Hc Hne. revert p Hst Hc. induction n as [|n IH]; intros p Hst Hc Hp Hr; [done|].
  destruct (select_round_robin exclude now rand p c Hst Hc Hne) as (i & p' & Hsel & Hi & Hsh & Hrr).
  cbn [select_many seq fmap list_fmap]. rewrite Hsel, Z.add_0_r, Hi. f_equal.
  destruct (decide (n = 0%nat)) as [->|Hn]; [done|].
  rewrite wrapping_small in Hrr by (unfold is_uint; lia).
  destruct (same_shape_candidates exclude now p p' Hsh) as [Hs Hu].
  rewrite IH; [| |by rewrite <- Hs, <- Hu|lia|lia]; [|by destruct Hsh as [<- _]].
  rewrite <- (fmap_S_seq 0 n), <- list_fmap_compose. apply list_fmap_ext. intros j k Hk.
  unfold compose. rewrite Hrr. by replace (round_robin_index p + 1 + Z.of_nat k)
    with (round_robin_index p + Z.of_nat (S k)) by lia.
Qed.

(** A window of [len c] consecutive cursors reads [c] once round. *)
Lemma index_mod_window {A} (c : list A) base :
  0 <= base ->
  (fun k => index_mod c (base + Z.of_nat k)) <$> seq 0 (length c) =
  Some <$> rotate (Z.to_nat (base mod len c)) c.
Proof.
  intros Hb. apply list_eq. intros k. rewrite !list_lookup_fmap.
  destruct (decide (k < length c)%nat) as [Hk|Hk].
  - rewrite lookup_seq_lt by done. cbn [fmap option_fmap option_map Nat.add].
    rewrite lookup_rotate_r by done. unfold index_mod.
    rewrite bool_decide_eq_false_2 by (intros ->; simpl in Hk; lia).
    unfold rotate_nat_add, len. rewrite Z2Nat.id by (apply Z.mod_pos_bound; lia).
    rewrite Zplus_mod_idemp_l.
    destruct (lookup_lt_is_Some_2 c (Z.to_nat ((base + Z.of_nat k) mod Z.of_nat (length c))))
      as [x Hx].
    { pose proof (Z.mod_pos_bound (base + Z.of_nat k) (Z.of_nat (length c))). lia. }
    by rewrite Hx.
  - rewrite lookup_seq_ge by lia. rewrite lookup_ge_None_2; [done|].
    rewrite length_rotate. lia.
Qed.

Lemma rotate_Permutation {A} n (c : list A) : rotate n c ≡ₚ c.
Proof. unfold rotate. rewrite Permutation_app_comm. by rewrite take_drop. Qed.

(** Round robin is fair.  While nothing changes but the requests, any run
    of as many requests as there are candidates hands out every candidate
    exactly once, wherever the rotation stood; the counter only has to be far
    enough from its wrap-around. *)
Theorem round_robin_fair exclude now rand p c :
  strategy p = RoundRobin -> prefer_untried exclude p (serving_list now p) = c -> c <> [] ->
  0 <= round_robin_index p -> round_robin_index p + len c <= 2 ^ 64 ->
  select_many (length c) exclude now rand p ≡ₚ Sel_some <$> c.
Proof.
  intros Hst Hc Hne Hp Hr. rewrite (select_many_round_robin _ _ _ _ _ c) by done.
  trans (Sel_some <$> rotate (Z.to_nat (round_robin_index p mod len c)) c);
    [|apply fmap_Permutation, rotate_Permutation].
  apply Permutation_refl'.
  pose proof (f_equal (fmap (fun o => match o with Some i => Sel_some i | None => Sel_panic end))
    (index_mod_window c (round_robin_index p) Hp)) as H.
  rewrite <- !list_fmap_compose in H. exact H.
Qed.

(** A pool of three, one of them down. *)
Definition sample_entry (url : bytes) (healthy : bool) : BackendEntry := {|
  be_url := url; be_origin := Ok url; be_healthy := healthy; be_status := status_default;
  be_in_flight := 0; be_circuit := circuit_new; be_breaker := None |}.
Definition sample_pool : BackendPool := {|
  backends := [sample_entry (lit "a") true; sample_entry (lit "b") false; sample_entry (lit "c") true];
  strategy := RoundRobin; round_robin_index := 7 |}.


(** ** Leases *)

(** A pool and the leases alive on it, by the index they hold. *)
Record System := { sys_pool : BackendPool; sys_leases : list nat }.

(** Everything that can happen to a pool: in any order, and from any number of
    connections, because each of these is one atomic update of one entry. *)
Inductive pool_step : System -> System -> Prop :=
| Step_select exclude now rand p ls p' i :
    select_backend_excluding exclude now rand p = (p', Sel_some i) ->
    pool_step {| sys_pool := p; sys_leases := ls |} {| sys_pool := p'; sys_leases := i :: ls |}
| Step_refuse exclude now rand p ls p' :
    select_backend_excluding exclude now rand p = (p', Sel_none) ->
    pool_step {| sys_pool := p; sys_leases := ls |} {| sys_pool := p'; sys_leases := ls |}
| Step_drop p l1 i l2 :
    pool_step {| sys_pool := p; sys_leases := l1 ++ i :: l2 |}
              {| sys_pool := lease_drop i p; sys_leases := l1 ++ l2 |}
| Step_success p ls i : i ∈ ls ->
    pool_step {| sys_pool := p; sys_leases := ls |}
              {| sys_pool := record_success i p; sys_leases := ls |}
| Step_failure now p ls i : i ∈ ls ->
    pool_step {| sys_pool := p; sys_leases := ls |}
              {| sys_pool := record_failure now i p; sys_leases := ls |}
| Step_health now url healthy p ls :
    pool_step {| sys_pool := p; sys_leases := ls |}
              {| sys_pool := set_backend_health now url healthy p; sys_leases := ls |}
| Step_breaker b p ls :
    pool_step {| sys_pool := p; sys_leases := ls |}
              {| sys_pool := set_circuit_breaker b p; sys_leases := ls |}.

Definition count (i : nat) (ls : list nat) : Z := Z.of_nat (count_occ Nat.eq_dec ls i).

(** Every outstanding count is the number of leases alive on its backend. *)
Definition leases_counted (s : System) : Prop :=
  forall i, be_in_flight <$> backends (sys_pool s) !! i =
            (fun _ => wrapping 64 (count i (sys_leases s))) <$> backends (sys_pool s) !! i.

Lemma leases_counted_update f p ls i :
  (forall e, be_in_flight (f e) = be_in_flight e) ->
  leases_counted {| sys_pool := p; sys_leases := ls |} ->
  leases_counted {| sys_pool := update_entry f i p; sys_leases := ls |}.
Proof.
  intros Hf H j. specialize (H j). simpl in *. unfold update_entry, with_backends. simpl.
  destruct (decide (i = j)) as [<-|Hij].
  - rewrite list_lookup_alter_eq. destruct (backends p !! i); simpl in *; [|done]. by rewrite Hf.
  - by rewrite list_lookup_alter_ne.
Qed.

Lemma leases_counted_map f p ls :
  (forall e, be_in_flight (f e) = be_in_flight e) ->
  leases_counted {| sys_pool := p; sys_leases := ls |} ->
  leases_counted {| sys_pool := with_backends (f <$> backends p) p; sys_leases := ls |}.
Proof.
  intros Hf H j. specialize (H j). simpl in *. rewrite list_lookup_fmap.
  destruct (backends p !! j); simpl in *; [|done]. by rewrite Hf.
Qed.

Lemma count_app i l1 l2 : count i (l1 ++ l2) = count i l1 + count i l2.
Proof. unfold count. rewrite count_occ_app. lia. Qed.

Lemma count_cons i j ls : count i (j :: ls) = (if bool_decide (i = j) then 1 else 0) + count i ls.
Proof.
  unfold count. simpl. destruct (Nat.eq_dec j i); case_bool_decide; subst; try done; lia.
Qed.

Lemma wrapping_add w a b : wrapping w (wrapping w a + b) = wrapping w (a + b).
Proof. apply Zplus_mod_idemp_l. Qed.

Lemma leases_counted_step s s' : pool_step s s' -> leases_counted s -> leases_counted s'.
Proof.
  destruct 1; intros Hinv.
  - pose proof (select_backend_cases exclude now rand p) as Hc. rewrite H in Hc.
    destruct Hc as [(e & He & Hb & _) _]. intros j. specialize (Hinv j). simpl in *.
    rewrite Hb, count_cons. destruct (decide (i = j)) as [<-|Hij].
    + rewrite list_lookup_insert_eq by by eapply lookup_lt_Some. rewrite He in Hinv. simpl in *.
      injection Hinv as ->. rewrite bool_decide_eq_true_2 by done.
      rewrite wrapping_add. do 2 f_equal. lia.
    + rewrite list_lookup_insert_ne by done. by rewrite bool_decide_eq_false_2 by congruence.
  - pose proof (select_backend_cases exclude now rand p) as Hc. rewrite H in Hc.
    destruct Hc as [-> _]. done.
  - intros j. specialize (Hinv j). simpl in *. rewrite count_app, count_cons in Hinv.
    rewrite count_app. destruct (decide (i = j)) as [<-|Hij].
    + rewrite list_lookup_alter_eq. destruct (backends p !! i); simpl in *; [|done].
      injection Hinv as ->. rewrite bool_decide_eq_true_2 by done.
      rewrite <- Z.add_opp_r, wrapping_add. do 2 f_equal. lia.
    + rewrite list_lookup_alter_ne by done.
      rewrite bool_decide_eq_false_2 in Hinv by congruence. done.
  - by apply leases_counted_update.
  - apply leases_counted_update; [|done]. intros e. unfold circuit_failed. by repeat case_match.
  - apply leases_counted_map; [|done]. intros e. by case_match.
  - by apply leases_counted_map.
Qed.

(** a backend's outstanding count is exactly the number of leases alive on
    it.  In every state a freshly built pool can reach, through any sequence of
    selections, refusals, releases, recorded answers and failures, health
    changes and settings, the count [least_conn] reads is the number of leases
    held; releasing a lease therefore never underflows it, and a pool nobody
    holds a lease on is back at zero. *)
Theorem outstanding_is_leases url_parse urls strat s :
  rtc pool_step {| sys_pool := pool_new url_parse urls strat; sys_leases := [] |} s ->
  len (sys_leases s) < 2 ^ 64 ->
  forall i e, backends (sys_pool s) !! i = Some e -> be_in_flight e = count i (sys_leases s).
Proof.
  intros Hr Hl i e He.
  assert (leases_counted s) as Hinv.
  { assert (leases_counted {| sys_pool := pool_new url_parse urls strat; sys_leases := [] |}) as H0.
    { intros j. simpl. rewrite list_lookup_fmap. by destruct (urls !! j). }
    clear Hl He. induction Hr; eauto using leases_counted_step. }
  specialize (Hinv i). rewrite He in Hinv. injection Hinv as ->. apply wrapping_small.
  unfold is_uint, count, len in *. pose proof (count_occ_bound Nat.eq_dec i (sys_leases s)). lia.
Qed.

Definition no_url_parse (url : bytes) : result ParsedUrl bytes := Err [].

(** Two leases on two backends, the first released again. *)
Lemma outstanding_is_leases_witness :
  exists s, rtc pool_step
      {| sys_pool := pool_new no_url_parse [lit "a"; lit "b"] LeastConn; sys_leases := [] |} s /\
    sys_leases s = [1%nat] /\
    (forall i e, backends (sys_pool s) !! i = Some e -> be_in_flight e = count i [1%nat]).
Proof.
  assert (Hr : exists s, rtc pool_step
      {| sys_pool := pool_new no_url_parse [lit "a"; lit "b"] LeastConn; sys_leases := [] |} s /\
    sys_leases s = [1%nat]).
  { eexists. split; [|]. 
    - eapply rtc_l; [eapply (Step_select [] 0 0); vm_compute; reflexivity|].
      eapply rtc_l; [eapply (Step_select [] 0 0); vm_compute; reflexivity|].
      eapply rtc_l; [apply (Step_drop _ [1%nat] 0%nat [])|]. apply rtc_refl.
    - reflexivity. }
  destruct Hr as (s & Hr & Hs). exists s. split; [exact Hr|]. split; [exact Hs|].
  rewrite <- Hs. eapply outstanding_is_leases; [exact Hr|]. rewrite Hs. vm_compute. reflexivity.
Defined.

(** ** The circuit breaker *)

Inductive answer := Answered | FailedAt (t : Z).

Definition record (a : answer) (e : BackendEntry) : BackendEntry :=
  match a with Answered => circuit_succeeded e | FailedAt t => circuit_failed t e end.

(** The state after a history, newest outcome first. *)
Definition after (h : list answer) (e : BackendEntry) : BackendEntry := foldr record e h.

(** How many of the newest outcomes are failures, with no answer in between. *)
Fixpoint recent_failures (h : list answer) : Z :=
  match h with FailedAt _ :: h => 1 + recent_failures h | _ => 0 end.

Lemma recent_failures_bound h : 0 <= recent_failures h <= len h.
Proof.
  induction h as [|a h IH]; [done|]. rewrite len_cons.
  destruct a; cbn [recent_failures]; lia.
Qed.

Definition circuit_after (threshold : Z) (h : list answer) : CircuitState :=
  {| phase := if threshold <=? recent_failures h then Open else Closed;
     failures := recent_failures h;
     opened_at := match h with
                  | FailedAt t :: _ => if threshold <=? recent_failures h then Some t else None
                  | _ => None
                  end |}.

Lemma circuit_after_spec b e h :
  be_breaker e = Some b -> cb_enabled b = true -> 1 <= cb_failure_threshold b ->
  be_circuit e = circuit_new -> len h < 2 ^ 64 ->
  be_breaker (after h e) = Some b /\
  be_circuit (after h e) = circuit_after (cb_failure_threshold b) h.
Proof.
  intros Hb Hen Ht Hc. induction h as [|a h IH]; intros Hl.
  - split; [done|]. simpl. rewrite Hc. unfold circuit_after. simpl.
    by rewrite (proj2 (Z.leb_gt _ _)) by lia.
  - rewrite len_cons in Hl. destruct IH as [IHb IHc]; [lia|].
    pose proof (recent_failures_bound h) as Hr. destruct a as [|t]; simpl.
    + split; [done|]. unfold circuit_after. simpl. by rewrite (proj2 (Z.leb_gt _ _)) by lia.
    + unfold circuit_failed. rewrite IHb, Hen, IHc. cbn [negb circuit_after phase failures opened_at].
      rewrite wrapping_small by (unfold is_uint; lia). unfold circuit_after.
      cbn [recent_failures]. rewrite (Z.add_comm 1).
      destruct (cb_failure_threshold b <=? recent_failures h) eqn:E; bools.
      * rewrite bool_decide_eq_true_2 by done. simpl. split; [done|].
        by rewrite (proj2 (Z.leb_le _ _)) by lia.
      * rewrite bool_decide_eq_false_2 by done. simpl.
        destruct (cb_failure_threshold b <=? recent_failures h + 1) eqn:E2; bools; split; try done.
        simpl. destruct h as [|[|t'] h]; try done.
Qed.

(** what the circuit breaker does with a history.  With the settings any
    configuration resolves to, a backend that started out fresh is refused
    exactly when the breaker is on, at least [failure_threshold] of its latest
    outcomes are failures with no answer among them, and less than the
    cooldown has passed since the newest of those failures.  One answer, at any
    time, closes the circuit; every failure of an open one restarts the
    cooldown. *)
Theorem circuit_allows_history cfg e h now :
  let b := circuit_breaker_resolve cfg in
  be_breaker e = Some b -> be_circuit e = circuit_new -> len h < 2 ^ 64 ->
  circuit_allows now (after h e) = false <->
  cb_enabled b = true /\ cb_failure_threshold b <= recent_failures h /\
  exists t h', h = FailedAt t :: h' /\ elapsed now t < cb_reset b.
Proof.
  intros b Hb Hc Hl. assert (1 <= cb_failure_threshold b) as Ht.
  { unfold b, circuit_breaker_resolve, clamp. simpl. lia. }
  destruct (cb_enabled b) eqn:Hen.
  - destruct (circuit_after_spec b e h Hb Hen Ht Hc Hl) as [Hb' Hc'].
    unfold circuit_allows. rewrite Hb', Hen, Hc'. cbn [negb circuit_after phase opened_at].
    destruct (_ <=? recent_failures h) eqn:E; bools.
    + destruct h as [|[|t] h]; [cbn [recent_failures] in E; lia|cbn [recent_failures] in E; lia|].
      rewrite Z.leb_gt. naive_solver.
    + split; [done|]. intros (_ & ? & _). lia.
  - assert (be_breaker (after h e) = Some b) as Hb'.
    { clear Hl. induction h as [|[|t] h IH]; simpl; [done|done|].
      unfold circuit_failed. by rewrite IH, Hen. }
    unfold circuit_allows. rewrite Hb', Hen. naive_solver.
Qed.

Definition default_breaker : CircuitBreakerConfig :=
  {| cfg_enabled := None; cfg_failure_threshold := Some 2; cfg_reset_secs := Some 10 |}.

Lemma circuit_allows_history_witness :
  circuit_allows 2000000000 (after [FailedAt 1000000000; FailedAt 0; Answered]
    (set_breaker (circuit_breaker_resolve default_breaker) (sample_entry (lit "a") true))) = false.
Proof.
  apply (circuit_allows_history default_breaker); [reflexivity|reflexivity|vm_compute; reflexivity|].
  split; [reflexivity|]. split; [vm_compute; discriminate|].
  exists 1000000000, [FailedAt 0; Answered]. split; [reflexivity|]. vm_compute. reflexivity.
Defined.
