(* ===== verification/Routes.v ===== *)
(** * The routing table (nexapipe/src/routes/mod.rs, the address reader of
    nexapipe/src/backend_conn.rs and [RouteMode] of nexapipe/src/config/schema.rs).

    A pool is behind an [Arc]: the table, the leases and the health probe share
    it.  The model keeps the pools in a store and a route names its pool, so
    that a reload that carries a pool over keeps the same one.  Durations are
    numbers; the [url] crate is a parameter. *)

From S2P Require Import Prelude RustStd Preface Host AuthCodec AuthConfig Lb.

(** ** Modes and protocols (config/schema.rs) *)

Inductive RouteMode := ModeHttp | ModePassthrough | ModeTcp | ModeUdp.

#[global] Instance RouteMode_eq_dec : EqDecision RouteMode.
Proof. solve_decision. Defined.

Definition mode_name (m : RouteMode) : bytes :=
  match m with
  | ModeHttp => lit "http"
  | ModePassthrough => lit "passthrough"
  | ModeTcp => lit "tcp"
  | ModeUdp => lit "udp"
  end.

Definition is_l4 (m : RouteMode) : bool :=
  match m with ModeTcp | ModeUdp => true | _ => false end.

Definition from_l4_proto (p : L4Proto) : RouteMode :=
  match p with Tcp => ModeTcp | Udp => ModeUdp end.

Inductive BackendProtocol := Http1 | H2c.

(** ** Backend addresses (backend_conn.rs) *)

Inductive PortDefault := Required | SchemeOrBare (bare : Z).

Definition strip_ipv6_brackets (host : bytes) : bytes := trim_matches is_bracket host.

Definition parse_backend_addr (url_parse : bytes -> result ParsedUrl bytes) (backend : bytes)
    (default_ : PortDefault) : option (bytes * Z) :=
  let backend := trim backend in
  if bool_decide (backend = []) then None
  else if contains_str (lit "://") backend then
    match url_parse backend with
    | Err _ => None
    | Ok url =>
        let! host := u_host url in
        if bool_decide (host = []) then None
        else
          let! port := match u_port url with
                       | Some port => Some port
                       | None => match default_ with
                                 | Required => None
                                 | SchemeOrBare _ => u_port_or_known_default url
                                 end
                       end in
          Some (strip_ipv6_brackets host, port)
    end
  else
    match strip_prefix_char LBRACKET backend with
    | Some rest =>
        let! '(host, tail) := split_once RBRACKET rest in
        if bool_decide (host = []) then None
        else
          match strip_prefix_char COLON tail with
          | Some port => let! port := parse_u16 port in Some (host, port)
          | None => match default_ with Required => None | SchemeOrBare bare => Some (host, bare) end
          end
    | None =>
        match rsplit_once COLON backend with
        | Some (host, port) =>
            if bool_decide (host = []) then None
            else let! port := parse_u16 port in Some (host, port)
        | None => match default_ with Required => None | SchemeOrBare bare => Some (backend, bare) end
        end
    end.

(** ** Routes *)

Definition PATH_LENGTH_TIE_BREAK : Z := 99.

Record L4Options := {
  client_ports : option (list Z);
  idle_timeout : option Z;
  flow_timeout : option Z;
}.

Definition l4_default : L4Options :=
  {| client_ports := None; idle_timeout := None; flow_timeout := None |}.

(** [r_pool] names the pool in the store. *)
Record Route := {
  r_host_pattern : bytes;
  r_path_pattern : bytes;
  r_path_is_prefix : bool;
  r_modes : list RouteMode;
  r_pool : nat;
  r_backend_protocol : BackendProtocol;
  r_path_rewrite : option bytes;
  r_l4 : L4Options;
}.

Abbreviation Pools := (gmap nat BackendPool).

Definition with_modes (ms : list RouteMode) (r : Route) : Route :=
  let merged := fold_left (fun merged mode =>
    if bool_decide (mode ∈ merged) then merged else merged ++ [mode]) ms [] in
  if bool_decide (merged = []) then r
  else {| r_host_pattern := r_host_pattern r; r_path_pattern := r_path_pattern r;
          r_path_is_prefix := r_path_is_prefix r; r_modes := merged; r_pool := r_pool r;
          r_backend_protocol := r_backend_protocol r; r_path_rewrite := r_path_rewrite r;
          r_l4 := r_l4 r |}.

Definition with_pool (pool : nat) (r : Route) : Route :=
  {| r_host_pattern := r_host_pattern r; r_path_pattern := r_path_pattern r;
     r_path_is_prefix := r_path_is_prefix r; r_modes := r_modes r; r_pool := pool;
     r_backend_protocol := r_backend_protocol r; r_path_rewrite := r_path_rewrite r;
     r_l4 := r_l4 r |}.

(** [Route::new]: the pool it builds goes into the store under [pool]. *)
Definition route_new (url_parse : bytes -> result ParsedUrl bytes) (pool : nat) (pools : Pools)
    (host_pattern path_pattern : bytes) (path_is_prefix : bool) (backends_ : list bytes)
    (s : LoadBalancingStrategy) (mode : RouteMode) (path_rewrite : option bytes) : Route * Pools :=
  ({| r_host_pattern := normalize_pattern host_pattern; r_path_pattern := path_pattern;
      r_path_is_prefix := path_is_prefix; r_modes := [mode]; r_pool := pool;
      r_backend_protocol := Http1; r_path_rewrite := path_rewrite; r_l4 := l4_default |},
   <[pool := pool_new url_parse backends_ s]> pools).

Definition serves_host (r : Route) (host : bytes) : bool := host_matches (r_host_pattern r) host.
Definition matches_host (r : Route) (host : bytes) : bool := serves_host r (normalize_host host).

Definition serves_l4 (r : Route) (host : bytes) (port : Z) : bool :=
  if negb (serves_host r host) then false
  else match client_ports (r_l4 r) with
       | Some allowed => existsb (Z.eqb port) allowed
       | None => true
       end.
Definition matches_l4 (r : Route) (host : bytes) (port : Z) : bool :=
  serves_l4 r (normalize_host host) port.

Definition SLASH : Z := 47.

Definition path_suffix (pattern path : bytes) : option bytes :=
  let pattern := trim_end_matches (fun b => b =? SLASH) pattern in
  if bool_decide (path = pattern) then Some []
  else
    let! rest := strip_prefix pattern path in
    let! _ := strip_prefix_char SLASH rest in
    Some rest.

Definition serves_request (r : Route) (host path : bytes) : bool :=
  if negb (serves_host r host) then false
  else if r_path_is_prefix r then is_some (path_suffix (r_path_pattern r) path)
  else bool_decide (path = r_path_pattern r).
Definition route_matches (r : Route) (host path : bytes) : bool :=
  serves_request r (normalize_host host) path.

Definition priority (r : Route) : Z :=
  let host := if bool_decide (r_host_pattern r = [STAR]) then 0
              else if starts_with_char STAR (r_host_pattern r) then 1 else 2 in
  let ports := Z.b2z (is_some (client_ports (r_l4 r))) in
  let path := Z.b2z (negb (r_path_is_prefix r)) in
  let length := Z.min (wrapping 32 (len (r_path_pattern r))) PATH_LENGTH_TIE_BREAK in
  host * 10000 + ports * 1000 + path * 100 + length.

Definition serves (r : Route) (mode : RouteMode) : bool := bool_decide (mode ∈ r_modes r).

(** One turn of the loop of [best_match]. *)
Definition best_step (mode : RouteMode) (matches_ : Route -> bool) (best : option (Route * Z))
    (route : Route) : option (Route * Z) :=
  if negb (serves route mode) || negb (matches_ route) then best
  else
    let p := priority route in
    match best with
    | None => Some (route, p)
    | Some (_, best_priority) => if best_priority <? p then Some (route, p) else best
    end.

Definition best_match (routes : list Route) (mode : RouteMode) (matches_ : Route -> bool)
    : option Route :=
  fst <$> fold_left (best_step mode matches_) routes None.

(** ** Lookups *)

Inductive BackendLookup (T : Type) := NoRoute | Unavailable | Found (value : T).
Arguments NoRoute {T}.
Arguments Unavailable {T}.
Arguments Found {T} value.

(** A lease: the pool, and the index of the entry it holds. *)
Record Lease := { lease_pool : nat; lease_idx : nat }.

Record BackendInfo := {
  i_url : bytes;
  i_origin : result bytes bytes;
  i_protocol : BackendProtocol;
  i_path_rewrite : option bytes;
  i_path_pattern : bytes;
  i_path_is_prefix : bool;
  i_lease : Lease;
}.

Definition rewritten_path (i : BackendInfo) (original_path : bytes) : bytes :=
  match i_path_rewrite i with
  | None => original_path
  | Some rewrite_pattern =>
      if i_path_is_prefix i then
        match path_suffix (i_path_pattern i) original_path with
        | Some suffix => replace_braces suffix rewrite_pattern
        | None => original_path
        end
      else if bool_decide (original_path = i_path_pattern i)
      then replace_braces [] rewrite_pattern
      else original_path
  end.

Record L4RouteInfo := {
  l_backend : bytes;
  l_idle_timeout : option Z;
  l_flow_timeout : option Z;
  l_lease : Lease;
}.

(** A selection in the pool a route names, and the entry that was chosen.  A
    route whose pool is not in the store, and a choice out of range, are the
    panics the theorems exclude. *)
Inductive choice := Panic | Refused_ | Chosen (entry : BackendEntry) (lease : Lease).

Definition select_in (pools : Pools) (pool : nat) (exclude : list bytes) (now rand : Z)
    : Pools * choice :=
  match pools !! pool with
  | None => (pools, Panic)
  | Some p =>
      let '(p', s) := select_backend_excluding exclude now rand p in
      let pools' := <[pool := p']> pools in
      match s with
      | Sel_panic => (pools', Panic)
      | Sel_none => (pools', Refused_)
      | Sel_some idx =>
          match backends p' !! idx with
          | None => (pools', Panic)
          | Some e => (pools', Chosen e {| lease_pool := pool; lease_idx := idx |})
          end
      end
  end.

Definition drop_lease (l : Lease) (pools : Pools) : Pools :=
  alter (lease_drop (lease_idx l)) (lease_pool l) pools.

Section Lookups.
Variable url_parse : bytes -> result ParsedUrl bytes.

Definition backend_port (url : bytes) : option Z :=
  snd <$> parse_backend_addr url_parse url (SchemeOrBare 443).

(** [None] is a panic. *)
Definition get_backend_with_acl_excluding (routes : list Route) (pools : Pools) (host path : bytes)
    (port : option Z) (acl : option ClientAcl) (exclude : list bytes) (now rand : Z)
    : option (Pools * BackendLookup BackendInfo) :=
  if match acl with Some acl => negb (acl_allows acl host) | None => false end
  then Some (pools, NoRoute)
  else if match acl, port with Some acl, Some port => negb (allows_port acl port) | _, _ => false end
  then Some (pools, NoRoute)
  else
    let folded := normalize_host host in
    match best_match routes ModeHttp (fun route => serves_request route folded path) with
    | None => Some (pools, NoRoute)
    | Some route =>
        match select_in pools (r_pool route) exclude now rand with
        | (_, Panic) => None
        | (pools, Refused_) => Some (pools, Unavailable)
        | (pools, Chosen e lease) =>
            if match acl, backend_port (be_url e) with
               | Some acl, Some port => negb (allows_backend_port acl port)
               | _, _ => false
               end
            then Some (drop_lease lease pools, NoRoute)
            else Some (pools, Found {|
              i_url := be_url e; i_origin := be_origin e; i_protocol := r_backend_protocol route;
              i_path_rewrite := r_path_rewrite route; i_path_pattern := r_path_pattern route;
              i_path_is_prefix := r_path_is_prefix route; i_lease := lease |})
        end
    end.

Definition get_passthrough_backend (routes : list Route) (pools : Pools) (sni : bytes) (now rand : Z)
    : option (Pools * BackendLookup (BackendEntry * Lease)) :=
  let folded := normalize_host sni in
  match best_match routes ModePassthrough (fun route => serves_host route folded) with
  | None => Some (pools, NoRoute)
  | Some route =>
      match select_in pools (r_pool route) [] now rand with
      | (_, Panic) => None
      | (pools, Refused_) => Some (pools, Unavailable)
      | (pools, Chosen e lease) => Some (pools, Found (e, lease))
      end
  end.

Definition get_l4_backend (routes : list Route) (pools : Pools) (host : bytes) (port : Z)
    (mode : RouteMode) (now rand : Z) : option (Pools * BackendLookup L4RouteInfo) :=
  let folded := normalize_host host in
  match best_match routes mode (fun route => serves_l4 route folded port) with
  | None => Some (pools, NoRoute)
  | Some route =>
      match select_in pools (r_pool route) [] now rand with
      | (_, Panic) => None
      | (pools, Refused_) => Some (pools, Unavailable)
      | (pools, Chosen e lease) => Some (pools, Found {|
          l_backend := be_url e; l_idle_timeout := idle_timeout (r_l4 route);
          l_flow_timeout := flow_timeout (r_l4 route); l_lease := lease |})
      end
  end.
End Lookups.

(** ** Reloading the table *)

Definition fmt_mode (m : RouteMode) : bytes :=
  match m with
  | ModeHttp => lit "Http"
  | ModePassthrough => lit "Passthrough"
  | ModeTcp => lit "Tcp"
  | ModeUdp => lit "Udp"
  end.

(** [{:?}] of a vector, given that of its elements. *)
Fixpoint fmt_items (l : list bytes) : bytes :=
  match l with
  | [] => []
  | [x] => x
  | x :: l => x ++ lit ", " ++ fmt_items l
  end.
Definition fmt_list (l : list bytes) : bytes := lit "[" ++ fmt_items l ++ lit "]".

Definition fmt_strategy (s : LoadBalancingStrategy) : bytes :=
  match s with
  | RoundRobin => lit "RoundRobin"
  | Random => lit "Random"
  | LeastConn => lit "LeastConn"
  end.

Section Reload.
(** [{:?}] of a string: quoted and escaped. *)
Variable fmt_str : bytes -> bytes.

Definition pool_key (pools : Pools) (r : Route) : bytes :=
  r_host_pattern r ++ lit "|" ++ r_path_pattern r ++ lit "|" ++ fmt_list (fmt_mode <$> r_modes r)
  ++ lit "|" ++
  match pools !! r_pool r with
  | Some p => fmt_strategy (strategy p) ++ lit "|" ++ fmt_list (fmt_str <$> pool_backends p)
  | None => []
  end.

(** One turn of the loop over the new routes. *)
Definition carry_over (pools : Pools) (acc : gmap bytes nat * list Route) (route : Route)
    : gmap bytes nat * list Route :=
  let '(previous, updated) := acc in
  let key := pool_key pools route in
  match previous !! key with
  | Some pool => (delete key previous, updated ++ [with_pool pool route])
  | None => (previous, updated ++ [route])
  end.

Definition update_routes (pools : Pools) (routes new_routes : list Route) : list Route :=
  let previous := fold_left (fun previous route =>
    <[pool_key pools route := r_pool route]> previous) routes (∅ : gmap bytes nat) in
  (fold_left (carry_over pools) new_routes (previous, [])).2.

(** The pool the last of the old routes with this key has. *)
Definition last_pool (pools : Pools) (routes : list Route) (key : bytes) : option nat :=
  r_pool <$> List.find (fun r => bool_decide (pool_key pools r = key)) (reverse routes).

(** What a new route is given, when [before] are the new routes ahead of it. *)
Definition pool_for (pools : Pools) (routes before : list Route) (r : Route) : nat :=
  if bool_decide (pool_key pools r ∈ pool_key pools <$> before) then r_pool r
  else default (r_pool r) (last_pool pools routes (pool_key pools r)).

Lemma previous_lookup pools routes key :
  fold_left (fun previous route => <[pool_key pools route := r_pool route]> previous)
    routes (∅ : gmap bytes nat) !! key = last_pool pools routes key.
Proof.
  unfold last_pool. induction routes as [|r routes IH] using rev_ind.
  - simpl. by rewrite lookup_empty.
  - rewrite fold_left_app, reverse_snoc. cbn [fold_left List.find].
    destruct (decide (pool_key pools r = key)) as [<-|Hne].
    + rewrite lookup_insert_eq. by rewrite bool_decide_eq_true_2.
    + rewrite lookup_insert_ne by done. by rewrite bool_decide_eq_false_2.
Qed.

Lemma with_pool_id r : with_pool (r_pool r) r = r.
Proof. by destruct r. Qed.

Lemma update_loop (pools : Pools) (routes news seen updated : list Route) (previous : gmap bytes nat) :
  (forall key : bytes, previous !! key =
     if bool_decide (key ∈ pool_key pools <$> seen) then None else last_pool pools routes key) ->
  (fold_left (carry_over pools) news (previous, updated)).2 =
  updated ++ imap (fun i r => with_pool (pool_for pools routes (seen ++ take i news) r) r) news.
Proof.
  revert seen updated previous. induction news as [|r news IH]; intros seen updated previous Hp.
  { simpl. by rewrite app_nil_r. }
  cbn [fold_left imap take carry_over]. rewrite app_nil_r.
  assert (forall i, seen ++ r :: take i news = (seen ++ [r]) ++ take i news) as Hassoc
    by (intros; by rewrite <- app_assoc).
  assert (imap ((fun i r' => with_pool (pool_for pools routes (seen ++ take i (r :: news)) r') r') ∘ S) news
    = imap (fun i r' => with_pool (pool_for pools routes ((seen ++ [r]) ++ take i news) r') r') news)
    as Himap by (apply imap_ext; intros i x Hx; simpl; by rewrite Hassoc).
  rewrite Himap. clear Himap.
  assert (forall k, k ∈ pool_key pools <$> (seen ++ [r]) <->
            k ∈ pool_key pools <$> seen \/ k = pool_key pools r) as Hin.
  { intros k. rewrite fmap_app, elem_of_app. simpl. by rewrite list_elem_of_singleton. }
  assert (forall prev : gmap bytes nat, (forall key : bytes, prev !! key =
            if bool_decide (key ∈ pool_key pools <$> (seen ++ [r])) then None
            else last_pool pools routes key) -> forall out,
    (fold_left (carry_over pools) news (prev, updated ++ [out])).2 =
    updated ++ out ::
    imap (fun i r' => with_pool (pool_for pools routes ((seen ++ [r]) ++ take i news) r') r') news) as Hgo.
  { intros prev Hprev out. rewrite (IH (seen ++ [r])) by done. by rewrite <- app_assoc. }
  assert (forall key : bytes, previous !! pool_key pools r = None \/ key <> pool_key pools r ->
    (if bool_decide (key ∈ pool_key pools <$> seen) then None else last_pool pools routes key) =
    (if bool_decide (key ∈ pool_key pools <$> (seen ++ [r])) then None
     else last_pool pools routes key)) as Hext.
  { intros key Hk. repeat case_bool_decide; try done; rewrite Hin in *; try tauto.
    destruct Hk as [Hk|Hk]; [|tauto]. rewrite Hp in Hk.
    assert (key = pool_key pools r) as -> by tauto. by rewrite bool_decide_eq_false_2 in Hk. }
  unfold pool_for at 1. destruct (previous !! pool_key pools r) as [pool|] eqn:Eprev.
  - rewrite Hgo.
    + rewrite Hp in Eprev. case_bool_decide; [done|]. by rewrite Eprev.
    + intros key. destruct (decide (key = pool_key pools r)) as [->|Hne].
      * rewrite lookup_delete_eq, bool_decide_eq_true_2; [done|]. rewrite Hin. auto.
      * rewrite lookup_delete_ne, Hp by done. auto.
  - rewrite Hgo.
    + rewrite Hp in Eprev. case_bool_decide; [by rewrite with_pool_id|]. rewrite Eprev. cbn. by rewrite with_pool_id.
    + intros key. rewrite Hp. auto.
Qed.

Lemma update_routes_imap (pools : Pools) (routes news : list Route) :
  update_routes pools routes news =
  imap (fun i r => with_pool (pool_for pools routes (take i news) r) r) news.
Proof.
  unfold update_routes. rewrite (update_loop pools routes news []); [done|].
  intros key. apply previous_lookup.
Qed.

Lemma last_pool_Some pools routes key pool :
  last_pool pools routes key = Some pool ->
  exists j r, routes !! j = Some r /\ pool_key pools r = key /\ r_pool r = pool.
Proof.
  unfold last_pool. destruct (List.find _ _) as [r|] eqn:E; [|done]. intros [= <-].
  apply find_some in E as [Hin Hk]. apply bool_decide_eq_true in Hk.
  apply list_elem_of_In, elem_of_reverse, list_elem_of_lookup in Hin as [j Hj]. rewrite reverse_involutive in Hj. eauto.
Qed.

(** Where the pool of an updated route comes from. *)
Lemma pool_for_cases (pools : Pools) (routes before : list Route) r :
  (exists j o, routes !! j = Some o /\ pool_key pools o = pool_key pools r /\
     pool_for pools routes before r = r_pool o /\ pool_key pools r ∉ pool_key pools <$> before) \/
  pool_for pools routes before r = r_pool r.
Proof.
  unfold pool_for. case_bool_decide as Hb; [by right|].
  destruct (last_pool pools routes (pool_key pools r)) as [pool|] eqn:E; [left|by right].
  apply last_pool_Some in E as (j & o & Hj & Hk & <-). eauto 8.
Qed.

(** a reload keeps the pools.  The table after a reload is the new list of
    routes, in order, each as it was given but for its pool: the first route of
    a key is given the pool the table already had for that key (the last one,
    if several), and every other route keeps the fresh pool it came with.  If
    no two routes shared a pool before, and the new routes came with fresh ones,
    no two routes share a pool after: the balancer and the health probe never
    find one route's state behind another. *)
Theorem update_routes_spec (pools : Pools) (routes news : list Route) :
  length (update_routes pools routes news) = length news /\
  (forall i r, news !! i = Some r ->
     update_routes pools routes news !! i = Some (with_pool (pool_for pools routes (take i news) r) r)) /\
  (NoDup (r_pool <$> routes) -> NoDup (r_pool <$> news) ->
   (forall r o, r ∈ news -> o ∈ routes -> r_pool r <> r_pool o) ->
   NoDup (r_pool <$> update_routes pools routes news)).
Proof.
  rewrite update_routes_imap. split; [apply length_imap|]. split.
  { intros i r Hi. by rewrite list_lookup_imap, Hi. }
  intros Hold Hnew Hdisj. apply NoDup_alt. intros i j p. rewrite !list_lookup_fmap, !list_lookup_imap.
  assert (forall i j r o, (i < j)%nat -> news !! i = Some r -> news !! j = Some o ->
    pool_for pools routes (take i news) r <> pool_for pools routes (take j news) o) as Hlt.
  { clear i j. intros i j r o Hij Hi Hj.
    assert (r ∈ news) as Hr by (by eapply list_elem_of_lookup_2).
    assert (o ∈ news) as Ho by (by eapply list_elem_of_lookup_2).
    destruct (pool_for_cases pools routes (take i news) r) as [(a & x & Ha & Hka & -> & _)| ->];
    destruct (pool_for_cases pools routes (take j news) o) as [(b & y & Hb & Hkb & -> & Hn)| ->].
    - intros Hxy. assert (a = b) as <-.
      { eapply NoDup_lookup; [exact Hold| |]; rewrite list_lookup_fmap; [by rewrite Ha|by rewrite Hb, Hxy]. }
      rewrite Ha in Hb. simplify_eq. apply Hn. rewrite <- Hkb, Hka.
      apply list_elem_of_fmap_2, list_elem_of_lookup. exists i. by rewrite lookup_take_lt.
    - intros E. eapply (Hdisj o x); [done|by eapply list_elem_of_lookup_2|done].
    - eapply (Hdisj r y); [done|by eapply list_elem_of_lookup_2].
    - intros E. assert (i = j); [|lia].
      eapply NoDup_lookup; [exact Hnew| |]; rewrite list_lookup_fmap; [by rewrite Hi|by rewrite Hj, E]. }
  destruct (news !! i) as [r|] eqn:Ei; [|done]. destruct (news !! j) as [o|] eqn:Ej; [|done].
  simpl. intros [= <-] [= E]. destruct (lt_eq_lt_dec i j) as [[H|H]|H]; [|done|].
  - by destruct (Hlt i j r o H Ei Ej).
  - by destruct (Hlt j i o r H Ej Ei).
Qed.

End Reload.

(** ** Paths *)

(** What a prefix pattern covers: itself, without its trailing slashes, and
    everything below it. *)
Lemma path_suffix_spec pattern path suffix :
  path_suffix pattern path = Some suffix <->
  path = trim_end_matches (fun b => b =? SLASH) pattern ++ suffix /\
  (suffix = [] \/ starts_with_char SLASH suffix = true).
Proof.
  unfold path_suffix. set (t := trim_end_matches _ pattern). case_bool_decide as E.
  - split.
    + intros [= <-]. rewrite app_nil_r. auto.
    + intros [H _]. rewrite E in H. f_equal. apply (app_inv_head t). by rewrite app_nil_r.
  - destruct (strip_prefix t path) as [rest|] eqn:Es.
    + apply strip_prefix_Some in Es. destruct rest as [|b rest]; simpl.
      * rewrite app_nil_r in Es. done.
      * destruct (b =? SLASH) eqn:Eb; split.
        -- intros [= <-]. auto.
        -- intros [H _]. rewrite Es in H. by apply app_inv_head in H as ->.
        -- done.
        -- intros [H [->|Hs]]; rewrite Es in H; apply app_inv_head in H; simplify_eq/=. congruence.
    + split; [done|]. intros [H _]. apply strip_prefix_Some in H. congruence.
Qed.

(** What a route answers with, once an entry of its pool is chosen. *)
Definition info_of (r : Route) (e : BackendEntry) (l : Lease) : BackendInfo := {|
  i_url := be_url e; i_origin := be_origin e; i_protocol := r_backend_protocol r;
  i_path_rewrite := r_path_rewrite r; i_path_pattern := r_path_pattern r;
  i_path_is_prefix := r_path_is_prefix r; i_lease := l |}.

Lemma replace_braces_id by_ s : 123 ∉ s -> replace_braces by_ s = s.
Proof.
  induction s as [|b s IH]; [done|]. rewrite not_elem_of_cons. intros [Hb Hs].
  assert (replace_braces by_ (b :: s) = b :: replace_braces by_ s) as ->; [|by rewrite IH].
  destruct s as [|c s]; cbn [replace_braces]; repeat case_match; subst; done.
Qed.

Lemma replace_braces_one by_ pre post :
  123 ∉ pre -> 123 ∉ post -> replace_braces by_ (pre ++ 123 :: 125 :: post) = pre ++ by_ ++ post.
Proof.
  intros Hpre Hpost. induction pre as [|b pre IH].
  - cbn [app replace_braces]. by rewrite replace_braces_id.
  - apply not_elem_of_cons in Hpre as [Hb Hpre]. cbn [app].
    assert (forall t, replace_braces by_ (b :: t) = b :: replace_braces by_ t) as Hstep.
    { intros t. destruct t as [|c t]; cbn [replace_braces]; repeat case_match; subst; done. }
    by rewrite Hstep, IH.
Qed.

(** The match and the rewrite agree.  A path that a route serves is always
    rewritten with the part the pattern did not cover: under a prefix route the
    path is the pattern, without its trailing slashes, followed by a suffix that
    is empty or starts with a slash, and a rewrite [pre{}post] forwards
    [pre ++ suffix ++ post]; under an exact route the suffix is empty.  A path
    the pattern merely starts with, such as [/apifoo] under [/api], is neither
    matched nor rewritten. *)
Theorem rewrite_agrees_with_match r e l host path pre post :
  serves_request r host path = true -> r_path_rewrite r = Some (pre ++ lit "{}" ++ post) ->
  123 ∉ pre -> 123 ∉ post ->
  exists suffix,
    (if r_path_is_prefix r
     then path = trim_end_matches (fun b => b =? SLASH) (r_path_pattern r) ++ suffix /\
          (suffix = [] \/ starts_with_char SLASH suffix = true)
     else path = r_path_pattern r /\ suffix = []) /\
    rewritten_path (info_of r e l) path = pre ++ suffix ++ post.
Proof.
  intros Hs Hr Hpre Hpost. unfold serves_request in Hs. destruct (serves_host r host); [|done].
  cbn [negb] in Hs. unfold rewritten_path, info_of. cbn. rewrite Hr.
  change (lit "{}" ++ post) with (123 :: 125 :: post).
  destruct (r_path_is_prefix r).
  - destruct (path_suffix (r_path_pattern r) path) as [suffix|] eqn:E; [|done].
    exists suffix. split; [by apply path_suffix_spec|]. by apply replace_braces_one.
  - apply bool_decide_eq_true in Hs. exists []. split; [done|].
    rewrite bool_decide_eq_true_2 by done. by apply replace_braces_one.
Qed.

Definition sample_route : Route := {|
  r_host_pattern := lit "*.example.com"; r_path_pattern := lit "/api/"; r_path_is_prefix := true;
  r_modes := [ModeHttp]; r_pool := 0; r_backend_protocol := Http1;
  r_path_rewrite := Some (lit "/v2{}"); r_l4 := l4_default |}.


(** ** Which route wins *)

Definition host_tier (r : Route) : Z :=
  if bool_decide (r_host_pattern r = [STAR]) then 0
  else if starts_with_char STAR (r_host_pattern r) then 1 else 2.

(** Specificity, most significant first. *)
Definition specificity (r : Route) : Z * Z * Z * Z :=
  (host_tier r, Z.b2z (is_some (client_ports (r_l4 r))), Z.b2z (negb (r_path_is_prefix r)),
   Z.min (wrapping 32 (len (r_path_pattern r))) PATH_LENGTH_TIE_BREAK).

Definition lex_lt (a b : Z * Z * Z * Z) : Prop :=
  let '(a1, a2, a3, a4) := a in
  let '(b1, b2, b3, b4) := b in
  a1 < b1 \/ (a1 = b1 /\ (a2 < b2 \/ (a2 = b2 /\ (a3 < b3 \/ (a3 = b3 /\ a4 < b4))))).

Lemma priority_lex r r' : priority r < priority r' <-> lex_lt (specificity r) (specificity r').
Proof.
  unfold priority, specificity, lex_lt, PATH_LENGTH_TIE_BREAK. fold (host_tier r) (host_tier r').
  pose proof (wrapping_range 32 (len (r_path_pattern r)) ltac:(lia)) as H1.
  pose proof (wrapping_range 32 (len (r_path_pattern r')) ltac:(lia)) as H2.
  unfold is_uint in *. set (a := wrapping 32 _) in *. set (b := wrapping 32 _) in *.
  assert (forall x, 0 <= Z.b2z x <= 1) as Hb by (intros []; simpl; lia).
  pose proof (Hb (is_some (client_ports (r_l4 r)))). pose proof (Hb (is_some (client_ports (r_l4 r')))).
  pose proof (Hb (negb (r_path_is_prefix r))). pose proof (Hb (negb (r_path_is_prefix r'))).
  lia.
Qed.

(** The routes a lookup may choose from. *)
Definition eligible (mode : RouteMode) (matches_ : Route -> bool) (r : Route) : Prop :=
  serves r mode = true /\ matches_ r = true.

(** What the loop of [best_match] has found after some of the routes. *)
Definition best_so_far (mode : RouteMode) (matches_ : Route -> bool) (routes : list Route)
    (best : option (Route * Z)) : Prop :=
  match best with
  | None => forall r, r ∈ routes -> ~ eligible mode matches_ r
  | Some (r, p) =>
      p = priority r /\ eligible mode matches_ r /\
      exists l1 l2, routes = l1 ++ r :: l2 /\
        (forall o, o ∈ l1 -> eligible mode matches_ o -> priority o < priority r) /\
        (forall o, o ∈ l2 -> eligible mode matches_ o -> priority o <= priority r)
  end.

Lemma best_step_ok mode matches_ routes best r :
  best_so_far mode matches_ routes best ->
  best_so_far mode matches_ (routes ++ [r]) (best_step mode matches_ best r).
Proof.
  intros H. unfold best_step.
  assert (eligible mode matches_ r <-> negb (serves r mode) || negb (matches_ r) = false) as He.
  { unfold eligible. destruct (serves r mode), (matches_ r); simpl; intuition done. }
  destruct (negb (serves r mode) || negb (matches_ r)).
  - assert (~ eligible mode matches_ r) as Hr by (rewrite He; done).
    destruct best as [[b p]|]; cbn in *.
    + destruct H as (-> & Hb & l1 & l2 & -> & H1 & H2). split; [done|]. split; [done|].
      exists l1, (l2 ++ [r]). rewrite <- app_assoc. split; [done|]. split; [done|].
      intros o [Ho| ->%list_elem_of_singleton]%elem_of_app Heo; [by apply H2|done].
    + intros o [Ho| ->%list_elem_of_singleton]%elem_of_app; [by apply H|done].
  - assert (eligible mode matches_ r) as Hr by by rewrite He.
    destruct best as [[b p]|]; cbn in *.
    + destruct H as (-> & Hb & l1 & l2 & -> & H1 & H2). case_match eqn:E.
      * apply Z.ltb_lt in E. split; [done|]. split; [done|]. exists (l1 ++ b :: l2), [].
        split; [done|]. split; [|intros o Ho; by apply elem_of_nil in Ho].
        intros o Ho Heo. apply elem_of_app in Ho as [Ho|Ho]; [specialize (H1 o Ho Heo); lia|].
        apply elem_of_cons in Ho as [->|Ho]; [done|specialize (H2 o Ho Heo); lia].
      * apply Z.ltb_ge in E. split; [done|]. split; [done|]. exists l1, (l2 ++ [r]).
        rewrite <- app_assoc. split; [done|]. split; [done|].
        intros o [Ho| ->%list_elem_of_singleton]%elem_of_app Heo; [by apply H2|done].
    + split; [done|]. split; [done|]. exists routes, []. split; [done|].
      split; [|intros o Ho; by apply elem_of_nil in Ho]. intros o Ho Heo. by destruct (H o Ho).
Qed.

Lemma best_match_ok mode matches_ routes :
  best_so_far mode matches_ routes (fold_left (best_step mode matches_) routes None).
Proof.
  induction routes as [|r routes IH] using rev_ind; [intros o Ho; by apply elem_of_nil in Ho|].
  rewrite fold_left_app. by apply best_step_ok.
Qed.

Lemma best_match_elem mode matches_ routes r :
  best_match routes mode matches_ = Some r -> r ∈ routes.
Proof.
  pose proof (best_match_ok mode matches_ routes) as H. unfold best_match.
  destruct (fold_left _ routes None) as [[b p]|]; [|done]. intros [= <-].
  destruct H as (_ & _ & l1 & l2 & -> & _). set_solver.
Qed.

(** the most specific route wins, the earliest among equals.  A lookup
    answers with no route exactly when no route of the mode matches; otherwise
    it answers with one that matches, no other matching route is more specific
    (an exact host before a wildcard suffix before any host, then a port list
    before none, then an exact path before a prefix, then the longer path), and
    every matching route ahead of it in the table is strictly less specific:
    the weights of the numeric priority never let a lesser criterion outweigh
    a greater one. *)
Theorem best_match_most_specific routes mode matches_ :
  match best_match routes mode matches_ with
  | None => forall r, r ∈ routes -> ~ eligible mode matches_ r
  | Some r =>
      eligible mode matches_ r /\
      (forall o, o ∈ routes -> eligible mode matches_ o ->
         ~ lex_lt (specificity r) (specificity o)) /\
      exists l1 l2, routes = l1 ++ r :: l2 /\
        forall o, o ∈ l1 -> eligible mode matches_ o -> lex_lt (specificity o) (specificity r)
  end.
Proof.
  pose proof (best_match_ok mode matches_ routes) as H. unfold best_match.
  destruct (fold_left _ routes None) as [[r p]|]; [|done].
  destruct H as (-> & Hr & l1 & l2 & -> & H1 & H2). cbn [fmap option_fmap option_map fst].
  split; [done|]. split.
  - intros o Ho He. rewrite <- priority_lex.
    apply elem_of_app in Ho as [Ho|Ho]; [specialize (H1 o Ho He); lia|].
    apply elem_of_cons in Ho as [->|Ho]; [lia|specialize (H2 o Ho He); lia].
  - exists l1, l2. split; [done|]. intros o Ho He. rewrite <- priority_lex. auto.
Qed.

(** ** What a lookup leaves behind *)

(** The outstanding counts of every pool in the store. *)
Definition counts (pools : Pools) : gmap nat (list Z) :=
  (fun p => be_in_flight <$> backends p) <$> pools.

(** Every route's pool is in the store, and its counts are [usize]s. *)
Definition pools_ok (pools : Pools) (routes : list Route) : Prop :=
  (forall r, r ∈ routes -> is_Some (pools !! r_pool r)) /\
  (forall k p e, pools !! k = Some p -> e ∈ backends p -> is_uint 64 (be_in_flight e)).

(** One more request outstanding on the entry the lease holds. *)
Definition one_more (l : Lease) (before after : gmap nat (list Z)) : Prop :=
  after = alter (alter (fun n => wrapping 64 (n + 1)) (lease_idx l)) (lease_pool l) before.

Lemma counts_insert_same (pools : Pools) k p p' :
  pools !! k = Some p -> be_in_flight <$> backends p' = be_in_flight <$> backends p ->
  counts (<[k := p']> pools) = counts pools.
Proof.
  intros Hk Hc. unfold counts. rewrite fmap_insert, Hc. apply insert_id.
  by rewrite lookup_fmap, Hk.
Qed.

Lemma leased_counts (pools : Pools) k p p' i :
  pools !! k = Some p -> leased i p p' ->
  one_more {| lease_pool := k; lease_idx := i |} (counts pools) (counts (<[k := p']> pools)).
Proof.
  intros Hk (e & He & Hb & _). unfold one_more, counts. cbn [lease_pool lease_idx].
  rewrite fmap_insert, Hb. apply map_eq. intros j.
  destruct (decide (k = j)) as [<-|Hj].
  - rewrite lookup_insert_eq, lookup_alter_eq, lookup_fmap, Hk. cbn. f_equal.
    apply list_eq. intros n. rewrite list_lookup_fmap. destruct (decide (i = n)) as [<-|Hn].
    + rewrite list_lookup_insert_eq by by eapply lookup_lt_Some.
      by rewrite list_lookup_alter_eq, list_lookup_fmap, He.
    + by rewrite list_lookup_insert_ne, list_lookup_alter_ne, list_lookup_fmap by done.
  - by rewrite lookup_insert_ne, lookup_alter_ne by done.
Qed.

Lemma fmap_alter_commute {A B} (h : A -> B) f g (l : list A) i :
  (forall x, h (f x) = g (h x)) -> h <$> alter f i l = alter g i (h <$> l).
Proof.
  intros H. apply list_eq. intros n. rewrite list_lookup_fmap.
  destruct (decide (i = n)) as [<-|Hn].
  - rewrite !list_lookup_alter_eq, list_lookup_fmap. destruct (l !! i); [|done]. cbn. by rewrite H.
  - by rewrite !list_lookup_alter_ne, list_lookup_fmap by done.
Qed.

(** Releasing a lease takes back exactly the request it counted. *)
Lemma drop_lease_counts (pools pools' : Pools) l :
  (forall k p e, pools !! k = Some p -> e ∈ backends p -> is_uint 64 (be_in_flight e)) ->
  one_more l (counts pools) (counts pools') -> counts (drop_lease l pools') = counts pools.
Proof.
  intros Hok Hm. trans (alter (alter (fun n => wrapping 64 (n - 1)) (lease_idx l)) (lease_pool l)
                          (counts pools')).
  - unfold drop_lease, counts. apply map_eq. intros k. rewrite lookup_fmap.
    destruct (decide (lease_pool l = k)) as [<-|Hk].
    + rewrite !lookup_alter_eq, lookup_fmap. destruct (pools' !! lease_pool l) as [p|]; [|done].
      cbn. f_equal. by apply fmap_alter_commute.
    + by rewrite !lookup_alter_ne, lookup_fmap by done.
  - rewrite Hm. apply map_eq. intros k. destruct (decide (lease_pool l = k)) as [<-|Hk];
      [|by rewrite !lookup_alter_ne by done].
    rewrite !lookup_alter_eq. unfold counts. rewrite lookup_fmap.
    destruct (pools !! lease_pool l) as [p|] eqn:Ep; [|done]. cbn. f_equal.
    apply list_eq. intros n. destruct (decide (lease_idx l = n)) as [<-|Hn];
      [|by rewrite !list_lookup_alter_ne by done].
    rewrite !list_lookup_alter_eq, list_lookup_fmap.
    destruct (backends p !! lease_idx l) as [e|] eqn:Ee; [|done]. cbn. f_equal.
    apply list_elem_of_lookup_2 in Ee. specialize (Hok _ _ _ Ep Ee). unfold wrapping, is_uint in *.
    rewrite Zminus_mod_idemp_l. rewrite Z.mod_small; lia.
Qed.

(** What a selection through the store can be. *)
Lemma select_in_cases (pools : Pools) k p exclude now rand :
  pools !! k = Some p ->
  match select_in pools k exclude now rand with
  | (_, Panic) => False
  | (pools', Refused_) => pools' = pools /\ forall i, ~ serving now p i
  | (pools', Chosen e l) =>
      lease_pool l = k /\ one_more l (counts pools) (counts pools') /\
      (exists b, backends p !! lease_idx l = Some b /\ be_url e = be_url b /\ be_origin e = be_origin b) /\
      (serving now p (lease_idx l) \/ length (backends p) = 1%nat)
  end.
Proof.
  intros Hk. unfold select_in. rewrite Hk.
  pose proof (select_backend_cases exclude now rand p) as H.
  destruct (select_backend_excluding exclude now rand p) as [p' [| |i]]; [done| |].
  - destruct H as (-> & Hno & _). by rewrite insert_id.
  - destruct H as [Hl Hi]. pose proof Hl as (b & Hb & Hbs & _). rewrite Hbs.
    rewrite list_lookup_insert_eq by by eapply lookup_lt_Some.
    split; [done|]. split; [by eapply leased_counts|]. split; [by exists b|]. cbn. naive_solver.
Qed.

(** What the ACL says about the host and the port a client names. *)
Definition acl_admits (acl : option ClientAcl) (host : bytes) (port : option Z) : Prop :=
  forall a, acl = Some a ->
    acl_allows a host = true /\ forall p, port = Some p -> allows_port a p = true.

(** What a strict ACL says about the port a backend is served from. *)
Definition acl_admits_backend (url_parse : bytes -> result ParsedUrl bytes)
    (acl : option ClientAcl) (url : bytes) : Prop :=
  forall a p, acl = Some a -> backend_port url_parse url = Some p -> allows_backend_port a p = true.

(** The URL of the backend a lease holds. *)
Definition leased_url (pools : Pools) (l : Lease) : option bytes :=
  be_url <$> (pools !! lease_pool l ≫= fun p => backends p !! lease_idx l).

(** The route an L4 flow is answered by. *)
Definition l4_route (routes : list Route) (host : bytes) (port : Z) (mode : RouteMode) : option Route :=
  best_match routes mode (fun r => serves_l4 r (normalize_host host) port).

(** The same for an L4 lookup. *)
Lemma l4_lookup_cases routes pools host port mode now rand :
  pools_ok pools routes ->
  match get_l4_backend routes pools host port mode now rand with
  | None => False
  | Some (pools', NoRoute) => pools' = pools /\ l4_route routes host port mode = None
  | Some (pools', Unavailable) =>
      pools' = pools /\ exists r p, l4_route routes host port mode = Some r /\
        pools !! r_pool r = Some p /\ forall i, ~ serving now p i
  | Some (pools', Found info) =>
      one_more (l_lease info) (counts pools) (counts pools') /\
      leased_url pools (l_lease info) = Some (l_backend info) /\
      exists r, l4_route routes host port mode = Some r /\ lease_pool (l_lease info) = r_pool r
  end.
Proof.
  intros [Hin _]. unfold get_l4_backend. fold (l4_route routes host port mode).
  destruct (l4_route routes host port mode) as [r|] eqn:Er; [|done].
  destruct (Hin r) as [p Hp]; [by eapply best_match_elem|].
  pose proof (select_in_cases pools _ p [] now rand Hp) as H.
  destruct (select_in pools (r_pool r) [] now rand) as [pools' [| |e l]]; [done| |].
  - destruct H as [-> Hno]. eauto 8.
  - destruct H as (Hl & Hm & (b & Hb & Hub & _) & _). cbn [l_lease l_backend].
    split; [done|]. split; [|by exists r].
    unfold leased_url. rewrite Hl, Hp. cbn. rewrite Hb. cbn. by rewrite Hub.
Qed.

Section LookupTheorems.
Variable url_parse : bytes -> result ParsedUrl bytes.

(** The route an HTTP request is answered by. *)
Definition http_route (routes : list Route) (host path : bytes) : option Route :=
  best_match routes ModeHttp (fun r => serves_request r (normalize_host host) path).

(** What an HTTP lookup may answer, and what it may change. *)
Definition http_lookup_ok (routes : list Route) (pools : Pools) (host path : bytes)
    (port : option Z) (acl : option ClientAcl) (now : Z)
    (outcome : option (Pools * BackendLookup BackendInfo)) : Prop :=
  match outcome with
  | None => False
  | Some (pools', NoRoute) =>
      counts pools' = counts pools /\
      (~ acl_admits acl host port \/ http_route routes host path = None \/
       exists l url, leased_url pools l = Some url /\ ~ acl_admits_backend url_parse acl url)
  | Some (pools', Unavailable) =>
      pools' = pools /\ acl_admits acl host port /\
      exists r p, http_route routes host path = Some r /\
        pools !! r_pool r = Some p /\ forall i, ~ serving now p i
  | Some (pools', Found i) =>
      acl_admits acl host port /\ acl_admits_backend url_parse acl (i_url i) /\
      leased_url pools (i_lease i) = Some (i_url i) /\
      one_more (i_lease i) (counts pools) (counts pools') /\
      exists r e, http_route routes host path = Some r /\
        lease_pool (i_lease i) = r_pool r /\ i = info_of r e (i_lease i)
  end.

(** The two tests ahead of the routes, together. *)
Lemma acl_gate acl host port :
  acl_admits acl host port <->
  match acl with Some acl => negb (acl_allows acl host) | None => false end = false /\
  match acl, port with Some acl, Some port => negb (allows_port acl port) | _, _ => false end = false.
Proof.
  unfold acl_admits. destruct acl as [a|]; [|naive_solver].
  rewrite negb_false_iff. destruct port as [p|]; [rewrite negb_false_iff|]; naive_solver.
Qed.

Lemma acl_backend_gate acl url :
  acl_admits_backend url_parse acl url <->
  match acl, backend_port url_parse url with
  | Some acl, Some port => negb (allows_backend_port acl port)
  | _, _ => false
  end = false.
Proof.
  unfold acl_admits_backend. destruct acl as [a|]; [|naive_solver].
  destruct (backend_port url_parse url); [rewrite negb_false_iff|]; naive_solver.
Qed.

(** What an HTTP lookup comes to, by cases. *)
Lemma http_lookup_cases routes pools host path port acl exclude now rand :
  pools_ok pools routes ->
  http_lookup_ok routes pools host path port acl now
    (get_backend_with_acl_excluding url_parse routes pools host path port acl exclude now rand).
Proof.
  intros [Hin Hu]. unfold get_backend_with_acl_excluding, http_lookup_ok.
  pose proof (acl_gate acl host port) as Hg.
  destruct (match acl with Some acl => negb (acl_allows acl host) | None => false end);
    [naive_solver|].
  destruct (match acl, port with Some acl, Some port => negb (allows_port acl port)
            | _, _ => false end); [naive_solver|].
  assert (acl_admits acl host port) as Hadm by by apply Hg. clear Hg.
  fold (http_route routes host path). destruct (http_route routes host path) as [r|] eqn:Er; [|auto].
  assert (r ∈ routes) as Hr by by eapply best_match_elem.
  destruct (Hin r Hr) as [p Hp]. pose proof (select_in_cases pools _ p exclude now rand Hp) as H.
  destruct (select_in pools (r_pool r) exclude now rand) as [pools' [| |e l]]; [done| |].
  - destruct H as [-> Hno]. eauto 8.
  - destruct H as (Hl & Hm & (b & Hb & Hub & _) & _).
    assert (leased_url pools l = Some (be_url e)) as Hlu.
    { unfold leased_url. rewrite Hl, Hp. cbn. rewrite Hb. cbn. by rewrite Hub. }
    pose proof (acl_backend_gate acl (be_url e)) as Hg. destruct (match acl with Some _ => _ | None => _ end).
    + split; [by eapply drop_lease_counts|]. right. right. exists l, (be_url e).
      split; [done|]. by rewrite Hg.
    + cbn [i_url i_lease]. split; [done|]. split; [by apply Hg|]. split; [done|]. split; [done|].
      exists r, e. auto.
Qed.

(** C3: an HTTP lookup.  It never panics.  A backend is found only when the ACL
    allows the host, the port the client named and, under strict ports, the
    port the backend is served from; the answer is that of the best route, the
    backend is one of that route's pool, and exactly one more request is
    outstanding, on it.  A refusal leaves every outstanding count as it was:
    the lease taken before the backend's port was found forbidden is given
    back.  [Unavailable] means the route has nothing serving, never that the
    client was not allowed. *)
Theorem http_lookup_spec routes pools host path port acl exclude now rand :
  pools_ok pools routes ->
  http_lookup_ok routes pools host path port acl now
    (get_backend_with_acl_excluding url_parse routes pools host path port acl exclude now rand).
Proof. apply http_lookup_cases. Qed.
End LookupTheorems.

(** A table of one route over the sample pool. *)
Definition sample_pools : Pools := {[ 0%nat := sample_pool ]}.

Lemma sample_pools_ok : pools_ok sample_pools [sample_route].
Proof.
  split.
  - intros r ->%list_elem_of_singleton. exists sample_pool. reflexivity.
  - intros k p e Hk He. destruct (decide (k = 0%nat)) as [->|Hne].
    + change (sample_pools !! 0%nat) with (Some sample_pool) in Hk. simplify_eq.
      repeat (apply elem_of_cons in He as [->|He]; [split; [discriminate|reflexivity]|]).
      by apply elem_of_nil in He.
    + unfold sample_pools in Hk. rewrite lookup_singleton_ne in Hk by done. discriminate.
Qed.

Lemma http_lookup_spec_witness :
  http_lookup_ok (fun _ => Err []) [sample_route] sample_pools (lit "a.example.com") (lit "/api/x")
    (Some 443) None 0
    (get_backend_with_acl_excluding (fun _ => Err []) [sample_route] sample_pools
       (lit "a.example.com") (lit "/api/x") (Some 443) None [] 0 0).
Proof.
  apply http_lookup_spec. exact sample_pools_ok.
Defined.

(** The reload of a table with two routes of one key, that differ in the ports
    they serve alone: reloading the very same configuration gives the first
    route the pool of the second, and the second a fresh one; the first
    route's own pool is lost. *)
Definition ported (ports : list Z) (pool : nat) : Route := {|
  r_host_pattern := lit "db.example.com"; r_path_pattern := lit "/"; r_path_is_prefix := true;
  r_modes := [ModeTcp]; r_pool := pool; r_backend_protocol := Http1; r_path_rewrite := None;
  r_l4 := {| client_ports := Some ports; idle_timeout := None; flow_timeout := None |} |}.

Example reload_swaps_pools :
  let pools := list_to_map ((fun k => (k, sample_pool)) <$> seq 0 4) in
  r_pool <$> update_routes (fun s => s) pools
    [ported [5432] 0; ported [5433] 1] [ported [5432] 2; ported [5433] 3] = [1; 3]%nat.
Proof. vm_compute. reflexivity. Qed.
