(* ===== verification/Limits.v ===== *)
(** * The process's ceilings (nexapipe/src/conn/limits/).

    Three parts: the byte budget, with the compare-and-swap loop of its
    [release] split into its atomic steps so that releases can interleave; the
    connection limiter with the guards alive on it; and the resolution of the
    ceilings from the file and the environment.  The invariants say that the
    counters are exactly what is held, whatever the interleaving, and that the
    ceilings are never exceeded. *)

From S2P Require Import Prelude RustStd.

(** ** The byte budget (budget.rs) *)

Definition DEFAULT_MAX_BODY_BYTES_GLOBAL : Z := 1024 * 1024 * 1024.

Record ByteBudget := { b_held : Z; b_max : Z }.

Definition budget_new (max_ : Z) : ByteBudget := {| b_held := 0; b_max := max_ |}.
Definition set_max (max_ : Z) (b : ByteBudget) : ByteBudget := {| b_held := b_held b; b_max := max_ |}.

(** [try_update] is one atomic step; [Err] carries the total before it. *)
Definition try_reserve (bytes_ : Z) (b : ByteBudget) : result ByteBudget Z :=
  let next := saturating_add 64 (b_held b) bytes_ in
  if next <=? b_max b then Ok {| b_held := next; b_max := b_max b |} else Err (b_held b).

(** One turn of the loop in [release]: the exchange of the value last seen. *)
Definition release_exchange (current bytes_ : Z) (b : ByteBudget) : option ByteBudget :=
  let next := saturating_sub current bytes_ in
  if b_held b =? current then Some {| b_held := next; b_max := b_max b |} else None.

(** A reservation is the bytes it holds; [grow] adds, [shrink] gives back at
    most what is there, [Drop] releases what is left. *)
Definition take_from (b : ByteBudget) (bytes_ : Z) : result (ByteBudget * Z) Z :=
  let? b' := try_reserve bytes_ b in Ok (b', bytes_).
Definition grow (b : ByteBudget) (reservation bytes_ : Z) : result (ByteBudget * Z) Z :=
  let? b' := try_reserve bytes_ b in Ok (b', wrapping 64 (reservation + bytes_)).
(** The reservation after, and how much [release] is called with. *)
Definition shrink (reservation bytes_ : Z) : Z * Z :=
  let released := Z.min bytes_ reservation in
  (reservation - released, released).

(** Everything that shares one budget: the reservations alive, and the
    releases under way, each with what it gives back and the total it last
    saw. *)
Record Budgeted := {
  budget : ByteBudget;
  reservations : list Z;
  releasing : list (Z * Z);
}.

Inductive budget_step : Budgeted -> Budgeted -> Prop :=
| B_take bytes_ b b' r rs rel :
    0 <= bytes_ -> take_from b bytes_ = Ok (b', r) ->
    budget_step {| budget := b; reservations := rs; releasing := rel |}
                {| budget := b'; reservations := r :: rs; releasing := rel |}
| B_grow bytes_ b b' r r' rs1 rs2 rel :
    0 <= bytes_ -> grow b r bytes_ = Ok (b', r') ->
    budget_step {| budget := b; reservations := rs1 ++ r :: rs2; releasing := rel |}
                {| budget := b'; reservations := rs1 ++ r' :: rs2; releasing := rel |}
| B_shrink bytes_ b r r' released rs1 rs2 rel :
    0 <= bytes_ -> shrink r bytes_ = (r', released) ->
    budget_step {| budget := b; reservations := rs1 ++ r :: rs2; releasing := rel |}
                {| budget := b; reservations := rs1 ++ r' :: rs2;
                   releasing := (released, b_held b) :: rel |}
| B_drop b r rs1 rs2 rel :
    budget_step {| budget := b; reservations := rs1 ++ r :: rs2; releasing := rel |}
                {| budget := b; reservations := rs1 ++ rs2;
                   releasing := (if 0 <? r then [(r, b_held b)] else []) ++ rel |}
| B_exchanged b b' n current rs rel1 rel2 :
    release_exchange current n b = Some b' ->
    budget_step {| budget := b; reservations := rs; releasing := rel1 ++ (n, current) :: rel2 |}
                {| budget := b'; reservations := rs; releasing := rel1 ++ rel2 |}
(** The weak exchange may fail at any time; it then sees the total as it is. *)
| B_retry b n current rs rel1 rel2 :
    budget_step {| budget := b; reservations := rs; releasing := rel1 ++ (n, current) :: rel2 |}
                {| budget := b; reservations := rs; releasing := rel1 ++ (n, b_held b) :: rel2 |}.

Definition zsum (l : list Z) : Z := foldr Z.add 0 l.

Lemma zsum_app l k : zsum (l ++ k) = zsum l + zsum k.
Proof. induction l as [|x l IH]; simpl in *; [done|]. rewrite IH. lia. Qed.

Lemma zsum_cons x l : zsum (x :: l) = x + zsum l.
Proof. done. Qed.

Lemma zsum_nonneg l : Forall (fun x => 0 <= x) l -> 0 <= zsum l.
Proof. induction 1; simpl; lia. Qed.

(** The counter is what the reservations hold and what is still to be given
    back; nothing is negative, and the ceiling holds. *)
Record budget_inv (s : Budgeted) : Prop := {
  inv_held : b_held (budget s) = zsum (reservations s) + zsum (releasing s).*1;
  inv_reservations : Forall (fun r => 0 <= r) (reservations s);
  inv_releasing : Forall (fun r => 0 <= r) (releasing s).*1;
  inv_max : b_held (budget s) <= b_max (budget s) < umax 64;
}.

Lemma try_reserve_spec n b b' :
  0 <= n -> b_held b <= b_max b < umax 64 -> 0 <= b_held b -> try_reserve n b = Ok b' ->
  b_held b' = b_held b + n /\ b_max b' = b_max b /\ b_held b' <= b_max b'.
Proof.
  intros Hn Hm Hh. unfold try_reserve. destruct (_ <=? _) eqn:E; [|done]. intros [= <-].
  bools. unfold saturating_add, umax in *. simpl in *. lia.
Qed.

Lemma budget_inv_step s s' : budget_step s s' -> budget_inv s -> budget_inv s'.
Proof.
  intros Hstep [Hh Hr Hl Hm]. pose proof (zsum_nonneg _ Hr). pose proof (zsum_nonneg _ Hl).
  assert (Hh0 : 0 <= b_held (budget s)) by lia.
  destruct Hstep as [n b b' r rs rel Hn E|n b b' r r' rs1 rs2 rel Hn E|n b r r' k rs1 rs2 rel Hn E
    |b r rs1 rs2 rel|b b' n c rs rel1 rel2 E|b n c rs rel1 rel2]; cbn [budget reservations releasing] in *.
  - unfold take_from in E. destruct (try_reserve n b) eqn:Et; simplify_eq.
    destruct (try_reserve_spec _ _ _ Hn Hm Hh0 Et) as (Hb & Hmx & Hle).
    split; cbn [budget reservations releasing b_held b_max app fmap list_fmap fst]; rewrite ?zsum_cons; [lia|by constructor|done|lia].
  - unfold grow in E. destruct (try_reserve n b) eqn:Et; simplify_eq.
    destruct (try_reserve_spec _ _ _ Hn Hm Hh0 Et) as (Hb & Hmx & Hle).
    rewrite zsum_app, zsum_cons in *.
    rewrite Forall_app, Forall_cons in Hr. destruct Hr as (Hr1 & Hr0 & Hr2).
    pose proof (zsum_nonneg _ Hr1). pose proof (zsum_nonneg _ Hr2).
    rewrite wrapping_small by (unfold is_uint, umax in *; lia).
    split; cbn [budget reservations releasing b_held b_max app fmap list_fmap fst]; rewrite ?zsum_app, ?zsum_cons; [lia| |done|lia].
    rewrite Forall_app, Forall_cons. auto with lia.
  - unfold shrink in E. simplify_eq. rewrite zsum_app, zsum_cons in *.
    rewrite Forall_app, Forall_cons in Hr. destruct Hr as (Hr1 & Hr0 & Hr2).
    split; cbn [budget reservations releasing b_held b_max app fmap list_fmap fst]; rewrite ?zsum_app, ?zsum_cons; [lia| | |lia].
    + rewrite Forall_app, Forall_cons. auto with lia.
    + constructor; [lia|done].
  - rewrite zsum_app, zsum_cons in *. rewrite Forall_app, Forall_cons in Hr.
    destruct Hr as (Hr1 & Hr0 & Hr2). destruct (0 <? r) eqn:E; bools.
    + split; cbn [budget reservations releasing b_held b_max app fmap list_fmap fst]; rewrite ?zsum_app, ?zsum_cons; [lia|by apply Forall_app|constructor; [lia|done]|lia].
    + split; cbn [budget reservations releasing b_held b_max app fmap list_fmap fst]; rewrite ?zsum_app, ?zsum_cons; [lia|by apply Forall_app|done|lia].
  - unfold release_exchange in E. destruct (b_held b =? c) eqn:Ec; simplify_eq. bools.
    rewrite fmap_app, zsum_app, fmap_cons, zsum_cons in *. cbn [fst] in *. rewrite Forall_app, Forall_cons in Hl.
    destruct Hl as (Hl1 & Hl0 & Hl2). pose proof (zsum_nonneg _ Hl1). pose proof (zsum_nonneg _ Hl2).
    unfold saturating_sub. split; cbn [budget reservations releasing b_held b_max app fmap list_fmap fst]; rewrite ?fmap_app, ?zsum_app, ?fmap_cons, ?zsum_cons; [lia|done|by apply Forall_app|lia].
  - rewrite fmap_app, zsum_app, fmap_cons, zsum_cons in *. cbn [fst] in *.
    split; cbn [budget reservations releasing b_held b_max app fmap list_fmap fst]; rewrite ?fmap_app, ?zsum_app, ?fmap_cons, ?zsum_cons; done.
Qed.

(** C9: the budget never lies, whatever the interleaving.  In every state any
    number of concurrent readers can reach, through reservations, growth,
    give-backs and drops whose compare-and-swap loops interleave and retry
    freely, the counter is exactly the bytes the reservations hold plus the
    releases still under way, and it never exceeds the ceiling; once everybody
    is done it is zero again.  (The one ceiling this excludes is [usize::MAX]
    itself, where the saturating addition would hide an excess.) *)
Theorem budget_exact ceiling s :
  0 <= ceiling < umax 64 ->
  rtc budget_step {| budget := budget_new ceiling; reservations := []; releasing := [] |} s ->
  b_held (budget s) = zsum (reservations s) + zsum (releasing s).*1 /\
  zsum (reservations s) <= b_held (budget s) <= b_max (budget s) /\
  (reservations s = [] -> releasing s = [] -> b_held (budget s) = 0).
Proof.
  intros Hc Hr. assert (budget_inv s) as [Hh Hr' Hl Hm].
  { assert (budget_inv {| budget := budget_new ceiling; reservations := []; releasing := [] |}) as H0.
    { by split; simpl; try constructor; try lia. }
    induction Hr; eauto using budget_inv_step. }
  pose proof (zsum_nonneg _ Hl). split; [done|]. split; [lia|].
  intros E1 E2. rewrite E1, E2 in Hh. done.
Qed.

Lemma budget_exact_witness :
  exists s, reservations s = [30] /\ b_held (budget s) = 30 + zsum (releasing s).*1 /\
    releasing s = [(20, 50)].
Proof.
  assert (Hr : rtc budget_step
    {| budget := budget_new 100; reservations := []; releasing := [] |}
    {| budget := {| b_held := 50; b_max := 100 |}; reservations := [30]; releasing := [(20, 50)] |}).
  { eapply rtc_l; [eapply (B_take 20); [discriminate|vm_compute; reflexivity]|].
    eapply rtc_l; [eapply (B_grow 30 _ _ _ _ [] []); [discriminate|vm_compute; reflexivity]|].
    eapply rtc_l; [eapply (B_shrink 20 _ _ _ _ [] []); [discriminate|vm_compute; reflexivity]|].
    apply rtc_refl. }
  eexists. split; [|split; [apply (budget_exact 100 _ ltac:(vm_compute; split; [discriminate|reflexivity]) Hr)|]];
    reflexivity.
Defined.

(** ** The connection limiter (connections.rs) *)

Definition DEFAULT_MAX_CONNECTIONS_PER_PEER : Z := 64.
Definition DEFAULT_MAX_CONNECTIONS_GLOBAL : Z := 64 * 64.
Definition DEFAULT_MAX_STREAMS_GLOBAL : Z := 64 * 256.

Section Connections.
(** [EndpointId]: a public key, compared for equality and hashed. *)
Context {EndpointId : Type} `{Countable EndpointId}.

Record Counts := { per_peer : gmap EndpointId Z; total : Z }.
Record ConnectionLimiter := { counts : Counts; max_per_peer : Z; max_global : Z }.

(** What a guard gives back when it is dropped. *)
Inductive Guard := PeerGuard (peer : EndpointId) | GlobalGuard.

Definition with_caps (max_per_peer_ max_global_ : Z) : ConnectionLimiter := {|
  counts := {| per_peer := ∅; total := 0 |};
  max_per_peer := max_per_peer_;
  max_global := max_global_ |}.

Definition limiter_new (max_per_peer_ : Z) : ConnectionLimiter :=
  with_caps max_per_peer_ (umax 64).

Definition with_counts (c : Counts) (l : ConnectionLimiter) : ConnectionLimiter :=
  {| counts := c; max_per_peer := max_per_peer l; max_global := max_global l |}.

Definition limiter_count (peer : EndpointId) (l : ConnectionLimiter) : Z :=
  default 0 (per_peer (counts l) !! peer).

Definition try_acquire (peer : EndpointId) (l : ConnectionLimiter)
    : option (ConnectionLimiter * Guard) :=
  let current := default 0 (per_peer (counts l) !! peer) in
  if (max_per_peer l <=? current) || (max_global l <=? total (counts l)) then None
  else Some (with_counts {| per_peer := <[peer := current + 1]> (per_peer (counts l));
                            total := total (counts l) + 1 |} l, PeerGuard peer).

Definition try_acquire_global (l : ConnectionLimiter) : option (ConnectionLimiter * Guard) :=
  if max_global l <=? total (counts l) then None
  else Some (with_counts {| per_peer := per_peer (counts l); total := total (counts l) + 1 |} l,
             GlobalGuard).

Definition release_global (l : ConnectionLimiter) : ConnectionLimiter :=
  with_counts {| per_peer := per_peer (counts l);
                 total := saturating_sub (total (counts l)) 1 |} l.

Definition release (peer : EndpointId) (l : ConnectionLimiter) : ConnectionLimiter :=
  let m := per_peer (counts l) in
  with_counts
    {| per_peer := match m !! peer with
                   | Some n => let n := saturating_sub n 1 in
                               if n =? 0 then delete peer m else <[peer := n]> m
                   | None => m
                   end;
       total := saturating_sub (total (counts l)) 1 |} l.

(** [Drop] of either guard. *)
Definition guard_drop (g : Guard) (l : ConnectionLimiter) : ConnectionLimiter :=
  match g with PeerGuard peer => release peer l | GlobalGuard => release_global l end.

(** A limiter and the guards alive on it; every operation holds the mutex. *)
Record Limited := { limiter : ConnectionLimiter; guards : list Guard }.

Inductive limiter_step : Limited -> Limited -> Prop :=
| L_acquire peer l l' g gs :
    try_acquire peer l = Some (l', g) ->
    limiter_step {| limiter := l; guards := gs |} {| limiter := l'; guards := g :: gs |}
| L_acquire_global l l' g gs :
    try_acquire_global l = Some (l', g) ->
    limiter_step {| limiter := l; guards := gs |} {| limiter := l'; guards := g :: gs |}
| L_drop l g gs1 gs2 :
    limiter_step {| limiter := l; guards := gs1 ++ g :: gs2 |}
                 {| limiter := guard_drop g l; guards := gs1 ++ gs2 |}.

Definition guard_is (peer : EndpointId) (g : Guard) : bool :=
  match g with PeerGuard p => bool_decide (p = peer) | GlobalGuard => false end.

(** How many connections of [peer] are alive. *)
Definition alive (peer : EndpointId) (gs : list Guard) : Z :=
  len (filter (fun g => guard_is peer g = true) gs).

(** A map that holds [n] for a key exactly when [n] is positive. *)
Definition counted (n : Z) : option Z := if n =? 0 then None else Some n.

Record limiter_inv (s : Limited) : Prop := {
  inv_total : total (counts (limiter s)) = len (guards s);
  inv_per_peer : forall peer, per_peer (counts (limiter s)) !! peer = counted (alive peer (guards s));
  inv_caps : forall peer, alive peer (guards s) <= max_per_peer (limiter s);
  inv_global : len (guards s) <= max_global (limiter s);
}.

Lemma alive_cons peer g gs :
  alive peer (g :: gs) = (if guard_is peer g then 1 else 0) + alive peer gs.
Proof.
  unfold alive. rewrite filter_cons. destruct (guard_is peer g).
  - rewrite decide_True by done. apply len_cons.
  - by rewrite decide_False by done.
Qed.

Lemma alive_middle peer g gs1 gs2 :
  alive peer (gs1 ++ g :: gs2) = alive peer (g :: gs1 ++ gs2).
Proof. unfold alive, len. by rewrite <- (Permutation_middle gs1 gs2 g). Qed.

Lemma alive_nonneg peer gs : 0 <= alive peer gs.
Proof. apply len_nonneg. Qed.

Lemma default_counted n : 0 <= n -> default 0 (counted n) = n.
Proof. intros. unfold counted. destruct (n =? 0) eqn:E; bools; by subst. Qed.

Lemma limiter_inv_drop g l gs :
  limiter_inv {| limiter := l; guards := g :: gs |} ->
  limiter_inv {| limiter := guard_drop g l; guards := gs |}.
Proof.
  intros [Ht Hp Hc Hg]. cbn [limiter guards] in *. rewrite len_cons in *.
  pose proof (len_nonneg gs).
  assert (forall peer, alive peer gs <= max_per_peer l) as Hcaps.
  { intros peer. specialize (Hc peer). rewrite alive_cons in Hc. case_match; lia. }
  destruct g as [p|]; simpl; split; cbn [limiter guards counts with_counts release release_global
    total per_peer max_per_peer max_global]; try done; try (unfold saturating_sub; lia).
  - intros peer. pose proof (Hp p) as Hpp. rewrite Hpp. specialize (Hp peer).
    rewrite alive_cons in *. pose proof (alive_nonneg peer gs). pose proof (alive_nonneg p gs).
    assert (guard_is p (PeerGuard p) = true) as Hpg by by apply bool_decide_eq_true_2.
    rewrite Hpg in *. unfold counted at 1. rewrite (proj2 (Z.eqb_neq _ _)) by lia.
    unfold saturating_sub. replace (Z.max (1 + alive p gs - 1) 0) with (alive p gs) by lia.
    destruct (decide (p = peer)) as [<-|Hne].
    + destruct (alive p gs =? 0) eqn:E; unfold counted; rewrite E;
        [by rewrite lookup_delete_eq|by rewrite lookup_insert_eq].
    + assert (guard_is peer (PeerGuard p) = false) as Hf by by apply bool_decide_eq_false_2.
      rewrite Hf in Hp. simpl in Hp.
      destruct (alive p gs =? 0); [rewrite lookup_delete_ne by done|rewrite lookup_insert_ne by done];
        done.
Qed.

Lemma limiter_inv_step s s' : limiter_step s s' -> limiter_inv s -> limiter_inv s'.
Proof.
  destruct 1 as [peer l l' g gs E|l l' g gs E|l g gs1 gs2]; intros Hinv.
  - destruct Hinv as [Ht Hp Hc Hg]. unfold try_acquire in E.
    destruct (_ || _) eqn:Eb; simplify_eq. bools. cbn [limiter guards] in *.
    rewrite Hp, default_counted in * by apply alive_nonneg.
    split; cbn [limiter guards with_counts counts total per_peer max_per_peer max_global].
    + rewrite len_cons. lia.
    + intros q. rewrite alive_cons. destruct (decide (peer = q)) as [<-|Hne].
      * rewrite lookup_insert_eq. unfold guard_is. rewrite bool_decide_eq_true_2 by done.
        unfold counted. pose proof (alive_nonneg peer gs).
        rewrite (proj2 (Z.eqb_neq _ _)) by lia. f_equal. lia.
      * rewrite lookup_insert_ne by done. unfold guard_is. by rewrite bool_decide_eq_false_2.
    + intros q. rewrite alive_cons. unfold guard_is. specialize (Hc q).
      case_bool_decide; subst; lia.
    + rewrite len_cons. lia.
  - destruct Hinv as [Ht Hp Hc Hg]. unfold try_acquire_global in E.
    destruct (_ <=? _) eqn:Eb; simplify_eq. bools. cbn [limiter guards] in *.
    split; cbn [limiter guards with_counts counts total per_peer max_per_peer max_global];
      rewrite ?len_cons; try lia; done.
  - apply limiter_inv_drop. destruct Hinv as [Ht Hp Hc Hg]. cbn [limiter guards] in *.
    assert (len (gs1 ++ g :: gs2) = len (g :: gs1 ++ gs2)) as Hlen by (simp_len; lia).
    split; cbn [limiter guards]; rewrite <- ?Hlen; try done; intros peer;
      rewrite <- alive_middle; done.
Qed.

Lemma limiter_step_caps s s' :
  limiter_step s s' ->
  max_per_peer (limiter s') = max_per_peer (limiter s) /\
  max_global (limiter s') = max_global (limiter s).
Proof.
  destruct 1 as [????? E|???? E|? [|] ??]; simpl in *; try done;
    unfold try_acquire, try_acquire_global in E; case_match; by simplify_eq.
Qed.

(** the connection caps hold, exactly.  In every state the limiter can
    reach, through any interleaving of acquisitions and drops, the total is the
    number of guards alive and is at most the global cap, each peer's count is
    the number of its guards alive and is at most the per-peer cap, and a peer
    with no connection has no entry in the map.  A peer is refused exactly when
    one of the two caps is reached. *)
Theorem connection_caps_exact per_peer_cap global_cap s :
  0 <= per_peer_cap -> 0 <= global_cap ->
  rtc limiter_step {| limiter := with_caps per_peer_cap global_cap; guards := [] |} s ->
  total (counts (limiter s)) = len (guards s) /\ len (guards s) <= global_cap /\
  forall peer,
    per_peer (counts (limiter s)) !! peer = counted (alive peer (guards s)) /\
    alive peer (guards s) <= per_peer_cap /\
    (try_acquire peer (limiter s) = None <->
     alive peer (guards s) = per_peer_cap \/ len (guards s) = global_cap).
Proof.
  intros Hp Hg Hr.
  assert (limiter_inv s /\ max_per_peer (limiter s) = per_peer_cap /\
          max_global (limiter s) = global_cap) as (Hinv & Hmp & Hmg).
  { assert (limiter_inv {| limiter := with_caps per_peer_cap global_cap; guards := [] |}) as H0
      by by split.
    remember {| limiter := with_caps per_peer_cap global_cap; guards := [] |} as s0 eqn:Es.
    assert (max_per_peer (limiter s0) = per_peer_cap /\ max_global (limiter s0) = global_cap) as H1
      by by subst.
    clear Es. induction Hr as [|s1 s2 s3 Hstep _ IH]; [done|]. apply limiter_step_caps in Hstep as Hcaps.
    apply IH; [by eapply limiter_inv_step|]. by rewrite (proj1 Hcaps), (proj2 Hcaps). }
  destruct Hinv as [Ht Hpp Hc Hgl]. rewrite Hmg in *. split; [done|]. split; [done|].
  intros peer. specialize (Hc peer). rewrite Hmp in Hc. split; [done|]. split; [done|].
  unfold try_acquire. rewrite Hpp, default_counted, Ht, Hmp, Hmg by apply alive_nonneg.
  destruct (_ || _) eqn:E; bools; [|split; [done|lia]]. split; [|done]. intros _.
  destruct E; bools; lia.
Qed.

End Connections.

Lemma connection_caps_exact_witness :
  let s : Limited := {| limiter := {| counts := {| per_peer := <[7%nat := 1]> ∅; total := 1 |};
                                      max_per_peer := 1; max_global := 4 |};
                        guards := [PeerGuard 7%nat] |} in
  try_acquire 7%nat (limiter s) = None.
Proof.
  intros s. apply (connection_caps_exact 1 4 s).
  - vm_compute. discriminate.
  - vm_compute. discriminate.
  - eapply rtc_l; [eapply (L_acquire 7%nat); vm_compute; reflexivity|]. apply rtc_refl.
  - left. vm_compute. reflexivity.
Defined.

(** ** Where the ceilings come from (config.rs) *)

Record LimitsConfig := {
  lc_max_connections_per_peer : option Z;
  lc_max_connections_global : option Z;
  lc_max_streams_global : option Z;
  lc_max_body_bytes : option Z;
}.

(** The variables of the environment, by name. *)
Abbreviation Environment := (gmap string bytes).

Definition parse_max (raw : bytes) : option Z :=
  match parse_usize (trim raw) with
  | None => None
  | Some n => if n =? 0 then None else Some n
  end.

Definition cap_from_env (env : Environment) (var : string) : option Z :=
  let! raw := env !! var in parse_max raw.

Record EnvCaps := {
  ec_max_connections_per_peer : option Z;
  ec_max_connections_global : option Z;
  ec_max_streams_global : option Z;
  ec_max_body_bytes : option Z;
}.

Definition from_environment (env : Environment) : EnvCaps := {|
  ec_max_connections_per_peer := cap_from_env env "NEXAPIPE_MAX_CONNS_PER_PEER";
  ec_max_connections_global := cap_from_env env "NEXAPIPE_MAX_CONNS";
  ec_max_streams_global := cap_from_env env "NEXAPIPE_MAX_STREAMS";
  ec_max_body_bytes := cap_from_env env "NEXAPIPE_MAX_BODY_BYTES";
|}.

(** The error names the key that is zero. *)
Definition resolve_one (key : string) (from_config from_env : option Z) (default_ : Z)
    : result Z string :=
  let from_env := match from_env with
                  | Some value => if 0 <? value then Some value else None
                  | None => None
                  end in
  match from_config with
  | Some value =>
      if value =? 0 then Err key
      else match from_env with Some env_value => Ok env_value | None => Ok value end
  | None => Ok (default default_ from_env)
  end.

Record Limits := {
  l_max_connections_per_peer : Z;
  l_max_connections_global : Z;
  l_max_streams_global : Z;
  l_max_body_bytes : Z;
}.

Definition limits_resolve (config : LimitsConfig) (env : EnvCaps) : result Limits string :=
  let? a := resolve_one "[limits] max_connections_per_peer"
              (lc_max_connections_per_peer config) (ec_max_connections_per_peer env)
              DEFAULT_MAX_CONNECTIONS_PER_PEER in
  let? b := resolve_one "[limits] max_connections_global"
              (lc_max_connections_global config) (ec_max_connections_global env)
              DEFAULT_MAX_CONNECTIONS_GLOBAL in
  let? c := resolve_one "[limits] max_streams_global"
              (lc_max_streams_global config) (ec_max_streams_global env)
              DEFAULT_MAX_STREAMS_GLOBAL in
  let? d := resolve_one "[limits] max_body_bytes"
              (lc_max_body_bytes config) (ec_max_body_bytes env)
              DEFAULT_MAX_BODY_BYTES_GLOBAL in
  Ok {| l_max_connections_per_peer := a; l_max_connections_global := b;
        l_max_streams_global := c; l_max_body_bytes := d |}.

(** A usable ceiling from the environment, the file or the default, in that
    order of preference. *)
Definition ceiling (env config : option Z) (default_ : Z) : Z :=
  match env with
  | Some v => v
  | None => match config with Some v => v | None => default_ end
  end.

Definition config_values (c : LimitsConfig) : list (option Z) :=
  [lc_max_connections_per_peer c; lc_max_connections_global c; lc_max_streams_global c;
   lc_max_body_bytes c].

Lemma cap_from_env_pos env var v : cap_from_env env var = Some v -> 0 < v.
Proof.
  unfold cap_from_env, parse_max. destruct (env !! var); [|done].
  destruct (parse_usize _) as [n|] eqn:E; [|done]. destruct (n =? 0) eqn:E0; [done|].
  intros [= <-]. bools. apply parse_uint_range in E; unfold umax in *; lia.
Qed.

Lemma resolve_one_spec key config env default_ :
  (forall v, env = Some v -> 0 < v) ->
  resolve_one key config env default_ =
  if bool_decide (config = Some 0) then Err key else Ok (ceiling env config default_).
Proof.
  intros He. unfold resolve_one, ceiling.
  assert (match env with Some v => if 0 <? v then Some v else None | None => None end = env) as ->.
  { destruct env as [v|]; [|done]. by rewrite (proj2 (Z.ltb_lt _ _)) by auto. }
  destruct config as [v|]; [|by destruct env].
  destruct (v =? 0) eqn:E; bools; [by subst|].
  rewrite bool_decide_eq_false_2 by congruence. by destruct env.
Qed.

(** The ceilings the process runs with.  Starting fails exactly when the
    file writes a zero; otherwise each ceiling is the environment's when the
    variable is a positive number, else the file's, else the default, and no
    ceiling is ever zero, so no source can take the listener offline. *)
Theorem limits_resolve_spec config env :
  Forall (fun v => forall n, v = Some n -> 0 <= n) (config_values config) ->
  match limits_resolve config (from_environment env) with
  | Err _ => Some 0 ∈ config_values config
  | Ok l =>
      Some 0 ∉ config_values config /\
      l_max_connections_per_peer l =
        ceiling (cap_from_env env "NEXAPIPE_MAX_CONNS_PER_PEER")
          (lc_max_connections_per_peer config) DEFAULT_MAX_CONNECTIONS_PER_PEER /\
      l_max_connections_global l =
        ceiling (cap_from_env env "NEXAPIPE_MAX_CONNS")
          (lc_max_connections_global config) DEFAULT_MAX_CONNECTIONS_GLOBAL /\
      l_max_streams_global l =
        ceiling (cap_from_env env "NEXAPIPE_MAX_STREAMS")
          (lc_max_streams_global config) DEFAULT_MAX_STREAMS_GLOBAL /\
      l_max_body_bytes l =
        ceiling (cap_from_env env "NEXAPIPE_MAX_BODY_BYTES")
          (lc_max_body_bytes config) DEFAULT_MAX_BODY_BYTES_GLOBAL /\
      0 < l_max_connections_per_peer l /\ 0 < l_max_connections_global l /\
      0 < l_max_streams_global l /\ 0 < l_max_body_bytes l
  end.
Proof.
  intros Hc. unfold limits_resolve, from_environment. cbn [ec_max_connections_per_peer
    ec_max_connections_global ec_max_streams_global ec_max_body_bytes].
  rewrite !resolve_one_spec by apply cap_from_env_pos.
  unfold config_values in *. rewrite !Forall_cons in Hc. destruct Hc as (H1 & H2 & H3 & H4 & _).
  assert (forall var config d, (forall n, config = Some n -> 0 <= n) -> config <> Some 0 -> 0 < d ->
    0 < ceiling (cap_from_env env var) config d) as Hpos.
  { intros var c d Hn Hz Hd. unfold ceiling. destruct (cap_from_env env var) as [v|] eqn:E.
    - by eapply cap_from_env_pos. 
    - destruct c as [v|]; [|done]. specialize (Hn v eq_refl).
      destruct (decide (v = 0)); [by subst|lia]. }
  repeat (case_bool_decide; [rewrite !elem_of_cons; auto 6|]). simpl.
  rewrite !not_elem_of_cons. repeat match goal with |- _ /\ _ => split end;
    try done; try congruence; try apply not_elem_of_nil; apply Hpos; done.
Qed.

Definition sample_limits : LimitsConfig := {|
  lc_max_connections_per_peer := Some 8; lc_max_connections_global := None;
  lc_max_streams_global := Some 100; lc_max_body_bytes := None |}.

Lemma sample_limits_typed :
  Forall (fun v => forall n, v = Some n -> 0 <= n) (config_values sample_limits).
Proof.
  unfold config_values. rewrite !Forall_cons, Forall_nil.
  repeat split; intros n E; by inversion E.
Qed.

