(* ===== verification/Health.v ===== *)
(** * Health checks (nexapipe/src/health/mod.rs, nexapipe/src/proxy/health.rs)

    A checker probes the backends of one pool, round after round, and moves their health
    flag; [sync_health_checks] keeps one checker for each pool the routes want probed.
    What a probe is answered is an argument, and so is what the traffic does to the pool
    between two probes.  A task is a number; an aborted task is no longer in the table of
    tasks.

    The file shows that a backend is out of the rotation exactly while it has failed in
    [threshold] rounds in a row, whatever the pool names twice and whatever happens in
    between, and that the checkers running are those of the routes. *)

From S2P Require Import Prelude RustStd Lb Routes.

(** ** One probe *)

(** The wait before the first round, in nanoseconds. *)
Definition startup_jitter (subsec_nanos interval : Z) : Z :=
  Z.min (subsec_nanos mod Z.max interval 1) (umax 64).

Inductive ProbeKind := ProbeHttp (path : bytes) (protocol : BackendProtocol) | ProbeTcp.

(** What the network makes of a probe. *)
Inductive Answer := Status (code : Z) | Connected | Failed | TimedOut.

Section Probing.
Variable url_parse : bytes -> result ParsedUrl bytes.
(** [Request::builder().uri(..)] accepts the text. *)
Variable uri_ok : bytes -> bool.

Definition check_tcp (url : bytes) (answer : Answer) : bool :=
  match parse_backend_addr url_parse url (SchemeOrBare 443) with
  | None => false
  | Some _ => match answer with Connected => true | _ => false end
  end.

Definition check_http (url health_path : bytes) (answer : Answer) : bool :=
  if negb (uri_ok (url ++ health_path)) then false
  else match answer with
       | Status code => ((200 <=? code) && (code <? 300)) || (code =? 404)
       | _ => false
       end.

Definition check_backend (kind : ProbeKind) (url : bytes) (answer : Answer) : bool :=
  match kind with
  | ProbeHttp path _ => check_http url path answer
  | ProbeTcp => check_tcp url answer
  end.

(** ** One round *)

Record HealthChecker := {
  hc_interval : Z;
  hc_timeout : Z;
  hc_threshold : Z;
  hc_kind : ProbeKind;
  hc_failures : gmap bytes Z;
}.

Definition checker_new (interval timeout failure_threshold : Z) (kind : ProbeKind) : HealthChecker :=
  {| hc_interval := interval; hc_timeout := timeout; hc_threshold := Z.max failure_threshold 1; hc_kind := kind;
     hc_failures := ∅ |}.

Definition with_failures (failures : gmap bytes Z) (c : HealthChecker) : HealthChecker :=
  {| hc_interval := hc_interval c; hc_timeout := hc_timeout c; hc_threshold := hc_threshold c; hc_kind := hc_kind c;
     hc_failures := failures |}.

Definition record_result (url : bytes) (healthy : bool) (failures : gmap bytes Z) (charged : gset bytes)
    : Z * gmap bytes Z * gset bytes :=
  if healthy then (0, delete url failures, charged ∖ {[url]})
  else if bool_decide (url ∈ charged) then (default 0 (failures !! url), failures, charged)
  else
    let count := wrapping 64 (default 0 (failures !! url) + 1) in
    (count, <[url := count]> failures, charged ∪ {[url]}).

(** One backend's turn: what others did to the pool while it was asked, what it
    answered, and when. *)
Record Turn := { tn_others : BackendPool -> BackendPool; tn_answer : Answer; tn_now : Z }.

Record Round := {
  rd_pool : BackendPool;
  rd_failures : gmap bytes Z;
  rd_charged : gset bytes;
  rd_statuses : gmap bytes bool;
}.

Definition check_one (c : HealthChecker) (r : Round) (ask : bytes * Turn) : Round :=
  let '(url, turn) := ask in
  let pool := tn_others turn (rd_pool r) in
  let is_healthy := check_backend (hc_kind c) url (tn_answer turn) in
  let '(failures, counts, charged) := record_result url is_healthy (rd_failures r) (rd_charged r) in
  let current_healthy := rd_statuses r !! url in
  let keep := {| rd_pool := pool; rd_failures := counts; rd_charged := charged; rd_statuses := rd_statuses r |} in
  let mark healthy :=
    {| rd_pool := set_backend_health (tn_now turn) url healthy pool; rd_failures := counts; rd_charged := charged;
       rd_statuses := <[url := healthy]> (rd_statuses r) |} in
  if is_healthy then (if bool_decide (current_healthy = Some false) then mark true else keep)
  else if failures <? hc_threshold c then keep
  else if bool_decide (current_healthy <> Some false) then mark false
  else keep.

Definition collect_statuses (statuses : list (bytes * bool)) : gmap bytes bool :=
  fold_left (fun m uh => <[uh.1 := uh.2]> m) statuses ∅.

(** The turns are those of the backends, in order. *)
Definition check_all_backends (c : HealthChecker) (turns : list Turn) (pool : BackendPool) : HealthChecker * BackendPool :=
  let r := fold_left (check_one c) (zip (pool_backends pool) turns)
    {| rd_pool := pool; rd_failures := hc_failures c; rd_charged := ∅;
       rd_statuses := collect_statuses (get_backend_statuses pool) |} in
  (with_failures (rd_failures r) c, rd_pool r).

(** The loop of [run], one interval at a time: the switch as it is read, the turns of the
    round, and what the traffic does while the checker sleeps. *)
Record Tick := { tk_enabled : bool; tk_turns : list Turn; tk_others : BackendPool -> BackendPool }.

Definition run_tick (st : HealthChecker * BackendPool) (t : Tick) : HealthChecker * BackendPool :=
  let '(c, pool) := if tk_enabled t then check_all_backends st.1 (tk_turns t) st.2 else st in
  (c, tk_others t pool).

Definition run_checker (ticks : list Tick) (st : HealthChecker * BackendPool) : HealthChecker * BackendPool :=
  fold_left run_tick ticks st.

(** ** What the health of a backend is *)

(** The rounds in a row a backend has failed in: its verdicts, by round, the latest
    round first. *)
Fixpoint failed_rounds (rounds : list (list bool)) : Z :=
  match rounds with
  | [] => 0
  | round :: earlier =>
      match last round with
      | None => failed_rounds earlier
      | Some true => 0
      | Some false => if existsb id round then 1 else 1 + failed_rounds earlier
      end
  end.

(** The verdicts of the rounds that ran, the latest first. *)
Definition verdicts_of (kind : ProbeKind) (url : bytes) (asks : list (bytes * Turn)) : list bool :=
  (fun ask => check_backend kind ask.1 (tn_answer ask.2)) <$> filter (fun ask => ask.1 = url) asks.
Definition history (kind : ProbeKind) (urls : list bytes) (ticks : list Tick) (url : bytes) : list (list bool) :=
  (fun t => verdicts_of kind url (zip urls (tk_turns t))) <$> reverse (filter (fun t => tk_enabled t = true) ticks).

(** Traffic leaves the names and the health flags alone. *)
Definition keeps_health (f : BackendPool -> BackendPool) : Prop := forall p, get_backend_statuses (f p) = get_backend_statuses p.

Lemma failed_rounds_range rounds : 0 <= failed_rounds rounds <= len rounds.
Proof.
  unfold len. induction rounds as [|r rounds IH]; cbn; [lia|]. destruct (last r) as [[]|]; [lia| |lia]. destruct (existsb id r); lia.
Qed.

Lemma failed_rounds_ok r V : failed_rounds ((r ++ [true]) :: V) = 0.
Proof. cbn. by rewrite last_snoc. Qed.

(** One more failure counts when the round has not been charged with one since the last
    success. *)
Lemma failed_rounds_failed r V :
  failed_rounds ((r ++ [false]) :: V) =
  if bool_decide (last r = Some false) then failed_rounds (r :: V) else failed_rounds (r :: V) + 1.
Proof.
  cbn. rewrite last_snoc, existsb_app. cbn. rewrite orb_false_r.
  destruct (last r) as [[]|] eqn:E.
  - rewrite bool_decide_eq_false_2 by done. apply last_Some in E as [r' ->]. rewrite existsb_app. cbn. by rewrite orb_true_r.
  - rewrite bool_decide_eq_true_2 by done. done.
  - apply last_None in E as ->. rewrite bool_decide_eq_false_2 by done. cbn. lia.
Qed.

Lemma verdicts_snoc kind u asks ask :
  verdicts_of kind u (asks ++ [ask]) =
  verdicts_of kind u asks ++ (if bool_decide (ask.1 = u) then [check_backend kind ask.1 (tn_answer ask.2)] else []).
Proof.
  unfold verdicts_of. rewrite filter_app, fmap_app. f_equal. case_bool_decide.
  - by rewrite filter_cons_True.
  - by rewrite filter_cons_False.
Qed.

Lemma statuses_set now url healthy p :
  get_backend_statuses (set_backend_health now url healthy p) =
  (fun uh => (uh.1, if bool_decide (uh.1 = url) then healthy else uh.2)) <$> get_backend_statuses p.
Proof.
  unfold get_backend_statuses, set_backend_health. cbn. rewrite <- !list_fmap_compose. apply list_fmap_ext. intros i e _. cbn.
  by case_bool_decide.
Qed.

Lemma pool_backends_statuses p : pool_backends p = (get_backend_statuses p).*1.
Proof. unfold pool_backends, get_backend_statuses. by rewrite <- list_fmap_compose. Qed.

(** Where a round stands after the backends it has asked, [V] being the rounds before. *)
Record round_inv (c : HealthChecker) (V : bytes -> list (list bool)) (urls : list bytes) (seen : list (bytes * Turn)) (r : Round)
    : Prop := {
  ri_urls : pool_backends (rd_pool r) = urls;
  ri_counts u : default 0 (rd_failures r !! u) = failed_rounds (verdicts_of (hc_kind c) u seen :: V u);
  ri_charged u : u ∈ rd_charged r <-> last (verdicts_of (hc_kind c) u seen) = Some false;
  ri_health u h : (u, h) ∈ get_backend_statuses (rd_pool r) ->
    rd_statuses r !! u = Some h /\ h = (failed_rounds (verdicts_of (hc_kind c) u seen :: V u) <? hc_threshold c);
}.

Lemma record_result_spec c V urls seen r ask n counts charged :
  round_inv c V urls seen r -> (forall u, len (V u) + 1 < 2 ^ 64) ->
  record_result ask.1 (check_backend (hc_kind c) ask.1 (tn_answer ask.2)) (rd_failures r) (rd_charged r) = (n, counts, charged) ->
  n = failed_rounds (verdicts_of (hc_kind c) ask.1 (seen ++ [ask]) :: V ask.1) /\
  (forall u, default 0 (counts !! u) = failed_rounds (verdicts_of (hc_kind c) u (seen ++ [ask]) :: V u)) /\
  (forall u, u ∈ charged <-> last (verdicts_of (hc_kind c) u (seen ++ [ask])) = Some false).
Proof.
  intros [_ Hc Hg _] HV. unfold record_result. set (kind := hc_kind c) in *. set (ok := check_backend _ _ _). set (url := ask.1) in *.
  assert (forall u, u <> url -> verdicts_of kind u (seen ++ [ask]) = verdicts_of kind u seen) as Ho.
  { intros u Hu. rewrite verdicts_snoc, bool_decide_eq_false_2 by (intros E; apply Hu; by rewrite <- E). apply app_nil_r. }
  assert (verdicts_of kind url (seen ++ [ask]) = verdicts_of kind url seen ++ [ok]) as Hs by (by rewrite verdicts_snoc, bool_decide_eq_true_2).
  destruct ok.
  - intros [= <- <- <-]. split; [by rewrite Hs, failed_rounds_ok|]. split; intros u; destruct (decide (u = url)) as [->|Hu].
    + by rewrite lookup_delete_eq, Hs, failed_rounds_ok.
    + by rewrite lookup_delete_ne, Ho, Hc by done.
    + rewrite Hs, last_snoc. set_solver.
    + rewrite Ho by done. rewrite <- Hg. set_solver.
  - case_bool_decide as Hin.
    + intros [= <- <- <-]. apply Hg in Hin as Hl.
      assert (failed_rounds (verdicts_of kind url (seen ++ [ask]) :: V url) = failed_rounds (verdicts_of kind url seen :: V url)) as He.
      { rewrite Hs, failed_rounds_failed. by rewrite bool_decide_eq_true_2. }
      split; [by rewrite He|]. split; intros u; destruct (decide (u = url)) as [->|Hu].
      * by rewrite He.
      * by rewrite Ho.
      * rewrite Hs, last_snoc. done.
      * by rewrite Ho.
    + assert (last (verdicts_of kind url seen) <> Some false) as Hl by (by rewrite <- Hg).
      assert (wrapping 64 (default 0 (rd_failures r !! url) + 1) = failed_rounds (verdicts_of kind url (seen ++ [ask]) :: V url)) as He.
      { rewrite Hs, failed_rounds_failed, bool_decide_eq_false_2, <- Hc by done. apply wrapping_small.
        pose proof (failed_rounds_range (verdicts_of kind url seen :: V url)) as Hr. rewrite Hc. specialize (HV url). unfold len in *. cbn in Hr.
        assert (0 <= failed_rounds (verdicts_of kind url seen :: V url) + 1 < 2 ^ 64) as ?; [|done].
        destruct (verdicts_of kind url seen) as [|v vs] eqn:Ev.
        - pose proof (failed_rounds_range (V url)) as Hr'. unfold len in *. cbn in *. lia.
        - destruct (last (v :: vs)) as [[]|] eqn:El; [|by destruct Hl|by apply last_None in El].
          cbn [failed_rounds]. rewrite El. lia. }
      intros [= <- <- <-]. split; [by rewrite He|]. split; intros u; destruct (decide (u = url)) as [->|Hu].
      * by rewrite lookup_insert_eq.
      * by rewrite lookup_insert_ne, Ho, Hc by done.
      * rewrite Hs, last_snoc. set_solver.
      * rewrite Ho by done. rewrite <- Hg. set_solver.
Qed.

Lemma check_one_inv c V urls seen r ask :
  1 <= hc_threshold c -> ask.1 ∈ urls -> keeps_health (tn_others ask.2) -> (forall u, len (V u) + 1 < 2 ^ 64) ->
  round_inv c V urls seen r -> round_inv c V urls (seen ++ [ask]) (check_one c r ask).
Proof.
  intros Hth Hin Hk HV Hr. destruct ask as [url turn]. unfold check_one. cbn [fst snd] in Hk, Hin.
  destruct (record_result _ _ _ _) as [[n counts] charged] eqn:E.
  destruct (record_result_spec c V urls seen r (url, turn) n counts charged Hr HV E) as (Hn & Hc & Hg). cbn [fst snd] in Hn.
  destruct Hr as [Hu Hcold _ Hh]. rewrite pool_backends_statuses in Hu.
  set (new := fun u => failed_rounds (verdicts_of (hc_kind c) u (seen ++ [(url, turn)]) :: V u)) in *.
  set (old := fun u => failed_rounds (verdicts_of (hc_kind c) u seen :: V u)) in *.
  assert (forall u, u <> url -> new u = old u) as Hne.
  { intros u Hu'. unfold new, old. rewrite verdicts_snoc, bool_decide_eq_false_2 by (intros E'; apply Hu'; by rewrite <- E'). by rewrite app_nil_r. }
  assert (exists h, (url, h) ∈ get_backend_statuses (rd_pool r)) as [h Hurl].
  { rewrite <- Hu in Hin. apply list_elem_of_fmap in Hin as ([u h] & -> & ?). by exists h. }
  destruct (Hh url h Hurl) as [Hst Heq].
  (* the flag is left as it is, and is what the new count says *)
  assert ((old url <? hc_threshold c) = (new url <? hc_threshold c) ->
    round_inv c V urls (seen ++ [(url, turn)])
      {| rd_pool := tn_others turn (rd_pool r); rd_failures := counts; rd_charged := charged; rd_statuses := rd_statuses r |}) as Hkeep.
  { intros Hsame. split; cbn [rd_pool rd_failures rd_charged rd_statuses]; [by rewrite pool_backends_statuses, Hk|done|done|]. rewrite Hk. intros u h' Hel.
    destruct (Hh u h' Hel) as [? ->]. split; [done|]. fold (new u) (old u). destruct (decide (u = url)) as [->|?]; [done|by rewrite Hne]. }
  assert (forall b, b = (new url <? hc_threshold c) ->
    round_inv c V urls (seen ++ [(url, turn)])
      {| rd_pool := set_backend_health (tn_now turn) url b (tn_others turn (rd_pool r)); rd_failures := counts; rd_charged := charged;
         rd_statuses := <[url := b]> (rd_statuses r) |}) as Hmark.
  { intros b Hb. split; cbn [rd_pool rd_failures rd_charged rd_statuses]; [|done|done|]; rewrite ?pool_backends_statuses, statuses_set, Hk.
    - by rewrite <- list_fmap_compose.
    - intros u h' ([u' h''] & Heq' & Hel)%list_elem_of_fmap. cbn in Heq'. case_bool_decide as Eu; injection Heq' as -> ->.
      + subst u'. by rewrite lookup_insert_eq.
      + destruct (Hh u' h'' Hel) as [? ->]. rewrite lookup_insert_ne by done. split; [done|]. fold (new u') (old u'). by rewrite (Hne u' Eu). }
  fold (old url) in Heq. subst n. fold (new url). rewrite Hst.
  assert (check_backend (hc_kind c) url (tn_answer turn) = true -> new url = 0) as Hok.
  { intros Ht. unfold new. rewrite verdicts_snoc, bool_decide_eq_true_2 by done. cbn [fst snd]. by rewrite Ht, failed_rounds_ok. }
  assert (check_backend (hc_kind c) url (tn_answer turn) = false -> old url <= new url) as Hbad.
  { intros Ht. unfold new, old. rewrite verdicts_snoc, bool_decide_eq_true_2 by done. cbn [fst snd]. rewrite Ht, failed_rounds_failed. case_bool_decide; lia. }
  destruct (check_backend (hc_kind c) url (tn_answer turn)).
  - rewrite (Hok eq_refl) in *. rewrite (proj2 (Z.ltb_lt 0 (hc_threshold c))) in * by lia. destruct h.
    + rewrite bool_decide_eq_false_2 by done. by apply Hkeep.
    + rewrite bool_decide_eq_true_2 by done. by apply Hmark.
  - specialize (Hbad eq_refl). destruct (new url <? hc_threshold c) eqn:En.
    + apply Hkeep. apply Z.ltb_lt in En. apply Z.ltb_lt. lia.
    + destruct h; [rewrite bool_decide_eq_true_2 by done; by apply Hmark|rewrite bool_decide_eq_false_2 by naive_solver; by apply Hkeep].
Qed.

Lemma round_inv_asks c V urls asks seen r :
  1 <= hc_threshold c -> (forall u, len (V u) + 1 < 2 ^ 64) ->
  Forall (fun ask => ask.1 ∈ urls /\ keeps_health (tn_others ask.2)) asks ->
  round_inv c V urls seen r -> round_inv c V urls (seen ++ asks) (fold_left (check_one c) asks r).
Proof.
  intros Hth HV H. revert seen r. induction H as [|ask asks [? ?] _ IH]; intros seen r Hr; cbn [fold_left]; [by rewrite app_nil_r|].
  replace (seen ++ ask :: asks) with ((seen ++ [ask]) ++ asks) by (by rewrite <- app_assoc). by apply IH, check_one_inv.
Qed.

Lemma collect_statuses_agree (L : list (bytes * bool)) (f : bytes -> bool) (m : gmap bytes bool) :
  (forall u h, (u, h) ∈ L -> h = f u) -> (forall u h, m !! u = Some h -> h = f u) ->
  forall u, u ∈ L.*1 \/ is_Some (m !! u) -> fold_left (fun m uh => <[uh.1 := uh.2]> m) L m !! u = Some (f u).
Proof.
  revert m. induction L as [|[u0 h0] L IH]; intros m HL Hm u; cbn [fold_left fmap list_fmap fst snd].
  - intros [Hin|[h Hh]]; [set_solver|]. by rewrite Hh, (Hm u h Hh).
  - intros Hu. apply IH.
    + intros ? ? ?. apply HL. by right.
    + intros u' h' Hh. destruct (decide (u' = u0)) as [->|]; [|rewrite lookup_insert_ne in Hh by done; by apply Hm].
      rewrite lookup_insert_eq in Hh. injection Hh as <-. apply HL. by left.
    + destruct (decide (u = u0)) as [->|Hne]; [right; by rewrite lookup_insert_eq|]. rewrite lookup_insert_ne by done.
      destruct Hu as [Hu|Hu]; [|by right]. left. set_solver.
Qed.

(** A checker and its pool between two rounds. *)
Record checker_inv (V : bytes -> list (list bool)) (urls : list bytes) (kind : ProbeKind) (threshold : Z)
    (st : HealthChecker * BackendPool) : Prop := {
  ci_kind : hc_kind st.1 = kind;
  ci_threshold : hc_threshold st.1 = threshold;
  ci_urls : pool_backends st.2 = urls;
  ci_counts u : default 0 (hc_failures st.1 !! u) = failed_rounds (V u);
  ci_health u h : (u, h) ∈ get_backend_statuses st.2 -> h = (failed_rounds (V u) <? threshold);
}.

Lemma check_all_backends_inv V urls kind threshold st turns :
  1 <= threshold -> (forall u, len (V u) + 1 < 2 ^ 64) -> Forall (fun t => keeps_health (tn_others t)) turns ->
  checker_inv V urls kind threshold st ->
  checker_inv (fun u => verdicts_of kind u (zip urls turns) :: V u) urls kind threshold (check_all_backends st.1 turns st.2).
Proof.
  intros Hth HV Hk [Hki Ht Hu Hc Hh]. unfold check_all_backends. rewrite Hu. subst threshold kind.
  set (r0 := {| rd_pool := st.2 |}).
  assert (round_inv st.1 V urls [] r0) as H0.
  { split; cbn [r0 rd_pool rd_failures rd_charged rd_statuses].
    - done.
    - intros u. rewrite Hc. done.
    - intros u. split; [set_solver|done].
    - intros u h Hel. split; [|by apply Hh]. unfold collect_statuses.
      erewrite (collect_statuses_agree _ (fun u => failed_rounds (V u) <? hc_threshold st.1)); [by rewrite <- (Hh u h Hel)|done|done|].
      left. apply list_elem_of_fmap. by exists (u, h). }
  apply (round_inv_asks _ _ _ (zip urls turns)) in H0; [|done|done|].
  2: { apply Forall_forall. intros [u t] Hel. split; [by eapply elem_of_zip_l|].
       rewrite Forall_forall in Hk. eapply Hk. by eapply elem_of_zip_r. }
  destruct H0 as [Hu' Hc' _ Hh']. split; cbn [fst snd with_failures hc_kind hc_threshold hc_failures]; try done.
  intros u h Hel. by apply Hh'.
Qed.

Definition tick_ok (t : Tick) : Prop := keeps_health (tk_others t) /\ Forall (fun turn => keeps_health (tn_others turn)) (tk_turns t).

Lemma history_snoc kind urls ticks t u :
  history kind urls (ticks ++ [t]) u =
  if tk_enabled t then verdicts_of kind u (zip urls (tk_turns t)) :: history kind urls ticks u else history kind urls ticks u.
Proof.
  unfold history. rewrite filter_app. destruct (tk_enabled t) eqn:E.
  - rewrite filter_cons_True by done. by rewrite filter_nil, reverse_snoc.
  - rewrite filter_cons_False by (by rewrite E). by rewrite filter_nil, app_nil_r.
Qed.

Lemma history_len kind urls ticks u : len (history kind urls ticks u) <= len ticks.
Proof.
  unfold history, len. rewrite length_fmap, length_reverse. pose proof (length_filter (fun t => tk_enabled t = true) ticks). lia.
Qed.

Lemma run_checker_inv urls kind threshold ticks st :
  1 <= threshold -> Forall tick_ok ticks -> len ticks < 2 ^ 64 -> checker_inv (fun _ => []) urls kind threshold st ->
  checker_inv (history kind urls ticks) urls kind threshold (run_checker ticks st).
Proof.
  intros Hth Hok Hl H0. unfold run_checker. induction ticks as [|t ticks IH] using rev_ind; [by destruct H0|].
  apply Forall_app in Hok as [Hok [[Hko Hkt] _]%Forall_cons]. unfold len in Hl. rewrite length_app in Hl. cbn in Hl.
  rewrite fold_left_app. cbn [fold_left]. specialize (IH Hok ltac:(unfold len; lia)).
  set (st' := fold_left run_tick ticks st) in *. unfold run_tick.
  assert (checker_inv (history kind urls (ticks ++ [t])) urls kind threshold
            (if tk_enabled t then check_all_backends st'.1 (tk_turns t) st'.2 else st')) as [Hki Ht Hu Hc Hh].
  { destruct (tk_enabled t) eqn:E.
    - assert (forall u, history kind urls (ticks ++ [t]) u = verdicts_of kind u (zip urls (tk_turns t)) :: history kind urls ticks u) as He
        by (intros u; by rewrite history_snoc, E).
      destruct (check_all_backends_inv (history kind urls ticks) urls kind threshold st' (tk_turns t)) as [? ? ? Hc' Hh']; try done.
      { intros u. pose proof (history_len kind urls ticks u). unfold len in *. lia. }
      split; try done; intros u; rewrite He; [apply Hc'|intros h; apply Hh'].
    - assert (forall u, history kind urls (ticks ++ [t]) u = history kind urls ticks u) as He by (intros u; by rewrite history_snoc, E).
      destruct IH as [? ? ? Hc' Hh']. split; try done; intros u; rewrite He; [apply Hc'|intros h; apply Hh']. }
  destruct (if tk_enabled t then _ else _) as [c pool]. cbn [fst snd] in *.
  split; cbn [fst snd]; try done; [by rewrite pool_backends_statuses, Hko, <- pool_backends_statuses|by rewrite Hko].
Qed.

(** C28: A backend is out of its pool's rotation exactly while it has failed in [threshold] rounds in a row, where a
    round counts once however often the pool names the backend, a success ends the row, a
    round that is switched off counts for nothing, and a threshold of zero is one; whatever
    the probes are answered and whatever the traffic does to the pool between them. *)
Theorem health_is_failed_rounds interval timeout threshold kind urls strat ticks :
  Forall tick_ok ticks -> len ticks < 2 ^ 64 ->
  let st := run_checker ticks (checker_new interval timeout threshold kind, pool_new url_parse urls strat) in
  pool_backends st.2 = urls /\
  forall i e, backends st.2 !! i = Some e ->
    be_healthy e = (failed_rounds (history kind urls ticks (be_url e)) <? Z.max threshold 1).
Proof.
  intros Hok Hl st. destruct (run_checker_inv urls kind (Z.max threshold 1) ticks (checker_new interval timeout threshold kind, pool_new url_parse urls strat))
    as [_ _ Hu _ Hh]; [lia|done|done| |].
  - split; cbn; try done.
    + unfold pool_backends. cbn. rewrite <- list_fmap_compose. by rewrite list_fmap_id.
    + intros u h (e & Heq & (url & -> & _)%list_elem_of_fmap)%list_elem_of_fmap. injection Heq as -> ->. symmetry. apply Z.ltb_lt. lia.
  - split; [exact Hu|]. intros i e He. apply Hh. unfold get_backend_statuses. apply list_elem_of_fmap. exists e.
    split; [done|]. by eapply list_elem_of_lookup_2.
Qed.

(** Everything else that happens to a pool is the traffic the theorem allows. *)
Lemma traffic_keeps_health s s' :
  Lb.pool_step s s' ->
  get_backend_statuses (sys_pool s') = get_backend_statuses (sys_pool s) \/
  exists now url healthy, sys_pool s' = set_backend_health now url healthy (sys_pool s).
Proof.
  assert (forall f i p, (forall e, be_url (f e) = be_url e /\ be_healthy (f e) = be_healthy e) ->
    get_backend_statuses (update_entry f i p) = get_backend_statuses p) as Hu.
  { intros f i p Hf. unfold get_backend_statuses, update_entry. cbn. apply list_eq. intros j. rewrite !list_lookup_fmap.
    destruct (decide (i = j)) as [->|]; [rewrite list_lookup_alter_eq|by rewrite list_lookup_alter_ne].
    destruct (backends p !! j) as [e|]; [|done]. cbn. by destruct (Hf e) as [-> ->]. }
  intros [exclude now rand p ls p' i E|exclude now rand p ls p' E|p l1 i l2|p ls i _|now p ls i _|now url healthy p ls|b p ls]; cbn.
  - left. pose proof (select_backend_cases exclude now rand p) as H. rewrite E in H. destruct H as [(e & He & Hb & _) _].
    unfold get_backend_statuses. rewrite Hb. apply list_eq. intros j. rewrite !list_lookup_fmap.
    destruct (decide (i = j)) as [->|]; [|by rewrite list_lookup_insert_ne].
    rewrite list_lookup_insert_eq by (by eapply lookup_lt_Some). by rewrite He.
  - left. pose proof (select_backend_cases exclude now rand p) as H. rewrite E in H. by destruct H as [-> _].
  - left. by apply Hu.
  - left. by apply Hu.
  - left. apply Hu. intros e. unfold circuit_failed. destruct (be_breaker e); [|done]. by repeat case_match.
  - right. by exists now, url, healthy.
  - left. unfold get_backend_statuses, set_circuit_breaker. cbn. by rewrite <- list_fmap_compose.
Qed.

(** The first round is inside the first interval. *)
Lemma startup_jitter_bound nanos interval : 0 <= nanos -> 0 < interval -> 0 <= startup_jitter nanos interval < interval.
Proof. intros. unfold startup_jitter, umax. rewrite Z.max_l by lia. pose proof (Z.mod_pos_bound nanos interval). lia. Qed.

End Probing.

(** ** The checkers of the routes *)

Record HealthCheckConfig := { hcc_enabled : bool; hcc_interval : Z; hcc_timeout : Z; hcc_threshold : Z; hcc_path : bytes }.

Record ProbeTarget := { pt_pool : nat; pt_kind : ProbeKind }.

(** A spawned checker, and the pool it watches. *)
Record Task := { ta_pool : nat; ta_checker : HealthChecker }.

Record HealthProbes := {
  hp_running : gmap bytes (nat * nat);
  hp_tasks : gmap nat Task;
  hp_next : nat;
}.

Definition probes_new : HealthProbes := {| hp_running := ∅; hp_tasks := ∅; hp_next := 0 |}.

Definition probes_contains (key : bytes) (s : HealthProbes) : bool := is_some (hp_running s !! key).

Definition same_pool (wanted : gmap bytes ProbeTarget) (key : bytes) (pool : nat) : bool :=
  match wanted !! key with Some target => bool_decide (pt_pool target = pool) | None => false end.

Definition stop_stale (wanted : gmap bytes ProbeTarget) (s : HealthProbes) : HealthProbes :=
  {| hp_running := filter (fun kp : bytes * (nat * nat) => same_pool wanted kp.1 kp.2.1 = true) (hp_running s);
     hp_tasks := map_fold (fun key (ph : nat * nat) tasks => if negb (same_pool wanted key ph.1) then delete ph.2 tasks else tasks)
                   (hp_tasks s) (hp_running s);
     hp_next := hp_next s |}.

Definition probes_spawn (key : bytes) (pool : nat) (checker : HealthChecker) (s : HealthProbes) : HealthProbes :=
  {| hp_running := <[key := (pool, hp_next s)]> (hp_running s);
     hp_tasks := <[hp_next s := {| ta_pool := pool; ta_checker := checker |}]> (hp_tasks s);
     hp_next := S (hp_next s) |}.

Definition probe_kind (health : HealthCheckConfig) (route : Route) : option ProbeKind :=
  if serves route ModeHttp then Some (ProbeHttp (hcc_path health) (r_backend_protocol route))
  else if serves route ModePassthrough || serves route ModeTcp then Some ProbeTcp
  else None.

Section Sync.
Variable fmt_str : bytes -> bytes.
(** The order in which a [HashMap] is walked. *)
Variable iter : gmap bytes ProbeTarget -> list (bytes * ProbeTarget).
Hypothesis iter_all : forall m, iter m ≡ₚ map_to_list m.

Definition want_route (pools : Pools) (health : HealthCheckConfig) (wanted : gmap bytes ProbeTarget) (route : Route)
    : gmap bytes ProbeTarget :=
  match probe_kind health route with
  | Some kind => <[pool_key fmt_str pools route := {| pt_pool := r_pool route; pt_kind := kind |}]> wanted
  | None => wanted
  end.

Definition wanted_of (pools : Pools) (health : HealthCheckConfig) (routes : list Route) : gmap bytes ProbeTarget :=
  fold_left (want_route pools health) routes ∅.

Definition start_probe (health : HealthCheckConfig) (s : HealthProbes) (kt : bytes * ProbeTarget) : HealthProbes :=
  if probes_contains kt.1 s then s
  else probes_spawn kt.1 (pt_pool kt.2)
         (checker_new (from_secs (Z.max (hcc_interval health) 1)) (from_secs (Z.max (hcc_timeout health) 1)) (hcc_threshold health) (pt_kind kt.2)) s.

Definition sync_health_checks (pools : Pools) (routes : list Route) (health : HealthCheckConfig) (s : HealthProbes) : HealthProbes :=
  let wanted := wanted_of pools health routes in
  let s := stop_stale wanted s in
  if negb (hcc_enabled health) then s else fold_left (start_probe health) (iter wanted) s.

(** Every task has its entry and every entry its task: none is left running unseen. *)
Record probes_ok (s : HealthProbes) : Prop := {
  po_task key pool id : hp_running s !! key = Some (pool, id) -> exists t, hp_tasks s !! id = Some t /\ ta_pool t = pool;
  po_entry id t : hp_tasks s !! id = Some t -> exists key, hp_running s !! key = Some (ta_pool t, id);
  po_once key key' pool pool' id : hp_running s !! key = Some (pool, id) -> hp_running s !! key' = Some (pool', id) -> key = key';
  po_next id : is_Some (hp_tasks s !! id) -> (id < hp_next s)%nat;
}.

Lemma stop_tasks wanted s id t :
  hp_tasks (stop_stale wanted s) !! id = Some t <->
  hp_tasks s !! id = Some t /\ forall key pool, hp_running s !! key = Some (pool, id) -> same_pool wanted key pool = true.
Proof.
  cbn. generalize (hp_running s) as running. intros running.
  apply (map_fold_weak_ind (fun tasks running => tasks !! id = Some t <->
    hp_tasks s !! id = Some t /\ forall key pool, running !! key = Some (pool, id) -> same_pool wanted key pool = true)).
  - split; [intros Ht; split; [done|intros k p H; by rewrite lookup_empty in H]|tauto].
  - intros key [pool id'] running' tasks Hnew IH. cbn.
    assert (forall key0 pool0, <[key := (pool, id')]> running' !! key0 = Some (pool0, id) <->
      (key0 = key /\ pool0 = pool /\ id' = id) \/ running' !! key0 = Some (pool0, id)) as Hl.
    { intros key0 pool0. rewrite lookup_insert_Some. split; [intros [[<- [= <- <-]]|[_ H]]; [by left|by right]|]. intros [(-> & -> & ->)|H]; [by left|right].
      split; [|done]. intros ->. congruence. }
    setoid_rewrite Hl. destruct (same_pool wanted key pool) eqn:E; cbn.
    + rewrite IH. split; intros [Ht Hk]; (split; [done|]).
      * intros k p [(-> & -> & _)|H]; [done|by apply Hk].
      * intros k p H. apply Hk. by right.
    + rewrite lookup_delete_Some, IH. split.
      * intros (Hne & Ht & Hk). split; [done|]. intros k p [(_ & _ & ?)|H]; [done|by apply Hk].
      * intros [Ht Hk]. split; [|split; [done|]].
        -- intros ->. specialize (Hk key pool (or_introl (conj eq_refl (conj eq_refl eq_refl)))). congruence.
        -- intros k p H. apply Hk. by right.
Qed.

Lemma stop_running wanted s key pool id :
  hp_running (stop_stale wanted s) !! key = Some (pool, id) <-> hp_running s !! key = Some (pool, id) /\ same_pool wanted key pool = true.
Proof. cbn. by rewrite map_lookup_filter_Some. Qed.

Lemma stop_stale_ok wanted s : probes_ok s -> probes_ok (stop_stale wanted s).
Proof.
  intros [Ht He Ho Hn]. split.
  - intros key pool id [Hr Hs]%stop_running. destruct (Ht key pool id Hr) as (t & Hid & <-). exists t. split; [|done].
    apply stop_tasks. split; [done|]. intros key' pool' Hr'. pose proof (Ho _ _ _ _ _ Hr Hr') as <-. congruence.
  - intros id t [Hid Hk]%stop_tasks. destruct (He id t Hid) as [key Hr]. exists key. apply stop_running. split; [done|]. by apply Hk.
  - intros key key' pool pool' id [H _]%stop_running [H' _]%stop_running. by eapply Ho.
  - intros id [t [Hid _]%stop_tasks]. cbn. apply Hn. by exists t.
Qed.

Lemma spawn_ok key pool checker s : probes_ok s -> hp_running s !! key = None -> probes_ok (probes_spawn key pool checker s).
Proof.
  intros [Ht He Ho Hn] Hnone. assert (forall key pool id, hp_running s !! key = Some (pool, id) -> id <> hp_next s) as Hf.
  { intros k p id Hr ->. destruct (Ht _ _ _ Hr) as (t & Hid & _). specialize (Hn _ (mk_is_Some _ _ Hid)). lia. }
  split; cbn.
  - intros key' pool' id. rewrite lookup_insert_Some. intros [[-> [= <- <-]]|[Hne Hr]].
    + eexists. by rewrite lookup_insert_eq.
    + destruct (Ht _ _ _ Hr) as (t & Hid & <-). exists t. rewrite lookup_insert_ne by (apply not_eq_sym; by eapply Hf). done.
  - intros id t. rewrite lookup_insert_Some. intros [[<- <-]|[Hne Hid]].
    + exists key. by rewrite lookup_insert_eq.
    + destruct (He id t Hid) as [k Hr]. exists k. rewrite lookup_insert_ne; [done|]. intros ->. congruence.
  - intros k k' p p' id. rewrite !lookup_insert_Some. intros [[-> [= <- <-]]|[_ H]] [[-> Heq]|[_ H']]; [done| | |by eapply Ho].
    + by apply Hf in H'.
    + injection Heq as <- <-. by apply Hf in H.
  - intros id. rewrite lookup_insert_is_Some'. intros [->|H]; [lia|]. specialize (Hn id H). lia.
Qed.

(** Starting the probes of [kts]: those already there stay, the others are new. *)
Lemma start_probes_spec health kts s :
  NoDup kts.*1 -> probes_ok s ->
  let s' := fold_left (start_probe health) kts s in
  probes_ok s' /\
  (forall key pool id, hp_running s !! key = Some (pool, id) -> hp_running s' !! key = Some (pool, id)) /\
  (forall id t, hp_tasks s !! id = Some t -> hp_tasks s' !! id = Some t) /\
  (forall key pool id, hp_running s' !! key = Some (pool, id) ->
     hp_running s !! key = Some (pool, id) \/
     hp_running s !! key = None /\ exists target, (key, target) ∈ kts /\ pt_pool target = pool /\
       hp_tasks s' !! id = Some {| ta_pool := pool; ta_checker :=
         checker_new (from_secs (Z.max (hcc_interval health) 1)) (from_secs (Z.max (hcc_timeout health) 1)) (hcc_threshold health) (pt_kind target) |}) /\
  (forall key target, (key, target) ∈ kts -> is_Some (hp_running s' !! key)).
Proof.
  revert s. induction kts as [|[key0 target0] kts IH]; intros s Hnd Hok; cbn [fold_left]; cbv zeta.
  { split; [done|]. split; [done|]. split; [done|]. split; [tauto|set_solver]. }
  inversion Hnd as [|? ? Hnin Hnd' Heq]; subst.
  set (checker := checker_new (from_secs (Z.max (hcc_interval health) 1)) (from_secs (Z.max (hcc_timeout health) 1)) (hcc_threshold health) (pt_kind target0)).
  assert (start_probe health s (key0, target0) =
          match hp_running s !! key0 with Some _ => s | None => probes_spawn key0 (pt_pool target0) checker s end) as ->
    by (unfold start_probe, probes_contains; cbn [fst snd]; by destruct (hp_running s !! key0)).
  destruct (hp_running s !! key0) as [[p0 i0]|] eqn:E0.
  - destruct (IH s Hnd' Hok) as (Hok' & Hr & Ht & Hnew & Hall). split; [done|]. split; [done|]. split; [done|]. split.
    + intros key pool id H. destruct (Hnew key pool id H) as [?|(? & target & ? & ? & ?)]; [by left|right]. split; [done|].
      exists target. split; [by right|done].
    + intros key target [[= -> ->]|H]%elem_of_cons; [|by eapply Hall]. rewrite (Hr _ _ _ E0). by eexists.
  - set (s1 := probes_spawn key0 (pt_pool target0) checker s).
    destruct (IH s1 Hnd' (spawn_ok _ _ _ _ Hok E0)) as (Hok' & Hr & Ht & Hnew & Hall).
    assert (hp_running s1 !! key0 = Some (pt_pool target0, hp_next s)) as E1 by (by cbn; rewrite lookup_insert_eq).
    assert (hp_tasks s1 !! hp_next s = Some {| ta_pool := pt_pool target0; ta_checker := checker |}) as T1 by (by cbn; rewrite lookup_insert_eq).
    split; [done|]. split; [|split; [|split]].
    + intros key pool id H. apply Hr. cbn. rewrite lookup_insert_ne; [done|]. intros ->. congruence.
    + intros id t H. apply Ht. cbn. rewrite lookup_insert_ne; [done|]. intros <-. pose proof (po_next _ Hok _ (mk_is_Some _ _ H)). lia.
    + intros key pool id H. destruct (decide (key = key0)) as [->|Hne].
      * right. split; [done|]. rewrite (Hr _ _ _ E1) in H. injection H as <- <-. exists target0. split; [by left|]. split; [done|]. by apply Ht.
      * assert (hp_running s1 !! key = hp_running s !! key) as Hs by (cbn; by rewrite lookup_insert_ne).
        destruct (Hnew key pool id H) as [H1|(H1 & target & ? & ? & ?)]; rewrite Hs in H1; [by left|right]. split; [done|].
        exists target. split; [by right|done].
    + intros key target [[= -> ->]|H]%elem_of_cons; [|by eapply Hall]. rewrite (Hr _ _ _ E1). by eexists.
Qed.

(** The target of a key is that of the last route with it. *)
Definition last_with (pools : Pools) (health : HealthCheckConfig) (routes : list Route) (r : Route) : Prop :=
  exists before after, routes = before ++ r :: after /\
    forall r', r' ∈ after -> probe_kind health r' <> None -> pool_key fmt_str pools r' <> pool_key fmt_str pools r.

Lemma wanted_spec pools health routes key target :
  wanted_of pools health routes !! key = Some target <->
  exists r kind, last_with pools health routes r /\ probe_kind health r = Some kind /\ pool_key fmt_str pools r = key /\
    target = {| pt_pool := r_pool r; pt_kind := kind |}.
Proof.
  unfold wanted_of. revert key target. induction routes as [|r0 routes IH] using rev_ind; intros key target.
  { cbn. split; [done|]. intros (r & kind & (before & after & H & _) & _). by destruct before. }
  rewrite fold_left_app. cbn [fold_left]. set (m := fold_left _ routes ∅) in *. unfold want_route.
  (* a route stays the last with its key unless the new one takes it *)
  assert (forall r, last_with pools health (routes ++ [r0]) r <->
    r = r0 \/ (last_with pools health routes r /\ (probe_kind health r0 <> None -> pool_key fmt_str pools r0 <> pool_key fmt_str pools r))) as Hlast.
  { intros r. split.
    - intros (before & after & H & Hno). destruct after as [|a after _] using rev_ind.
      + left. apply app_inj_tail in H as [_ ->]. done.
      + right. rewrite app_comm_cons, app_assoc in H. apply app_inj_tail in H as [-> ->].
        split; [exists before, after; split; [done|]; intros r' ?; apply Hno; set_solver|apply Hno; set_solver].
    - intros [->|[(before & after & -> & Hno) Hr]]; [exists routes, []; split; [done|set_solver]|].
      exists before, (after ++ [r0]). split; [by rewrite <- app_assoc|]. intros r' [?| ->%list_elem_of_singleton]%elem_of_app; [by apply Hno|done]. }
  setoid_rewrite Hlast. destruct (probe_kind health r0) as [kind0|] eqn:E0.
  - rewrite lookup_insert_Some, IH. split.
    + intros [[<- <-]|(Hne & r & kind & Hl & Hk & <- & ->)].
      * exists r0, kind0. by repeat split; [left|..].
      * exists r, kind. split; [right; by split|done].
    + intros (r & kind & [->|[Hl Hr]] & Hk & <- & ->); [left|right].
      * by rewrite E0 in Hk; injection Hk as <-.
      * split; [by apply Hr|]. by exists r, kind.
  - rewrite IH. split.
    + intros (r & kind & Hl & ?). exists r, kind. split; [right; by split|done].
    + intros (r & kind & [->|[Hl _]] & Hk & ?); [congruence|]. by exists r, kind.
Qed.

(** C29: After a reload with probing on, the checkers running are those of the routes: every checker that runs watches
    the pool of a route that wants a probe, every route that is the last with its key has a
    checker running on the pool its traffic uses, a checker whose route kept its pool is
    left alone, and no checker runs outside the table that can stop it. *)
Theorem probes_follow_routes pools routes health s :
  probes_ok s -> hcc_enabled health = true ->
  let s' := sync_health_checks pools routes health s in
  probes_ok s' /\
  (forall id t, hp_tasks s' !! id = Some t ->
     exists r, r ∈ routes /\ probe_kind health r <> None /\ r_pool r = ta_pool t) /\
  (forall r, last_with pools health routes r -> probe_kind health r <> None ->
     exists id t, hp_running s' !! pool_key fmt_str pools r = Some (r_pool r, id) /\ hp_tasks s' !! id = Some t /\ ta_pool t = r_pool r /\
       (hp_running s !! pool_key fmt_str pools r = Some (r_pool r, id) /\ hp_tasks s !! id = Some t \/
        (forall id', hp_running s !! pool_key fmt_str pools r <> Some (r_pool r, id')) /\
        Some (hc_kind (ta_checker t)) = probe_kind health r /\ hc_failures (ta_checker t) = ∅)).
Proof.
  intros Hok Hen s'. unfold s', sync_health_checks. rewrite Hen. cbn [negb].
  set (wanted := wanted_of pools health routes). set (s1 := stop_stale wanted s).
  pose proof (stop_stale_ok wanted s Hok) as Hok1. fold s1 in Hok1.
  assert (forall key target, (key, target) ∈ iter wanted <-> wanted !! key = Some target) as Hit
    by (intros key target; rewrite iter_all; apply elem_of_map_to_list).
  destruct (start_probes_spec health (iter wanted) s1) as (Hok2 & Hkeep & Htasks & Hnew & Hall); [|done|].
  { rewrite iter_all. apply NoDup_fst_map_to_list. }
  set (s2 := fold_left _ _ _) in *. split; [done|]. split.
  - intros id t Hid. destruct (po_entry _ Hok2 id t Hid) as [key Hr].
    assert (exists target, wanted !! key = Some target /\ pt_pool target = ta_pool t) as (target & Hw & Hp).
    { destruct (Hnew _ _ _ Hr) as [[_ Hs]%stop_running|(_ & target & Hin & Hp & _)].
      - unfold same_pool in Hs. destruct (wanted !! key) as [target|]; [|done]. apply bool_decide_eq_true in Hs. by exists target.
      - exists target. split; [by apply Hit|done]. }
    apply wanted_spec in Hw as (r & kind & (before & after & -> & _) & Hk & _ & ->). exists r. split; [set_solver|]. by rewrite Hk.
  - intros r Hl Hk. destruct (probe_kind health r) as [kind|] eqn:Ek; [|done]. set (key := pool_key fmt_str pools r).
    assert (wanted !! key = Some {| pt_pool := r_pool r; pt_kind := kind |}) as Hw by (apply wanted_spec; by exists r, kind).
    destruct (Hall key _ (proj2 (Hit _ _) Hw)) as [[pool id] Hr]. destruct (po_task _ Hok2 _ _ _ Hr) as (t & Ht & Hp).
    assert (pool = r_pool r /\ (hp_running s !! key = Some (r_pool r, id) /\ hp_tasks s !! id = Some t \/
      (forall id', hp_running s !! key <> Some (r_pool r, id')) /\ Some (hc_kind (ta_checker t)) = Some kind /\ hc_failures (ta_checker t) = ∅)) as [-> H].
    { destruct (Hnew _ _ _ Hr) as [H1|(H1 & target & Hin & <- & Ht')].
      - pose proof H1 as [H0 Hs]%stop_running. unfold same_pool in Hs. rewrite Hw in Hs. apply bool_decide_eq_true in Hs. cbn in Hs. rewrite <- Hs in H0.
        split; [done|]. left. split; [done|]. destruct (po_task _ Hok1 _ _ _ H1) as (t1 & Ht1 & _). pose proof (Htasks _ _ Ht1) as Ht2.
        rewrite Ht2 in Ht. injection Ht as ->. by apply stop_tasks in Ht1 as [? _].
      - apply Hit in Hin. rewrite Hw in Hin. injection Hin as <-. split; [done|]. right. split.
        + intros id' H0. assert (hp_running s1 !! key = Some (r_pool r, id')) as H; [|by rewrite H in H1].
          apply stop_running. split; [done|]. unfold same_pool. rewrite Hw. by apply bool_decide_eq_true.
        + rewrite Ht' in Ht. injection Ht as <-. by split. }
    by exists id, t.
Qed.
End Sync.

(** ** On concrete checkers *)

Definition no_parse (url : bytes) : result ParsedUrl bytes := Err [].
Definition quiet (answers : list Answer) : Tick :=
  {| tk_enabled := true; tk_turns := (fun a => {| tn_others := id; tn_answer := a; tn_now := 0 |}) <$> answers; tk_others := id |}.

(** A pool that names one backend twice: two failing rounds leave it in, the third takes
    it out, and one answer brings it back. *)
Definition twice : list bytes := [lit "http://a"; lit "http://a"].
Definition failing : Tick := quiet [Failed; TimedOut].
Definition answering : Tick := quiet [Failed; Status 404].

Example threshold_counts_rounds :
  let st ticks := run_checker no_parse (fun _ => true) ticks
    (checker_new 10 5 3 (ProbeHttp (lit "/health") Http1), pool_new no_parse twice RoundRobin) in
  be_healthy <$> backends (st [failing; failing]).2 = [true; true] /\
  be_healthy <$> backends (st [failing; failing; failing]).2 = [false; false] /\
  be_healthy <$> backends (st [failing; failing; failing; answering]).2 = [true; true] /\
  be_healthy <$> backends (st [failing; failing; answering; failing]).2 = [true; true].
Proof. vm_compute. done. Qed.

Lemma health_is_failed_rounds_witness :
  let st := run_checker no_parse (fun _ => true) [failing; failing; failing]
    (checker_new 10 5 3 (ProbeHttp (lit "/health") Http1), pool_new no_parse twice RoundRobin) in
  pool_backends st.2 = twice /\
  forall i e, backends st.2 !! i = Some e ->
    be_healthy e = (failed_rounds (history no_parse (fun _ => true) (ProbeHttp (lit "/health") Http1) twice [failing; failing; failing] (be_url e)) <? 3).
Proof.
  apply (health_is_failed_rounds no_parse (fun _ => true) 10 5 3).
  - repeat constructor; done.
  - vm_compute. reflexivity.
Defined.

Definition route_at (pool : nat) (protocol : BackendProtocol) (ports : option (list Z)) : Route :=
  {| r_host_pattern := lit "a.lan"; r_path_pattern := lit "/"; r_path_is_prefix := true; r_modes := [ModeHttp; ModeTcp]; r_pool := pool;
     r_backend_protocol := protocol; r_path_rewrite := None;
     r_l4 := {| client_ports := ports; idle_timeout := None; flow_timeout := None |} |}.
Definition two_pools : Pools := list_to_map ((fun k => (k, sample_pool)) <$> seq 0 2).
Definition probing : HealthCheckConfig :=
  {| hcc_enabled := true; hcc_interval := 10; hcc_timeout := 5; hcc_threshold := 3; hcc_path := lit "/health" |}.

Lemma probes_new_ok : probes_ok probes_new.
Proof. split; cbn; intros; try (by rewrite ?lookup_empty in *). Qed.

Lemma probes_follow_routes_witness :
  let s' := sync_health_checks id map_to_list two_pools [route_at 0 Http1 None] probing probes_new in
  probes_ok s' /\
  (forall id' t, hp_tasks s' !! id' = Some t -> exists r, r ∈ [route_at 0 Http1 None] /\ probe_kind probing r <> None /\ r_pool r = ta_pool t).
Proof.
  destruct (probes_follow_routes id map_to_list (fun _ => reflexivity _) two_pools [route_at 0 Http1 None] probing probes_new probes_new_ok eq_refl)
    as (H1 & H2 & _).
  split; [exact H1|exact H2].
Defined.

(** Two routes with one key have a pool each and one checker between them: the first
    route's pool is never probed. *)
Theorem shared_key_unprobed :
  let s' := sync_health_checks id map_to_list two_pools [route_at 0 Http1 (Some [22]); route_at 1 Http1 (Some [80])] probing probes_new in
  ta_pool <$> (map_to_list (hp_tasks s')).*2 = [1%nat].
Proof. vm_compute. done. Qed.

(** A route that changes its protocol keeps its key, its pool and its checker, which goes
    on asking the old way. *)
Theorem changed_protocol_not_probed :
  let before := sync_health_checks id map_to_list two_pools [route_at 0 Http1 None] probing probes_new in
  let routes := update_routes id two_pools [route_at 0 Http1 None] [route_at 1 H2c None] in
  let after := sync_health_checks id map_to_list two_pools routes probing before in
  r_backend_protocol <$> routes = [H2c] /\
  (fun t => hc_kind (ta_checker t)) <$> (map_to_list (hp_tasks after)).*2 = [ProbeHttp (lit "/health") Http1].
Proof. vm_compute. done. Qed.
