(* ===== verification/Dial.v ===== *)
(** * Dialling a backend (nexapipe/src/backend_conn.rs: [connect],
    [connect_addrs], [connect_addrs_with] and [share_deadline]).

    An [Instant] is a number of nanoseconds.  What the network does is a
    parameter: the resolver's answer and each dial come with the time they
    take, and time passes only while the code waits on one of them.  The file
    shows that one budget covers the resolution and every address, and that an
    address that never answers cannot starve the ones after it. *)

From S2P Require Import Prelude RustStd.

Definition MIN_ADDRESS_SHARE : Z := 250 * 1000000.

Definition share_deadline (now deadline left : Z) : Z :=
  let remaining := saturating_sub deadline now in
  let share := remaining / Z.max left 1 in
  Z.min (now + Z.max share MIN_ADDRESS_SHARE) deadline.

(** What one attempt at an address came to, as the error names it. *)
Inductive outcome_ := NotTried | TimedOut | DialFailed.

(** What a dial would do if it were waited on for long enough: answer, or fail,
    after some time; [None] never comes back. *)
Inductive dial_answer := DialOk | DialErr.

Section Dial.
Context {Addr Host : Type}.
(** The TCP stack: how long a dial takes and what it comes back with. *)
Variable dial : Addr -> option (Z * dial_answer).

(** [tokio::time::timeout_at]: the answer if it is there by the deadline, and
    the time at which the wait ends. *)
Definition timeout_at {A} (now deadline : Z) (wait : option (Z * A)) : Z * option A :=
  match wait with
  | Some (took, a) =>
      if now + took <=? deadline then (now + took, Some a) else (Z.max now deadline, None)
  | None => (Z.max now deadline, None)
  end.

(** The loop over the addresses that are left: the time it ends, and the address
    that answered or the outcomes of the attempts. *)
Fixpoint connect_loop (now deadline : Z) (outcomes : list (Addr * outcome_)) (addrs : list Addr)
    : Z * result Addr (list (Addr * outcome_)) :=
  match addrs with
  | [] => (now, Err outcomes)
  | addr :: rest =>
      if deadline <=? now then (now, Err (outcomes ++ ((fun a => (a, NotTried)) <$> addrs)))
      else
        let attempt_deadline := share_deadline now deadline (wrapping 32 (len addrs)) in
        match timeout_at now attempt_deadline (dial addr) with
        | (now, Some DialOk) => (now, Ok addr)
        | (now, Some DialErr) => connect_loop now deadline (outcomes ++ [(addr, DialFailed)]) rest
        | (now, None) => connect_loop now deadline (outcomes ++ [(addr, TimedOut)]) rest
        end
  end.

Definition connect_addrs (now deadline : Z) (addrs : list Addr)
    : Z * result Addr (list (Addr * outcome_)) := connect_loop now deadline [] addrs.

Inductive connect_error :=
| ResolveTimedOut
| ResolveFailed
| NoAddressAnswered (outcomes : list (Addr * outcome_)).

(** The resolver: how long it takes, and the addresses or its failure. *)
Variable resolve_to : Host -> Z -> option (Z * result (list Addr) unit).

Definition connect (now connect_timeout : Z) (host : Host) (port : Z) : Z * result Addr connect_error :=
  let deadline := now + connect_timeout in
  match timeout_at now deadline (resolve_to host port) with
  | (now, None) => (now, Err ResolveTimedOut)
  | (now, Some (Err _)) => (now, Err ResolveFailed)
  | (now, Some (Ok addrs)) =>
      match connect_addrs now deadline addrs with
      | (now, Ok addr) => (now, Ok addr)
      | (now, Err outcomes) => (now, Err (NoAddressAnswered outcomes))
      end
  end.

(** ** The budget *)

(** No dial answers before it was made. *)
Definition causal {A B} (f : A -> option (Z * B)) : Prop :=
  forall a took b, f a = Some (took, b) -> 0 <= took.

Lemma share_deadline_bounds now deadline left :
  now < deadline -> 1 <= left ->
  now + (deadline - now) / left <= share_deadline now deadline left <= deadline.
Proof.
  intros Hlt Hl. unfold share_deadline, saturating_sub.
  rewrite (Z.max_l (deadline - now)), (Z.max_l left) by lia.
  assert ((deadline - now) / left <= deadline - now) by (apply Z.div_le_upper_bound; nia).
  lia.
Qed.

Lemma timeout_at_end {A} now deadline (wait : option (Z * A)) :
  (forall took a, wait = Some (took, a) -> 0 <= took) -> now <= deadline ->
  now <= (timeout_at now deadline wait).1 <= deadline.
Proof.
  intros Hc Hd. unfold timeout_at. destruct wait as [[took a]|]; simpl; [|lia].
  specialize (Hc took a eq_refl). destruct (now + took <=? deadline) eqn:E; bools; simpl; lia.
Qed.

Lemma connect_loop_end deadline addrs now outcomes :
  causal dial -> now <= deadline -> len addrs < 2 ^ 32 ->
  now <= (connect_loop now deadline outcomes addrs).1 <= deadline.
Proof.
  intros Hc. revert now outcomes. induction addrs as [|a addrs IH]; intros now outcomes Hd Hn.
  { simpl. lia. }
  cbn [connect_loop]. rewrite len_cons in *. pose proof (len_nonneg addrs).
  destruct (deadline <=? now) eqn:E; bools; [simpl; lia|].
  rewrite wrapping_small by (unfold is_uint; lia).
  pose proof (share_deadline_bounds now deadline (1 + len addrs) ltac:(lia) ltac:(lia)) as Hs.
  assert (0 <= (deadline - now) / (1 + len addrs)) by (apply Z.div_pos; lia).
  pose proof (timeout_at_end now (share_deadline now deadline (1 + len addrs)) (dial a)
    (Hc a) ltac:(lia)) as Ht.
  destruct (timeout_at _ _ (dial a)) as [now' [[]|]]; cbn [fst] in *; [lia| |];
    (match goal with |- context [connect_loop ?n ?d ?o ?l] =>
       pose proof (IH n o ltac:(lia) ltac:(lia)) end); lia.
Qed.

(** An answer that comes within an equal share is always waited for. *)
Lemma connect_loop_answers deadline share addrs now outcomes :
  causal dial -> len addrs < 2 ^ 32 -> 0 < share -> now + len addrs * share <= deadline ->
  (exists a took, a ∈ addrs /\ dial a = Some (took, DialOk) /\ took <= share) ->
  MIN_ADDRESS_SHARE <= share ->
  exists a, (connect_loop now deadline outcomes addrs).2 = Ok a /\ a ∈ addrs.
Proof.
  intros Hc Hn Hs Hd Hex Hm. revert now outcomes Hd Hex.
  induction addrs as [|a addrs IH]; intros now outcomes Hd Hex.
  { destruct Hex as (a & took & Ha & _). by apply elem_of_nil in Ha. }
  rewrite len_cons in *. pose proof (len_nonneg addrs). cbn [connect_loop]. rewrite len_cons.
  destruct (deadline <=? now) eqn:E; bools; [nia|].
  rewrite wrapping_small by (unfold is_uint; lia).
  set (left := 1 + len addrs) in *. set (share' := (deadline - now) / left).
  assert (share <= share') as Hshare by (apply Z.div_le_lower_bound; nia).
  assert (left * share' <= deadline - now) as Hmul by (apply Z.mul_div_le; lia).
  assert (share_deadline now deadline left = now + share') as ->.
  { unfold share_deadline, saturating_sub. rewrite (Z.max_l (deadline - now)), (Z.max_l left) by lia.
    fold share'. rewrite Z.max_l by lia. nia. }
  pose proof (timeout_at_end now (now + share') (dial a) (Hc a) ltac:(lia)) as Ht.
  assert (forall t o, now <= t <= now + share' ->
    (exists b took, b ∈ addrs /\ dial b = Some (took, DialOk) /\ took <= share) ->
    exists b, (connect_loop t deadline o addrs).2 = Ok b /\ b ∈ a :: addrs) as Hrest.
  { intros t o Ht' Hb. destruct (IH ltac:(lia) t o) as (b & ? & ?); [nia|done|].
    exists b. rewrite elem_of_cons. auto. }
  destruct Hex as (b & took & [->|Hb]%elem_of_cons & Hdial & Htook).
  - rewrite Hdial. unfold timeout_at. rewrite (proj2 (Z.leb_le _ _)) by lia.
    exists a. split; [done|by constructor].
  - destruct (timeout_at now (now + share') (dial a)) as [t [[]|]]; cbn [fst] in Ht.
    + exists a. split; [done|by constructor].
    + apply Hrest; eauto.
    + apply Hrest; eauto.
Qed.

(** One budget, fairly shared.  A connect always ends by its deadline,
    however many addresses the name has and whatever each of them does.  And an
    address that never answers cannot starve the others: when the budget left
    after the resolution gives each address at least the minimum share, any
    address that accepts within an equal share of it makes the connect
    succeed. *)
Theorem connect_budget now connect_timeout host port :
  causal dial -> causal (fun a => resolve_to a port) -> 0 <= connect_timeout ->
  (forall took addrs, resolve_to host port = Some (took, Ok addrs) -> len addrs < 2 ^ 32) ->
  (connect now connect_timeout host port).1 <= now + connect_timeout /\
  (forall took addrs share,
     resolve_to host port = Some (took, Ok addrs) -> MIN_ADDRESS_SHARE <= share ->
     took + len addrs * share <= connect_timeout ->
     (exists a t, a ∈ addrs /\ dial a = Some (t, DialOk) /\ t <= share) ->
     exists a, (connect now connect_timeout host port).2 = Ok a /\ a ∈ addrs).
Proof.
  intros Hc Hr Ht Hn. unfold connect, connect_addrs. split.
  - pose proof (timeout_at_end now (now + connect_timeout) (resolve_to host port) (Hr host) ltac:(lia)).
    destruct (timeout_at _ _ _) as [t [[addrs|]|]] eqn:E; cbn [fst] in *; [|lia|lia].
    unfold timeout_at in E. destruct (resolve_to host port) as [[took r]|] eqn:Er; [|done].
    destruct (now + took <=? now + connect_timeout); [|done]. injection E as <- ->.
    pose proof (connect_loop_end (now + connect_timeout) addrs (now + took) [] Hc
      ltac:(lia) ltac:(eauto)). destruct (connect_loop _ _ _ _) as [t []]; simpl in *; lia.
  - intros took addrs share Hres Hm Hb Hex. rewrite Hres. pose proof (Hr host took _ Hres).
    pose proof (len_nonneg addrs). unfold MIN_ADDRESS_SHARE in *. unfold timeout_at.
    rewrite (proj2 (Z.leb_le _ _)) by nia.
    destruct (connect_loop_answers (now + connect_timeout) share addrs (now + took) [])
      as (a & Ha & Hin); [done|by eapply Hn|lia|lia|done|unfold MIN_ADDRESS_SHARE; lia|].
    destruct (connect_loop _ _ _ _) as [t [b|]]; simplify_eq/=. eauto.
Qed.
End Dial.

(** Two addresses: the first never answers, the second does after 10ms. *)
Definition blackhole_first (a : nat) : option (Z * dial_answer) :=
  if bool_decide (a = 1%nat) then Some (10 * 1000000, DialOk) else None.

