(* ===== verification/L4.v ===== *)
(** * The layer-4 tunnel (nexapipe/src/l4/mod.rs, and [read_more_by] of
    nexapipe/src/stream_util.rs).

    A stream opens with a preface and is answered with one status byte.  The
    file models the whole opening, from the first byte to the running flow, and
    what the flow gives back when it ends: the lease on the backend, the slot
    of the connection's flow limiter and the bytes of the budget.  The datagrams
    of a running UDP flow are in [Udp], the copy of a running TCP flow in [Copy].

    The network is a record of parameters.  The shared counters are read and
    written in one step each: [try_acquire] is a compare-and-swap loop, and its
    atomic effect is the definition here. *)

From S2P Require Import Prelude RustStd Preface Udp Host AuthCodec AuthConfig Lb Limits Routes Dial.

(** ** The flow limiter *)

Definition DEFAULT_MAX_FLOWS_PER_CONNECTION : Z := 256.

Record FlowLimiter := { fl_current : Z; fl_max : Z }.

Definition flow_limiter_new (max_ : Z) : FlowLimiter := {| fl_current := 0; fl_max := max_ |}.

Definition flow_try_acquire (l : FlowLimiter) : option FlowLimiter :=
  if fl_max l <=? fl_current l then None
  else Some {| fl_current := fl_current l + 1; fl_max := fl_max l |}.

Definition flow_guard_drop (l : FlowLimiter) : FlowLimiter :=
  {| fl_current := wrapping 64 (fl_current l - 1); fl_max := fl_max l |}.

(** ** Reading the preface *)

(** What [read_more_by] does to the buffer; [Ok None] is its [false]. *)
Definition read_more_by (buf : bytes) (ev : ReadEvent) : result (option bytes) unit :=
  match ev with
  | REof => Ok None
  | RBytes chunk => Ok (Some (buf ++ chunk))
  | RFailed => Err tt
  | RIdle => Ok None
  end.

Inductive PrefaceFailure := PfProto (e : ProtoError) | PfIo | PfUnexpectedEof.

(** The loop over the reads; past the last event nothing more arrives, and the
    deadline passes.  The events that were not needed are returned. *)
Fixpoint read_preface (buf : bytes) (evs : list ReadEvent)
    : result (Preface * bytes * list ReadEvent) PrefaceFailure :=
  match decode buf with
  | Ok (Some (preface, n)) => Ok (preface, drop n buf, evs)
  | Err e => Err (PfProto e)
  | Ok None =>
      match evs with
      | [] => Err PfUnexpectedEof
      | ev :: evs =>
          match read_more_by buf ev with
          | Err _ => Err PfIo
          | Ok None => Err PfUnexpectedEof
          | Ok (Some buf) => read_preface buf evs
          end
      end
  end.

(** ** Opening a flow *)

Definition UDP_RECV_BUFFER_BYTES : Z := 64 * 1024.
Definition UDP_FRAME_BUFFER_BYTES : Z := Z.of_nat FRAME_HEADER_LEN + MAX_UDP_PAYLOAD.
Definition UDP_FLOW_BUFFER_BYTES : Z :=
  UDP_RECV_BUFFER_BYTES + UDP_SEND_BUFFER_BYTES + UDP_FRAME_BUFFER_BYTES + UDP_PENDING_BUFFER_BYTES.

(** A socket address: its family, what names the host (the address, and for IPv6
    its flow label and scope), and its port. *)
Record SocketAddr := { sa_is_ipv4 : bool; sa_ip : bytes; sa_port : Z }.

Definition with_port (addr : SocketAddr) (port : Z) : SocketAddr :=
  {| sa_is_ipv4 := sa_is_ipv4 addr; sa_ip := sa_ip addr; sa_port := port |}.

Definition udp_bind_addr (target : SocketAddr) : bytes :=
  if sa_is_ipv4 target then lit "0.0.0.0:0" else lit "[::]:0".

(** What is outside the process: the [url] crate, the resolver, the sockets,
    whether the client's stream takes the status byte, and whether a backend that was
    dialled takes the bytes that came with the preface. *)
Record Network := {
  net_url_parse : bytes -> result ParsedUrl bytes;
  net_resolve_uncached : bytes -> option (list SocketAddr);
  net_resolve_to : bytes -> Z -> option (Z * result (list SocketAddr) unit);
  net_dial : SocketAddr -> option (Z * dial_answer);
  net_udp_bind : bytes -> bool;
  net_udp_connect : SocketAddr -> bool;
  net_status_written : bool;
  net_leftover_written : bool;
}.

(** The waits that concern a flow, of the resolved [Timeouts]. *)
Record FlowTimeouts := { t_connect : Z; t_l4_flow : Z; t_l4_idle : Z }.

Definition l4_parse_backend_addr (n : Network) (backend : bytes) : option (bytes * Z) :=
  Routes.parse_backend_addr (net_url_parse n) backend Required.

Definition resolve_udp_target (n : Network) (host : bytes) (port : Z) : option SocketAddr :=
  let! addrs := net_resolve_uncached n host in
  let! addr := head addrs in
  Some (with_port addr port).

(** [ByteReservation::take_buffers] and the reservation's [Drop]. *)
Definition take_buffers (b : ByteBudget) (bytes_ : Z) : result (ByteBudget * Z) Z :=
  take_from b bytes_.
Definition reservation_drop (bytes_ : Z) (b : ByteBudget) : ByteBudget :=
  {| b_held := saturating_sub (b_held b) bytes_; b_max := b_max b |}.

(** The buffers of a TCP flow, one per direction (stream_util.rs); the first reservation is
    dropped if the second does not fit. *)
Definition COPY_BUF_SIZE : Z := 16 * 1024.
Definition COPY_BUFFER_BYTES : Z := 2 * COPY_BUF_SIZE.

Definition copy_buffers_take (b : ByteBudget) : ByteBudget * option (Z * Z) :=
  match take_buffers b COPY_BUF_SIZE with
  | Err _ => (b, None)
  | Ok (b1, client_to_backend) =>
      match take_buffers b1 COPY_BUF_SIZE with
      | Err _ => (reservation_drop client_to_backend b1, None)
      | Ok (b2, backend_to_client) => (b2, Some (client_to_backend, backend_to_client))
      end
  end.

(** The part of the server a stream touches. *)
Record Server := { s_pools : Pools; s_flows : FlowLimiter; s_budget : ByteBudget }.

(** A flow that is running, with everything it holds: a TCP flow has a reservation per
    direction, a UDP flow one. *)
Record Flow := {
  f_proto : L4Proto;
  f_peer : SocketAddr;
  f_leftover : bytes;
  f_idle : option Z;
  f_timeout : Z;
  f_lease : Lease;
  f_reserved : list Z;
}.

(** How the opening ends: the flow runs, or the stream was answered with a
    status (and the code the log records for it) and the handler returned,
    with [Ok(())] or with an error.  A TCP flow that fails between the status byte and
    the first copied byte was answered [StOk]. *)
Inductive Opening :=
| NotOpened (status : option Status) (logged : option Z) (returned_ok : bool)
| Running (flow : Flow).

Section Serve.
Variable n : Network.

(** The status byte on the wire, if the stream takes it. *)
Definition write_status (s : Status) : option Status :=
  if net_status_written n then Some s else None.

(** [serve_tcp] until the bytes flow: the backend and the reservations of the copy, or the
    status the stream was answered with when it failed.  The status goes out before the
    bytes that came with the preface, and those before the buffers are paid for. *)
Definition open_tcp (now connect_timeout : Z) (budget : ByteBudget) (backend leftover : bytes)
    : ByteBudget * result (SocketAddr * (Z * Z)) (option Status) :=
  match l4_parse_backend_addr n backend with
  | None => (budget, Err (write_status StBackendFailed))
  | Some (host, port) =>
      match (connect (net_dial n) (net_resolve_to n) now connect_timeout host port).2 with
      | Err _ => (budget, Err (write_status StBackendFailed))
      | Ok addr =>
          if negb (net_status_written n) then (budget, Err None)
          else if negb (bool_decide (leftover = [])) && negb (net_leftover_written n)
          then (budget, Err (Some StOk))
          else
            match copy_buffers_take budget with
            | (budget, None) => (budget, Err (Some StOk))
            | (budget, Some reservations) => (budget, Ok (addr, reservations))
            end
      end
  end.

(** [serve_udp] and [serve_udp_flow] until the datagrams flow.  The reservation
    is given back on every failure after it was taken. *)
Definition open_udp (budget : ByteBudget) (backend : bytes)
    : ByteBudget * result (SocketAddr * Z) (option Status) :=
  match l4_parse_backend_addr n backend with
  | None => (budget, Err (write_status StBackendFailed))
  | Some (host, port) =>
      match resolve_udp_target n host port with
      | None => (budget, Err (write_status StBackendFailed))
      | Some target =>
          match take_buffers budget UDP_FLOW_BUFFER_BYTES with
          | Err _ => (budget, Err (write_status StBackendFailed))
          | Ok (budget, reservation) =>
              if negb (net_udp_bind n (udp_bind_addr target))
              then (reservation_drop reservation budget, Err (write_status StBackendFailed))
              else if negb (net_udp_connect n target)
              then (reservation_drop reservation budget, Err (write_status StBackendFailed))
              else if negb (net_status_written n)
              then (reservation_drop reservation budget, Err None)
              else (budget, Ok (target, reservation))
          end
      end
  end.

(** What a flow holds of the limiter and of a pool, given back. *)
Definition give_back (l : Lease) (s : Server) : Server :=
  {| s_pools := drop_lease l (s_pools s); s_flows := flow_guard_drop (s_flows s);
     s_budget := s_budget s |}.

(** The opening once a route was found and a slot taken. *)
Definition open_flow (t : FlowTimeouts) (now : Z) (preface : Preface) (leftover : bytes)
    (route : L4RouteInfo) (s : Server) : Server * Opening :=
  let flow_timeout := default (t_l4_flow t) (l_flow_timeout route) in
  match pf_proto preface with
  | Tcp =>
      let '(budget, r) := open_tcp now (t_connect t) (s_budget s) (l_backend route) leftover in
      let s := {| s_pools := s_pools s; s_flows := s_flows s; s_budget := budget |} in
      match r with
      | Err status => (give_back (l_lease route) s, NotOpened status (Some 502) false)
      | Ok (addr, (to_backend, to_client)) => (s, Running {|
          f_proto := Tcp; f_peer := addr; f_leftover := leftover; f_idle := None;
          f_timeout := flow_timeout; f_lease := l_lease route; f_reserved := [to_backend; to_client] |})
      end
  | Udp =>
      let idle := default (t_l4_idle t) (l_idle_timeout route) in
      let '(budget, r) := open_udp (s_budget s) (l_backend route) in
      let s := {| s_pools := s_pools s; s_flows := s_flows s; s_budget := budget |} in
      match r with
      | Err status => (give_back (l_lease route) s, NotOpened status (Some 502) false)
      | Ok (addr, reservation) => (s, Running {|
          f_proto := Udp; f_peer := addr; f_leftover := leftover; f_idle := Some idle;
          f_timeout := flow_timeout; f_lease := l_lease route; f_reserved := [reservation] |})
      end
  end.

(** [serve_stream] up to the running flow; [None] is a panic. *)
Definition serve_stream (t : FlowTimeouts) (routes : list Route) (acl : option ClientAcl)
    (initial : bytes) (evs : list ReadEvent) (now rand : Z) (s : Server) : option (Server * Opening) :=
  match read_preface initial evs with
  | Err (PfProto _) => Some (s, NotOpened (write_status StBadPreface) None true)
  | Err _ => Some (s, NotOpened None None false)
  | Ok (preface, leftover, _) =>
      if match acl with
         | Some acl => negb (allows_target acl (pf_host preface) (pf_port preface))
         | None => false
         end
      then Some (s, NotOpened (write_status StNoRoute) None true)
      else
        let with_pools pools :=
          {| s_pools := pools; s_flows := s_flows s; s_budget := s_budget s |} in
        match get_l4_backend routes (s_pools s) (pf_host preface) (pf_port preface)
                (from_l4_proto (pf_proto preface)) now rand with
        | None => None
        | Some (pools, Unavailable) =>
            Some (with_pools pools, NotOpened (write_status StBackendFailed) (Some 503) true)
        | Some (pools, NoRoute) =>
            Some (with_pools pools, NotOpened (write_status StNoRoute) (Some 404) true)
        | Some (pools, Found route) =>
            match flow_try_acquire (s_flows s) with
            | None => Some (with_pools (drop_lease (l_lease route) pools),
                            NotOpened (write_status StTooManyFlows) (Some 429) true)
            | Some flows =>
                Some (open_flow t now preface leftover route
                  {| s_pools := pools; s_flows := flows; s_budget := s_budget s |})
            end
        end
  end.

(** One direction of a copy ends before the other, and its buffer is given back. *)
Definition direction_ends (i : nat) (f : Flow) (s : Server) : Flow * Server :=
  match f_reserved f !! i with
  | None => (f, s)
  | Some reservation =>
      ({| f_proto := f_proto f; f_peer := f_peer f; f_leftover := f_leftover f; f_idle := f_idle f;
          f_timeout := f_timeout f; f_lease := f_lease f; f_reserved := delete i (f_reserved f) |},
       {| s_pools := s_pools s; s_flows := s_flows s; s_budget := reservation_drop reservation (s_budget s) |})
  end.

(** The end of a running flow, however it ends. *)
Definition flow_ends (f : Flow) (s : Server) : Server :=
  give_back (f_lease f) {| s_pools := s_pools s; s_flows := s_flows s;
    s_budget := foldr reservation_drop (s_budget s) (f_reserved f) |}.
End Serve.

(** ** The preface, whatever way it arrives *)

Lemma read_preface_chunks p bs payload chunks buf evs :
  preface_ok p -> preface_to_bytes p = Ok bs -> buf ++ concat chunks = bs ++ payload ->
  exists leftover chunks', read_preface buf ((RBytes <$> chunks) ++ evs) =
      Ok (preface_lower p, leftover, (RBytes <$> chunks') ++ evs) /\
    leftover ++ concat chunks' = payload.
Proof.
  intros Hok Hb. revert buf. induction chunks as [|c chunks IH]; intros buf Hcat.
  - cbn [concat] in Hcat. rewrite app_nil_r in Hcat. subst buf.
    destruct (decode_wire p bs payload Hok Hb) as (Hd & _ & Hdrop).
    exists payload, []. rewrite app_nil_r. split; [|done].
    destruct evs; cbn [read_preface fmap list_fmap app]; by rewrite Hd, Hdrop.
  - destruct (decide (length bs <= length buf)%nat) as [Hlen|Hlen].
    + assert (exists rest, buf = bs ++ rest /\ rest ++ concat (c :: chunks) = payload)
        as (rest & -> & Hrest).
      { exists (drop (length bs) buf). apply (f_equal (take (length bs))) in Hcat as Ht.
        apply (f_equal (drop (length bs))) in Hcat.
        rewrite take_app_le, take_app_len in Ht by done.
        rewrite drop_app_le, drop_app_len in Hcat by done.
        split; [|done]. by rewrite <- Ht at 1; rewrite take_drop. }
      destruct (decode_wire p bs rest Hok Hb) as (Hd & _ & Hdrop).
      exists rest, (c :: chunks). split; [|done].
      cbn [read_preface fmap list_fmap app]. by rewrite Hd, Hdrop.
    + assert (buf = take (length buf) bs) as Hbuf.
      { apply (f_equal (take (length buf))) in Hcat.
        rewrite take_app_len, take_app_le in Hcat by lia. done. }
      assert (decode buf = Ok None) as Hd.
      { rewrite Hbuf. apply (decode_wire_prefix p bs); [done|done|lia]. }
      cbn [concat] in Hcat. destruct (IH (buf ++ c)) as (leftover & chunks' & Hr & Hl);
        [by rewrite <- app_assoc|].
      exists leftover, chunks'. split; [|done].
      cbn [read_preface fmap list_fmap app]. rewrite Hd. cbn [read_more_by]. exact Hr.
Qed.

(** The preface survives any segmentation.  However the transport cuts the
    preface and what follows it into reads, one byte at a time or all at once,
    the server reads the client's preface (its host in lower case), and not
    one byte of the payload is lost or swallowed: what was read with the
    preface is handed on, and the rest is still to be read. *)
Theorem read_preface_any_segmentation p bs payload initial chunks evs :
  preface_ok p -> preface_to_bytes p = Ok bs -> initial ++ concat chunks = bs ++ payload ->
  exists leftover chunks', read_preface initial ((RBytes <$> chunks) ++ evs) =
      Ok (preface_lower p, leftover, (RBytes <$> chunks') ++ evs) /\
    leftover ++ concat chunks' = payload.
Proof. apply read_preface_chunks. Qed.


(** ** What an opening holds, and gives back *)

(** What a stream may hold of the server: the requests outstanding on every
    backend, the connection's flows and the bytes of the budget. *)
Definition held (s : Server) : gmap nat (list Z) * FlowLimiter * ByteBudget :=
  (Routes.counts (s_pools s), s_flows s, s_budget s).

Record server_ok (routes : list Route) (s : Server) : Prop := {
  ok_pools : pools_ok (s_pools s) routes;
  ok_flows : 0 <= fl_current (s_flows s) <= fl_max (s_flows s);
  ok_flows_max : is_uint 64 (fl_max (s_flows s));
  ok_budget : 0 <= b_held (s_budget s) <= b_max (s_budget s);
  ok_budget_max : b_max (s_budget s) < umax 64;
}.

Lemma flow_drop_acquired l l' :
  0 <= fl_current l <= fl_max l -> is_uint 64 (fl_max l) -> flow_try_acquire l = Some l' ->
  flow_guard_drop l' = l /\ fl_current l' = fl_current l + 1 /\ fl_current l' <= fl_max l /\
  fl_max l' = fl_max l.
Proof.
  unfold flow_try_acquire, flow_guard_drop, is_uint. destruct l as [c m]. cbn. intros Hc Hm.
  destruct (m <=? c) eqn:E; [done|]. bools. intros [= <-]. cbn.
  rewrite wrapping_small by (unfold is_uint; lia). split; [f_equal; lia|lia].
Qed.

Lemma take_buffers_spec b n :
  0 <= n -> 0 <= b_held b <= b_max b -> b_max b < umax 64 ->
  match take_buffers b n with
  | Ok (b', r) => r = n /\ b_max b' = b_max b /\ b_held b' = b_held b + n /\ b_held b' <= b_max b'
  | Err _ => b_max b < b_held b + n
  end.
Proof.
  intros Hn Hb Hw. unfold take_buffers, take_from, try_reserve, saturating_add, umax in *.
  destruct (Z.leb_spec (Z.min (b_held b + n) (2 ^ 64 - 1)) (b_max b)); cbn; [split; [done|]|]; lia.
Qed.

Lemma reservation_drop_held n b b' :
  0 <= b_held b -> b_max b' = b_max b -> b_held b' = b_held b + n -> reservation_drop n b' = b.
Proof.
  intros H0 Hm Hh. destruct b, b'. unfold reservation_drop, saturating_sub. cbn in *. subst. f_equal. lia.
Qed.

Lemma copy_buffers_take_spec b :
  0 <= b_held b <= b_max b -> b_max b < umax 64 ->
  match copy_buffers_take b with
  | (b', Some (r1, r2)) => r1 = COPY_BUF_SIZE /\ r2 = COPY_BUF_SIZE /\
      b_max b' = b_max b /\ b_held b' = b_held b + COPY_BUFFER_BYTES /\ b_held b' <= b_max b'
  | (b', None) => b' = b /\ b_max b < b_held b + COPY_BUFFER_BYTES
  end.
Proof.
  intros Hb Hw. unfold copy_buffers_take, COPY_BUFFER_BYTES.
  assert (0 <= COPY_BUF_SIZE) as Hs by done.
  pose proof (take_buffers_spec b _ Hs Hb Hw) as H1.
  destruct (take_buffers b COPY_BUF_SIZE) as [[b1 r1]|]; [|split; [done|lia]]. destruct H1 as (-> & Hm & Hh & Hle).
  pose proof (take_buffers_spec b1 _ Hs ltac:(lia) ltac:(lia)) as H2.
  destruct (take_buffers b1 COPY_BUF_SIZE) as [[b2 r2]|].
  - destruct H2 as (-> & Hm2 & Hh2 & Hle2). split; [done|]. split; [done|]. lia.
  - split; [by apply reservation_drop_held; [lia|..]|lia].
Qed.

Section Accounts.
Variable n : Network.

Lemma give_back_held routes s pools' flows' l :
  server_ok routes s -> one_more l (Routes.counts (s_pools s)) (Routes.counts pools') ->
  flow_try_acquire (s_flows s) = Some flows' ->
  held (give_back l {| s_pools := pools'; s_flows := flows'; s_budget := s_budget s |}) = held s.
Proof.
  intros Hok Hm Hf. unfold held, give_back. cbn. destruct Hok as [[_ Hu] Hfl Hfm _ _].
  apply flow_drop_acquired in Hf as (-> & _); [|done|done].
  by erewrite drop_lease_counts by done.
Qed.

(** The UDP opening leaves the budget alone unless the flow runs, and a running
    flow holds exactly its buffers. *)
Lemma open_udp_cases b backend :
  0 <= b_held b <= b_max b -> b_max b < umax 64 ->
  match open_udp n b backend with
  | (b', Err status) => b' = b /\ status <> Some StOk /\
      (forall s, status = Some s -> s = StBackendFailed)
  | (b', Ok (_, r)) => r = UDP_FLOW_BUFFER_BYTES /\ b_held b' = b_held b + r /\
      b_held b' <= b_max b' /\ reservation_drop r b' = b
  end.
Proof.
  intros Hh Hm. unfold open_udp, write_status.
  assert (0 <= UDP_FLOW_BUFFER_BYTES) as H0 by (vm_compute; discriminate).
  assert (forall A (b' : ByteBudget) (P : A), b' = b ->
    let st := if net_status_written n then Some StBackendFailed else None in
    b' = b /\ st <> Some StOk /\ (forall s, st = Some s -> s = StBackendFailed)) as Hfail.
  { intros A b' _ -> st. unfold st. destruct (net_status_written n); split_and!; try done; congruence. }
  destruct (l4_parse_backend_addr n backend) as [[host port]|]; [|by apply (Hfail unit)].
  destruct (resolve_udp_target n host port) as [target|]; [|by apply (Hfail unit)].
  pose proof (take_buffers_spec b _ H0 Hh Hm) as Ht.
  destruct (take_buffers b UDP_FLOW_BUFFER_BYTES) as [[b' r]|]; [|by apply (Hfail unit)].
  destruct Ht as (-> & Hmx & Hb & Hle).
  pose proof (reservation_drop_held UDP_FLOW_BUFFER_BYTES b b' ltac:(lia) Hmx Hb) as Hd.
  destruct (negb (net_udp_bind n _)); [by apply (Hfail unit)|].
  destruct (negb (net_udp_connect n target)); [by apply (Hfail unit)|].
  destruct (negb (net_status_written n)); [|done]. split_and!; [done|done|discriminate].
Qed.

(** The TCP opening leaves the budget alone unless the flow runs, and a running flow
    holds a buffer each way.  A stream that was answered "ok" and does not run lost the
    bytes that came with its preface, or its buffers do not fit. *)
Lemma open_tcp_cases now connect_timeout b backend leftover :
  0 <= b_held b <= b_max b -> b_max b < umax 64 ->
  match open_tcp n now connect_timeout b backend leftover with
  | (b', Err status) => b' = b /\
      (forall s, status = Some s -> s = StBackendFailed \/
         s = StOk /\ (leftover <> [] /\ net_leftover_written n = false \/ b_max b < b_held b + COPY_BUFFER_BYTES))
  | (b', Ok (_, (r1, r2))) => r1 = COPY_BUF_SIZE /\ r2 = COPY_BUF_SIZE /\
      b_max b' = b_max b /\ b_held b' = b_held b + COPY_BUFFER_BYTES /\ b_held b' <= b_max b'
  end.
Proof.
  intros Hh Hm. unfold open_tcp, write_status. pose proof (copy_buffers_take_spec b Hh Hm) as Hc.
  destruct (l4_parse_backend_addr n backend) as [[host port]|]; [|destruct (net_status_written n); split; [done|left; congruence|done|done]].
  destruct (connect _ _ _ _ _ _).2 as [addr|]; [|destruct (net_status_written n); split; [done|left; congruence|done|done]].
  destruct (net_status_written n); cbn [negb]; [|split; done].
  destruct (negb (bool_decide (leftover = [])) && negb (net_leftover_written n)) eqn:E.
  - apply andb_true_iff in E as [E1%negb_true_iff%bool_decide_eq_false E2%negb_true_iff].
    split; [done|]. intros s [= <-]. auto.
  - destruct (copy_buffers_take b) as [b' [[r1 r2]|]]; [exact Hc|]. destruct Hc as [-> Hc]. split; [done|]. intros s [= <-]. auto.
Qed.

(** Why a stream was not opened, by the status the client reads. *)
Definition refusal_reason (routes : list Route) (acl : option ClientAcl) (initial : bytes)
    (evs : list ReadEvent) (s : Server) (status : option Status) : Prop :=
  match status with
  | None => True
  | Some StBadPreface => exists e, read_preface initial evs = Err (PfProto e)
  | Some StNoRoute =>
      exists p leftover rest, read_preface initial evs = Ok (p, leftover, rest) /\
        ((exists a, acl = Some a /\ allows_target a (pf_host p) (pf_port p) = false) \/
         l4_route routes (pf_host p) (pf_port p) (from_l4_proto (pf_proto p)) = None)
  | Some StTooManyFlows => fl_current (s_flows s) = fl_max (s_flows s)
  | Some StBackendFailed =>
      exists p leftover rest r, read_preface initial evs = Ok (p, leftover, rest) /\
        l4_route routes (pf_host p) (pf_port p) (from_l4_proto (pf_proto p)) = Some r
  | Some StOk =>
      exists p leftover rest r, read_preface initial evs = Ok (p, leftover, rest) /\ pf_proto p = Tcp /\
        l4_route routes (pf_host p) (pf_port p) (from_l4_proto (pf_proto p)) = Some r /\
        (leftover <> [] /\ net_leftover_written n = false \/
         b_max (s_budget s) < b_held (s_budget s) + COPY_BUFFER_BYTES)
  | Some StUnknown => False
  end.

(** What a running flow holds, and that its end gives all of it back. *)
Record flow_holds (f : Flow) (s s' : Server) : Prop := {
  holds_lease : one_more (f_lease f) (Routes.counts (s_pools s)) (Routes.counts (s_pools s'));
  holds_slot : fl_current (s_flows s') = fl_current (s_flows s) + 1 /\
               fl_current (s_flows s') <= fl_max (s_flows s');
  holds_bytes : b_held (s_budget s') = b_held (s_budget s) + zsum (f_reserved f) /\
                b_held (s_budget s') <= b_max (s_budget s');
  holds_reserved : f_reserved f = match f_proto f with
                                  | Tcp => [COPY_BUF_SIZE; COPY_BUF_SIZE]
                                  | Udp => [UDP_FLOW_BUFFER_BYTES]
                                  end;
  holds_until_end : held (flow_ends f s') = held s;
  holds_per_direction i f1 s1 :
    f_proto f = Tcp -> (i < 2)%nat -> direction_ends i f s' = (f1, s1) ->
    b_held (s_budget s1) = b_held (s_budget s) + COPY_BUF_SIZE /\ held (flow_ends f1 s1) = held s;
}.

Lemma open_flow_cases routes t now preface leftover route s pools' flows' :
  server_ok routes s ->
  one_more (l_lease route) (Routes.counts (s_pools s)) (Routes.counts pools') ->
  flow_try_acquire (s_flows s) = Some flows' ->
  match open_flow n t now preface leftover route
          {| s_pools := pools'; s_flows := flows'; s_budget := s_budget s |} with
  | (s', NotOpened status logged ok) =>
      held s' = held s /\ logged = Some 502 /\ ok = false /\
      (forall st, status = Some st -> st = StBackendFailed \/
         st = StOk /\ pf_proto preface = Tcp /\
         (leftover <> [] /\ net_leftover_written n = false \/
          b_max (s_budget s) < b_held (s_budget s) + COPY_BUFFER_BYTES))
  | (s', Running f) =>
      f_proto f = pf_proto preface /\ f_leftover f = leftover /\ f_lease f = l_lease route /\
      flow_holds f s s'
  end.
Proof.
  intros Hok Hm Hf. pose proof (give_back_held routes s pools' flows' _ Hok Hm Hf) as Hgb.
  pose proof Hok as [_ Hfl Hfm Hb Hbm].
  pose proof (flow_drop_acquired _ _ Hfl Hfm Hf) as (_ & Hc & Hcm & Hmx).
  unfold open_flow. destruct (pf_proto preface); cbn [s_budget s_pools s_flows].
  - pose proof (open_tcp_cases now (t_connect t) (s_budget s) (l_backend route) leftover Hb Hbm) as Hu.
    destruct (open_tcp n now _ (s_budget s) (l_backend route) leftover) as [b' [[addr [r1 r2]]|status]].
    + destruct Hu as (-> & -> & Hbx & Hbh & Hle). cbn. split_and!; [done..|].
      set (b1 := {| b_held := b_held (s_budget s) + COPY_BUF_SIZE; b_max := b_max (s_budget s) |}).
      assert (0 <= COPY_BUF_SIZE) as Hcb by done. unfold COPY_BUFFER_BYTES in *.
      assert (reservation_drop COPY_BUF_SIZE b' = b1) as Hd1 by (apply reservation_drop_held; cbn; lia).
      assert (reservation_drop COPY_BUF_SIZE b1 = s_budget s) as Hd2 by (apply reservation_drop_held; cbn; lia).
      split; cbn [f_lease f_proto f_reserved s_pools s_flows s_budget]; [done|lia|split; [cbn; lia|done]|done| |].
      * unfold flow_ends. cbn [f_reserved f_lease s_pools s_flows s_budget foldr]. by rewrite Hd1, Hd2.
      * intros i f1 s1 _ Hi. unfold direction_ends. cbn [f_reserved s_budget]. destruct i as [|[|]]; [| |lia]; cbn [lookup list_lookup]; intros [= <- <-];
          unfold flow_ends; cbn [s_budget s_pools s_flows f_reserved f_lease delete list_delete foldr]; rewrite Hd1, Hd2; done.
    + destruct Hu as (-> & Hst). cbn. split_and!; [done..|]. intros st Hs. destruct (Hst st Hs) as [?|[??]]; auto.
  - pose proof (open_udp_cases (s_budget s) (l_backend route) Hb Hbm) as Hu.
    destruct (open_udp n (s_budget s) (l_backend route)) as [b' [[addr r]|status]].
    + destruct Hu as (-> & Hbh & Hle & Hd). cbn. split_and!; [done..|].
      split; cbn [f_lease f_proto f_reserved s_pools s_flows s_budget]; [done|lia|split; [cbn; lia|done]|done| |done].
      unfold flow_ends. cbn [f_reserved f_lease s_pools s_flows s_budget foldr]. by rewrite Hd.
    + destruct Hu as (-> & _ & Hst). cbn. split_and!; [done..|]. intros st Hs. left. by apply Hst.
Qed.

(** What an opening may come to. *)
Definition opening_ok (routes : list Route) (acl : option ClientAcl) (initial : bytes)
    (evs : list ReadEvent) (s : Server) (outcome : option (Server * Opening)) : Prop :=
  match outcome with
  | None => False
  | Some (s', NotOpened status _ _) =>
      held s' = held s /\ refusal_reason routes acl initial evs s status
  | Some (s', Running f) =>
      exists p leftover rest r,
        read_preface initial evs = Ok (p, leftover, rest) /\
        (forall a, acl = Some a -> allows_target a (pf_host p) (pf_port p) = true) /\
        l4_route routes (pf_host p) (pf_port p) (from_l4_proto (pf_proto p)) = Some r /\
        lease_pool (f_lease f) = r_pool r /\ is_Some (leased_url (s_pools s) (f_lease f)) /\
        f_proto f = pf_proto p /\ f_leftover f = leftover /\ flow_holds f s s'
  end.

(** C2: a tunnel stream is admitted for a reason and accounted for.  The opening
    never panics.  The flow runs only when the preface was read whole, the
    client's ACL allows its host and port, and the best route of the protocol
    leads to the leased backend; it then holds exactly one request of that
    backend, one slot of the connection's limiter, and the bytes of its buffers, two
    copy buffers for TCP and a datagram flow's buffers for UDP, within their ceilings;
    a direction of a TCP flow that ends first gives its own buffer back, and the end
    of the flow gives back all that is left.  When the stream is refused, at whatever
    step, nothing is held any more, and the status on the wire is the reason: "no
    route" for a target the ACL or the table does not have, "too many flows" only at
    the ceiling, "backend failed" only when there was a route, and "ok" only for a TCP
    stream whose backend answered and did not take the bytes that came with the
    preface, or whose copy buffers do not fit the budget. *)
Theorem l4_stream_accounted t routes acl initial evs now rand s :
  server_ok routes s ->
  opening_ok routes acl initial evs s (serve_stream n t routes acl initial evs now rand s).
Proof.
  intros Hok. unfold serve_stream, opening_ok, refusal_reason, write_status.
  destruct (read_preface initial evs) as [[[p leftover] rest]|[e| |]] eqn:Er; [|by destruct (net_status_written n); eauto..].
  destruct (match acl with Some acl => negb (allows_target acl (pf_host p) (pf_port p))
            | None => false end) eqn:Ea.
  { split; [done|]. destruct acl as [a|]; [|done]. apply negb_true_iff in Ea.
    destruct (net_status_written n); eauto 10. }
  assert (forall a, acl = Some a -> allows_target a (pf_host p) (pf_port p) = true) as Hacl.
  { intros a ->. by apply negb_false_iff in Ea. }
  pose proof (l4_lookup_cases routes (s_pools s) (pf_host p) (pf_port p)
    (from_l4_proto (pf_proto p)) now rand (ok_pools _ _ Hok)) as Hl.
  destruct (get_l4_backend _ _ _ _ _ _ _) as [[pools' [| |route]]|]; [| | |done].
  - destruct Hl as [-> Hnone]. split; [by destruct s|]. destruct (net_status_written n); eauto 10.
  - destruct Hl as (-> & r & q & Hr & _). split; [by destruct s|].
    destruct (net_status_written n); eauto 10.
  - destruct Hl as (Hm & Hu & r & Hr & Hpool).
    destruct (flow_try_acquire (s_flows s)) as [flows'|] eqn:Ef.
    + pose proof (open_flow_cases routes t now p leftover route s pools' flows' Hok Hm Ef) as Ho.
      destruct (open_flow _ _ _ _ _ _ _) as [s' [status logged ok|f]].
      * destruct Ho as (Hh & _ & _ & Hst). split; [done|].
        destruct status as [st|]; [|done]. destruct (Hst st eq_refl) as [->|(-> & Hp & Hwhy)]; eauto 12.
      * destruct Ho as (Hp & Hlo & Hle & Hh). exists p, leftover, rest, r. rewrite Hle, Hu.
        split_and!; eauto.
    + destruct Hok as [[_ Hu'] Hfl _ _ _]. split.
      * unfold held. cbn. by erewrite drop_lease_counts by done.
      * unfold flow_try_acquire in Ef. destruct (_ <=? _) eqn:E; [|done]. bools.
        destruct (net_status_written n); [lia|done].
Qed.
End Accounts.

(** A network on which everything works, and a server with one route. *)
Definition sample_network : Network := {|
  net_url_parse := fun _ => Err [];
  net_resolve_uncached := fun _ => Some [];
  net_resolve_to := fun host port => Some (1, Ok [{| sa_is_ipv4 := true; sa_ip := host; sa_port := port |}]);
  net_dial := fun _ => Some (1, DialOk);
  net_udp_bind := fun _ => true;
  net_udp_connect := fun _ => true;
  net_status_written := true;
  net_leftover_written := true |}.
Definition db_route : Route := {|
  r_host_pattern := lit "db.iroh.iakl.top"; r_path_pattern := lit "/"; r_path_is_prefix := true;
  r_modes := [ModeTcp]; r_pool := 0; r_backend_protocol := Http1; r_path_rewrite := None;
  r_l4 := l4_default |}.
Definition db_pool : BackendPool := {|
  backends := [sample_entry (lit "10.0.0.1:5432") true]; strategy := LeastConn; round_robin_index := 0 |}.
Definition sample_server : Server := {|
  s_pools := {[ 0%nat := db_pool ]}; s_flows := flow_limiter_new DEFAULT_MAX_FLOWS_PER_CONNECTION;
  s_budget := budget_new DEFAULT_MAX_BODY_BYTES_GLOBAL |}.
Definition sample_timeouts : FlowTimeouts :=
  {| t_connect := 10000000000; t_l4_flow := 3600; t_l4_idle := 60 |}.

(** The flow does run. *)
Example sample_stream_runs :
  exists s f, serve_stream sample_network sample_timeouts [db_route] None
    ([5; 1; 1; 16] ++ lit "DB.Iroh.Iakl.Top" ++ [21; 56; 7]) [] 0 0 sample_server = Some (s, Running f) /\
    f_leftover f = [7] /\ sa_ip (f_peer f) = lit "10.0.0.1" /\ sa_port (f_peer f) = 5432.
Proof. eexists _, _. split; [vm_compute; reflexivity|]. split_and!; reflexivity. Qed.

(** A copy whose buffers do not fit is refused after the client was told "ok" and the
    backend was sent the bytes that came with the preface. *)
Theorem refused_after_ok :
  let tight := {| s_pools := s_pools sample_server; s_flows := s_flows sample_server; s_budget := budget_new 20000 |} in
  exists s, serve_stream sample_network sample_timeouts [db_route] None
    ([5; 1; 1; 16] ++ lit "DB.Iroh.Iakl.Top" ++ [21; 56; 7]) [] 0 0 tight = Some (s, NotOpened (Some StOk) (Some 502) false) /\
    held s = held tight.
Proof. eexists _. split; vm_compute; reflexivity. Qed.

Lemma l4_stream_accounted_witness :
  opening_ok sample_network [db_route] None ([5; 1; 1; 16] ++ lit "DB.Iroh.Iakl.Top" ++ [21; 56; 7]) [] sample_server
    (serve_stream sample_network sample_timeouts [db_route] None
       ([5; 1; 1; 16] ++ lit "DB.Iroh.Iakl.Top" ++ [21; 56; 7]) [] 0 0 sample_server).
Proof.
  apply l4_stream_accounted. split.
  - split.
    + intros r ->%list_elem_of_singleton. exists db_pool. reflexivity.
    + intros k p e Hk He. cbn [s_pools sample_server] in Hk. apply lookup_singleton_Some in Hk as [<- <-].
      apply elem_of_cons in He as [->|He]; [split; [discriminate|reflexivity]|by apply elem_of_nil in He].
  - split; discriminate.
  - split; [discriminate|reflexivity].
  - split; discriminate.
  - reflexivity.
Defined.
