(* ===== verification/Sniff.v ===== *)
(** * What the first bytes of a flow say (nexapipe/src/l4/sniff.rs)

    The sniffer sees the bytes of both directions of a tunnelled flow as they pass and
    keeps the head of each until it can say what it is: a TLS handshake and the name it
    asks for, a request line, a status line, or something it does not read.  The reader
    that shows it the bytes hands them on unchanged.

    The atomic flag of a side is set with the verdict under its lock, so it says no
    more than the verdict does and is left out. *)

From S2P Require Import Prelude RustStd Slices Tls.

Definition MAX_SNIFF : Z := 16384.
Definition LF : Z := 10.
Definition CR : Z := 13.
Definition SPACE : Z := 32.

Inductive Side := Client | Backend.

Inductive ClientVerdict :=
| CvUndecided
| CvTls (sni : option bytes)
| CvHttp (method target version : bytes)
| CvOther.

Inductive BackendVerdict := BvUndecided | BvStatus (code : Z) | BvOther.

Record Scan := { sc_from : nat; sc_examined : nat }.
Definition scan_new : Scan := {| sc_from := 0; sc_examined := 0 |}.

Record Sniff (V : Type) := { sn_bytes : bytes; sn_verdict : V; sn_scan : Scan }.
Arguments sn_bytes {V}. Arguments sn_verdict {V}. Arguments sn_scan {V}.

Record FlowSniffer := { fs_client : Sniff ClientVerdict; fs_backend : Sniff BackendVerdict }.

Definition sniffer_new : FlowSniffer :=
  {| fs_client := {| sn_bytes := []; sn_verdict := CvUndecided; sn_scan := scan_new |};
     fs_backend := {| sn_bytes := []; sn_verdict := BvUndecided; sn_scan := scan_new |} |}.

(** ** Reading a head *)

Definition append_bounded (buffer chunk : bytes) : bytes :=
  let room := saturating_sub MAX_SNIFF (len buffer) in
  if room =? 0 then buffer else buffer ++ take (Z.to_nat (Z.min (len chunk) room)) chunk.

Definition record_end (bs : bytes) : option Z :=
  match bs with
  | _ :: _ :: _ :: hi :: lo :: _ => Some (5 + from_be_bytes [hi; lo])
  | _ => None
  end.

(** The line without its ending, and where the next scan starts. *)
Definition first_line (bs : bytes) (scan : Scan) : option bytes * Scan :=
  let from := Nat.min (sc_from scan) (length bs) in
  match find_char LF (drop from bs) with
  | Some offset =>
      let end_ := (from + offset)%nat in
      let line := take end_ bs in
      (Some (if ends_with_char CR line then take (length line - 1) line else line),
       {| sc_from := S end_; sc_examined := sc_examined scan + (offset + 1) |})
  | None => (None, {| sc_from := length bs; sc_examined := sc_examined scan + (length bs - from) |})
  end.

Definition parse_request_line (line : bytes) : option (bytes * bytes * bytes) :=
  text ← from_utf8 line;
  match split_on SPACE text with
  | [method; target; version] => if starts_with (lit "HTTP/") version then Some (method, target, version) else None
  | _ => None
  end.

(** [splitn(3, ' ')]: the version, and the code up to the next space. *)
Definition parse_status_line (line : bytes) : option Z :=
  text ← from_utf8 line;
  match split_on SPACE text with
  | version :: rest =>
      if starts_with (lit "HTTP/") version then
        match rest with
        | code :: _ =>
            status ← parse_u16 code;
            if (100 <=? status) && (status <=? 599) then Some status else None
        | [] => None
        end
      else None
  | [] => None
  end.

Definition decide_client (bs : bytes) (scan : Scan) : ClientVerdict * Scan :=
  match bs with
  | [] => (CvUndecided, scan)
  | first :: _ =>
      if first =? TLS_HANDSHAKE then
        match record_end bs with
        | None => (CvUndecided, scan)
        | Some end_ =>
            if MAX_SNIFF <? end_ then (CvOther, scan)
            else if len bs <? end_ then (CvUndecided, scan)
            else (CvTls (extract_sni (take (Z.to_nat end_) bs)), scan)
        end
      else
        match first_line bs scan with
        | (None, scan) => (if MAX_SNIFF <=? len bs then CvOther else CvUndecided, scan)
        | (Some line, scan) =>
            (match parse_request_line line with
             | Some (method, target, version) => CvHttp method target version
             | None => CvOther
             end, scan)
        end
  end.

Definition decide_backend (bs : bytes) (scan : Scan) : BackendVerdict * Scan :=
  match first_line bs scan with
  | (None, scan) => (if MAX_SNIFF <=? len bs then BvOther else BvUndecided, scan)
  | (Some line, scan) => (match parse_status_line line with Some status => BvStatus status | None => BvOther end, scan)
  end.

(** ** Showing the sniffer bytes *)

Section Feed.
Context {V : Type}.
Variable undecided : V -> bool.
Variable decide : bytes -> Scan -> V * Scan.

(** [feed_client] and [feed_backend], which differ in what they decide. *)
Definition feed_side (chunk : bytes) (s : Sniff V) : Sniff V :=
  if negb (undecided (sn_verdict s)) then s
  else
    let buffered := append_bounded (sn_bytes s) chunk in
    let '(verdict, scan) := decide buffered (sn_scan s) in
    {| sn_bytes := if undecided verdict then buffered else []; sn_verdict := verdict; sn_scan := scan |}.
End Feed.

Definition client_undecided (v : ClientVerdict) : bool := match v with CvUndecided => true | _ => false end.
Definition backend_undecided (v : BackendVerdict) : bool := match v with BvUndecided => true | _ => false end.

Definition feed (side : Side) (chunk : bytes) (s : FlowSniffer) : FlowSniffer :=
  if bool_decide (chunk = []) then s
  else
    match side with
    | Client => {| fs_client := feed_side client_undecided decide_client chunk (fs_client s); fs_backend := fs_backend s |}
    | Backend => {| fs_client := fs_client s; fs_backend := feed_side backend_undecided decide_backend chunk (fs_backend s) |}
    end.

Inductive FlowDetail := FdTls (sni : option bytes) | FdHttp (method target version : bytes) (status : option Z).

Definition verdict (s : FlowSniffer) : option FlowDetail :=
  match sn_verdict (fs_client s) with
  | CvTls sni => Some (FdTls sni)
  | CvHttp method target version =>
      Some (FdHttp method target version (match sn_verdict (fs_backend s) with BvStatus code => Some code | _ => None end))
  | _ => None
  end.

(** [SniffReader::poll_read]: what was filled before, and what the inner reader left
    filled, when it was ready without an error. *)
Definition poll_read (side : Side) (before : nat) (filled : option bytes) (s : FlowSniffer) : option bytes * FlowSniffer :=
  (filled,
   match filled with
   | Some bs => if (before <? length bs)%nat then feed side (drop before bs) s else s
   | None => s
   end).

(** A flow: chunks of the two directions in the order they passed. *)
Definition observe (chunks : list (Side * bytes)) : FlowSniffer :=
  foldl (fun s sc => feed sc.1 sc.2 s) sniffer_new chunks.

Definition shown (side : Side) (chunks : list (Side * bytes)) : bytes :=
  concat (omap (fun sc : Side * bytes =>
    match side, sc.1 with Client, Client | Backend, Backend => Some sc.2 | _, _ => None end) chunks).

(** ** The scan *)

(** The bytes before the scan's mark hold no line, and each was looked at once. *)
Definition good (bs : bytes) (scan : Scan) : Prop :=
  sc_examined scan = sc_from scan /\ (sc_from scan <= length bs)%nat /\ LF ∉ take (sc_from scan) bs.

Lemma good_new bs : good bs scan_new.
Proof. split; [done|]. split; [cbn; lia|]. apply not_elem_of_nil. Qed.

Lemma good_app bs scan x : good bs scan -> good (bs ++ x) scan.
Proof.
  intros (H1 & H2 & H3). split; [done|]. rewrite length_app. split; [lia|]. by rewrite take_app_le by done.
Qed.

(** The line found does not depend on where the scan had got to. *)
Lemma first_line_good bs scan :
  good bs scan ->
  (exists line r, bs = line ++ LF :: r /\ LF ∉ line /\
     (first_line bs scan).1 = Some (if ends_with_char CR line then take (length line - 1) line else line) /\
     (sc_examined (first_line bs scan).2 <= length bs)%nat) \/
  (LF ∉ bs /\ (first_line bs scan).1 = None /\ good bs (first_line bs scan).2).
Proof.
  intros (H1 & H2 & H3). unfold first_line. rewrite Nat.min_l by done. set (n := sc_from scan) in *.
  destruct (find_char LF (drop n bs)) as [offset|] eqn:E; cbn.
  - left. apply find_char_Some in E as (h & r & Ed & <- & Hh). exists (take n bs ++ h), r.
    assert (bs = (take n bs ++ h) ++ LF :: r) as Eb by (rewrite <- app_assoc, <- Ed; by rewrite take_drop).
    assert (length (take n bs ++ h) = (n + length h)%nat) as El by (rewrite length_app, length_take; lia).
    split; [done|]. split; [rewrite elem_of_app; tauto|].
    assert (take (n + length h) bs = take n bs ++ h) as -> by (rewrite Eb at 1; rewrite <- El; apply take_app_len).
    split; [done|]. rewrite H1. apply (f_equal length) in Ed. rewrite length_drop, length_app in Ed. cbn in Ed. lia.
  - right. apply find_char_none in E. assert (LF ∉ bs) as Hn.
    { rewrite <- (take_drop n bs), elem_of_app. tauto. }
    split; [done|]. split; [done|]. split; [cbn; lia|]. split; [cbn; lia|]. cbn. by rewrite firstn_all.
Qed.

Lemma first_line_app bs x line r :
  bs = line ++ LF :: r -> LF ∉ line -> (first_line (bs ++ x) scan_new).1 = (first_line bs scan_new).1.
Proof.
  intros -> Hn. rewrite <- app_assoc. unfold first_line. cbn [sc_from scan_new Nat.min]. cbn [app].
  rewrite !drop_0, !find_char_app by done. cbn [Nat.add]. by rewrite !take_app_len.
Qed.

(** ** What a side decides *)

(** The properties of the two readers that the feeding relies on. *)
Class Reads {V} (undecided : V -> bool) (decide : bytes -> Scan -> V * Scan) : Prop := {
  reads_good bs scan : good bs scan ->
    (decide bs scan).1 = (decide bs scan_new).1 /\
    (undecided (decide bs scan).1 = true -> good bs (decide bs scan).2) /\
    (sc_examined (decide bs scan).2 <= length bs)%nat;
  reads_stable bs x : len (bs ++ x) <= MAX_SNIFF -> undecided (decide bs scan_new).1 = false ->
    (decide (bs ++ x) scan_new).1 = (decide bs scan_new).1;
  reads_nothing : undecided (decide [] scan_new).1 = true;
}.

(** A reader that goes by the first line. *)
Definition by_line {V} (read : bytes -> V) (other undecided : V) (bs : bytes) (scan : Scan) : V * Scan :=
  match first_line bs scan with
  | (None, scan) => (if MAX_SNIFF <=? len bs then other else undecided, scan)
  | (Some line, scan) => (read line, scan)
  end.

Lemma by_line_reads {V} (undecided : V -> bool) (read : bytes -> V) (other und : V) :
  (forall line, undecided (read line) = false) -> undecided other = false -> undecided und = true ->
  Reads undecided (by_line read other und).
Proof.
  intros Hr Ho Hd. split; [| |done].
  - intros bs scan Hg. unfold by_line.
    destruct (first_line_good bs scan Hg) as [(line & r & E & Hn & Hl & Hx)|(Hn & Hl & Hg')],
      (first_line_good bs scan_new (good_new bs)) as [(line' & r' & E' & Hn' & Hl' & _)|(Hn' & Hl' & _)].
    + destruct (first_line bs scan) as [o sc], (first_line bs scan_new) as [o' sc']. cbn in *. subst o o'.
      assert (line = line') as <-.
      { pose proof (split_once_app LF line r Hn) as S1. pose proof (split_once_app LF line' r' Hn') as S2.
        rewrite <- E in S1. rewrite <- E' in S2. congruence. }
      cbn. split; [done|]. split; [|done]. by rewrite Hr.
    + destruct Hn'. rewrite E. set_solver.
    + destruct Hn. rewrite E'. set_solver.
    + destruct (first_line bs scan) as [o sc], (first_line bs scan_new) as [o' sc']. cbn in *. subst o o'. split; [done|].
      split; [done|]. destruct Hg' as (Hx & ? & _). cbn. lia.
  - intros bs x Hm Hu. unfold by_line in *.
    destruct (first_line_good bs scan_new (good_new bs)) as [(line & r & E & Hn & Hl & _)|(Hn & Hl & _)].
    + pose proof (first_line_app bs x line r E Hn) as Ha.
      destruct (first_line bs scan_new) as [o sc], (first_line (bs ++ x) scan_new) as [o' sc']. cbn in *. subst o'. by destruct o.
    + destruct (MAX_SNIFF <=? len bs) eqn:El; [|destruct (first_line bs scan_new) as [o sc]; cbn in Hl; subst o; cbn in Hu; rewrite ?El in Hu; congruence].
      apply Z.leb_le in El. rewrite len_app in Hm.
      assert (x = []) as -> by (destruct x; [done|rewrite len_cons in Hm; pose proof (len_nonneg x); lia]).
      rewrite app_nil_r. by rewrite (proj2 (Z.leb_le _ _) El).
Qed.

#[export] Instance backend_reads : Reads backend_undecided decide_backend.
Proof. apply (by_line_reads _ (fun line => match parse_status_line line with Some status => BvStatus status | None => BvOther end)); [|done..]. intros line. by case_match. Qed.

(** A handshake is read when its record is there, whatever comes after it. *)
Definition by_record (bs : bytes) (scan : Scan) : ClientVerdict * Scan :=
  match record_end bs with
  | None => (CvUndecided, scan)
  | Some end_ =>
      if MAX_SNIFF <? end_ then (CvOther, scan)
      else if len bs <? end_ then (CvUndecided, scan)
      else (CvTls (extract_sni (take (Z.to_nat end_) bs)), scan)
  end.

Lemma record_end_app bs x end_ : record_end bs = Some end_ -> record_end (bs ++ x) = Some end_.
Proof. by destruct bs as [|? [|? [|? [|? [|? bs]]]]]. Qed.

Lemma by_record_stable bs x :
  client_undecided (by_record bs scan_new).1 = false -> (by_record (bs ++ x) scan_new).1 = (by_record bs scan_new).1.
Proof.
  unfold by_record. destruct (record_end bs) as [end_|] eqn:E; [|done]. rewrite (record_end_app _ x _ E).
  destruct (MAX_SNIFF <? end_); [done|]. destruct (len bs <? end_) eqn:El; [done|]. intros _. apply Z.ltb_ge in El.
  rewrite (proj2 (Z.ltb_ge _ _)) by (rewrite len_app; pose proof (len_nonneg x); lia). cbn.
  by rewrite take_app_le by (unfold len in El; lia).
Qed.

Definition read_request (line : bytes) : ClientVerdict :=
  match parse_request_line line with Some (method, target, version) => CvHttp method target version | None => CvOther end.

Lemma decide_client_cons b bs scan :
  decide_client (b :: bs) scan =
  if b =? TLS_HANDSHAKE then by_record (b :: bs) scan else by_line read_request CvOther CvUndecided (b :: bs) scan.
Proof. done. Qed.

#[export] Instance client_reads : Reads client_undecided decide_client.
Proof.
  assert (Reads client_undecided (by_line read_request CvOther CvUndecided)) as HL.
  { apply by_line_reads; [|done..]. intros line. unfold read_request. by repeat case_match. }
  split; [| |done].
  - intros [|b bs] scan Hg; [split; [done|]; split; [done|]; destruct Hg as (Hx & ? & _); cbn in *; lia|].
    rewrite !decide_client_cons. destruct (b =? TLS_HANDSHAKE); [|by apply reads_good].
    assert ((by_record (b :: bs) scan).2 = scan /\ (by_record (b :: bs) scan).1 = (by_record (b :: bs) scan_new).1) as [-> ->]
      by (unfold by_record; by repeat case_match).
    split; [done|]. split; [done|]. destruct Hg as (Hx & ? & _). cbn in *. lia.
  - intros [|b bs] x Hm Hu; [done|]. cbn [app] in *. rewrite !decide_client_cons in *.
    destruct (b =? TLS_HANDSHAKE); [by apply (by_record_stable (b :: bs))|]. by apply (reads_stable (b :: bs)).
Qed.

(** ** Chunks make no difference *)

Section Tracks.
Context {V : Type} (undecided : V -> bool) (decide : bytes -> Scan -> V * Scan) {HR : Reads undecided decide}.

Definition head (all : bytes) : bytes := take (Z.to_nat MAX_SNIFF) all.

(** A side that has been shown [all]. *)
Definition tracks (all : bytes) (s : Sniff V) : Prop :=
  sn_verdict s = (decide (head all) scan_new).1 /\ (sc_examined (sn_scan s) <= length (head all))%nat /\
  if undecided (sn_verdict s) then sn_bytes s = head all /\ good (head all) (sn_scan s) else sn_bytes s = [].

Lemma len_head all : len (head all) <= MAX_SNIFF.
Proof. unfold len, head. rewrite length_take. unfold MAX_SNIFF. lia. Qed.

Lemma head_app all c : append_bounded (head all) c = head (all ++ c) /\ exists x, head (all ++ c) = head all ++ x.
Proof.
  assert (head (all ++ c) = head all ++ take (Z.to_nat MAX_SNIFF - length all) c) as E by (unfold head; by rewrite take_app).
  split; [|eauto]. rewrite E. unfold append_bounded. pose proof (len_head all) as Hl. unfold saturating_sub.
  assert (len (head all) = Z.min MAX_SNIFF (len all)) as El by (unfold len, head; rewrite length_take; unfold MAX_SNIFF; lia).
  rewrite El. unfold len in *. destruct (_ =? 0) eqn:Ez; bools.
  - replace (Z.to_nat MAX_SNIFF - length all)%nat with 0%nat by (unfold MAX_SNIFF in *; lia). by rewrite app_nil_r.
  - f_equal. destruct (Nat.le_gt_cases (length c) (Z.to_nat MAX_SNIFF - length all)%nat).
    + rewrite !take_ge; [done|lia|]. unfold MAX_SNIFF in *; lia.
    + f_equal. unfold MAX_SNIFF in *; lia.
Qed.

Lemma tracks_feed all c s : tracks all s -> tracks (all ++ c) (feed_side undecided decide c s).
Proof.
  intros (Hv & Hx & Hu). destruct (head_app all c) as [Ha [x Ex]]. unfold feed_side. rewrite Hv in *.
  destruct (undecided (decide (head all) scan_new).1) eqn:Eu; cbn [negb].
  - destruct Hu as [Hb Hg]. rewrite Hb, Ha.
    assert (good (head (all ++ c)) (sn_scan s)) as Hg' by (rewrite Ex; by apply good_app).
    destruct (reads_good _ _ Hg') as (E1 & E2 & E3). destruct (decide (head (all ++ c)) (sn_scan s)) as [v sc]. cbn in *.
    subst v. split; [done|]. split; [done|]. cbn. destruct (undecided (decide (head (all ++ c)) scan_new).1) eqn:Eu'; [|done]. auto.
  - assert ((decide (head (all ++ c)) scan_new).1 = (decide (head all) scan_new).1) as E.
    { rewrite Ex. apply reads_stable; [|done]. rewrite <- Ex. apply len_head. }
    split; [by rewrite Hv, E|]. split; [rewrite Ex, length_app; lia|]. rewrite Hv, Eu. done.
Qed.

Lemma tracks_new v : (decide [] scan_new).1 = v -> tracks [] {| sn_bytes := []; sn_verdict := v; sn_scan := scan_new |}.
Proof.
  intros <-. split; [done|]. split; [cbn; lia|]. cbn [sn_verdict]. pose proof (reads_nothing (Reads := HR)) as Hn. 
  change (head []) with (@nil Z). rewrite Hn. split; [done|]. apply good_new.
Qed.
End Tracks.

Lemma shown_app side chunks sc : shown side (chunks ++ [sc]) =
  shown side chunks ++ match side, sc.1 with Client, Client | Backend, Backend => sc.2 | _, _ => [] end.
Proof.
  unfold shown. rewrite omap_app, concat_app. f_equal. destruct sc as [[] c], side; cbn; by rewrite ?app_nil_r.
Qed.

Lemma observe_tracks chunks :
  tracks client_undecided decide_client (shown Client chunks) (fs_client (observe chunks)) /\
  tracks backend_undecided decide_backend (shown Backend chunks) (fs_backend (observe chunks)).
Proof.
  unfold observe. induction chunks as [|[side c] chunks [IC IB]] using rev_ind.
  { split; [by apply (tracks_new client_undecided decide_client CvUndecided)|by apply (tracks_new backend_undecided decide_backend BvUndecided)]. }
  rewrite !shown_app, foldl_app. cbn [foldl fst snd]. unfold feed. case_bool_decide as Hc.
  - subst c. destruct side; by rewrite !app_nil_r.
  - destruct side; cbn [fs_client fs_backend]; rewrite app_nil_r; (split; [|]); try done; by apply tracks_feed; [apply _|].
Qed.

(** What the heads of a flow say. *)
Definition detail_of (client backend : bytes) : option FlowDetail :=
  match (decide_client (head client) scan_new).1 with
  | CvTls sni => Some (FdTls sni)
  | CvHttp method target version =>
      Some (FdHttp method target version (match (decide_backend (head backend) scan_new).1 with BvStatus code => Some code | _ => None end))
  | _ => None
  end.

(** C38: What the sniffer says of a flow, and what it has decided of each direction,
    depends on the bytes of the two directions and not on the chunks they came in or on how
    these interleaved.  Of a direction it has not decided on it holds the first
    [MAX_SNIFF] bytes, and of one it has decided on, as whatever, nothing.  The search for
    the end of the first line looks at no byte twice, however the bytes dribble in, and at
    none behind the first [MAX_SNIFF]. *)
Theorem sniffer_chunking (chunks : list (Side * bytes)) :
  let s := observe chunks in
  verdict s = detail_of (shown Client chunks) (shown Backend chunks) /\
  sn_verdict (fs_client s) = (decide_client (head (shown Client chunks)) scan_new).1 /\
  sn_verdict (fs_backend s) = (decide_backend (head (shown Backend chunks)) scan_new).1 /\
  sn_bytes (fs_client s) = (if client_undecided (sn_verdict (fs_client s)) then head (shown Client chunks) else []) /\
  sn_bytes (fs_backend s) = (if backend_undecided (sn_verdict (fs_backend s)) then head (shown Backend chunks) else []) /\
  Z.of_nat (sc_examined (sn_scan (fs_client s))) <= Z.min MAX_SNIFF (len (shown Client chunks)) /\
  Z.of_nat (sc_examined (sn_scan (fs_backend s))) <= Z.min MAX_SNIFF (len (shown Backend chunks)).
Proof.
  cbv zeta. destruct (observe_tracks chunks) as [(HC1 & HC2 & HC3) (HB1 & HB2 & HB3)]. set (s := observe chunks) in *.
  assert (forall all, Z.of_nat (length (head all)) = Z.min MAX_SNIFF (len all)) as Hl.
  { intros all. unfold head, len. rewrite length_take. unfold MAX_SNIFF. lia. }
  rewrite <- !Hl. split_and!; [unfold verdict, detail_of; by rewrite HC1, HB1|done|done| | |lia|lia].
  - destruct (client_undecided _); [by destruct HC3|done].
  - destruct (backend_undecided _); [by destruct HB3|done].
Qed.

Example sniff_exchange :
  verdict (observe [(Client, lit "GET /a"); (Backend, lit "HTTP/1.1 20"); (Client, lit " HTTP/1.1" ++ [CR; LF]); (Backend, lit "0 OK" ++ [CR; LF])]) =
  Some (FdHttp (lit "GET") (lit "/a") (lit "HTTP/1.1") (Some 200)).
Proof. vm_compute. reflexivity. Qed.
