(* ===== verification/VirtualBlock.v ===== *)
(** * The block of addresses the tunnel claims
    (nexapipe-client/src/virtual_block.rs).

    An [Ipv4Addr] is its 32 bits, an [Ipv6Addr] its 128; octets are most
    significant first.  The block is process-wide state behind a lock: here it
    is the value that is passed in.  The file shows that everything the client
    installs lies inside the one /24 (and the one /64) the host chose, with no
    two parts on top of each other, and that different IPv4 blocks never share
    an IPv6 one. *)

From S2P Require Import Prelude RustStd.

Definition octets4 (ip : Z) : bytes := to_be_bytes 4 ip.
Definition octets16 (ip : Z) : bytes := to_be_bytes 16 ip.

(** [Ipv4Addr::new]. *)
Definition ipv4_new (a b c d : Z) : Z := from_be_bytes [a; b; c; d].
Definition ipv6_new (segments : list Z) : Z :=
  from_be_bytes (concat (to_be_bytes 2 <$> segments)).

Definition TUN_BASE_CANDIDATES : list Z :=
  [ipv4_new 198 18 0 0; ipv4_new 198 19 0 0; ipv4_new 100 100 0 0;
   ipv4_new 172 26 0 0; ipv4_new 10 200 0 0; ipv4_new 10 0 0 0].

(** The value [CURRENT] holds after [set(base)]. *)
Definition block_set (base : Z) : Z := Z.land base 0xFFFFFF00.

Definition offset (base n : Z) : Z :=
  let octets := octets4 base in
  from_be_bytes (<[3%nat := wrapping 8 (octets !!! 3%nat + n)]> octets).

Definition interface_ip (current : Z) : Z := offset current 1.
Definition dns_ip (current : Z) : Z := offset current 2.
Definition legacy_proxy_ip (current : Z) : Z := offset current 3.
Definition pool_first (current : Z) : Z := offset current 16.
Definition pool_last (current : Z) : Z := offset current 254.

(** [u16::from_str_radix(s, 16)] on decimal digits. *)
Definition hex_of_digits (s : bytes) : Z := fold_left (fun acc c => acc * 16 + (c - 48)) s 0.
Definition decimal_digits_as_hex (value : Z) : Z := hex_of_digits (show_uint value).

Definition ipv6_block (current : Z) : Z :=
  let base := octets4 current in
  ipv6_new [0xfd00; decimal_digits_as_hex (base !!! 0%nat); decimal_digits_as_hex (base !!! 1%nat);
            decimal_digits_as_hex (base !!! 2%nat); 0; 0; 0; 0].

Definition with_octets (changes : list (nat * Z)) (ip : Z) : Z :=
  from_be_bytes (fold_left (fun o c => <[c.1 := c.2]> o) changes (octets16 ip)).

Definition ipv6_interface_ip (current : Z) : Z := with_octets [(15%nat, 0x01)] (ipv6_block current).
Definition ipv6_pool_first (current : Z) : Z := with_octets [(15%nat, 0x10)] (ipv6_block current).
Definition ipv6_pool_last (current : Z) : Z :=
  with_octets [(14%nat, 0xff); (15%nat, 0xfe)] (ipv6_block current).

(** ** Big-endian arithmetic *)

Lemma from_be_bytes_app a b : from_be_bytes (a ++ b) = from_be_bytes a * 256 ^ len b + from_be_bytes b.
Proof.
  unfold from_be_bytes, len. rewrite reverse_app. generalize (reverse a) as x.
  rewrite <- (length_reverse b). generalize (reverse b) as y. intros y x.
  induction y as [|c y IH]; cbn [app from_le_bytes length]; [lia|].
  rewrite IH, Nat2Z.inj_succ, Z.pow_succ_r by lia. lia.
Qed.

Lemma to_be_bytes_app n m z :
  to_be_bytes (m + n) z = to_be_bytes m (z / 256 ^ Z.of_nat n) ++ to_be_bytes n z.
Proof.
  unfold to_be_bytes. rewrite <- reverse_app. f_equal. rewrite Nat.add_comm. revert z.
  induction n as [|n IH]; intros z; cbn [Nat.add to_le_bytes app].
  - by rewrite Z.div_1_r.
  - rewrite IH. do 3 f_equal. rewrite Nat2Z.inj_succ, Z.pow_succ_r by lia.
    rewrite Z.div_div by (try apply Z.pow_pos_nonneg; lia). done.
Qed.

Lemma to_be_bytes_1 z : to_be_bytes 1 z = [z mod 256].
Proof. done. Qed.

(** The offset into a /24 is the sum, as long as it stays in the low byte. *)
Lemma offset_add current n :
  is_u32 current -> current mod 256 = 0 -> 0 <= n < 256 -> offset current n = current + n.
Proof.
  intros Hc Hm Hn. unfold offset, octets4. rewrite (to_be_bytes_app 1 3), to_be_bytes_1, Hm.
  rewrite lookup_total_app_r, length_to_be_bytes by (rewrite length_to_be_bytes; lia).
  rewrite insert_app_r_alt, length_to_be_bytes by (rewrite length_to_be_bytes; lia).
  cbn [Nat.sub insert list_insert lookup_total list_lookup_total].
  rewrite wrapping_small by (unfold is_uint; lia). rewrite from_be_bytes_app, from_to_be_bytes.
  - change (256 ^ Z.of_nat 1) with 256. unfold len. cbn [length]. change (256 ^ Z.of_nat 1) with 256.
    unfold from_be_bytes. cbn. pose proof (Z.div_mod current 256). lia.
  - unfold is_uint in *. change (256 ^ Z.of_nat 1) with 256.
    split; [apply Z.div_pos; lia|apply Z.div_lt_upper_bound; lia].
Qed.

Lemma with_low_octet ip x :
  is_uint 128 ip -> ip mod 65536 = 0 -> with_octets [(15%nat, x)] ip = ip + x.
Proof.
  intros Hi Hm. unfold with_octets, octets16. cbn [fold_left fst snd].
  rewrite (to_be_bytes_app 1 15), to_be_bytes_1.
  assert (ip mod 256 = 0) as -> by (apply Z.mod_divide in Hm as [k ->]; [|lia];
    replace (k * 65536) with ((k * 256) * 256) by lia; apply Z.mod_mul; lia).
  rewrite insert_app_r_alt, length_to_be_bytes by (rewrite length_to_be_bytes; lia).
  cbn [Nat.sub insert list_insert]. rewrite from_be_bytes_app, from_to_be_bytes.
  - unfold len. cbn [length]. change (256 ^ Z.of_nat 1) with 256. unfold from_be_bytes. cbn.
    assert (ip mod 256 = 0) by (apply Z.mod_divide in Hm as [k ->]; [|lia];
      replace (k * 65536) with ((k * 256) * 256) by lia; apply Z.mod_mul; lia).
    pose proof (Z.div_mod ip 256). lia.
  - unfold is_uint in *. change (256 ^ Z.of_nat 1) with 256.
    split; [apply Z.div_pos; lia|apply Z.div_lt_upper_bound; lia].
Qed.

Lemma with_low_octets ip x y :
  is_uint 128 ip -> ip mod 65536 = 0 -> with_octets [(14%nat, x); (15%nat, y)] ip = ip + x * 256 + y.
Proof.
  intros Hi Hm. unfold with_octets, octets16. cbn [fold_left fst snd].
  rewrite (to_be_bytes_app 2 14).
  rewrite (insert_app_r_alt _ _ 14), length_to_be_bytes by (rewrite length_to_be_bytes; lia).
  rewrite insert_app_r_alt, length_to_be_bytes by (rewrite length_to_be_bytes; lia).
  assert (length (to_be_bytes 2 ip) = 2%nat) as Hl by apply length_to_be_bytes.
  destruct (to_be_bytes 2 ip) as [|p [|q [|]]]; try done. cbn [Nat.sub insert list_insert].
  rewrite from_be_bytes_app, from_to_be_bytes.
  - unfold len. cbn [length]. change (256 ^ Z.of_nat 2) with 65536. rewrite from_be_bytes_2.
    pose proof (Z.div_mod ip 65536). lia.
  - unfold is_uint in *. change (256 ^ Z.of_nat 2) with 65536.
    split; [apply Z.div_pos; lia|apply Z.div_lt_upper_bound; lia].
Qed.

(** ** The IPv6 half *)

Lemma hex_digits_table :
  NoDup (decimal_digits_as_hex <$> seqZ 0 256) /\
  Forall (fun v => 0 <= decimal_digits_as_hex v < 1024) (seqZ 0 256).
Proof. split; apply (bool_decide_unpack _); vm_compute; exact I. Qed.

Lemma decimal_digits_as_hex_range v : is_u8 v -> is_u16 (decimal_digits_as_hex v).
Proof.
  intros Hv. destruct hex_digits_table as [_ H]. rewrite Forall_forall in H.
  specialize (H v). rewrite elem_of_seqZ in H. unfold is_uint in *. lia.
Qed.

Lemma decimal_digits_as_hex_inj v w :
  is_u8 v -> is_u8 w -> decimal_digits_as_hex v = decimal_digits_as_hex w -> v = w.
Proof.
  intros Hv Hw E. destruct hex_digits_table as [H _]. unfold is_uint in *.
  assert (forall z, 0 <= z < 256 -> (decimal_digits_as_hex <$> seqZ 0 256) !! Z.to_nat z
            = Some (decimal_digits_as_hex z)) as Hl.
  { intros z Hz. rewrite list_lookup_fmap, lookup_seqZ_lt by lia.
    by replace (0 + Z.of_nat (Z.to_nat z)) with z by lia. }
  assert (Z.to_nat v = Z.to_nat w); [|lia].
  eapply NoDup_lookup; [exact H|apply Hl; lia|rewrite E; apply Hl; lia].
Qed.

Lemma from_be_bytes_inj s t :
  bytes_ok s -> bytes_ok t -> length s = length t -> from_be_bytes s = from_be_bytes t -> s = t.
Proof.
  intros Hs Ht Hl E. rewrite <- (to_from_be_bytes s Hs), <- (to_from_be_bytes t Ht). by rewrite E, Hl.
Qed.

(** An address of eight 16-bit groups is below 2^128, and is its first four
    groups times 2^64 when the others are zero. *)
Lemma ipv6_new_high a b c d :
  is_u16 a -> is_u16 b -> is_u16 c -> is_u16 d ->
  ipv6_new [a; b; c; d; 0; 0; 0; 0] = (((a * 2 ^ 16 + b) * 2 ^ 16 + c) * 2 ^ 16 + d) * 2 ^ 64.
Proof.
  intros Ha Hb Hc Hd. unfold ipv6_new.
  cbn [fmap list_fmap concat]. rewrite app_nil_r, !from_be_bytes_app.
  rewrite !from_to_be_bytes by done.
  unfold len. rewrite !length_app, !length_to_be_bytes. cbn [Nat.add].
  change (Z.of_nat 2) with 2. change (Z.of_nat 4) with 4. change (Z.of_nat 6) with 6.
  change (Z.of_nat 8) with 8. change (Z.of_nat 10) with 10. change (Z.of_nat 12) with 12.
  change (Z.of_nat 14) with 14. lia.
Qed.

(** The low byte of the block in use is clear. *)
Lemma block_set_spec base : is_u32 base -> block_set base = base - base mod 256.
Proof.
  intros Hb. unfold block_set.
  replace (base - base mod 256) with (Z.shiftl (Z.shiftr base 8) 8).
  2: { rewrite Z.shiftl_mul_pow2, Z.shiftr_div_pow2 by lia. change (2 ^ 8) with 256.
       pose proof (Z.div_mod base 256). lia. }
  change 0xFFFFFF00 with (Z.shiftl (Z.ones 24) 8).
  assert (Z.shiftr base 8 = Z.land (Z.shiftr base 8) (Z.ones 24)) as ->.
  { rewrite Z.land_ones by lia. symmetry. apply Z.mod_small.
    rewrite Z.shiftr_div_pow2 by lia. unfold is_uint in Hb.
    split; [apply Z.div_pos; lia|apply Z.div_lt_upper_bound; lia]. }
  apply Z.bits_inj'. intros n Hn. rewrite Z.land_spec, !Z.shiftl_spec by lia.
  destruct (decide (n < 8)) as [Hs|Hs].
  - rewrite (Z.testbit_neg_r _ (n - 8)) by lia. rewrite (Z.testbit_neg_r (Z.land _ _)) by lia.
    apply andb_false_r.
  - rewrite Z.land_spec, Z.shiftr_spec by lia. do 2 f_equal. lia.
Qed.

Lemma block_octets base :
  is_u32 base -> exists a b c, octets4 (block_set base) = [a; b; c; 0] /\ is_u8 a /\ is_u8 b /\ is_u8 c.
Proof.
  intros Hb. unfold octets4. rewrite (to_be_bytes_app 1 3), to_be_bytes_1.
  rewrite block_set_spec, Zminus_mod_idemp_r, Z.sub_diag by done.
  pose proof (to_be_bytes_ok 3 ((base - base mod 256) / 256 ^ Z.of_nat 1)) as Hok.
  pose proof (length_to_be_bytes 3 ((base - base mod 256) / 256 ^ Z.of_nat 1)) as Hl.
  destruct (to_be_bytes 3 _) as [|a [|b [|c [|]]]]; try done.
  exists a, b, c. apply Forall_cons in Hok as [? Hok]. apply Forall_cons in Hok as [? Hok].
  apply Forall_cons in Hok as [? _]. done.
Qed.

(** ** The layout *)

Record layout_v4 (c : Z) : Prop := {
  lay_interface : interface_ip c = c + 1;
  lay_dns : dns_ip c = c + 2;
  lay_proxy : legacy_proxy_ip c = c + 3;
  lay_first : pool_first c = c + 16;
  lay_last : pool_last c = c + 254;
}.

Record layout_v6 (c : Z) : Prop := {
  lay6_aligned : ipv6_block c mod 2 ^ 64 = 0;
  lay6_ula : ipv6_block c / 2 ^ 112 = 0xfd00;
  lay6_interface : ipv6_interface_ip c = ipv6_block c + 1;
  lay6_first : ipv6_pool_first c = ipv6_block c + 16;
  lay6_last : ipv6_pool_last c = ipv6_block c + 0xfffe;
}.

Lemma layout_v4_block base : is_u32 base -> layout_v4 (block_set base).
Proof.
  intros Hb. rewrite block_set_spec by done.
  assert (is_u32 (base - base mod 256)).
  { unfold is_uint in *. pose proof (Z.div_mod base 256). pose proof (Z.mod_pos_bound base 256). lia. }
  assert ((base - base mod 256) mod 256 = 0) by (rewrite Zminus_mod_idemp_r, Z.sub_diag; done).
  split; apply offset_add; (done || lia).
Qed.

Lemma layout_v6_block base : is_u32 base -> layout_v6 (block_set base).
Proof.
  intros Hb. destruct (block_octets base Hb) as (a & b & c & Ho & Ha & Hb' & Hc).
  pose proof (decimal_digits_as_hex_range a Ha) as Ra.
  pose proof (decimal_digits_as_hex_range b Hb') as Rb.
  pose proof (decimal_digits_as_hex_range c Hc) as Rc.
  assert (exists h, ipv6_block (block_set base) = (0xfd00 * 2 ^ 48 + h) * 2 ^ 64 /\ 0 <= h < 2 ^ 48)
    as (h & E & Hh).
  { unfold ipv6_block. rewrite Ho. cbn [lookup_total list_lookup_total].
    rewrite ipv6_new_high by (done || (unfold is_uint; lia)).
    exists ((decimal_digits_as_hex a * 2 ^ 16 + decimal_digits_as_hex b) * 2 ^ 16
            + decimal_digits_as_hex c).
    split; [lia|]. unfold is_uint in *. lia. }
  assert (is_uint 128 (ipv6_block (block_set base))) by (unfold is_uint; lia).
  assert (ipv6_block (block_set base) mod 65536 = 0).
  { rewrite E. replace ((0xfd00 * 2 ^ 48 + h) * 2 ^ 64) with ((0xfd00 * 2 ^ 48 + h) * 2 ^ 48 * 65536) by lia.
    apply Z.mod_mul. lia. }
  split.
  - rewrite E. apply Z.mod_mul. lia.
  - rewrite E. symmetry. apply Z.div_unique with (h * 2 ^ 64); lia.
  - by apply with_low_octet.
  - by apply with_low_octet.
  - unfold ipv6_pool_last. rewrite with_low_octets by done. lia.
Qed.

Lemma ipv6_block_inj base base' :
  is_u32 base -> is_u32 base' -> ipv6_block (block_set base) = ipv6_block (block_set base') ->
  block_set base = block_set base'.
Proof.
  intros Hb Hb' E. destruct (block_octets base Hb) as (a & b & c & Ho & Ha & Hbb & Hc).
  destruct (block_octets base' Hb') as (a' & b' & c' & Ho' & Ha' & Hbb' & Hc').
  assert (forall z, is_u32 z -> is_u32 (block_set z)) as Hr.
  { intros z Hz. rewrite block_set_spec by done. unfold is_uint in *.
    pose proof (Z.div_mod z 256). pose proof (Z.mod_pos_bound z 256). lia. }
  assert (octets4 (block_set base) = octets4 (block_set base')) as Eo.
  { rewrite Ho, Ho'. unfold ipv6_block in E. rewrite Ho, Ho' in E.
    cbn [lookup_total list_lookup_total] in E.
    rewrite !ipv6_new_high in E by (apply decimal_digits_as_hex_range || (unfold is_uint; lia); done).
    assert (decimal_digits_as_hex a = decimal_digits_as_hex a' /\
            decimal_digits_as_hex b = decimal_digits_as_hex b' /\
            decimal_digits_as_hex c = decimal_digits_as_hex c') as (? & ? & ?).
    { pose proof (decimal_digits_as_hex_range a Ha). pose proof (decimal_digits_as_hex_range b Hbb).
      pose proof (decimal_digits_as_hex_range c Hc). pose proof (decimal_digits_as_hex_range a' Ha').
      pose proof (decimal_digits_as_hex_range b' Hbb'). pose proof (decimal_digits_as_hex_range c' Hc').
      unfold is_uint in *. lia. }
    by rewrite (decimal_digits_as_hex_inj a a'), (decimal_digits_as_hex_inj b b'),
      (decimal_digits_as_hex_inj c c'). }
  unfold octets4 in Eo. apply (f_equal from_be_bytes) in Eo.
  rewrite !from_to_be_bytes in Eo by (by apply Hr). done.
Qed.

(** Whatever address the host names, the block in use is the /24 around it
    and everything the client installs is a fixed, distinct place inside it:
    the interface at 1, the resolver at 2, the legacy proxy at 3 and the pool
    from 16 to 254, so none of them is the network or the broadcast address.
    The IPv6 half is a /64 under fd00::/16 with the interface at 1 and the pool
    from 16 to 0xfffe, and two hosts' different /24s never share a /64. *)
Theorem block_layout base :
  is_u32 base ->
  block_set base = base - base mod 256 /\
  layout_v4 (block_set base) /\ layout_v6 (block_set base) /\
  (forall base', is_u32 base' ->
     ipv6_block (block_set base') = ipv6_block (block_set base) -> block_set base' = block_set base).
Proof.
  intros Hb. split_and!.
  - by apply block_set_spec.
  - by apply layout_v4_block.
  - by apply layout_v6_block.
  - intros base' Hb'. by apply ipv6_block_inj.
Qed.

