(* ===== verification/VirtualIp.v ===== *)
(** * Virtual addresses (nexapipe-client/src/virtual_ip.rs and domains.rs)

    The tunnel answers a DNS query for a proxied name with an address of its own
    block and reads the name back from the destination of the packets that
    arrive.  A [Pool] is one address family, with the two directions kept in two
    maps; an [IpMapping] is the two families behind one lock, which rebuilds the
    reverse direction when the previous holder panicked.  An [Instant] is a
    number of nanoseconds passed in, and the Unicode lower-casing of
    [str::to_lowercase] is a parameter.

    The pool is shown to implement a table of leases: a name keeps its address,
    a new name gets a free one, then one whose answer has expired, and only when
    every answer is still held one that is not. *)

From S2P Require Import Prelude RustStd Host VirtualBlock.

(** ** Data *)

Definition ADDRESS_TTL : Z := 60 * 10 ^ 9.
Definition VIRTUAL_IP_COUNT : Z := 239.

Record Address := {
  addr_domain : bytes;
  addr_used : Z;
  addr_expires_at : Z;
}.

Record Pool := {
  ip_to_domain : gmap Z Address;
  domain_to_ip : gmap bytes Z;
  pool_clock : Z;
  pool_next : Z;
  first_ip : Z;
  last_ip : Z;
}.

Definition pool_new (first last : Z) : Pool :=
  {| ip_to_domain := ∅; domain_to_ip := ∅; pool_clock := 0;
     pool_next := first; first_ip := first; last_ip := last |}.

Definition pool_len (p : Pool) : Z := saturating_sub (last_ip p) (first_ip p) + 1.
Definition pool_size (p : Pool) : Z := Z.of_nat (size (ip_to_domain p)).

Definition set_forward (m : gmap Z Address) (p : Pool) : Pool :=
  {| ip_to_domain := m; domain_to_ip := domain_to_ip p; pool_clock := pool_clock p;
     pool_next := pool_next p; first_ip := first_ip p; last_ip := last_ip p |}.
Definition set_reverse (m : gmap bytes Z) (p : Pool) : Pool :=
  {| ip_to_domain := ip_to_domain p; domain_to_ip := m; pool_clock := pool_clock p;
     pool_next := pool_next p; first_ip := first_ip p; last_ip := last_ip p |}.
Definition set_clock (c : Z) (p : Pool) : Pool :=
  {| ip_to_domain := ip_to_domain p; domain_to_ip := domain_to_ip p; pool_clock := c;
     pool_next := pool_next p; first_ip := first_ip p; last_ip := last_ip p |}.
Definition set_next (n : Z) (p : Pool) : Pool :=
  {| ip_to_domain := ip_to_domain p; domain_to_ip := domain_to_ip p; pool_clock := pool_clock p;
     pool_next := n; first_ip := first_ip p; last_ip := last_ip p |}.

Definition with_used (u : Z) (a : Address) : Address :=
  {| addr_domain := addr_domain a; addr_used := u; addr_expires_at := addr_expires_at a |}.
Definition with_expiry (e : Z) (a : Address) : Address :=
  {| addr_domain := addr_domain a; addr_used := addr_used a; addr_expires_at := e |}.

(** ** The operations of one pool *)

Definition pool_touch (ip : Z) (p : Pool) : Pool :=
  let p := set_clock (wrapping 64 (pool_clock p + 1)) p in
  set_forward (alter (with_used (pool_clock p)) ip (ip_to_domain p)) p.

Definition pool_answer (ip now : Z) (p : Pool) : Pool :=
  set_forward (alter (with_expiry (now + ADDRESS_TTL)) ip (ip_to_domain p)) p.

(** [(used, ip) < (used', ip')] on tuples. *)
Definition quieter (a b : Z * Z) : bool :=
  (a.1 <? b.1) || ((a.1 =? b.1) && (a.2 <? b.2)).
Definition keep_quietest (best : option (Z * Z)) (c : Z * Z) : option (Z * Z) :=
  match best with
  | None => Some c
  | Some held => if quieter c held then Some c else Some held
  end.

(** One turn of the scan, over the entries in the map's order. *)
Definition scan_entry (now : Z) (acc : option (Z * Z) * option (Z * Z)) (e : Z * Address)
  : option (Z * Z) * option (Z * Z) :=
  let '(quietest, free) := acc in
  let '(ip, a) := e in
  let quietest := keep_quietest quietest (addr_used a, ip) in
  if now <? addr_expires_at a then (quietest, free)
  else (quietest, keep_quietest free (addr_used a, ip)).

Definition recyclable_address_in (entries : list (Z * Address)) (first now : Z) : Z :=
  let '(quietest, free) := fold_left (scan_entry now) entries (None, None) in
  match free with
  | Some (_, ip) => ip
  | None => match quietest with Some (_, ip) => ip | None => first end
  end.

Definition recyclable_address (p : Pool) (now : Z) : Z :=
  recyclable_address_in (map_to_list (ip_to_domain p)) (first_ip p) now.

(** The address a name without one gets, and the cursor after it. *)
Definition pick_address (p : Pool) (now : Z) : Z * Pool :=
  if pool_size p <? pool_len p then
    let ip := pool_next p in
    (ip, set_next (if last_ip p <=? ip then first_ip p else ip + 1) p)
  else (recyclable_address p now, p).

Definition fresh_address (key : bytes) (now : Z) : Address :=
  {| addr_domain := key; addr_used := 0; addr_expires_at := now + ADDRESS_TTL |}.

(** The three updates that bind a name, each of which leaves a pool behind: the
    forward insert, the removal of the name it displaced, the reverse insert. *)
Definition bind_forward (key : bytes) (ip now : Z) (p : Pool) : option Address * Pool :=
  (ip_to_domain p !! ip, set_forward (<[ip := fresh_address key now]> (ip_to_domain p)) p).
Definition unbind_previous (previous : option Address) (p : Pool) : Pool :=
  match previous with
  | Some a => set_reverse (delete (addr_domain a) (domain_to_ip p)) p
  | None => p
  end.
Definition bind_reverse (key : bytes) (ip : Z) (p : Pool) : Pool :=
  set_reverse (<[key := ip]> (domain_to_ip p)) p.

Definition pool_lookup (ip : Z) (p : Pool) : option bytes * Pool :=
  match ip_to_domain p !! ip with
  | None => (None, p)
  | Some a =>
      let clock := wrapping 64 (pool_clock p + 1) in
      (Some (addr_domain a),
       set_forward (<[ip := with_used clock a]> (ip_to_domain p)) (set_clock clock p))
  end.

(** [collect] into a map: a later pair replaces an earlier one. *)
Definition rebuild_reverse (p : Pool) : Pool :=
  set_reverse (fold_left (fun m e => <[addr_domain e.2 := e.1]> m)
                 (map_to_list (ip_to_domain p)) ∅) p.

(** ** Domains *)

Definition should_proxy_domain (host : bytes) (proxy_domains : list bytes) : bool :=
  host_matches_any proxy_domains host.

Record DomainNotes := { unusable : list (bytes * PatternError); narrowed : list bytes }.

Definition note_pattern (notes : DomainNotes) (pattern : bytes) : DomainNotes :=
  match pattern_error pattern with
  | Some why => {| unusable := unusable notes ++ [(pattern, why)]; narrowed := narrowed notes |}
  | None =>
      if negb (starts_with_char STAR pattern)
      then {| unusable := unusable notes; narrowed := narrowed notes ++ [pattern] |}
      else notes
  end.
Definition domain_notes (patterns : list bytes) : DomainNotes :=
  fold_left note_pattern patterns {| unusable := []; narrowed := [] |}.

Section Names.
Context (to_lowercase : bytes -> bytes).

Definition fold_domain (domain : bytes) : bytes :=
  to_lowercase (trim_end_matches is_dot (trim domain)).

Definition pool_alloc (domain : bytes) (now : Z) (p : Pool) : Z * Pool :=
  let key := fold_domain domain in
  match domain_to_ip p !! key with
  | Some ip => (ip, pool_answer ip now (pool_touch ip p))
  | None =>
      let '(ip, p) := pick_address p now in
      let '(previous, p) := bind_forward key ip now p in
      let p := unbind_previous previous p in
      (ip, pool_touch ip (bind_reverse key ip p))
  end.

(** The pool a panic leaves behind, by how many of the updates of [alloc] for a
    new name were made. *)
Definition alloc_stage (n : nat) (domain : bytes) (now : Z) (p : Pool) : Pool :=
  let key := fold_domain domain in
  let '(ip, p1) := pick_address p now in
  let '(previous, p2) := bind_forward key ip now p1 in
  let p3 := unbind_previous previous p2 in
  let p4 := bind_reverse key ip p3 in
  nth n [p; p1; p2; p3; p4] (pool_touch ip p4).

(** ** Both families behind the lock *)

Record Inner := { v4 : Pool; v6 : option Pool }.
Record IpMapping := { mapping : Inner; poisoned : bool }.

Definition with_range (first last : Z) : IpMapping :=
  {| mapping := {| v4 := pool_new first last; v6 := None |}; poisoned := false |}.
Definition ipmapping_new (current : Z) : IpMapping :=
  with_range (pool_first current) (pool_last current).
Definition with_ipv6 (first last : Z) (m : IpMapping) : IpMapping :=
  {| mapping := {| v4 := v4 (mapping m); v6 := Some (pool_new first last) |};
     poisoned := poisoned m |}.

Definition locked (m : IpMapping) : Inner :=
  if poisoned m
  then {| v4 := rebuild_reverse (v4 (mapping m)); v6 := rebuild_reverse <$> v6 (mapping m) |}
  else mapping m.
Definition unlocked (i : Inner) : IpMapping := {| mapping := i; poisoned := false |}.

Definition has_ipv6 (m : IpMapping) : bool := is_some (v6 (locked m)).

Definition allocate (domain : bytes) (now : Z) (m : IpMapping) : Z * IpMapping :=
  let i := locked m in
  let '(ip, p) := pool_alloc domain now (v4 i) in
  (wrapping 32 ip, unlocked {| v4 := p; v6 := v6 i |}).
Definition allocate_v6 (domain : bytes) (now : Z) (m : IpMapping) : option Z * IpMapping :=
  let i := locked m in
  match v6 i with
  | None => (None, unlocked i)
  | Some pool =>
      let '(ip, p) := pool_alloc domain now pool in (Some ip, unlocked {| v4 := v4 i; v6 := Some p |})
  end.
Definition lookup_domain (ip : Z) (m : IpMapping) : option bytes * IpMapping :=
  let i := locked m in
  let '(r, p) := pool_lookup ip (v4 i) in (r, unlocked {| v4 := p; v6 := v6 i |}).
Definition lookup_domain_v6 (ip : Z) (m : IpMapping) : option bytes * IpMapping :=
  let i := locked m in
  match v6 i with
  | None => (None, unlocked i)
  | Some pool => let '(r, p) := pool_lookup ip pool in (r, unlocked {| v4 := v4 i; v6 := Some p |})
  end.
Definition mapping_len (m : IpMapping) : Z :=
  let i := locked m in
  Z.of_nat (size (domain_to_ip (v4 i)))
  + match v6 i with Some p => Z.of_nat (size (domain_to_ip p)) | None => 0 end.
Definition mapping_is_empty (m : IpMapping) : bool := mapping_len m =? 0.

(** ** The invariant *)

(** The two directions are inverse to each other. *)
Definition maps_inverse (p : Pool) : Prop :=
  forall d ip, domain_to_ip p !! d = Some ip <->
               addr_domain <$> ip_to_domain p !! ip = Some d.

(** The addresses handed out are the first [pool_size p] of the range, and the
    cursor stands behind them until they are all out. *)
Record pool_ok (p : Pool) : Prop := {
  ok_inverse : maps_inverse p;
  ok_range : first_ip p <= last_ip p;
  ok_size : pool_size p <= pool_len p;
  ok_taken ip : is_Some (ip_to_domain p !! ip) <-> first_ip p <= ip < first_ip p + pool_size p;
  ok_next : pool_size p < pool_len p -> pool_next p = first_ip p + pool_size p;
}.

Lemma pool_new_ok first last : first <= last -> pool_ok (pool_new first last).
Proof.
  intros H. assert (pool_size (pool_new first last) = 0) as E by done.
  split; rewrite ?E; cbn; try lia.
  - intros d ip. cbn. rewrite !lookup_empty. done.
  - unfold pool_len, saturating_sub. cbn. lia.
  - intros ip. rewrite lookup_empty. split; [by intros [? ?]|lia].
Qed.

(** Two pools whose entries differ only in what does not decide who holds which
    address: the clocks and the expiries. *)
Definition same_holders (p q : Pool) : Prop :=
  domain_to_ip p = domain_to_ip q /\ addr_domain <$> ip_to_domain p = addr_domain <$> ip_to_domain q /\
  pool_next p = pool_next q /\ first_ip p = first_ip q /\ last_ip p = last_ip q.

Lemma same_holders_size p q : same_holders p q -> pool_size p = pool_size q.
Proof.
  intros (_ & E & _). unfold pool_size. f_equal.
  rewrite <- (map_size_fmap addr_domain (ip_to_domain p)), E. apply map_size_fmap.
Qed.

Lemma same_holders_lookup p q ip :
  same_holders p q ->
  addr_domain <$> ip_to_domain p !! ip = addr_domain <$> ip_to_domain q !! ip.
Proof. intros (_ & E & _). rewrite <- !lookup_fmap. by rewrite E. Qed.

Lemma same_holders_ok p q : same_holders p q -> pool_ok p -> pool_ok q.
Proof.
  intros H Hp. pose proof (same_holders_size _ _ H) as Es. pose proof (same_holders_lookup p q) as El.
  assert (pool_len q = pool_len p) as Ep by (unfold pool_len; destruct H as (_ & _ & _ & -> & ->); done).
  destruct H as (E1 & E2 & E3 & E4 & E5) eqn:HH. destruct Hp as [Hi Hr Hs Ht Hn].
  split; rewrite <- ?E3, <- ?E4, <- ?E5, <- ?Es, ?Ep; try done.
  - intros d ip. rewrite <- E1, <- El by done. apply Hi.
  - intros ip. rewrite <- Ht, <- !(fmap_is_Some addr_domain), El; done.
Qed.

Lemma alter_same_domain f ip p :
  (forall a, addr_domain (f a) = addr_domain a) ->
  addr_domain <$> alter f ip (ip_to_domain p) = addr_domain <$> ip_to_domain p.
Proof.
  intros Hf. apply map_eq. intros j. rewrite !lookup_fmap.
  destruct (decide (j = ip)) as [->|Hj].
  - rewrite lookup_alter_eq. destruct (ip_to_domain p !! ip); cbn; by rewrite ?Hf.
  - by rewrite lookup_alter_ne by done.
Qed.

Lemma touch_same_holders ip p : same_holders p (pool_touch ip p).
Proof. split_and!; try done. cbn. by rewrite alter_same_domain. Qed.

Lemma answer_same_holders ip now p : same_holders p (pool_answer ip now p).
Proof. split_and!; try done. cbn. by rewrite alter_same_domain. Qed.

#[local] Instance same_holders_trans : Transitive same_holders.
Proof.
  intros p q r (A1 & A2 & A3 & A4 & A5) (B1 & B2 & B3 & B4 & B5).
  split_and!; etrans; eassumption.
Qed.

Lemma lookup_same_holders ip p : same_holders p (pool_lookup ip p).2.
Proof.
  unfold pool_lookup. destruct (ip_to_domain p !! ip) as [a|] eqn:E; [|split_and!; done].
  split_and!; try done. cbn. rewrite fmap_insert. cbn. rewrite insert_id; [done|].
  by rewrite lookup_fmap, E.
Qed.

(** ** The scan for an address to recycle *)

Definition entry_key (e : Z * Address) : Z * Z := (addr_used e.2, e.1).
Definition expired (now : Z) (e : Z * Address) : Prop := addr_expires_at e.2 <= now.
#[global] Instance expired_dec now e : Decision (expired now e).
Proof. unfold expired. apply _. Defined.

(** [best] is the least of the keys of [l], or nothing when there are none. *)
Definition is_quietest (l : list (Z * Address)) (best : option (Z * Z)) : Prop :=
  match best with
  | None => l = []
  | Some b => b ∈ entry_key <$> l /\ Forall (fun e => quieter (entry_key e) b = false) l
  end.

Lemma keep_quietest_spec l best e :
  is_quietest l best -> is_quietest (l ++ [e]) (keep_quietest best (entry_key e)).
Proof.
  assert (forall x, quieter x x = false) as Hirr by (intros []; unfold quieter; cbn; crush).
  unfold is_quietest, keep_quietest. destruct best as [b|].
  - intros [Hb Hall]. destruct (quieter (entry_key e) b) eqn:E; rewrite fmap_app, elem_of_app, Forall_app.
    + split; [right; by left|]. split; [|by constructor].
      eapply Forall_impl; [exact Hall|]. intros f Hf. cbv beta in *.
      unfold quieter in *. destruct b, (entry_key e), (entry_key f); cbn [fst snd] in *. lia.
    + split; [by left|]. split; [done|by constructor].
  - intros ->. cbn. split; [by left|]. by constructor.
Qed.

Lemma scan_spec now l :
  let '(quietest, free) := fold_left (scan_entry now) l (None, None) in
  is_quietest l quietest /\ is_quietest (filter (expired now) l) free.
Proof.
  induction l as [|[ip a] l IH] using rev_ind; [done|].
  rewrite fold_left_app, filter_app. cbn [fold_left].
  destruct (fold_left _ l _) as [quietest free]. destruct IH as [Hq Hf]. cbn [scan_entry].
  pose proof (keep_quietest_spec l quietest (ip, a) Hq) as Hq'.
  destruct (now <? addr_expires_at a) eqn:E; bools.
  - split; [exact Hq'|]. rewrite filter_cons_False, filter_nil, app_nil_r; [done|].
    unfold expired. cbn. lia.
  - split; [exact Hq'|]. rewrite filter_cons_True, filter_nil by (unfold expired; cbn; lia).
    exact (keep_quietest_spec _ free (ip, a) Hf).
Qed.

(** The address the scan settles on: an expired one if there is one, and the
    quietest of those it chose from. *)
Lemma recyclable_in_spec l first now :
  l <> [] ->
  exists e, e ∈ l /\ recyclable_address_in l first now = e.1 /\
    let candidates := if decide (filter (expired now) l = []) then l else filter (expired now) l in
    e ∈ candidates /\ Forall (fun f => quieter (entry_key f) (entry_key e) = false) candidates.
Proof.
  intros Hl. unfold recyclable_address_in. pose proof (scan_spec now l) as H.
  destruct (fold_left _ l _) as [quietest free]. destruct H as [Hq Hf]. cbn zeta.
  destruct free as [[u ip]|].
  - destruct Hf as [Hin Hall]. apply list_elem_of_fmap in Hin as (e & Ee & He).
    exists e. rewrite decide_False by (by intros E; rewrite E in He; apply not_elem_of_nil in He).
    rewrite <- Ee. split_and!; try done; [by apply list_elem_of_filter in He as [_ ?]|].
    unfold entry_key in Ee. congruence.
  - cbn in Hf. rewrite decide_True by done. destruct quietest as [[u ip]|]; [|done].
    destruct Hq as [Hin Hall]. apply list_elem_of_fmap in Hin as (e & Ee & He).
    exists e. rewrite <- Ee. split_and!; try done. unfold entry_key in Ee. congruence.
Qed.

(** ** What [alloc] chooses *)

(** Every answer that named an address of the pool may still be held. *)
Definition all_held (now : Z) (p : Pool) : Prop :=
  forall ip a, ip_to_domain p !! ip = Some a -> now < addr_expires_at a.

Inductive picked (p : Pool) (now : Z) : Z -> Pool -> Prop :=
| picked_free ip n :
    pool_size p < pool_len p -> ip = first_ip p + pool_size p -> ip_to_domain p !! ip = None ->
    n = (if last_ip p <=? ip then first_ip p else ip + 1) ->
    picked p now ip (set_next n p)
| picked_taken ip a :
    pool_size p = pool_len p -> ip_to_domain p !! ip = Some a ->
    (addr_expires_at a <= now \/ all_held now p) ->
    picked p now ip p.

Lemma pool_len_pos p : pool_ok p -> 0 < pool_len p.
Proof. intros [_ ? _ _ _]. unfold pool_len, saturating_sub. lia. Qed.

Lemma recyclable_spec p now :
  pool_ok p -> pool_size p = pool_len p ->
  exists a, ip_to_domain p !! recyclable_address p now = Some a /\
            (addr_expires_at a <= now \/ all_held now p).
Proof.
  intros Hp Hfull. pose proof (pool_len_pos p Hp) as Hpos.
  destruct (recyclable_in_spec (map_to_list (ip_to_domain p)) (first_ip p) now) as ([ip a] & Hin & E & Hc & _).
  { intros Hnil. apply map_to_list_empty_iff in Hnil. unfold pool_size in Hfull.
    rewrite Hnil, map_size_empty in Hfull. lia. }
  cbn zeta in Hc. apply elem_of_map_to_list in Hin. unfold recyclable_address. rewrite E. cbn.
  exists a. split; [done|]. case_decide as Hnone.
  - right. intros j b Hj. destruct (decide (expired now (j, b))) as [Hx|Hx]; [|unfold expired in Hx; cbn in Hx; lia].
    exfalso. apply (not_elem_of_nil (j, b)). rewrite <- Hnone. apply list_elem_of_filter.
    split; [done|by apply elem_of_map_to_list].
  - left. apply list_elem_of_filter in Hc as [Hx _]. exact Hx.
Qed.

Lemma pick_address_spec p now : pool_ok p -> picked p now (pick_address p now).1 (pick_address p now).2.
Proof.
  intros Hp. unfold pick_address. destruct (pool_size p <? pool_len p) eqn:E; bools; cbn.
  - pose proof (ok_next p Hp E) as Hn. apply picked_free; try done.
    apply eq_None_not_Some. rewrite Hn, (ok_taken p Hp). lia.
  - pose proof (ok_size p Hp). destruct (recyclable_spec p now Hp) as (a & Ha & Hx); [lia|].
    eapply picked_taken; eauto. lia.
Qed.

(** ** Binding keeps the invariant *)

Lemma bind_inverse key ip now p :
  maps_inverse p -> domain_to_ip p !! key = None ->
  maps_inverse (bind_reverse key ip (unbind_previous (bind_forward key ip now p).1 (bind_forward key ip now p).2)).
Proof.
  intros Hinv Hnew d j. set (prev := (bind_forward key ip now p).1).
  set (R := match prev with Some a => delete (addr_domain a) (domain_to_ip p) | None => domain_to_ip p end).
  assert (domain_to_ip (bind_reverse key ip (unbind_previous prev (bind_forward key ip now p).2)) = <[key:=ip]> R)
    as -> by (unfold R; by destruct prev).
  assert (ip_to_domain (bind_reverse key ip (unbind_previous prev (bind_forward key ip now p).2))
          = <[ip:=fresh_address key now]> (ip_to_domain p)) as -> by (by destruct prev).
  assert (R !! d = Some j <-> domain_to_ip p !! d = Some j /\ j <> ip) as HR.
  { unfold R, prev. cbn. destruct (ip_to_domain p !! ip) as [a|] eqn:Ea.
    - rewrite lookup_delete_Some. specialize (Hinv (addr_domain a) ip) as Ha. rewrite Ea in Ha. cbn in Ha.
      split; intros [H1 H2]; split; try done.
      + intros ->. apply H1. apply Hinv in H2. rewrite Ea in H2. cbn in H2. congruence.
      + intros <-. apply H2. destruct Ha as [_ Ha]. rewrite Ha in H1 by done. congruence.
    - split; [|by intros [? _]]. intros H. split; [done|]. intros ->. apply Hinv in H. by rewrite Ea in H. }
  destruct (decide (d = key)) as [->|Hd].
  - rewrite lookup_insert_eq. destruct (decide (j = ip)) as [->|Hj].
    + rewrite lookup_insert_eq. done.
    + rewrite lookup_insert_ne by done. split; [congruence|]. rewrite <- (Hinv key j). congruence.
  - rewrite lookup_insert_ne, HR by done. destruct (decide (j = ip)) as [->|Hj].
    + rewrite lookup_insert_eq. cbn. split; [by intros []|congruence].
    + rewrite lookup_insert_ne by done. rewrite <- (Hinv d j). tauto.
Qed.

Lemma maps_inverse_next n p : maps_inverse p -> maps_inverse (set_next n p).
Proof. done. Qed.

(** A new name, from the address that was picked for it. *)
Definition bind (key : bytes) (ip now : Z) (p : Pool) : Pool :=
  bind_reverse key ip (unbind_previous (bind_forward key ip now p).1 (bind_forward key ip now p).2).

Lemma bind_forward_map key ip now p : ip_to_domain (bind key ip now p) = <[ip:=fresh_address key now]> (ip_to_domain p).
Proof. unfold bind. cbn. by destruct (ip_to_domain p !! ip). Qed.

Lemma bind_bounds key ip now p :
  first_ip (bind key ip now p) = first_ip p /\ last_ip (bind key ip now p) = last_ip p /\
  pool_next (bind key ip now p) = pool_next p.
Proof. unfold bind. cbn. by destruct (ip_to_domain p !! ip). Qed.

Lemma bind_ok key ip now p q :
  pool_ok p -> domain_to_ip p !! key = None -> picked p now ip q -> pool_ok (bind key ip now q).
Proof.
  intros Hp Hnew Hpick. pose proof (bind_forward_map key ip now q) as Ef.
  destruct (bind_bounds key ip now q) as (E1 & E2 & E3).
  assert (pool_len (bind key ip now q) = pool_len q) as El by (unfold pool_len; by rewrite E1, E2).
  assert (maps_inverse (bind key ip now q)) as Hinv.
  { apply bind_inverse; [|by destruct Hpick]. destruct Hpick; [apply maps_inverse_next|]; by apply ok_inverse. }
  destruct Hp as [_ Hr Hs Ht Hn]. destruct Hpick as [ip n Hlt -> Hfree ->|ip a Hfull Ha _].
  - set (b := bind _ _ _ _) in *. clearbody b. cbn in E1, E2, E3, Ef.
    change (pool_len (set_next _ _)) with (pool_len p) in El.
    assert (pool_size b = pool_size p + 1) as Es.
    { unfold pool_size at 1. rewrite Ef, map_size_insert_None by done. unfold pool_size. lia. }
    split; rewrite ?Es, ?E1, ?E2, ?E3, ?El; try done; try lia.
    + intros j. rewrite Ef, lookup_insert_is_Some, Ht. unfold pool_size. lia.
    + intros Hlt'. unfold pool_len, saturating_sub in Hlt'. destruct (_ <=? _) eqn:E; bools; lia.
  - assert (pool_size (bind key ip now p) = pool_size p) as Es.
    { unfold pool_size. rewrite Ef. by rewrite map_size_insert_Some by eauto. }
    split; rewrite ?Es, ?E1, ?E2, ?E3, ?El; try done.
    intros j. rewrite Ef, lookup_insert_is_Some', Ht. split; [|tauto].
    intros [<-|?]; [|done]. apply Ht. eauto.
Qed.

Lemma alloc_unfold d now p :
  domain_to_ip p !! fold_domain d = None ->
  pool_alloc d now p = ((pick_address p now).1,
    pool_touch (pick_address p now).1 (bind (fold_domain d) (pick_address p now).1 now (pick_address p now).2)).
Proof. intros H. unfold pool_alloc. rewrite H. by destruct (pick_address p now). Qed.

Lemma alloc_ok d now p : pool_ok p -> pool_ok (pool_alloc d now p).2.
Proof.
  intros Hp. destruct (domain_to_ip p !! fold_domain d) as [ip|] eqn:E.
  - unfold pool_alloc. rewrite E. cbn [snd]. eapply same_holders_ok; [|exact Hp].
    etrans; [apply touch_same_holders|apply answer_same_holders].
  - rewrite alloc_unfold by done. cbn [snd]. eapply same_holders_ok; [apply touch_same_holders|].
    eapply bind_ok; [exact Hp|exact E|by apply pick_address_spec].
Qed.

Lemma lookup_ok ip p : pool_ok p -> pool_ok (pool_lookup ip p).2.
Proof. apply same_holders_ok, lookup_same_holders. Qed.

(** ** The table of leases the pool implements *)

(** Who was told which address, and how long the answer may be held. *)
Abbreviation LeaseTable := (gmap Z (bytes * Z)).
Definition holds_none (d : bytes) (t : LeaseTable) : Prop := forall ip e, t !! ip <> Some (d, e).

Inductive lease_event : Type :=
| Answered (d : bytes) (now ip : Z)
| Asked (ip : Z) (r : option bytes).

Inductive lease_step (first last : Z) (t : LeaseTable) : lease_event -> LeaseTable -> Prop :=
| lease_kept d now ip e :
    t !! ip = Some (d, e) ->
    lease_step first last t (Answered d now ip) (<[ip := (d, now + ADDRESS_TTL)]> t)
| lease_free d now ip :
    holds_none d t -> first <= ip <= last -> t !! ip = None ->
    lease_step first last t (Answered d now ip) (<[ip := (d, now + ADDRESS_TTL)]> t)
| lease_recycled d now ip d' e :
    holds_none d t -> (forall j, first <= j <= last -> is_Some (t !! j)) ->
    t !! ip = Some (d', e) ->
    (e <= now \/ forall j d'' e'', t !! j = Some (d'', e'') -> now < e'') ->
    lease_step first last t (Answered d now ip) (<[ip := (d, now + ADDRESS_TTL)]> t)
| lease_asked ip :
    lease_step first last t (Asked ip (fst <$> t !! ip)) t.

Inductive lease_trace (first last : Z) (t : LeaseTable) : list lease_event -> LeaseTable -> Prop :=
| lease_done : lease_trace first last t [] t
| lease_more ev evs t' t'' :
    lease_step first last t ev t' -> lease_trace first last t' evs t'' ->
    lease_trace first last t (ev :: evs) t''.

(** ** Runs of the pool *)

Inductive pool_op : Type :=
| OpAlloc (domain : bytes) (now : Z)
| OpLookup (ip : Z).

Definition pool_do (op : pool_op) (p : Pool) : lease_event * Pool :=
  match op with
  | OpAlloc d now => let '(ip, p') := pool_alloc d now p in (Answered (fold_domain d) now ip, p')
  | OpLookup ip => let '(r, p') := pool_lookup ip p in (Asked ip r, p')
  end.
Fixpoint pool_run (ops : list pool_op) (p : Pool) : list lease_event * Pool :=
  match ops with
  | [] => ([], p)
  | op :: rest =>
      let '(ev, p1) := pool_do op p in
      let '(evs, p2) := pool_run rest p1 in (ev :: evs, p2)
  end.

(** ** The refinement *)

Definition lease_of (a : Address) : bytes * Z := (addr_domain a, addr_expires_at a).
Definition leases (p : Pool) : LeaseTable := lease_of <$> ip_to_domain p.

Lemma leases_touch ip p : leases (pool_touch ip p) = leases p.
Proof.
  apply map_eq. intros j. unfold leases. cbn. rewrite !lookup_fmap.
  destruct (decide (j = ip)) as [->|Hj].
  - rewrite lookup_alter_eq. by destruct (ip_to_domain p !! ip).
  - by rewrite lookup_alter_ne by done.
Qed.

Lemma leases_answer ip now p a :
  ip_to_domain p !! ip = Some a ->
  leases (pool_answer ip now p) = <[ip := (addr_domain a, now + ADDRESS_TTL)]> (leases p).
Proof.
  intros Ha. apply map_eq. intros j. unfold leases.
  cbn [pool_answer set_forward ip_to_domain]. rewrite lookup_fmap.
  destruct (decide (j = ip)) as [->|Hj].
  - by rewrite lookup_alter_eq, lookup_insert_eq, Ha.
  - rewrite lookup_alter_ne, lookup_insert_ne by done. by rewrite lookup_fmap.
Qed.

Lemma leases_bind key ip now p :
  leases (bind key ip now p) = <[ip := (key, now + ADDRESS_TTL)]> (leases p).
Proof. unfold leases. by rewrite bind_forward_map, fmap_insert. Qed.

Lemma leases_lookup_same ip p : leases (pool_lookup ip p).2 = leases p.
Proof.
  unfold pool_lookup. destruct (ip_to_domain p !! ip) as [a|] eqn:E; [|done].
  unfold leases. cbn. rewrite fmap_insert, insert_id; [done|]. by rewrite lookup_fmap, E.
Qed.

Lemma lease_lookup p ip d e :
  leases p !! ip = Some (d, e) ->
  exists a, ip_to_domain p !! ip = Some a /\ addr_domain a = d /\ addr_expires_at a = e.
Proof. unfold leases. rewrite lookup_fmap. destruct (ip_to_domain p !! ip) as [a|]; [|done]. intros [= <- <-]. eauto. Qed.

Lemma holds_none_reverse d p : pool_ok p -> domain_to_ip p !! d = None -> holds_none d (leases p).
Proof.
  intros Hp Hd ip e He. apply lease_lookup in He as (a & Ha & Ed & _).
  enough (domain_to_ip p !! d = Some ip) by congruence.
  apply (ok_inverse p Hp). rewrite Ha. cbn. by rewrite Ed.
Qed.

Lemma alloc_refines d now p :
  pool_ok p ->
  lease_step (first_ip p) (last_ip p) (leases p)
    (Answered (fold_domain d) now (pool_alloc d now p).1) (leases (pool_alloc d now p).2).
Proof.
  intros Hp. destruct (domain_to_ip p !! fold_domain d) as [ip|] eqn:E.
  - unfold pool_alloc. rewrite E. cbn [fst snd].
    pose proof E as H. apply (ok_inverse p Hp) in H.
    destruct (ip_to_domain p !! ip) as [a|] eqn:Ha; [|done]. cbn in H. injection H as Hd.
    rewrite (leases_answer ip now _ (with_used (wrapping 64 (pool_clock p + 1)) a)).
    + rewrite leases_touch. cbn [with_used addr_domain]. rewrite Hd.
      apply lease_kept with (addr_expires_at a). unfold leases. rewrite lookup_fmap, Ha. cbn.
      unfold lease_of. by rewrite Hd.
    + cbn. by rewrite lookup_alter_eq, Ha.
  - rewrite alloc_unfold by done. cbn [fst snd]. rewrite leases_touch, leases_bind.
    pose proof (holds_none_reverse _ p Hp E) as Hnone. pose proof (ok_taken p Hp) as Ht.
    pose proof (ok_range p Hp). pose proof (ok_size p Hp).
    destruct (pick_address_spec p now Hp) as [ip n Hlt -> Hfree ->|ip a Hfull Ha Hx].
    + change (leases (set_next _ p)) with (leases p). apply lease_free; [done| |].
      * unfold pool_len, saturating_sub, pool_size in *. lia.
      * unfold leases. by rewrite lookup_fmap, Hfree.
    + apply lease_recycled with (addr_domain a) (addr_expires_at a); [done| | |].
      * intros j Hj. unfold leases. rewrite lookup_fmap. apply fmap_is_Some, Ht.
        unfold pool_len, saturating_sub in *. lia.
      * unfold leases. by rewrite lookup_fmap, Ha.
      * destruct Hx as [Hx|Hx]; [by left|right]. intros j d' e' Hj.
        apply lease_lookup in Hj as (b & Hb & _ & <-). by apply Hx in Hb.
Qed.

Lemma alloc_bounds d now p :
  first_ip (pool_alloc d now p).2 = first_ip p /\ last_ip (pool_alloc d now p).2 = last_ip p.
Proof.
  destruct (domain_to_ip p !! fold_domain d) as [ip|] eqn:E.
  - unfold pool_alloc. by rewrite E.
  - rewrite alloc_unfold by done. cbn [snd].
    destruct (bind_bounds (fold_domain d) (pick_address p now).1 now (pick_address p now).2) as (E1 & E2 & _).
    cbn [pool_touch set_forward set_clock first_ip last_ip]. rewrite E1, E2.
    unfold pick_address. by case_match.
Qed.

Lemma do_refines op p :
  pool_ok p ->
  lease_step (first_ip p) (last_ip p) (leases p) (pool_do op p).1 (leases (pool_do op p).2) /\
  pool_ok (pool_do op p).2 /\
  first_ip (pool_do op p).2 = first_ip p /\ last_ip (pool_do op p).2 = last_ip p.
Proof.
  intros Hp. destruct op as [d now|ip]; cbn [pool_do].
  - pose proof (alloc_refines d now p Hp). pose proof (alloc_ok d now p Hp).
    pose proof (alloc_bounds d now p). destruct (pool_alloc d now p). done.
  - pose proof (leases_lookup_same ip p) as El. pose proof (lookup_ok ip p Hp).
    destruct (lookup_same_holders ip p) as (_ & _ & _ & E1 & E2).
    assert ((pool_lookup ip p).1 = fst <$> leases p !! ip) as Er.
    { unfold pool_lookup, leases. rewrite lookup_fmap. by destruct (ip_to_domain p !! ip). }
    destruct (pool_lookup ip p) as [r p']. cbn [fst snd] in *. rewrite El, Er. split; [|done].
    apply lease_asked.
Qed.

Lemma run_refines ops p :
  pool_ok p ->
  lease_trace (first_ip p) (last_ip p) (leases p) (pool_run ops p).1 (leases (pool_run ops p).2) /\
  pool_ok (pool_run ops p).2.
Proof.
  revert p. induction ops as [|op ops IH]; intros p Hp; cbn [pool_run]; [split; [constructor|done]|].
  destruct (do_refines op p Hp) as (Hs & Hp1 & E1 & E2). destruct (pool_do op p) as [ev p1].
  cbn [fst snd] in *. destruct (IH p1 Hp1) as [Ht Hok]. destruct (pool_run ops p1) as [evs p2].
  cbn [fst snd] in *. split; [|done]. rewrite E1, E2 in Ht. econstructor; eassumption.
Qed.

(** ** An answer that may be held stays true *)

(** The pool is full and every answer may still be held. *)
Definition crowded (now : Z) (p : Pool) : bool :=
  (pool_size p =? pool_len p) &&
  forallb (fun e => now <? addr_expires_at e.2) (map_to_list (ip_to_domain p)).

(** Every allocation of the run falls in [since, until) and finds a free address
    or one whose answer has expired. *)
Fixpoint calm (since until : Z) (ops : list pool_op) (p : Pool) : Prop :=
  match ops with
  | [] => True
  | op :: rest =>
      match op with
      | OpAlloc _ now => since <= now < until /\ crowded now p = false
      | OpLookup _ => True
      end /\ calm since until rest (pool_do op p).2
  end.

Lemma not_crowded now p :
  pool_ok p -> crowded now p = false ->
  (forall j, first_ip p <= j <= last_ip p -> is_Some (leases p !! j)) ->
  ~ (forall j d e, leases p !! j = Some (d, e) -> now < e).
Proof.
  intros Hp Hc Hall Hheld. unfold crowded in Hc. apply andb_false_iff in Hc as [Hc|Hc].
  - bools. apply Hc. pose proof (ok_size p Hp). pose proof (ok_range p Hp).
    destruct (Hall (last_ip p)) as [x Hx]; [lia|]. unfold leases in Hx. rewrite lookup_fmap in Hx.
    destruct (ip_to_domain p !! last_ip p) eqn:E; [|done].
    assert (is_Some (ip_to_domain p !! last_ip p)) as Hs by eauto. apply (ok_taken p Hp) in Hs.
    unfold pool_len, saturating_sub in *. lia.
  - apply not_true_iff_false in Hc. apply Hc. apply forallb_Forall, Forall_forall.
    intros [j a] Hj. apply elem_of_map_to_list in Hj. apply Z.ltb_lt. cbn.
    apply (Hheld j (addr_domain a)). unfold leases. by rewrite lookup_fmap, Hj.
Qed.

Lemma calm_step_keeps since op p ip d e :
  pool_ok p -> calm since (since + ADDRESS_TTL) [op] p ->
  leases p !! ip = Some (d, e) -> since + ADDRESS_TTL <= e ->
  exists e', leases (pool_do op p).2 !! ip = Some (d, e') /\ since + ADDRESS_TTL <= e'.
Proof.
  intros Hp Hcalm Hl He. destruct (do_refines op p Hp) as (Hs & _ & _ & _).
  destruct op as [d' now|ip'].
  2: { exists e. split; [|done]. cbn [pool_do]. pose proof (leases_lookup_same ip' p) as El.
       destruct (pool_lookup ip' p). cbn [fst snd] in *. by rewrite El. }
  destruct Hcalm as [[Hnow Hroom] _]. cbn [pool_do] in *. destruct (pool_alloc d' now p) as [ip' p'].
  cbn [fst snd] in *. inversion Hs as [k now' i e0 Hi|k now' i Hnone Hr Hfree|k now' i k' e0 Hnone Hfull Hi Hx|]; subst.
  - destruct (decide (ip = ip')) as [->|Hne].
    + rewrite lookup_insert_eq. exists (now + ADDRESS_TTL). split; [congruence|lia].
    + rewrite lookup_insert_ne by done. eauto.
  - rewrite lookup_insert_ne by congruence. eauto.
  - rewrite lookup_insert_ne; [by eauto|]. intros ->. rewrite Hi in Hl. injection Hl as -> ->.
    destruct Hx as [Hx|Hx]; [lia|]. by apply (not_crowded now p Hp Hroom).
Qed.

Lemma calm_run_keeps since ops p ip d e :
  pool_ok p -> calm since (since + ADDRESS_TTL) ops p ->
  leases p !! ip = Some (d, e) -> since + ADDRESS_TTL <= e ->
  exists e', leases (pool_run ops p).2 !! ip = Some (d, e').
Proof.
  revert p e. induction ops as [|op ops IH]; intros p e Hp Hc Hl He; cbn [pool_run]; [eauto|].
  destruct Hc as [H1 H2]. destruct (do_refines op p Hp) as (_ & Hp1 & _ & _).
  destruct (calm_step_keeps since op p ip d e Hp (conj H1 I) Hl He) as (e' & Hl' & He').
  destruct (pool_do op p) as [ev p1]. cbn [snd] in *.
  destruct (IH p1 e' Hp1 H2 Hl' He') as [e'' ?]. destruct (pool_run ops p1). eauto.
Qed.

Lemma alloc_leases d now p :
  pool_ok p -> leases (pool_alloc d now p).2 !! (pool_alloc d now p).1 = Some (fold_domain d, now + ADDRESS_TTL).
Proof.
  intros Hp. pose proof (alloc_refines d now p Hp) as H. inversion H; by rewrite lookup_insert_eq.
Qed.

(** C39: The pool implements the table of leases: from an empty pool, every
    sequence of allocations and lookups is one the table allows. A name that
    has an address is told that one again and its lease renewed; a name that has
    none is told an address of the range that nobody holds while there is one,
    after that one whose last answer has expired, and one that may still be held
    only if all of them may be; a lookup answers with the holder and changes
    nothing. *)
Theorem pool_refines_leases first last ops :
  first <= last ->
  let '(evs, p) := pool_run ops (pool_new first last) in
  lease_trace first last ∅ evs (leases p) /\ pool_ok p.
Proof.
  intros H. destruct (run_refines ops (pool_new first last) (pool_new_ok first last H)) as [Ht Hok].
  destruct (pool_run ops (pool_new first last)) as [evs p]. cbn [fst snd] in *. split; [|done].
  unfold leases at 1 in Ht. cbn in Ht. by rewrite fmap_empty in Ht.
Qed.

(** An answer stays true for as long as a resolver may hold it: in any
    reachable pool, once a name was told an address, every allocation and lookup
    of the next 60 seconds leaves the address the name's own, for the packets
    that arrive and for the next query, provided no allocation met a pool in
    which every answer was still held. *)
Theorem answer_stable first last before d since ops :
  first <= last ->
  let p0 := (pool_run before (pool_new first last)).2 in
  let '(ip, p1) := pool_alloc d since p0 in
  calm since (since + ADDRESS_TTL) ops p1 ->
  let p2 := (pool_run ops p1).2 in
  (pool_lookup ip p2).1 = Some (fold_domain d) /\ forall now, (pool_alloc d now p2).1 = ip.
Proof.
  intros H p0. destruct (run_refines before (pool_new first last) (pool_new_ok first last H)) as [_ Hok].
  pose proof (alloc_leases d since p0 Hok) as Hl. pose proof (alloc_ok d since p0 Hok) as Hok1.
  destruct (pool_alloc d since p0) as [ip p1]. cbn [fst snd] in *. intros Hc. set (p2 := (pool_run ops p1).2).
  destruct (calm_run_keeps since ops p1 ip _ _ Hok1 Hc Hl ltac:(lia)) as [e' Hl2].
  apply lease_lookup in Hl2 as (a & Ha & Hd & _). fold p2 in Ha. split.
  - unfold pool_lookup. by rewrite Ha, <- Hd.
  - intros now. destruct (run_refines ops p1 Hok1) as [_ Hok2]. fold p2 in Hok2.
    assert (domain_to_ip p2 !! fold_domain d = Some ip) as E.
    { apply (ok_inverse p2 Hok2). rewrite Ha. cbn. by rewrite Hd. }
    unfold pool_alloc. by rewrite E.
Qed.

(** ** Panics and the rebuilt map

    What holds of the forward direction even when a panic interrupted an
    allocation between two updates. *)
Record forward_ok (lo hi : Z) (p : Pool) : Prop := {
  fwd_first : first_ip p = lo;
  fwd_last : last_ip p = hi;
  fwd_range : lo <= hi;
  fwd_next : lo <= pool_next p <= hi;
  fwd_keys ip : is_Some (ip_to_domain p !! ip) -> lo <= ip <= hi;
  fwd_names ip j d :
    addr_domain <$> ip_to_domain p !! ip = Some d -> addr_domain <$> ip_to_domain p !! j = Some d -> ip = j;
}.

Lemma forward_ok_new lo hi : lo <= hi -> forward_ok lo hi (pool_new lo hi).
Proof.
  intros H. split; cbn; try done; try lia.
  - intros ip. rewrite lookup_empty. by intros [? ?].
Qed.

Lemma forward_ok_same lo hi p q : same_holders p q -> forward_ok lo hi p -> forward_ok lo hi q.
Proof.
  intros H [H1 H2 H3 H4 H5 H6]. pose proof (fun ip => same_holders_lookup p q ip H) as El.
  destruct H as (_ & _ & E3 & E4 & E5). split; rewrite <- ?E3, <- ?E4, <- ?E5; try done.
  - intros ip Hs. apply H5. apply (fmap_is_Some addr_domain). rewrite El. by apply fmap_is_Some.
  - intros ip j d. rewrite <- !El. apply H6.
Qed.

Lemma maps_inverse_same p q : same_holders p q -> maps_inverse p -> maps_inverse q.
Proof.
  intros H Hp d ip. rewrite <- (same_holders_lookup p q ip H). destruct H as (<- & _). apply Hp.
Qed.

Lemma collect_lookup (l : list (Z * Address)) (m : gmap bytes Z) d ip :
  NoDup ((fun e => addr_domain e.2) <$> l) ->
  fold_left (fun m e => <[addr_domain e.2 := e.1]> m) l m !! d = Some ip <->
  (exists a, (ip, a) ∈ l /\ addr_domain a = d) \/
  (d ∉ (fun e => addr_domain e.2) <$> l /\ m !! d = Some ip).
Proof.
  revert m. induction l as [|[j b] l IH]; intros m Hnd; cbn [fold_left].
  - cbn. split; [intros H; right; split; [apply not_elem_of_nil|done]|].
    intros [(a & Ha & _)|[_ H]]; [by apply not_elem_of_nil in Ha|done].
  - rewrite fmap_cons, NoDup_cons in Hnd. destruct Hnd as [Hn Hnd]. rewrite IH by done.
    rewrite fmap_cons, not_elem_of_cons. cbn [fst snd] in *. setoid_rewrite elem_of_cons.
    destruct (decide (d = addr_domain b)) as [->|Hd].
    + rewrite lookup_insert_eq. split.
      * intros [(a & Ha & E)|[_ [= ->]]]; [left; eauto|left; eauto].
      * intros [(a & [[= -> ->]|Ha] & E)|[[? _] _]]; [right; done|left; eauto|done].
    + rewrite lookup_insert_ne by done. split.
      * intros [(a & Ha & E)|[? ?]]; [left; eauto|right; done].
      * intros [(a & [[= -> ->]|Ha] & E)|[[_ ?] ?]]; [done|left; eauto|right; done].
Qed.

Lemma rebuild_inverse lo hi p : forward_ok lo hi p -> maps_inverse (rebuild_reverse p).
Proof.
  intros Hf d ip. cbn [rebuild_reverse set_reverse domain_to_ip ip_to_domain].
  rewrite collect_lookup, lookup_empty.
  - setoid_rewrite elem_of_map_to_list. split.
    + intros [(a & -> & <-)|[_ ?]]; done.
    + destruct (ip_to_domain p !! ip) as [a|]; [|done]. intros [= <-]. left. eauto.
  - apply NoDup_fmap_2_strong; [|apply NoDup_map_to_list].
    intros [i a] [j b] Hi Hj E. apply elem_of_map_to_list in Hi, Hj. cbn in E.
    assert (i = j) as <- by (apply (fwd_names lo hi p Hf i j (addr_domain a)); [by rewrite Hi|by rewrite Hj, E]).
    congruence.
Qed.

(** The pool of a lock that is not poisoned. *)
Definition sound (lo hi : Z) (p : Pool) : Prop := forward_ok lo hi p /\ maps_inverse p.

Lemma sound_rebuild lo hi p : forward_ok lo hi p -> sound lo hi (rebuild_reverse p).
Proof. intros Hf. split; [by destruct Hf|by eapply rebuild_inverse]. Qed.

Lemma sound_same lo hi p q : same_holders p q -> sound lo hi p -> sound lo hi q.
Proof. intros H [? ?]. split; [by eapply forward_ok_same|by eapply maps_inverse_same]. Qed.

Lemma pick_sound lo hi p now :
  sound lo hi p -> lo <= (pick_address p now).1 <= hi /\ sound lo hi (pick_address p now).2 /\
  domain_to_ip (pick_address p now).2 = domain_to_ip p.
Proof.
  intros [Hf Hi]. destruct Hf as [H1 H2 H3 H4 H5 H6] eqn:Hf'.
  unfold pick_address. destruct (_ <? _) eqn:E; bools; cbn [fst snd].
  - split_and!; [lia..| |done]. split; [split; try done|done].
    cbn. destruct (_ <=? _) eqn:El; bools; lia.
  - destruct (recyclable_in_spec (map_to_list (ip_to_domain p)) (first_ip p) now) as ([ip a] & Hin & Er & _).
    { intros Hnil. apply map_to_list_empty_iff in Hnil. unfold pool_size in E.
      rewrite Hnil, map_size_empty in E. unfold pool_len, saturating_sub in E. lia. }
    unfold recyclable_address. rewrite Er. cbn [fst]. apply elem_of_map_to_list in Hin.
    split; [apply H5; eauto|done].
Qed.

Lemma bind_forward_ok lo hi key ip now p :
  sound lo hi p -> domain_to_ip p !! key = None -> lo <= ip <= hi ->
  forward_ok lo hi (bind_forward key ip now p).2.
Proof.
  intros [[H1 H2 H3 H4 H5 H6] Hi] Hnew Hip.
  split; cbn [bind_forward snd set_forward ip_to_domain first_ip last_ip pool_next]; try done.
  - intros j Hs. apply lookup_insert_is_Some' in Hs as [<-|Hs]; [done|by apply H5].
  - assert (forall j, addr_domain <$> ip_to_domain p !! j <> Some key) as Hno.
    { intros j Hj. apply Hi in Hj. congruence. }
    intros i j d. destruct (decide (i = ip)) as [->|Hni], (decide (j = ip)) as [->|Hnj];
      rewrite ?lookup_insert_eq, ?lookup_insert_ne by done; cbn; try done.
    + intros [= <-] Hj. by apply Hno in Hj.
    + intros Hj [= <-]. by apply Hno in Hj.
    + apply H6.
Qed.

Lemma unbind_forward_ok lo hi prev p : forward_ok lo hi p -> forward_ok lo hi (unbind_previous prev p).
Proof. intros []. destruct prev; [|done]. split; done. Qed.
Lemma bind_reverse_forward_ok lo hi key ip p : forward_ok lo hi p -> forward_ok lo hi (bind_reverse key ip p).
Proof. intros []. split; done. Qed.

Lemma bind_sound lo hi key ip now p :
  sound lo hi p -> domain_to_ip p !! key = None -> lo <= ip <= hi -> sound lo hi (bind key ip now p).
Proof.
  intros Hs Hnew Hip. split; [|apply bind_inverse; [apply Hs|done]].
  by apply bind_reverse_forward_ok, unbind_forward_ok, bind_forward_ok.
Qed.

Lemma alloc_stage_forward_ok lo hi n d now p :
  sound lo hi p -> domain_to_ip p !! fold_domain d = None -> forward_ok lo hi (alloc_stage n d now p).
Proof.
  intros Hs Hnew. destruct (pick_sound lo hi p now Hs) as (Hip & Hs1 & Er). unfold alloc_stage.
  destruct (pick_address p now) as [ip p1]. cbn [fst snd] in *. rewrite <- Er in Hnew.
  pose proof (bind_forward_ok lo hi (fold_domain d) ip now p1 Hs1 Hnew Hip) as H2.
  destruct (bind_forward (fold_domain d) ip now p1) as [prev p2]. cbn [snd] in H2.
  pose proof (unbind_forward_ok lo hi prev p2 H2) as H3.
  pose proof (bind_reverse_forward_ok lo hi (fold_domain d) ip _ H3) as H4.
  destruct n as [|[|[|[|[|n]]]]]; cbn [nth]; [apply Hs|apply Hs1|done|done|done|].
  destruct n; (eapply forward_ok_same; [apply touch_same_holders|done]).
Qed.

Lemma alloc_sound lo hi d now p :
  sound lo hi p ->
  lo <= (pool_alloc d now p).1 <= hi /\ sound lo hi (pool_alloc d now p).2 /\
  addr_domain <$> ip_to_domain (pool_alloc d now p).2 !! (pool_alloc d now p).1 = Some (fold_domain d).
Proof.
  intros Hs. destruct (domain_to_ip p !! fold_domain d) as [ip|] eqn:E.
  - unfold pool_alloc. rewrite E. cbn [fst snd]. pose proof E as Hd. apply (proj2 Hs) in Hd.
    assert (same_holders p (pool_answer ip now (pool_touch ip p))) as Hsame
      by (etrans; [apply touch_same_holders|apply answer_same_holders]).
    split_and!.
    1,2: assert (lo <= ip <= hi); [|lia]; apply (fwd_keys lo hi p (proj1 Hs)), (fmap_is_Some addr_domain); eauto.
    + by eapply sound_same.
    + by rewrite <- (same_holders_lookup _ _ ip Hsame).
  - rewrite alloc_unfold by done. cbn [fst snd].
    destruct (pick_sound lo hi p now Hs) as (Hip & Hs1 & Er). split; [done|]. rewrite <- Er in E.
    destruct (pick_address p now) as [ip p1]. cbn [fst snd] in *. split.
    + eapply sound_same; [apply touch_same_holders|]. by apply bind_sound.
    + rewrite <- (same_holders_lookup _ _ ip (touch_same_holders ip _)).
      by rewrite bind_forward_map, lookup_insert_eq.
Qed.

(** ** The mapping of a block *)

Definition fresh_mapping (current : Z) : IpMapping :=
  with_ipv6 (ipv6_pool_first current) (ipv6_pool_last current) (ipmapping_new current).

(** What any thread may do, a panic in the middle of an allocation included. *)
Inductive mapping_step (m : IpMapping) : IpMapping -> Prop :=
| step_allocate d now : mapping_step m (allocate d now m).2
| step_allocate_v6 d now : mapping_step m (allocate_v6 d now m).2
| step_lookup ip : mapping_step m (lookup_domain ip m).2
| step_lookup_v6 ip : mapping_step m (lookup_domain_v6 ip m).2
| step_panic n d now :
    domain_to_ip (v4 (locked m)) !! fold_domain d = None ->
    mapping_step m
      {| mapping := {| v4 := alloc_stage n d now (v4 (locked m)); v6 := v6 (locked m) |}; poisoned := true |}
| step_panic_v6 n d now p :
    v6 (locked m) = Some p -> domain_to_ip p !! fold_domain d = None ->
    mapping_step m
      {| mapping := {| v4 := v4 (locked m); v6 := Some (alloc_stage n d now p) |}; poisoned := true |}.

Record mapping_ok (lo hi lo6 hi6 : Z) (m : IpMapping) : Prop := {
  map_v4 : forward_ok lo hi (v4 (mapping m));
  map_v6 : exists p, v6 (mapping m) = Some p /\ forward_ok lo6 hi6 p /\ (poisoned m = false -> maps_inverse p);
  map_inverse : poisoned m = false -> maps_inverse (v4 (mapping m));
}.

Lemma locked_sound lo hi lo6 hi6 m :
  mapping_ok lo hi lo6 hi6 m ->
  sound lo hi (v4 (locked m)) /\ exists p, v6 (locked m) = Some p /\ sound lo6 hi6 p.
Proof.
  intros [H4 (p & E6 & H6 & Hi6) Hi]. unfold locked. destruct (poisoned m) eqn:E.
  - cbn. rewrite E6. cbn. split; [by apply sound_rebuild|]. eexists. split; [done|by apply sound_rebuild].
  - split; [split; auto|]. exists p. split; [done|split; auto].
Qed.

Lemma unlocked_ok lo hi lo6 hi6 p q :
  sound lo hi p -> sound lo6 hi6 q -> mapping_ok lo hi lo6 hi6 (unlocked {| v4 := p; v6 := Some q |}).
Proof. intros [? ?] [? ?]. split; cbn; eauto. Qed.

Lemma lookup_sound lo hi ip p : sound lo hi p -> sound lo hi (pool_lookup ip p).2.
Proof. apply sound_same, lookup_same_holders. Qed.

Lemma mapping_step_ok lo hi lo6 hi6 m m' :
  mapping_ok lo hi lo6 hi6 m -> mapping_step m m' -> mapping_ok lo hi lo6 hi6 m'.
Proof.
  intros Hm Hs. destruct (locked_sound _ _ _ _ _ Hm) as (H4 & p & E6 & H6).
  destruct Hs as [d now|d now|ip|ip|n d now Hnew|n d now q Eq Hnew].
  - unfold allocate. rewrite E6. pose proof (alloc_sound lo hi d now _ H4) as (_ & ? & _).
    destruct (pool_alloc d now (v4 (locked m))). by apply unlocked_ok.
  - unfold allocate_v6. rewrite E6. pose proof (alloc_sound lo6 hi6 d now _ H6) as (_ & ? & _).
    destruct (pool_alloc d now p). by apply unlocked_ok.
  - unfold lookup_domain. rewrite E6. pose proof (lookup_sound lo hi ip _ H4).
    destruct (pool_lookup ip (v4 (locked m))). by apply unlocked_ok.
  - unfold lookup_domain_v6. rewrite E6. pose proof (lookup_sound lo6 hi6 ip _ H6).
    destruct (pool_lookup ip p). by apply unlocked_ok.
  - split; cbn; [by apply alloc_stage_forward_ok| |done]. exists p. split; [done|]. split; [apply H6|done].
  - rewrite E6 in Eq. injection Eq as <-. split; cbn; [apply H4| |done].
    eexists. split; [done|]. split; [by apply alloc_stage_forward_ok|done].
Qed.

Lemma fresh_mapping_ok base :
  is_u32 base ->
  let c := block_set base in
  mapping_ok (c + 16) (c + 254) (ipv6_block c + 16) (ipv6_block c + 0xfffe) (fresh_mapping c).
Proof.
  intros Hb c. destruct (layout_v4_block base Hb) as [_ _ _ Hf Hl].
  destruct (layout_v6_block base Hb) as [_ _ _ Hf6 Hl6]. fold c in Hf, Hl, Hf6, Hl6.
  unfold fresh_mapping, ipmapping_new, with_range, with_ipv6. rewrite Hf, Hl, Hf6, Hl6.
  split; cbn.
  - apply forward_ok_new. lia.
  - eexists. split; [done|]. split; [apply forward_ok_new; lia|done].
  - done.
Qed.

Lemma mapping_steps_ok lo hi lo6 hi6 m m' :
  rtc mapping_step m m' -> mapping_ok lo hi lo6 hi6 m -> mapping_ok lo hi lo6 hi6 m'.
Proof. induction 1 as [m|m m' m'' Hs _ IH]; [done|]. intros Hm. apply IH. by eapply mapping_step_ok. Qed.

Lemma reachable_ok base m :
  is_u32 base -> rtc mapping_step (fresh_mapping (block_set base)) m ->
  let c := block_set base in
  mapping_ok (c + 16) (c + 254) (ipv6_block c + 16) (ipv6_block c + 0xfffe) m.
Proof.
  intros Hb Hr c. eapply mapping_steps_ok; [exact Hr|]. exact (fresh_mapping_ok base Hb).
Qed.

Lemma lookup_result ip d p :
  addr_domain <$> ip_to_domain p !! ip = Some d -> (pool_lookup ip p).1 = Some d.
Proof. unfold pool_lookup. by destruct (ip_to_domain p !! ip) as [a|]; [intros [= <-]|]. Qed.

Lemma lookup_in_range lo hi ip d p : sound lo hi p -> (pool_lookup ip p).1 = Some d -> lo <= ip <= hi.
Proof.
  intros [Hf _]. unfold pool_lookup. destruct (ip_to_domain p !! ip) eqn:E; [|done]. intros _.
  apply (fwd_keys lo hi p Hf). eauto.
Qed.

Lemma reachable_allocate base m d now :
  is_u32 base -> rtc mapping_step (fresh_mapping (block_set base)) m ->
  let c := block_set base in
  let '(ip, m') := allocate d now m in
  c + 16 <= ip <= c + 254 /\ (lookup_domain ip m').1 = Some (fold_domain d).
Proof.
  intros Hb Hr c. destruct (locked_sound _ _ _ _ _ (reachable_ok base m Hb Hr)) as (H4 & _). fold c in H4.
  unfold allocate. destruct (alloc_sound _ _ d now _ H4) as (Hip & _ & Hn).
  destruct (pool_alloc d now (v4 (locked m))) as [ip p']. cbn [fst snd] in *.
  rewrite wrapping_small.
  2: { unfold c, is_uint in *. rewrite block_set_spec in Hip by done. pose proof (Z.div_mod base 256).
       pose proof (Z.mod_pos_bound base 256). lia. }
  split; [done|]. unfold lookup_domain. cbn [locked unlocked poisoned mapping v4 v6]. apply lookup_result in Hn.
  destruct (pool_lookup ip p'). done.
Qed.

Lemma reachable_allocate_v6 base m d now :
  is_u32 base -> rtc mapping_step (fresh_mapping (block_set base)) m ->
  let c := block_set base in
  exists ip, (allocate_v6 d now m).1 = Some ip /\
    ipv6_block c + 16 <= ip <= ipv6_block c + 0xfffe /\
    (lookup_domain_v6 ip (allocate_v6 d now m).2).1 = Some (fold_domain d).
Proof.
  intros Hb Hr c. destruct (locked_sound _ _ _ _ _ (reachable_ok base m Hb Hr)) as (_ & p & E6 & H6). fold c in H6.
  unfold allocate_v6. rewrite E6. destruct (alloc_sound _ _ d now _ H6) as (Hip & _ & Hn).
  destruct (pool_alloc d now p) as [ip p']. cbn [fst snd] in *. exists ip. split; [done|]. split; [done|].
  unfold lookup_domain_v6. cbn [locked unlocked poisoned mapping v4 v6]. apply lookup_result in Hn.
  destruct (pool_lookup ip p'). done.
Qed.

(** Whatever the tunnel's threads did before, and whichever of them panicked
    at whatever point inside an allocation, the mapping of a block answers every
    name with an address of the block's pool, in both families, and reads the
    same name (folded) back from that address; and no address outside the pools
    (the interface, the resolver, the legacy proxy, the broadcast address) ever
    names a domain. *)
Theorem mapping_survives_panics base m :
  is_u32 base -> rtc mapping_step (fresh_mapping (block_set base)) m ->
  let c := block_set base in
  (forall d now, let '(ip, m') := allocate d now m in
     c + 16 <= ip <= c + 254 /\ (lookup_domain ip m').1 = Some (fold_domain d)) /\
  (forall d now, exists ip, (allocate_v6 d now m).1 = Some ip /\
     ipv6_block c + 16 <= ip <= ipv6_block c + 0xfffe /\
     (lookup_domain_v6 ip (allocate_v6 d now m).2).1 = Some (fold_domain d)) /\
  (forall ip d, (lookup_domain ip m).1 = Some d -> c + 16 <= ip <= c + 254) /\
  (forall ip d, (lookup_domain_v6 ip m).1 = Some d -> ipv6_block c + 16 <= ip <= ipv6_block c + 0xfffe).
Proof.
  intros Hb Hr c. destruct (locked_sound _ _ _ _ _ (reachable_ok base m Hb Hr)) as (H4 & p & E6 & H6).
  fold c in H4, H6. split_and!.
  - intros d now. by apply reachable_allocate.
  - intros d now. by apply reachable_allocate_v6.
  - intros ip d. unfold lookup_domain. pose proof (lookup_in_range _ _ ip d _ H4).
    by destruct (pool_lookup ip (v4 (locked m))).
  - intros ip d. unfold lookup_domain_v6. rewrite E6. pose proof (lookup_in_range _ _ ip d _ H6).
    by destruct (pool_lookup ip p).
Qed.

End Names.

(** The pool of two addresses: the second name gets the second one, and the
    third, once the answers have expired, the quieter of the two. *)
Lemma pool_refines_leases_witness :
  let '(evs, p) := pool_run to_ascii_lowercase
    [OpAlloc (lit "A.test.") 0; OpAlloc (lit "b.test") 1; OpLookup 16; OpAlloc (lit "c.test") (61 * 10 ^ 9)]
    (pool_new 16 17) in
  lease_trace 16 17 ∅ evs (leases p) /\
  evs = [Answered (lit "a.test") 0 16; Answered (lit "b.test") 1 17; Asked 16 (Some (lit "a.test"));
         Answered (lit "c.test") (61 * 10 ^ 9) 17].
Proof.
  pose proof (pool_refines_leases to_ascii_lowercase 16 17
    [OpAlloc (lit "A.test.") 0; OpAlloc (lit "b.test") 1; OpLookup 16; OpAlloc (lit "c.test") (61 * 10 ^ 9)]
    ltac:(lia)) as H.
  destruct (pool_run _ _ _) as [evs p] eqn:E. destruct H as [H _]. split; [exact H|].
  apply (f_equal fst) in E. cbn [fst] in E. rewrite <- E. vm_compute. reflexivity.
Defined.


(** A panic right after the forward insert: the name is in one map only. *)
Lemma mapping_survives_panics_witness :
  let c := block_set (ipv4_new 198 18 0 0) in
  let m := {| mapping := {| v4 := alloc_stage to_ascii_lowercase 2 (lit "a.test") 0 (pool_new (c + 16) (c + 254));
                            v6 := Some (pool_new (ipv6_pool_first c) (ipv6_pool_last c)) |};
              poisoned := true |} in
  (allocate to_ascii_lowercase (lit "a.test") 1 m).1 = c + 16 /\
  (lookup_domain (c + 16) (allocate to_ascii_lowercase (lit "a.test") 1 m).2).1 = Some (lit "a.test").
Proof.
  intros c m.
  assert (is_u32 (ipv4_new 198 18 0 0)) as Hb by (vm_compute; split; congruence).
  assert (rtc (mapping_step to_ascii_lowercase) (fresh_mapping c) m) as Hr.
  { apply rtc_once. exact (step_panic to_ascii_lowercase (fresh_mapping c) 2 (lit "a.test") 0 eq_refl). }
  assert ((allocate to_ascii_lowercase (lit "a.test") 1 m).1 = c + 16) as E by (vm_compute; reflexivity).
  split; [exact E|].
  pose proof (proj1 (mapping_survives_panics to_ascii_lowercase _ m Hb Hr) (lit "a.test") 1) as H.
  destruct (allocate to_ascii_lowercase (lit "a.test") 1 m) as [ip m']. cbn [fst snd] in *.
  rewrite <- E. exact (proj2 H).
Defined.
