(* ===== verification/DnsWire.v ===== *)
(** * DNS messages (nexapipe-client/src/dns/mod.rs, the wire format)

    Reading the question of a query, with its compression pointers, and building
    the answer; and the comparison that decides whether a datagram answers a
    question.  The readers are written with the panics of slice indexing and with
    a bound on their loops, and the theorems show neither is ever met. *)

From S2P Require Import Prelude RustStd Slices.

Definition DNS_CLASS_IN : Z := 1.
Definition DNS_TYPE_A : Z := 1.
Definition DNS_TYPE_AAAA : Z := 28.
Definition MAX_DNS_POINTER_JUMPS : Z := 4.

Record Query := {
  q_id : Z;
  q_domain : bytes;
  q_qtype : Z;
  q_qclass : Z;
  q_question : bytes;
}.

(** ** Reading the name of a question *)

(** Where the loop stopped, the labels, and where the question goes on after the
    first pointer. *)
Record NameRead := { n_pos : Z; n_labels : list bytes; n_after : option Z }.

Fixpoint read_name (fuel : nat) (payload : bytes) (pos jumps : Z) (labels : list bytes)
    (after_name : option Z) : run (option NameRead) :=
  if negb (pos <? len payload) then
    Val (Some {| n_pos := pos; n_labels := labels; n_after := after_name |})
  else
  match fuel with
  | O => Spins
  | S fuel =>
      let* length := index payload pos in
      if length =? 0 then
        Val (Some {| n_pos := pos + 1; n_labels := labels; n_after := after_name |})
      else if Z.land length 0xC0 =? 0xC0 then
        if len payload <=? pos + 1 then Val None else
        let* low := index payload (pos + 1) in
        let offset := Z.lor (Z.shiftl (Z.land length 0x3F) 8) low in
        if len payload <=? offset then Val None else
        let jumps := jumps + 1 in
        if MAX_DNS_POINTER_JUMPS <? jumps then Val None else
        let after_name := match after_name with None => Some (pos + 2) | Some a => Some a end in
        read_name fuel payload offset jumps labels after_name
      else if negb (Z.land length 0xC0 =? 0) then Val None
      else if len payload <? pos + 1 + length then Val None
      else
        let* label := slice payload (pos + 1) (pos + 1 + length) in
        match from_utf8 label with
        | None => Val None
        | Some label => read_name fuel payload (pos + 1 + length) jumps (labels ++ [label]) after_name
        end
  end.

(** A turn of the loop moves on by at least a byte or spends one of the four
    pointers, which takes it back at most to the start. *)
Definition name_fuel (payload : bytes) : nat := (5 * (length payload + 1))%nat.

Fixpoint join_dots (labels : list bytes) : bytes :=
  match labels with
  | [] => []
  | [l] => l
  | l :: rest => l ++ 46 :: join_dots rest
  end.

Definition parse_query (payload : bytes) : run (option Query) :=
  if len payload <? 12 then Val None else
  let* id := index_u16 payload 0 in
  let* qdcount := index_u16 payload 4 in
  if qdcount =? 0 then Val None else
  let question_start := 12 in
  let* name := read_name (name_fuel payload) payload 12 0 [] None in
  match name with
  | None => Val None
  | Some n =>
      let qtype_pos := match n_after n with Some a => a | None => n_pos n end in
      if len payload <? qtype_pos + 4 then Val None else
      let* qtype := index_u16 payload qtype_pos in
      let* qclass := index_u16 payload (qtype_pos + 2) in
      let* question := slice payload question_start (qtype_pos + 4) in
      Val (Some {| q_id := id; q_domain := join_dots (n_labels n); q_qtype := qtype;
                   q_qclass := qclass; q_question := question |})
  end.

(** ** Building the answer *)

Inductive IpAddr : Type :=
| IpV4 (ip : Z)
| IpV6 (ip : Z).

Definition be16z (z : Z) : bytes := to_be_bytes 2 z.

Definition build_empty_response (parsed : Query) : bytes :=
  be16z (q_id parsed) ++ [0x81; 0x80] ++ be16z 1 ++ be16z 0 ++ be16z 0 ++ be16z 0 ++ q_question parsed.

(** The record a type and an address give, when they belong together. *)
Definition address_record (addr : IpAddr) (qtype : Z) : option (Z * bytes) :=
  match addr with
  | IpV4 ip => if qtype =? DNS_TYPE_A then Some (DNS_TYPE_A, to_be_bytes 4 ip) else None
  | IpV6 ip => if qtype =? DNS_TYPE_AAAA then Some (DNS_TYPE_AAAA, to_be_bytes 16 ip) else None
  end.

Definition build_response (parsed : Query) (addr : IpAddr) : bytes :=
  match address_record addr (q_qtype parsed) with
  | None => build_empty_response parsed
  | Some (rtype, rdata) =>
      be16z (q_id parsed) ++ [0x81; 0x80] ++ be16z 1 ++ be16z 1 ++ be16z 0 ++ be16z 0
      ++ q_question parsed
      ++ [0xC0; 0x0C] ++ be16z rtype ++ be16z 1 ++ to_be_bytes 4 60 ++ be16z (len rdata) ++ rdata
  end.

(** ** Does this datagram answer that question? *)

Fixpoint question_name (fuel : nat) (message : bytes) (offset : Z) : run (option Z) :=
  match fuel with
  | O => Spins
  | S fuel =>
      match get message offset with
      | None => Val None
      | Some label_len =>
          let offset := offset + 1 in
          if label_len =? 0 then Val (Some offset)
          else if negb (Z.land label_len 0xC0 =? 0) then Val None
          else
            let offset := offset + label_len in
            if len message <? offset then Val None else question_name fuel message offset
      end
  end.

Definition question_of (message : bytes) : run (option (bytes * bytes)) :=
  if len message <? 12 then Val None else
  let* qdcount := index_u16 message 4 in
  if negb (qdcount =? 1) then Val None else
  let* name_end := question_name (S (length message)) message 12 in
  match name_end with
  | None => Val None
  | Some offset =>
      let stop := offset + 4 in
      if len message <? stop then Val None else
      let* name := slice message 12 offset in
      let* rest := slice message offset stop in
      Val (Some (name, rest))
  end.

Definition answers_the_question (answer query : bytes) : run bool :=
  if len answer <? 12 then Val false else
  let* flags := index answer 2 in
  if Z.land flags 0x80 =? 0 then Val false else
  let* a := question_of answer in
  match a with
  | None => Val false
  | Some (answer_name, answer_rest) =>
      let* q := question_of query in
      match q with
      | None => Val false
      | Some (name, rest) =>
          Val (eq_ignore_ascii_case answer_name name && bool_decide (answer_rest = rest))
      end
  end.

(** ** The readers always end with a value *)

Lemma read_name_total fuel payload pos jumps labels after :
  bytes_ok payload -> 0 <= pos -> 0 <= jumps <= MAX_DNS_POINTER_JUMPS ->
  (MAX_DNS_POINTER_JUMPS - jumps) * (len payload + 1) + (len payload - pos) < Z.of_nat fuel ->
  exists r, read_name fuel payload pos jumps labels after = Val r.
Proof.
  intros Hok. revert pos jumps labels after.
  induction fuel as [|fuel IH]; intros pos jumps labels after Hpos Hj Hf; cbn [read_name];
    destruct (pos <? len payload) eqn:Ep; cbn [negb]; bools; eauto; unfold MAX_DNS_POINTER_JUMPS in *.
  { pose proof (len_nonneg payload). nia. }
  destruct (index_inside payload pos) as [l El]; [lia|]. rewrite El. pose proof (index_ok _ _ _ Hok El) as Hl.
  destruct (l =? 0) eqn:E0; [eauto|]. bools. destruct (Z.land l 0xC0 =? 0xC0).
  - destruct (_ <=? _) eqn:E1; [eauto|]. bools.
    destruct (index_inside payload (pos + 1)) as [low Elow]; [lia|]. rewrite Elow.
    pose proof (index_ok _ _ _ Hok Elow) as Hlow. set (off := Z.lor _ _).
    assert (0 <= off) by (apply Z.lor_nonneg; split; [apply Z.shiftl_nonneg, Z.land_nonneg; lia|apply Hlow]).
    destruct (len payload <=? off) eqn:E2; [eauto|]. bools. destruct (4 <? jumps + 1) eqn:E3; [eauto|]. bools.
    apply IH; [lia|lia|nia].
  - destruct (Z.land l 0xC0 =? 0); [|eauto]. cbn [negb]. destruct (_ <? _) eqn:E1; [eauto|]. bools.
    unfold is_uint in Hl. rewrite slice_inside by lia. destruct (from_utf8 _); [|eauto]. apply IH; nia.
Qed.

(** Where the name ended, and where the question goes on, are inside the message
    or just behind it. *)
Lemma read_name_pos fuel payload pos jumps labels after n :
  bytes_ok payload -> 12 <= pos -> (forall a, after = Some a -> 12 <= a) ->
  read_name fuel payload pos jumps labels after = Val (Some n) ->
  12 <= match n_after n with Some a => a | None => n_pos n end.
Proof.
  intros Hok Hpos Ha. assert (after = None -> 12 <= pos) as Hp by done. clear Hpos.
  revert pos jumps labels after Ha Hp.
  induction fuel as [|fuel IH]; intros pos jumps labels after Ha Hp; cbn [read_name];
    destruct (pos <? len payload); cbn [negb]; try done.
  1,3: intros [= <-]; cbn; destruct after; auto.
  destruct (index payload pos) as [l| |] eqn:El; try done. pose proof (index_ok _ _ _ Hok El) as Hl.
  destruct (l =? 0); [intros [= <-]; cbn; destruct after; [auto|]; specialize (Hp eq_refl); lia|].
  destruct (Z.land l 0xC0 =? 0xC0).
  - destruct (_ <=? _); [done|]. destruct (index payload (pos + 1)) as [low| |]; try done.
    destruct (_ <=? _); [done|]. destruct (_ <? _); [done|]. apply IH.
    + intros a. destruct after; [by auto|]. intros [= <-]. specialize (Hp eq_refl). lia.
    + destruct after; done.
  - destruct (Z.land l 0xC0 =? 0); [|done]. cbn [negb]. destruct (_ <? _); [done|].
    destruct (slice _ _ _); try done. destruct (from_utf8 _); [|done].
    apply IH; [done|]. unfold is_uint in Hl. intros Hn. specialize (Hp Hn). lia.
Qed.

Lemma parse_query_ends payload : bytes_ok payload -> exists r, parse_query payload = Val r.
Proof.
  intros Hok. unfold parse_query. destruct (len payload <? 12) eqn:E; [eauto|]. bools.
  destruct (index_u16_inside payload 0) as [id ->]; [lia..|].
  destruct (index_u16_inside payload 4) as [qd ->]; [lia..|]. destruct (qd =? 0); [eauto|].
  destruct (read_name_total (name_fuel payload) payload 12 0 [] None) as [[n|] En];
    [done|lia|unfold MAX_DNS_POINTER_JUMPS; lia|unfold name_fuel, MAX_DNS_POINTER_JUMPS, len; lia| |];
    rewrite En; [|eauto].
  pose proof (read_name_pos _ payload 12 0 [] None n Hok ltac:(lia) ltac:(done) En) as Hq.
  set (q := match n_after n with Some a => a | None => n_pos n end) in *. clearbody q.
  destruct (len payload <? q + 4) eqn:E4; [eauto|]. bools.
  destruct (index_u16_inside payload q) as [qt ->]; [lia..|].
  destruct (index_u16_inside payload (q + 2)) as [qc ->]; [lia..|].
  rewrite slice_inside by lia. eauto.
Qed.

Lemma question_name_total fuel message offset :
  bytes_ok message -> 0 <= offset -> len message - offset < Z.of_nat fuel -> 0 < Z.of_nat fuel ->
  exists r, question_name fuel message offset = Val r /\
            forall e, r = Some e -> offset < e.
Proof.
  intros Hok. revert offset. induction fuel as [|fuel IH]; intros offset Ho Hf Hp; [lia|].
  cbn [question_name]. destruct (get message offset) as [l|] eqn:El; [|by (eexists; split)].
  assert (is_u8 l) as Hl by (by eapply Forall_lookup_1). unfold is_uint in Hl.
  assert (offset < len message) by (apply lookup_lt_Some in El; unfold len; lia).
  destruct (l =? 0); [eexists; split; [done|]; intros e [= <-]; lia|].
  destruct (Z.land l 0xC0 =? 0); [|by (eexists; split)]. cbn [negb].
  destruct (_ <? _) eqn:E; [by (eexists; split)|]. bools.
  destruct (IH (offset + 1 + l)) as (r & -> & Hr); [lia|lia|lia|].
  eexists. split; [done|]. intros e He. specialize (Hr e He). lia.
Qed.

Lemma question_of_ends message : bytes_ok message -> exists r, question_of message = Val r.
Proof.
  intros Hok. unfold question_of. destruct (len message <? 12) eqn:E; [eauto|]. bools.
  destruct (index_u16_inside message 4) as [qd ->]; [lia..|]. destruct (qd =? 1); [|eauto]. cbn [negb].
  destruct (question_name_total (S (length message)) message 12) as ([e|] & -> & He);
    [done|lia|unfold len; lia|lia| |eauto].
  specialize (He e eq_refl). destruct (_ <? _) eqn:E4; [eauto|]. bools.
  rewrite !slice_inside by lia. eauto.
Qed.

Lemma answers_the_question_ends answer query :
  bytes_ok answer -> bytes_ok query -> exists b, answers_the_question answer query = Val b.
Proof.
  intros Ha Hq. unfold answers_the_question. destruct (len answer <? 12) eqn:E; [eauto|]. bools.
  destruct (index_inside answer 2) as [f ->]; [lia|]. destruct (_ =? 0); [eauto|].
  destruct (question_of_ends answer Ha) as [[[an ar]|] ->]; [|eauto].
  destruct (question_of_ends query Hq) as [[[qn qr]|] ->]; eauto.
Qed.

(** ** What a query looks like on the wire *)

Definition label_ok (l : bytes) : Prop := 1 <= len l <= 63 /\ utf8_valid l = true.
Definition wire_name (labels : list bytes) : bytes :=
  concat ((fun l => len l :: l) <$> labels) ++ [0].
Definition wire_question (labels : list bytes) (qtype qclass : Z) : bytes :=
  wire_name labels ++ be16z qtype ++ be16z qclass.
(** [flags] is the two bytes after the ID, [counts] the three other counts. *)
Definition wire_header (id : Z) (flags : bytes) (qdcount : Z) (counts : bytes) : bytes :=
  be16z id ++ flags ++ be16z qdcount ++ counts.

Lemma wire_name_cons l labels : wire_name (l :: labels) = (len l :: l) ++ wire_name labels.
Proof. unfold wire_name. cbn. by rewrite <- app_assoc. Qed.

Lemma len_wire_name labels : Z.of_nat (length labels) < len (wire_name labels).
Proof.
  induction labels as [|l labels IH]; [done|]. rewrite wire_name_cons. simp_len.
  pose proof (len_nonneg l). cbn [length]. lia.
Qed.

Lemma label_length_bits n : 0 <= n < 64 -> Z.land n 0xC0 = 0.
Proof.
  intros H. assert (Forall (fun n => Z.land n 0xC0 = 0) (seqZ 0 64)) as Hall
    by (apply (bool_decide_unpack _); vm_compute; exact I).
  rewrite Forall_forall in Hall. apply Hall, elem_of_seqZ. lia.
Qed.

Lemma index_app_at {A} (pre : list A) x post : index (pre ++ x :: post) (len pre) = Val x.
Proof. rewrite index_app_r by lia. by rewrite Z.sub_diag. Qed.

Lemma read_name_wire fuel pre labels post jumps acc after :
  Forall label_ok labels -> Z.of_nat (length labels) < Z.of_nat fuel ->
  read_name fuel (pre ++ wire_name labels ++ post) (len pre) jumps acc after =
  Val (Some {| n_pos := len pre + len (wire_name labels); n_labels := acc ++ labels; n_after := after |}).
Proof.
  intros Hl. revert fuel pre acc. induction Hl as [|l labels [Hlen Hutf] _ IH]; intros fuel pre acc Hf;
    (destruct fuel as [|fuel]; [cbn in Hf; lia|]); cbn [read_name].
  - rewrite (proj2 (Z.ltb_lt _ _)) by (simp_len; pose proof (len_nonneg post); pose proof (len_wire_name []); lia). cbn [negb].
    cbn [wire_name fmap list_fmap concat app]. rewrite index_app_at, app_nil_r. done.
  - rewrite wire_name_cons, <- !app_assoc, <- app_comm_cons.
    rewrite (proj2 (Z.ltb_lt _ _)) by (simp_len; pose proof (len_nonneg post);
      pose proof (len_nonneg (wire_name labels)); lia).
    cbn [negb]. rewrite index_app_at, label_length_bits by lia.
    rewrite (proj2 (Z.eqb_neq (len l) 0)) by lia. cbn [Z.eqb negb].
    rewrite (proj2 (Z.ltb_ge _ _)) by (simp_len; pose proof (len_nonneg post);
      pose proof (len_nonneg (wire_name labels)); lia).
    replace (pre ++ len l :: l ++ wire_name labels ++ post)
      with ((pre ++ [len l]) ++ l ++ wire_name labels ++ post) by (by rewrite <- app_assoc).
    rewrite slice_app_mid by (simp_len; lia). unfold from_utf8. rewrite Hutf.
    replace ((pre ++ [len l]) ++ l ++ wire_name labels ++ post)
      with ((pre ++ len l :: l) ++ wire_name labels ++ post) by (by rewrite <- !app_assoc).
    replace (len pre + 1 + len l) with (len (pre ++ len l :: l)) by (simp_len; lia).
    rewrite IH by (cbn in Hf; lia). rewrite <- app_assoc. do 3 f_equal. simp_len. lia.
Qed.

Lemma len_be16z z : len (be16z z) = 2.
Proof. unfold len, be16z. by rewrite length_to_be_bytes. Qed.
#[export] Hint Rewrite len_be16z : len.

Lemma index_u16_app pre z post : is_u16 z -> index_u16 (pre ++ be16z z ++ post) (len pre) = Val z.
Proof.
  intros Hz. unfold index_u16, be16z. rewrite to_be_bytes_2 by done. cbn [app]. rewrite index_app_at.
  replace (pre ++ z / 256 :: z mod 256 :: post) with ((pre ++ [z / 256]) ++ z mod 256 :: post)
    by (by rewrite <- app_assoc).
  replace (len pre + 1) with (len (pre ++ [z / 256])) by (simp_len; lia).
  rewrite index_app_at, from_be_bytes_2. pose proof (Z.div_mod z 256). f_equal. lia.
Qed.

(** The same, for a position that is the length of the prefix. *)
Lemma index_u16_at s pre z post i :
  s = pre ++ be16z z ++ post -> i = len pre -> is_u16 z -> index_u16 s i = Val z.
Proof. intros -> -> Hz. by apply index_u16_app. Qed.

Lemma question_name_wire fuel pre labels post :
  Forall label_ok labels -> Z.of_nat (length labels) < Z.of_nat fuel ->
  question_name fuel (pre ++ wire_name labels ++ post) (len pre) =
  Val (Some (len pre + len (wire_name labels))).
Proof.
  intros Hl. revert fuel pre. induction Hl as [|l labels [Hlen _] _ IH]; intros fuel pre Hf;
    (destruct fuel as [|fuel]; [cbn in Hf; lia|]); cbn [question_name].
  - assert (get (pre ++ wire_name [] ++ post) (len pre) = Some 0) as ->; [|done].
    apply index_Val. exact (index_app_at pre 0 post).
  - rewrite wire_name_cons, <- !app_assoc, <- app_comm_cons.
    assert (get (pre ++ len l :: l ++ wire_name labels ++ post) (len pre) = Some (len l)) as ->
      by (apply index_Val, index_app_at).
    rewrite label_length_bits, (proj2 (Z.eqb_neq (len l) 0)) by lia. cbn [Z.eqb negb].
    rewrite (proj2 (Z.ltb_ge _ _)) by (simp_len; pose proof (len_nonneg post);
      pose proof (len_nonneg (wire_name labels)); lia).
    replace (pre ++ len l :: l ++ wire_name labels ++ post)
      with ((pre ++ len l :: l) ++ wire_name labels ++ post) by (by rewrite <- !app_assoc).
    replace (len pre + 1 + len l) with (len (pre ++ len l :: l)) by (simp_len; lia).
    rewrite IH by (cbn in Hf; lia). do 2 f_equal. simp_len. lia.
Qed.

Section Wire.
Context (id : Z) (flags counts : bytes) (qdcount : Z) (labels : list bytes) (qtype qclass : Z)
  (rest : bytes).
Hypothesis (Hid : is_u16 id) (Hflags : len flags = 2) (Hcounts : len counts = 6)
  (Hqd : is_u16 qdcount) (Hlabels : Forall label_ok labels)
  (Hqtype : is_u16 qtype) (Hqclass : is_u16 qclass).

Definition wire_query : bytes :=
  wire_header id flags qdcount counts ++ wire_question labels qtype qclass ++ rest.

Lemma len_wire_header : len (wire_header id flags qdcount counts) = 12.
Proof. unfold wire_header. simp_len. lia. Qed.

Lemma wire_query_len : len wire_query = 12 + len (wire_name labels) + 4 + len rest.
Proof. unfold wire_query, wire_question. simp_len. rewrite len_wire_header. lia. Qed.

Lemma wire_query_parse :
  1 <= qdcount ->
  parse_query wire_query =
  Val (Some {| q_id := id; q_domain := join_dots labels; q_qtype := qtype; q_qclass := qclass;
               q_question := wire_question labels qtype qclass |}).
Proof.
  intros Hq1. pose proof wire_query_len as HL. pose proof (len_nonneg rest).
  pose proof (len_wire_name labels) as Hw. pose proof len_wire_header as Hh.
  unfold parse_query. rewrite (proj2 (Z.ltb_ge _ _)) by lia.
  rewrite (index_u16_at wire_query [] id (flags ++ be16z qdcount ++ counts ++ wire_question labels qtype qclass ++ rest));
    [|unfold wire_query, wire_header; by rewrite <- !app_assoc|done|done].
  rewrite (index_u16_at wire_query (be16z id ++ flags) qdcount (counts ++ wire_question labels qtype qclass ++ rest));
    [|unfold wire_query, wire_header; by rewrite <- !app_assoc|simp_len; lia|done].
  rewrite (proj2 (Z.eqb_neq _ _)) by lia.
  assert (wire_query = wire_header id flags qdcount counts ++ wire_name labels ++
            (be16z qtype ++ be16z qclass ++ rest)) as Eq
    by (unfold wire_query, wire_question; by rewrite <- !app_assoc).
  assert (read_name (name_fuel wire_query) wire_query 12 0 [] None =
    Val (Some {| n_pos := 12 + len (wire_name labels); n_labels := labels; n_after := None |})) as ->.
  { rewrite Eq at 2. rewrite <- Hh. rewrite read_name_wire; [done|done|]. unfold name_fuel, len in *. lia. }
  cbn [n_after n_pos n_labels]. rewrite (proj2 (Z.ltb_ge _ _)) by lia.
  rewrite (index_u16_at wire_query (wire_header id flags qdcount counts ++ wire_name labels) qtype (be16z qclass ++ rest));
    [|rewrite Eq; by rewrite <- !app_assoc|simp_len; lia|done].
  rewrite (index_u16_at wire_query (wire_header id flags qdcount counts ++ wire_name labels ++ be16z qtype) qclass rest);
    [|rewrite Eq; by rewrite <- !app_assoc|simp_len; lia|done].
  unfold wire_query at 1. rewrite slice_app_mid; [done|done|]. unfold wire_question. simp_len. lia.
Qed.

Lemma wire_query_question :
  qdcount = 1 -> question_of wire_query = Val (Some (wire_name labels, be16z qtype ++ be16z qclass)).
Proof.
  intros Hq1. pose proof wire_query_len as HL. pose proof (len_nonneg rest).
  pose proof (len_wire_name labels) as Hw. pose proof len_wire_header as Hh.
  unfold question_of. rewrite (proj2 (Z.ltb_ge _ _)) by lia.
  rewrite (index_u16_at wire_query (be16z id ++ flags) qdcount (counts ++ wire_question labels qtype qclass ++ rest));
    [|unfold wire_query, wire_header; by rewrite <- !app_assoc|simp_len; lia|done].
  rewrite (proj2 (Z.eqb_eq _ _)) by lia. cbn [negb].
  assert (wire_query = wire_header id flags qdcount counts ++ wire_name labels ++
            (be16z qtype ++ be16z qclass) ++ rest) as Eq
    by (unfold wire_query, wire_question; by rewrite <- !app_assoc).
  assert (question_name (S (length wire_query)) wire_query 12 = Val (Some (12 + len (wire_name labels)))) as ->.
  { rewrite Eq at 2. rewrite <- Hh. rewrite question_name_wire; [done|done|]. unfold len in *. lia. }
  rewrite (proj2 (Z.ltb_ge _ _)) by lia. rewrite Eq at 1. rewrite slice_app_mid by (simp_len; lia).
  rewrite Eq, app_assoc, slice_app_mid by (simp_len; lia). done.
Qed.

Lemma wire_query_flags b c : flags = [b; c] -> index wire_query 2 = Val b.
Proof.
  intros E. unfold wire_query, wire_header. rewrite E, <- !app_assoc.
  rewrite index_app_r by (rewrite len_be16z; lia). by rewrite len_be16z.
Qed.

End Wire.

(** The flags of an answer: a response, recursion desired and available. *)
Definition answer_flags : bytes := [0x81; 0x80].

(** The record section of an answer, and how many records it holds. *)
Definition answer_records (addr : IpAddr) (qtype : Z) : Z * bytes :=
  match address_record addr qtype with
  | None => (0, [])
  | Some (rtype, rdata) =>
      (1, [0xC0; 0x0C] ++ be16z rtype ++ be16z 1 ++ to_be_bytes 4 60 ++ be16z (len rdata) ++ rdata)
  end.

Lemma build_response_wire id domain labels qtype qclass addr :
  build_response {| q_id := id; q_domain := domain; q_qtype := qtype; q_qclass := qclass;
                    q_question := wire_question labels qtype qclass |} addr =
  wire_query id answer_flags (be16z (answer_records addr qtype).1 ++ be16z 0 ++ be16z 0) 1
    labels qtype qclass (answer_records addr qtype).2.
Proof.
  unfold build_response, answer_records, build_empty_response. cbn [q_id q_qtype q_question].
  unfold wire_query, wire_header, answer_flags.
  destruct (address_record addr qtype) as [[rtype rdata]|]; cbn [fst snd];
    rewrite <- ?app_assoc; [done|]. by rewrite app_nil_r.
Qed.

Lemma answers_wire id flags counts qtype qclass labels rest id' counts' rest' :
  is_u16 id -> is_u16 id' -> len flags = 2 -> len counts = 6 -> len counts' = 6 ->
  Forall label_ok labels -> is_u16 qtype -> is_u16 qclass ->
  answers_the_question (wire_query id' answer_flags counts' 1 labels qtype qclass rest')
                       (wire_query id flags counts 1 labels qtype qclass rest) = Val true.
Proof.
  intros. unfold answers_the_question.
  pose proof (len_wire_name labels). pose proof (len_nonneg rest').
  rewrite (proj2 (Z.ltb_ge _ _)) by (rewrite wire_query_len; (done || lia)).
  rewrite (wire_query_flags _ _ _ _ _ _ _ _ 0x81 0x80) by done.
  change (Z.land 0x81 0x80 =? 0) with false. cbn match.
  rewrite !wire_query_question by done. unfold eq_ignore_ascii_case.
  by rewrite !bool_decide_true.
Qed.

(** A query reads back as what it asks, whatever its flags, its other
    sections and what follows the question: the ID, the name with its labels
    joined by dots, the type, the class and the question section byte for byte.
    And the answer built for it, with an address of either family, carries that
    ID, is a response, and answers exactly that question by the client's own
    test. *)
Theorem query_roundtrip id flags counts labels qtype qclass rest :
  is_u16 id -> len flags = 2 -> len counts = 6 -> Forall label_ok labels ->
  is_u16 qtype -> is_u16 qclass ->
  let payload := wire_query id flags counts 1 labels qtype qclass rest in
  exists q, parse_query payload = Val (Some q) /\
    q_id q = id /\ q_domain q = join_dots labels /\ q_qtype q = qtype /\ q_qclass q = qclass /\
    q_question q = wire_question labels qtype qclass /\
    forall addr, take 2 (build_response q addr) = take 2 payload /\
                 answers_the_question (build_response q addr) payload = Val true.
Proof.
  intros Hid Hf Hc Hl Ht Hk payload. eexists. split.
  { apply wire_query_parse; (done || (unfold is_uint; lia)). }
  cbn [q_id q_domain q_qtype q_qclass q_question]. split_and!; try done.
  intros addr. rewrite build_response_wire. split; [done|]. apply answers_wire; (done || simp_len; lia).
Qed.

Lemma query_roundtrip_witness :
  exists q, parse_query (wire_query 0x1234 [1; 0] (repeat 0 6) 1 [lit "www"; lit "example"; lit "com"] 1 1 [])
            = Val (Some q) /\ q_domain q = lit "www.example.com".
Proof.
  destruct (query_roundtrip 0x1234 [1; 0] (repeat 0 6) [lit "www"; lit "example"; lit "com"] 1 1 [])
    as (q & Hq & _ & Hd & _); try (vm_compute; (done || (split; congruence))).
  - repeat constructor; vm_compute; congruence.
  - exists q. split; [exact Hq|exact Hd].
Defined.
