(* ===== verification/Resolver.v ===== *)
(** * Upstream resolvers (nexapipe-client/src/dns/mod.rs)

    Every query to one upstream server shares a socket, so it goes out under an
    ID of the resolver's own; [waiting] says which query an ID belongs to.  The
    operations on that table ([register], [deliver], the drop of a
    [PendingGuard]) are atomic (they hold its lock), so the tasks that run
    queries and the reader of the socket are an interleaving of them: [World]
    holds the table, the one-shot channels and, per query, its live guard.

    A channel is a number, counted up by registration; what the model adds to
    the code is [asked], the query each channel was made for, which no operation
    reads. *)

From S2P Require Import Prelude RustStd Slices DnsWire.

(** ** Data *)

Record Pending := {
  original_id : Z * Z;
  p_question : bytes;
  p_token : Z;
  p_reply : nat;
}.

Record Resolver := {
  waiting : gmap Z Pending;
  next_id : Z;
  next_token : Z;
}.

Record PendingGuard := { g_id : Z; g_token : Z }.

Record World := {
  resolver : Resolver;
  inbox : gmap nat bytes;
  guards : gmap nat PendingGuard;
  asked : gmap nat bytes;
  made : nat;
}.

Definition resolver_new : Resolver := {| waiting := ∅; next_id := 0; next_token := 0 |}.
Definition world_new : World :=
  {| resolver := resolver_new; inbox := ∅; guards := ∅; asked := ∅; made := 0 |}.

Definition set_waiting (m : gmap Z Pending) (r : Resolver) : Resolver :=
  {| waiting := m; next_id := next_id r; next_token := next_token r |}.

(** ** Operations *)

(** The loop of [register]: the next ID that is not out, and the counter after it. *)
Fixpoint free_id (fuel : nat) (m : gmap Z Pending) (next : Z) : run (Z * Z) :=
  match fuel with
  | O => Spins
  | S fuel =>
      let id := next in
      let next := wrapping 16 (next + 1) in
      match m !! id with
      | None => Val (id, next)
      | Some _ => free_id fuel m next
      end
  end.

Definition register (fuel : nat) (query : bytes) (reply : nat) (r : Resolver) : run (PendingGuard * Resolver) :=
  let* '(id, next) := free_id fuel (waiting r) (next_id r) in
  let token := next_token r in
  let* q0 := index query 0 in
  let* q1 := index query 1 in
  let pending := {| original_id := (q0, q1); p_question := query; p_token := token; p_reply := reply |} in
  Val ({| g_id := id; g_token := token |},
       {| waiting := <[id := pending]> (waiting r); next_id := next; next_token := wrapping 64 (token + 1) |}).

(** The datagram a registered query goes out as. *)
Definition outgoing (query : bytes) (id : Z) : run bytes :=
  let* o := index_set query 0 (wrapping 8 (Z.shiftr id 8)) in
  index_set o 1 (wrapping 8 id).

(** Nothing, or the channel that was woken with what it was sent. *)
Definition deliver (answer : bytes) (r : Resolver) : run (option (nat * bytes) * Resolver) :=
  if len answer <? 12 then Val (None, r) else
  let* flags := index answer 2 in
  if Z.land flags 0x80 =? 0 then Val (None, r) else
  let* id := index_u16 answer 0 in
  match waiting r !! id with
  | None => Val (None, r)
  | Some pending =>
      let* ok := answers_the_question answer (p_question pending) in
      if negb ok then Val (None, r)
      else
        let r := set_waiting (delete id (waiting r)) r in
        let* answer := index_set answer 0 (original_id pending).1 in
        let* answer := index_set answer 1 (original_id pending).2 in
        Val (Some (p_reply pending, answer), r)
  end.

Definition drop_guard (g : PendingGuard) (r : Resolver) : Resolver :=
  match waiting r !! g_id g with
  | Some pending =>
      if p_token pending =? g_token g then set_waiting (delete (g_id g) (waiting r)) r else r
  | None => r
  end.

(** ** The tasks *)

Definition with_resolver (r : Resolver) (w : World) : World :=
  {| resolver := r; inbox := inbox w; guards := guards w; asked := asked w; made := made w |}.

(** [Resolver::query] up to the wait; too short a query is refused before. *)
Definition start_query (fuel : nat) (query : bytes) (w : World) : run (option (PendingGuard * bytes) * World) :=
  if len query <? 12 then Val (None, w) else
  let* '(g, r) := register fuel query (made w) (resolver w) in
  let* out := outgoing query (g_id g) in
  Val (Some (g, out),
       {| resolver := r; inbox := inbox w; guards := <[made w := g]> (guards w);
          asked := <[made w := query]> (asked w); made := S (made w) |}).

(** The end of [Resolver::query], whatever ends it: the answer that is there, if
    any, and the guard dropped. *)
Definition end_query (c : nat) (w : World) : option bytes * World :=
  match guards w !! c with
  | None => (None, w)
  | Some g =>
      (inbox w !! c,
       {| resolver := drop_guard g (resolver w); inbox := inbox w; guards := delete c (guards w);
          asked := asked w; made := made w |})
  end.

(** A datagram read by the reader; only the server's own are handed on. *)
Definition receive (from_server : bool) (answer : bytes) (w : World) : run World :=
  if negb from_server then Val w else
  let* '(sent, r) := deliver answer (resolver w) in
  let w := with_resolver r w in
  match sent with
  | None => Val w
  | Some (c, a) =>
      Val {| resolver := resolver w; inbox := <[c := a]> (inbox w); guards := guards w;
             asked := asked w; made := made w |}
  end.

Inductive world_step (w : World) : World -> Prop :=
| step_start fuel query r w' :
    bytes_ok query -> start_query fuel query w = Val (r, w') -> world_step w w'
| step_end c : world_step w (end_query c w).2
| step_receive from_server answer w' :
    bytes_ok answer -> receive from_server answer w = Val w' -> world_step w w'.

(** ** Asking the chain of resolvers

    What becomes of a query to one resolver: it cannot be sent, nothing comes
    back, or an answer after a while. *)
Inductive reply : Type :=
| SendFails
| Silent
| Answers (after : Z) (answer : bytes).

(** The wait for one resolver: its answer if it came in time, and the time spent. *)
Definition ask (per_server : Z) (r : reply) : option bytes * Z :=
  match r with
  | SendFails => (None, 0)
  | Silent => (None, per_server)
  | Answers after answer => if after <=? per_server then (Some answer, after) else (None, per_server)
  end.

Fixpoint ask_in_order (per_server : Z) (rs : list reply) (elapsed : Z) : option bytes * Z :=
  match rs with
  | [] => (None, elapsed)
  | r :: rest =>
      let '(answer, spent) := ask per_server r in
      match answer with
      | Some a => (Some a, elapsed + spent)
      | None => ask_in_order per_server rest (elapsed + spent)
      end
  end.

(** The answer and the time the caller waited. *)
Definition forward (per_server overall : Z) (rs : list reply) : option bytes * Z :=
  match rs with
  | [] => (None, 0)
  | _ =>
      let '(answer, at_) := ask_in_order per_server rs 0 in
      if at_ <=? overall then (answer, at_) else (None, overall)
  end.

Definition PER_SERVER_TIMEOUT : Z := 800 * 10 ^ 6.
Definition OVERALL_TIMEOUT : Z := 3 * 10 ^ 9.

(** [sort_by_key] is stable: the IPv4 servers first, each family in its order. *)
Definition ipv4_first {A} (is_ipv4 : A -> bool) (servers : list A) : list A :=
  filter (fun s => is_ipv4 s = true) servers ++ filter (fun s => is_ipv4 s = false) servers.

Fixpoint join_commas (l : list bytes) : bytes :=
  match l with
  | [] => []
  | [x] => x
  | x :: rest => x ++ 44 :: join_commas rest
  end.
Definition resolver_scope {A} (show : A -> bytes) (servers : list A) : bytes := join_commas (show <$> servers).

(** ** The loop of [register] *)

(** Every ID is tried once in this many turns. *)
Definition all_ids : nat := Z.to_nat (2 ^ 16).

Lemma all_ids_Z : Z.of_nat all_ids = 2 ^ 16.
Proof. unfold all_ids. rewrite Z2Nat.id by lia. done. Qed.

Lemma wrapping_succ next k : wrapping 16 (wrapping 16 (next + 1) + k) = wrapping 16 (next + (1 + k)).
Proof. unfold wrapping. rewrite Z.add_mod_idemp_l by lia. f_equal. lia. Qed.

Lemma free_id_Val fuel m next id next' :
  is_u16 next -> free_id fuel m next = Val (id, next') -> is_u16 id /\ is_u16 next' /\ m !! id = None.
Proof.
  revert next. induction fuel as [|fuel IH]; intros next Hn; cbn [free_id]; [done|].
  destruct (m !! next) eqn:E; [apply IH, wrapping_range; lia|].
  intros [= <- <-]. split; [done|]. split; [apply wrapping_range; lia|done].
Qed.

Lemma free_id_finds fuel m next k :
  is_u16 next -> 0 <= k < Z.of_nat fuel -> m !! wrapping 16 (next + k) = None ->
  exists r, free_id fuel m next = Val r.
Proof.
  revert next k. induction fuel as [|fuel IH]; intros next k Hn Hk Hm; [lia|]. cbn [free_id].
  destruct (m !! next) eqn:E; [|eauto].
  assert (k <> 0) by (intros ->; rewrite Z.add_0_r, wrapping_small in Hm by done; congruence).
  apply (IH _ (k - 1)); [apply wrapping_range; lia|lia|]. rewrite wrapping_succ.
  by replace (1 + (k - 1)) with k by lia.
Qed.

Lemma free_id_spins fuel m next :
  is_u16 next -> (forall id, is_u16 id -> is_Some (m !! id)) -> free_id fuel m next = Spins.
Proof.
  intros Hn Hall. revert next Hn. induction fuel as [|fuel IH]; intros next Hn; [done|]. cbn [free_id].
  destruct (Hall next Hn) as [p ->]. apply IH, wrapping_range. lia.
Qed.

Definition ids : gset Z := list_to_set (seqZ 0 (2 ^ 16)).

Lemma elem_of_ids id : id ∈ ids <-> is_u16 id.
Proof. unfold ids, is_uint. rewrite elem_of_list_to_set, elem_of_seqZ. lia. Qed.

Lemma size_ids : Z.of_nat (size ids) = 2 ^ 16.
Proof. unfold ids. rewrite size_list_to_set by apply NoDup_seqZ. rewrite length_seqZ. lia. Qed.

#[local] Opaque ids all_ids.

(** With fewer than all IDs out, one is free; otherwise none is. *)
Lemma free_id_exists {A} (m : gmap Z A) :
  Z.of_nat (size m) < 2 ^ 16 -> exists id, is_u16 id /\ m !! id = None.
Proof.
  intros Hs. destruct (decide (set_Forall (fun id => is_Some (m !! id)) ids)) as [Hall|Hno].
  - exfalso. assert (ids ⊆ dom m) as Hsub.
    { intros id Hid. apply elem_of_dom. by apply Hall. }
    apply subseteq_size in Hsub. rewrite size_dom in Hsub. pose proof size_ids. lia.
  - apply not_set_Forall_Exists in Hno; [|apply _]. destruct Hno as (id & Hid & Hn). exists id.
    apply elem_of_ids in Hid. split; [done|]. by apply eq_None_not_Some.
Qed.

Lemma all_ids_out {A} (m : gmap Z A) :
  (forall id, is_Some (m !! id) -> is_u16 id) -> 2 ^ 16 <= Z.of_nat (size m) ->
  forall id, is_u16 id -> is_Some (m !! id).
Proof.
  intros Hk Hs id Hid. apply elem_of_dom.
  assert (dom m ⊆ ids) as Hsub by (intros j Hj; apply elem_of_ids, Hk; by apply elem_of_dom).
  apply elem_of_ids in Hid. assert (dom m ≡ ids) as E; [|by rewrite E].
  apply set_subseteq_size_equiv; [done|]. rewrite size_dom. pose proof size_ids. lia.
Qed.

(** ** The invariant of the tasks *)

Record world_ok (w : World) : Prop := {
  w_next : is_u16 (next_id (resolver w));
  w_token : next_token (resolver w) = Z.of_nat (made w);
  (* an entry is a live query that has no answer yet *)
  w_entry id p : waiting (resolver w) !! id = Some p ->
    is_u16 id /\ guards w !! p_reply p = Some {| g_id := id; g_token := p_token p |} /\
    asked w !! p_reply p = Some (p_question p) /\ inbox w !! p_reply p = None /\
    exists rest, p_question p = (original_id p).1 :: (original_id p).2 :: rest;
  (* a live query that has no answer has its entry *)
  w_guard c g : guards w !! c = Some g ->
    g_token g = Z.of_nat c /\ (c < made w)%nat /\
    (inbox w !! c = None -> exists p, waiting (resolver w) !! g_id g = Some p /\ p_reply p = c);
  w_inbox c a : inbox w !! c = Some a ->
    (c < made w)%nat /\
    exists q, asked w !! c = Some q /\ take 2 a = take 2 q /\ answers_the_question a q = Val true;
  w_asked c q : asked w !! c = Some q -> (c < made w)%nat /\ bytes_ok q;
}.

Lemma world_new_ok : world_ok world_new.
Proof. split; cbn; try done; intros *; rewrite ?lookup_empty; done. Qed.

(** ** The ID is no part of the question *)

Lemma index_tail {A} (x y x' y' : A) t i : 2 <= i -> index (x :: y :: t) i = index (x' :: y' :: t) i.
Proof.
  intros Hi. unfold index. replace (Z.to_nat i) with (S (S (Z.to_nat (i - 2)))) by lia. done.
Qed.

Lemma slice_tail {A} (x y x' y' : A) t a b : 2 <= a -> slice (x :: y :: t) a b = slice (x' :: y' :: t) a b.
Proof.
  intros Ha. unfold slice. replace (Z.to_nat a) with (S (S (Z.to_nat (a - 2)))) by lia. done.
Qed.

Lemma question_name_tail fuel x y x' y' t o :
  2 <= o -> bytes_ok t -> question_name fuel (x :: y :: t) o = question_name fuel (x' :: y' :: t) o.
Proof.
  intros Ho Ht. revert o Ho. induction fuel as [|fuel IH]; intros o Ho; [done|]. cbn [question_name].
  assert (get (x :: y :: t) o = get (x' :: y' :: t) o) as <-.
  { unfold get. replace (Z.to_nat o) with (S (S (Z.to_nat (o - 2)))) by lia. done. }
  destruct (get (x :: y :: t) o) as [l|] eqn:E; [|done].
  assert (is_u8 l) as Hl.
  { unfold get in E. replace (Z.to_nat o) with (S (S (Z.to_nat (o - 2)))) in E by lia. cbn in E.
    by eapply Forall_lookup_1. }
  unfold is_uint in Hl. change (len (x' :: y' :: t)) with (len (x :: y :: t)).
  rewrite IH by lia. done.
Qed.

Lemma question_of_tail x y x' y' t : bytes_ok t -> question_of (x :: y :: t) = question_of (x' :: y' :: t).
Proof.
  intros Ht. unfold question_of, index_u16. change (len (x' :: y' :: t)) with (len (x :: y :: t)).
  rewrite !(index_tail x y x' y') by lia. rewrite (question_name_tail _ x y x' y') by (lia || done).
  change (length (x' :: y' :: t)) with (length (x :: y :: t)).
  pose proof (question_name_total (S (length (x :: y :: t))) (0 :: 0 :: t) 12) as Hq.
  rewrite (question_name_tail _ 0 0 x' y') in Hq by (lia || done).
  destruct Hq as (r & -> & Hr); [by repeat constructor|lia|unfold len; cbn; lia|lia|].
  destruct r as [e|]; [|done]. specialize (Hr e eq_refl).
  rewrite !(slice_tail x y x' y') by lia. done.
Qed.

Lemma answers_tail x y x' y' t q :
  bytes_ok t -> answers_the_question (x :: y :: t) q = answers_the_question (x' :: y' :: t) q.
Proof.
  intros Ht. unfold answers_the_question. change (len (x' :: y' :: t)) with (len (x :: y :: t)).
  by rewrite (index_tail x y x' y'), (question_of_tail x y x' y') by (lia || done).
Qed.

(** ** What [deliver] does *)

(** The datagram is a response under the ID [id] that answers [q]. *)
Definition matches (answer : bytes) (id : Z) (q : bytes) : Prop :=
  12 <= len answer /\ index_u16 answer 0 = Val id /\ answers_the_question answer q = Val true.

Lemma two_bytes (s : bytes) : 2 <= len s -> exists h l t, s = h :: l :: t.
Proof. unfold len. destruct s as [|h [|l t]]; cbn; [lia..|eauto]. Qed.

Lemma answers_is_response answer q : answers_the_question answer q = Val true ->
  exists f, index answer 2 = Val f /\ Z.land f 0x80 <> 0.
Proof.
  unfold answers_the_question. destruct (_ <? _); [done|]. destruct (index answer 2) as [f| |]; try done.
  destruct (Z.land f 0x80 =? 0) eqn:E; [done|]. bools. eauto.
Qed.

Lemma deliver_wakes h l t r p :
  waiting r !! from_be_bytes [h; l] = Some p -> 12 <= len (h :: l :: t) ->
  answers_the_question (h :: l :: t) (p_question p) = Val true ->
  deliver (h :: l :: t) r =
  Val (Some (p_reply p, (original_id p).1 :: (original_id p).2 :: t),
       set_waiting (delete (from_be_bytes [h; l]) (waiting r)) r).
Proof.
  intros Hp Hl Ha. unfold deliver. rewrite (proj2 (Z.ltb_ge _ _)) by lia.
  destruct (answers_is_response _ _ Ha) as (f & -> & Hf). rewrite (proj2 (Z.eqb_neq _ _)) by done.
  change (index_u16 (h :: l :: t) 0) with (Val (from_be_bytes [h; l])). cbv iota beta. rewrite Hp, Ha. cbn [negb].
  by rewrite set_byte_0, set_byte_1.
Qed.

Lemma deliver_ignores answer r :
  bytes_ok answer -> (forall id p, waiting r !! id = Some p -> bytes_ok (p_question p)) ->
  (forall id p, waiting r !! id = Some p -> ~ matches answer id (p_question p)) ->
  deliver answer r = Val (None, r).
Proof.
  intros Hok Hqs Hno. unfold deliver. destruct (len answer <? 12) eqn:E; [done|]. bools.
  destruct (index_inside answer 2) as [f ->]; [lia|]. destruct (_ =? 0); [done|].
  destruct (index_u16_inside answer 0) as [id Eid]; [lia..|]. rewrite Eid.
  destruct (waiting r !! id) as [p|] eqn:Ep; [|done].
  destruct (answers_the_question_ends answer (p_question p) Hok (Hqs _ _ Ep)) as [b Eb]. rewrite Eb.
  destruct b; [|done]. exfalso. apply (Hno id p Ep). done.
Qed.

(** Either nothing happens, or the query that waits under the ID is woken. *)
Lemma deliver_inv answer r sent r' :
  deliver answer r = Val (sent, r') ->
  (sent = None /\ r' = r) \/
  exists h l t p, answer = h :: l :: t /\ 12 <= len answer /\ waiting r !! from_be_bytes [h; l] = Some p /\
    answers_the_question answer (p_question p) = Val true /\
    sent = Some (p_reply p, (original_id p).1 :: (original_id p).2 :: t) /\
    r' = set_waiting (delete (from_be_bytes [h; l]) (waiting r)) r.
Proof.
  intros H. pose proof H as H0. unfold deliver in H. destruct (len answer <? 12) eqn:E; [left; by simplify_eq|]. bools.
  destruct (index answer 2) as [f| |] eqn:Ef; try done. destruct (_ =? 0); [left; by simplify_eq|].
  destruct (two_bytes answer) as (h & l & t & ->); [lia|].
  change (index_u16 (h :: l :: t) 0) with (Val (from_be_bytes [h; l])) in H. cbv iota beta in H.
  destruct (waiting r !! from_be_bytes [h; l]) as [p|] eqn:Ep; [|left; by simplify_eq].
  destruct (answers_the_question _ (p_question p)) as [[]| |] eqn:Ea; try done; [|left; cbn [negb] in H; by simplify_eq].
  right. exists h, l, t, p. rewrite (deliver_wakes h l t r p Ep E Ea) in H0. by simplify_eq.
Qed.

(** ** Every step keeps the invariant *)

Lemma drop_guard_token g r :
  next_id (drop_guard g r) = next_id r /\ next_token (drop_guard g r) = next_token r.
Proof. unfold drop_guard. by repeat case_match. Qed.

(** Dropping the guard of query [c] takes out that query's own entry and no other. *)
Lemma drop_guard_waiting w c g id p :
  world_ok w -> guards w !! c = Some g ->
  waiting (drop_guard g (resolver w)) !! id = Some p <->
  waiting (resolver w) !! id = Some p /\ p_reply p <> c.
Proof.
  intros Hw Hg. destruct (w_guard w Hw c g Hg) as (Ht & _ & _). unfold drop_guard.
  assert (forall p, waiting (resolver w) !! g_id g = Some p -> p_token p = g_token g -> p_reply p = c) as Hown.
  { intros q Hq Etok. destruct (w_entry w Hw _ _ Hq) as (_ & Hgq & _).
    destruct (w_guard w Hw _ _ Hgq) as (Ht' & _). cbn in Ht'. lia. }
  assert (forall p, waiting (resolver w) !! id = Some p -> p_reply p = c -> id = g_id g /\ p_token p = g_token g) as Hsame.
  { intros q Hq <-. destruct (w_entry w Hw _ _ Hq) as (_ & Hgq & _). rewrite Hgq in Hg. by simplify_eq. }
  destruct (waiting (resolver w) !! g_id g) as [q|] eqn:Eq; [destruct (p_token q =? g_token g) eqn:Et; bools|];
    cbn [set_waiting waiting].
  - rewrite lookup_delete_Some. split; intros [H1 H2]; split; try done.
    + intros Hc. destruct (Hsame p H2 Hc). congruence.
    + intros <-. rewrite Eq in H1. injection H1 as <-. apply H2. by apply Hown.
  - split; [|tauto]. intros H. split; [done|]. intros Hc. destruct (Hsame p H Hc) as [-> ?]. congruence.
  - split; [|tauto]. intros H. split; [done|]. intros Hc. destruct (Hsame p H Hc) as [-> ?]. congruence.
Qed.

Lemma end_query_ok c w : world_ok w -> world_ok (end_query c w).2.
Proof.
  intros Hw. unfold end_query. destruct (guards w !! c) as [g|] eqn:Hg; [|done]. cbn [snd].
  destruct (drop_guard_token g (resolver w)) as [En Et].
  pose proof (fun id p => drop_guard_waiting w c g id p Hw Hg) as Hd.
  split; cbn [resolver inbox guards asked made]; rewrite ?En, ?Et; try apply Hw.
  - intros id p Hp. apply Hd in Hp as [Hp Hne]. destruct (w_entry w Hw _ _ Hp) as (? & ? & ? & ? & ?).
    split_and!; try done. by rewrite lookup_delete_ne.
  - intros c' g' Hg'. apply lookup_delete_Some in Hg' as [Hne Hg'].
    destruct (w_guard w Hw _ _ Hg') as (? & ? & Hex). split_and!; try done.
    intros Hi. destruct (Hex Hi) as (p & Hp & <-). exists p. split; [|done]. apply Hd. done.
Qed.

Lemma receive_ok from answer w w' :
  bytes_ok answer -> receive from answer w = Val w' -> world_ok w -> world_ok w'.
Proof.
  intros Hok H Hw. unfold receive in H. destruct from; cbn [negb] in H; [|by simplify_eq].
  destruct (deliver answer (resolver w)) as [[sent r']| |] eqn:Ed; try done.
  apply deliver_inv in Ed as [[-> ->]|(h & l & t & p & -> & _ & Hp & Ha & -> & ->)];
    injection H as <-; [by destruct w|].
  destruct (w_entry w Hw _ _ Hp) as (Hid & Hg & Hq & Hin & rest & Erest).
  destruct (w_guard w Hw _ _ Hg) as (Etok & Hlt & _). apply Forall_cons in Hok as [_ Hok].
  apply Forall_cons in Hok as [_ Ht].
  split; cbn [resolver inbox guards asked made with_resolver set_waiting waiting next_id next_token]; try apply Hw.
  - intros id p' Hp'. apply lookup_delete_Some in Hp' as [Hne Hp'].
    destruct (w_entry w Hw _ _ Hp') as (? & Hg' & ? & ? & ?). split_and!; try done.
    rewrite lookup_insert_ne; [done|]. intros E. rewrite E in Hg. rewrite Hg' in Hg. by simplify_eq.
  - intros c' g' Hg'. destruct (w_guard w Hw _ _ Hg') as (? & ? & Hex). split_and!; try done.
    intros Hi. apply lookup_insert_None in Hi as [Hi Hne]. destruct (Hex Hi) as (p' & Hp' & <-).
    exists p'. split; [|done]. rewrite lookup_delete_ne; [done|]. intros E. rewrite E in Hp. congruence.
  - intros c a Hc. apply lookup_insert_Some in Hc as [[<- <-]|[_ Hc]]; [|by apply Hw].
    split; [done|]. exists (p_question p). split; [done|]. split; [by rewrite Erest|].
    by rewrite (answers_tail _ _ h l).
Qed.

Lemma start_query_inv fuel query w r w' :
  start_query fuel query w = Val (r, w') ->
  w' = w \/
  exists id next q0 q1 rest, free_id fuel (waiting (resolver w)) (next_id (resolver w)) = Val (id, next) /\
    query = q0 :: q1 :: rest /\
    w' = {| resolver := {| waiting := <[id := {| original_id := (q0, q1); p_question := query;
                                                  p_token := next_token (resolver w); p_reply := made w |}]>
                                        (waiting (resolver w));
                           next_id := next; next_token := wrapping 64 (next_token (resolver w) + 1) |};
            inbox := inbox w;
            guards := <[made w := {| g_id := id; g_token := next_token (resolver w) |}]> (guards w);
            asked := <[made w := query]> (asked w); made := S (made w) |}.
Proof.
  unfold start_query, register. intros H. destruct (len query <? 12) eqn:E; [left; by simplify_eq|]. bools.
  destruct (two_bytes query) as (q0 & q1 & rest & ->); [lia|].
  destruct (free_id _ _ _) as [[id next]| |]; try done. cbn [index lookup list_lookup] in H.
  change (index (q0 :: q1 :: rest) 0) with (Val q0) in H. change (index (q0 :: q1 :: rest) 1) with (Val q1) in H.
  cbv iota beta in H. cbn [g_id] in H. destruct (outgoing _ _) as [o| |]; try done. simplify_eq. right.
  exists id, next, q0, q1, rest. done.
Qed.

Lemma start_query_ok fuel query r w w' :
  bytes_ok query -> start_query fuel query w = Val (r, w') -> Z.of_nat (made w') < 2 ^ 64 -> world_ok w -> world_ok w'.
Proof.
  intros Hok H Hm Hw. apply start_query_inv in H as [->|(id & next & q0 & q1 & rest & Hf & Hq & ->)]; [done|].
  destruct (free_id_Val _ _ _ _ _ (w_next w Hw) Hf) as (Hid & Hnext & Hfree). cbn [made] in Hm.
  pose proof (w_token w Hw) as Etok.
  assert (forall c g, guards w !! c = Some g -> c <> made w) as Hold
    by (intros c g Hg; destruct (w_guard w Hw c g Hg) as (_ & ? & _); lia).
  split; cbn [resolver inbox guards asked made waiting next_id next_token].
  - done.
  - rewrite Etok, wrapping_small by (unfold is_uint; lia). lia.
  - intros j p Hp. apply lookup_insert_Some in Hp as [[<- <-]|[Hne Hp]].
    + cbn [p_reply p_token p_question original_id fst snd]. rewrite !lookup_insert_eq. split_and!; try done.
      * apply eq_None_not_Some. intros [a Ha]. apply (w_inbox w Hw) in Ha as [? _]. lia.
      * eauto.
    + destruct (w_entry w Hw _ _ Hp) as (? & Hg & ? & ? & ?). pose proof (Hold _ _ Hg).
      rewrite !lookup_insert_ne by congruence. done.
  - intros c g Hg. apply lookup_insert_Some in Hg as [[<- <-]|[Hne Hg]].
    + cbn [g_token g_id]. split_and!; [done|lia|]. intros _. rewrite lookup_insert_eq. eauto.
    + destruct (w_guard w Hw _ _ Hg) as (? & ? & Hex). split_and!; [done|lia|].
      intros Hi. destruct (Hex Hi) as (p & Hp & <-). exists p. split; [|done].
      rewrite lookup_insert_ne; [done|]. congruence.
  - intros c a Ha. destruct (w_inbox w Hw _ _ Ha) as (? & q & Hc & ?). split; [lia|].
    exists q. split; [|done]. rewrite lookup_insert_ne by lia. done.
  - intros c q Hc. apply lookup_insert_Some in Hc as [[<- <-]|[_ Hc]]; [split; [lia|done]|].
    apply (w_asked w Hw) in Hc as [? ?]. split; [lia|done].
Qed.

Lemma step_made w w' : world_step w w' -> (made w <= made w')%nat.
Proof.
  intros [fuel query r w1 _ H|c|from answer w1 _ H].
  - apply start_query_inv in H as [->|(id & next & q0 & q1 & rest & _ & _ & ->)]; cbn [made]; lia.
  - unfold end_query. by destruct (guards w !! c).
  - unfold receive in H. destruct from; cbn [negb] in H; [|by simplify_eq].
    destruct (deliver _ _) as [[[[c a]|] r]| |]; try done; by simplify_eq.
Qed.

Lemma step_ok w w' : world_step w w' -> Z.of_nat (made w') < 2 ^ 64 -> world_ok w -> world_ok w'.
Proof.
  intros [fuel query r w1 Hok H|c|from answer w1 Hok H] Hm Hw.
  - by eapply start_query_ok.
  - by apply end_query_ok.
  - by eapply receive_ok.
Qed.

Lemma steps_made w w' : rtc world_step w w' -> (made w <= made w')%nat.
Proof. induction 1 as [|??? H _ IH]; [done|]. apply step_made in H. lia. Qed.

Lemma steps_ok w w' :
  rtc world_step w w' -> Z.of_nat (made w') < 2 ^ 64 -> world_ok w -> world_ok w'.
Proof.
  intros Hs Hm. induction Hs as [w|w w1 w2 H Hr IH]; [done|]. intros Hw. apply IH; [done|].
  apply steps_made in Hr. eapply step_ok; [done|lia|done].
Qed.

(** Answers reach the query they belong to.  In every interleaving of queries
    starting, ending (answered, timed out or cancelled) and datagrams arriving,
    what a query receives answers the question that query asked and carries the
    ID it came with; a query that is alive and unanswered still has its entry in
    the table, whatever other queries were dropped in the meantime; and every
    entry of the table is such a query, so nothing is left behind by one that
    ended. *)
Theorem resolver_demux w :
  rtc world_step world_new w -> Z.of_nat (made w) < 2 ^ 64 ->
  (forall c a, inbox w !! c = Some a ->
     exists q, asked w !! c = Some q /\ take 2 a = take 2 q /\ answers_the_question a q = Val true) /\
  (forall c g, guards w !! c = Some g -> inbox w !! c = None ->
     exists p, waiting (resolver w) !! g_id g = Some p /\ p_reply p = c) /\
  (forall id p, waiting (resolver w) !! id = Some p ->
     exists g, guards w !! p_reply p = Some g /\ g_id g = id /\ inbox w !! p_reply p = None).
Proof.
  intros Hr Hm. pose proof (steps_ok _ _ Hr Hm world_new_ok) as Hw. split_and!.
  - intros c a Ha. by destruct (w_inbox w Hw c a Ha) as [_ ?].
  - intros c g Hg Hi. destruct (w_guard w Hw c g Hg) as (_ & _ & Hex). auto.
  - intros id p Hp. destruct (w_entry w Hw id p Hp) as (_ & Hg & _ & Hi & _). eauto.
Qed.

(** A datagram wakes the query it answers and does nothing else.  Under the ID
    a live, unanswered query went out with, a response to its question is handed
    to it with the first two bytes replaced by the query's own, and it alone is
    removed from the table; a datagram that matches no waiting query (a forged
    question, an ID nobody waits on, a query instead of a response, from another
    server) changes nothing, and no datagram makes the reader panic. *)
Theorem datagram_exact w answer :
  rtc world_step world_new w -> Z.of_nat (made w) < 2 ^ 64 -> bytes_ok answer ->
  receive false answer w = Val w /\
  (forall c g q, guards w !! c = Some g -> inbox w !! c = None -> asked w !! c = Some q ->
     matches answer (g_id g) q ->
     receive true answer w =
     Val {| resolver := set_waiting (delete (g_id g) (waiting (resolver w))) (resolver w);
            inbox := <[c := take 2 q ++ drop 2 answer]> (inbox w);
            guards := guards w; asked := asked w; made := made w |}) /\
  ((forall c g q, guards w !! c = Some g -> inbox w !! c = None -> asked w !! c = Some q ->
      ~ matches answer (g_id g) q) -> receive true answer w = Val w).
Proof.
  intros Hr Hm Hok. pose proof (steps_ok _ _ Hr Hm world_new_ok) as Hw. split_and!; [done| |].
  - intros c g q Hg Hi Hq (Hlen & Hid & Ha). destruct (w_guard w Hw c g Hg) as (_ & _ & Hex).
    destruct (Hex Hi) as (p & Hp & <-). destruct (w_entry w Hw _ _ Hp) as (_ & _ & Hq' & _ & rest & Er).
    rewrite Hq in Hq'. injection Hq' as ->. destruct (two_bytes answer) as (h & l & t & ->); [lia|].
    assert (g_id g = from_be_bytes [h; l]) as Eid
      by (change (index_u16 (h :: l :: t) 0) with (Val (from_be_bytes [h; l])) in Hid; congruence).
    unfold receive. cbn [negb]. rewrite Eid in Hp.
    rewrite (deliver_wakes h l t _ p Hp Hlen Ha). rewrite Eid, Er. done.
  - intros Hno. unfold receive. cbn [negb]. rewrite deliver_ignores; [by destruct w|done| |].
    { intros id p Hp. destruct (w_entry w Hw _ _ Hp) as (_ & _ & Hq & _). by apply (w_asked w Hw) in Hq as [_ ?]. }
    intros id p Hp Hmt. destruct (w_entry w Hw _ _ Hp) as (_ & Hg & Hq & Hi & _).
    by apply (Hno _ _ _ Hg Hi Hq).
Qed.

(** The loop that looks for a free ID ends exactly when one is free: with fewer
    than 65536 queries waiting, 65536 turns find an ID that nobody waits on, and
    the query goes out under it with nothing but the first two bytes changed;
    with all of them waiting, no number of turns is enough, and [register] holds
    the lock the readers need. *)
Theorem register_ends_iff_id_free w query :
  rtc world_step world_new w -> Z.of_nat (made w) < 2 ^ 64 -> 12 <= len query ->
  (Z.of_nat (size (waiting (resolver w))) < 2 ^ 16 ->
     exists g out w', start_query all_ids query w = Val (Some (g, out), w') /\
       is_u16 (g_id g) /\ waiting (resolver w) !! g_id g = None /\
       out = be16z (g_id g) ++ drop 2 query) /\
  (2 ^ 16 <= Z.of_nat (size (waiting (resolver w))) ->
     forall fuel, start_query fuel query w = Spins).
Proof.
  intros Hr Hm Hl. pose proof (steps_ok _ _ Hr Hm world_new_ok) as Hw.
  unfold start_query, register. rewrite (proj2 (Z.ltb_ge _ _)) by lia. split.
  - intros Hs. destruct (free_id_exists _ Hs) as (id & Hid & Hfree).
    destruct (free_id_finds all_ids (waiting (resolver w)) (next_id (resolver w))
      (wrapping 16 (id - next_id (resolver w)))) as [[j next] E].
    + apply Hw.
    + rewrite all_ids_Z. apply wrapping_range. lia.
    + unfold wrapping. rewrite Z.add_mod_idemp_r by lia.
      replace (next_id (resolver w) + (id - next_id (resolver w))) with id by lia.
      by rewrite Z.mod_small by apply Hid.
    + rewrite E. destruct (free_id_Val _ _ _ _ _ (w_next w Hw) E) as (Hj & _ & Hjf).
      destruct (two_bytes query) as (q0 & q1 & rest & ->); [lia|].
      change (index (q0 :: q1 :: rest) 0) with (Val q0). change (index (q0 :: q1 :: rest) 1) with (Val q1).
      cbv iota beta. cbn [g_id]. unfold outgoing. rewrite set_byte_0, set_byte_1.
      eexists _, _, _. split; [done|]. cbn [g_id]. split; [done|]. split; [done|].
      unfold be16z. rewrite to_be_bytes_2 by done. cbn [app drop].
      unfold is_uint in Hj. do 2 f_equal.
      rewrite Z.shiftr_div_pow2 by lia. change (2 ^ 8) with 256. unfold wrapping. apply Z.mod_small.
      split; [apply Z.div_pos; lia|apply Z.div_lt_upper_bound; lia].
  - intros Hs fuel. rewrite free_id_spins; [done|apply Hw|].
    apply all_ids_out; [|done]. intros id [p Hp]. by destruct (w_entry w Hw _ _ Hp).
Qed.

(** ** Witnesses: one query for [example.com], and its answer *)

Definition sample_query : bytes :=
  wire_query 0x1234 [1; 0] (repeat 0 6) 1 [lit "example"; lit "com"] 1 1 [].
Definition sample_answer : bytes :=
  wire_query 0 answer_flags (repeat 0 6) 1 [lit "example"; lit "com"] 1 1 [].
Definition sample_world : World :=
  {| resolver := {| waiting := {[ 0 := {| original_id := (0x12, 0x34); p_question := sample_query;
                                         p_token := 0; p_reply := 0%nat |} ]};
                    next_id := 1; next_token := 1 |};
     inbox := ∅; guards := {[ 0%nat := {| g_id := 0; g_token := 0 |} ]};
     asked := {[ 0%nat := sample_query ]}; made := 1 |}.

Lemma sample_query_ok : bytes_ok sample_query /\ bytes_ok sample_answer.
Proof. split; apply (bool_decide_unpack _); vm_compute; exact I. Qed.

Lemma sample_world_reachable : rtc world_step world_new sample_world.
Proof.
  apply rtc_once. eapply (step_start world_new 1 sample_query); [apply sample_query_ok|].
  vm_compute. reflexivity.
Qed.

Lemma resolver_demux_witness :
  exists p, waiting (resolver sample_world) !! 0 = Some p /\ p_reply p = 0%nat.
Proof.
  destruct (resolver_demux sample_world sample_world_reachable ltac:(vm_compute; reflexivity)) as (_ & H & _).
  exact (H 0%nat {| g_id := 0; g_token := 0 |} eq_refl eq_refl).
Defined.


Lemma register_ends_iff_id_free_witness :
  exists g out w', start_query all_ids sample_query sample_world = Val (Some (g, out), w') /\
    waiting (resolver sample_world) !! g_id g = None.
Proof.
  assert (Z.of_nat (made sample_world) < 2 ^ 64) as Hm by (vm_compute; reflexivity).
  assert (12 <= len sample_query) as Hl by (vm_compute; congruence).
  assert (Z.of_nat (size (waiting (resolver sample_world))) < 2 ^ 16) as Hs by (vm_compute; reflexivity).
  pose proof (register_ends_iff_id_free sample_world sample_query sample_world_reachable Hm Hl) as [H _].
  destruct (H Hs) as (g & out & w' & E & _ & Hf & _).
  exists g, out, w'. split; [exact E|exact Hf].
Defined.

(** ** The chain *)

Lemma ask_spent per r : 0 <= per -> (forall a x, r = Answers a x -> 0 <= a) -> 0 <= (ask per r).2 <= per.
Proof. intros Hp Hr. destruct r as [| |a x]; cbn; try lia. specialize (Hr a x eq_refl). case_match; cbn; bools; lia. Qed.

Definition gives_none (per_server : Z) (r : reply) : Prop := (ask per_server r).1 = None.
Definition reply_ok (r : reply) : Prop := match r with Answers a _ => 0 <= a | _ => True end.

Lemma ask_in_order_first per pre after answer post elapsed :
  0 <= per -> Forall reply_ok pre -> Forall (gives_none per) pre -> 0 <= after <= per ->
  exists t, ask_in_order per (pre ++ Answers after answer :: post) elapsed = (Some answer, t) /\
            elapsed + after <= t <= elapsed + len pre * per + after.
Proof.
  intros Hp Hok Hnone Ha. revert elapsed. induction pre as [|r pre IH]; intros elapsed.
  - cbn. rewrite (proj2 (Z.leb_le _ _)) by lia. eexists. split; [done|]. unfold len. cbn. lia.
  - apply Forall_cons in Hok as [Hr Hok]. apply Forall_cons in Hnone as [Hn Hnone].
    cbn [app ask_in_order]. pose proof (ask_spent per r Hp) as Hs. unfold gives_none in Hn.
    destruct (ask per r) as [a s] eqn:E. cbn [fst snd] in *. subst a.
    destruct (IH Hok Hnone (elapsed + s)) as (t & -> & Ht).
    eexists. split; [done|]. rewrite len_cons.
    assert (0 <= s <= per) by (apply Hs; intros a x ->; exact Hr). lia.
Qed.

(** The chain of resolvers.  The caller never waits longer than the whole
    budget, and the answer it gets is that of the first resolver that answers
    within its own window: the ones before it, dead, slow or unreachable, cost at
    most one window each. *)
Theorem forward_first_answer per_server overall pre after answer post :
  0 <= per_server -> 0 <= overall -> Forall reply_ok pre -> Forall (gives_none per_server) pre ->
  0 <= after <= per_server -> len pre * per_server + after <= overall ->
  (forall rs, (forward per_server overall rs).2 <= overall) /\
  (forward per_server overall (pre ++ Answers after answer :: post)).1 = Some answer.
Proof.
  intros Hp Ho Hok Hnone Ha Hbudget. split.
  - intros rs. unfold forward. destruct rs; [cbn; lia|]. destruct (ask_in_order _ _ _) as [a t].
    destruct (t <=? overall) eqn:E; bools; cbn; lia.
  - destruct (ask_in_order_first per_server pre after answer post 0 Hp Hok Hnone Ha) as (t & E & Ht).
    unfold forward. rewrite E. destruct (pre ++ _) eqn:En; [by apply app_nil in En as [_ ?]|].
    by rewrite (proj2 (Z.leb_le _ _)) by lia.
Qed.

(** Three dead servers leave the fourth 600 ms of the default budget. *)
