(* ===== verification/DnsServer.v ===== *)
(** * The client's DNS server (nexapipe-client/src/dns/server.rs)

    A name the client proxies is answered with an address of the mapping; every
    other name is asked of the resolvers, with their answers kept in a cache for
    as long as their records allow.  An [Instant] is a number of nanoseconds
    passed in; what the resolvers answered ([UpstreamResolvers::forward]) is an
    argument, as is the Unicode lower-casing of [str::to_lowercase]. *)

From S2P Require Import Prelude RustStd Slices Host VirtualBlock VirtualIp DnsWire Resolver.

(** ** Reading the answers of a message *)

(** [pos] just behind the name that starts there. *)
Fixpoint skip_dns_name (fuel : nat) (payload : bytes) (pos : Z) : run (option Z) :=
  match fuel with
  | O => Spins
  | S fuel =>
      match get payload pos with
      | None => Val None
      | Some length =>
          if length =? 0 then Val (Some (pos + 1))
          else if 0xC0 <=? length then Val (Some (pos + 2))
          else skip_dns_name fuel payload (pos + (1 + length))
      end
  end.

(** Each turn moves on by a byte at least and ends at the end of the message. *)
Definition skip_name (payload : bytes) (pos : Z) : run (option Z) :=
  skip_dns_name (S (length payload)) payload pos.

Fixpoint ttl_offsets (answers : nat) (response : bytes) (pos : Z) : run (option (list Z)) :=
  match answers with
  | O => Val (Some [])
  | S answers =>
      let* name_end := skip_name response pos in
      match name_end with
      | None => Val None
      | Some pos =>
          if len response <? pos + 10 then Val None else
          let* rdlength := index_u16 response (pos + 8) in
          let* rest := ttl_offsets answers response (pos + (10 + rdlength)) in
          match rest with
          | None => Val None
          | Some offsets => Val (Some (pos + 4 :: offsets))
          end
      end
  end.

Definition answer_ttl_offsets (response : bytes) : run (option (list Z)) :=
  if len response <? 12 then Val None else
  let* answers := index_u16 response 6 in
  if answers =? 0 then Val None else
  let* question_end := skip_name response 12 in
  match question_end with
  | None => Val None
  | Some pos => ttl_offsets (Z.to_nat answers) response (pos + 4)
  end.

Definition read_u32 (payload : bytes) (pos : Z) : run Z :=
  if pos + 4 <=? len payload then
    let* bs := slice payload pos (pos + 4) in Val (from_be_bytes bs)
  else Val 0.

Fixpoint map_run {A B} (f : A -> run B) (l : list A) : run (list B) :=
  match l with
  | [] => Val []
  | x :: rest => let* y := f x in let* ys := map_run f rest in Val (y :: ys)
  end.

(** [Iterator::min]. *)
Definition minimum (l : list Z) : option Z :=
  match l with
  | [] => None
  | x :: rest => Some (fold_left Z.min rest x)
  end.

Definition DNS_CACHE_MAX_TTL : Z := 300.
Definition DNS_CACHE_MAX_ENTRIES : Z := 512.

(** In nanoseconds, as every duration. *)
Definition cacheable_for (ttl : Z) : option Z :=
  if ttl =? 0 then None else Some (Z.min ttl DNS_CACHE_MAX_TTL * 10 ^ 9).

Definition answer_ttl (response : bytes) : run (option Z) :=
  if len response <? 12 then Val None else
  let* flags := index response 3 in
  if negb (Z.land flags 0x0F =? 0) then Val None else
  let* offsets := answer_ttl_offsets response in
  match offsets with
  | None => Val None
  | Some offsets =>
      let* ttls := map_run (read_u32 response) offsets in
      match minimum ttls with
      | None => Val None
      | Some shortest => Val (cacheable_for shortest)
      end
  end.

(** [response[o..o + 4].copy_from_slice(..)], when it fits. *)
Definition write_ttl (ttl : Z) (response : bytes) (offset : Z) : bytes :=
  if offset + 4 <=? len response
  then take (Z.to_nat offset) response ++ to_be_bytes 4 ttl ++ drop (Z.to_nat (offset + 4)) response
  else response.

Definition set_answer_ttls (response : bytes) (ttl : Z) : run bytes :=
  let* offsets := answer_ttl_offsets response in
  match offsets with
  | None => Val response
  | Some offsets => Val (fold_left (write_ttl ttl) offsets response)
  end.

(** ** The cache *)

Record CacheKey := { k_name : bytes; k_qtype : Z; k_qclass : Z; k_resolvers : bytes }.

#[global] Instance CacheKey_eq_dec : EqDecision CacheKey.
Proof. solve_decision. Defined.
#[global] Program Instance CacheKey_countable : Countable CacheKey :=
  inj_countable' (fun k => (k_name k, k_qtype k, k_qclass k, k_resolvers k))
    (fun '(n, t, c, r) => {| k_name := n; k_qtype := t; k_qclass := c; k_resolvers := r |}) _.
Next Obligation. by intros []. Qed.

Record CachedAnswer := { c_response : bytes; c_expires_at : Z }.
Abbreviation DnsCache := (gmap CacheKey CachedAnswer).

Definition cached_answer_at (key : CacheKey) (query : bytes) (now : Z) (cache : DnsCache)
  : run (option bytes) :=
  match cache !! key with
  | None => Val None
  | Some entry =>
      if c_expires_at entry <=? now then Val None else
      let response := c_response entry in
      let* response :=
        (if (2 <=? len response) && (2 <=? len query) then
           let* q0 := index query 0 in
           let* q1 := index query 1 in
           let* response := index_set response 0 q0 in
           index_set response 1 q1
         else Val response) in
      let remaining := saturating_sub (c_expires_at entry) now / 10 ^ 9 in
      let* response := set_answer_ttls response (Z.min remaining (umax 32)) in
      Val (Some response)
  end.

Definition remember_answer (key : CacheKey) (response : bytes) (now : Z) (cache : DnsCache) : run DnsCache :=
  let* ttl := answer_ttl response in
  match ttl with
  | None => Val cache
  | Some ttl =>
      let full (c : DnsCache) := DNS_CACHE_MAX_ENTRIES <=? Z.of_nat (size c) in
      let cache :=
        if full cache then
          let swept := filter (fun e => now < c_expires_at e.2) cache in
          if full swept then ∅ else swept
        else cache in
      Val (<[key := {| c_response := response; c_expires_at := now + ttl |}]> cache)
  end.

(** ** Answering *)

Section Server.
Context (to_lowercase : bytes -> bytes).

(** [upstream] is what the resolvers answered, [now] the clock at the lookup and
    [later] the clock once they had. *)
Definition forward_dns_query (query domain : bytes) (qtype qclass : Z) (scope : bytes)
    (upstream : option bytes) (now later : Z) (cache : DnsCache) : run (option bytes * DnsCache) :=
  let key := {| k_name := to_lowercase domain; k_qtype := qtype; k_qclass := qclass; k_resolvers := scope |} in
  let* hit := cached_answer_at key query now cache in
  match hit with
  | Some answer => Val (Some answer, cache)
  | None =>
      match upstream with
      | None => Val (None, cache)
      | Some answer =>
          let* cache := remember_answer key answer later cache in
          Val (Some answer, cache)
      end
  end.

Definition ends_with (t s : bytes) : bool := is_some (strip_suffix t s).

Definition is_iroh (domain : bytes) : bool :=
  ends_with (lit ".iroh.link") (to_lowercase domain) || ends_with (lit ".n0.iroh.link") (to_lowercase domain).

Record Device := { d_mapping : IpMapping; d_cache : DnsCache }.

Definition handle_dns_query (query : bytes) (proxy_domains : list bytes) (scope : bytes)
    (upstream : option bytes) (now later : Z) (d : Device) : run (option bytes * Device) :=
  let* parsed := parse_query query in
  match parsed with
  | None => Val (None, d)
  | Some parsed =>
      let domain := q_domain parsed in
      match domain with
      | [] => Val (None, d)
      | _ =>
          let is_proxy := negb (is_iroh domain) && should_proxy_domain domain proxy_domains in
          if is_proxy then
            if negb (q_qclass parsed =? DNS_CLASS_IN)
               || (negb (q_qtype parsed =? DNS_TYPE_A) && negb (q_qtype parsed =? DNS_TYPE_AAAA))
            then Val (Some (build_empty_response parsed), d)
            else
              let '(answer, m) :=
                (if q_qtype parsed =? DNS_TYPE_A then
                   let '(ip, m) := allocate to_lowercase domain now (d_mapping d) in (Some (IpV4 ip), m)
                 else
                   let '(ip, m) := allocate_v6 to_lowercase domain now (d_mapping d) in (IpV6 <$> ip, m)) in
              let d := {| d_mapping := m; d_cache := d_cache d |} in
              match answer with
              | None => Val (Some (build_empty_response parsed), d)
              | Some answer => Val (Some (build_response parsed answer), d)
              end
          else
            let* '(answer, cache) := forward_dns_query query domain (q_qtype parsed) (q_qclass parsed) scope
                                       upstream now later (d_cache d) in
            Val (answer, {| d_mapping := d_mapping d; d_cache := cache |})
      end
  end.

End Server.

(** ** The walk through a message *)

Lemma skip_dns_name_total fuel s pos :
  bytes_ok s -> 0 <= pos -> len s - pos < Z.of_nat fuel -> 0 < Z.of_nat fuel ->
  exists r, skip_dns_name fuel s pos = Val r.
Proof.
  intros Hok. revert pos. induction fuel as [|fuel IH]; intros pos Hp Hf H0; [lia|]. cbn [skip_dns_name].
  destruct (get s pos) as [l|] eqn:E; [|eauto]. assert (is_u8 l) as Hl by (by eapply Forall_lookup_1).
  assert (pos < len s) by (apply lookup_lt_Some in E; unfold len; lia). unfold is_uint in Hl.
  destruct (l =? 0); [eauto|]. destruct (_ <=? l); [eauto|]. apply IH; lia.
Qed.

Lemma skip_name_total s pos : bytes_ok s -> 0 <= pos -> exists r, skip_name s pos = Val r.
Proof. intros Hok Hp. apply skip_dns_name_total; try done; unfold len; lia. Qed.

Lemma skip_dns_name_after fuel s pos e :
  bytes_ok s -> 0 <= pos -> skip_dns_name fuel s pos = Val (Some e) -> pos < e.
Proof.
  intros Hok. revert pos. induction fuel as [|fuel IH]; intros pos Hp; cbn [skip_dns_name]; [done|].
  destruct (get s pos) as [l|] eqn:E; [|done]. assert (is_u8 l) as Hl by (by eapply Forall_lookup_1).
  unfold is_uint in Hl. destruct (l =? 0); [intros [= <-]; lia|]. destruct (_ <=? l); [intros [= <-]; lia|].
  intros H. apply IH in H; lia.
Qed.

(** The walk looks only at the bytes of the name. *)
Lemma skip_dns_name_agree fuel s s' pos e :
  bytes_ok s -> 0 <= pos -> (forall i, pos <= i < e -> get s i = get s' i) ->
  skip_dns_name fuel s pos = Val (Some e) -> skip_dns_name fuel s' pos = Val (Some e).
Proof.
  intros Hok. revert pos. induction fuel as [|fuel IH]; intros pos Hp Hag H; cbn [skip_dns_name] in *; [done|].
  assert (pos < e) by (eapply (skip_dns_name_after (S fuel)); eauto).
  rewrite <- (Hag pos) by lia. destruct (get s pos) as [l|] eqn:E; [|done].
  assert (is_u8 l) as Hl by (by eapply Forall_lookup_1). unfold is_uint in Hl.
  destruct (l =? 0); [done|]. destruct (_ <=? l); [done|].
  apply IH; [lia| |done]. intros i Hi. apply Hag. lia.
Qed.

Lemma skip_name_agree s s' pos e :
  bytes_ok s -> 0 <= pos -> length s = length s' -> (forall i, pos <= i < e -> get s i = get s' i) ->
  skip_name s pos = Val (Some e) -> skip_name s' pos = Val (Some e).
Proof. intros Hok Hp Hl Hag. unfold skip_name. rewrite <- Hl. by apply skip_dns_name_agree. Qed.

Lemma index_u16_range s i z : bytes_ok s -> index_u16 s i = Val z -> is_u16 z.
Proof.
  intros Hok. unfold index_u16. destruct (index s i) as [h| |] eqn:Eh; try done.
  destruct (index s (i + 1)) as [l| |] eqn:El; try done. intros [= <-].
  apply (index_ok _ _ _ Hok) in Eh, El. unfold is_uint in *. rewrite from_be_bytes_2. lia.
Qed.

Lemma index_u16_agree s s' i :
  get s i = get s' i -> get s (i + 1) = get s' (i + 1) -> index_u16 s i = index_u16 s' i.
Proof. unfold get, index_u16, index. by intros -> ->. Qed.

Lemma ttl_offsets_total n s pos :
  bytes_ok s -> 0 <= pos -> exists r, ttl_offsets n s pos = Val r.
Proof.
  intros Hok. revert pos. induction n as [|n IH]; intros pos Hp; cbn [ttl_offsets]; [eauto|].
  destruct (skip_name_total s pos Hok Hp) as [[e|] E]; rewrite E; [|eauto].
  pose proof (skip_dns_name_after _ _ _ _ Hok Hp E) as He.
  destruct (_ <? _) eqn:El; [eauto|]. bools. destruct (index_u16_inside s (e + 8)) as [rd Erd]; [lia..|].
  rewrite Erd. apply (index_u16_range _ _ _ Hok) in Erd. unfold is_uint in Erd.
  destruct (IH (e + (10 + rd))) as [[o|] ->]; [lia|eauto..].
Qed.

(** Offsets of records that follow one another: each TTL is inside the message,
    behind [lo], and the next one is at least ten bytes on. *)
Fixpoint spaced (lo hi : Z) (offsets : list Z) : Prop :=
  match offsets with
  | [] => True
  | o :: rest => lo + 4 < o /\ o + 6 <= hi /\ spaced (o + 6) hi rest
  end.

Lemma spaced_weaken lo lo' hi l : lo' <= lo -> spaced lo hi l -> spaced lo' hi l.
Proof. intros H. destruct l; cbn; [done|]. intros (? & ? & ?). split_and!; [lia|done|done]. Qed.

Lemma spaced_above lo hi l o : spaced lo hi l -> o ∈ l -> lo + 4 < o /\ o + 6 <= hi.
Proof.
  revert lo. induction l as [|x l IH]; intros lo; cbn; [by intros _ H; apply not_elem_of_nil in H|].
  intros (H1 & H2 & H3) [->|Hin]%elem_of_cons; [done|]. apply (IH _ H3) in Hin. lia.
Qed.

Lemma ttl_offsets_spaced n s pos offsets :
  bytes_ok s -> 0 <= pos -> ttl_offsets n s pos = Val (Some offsets) ->
  spaced pos (len s) offsets /\ length offsets = n.
Proof.
  intros Hok. revert pos offsets. induction n as [|n IH]; intros pos offsets Hp; cbn [ttl_offsets].
  { by intros [= <-]. }
  destruct (skip_name s pos) as [[e|]| |] eqn:E; try done.
  pose proof (skip_dns_name_after _ _ _ _ Hok Hp E) as He.
  destruct (_ <? _) eqn:El; [done|]. bools. destruct (index_u16 s (e + 8)) as [rd| |] eqn:Erd; try done.
  apply (index_u16_range _ _ _ Hok) in Erd. unfold is_uint in Erd.
  destruct (ttl_offsets n s _) as [[o|]| |] eqn:Eo; try done. intros [= <-].
  apply IH in Eo as [Hs <-]; [|lia]. cbn [spaced length]. split; [|done]. split_and!; [lia|lia|].
  eapply spaced_weaken; [|exact Hs]. lia.
Qed.

(** The positions the records' TTLs do not cover. *)
Definition outside (offsets : list Z) (i : Z) : Prop := forall o, o ∈ offsets -> ~ (o <= i < o + 4).

Lemma ttl_offsets_agree n s s' pos offsets :
  bytes_ok s -> 0 <= pos -> length s = length s' ->
  (forall i, pos <= i -> outside offsets i -> get s i = get s' i) ->
  ttl_offsets n s pos = Val (Some offsets) -> ttl_offsets n s' pos = Val (Some offsets).
Proof.
  intros Hok. revert pos offsets. induction n as [|n IH]; intros pos offsets Hp Hlen Hag; cbn [ttl_offsets]; [done|].
  intros H. pose proof (ttl_offsets_spaced (S n) s pos offsets Hok Hp H) as [Hsp _].
  destruct (skip_name s pos) as [[e|]| |] eqn:E; try done.
  pose proof (skip_dns_name_after _ _ _ _ Hok Hp E) as He.
  destruct (len s <? e + 10) eqn:El; [done|].
  destruct (index_u16 s (e + 8)) as [rd| |] eqn:Erd; try done.
  pose proof (index_u16_range _ _ _ Hok Erd) as Hrd. unfold is_uint in Hrd.
  destruct (ttl_offsets n s _) as [[o|]| |] eqn:Eo; try done. injection H as <-.
  destruct (ttl_offsets_spaced n s (e + (10 + rd)) o Hok ltac:(lia) Eo) as [Hso _].
  assert (forall i, (i < e + 4 \/ e + 8 <= i < e + 10 + rd + 4) -> outside (e + 4 :: o) i) as Hout.
  { intros i Hi x [->|Hx]%elem_of_cons; [lia|]. apply (spaced_above _ _ _ _ Hso) in Hx. lia. }
  rewrite (skip_name_agree s s' pos e Hok Hp Hlen); [|intros i Hi; apply Hag; [lia|apply Hout; lia]|done].
  unfold len in *. rewrite <- Hlen, El.
  rewrite <- (index_u16_agree s s'), Erd by (apply Hag; [lia|apply Hout; lia]).
  rewrite (IH _ o); [done|lia|done| |done].
  intros i Hi Ho. apply Hag; [lia|]. intros x [->|Hx]%elem_of_cons; [lia|by apply Ho].
Qed.

(** ** Writing the TTLs *)

Lemma write_ttl_length ttl s o : 0 <= o -> length (write_ttl ttl s o) = length s.
Proof.
  intros Ho. unfold write_ttl. destruct (_ <=? _) eqn:E; [|done]. bools.
  rewrite !length_app, length_to_be_bytes, length_take, length_drop. unfold len in *. lia.
Qed.

Lemma write_ttl_ok ttl s o : bytes_ok s -> bytes_ok (write_ttl ttl s o).
Proof. intros Hs. unfold write_ttl. case_match; auto with rs. Qed.

Lemma write_ttl_outside ttl s o i :
  0 <= o -> 0 <= i -> ~ (o <= i < o + 4) -> get (write_ttl ttl s o) i = get s i.
Proof.
  intros Ho Hi Hn. unfold write_ttl. destruct (_ <=? _) eqn:E; [|done]. bools. unfold get, len in *.
  destruct (decide (i < o)) as [Hlt|Hge].
  - rewrite lookup_app_l by (rewrite length_take; lia). rewrite lookup_take_lt by lia. done.
  - rewrite lookup_app_r, length_take by (rewrite length_take; lia).
    rewrite lookup_app_r, length_to_be_bytes by (rewrite length_to_be_bytes; lia).
    rewrite lookup_drop. f_equal. lia.
Qed.

Lemma read_write_ttl ttl s o :
  0 <= o -> o + 4 <= len s -> is_u32 ttl -> read_u32 (write_ttl ttl s o) o = Val ttl.
Proof.
  intros Ho Hl Ht. pose proof (write_ttl_length ttl s o Ho) as Hlen. unfold read_u32.
  rewrite (proj2 (Z.leb_le _ _)) by (unfold len in *; lia). unfold write_ttl.
  rewrite (proj2 (Z.leb_le _ _)) by lia. rewrite slice_app_mid.
  - f_equal. by apply from_to_be_bytes.
  - unfold len in *. rewrite length_take. lia.
  - unfold len in *. rewrite length_take, length_to_be_bytes. lia.
Qed.

Lemma read_u32_agree s s' o :
  length s = length s' -> 0 <= o -> (forall i, o <= i < o + 4 -> get s i = get s' i) -> read_u32 s o = read_u32 s' o.
Proof.
  intros Hl Ho Hag. unfold read_u32. assert (len s' = len s) as -> by (unfold len; lia).
  destruct (_ <=? _) eqn:E; [|done]. bools. rewrite !slice_inside by (unfold len in *; lia).
  do 2 f_equal. apply list_eq_same_length with 4%nat; rewrite ?length_take, ?length_drop; unfold len in *; try lia.
  intros i x y Hi. rewrite !lookup_take_lt, !lookup_drop by lia. intros Hx Hy.
  specialize (Hag (o + Z.of_nat i)). unfold get in Hag.
  replace (Z.to_nat (o + Z.of_nat i)) with (Z.to_nat o + i)%nat in Hag by lia.
  rewrite Hx, Hy in Hag. specialize (Hag ltac:(lia)). congruence.
Qed.

Lemma write_ttls_spec ttl offsets lo s :
  is_u32 ttl -> 0 <= lo -> spaced lo (len s) offsets ->
  let s' := fold_left (write_ttl ttl) offsets s in
  length s' = length s /\
  (forall i, 0 <= i -> outside offsets i -> get s' i = get s i) /\
  Forall (fun o => read_u32 s' o = Val ttl) offsets.
Proof.
  intros Ht. revert lo s. induction offsets as [|o offsets IH]; intros lo s Hlo Hs; [done|].
  destruct Hs as (H1 & H2 & H3). cbn [fold_left]. pose proof (write_ttl_length ttl s o ltac:(lia)) as Hl.
  assert (len (write_ttl ttl s o) = len s) as El by (unfold len; lia).
  destruct (IH (o + 6) (write_ttl ttl s o)) as (Hl' & Hout & Hall); [lia|by rewrite El|]. split_and!.
  - lia.
  - intros i Hi Ho. rewrite Hout; [|done|].
    + apply write_ttl_outside; [lia|lia|]. apply Ho. by left.
    + intros x Hx. apply Ho. by right.
  - constructor; [|done]. trans (read_u32 (write_ttl ttl s o) o); [|apply read_write_ttl; (done || lia)].
    apply read_u32_agree; [done|lia|]. intros i Hi. apply Hout; [lia|].
    intros x Hx. apply (spaced_above _ _ _ _ H3) in Hx. lia.
Qed.

Lemma write_ttls_ok ttl offsets s : bytes_ok s -> bytes_ok (fold_left (write_ttl ttl) offsets s).
Proof. revert s. induction offsets as [|o l IH]; intros s Hs; [done|]. cbn. apply IH, write_ttl_ok, Hs. Qed.

(** ** The offsets of a message *)

Lemma answer_ttl_offsets_total s : bytes_ok s -> exists r, answer_ttl_offsets s = Val r.
Proof.
  intros Hok. unfold answer_ttl_offsets. destruct (len s <? 12) eqn:E; [eauto|]. bools.
  destruct (index_u16_inside s 6) as [n ->]; [lia..|]. destruct (n =? 0); [eauto|].
  destruct (skip_name_total s 12 Hok ltac:(lia)) as [[e|] Ee]; rewrite Ee; [|eauto].
  apply skip_dns_name_after in Ee; [|done|lia]. apply ttl_offsets_total; [done|lia].
Qed.

Lemma answer_ttl_offsets_spaced s offsets :
  bytes_ok s -> answer_ttl_offsets s = Val (Some offsets) -> spaced 12 (len s) offsets /\ offsets <> [].
Proof.
  intros Hok. unfold answer_ttl_offsets. destruct (len s <? 12) eqn:E; [done|]. bools.
  destruct (index_u16 s 6) as [n| |] eqn:En; try done. apply (index_u16_range _ _ _ Hok) in En.
  destruct (n =? 0) eqn:E0; [done|]. bools. destruct (skip_name s 12) as [[e|]| |] eqn:Ee; try done.
  apply skip_dns_name_after in Ee; [|done|lia]. intros H.
  apply ttl_offsets_spaced in H as [Hs Hl]; [|done|lia]. unfold is_uint in En. split.
  - eapply spaced_weaken; [|exact Hs]. lia.
  - intros ->. cbn in Hl. lia.
Qed.

(** The same answers are found in any message that differs only in its ID and in
    the TTLs. *)
Lemma answer_ttl_offsets_agree s s' offsets :
  bytes_ok s -> length s = length s' ->
  (forall i, 2 <= i -> outside offsets i -> get s i = get s' i) ->
  answer_ttl_offsets s = Val (Some offsets) -> answer_ttl_offsets s' = Val (Some offsets).
Proof.
  intros Hok Hlen Hag H. destruct (answer_ttl_offsets_spaced _ _ Hok H) as [Hsp _].
  assert (forall i, i <= 16 -> outside offsets i) as Hlow.
  { intros i Hi o Ho. apply (spaced_above _ _ _ _ Hsp) in Ho. lia. }
  unfold answer_ttl_offsets in *. assert (len s' = len s) as -> by (unfold len; lia).
  destruct (len s <? 12); [done|].
  rewrite <- (index_u16_agree s s') by (apply Hag; [lia|apply Hlow; lia]).
  destruct (index_u16 s 6) as [n| |]; try done. destruct (n =? 0); [done|].
  destruct (skip_name s 12) as [[e|]| |] eqn:Ee; try done.
  pose proof (skip_dns_name_after _ s 12 e Hok ltac:(lia) Ee) as He.
  apply ttl_offsets_spaced in H as Hs; [|done|lia]. destruct Hs as [Hs _].
  rewrite (skip_name_agree s s' 12 e Hok ltac:(lia) Hlen); [|intros i Hi|done].
  - eapply ttl_offsets_agree; [exact Hok|lia|done| |done]. intros i Hi. apply Hag. lia.
  - apply Hag; [lia|]. intros o Ho. apply (spaced_above _ _ _ _ Hs) in Ho. lia.
Qed.

(** ** How long an answer is kept *)

Lemma read_u32_total s o : 0 <= o -> exists z, read_u32 s o = Val z.
Proof.
  intros Ho. unfold read_u32. destruct (_ <=? _) eqn:E; [|eauto]. bools. rewrite slice_inside by lia. eauto.
Qed.

Lemma map_run_total {A B} (f : A -> run B) l : (forall x, x ∈ l -> exists y, f x = Val y) -> exists ys, map_run f l = Val ys.
Proof.
  induction l as [|x l IH]; intros H; cbn; [eauto|]. destruct (H x) as [y ->]; [by left|].
  destruct IH as [ys ->]; [|eauto]. intros z Hz. apply H. by right.
Qed.

Lemma map_run_elem {A B} (f : A -> run B) l ys x :
  map_run f l = Val ys -> x ∈ l -> exists y, f x = Val y /\ y ∈ ys.
Proof.
  revert ys. induction l as [|z l IH]; intros ys; cbn; [by intros _ H; apply not_elem_of_nil in H|].
  destruct (f z) as [y| |] eqn:E; try done. destruct (map_run f l) as [ys'| |]; try done. intros [= <-].
  intros [->|Hx]%elem_of_cons; [exists y; split; [done|by left]|].
  destruct (IH ys' eq_refl Hx) as (y' & ? & ?). exists y'. split; [done|by right].
Qed.

Lemma fold_min_le l x : fold_left Z.min l x <= x /\ forall y, y ∈ l -> fold_left Z.min l x <= y.
Proof.
  revert x. induction l as [|z l IH]; intros x; cbn; [split; [lia|by intros y H; apply not_elem_of_nil in H]|].
  destruct (IH (Z.min x z)) as [H1 H2]. split; [lia|]. intros y [->|Hy]%elem_of_cons; [lia|by apply H2].
Qed.

Lemma minimum_le l m y : minimum l = Some m -> y ∈ l -> m <= y.
Proof.
  destruct l as [|x l]; cbn; [done|]. intros [= <-] [->|Hy]%elem_of_cons; [exact (proj1 (fold_min_le l x))|].
  by apply (proj2 (fold_min_le l x)).
Qed.

Lemma minimum_ge l m b : minimum l = Some m -> Forall (fun x => b <= x) l -> b <= m.
Proof.
  destruct l as [|x l]; cbn; [done|]. intros [= <-] H. apply Forall_cons in H as [Hx Hl]. revert x Hx.
  induction Hl as [|y l Hy _ IH]; intros x Hx; cbn; [done|]. apply IH. lia.
Qed.

Lemma map_run_Forall {A B} (f : A -> run B) (P : B -> Prop) l ys :
  (forall x y, f x = Val y -> P y) -> map_run f l = Val ys -> Forall P ys.
Proof.
  intros HP. revert ys. induction l as [|x l IH]; intros ys; cbn; [by intros [= <-]|].
  destruct (f x) as [y| |] eqn:E; try done. destruct (map_run f l); try done. intros [= <-]. constructor; eauto.
Qed.

Lemma read_u32_nonneg s o z : bytes_ok s -> read_u32 s o = Val z -> 0 <= z.
Proof.
  intros Hok. unfold read_u32, slice. repeat (destruct (_ <=? _); cbn [andb]; try done); intros [= <-]; [|done].
  apply from_be_bytes_range. auto with rs.
Qed.

Lemma answer_ttl_total s : bytes_ok s -> exists r, answer_ttl s = Val r.
Proof.
  intros Hok. unfold answer_ttl. destruct (len s <? 12) eqn:E; [eauto|]. bools.
  destruct (index_inside s 3) as [f ->]; [lia|]. destruct (_ =? 0); [|eauto]. cbn [negb].
  destruct (answer_ttl_offsets_total s Hok) as [[o|] Eo]; rewrite Eo; [|eauto].
  destruct (answer_ttl_offsets_spaced s o Hok Eo) as [Hs _].
  destruct (map_run_total (read_u32 s) o) as [ys ->].
  - intros x Hx. apply read_u32_total. apply (spaced_above _ _ _ _ Hs) in Hx. lia.
  - destruct (minimum ys); eauto.
Qed.

Lemma set_answer_ttls_total s ttl : bytes_ok s -> exists r, set_answer_ttls s ttl = Val r.
Proof. intros Hok. unfold set_answer_ttls. destruct (answer_ttl_offsets_total s Hok) as [[o|] ->]; eauto. Qed.

(** What is kept is good for no longer than any of its records. *)
Lemma answer_ttl_bound s ttl :
  bytes_ok s -> answer_ttl s = Val (Some ttl) ->
  exists offsets, answer_ttl_offsets s = Val (Some offsets) /\
    0 < ttl <= DNS_CACHE_MAX_TTL * 10 ^ 9 /\
    forall o, o ∈ offsets -> exists z, read_u32 s o = Val z /\ ttl <= z * 10 ^ 9.
Proof.
  intros Hok. unfold answer_ttl. destruct (_ <? _); [done|]. destruct (index s 3) as [f| |]; try done.
  destruct (_ =? 0); [|done]. cbn [negb]. destruct (answer_ttl_offsets s) as [[o|]| |]; try done.
  destruct (map_run (read_u32 s) o) as [ys| |] eqn:Ey; try done. destruct (minimum ys) as [m|] eqn:Em; [|done].
  unfold cacheable_for. destruct (m =? 0) eqn:E0; [done|]. bools. intros [= <-].
  exists o. split; [done|].
  assert (0 <= m) by (eapply minimum_ge; [done|]; eapply map_run_Forall; [|done]; intros; by eapply read_u32_nonneg).
  unfold DNS_CACHE_MAX_TTL. split; [lia|]. intros x Hx. destruct (map_run_elem _ _ _ _ Ey Hx) as (z & Hz & Hin).
  exists z. split; [done|]. apply (minimum_le _ _ _ Em) in Hin. lia.
Qed.

(** ** The cache holds only what was remembered *)

Fixpoint remember_all (history : list (CacheKey * bytes * Z)) (cache : DnsCache) : run DnsCache :=
  match history with
  | [] => Val cache
  | (key, response, now) :: rest =>
      let* cache := remember_answer key response now cache in remember_all rest cache
  end.

Record cache_ok (history : list (CacheKey * bytes * Z)) (c : DnsCache) : Prop := {
  cache_size : Z.of_nat (size c) <= DNS_CACHE_MAX_ENTRIES;
  cache_from k e : c !! k = Some e -> exists t ttl, (k, c_response e, t) ∈ history /\
    bytes_ok (c_response e) /\ answer_ttl (c_response e) = Val (Some ttl) /\ c_expires_at e = t + ttl;
}.

Lemma insert_size_le (c : DnsCache) k e n :
  Z.of_nat (size c) < n -> Z.of_nat (size (<[k := e]> c)) <= n.
Proof. intros H. destruct (c !! k) eqn:E; [rewrite map_size_insert_Some by eauto|rewrite map_size_insert_None by done]; lia. Qed.

Lemma remember_answer_ok history key response now c :
  bytes_ok response -> cache_ok history c ->
  exists c', remember_answer key response now c = Val c' /\ cache_ok (history ++ [(key, response, now)]) c'.
Proof.
  intros Hok [Hs Hf]. unfold remember_answer. destruct (answer_ttl_total response Hok) as [[ttl|] Et]; rewrite Et.
  2: { eexists. split; [done|]. split; [done|]. intros k e He. destruct (Hf k e He) as (t & ttl & ? & ?).
       exists t, ttl. rewrite elem_of_app. auto. }
  eexists. split; [done|]. match goal with |- cache_ok _ (<[_ := _]> ?k) => set (kept := k) end.
  assert (Z.of_nat (size kept) < DNS_CACHE_MAX_ENTRIES /\ forall k e, kept !! k = Some e -> c !! k = Some e) as [Hk Hsub].
  { unfold kept, DNS_CACHE_MAX_ENTRIES. destruct (_ <=? _) eqn:E1; bools; [|done].
    destruct (_ <=? _) eqn:E2; bools; [by rewrite map_size_empty|]. split; [done|].
    intros k e He. by apply map_lookup_filter_Some in He as [? _]. }
  clearbody kept. split; [by apply insert_size_le|].
  intros k e He. apply lookup_insert_Some in He as [[<- <-]|[_ He]].
  - exists now, ttl. cbn. rewrite elem_of_app, list_elem_of_singleton. auto.
  - destruct (Hf k e (Hsub k e He)) as (t & ttl' & ? & ?). exists t, ttl'. rewrite elem_of_app. auto.
Qed.

Lemma remember_all_ok history before c :
  Forall (fun r => bytes_ok r.1.2) history -> cache_ok before c ->
  exists c', remember_all history c = Val c' /\ cache_ok (before ++ history) c'.
Proof.
  intros H. revert before c. induction H as [|[[k r] t] history Hr _ IH]; intros before c Hc; cbn [remember_all].
  - exists c. by rewrite app_nil_r.
  - destruct (remember_answer_ok before k r t c Hr Hc) as (c' & -> & Hc').
    destruct (IH _ c' Hc') as (c'' & -> & ?). exists c''. by rewrite <- app_assoc in *.
Qed.

Lemma cache_empty_ok : cache_ok [] ∅.
Proof. split; [by rewrite map_size_empty|]. intros k e. by rewrite lookup_empty. Qed.

(** ** What is served from it *)

(** A message with its first two bytes replaced by those of the query. *)
Definition with_id (query response : bytes) : bytes :=
  if (2 <=? len response) && (2 <=? len query) then take 2 query ++ drop 2 response else response.

Lemma with_id_run query response :
  (if (2 <=? len response) && (2 <=? len query) then
     let* q0 := index query 0 in
     let* q1 := index query 1 in
     let* response := index_set response 0 q0 in
     index_set response 1 q1
   else Val response) = Val (with_id query response).
Proof.
  unfold with_id. destruct (_ && _) eqn:E; [|done]. bools.
  destruct query as [|q0 [|q1 query]]; [done|done|]. destruct response as [|r0 [|r1 response]]; [done|done|].
  change (index (q0 :: q1 :: query) 0) with (Val q0). change (index (q0 :: q1 :: query) 1) with (Val q1).
  cbv iota beta. by rewrite set_byte_0, set_byte_1.
Qed.

Lemma with_id_length query response : length (with_id query response) = length response.
Proof.
  unfold with_id. destruct (_ && _) eqn:E; [|done]. bools.
  rewrite length_app, length_take, length_drop. unfold len in *. lia.
Qed.

Lemma with_id_get query response i : 2 <= i -> get (with_id query response) i = get response i.
Proof.
  intros Hi. unfold with_id. destruct (_ && _) eqn:E; [|done]. bools. unfold get, len in *.
  rewrite lookup_app_r, length_take by (rewrite length_take; lia). rewrite lookup_drop. f_equal. lia.
Qed.

Lemma with_id_ok query response : bytes_ok query -> bytes_ok response -> bytes_ok (with_id query response).
Proof. intros. unfold with_id. case_match; auto with rs. Qed.

Lemma get_take2 (s t : bytes) :
  length s = length t -> (forall i, 0 <= i < 2 -> get s i = get t i) -> take 2 s = take 2 t.
Proof.
  intros Hl H. pose proof (H 0 ltac:(lia)) as H0. pose proof (H 1 ltac:(lia)) as H1.
  unfold get in H0, H1. change (Z.to_nat 0) with 0%nat in H0. change (Z.to_nat 1) with 1%nat in H1.
  destruct s as [|a [|b s]], t as [|c [|d t]]; cbn in *; rewrite ?take_0; congruence.
Qed.

Lemma cached_answer_served history key query now c entry offsets ttl :
  bytes_ok query -> cache_ok history c -> c !! key = Some entry -> now < c_expires_at entry ->
  answer_ttl_offsets (c_response entry) = Val (Some offsets) ->
  bytes_ok (c_response entry) ->
  ttl = Z.min ((c_expires_at entry - now) / 10 ^ 9) (umax 32) ->
  exists served, cached_answer_at key query now c = Val (Some served) /\
    bytes_ok served /\ length served = length (c_response entry) /\
    (2 <= len query -> take 2 served = take 2 query) /\
    answer_ttl_offsets served = Val (Some offsets) /\
    (forall i, 2 <= i -> outside offsets i -> get served i = get (c_response entry) i) /\
    Forall (fun o => read_u32 served o = Val ttl) offsets.
Proof.
  intros Hq Hc He Hnow Ho Hok Ettl. unfold cached_answer_at. rewrite He.
  rewrite (proj2 (Z.leb_gt _ _)) by lia. rewrite with_id_run.
  set (r := with_id query (c_response entry)).
  assert (bytes_ok r) as Hr by (by apply with_id_ok).
  assert (length (c_response entry) = length r) as Hl by (unfold r; by rewrite with_id_length).
  assert (answer_ttl_offsets r = Val (Some offsets)) as Hor.
  { eapply (answer_ttl_offsets_agree (c_response entry)); [done|done| |done].
    intros i Hi _. unfold r. by rewrite with_id_get. }
  assert (is_u32 ttl).
  { assert (0 <= (c_expires_at entry - now) / 10 ^ 9) by (apply Z.div_pos; lia). unfold is_uint, umax in *. lia. }
  assert (Z.min (saturating_sub (c_expires_at entry) now / 10 ^ 9) (umax 32) = ttl) as ->
    by (unfold saturating_sub; by rewrite Z.max_l by lia).
  unfold set_answer_ttls. rewrite Hor. destruct (answer_ttl_offsets_spaced r offsets Hr Hor) as [Hsp _].
  destruct (write_ttls_spec ttl offsets 12 r) as (Hl' & Hout & Hall); [done|lia|done|].
  eexists. split; [done|]. split_and!; [by apply write_ttls_ok|lia| | | |done].
  - intros H2. trans (take 2 r).
    + apply get_take2; [done|]. intros i Hi. apply Hout; [lia|]. intros o Hin.
      apply (spaced_above _ _ _ _ Hsp) in Hin. lia.
    + unfold r, with_id. destruct (_ && _) eqn:E.
      * rewrite take_app_le by (rewrite length_take; unfold len in *; lia). by rewrite take_take.
      * exfalso. destruct (answer_ttl_offsets_spaced _ _ Hok Ho) as [Hs' Hne].
        destruct offsets as [|o ?]; [done|]. destruct Hs' as (? & ? & _).
        apply andb_false_iff in E as [E|E]; bools; lia.
  - eapply (answer_ttl_offsets_agree r); [done|done| |done]. intros i Hi Hoi. symmetry. apply Hout; [lia|done].
  - intros i Hi Hoi. rewrite Hout by (lia || done). unfold r. by rewrite with_id_get.
Qed.

(** The cache keeps the promises of the records.  Whatever answers were
    remembered, nothing panics, at most 512 are kept, and what is served for a
    question is an answer that was remembered for that very name, type, class and
    set of resolvers, under the ID of the query that asks now, with the same
    records and no byte changed but the ID and the TTLs. No record is served past
    the moment its own TTL runs out, none with a TTL above 300 seconds, and none
    whose TTL was zero. *)
Theorem cache_honest history :
  Forall (fun r => bytes_ok r.1.2) history ->
  exists c, remember_all history ∅ = Val c /\ Z.of_nat (size c) <= DNS_CACHE_MAX_ENTRIES /\
  forall key query now, bytes_ok query ->
  exists answer, cached_answer_at key query now c = Val answer /\
  forall served, answer = Some served ->
  exists response t offsets,
    (key, response, t) ∈ history /\
    answer_ttl_offsets response = Val (Some offsets) /\ answer_ttl_offsets served = Val (Some offsets) /\
    length served = length response /\ (2 <= len query -> take 2 served = take 2 query) /\
    (forall i, 2 <= i -> outside offsets i -> get served i = get response i) /\
    forall o, o ∈ offsets -> exists ttl left,
      read_u32 response o = Val ttl /\ read_u32 served o = Val left /\
      0 < ttl /\ 0 <= left /\ now + left * 10 ^ 9 <= t + Z.min ttl DNS_CACHE_MAX_TTL * 10 ^ 9.
Proof.
  intros Hh. destruct (remember_all_ok history [] ∅ Hh cache_empty_ok) as (c & Hc & Hok).
  exists c. split; [done|]. split; [apply Hok|]. intros key query now Hq.
  destruct (c !! key) as [entry|] eqn:He.
  2: { exists None. unfold cached_answer_at. by rewrite He. }
  destruct (decide (c_expires_at entry <= now)) as [Hexp|Hlive].
  { exists None. unfold cached_answer_at. rewrite He, (proj2 (Z.leb_le _ _)) by done. done. }
  destruct (cache_from _ _ Hok key entry He) as (t & ttl & Hin & Hbytes & Httl & Eexp).
  destruct (answer_ttl_bound _ _ Hbytes Httl) as (offsets & Ho & Hb & Hrec).
  destruct (cached_answer_served history key query now c entry offsets _ Hq Hok He ltac:(lia) Ho Hbytes eq_refl)
    as (served & Hs & _ & Hl & Hid & Hos & Hag & Hall).
  exists (Some served). split; [done|]. intros ? [= <-]. exists (c_response entry), t, offsets.
  split_and!; try done. intros o Hin'. destruct (Hrec o Hin') as (z & Hz & Hle).
  rewrite Forall_forall in Hall. exists z. eexists. split; [done|]. split; [by apply Hall|].
  assert (0 <= (c_expires_at entry - now) / 10 ^ 9) by (apply Z.div_pos; lia).
  pose proof (Z.mul_div_le (c_expires_at entry - now) (10 ^ 9)). unfold umax. split_and!; lia.
Qed.

Definition sample_key : CacheKey :=
  {| k_name := lit "example.com"; k_qtype := 1; k_qclass := 1; k_resolvers := lit "1.1.1.1:53" |}.
Definition sample_response : bytes :=
  wire_query 7 answer_flags (be16z 1 ++ be16z 0 ++ be16z 0) 1 [lit "example"; lit "com"] 1 1
    ([0xC0; 0x0C] ++ be16z 1 ++ be16z 1 ++ to_be_bytes 4 120 ++ be16z 4 ++ [93; 184; 216; 34]).

(** Fetched at 0 with a TTL of 120 s, served 90 s later with 30 s left. *)
Lemma cache_honest_witness :
  exists c served, remember_all [(sample_key, sample_response, 0)] ∅ = Val c /\
    cached_answer_at sample_key [1; 2] (90 * 10 ^ 9) c = Val (Some served) /\
    take 2 served = [1; 2] /\ read_u32 served 35 = Val 30.
Proof.
  destruct (cache_honest [(sample_key, sample_response, 0)]) as (c & Hc & _ & H).
  { apply (bool_decide_unpack _). vm_compute. exact I. }
  destruct (H sample_key [1; 2] (90 * 10 ^ 9)) as (answer & Ha & Hs).
  { apply (bool_decide_unpack _). vm_compute. exact I. }
  assert (c = match remember_all [(sample_key, sample_response, 0)] ∅ with Val c => c | _ => ∅ end) as Ec
    by (rewrite Hc; reflexivity).
  destruct answer as [served|]; [|exfalso; revert Ha; rewrite Ec; vm_compute; discriminate].
  destruct (Hs served eq_refl) as (_ & _ & _ & _ & _ & _ & _ & Hid & _).
  exists c, served. split; [exact Hc|]. split; [exact Ha|]. split.
  - apply Hid. vm_compute. congruence.
  - revert Ha. rewrite Ec. vm_compute. intros [= <-]. reflexivity.
Defined.

(** ** The answer the client builds, read by its own reader *)

Lemma skip_dns_name_wire fuel pre labels post :
  Forall label_ok labels -> Z.of_nat (length labels) < Z.of_nat fuel ->
  skip_dns_name fuel (pre ++ wire_name labels ++ post) (len pre) = Val (Some (len pre + len (wire_name labels))).
Proof.
  intros Hl. revert fuel pre. induction Hl as [|l labels [Hlen _] _ IH]; intros fuel pre Hf;
    (destruct fuel as [|fuel]; [cbn in Hf; lia|]); cbn [skip_dns_name].
  - assert (get (pre ++ wire_name [] ++ post) (len pre) = Some 0) as ->; [|done].
    apply index_Val. exact (index_app_at pre 0 post).
  - rewrite wire_name_cons, <- !app_assoc, <- app_comm_cons.
    assert (get (pre ++ len l :: l ++ wire_name labels ++ post) (len pre) = Some (len l)) as ->
      by (apply index_Val, index_app_at).
    rewrite (proj2 (Z.eqb_neq (len l) 0)), (proj2 (Z.leb_gt 0xC0 (len l))) by lia.
    replace (pre ++ len l :: l ++ wire_name labels ++ post)
      with ((pre ++ len l :: l) ++ wire_name labels ++ post) by (by rewrite <- !app_assoc).
    replace (len pre + (1 + len l)) with (len (pre ++ len l :: l)) by (simp_len; lia).
    rewrite IH by (cbn in Hf; lia). do 2 f_equal. simp_len. lia.
Qed.

Lemma skip_name_wire s pre labels post pos :
  s = pre ++ wire_name labels ++ post -> pos = len pre -> Forall label_ok labels ->
  skip_name s pos = Val (Some (pos + len (wire_name labels))).
Proof.
  intros -> -> Hl. apply skip_dns_name_wire; [done|]. pose proof (len_wire_name labels).
  unfold len in *. rewrite !length_app. lia.
Qed.

Lemma skip_name_pointer s pre l post pos :
  s = pre ++ 0xC0 :: l :: post -> pos = len pre -> skip_name s pos = Val (Some (pos + 2)).
Proof.
  intros -> ->. unfold skip_name. cbn [skip_dns_name].
  assert (get (pre ++ 0xC0 :: l :: post) (len pre) = Some 0xC0) as -> by (apply index_Val, index_app_at). done.
Qed.

Lemma len_to_be_bytes n z : len (to_be_bytes n z) = Z.of_nat n.
Proof. unfold len. by rewrite length_to_be_bytes. Qed.

Lemma built_answer_ttl id labels qtype qclass rtype rdata :
  is_u16 id -> Forall label_ok labels -> is_u16 qtype -> is_u16 qclass -> is_u16 rtype -> len rdata < 2 ^ 16 ->
  answer_ttl (wire_query id answer_flags (be16z 1 ++ be16z 0 ++ be16z 0) 1 labels qtype qclass
    ([0xC0; 0x0C] ++ be16z rtype ++ be16z 1 ++ to_be_bytes 4 60 ++ be16z (len rdata) ++ rdata))
  = Val (Some ADDRESS_TTL).
Proof.
  intros Hid Hl Ht Hc Hr Hd. set (rec := [0xC0; 0x0C] ++ _). set (s := wire_query _ _ _ _ _ _ _ _).
  pose proof (len_nonneg rdata) as Hd0. pose proof (len_wire_name labels) as Hw.
  set (hdr := wire_header id answer_flags 1 (be16z 1 ++ be16z 0 ++ be16z 0)).
  assert (s = hdr ++ wire_question labels qtype qclass ++ rec) as Es by done.
  assert (len hdr = 12) as Hh by (unfold hdr, wire_header; by simp_len).
  assert (len (wire_question labels qtype qclass) = len (wire_name labels) + 4) as Hq
    by (unfold wire_question; simp_len; lia).
  assert (len rec = 12 + len rdata) as Hrec by (unfold rec; simp_len; rewrite len_to_be_bytes; cbn; lia).
  assert (len s = 28 + len (wire_name labels) + len rdata) as Hs by (rewrite Es; simp_len; lia).
  set (p := 12 + len (wire_name labels) + 4).
  assert (answer_ttl_offsets s = Val (Some [p + 2 + 4])) as Eo.
  { unfold answer_ttl_offsets. rewrite (proj2 (Z.ltb_ge _ _)) by lia.
    rewrite (index_u16_at s (be16z id ++ answer_flags ++ be16z 1) 1
      (be16z 0 ++ be16z 0 ++ wire_question labels qtype qclass ++ rec)); [|by rewrite Es|done|done].
    cbn [Z.eqb]. rewrite (skip_name_wire s hdr labels (be16z qtype ++ be16z qclass ++ rec));
      [|rewrite Es; unfold wire_question; by rewrite <- !app_assoc|done|done].
    change (Z.to_nat 1) with 1%nat. cbn [ttl_offsets].
    rewrite (skip_name_pointer s (hdr ++ wire_question labels qtype qclass) 0x0C
      (be16z rtype ++ be16z 1 ++ to_be_bytes 4 60 ++ be16z (len rdata) ++ rdata));
      [|rewrite Es, <- app_assoc; done|simp_len; lia].
    rewrite (proj2 (Z.ltb_ge _ _)) by (unfold p in *; lia).
    rewrite (index_u16_at s (hdr ++ wire_question labels qtype qclass ++ [0xC0; 0x0C] ++ be16z rtype ++ be16z 1 ++ to_be_bytes 4 60)
      (len rdata) rdata); [done| | |unfold is_uint; lia].
    - rewrite Es. unfold rec. by rewrite <- !app_assoc.
    - simp_len. rewrite len_to_be_bytes. lia. }
  unfold answer_ttl. rewrite (proj2 (Z.ltb_ge _ _)), Eo by lia.
  assert (index s 3 = Val 0x80) as ->.
  { rewrite Es. unfold hdr, wire_header, answer_flags. rewrite <- !app_assoc. rewrite index_app_r by (rewrite len_be16z; lia).
    by rewrite len_be16z. }
  change (Z.land 0x80 0x0F =? 0) with true. cbn [negb map_run].
  assert (read_u32 s (p + 2 + 4) = Val 60) as ->; [|done].
  unfold read_u32. rewrite (proj2 (Z.leb_le _ _)) by (unfold p; lia).
  replace s with ((hdr ++ wire_question labels qtype qclass ++ [0xC0; 0x0C] ++ be16z rtype ++ be16z 1)
    ++ to_be_bytes 4 60 ++ be16z (len rdata) ++ rdata) by (rewrite Es; unfold rec; by rewrite <- !app_assoc).
  rewrite slice_app_mid; [done| |]; simp_len; rewrite ?len_to_be_bytes; unfold p; lia.
Qed.

(** ** A question about a proxied name *)

Section Handling.
Context (to_lowercase : bytes -> bytes) (id : Z) (flags counts rest : bytes) (labels : list bytes)
  (qtype qclass : Z) (proxy_domains : list bytes) (scope : bytes) (upstream : option bytes) (now later : Z).
Hypothesis (Hid : is_u16 id) (Hflags : len flags = 2) (Hcounts : len counts = 6)
  (Hlabels : Forall label_ok labels) (Hqtype : is_u16 qtype) (Hqclass : is_u16 qclass)
  (Hname : join_dots labels <> [])
  (Hproxied : is_iroh to_lowercase (join_dots labels) = false /\
              should_proxy_domain (join_dots labels) proxy_domains = true).

Definition asked_query : bytes := wire_query id flags counts 1 labels qtype qclass rest.
Definition asked_parsed : Query :=
  {| q_id := id; q_domain := join_dots labels; q_qtype := qtype; q_qclass := qclass;
     q_question := wire_question labels qtype qclass |}.
Definition handled (d : Device) : run (option bytes * Device) :=
  handle_dns_query to_lowercase asked_query proxy_domains scope upstream now later d.

Lemma asked_query_parse : parse_query asked_query = Val (Some asked_parsed).
Proof. apply wire_query_parse; (done || (unfold is_uint; lia)). Qed.

Lemma handled_other d :
  qclass <> DNS_CLASS_IN \/ (qtype <> DNS_TYPE_A /\ qtype <> DNS_TYPE_AAAA) ->
  handled d = Val (Some (build_empty_response asked_parsed), d).
Proof.
  intros Hother. unfold handled, handle_dns_query. rewrite asked_query_parse.
  destruct Hproxied as [Hi Hp]. cbn [q_domain asked_parsed q_qclass q_qtype].
  destruct (join_dots labels) as [|b name]; [done|]. rewrite Hi, Hp. cbn [negb andb].
  destruct (qclass =? DNS_CLASS_IN) eqn:E1, (qtype =? DNS_TYPE_A) eqn:E2, (qtype =? DNS_TYPE_AAAA) eqn:E3;
    bools; cbn [negb orb andb]; try done; tauto.
Qed.

(** A question that gets an address, by the answer the mapping gave. *)
Definition allocated (d : Device) : option IpAddr * IpMapping :=
  if qtype =? DNS_TYPE_A then
    let '(ip, m) := allocate to_lowercase (join_dots labels) now (d_mapping d) in (Some (IpV4 ip), m)
  else
    let '(ip, m) := allocate_v6 to_lowercase (join_dots labels) now (d_mapping d) in (IpV6 <$> ip, m).

Lemma handled_address d :
  qclass = DNS_CLASS_IN -> qtype = DNS_TYPE_A \/ qtype = DNS_TYPE_AAAA ->
  handled d = Val (Some match (allocated d).1 with
                        | None => build_empty_response asked_parsed
                        | Some a => build_response asked_parsed a
                        end, {| d_mapping := (allocated d).2; d_cache := d_cache d |}).
Proof.
  intros Ec Et. unfold handled, handle_dns_query. rewrite asked_query_parse.
  destruct Hproxied as [Hi Hp]. cbn [q_domain asked_parsed q_qclass q_qtype].
  assert (negb (qclass =? DNS_CLASS_IN) || (negb (qtype =? DNS_TYPE_A) && negb (qtype =? DNS_TYPE_AAAA)) = false) as ->.
  { rewrite Ec. by destruct Et as [->| ->]. }
  rewrite Hi, Hp. cbn [negb andb]. fold (allocated d).
  destruct (join_dots labels) as [|b name] eqn:E; [done|].
  destruct (allocated d) as [[a|] m]; done.
Qed.

Lemma answered_ttl addr rtype rdata :
  address_record addr qtype = Some (rtype, rdata) ->
  answer_ttl (build_response asked_parsed addr) = Val (Some ADDRESS_TTL).
Proof.
  intros Hr. unfold asked_parsed. rewrite build_response_wire. unfold answer_records. rewrite Hr. cbn [fst snd].
  assert (is_u16 rtype /\ len rdata < 2 ^ 16) as [? ?].
  { unfold address_record in Hr. destruct addr; (destruct (_ =? _); [|done]); injection Hr as <- <-;
      rewrite len_to_be_bytes; unfold is_uint, DNS_TYPE_A, DNS_TYPE_AAAA; lia. }
  by apply built_answer_ttl.
Qed.

Lemma empty_is_response : build_empty_response asked_parsed =
  wire_query id answer_flags (be16z 0 ++ be16z 0 ++ be16z 0) 1 labels qtype qclass [].
Proof.
  unfold build_empty_response, wire_query, wire_header, answer_flags, asked_parsed. cbn [q_id q_question].
  rewrite app_nil_r, <- !app_assoc. done.
Qed.

Lemma answered_empty :
  take 2 (build_empty_response asked_parsed) = take 2 asked_query /\
  answers_the_question (build_empty_response asked_parsed) asked_query = Val true /\
  answer_ttl (build_empty_response asked_parsed) = Val None.
Proof.
  rewrite empty_is_response. split_and!; [done|by apply answers_wire|].
  pose proof (len_wire_name labels). set (s := wire_query _ _ _ _ _ _ _ _).
  assert (12 <= len s) by (unfold s; rewrite wire_query_len by done; simp_len; lia).
  unfold answer_ttl, answer_ttl_offsets. rewrite !(proj2 (Z.ltb_ge _ _)) by lia.
  destruct (index_inside s 3) as [f ->]; [lia|]. destruct (_ =? 0); [|done]. cbn [negb].
  by rewrite (index_u16_at s (be16z id ++ answer_flags ++ be16z 1) 0
    (be16z 0 ++ be16z 0 ++ wire_question labels qtype qclass ++ [])).
Qed.

Lemma answered_suffix addr rtype rdata :
  address_record addr qtype = Some (rtype, rdata) -> suffix rdata (build_response asked_parsed addr).
Proof.
  intros Hr. unfold build_response. cbn [asked_parsed q_qtype]. rewrite Hr.
  eexists. rewrite !app_assoc. reflexivity.
Qed.

Lemma answered_question addr :
  take 2 (build_response asked_parsed addr) = take 2 asked_query /\
  answers_the_question (build_response asked_parsed addr) asked_query = Val true.
Proof.
  unfold asked_parsed. rewrite build_response_wire. split; [done|]. apply answers_wire; (done || simp_len; lia).
Qed.

End Handling.

(** A proxied name is answered from the block, and the answer is true for as
    long as it says.  On any mapping the tunnel may have reached, panics
    included, an A or AAAA question in the Internet class about a proxied name
    gets a response to exactly that question, under its ID, whose one record has
    the TTL the mapping holds the address for; the address is of the block's pool
    of that family and the mapping reads the (folded) name back from it. A
    question of another type or class gets an empty response and takes no
    address. Neither touches the cache. *)
Theorem proxied_name_answered to_lowercase id flags counts rest labels qtype qclass domains scope
    upstream now later base d :
  is_u16 id -> len flags = 2 -> len counts = 6 -> Forall label_ok labels -> is_u16 qtype -> is_u16 qclass ->
  join_dots labels <> [] -> is_iroh to_lowercase (join_dots labels) = false ->
  should_proxy_domain (join_dots labels) domains = true ->
  is_u32 base -> rtc (mapping_step to_lowercase) (fresh_mapping (block_set base)) (d_mapping d) ->
  let query := wire_query id flags counts 1 labels qtype qclass rest in
  exists r d', handle_dns_query to_lowercase query domains scope upstream now later d = Val (Some r, d') /\
    d_cache d' = d_cache d /\ take 2 r = take 2 query /\ answers_the_question r query = Val true /\
    if (qclass =? DNS_CLASS_IN) && (qtype =? DNS_TYPE_A) then
      exists ip, block_set base + 16 <= ip <= block_set base + 254 /\
        (lookup_domain ip (d_mapping d')).1 = Some (fold_domain to_lowercase (join_dots labels)) /\
        suffix (to_be_bytes 4 ip) r /\ answer_ttl r = Val (Some ADDRESS_TTL)
    else if (qclass =? DNS_CLASS_IN) && (qtype =? DNS_TYPE_AAAA) then
      exists ip, ipv6_block (block_set base) + 16 <= ip <= ipv6_block (block_set base) + 0xfffe /\
        (lookup_domain_v6 ip (d_mapping d')).1 = Some (fold_domain to_lowercase (join_dots labels)) /\
        suffix (to_be_bytes 16 ip) r /\ answer_ttl r = Val (Some ADDRESS_TTL)
    else d' = d /\ answer_ttl r = Val None.
Proof.
  intros Hid Hf Hc Hl Ht Hk Hn Hi Hp Hb Hr query.
  pose proof (handled_address to_lowercase id flags counts rest labels qtype qclass domains scope upstream
    now later Hid Hf Hc Hl Ht Hk Hn (conj Hi Hp) d) as Haddr.
  pose proof (answered_question id flags counts rest labels qtype qclass Hid Hf Hc Hl Ht Hk) as Hq.
  pose proof (answered_ttl id labels qtype qclass Hid Hl Ht Hk) as Httl.
  pose proof (answered_suffix id labels qtype qclass) as Hsuf.
  destruct (decide (qclass = DNS_CLASS_IN /\ (qtype = DNS_TYPE_A \/ qtype = DNS_TYPE_AAAA))) as [[Ec Et]|Hother].
  - specialize (Haddr Ec Et). rewrite (proj2 (Z.eqb_eq _ _) Ec). cbn [andb]. destruct Et as [Et|Et].
    + pose proof (reachable_allocate to_lowercase base (d_mapping d) (join_dots labels) now Hb Hr) as Ha.
      unfold allocated in Haddr. rewrite (proj2 (Z.eqb_eq _ _) Et) in *.
      destruct (allocate _ _ _ _) as [ip m]. destruct Ha as [Hip Hlk].
      eexists _, _. split; [exact Haddr|]. split; [done|]. split; [apply Hq|]. split; [apply Hq|].
      exists ip. split; [done|]. split; [exact Hlk|]. cbn [fst].
      split; [eapply Hsuf|eapply Httl]; cbn; rewrite Et; reflexivity.
    + destruct (reachable_allocate_v6 to_lowercase base (d_mapping d) (join_dots labels) now Hb Hr)
        as (ip & Ea & Hip & Hlk).
      unfold allocated in Haddr. rewrite (proj2 (Z.eqb_neq qtype DNS_TYPE_A)) in * by (rewrite Et; done).
      rewrite (proj2 (Z.eqb_eq _ _) Et).
      destruct (allocate_v6 _ _ _ _) as [o m]. cbn [fst snd] in *. subst o.
      eexists _, _. split; [exact Haddr|]. split; [done|]. split; [apply Hq|]. split; [apply Hq|].
      exists ip. split; [done|]. split; [exact Hlk|].
      split; [eapply Hsuf|eapply Httl]; cbn; rewrite Et; reflexivity.
  - pose proof (answered_empty id flags counts rest labels qtype qclass Hid Hf Hc Hl Ht Hk) as (He1 & He2 & He3).
    exists (build_empty_response (asked_parsed id labels qtype qclass)), d.
    split; [apply handled_other; try done; destruct (decide (qclass = DNS_CLASS_IN)); tauto|]. split; [done|]. split; [done|]. split; [done|].
    destruct (qclass =? DNS_CLASS_IN) eqn:E1, (qtype =? DNS_TYPE_A) eqn:E2, (qtype =? DNS_TYPE_AAAA) eqn:E3;
      bools; cbn [andb]; (done || tauto).
Qed.

Lemma proxied_name_answered_witness :
  let d := {| d_mapping := fresh_mapping (block_set (ipv4_new 10 0 1 0)); d_cache := ∅ |} in
  exists r d', handle_dns_query to_ascii_lowercase
      (wire_query 0x1234 [1; 0] (repeat 0 6) 1 [lit "App"; lit "test"] 1 1 []) [lit "*.test"] [] None 0 0 d
      = Val (Some r, d') /\ answer_ttl r = Val (Some ADDRESS_TTL).
Proof.
  intros d.
  destruct (proxied_name_answered to_ascii_lowercase 0x1234 [1; 0] (repeat 0 6) [] [lit "App"; lit "test"] 1 1
    [lit "*.test"] [] None 0 0 (ipv4_new 10 0 1 0) d) as (r & d' & Hh & _ & _ & _ & Ha);
    try (vm_compute; (done || (split; congruence))).
  - repeat constructor; vm_compute; congruence.
  - exists r, d'. split; [exact Hh|]. change ((1 =? DNS_CLASS_IN) && (1 =? DNS_TYPE_A)) with true in Ha.
    destruct Ha as (ip & _ & _ & _ & Httl). exact Httl.
Defined.

(** ** Every reader ends *)

Lemma index_set_inside {A} (s : list A) i b : 0 <= i < len s -> exists s', index_set s i b = Val s' /\ len s' = len s.
Proof.
  intros Hi. unfold index_set. rewrite (proj2 (Z.ltb_lt _ _)) by lia. eexists. split; [done|]. unfold len. by rewrite length_insert.
Qed.

Lemma deliver_ends answer r : bytes_ok answer -> (forall id p, waiting r !! id = Some p -> bytes_ok (p_question p)) -> exists x, deliver answer r = Val x.
Proof.
  intros Ha Hr. unfold deliver. destruct (len answer <? 12) eqn:E; [eauto|]. bools. destruct (index_inside answer 2) as [f ->]; [lia|].
  destruct (_ =? 0); [eauto|]. destruct (index_u16_inside answer 0) as [id ->]; [lia..|]. destruct (waiting r !! id) as [p|] eqn:Ep; [|eauto].
  destruct (answers_the_question_ends answer (p_question p) Ha (Hr _ _ Ep)) as [[] ->]; cbn [negb]; [|eauto].
  destruct (index_set_inside answer 0 (original_id p).1) as (a1 & -> & H1); [lia|]. destruct (index_set_inside a1 1 (original_id p).2) as (a2 & -> & _); [lia|]. eauto.
Qed.

(** The answers a cache holds are messages. *)
Definition cache_bytes (c : DnsCache) : Prop := forall k e, c !! k = Some e -> bytes_ok (c_response e).

Lemma cached_answer_ends key query now c : bytes_ok query -> cache_bytes c -> exists r, cached_answer_at key query now c = Val r.
Proof.
  intros Hq Hc. unfold cached_answer_at. destruct (c !! key) as [e|] eqn:E; [|eauto]. destruct (_ <=? now); [eauto|]. rewrite with_id_run.
  destruct (set_answer_ttls_total (with_id query (c_response e)) (Z.min (saturating_sub (c_expires_at e) now / 10 ^ 9) (umax 32))) as [r ->]; [|eauto].
  by apply with_id_ok, (Hc key).
Qed.

Lemma remember_answer_ends key response now c : bytes_ok response -> cache_bytes c -> exists c', remember_answer key response now c = Val c' /\ cache_bytes c'.
Proof.
  intros Hr Hc. unfold remember_answer. destruct (answer_ttl_total response Hr) as [[ttl|] ->]; [|eauto]. eexists. split; [done|].
  intros k e. destruct (decide (k = key)) as [->|Hk]; [rewrite lookup_insert_eq; by intros [= <-]|]. rewrite lookup_insert_ne by done.
  repeat case_match; [by rewrite lookup_empty| |by apply Hc]. intros [He _]%map_lookup_filter_Some. by apply (Hc k).
Qed.

Lemma handle_dns_query_ends to_lowercase query domains scope upstream now later d :
  bytes_ok query -> (forall a, upstream = Some a -> bytes_ok a) -> cache_bytes (d_cache d) ->
  exists r d', handle_dns_query to_lowercase query domains scope upstream now later d = Val (r, d') /\ cache_bytes (d_cache d').
Proof.
  intros Hq Hu Hc. unfold handle_dns_query. destruct (parse_query_ends query Hq) as [[parsed|] ->]; [|eauto].
  destruct (q_domain parsed) as [|b domain]; [eauto|]. destruct (_ && _).
  - destruct (_ || _); [eauto|]. destruct (if _ =? _ then _ else _) as [[answer|] m]; eauto.
  - unfold forward_dns_query. edestruct (cached_answer_ends) as [[hit|] ->]; [exact Hq|exact Hc|eauto|].
    destruct upstream as [answer|]; [|eauto]. edestruct (remember_answer_ends) as (c' & -> & Hc'); [by apply Hu|exact Hc|]. eauto.
Qed.

(** C40: Every reader of DNS messages ends with a value on every datagram: the
    parser of a question, the comparison of an answer with it and the delivery of
    an answer to who waits for it, the skipping of names, the reading and the
    writing of the records' lifetimes, and the server that is made of them, with
    any answer of the resolvers and any answers in its cache.  A name whose
    compression pointers loop, a label or a record that runs past the end, an
    empty or a cut off message never make the client panic or spin. *)
Theorem dns_readers_total payload query :
  bytes_ok payload -> bytes_ok query ->
  (exists r, parse_query payload = Val r) /\
  (exists r, question_of payload = Val r) /\
  (exists b, answers_the_question payload query = Val b) /\
  (forall r, (forall id p, waiting r !! id = Some p -> bytes_ok (p_question p)) -> exists x, deliver payload r = Val x) /\
  (forall pos, 0 <= pos -> exists r, skip_name payload pos = Val r) /\
  (exists r, answer_ttl_offsets payload = Val r) /\
  (exists r, answer_ttl payload = Val r) /\
  (forall ttl, exists r, set_answer_ttls payload ttl = Val r) /\
  (forall to_lowercase domains scope now later d, cache_bytes (d_cache d) ->
     exists r d', handle_dns_query to_lowercase query domains scope (Some payload) now later d = Val (r, d') /\ cache_bytes (d_cache d')).
Proof.
  intros Hp Hq. split_and!.
  - by apply parse_query_ends.
  - by apply question_of_ends.
  - by apply answers_the_question_ends.
  - intros r. by apply deliver_ends.
  - intros pos. by apply skip_name_total.
  - by apply answer_ttl_offsets_total.
  - by apply answer_ttl_total.
  - intros ttl. by apply set_answer_ttls_total.
  - intros to_lowercase domains scope now later d. apply handle_dns_query_ends; [done|]. by intros a [= <-].
Qed.

(** A name that points at itself, and an answer count with nothing behind it. *)
Lemma dns_readers_total_witness :
  let looping := repeat 0 4 ++ [0; 1; 0; 9] ++ repeat 0 4 ++ [0xC0; 0x0C; 0; 1; 0; 1] in
  (exists r, parse_query looping = Val r) /\ (exists r, answer_ttl_offsets looping = Val r).
Proof.
  intros looping. assert (bytes_ok looping) as Hb by (apply (bool_decide_unpack _); vm_compute; exact I).
  destruct (dns_readers_total looping [] Hb ltac:(constructor)) as (H1 & _ & _ & _ & _ & H2 & _). split; [exact H1|exact H2].
Defined.
