(* ===== verification/Peers.v ===== *)
(** * Connected peers (nexapipe/src/conn/peers.rs, allow_list.rs)

    The registry lists every connection that is being served, by the endpoint id
    of its peer; a [PeerGuard] takes its entry out when the connection ends, and
    [close_where] tells connections to stop.  Each operation holds the lock of the
    map, so the tasks are an interleaving of them.

    The sending half of a connection's watch channel lives in its entry and
    nowhere else, so the channel is the entry's [p_revoked]: the task at the other
    end stops when it turns true or the entry is gone ([told]). *)

From Stdlib Require Import Sorted.
From S2P Require Import Prelude RustStd.

Inductive PathKind := PathDirect | PathRelay | PathUnknown.
#[global] Instance PathKind_eq_dec : EqDecision PathKind.
Proof. solve_decision. Defined.

(** An [EndpointId] is the 32 bytes of a public key. *)
Abbreviation EndpointId := bytes.

Record PeerIdentity := { pi_client_id : option bytes; pi_device : option bytes }.
#[global] Instance PeerIdentity_eq_dec : EqDecision PeerIdentity.
Proof. solve_decision. Defined.
Definition anonymous : PeerIdentity := {| pi_client_id := None; pi_device := None |}.

Record Peer := {
  p_id : Z;
  p_since : Z;
  p_path : PathKind;
  p_identity : PeerIdentity;
  p_revoked : bool;
}.

Record PeerInfo := {
  i_endpoint_id : EndpointId;
  i_connected_for : Z;
  i_path : PathKind;
  i_identity : PeerIdentity;
}.

Record PeerRegistry := { peers : gmap EndpointId (list Peer); reg_next_id : Z }.
Record PeerGuard := { pg_endpoint : EndpointId; pg_id : Z }.

Definition registry_new : PeerRegistry := {| peers := ∅; reg_next_id := 0 |}.
Definition with_peers (m : gmap EndpointId (list Peer)) (r : PeerRegistry) : PeerRegistry :=
  {| peers := m; reg_next_id := reg_next_id r |}.

(** [fetch_add(1) + 1]: both additions on a [u64]. *)
Definition registry_insert (endpoint : EndpointId) (path : PathKind) (identity : PeerIdentity) (now : Z)
    (r : PeerRegistry) : PeerGuard * PeerRegistry :=
  let id := wrapping 64 (reg_next_id r + 1) in
  let entry := {| p_id := id; p_since := now; p_path := path; p_identity := identity; p_revoked := false |} in
  let entries := match peers r !! endpoint with Some l => l | None => [] end in
  ({| pg_endpoint := endpoint; pg_id := id |},
   {| peers := <[endpoint := entries ++ [entry]]> (peers r); reg_next_id := wrapping 64 (reg_next_id r + 1) |}).

Definition peer_with_path (path : PathKind) (p : Peer) : Peer :=
  {| p_id := p_id p; p_since := p_since p; p_path := path; p_identity := p_identity p; p_revoked := p_revoked p |}.
Definition revoke (p : Peer) : Peer :=
  {| p_id := p_id p; p_since := p_since p; p_path := p_path p; p_identity := p_identity p; p_revoked := true |}.

Definition set_path (endpoint : EndpointId) (path : PathKind) (r : PeerRegistry) : PeerRegistry :=
  with_peers (alter (fmap (peer_with_path path)) endpoint (peers r)) r.

(** Every entry, in the map's order. *)
Definition all_peers (r : PeerRegistry) : list (EndpointId * Peer) :=
  map_to_list (peers r) ≫= fun e => (fun p => (e.1, p)) <$> e.2.

Definition signal (matches : PeerIdentity -> bool) (p : Peer) : Peer :=
  if matches (p_identity p) then revoke p else p.
Definition close_where (matches : PeerIdentity -> bool) (r : PeerRegistry) : Z * PeerRegistry :=
  (len (filter (fun e : EndpointId * Peer => matches (p_identity e.2) = true) (all_peers r)),
   with_peers (fmap (M:=list) (signal matches) <$> peers r) r).

Definition close_unauthenticated (r : PeerRegistry) : Z * PeerRegistry :=
  close_where (fun identity => is_none (pi_client_id identity)) r.

Definition sort_by_since : list (EndpointId * Peer) -> list (EndpointId * Peer) :=
  sort_by_key (fun e => p_since e.2).

Definition snapshot_peers (now : Z) (r : PeerRegistry) : list PeerInfo :=
  (fun e => {| i_endpoint_id := e.1; i_connected_for := saturating_sub now (p_since e.2);
               i_path := p_path e.2; i_identity := p_identity e.2 |}) <$> sort_by_since (all_peers r).

Definition registry_len (r : PeerRegistry) : Z :=
  foldr Z.add 0 ((fun e => len e.2) <$> map_to_list (peers r)).
Definition registry_is_empty (r : PeerRegistry) : bool :=
  forallb (fun e => match e.2 with [] => true | _ => false end) (map_to_list (peers r)).

Definition registry_remove (endpoint : EndpointId) (id : Z) (r : PeerRegistry) : PeerRegistry :=
  match peers r !! endpoint with
  | Some entries =>
      let entries := filter (fun p => p_id p <> id) entries in
      match entries with
      | [] => with_peers (delete endpoint (peers r)) r
      | _ => with_peers (<[endpoint := entries]> (peers r)) r
      end
  | None => r
  end.

Definition guard_drop_peer (g : PeerGuard) (r : PeerRegistry) : PeerRegistry :=
  registry_remove (pg_endpoint g) (pg_id g) r.

(** What the connection behind a guard sees on its channel. *)
Definition entry_of (g : PeerGuard) (r : PeerRegistry) : option Peer :=
  match peers r !! pg_endpoint g with
  | Some l => head (filter (fun p => p_id p = pg_id g) l)
  | None => None
  end.
Definition told (g : PeerGuard) (r : PeerRegistry) : bool :=
  match entry_of g r with Some p => p_revoked p | None => true end.

(** ** The allow list *)

Record PeerAllowList := { allowed : option (gset EndpointId) }.

Definition is_configured (a : PeerAllowList) : bool := is_some (allowed a).
Definition allow_list_len (a : PeerAllowList) : Z :=
  match allowed a with Some s => Z.of_nat (size s) | None => 0 end.
Definition allow_list_is_empty (a : PeerAllowList) : bool := allow_list_len a =? 0.
Definition allows_peer (a : PeerAllowList) (peer : EndpointId) : bool :=
  match allowed a with Some s => bool_decide (peer ∈ s) | None => true end.

Inductive AfterHandshake := HandshakeAccept | HandshakeReject (error_code : Z) (reason : bytes).

(** [nexapipe_proto::auth::close_code]. *)
Definition CLOSE_REQUIRED : Z := 2.
Definition CLOSE_REJECTED : Z := 3.
Definition CLOSE_TOO_MANY : Z := 4.
Definition PEER_NOT_ALLOWED : Z := 5.
Definition CLOSE_REVOKED : Z := 6.

Definition PEER_NOT_ALLOWED_REASON : bytes := lit "this peer is not in the server's allow list".

Definition after_handshake (a : PeerAllowList) (peer : EndpointId) : AfterHandshake :=
  if allows_peer a peer then HandshakeAccept
  else HandshakeReject PEER_NOT_ALLOWED PEER_NOT_ALLOWED_REASON.

(** ** The connections and their guards *)

Record Listing := { registry : PeerRegistry; live : gset (EndpointId * Z) }.

Definition guard_key (g : PeerGuard) : EndpointId * Z := (pg_endpoint g, pg_id g).

Inductive listing_step (s : Listing) : Listing -> Prop :=
| listing_insert endpoint path identity now g r :
    registry_insert endpoint path identity now (registry s) = (g, r) ->
    listing_step s {| registry := r; live := {[ guard_key g ]} ∪ live s |}
| listing_drop g :
    guard_key g ∈ live s ->
    listing_step s {| registry := guard_drop_peer g (registry s); live := live s ∖ {[ guard_key g ]} |}
| listing_path endpoint path :
    listing_step s {| registry := set_path endpoint path (registry s); live := live s |}
| listing_close matches :
    listing_step s {| registry := (close_where matches (registry s)).2; live := live s |}.

(** The entries are the live guards, under their endpoint, each once, and an
    endpoint without connections has no key; [bound] is above every id. *)
Record listing_ok (bound : Z) (s : Listing) : Prop := {
  lo_next : reg_next_id (registry s) = bound;
  lo_nonempty e l : peers (registry s) !! e = Some l -> l <> [];
  lo_nodup e l : peers (registry s) !! e = Some l -> NoDup (p_id <$> l);
  lo_live e id : (e, id) ∈ live s <-> exists l, peers (registry s) !! e = Some l /\ id ∈ p_id <$> l;
  lo_bound e id : (e, id) ∈ live s -> 0 < id <= bound;
}.

Lemma listing_new_ok : listing_ok 0 {| registry := registry_new; live := ∅ |}.
Proof.
  split; cbn; try done; intros *; rewrite ?lookup_empty; try done.
  split; [set_solver|]. by intros (l & ? & _).
Qed.

Lemma listing_ok_insert bound s endpoint path identity now g r :
  0 <= bound -> bound + 1 < 2 ^ 64 -> listing_ok bound s ->
  registry_insert endpoint path identity now (registry s) = (g, r) ->
  listing_ok (bound + 1) {| registry := r; live := {[ guard_key g ]} ∪ live s |}.
Proof.
  intros Hb0 Hb [Hn Hne Hnd Hl Hbd]. unfold registry_insert. rewrite Hn.
  rewrite wrapping_small by (unfold is_uint; lia). intros [= <- <-].
  assert (forall e l, peers (registry s) !! e = Some l -> bound + 1 ∉ p_id <$> l) as Hfresh.
  { intros e l He Hin. assert ((e, bound + 1) ∈ live s) as H by (apply Hl; eauto). apply Hbd in H. lia. }
  split; cbn.
  - done.
  - intros e l. rewrite lookup_insert_Some. intros [[_ <-]|[_ He]]; [|eauto].
    intros E. by apply app_nil in E as [_ ?].
  - intros e l. rewrite lookup_insert_Some. intros [[_ <-]|[_ He]]; [|eauto].
    rewrite fmap_app. apply NoDup_app. destruct (peers (registry s) !! endpoint) as [k|] eqn:E; cbn.
    + split; [eauto|]. split; [|apply NoDup_singleton]. intros x Hx ->%list_elem_of_singleton. by apply (Hfresh _ _ E).
    + split; [constructor|]. split; [intros x Hx; by apply not_elem_of_nil in Hx|apply NoDup_singleton].
  - intros e id. rewrite elem_of_union, elem_of_singleton, Hl. cbn.
    setoid_rewrite lookup_insert_Some. split.
    + intros [[= -> ->]|(l & He & Hin)].
      * eexists. split; [by left|]. rewrite fmap_app, elem_of_app. right. by left.
      * destruct (decide (endpoint = e)) as [->|Hne'].
        -- rewrite He. eexists. split; [by left|]. rewrite fmap_app, elem_of_app. by left.
        -- eexists. split; [by right|done].
    + intros (l & [[-> <-]|[Hne' He]] & Hin); [|right; eauto].
      rewrite fmap_app, elem_of_app in Hin. destruct Hin as [Hin| ->%list_elem_of_singleton]; [|by left].
      right. destruct (peers (registry s) !! e) as [k|] eqn:E; [eauto|by apply not_elem_of_nil in Hin].
  - intros e id. rewrite elem_of_union, elem_of_singleton. intros [[= -> ->]|H]; [lia|]. apply Hbd in H. lia.
Qed.

Lemma filter_ids id (l : list Peer) :
  p_id <$> filter (fun p => p_id p <> id) l = filter (fun x => x <> id) (p_id <$> l).
Proof. induction l as [|p l IH]; [done|]. rewrite fmap_cons, !filter_cons. by case_decide; rewrite <- ?IH. Qed.

Lemma registry_remove_lookup endpoint id r e :
  peers (registry_remove endpoint id r) !! e =
  (if decide (e = endpoint) then
     match peers r !! e with
     | Some l => match filter (fun p => p_id p <> id) l with [] => None | k => Some k end
     | None => None
     end
   else peers r !! e).
Proof.
  unfold registry_remove. destruct (peers r !! endpoint) as [l|] eqn:E; case_decide as He; subst; rewrite ?E; try done;
    destruct (filter _ l) eqn:Ef; cbn [with_peers peers];
    rewrite ?lookup_delete_eq, ?lookup_insert_eq, ?lookup_delete_ne, ?lookup_insert_ne by done; done.
Qed.

Lemma listing_ok_drop bound s g :
  listing_ok bound s ->
  listing_ok bound {| registry := guard_drop_peer g (registry s); live := live s ∖ {[ guard_key g ]} |}.
Proof.
  intros [Hn Hne Hnd Hl Hbd]. unfold guard_drop_peer.
  assert (forall e l, peers (registry_remove (pg_endpoint g) (pg_id g) (registry s)) !! e = Some l ->
    exists k, peers (registry s) !! e = Some k /\ l <> [] /\
              p_id <$> l = if decide (e = pg_endpoint g) then filter (fun x => x <> pg_id g) (p_id <$> k) else p_id <$> k) as H.
  { intros e l. rewrite registry_remove_lookup. case_decide; [|eauto].
    destruct (peers (registry s) !! e) as [k|]; [|done]. intros Hk. exists k. rewrite <- filter_ids.
    destruct (filter _ k) eqn:Ef; [done|]. injection Hk as <-. done. }
  split; cbn.
  - rewrite <- Hn. unfold registry_remove. by repeat case_match.
  - intros e l He. by apply H in He as (k & _ & ? & _).
  - intros e l He. apply H in He as (k & Hk & _ & ->). case_decide; [apply NoDup_filter|]; eauto.
  - intros e id. rewrite elem_of_difference, not_elem_of_singleton, Hl. unfold guard_key. split.
    + intros [(k & Hk & Hin) Hdiff]. setoid_rewrite registry_remove_lookup. rewrite Hk. case_decide as He; [|eauto].
      assert (id ∈ p_id <$> filter (fun p => p_id p <> pg_id g) k) as Hin'.
      { rewrite filter_ids, list_elem_of_filter. split; [|done]. intros ->. by subst e. }
      exists (filter (fun p => p_id p <> pg_id g) k). split; [|done].
      destruct (filter _ k); [by apply not_elem_of_nil in Hin'|done].
    + intros (l & He & Hin). destruct (H e l He) as (k & Hk & _ & E). rewrite E in Hin. case_decide.
      * apply list_elem_of_filter in Hin as [? ?]. split; [eauto|]. intros [= _ ?]. done.
      * split; [eauto|]. intros [= ? _]. done.
  - intros e id H'. apply Hbd with e. set_solver.
Qed.

(** Operations that only rewrite entries in place. *)
Lemma listing_ok_rewrite bound s r :
  listing_ok bound s -> reg_next_id r = reg_next_id (registry s) ->
  (forall e, fmap p_id <$> peers r !! e = fmap p_id <$> peers (registry s) !! e) ->
  listing_ok bound {| registry := r; live := live s |}.
Proof.
  intros [Hn Hne Hnd Hl Hbd] En Hids.
  assert (forall e l, peers r !! e = Some l -> exists k, peers (registry s) !! e = Some k /\ p_id <$> l = p_id <$> k) as H.
  { intros e l He. specialize (Hids e). rewrite He in Hids.
    destruct (peers (registry s) !! e) as [k|]; [|done]. exists k. cbn in Hids. split; congruence. }
  split; cbn; try done.
  - by rewrite En.
  - intros e l He. destruct (H e l He) as (k & Hk & E). intros ->. apply (Hne e k Hk). by destruct k.
  - intros e l He. destruct (H e l He) as (k & Hk & ->). eauto.
  - intros e id. rewrite Hl. split.
    + intros (k & Hk & Hin). specialize (Hids e). rewrite Hk in Hids. destruct (peers r !! e) as [l|]; [|done].
      exists l. split; [done|]. cbn in Hids. by replace (p_id <$> l) with (p_id <$> k) by congruence.
    + intros (l & He & Hin). destruct (H e l He) as (k & Hk & E). exists k. by rewrite <- E.
Qed.

Lemma set_path_ids endpoint path r e :
  fmap p_id <$> peers (set_path endpoint path r) !! e = fmap p_id <$> peers r !! e.
Proof.
  cbn [set_path with_peers peers]. destruct (decide (e = endpoint)) as [->|He].
  - rewrite lookup_alter_eq. destruct (peers r !! endpoint) as [l|]; [|done]. cbn. f_equal.
    rewrite <- list_fmap_compose. by apply list_fmap_ext.
  - by rewrite lookup_alter_ne.
Qed.

Lemma signal_id matches p : p_id (signal matches p) = p_id p.
Proof. unfold signal. by case_match. Qed.

Lemma close_where_ids matches r e :
  fmap p_id <$> peers (close_where matches r).2 !! e = fmap p_id <$> peers r !! e.
Proof.
  cbn [close_where with_peers peers snd]. rewrite lookup_fmap. destruct (peers r !! e) as [l|]; [|done]. cbn. f_equal.
  rewrite <- list_fmap_compose. apply list_fmap_ext. intros. apply signal_id.
Qed.

Lemma listing_step_ok bound s s' :
  0 <= bound -> bound + 1 < 2 ^ 64 -> listing_ok bound s -> listing_step s s' ->
  exists bound', bound <= bound' <= bound + 1 /\ listing_ok bound' s'.
Proof.
  intros Hb0 Hb Hs Hstep. destruct Hstep as [endpoint path identity now g r Hi|g Hg|endpoint path|matches].
  - exists (bound + 1). split; [lia|]. by eapply listing_ok_insert.
  - exists bound. split; [lia|]. by apply listing_ok_drop.
  - exists bound. split; [lia|]. apply listing_ok_rewrite; [done|done|]. intros. apply set_path_ids.
  - exists bound. split; [lia|]. apply listing_ok_rewrite; [done|done|]. intros. apply close_where_ids.
Qed.

Lemma listing_steps_ok n bound s s' :
  nsteps listing_step n s s' -> 0 <= bound -> bound + Z.of_nat n < 2 ^ 64 -> listing_ok bound s ->
  exists bound', listing_ok bound' s'.
Proof.
  intros H. revert bound. induction H as [s|n s s1 s2 Hstep _ IH]; intros bound Hb0 Hb Hs; [eauto|].
  destruct (listing_step_ok bound s s1 Hb0 ltac:(lia) Hs Hstep) as (b & Hb' & Hs1). apply (IH b); [lia|lia|done].
Qed.

(** ** What the listings say *)

Definition keys (r : PeerRegistry) : list (EndpointId * Z) := (fun e => (e.1, p_id e.2)) <$> all_peers r.

Lemma elem_of_all_peers r e p : (e, p) ∈ all_peers r <-> exists l, peers r !! e = Some l /\ p ∈ l.
Proof.
  unfold all_peers. rewrite list_elem_of_bind. split.
  - intros ([e' l] & Hin & Hl). apply list_elem_of_fmap in Hin as (q & [= -> ->] & Hq). cbn in *.
    apply elem_of_map_to_list in Hl. eauto.
  - intros (l & Hl & Hp). exists (e, l). split; [|by apply elem_of_map_to_list].
    apply list_elem_of_fmap. by exists p.
Qed.

Lemma keys_nodup (m : list (EndpointId * list Peer)) :
  NoDup m.*1 -> Forall (fun e => NoDup (p_id <$> e.2)) m ->
  NoDup ((fun e => (e.1, p_id e.2)) <$> (m ≫= fun e => (fun p => (e.1, p)) <$> e.2)).
Proof.
  induction m as [|[e l] m IH]; cbn; [intros; constructor|]. intros Hnd Hall.
  apply NoDup_cons in Hnd as [Hn Hnd]. apply Forall_cons in Hall as [Hl Hall].
  rewrite fmap_app. apply NoDup_app. split_and!.
  - cbn in Hl. rewrite <- list_fmap_compose. change (_ ∘ _) with (fun p => (e, p_id p)).
    replace ((fun p => (e, p_id p)) <$> l) with ((pair e) <$> (p_id <$> l)) by (by rewrite <- list_fmap_compose).
    apply NoDup_fmap_2; [|done]. by intros ?? [= ?].
  - intros [e' i] H1 H2. apply list_elem_of_fmap in H1 as ([e1 p1] & E1 & H1).
    apply list_elem_of_fmap in H1 as (q & E1' & _).
    apply list_elem_of_fmap in H2 as ([e2 p2] & E2 & H2).
    apply list_elem_of_bind in H2 as ([e3 l3] & H2 & H3). apply list_elem_of_fmap in H2 as (q2 & E2' & _).
    simplify_eq/=. apply Hn. apply list_elem_of_fmap. by eexists (_, l3).
  - by apply IH.
Qed.

Lemma keys_live bound s : listing_ok bound s -> keys (registry s) ≡ₚ elements (live s).
Proof.
  intros Hs. apply NoDup_Permutation; [|apply NoDup_elements|].
  - apply keys_nodup; [apply NoDup_fst_map_to_list|]. apply Forall_forall. intros [e l] Hin.
    apply elem_of_map_to_list in Hin. by eapply lo_nodup.
  - intros [e id]. rewrite elem_of_elements, (lo_live bound s Hs). unfold keys. rewrite list_elem_of_fmap. split.
    + intros ([e' p] & [= -> ->] & Hin). apply elem_of_all_peers in Hin as (l & Hl & Hp).
      exists l. split; [done|]. apply list_elem_of_fmap. eauto.
    + intros (l & Hl & Hin). apply list_elem_of_fmap in Hin as (p & -> & Hp). exists (e, p). split; [done|].
      apply elem_of_all_peers. eauto.
Qed.

Lemma registry_len_keys r : registry_len r = len (keys r).
Proof.
  unfold registry_len, keys, all_peers, len. rewrite length_fmap. induction (map_to_list (peers r)) as [|[e l] m IH]; [done|].
  cbn. rewrite IH, length_app, length_fmap. lia.
Qed.

Lemma is_empty_spec bound s : listing_ok bound s -> registry_is_empty (registry s) = true <-> live s = ∅.
Proof.
  intros Hs. unfold registry_is_empty. rewrite forallb_Forall, Forall_forall. split.
  - intros H. apply set_eq. intros [e id]. split; [|set_solver]. intros Hin.
    apply (lo_live bound s Hs) in Hin as (l & Hl & Hin). apply elem_of_map_to_list in Hl.
    apply H in Hl. cbn in Hl. destruct l; [by apply not_elem_of_nil in Hin|done].
  - intros El [e l] Hin. apply elem_of_map_to_list in Hin. cbn. destruct l as [|p l]; [done|].
    assert ((e, p_id p) ∈ live s) as Hp by (apply (lo_live bound s Hs); eexists; split; [done|by left]).
    rewrite El in Hp. set_solver.
Qed.

Definition older : EndpointId * Peer -> EndpointId * Peer -> Prop := key_le (fun e => p_since e.2).

(** ** Who is told to stop *)

Lemma head_filter_signal matches (l : list Peer) id :
  head (filter (fun p => p_id p = id) (signal matches <$> l)) =
  signal matches <$> head (filter (fun p => p_id p = id) l).
Proof.
  induction l as [|p l IH]; [done|]. rewrite fmap_cons, !filter_cons, signal_id. by case_decide.
Qed.

Lemma entry_of_close matches g r :
  entry_of g (close_where matches r).2 = signal matches <$> entry_of g r.
Proof.
  unfold entry_of. cbn [close_where with_peers peers snd]. rewrite lookup_fmap.
  destruct (peers r !! pg_endpoint g) as [l|]; [|done]. cbn [fmap option_fmap option_map]. apply head_filter_signal.
Qed.

Lemma head_filter_other id id' (l : list Peer) :
  id <> id' -> head (filter (fun p => p_id p = id) (filter (fun p => p_id p <> id') l)) =
               head (filter (fun p => p_id p = id) l).
Proof.
  intros Hne. induction l as [|p l IH]; [done|]. rewrite !filter_cons.
  destruct (decide (p_id p <> id')) as [H|H]; [|apply dec_stable in H; rewrite decide_False by congruence; exact IH].
  rewrite filter_cons. by case_decide.
Qed.

Lemma entry_of_drop g g' r : guard_key g <> guard_key g' -> entry_of g (guard_drop_peer g' r) = entry_of g r.
Proof.
  intros Hne. unfold entry_of, guard_drop_peer. rewrite registry_remove_lookup. case_decide as He; [|done].
  destruct (peers r !! pg_endpoint g) as [l|]; [|done].
  assert (pg_id g <> pg_id g') as Hid.
  { intros E. apply Hne. unfold guard_key. by rewrite He, E. }
  rewrite <- (head_filter_other _ _ l Hid). by destruct (filter (fun p => p_id p <> pg_id g') l).
Qed.

(** The registry lists exactly the connections being served.  In every
    interleaving of connections starting and ending, path changes and
    revocations, there is one entry per live guard, under its endpoint id, so two
    connections of one peer are two entries and the end of one keeps the other;
    the counts agree, the listing is the entries with the oldest first; a guard's
    drop leaves every other connection as it was, and [close_where] tells exactly
    the connections whose identity matches, and says how many they are. *)
Theorem registry_exact n s :
  nsteps listing_step n {| registry := registry_new; live := ∅ |} s -> Z.of_nat n < 2 ^ 64 ->
  keys (registry s) ≡ₚ elements (live s) /\
  registry_len (registry s) = Z.of_nat (size (live s)) /\
  (registry_is_empty (registry s) = true <-> live s = ∅) /\
  (forall now, exists l, l ≡ₚ all_peers (registry s) /\ StronglySorted older l /\
     snapshot_peers now (registry s) =
     (fun e => {| i_endpoint_id := e.1; i_connected_for := saturating_sub now (p_since e.2);
                  i_path := p_path e.2; i_identity := p_identity e.2 |}) <$> l) /\
  (forall g g', guard_key g <> guard_key g' -> entry_of g (guard_drop_peer g' (registry s)) = entry_of g (registry s)) /\
  (forall matches g, entry_of g (close_where matches (registry s)).2 =
     (fun p => if matches (p_identity p) then revoke p else p) <$> entry_of g (registry s)).
Proof.
  intros Hn Hb. destruct (listing_steps_ok n 0 _ s Hn ltac:(lia) ltac:(lia) listing_new_ok) as [bound Hs].
  pose proof (keys_live bound s Hs) as Hk. split_and!.
  - done.
  - rewrite registry_len_keys. unfold len. by rewrite Hk.
  - by eapply is_empty_spec.
  - intros now. exists (sort_by_since (all_peers (registry s))).
    destruct (sort_by_key_spec (fun e : EndpointId * Peer => p_since e.2) (all_peers (registry s))). done.
  - intros g g'. apply entry_of_drop.
  - intros matches g. apply entry_of_close.
Qed.

Lemma registry_exact_witness :
  let r := (registry_insert [7] PathRelay anonymous 5 registry_new).2 in
  registry_len r = 1 /\ registry_is_empty r = false.
Proof.
  set (i := registry_insert [7] PathRelay anonymous 5 registry_new).
  destruct (registry_exact 1 {| registry := i.2; live := {[ guard_key i.1 ]} ∪ ∅ |}) as (_ & Hl & He & _).
  - eapply nsteps_l; [|apply nsteps_O]. exact (listing_insert {| registry := registry_new; live := ∅ |} [7] PathRelay anonymous 5 i.1 i.2 eq_refl).
  - lia.
  - cbn [registry] in Hl, He. fold i. cbv zeta. split; [rewrite Hl; vm_compute; reflexivity|].
    apply not_true_iff_false. intros H. apply He in H. revert H. vm_compute. discriminate.
Defined.
