(* ===== verification/Reload.v ===== *)
(** * Reloading [[auth]] (nexapipe/src/config_watcher/mod.rs)

    The watcher reads the configuration again and folds it into the live one
    under the lock every handshake takes: the gate may come on, the client table
    is replaced (counters and step memories kept), and the connections whose
    credential or authorization the reload took away are told to stop.  The
    theorems say what "took away" means, that the merge loses no counter, and
    exactly which connections are closed.

    The iteration order of a [HashMap] is that of [map_to_list]; log lines are
    left out. *)

From S2P Require Import Prelude RustStd Host AuthCodec AuthConfig Authenticator Peers.

(** ** Patterns *)

Definition pattern_covers (other pattern : bytes) : bool :=
  let other := normalize_pattern other in
  let pattern := normalize_pattern pattern in
  match strip_prefix_char STAR other, strip_prefix_char STAR pattern with
  | Some [], _ => true
  | None, None => bool_decide (other = pattern)
  | Some rest, None =>
      match strip_prefix_char DOT rest with
      | Some suffix =>
          match strip_suffix suffix pattern with
          | Some prefix => negb (bool_decide (prefix = [])) && ends_with_char DOT prefix
          | None => false
          end
      | None => false
      end
  | None, Some _ => false
  | Some other_rest, Some pattern_rest =>
      match strip_prefix_char DOT other_rest, strip_prefix_char DOT pattern_rest with
      | Some other_suffix, Some pattern_suffix =>
          bool_decide (pattern_suffix = other_suffix)
          || match strip_suffix other_suffix pattern_suffix with
             | Some head => ends_with_char DOT head
             | None => false
             end
      | _, _ => false
      end
  end.

(** ** What a client may reach *)

Record ClientAuthorization := {
  ca_hosts : option (list bytes);
  ca_ports : option (list Z);
  ca_strict_ports : bool;
}.

Definition authorization_of (client : ClientAuth) : ClientAuthorization :=
  {| ca_hosts := c_allow_hosts client; ca_ports := c_allow_ports client;
     ca_strict_ports := c_allow_ports_strict client |}.

Definition hosts_taken_away (self : ClientAuthorization) (incoming : option (list bytes)) : bool :=
  match ca_hosts self, incoming with
  | None, None => false
  | None, Some _ => true
  | Some _, None => false
  | Some live, Some incoming =>
      existsb (fun pattern => negb (existsb (fun other => pattern_covers other pattern) incoming))
        (filter (fun pattern => pattern_error pattern = None) live)
  end.

Definition ports_taken_away (self : ClientAuthorization) (incoming : option (list Z)) : bool :=
  match ca_ports self, incoming with
  | None, None => false
  | None, Some _ => true
  | Some _, None => false
  | Some live, Some incoming => existsb (fun port => negb (existsb (Z.eqb port) incoming)) live
  end.

Definition ports_checked_stricter (self incoming : ClientAuthorization) : bool :=
  negb (ca_strict_ports self) && ca_strict_ports incoming && is_some (ca_ports incoming).

Definition tightened_by (self incoming : ClientAuthorization) : bool :=
  hosts_taken_away self (ca_hosts incoming)
  || ports_taken_away self (ca_ports incoming)
  || ports_checked_stricter self incoming.

(** ** The merge *)

Definition newest_step (live from_file : option Z) : option Z :=
  match live, from_file with
  | Some a, Some b => Some (Z.max a b)
  | Some a, None => Some a
  | None, b => b
  end.

Definition merge_device (existing : gmap bytes DeviceAuth) (name : bytes) (device : DeviceAuth) : DeviceAuth :=
  match existing !! name with
  | Some existing_device =>
      device_with_step (newest_step (d_last_used_step existing_device) (d_last_used_step device)) device
  | None => device
  end.

Definition replaces_token (existing incoming : ClientAuth) : bool :=
  negb (bool_decide (c_pending_enrollment incoming = c_pending_enrollment existing)).

(** A client on both sides. *)
Definition merge_client (existing incoming : ClientAuth) : ClientAuth :=
  client_with incoming
    (map_imap (fun name device => Some (merge_device (c_devices existing) name device)) (c_devices incoming))
    (c_last_used existing)
    (newest_step (c_last_used_step existing) (c_last_used_step incoming))
    (c_failed_attempts existing) (c_locked_until existing)
    (if replaces_token existing incoming then 0 else c_enrollment_failed_attempts existing)
    (if replaces_token existing incoming then None else c_enrollment_locked_until existing).

Record Merged := { m_config : AuthConfig; m_added : list bytes; m_removed : list bytes; m_rotated : list bytes }.

Definition merge_auth_clients (live incoming : AuthConfig) : Merged := {|
  m_config := with_clients
    (map_imap (fun id client => Some match a_clients live !! id with
                                     | Some existing => merge_client existing client
                                     | None => client
                                     end) (a_clients incoming)) live;
  m_added := filter (fun id => a_clients live !! id = None) (map_to_list (a_clients incoming)).*1;
  m_removed := filter (fun id => a_clients incoming !! id = None) (map_to_list (a_clients live)).*1;
  m_rotated := filter (fun id => match a_clients live !! id, a_clients incoming !! id with
                                 | Some existing, Some client => replaces_token existing client
                                 | _, _ => false
                                 end = true) (map_to_list (a_clients incoming)).*1 |}.

(** ** The gate *)

Record PlaintextListener := { pl_addr : bytes; pl_exposed : bool }.

Inductive EnabledRefusal := DisableIgnored | PlaintextConflict (addr : bytes).

Definition plaintext_auth_conflict (exposed auth_enabled : bool) : bool := exposed && auth_enabled.

Definition auth_enabled_refusal (live incoming : AuthConfig) (plaintext : option PlaintextListener)
    : option EnabledRefusal :=
  if Bool.eqb (a_enabled live) (a_enabled incoming) then None
  else if a_enabled live then Some DisableIgnored
  else match plaintext with
       | Some p => if plaintext_auth_conflict (pl_exposed p) true then Some (PlaintextConflict (pl_addr p)) else None
       | None => None
       end.

Definition with_enabled (enabled : bool) (a : AuthConfig) : AuthConfig := {|
  a_enabled := enabled; a_issuer := a_issuer a; a_algorithm := a_algorithm a;
  a_time_step := a_time_step a; a_digits := a_digits a; a_window := a_window a;
  a_clients := a_clients a; a_max_attempts := a_max_attempts a;
  a_lockout_duration := a_lockout_duration a |}.

Definition apply_auth_enabled (live incoming : AuthConfig) : AuthConfig * option bool :=
  if Bool.eqb (a_enabled live) (a_enabled incoming) then (live, None)
  else (with_enabled (a_enabled incoming) live, Some (a_enabled incoming)).

(** ** The reload *)

Definition device_names (client : ClientAuth) : list bytes := (map_to_list (c_devices client)).*1.

Definition removed_devices (before : gmap bytes (list bytes)) (after : gmap bytes ClientAuth)
    : list (bytes * bytes) :=
  map_to_list before ≫= fun e =>
    match after !! e.1 with
    | None => []
    | Some client => pair e.1 <$> filter (fun device => c_devices client !! device = None) e.2
    end.

Definition tightened_clients (before_auth : gmap bytes ClientAuthorization) (incoming : AuthConfig) : list bytes :=
  omap (fun e : bytes * ClientAuth =>
    match before_auth !! e.1 with
    | None => None
    | Some live_auth => if tightened_by live_auth (authorization_of e.2) then Some e.1 else None
    end) (map_to_list (a_clients incoming)).

Definition is_client (ids : list bytes) (identity : PeerIdentity) : bool :=
  existsb (fun id => bool_decide (pi_client_id identity = Some id)) ids.
Definition is_device (pairs : list (bytes * bytes)) (identity : PeerIdentity) : bool :=
  existsb (fun e => bool_decide (pi_client_id identity = Some e.1)
                    && bool_decide (pi_device identity = Some e.2)) pairs.

(** [if !ids.is_empty() { close_where(..) }]. *)
Definition close_if {A} (which : list A) (matches : list A -> PeerIdentity -> bool) (r : PeerRegistry) : PeerRegistry :=
  match which with [] => r | _ => (close_where (matches which) r).2 end.

Record Reloaded := { r_config : AuthConfig; r_peers : PeerRegistry; r_rotated : list bytes }.

Definition move_enabled (plaintext : option PlaintextListener) (live incoming : AuthConfig) (r : PeerRegistry)
    : AuthConfig * PeerRegistry :=
  match auth_enabled_refusal live incoming plaintext with
  | Some _ => (live, r)
  | None =>
      match apply_auth_enabled live incoming with
      | (live, Some true) => (live, (close_unauthenticated r).2)
      | (live, _) => (live, r)
      end
  end.

(** The critical section of [reload_auth]. *)
Definition reload_apply (plaintext : option PlaintextListener) (snapshot : option AuthConfig)
    (live : AuthConfig) (r : PeerRegistry) : Reloaded :=
  let before := device_names <$> a_clients live in
  let before_auth := authorization_of <$> a_clients live in
  match snapshot with
  | None => {| r_config := live; r_peers := r; r_rotated := [] |}
  | Some new_auth =>
      let '(live, r) := move_enabled plaintext live new_auth r in
      let m := merge_auth_clients live new_auth in
      let gone := removed_devices before (a_clients (m_config m)) in
      let r := close_if (m_removed m) is_client r in
      let r := close_if gone is_device r in
      let tightened := tightened_clients before_auth new_auth in
      let r := close_if tightened is_client r in
      {| r_config := m_config m; r_peers := r; r_rotated := m_rotated m |}
  end.

(** ** Coverage of patterns *)

(** A pattern that matches some host: a name, the catch-all or ["*.suffix"]. *)
Definition well_shaped (pattern : bytes) : Prop :=
  forall rest, pattern = STAR :: rest -> rest = [] \/ starts_with_char DOT rest = true.

Lemma starts_with_dot s : starts_with_char DOT s = true <-> exists t, s = DOT :: t.
Proof.
  destruct s as [|b s]; cbn; [naive_solver|]. rewrite Z.eqb_eq. naive_solver.
Qed.

Lemma strip_star_None p : strip_prefix_char STAR p = None <-> starts_with_char STAR p = false.
Proof. destruct p as [|b p]; cbn; [done|]. by destruct (b =? STAR). Qed.

Lemma strip_dot_None p : strip_prefix_char DOT p = None <-> starts_with_char DOT p = false.
Proof. destruct p as [|b p]; cbn; [done|]. by destruct (b =? DOT). Qed.

Lemma suffix_after_dot (s t : bytes) :
  match strip_suffix s t with Some h => ends_with_char DOT h | None => false end = true <->
  exists l, t = l ++ DOT :: s.
Proof.
  destruct (strip_suffix s t) as [h|] eqn:E.
  - apply strip_suffix_Some in E as ->. rewrite ends_with_char_true. split.
    + intros [l ->]. exists l. by rewrite <- app_assoc.
    + intros [l H]. exists l. apply (app_inv_tail s). by rewrite H, <- app_assoc.
  - split; [done|]. intros [l ->]. assert (strip_suffix s (l ++ DOT :: s) = Some (l ++ [DOT])); [|congruence].
    apply strip_suffix_Some. by rewrite <- app_assoc.
Qed.

(** The rule on folded patterns, as three cases. *)
Lemma pattern_covers_cases other pattern :
  pattern_covers other pattern = true <->
  let o := normalize_pattern other in let p := normalize_pattern pattern in
  o = [STAR] \/
  (starts_with_char STAR p = false /\ (o = p /\ starts_with_char STAR o = false \/
     exists suffix label, o = STAR :: DOT :: suffix /\ p = label ++ DOT :: suffix)) \/
  (exists suffix, o = STAR :: DOT :: suffix /\ exists psuffix, p = STAR :: DOT :: psuffix /\
     exists label, DOT :: psuffix = label ++ DOT :: suffix).
Proof.
  unfold pattern_covers. cbv zeta. set (o := normalize_pattern other). set (p := normalize_pattern pattern).
  clearbody o p. clear other pattern.
  destruct (strip_prefix_char STAR o) as [[|b orest]|] eqn:Eo.
  - apply strip_prefix_char_Some in Eo as ->. naive_solver.
  - apply strip_prefix_char_Some in Eo as ->. destruct (strip_prefix_char STAR p) as [prest|] eqn:Ep.
    + apply strip_prefix_char_Some in Ep as ->. cbn [starts_with_char]. rewrite Z.eqb_refl.
      destruct (strip_prefix_char DOT (b :: orest)) as [os|] eqn:Eos.
      2:{ apply strip_dot_None in Eos. split; [done|].
          intros [?|[[??]|(? & [= -> ->] & ?)]]; [done|done|]. cbn in Eos. lia. }
      apply strip_prefix_char_Some in Eos. injection Eos as -> ->.
      destruct (strip_prefix_char DOT prest) as [ps|] eqn:Eps.
      2:{ apply strip_dot_None in Eps. split; [done|].
          intros [?|[[??]|(? & _ & ? & [= ->] & ?)]]; [done|done|]. cbn in Eps. lia. }
      apply strip_prefix_char_Some in Eps as ->. rewrite orb_true_iff, bool_decide_eq_true, suffix_after_dot. split.
      * intros H. right; right. exists os. split; [done|]. exists ps. split; [done|].
        destruct H as [->|[l ->]]; [by exists []|by exists (DOT :: l)].
      * intros [?|[[??]|(? & [= <-] & ? & [= <-] & [|c l] & H)]]; [done|done| |].
        -- left. by injection H.
        -- right. exists l. by injection H.
    + pose proof Ep as Hp. apply strip_star_None in Ep. rewrite Ep.
      destruct (strip_prefix_char DOT (b :: orest)) as [os|] eqn:Eos.
      2:{ apply strip_dot_None in Eos. split; [done|].
          intros [?|[[_ [[<- ?]|(? & ? & [= -> ->] & ?)]]|(? & [= -> ->] & ?)]]; try done; cbn in Eos; lia. }
      apply strip_prefix_char_Some in Eos. injection Eos as -> ->.
      transitivity (exists l, p = l ++ DOT :: os).
      * rewrite <- suffix_after_dot. destruct (strip_suffix os p) as [h|]; [|done].
        rewrite andb_true_iff. split; [by intros []|]. intros H. split; [|done].
        apply negb_true_iff, bool_decide_eq_false. by intros ->.
      * split; [|naive_solver]. intros [l ->]. right; left. split; [done|]. right. eauto.
  - pose proof Eo as Ho. apply strip_star_None in Eo. destruct (strip_prefix_char STAR p) as [prest|] eqn:Ep.
    + apply strip_prefix_char_Some in Ep as ->. split; [done|]. naive_solver.
    + apply strip_star_None in Ep. rewrite bool_decide_eq_true. split; [naive_solver|].
      intros [->|[[_ [[? _]|(? & ? & -> & _)]]|(? & -> & _)]]; done.
Qed.

Lemma pattern_covers_sound other pattern host :
  pattern_covers other pattern = true ->
  host_matches (normalize_pattern pattern) host = true -> host_matches (normalize_pattern other) host = true.
Proof.
  rewrite pattern_covers_cases, !host_matches_spec. cbv zeta.
  intros [->|[(Hp & H)|(s & -> & ps & -> & l & Hl)]].
  - by left.
  - intros [E|[[_ <-]|(? & ? & E & _)]]; [by rewrite E in Hp| |by rewrite E in Hp].
    destruct H as [[-> ?]|(s & l & -> & ->)]; [right; left; done|right; right; eauto].
  - intros [?|[[? _]|(s' & l' & [= <-] & ->)]]; [done|done|]. right; right.
    exists s, (l' ++ l). split; [done|]. by rewrite Hl, <- app_assoc.
Qed.

Lemma pattern_covers_complete other pattern :
  well_shaped (normalize_pattern pattern) ->
  (forall host, host_matches (normalize_pattern pattern) host = true ->
                host_matches (normalize_pattern other) host = true) ->
  pattern_covers other pattern = true.
Proof.
  intros Hw H. rewrite pattern_covers_cases. cbv zeta. revert Hw H.
  generalize (normalize_pattern other) (normalize_pattern pattern). clear. intros o p Hw H.
  setoid_rewrite host_matches_spec in H. destruct (starts_with_char STAR p) eqn:Ep.
  - destruct p as [|b rest]; [done|]. cbn in Ep. apply Z.eqb_eq in Ep as ->.
    destruct (Hw rest eq_refl) as [->|[ps ->]%starts_with_dot].
    + destruct (H []) as [?|[[? ->]|(? & [] & _ & ?)]]; [by left|by left|..]; try done.
      destruct (H [0]) as [?|[[? ?]|(? & [|] & ? & ?)]]; try done; by left.
    + destruct (H (DOT :: ps)) as [?|[[? ->]|(s & l & -> & E)]]; [|by left| |].
      * right; right. by exists ps, [].
      * destruct (H (0 :: DOT :: ps)) as [?|[[? E]|(? & ? & ? & ?)]]; try done.
        right; right. by exists ps, [0].
      * right; right. exists s. split; [done|]. exists ps. split; [done|]. by exists l.
  - destruct (H p) as [?|[[? ->]|(s & l & -> & E)]]; [by right; left|by left| |].
    + right; left. split; [done|]. left. done.
    + right; left. split; [done|]. right. eauto.
Qed.

(** ** What a reload takes away *)

(** [b] lets through what [a] does: every host a client can name, every port, and
    every port a request may be served from. *)
Record acl_le (a b : ClientAcl) : Prop := {
  le_host host : dns_shaped (normalize_host host) -> acl_allows a host = true -> acl_allows b host = true;
  le_port port : allows_port a port = true -> allows_port b port = true;
  le_backend port : allows_backend_port a port = true -> allows_backend_port b port = true;
}.

#[global] Instance acl_le_preorder : PreOrder acl_le.
Proof.
  split.
  - intros a. by split.
  - intros a b c [H1 H2 H3] [K1 K2 K3]. split; naive_solver.
Qed.

Lemma hosts_kept live incoming host :
  hosts_taken_away (authorization_of live) (c_allow_hosts incoming) = false ->
  dns_shaped (normalize_host host) ->
  acl_allows (client_acl live) host = true -> acl_allows (client_acl incoming) host = true.
Proof.
  intros Ht Hd. rewrite (proj1 (client_acl_spec live host 0)), (proj1 (client_acl_spec incoming host 0)).
  unfold hosts_taken_away in Ht. cbn in Ht.
  destruct (c_allow_hosts live) as [l|], (c_allow_hosts incoming) as [k|]; try done.
  unfold host_matches_any. rewrite !existsb_Exists. intros (p & Hp & Hm).
  assert (pattern_error p = None) as Hok.
  { destruct (pattern_error p) as [e|] eqn:E; [|done]. by rewrite (refused_matches_nothing p e) in Hm. }
  apply not_true_iff_false in Ht. rewrite existsb_Exists in Ht.
  destruct (existsb (fun other => pattern_covers other p) k) eqn:Ek.
  - apply existsb_Exists in Ek as (o & Ho & Hc). exists o. split; [done|]. by eapply pattern_covers_sound.
  - destruct Ht. exists p. rewrite Ek. split; [|done]. by apply list_elem_of_filter.
Qed.

Lemma ports_kept live incoming port :
  ports_taken_away (authorization_of live) (c_allow_ports incoming) = false ->
  allows_port (client_acl live) port = true -> allows_port (client_acl incoming) port = true.
Proof.
  unfold ports_taken_away, allows_port. cbn.
  destruct (c_allow_ports live) as [l|], (c_allow_ports incoming) as [k|]; try done.
  intros Ht. rewrite !existsb_Exists. intros (p & Hp & ->%Z.eqb_eq).
  apply not_true_iff_false in Ht. rewrite existsb_Exists in Ht.
  destruct (existsb (Z.eqb p) k) eqn:Ek; [by apply existsb_Exists|].
  destruct Ht. exists p. by rewrite Ek.
Qed.

(** An authorization that is not tightened still lets everything through. *)
Lemma not_tightened_le live incoming :
  tightened_by (authorization_of live) (authorization_of incoming) = false ->
  acl_le (client_acl live) (client_acl incoming).
Proof.
  unfold tightened_by. rewrite !orb_false_iff. intros [[Hh Hp] Hs]. split.
  - intros host. by apply hosts_kept.
  - intros port. by apply ports_kept.
  - intros port. rewrite !(proj2 (proj2 (client_acl_spec _ [] port))). unfold ports_checked_stricter in Hs. cbn in Hs.
    destruct (c_allow_ports_strict incoming); [|done]. cbn.
    destruct (c_allow_ports_strict live); cbn in *; [by apply ports_kept|].
    intros _. unfold allows_port. cbn. by destruct (c_allow_ports incoming).
Qed.

(** ** What the merge keeps *)

Lemma merged_lookup live incoming id :
  a_clients (m_config (merge_auth_clients live incoming)) !! id =
  (fun client => match a_clients live !! id with
                 | Some existing => merge_client existing client
                 | None => client
                 end) <$> a_clients incoming !! id.
Proof. cbn. rewrite map_lookup_imap. by destruct (a_clients incoming !! id). Qed.

Lemma merge_client_devices existing incoming name :
  c_devices (merge_client existing incoming) !! name =
  merge_device (c_devices existing) name <$> c_devices incoming !! name.
Proof. cbn. rewrite map_lookup_imap. by destruct (c_devices incoming !! name). Qed.

Lemma newest_step_not_behind live from_file step :
  not_behind (newest_step live from_file) step -> not_behind live step /\ not_behind from_file step.
Proof.
  unfold not_behind. destruct live as [a|], from_file as [b|]; cbn; intros H; split; intros p [= <-];
    try specialize (H _ eq_refl); lia || done.
Qed.

Lemma merge_client_step existing incoming dev step :
  known_device incoming dev ->
  not_behind (last_step (merge_client existing incoming) dev) step ->
  not_behind (last_step existing dev) step /\ not_behind (last_step incoming dev) step.
Proof.
  intros Hk. destruct dev as [name|]; cbn [last_step].
  - destruct (Hk name eq_refl) as [d Hd]. rewrite merge_client_devices, Hd. cbn. unfold merge_device.
    destruct (c_devices existing !! name) as [e|]; cbn; [apply newest_step_not_behind|].
    intros H. split; [by intros p|done].
  - apply newest_step_not_behind.
Qed.

Lemma elem_of_keys {A} (m : gmap bytes A) k : k ∈ (map_to_list m).*1 <-> is_Some (m !! k).
Proof.
  rewrite list_elem_of_fmap. split.
  - intros ([k' x] & -> & H). apply elem_of_map_to_list in H. by exists x.
  - intros [x H]. exists (k, x). split; [done|]. by apply elem_of_map_to_list.
Qed.

(** the merge takes the credentials from the file and the counters from
    memory.  Afterwards the clients are exactly the file's, with the file's
    secrets, lists and invitations; a client that was there keeps its failed
    attempts, its lockout and its last use; no step memory of it or of a device
    moves back, so a code accepted before the reload is still refused after it;
    an unchanged invitation keeps the guesses made at it and a replaced one
    starts at none.  Nothing else of the section moves, and the three lists name
    the clients that appeared, went, and got another invitation. *)
Theorem merge_keeps_counters live incoming :
  let m := merge_auth_clients live incoming in
  m_config m = with_clients (a_clients (m_config m)) live /\
  dom (a_clients (m_config m)) = dom (a_clients incoming) /\
  (forall id, id ∈ m_added m <-> is_Some (a_clients incoming !! id) /\ a_clients live !! id = None) /\
  (forall id, id ∈ m_removed m <-> is_Some (a_clients live !! id) /\ a_clients incoming !! id = None) /\
  (forall id existing client,
     a_clients live !! id = Some existing -> a_clients incoming !! id = Some client ->
     exists c, a_clients (m_config m) !! id = Some c /\
       client_acl c = client_acl client /\
       (c_secret c, c_pending_enrollment c, c_unnamed_device_allowed c) =
         (c_secret client, c_pending_enrollment client, c_unnamed_device_allowed client) /\
       (fmap (fun d => (d_secret d, d_public_key d)) (c_devices c)) =
         (fmap (fun d => (d_secret d, d_public_key d)) (c_devices client)) /\
       lockout c = lockout existing /\ c_last_used c = c_last_used existing /\
       (forall dev step, known_device client dev -> fresh_step c dev (Some step) ->
          fresh_step existing dev (Some step) /\ fresh_step client dev (Some step)) /\
       (id ∈ m_rotated m <-> c_pending_enrollment client <> c_pending_enrollment existing) /\
       (c_enrollment_failed_attempts c, c_enrollment_locked_until c) =
         (if bool_decide (id ∈ m_rotated m) then (0, None)
          else (c_enrollment_failed_attempts existing, c_enrollment_locked_until existing))) /\
  (forall id client, a_clients live !! id = None -> a_clients incoming !! id = Some client ->
     a_clients (m_config m) !! id = Some client).
Proof.
  intros m. split_and!.
  - done.
  - apply set_eq. intros id. rewrite !elem_of_dom. unfold m. rewrite merged_lookup, fmap_is_Some. done.
  - intros id. unfold m. cbn. rewrite list_elem_of_filter, elem_of_keys. tauto.
  - intros id. unfold m. cbn. rewrite list_elem_of_filter, elem_of_keys. tauto.
  - intros id existing client He Hi.
    assert (id ∈ m_rotated m <-> replaces_token existing client = true) as Hrot.
    { unfold m. cbn. rewrite list_elem_of_filter, elem_of_keys, He, Hi. naive_solver. }
    exists (merge_client existing client). split; [unfold m; by rewrite merged_lookup, Hi, He|].
    split_and!; try done.
    + apply map_eq. intros name. rewrite !lookup_fmap, merge_client_devices, <- option_fmap_compose.
      destruct (c_devices client !! name) as [d|]; [|done]. cbn. unfold merge_device. by case_match.
    + unfold fresh_step. intros dev step Hk H.
      destruct (merge_client_step existing client dev step Hk (H step eq_refl)). split; intros s [= <-]; done.
    + rewrite Hrot. unfold replaces_token. rewrite negb_true_iff, bool_decide_eq_false. done.
    + cbn. rewrite (bool_decide_ext _ _ Hrot). by destruct (replaces_token existing client).
  - intros id client Hl Hi. unfold m. by rewrite merged_lookup, Hi, Hl.
Qed.

(** ** Who is told to stop *)

Lemma entry_of_close_if {A} (which : list A) matches g r :
  (forall identity, matches [] identity = false) ->
  entry_of g (close_if which matches r) = signal (matches which) <$> entry_of g r.
Proof.
  intros Hnil. unfold close_if. destruct which as [|x which]; [|apply entry_of_close].
  destruct (entry_of g r) as [p|]; [|done]. cbn. unfold signal. by rewrite Hnil.
Qed.

Lemma signal_signal m1 m2 p : signal m2 (signal m1 p) = signal (fun i => m1 i || m2 i) p.
Proof. unfold signal. destruct (m1 (p_identity p)) eqn:E1; cbn; [by case_match|done]. Qed.

Lemma signal_ext m1 m2 p : m1 (p_identity p) = m2 (p_identity p) -> signal m1 p = signal m2 p.
Proof. unfold signal. by intros ->. Qed.

Lemma is_client_spec ids identity : is_client ids identity = true <-> exists id, pi_client_id identity = Some id /\ id ∈ ids.
Proof.
  unfold is_client. rewrite existsb_Exists. setoid_rewrite bool_decide_eq_true. naive_solver.
Qed.

Lemma is_device_spec pairs identity :
  is_device pairs identity = true <->
  exists id d, pi_client_id identity = Some id /\ pi_device identity = Some d /\ (id, d) ∈ pairs.
Proof.
  unfold is_device. rewrite existsb_Exists. setoid_rewrite andb_true_iff. setoid_rewrite bool_decide_eq_true.
  split; [intros ([id d] & ?); naive_solver|]. intros (id & d & ? & ? & ?). by exists (id, d).
Qed.

(** The gate after a reload. *)
Definition gate_moves (plaintext : option PlaintextListener) (live incoming : AuthConfig) : bool :=
  negb (a_enabled live) && a_enabled incoming
  && match plaintext with Some p => negb (pl_exposed p) | None => true end.

Lemma move_enabled_spec plaintext live incoming r :
  move_enabled plaintext live incoming r =
  if gate_moves plaintext live incoming
  then (with_enabled true live, (close_unauthenticated r).2) else (live, r).
Proof.
  unfold move_enabled, auth_enabled_refusal, apply_auth_enabled, gate_moves, plaintext_auth_conflict.
  destruct (a_enabled live) eqn:El, (a_enabled incoming) eqn:Ei; cbn; try done;
    destruct plaintext as [[addr []]|]; done.
Qed.

(** What an identity loses by a reload. *)
Inductive loses (plaintext : option PlaintextListener) (live incoming : AuthConfig) (identity : PeerIdentity) : Prop :=
| loses_gate :
    gate_moves plaintext live incoming = true -> pi_client_id identity = None ->
    loses plaintext live incoming identity
| loses_client id c :
    pi_client_id identity = Some id -> a_clients live !! id = Some c -> a_clients incoming !! id = None ->
    loses plaintext live incoming identity
| loses_device id d c c' :
    pi_client_id identity = Some id -> pi_device identity = Some d ->
    a_clients live !! id = Some c -> is_Some (c_devices c !! d) ->
    a_clients incoming !! id = Some c' -> c_devices c' !! d = None ->
    loses plaintext live incoming identity
| loses_authorization id c c' :
    pi_client_id identity = Some id -> a_clients live !! id = Some c -> a_clients incoming !! id = Some c' ->
    tightened_by (authorization_of c) (authorization_of c') = true ->
    loses plaintext live incoming identity.

Lemma removed_devices_spec live merged id d :
  (id, d) ∈ removed_devices (device_names <$> a_clients live) merged <->
  exists c c', a_clients live !! id = Some c /\ is_Some (c_devices c !! d) /\
    merged !! id = Some c' /\ c_devices c' !! d = None.
Proof.
  unfold removed_devices. rewrite list_elem_of_bind. split.
  - intros ([k names] & Hin & Hm). cbn in Hin. apply elem_of_map_to_list in Hm. rewrite lookup_fmap in Hm.
    destruct (a_clients live !! k) as [c|] eqn:Hc; [|done]. injection Hm as <-.
    destruct (merged !! k) as [c'|] eqn:Hc'; [|by apply not_elem_of_nil in Hin].
    apply list_elem_of_fmap in Hin as (x & [= -> ->] & Hx). apply list_elem_of_filter in Hx as [Hx Hin].
    apply elem_of_keys in Hin. eauto 10.
  - intros (c & c' & Hc & Hd & Hc' & Hd'). exists (id, device_names c). cbn. rewrite Hc'. split.
    + apply list_elem_of_fmap. exists d. split; [done|]. apply list_elem_of_filter. split; [done|]. by apply elem_of_keys.
    + apply elem_of_map_to_list. by rewrite lookup_fmap, Hc.
Qed.

Lemma tightened_clients_spec live incoming id :
  id ∈ tightened_clients (authorization_of <$> a_clients live) incoming <->
  exists c c', a_clients live !! id = Some c /\ a_clients incoming !! id = Some c' /\
    tightened_by (authorization_of c) (authorization_of c') = true.
Proof.
  unfold tightened_clients. rewrite list_elem_of_omap. split.
  - intros ([k c'] & Hin & H). apply elem_of_map_to_list in Hin. cbn in H. rewrite lookup_fmap in H.
    destruct (a_clients live !! k) as [c|] eqn:Hc; [|done]. cbn in H. case_match eqn:E; [|done].
    injection H as <-. eauto.
  - intros (c & c' & Hc & Hc' & Ht). exists (id, c'). split; [by apply elem_of_map_to_list|].
    cbn. by rewrite lookup_fmap, Hc; cbn; rewrite Ht.
Qed.

(** The four passes as one. *)
Definition revoked_by (plaintext : option PlaintextListener) (live incoming : AuthConfig) (identity : PeerIdentity)
    : bool :=
  gate_moves plaintext live incoming && is_none (pi_client_id identity)
  || is_client (m_removed (merge_auth_clients live incoming)) identity
  || is_device (removed_devices (device_names <$> a_clients live)
                  (a_clients (m_config (merge_auth_clients live incoming)))) identity
  || is_client (tightened_clients (authorization_of <$> a_clients live) incoming) identity.

Lemma merged_device_gone live incoming id d :
  (exists c, a_clients (m_config (merge_auth_clients live incoming)) !! id = Some c /\ c_devices c !! d = None) <->
  (exists c, a_clients incoming !! id = Some c /\ c_devices c !! d = None).
Proof.
  rewrite merged_lookup. destruct (a_clients incoming !! id) as [c|]; [|naive_solver]. cbn.
  destruct (a_clients live !! id) as [e|]; [|done]. split; intros (x & [= <-] & Hd); eexists; (split; [done|]).
  - by rewrite merge_client_devices, fmap_None in Hd.
  - by rewrite merge_client_devices, Hd.
Qed.

Lemma revoked_by_spec plaintext live incoming identity :
  revoked_by plaintext live incoming identity = true <-> loses plaintext live incoming identity.
Proof.
  unfold revoked_by. rewrite !orb_true_iff, andb_true_iff, !is_client_spec, is_device_spec. split.
  - intros [[[[Hg Hn]|(id & Hid & Hin)]|(id & d & Hid & Hd & Hin)]|(id & Hid & Hin)].
    + apply loses_gate; [done|]. by destruct (pi_client_id identity).
    + cbn in Hin. apply list_elem_of_filter in Hin as [Hn [c Hc]%elem_of_keys]. by eapply loses_client.
    + apply removed_devices_spec in Hin as (c & m & Hc & Hdc & Hm & Hdm).
      destruct (proj1 (merged_device_gone live incoming id d)) as (c' & ? & ?); [eauto|]. by eapply loses_device.
    + apply tightened_clients_spec in Hin as (c & c' & ? & ? & ?). by eapply loses_authorization.
  - intros [Hg Hn|id c Hid Hc Hn|id d c c' Hid Hd Hc Hdc Hc' Hdc'|id c c' Hid Hc Hc' Ht].
    + left; left; left. by rewrite Hn.
    + left; left; right. exists id. split; [done|]. cbn. apply list_elem_of_filter. split; [done|]. apply elem_of_keys. eauto.
    + left; right. exists id, d. split_and!; try done. apply removed_devices_spec.
      destruct (proj2 (merged_device_gone live incoming id d)) as (m & ? & ?); [eauto|]. eauto 8.
    + right. exists id. split; [done|]. apply tightened_clients_spec. eauto.
Qed.

Lemma merge_with_enabled b live incoming :
  m_config (merge_auth_clients (with_enabled b live) incoming) =
  with_enabled b (m_config (merge_auth_clients live incoming)).
Proof. done. Qed.

Lemma reload_apply_peers plaintext incoming live r g :
  entry_of g (r_peers (reload_apply plaintext (Some incoming) live r)) =
  signal (revoked_by plaintext live incoming) <$> entry_of g r.
Proof.
  unfold reload_apply. rewrite move_enabled_spec. unfold revoked_by.
  destruct (gate_moves plaintext live incoming); cbn [r_peers];
    rewrite ?merge_with_enabled;
    change (m_removed (merge_auth_clients (with_enabled true live) incoming)) with
      (m_removed (merge_auth_clients live incoming));
    rewrite !entry_of_close_if by done; unfold close_unauthenticated; rewrite ?entry_of_close;
    destruct (entry_of g r) as [p|]; try done; cbn [fmap option_fmap option_map]; rewrite !signal_signal;
    f_equal; apply signal_ext; rewrite !orb_assoc; done.
Qed.

Lemma reload_apply_config plaintext incoming live r :
  r_config (reload_apply plaintext (Some incoming) live r) =
  with_enabled (a_enabled live || gate_moves plaintext live incoming) (m_config (merge_auth_clients live incoming)).
Proof.
  unfold reload_apply. rewrite move_enabled_spec. unfold gate_moves.
  destruct live as [[] ? ? ? ? ? ? ? ?]; cbn; [done|]. destruct (a_enabled incoming); [|done].
  destruct plaintext as [[addr []]|]; done.
Qed.

(** C20: exactly the connections that lost something are told to stop.  A reload
    revokes a connection when the gate came on and it never authenticated, when
    its client is no longer in the file, when its device no longer is, or when
    its client's authorization was tightened, and leaves every other connection
    as it was.  The gate comes on when the file asks for it and no plaintext
    listener is exposed, and a reload never turns it off; the table is the merge;
    and a file without the section changes nothing at all.  A deleted client's
    connection is among those told to stop, whatever the comment above the
    handshake in conn/mod.rs says of it. *)
Theorem reload_revokes_exactly plaintext snapshot live r :
  let o := reload_apply plaintext snapshot live r in
  match snapshot with
  | None => r_config o = live /\ r_peers o = r
  | Some incoming =>
      a_clients (r_config o) = a_clients (m_config (merge_auth_clients live incoming)) /\
      (a_enabled (r_config o) = true <->
         a_enabled live = true \/
         a_enabled incoming = true /\ (forall p, plaintext = Some p -> pl_exposed p = false)) /\
      (forall g, entry_of g (r_peers o) = None <-> entry_of g r = None) /\
      (forall g p, entry_of g r = Some p ->
         (loses plaintext live incoming (p_identity p) -> entry_of g (r_peers o) = Some (revoke p)) /\
         (~ loses plaintext live incoming (p_identity p) -> entry_of g (r_peers o) = Some p))
  end.
Proof.
  intros o. destruct snapshot as [incoming|]; [|done]. unfold o. rewrite reload_apply_config. split_and!.
  - done.
  - cbn. unfold gate_moves. destruct (a_enabled live); cbn; [tauto|].
    destruct (a_enabled incoming); cbn; [|naive_solver].
    destruct plaintext as [[addr []]|]; cbn; (split; [naive_solver|]); intros [?|[_ H]]; try done.
    by specialize (H _ eq_refl).
  - intros g. rewrite reload_apply_peers. apply fmap_None.
  - intros g p Hp. rewrite reload_apply_peers, Hp. cbn. unfold signal.
    split; intros Hl; f_equal; case_match eqn:E; try done.
    + apply revoked_by_spec in Hl. congruence.
    + apply revoked_by_spec in E. done.
Qed.

(** An authorization that a reload does not call tightened takes nothing
    away.  Every host a client can name, every port and every backend port the
    old lists let through, the new ones do; and the comparison of two patterns is
    exact: one covers another precisely when every host the second matches the
    first matches too (for a pattern of a shape that matches anything at all). *)
Theorem tightening_sound :
  (forall live incoming, tightened_by (authorization_of live) (authorization_of incoming) = false ->
     acl_le (client_acl live) (client_acl incoming)) /\
  (forall other pattern, well_shaped (normalize_pattern pattern) ->
     pattern_covers other pattern = true <->
     forall host, host_matches (normalize_pattern pattern) host = true ->
                  host_matches (normalize_pattern other) host = true).
Proof.
  split; [exact not_tightened_le|]. intros other pattern Hw. split.
  - intros Hc host. by apply pattern_covers_sound.
  - by apply pattern_covers_complete.
Qed.
