(* ===== verification/Revocation.v ===== *)
(** * Connections and reloads (nexapipe/src/conn/mod.rs, config_watcher/mod.rs)

    Connections are accepted, authenticate, are served and end, while the watcher
    reloads [[auth]].  Each step below is what one task does between two points
    at which another may run: the check of the gate, the handshake's critical
    section (which also lists the connection), the second check and the listing
    of a connection without credentials, the reload's critical section.

    A connection carries the access list it was given at its handshake and never
    reads the configuration again, so what a reload takes away has to be taken by
    closing it: the invariant says that no connection that was not told to stop
    is served on a permission that is gone. *)

From S2P Require Import Prelude RustStd Host AuthCodec AuthConfig Authenticator Enrollment Peers Reload.

Inductive Phase :=
| Handshaking
| Ungated
| Cleared
| Served (guard : PeerGuard) (acl : option ClientAcl).

Record Gateway := {
  gw_config : AuthConfig;
  gw_peers : PeerRegistry;
  gw_conns : gmap nat Phase;
}.

Section Steps.
Variable cr : Crypto.
Variable public_key_hex : PublicKey cr -> bytes.
Variable plaintext : option PlaintextListener.

(** The first look at the gate. *)
Definition on_accept (s : Gateway) : Phase :=
  if a_enabled (gw_config s) then Handshaking else Ungated.

(** The handshake's critical section. *)
Definition on_response (i : nat) (endpoint : EndpointId) (path : PathKind) (now : Z) (q : AuthRequest) (s : Gateway)
    : Gateway :=
  let o := authenticate cr (gw_config s) now q in
  match o_registered o, o_answer o with
  | Some (id, dev), Ok acl =>
      let '(g, r) := registry_insert endpoint path {| pi_client_id := Some id; pi_device := dev |} now (gw_peers s) in
      {| gw_config := o_config o; gw_peers := r; gw_conns := <[i := Served g (Some acl)]> (gw_conns s) |}
  | _, _ => {| gw_config := o_config o; gw_peers := gw_peers s; gw_conns := delete i (gw_conns s) |}
  end.

(** The second look, of a connection that skipped the handshake. *)
Definition on_recheck (i : nat) (s : Gateway) : Gateway :=
  {| gw_config := gw_config s; gw_peers := gw_peers s;
     gw_conns := if a_enabled (gw_config s) then delete i (gw_conns s) else <[i := Cleared]> (gw_conns s) |}.

Definition on_list (i : nat) (endpoint : EndpointId) (path : PathKind) (now : Z) (s : Gateway) : Gateway :=
  let '(g, r) := registry_insert endpoint path anonymous now (gw_peers s) in
  {| gw_config := gw_config s; gw_peers := r; gw_conns := <[i := Served g None]> (gw_conns s) |}.

Definition on_end (i : nat) (g : PeerGuard) (s : Gateway) : Gateway :=
  {| gw_config := gw_config s; gw_peers := guard_drop_peer g (gw_peers s); gw_conns := delete i (gw_conns s) |}.

Definition on_reload (snapshot : option AuthConfig) (s : Gateway) : Gateway :=
  let o := reload_apply plaintext snapshot (gw_config s) (gw_peers s) in
  {| gw_config := r_config o; gw_peers := r_peers o; gw_conns := gw_conns s |}.

Inductive gateway_step (s : Gateway) : Gateway -> Prop :=
| step_accept i :
    gw_conns s !! i = None ->
    gateway_step s {| gw_config := gw_config s; gw_peers := gw_peers s;
                      gw_conns := <[i := on_accept s]> (gw_conns s) |}
| step_enroll i now created_at secret id token device public_key saved :
    gw_conns s !! i = Some Handshaking ->
    gateway_step s
      {| gw_config := en_config (enroll_client cr public_key_hex (gw_config s) now created_at secret id token device
                                   public_key saved);
         gw_peers := gw_peers s; gw_conns := gw_conns s |}
| step_response i endpoint path now q :
    gw_conns s !! i = Some Handshaking ->
    gateway_step s (on_response i endpoint path now q s)
| step_give_up i :
    gw_conns s !! i = Some Handshaking ->
    gateway_step s {| gw_config := gw_config s; gw_peers := gw_peers s; gw_conns := delete i (gw_conns s) |}
| step_recheck i :
    gw_conns s !! i = Some Ungated -> gateway_step s (on_recheck i s)
| step_list i endpoint path now :
    gw_conns s !! i = Some Cleared -> gateway_step s (on_list i endpoint path now s)
| step_end i g acl :
    gw_conns s !! i = Some (Served g acl) -> gateway_step s (on_end i g s)
| step_path endpoint path :
    gateway_step s {| gw_config := gw_config s; gw_peers := set_path endpoint path (gw_peers s); gw_conns := gw_conns s |}
| step_reload snapshot :
    gateway_step s (on_reload snapshot s).

Definition gateway_new (config : AuthConfig) : Gateway :=
  {| gw_config := config; gw_peers := registry_new; gw_conns := ∅ |}.

(** ** The invariant *)

(** A permission still stands: the client is configured, the device is one of
    its own, and its list lets through what the connection was given. *)
Definition stands (config : AuthConfig) (identity : PeerIdentity) (acl : ClientAcl) : Prop :=
  exists id c, pi_client_id identity = Some id /\ a_clients config !! id = Some c /\
    known_device c (pi_device identity) /\ acl_le acl (client_acl c).

(** What is known of a served connection. *)
Definition served_ok (config : AuthConfig) (r : PeerRegistry) (g : PeerGuard) (acl : option ClientAcl) : Prop :=
  exists p, entry_of g r = Some p /\
    match acl with
    | None => p_identity p = anonymous
    | Some acl => p_revoked p = true \/ stands config (p_identity p) acl
    end.

(** Ids are handed out in order, and none is above the counter. *)
Definition ids_below (bound : Z) (r : PeerRegistry) : Prop :=
  reg_next_id r = bound /\ forall e l p, peers r !! e = Some l -> p ∈ l -> p_id p <= bound.

Record gateway_ok (bound : Z) (s : Gateway) : Prop := {
  go_ids : ids_below bound (gw_peers s);
  go_served i g acl : gw_conns s !! i = Some (Served g acl) -> served_ok (gw_config s) (gw_peers s) g acl;
  go_distinct i j g g' acl acl' :
    gw_conns s !! i = Some (Served g acl) -> gw_conns s !! j = Some (Served g' acl') -> i <> j ->
    guard_key g <> guard_key g';
  go_gate i : gw_conns s !! i = Some Handshaking -> a_enabled (gw_config s) = true;
}.

Lemma entry_of_elem g r p : entry_of g r = Some p -> p_id p = pg_id g /\ exists l, peers r !! pg_endpoint g = Some l /\ p ∈ l.
Proof.
  unfold entry_of. destruct (peers r !! pg_endpoint g) as [l|]; [|done]. intros H.
  assert (p ∈ filter (fun p => p_id p = pg_id g) l) as Hin.
  { destruct (filter _ l) as [|q k]; [done|]. injection H as ->. by left. }
  apply list_elem_of_filter in Hin as [? ?]. eauto.
Qed.

(** ** Listing a connection *)

Lemma filter_none {A} (P : A -> Prop) `{!forall x, Decision (P x)} (l : list A) :
  (forall x, x ∈ l -> ~ P x) -> filter P l = [].
Proof.
  induction l as [|x l IH]; [done|]. intros Hn. rewrite filter_cons, decide_False by (apply Hn; by left).
  apply IH. intros y Hy. apply Hn. by right.
Qed.

Lemma insert_fresh bound endpoint path identity now r g r' :
  0 <= bound -> bound + 1 < 2 ^ 64 -> ids_below bound r ->
  registry_insert endpoint path identity now r = (g, r') ->
  ids_below (bound + 1) r' /\
  (exists p, entry_of g r' = Some p /\ p_identity p = identity /\ p_revoked p = false) /\
  (forall g' p, entry_of g' r = Some p -> entry_of g' r' = Some p /\ guard_key g' <> guard_key g).
Proof.
  intros H0 Hb [Hn Hids]. unfold registry_insert. rewrite Hn, wrapping_small by (unfold is_uint; lia).
  intros [= <- <-].
  set (q := {| p_id := bound + 1; p_since := now; p_path := path; p_identity := identity; p_revoked := false |}).
  set (old := match peers r !! endpoint with Some l => l | None => [] end).
  assert (forall p, p ∈ old -> p_id p <= bound) as Hold.
  { unfold old. intros p Hp. destruct (peers r !! endpoint) as [l|] eqn:E; [eauto|by apply not_elem_of_nil in Hp]. }
  split_and!.
  - split; [done|]. intros e l p. cbn. rewrite lookup_insert_Some. intros [[_ <-]|[_ He]] Hp.
    + apply elem_of_app in Hp as [Hp| ->%list_elem_of_singleton]; [apply Hold in Hp; lia|cbn; lia].
    + specialize (Hids _ _ _ He Hp). lia.
  - exists q. split; [|done]. unfold entry_of. cbn. rewrite lookup_insert_eq, filter_app.
    rewrite filter_none; [cbn; by rewrite decide_True|].
    intros p Hp. apply Hold in Hp. cbn. lia.
  - intros g' p Hp. pose proof (entry_of_elem _ _ _ Hp) as (Hid & l & Hl & Hin).
    specialize (Hids _ _ _ Hl Hin) as Hle. split.
    + unfold entry_of in *. cbn. destruct (decide (endpoint = pg_endpoint g')) as [->|Hne].
      * rewrite lookup_insert_eq. rewrite Hl in Hp. unfold old. rewrite Hl, filter_app.
        destruct (filter _ l); [done|]. by injection Hp as ->.
      * by rewrite lookup_insert_ne.
    + unfold guard_key. cbn. intros [= _ ?]. lia.
Qed.

(** ** What the handlers keep *)

(** Nothing a connection was given goes away. *)
Definition client_kept (c c' : ClientAuth) : Prop :=
  client_acl c' = client_acl c /\ dom (c_devices c) ⊆ dom (c_devices c').
Definition config_kept (config config' : AuthConfig) : Prop :=
  a_enabled config' = a_enabled config /\
  forall id c, a_clients config !! id = Some c -> exists c', a_clients config' !! id = Some c' /\ client_kept c c'.

#[local] Instance client_kept_preorder : PreOrder client_kept.
Proof. split; [by intros c|]. intros a b c [H1 K1] [H2 K2]. split; [congruence|set_solver]. Qed.

#[local] Instance config_kept_preorder : PreOrder config_kept.
Proof.
  split; [intros c; split; [done|]; intros id x Hx; by exists x|]. intros a b c [E1 H1] [E2 H2]. split; [congruence|].
  intros id x Hx. destruct (H1 id x Hx) as (y & Hy & Kxy). destruct (H2 id y Hy) as (z & Hz & Kyz).
  exists z. split; [done|]. by etrans.
Qed.

Lemma insert_kept id c c' config :
  a_clients config !! id = Some c -> client_kept c c' ->
  config_kept config (with_clients (<[id := c']> (a_clients config)) config).
Proof.
  intros Hc Hk. split; [done|]. intros id' x Hx. cbn. destruct (decide (id' = id)) as [->|Hne].
  - rewrite lookup_insert_eq. exists c'. split; [done|]. by simplify_eq.
  - rewrite lookup_insert_ne by done. by exists x.
Qed.

Lemma update_kept f id config : (forall c, client_kept c (f c)) -> config_kept config (update_client f id config).
Proof.
  intros Hf. split; [done|]. intros id' x Hx. unfold update_client. cbn.
  destruct (decide (id' = id)) as [->|Hne].
  - rewrite lookup_alter_eq, Hx. exists (f x). done.
  - rewrite lookup_alter_ne by done. by exists x.
Qed.

Lemma refresh_kept now c : client_kept c (refresh_lockout now c).
Proof. unfold refresh_lockout. by case_match. Qed.
Lemma record_failure_kept now m d c : client_kept c (record_failure now m d c).
Proof. unfold record_failure. by repeat case_match. Qed.
Lemma record_success_kept now c : client_kept c (record_success now c).
Proof. done. Qed.

Lemma device_insert_kept name d c : client_kept c (client_with_devices (<[name := d]> (c_devices c)) c).
Proof. split; [done|]. cbn. set_solver. Qed.

Lemma device_success_kept now name c : client_kept c (record_device_success now name c).1.
Proof. unfold record_device_success. case_match; [|done]. cbn. apply device_insert_kept. Qed.

Lemma accept_step_kept id dev step config : config_kept config (config_accept_step id dev step config).1.
Proof.
  unfold config_accept_step. destruct (a_clients config !! id) as [c|] eqn:Hc; [|done].
  destruct dev as [name|].
  - destruct (c_devices c !! name) as [d|]; [|done]. destruct (device_accept_step step d) as [d' v]. cbn.
    eapply insert_kept; [done|]. apply device_insert_kept.
  - unfold client_accept_step. destruct (accept_step _ _) as [l v]. cbn. by eapply insert_kept.
Qed.

Lemma record_accepted_kept config now q moved : config_kept config (o_config (record_accepted config now q moved)).
Proof.
  unfold record_accepted.
  assert (forall config' b, config_kept config config' ->
    config_kept config (if b : bool then update_client (record_success now) (q_client_id q) config' else config')) as Hlast.
  { intros config' [] H; [|done]. etrans; [exact H|]. by apply update_kept. }
  destruct (q_device_id q) as [name|]; [|by apply Hlast].
  destruct (a_clients config !! q_client_id q) as [c|] eqn:Hc; [|by apply Hlast].
  pose proof (device_success_kept now name c) as Hk. destruct (record_device_success now name c) as [c' m]. cbn in Hk.
  apply Hlast. by eapply insert_kept.
Qed.

Lemma authenticate_kept config now q : config_kept config (o_config (authenticate cr config now q)).
Proof.
  unfold authenticate. etrans; [apply (update_kept (refresh_lockout now) (q_client_id q)), refresh_kept|].
  set (config' := update_client _ _ config). destruct (verify_response cr config' now q) as [[step|]|e]; [|apply update_kept, record_failure_kept|done].
  unfold accept. destruct step as [step|]; [|apply record_accepted_kept].
  pose proof (accept_step_kept (q_client_id q) (q_device_id q) step config') as Hk.
  destruct (config_accept_step _ _ _ config') as [config'' v]. cbn in Hk. etrans; [exact Hk|].
  destruct v; [apply record_accepted_kept|done].
Qed.

Lemma issue_kept created_at id issued config :
  config_kept config (issue_enrolled_secret created_at id issued config).1.
Proof.
  unfold issue_enrolled_secret. destruct (a_clients config !! id) as [c|] eqn:Hc; [|done].
  destruct issued; cbn; (eapply insert_kept; [done|]); split; cbn; set_solver.
Qed.

Lemma refresh_enrollment_kept now c : client_kept c (refresh_enrollment_lockout now (refresh_lockout now c)).
Proof. etrans; [apply refresh_kept|]. unfold refresh_enrollment_lockout. by case_match. Qed.

Lemma only_counted_kept now m d dirty c : client_kept c (only_counted now m d dirty c).
Proof.
  unfold only_counted. etrans; [apply (refresh_enrollment_kept now)|]. fold (refreshed now c).
  destruct dirty; [|done]. unfold record_enrollment_failure. by repeat case_match.
Qed.

Lemma enroll_kept config now created_at secret id token device public_key saved :
  config_kept config
    (en_config (enroll_client cr public_key_hex config now created_at secret id token device public_key saved)).
Proof.
  set (o := enroll_client _ _ _ _ _ _ _ _ _ _ _). destruct (en_reply o) as [m|why] eqn:Er.
  - revert Er. unfold o, enroll_client.
    set (cfg := update_client _ id config).
    assert (config_kept config cfg) as Hcfg by apply update_kept, refresh_enrollment_kept.
    destruct (enrollment_verdict _ _ _ _ _ _ _ _); [|done]. unfold enroll_accepted.
    destruct (credential_for _ _ _ _ _) as [issued|]; [|done].
    pose proof (issue_kept created_at id issued cfg) as Hi.
    destruct (issue_enrolled_secret created_at id issued cfg) as [cfg' slot]. destruct saved; [|done]. intros _.
    etrans; [exact Hcfg|]. etrans; [exact Hi|]. cbn. case_match; [|done]. by apply update_kept.
  - unfold o. destruct (enroll_failed_config cr public_key_hex config now created_at secret id token device public_key saved why Er)
      as [-> _]. apply update_kept. intros c. apply only_counted_kept.
Qed.

Lemma registered_identity config now q id dev :
  o_registered (authenticate cr config now q) = Some (id, dev) -> id = q_client_id q /\ dev = q_device_id q.
Proof.
  unfold authenticate, accept, record_accepted, refused. intros H. repeat case_match; simplify_eq/=; done.
Qed.

(** ** Permissions that stand *)

Lemma stands_kept config config' identity acl :
  config_kept config config' -> stands config identity acl -> stands config' identity acl.
Proof.
  intros [_ Hk] (id & c & Hid & Hc & Hd & Hle). destruct (Hk id c Hc) as (c' & Hc' & Hacl & Hdom).
  exists id, c'. rewrite Hacl. split_and!; try done. intros name Hn.
  destruct (Hd name Hn) as [d Hdv]. apply elem_of_dom. apply Hdom. by apply elem_of_dom.
Qed.

Lemma accepted_stands config now q id dev acl :
  a_enabled config = true ->
  o_registered (authenticate cr config now q) = Some (id, dev) -> o_answer (authenticate cr config now q) = Ok acl ->
  stands (o_config (authenticate cr config now q)) {| pi_client_id := Some id; pi_device := dev |} acl.
Proof.
  intros He [-> ->]%registered_identity Ha. eapply stands_kept; [apply authenticate_kept|].
  destruct (a_clients config !! q_client_id q) as [c|] eqn:Hc;
    [|by rewrite (authenticate_unknown cr config now q He Hc) in Ha].
  destruct (authenticate_effect cr config now q c He Hc) as (F & _ & Ho). rewrite Ha in Ho.
  inversion Ho as [step _ Hp| |]; simplify_eq.
  exists (q_client_id q), c. split_and!; [done|done|by eapply proved_known|done].
Qed.

Lemma stands_reload incoming config r identity acl :
  ~ loses plaintext config incoming identity -> stands config identity acl ->
  stands (r_config (reload_apply plaintext (Some incoming) config r)) identity acl.
Proof.
  intros Hl (id & c & Hid & Hc & Hd & Hle). rewrite reload_apply_config. unfold stands. cbn [with_enabled a_clients].
  setoid_rewrite merged_lookup.
  destruct (a_clients incoming !! id) as [c'|] eqn:Hc'; [|by destruct Hl; eapply loses_client].
  exists id, (merge_client c c'). rewrite Hc', Hc. split_and!; try done.
  - intros name Hn. destruct (Hd name Hn) as [d Hdv]. rewrite merge_client_devices, fmap_is_Some.
    destruct (c_devices c' !! name) as [d'|] eqn:Hd'; [done|]. destruct Hl. eapply loses_device; eauto.
  - etrans; [exact Hle|]. apply not_tightened_le, not_true_iff_false. intros Ht. destruct Hl.
    by eapply loses_authorization.
Qed.

(** ** Preservation *)

Lemma served_kept config config' r g acl :
  config_kept config config' -> served_ok config r g acl -> served_ok config' r g acl.
Proof.
  intros Hk (p & Hp & H). exists p. split; [done|]. destruct acl; [|done].
  destruct H as [H|H]; [by left|right]. by eapply stands_kept.
Qed.

Lemma ok_config bound s config :
  config_kept (gw_config s) config -> gateway_ok bound s ->
  gateway_ok bound {| gw_config := config; gw_peers := gw_peers s; gw_conns := gw_conns s |}.
Proof.
  intros Hk [Hi Hs Hd Hg]. split; cbn; try done.
  - intros i g acl H. eapply served_kept; eauto.
  - intros i H. destruct Hk as [-> _]. eauto.
Qed.

Lemma ok_delete bound s i :
  gateway_ok bound s ->
  gateway_ok bound {| gw_config := gw_config s; gw_peers := gw_peers s; gw_conns := delete i (gw_conns s) |}.
Proof.
  intros [Hi Hs Hd Hg]. split; cbn; [done|..]; intros *; rewrite ?lookup_delete_Some.
  - intros [_ H]. eauto.
  - intros [_ H] [_ H']. eauto.
  - intros [_ H]. eauto.
Qed.

(** A connection that is not served yet. *)
Lemma ok_phase bound s i ph :
  (forall g acl, ph <> Served g acl) -> (ph = Handshaking -> a_enabled (gw_config s) = true) ->
  gateway_ok bound s ->
  gateway_ok bound {| gw_config := gw_config s; gw_peers := gw_peers s; gw_conns := <[i := ph]> (gw_conns s) |}.
Proof.
  intros Hns Hh [Hi Hs Hd Hg]. split; cbn; [done|..]; intros *; rewrite ?lookup_insert_Some.
  - intros [[_ H]|[_ H]]; [by apply Hns in H|eauto].
  - intros [[_ H]|[_ H]] [[_ H']|[_ H']]; [by apply Hns in H|by apply Hns in H|by apply Hns in H'|eauto].
  - intros [[_ H]|[_ H]]; eauto.
Qed.

Lemma ok_listed bound s i endpoint path identity now g r acl :
  0 <= bound -> bound + 1 < 2 ^ 64 -> gateway_ok bound s ->
  registry_insert endpoint path identity now (gw_peers s) = (g, r) ->
  match acl with None => identity = anonymous | Some acl => stands (gw_config s) identity acl end ->
  gateway_ok (bound + 1) {| gw_config := gw_config s; gw_peers := r; gw_conns := <[i := Served g acl]> (gw_conns s) |}.
Proof.
  intros H0 Hb [Hi Hs Hd Hg] Hins Hacl.
  destruct (insert_fresh _ _ _ _ _ _ _ _ H0 Hb Hi Hins) as (Hi' & (p & Hp & Hid & _) & Hother).
  assert (forall j g' acl', gw_conns s !! j = Some (Served g' acl') -> guard_key g' <> guard_key g) as Hne.
  { intros j g' acl' Hj. destruct (Hs _ _ _ Hj) as (p' & Hp' & _). by apply (Hother g' p'). }
  split; cbn; [done|..].
  - intros j g' acl'. rewrite lookup_insert_Some. intros [[_ [= <- <-]]|[_ Hj]].
    + exists p. split; [done|]. rewrite Hid. destruct acl; [by right|done].
    + destruct (Hs _ _ _ Hj) as (p' & Hp' & H). exists p'. split; [by apply Hother|done].
  - intros j k g1 g2 a1 a2. rewrite !lookup_insert_Some.
    intros [[-> [= <- <-]]|[? Hj]] [[-> [= <- <-]]|[? Hk]] Hjk; try done.
    + apply not_eq_sym. by eapply Hne.
    + by eapply Hne.
    + by eapply Hd.
  - intros j. rewrite lookup_insert_Some. intros [[_ ?]|[_ ?]]; [done|eauto].
Qed.

Lemma ok_end bound s i g acl :
  gateway_ok bound s -> gw_conns s !! i = Some (Served g acl) -> gateway_ok bound (on_end i g s).
Proof.
  intros [Hi Hs Hd Hg] Hc. split; cbn.
  - destruct Hi as [Hn Hi]. split.
    + rewrite <- Hn. unfold guard_drop_peer, registry_remove. by repeat case_match.
    + intros e l p. unfold guard_drop_peer. rewrite registry_remove_lookup.
      case_decide; [|apply Hi]. destruct (peers (gw_peers s) !! e) as [k|] eqn:Ek; [|done].
      intros Hl Hp. apply (Hi e k); [done|].
      assert (p ∈ filter (fun p => p_id p <> pg_id g) k) as Hin by (destruct (filter _ k); by simplify_eq).
      by apply list_elem_of_filter in Hin as [_ ?].
  - intros j g' acl'. rewrite lookup_delete_Some. intros [Hne Hj].
    destruct (Hs _ _ _ Hj) as (p & Hp & H). exists p. rewrite entry_of_drop; [done|]. by eapply Hd.
  - intros *. rewrite !lookup_delete_Some. intros [_ H] [_ H']. eauto.
  - intros j. rewrite lookup_delete_Some. intros [_ H]. eauto.
Qed.

Definition same_ids (r r' : PeerRegistry) : Prop :=
  reg_next_id r' = reg_next_id r /\ forall e, fmap p_id <$> peers r' !! e = fmap p_id <$> peers r !! e.

Lemma same_ids_below bound r r' : same_ids r r' -> ids_below bound r -> ids_below bound r'.
Proof.
  intros [En Hids] [Hn Hb]. split; [congruence|]. intros e l p He Hp. specialize (Hids e). rewrite He in Hids.
  destruct (peers r !! e) as [k|] eqn:Ek; [|done]. cbn in Hids. injection Hids as Hids.
  assert (p_id p ∈ p_id <$> k) as Hin by (rewrite <- Hids; apply list_elem_of_fmap; eauto).
  apply list_elem_of_fmap in Hin as (q & -> & Hq). eauto.
Qed.

Lemma close_if_ids {A} (which : list A) matches r : same_ids r (close_if which matches r).
Proof. unfold close_if. destruct which; [done|]. split; [done|]. apply close_where_ids. Qed.

Lemma same_ids_trans r1 r2 r3 : same_ids r1 r2 -> same_ids r2 r3 -> same_ids r1 r3.
Proof. intros [E H] [E' H']. split; [congruence|]. intros e. by rewrite H', H. Qed.

Lemma reload_ids snapshot config r : same_ids r (r_peers (reload_apply plaintext snapshot config r)).
Proof.
  unfold reload_apply. destruct snapshot as [incoming|]; [|done]. rewrite move_enabled_spec.
  destruct (gate_moves _ _ _); cbn [r_peers]; repeat (eapply same_ids_trans; [|apply close_if_ids]); [|done].
  split; [done|]. apply close_where_ids.
Qed.

Lemma ok_reload bound s snapshot : gateway_ok bound s -> gateway_ok bound (on_reload snapshot s).
Proof.
  intros [Hi Hs Hd Hg]. split; cbn.
  - eapply same_ids_below; [apply reload_ids|done].
  - destruct snapshot as [incoming|]; [|exact Hs]. intros i g acl Hc.
    destruct (Hs _ _ _ Hc) as (p & Hp & H).
    exists (signal (revoked_by plaintext (gw_config s) incoming) p).
    rewrite reload_apply_peers, Hp. split; [done|]. unfold signal.
    destruct (revoked_by _ _ _ _) eqn:Er; [destruct acl; [by left|done]|].
    destruct acl as [acl|]; [|done]. destruct H as [H|H]; [by left|right].
    apply stands_reload; [|done]. intros Hl%revoked_by_spec. congruence.
  - exact Hd.
  - intros i Hc. specialize (Hg i Hc). destruct snapshot as [incoming|]; [|done].
    rewrite reload_apply_config. cbn. by rewrite Hg.
Qed.

Lemma entry_of_set_path endpoint path r g :
  entry_of g (set_path endpoint path r) =
  (fun p => if decide (pg_endpoint g = endpoint) then peer_with_path path p else p) <$> entry_of g r.
Proof.
  unfold entry_of, set_path. cbn [peers with_peers]. case_decide as He.
  - subst endpoint. rewrite lookup_alter_eq. destruct (peers r !! pg_endpoint g) as [l|]; [|done]. cbn [fmap option_fmap option_map].
    induction l as [|p l IH]; [done|]. cbn [fmap list_fmap]. rewrite !filter_cons. cbn. by case_decide.
  - rewrite lookup_alter_ne by done. destruct (peers r !! pg_endpoint g) as [l|]; [|done]. by destruct (head _).
Qed.

Lemma ok_path bound s endpoint path :
  gateway_ok bound s ->
  gateway_ok bound {| gw_config := gw_config s; gw_peers := set_path endpoint path (gw_peers s); gw_conns := gw_conns s |}.
Proof.
  intros [Hi Hs Hd Hg]. split; cbn; try done.
  - eapply same_ids_below; [|exact Hi]. split; [done|]. apply set_path_ids.
  - intros i g acl Hc. destruct (Hs _ _ _ Hc) as (p & Hp & H). eexists. rewrite entry_of_set_path, Hp. cbn.
    split; [done|]. by case_decide.
Qed.

Lemma gateway_step_ok bound s s' :
  0 <= bound -> bound + 1 < 2 ^ 64 -> gateway_ok bound s -> gateway_step s s' ->
  exists bound', bound <= bound' <= bound + 1 /\ gateway_ok bound' s'.
Proof.
  intros H0 Hb Hs Hstep. destruct Hstep as [i Hi|i now ca sec id tok dev pk saved Hi|i endpoint path now q Hi|i Hi|i Hi|i endpoint path now Hi|i g acl Hi|endpoint path|snapshot].
  - exists bound. split; [lia|]. apply ok_phase; [unfold on_accept; by case_match| |done].
    unfold on_accept. by case_match.
  - exists bound. split; [lia|]. apply ok_config; [apply enroll_kept|done].
  - unfold on_response. pose proof (go_gate _ _ Hs _ Hi) as He.
    pose proof (ok_config _ _ _ (authenticate_kept (gw_config s) now q) Hs) as Hs'.
    destruct (o_registered _) as [[id dev]|] eqn:Er; [|exists bound; split; [lia|]; exact (ok_delete _ _ i Hs')].
    destruct (o_answer _) as [acl|] eqn:Ea; [|exists bound; split; [lia|]; exact (ok_delete _ _ i Hs')].
    destruct (registry_insert _ _ _ _ _) as [g r] eqn:Ein. exists (bound + 1). split; [lia|].
    refine (ok_listed _ _ i _ _ _ _ g r (Some acl) H0 Hb Hs' Ein _). by apply accepted_stands.
  - exists bound. split; [lia|]. by apply ok_delete.
  - exists bound. split; [lia|]. unfold on_recheck. case_match; [by apply ok_delete|by apply ok_phase].
  - unfold on_list. destruct (registry_insert _ _ _ _ _) as [g r] eqn:Ein. exists (bound + 1). split; [lia|].
    by eapply ok_listed.
  - exists bound. split; [lia|]. by eapply ok_end.
  - exists bound. split; [lia|]. by apply ok_path.
  - exists bound. split; [lia|]. by apply ok_reload.
Qed.

Lemma gateway_steps_ok n bound s s' :
  nsteps gateway_step n s s' -> 0 <= bound -> bound + Z.of_nat n < 2 ^ 64 -> gateway_ok bound s ->
  exists bound', gateway_ok bound' s'.
Proof.
  intros H. revert bound. induction H as [s|n s s1 s2 Hstep _ IH]; intros bound Hb0 Hb Hs; [eauto|].
  destruct (gateway_step_ok bound s s1 Hb0 ltac:(lia) Hs Hstep) as (b & Hb' & Hs1). apply (IH b); [lia|lia|done].
Qed.

Lemma gateway_new_ok config : gateway_ok 0 (gateway_new config).
Proof.
  split; cbn; [|intros *; by rewrite lookup_empty..]. split; [done|]. intros e l p. cbn. by rewrite lookup_empty.
Qed.

(** C19: no connection outlives its permission.  In every interleaving of
    connections arriving, authenticating, enrolling, being listed and ending, and
    of reloads of any file, a connection that authenticated and was not told to
    stop is one whose client is still configured, whose device is still one of
    that client's, and whose access list, taken at the handshake, lets through
    nothing that the client's list of this moment does not.  This is what the
    watcher and the connection's loop do; the comment above the handshake in
    conn/mod.rs, that a deleted client finishes its open connection, is of
    another rule. *)
Theorem served_within_grants n config s i g acl :
  nsteps gateway_step n (gateway_new config) s -> Z.of_nat n < 2 ^ 64 ->
  gw_conns s !! i = Some (Served g (Some acl)) -> told g (gw_peers s) = false ->
  exists p id c, entry_of g (gw_peers s) = Some p /\ pi_client_id (p_identity p) = Some id /\
    a_clients (gw_config s) !! id = Some c /\ known_device c (pi_device (p_identity p)) /\
    acl_le acl (client_acl c).
Proof.
  intros Hn Hb Hi Ht.
  destruct (gateway_steps_ok n 0 _ s Hn ltac:(lia) ltac:(lia) (gateway_new_ok config)) as [bound Hs].
  destruct (go_served _ _ Hs _ _ _ Hi) as (p & Hp & H). unfold told in Ht. rewrite Hp in Ht.
  destruct H as [H|(id & c & ? & ? & ? & ?)]; [congruence|]. exists p, id, c. done.
Qed.
End Steps.

(** ** Worked examples *)

Lemma served_within_grants_witness :
  let q := toy_request 600 (show_uint 20) in
  let accepted := {| gw_config := toy_config; gw_peers := registry_new; gw_conns := {[ 0%nat := Handshaking ]} |} in
  let s := on_reload None (Some toy_config) (on_response toy_crypto 0 [7] PathDirect 600 q accepted) in
  exists c, a_clients (gw_config s) !! lit "alice" = Some c /\ acl_le (client_acl toy_client) (client_acl c).
Proof.
  intros q accepted s.
  destruct (served_within_grants toy_crypto (fun key => key) None 3 toy_config s 0 {| pg_endpoint := [7]; pg_id := 1 |}
              (client_acl toy_client)) as (p & id & c & Hp & Hid & Hc & _ & Hle).
  - eapply nsteps_l; [apply (step_accept _ _ _ _ 0); reflexivity|].
    eapply nsteps_l; [apply (step_response _ _ _ _ 0 [7] PathDirect 600 q); reflexivity|].
    eapply nsteps_l; [apply (step_reload _ _ _ _ (Some toy_config))|]. apply nsteps_O.
  - lia.
  - vm_compute. reflexivity.
  - vm_compute. reflexivity.
  - exists c. split; [|done]. assert (id = lit "alice") as <-; [|done].
    vm_compute in Hp. injection Hp as <-. vm_compute in Hid. injection Hid as <-. reflexivity.
Defined.

(** The window of a connection without credentials.  It looks at the gate a
    second time, lets go of the lock and is listed afterwards: a reload in
    between finds nothing to close, and the connection is served without
    credentials behind a gate that is on. *)
Theorem gate_window :
  exists s g, nsteps (gateway_step toy_crypto (fun key => key) None) 4 (gateway_new (with_enabled false toy_config)) s /\
    gw_conns s !! 0%nat = Some (Served g None) /\ a_enabled (gw_config s) = true /\ told g (gw_peers s) = false.
Proof.
  eexists _, {| pg_endpoint := [7]; pg_id := 1 |}. split.
  - eapply nsteps_l; [apply (step_accept _ _ _ _ 0); reflexivity|].
    eapply nsteps_l; [apply (step_recheck _ _ _ _ 0); reflexivity|].
    eapply nsteps_l; [apply (step_reload _ _ _ _ (Some toy_config))|].
    eapply nsteps_l; [apply (step_list _ _ _ _ 0 [7] PathDirect 600); reflexivity|]. apply nsteps_O.
  - vm_compute. done.
Qed.
