(* ===== verification/Interlock.v ===== *)
(** * Enrollments and reloads (nexapipe/src/conn/auth/{enrollment,state}.rs,
    config_watcher/mod.rs)

    A reload reads the file without the lock and merges what it read later, so an
    enrollment in between could be undone by the merge: its token would be back and
    its credential gone.  The epoch is the interlock: the enrollment writes the
    file and then moves it, under the lock, and the reload samples it before the
    read and compares it under the lock.

    One enrollment is three steps here (the lock, the write, the epoch), and a
    reload a sample, a read and a lock; operators edit the file at any time. *)

From S2P Require Import Prelude RustStd Host AuthCodec AuthConfig Authenticator Enrollment Peers Reload.

(** Who holds the lock of the configuration, and how far it got. *)
Inductive Lock :=
| Free
| Issuing (client_id : bytes) (issued : IssuedCredential) (config : AuthConfig)
| Recorded (config : AuthConfig).

(** Where the watcher is: the attempt (0 or 1), the epoch it sampled, and what it
    read ([None]: no [auth] section). *)
Inductive Watch :=
| Idle
| Sampling
| Sampled (attempt epoch : Z)
| Read (attempt epoch : Z) (snapshot : option AuthConfig).

(** What the file says is what [load_config_with_auth] returns for it; [since] is
    what it has said since the last enrollment was written, newest first. *)
Record System := {
  y_config : AuthConfig;
  y_peers : PeerRegistry;
  y_epoch : Z;
  y_lock : Lock;
  y_file : option AuthConfig;
  y_since : list (option AuthConfig);
  y_watch : Watch;
}.

Section Interlock.
Variable cr : Crypto.
Variable public_key_hex : PublicKey cr -> bytes.
Variable plaintext : option PlaintextListener.
(** What the store makes of the file when it records a credential. *)
Variable record_credential : bytes -> IssuedCredential -> option AuthConfig -> option AuthConfig.

Definition with_watch (w : Watch) (s : System) : System :=
  {| y_config := y_config s; y_peers := y_peers s; y_epoch := y_epoch s; y_lock := y_lock s;
     y_file := y_file s; y_since := y_since s; y_watch := w |}.
Definition with_config (config : AuthConfig) (lock : Lock) (s : System) : System :=
  {| y_config := config; y_peers := y_peers s; y_epoch := y_epoch s; y_lock := lock;
     y_file := y_file s; y_since := y_since s; y_watch := y_watch s |}.

Definition bump_enroll_epoch (s : System) : System :=
  {| y_config := y_config s; y_peers := y_peers s; y_epoch := wrapping 64 (y_epoch s + 1); y_lock := y_lock s;
     y_file := y_file s; y_since := y_since s; y_watch := y_watch s |}.

(** The store's write, and then the epoch. *)
Definition on_write (client_id : bytes) (issued : IssuedCredential) (config : AuthConfig) (s : System) : System :=
  let file := record_credential client_id issued (y_file s) in
  {| y_config := y_config s; y_peers := y_peers s; y_epoch := y_epoch s; y_lock := Recorded config;
     y_file := file; y_since := [file]; y_watch := y_watch s |}.
Definition on_bump (config : AuthConfig) (s : System) : System :=
  with_config config Free (bump_enroll_epoch s).

Definition on_edit (file : option AuthConfig) (s : System) : System :=
  {| y_config := y_config s; y_peers := y_peers s; y_epoch := y_epoch s; y_lock := y_lock s;
     y_file := file; y_since := file :: y_since s; y_watch := y_watch s |}.

(** One turn of the loop of [reload_auth], with the lock: the merge, another
    round, or [false]. *)
Definition at_lock (attempt epoch : Z) (snapshot : option AuthConfig) (s : System) : System :=
  if negb (y_epoch s =? epoch) then
    with_watch (if attempt =? 1 then Idle else Sampling) s
  else
    let o := reload_apply plaintext snapshot (y_config s) (y_peers s) in
    {| y_config := r_config o; y_peers := r_peers o; y_epoch := y_epoch s; y_lock := y_lock s;
       y_file := y_file s; y_since := y_since s; y_watch := Idle |}.

Inductive system_step (s : System) : System -> Prop :=
| sys_edit file : system_step s (on_edit file s)
| sys_issue now created_at secret id token device public_key issued :
    y_lock s = Free ->
    let o := enroll_client cr public_key_hex (y_config s) now created_at secret id token device public_key (Ok tt) in
    en_recorded o = Some issued ->
    system_step s (with_config (y_config s) (Issuing id issued (en_config o)) s)
| sys_refuse now created_at secret id token device public_key saved why :
    y_lock s = Free ->
    let o := enroll_client cr public_key_hex (y_config s) now created_at secret id token device public_key saved in
    en_reply o = ReplyFailed why ->
    system_step s (with_config (en_config o) Free s)
| sys_write id issued config :
    y_lock s = Issuing id issued config -> system_step s (on_write id issued config s)
| sys_bump config :
    y_lock s = Recorded config -> system_step s (on_bump config s)
| sys_reload_starts :
    y_watch s = Idle -> system_step s (with_watch (Sampled 0 (y_epoch s)) s)
| sys_sample_again :
    y_watch s = Sampling -> system_step s (with_watch (Sampled 1 (y_epoch s)) s)
| sys_read attempt epoch :
    y_watch s = Sampled attempt epoch -> system_step s (with_watch (Read attempt epoch (y_file s)) s)
| sys_read_fails attempt epoch :
    y_watch s = Sampled attempt epoch -> system_step s (with_watch Idle s)
| sys_lock attempt epoch snapshot :
    y_lock s = Free -> y_watch s = Read attempt epoch snapshot -> system_step s (at_lock attempt epoch snapshot s).

Definition system_new (config : AuthConfig) (file : option AuthConfig) : System :=
  {| y_config := config; y_peers := registry_new; y_epoch := 0; y_lock := Free; y_file := file;
     y_since := [file]; y_watch := Idle |}.

(** ** What a sample says *)

Definition is_recorded (l : Lock) : bool := match l with Recorded _ => true | _ => false end.

Record system_ok (bound : Z) (s : System) : Prop := {
  so_epoch : 0 <= y_epoch s <= bound;
  so_file : y_file s ∈ y_since s;
  so_sampled attempt epoch : y_watch s = Sampled attempt epoch -> epoch <= y_epoch s;
  so_read attempt epoch snapshot : y_watch s = Read attempt epoch snapshot ->
    epoch <= y_epoch s /\ (epoch = y_epoch s -> is_recorded (y_lock s) = false -> snapshot ∈ y_since s);
}.

Lemma system_step_ok bound s s' :
  bound + 1 < 2 ^ 64 -> system_ok bound s -> system_step s s' -> system_ok (bound + 1) s'.
Proof.
  intros Hb [He Hf Hs Hr] Hstep.
  destruct Hstep as [file|now ca sec id tok dev pk issued Hl o Ho|now ca sec id tok dev pk saved why Hl o Ho
    |id issued config Hl|config Hl|Hw|Hw|a e Hw|a e Hw|a e snap Hl Hw];
    split; cbn; try lia; try done; intros *.
  - set_solver.
  - intros Hw. apply Hr in Hw as [? H]. split; [done|]. set_solver.
  - intros Hw. apply Hr in Hw as [? H]. split; [done|]. intros Ee _. apply H; [done|by rewrite Hl].
  - intros Hw. apply Hr in Hw as [? H]. split; [done|]. intros Ee _. apply H; [done|by rewrite Hl].
  - set_solver.
  - intros Hw. apply Hr in Hw as [? _]. by split.
  - rewrite wrapping_small by (unfold is_uint; lia). lia.
  - rewrite wrapping_small by (unfold is_uint; lia). intros Hw. apply Hs in Hw. lia.
  - rewrite wrapping_small by (unfold is_uint; lia). intros Hw. apply Hr in Hw as [? _]. split; lia.
  - intros [= _ <-]. lia.
  - intros [= _ <-]. lia.
  - intros [= <- <- <-]. split; [by eapply Hs|]. done.
  - unfold at_lock. case_match; cbn; lia.
  - unfold at_lock. by case_match.
  - unfold at_lock. repeat (case_match; cbn); done.
  - unfold at_lock. repeat (case_match; cbn); done.
Qed.

Lemma system_steps_ok n bound s s' :
  nsteps system_step n s s' -> bound + Z.of_nat n < 2 ^ 64 -> system_ok bound s ->
  exists bound', system_ok bound' s'.
Proof.
  intros H. revert bound. induction H as [s|n s s1 s2 Hstep _ IH]; intros bound Hb Hs; [eauto|].
  apply (IH (bound + 1)); [lia|]. by eapply system_step_ok; [lia| |].
Qed.

(** C21: a reload does not undo an enrollment.  In every interleaving of
    enrollments, operators' edits and reloads, the file a reload merges is one
    that the store has held since the last enrollment was written into it; a
    snapshot an enrollment overtook changes nothing, neither the configuration
    nor a connection.  So with no edit in between, what is merged is the file as
    the enrollment left it. *)
Theorem reload_sees_enrollments n config file s attempt epoch snapshot :
  nsteps system_step n (system_new config file) s -> Z.of_nat n < 2 ^ 64 ->
  y_lock s = Free -> y_watch s = Read attempt epoch snapshot ->
  let s' := at_lock attempt epoch snapshot s in
  (y_config s', y_peers s') = (y_config s, y_peers s) /\ y_watch s' <> Read attempt epoch snapshot \/
  snapshot ∈ y_since s /\
  (y_config s', y_peers s') =
    (r_config (reload_apply plaintext snapshot (y_config s) (y_peers s)),
     r_peers (reload_apply plaintext snapshot (y_config s) (y_peers s))).
Proof.
  intros Hn Hb Hl Hw s'.
  destruct (system_steps_ok n 0 _ s Hn ltac:(lia)) as [bound [_ _ _ Hr]].
  { split; cbn; [lia|by left|done|done]. }
  apply Hr in Hw as [_ H]. unfold s', at_lock. destruct (y_epoch s =? epoch) eqn:E; cbn; bools.
  - right. split; [|done]. apply H; [done|by rewrite Hl].
  - left. split; [done|]. by case_match.
Qed.
End Interlock.

(** An enrollment that the reload's first read missed. *)
Lemma reload_sees_enrollments_witness :
  let store := fun (_ : bytes) (_ : IssuedCredential) (_ : option AuthConfig) => Some auth_config_default in
  exists s, y_since s = [Some auth_config_default] /\ y_watch s = Read 0 0 (Some invited) /\
    y_config (at_lock None 0 0 (Some invited) s) = y_config s.
Proof.
  intros store. eexists. split; [|split].
  3: { edestruct (reload_sees_enrollments toy_crypto (fun key => key) None store 5 invited (Some invited)) as [[H _]|[H _]].
       - eapply nsteps_l; [apply sys_reload_starts; reflexivity|].
         eapply nsteps_l; [apply (sys_read _ _ _ _ _ 0 0); reflexivity|].
         eapply nsteps_l; [eapply (sys_issue _ _ _ _ _ 100 (lit "now") (lit "BBBB") (lit "alice") (lit "token")
                                     (Some (lit "phone")) None); [reflexivity|vm_compute; reflexivity]|].
         eapply nsteps_l; [eapply sys_write; reflexivity|].
         eapply nsteps_l; [eapply sys_bump; reflexivity|]. apply nsteps_O.
       - lia.
       - reflexivity.
       - reflexivity.
       - exact (f_equal fst H).
       - exfalso. apply (list_elem_of_singleton (Some invited) (Some auth_config_default)) in H. discriminate H. }
  - reflexivity.
  - reflexivity.
Defined.
