(* ===== verification/Handshake.v ===== *)
(** * The handshake (nexapipe/src/conn/auth/handshake.rs)

    One stream carries length-prefixed messages: AUTH_START (after an enrollment,
    when the client asked for one), the server's challenge, the client's response
    and the verdict.  The stream is the chunks its reads return, an empty one being
    the end; the two critical sections, the enrollment and the authentication, see
    the configuration of their moment, as other tasks run in between.

    [perform_authentication] is a program over the stream: it reads, it writes, and
    it may fail at any of its steps. *)

From S2P Require Import Prelude RustStd AuthCodec AuthConfig Authenticator Enrollment.

Definition MAX_AUTH_MESSAGE : Z := 64 * 1024.

(** ** Framing *)

Inductive ReadError :=
| ReadFailed (error : bytes)
| ClosedAfter (filled wanted : Z)
| OutOfRange (length : Z).

(** What the reads of a stream return, one after the other, and then: the end
    ([None]) or an error. *)
Record Stream := { chunks : list bytes; ended : option bytes }.

(** The loop of [read_bytes] with [need] bytes to go: what was filled in, the rest
    of the stream, and whether a read failed. *)
Fixpoint fill (need : nat) (s : list bytes) (e : option bytes) : bytes * list bytes * option bytes :=
  match need with
  | O => ([], s, None)
  | S _ =>
      match s with
      | [] => ([], [], e)
      | [] :: _ => ([], s, None)
      | c :: s' =>
          if bool_decide (length c <= need)%nat then
            let '(got, rest, err) := fill (need - length c) s' e in (c ++ got, rest, err)
          else (take need c, drop need c :: s', None)
      end
  end.

Definition read_bytes (wanted : nat) (s : Stream) : result (bytes * Stream) ReadError :=
  let '(got, rest, err) := fill wanted (chunks s) (ended s) in
  match err with
  | Some e => Err (ReadFailed e)
  | None =>
      if len got <? Z.of_nat wanted then Err (ClosedAfter (len got) (Z.of_nat wanted))
      else Ok (got, {| chunks := rest; ended := ended s |})
  end.

Definition read_auth_message (s : Stream) : result (bytes * Stream) ReadError :=
  let? '(len_buf, s) := read_bytes 4 s in
  let msg_len := from_le_bytes len_buf in
  if (msg_len =? 0) || (MAX_AUTH_MESSAGE <? msg_len) then Err (OutOfRange msg_len)
  else read_bytes (Z.to_nat msg_len) s.

(** ** The handshake *)

Inductive Why :=
| NoStream
| CannotRead (e : ReadError)
| CannotSend
| NotAnAuthStart
| ExpectedStart
| ExpectedStartAfterEnroll
| ExpectedResponse
| ClientIdNotPrintable
| DeviceIdNotPrintable
| EnrollmentRefused (why : EnrollRefusal)
| OtherClientNamed (named enrolled : bytes)
| ClientIdMismatch
| AuthenticationFailed (client_id reason : bytes).

Inductive AuthFailure := NotStarted (why : Why) | Rejected (why : Why).

Record AuthenticatedPeer := { ap_client_id : bytes; ap_device : option bytes; ap_acl : ClientAcl }.

(** What the stream is at, the outcomes of the writes to come ([true] until they
    run out), the frames written, and the two critical sections' results. *)
Record Session := {
  h_stream : Stream;
  h_writes : list bool;
  h_sent : list bytes;
  h_enrolled : option Enrolled;
  h_authenticated : option Authenticated;
}.

Definition M (A : Type) : Type := Session -> result A AuthFailure * Session.
Definition ret {A} (x : A) : M A := fun s => (Ok x, s).
Definition fail {A} (e : AuthFailure) : M A := fun s => (Err e, s).
Definition bind {A B} (m : M A) (k : A -> M B) : M B := fun s =>
  match m s with
  | (Ok x, s) => k x s
  | (Err e, s) => (Err e, s)
  end.
Notation "'do^' x := m 'in' k" := (bind m (fun x => k)) (at level 10, x binder, m at level 100, k at level 200).

Definition with_stream (stream : Stream) (s : Session) : Session :=
  {| h_stream := stream; h_writes := h_writes s; h_sent := h_sent s; h_enrolled := h_enrolled s;
     h_authenticated := h_authenticated s |}.

Definition receive_message : M bytes := fun s =>
  match read_auth_message (h_stream s) with
  | Ok (m, stream) => (Ok m, with_stream stream s)
  | Err e => (Err (NotStarted (CannotRead e)), s)
  end.

(** One write to the stream; the empty one is its end ([finish]). *)
Definition put (frame : bytes) : M unit := fun s =>
  match h_writes s with
  | false :: rest =>
      (Err (NotStarted CannotSend),
       {| h_stream := h_stream s; h_writes := rest; h_sent := h_sent s; h_enrolled := h_enrolled s;
          h_authenticated := h_authenticated s |})
  | ok =>
      (Ok tt, {| h_stream := h_stream s; h_writes := tail ok; h_sent := h_sent s ++ [frame];
                 h_enrolled := h_enrolled s; h_authenticated := h_authenticated s |})
  end.

Section Handshake.
Variable cr : Crypto.
Variable public_key_hex : PublicKey cr -> bytes.
Context {JsonError : Type}.
Variable json_to_writer : AuthMessage -> result bytes JsonError.
Variable json_from_slice : bytes -> result AuthMessage JsonError.
(** The text of a refused enrollment. *)
Variable refusal_text : EnrollRefusal -> bytes.

(** [bytes.len() as u32]. *)
Definition write_auth_message (message : AuthMessage) (format : Format) : M unit :=
  match to_payload json_to_writer message format with
  | Err _ => fail (NotStarted CannotSend)
  | Ok bytes =>
      do^ _ := put (to_le_bytes 4 (wrapping 32 (len bytes))) in
      put bytes
  end.

Definition from_payload_or (why : Why) (payload : bytes) : M (AuthMessage * Format) :=
  match from_payload json_from_slice payload with
  | Ok m => ret m
  | Err _ => fail (NotStarted why)
  end.

Definition reply_format (message : AuthMessage) (asked_in : Format) : Format :=
  match announced_version message ≫= from_version with
  | Some f => f
  | None => asked_in
  end.

(** What the two critical sections and the random source will find. *)
Record Moment := { mo_config : AuthConfig; mo_now : Z }.
Record World := {
  wo_accepts : bool;
  wo_enroll : Moment;
  wo_created_at : bytes;
  wo_secret : bytes;
  wo_saved : result unit bytes;
  wo_nonce : bytes;
  wo_response : Moment;
}.
Variable w : World.

Definition enroll (client_id token : bytes) (device public_key : option bytes) (format : Format) : M unit := fun s =>
  let o := enroll_client cr public_key_hex (mo_config (wo_enroll w)) (mo_now (wo_enroll w)) (wo_created_at w)
             (wo_secret w) client_id token device public_key (wo_saved w) in
  let s := {| h_stream := h_stream s; h_writes := h_writes s; h_sent := h_sent s; h_enrolled := Some o;
              h_authenticated := h_authenticated s |} in
  match en_reply o with
  | ReplyIssue message => write_auth_message message format s
  | ReplyFailed why =>
      (do^ _ := write_auth_message (EnrollFailed (refusal_text why)) format in
       fail (Rejected (EnrollmentRefused why))) s
  end.

(** The start message, and the one after an enrollment: whose handshake it is and
    the form of the answers. *)
Definition start_of (start_msg : AuthMessage) (format : Format) : M (bytes * Format) :=
  match start_msg with
  | Start client_id _ _ _ => ret (client_id, format)
  | EnrollStart client_id token device_id public_key =>
      do^ _ := enroll client_id token device_id public_key format in
      do^ payload := receive_message in
      do^ '(msg, asked_in) := from_payload_or ExpectedStartAfterEnroll payload in
      match msg with
      | Start id _ _ _ =>
          if bool_decide (id = client_id) then ret (client_id, reply_format msg asked_in)
          else fail (Rejected (OtherClientNamed id client_id))
      | _ => fail (NotStarted ExpectedStartAfterEnroll)
      end
  | _ => fail (NotStarted ExpectedStart)
  end.

Definition check_ids (start_msg : AuthMessage) : M unit :=
  match start_msg with
  | Start client_id _ _ _ =>
      if is_presentable_client_id client_id then ret tt else fail (Rejected ClientIdNotPrintable)
  | EnrollStart client_id _ device_id _ =>
      if negb (is_presentable_client_id client_id) then fail (Rejected ClientIdNotPrintable)
      else match device_id with
           | Some name => if is_presentable_device_id name then ret tt else fail (Rejected DeviceIdNotPrintable)
           | None => ret tt
           end
  | _ => ret tt
  end.

Definition FAIL_REASON : bytes := lit "Invalid TOTP code".

(** Step 4: the verdict, told and returned. *)
Definition verdict (q : AuthRequest) (format : Format) : M AuthenticatedPeer := fun s =>
  let o := authenticate cr (mo_config (wo_response w)) (mo_now (wo_response w)) q in
  let s := {| h_stream := h_stream s; h_writes := h_writes s; h_sent := h_sent s; h_enrolled := h_enrolled s;
              h_authenticated := Some o |} in
  let '(is_valid, verified_acl, registered) :=
    match o_answer o with
    | Ok acl => (true, acl, o_registered o)
    | Err _ => (false, unrestricted, None)
    end in
  (do^ _ := write_auth_message (if is_valid : bool then AuthOk else Failed FAIL_REASON) format in
   do^ _ := put [] in
   match registered with
   | Some _ => ret {| ap_client_id := q_client_id q; ap_device := q_device_id q; ap_acl := verified_acl |}
   | None => fail (Rejected (AuthenticationFailed (q_client_id q) FAIL_REASON))
   end) s.

(** Steps 2 and 3: the challenge and the response, as the request the authenticator
    is asked, and the form of its answer. *)
Definition challenge_and_response (client_id : bytes) (format : Format) : M (AuthRequest * Format) :=
  do^ _ := write_auth_message (Challenge (wo_nonce w)) format in
  do^ response_bytes := receive_message in
  do^ '(response_msg, response_format) := from_payload_or ExpectedResponse response_bytes in
  match response_msg with
  | Response resp_client_id timestamp totp_code signature resp_device_id =>
      if negb (bool_decide (resp_client_id = client_id)) then fail (Rejected ClientIdMismatch)
      else if match resp_device_id with Some name => negb (is_presentable_device_id name) | None => false end
      then fail (Rejected DeviceIdNotPrintable)
      else
        ret ({| q_client_id := client_id; q_device_id := resp_device_id; q_nonce := wo_nonce w;
                q_timestamp := timestamp; q_signature := signature; q_code := totp_code |}, response_format)
  | _ => fail (NotStarted ExpectedResponse)
  end.

(** Steps 1 to 3. *)
Definition exchange : M (AuthRequest * Format) :=
  do^ _ := (if wo_accepts w then ret tt else fail (NotStarted NoStream)) in
  do^ start_bytes := receive_message in
  do^ '(start_msg, start_format) := from_payload_or NotAnAuthStart start_bytes in
  do^ _ := check_ids start_msg in
  do^ '(client_id, format) := start_of start_msg (reply_format start_msg start_format) in
  challenge_and_response client_id format.

Definition perform_authentication : M AuthenticatedPeer :=
  do^ '(request, response_format) := exchange in
  verdict request response_format.
End Handshake.

(** ** Framing is exact *)

Definition flowing (s : list bytes) : Prop := Forall (fun c => c <> []) s.

Lemma fill_spec need s e :
  flowing s ->
  exists rest, fill need s e = (take need (concat s), rest,
                                if bool_decide (need <= length (concat s))%nat then None else e) /\
    concat rest = drop need (concat s) /\ flowing rest.
Proof.
  intros Hs. revert need. induction Hs as [|c s Hc Hs IH]; intros need.
  - exists []. destruct need.
    + rewrite bool_decide_eq_true_2 by (cbn; lia). split_and!; [done|done|constructor].
    + rewrite bool_decide_eq_false_2 by (cbn; lia). split_and!; [done|done|constructor].
  - destruct need as [|n].
    { exists (c :: s). rewrite bool_decide_eq_true_2 by lia. split; [done|]. split; [done|]. by constructor. }
    cbn [fill concat]. destruct c as [|b c]; [done|]. set (l := b :: c) in *. case_bool_decide as Hle.
    + destruct (IH (S n - length l)%nat) as (rest & -> & Hr & Hf). exists rest.
      rewrite take_app_ge, drop_app_ge, length_app by lia. split; [|done]. by rewrite (bool_decide_ext (S n - length l <= length (concat s))%nat
        (S n <= length l + length (concat s))%nat) by lia.
    + exists (drop (S n) l :: s). rewrite take_app_le, drop_app_le, length_app by lia.
      rewrite bool_decide_eq_true_2 by lia. split; [done|]. split; [done|]. constructor; [|done].
      intros E. apply (f_equal length) in E. rewrite length_drop in E. cbn in *. lia.
Qed.

Lemma read_bytes_spec n s :
  flowing (chunks s) ->
  match read_bytes n s with
  | Ok (got, s') =>
      concat (chunks s) = got ++ concat (chunks s') /\ length got = n /\ flowing (chunks s') /\ ended s' = ended s
  | Err (ClosedAfter filled wanted) =>
      filled = len (concat (chunks s)) /\ wanted = Z.of_nat n /\ filled < wanted /\ ended s = None
  | Err (ReadFailed e) => len (concat (chunks s)) < Z.of_nat n /\ ended s = Some e
  | Err (OutOfRange _) => False
  end.
Proof.
  intros Hf. unfold read_bytes. destruct (fill_spec n (chunks s) (ended s) Hf) as (rest & -> & Hr & Hfl).
  case_bool_decide as Hn.
  - unfold len. rewrite length_take_le by done. rewrite (proj2 (Z.ltb_ge _ _)) by lia. cbn.
    rewrite Hr, take_drop, length_take_le by done. done.
  - destruct (ended s) as [e|].
    + unfold len. split; [lia|done].
    + unfold len. rewrite length_take_ge by lia. rewrite (proj2 (Z.ltb_lt _ _)) by lia.
      split_and!; done || lia.
Qed.

(** A frame as it is on the wire. *)
Definition frame (m : bytes) : bytes := to_le_bytes 4 (len m) ++ m.

(** a message is read from its frame, however it was cut up.  On a stream
    whose reads return something, [read_auth_message] returns [m] exactly when the
    stream starts with the four-byte little-endian length of [m] and [m] itself,
    of 1 to 65536 bytes, and leaves exactly what follows; so the buffer is never
    larger than that, whatever the peer announces, and the segmentation is
    immaterial. *)
Theorem read_auth_message_exact s m rest :
  flowing (chunks s) -> bytes_ok (concat (chunks s)) ->
  (exists s', read_auth_message s = Ok (m, s') /\ concat (chunks s') = rest /\ flowing (chunks s') /\ ended s' = ended s) <->
  (concat (chunks s) = frame m ++ rest /\ 1 <= len m <= MAX_AUTH_MESSAGE).
Proof.
  intros Hf Hb. unfold read_auth_message, frame.
  pose proof (read_bytes_spec 4 s Hf) as H4. destruct (read_bytes 4 s) as [[lb s1]|e].
  - destruct H4 as (E1 & L4 & Hf1 & He1). rewrite E1 in Hb. apply Forall_app in Hb as [Hlb Hb1].
    pose proof (from_le_bytes_range lb Hlb) as Hrng. unfold len in Hrng. rewrite L4 in Hrng. change (8 * Z.of_nat 4) with 32 in Hrng.
    unfold is_uint in Hrng.
    assert (to_le_bytes 4 (from_le_bytes lb) = lb) as Hto by (rewrite <- L4; by apply to_from_le_bytes).
    set (n := from_le_bytes lb) in *.
    assert (forall x r, lb ++ concat (chunks s1) = (to_le_bytes 4 (len x) ++ x) ++ r -> 1 <= len x <= MAX_AUTH_MESSAGE ->
            n = len x /\ concat (chunks s1) = x ++ r) as Hinv.
    { intros x r E Hx. rewrite <- app_assoc in E. apply app_inj_1 in E as [E ?]; [|by rewrite length_to_le_bytes].
      split; [|done]. unfold n. rewrite E. apply from_to_le_bytes. unfold is_uint, MAX_AUTH_MESSAGE in *.
      change (2 ^ (8 * Z.of_nat 4)) with 4294967296. lia. }
    destruct ((n =? 0) || (MAX_AUTH_MESSAGE <? n)) eqn:En; bools.
    + split; [intros (? & ? & _); done|]. intros [E Hx]. rewrite E1 in E. destruct (Hinv _ _ E Hx) as [-> _]. lia.
    + pose proof (read_bytes_spec (Z.to_nat n) s1 Hf1) as Hm. split.
      * intros (s' & Hok & <- & _ & _). rewrite Hok in Hm. destruct Hm as (E2 & Lm & _ & _).
        assert (len m = n) as Hlen by (unfold len; lia). split; [|lia]. by rewrite E1, E2, Hlen, Hto, <- app_assoc.
      * intros [E Hx]. rewrite E1 in E. destruct (Hinv _ _ E Hx) as [Hn E2].
        assert (Z.of_nat (Z.to_nat n) = len m) as Hzn by (rewrite Hn; unfold len; lia).
        destruct (read_bytes (Z.to_nat n) s1) as [[got s2]|[]]; [|rewrite E2, len_app in Hm; pose proof (len_nonneg rest); lia..|done].
        destruct Hm as (E3 & Lg & Hf2 & He2). rewrite E2 in E3. apply app_inj_1 in E3 as [<- ->]; [|unfold len in *; lia].
        exists s2. split; [done|]. split; [done|]. split; [done|congruence].
  - split; [intros (? & ? & _); done|]. intros [E Hx].
    assert (4 <= len (concat (chunks s))) as Hlen.
    { rewrite E, !len_app. unfold len at 1. rewrite length_to_le_bytes. pose proof (len_nonneg rest). lia. }
    destruct e; [lia|lia|done].
Qed.

Lemma read_auth_message_exact_witness :
  exists s', read_auth_message {| chunks := [[2]; [0; 0; 0; 7]; [8; 9]]; ended := None |} = Ok ([7; 8], s') /\
    concat (chunks s') = [9].
Proof.
  destruct (proj2 (read_auth_message_exact {| chunks := [[2]; [0; 0; 0; 7]; [8; 9]]; ended := None |} [7; 8] [9]
    ltac:(repeat constructor; discriminate) ltac:(cbn; repeat constructor; cbn; lia))) as (s' & H & E & _).
  - split; [reflexivity|]. vm_compute. split; discriminate.
  - by exists s'.
Defined.

(** ** What the steps leave alone, and what they establish *)

(** The authenticator has not been asked. *)
Definition quiet {A} (m : M A) : Prop := forall s, h_authenticated (m s).2 = h_authenticated s.
(** What holds of a result. *)
Definition gives {A} (m : M A) (P : A -> Prop) : Prop := forall s x s', m s = (Ok x, s') -> P x.

Lemma quiet_bind {A B} (m : M A) (k : A -> M B) : quiet m -> (forall x, quiet (k x)) -> quiet (bind m k).
Proof.
  intros Hm Hk s. unfold bind. specialize (Hm s). destruct (m s) as [[x|e] s']; cbn in *; [|done].
  by rewrite (Hk x s').
Qed.

Lemma gives_bind {A B} (m : M A) (k : A -> M B) P Q :
  gives m P -> (forall x, P x -> gives (k x) Q) -> gives (bind m k) Q.
Proof.
  intros Hm Hk s y s'. unfold bind. destruct (m s) as [[x|e] s1] eqn:E; [|done]. apply (Hk x). by eapply Hm.
Qed.

Lemma gives_any {A} (m : M A) : gives m (fun _ => True).
Proof. by intros s x s'. Qed.
Lemma gives_ret {A} (x : A) (P : A -> Prop) : P x -> gives (ret x) P.
Proof. by intros H s y s' [= <- _]. Qed.
Lemma gives_fail {A} e (P : A -> Prop) : gives (fail e) P.
Proof. by intros s y s'. Qed.

Lemma quiet_ret {A} (x : A) : quiet (ret x). Proof. done. Qed.
Lemma quiet_fail {A} e : quiet (fail (A:=A) e). Proof. done. Qed.
Lemma quiet_receive : quiet receive_message.
Proof. intros s. unfold receive_message. by repeat case_match. Qed.
Lemma quiet_put frame : quiet (put frame).
Proof. intros s. unfold put. by repeat case_match. Qed.

Create HintDb handshake discriminated.
#[local] Hint Resolve quiet_ret quiet_fail quiet_receive quiet_put gives_any gives_fail : handshake.

Section Results.
Variable cr : Crypto.
Variable public_key_hex : PublicKey cr -> bytes.
Context {JsonError : Type}.
Variable json_to_writer : AuthMessage -> result bytes JsonError.
Variable json_from_slice : bytes -> result AuthMessage JsonError.
Variable refusal_text : EnrollRefusal -> bytes.

#[local] Abbreviation write := (write_auth_message json_to_writer).
#[local] Abbreviation exchanged := (exchange cr public_key_hex json_to_writer json_from_slice refusal_text).
#[local] Abbreviation perform := (perform_authentication cr public_key_hex json_to_writer json_from_slice refusal_text).

Lemma quiet_write message format : quiet (write message format).
Proof. unfold write_auth_message. case_match; [|apply quiet_fail]. apply quiet_bind; auto with handshake. Qed.
Lemma quiet_from_payload why payload : quiet (from_payload_or json_from_slice why payload).
Proof. unfold from_payload_or. case_match; auto with handshake. Qed.
#[local] Hint Resolve quiet_write quiet_from_payload : handshake.

Lemma quiet_enroll w client_id token device public_key format :
  quiet (enroll cr public_key_hex json_to_writer refusal_text w client_id token device public_key format).
Proof.
  intros s. unfold enroll. case_match.
  - by rewrite quiet_write.
  - rewrite (quiet_bind _ _ (quiet_write _ _)); [done|]. intros. apply quiet_fail.
Qed.
#[local] Hint Resolve quiet_enroll : handshake.

Ltac quietly := repeat first
  [ progress auto with handshake
  | apply quiet_bind; [|intros]
  | match goal with |- quiet (match ?x with _ => _ end) => destruct x end
  | match goal with |- quiet ((fun _ => _) _) => cbv beta end ].

Lemma quiet_exchange w : quiet (exchanged w).
Proof. unfold exchange, challenge_and_response, check_ids, start_of. quietly. Qed.

(** The names a request carries are ones that can be logged. *)
Definition printable (q : AuthRequest) : Prop :=
  is_presentable_client_id (q_client_id q) = true /\
  forall name, q_device_id q = Some name -> is_presentable_device_id name = true.

Definition start_client (m : AuthMessage) : option bytes :=
  match m with Start id _ _ _ | EnrollStart id _ _ _ => Some id | _ => None end.

Lemma check_ids_gives m :
  gives (check_ids m) (fun _ => forall id, start_client m = Some id -> is_presentable_client_id id = true).
Proof.
  intros s [] s'. unfold check_ids. destruct m; cbn; try (intros; done); intros H id [= ->];
    destruct (is_presentable_client_id id); done.
Qed.

Lemma start_of_gives w m format :
  gives (start_of cr public_key_hex json_to_writer json_from_slice refusal_text w m format)
    (fun r => start_client m = Some r.1).
Proof.
  unfold start_of. destruct m; auto with handshake; [by apply gives_ret|].
  do 2 (eapply gives_bind; [apply gives_any|]; intros ? _).
  eapply gives_bind; [apply gives_any|]. intros [msg asked_in] _.
  destruct msg; auto with handshake. case_bool_decide; [|auto with handshake]. by apply gives_ret.
Qed.

Lemma exchange_gives w : gives (exchanged w) (fun r => q_nonce r.1 = wo_nonce w /\ printable r.1).
Proof.
  unfold exchange, challenge_and_response. do 2 (eapply gives_bind; [apply gives_any|]; intros ? _).
  eapply gives_bind; [apply gives_any|]. intros [m f] _.
  eapply gives_bind; [apply check_ids_gives|]. intros u Hid.
  eapply gives_bind; [apply start_of_gives|]. intros [id format] Hm.
  do 2 (eapply gives_bind; [apply gives_any|]; intros ? _).
  eapply gives_bind; [apply gives_any|]. intros [r rf] _.
  destruct r; auto with handshake. destruct (negb _); [auto with handshake|].
  case_match eqn:Ed; [auto with handshake|]. apply gives_ret. cbn. split; [done|]. split; [by apply Hid|].
  cbn. intros name ->. by apply negb_false_iff.
Qed.

Lemma authenticate_answer_registered config now q acl :
  o_answer (authenticate cr config now q) = Ok acl ->
  o_registered (authenticate cr config now q) = Some (q_client_id q, q_device_id q).
Proof.
  unfold authenticate, accept, record_accepted, refused. intros H. repeat case_match; simplify_eq/=; done.
Qed.

Lemma put_fails frame s e s' : put frame s = (Err e, s') -> e = NotStarted CannotSend.
Proof. unfold put. by repeat case_match; intros [= <- _]. Qed.

Lemma write_fails message format s e s' : write message format s = (Err e, s') -> e = NotStarted CannotSend.
Proof.
  unfold write_auth_message. case_match; [|by intros [= <- _]]. unfold bind.
  destruct (put _ s) as [[u|e1] s1] eqn:E1; [apply put_fails|]. intros [= <- _]. by eapply put_fails.
Qed.

(** What the verdict says, by the authenticator's answer. *)
Lemma verdict_cases w q f s :
  let o := authenticate cr (mo_config (wo_response w)) (mo_now (wo_response w)) q in
  let '(r, s') := verdict cr json_to_writer w q f s in
  h_authenticated s' = Some o /\
  match r with
  | Ok peer => o_answer o = Ok (ap_acl peer) /\ o_registered o = Some (ap_client_id peer, ap_device peer)
  | Err (Rejected why) => is_ok (o_answer o) = false /\ why = AuthenticationFailed (q_client_id q) FAIL_REASON
  | Err (NotStarted why) => why = CannotSend
  end.
Proof.
  intros o. unfold verdict. fold o.
  set (s1 := {| h_stream := _; h_writes := _; h_sent := _; h_enrolled := _; h_authenticated := Some o |}).
  destruct (match o_answer o with Ok acl => _ | Err _ => _ end) as [[valid acl] reg] eqn:Em.
  assert (match reg with
          | Some _ => o_answer o = Ok acl /\ o_registered o = Some (q_client_id q, q_device_id q)
          | None => is_ok (o_answer o) = false
          end) as Hr.
  { destruct (o_answer o) as [a|e] eqn:Ea; [|by simplify_eq].
    pose proof (authenticate_answer_registered _ _ _ _ Ea) as Hreg. fold o in Hreg. rewrite Hreg in Em.
    by simplify_eq. }
  unfold bind at 1. pose proof (quiet_write (if valid then AuthOk else Failed FAIL_REASON) f s1) as Hq.
  pose proof (write_fails (if valid then AuthOk else Failed FAIL_REASON) f s1) as Hf.
  destruct (write _ f s1) as [[u|e] s2]; cbn in Hq; [|by rewrite (Hf _ _ eq_refl)].
  unfold bind. pose proof (quiet_put [] s2) as Hq'. pose proof (put_fails [] s2) as Hf'.
  destruct (put [] s2) as [[u'|e] s3]; cbn in Hq'; rewrite <- Hq in *; [|by rewrite (Hf' _ _ eq_refl)].
  by destruct reg.
Qed.

(** who gets through the handshake.  A handshake succeeds only when the
    authenticator, asked with the nonce this server drew for it, accepted and
    listed the connection, and what it returns is that answer: the client and
    device that were listed and the access list that was granted; both names can
    be printed.  When the authenticator refused, the handshake fails as rejected,
    unless the stream broke first, and then it never started; and one that never
    asked the authenticator never succeeds. *)
Theorem handshake_sound w s r s' :
  h_authenticated s = None -> perform w s = (r, s') ->
  match r with
  | Ok peer => exists q,
      let o := authenticate cr (mo_config (wo_response w)) (mo_now (wo_response w)) q in
      h_authenticated s' = Some o /\ q_nonce q = wo_nonce w /\ printable q /\
      (ap_client_id peer, ap_device peer) = (q_client_id q, q_device_id q) /\
      o_registered o = Some (ap_client_id peer, ap_device peer) /\ o_answer o = Ok (ap_acl peer)
  | Err e => forall o, h_authenticated s' = Some o ->
      (is_ok (o_answer o) = true -> e = NotStarted CannotSend) /\
      (is_ok (o_answer o) = false -> e = NotStarted CannotSend \/
         exists client_id, e = Rejected (AuthenticationFailed client_id FAIL_REASON))
  end.
Proof.
  intros Hn. unfold perform_authentication, bind.
  pose proof (quiet_exchange w s) as Hq. pose proof (exchange_gives w s) as Hg.
  destruct (exchanged w s) as [[[q f]|e] s1]; cbn in Hq.
  2:{ intros [= <- <-] o. rewrite Hq, Hn. done. }
  intros Hv. pose proof (verdict_cases w q f s1) as Hc. cbv zeta in Hc. rewrite Hv in Hc.
  destruct Hc as [Ho Hr]. destruct (Hg _ _ eq_refl) as [Hnonce Hp]. destruct r as [peer|[why|why]].
  - destruct Hr as [Ha Hreg]. exists q. split_and!; try done. rewrite (authenticate_answer_registered _ _ _ _ Ha) in Hreg. congruence.
  - intros o Ho'. rewrite Ho in Ho'. injection Ho' as <-. subst why. split; [done|by left].
  - intros o Ho'. rewrite Ho in Ho'. injection Ho' as <-. destruct Hr as [Ha ->]. rewrite Ha. split; [done|]. eauto.
Qed.

(** What a refused request is answered. *)
Definition refusal (client_id : bytes) (f : Format) : M AuthenticatedPeer :=
  do^ _ := write (Failed FAIL_REASON) f in
  do^ _ := put [] in
  fail (Rejected (AuthenticationFailed client_id FAIL_REASON)).

Definition with_authenticated (o : Authenticated) (s : Session) : Session :=
  {| h_stream := h_stream s; h_writes := h_writes s; h_sent := h_sent s; h_enrolled := h_enrolled s;
     h_authenticated := Some o |}.

Lemma refusal_blind client_id f o s :
  refusal client_id f (with_authenticated o s) =
  ((refusal client_id f s).1, with_authenticated o (refusal client_id f s).2).
Proof.
  unfold refusal, bind, write_auth_message. destruct (to_payload _ _ _) as [p|]; [|done].
  unfold put, bind. cbn. destruct (h_writes s) as [|[] [|[] [|[] ?]]]; done.
Qed.

Lemma verdict_refused w q f s o e :
  let r := verdict cr json_to_writer w q f s in
  h_authenticated r.2 = Some o -> o_answer o = Err e ->
  r = refusal (q_client_id q) f (with_authenticated o s).
Proof.
  intros r Ho Ha. pose proof (verdict_cases w q f s) as Hc. cbv zeta in Hc. fold r in Hc.
  destruct r as [res s'] eqn:Er. destruct Hc as [Ho' _]. cbn in Ho. rewrite Ho in Ho'. injection Ho' as ->.
  rewrite <- Er. unfold r, verdict. by rewrite Ha.
Qed.

(** The same world, with another configuration at the response. *)
Definition with_response (m : Moment) (w : World) : World :=
  {| wo_accepts := wo_accepts w; wo_enroll := wo_enroll w; wo_created_at := wo_created_at w; wo_secret := wo_secret w;
     wo_saved := wo_saved w; wo_nonce := wo_nonce w; wo_response := m |}.

(** The authenticator refused. *)
Definition was_refused (s : Session) : Prop :=
  exists o e, h_authenticated s = Some o /\ o_answer o = Err e.

(** C34: a refusal is not an oracle.  Whatever the server holds when a response
    arrives, and at whatever time, two refusals of the same exchange are the same
    to the client: the same frames in the same order, and the same close.  An
    unknown client, a lockout, a stale timestamp, a bad signature, a used step
    and a wrong code cannot be told apart. *)
Theorem refusals_indistinguishable w moment s r1 s1 r2 s2 :
  h_authenticated s = None ->
  perform w s = (r1, s1) -> perform (with_response moment w) s = (r2, s2) ->
  was_refused s1 -> was_refused s2 ->
  r1 = r2 /\ h_sent s1 = h_sent s2 /\ h_stream s1 = h_stream s2.
Proof.
  intros Hn. unfold perform_authentication. change (exchanged (with_response moment w)) with (exchanged w).
  unfold bind. pose proof (quiet_exchange w s) as Hq. destruct (exchanged w s) as [[[q f]|e] s0]; cbn in Hq.
  2:{ intros [= <- <-] _ (o & e' & Ho & _). congruence. }
  intros H1 H2 (o1 & e1 & Ho1 & Ha1) (o2 & e2 & Ho2 & Ha2).
  pose proof (verdict_refused w q f s0 o1 e1) as Hv1. rewrite H1 in Hv1.
  pose proof (verdict_refused (with_response moment w) q f s0 o2 e2) as Hv2. rewrite H2 in Hv2.
  specialize (Hv1 Ho1 Ha1). specialize (Hv2 Ho2 Ha2). rewrite refusal_blind in Hv1, Hv2.
  injection Hv1 as -> ->. injection Hv2 as -> ->. done.
Qed.
End Results.

(** ** A worked example *)

Definition toy_json_to (m : AuthMessage) : result bytes unit := Err tt.
Definition toy_json_from (text : bytes) : result AuthMessage unit := Err tt.

Definition toy_frame (m : AuthMessage) : bytes := frame (VERSION_BINARY :: encode_binary m).

(** A client that answers with a code, its two messages arriving in three reads. *)
Definition toy_session (code : bytes) : Session :=
  let start := toy_frame (Start (lit "alice") 600 None None) in
  let response := toy_frame (Response (lit "alice") 600 code (q_signature (toy_request 600 code)) None) in
  {| h_stream := {| chunks := [take 9 start; drop 9 start ++ take 3 response; drop 3 response]; ended := None |};
     h_writes := []; h_sent := []; h_enrolled := None; h_authenticated := None |}.

Definition toy_world (config : AuthConfig) : World :=
  {| wo_accepts := true; wo_enroll := {| mo_config := config; mo_now := 600 |}; wo_created_at := []; wo_secret := [];
     wo_saved := Ok tt; wo_nonce := [1; 2; 3]; wo_response := {| mo_config := config; mo_now := 600 |} |}.

Definition toy_perform (w : World) (s : Session) : result AuthenticatedPeer AuthFailure * Session :=
  perform_authentication toy_crypto (fun key => key) toy_json_to toy_json_from (fun _ => []) w s.

Lemma handshake_sound_witness :
  exists q acl, (toy_perform (toy_world toy_config) (toy_session (show_uint 20))).1 =
    Ok {| ap_client_id := lit "alice"; ap_device := None; ap_acl := acl |} /\
    o_answer (authenticate toy_crypto toy_config 600 q) = Ok acl.
Proof.
  pose proof (handshake_sound toy_crypto (fun key => key) toy_json_to toy_json_from (fun _ => [])
    (toy_world toy_config) (toy_session (show_uint 20)) _ _ eq_refl (surjective_pairing _)) as H.
  destruct (toy_perform (toy_world toy_config) (toy_session (show_uint 20))).1 as [[id dev acl]|] eqn:E;
    unfold toy_perform in E; rewrite E in H; [|vm_compute in E; discriminate E].
  destruct H as (q & _ & _ & _ & _ & _ & Ha). exists q, acl. split; [|exact Ha].
  vm_compute in E. injection E as <- <- _. reflexivity.
Defined.

Lemma refusals_indistinguishable_witness :
  let wrong := toy_perform (toy_world toy_config) (toy_session (lit "999999")) in
  let unknown := toy_perform (with_response {| mo_config := with_clients ∅ toy_config; mo_now := 600 |} (toy_world toy_config))
                   (toy_session (lit "999999")) in
  (o_answer <$> h_authenticated wrong.2, o_answer <$> h_authenticated unknown.2) =
    (Some (Err InvalidCode), Some (Err ClientNotFound)) /\
  wrong.1 = unknown.1 /\ h_sent wrong.2 = h_sent unknown.2.
Proof.
  intros wrong unknown. split; [vm_compute; reflexivity|].
  destruct (refusals_indistinguishable toy_crypto (fun key => key) toy_json_to toy_json_from (fun _ => [])
    (toy_world toy_config) {| mo_config := with_clients ∅ toy_config; mo_now := 600 |} (toy_session (lit "999999"))
    wrong.1 wrong.2 unknown.1 unknown.2) as (H1 & H2 & _).
  - reflexivity.
  - apply surjective_pairing.
  - apply surjective_pairing.
  - eexists _, _. split; vm_compute; reflexivity.
  - eexists _, _. split; vm_compute; reflexivity.
  - done.
Defined.
