(* ===== verification/ClientAuth.v ===== *)
(** * The client's side of the handshake (nexapipe-client/src/auth/)

    A credential (two_factor.rs), the secret it is decoded from (totp.rs), the frames
    it writes and reads (message.rs), the exchange that proves it and the exchange
    that trades an invitation for it (enrollment.rs).  As on the server's side, a
    stream is what its reads return and the writes are a list of outcomes; the clock,
    the keys and the one-time codes are parameters.

    [joint] puts a client and a server on one stream, each reading what the other has
    written so far.  The theorems show that a client that holds what the server has on
    file gets in, that an invitation is traded for a credential that works at once,
    and that a refusal is reported as one whatever part of it arrives. *)

From S2P Require Import Prelude RustStd Wiping AuthCodec AuthConfig Authenticator Enrollment Peers Handshake.

(** ** Errors *)

(** The read that failed, for the errors that name it. *)
Inductive HandshakeStep := AtChallenge | AtResult | AtIssue.

Inductive ReadWhy := RW_Length | RW_OutOfRange (length : Z) | RW_Message | RW_Parse.

Inductive ConnectionWhy :=
| CW_SendLength
| CW_SendMessage
| CW_Finish
| CW_Read (step : HandshakeStep) (why : ReadWhy)
| CW_Required (step : HandshakeStep) (why : ReadWhy)
| CW_TooMany (step : HandshakeStep) (why : ReadWhy).

Inductive AuthWhy :=
| AW_Told (reason : bytes)
| AW_Rejected (client_id : bytes)
| AW_NotAllowed
| AW_Revoked (client_id : bytes)
| AW_OtherClient
| AW_EnrollRefused (reason client_id : bytes) (device : option bytes).

Inductive OtherWhy :=
| OW_Serialize
| OW_Parse
| OW_ExpectedChallenge
| OW_Unexpected
| OW_NoKeyOffered
| OW_KeyUnnamed
| OW_ExpectedIssue
| OW_Totp
| OW_Hmac.

Inductive ConfigWhy := IW_NoCode | IW_Digits (digits : Z) | IW_Period (period : Z) | IW_Secret | IW_Algorithm (name : bytes).

(** The variants this part of the client returns. *)
Inductive ClientError :=
| CE_ConnectionFailed (why : ConnectionWhy)
| CE_AuthenticationFailed (why : AuthWhy)
| CE_InvalidConfig (why : ConfigWhy)
| CE_Other (why : OtherWhy).

(** ** Credentials *)

(** What the client does with the primitives the server checks. *)
Record DeviceCrypto := {
  SecretKey : Type;
  (** [key.public().as_bytes()] and [key.sign(message).to_bytes()]. *)
  key_public : SecretKey -> bytes;
  key_sign : SecretKey -> bytes -> bytes;
  hex_encode : bytes -> bytes;
  base32_encode : bytes -> bytes;
  (** The TOTP builder and its [generate_current]: algorithm, digits, step duration,
      secret and clock. *)
  totp_generate : TotpAlgorithm -> Z -> Z -> bytes -> Z -> result bytes unit;
}.

(** The protocol's algorithm as the client's ([From<ProtoAlgorithm>]); the client's
    own type has the server's three. *)
Definition totp_algorithm_from (a : Algorithm) : TotpAlgorithm :=
  match a with Sha1 => SHA1 | Sha256 => SHA256 | Sha512 => SHA512 end.

Definition try_from_name (name : bytes) : result TotpAlgorithm ClientError :=
  let name := trim name in
  if bool_decide (name = []) then Ok SHA1
  else if eq_ignore_ascii_case name (lit "sha1") then Ok SHA1
  else if eq_ignore_ascii_case name (lit "sha256") then Ok SHA256
  else if eq_ignore_ascii_case name (lit "sha512") then Ok SHA512
  else Err (CE_InvalidConfig (IW_Algorithm name)).

Definition from_name (name : bytes) : TotpAlgorithm :=
  let name := to_ascii_lowercase name in
  if bool_decide (name = lit "sha256") then SHA256
  else if bool_decide (name = lit "sha512") then SHA512
  else SHA1.

Section Credential.
Variable cr : Crypto.
Variable dv : DeviceCrypto.

Definition decode_base32 (secret_base32 : bytes) : result bytes ClientError :=
  let normalized := to_ascii_uppercase
    (filter (fun b => b <> 61) (remove_ws (length secret_base32) secret_base32)) in
  if bool_decide (normalized = []) then Err (CE_InvalidConfig IW_Secret)
  else ok_or (base32_decode cr normalized) (CE_InvalidConfig IW_Secret).

Inductive ClientProof :=
| Totp (secret : bytes) (algorithm : TotpAlgorithm) (time_step digits : Z)
| Key (key : SecretKey dv).

Record TwoFactorAuth := { tf_client_id : bytes; tf_proof : ClientProof; tf_device_id : option bytes }.

Definition with_params (client_id secret_base32 : bytes) (algorithm : TotpAlgorithm) (time_step digits : Z)
    : result TwoFactorAuth ClientError :=
  let? secret := decode_base32 secret_base32 in
  Ok {| tf_client_id := client_id; tf_proof := Totp secret algorithm time_step digits; tf_device_id := None |}.

(** [TwoFactorAuth::new]. *)
Definition new_auth (client_id secret_base32 : bytes) (algorithm : TotpAlgorithm) : result TwoFactorAuth ClientError :=
  with_params client_id secret_base32 algorithm 30 6.

Definition to_auth (client_id secret : bytes) (algorithm : TotpAlgorithm) : result (option TwoFactorAuth) ClientError :=
  if bool_decide (trim secret = []) then Ok None
  else let? auth := new_auth client_id secret algorithm in Ok (Some auth).

Definition with_key (client_id : bytes) (key : SecretKey dv) (device_id : bytes) : TwoFactorAuth :=
  {| tf_client_id := client_id; tf_proof := Key key; tf_device_id := Some device_id |}.

Definition with_device (device_id : bytes) (a : TwoFactorAuth) : TwoFactorAuth :=
  {| tf_client_id := tf_client_id a; tf_proof := tf_proof a; tf_device_id := Some device_id |}.

Definition secret_base32 (a : TwoFactorAuth) : bytes :=
  match tf_proof a with Totp secret _ _ _ => base32_encode dv secret | Key _ => [] end.

Definition client_public_key_hex (a : TwoFactorAuth) : option bytes :=
  match tf_proof a with Totp _ _ _ _ => None | Key key => Some (hex_encode dv (key_public dv key)) end.

(** ** Proving it *)

Definition generate_code (a : TwoFactorAuth) (now : Z) : result bytes ClientError :=
  match tf_proof a with
  | Key _ => Err (CE_InvalidConfig IW_NoCode)
  | Totp secret algorithm time_step digits =>
      if umax 8 <? digits then Err (CE_InvalidConfig (IW_Digits digits))
      else match totp_generate dv algorithm digits time_step secret now with
           | Ok code => Ok code
           | Err _ => Err (CE_Other OW_Totp)
           end
  end.

Definition sign_challenge (a : TwoFactorAuth) (nonce : bytes) (timestamp : Z) : result bytes ClientError :=
  match tf_proof a with
  | Totp secret _ _ _ =>
      match hmac_challenge (hmac_sha256 cr) secret nonce timestamp with
      | Ok signature => Ok signature
      | Err _ => Err (CE_Other OW_Hmac)
      end
  | Key key => Ok (key_sign dv key (challenge_message nonce timestamp))
  end.

(** The code and the signature of a response. *)
Definition prove (a : TwoFactorAuth) (nonce : bytes) (timestamp now : Z) : result (bytes * bytes) ClientError :=
  let? signature := sign_challenge a nonce timestamp in
  match tf_proof a with
  | Totp _ _ _ _ => let? code := generate_code a now in Ok (code, signature)
  | Key _ => Ok ([], signature)
  end.

Definition start_message (a : TwoFactorAuth) (timestamp : Z) : AuthMessage :=
  Start (tf_client_id a) timestamp (tf_device_id a) (Some VERSION_BINARY).

(** [read_failure]: what a failed read means, by the code the connection was closed
    with, if it was closed by the other side.  A code above [u32::MAX] is none of them. *)
Definition read_failure (client_id : bytes) (close : option Z) (step : HandshakeStep) (why : ReadWhy) : ClientError :=
  match close with
  | None => CE_ConnectionFailed (CW_Read step why)
  | Some code =>
      if umax 32 <? code then CE_ConnectionFailed (CW_Read step why)
      else if code =? CLOSE_REJECTED then CE_AuthenticationFailed (AW_Rejected client_id)
      else if code =? CLOSE_REQUIRED then CE_ConnectionFailed (CW_Required step why)
      else if code =? CLOSE_TOO_MANY then CE_ConnectionFailed (CW_TooMany step why)
      else if code =? PEER_NOT_ALLOWED then CE_AuthenticationFailed AW_NotAllowed
      else if code =? CLOSE_REVOKED then CE_AuthenticationFailed (AW_Revoked client_id)
      else CE_ConnectionFailed (CW_Read step why)
  end.
End Credential.
Arguments Totp {dv} _ _ _ _.
Arguments Key {dv} _.
Arguments tf_client_id {dv} _.
Arguments tf_proof {dv} _.
Arguments tf_device_id {dv} _.

(** ** The stream *)

Record Wire := { w_stream : Stream; w_writes : list bool; w_sent : list bytes }.

Definition C (A : Type) : Type := Wire -> result A ClientError * Wire.
Definition c_ret {A} (x : A) : C A := fun s => (Ok x, s).
Definition c_fail {A} (e : ClientError) : C A := fun s => (Err e, s).
Definition c_bind {A B} (m : C A) (k : A -> C B) : C B := fun s =>
  match m s with
  | (Ok x, s) => k x s
  | (Err e, s) => (Err e, s)
  end.
Definition c_lift {A} (r : result A ClientError) : C A := fun s => (r, s).
Notation "'do%' x := m 'in' k" := (c_bind m (fun x => k)) (at level 10, x binder, m at level 100, k at level 200).

(** One write, or the end of the stream. *)
Definition c_put (failure : ConnectionWhy) (frame : bytes) : C unit := fun s =>
  match w_writes s with
  | false :: rest =>
      (Err (CE_ConnectionFailed failure), {| w_stream := w_stream s; w_writes := rest; w_sent := w_sent s |})
  | ok => (Ok tt, {| w_stream := w_stream s; w_writes := tail ok; w_sent := w_sent s ++ [frame] |})
  end.

Definition read_message_bytes (s : Stream) : result (bytes * Stream) ReadWhy :=
  match read_bytes 4 s with
  | Err _ => Err RW_Length
  | Ok (len_buf, s) =>
      let msg_len := from_le_bytes len_buf in
      if MAX_AUTH_MESSAGE <? msg_len then Err (RW_OutOfRange msg_len)
      else match read_bytes (Z.to_nat msg_len) s with
           | Err _ => Err RW_Message
           | Ok r => Ok r
           end
  end.

Section Exchange.
Variable cr : Crypto.
Variable dv : DeviceCrypto.
Context {JsonError : Type}.
Variable json_to_writer : AuthMessage -> result bytes JsonError.
Variable json_from_slice : bytes -> result AuthMessage JsonError.

(** [bytes.len() as u32]. *)
Definition write_message (message : AuthMessage) (format : Format) : C unit :=
  match to_payload json_to_writer message format with
  | Err _ => c_fail (CE_Other OW_Serialize)
  | Ok bytes =>
      do% _ := c_put CW_SendLength (to_le_bytes 4 (wrapping 32 (len bytes))) in
      c_put CW_SendMessage bytes
  end.

(** [read_message], with what the caller makes of a failure. *)
Definition read_message (failure : ReadWhy -> ClientError) : C (AuthMessage * Format) := fun s =>
  match read_message_bytes (w_stream s) with
  | Err why => (Err (failure why), s)
  | Ok (payload, stream) =>
      let s := {| w_stream := stream; w_writes := w_writes s; w_sent := w_sent s |} in
      match from_payload json_from_slice payload with
      | Err _ => (Err (failure RW_Parse), s)
      | Ok m => (Ok m, s)
      end
  end.

(** The readings of the clock ([None] before the epoch), and the code the connection
    is found closed with when a read has failed. *)
Record Circumstances := {
  cx_start : option Z;
  cx_response : option Z;
  cx_code : Z;
  cx_close : HandshakeStep -> option Z;
}.

(** [d.as_secs() as i64], 0 before the epoch. *)
Definition timestamp_of (reading : option Z) : Z :=
  match reading with Some secs => u64_as_i64 secs | None => 0 end.

Definition authenticate_on_inner (a : TwoFactorAuth dv) (cx : Circumstances) : C unit :=
  do% _ := write_message (start_message dv a (timestamp_of (cx_start cx))) LegacyJson in
  do% '(challenge, format) := read_message (read_failure (tf_client_id a) (cx_close cx AtChallenge) AtChallenge) in
  do% nonce := (match challenge with
                | Challenge nonce => c_ret nonce
                | _ => c_fail (CE_Other OW_ExpectedChallenge)
                end) in
  let response_timestamp := timestamp_of (cx_response cx) in
  do% '(totp_code, signature) := c_lift (prove cr dv a nonce response_timestamp (cx_code cx)) in
  do% _ := write_message (Response (tf_client_id a) response_timestamp totp_code signature (tf_device_id a)) format in
  do% _ := c_put CW_Finish [] in
  do% '(result_msg, _) := read_message (read_failure (tf_client_id a) (cx_close cx AtResult) AtResult) in
  match result_msg with
  | AuthOk => c_ret tt
  | Failed reason => c_fail (CE_AuthenticationFailed (AW_Told reason))
  | _ => c_fail (CE_Other OW_Unexpected)
  end.

(** ** Enrolling *)

Record Invitation := {
  nv_client_id : bytes;
  nv_token : bytes;
  nv_device_id : option bytes;
  nv_key : option (SecretKey dv);
}.

(** What a read of the issue says of itself: it is not looked at through the close. *)
Definition issue_failure (why : ReadWhy) : ClientError :=
  match why with
  | RW_Parse => CE_Other OW_Parse
  | why => CE_ConnectionFailed (CW_Read AtIssue why)
  end.

(** The credential an answer to the invitation is. *)
Definition issued_auth (e : Invitation) (answer : AuthMessage) : result (TwoFactorAuth dv) ClientError :=
  match answer with
  | EnrollIssue client_id secret algorithm digits period device_id =>
      if negb (bool_decide (client_id = nv_client_id e)) then Err (CE_AuthenticationFailed AW_OtherClient)
      else if bool_decide (secret = []) then
        match nv_key e with
        | None => Err (CE_Other OW_NoKeyOffered)
        | Some key =>
            match device_id with
            | None => Err (CE_Other OW_KeyUnnamed)
            | Some name => Ok (with_key dv client_id key name)
            end
        end
      else if umax 32 <? period then Err (CE_InvalidConfig (IW_Period period))
      else
        let? issued := with_params cr dv client_id secret (totp_algorithm_from algorithm) period digits in
        Ok (match device_id with Some name => with_device dv name issued | None => issued end)
  | EnrollFailed reason =>
      Err (CE_AuthenticationFailed (AW_EnrollRefused reason (nv_client_id e) (nv_device_id e)))
  | _ => Err (CE_Other OW_ExpectedIssue)
  end.

Definition exchange_inner (e : Invitation) (cx : Circumstances) : C (TwoFactorAuth dv) :=
  do% _ := write_message (EnrollStart (nv_client_id e) (nv_token e) (nv_device_id e)
             ((fun key => hex_encode dv (key_public dv key)) <$> nv_key e)) LegacyJson in
  do% '(issued_message, _) := read_message issue_failure in
  do% issued := c_lift (issued_auth e issued_message) in
  do% _ := authenticate_on_inner issued cx in
  c_ret issued.
End Exchange.

(** ** Frames on a stream *)

(** A message as it is written: its length, then itself. *)
Definition sent_frame (p : bytes) : list bytes := [to_le_bytes 4 (len p); p].

Definition sized (p : bytes) : Prop := 1 <= len p <= MAX_AUTH_MESSAGE.

(** A stream that has delivered exactly [bs], cut up in some way. *)
Definition delivers (s : Stream) (bs : bytes) : Prop := flowing (chunks s) /\ concat (chunks s) = bs.

Lemma frame_app p rest : frame p ++ rest = to_le_bytes 4 (len p) ++ p ++ rest.
Proof. unfold frame. by rewrite app_assoc. Qed.

Lemma read_bytes_front n s x rest :
  delivers s (x ++ rest) -> length x = n -> exists s', read_bytes n s = Ok (x, s') /\ delivers s' rest.
Proof.
  intros [Hf Hc] Hn. pose proof (read_bytes_spec n s Hf) as H. rewrite Hc in H.
  destruct (read_bytes n s) as [[got s']|e].
  - destruct H as (E & Hl & Hf' & _). apply app_inj_1 in E as [<- E]; [|lia]. exists s'. by repeat split.
  - rewrite len_app in H. pose proof (len_nonneg rest). unfold len in *. destruct e; [lia|lia|done].
Qed.

Lemma read_bytes_none n s : delivers s [] -> (0 < n)%nat -> exists e, read_bytes n s = Err e.
Proof.
  intros [Hf Hc] Hn. pose proof (read_bytes_spec n s Hf) as H. rewrite Hc in H.
  destruct (read_bytes n s) as [[got s']|e]; [|by eexists].
  destruct H as (E & Hl & _). symmetry in E. apply app_eq_nil in E as [-> _]. cbn in Hl. lia.
Qed.

Lemma length_decoded p : sized p -> from_le_bytes (to_le_bytes 4 (len p)) = len p.
Proof.
  intros [H1 H2]. apply from_to_le_bytes. unfold is_uint, MAX_AUTH_MESSAGE in *.
  change (2 ^ (8 * Z.of_nat 4)) with 4294967296. lia.
Qed.

Lemma read_auth_frame s p rest :
  sized p -> delivers s (frame p ++ rest) -> exists s', read_auth_message s = Ok (p, s') /\ delivers s' rest.
Proof.
  intros Hp Hd. rewrite frame_app in Hd. unfold read_auth_message.
  destruct (read_bytes_front 4 _ _ _ Hd (length_to_le_bytes _ _)) as (s1 & -> & Hd1).
  rewrite length_decoded by done. destruct Hp as [Hp1 Hp2].
  rewrite (proj2 (Z.eqb_neq _ _)), (proj2 (Z.ltb_ge _ _)) by lia. cbn [orb].
  apply (read_bytes_front _ _ _ _ Hd1). unfold len. lia.
Qed.

Lemma read_auth_none s : delivers s [] -> exists e, read_auth_message s = Err e.
Proof.
  intros Hd. unfold read_auth_message. destruct (read_bytes_none 4 s Hd ltac:(lia)) as [e ->]. by exists e.
Qed.

Lemma read_message_frame s p rest :
  sized p -> delivers s (frame p ++ rest) -> exists s', read_message_bytes s = Ok (p, s') /\ delivers s' rest.
Proof.
  intros Hp Hd. rewrite frame_app in Hd. unfold read_message_bytes.
  destruct (read_bytes_front 4 _ _ _ Hd (length_to_le_bytes _ _)) as (s1 & -> & Hd1).
  rewrite length_decoded by done. destruct Hp as [Hp1 Hp2]. rewrite (proj2 (Z.ltb_ge _ _)) by lia.
  destruct (read_bytes_front (Z.to_nat (len p)) _ _ _ Hd1) as (s2 & -> & Hd2); [unfold len; lia|]. by exists s2.
Qed.

Lemma read_message_none s : delivers s [] -> read_message_bytes s = Err RW_Length.
Proof.
  intros Hd. unfold read_message_bytes. by destruct (read_bytes_none 4 s Hd ltac:(lia)) as [e ->].
Qed.

(** A frame of which the end is missing is not read. *)
Lemma read_message_short s p part b rest :
  sized p -> delivers s part -> frame p = part ++ b :: rest -> exists why, read_message_bytes s = Err why.
Proof.
  intros Hp [Hf Hc] E. unfold read_message_bytes. pose proof (read_bytes_spec 4 s Hf) as H. rewrite Hc in H.
  destruct (read_bytes 4 s) as [[lb s1]|e]; [|by eexists]. destruct H as (Ep & Hl & Hf1 & _). rewrite Ep in E.
  unfold frame in E. rewrite <- app_assoc in E. apply app_inj_1 in E as [<- E]; [|by rewrite length_to_le_bytes, Hl].
  rewrite length_decoded by done. destruct Hp as [Hp1 Hp2]. rewrite (proj2 (Z.ltb_ge _ _)) by lia.
  pose proof (read_bytes_spec (Z.to_nat (len p)) s1 Hf1) as H. destruct (read_bytes _ s1) as [[got s2]|e]; [|by eexists].
  destruct H as (Eg & Hg & _). apply (f_equal length) in E, Eg. rewrite length_app in E, Eg. cbn in E. unfold len in Hg. lia.
Qed.

Lemma concat_sent_frame p : concat (sent_frame p) = frame p.
Proof. unfold sent_frame, frame. cbn. by rewrite app_nil_r. Qed.

Lemma written_length p : sized p -> wrapping 32 (len p) = len p.
Proof. intros [? ?]. apply wrapping_small. unfold is_uint, MAX_AUTH_MESSAGE in *. lia. Qed.

(** ** A client and a server on one stream *)

Section Steps.
Context {JsonError : Type}.
Variable json_to_writer : AuthMessage -> result bytes JsonError.
Variable json_from_slice : bytes -> result AuthMessage JsonError.

(** [m] is [p] in the form [f]: it is written so and read back, and the frame is not
    too long for the reader. *)
Definition spells (m : AuthMessage) (f : Format) (p : bytes) : Prop :=
  to_payload json_to_writer m f = Ok p /\ from_payload json_from_slice p = Ok (m, f) /\ sized p.

Definition server_sent (extra : list bytes) (stream : Stream) (s : Session) : Session :=
  {| h_stream := stream; h_writes := []; h_sent := h_sent s ++ extra; h_enrolled := h_enrolled s;
     h_authenticated := h_authenticated s |}.

Lemma server_put s x : h_writes s = [] -> put x s = (Ok tt, server_sent [x] (h_stream s) s).
Proof. intros Hw. unfold put, server_sent. by rewrite Hw. Qed.

Lemma server_write m f p s :
  spells m f p -> h_writes s = [] ->
  write_auth_message json_to_writer m f s = (Ok tt, server_sent (sent_frame p) (h_stream s) s).
Proof.
  intros (Hp & _ & Hs) Hw. unfold write_auth_message. rewrite Hp. unfold bind.
  rewrite server_put by done. cbv beta iota. rewrite server_put by done. unfold server_sent. cbn.
  by rewrite <- app_assoc, written_length.
Qed.

Lemma server_receive s p rest :
  sized p -> delivers (h_stream s) (frame p ++ rest) ->
  exists stream, receive_message s = (Ok p, with_stream stream s) /\ delivers stream rest.
Proof.
  intros Hp Hd. unfold receive_message. destruct (read_auth_frame _ _ _ Hp Hd) as (stream & -> & Hd').
  by exists stream.
Qed.

Lemma server_waits s : delivers (h_stream s) [] -> exists e, receive_message s = (Err e, s).
Proof.
  intros Hd. unfold receive_message. destruct (read_auth_none _ Hd) as [e ->]. by eexists.
Qed.

Lemma server_parses why m f p s : spells m f p -> from_payload_or json_from_slice why p s = (Ok (m, f), s).
Proof. intros (_ & Hp & _). unfold from_payload_or. by rewrite Hp. Qed.

Definition client_sent (extra : list bytes) (stream : Stream) (s : Wire) : Wire :=
  {| w_stream := stream; w_writes := []; w_sent := w_sent s ++ extra |}.

Lemma client_put why s x : w_writes s = [] -> c_put why x s = (Ok tt, client_sent [x] (w_stream s) s).
Proof. intros Hw. unfold c_put, client_sent. by rewrite Hw. Qed.

Lemma client_write m f p s :
  spells m f p -> w_writes s = [] ->
  write_message json_to_writer m f s = (Ok tt, client_sent (sent_frame p) (w_stream s) s).
Proof.
  intros (Hp & _ & Hs) Hw. unfold write_message. rewrite Hp. unfold c_bind.
  rewrite client_put by done. cbv beta iota. rewrite client_put by done. unfold client_sent. cbn.
  by rewrite <- app_assoc, written_length.
Qed.

Lemma client_reads failure m f p rest s :
  spells m f p -> w_writes s = [] -> delivers (w_stream s) (frame p ++ rest) ->
  exists stream, read_message json_from_slice failure s = (Ok (m, f), client_sent [] stream s) /\ delivers stream rest.
Proof.
  intros (_ & Hp & Hs) Hw Hd. unfold read_message. destruct (read_message_frame _ _ _ Hs Hd) as (stream & -> & Hd').
  rewrite Hp. exists stream. split; [|done]. unfold client_sent. by rewrite app_nil_r, Hw.
Qed.

Lemma client_waits failure s :
  delivers (w_stream s) [] -> read_message json_from_slice failure s = (Err (failure RW_Length), s).
Proof. intros Hd. unfold read_message. by rewrite read_message_none. Qed.
End Steps.

(** Two programs joined by two streams.  A program is what it returns and writes
    when the other side has written [received] and no more; each turn lets both see
    what the other has written by then, from nothing on.  A program that reads past
    what is there writes nothing more until there is more. *)
Section Joint.
Context {A B : Type}.
Variable client : list bytes -> A * list bytes.
Variable server : list bytes -> B * list bytes.

Fixpoint joint (turns : nat) : list bytes * list bytes :=
  match turns with
  | O => ([], [])
  | S turns => let '(from_client, from_server) := joint turns in ((client from_server).2, (server from_client).2)
  end.

Lemma joint_S turns xs ys : joint turns = (xs, ys) -> joint (S turns) = ((client ys).2, (server xs).2).
Proof. intros H. cbn. by rewrite H. Qed.

(** What both have returned once the streams are at rest after [turns]. *)
Definition settles (turns : nat) (a : A) (b : B) : Prop :=
  forall n, (turns <= n)%nat -> joint n = joint turns /\ (client (joint n).2).1 = a /\ (server (joint n).1).1 = b.

Lemma joint_settles turns xs ys a b :
  joint turns = (xs, ys) -> client ys = (a, xs) -> server xs = (b, ys) -> settles turns a b.
Proof.
  intros Hj Hc Hs. assert (forall n, (turns <= n)%nat -> joint n = (xs, ys)) as Hn.
  { intros n. induction 1 as [|n _ IH]; [done|]. cbn. by rewrite IH, Hc, Hs. }
  intros n Hle. rewrite (Hn n Hle), Hj. cbn. by rewrite Hc, Hs.
Qed.
End Joint.

Section Pair.
Variable cr : Crypto.
Variable dv : DeviceCrypto.
Variable public_key_hex : PublicKey cr -> bytes.
Context {JsonError : Type}.
Variable json_to_writer : AuthMessage -> result bytes JsonError.
Variable json_from_slice : bytes -> result AuthMessage JsonError.
Variable refusal_text : EnrollRefusal -> bytes.
(** How the network cuts up what was written. *)
Variable cut : list bytes -> list bytes.
Hypothesis cut_delivers : forall written, flowing (cut written) /\ concat (cut written) = concat written.

#[local] Abbreviation spelled := (spells json_to_writer json_from_slice).

Definition received (written : list bytes) : Stream := {| chunks := cut written; ended := None |}.

Definition server_start (written : list bytes) : Session :=
  {| h_stream := received written; h_writes := []; h_sent := []; h_enrolled := None; h_authenticated := None |}.

Definition client_start (written : list bytes) : Wire :=
  {| w_stream := received written; w_writes := []; w_sent := [] |}.

Definition server_side (w : World) (written : list bytes) : result AuthenticatedPeer AuthFailure * list bytes :=
  let '(r, s) := perform_authentication cr public_key_hex json_to_writer json_from_slice refusal_text w
                   (server_start written) in (r, h_sent s).

Definition client_side (a : TwoFactorAuth dv) (cx : Circumstances) (written : list bytes)
    : result unit ClientError * list bytes :=
  let '(r, s) := authenticate_on_inner cr dv json_to_writer json_from_slice a cx (client_start written) in (r, w_sent s).

Lemma received_delivers written : delivers (received written) (concat written).
Proof. apply cut_delivers. Qed.

(** What a response is asked as. *)
Definition asked (a : TwoFactorAuth dv) (nonce : bytes) (timestamp : Z) (code signature : bytes) : AuthRequest :=
  {| q_client_id := tf_client_id a; q_device_id := tf_device_id a; q_nonce := nonce; q_timestamp := timestamp;
     q_signature := signature; q_code := code |}.

Definition printable_auth (a : TwoFactorAuth dv) : Prop :=
  is_presentable_client_id (tf_client_id a) = true /\
  forall name, tf_device_id a = Some name -> is_presentable_device_id name = true.

(** From the challenge on, the server's side: it waits for the response, and answers it. *)
Lemma server_challenges w id f nonce_p s :
  spelled (Challenge (wo_nonce w)) f nonce_p -> h_writes s = [] -> delivers (h_stream s) [] ->
  exists e, challenge_and_response json_to_writer json_from_slice w id f s =
    (Err e, server_sent (sent_frame nonce_p) (h_stream s) s).
Proof.
  intros Hp Hw Hd. unfold challenge_and_response, bind. rewrite (server_write _ json_from_slice _ _ _ _ Hp Hw).
  cbv beta iota. edestruct server_waits as [e ->]; [exact Hd|]. by exists e.
Qed.

Lemma server_judges w a ts code signature f nonce_p rf resp_p ok_p acl s rest :
  printable_auth a ->
  spelled (Challenge (wo_nonce w)) f nonce_p ->
  spelled (Response (tf_client_id a) ts code signature (tf_device_id a)) rf resp_p ->
  spelled AuthOk rf ok_p ->
  o_answer (authenticate cr (mo_config (wo_response w)) (mo_now (wo_response w))
    (asked a (wo_nonce w) ts code signature)) = Ok acl ->
  h_writes s = [] -> delivers (h_stream s) (frame resp_p ++ rest) ->
  exists s', bind (challenge_and_response json_to_writer json_from_slice w (tf_client_id a) f)
               (fun '(q, rf) => verdict cr json_to_writer w q rf) s =
    (Ok {| ap_client_id := tf_client_id a; ap_device := tf_device_id a; ap_acl := acl |}, s') /\
    h_sent s' = h_sent s ++ sent_frame nonce_p ++ sent_frame ok_p ++ [[]].
Proof.
  intros [_ Hdev] Hc Hr Hok Ha Hw Hd. unfold bind at 1. unfold challenge_and_response, bind at 1.
  rewrite (server_write _ json_from_slice _ _ _ _ Hc Hw). cbv beta iota. unfold bind at 1.
  destruct (server_receive (server_sent (sent_frame nonce_p) (h_stream s) s) resp_p rest)
    as (stream & -> & Hd'); [apply Hr|done|].
  cbv beta iota. unfold bind at 1. rewrite (server_parses json_to_writer json_from_slice _ _ _ _ _ Hr). cbv beta iota.
  rewrite bool_decide_eq_true_2 by done. cbn [negb].
  assert (match tf_device_id a with Some name => negb (is_presentable_device_id name) | None => false end = false) as ->.
  { destruct (tf_device_id a) as [name|] eqn:E; [|done]. by rewrite (Hdev _ eq_refl). }
  unfold ret. cbv beta iota. fold (asked a (wo_nonce w) ts code signature).
  unfold verdict. rewrite Ha, (authenticate_answer_registered _ _ _ _ _ Ha). cbv beta iota zeta.
  unfold bind at 1. rewrite (server_write _ json_from_slice _ _ _ _ Hok) by done. cbv beta iota. unfold bind.
  rewrite server_put by done. eexists. split; [reflexivity|]. cbn. by rewrite <- !app_assoc.
Qed.

(** From the start on, the client's side. *)
Section ClientSteps.
Variable a : TwoFactorAuth dv.
Variable cx : Circumstances.
Variable start_p : bytes.
Hypothesis Hstart : spelled (start_message dv a (timestamp_of (cx_start cx))) LegacyJson start_p.

#[local] Abbreviation auth := (authenticate_on_inner cr dv json_to_writer json_from_slice a cx).

Lemma client_starts s :
  w_writes s = [] -> delivers (w_stream s) [] ->
  exists e, auth s = (Err e, client_sent (sent_frame start_p) (w_stream s) s).
Proof using Hstart.
  intros Hw Hd. unfold authenticate_on_inner, c_bind. rewrite (client_write _ json_from_slice _ _ _ _ Hstart Hw).
  cbv beta iota. rewrite client_waits by done. by eexists.
Qed.

Variable nonce code signature chal_p resp_p : bytes.
Variable f : Format.
Hypothesis Hchal : spelled (Challenge nonce) f chal_p.
Hypothesis Hprove : prove cr dv a nonce (timestamp_of (cx_response cx)) (cx_code cx) = Ok (code, signature).
Hypothesis Hresp :
  spelled (Response (tf_client_id a) (timestamp_of (cx_response cx)) code signature (tf_device_id a)) f resp_p.

(** The client once the challenge is in and the response is out, at the read of the
    verdict. *)
Lemma client_responds s rest :
  w_writes s = [] -> delivers (w_stream s) (frame chal_p ++ rest) ->
  exists stream, delivers stream rest /\
    auth s = c_bind (read_message json_from_slice (read_failure (tf_client_id a) (cx_close cx AtResult) AtResult))
      (fun '(result_msg, _) =>
         match result_msg with
         | AuthOk => c_ret tt
         | Failed reason => c_fail (CE_AuthenticationFailed (AW_Told reason))
         | _ => c_fail (CE_Other OW_Unexpected)
         end) (client_sent (sent_frame start_p ++ sent_frame resp_p ++ [[]]) stream s).
Proof using Hstart Hchal Hprove Hresp.
  intros Hw Hd. unfold authenticate_on_inner, c_bind at 1. rewrite (client_write _ json_from_slice _ _ _ _ Hstart Hw).
  cbv beta iota. unfold c_bind at 1.
  destruct (client_reads json_to_writer json_from_slice (read_failure (tf_client_id a) (cx_close cx AtChallenge) AtChallenge)
    _ _ _ rest (client_sent (sent_frame start_p) (w_stream s) s) Hchal) as (stream & -> & Hd'); [done|done|].
  exists stream. split; [done|]. cbv beta iota. unfold c_bind at 1, c_ret at 1. cbv beta iota zeta.
  unfold c_bind at 1, c_lift. rewrite Hprove. cbv beta iota. unfold c_bind at 1.
  rewrite (client_write _ json_from_slice _ _ _ _ Hresp) by done. cbv beta iota.
  unfold c_bind at 1. rewrite client_put by done. cbv beta iota.
  f_equal. unfold client_sent. cbn. by rewrite app_nil_r, <- !app_assoc.
Qed.

Lemma client_awaits s :
  w_writes s = [] -> delivers (w_stream s) (frame chal_p) ->
  exists e, (auth s).1 = Err e /\ w_sent (auth s).2 = w_sent s ++ sent_frame start_p ++ sent_frame resp_p ++ [[]].
Proof using Hstart Hchal Hprove Hresp.
  intros Hw Hd. destruct (client_responds s [] Hw) as (stream & Hd' & ->); [by rewrite app_nil_r|].
  unfold c_bind. rewrite client_waits by done. by eexists.
Qed.

Lemma client_enters s ok_p rest :
  spelled AuthOk f ok_p -> w_writes s = [] -> delivers (w_stream s) (frame chal_p ++ frame ok_p ++ rest) ->
  (auth s).1 = Ok tt /\ w_sent (auth s).2 = w_sent s ++ sent_frame start_p ++ sent_frame resp_p ++ [[]].
Proof using Hstart Hchal Hprove Hresp.
  intros Hok Hw Hd. destruct (client_responds s _ Hw Hd) as (stream & Hd' & ->). unfold c_bind.
  set (s1 := client_sent _ _ _).
  destruct (client_reads json_to_writer json_from_slice (read_failure (tf_client_id a) (cx_close cx AtResult) AtResult)
    _ _ _ rest s1 Hok) as (stream' & -> & _); [done|done|].
  cbn. by rewrite app_nil_r.
Qed.
End ClientSteps.

(** The server's side of a plain start. *)
Lemma server_begins w a ts start_p s rest :
  wo_accepts w = true -> printable_auth a ->
  spelled (start_message dv a ts) LegacyJson start_p -> delivers (h_stream s) (frame start_p ++ rest) ->
  exists stream, delivers stream rest /\
    perform_authentication cr public_key_hex json_to_writer json_from_slice refusal_text w s =
    bind (challenge_and_response json_to_writer json_from_slice w (tf_client_id a) Binary)
      (fun '(q, rf) => verdict cr json_to_writer w q rf) (with_stream stream s).
Proof.
  intros Hacc [Hid _] Hp Hd. unfold perform_authentication, exchange. rewrite Hacc.
  destruct (server_receive s start_p rest) as (stream & Hr & Hd'); [apply Hp|done|].
  exists stream. split; [done|]. unfold bind at 1 2. unfold ret at 1. cbv beta iota.
  unfold bind at 1. rewrite Hr. cbv beta iota. unfold bind at 1.
  rewrite (server_parses json_to_writer json_from_slice _ _ _ _ _ Hp). cbv beta iota.
  unfold bind at 1, check_ids, start_message. rewrite Hid. unfold ret at 1. cbv beta iota.
  unfold bind at 1, start_of, ret. cbv beta iota. reflexivity.
Qed.

(** ** What is assumed of serde_json and of the primitives *)

(** serde_json reads back what it writes, and an internally tagged enum is written
    as an object. *)
Hypothesis json_roundtrip : forall m text,
  msg_typed m -> len text < 2 ^ 63 -> json_to_writer m = Ok text -> json_from_slice text = Ok m.
Hypothesis json_object : forall m text, json_to_writer m = Ok text -> exists rest, text = 123 :: rest.

(** A message of short strings is written, and the text fits a frame. *)
Hypothesis json_short : forall m,
  msg_typed m -> msg_blobs m = [] -> Forall (fun s => len s <= 255) (msg_strings m) ->
  exists text, json_to_writer m = Ok text /\ len text <= MAX_AUTH_MESSAGE.

Lemma spells_json m text :
  msg_typed m -> json_to_writer m = Ok text -> len text <= MAX_AUTH_MESSAGE -> spelled m LegacyJson text.
Proof using json_roundtrip json_object.
  intros Hm Ht Hl. assert (to_payload json_to_writer m LegacyJson = Ok text) as Hp.
  { unfold to_payload, map_json, to_bytes. rewrite Ht. cbn [wb_into_wiped fst].
    assert (wb_inv (wb_with_capacity SERIALIZED_CAPACITY)) as Hnew by by apply wb_with_capacity_inv.
    by destruct (wb_extend_spec text _ Hnew) as [_ ->]. }
  destruct (payload_roundtrip json_to_writer json_from_slice json_roundtrip json_object m Hm) as [Hr _].
  destruct (json_object m text Ht) as [rest ->]. pose proof (len_nonneg rest). rewrite len_cons in *.
  unfold spells, sized, MAX_AUTH_MESSAGE in *. rewrite len_cons. split_and!; [done| |lia|lia].
  apply Hr; [done|]. rewrite len_cons. lia.
Qed.

Lemma spells_short m :
  msg_typed m -> msg_blobs m = [] -> Forall (fun s => len s <= 255) (msg_strings m) ->
  exists text, spelled m LegacyJson text.
Proof using json_roundtrip json_object json_short.
  intros Hm Hb Hs. destruct (json_short m Hm Hb Hs) as (text & Ht & Hl). exists text. by apply spells_json.
Qed.

Lemma spells_binary m :
  msg_typed m -> msg_fits m -> len (encode_binary m) < MAX_AUTH_MESSAGE ->
  spelled m Binary (VERSION_BINARY :: encode_binary m).
Proof using json_roundtrip json_object.
  intros Hm Hf Hl. destruct (payload_roundtrip json_to_writer json_from_slice json_roundtrip json_object m Hm) as [Hr Hb].
  assert (to_payload json_to_writer m Binary = Ok (VERSION_BINARY :: encode_binary m)) as Hp by by apply Hb.
  pose proof (len_nonneg (encode_binary m)). unfold spells, sized, MAX_AUTH_MESSAGE in *. rewrite len_cons.
  split_and!; [done| |lia|lia]. apply Hr; [done|]. rewrite len_cons. lia.
Qed.

(** A code the client makes is one of those the server's window takes, for a step of
    the window. *)
Hypothesis totp_agrees : forall algorithm digits window step secret code made now,
  totp_generate dv algorithm digits step secret made = Ok code -> 0 < step ->
  Z.abs (now / step - made / step) <= window ->
  exists s, totp_check cr algorithm digits window step secret code now = Ok (Some s) /\ now / step - window <= s.
(** A code is as many digits as a byte counts. *)
Hypothesis totp_digits : forall algorithm digits step secret made code,
  totp_generate dv algorithm digits step secret made = Ok code ->
  len code <= umax 8 /\ Forall (fun b => is_ascii_graphic b = true) code.
(** HMAC takes a key of any length, and its tag is short. *)
Hypothesis hmac_total : forall secret message, exists tag, hmac_sha256 cr secret message = Ok tag /\ len tag <= 64.
(** A signature verifies against the key it was made with. *)
Hypothesis signature_verifies : forall sk pk message,
  public_key_from_bytes cr (key_public dv sk) = Some pk ->
  len (key_sign dv sk message) <= 64 /\
  exists signature, signature_try_from cr (key_sign dv sk message) = Some signature /\
    key_verify cr pk message signature = true.

(** What the server has on file is what the client holds: the same secret under the
    same settings, with the clocks within the window and no later step spent, or the
    public half of the client's key. *)
Inductive on_file (config : AuthConfig) (now made : Z) (c : ClientAuth) (a : TwoFactorAuth dv) : Prop :=
| OF_secret secret code :
    tf_proof a = Totp secret (a_algorithm config) (a_time_step config) (a_digits config) ->
    holds_secret cr c (tf_device_id a) secret ->
    a_digits config <= umax 8 -> a_window config <= umax 16 -> 0 < a_time_step config ->
    totp_generate dv (a_algorithm config) (a_digits config) (a_time_step config) secret made = Ok code ->
    Z.abs (now / a_time_step config - made / a_time_step config) <= a_window config ->
    (forall s, now / a_time_step config - a_window config <= s -> fresh_step c (tf_device_id a) (Some s)) ->
    on_file config now made c a
| OF_key sk pk :
    tf_proof a = Key sk -> holds_key cr c (tf_device_id a) pk ->
    public_key_from_bytes cr (key_public dv sk) = Some pk ->
    on_file config now made c a.

Lemma on_file_proves config now made c a nonce ts :
  on_file config now made c a ->
  exists code signature step, prove cr dv a nonce ts made = Ok (code, signature) /\
    len code <= umax 8 /\ utf8_valid code = true /\ len signature <= 64 /\
    proved cr config now c (asked a nonce ts code signature) step /\ fresh_step c (tf_device_id a) step.
Proof using totp_agrees totp_digits hmac_total signature_verifies.
  intros [secret code Hp Hs Hd Hw Hst Hg Hc Hf|sk pk Hp Hk Hpub].
  - destruct (hmac_total secret (challenge_message nonce ts)) as (tag & Ht & Hl).
    destruct (totp_agrees _ _ _ _ _ _ _ now Hg Hst Hc) as (s & Hcheck & Hle).
    destruct (totp_digits _ _ _ _ _ _ Hg) as [Hcl Hca].
    exists code, tag, (Some s). unfold prove, sign_challenge, generate_code, hmac_challenge. rewrite Hp, Ht.
    rewrite (proj2 (Z.ltb_ge _ _)) by lia. rewrite Hg. split_and!; auto with rs.
    left. exists secret, s. done.
  - destruct (signature_verifies sk pk (challenge_message nonce ts) Hpub) as (Hl & sig & Hsig & Hv).
    exists [], (key_sign dv sk (challenge_message nonce ts)), None. unfold prove, sign_challenge. rewrite Hp.
    split_and!; try done. right. by exists pk, sig.
Qed.

(** ** A client that is on file gets in *)

Definition clocks_typed (cx : Circumstances) : Prop :=
  forall secs, cx_start cx = Some secs \/ cx_response cx = Some secs -> is_u64 secs.

Lemma timestamp_typed r : (forall secs, r = Some secs -> is_u64 secs) -> is_i64 (timestamp_of r).
Proof. destruct r as [secs|]; intros H; [|done]. by apply u64_as_i64_range, H. Qed.

Lemma presentable_string max id :
  is_presentable_id id max = true -> utf8_valid id = true /\ len id <= max.
Proof.
  unfold is_presentable_id. rewrite !andb_true_iff. intros [[_ Hl] Hg]. apply Z.leb_le in Hl.
  split; [|done]. apply utf8_valid_graphic. apply Forall_forall. intros b Hb.
  rewrite forallb_forall in Hg. apply Hg. by apply list_elem_of_In.
Qed.

Definition chal_payload (w : World) : bytes := VERSION_BINARY :: encode_binary (Challenge (wo_nonce w)).
Definition response_message (a : TwoFactorAuth dv) (ts : Z) (code signature : bytes) : AuthMessage :=
  Response (tf_client_id a) ts code signature (tf_device_id a).
Definition resp_payload a ts code signature : bytes := VERSION_BINARY :: encode_binary (response_message a ts code signature).
Definition ok_payload : bytes := VERSION_BINARY :: encode_binary AuthOk.

Lemma len_to_le_bytes n z : len (to_le_bytes n z) = Z.of_nat n.
Proof. unfold len. by rewrite length_to_le_bytes. Qed.
Lemma len_enc_string s : len (enc_string s) = 2 + len s.
Proof. unfold enc_string. rewrite len_app. unfold len at 1. by rewrite length_to_le_bytes. Qed.
Lemma len_enc_bytes s : len (enc_bytes s) = 4 + len s.
Proof. unfold enc_bytes. rewrite len_app. unfold len at 1. by rewrite length_to_le_bytes. Qed.

Lemma chal_spelled w : len (wo_nonce w) <= 1024 -> spelled (Challenge (wo_nonce w)) Binary (chal_payload w).
Proof using json_roundtrip json_object.
  intros Hn. apply spells_binary.
  - split; [constructor|done].
  - split; [constructor|]. constructor; [change (umax 32) with 4294967295; lia|constructor].
  - unfold encode_binary. rewrite !len_cons. cbn [msg_body]. rewrite len_enc_bytes. unfold MAX_AUTH_MESSAGE. lia.
Qed.

Lemma ok_spelled : spelled AuthOk Binary ok_payload.
Proof using json_roundtrip json_object. apply spells_binary; [split; [constructor|done]|split; constructor|done]. Qed.

Lemma response_spelled a ts code signature :
  printable_auth a -> is_i64 ts -> len code <= umax 8 -> utf8_valid code = true -> len signature <= 64 ->
  spelled (response_message a ts code signature) Binary (resp_payload a ts code signature).
Proof using json_roundtrip json_object.
  intros [Hid Hdev] Ht Hc Hu Hs. apply presentable_string in Hid as [Hid Hidl]. unfold MAX_CLIENT_ID_LEN in Hidl.
  assert (forall name, tf_device_id a = Some name -> utf8_valid name = true /\ len name <= 255) as Hd.
  { intros name E. by apply (presentable_string MAX_DEVICE_ID_LEN), Hdev. }
  change (umax 8) with 255 in Hc. apply spells_binary.
  - split; [|done]. cbn. rewrite !Forall_cons. split_and!; [done|done|].
    apply Forall_option_list. intros name E. by apply Hd.
  - split; cbn; rewrite !Forall_cons; change (umax 16) with 65535; change (umax 32) with 4294967295.
    + split_and!; [lia|lia|]. apply Forall_option_list. intros name E. destruct (Hd _ E). lia.
    + split; [lia|constructor].
  - unfold encode_binary, response_message. rewrite !len_cons. cbn [msg_body].
    rewrite !len_app, !len_enc_string, len_enc_bytes. assert (len (enc_i64 ts) = 8) as -> by (unfold enc_i64, len; by rewrite length_to_le_bytes).
    assert (len (enc_opt enc_string (tf_device_id a)) <= 257).
    { destruct (tf_device_id a) as [name|] eqn:E; cbn [enc_opt]; [|done]. rewrite len_enc_string. destruct (Hd _ eq_refl). lia. }
    unfold MAX_AUTH_MESSAGE. lia.
Qed.

Lemma start_spelled a ts :
  printable_auth a -> is_i64 ts -> exists start_p, spelled (start_message dv a ts) LegacyJson start_p.
Proof using json_roundtrip json_object json_short.
  intros [Hid Hdev] Ht. apply spells_short; [split; cbn|done|].
  - constructor; [by apply (presentable_string MAX_CLIENT_ID_LEN)|]. apply Forall_option_list.
    intros name E. by apply (presentable_string MAX_DEVICE_ID_LEN), Hdev.
  - split; [done|]. by intros b [= <-].
  - cbn. constructor; [by apply (presentable_string MAX_CLIENT_ID_LEN)|]. apply Forall_option_list.
    intros name E. by apply (presentable_string MAX_DEVICE_ID_LEN), Hdev.
Qed.

(** The two sides at the turns of a plain handshake, as functions of what the other
    has written. *)
Section Turns.
Variable w : World.
Variable a : TwoFactorAuth dv.
Variable cx : Circumstances.
Variable start_p code signature : bytes.
Variable acl : ClientAcl.
#[local] Abbreviation ts := (timestamp_of (cx_response cx)).
#[local] Abbreviation nonce := (wo_nonce w).
Hypothesis Hacc : wo_accepts w = true.
Hypothesis Ha : printable_auth a.
Hypothesis Hstart : spelled (start_message dv a (timestamp_of (cx_start cx))) LegacyJson start_p.
Hypothesis Hnonce : len nonce <= 1024.
Hypothesis Hprove : prove cr dv a nonce ts (cx_code cx) = Ok (code, signature).
Hypothesis Hresp : spelled (response_message a ts code signature) Binary (resp_payload a ts code signature).
Hypothesis Hanswer : o_answer (authenticate cr (mo_config (wo_response w)) (mo_now (wo_response w))
    (asked a nonce ts code signature)) = Ok acl.

#[local] Abbreviation chal_p := (chal_payload w).
#[local] Abbreviation resp_p := (resp_payload a ts code signature).

Definition entered : AuthenticatedPeer := {| ap_client_id := tf_client_id a; ap_device := tf_device_id a; ap_acl := acl |}.

Lemma handshake_settles :
  settles (client_side a cx) (server_side w) 4 (Ok tt) (Ok entered).
Proof using Hacc Ha Hstart Hnonce Hprove Hresp Hanswer json_roundtrip json_object cut_delivers.
  pose proof (chal_spelled w Hnonce) as Hchal. pose proof ok_spelled as Hok.
  set (x1 := sent_frame start_p). set (x2 := sent_frame start_p ++ sent_frame resp_p ++ [[]]).
  set (y1 := sent_frame chal_p). set (y2 := sent_frame chal_p ++ sent_frame ok_payload ++ [[]]).
  assert (concat x2 = frame start_p ++ frame resp_p ++ []) as Ex2.
  { unfold x2. by rewrite !concat_app, !concat_sent_frame. }
  assert (concat y2 = frame chal_p ++ frame ok_payload ++ []) as Ey2.
  { unfold y2. by rewrite !concat_app, !concat_sent_frame. }
  assert ((client_side a cx []).2 = x1) as Hc0.
  { unfold client_side. destruct (client_starts a cx start_p Hstart (client_start []) eq_refl) as [e ->];
      [apply received_delivers|done]. }
  assert ((client_side a cx y1).2 = x2) as Hc1.
  { unfold client_side. destruct (client_awaits a cx start_p Hstart nonce code signature _ _ _ Hchal Hprove Hresp
      (client_start y1) eq_refl) as (e & H1 & H2); [unfold y1; rewrite <- concat_sent_frame; apply received_delivers|].
    by destruct (authenticate_on_inner _ _ _ _ _ _ _). }
  assert (client_side a cx y2 = (Ok tt, x2)) as Hc2.
  { unfold client_side. destruct (client_enters a cx start_p Hstart nonce code signature _ _ _ Hchal Hprove Hresp
      (client_start y2) _ [] Hok eq_refl) as (H1 & H2); [rewrite <- Ey2; apply received_delivers|].
    destruct (authenticate_on_inner _ _ _ _ _ _ _) as [r s]. f_equal; [exact H1|exact H2]. }
  assert ((server_side w []).2 = []) as Hs0.
  { unfold server_side, perform_authentication, exchange. rewrite Hacc. unfold bind at 1 2 3, ret at 1.
    edestruct (server_waits (server_start [])) as [e ->]; [apply received_delivers|done]. }
  assert ((server_side w x1).2 = y1) as Hs1.
  { unfold server_side. destruct (server_begins w a _ start_p (server_start x1) [] Hacc Ha Hstart)
      as (stream & Hd & ->); [unfold x1; rewrite app_nil_r, <- concat_sent_frame; apply received_delivers|].
    unfold bind. edestruct (server_challenges w (tf_client_id a) Binary) as [e ->]; [exact Hchal|done|done|done]. }
  assert (server_side w x2 = (Ok entered, y2)) as Hs2.
  { unfold server_side. destruct (server_begins w a _ start_p (server_start x2) (frame resp_p ++ []) Hacc Ha Hstart)
      as (stream & Hd & ->); [rewrite <- Ex2; apply received_delivers|].
    edestruct (server_judges w a ts code signature) as (s' & -> & Hsent); [done|done|done|done|done|done|done|].
    cbn in Hsent. by rewrite Hsent. }
  pose proof (joint_S (client_side a cx) (server_side w) 0 [] [] eq_refl) as J. rewrite Hc0, Hs0 in J.
  apply joint_S in J. rewrite Hc0, Hs1 in J. apply joint_S in J. rewrite Hc1, Hs1 in J.
  apply joint_S in J. rewrite Hc1, Hs2 in J. by apply (joint_settles _ _ 4 x2 y2).
Qed.
End Turns.

(** C22: a client that is on file gets in.  Put a client and a server on one stream,
    cut up in any way, each seeing what the other has written.  If the server has the
    client's secret or key on file under the name the client gives, the client is not
    locked out, the clocks agree to half a minute and to the code window, and no
    later code was spent, then after four turns nothing more is written, the client
    has been told that it is in, and the server has let in exactly that client and
    device with its access list.  The form of the messages is agreed on the way: the
    start is text that an older server reads, everything after it is binary. *)
Theorem honest_client_enters w a cx c :
  let config := mo_config (wo_response w) in let now := mo_now (wo_response w) in
  wo_accepts w = true -> a_enabled config = true -> printable_auth a -> clocks_typed cx ->
  len (wo_nonce w) <= 1024 ->
  a_clients config !! tf_client_id a = Some c -> is_locked_out now c = false ->
  abs_diff now (timestamp_of (cx_response cx)) <= TIMESTAMP_WINDOW_SECS ->
  on_file config now (cx_code cx) c a ->
  settles (client_side a cx) (server_side w) 4 (Ok tt)
    (Ok {| ap_client_id := tf_client_id a; ap_device := tf_device_id a; ap_acl := client_acl c |}).
Proof using cut_delivers json_roundtrip json_object json_short totp_agrees totp_digits hmac_total signature_verifies.
  intros config now Hacc Hen Ha Hck Hn Hc Hlock Hts Hfile.
  destruct (on_file_proves config now _ c a (wo_nonce w) (timestamp_of (cx_response cx)) Hfile)
    as (code & signature & step & Hp & Hcl & Hcu & Hsl & Hproved & Hfresh).
  assert (is_i64 (timestamp_of (cx_start cx)) /\ is_i64 (timestamp_of (cx_response cx))) as [H1 H2].
  { split; apply timestamp_typed; intros secs E; apply Hck; auto. }
  destruct (start_spelled a _ Ha H1) as [start_p Hstart]. eapply handshake_settles; eauto using response_spelled.
  apply authenticate_ok_iff; [done|]. exists c, step. done.
Qed.

(** ** A refusal is reported as one *)

(** What the server's close says of a failed read. *)
Lemma read_failure_rejected id step why :
  read_failure id (Some CLOSE_REJECTED) step why = CE_AuthenticationFailed (AW_Rejected id).
Proof. done. Qed.

(** a refusal races its close.  The server answers a response it refuses with
    AUTH_FAILED and then closes the connection as rejected, and whatever part of that
    answer reaches the client, none of it, a piece, or all, the client reports that
    its credential was refused, and not a lost connection. *)
Theorem refusal_reported a cx nonce code signature start_p chal_p resp_p f fail_p reason written part rest :
  spelled (start_message dv a (timestamp_of (cx_start cx))) LegacyJson start_p ->
  spelled (Challenge nonce) f chal_p ->
  prove cr dv a nonce (timestamp_of (cx_response cx)) (cx_code cx) = Ok (code, signature) ->
  spelled (response_message a (timestamp_of (cx_response cx)) code signature) f resp_p ->
  spelled (Failed reason) f fail_p ->
  cx_close cx AtResult = Some CLOSE_REJECTED ->
  concat written = frame chal_p ++ part -> frame fail_p = part ++ rest ->
  exists why, (client_side a cx written).1 = Err (CE_AuthenticationFailed why) /\
    (why = AW_Told reason <-> rest = []) /\ (why = AW_Rejected (tf_client_id a) <-> rest <> []).
Proof using cut_delivers.
  intros Hstart Hchal Hp Hresp Hfail Hclose Hw Hpart.
  unfold client_side. destruct (client_responds a cx start_p Hstart nonce code signature _ _ _ Hchal Hp Hresp
    (client_start written) part eq_refl) as (stream & Hd & ->); [rewrite <- Hw; apply received_delivers|].
  unfold c_bind. set (s1 := client_sent _ _ _). destruct rest as [|b rest].
  - rewrite app_nil_r in Hpart. subst part.
    destruct (client_reads json_to_writer json_from_slice (read_failure (tf_client_id a) (cx_close cx AtResult) AtResult)
      _ _ _ [] s1 Hfail) as (stream' & -> & _); [done|by rewrite app_nil_r|].
    exists (AW_Told reason). done.
  - exists (AW_Rejected (tf_client_id a)). split; [|done]. unfold read_message.
    destruct (read_message_bytes (w_stream s1)) as [[got s2]|why] eqn:Er; [|by rewrite Hclose].
    by destruct (read_message_short s1.(w_stream) fail_p part b rest) as [? ?]; [apply Hfail|done|done|congruence].
Qed.

(** ** An invitation works *)

Definition invited_side (e : Invitation dv) (cx : Circumstances) (written : list bytes)
    : result (TwoFactorAuth dv) ClientError * list bytes :=
  let '(r, s) := exchange_inner cr dv json_to_writer json_from_slice e cx (client_start written) in (r, w_sent s).

Definition offered_key (e : Invitation dv) : option bytes :=
  (fun key => hex_encode dv (key_public dv key)) <$> nv_key dv e.

Definition enroll_message (e : Invitation dv) : AuthMessage :=
  EnrollStart (nv_client_id dv e) (nv_token dv e) (nv_device_id dv e) (offered_key e).

(** What the server's handler makes of the invitation. *)
Definition enrolled_by (w : World) (e : Invitation dv) : Enrolled :=
  enroll_client cr public_key_hex (mo_config (wo_enroll w)) (mo_now (wo_enroll w)) (wo_created_at w) (wo_secret w)
    (nv_client_id dv e) (nv_token dv e) (nv_device_id dv e) (offered_key e) (wo_saved w).

Definition printable_invitation (e : Invitation dv) : Prop :=
  is_presentable_client_id (nv_client_id dv e) = true /\
  forall name, nv_device_id dv e = Some name -> is_presentable_device_id name = true.

(** The server after it has issued: the start that has to follow. *)
Definition start_after_enroll (client_id : bytes) : M (bytes * Format) :=
  do^ payload := receive_message in
  do^ '(msg, asked_in) := from_payload_or json_from_slice ExpectedStartAfterEnroll payload in
  match msg with
  | Start id _ _ _ =>
      if bool_decide (id = client_id) then ret (client_id, reply_format msg asked_in)
      else fail (Rejected (OtherClientNamed id client_id))
  | _ => fail (NotStarted ExpectedStartAfterEnroll)
  end.

Lemma server_enrolls w e message enroll_p issue_p s rest :
  wo_accepts w = true -> printable_invitation e ->
  spelled (enroll_message e) LegacyJson enroll_p -> spelled message LegacyJson issue_p ->
  en_reply (enrolled_by w e) = ReplyIssue message ->
  h_writes s = [] -> delivers (h_stream s) (frame enroll_p ++ rest) ->
  exists s1, delivers (h_stream s1) rest /\ h_writes s1 = [] /\ h_sent s1 = h_sent s ++ sent_frame issue_p /\
    perform_authentication cr public_key_hex json_to_writer json_from_slice refusal_text w s =
    bind (bind (start_after_enroll (nv_client_id dv e))
            (fun '(client_id, format) => challenge_and_response json_to_writer json_from_slice w client_id format))
      (fun '(q, rf) => verdict cr json_to_writer w q rf) s1.
Proof.
  intros Hacc [Hid Hdev] Hp Hi Ho Hw Hd. unfold perform_authentication, exchange. rewrite Hacc.
  destruct (server_receive s enroll_p rest) as (stream & Hr & Hd'); [apply Hp|done|].
  set (s0 := {| h_stream := stream; h_writes := h_writes s; h_sent := h_sent s; h_enrolled := Some (enrolled_by w e);
                h_authenticated := h_authenticated s |}).
  exists (server_sent (sent_frame issue_p) stream s0). split_and!; [done|done|done|].
  unfold bind at 1 2. unfold ret at 1. cbv beta iota. unfold bind at 1. rewrite Hr. cbv beta iota. unfold bind at 1.
  rewrite (server_parses json_to_writer json_from_slice _ _ _ _ _ Hp). cbv beta iota.
  unfold bind at 1, check_ids, enroll_message. rewrite Hid. cbn [negb].
  assert (match nv_device_id dv e with
          | Some name => if is_presentable_device_id name then ret tt else fail (Rejected DeviceIdNotPrintable)
          | None => ret tt end = ret tt) as ->.
  { destruct (nv_device_id dv e) as [name|] eqn:E; [|done]. by rewrite (Hdev _ eq_refl). }
  unfold ret at 1. cbv beta iota. unfold bind at 1, start_of. unfold bind at 1, enroll.
  fold (enrolled_by w e). rewrite Ho. cbv zeta. cbn [with_stream h_stream h_writes h_sent h_enrolled h_authenticated].
  fold s0. change (reply_format (EnrollStart _ _ _ _) LegacyJson) with LegacyJson.
  rewrite (server_write _ json_from_slice _ _ _ s0 Hi) by done. reflexivity.
Qed.

Lemma server_issued_waits id w s :
  delivers (h_stream s) [] ->
  exists e, bind (bind (start_after_enroll id)
            (fun '(client_id, format) => challenge_and_response json_to_writer json_from_slice w client_id format))
      (fun '(q, rf) => verdict cr json_to_writer w q rf) s = (Err e, s).
Proof.
  intros Hd. unfold bind at 1 2, start_after_enroll, bind at 1.
  destruct (server_waits s Hd) as [e ->]. by exists e.
Qed.

Lemma server_issued_begins w a ts start_p s rest :
  spelled (start_message dv a ts) LegacyJson start_p -> delivers (h_stream s) (frame start_p ++ rest) ->
  exists stream, delivers stream rest /\
    bind (bind (start_after_enroll (tf_client_id a))
            (fun '(client_id, format) => challenge_and_response json_to_writer json_from_slice w client_id format))
      (fun '(q, rf) => verdict cr json_to_writer w q rf) s =
    bind (challenge_and_response json_to_writer json_from_slice w (tf_client_id a) Binary)
      (fun '(q, rf) => verdict cr json_to_writer w q rf) (with_stream stream s).
Proof.
  intros Hp Hd. destruct (server_receive s start_p rest) as (stream & Hr & Hd'); [apply Hp|done|].
  exists stream. split; [done|]. unfold bind at 1 2, start_after_enroll, bind at 1. rewrite Hr. cbv beta iota.
  unfold bind at 1. rewrite (server_parses json_to_writer json_from_slice _ _ _ _ _ Hp). cbv beta iota.
  unfold start_message. rewrite bool_decide_eq_true_2 by done. reflexivity.
Qed.

Section InvitedTurns.
Variable w : World.
Variable e : Invitation dv.
Variable a : TwoFactorAuth dv.
Variable cx : Circumstances.
Variable message : AuthMessage.
Variable enroll_p issue_p start_p code signature : bytes.
Variable acl : ClientAcl.
#[local] Abbreviation ts := (timestamp_of (cx_response cx)).
#[local] Abbreviation nonce := (wo_nonce w).
Hypothesis Hacc : wo_accepts w = true.
Hypothesis Hinv : printable_invitation e.
Hypothesis Henroll : spelled (enroll_message e) LegacyJson enroll_p.
Hypothesis Hissue : spelled message LegacyJson issue_p.
Hypothesis Hreply : en_reply (enrolled_by w e) = ReplyIssue message.
Hypothesis Hissued : issued_auth cr dv e message = Ok a.
Hypothesis Hid : tf_client_id a = nv_client_id dv e.
Hypothesis Ha : printable_auth a.
Hypothesis Hstart : spelled (start_message dv a (timestamp_of (cx_start cx))) LegacyJson start_p.
Hypothesis Hnonce : len nonce <= 1024.
Hypothesis Hprove : prove cr dv a nonce ts (cx_code cx) = Ok (code, signature).
Hypothesis Hresp : spelled (response_message a ts code signature) Binary (resp_payload a ts code signature).
Hypothesis Hanswer : o_answer (authenticate cr (mo_config (wo_response w)) (mo_now (wo_response w))
    (asked a nonce ts code signature)) = Ok acl.

#[local] Abbreviation chal_p := (chal_payload w).
#[local] Abbreviation resp_p := (resp_payload a ts code signature).
#[local] Abbreviation invited := (exchange_inner cr dv json_to_writer json_from_slice e cx).
#[local] Abbreviation auth := (authenticate_on_inner cr dv json_to_writer json_from_slice a cx).

Lemma client_invites s :
  w_writes s = [] -> delivers (w_stream s) [] ->
  exists err, invited s = (Err err, client_sent (sent_frame enroll_p) (w_stream s) s).
Proof using Henroll.
  intros Hw Hd. unfold exchange_inner. fold (offered_key e). fold (enroll_message e). unfold c_bind. rewrite (client_write _ json_from_slice _ _ _ _ Henroll Hw).
  cbv beta iota. rewrite client_waits by done. by eexists.
Qed.

Lemma client_issued s rest :
  w_writes s = [] -> delivers (w_stream s) (frame issue_p ++ rest) ->
  exists stream, delivers stream rest /\
    invited s = c_bind auth (fun _ => c_ret a) (client_sent (sent_frame enroll_p) stream s).
Proof using Henroll Hissue Hissued.
  intros Hw Hd. unfold exchange_inner. fold (offered_key e). fold (enroll_message e). unfold c_bind at 1. rewrite (client_write _ json_from_slice _ _ _ _ Henroll Hw).
  cbv beta iota. unfold c_bind at 1.
  destruct (client_reads json_to_writer json_from_slice issue_failure _ _ _ rest
    (client_sent (sent_frame enroll_p) (w_stream s) s) Hissue) as (stream & -> & Hd'); [done|done|].
  exists stream. split; [done|]. cbv beta iota. unfold c_bind at 1, c_lift. rewrite Hissued. cbv beta iota.
  f_equal. unfold client_sent. cbn. by rewrite app_nil_r.
Qed.

(** The client's side at each turn. *)
Lemma invited_client :
  (invited_side e cx []).2 = sent_frame enroll_p /\
  (invited_side e cx (sent_frame issue_p)).2 = sent_frame enroll_p ++ sent_frame start_p /\
  (invited_side e cx (sent_frame issue_p ++ sent_frame chal_p)).2 =
    sent_frame enroll_p ++ sent_frame start_p ++ sent_frame resp_p ++ [[]] /\
  invited_side e cx (sent_frame issue_p ++ sent_frame chal_p ++ sent_frame ok_payload ++ [[]]) =
    (Ok a, sent_frame enroll_p ++ sent_frame start_p ++ sent_frame resp_p ++ [[]]).
Proof using Henroll Hissue Hissued Hstart Hnonce Hprove Hresp json_roundtrip json_object cut_delivers.
  pose proof (chal_spelled w Hnonce) as Hchal. pose proof ok_spelled as Hok. split_and!; unfold invited_side.
  - destruct (client_invites (client_start []) eq_refl) as [err ->]; [apply received_delivers|done].
  - destruct (client_issued (client_start (sent_frame issue_p)) [] eq_refl) as (stream & Hd & ->);
      [rewrite app_nil_r, <- concat_sent_frame; apply received_delivers|].
    unfold c_bind. destruct (client_starts a cx start_p Hstart (client_sent (sent_frame enroll_p) stream
      (client_start (sent_frame issue_p))) eq_refl Hd) as [err ->]. done.
  - destruct (client_issued (client_start (sent_frame issue_p ++ sent_frame chal_p)) (frame chal_p) eq_refl)
      as (stream & Hd & ->); [rewrite <- !concat_sent_frame, <- concat_app; apply received_delivers|].
    destruct (client_awaits a cx start_p Hstart nonce code signature _ _ _ Hchal Hprove Hresp
      (client_sent (sent_frame enroll_p) stream (client_start (sent_frame issue_p ++ sent_frame chal_p))) eq_refl Hd)
      as (err & H1 & H2). unfold c_bind. destruct (auth _) as [r s]. cbn in H1. subst r. exact H2.
  - destruct (client_issued (client_start (sent_frame issue_p ++ sent_frame chal_p ++ sent_frame ok_payload ++ [[]]))
      (frame chal_p ++ frame ok_payload ++ []) eq_refl) as (stream & Hd & ->).
    { pose proof (received_delivers (sent_frame issue_p ++ sent_frame chal_p ++ sent_frame ok_payload ++ [[]])) as H.
      rewrite !concat_app, !concat_sent_frame in H. exact H. }
    destruct (client_enters a cx start_p Hstart nonce code signature _ _ _ Hchal Hprove Hresp
      (client_sent (sent_frame enroll_p) stream
         (client_start (sent_frame issue_p ++ sent_frame chal_p ++ sent_frame ok_payload ++ [[]]))) _ [] Hok eq_refl Hd)
      as (H1 & H2). unfold c_bind. destruct (auth _) as [r s]. cbn [fst snd] in H1. subst r. cbv beta iota.
    unfold c_ret. f_equal. exact H2.
Qed.

(** The server's. *)
Lemma inviting_server :
  (server_side w []).2 = [] /\
  (server_side w (sent_frame enroll_p)).2 = sent_frame issue_p /\
  (server_side w (sent_frame enroll_p ++ sent_frame start_p)).2 = sent_frame issue_p ++ sent_frame chal_p /\
  server_side w (sent_frame enroll_p ++ sent_frame start_p ++ sent_frame resp_p ++ [[]]) =
    (Ok (entered a acl), sent_frame issue_p ++ sent_frame chal_p ++ sent_frame ok_payload ++ [[]]).
Proof using Hacc Hinv Henroll Hissue Hreply Hid Ha Hstart Hnonce Hresp Hanswer json_roundtrip json_object cut_delivers.
  pose proof (chal_spelled w Hnonce) as Hchal. pose proof ok_spelled as Hok. split_and!; unfold server_side.
  - unfold perform_authentication, exchange. rewrite Hacc. unfold bind at 1 2 3, ret at 1.
    edestruct (server_waits (server_start [])) as [err ->]; [apply received_delivers|done].
  - destruct (server_enrolls w e message enroll_p issue_p (server_start (sent_frame enroll_p)) [] Hacc Hinv Henroll Hissue
      Hreply eq_refl) as (s1 & Hd & _ & Hsent & ->); [rewrite app_nil_r, <- concat_sent_frame; apply received_delivers|].
    destruct (server_issued_waits (nv_client_id dv e) w s1 Hd) as [err ->]. exact Hsent.
  - destruct (server_enrolls w e message enroll_p issue_p (server_start (sent_frame enroll_p ++ sent_frame start_p))
      (frame start_p) Hacc Hinv Henroll Hissue Hreply eq_refl) as (s1 & Hd & Hw & Hsent & ->);
      [rewrite <- !concat_sent_frame, <- concat_app; apply received_delivers|]. rewrite <- Hid.
    destruct (server_issued_begins w a _ start_p s1 [] Hstart) as (stream & Hd' & ->); [by rewrite app_nil_r|].
    unfold bind. edestruct (server_challenges w (tf_client_id a) Binary) as [err ->]; [exact Hchal|done|done|].
    cbn. by rewrite Hsent.
  - destruct (server_enrolls w e message enroll_p issue_p
      (server_start (sent_frame enroll_p ++ sent_frame start_p ++ sent_frame resp_p ++ [[]]))
      (frame start_p ++ frame resp_p ++ []) Hacc Hinv Henroll Hissue Hreply eq_refl) as (s1 & Hd & Hw & Hsent & ->).
    { pose proof (received_delivers (sent_frame enroll_p ++ sent_frame start_p ++ sent_frame resp_p ++ [[]])) as H.
      rewrite !concat_app, !concat_sent_frame in H. exact H. }
    rewrite <- Hid. destruct (server_issued_begins w a _ start_p s1 (frame resp_p ++ []) Hstart Hd) as (stream & Hd' & ->).
    edestruct (server_judges w a ts code signature) as (s' & -> & Hsent'); [done|done|done|done|done|done|done|].
    rewrite Hsent'. cbn [with_stream h_sent]. by rewrite Hsent.
Qed.

Lemma invitation_settles : settles (invited_side e cx) (server_side w) 6 (Ok a) (Ok (entered a acl)).
Proof using Hacc Hinv Henroll Hissue Hreply Hissued Hid Ha Hstart Hnonce Hprove Hresp Hanswer
    json_roundtrip json_object cut_delivers.
  destruct invited_client as (C0 & C1 & C2 & C3), inviting_server as (S0 & S1 & S2 & S3).
  pose proof (joint_S (invited_side e cx) (server_side w) 0 [] [] eq_refl) as J. rewrite C0, S0 in J.
  apply joint_S in J. rewrite C0, S1 in J. apply joint_S in J. rewrite C1, S1 in J.
  apply joint_S in J. rewrite C1, S2 in J. apply joint_S in J. rewrite C2, S2 in J.
  apply joint_S in J. rewrite C2, S3 in J. by eapply joint_settles.
Qed.
End InvitedTurns.

(** A key has one spelling that the server reads, whichever side wrote it. *)
Hypothesis key_spelling : forall sk, exists pk,
  public_key_from_bytes cr (key_public dv sk) = Some pk /\
  parse_public_key cr (hex_encode dv (key_public dv sk)) = Some pk /\
  parse_public_key cr (public_key_hex pk) = Some pk.
Hypothesis hex_text : forall sk,
  len (hex_encode dv (key_public dv sk)) <= 255 /\
  Forall (fun b => is_ascii_graphic b = true) (hex_encode dv (key_public dv sk)).

(** The two sides read a stored secret alike. *)
Lemma decode_agrees stored raw :
  decode_base32_secret (base32_decode cr) stored = Some raw -> decode_base32 cr stored = Ok raw /\ stored <> [].
Proof.
  unfold decode_base32_secret, normalize_secret, decode_base32. set (t := to_ascii_uppercase _).
  destruct (bool_decide (t = []) || _) eqn:E; [done|]. apply orb_false_iff in E as [E _]. rewrite E. cbn.
  intros ->. split; [done|]. intros ->. by apply bool_decide_eq_false in E.
Qed.

(** What the invitation can be traded for: a secret the server will have minted, with
    the code the client makes of it in the window, or the client's own key under its
    name. *)
Inductive issuable (config : AuthConfig) (now made : Z) (secret : bytes) (c : ClientAuth) (e : Invitation dv) : Prop :=
| IS_secret raw code :
    nv_key dv e = None -> decode_base32_secret (base32_decode cr) secret = Some raw ->
    len secret <= 255 -> utf8_valid secret = true ->
    totp_generate dv (a_algorithm config) (a_digits config) (a_time_step config) raw made = Ok code ->
    Z.abs (now / a_time_step config - made / a_time_step config) <= a_window config ->
    (nv_device_id dv e = None -> c_unnamed_device_allowed c = true /\
       forall s, now / a_time_step config - a_window config <= s -> not_behind (c_last_used_step c) s) ->
    issuable config now made secret c e
| IS_key sk name : nv_key dv e = Some sk -> nv_device_id dv e = Some name -> issuable config now made secret c e.

Definition settings_ok (config : AuthConfig) : Prop :=
  0 <= a_digits config <= umax 8 /\ a_window config <= umax 16 /\ 0 < a_time_step config <= umax 32.

Lemma totp_algorithm_id algorithm : totp_algorithm_from (algorithm_of algorithm) = algorithm.
Proof. by destruct algorithm. Qed.

(** What is issued is on file, and the client builds it from the answer. *)
Lemma issued_on_file cfg now1 created_at secret e c c' o message issued now made :
  enrolled_ok cr public_key_hex cfg now1 created_at secret (nv_client_id dv e) (nv_token dv e) (nv_device_id dv e)
    (offered_key e) (Ok tt) o message c c' issued ->
  settings_ok cfg -> issuable cfg now made secret c e ->
  exists a, issued_auth cr dv e message = Ok a /\ tf_client_id a = nv_client_id dv e /\
    tf_device_id a = nv_device_id dv e /\ on_file (en_config o) now made c' a.
Proof using key_spelling.
  intros [_ _ Hcf _ -> _ Hg _ Hs _ Hset] (Hd & Hw & Hst) Hi.
  injection Hs as Hun Hls _. unfold offered_key in Hcf.
  assert (a_algorithm (en_config o) = a_algorithm cfg /\ a_digits (en_config o) = a_digits cfg /\
          a_window (en_config o) = a_window cfg /\ a_time_step (en_config o) = a_time_step cfg) as (E1 & E2 & E3 & E4)
    by by rewrite Hset.
  destruct Hi as [raw code Hk Hdec Hl Hu Hgen Hwin Hfree|sk name Hk Hn].
  - destruct (decode_agrees _ _ Hdec) as [Hdec' Hne]. rewrite Hk in Hcf. cbn in Hcf.
    set (a := {| tf_client_id := nv_client_id dv e;
                 tf_proof := Totp (dv:=dv) raw (a_algorithm cfg) (a_time_step cfg) (a_digits cfg);
                 tf_device_id := nv_device_id dv e |}).
    exists a. split.
    { unfold enroll_issue. destruct (nv_device_id dv e) as [name|] eqn:En; injection Hcf as <-; cbn;
        rewrite (bool_decide_eq_true_2 (_ = nv_client_id dv e)), bool_decide_eq_false_2 by done; cbn [negb];
        rewrite (proj2 (Z.ltb_ge _ _)) by lia; unfold with_params; rewrite Hdec', totp_algorithm_id; cbn;
        unfold a; by rewrite ?En. }
    split; [done|]. split; [done|]. eapply (OF_secret _ _ _ _ _ raw code); rewrite ?E1, ?E2, ?E3, ?E4; try done; try lia.
    + cbn. destruct (nv_device_id dv e) as [name|]; injection Hcf as <-; cbn in Hg; injection Hg as Hg1 _ Hg2.
      * eapply HS_device; [by rewrite Hg2, lookup_insert_eq|done|done].
      * apply HS_client; [rewrite Hun; by apply Hfree|by rewrite Hg1].
    + intros s Hle s' [= <-]. cbn. destruct (nv_device_id dv e) as [name|]; injection Hcf as <-; cbn in Hg; injection Hg as Hg1 _ Hg2.
      * unfold last_step. rewrite Hg2, lookup_insert_eq. by intros ? ?.
      * unfold last_step. rewrite Hls. by apply Hfree.
  - destruct (key_spelling sk) as (pk & Hpk & Hparse & Hspell). rewrite Hk, Hn in Hcf. cbn in Hcf. rewrite Hparse in Hcf.
    injection Hcf as <-. exists (with_key dv (nv_client_id dv e) sk name). split_and!; [|done|done|].
    + cbn. rewrite !bool_decide_eq_true_2 by done. cbn. by rewrite Hk.
    + cbn in Hg. injection Hg as _ _ Hg2. eapply (OF_key _ _ _ _ _ sk pk); [done| |done].
      eapply HK_device; [by rewrite Hg2, lookup_insert_eq|done|done].
Qed.

Lemma enroll_spelled e :
  printable_invitation e -> utf8_valid (nv_token dv e) = true -> len (nv_token dv e) <= 255 ->
  exists enroll_p, spelled (enroll_message e) LegacyJson enroll_p.
Proof using json_roundtrip json_object json_short hex_text.
  intros [Hid Hdev] Hu Hl.
  assert (forall k, offered_key e = Some k -> utf8_valid k = true /\ len k <= 255) as Hk.
  { unfold offered_key. destruct (nv_key dv e) as [sk|]; [|done]. intros k [= <-]. destruct (hex_text sk). auto with rs. }
  apply (presentable_string MAX_CLIENT_ID_LEN) in Hid as [Hid Hidl].
  assert (forall name, nv_device_id dv e = Some name -> utf8_valid name = true /\ len name <= 255) as Hd.
  { intros name E. by apply (presentable_string MAX_DEVICE_ID_LEN), Hdev. }
  apply spells_short; [split; [|done]|done|]; cbn; rewrite !Forall_cons, Forall_app; split_and!; try done;
    apply Forall_option_list; intros x E; (by apply Hk) || (by apply Hd).
Qed.

Lemma issue_spelled cfg now1 created_at secret e c c' o message issued now made :
  enrolled_ok cr public_key_hex cfg now1 created_at secret (nv_client_id dv e) (nv_token dv e) (nv_device_id dv e)
    (offered_key e) (Ok tt) o message c c' issued ->
  printable_invitation e -> settings_ok cfg -> issuable cfg now made secret c e ->
  exists issue_p, spelled message LegacyJson issue_p.
Proof using json_roundtrip json_object json_short.
  intros [_ _ Hcf _ -> _ _ _ _ _ _] [Hid Hdev] (Hd & _ & Hst) Hi.
  apply (presentable_string MAX_CLIENT_ID_LEN) in Hid as [Hid Hidl]. unfold offered_key, credential_for in Hcf.
  assert (forall name, nv_device_id dv e = Some name -> utf8_valid name = true /\ len name <= 255) as Hn.
  { intros name E. by apply (presentable_string MAX_DEVICE_ID_LEN), Hdev. }
  assert (is_u32 (a_digits cfg) /\ is_u64 (a_time_step cfg)) as [H1 H2].
  { unfold is_uint, umax in *. lia. }
  assert (exists s d, enroll_issue cfg (nv_client_id dv e) issued =
            EnrollIssue (nv_client_id dv e) s (algorithm_of (a_algorithm cfg)) (a_digits cfg) (a_time_step cfg) d /\
          utf8_valid s = true /\ len s <= 255 /\ forall name, d = Some name -> utf8_valid name = true /\ len name <= 255)
    as (s & d & -> & Hs1 & Hs2 & Hds).
  { destruct Hi as [raw code Hk _ Hl Hu _ _ _|sk name Hk En].
    - rewrite Hk in Hcf. cbn in Hcf. destruct (nv_device_id dv e) as [name|]; injection Hcf as <-; eexists _, _;
        (split; [reflexivity|]); split_and!; try done; intros n [= <-]; by apply Hn.
    - rewrite Hk, En in Hcf. cbn in Hcf. destruct (parse_public_key _ _) as [pk|]; [|done]. injection Hcf as <-.
      eexists _, _. split; [reflexivity|]. split_and!; try done. intros n [= <-]. by apply Hn. }
  apply spells_short; [split; [|done]|done|]; cbn; rewrite !Forall_cons; split_and!; try done;
    apply Forall_option_list; intros x E; by apply Hds.
Qed.

(** C23: an invitation works.  Put a client that holds an outstanding token and a
    server on one stream.  If the name asked for is free, the configuration is saved,
    and the clocks agree, then after six turns the token has been traded for a
    credential, a fresh secret or the client's own key, the client has built from the
    answer exactly the credential the server filed, and that credential has already
    proved itself: the server has let in that client under that device with the
    client's access list. *)
Theorem invitation_works w e cx c :
  let cfg := mo_config (wo_enroll w) in let now := mo_now (wo_response w) in
  wo_accepts w = true -> a_enabled cfg = true -> settings_ok cfg -> printable_invitation e -> clocks_typed cx ->
  len (wo_nonce w) <= 1024 -> utf8_valid (nv_token dv e) = true -> len (nv_token dv e) <= 255 ->
  a_clients cfg !! nv_client_id dv e = Some c ->
  waiting (mo_now (wo_enroll w)) (refreshed (mo_now (wo_enroll w)) c) (nv_token dv e) ->
  (forall name, nv_device_id dv e = Some name -> c_devices c !! name = None) ->
  wo_saved w = Ok tt -> mo_config (wo_response w) = en_config (enrolled_by w e) ->
  abs_diff now (timestamp_of (cx_response cx)) <= TIMESTAMP_WINDOW_SECS ->
  issuable cfg now (cx_code cx) (wo_secret w) c e ->
  exists a, settles (invited_side e cx) (server_side w) 6 (Ok a)
    (Ok {| ap_client_id := nv_client_id dv e; ap_device := nv_device_id dv e; ap_acl := client_acl c |}).
Proof using cut_delivers json_roundtrip json_object json_short totp_agrees totp_digits hmac_total signature_verifies
    key_spelling hex_text.
  intros cfg now Hacc Hen Hset Hinv Hck Hn Htu Htl Hc Hwait Hfree Hsaved Hconf Hts Hi.
  assert (exists issued, credential_for cr public_key_hex (wo_secret w) (nv_device_id dv e) (offered_key e) = Ok issued)
    as [issued0 Hcred].
  { unfold credential_for, offered_key. destruct Hi as [raw code Hk|sk name Hk En].
    - rewrite Hk. cbn. destruct (nv_device_id dv e); by eexists.
    - rewrite Hk, En. cbn. destruct (key_spelling sk) as (pk & _ & -> & _). by eexists. }
  destruct (enroll_grants cr public_key_hex cfg (mo_now (wo_enroll w)) (wo_created_at w) (wo_secret w) _ _ _ _ c issued0
    Hc Hwait Hcred) as [message Hreply].
  { intros name entry Hd. by rewrite (Hfree _ Hd). }
  destruct (enroll_issued cr public_key_hex _ _ _ _ _ _ _ _ _ _ Hreply) as (c0 & c' & issued & Ho).
  assert (enroll_client cr public_key_hex cfg (mo_now (wo_enroll w)) (wo_created_at w) (wo_secret w) (nv_client_id dv e)
    (nv_token dv e) (nv_device_id dv e) (offered_key e) (Ok tt) = enrolled_by w e) as Eo
    by (unfold enrolled_by; by rewrite Hsaved).
  rewrite Eo in *.
  assert (c0 = c) as -> by (destruct Ho; congruence).
  destruct (enroll_spelled e Hinv Htu Htl) as [enroll_p Henroll].
  destruct (issue_spelled _ _ _ _ _ _ _ _ _ _ _ _ Ho Hinv Hset Hi) as [issue_p Hissue].
  destruct (issued_on_file _ _ _ _ _ _ _ _ _ _ _ _ Ho Hset Hi) as (a & Hissued & Hid & Hdev & Hfile).
  rewrite <- Hconf in Hfile.
  assert (printable_auth a) as Ha by (unfold printable_auth; by rewrite Hid, Hdev).
  destruct (on_file_proves _ _ _ _ _ (wo_nonce w) (timestamp_of (cx_response cx)) Hfile)
    as (code & signature & step & Hp & Hcl & Hcu & Hsl & Hproved & Hfresh).
  assert (is_i64 (timestamp_of (cx_start cx)) /\ is_i64 (timestamp_of (cx_response cx))) as [H1 H2].
  { split; apply timestamp_typed; intros secs E; apply Hck; auto. }
  destruct (start_spelled a _ Ha H1) as [start_p Hstart]. exists a.
  destruct Ho as [_ _ _ _ _ Hcs _ _ Hst Hun Hcfg].
  rewrite <- Hconf in Hcs, Hcfg.
  pose proof (f_equal snd Hst) as Hacl. cbn [standing snd] in Hacl. rewrite <- Hacl.
  rewrite <- Hid, <- Hdev. eapply (invitation_settles w e a cx message enroll_p issue_p start_p code signature); eauto using response_spelled.
  apply authenticate_ok_iff; [rewrite Hcfg; exact Hen|]. exists c', step. split; [|split; [|done]].
  - cbn. by rewrite Hcs, Hid, lookup_insert_eq.
  - split; [|done]. unfold is_locked_out. by rewrite Hun.
Qed.
End Pair.

(** ** A worked example *)

(** Primitives for which what is assumed of them holds: a tag and a signature are
    the key in front of the message, cut to length, and the code of a step is its
    number. *)
Definition pair_crypto : Crypto := {|
  PublicKey := bytes;
  Signature := bytes;
  base32_decode := Some;
  hex_decode := Some;
  public_key_from_bytes := Some;
  signature_try_from := Some;
  key_verify := fun key msg sig => bool_decide (sig = take 64 (key ++ msg));
  hmac_sha256 := fun key msg => Ok (take 64 (key ++ msg));
  totp_check := fun _ _ window step _ code now =>
    Ok (List.find (fun s => bool_decide (code = show_uint s)) (seqZ (now / step - window) (2 * window + 1)));
|}.

Definition pair_device : DeviceCrypto := {|
  SecretKey := bool;
  key_public := fun sk => replicate 32 (if sk then 97 else 98);
  key_sign := fun sk msg => take 64 (replicate 32 (if sk then 97 else 98) ++ msg);
  hex_encode := fun key => key;
  base32_encode := fun secret => secret;
  totp_generate := fun _ _ step _ now =>
    let code := show_uint (now / step) in
    if (len code <=? umax 8) && forallb is_ascii_graphic code then Ok code else Err tt;
|}.

Definition pair_cut (written : list bytes) : list bytes := filter (fun c => c <> []) written.

Lemma pair_cut_delivers written : flowing (pair_cut written) /\ concat (pair_cut written) = concat written.
Proof.
  split; [apply Forall_forall; intros c Hc; by apply list_elem_of_filter in Hc as [? _]|].
  induction written as [|c l IH]; [done|]. unfold pair_cut in *. rewrite filter_cons. case_decide as Hc; cbn.
  - by rewrite IH.
  - by rewrite Hc.
Qed.

Lemma pair_totp_agrees algorithm digits window step secret code made now :
  totp_generate pair_device algorithm digits step secret made = Ok code -> 0 < step ->
  Z.abs (now / step - made / step) <= window ->
  exists s, totp_check pair_crypto algorithm digits window step secret code now = Ok (Some s) /\ now / step - window <= s.
Proof.
  cbn [totp_generate totp_check pair_device pair_crypto]. intros Hg Hs Hw.
  destruct (_ && _); [|done]. injection Hg as <-.
  set (l := seqZ _ _). assert (made / step ∈ l) as Hin by (apply elem_of_seqZ; lia).
  destruct (List.find _ l) as [s|] eqn:E.
  - exists s. split; [done|]. apply find_some in E as [Hs' _]. apply list_elem_of_In, elem_of_seqZ in Hs'. lia.
  - eapply find_none in E; [|by apply list_elem_of_In]. by rewrite bool_decide_eq_true_2 in E.
Qed.

Lemma pair_totp_digits algorithm digits step secret made code :
  totp_generate pair_device algorithm digits step secret made = Ok code ->
  len code <= umax 8 /\ Forall (fun b => is_ascii_graphic b = true) code.
Proof.
  cbn [totp_generate pair_device]. intros Hg. destruct (_ && _) eqn:E; [|done]. injection Hg as <-.
  apply andb_true_iff in E as [E1 E2]. apply Z.leb_le in E1. split; [done|].
  apply Forall_forall. intros b Hb. rewrite forallb_forall in E2. apply E2. by apply list_elem_of_In.
Qed.

Lemma pair_hmac_total secret message :
  exists tag, hmac_sha256 pair_crypto secret message = Ok tag /\ len tag <= 64.
Proof. eexists. split; [reflexivity|]. unfold len. rewrite length_take. lia. Qed.

Lemma pair_signature_verifies (sk : SecretKey pair_device) (pk : PublicKey pair_crypto) message :
  public_key_from_bytes pair_crypto (key_public pair_device sk) = Some pk ->
  len (key_sign pair_device sk message) <= 64 /\
  exists signature, signature_try_from pair_crypto (key_sign pair_device sk message) = Some signature /\
    key_verify pair_crypto pk message signature = true.
Proof.
  cbn [public_key_from_bytes key_public pair_crypto pair_device]. intros [= <-]. split.
  - cbn [key_sign pair_device]. unfold len. rewrite length_take. lia.
  - eexists. split; [reflexivity|]. cbn [key_verify pair_crypto]. by apply bool_decide_eq_true.
Qed.

Lemma pair_json_roundtrip m text :
  msg_typed m -> len text < 2 ^ 63 -> sample_json_to m = Ok text -> sample_json_from text = Ok m.
Proof.
  intros Ht Hl H. apply sample_json_ok in H as [Hf ->]. unfold sample_json_from. cbn [drop].
  rewrite <- (app_nil_r (encode_binary m)). rewrite len_cons in Hl.
  apply from_binary_encode; [rewrite app_nil_r; lia|done|done].
Qed.

Lemma pair_json_object m text : sample_json_to m = Ok text -> exists rest, text = 123 :: rest.
Proof. intros H. apply sample_json_ok in H as [_ ->]. by eexists. Qed.

Lemma pair_json_short m :
  msg_typed m -> msg_blobs m = [] -> Forall (fun s => len s <= 255) (msg_strings m) ->
  exists text, sample_json_to m = Ok text /\ len text <= MAX_AUTH_MESSAGE.
Proof.
  intros _ Hb Hs.
  assert (msg_fits m) as Hf.
  { split; [|rewrite Hb; constructor]. eapply Forall_impl; [exact Hs|]. intros s. change (umax 16) with 65535. cbn. lia. }
  assert (wb_inv writer_default) as Hnew by by apply wb_with_capacity_inv.
  unfold sample_json_to. pose proof (write_binary_spec m _ Hnew) as [_ H].
  destruct (write_binary m _) as [wr [[]|er]]; [|done]. cbn [fst snd] in H. destruct H as [_ ->].
  eexists. split; [reflexivity|]. unfold MAX_AUTH_MESSAGE.
  change (v_bytes writer_default) with (@nil Z). cbn [app].
  destruct m as [? ? [?|] [?|]| |? ? ? ? [?|]| | |? ? [?|] [?|]|? ? ? ? ? [?|]|]; try discriminate Hb;
    simpl in Hs; rewrite ?Forall_cons in Hs; unfold encode_binary; cbn [msg_body enc_opt];
    rewrite ?app_nil_r; repeat rewrite ?len_cons, ?len_app, ?len_enc_string; unfold enc_i64;
    rewrite ?len_to_le_bytes, ?len_nil; lia.
Qed.

(** Alice, with the secret on file. *)
Definition alice_auth : TwoFactorAuth pair_device :=
  {| tf_client_id := lit "alice"; tf_proof := Totp (lit "AAAA") SHA1 30 6; tf_device_id := None |}.

Definition pair_circumstances : Circumstances :=
  {| cx_start := Some 600; cx_response := Some 601; cx_code := 601; cx_close := fun _ => None |}.

Definition alice_side := client_side pair_crypto pair_device sample_json_to sample_json_from pair_cut.
Definition toy_server := server_side pair_crypto (fun key => key) sample_json_to sample_json_from (fun _ => []) pair_cut.

Lemma pair_clocks : clocks_typed pair_circumstances.
Proof. intros secs [[= <-]|[= <-]]; done. Qed.

Lemma honest_client_enters_witness :
  settles (alice_side alice_auth pair_circumstances) (toy_server (toy_world toy_config)) 4 (Ok tt)
    (Ok {| ap_client_id := lit "alice"; ap_device := None; ap_acl := client_acl toy_client |}) /\
  (toy_server (toy_world toy_config) (joint (alice_side alice_auth pair_circumstances)
     (toy_server (toy_world toy_config)) 4).1).1 =
    Ok {| ap_client_id := lit "alice"; ap_device := None; ap_acl := client_acl toy_client |}.
Proof.
  split; [|vm_compute; reflexivity].
  apply (honest_client_enters pair_crypto pair_device (fun key => key) sample_json_to sample_json_from (fun _ => [])
    pair_cut pair_cut_delivers pair_json_roundtrip pair_json_object pair_json_short pair_totp_agrees pair_totp_digits
    pair_hmac_total pair_signature_verifies (toy_world toy_config) alice_auth pair_circumstances toy_client).
  - reflexivity.
  - reflexivity.
  - split; [reflexivity|]. discriminate.
  - exact pair_clocks.
  - vm_compute. discriminate.
  - vm_compute. reflexivity.
  - reflexivity.
  - vm_compute. discriminate.
  - eapply (OF_secret _ _ _ _ _ _ _ (lit "AAAA") (show_uint 20)).
    + reflexivity.
    + apply HS_client; vm_compute; reflexivity.
    + vm_compute. discriminate.
    + vm_compute. discriminate.
    + reflexivity.
    + vm_compute. reflexivity.
    + vm_compute. discriminate.
    + intros s _ s' _ p E. discriminate E.
Defined.

(** Two turns of a refused exchange, the second cut short by the close. *)
Definition closing_circumstances : Circumstances :=
  {| cx_start := Some 600; cx_response := Some 601; cx_code := 601; cx_close := fun _ => Some CLOSE_REJECTED |}.

Definition binary_payload (m : AuthMessage) : bytes := VERSION_BINARY :: encode_binary m.

Lemma refusal_reported_witness :
  exists why, (alice_side alice_auth closing_circumstances
    [frame (binary_payload (Challenge [1; 2; 3])); take 7 (frame (binary_payload (Failed FAIL_REASON)))]).1 =
      Err (CE_AuthenticationFailed why) /\ why = AW_Rejected (lit "alice").
Proof.
  destruct (refusal_reported pair_crypto pair_device sample_json_to sample_json_from pair_cut pair_cut_delivers
    alice_auth closing_circumstances [1; 2; 3] (show_uint 20)
    (take 64 (lit "AAAA" ++ challenge_message [1; 2; 3] 601))
    (123 :: encode_binary (start_message pair_device alice_auth 600)) (binary_payload (Challenge [1; 2; 3]))
    (binary_payload (response_message pair_device alice_auth 601 (show_uint 20)
       (take 64 (lit "AAAA" ++ challenge_message [1; 2; 3] 601)))) Binary
    (binary_payload (Failed FAIL_REASON)) FAIL_REASON
    [frame (binary_payload (Challenge [1; 2; 3])); take 7 (frame (binary_payload (Failed FAIL_REASON)))]
    (take 7 (frame (binary_payload (Failed FAIL_REASON)))) (drop 7 (frame (binary_payload (Failed FAIL_REASON)))))
    as (why & H & _ & Hw).
  - vm_compute. repeat split; discriminate.
  - vm_compute. repeat split; discriminate.
  - vm_compute. reflexivity.
  - vm_compute. repeat split; discriminate.
  - vm_compute. repeat split; discriminate.
  - reflexivity.
  - vm_compute. reflexivity.
  - symmetry. apply take_drop.
  - exists why. split; [exact H|]. apply Hw. vm_compute. discriminate.
Defined.

(** Bob's invitation, for a device that signs with its own key. *)
Definition bob_client : ClientAuth := client_with_secret [] (Some (lit "TOKEN")) ∅ toy_client.
Definition bob_config : AuthConfig := with_clients {[lit "bob" := bob_client]} toy_config.
Definition bob_invitation : Invitation pair_device :=
  {| nv_client_id := lit "bob"; nv_token := lit "TOKEN"; nv_device_id := Some (lit "phone"); nv_key := Some (true : SecretKey pair_device) |}.
Definition bob_world : World :=
  let enrolling := {| wo_accepts := true; wo_enroll := {| mo_config := bob_config; mo_now := 600 |}; wo_created_at := [];
    wo_secret := lit "AAAA"; wo_saved := Ok tt; wo_nonce := [1; 2; 3];
    wo_response := {| mo_config := bob_config; mo_now := 600 |} |} in
  with_response {| mo_config := en_config (enrolled_by pair_crypto pair_device (fun key => key) enrolling bob_invitation);
                   mo_now := 601 |} enrolling.

Lemma pair_key_spelling (sk : SecretKey pair_device) : exists pk,
  public_key_from_bytes pair_crypto (key_public pair_device sk) = Some pk /\
  parse_public_key pair_crypto (hex_encode pair_device (key_public pair_device sk)) = Some pk /\
  parse_public_key pair_crypto pk = Some pk.
Proof. exists (key_public pair_device sk). destruct sk; vm_compute; done. Qed.

Lemma pair_hex_text (sk : SecretKey pair_device) :
  len (hex_encode pair_device (key_public pair_device sk)) <= 255 /\
  Forall (fun b => is_ascii_graphic b = true) (hex_encode pair_device (key_public pair_device sk)).
Proof. split; [destruct sk; vm_compute; discriminate|]. apply Forall_replicate. by destruct sk. Qed.

Definition bob_side := invited_side pair_crypto pair_device sample_json_to sample_json_from pair_cut.

Lemma invitation_works_witness :
  exists a, settles (bob_side bob_invitation pair_circumstances) (toy_server bob_world) 6 (Ok a)
    (Ok {| ap_client_id := lit "bob"; ap_device := Some (lit "phone"); ap_acl := client_acl bob_client |}).
Proof.
  apply (invitation_works pair_crypto pair_device (fun key => key) sample_json_to sample_json_from (fun _ => [])
    pair_cut pair_cut_delivers pair_json_roundtrip pair_json_object pair_json_short pair_totp_agrees pair_totp_digits
    pair_hmac_total pair_signature_verifies pair_key_spelling pair_hex_text bob_world bob_invitation pair_circumstances
    bob_client).
  - reflexivity.
  - reflexivity.
  - vm_compute. repeat split; discriminate.
  - split; [reflexivity|]. by intros name [= <-].
  - exact pair_clocks.
  - vm_compute. discriminate.
  - reflexivity.
  - vm_compute. discriminate.
  - vm_compute. reflexivity.
  - vm_compute. repeat split. discriminate.
  - intros name _. reflexivity.
  - reflexivity.
  - reflexivity.
  - vm_compute. discriminate.
  - eapply IS_key; reflexivity.
Defined.
