(* ===== verification/ConnPool.v ===== *)
(** * The client's connection pool (nexapipe-client/src/connection_pool/)

    The pool keeps connections to one backend, a few per protocol, and flows borrow
    them (borrow.rs, selection.rs, pool.rs); a flow that finds none with room dials,
    and the dial is shared by everyone who asks while it runs (dial.rs).  A connection
    stands for the identity its handshake ran for, and the pool drops its connections
    when the credential becomes another identity's.

    Callers are tasks, and a step is what one of them does between two points at which
    another may run: a critical section of one of the pool's locks, an atomic counter,
    an answer from the network.  Connections and channels are numbered in the order
    they are made.  Time is in seconds. *)

From S2P Require Import Prelude RustStd Alpn AuthCodec AuthConfig ClientAuth.

#[global] Instance Protocol_countable : Countable Protocol.
Proof.
  refine (inj_countable' (fun p => match p with Http => 0%nat | L4 => 1%nat | Tls => 2%nat | Legacy => 3%nat end)
    (fun n => match n with O => Http | S O => L4 | S (S O) => Tls | _ => Legacy end) _).
  by intros [].
Defined.

Definition MAX_CONNECTIONS_PER_PROTOCOL : Z := 10.
Definition MAX_FLOWS_PER_CONNECTION : Z := 200.
Definition CONNECTION_IDLE_TIMEOUT : Z := 60.

Definition Identity : Type := bytes * option bytes.

(** ** Connections *)

(** A connection and the [BorrowState] and [PathHealth] that go with it.
    [cn_identity] and [cn_generation] are what its handshake ran for: the pool does
    not store them, they say what a connection stands for. *)
Record Conn := {
  cn_protocol : Protocol;
  cn_identity : option Identity;
  cn_generation : Z;
  cn_closed : bool;
  cn_seen : bool;
  cn_open : bool;
  cn_borrows : Z;
  cn_last_used : Z;
  cn_saturated : bool;
}.

Definition conn_new (p : Protocol) (who : option Identity) (generation now : Z) : Conn :=
  {| cn_protocol := p; cn_identity := who; cn_generation := generation; cn_closed := false; cn_seen := false;
     cn_open := false; cn_borrows := 0; cn_last_used := now; cn_saturated := false |}.

Definition conn_close (n : Conn) : Conn :=
  {| cn_protocol := cn_protocol n; cn_identity := cn_identity n; cn_generation := cn_generation n; cn_closed := true;
     cn_seen := cn_seen n; cn_open := cn_open n; cn_borrows := cn_borrows n; cn_last_used := cn_last_used n;
     cn_saturated := cn_saturated n |}.
Definition conn_with_borrows (b : Z) (n : Conn) : Conn :=
  {| cn_protocol := cn_protocol n; cn_identity := cn_identity n; cn_generation := cn_generation n; cn_closed := cn_closed n;
     cn_seen := cn_seen n; cn_open := cn_open n; cn_borrows := b; cn_last_used := cn_last_used n;
     cn_saturated := cn_saturated n |}.
Definition conn_touch (now : Z) (n : Conn) : Conn :=
  {| cn_protocol := cn_protocol n; cn_identity := cn_identity n; cn_generation := cn_generation n; cn_closed := cn_closed n;
     cn_seen := cn_seen n; cn_open := cn_open n; cn_borrows := cn_borrows n; cn_last_used := now;
     cn_saturated := cn_saturated n |}.
Definition conn_saturate (n : Conn) : Conn :=
  {| cn_protocol := cn_protocol n; cn_identity := cn_identity n; cn_generation := cn_generation n; cn_closed := cn_closed n;
     cn_seen := cn_seen n; cn_open := cn_open n; cn_borrows := cn_borrows n; cn_last_used := cn_last_used n;
     cn_saturated := true |}.

(** [PathHealth::snapshot] and [closed]; [opened] is one path more than none. *)
Definition conn_paths (count : Z) (n : Conn) : Conn :=
  {| cn_protocol := cn_protocol n; cn_identity := cn_identity n; cn_generation := cn_generation n; cn_closed := cn_closed n;
     cn_seen := (0 <? count) || cn_seen n; cn_open := 0 <? count; cn_borrows := cn_borrows n;
     cn_last_used := cn_last_used n; cn_saturated := cn_saturated n |}.

Definition all_gone (n : Conn) : bool := cn_seen n && negb (cn_open n).
Definition is_live (n : Conn) : bool := negb (cn_closed n) && negb (all_gone n).
(** [last_used.elapsed() >= timeout]; the clock of an [Instant] does not go back. *)
Definition is_idle_since (now last_used timeout : Z) : bool := timeout <=? saturating_sub now last_used.
Definition has_room (n : Conn) : bool := negb (cn_saturated n) && (cn_borrows n <? MAX_FLOWS_PER_CONNECTION).

(** [try_borrow], with the count it is taken at. *)
Definition try_borrow (now : Z) (n : Conn) : option Conn :=
  if cn_saturated n then None
  else if MAX_FLOWS_PER_CONNECTION <=? cn_borrows n then None
  else Some (conn_touch now (conn_with_borrows (cn_borrows n + 1) n)).

(** [release], up to the stamp that the last one leaves: whether it is the last. *)
Definition release (n : Conn) : Conn * bool :=
  if cn_borrows n =? 0 then (n, false)
  else (conn_with_borrows (cn_borrows n - 1) n, cn_borrows n =? 1).

(** ** Tasks *)

Inductive DialError := DE_closed | DE_full | DE_replaced | DE_no_endpoint | DE_failed.

Definition Outcome := result nat DialError.

Section Pool.
Variable dv : DeviceCrypto.
#[local] Abbreviation Auth := (TwoFactorAuth dv).

Definition identity (a : Auth) : Identity := (tf_client_id a, tf_device_id a).

Definition identity_changed (before after : option Auth) : bool :=
  negb (bool_decide (identity <$> before = identity <$> after)).

(** Who is told how a dial ended: everyone on a channel, or a preconnect alone. *)
Definition Teller := option nat.

Inductive Task :=
| Asking (p : Protocol)
| Slotting (p : Protocol)
| Dialling (p : Protocol) (k : Teller)
| Reading (p : Protocol) (k : Teller)
| Shaking (p : Protocol) (k : Teller) (who : option Identity) (generation : Z)
| Enrolling (p : Protocol) (k : Teller)
| Dropping (then_ : option (Protocol * Teller * nat * Z * Auth))
| Filing (p : Protocol) (k : Teller) (c : nat) (generation : Z) (a : Auth)
| Pooling (p : Protocol) (k : Teller) (c : nat) (generation : Z)
| Telling (p : Protocol) (ch : nat) (o : Outcome)
| Waiting (p : Protocol) (ch : nat)
| Clearing (p : Protocol) (ch : nat) (o : option Outcome)
| Dialled (p : Protocol) (c : nat)
| Riding (c : nat)
| Touching (c : nat).

(** The watch channel of a dial: what was sent, and whether its sender is there. *)
Record Channel := { ch_value : option Outcome; ch_sender : bool }.

Record Pool := {
  pl_slot : option Auth;
  pl_generation : Z;
  pl_enrollment : option (Invitation dv);
  pl_issued : option Auth;
  pl_endpoint : bool;
  pl_held : list nat;
  pl_conns : gmap nat Conn;
  pl_next_conn : nat;
  pl_dialing : gmap Protocol nat;
  pl_channels : gmap nat Channel;
  pl_next_channel : nat;
  pl_tasks : gmap nat Task;
}.

Definition with_tasks (m : gmap nat Task) (s : Pool) : Pool :=
  {| pl_slot := pl_slot s; pl_generation := pl_generation s; pl_enrollment := pl_enrollment s; pl_issued := pl_issued s;
     pl_endpoint := pl_endpoint s; pl_held := pl_held s; pl_conns := pl_conns s; pl_next_conn := pl_next_conn s;
     pl_dialing := pl_dialing s; pl_channels := pl_channels s; pl_next_channel := pl_next_channel s; pl_tasks := m |}.
Definition put (i : nat) (t : Task) (s : Pool) : Pool := with_tasks (<[i := t]> (pl_tasks s)) s.
Definition gone (i : nat) (s : Pool) : Pool := with_tasks (delete i (pl_tasks s)) s.

Definition with_conns (held : list nat) (conns : gmap nat Conn) (next : nat) (s : Pool) : Pool :=
  {| pl_slot := pl_slot s; pl_generation := pl_generation s; pl_enrollment := pl_enrollment s; pl_issued := pl_issued s;
     pl_endpoint := pl_endpoint s; pl_held := held; pl_conns := conns; pl_next_conn := next;
     pl_dialing := pl_dialing s; pl_channels := pl_channels s; pl_next_channel := pl_next_channel s;
     pl_tasks := pl_tasks s |}.
Definition with_held (held : list nat) (s : Pool) : Pool := with_conns held (pl_conns s) (pl_next_conn s) s.
Definition with_conn (f : Conn -> Conn) (c : nat) (s : Pool) : Pool :=
  with_conns (pl_held s) (alter f c (pl_conns s)) (pl_next_conn s) s.
Definition with_dialing (d : gmap Protocol nat) (chs : gmap nat Channel) (next : nat) (s : Pool) : Pool :=
  {| pl_slot := pl_slot s; pl_generation := pl_generation s; pl_enrollment := pl_enrollment s; pl_issued := pl_issued s;
     pl_endpoint := pl_endpoint s; pl_held := pl_held s; pl_conns := pl_conns s; pl_next_conn := pl_next_conn s;
     pl_dialing := d; pl_channels := chs; pl_next_channel := next; pl_tasks := pl_tasks s |}.
Definition with_channel (f : Channel -> Channel) (ch : nat) (s : Pool) : Pool :=
  with_dialing (pl_dialing s) (alter f ch (pl_channels s)) (pl_next_channel s) s.

(** ** The pool's critical sections *)

Definition held_conns (s : Pool) : list (nat * Conn) :=
  omap (fun c => (fun n => (c, n)) <$> pl_conns s !! c) (pl_held s).

(** Whether an entry stays, and the connection it leaves behind otherwise. *)
Definition keeps (now : Z) (n : Conn) : bool :=
  is_live n && negb (is_idle_since now (cn_last_used n) CONNECTION_IDLE_TIMEOUT && (cn_borrows n =? 0)).

Definition drop_stale_connections (now : Z) (s : Pool) : Pool :=
  let stays c := match pl_conns s !! c with Some n => keeps now n | None => true end in
  let dropped := base.filter (fun c => negb (stays c)) (pl_held s) in
  with_conns (base.filter (fun c => stays c) (pl_held s))
    (foldr (fun c m => alter conn_close c m) (pl_conns s) dropped) (pl_next_conn s) s.

(** The first of those with the fewest flows. *)
Fixpoint least (l : list (nat * Conn)) : option (nat * Conn) :=
  match l with
  | [] => None
  | (c, n) :: l =>
      match least l with
      | Some (c', n') => if cn_borrows n' <? cn_borrows n then Some (c', n') else Some (c, n)
      | None => Some (c, n)
      end
  end.

Definition on_borrow (i : nat) (p : Protocol) (now : Z) (s : Pool) : Pool :=
  let s := drop_stale_connections now s in
  match least (base.filter (fun cn => bool_decide (cn_protocol cn.2 = p) && has_room cn.2) (held_conns s)) with
  | Some (c, n) =>
      match try_borrow now n with
      | Some n => put i (Riding c) (with_conns (pl_held s) (<[c := n]> (pl_conns s)) (pl_next_conn s) s)
      | None => put i (Slotting p) s
      end
  | None => put i (Slotting p) s
  end.

Definition drop_connections (s : Pool) : Pool :=
  with_conns [] (foldr (fun c m => alter conn_close c m) (pl_conns s) (pl_held s)) (pl_next_conn s) s.

(** [set_credential] under its lock: the generation it returns, and whether the
    connections are still to be dropped. *)
Definition write_credential (auth : option Auth) (s : Pool) : Pool * bool :=
  let changed := identity_changed (pl_slot s) auth in
  ({| pl_slot := auth;
      pl_generation := if changed then wrapping 64 (pl_generation s + 1) else pl_generation s;
      pl_enrollment := pl_enrollment s; pl_issued := pl_issued s; pl_endpoint := pl_endpoint s; pl_held := pl_held s;
      pl_conns := pl_conns s; pl_next_conn := pl_next_conn s; pl_dialing := pl_dialing s; pl_channels := pl_channels s;
      pl_next_channel := pl_next_channel s; pl_tasks := pl_tasks s |}, changed).

Definition connections_for (p : Protocol) (s : Pool) : Z :=
  len (base.filter (fun cn => cn_protocol cn.2 = p) (held_conns s)).

Definition may_pool (p : Protocol) (s : Pool) : bool := connections_for p s <? MAX_CONNECTIONS_PER_PROTOCOL.

Definition pool_connection (c : nat) (p : Protocol) (generation : Z) (s : Pool) : Pool * result unit DialError :=
  match pl_conns s !! c with
  | None => (s, Err DE_closed)
  | Some n =>
      if cn_closed n then (s, Err DE_closed)
      else if negb (pl_generation s =? generation) then (with_conn conn_close c s, Err DE_replaced)
      else if may_pool p s then (with_held (pl_held s ++ [c]) s, Ok tt)
      else (with_conn conn_close c s, Err DE_full)
  end.

(** The end of a dial: told to the channel, or kept to itself by a preconnect. *)
Definition finish (i : nat) (p : Protocol) (k : Teller) (o : Outcome) (s : Pool) : Pool :=
  match k with
  | Some ch => put i (Telling p ch o) s
  | None => gone i s
  end.

Definition on_pool (i : nat) (p : Protocol) (k : Teller) (c : nat) (generation : Z) (s : Pool) : Pool :=
  let '(s, r) := pool_connection c p generation s in
  finish i p k (match r with Ok _ => Ok c | Err e => Err e end) s.

(** ** The shared dial *)

(** The slot of the protocol, taken or joined. *)
Definition on_slot (i : nat) (p : Protocol) (s : Pool) : Pool :=
  match pl_dialing s !! p with
  | Some ch => put i (Waiting p ch) s
  | None =>
      let ch := pl_next_channel s in
      put i (Dialling p (Some ch))
        (with_dialing (<[p := ch]> (pl_dialing s))
           (<[ch := {| ch_value := None; ch_sender := true |}]> (pl_channels s)) (S ch) s)
  end.

Definition clear_dial_slot (p : Protocol) (ch : nat) (s : Pool) : Pool :=
  match pl_dialing s !! p with
  | Some current =>
      if bool_decide (current = ch) then with_dialing (delete p (pl_dialing s)) (pl_channels s) (pl_next_channel s) s else s
  | None => s
  end.

Definition on_tell (i : nat) (p : Protocol) (ch : nat) (o : Outcome) (s : Pool) : Pool :=
  put i (Clearing p ch (Some o)) (with_channel (fun _ => {| ch_value := Some o; ch_sender := false |}) ch s).

Definition on_clear (i : nat) (p : Protocol) (ch : nat) (o : option Outcome) (s : Pool) : Pool :=
  let s := clear_dial_slot p ch s in
  match o with
  | Some (Ok c) => put i (Dialled p c) s
  | Some (Err _) => gone i s
  | None => put i (Slotting p) s
  end.

(** A connection on which the handshake has run. *)
Definition new_conn (p : Protocol) (who : option Identity) (generation now : Z) (s : Pool) : Pool :=
  with_conns (pl_held s) (<[pl_next_conn s := conn_new p who generation now]> (pl_conns s)) (S (pl_next_conn s)) s.

(** After the QUIC handshake: an invitation is spent first. *)
Definition on_connect (i : nat) (p : Protocol) (k : Teller) (s : Pool) : Pool :=
  match pl_enrollment s with
  | Some _ => put i (Enrolling p k) s
  | None => put i (Reading p k) s
  end.

Definition on_read (i : nat) (p : Protocol) (k : Teller) (s : Pool) : Pool :=
  put i (Shaking p k (identity <$> pl_slot s) (pl_generation s)) s.

Definition on_shaken (i : nat) (p : Protocol) (k : Teller) (who : option Identity) (generation now : Z) (s : Pool) : Pool :=
  put i (Pooling p k (pl_next_conn s) generation) (new_conn p who generation now s).

Definition on_enrolled (i : nat) (p : Protocol) (k : Teller) (a : Auth) (now : Z) (s : Pool) : Pool :=
  let '(s, changed) := write_credential (Some a) s in
  let c := pl_next_conn s in
  let generation := pl_generation s in
  let s := new_conn p (Some (identity a)) generation now s in
  put i (if changed : bool then Dropping (Some (p, k, c, generation, a)) else Filing p k c generation a) s.

Definition on_file (i : nat) (p : Protocol) (k : Teller) (c : nat) (generation : Z) (a : Auth) (s : Pool) : Pool :=
  put i (Pooling p k c generation)
    {| pl_slot := pl_slot s; pl_generation := pl_generation s; pl_enrollment := None; pl_issued := Some a;
       pl_endpoint := pl_endpoint s; pl_held := pl_held s; pl_conns := pl_conns s; pl_next_conn := pl_next_conn s;
       pl_dialing := pl_dialing s; pl_channels := pl_channels s; pl_next_channel := pl_next_channel s;
       pl_tasks := pl_tasks s |}.

Definition on_write (i : nat) (auth : option Auth) (s : Pool) : Pool :=
  let '(s, changed) := write_credential auth s in
  if changed : bool then put i (Dropping None) s else s.

Definition on_drop (i : nat) (then_ : option (Protocol * Teller * nat * Z * Auth)) (s : Pool) : Pool :=
  let s := drop_connections s in
  match then_ with
  | Some (p, k, c, generation, a) => put i (Filing p k c generation a) s
  | None => gone i s
  end.

Definition on_ride (i : nat) (p : Protocol) (c : nat) (now : Z) (s : Pool) : Pool :=
  match pl_conns s !! c ≫= try_borrow now with
  | Some n => put i (Riding c) (with_conns (pl_held s) (<[c := n]> (pl_conns s)) (pl_next_conn s) s)
  | None => put i (Asking p) s
  end.

Definition on_release (i : nat) (c : nat) (s : Pool) : Pool :=
  match release <$> pl_conns s !! c with
  | Some (n, last) =>
      let s := with_conns (pl_held s) (<[c := n]> (pl_conns s)) (pl_next_conn s) s in
      if last : bool then put i (Touching c) s else gone i s
  | None => gone i s
  end.

Definition on_close_all (owns_endpoint : bool) (s : Pool) : Pool :=
  let s := drop_connections s in
  {| pl_slot := pl_slot s; pl_generation := pl_generation s; pl_enrollment := pl_enrollment s; pl_issued := pl_issued s;
     pl_endpoint := pl_endpoint s && negb owns_endpoint; pl_held := pl_held s; pl_conns := pl_conns s;
     pl_next_conn := pl_next_conn s; pl_dialing := pl_dialing s; pl_channels := pl_channels s;
     pl_next_channel := pl_next_channel s; pl_tasks := pl_tasks s |}.

Definition set_enrollment (e : option (Invitation dv)) (s : Pool) : Pool :=
  {| pl_slot := pl_slot s; pl_generation := pl_generation s; pl_enrollment := e; pl_issued := pl_issued s;
     pl_endpoint := pl_endpoint s; pl_held := pl_held s; pl_conns := pl_conns s; pl_next_conn := pl_next_conn s;
     pl_dialing := pl_dialing s; pl_channels := pl_channels s; pl_next_channel := pl_next_channel s;
     pl_tasks := pl_tasks s |}.

(** [preconnect] is content with a live connection at the end of the pool. *)
Definition is_warm (s : Pool) : bool :=
  match last (pl_held s) ≫= (fun c => pl_conns s !! c) with Some n => is_live n | None => false end.

(** The dial a task is making, while it can still fail or be cancelled. *)
Definition dial_of (t : Task) : option (Protocol * Teller) :=
  match t with
  | Dialling p k | Reading p k | Shaking p k _ _ | Enrolling p k | Filing p k _ _ _ | Pooling p k _ _
  | Dropping (Some (p, k, _, _, _)) => Some (p, k)
  | Telling p ch _ => Some (p, Some ch)
  | _ => None
  end.

(** A task that is dropped where it waits: a borrow is given back, and the sender of a
    dial goes. *)
Definition on_cancel (i : nat) (s : Pool) : Pool :=
  match pl_tasks s !! i with
  | Some (Riding c) => on_release i c s
  | Some t =>
      match dial_of t with
      | Some (_, Some ch) => gone i (with_channel (fun x => {| ch_value := ch_value x; ch_sender := false |}) ch s)
      | _ => gone i s
      end
  | None => s
  end.

(** ** Steps *)

(** The dial can fail until its connection is there to be pooled. *)
Definition may_fail (t : Task) : option (Protocol * Teller) :=
  match t with Dialling p k | Reading p k | Shaking p k _ _ | Enrolling p k => Some (p, k) | _ => None end.

(** A write of a credential of another identity; after 2^64 of them the generation
    would come round, and no run is that long. *)
Definition writable (auth : option Auth) (s : Pool) : Prop :=
  identity_changed (pl_slot s) auth = true -> pl_generation s + 1 < 2 ^ 64.

Inductive pool_step (now : Z) (s : Pool) : Pool -> Prop :=
| ps_ask i p : pl_tasks s !! i = None -> pool_step now s (put i (Asking p) s)
| ps_preconnect i : pl_tasks s !! i = None -> is_warm s = false -> pool_step now s (put i (Dialling Http None) s)
| ps_borrow i p : pl_tasks s !! i = Some (Asking p) -> pool_step now s (on_borrow i p now s)
| ps_slot i p : pl_tasks s !! i = Some (Slotting p) -> pool_step now s (on_slot i p s)
| ps_connect i p k :
    pl_tasks s !! i = Some (Dialling p k) -> pl_endpoint s = true -> pool_step now s (on_connect i p k s)
| ps_fail i t p k e :
    pl_tasks s !! i = Some t -> may_fail t = Some (p, k) -> pool_step now s (finish i p k (Err e) s)
| ps_read i p k : pl_tasks s !! i = Some (Reading p k) -> pool_step now s (on_read i p k s)
| ps_shaken i p k who generation :
    pl_tasks s !! i = Some (Shaking p k who generation) -> pool_step now s (on_shaken i p k who generation now s)
| ps_enrolled i p k a :
    pl_tasks s !! i = Some (Enrolling p k) -> writable (Some a) s -> pool_step now s (on_enrolled i p k a now s)
| ps_write i auth : pl_tasks s !! i = None -> writable auth s -> pool_step now s (on_write i auth s)
| ps_drop i then_ : pl_tasks s !! i = Some (Dropping then_) -> pool_step now s (on_drop i then_ s)
| ps_file i p k c generation a :
    pl_tasks s !! i = Some (Filing p k c generation a) -> pool_step now s (on_file i p k c generation a s)
| ps_pool i p k c generation :
    pl_tasks s !! i = Some (Pooling p k c generation) -> pool_step now s (on_pool i p k c generation s)
| ps_tell i p ch o : pl_tasks s !! i = Some (Telling p ch o) -> pool_step now s (on_tell i p ch o s)
| ps_hear i p ch o x :
    pl_tasks s !! i = Some (Waiting p ch) -> pl_channels s !! ch = Some x -> ch_value x = Some o ->
    pool_step now s (put i (Clearing p ch (Some o)) s)
| ps_abandoned i p ch x :
    pl_tasks s !! i = Some (Waiting p ch) -> pl_channels s !! ch = Some x -> ch_value x = None -> ch_sender x = false ->
    pool_step now s (put i (Clearing p ch None) s)
| ps_clear i p ch o : pl_tasks s !! i = Some (Clearing p ch o) -> pool_step now s (on_clear i p ch o s)
| ps_ride i p c : pl_tasks s !! i = Some (Dialled p c) -> pool_step now s (on_ride i p c now s)
| ps_release i c : pl_tasks s !! i = Some (Riding c) -> pool_step now s (on_release i c s)
| ps_touch i c : pl_tasks s !! i = Some (Touching c) -> pool_step now s (gone i (with_conn (conn_touch now) c s))
| ps_saturate i c : pl_tasks s !! i = Some (Riding c) -> pool_step now s (with_conn conn_saturate c s)
| ps_cleanup : pool_step now s (drop_stale_connections now s)
| ps_network : pool_step now s (drop_connections s)
| ps_close_all owns : pool_step now s (on_close_all owns s)
| ps_invite e : pool_step now s (set_enrollment e s)
| ps_peer_closes c : pool_step now s (with_conn conn_close c s)
| ps_paths c count : pool_step now s (with_conn (conn_paths count) c s).

Definition pool_new : Pool :=
  {| pl_slot := None; pl_generation := 0; pl_enrollment := None; pl_issued := None; pl_endpoint := true; pl_held := [];
     pl_conns := ∅; pl_next_conn := 0; pl_dialing := ∅; pl_channels := ∅; pl_next_channel := 0; pl_tasks := ∅ |}.

Definition is_dropping (t : Task) : Prop := match t with Dropping _ => True | _ => False end.

(** Runs; [calm] when no write of a credential is cancelled before it has dropped the
    connections. *)
Inductive pool_run (calm : bool) : Pool -> Prop :=
| pr_new : pool_run calm pool_new
| pr_step now s s' : pool_run calm s -> pool_step now s s' -> pool_run calm s'
| pr_cancel i s :
    pool_run calm s ->
    (calm = true -> forall t, pl_tasks s !! i = Some t -> ~ is_dropping t) -> pool_run calm (on_cancel i s).

(** ** Flows are counted *)

Definition rides (c : nat) (t : Task) : bool := match t with Riding c' => bool_decide (c' = c) | _ => false end.
Definition rode (c : nat) (o : option Task) : Z := match o with Some t => if rides c t then 1 else 0 | None => 0 end.

(** The flows on a connection. *)
Definition riders (c : nat) (m : gmap nat Task) : Z :=
  Z.of_nat (size (base.filter (fun it : nat * Task => rides c it.2 = true) m)).

Lemma riders_gone c i m : riders c (delete i m) = riders c m - rode c (m !! i).
Proof.
  unfold riders, rode. rewrite map_filter_delete. destruct (m !! i) as [t|] eqn:E.
  - destruct (rides c t) eqn:Er.
    + assert (base.filter (fun it : nat * Task => rides c it.2 = true) m !! i = Some t) as Hf
        by by apply map_lookup_filter_Some.
      rewrite map_size_delete, Hf. cbn.
      assert (size (base.filter (fun it : nat * Task => rides c it.2 = true) m) <> 0%nat); [|lia].
      intros H0. apply map_size_empty_inv in H0. by rewrite H0, lookup_empty in Hf.
    + rewrite delete_id; [lia|]. apply map_lookup_filter_None. right. intros x Hx. rewrite E in Hx. injection Hx as <-.
      cbn. by rewrite Er.
  - rewrite delete_id; [lia|]. apply map_lookup_filter_None. by left.
Qed.

Lemma riders_put c i t m : riders c (<[i := t]> m) = riders c m - rode c (m !! i) + rode c (Some t).
Proof.
  rewrite <- riders_gone, <- insert_delete_eq. unfold riders. set (m' := delete i m).
  assert (m' !! i = None) as Hn by apply lookup_delete_eq. cbn. destruct (rides c t) eqn:Er.
  - rewrite map_filter_insert_True by done. rewrite map_size_insert_None; [lia|].
    apply map_lookup_filter_None. by left.
  - rewrite map_filter_insert_False by (cbn; by rewrite Er). rewrite delete_id by done. lia.
Qed.

Lemma riders_none c m : (forall i, m !! i <> Some (Riding c)) -> riders c m = 0.
Proof.
  intros H. unfold riders.
  assert (base.filter (fun it : nat * Task => rides c it.2 = true) m = ∅) as ->; [|by rewrite map_size_empty].
  apply map_empty. intros i. apply map_lookup_filter_None. right. intros t Ht. cbn. destruct t; cbn; try done.
  case_bool_decide; [|done]. subst. by destruct (H i).
Qed.

(** The connection a task will put in the pool, and what it says of it. *)
Definition carries (t : Task) : option (Protocol * nat * Z) :=
  match t with
  | Dropping (Some (p, _, c, g, _)) | Filing p _ c g _ | Pooling p _ c g => Some (p, c, g)
  | _ => None
  end.

Record counted (s : Pool) : Prop := {
  ct_fresh c n : pl_conns s !! c = Some n -> (c < pl_next_conn s)%nat;
  ct_riding i c : pl_tasks s !! i = Some (Riding c) -> is_Some (pl_conns s !! c);
  ct_borrows c n : pl_conns s !! c = Some n -> cn_borrows n = riders c (pl_tasks s) /\ cn_borrows n <= MAX_FLOWS_PER_CONNECTION;
  ct_carried i t p c g : pl_tasks s !! i = Some t -> carries t = Some (p, c, g) ->
    exists n, pl_conns s !! c = Some n /\ cn_protocol n = p;
  ct_ceiling p : connections_for p s <= MAX_CONNECTIONS_PER_PROTOCOL;
  ct_held c : c ∈ pl_held s -> is_Some (pl_conns s !! c);
}.

(** Changes of a connection that its flows do not see. *)
Definition quiet (f : Conn -> Conn) : Prop :=
  forall n, cn_borrows (f n) = cn_borrows n /\ cn_protocol (f n) = cn_protocol n.

Lemma quiet_close : quiet conn_close. Proof. done. Qed.
Lemma quiet_touch now : quiet (conn_touch now). Proof. done. Qed.
Lemma quiet_saturate : quiet conn_saturate. Proof. done. Qed.
Lemma quiet_paths count : quiet (conn_paths count). Proof. done. Qed.

(** The entries of the pool by what they are. *)
Lemma connections_for_alt p s :
  connections_for p s = len (base.filter (fun c => cn_protocol <$> pl_conns s !! c = Some p) (pl_held s)).
Proof.
  unfold connections_for, held_conns, len. f_equal.
  induction (pl_held s) as [|c l IH]; [done|]. rewrite filter_cons. cbn [omap list_omap]. destruct (pl_conns s !! c) as [n|]; cbn.
  - destruct (decide (cn_protocol n = p)) as [E|E]; [rewrite decide_True by (by rewrite E)|rewrite decide_False by congruence]; cbn; [f_equal|]; exact IH.
  - by rewrite decide_False by done.
Qed.

Lemma filter_ext_length {A} (P Q : A -> Prop) `{!forall x, Decision (P x), !forall x, Decision (Q x)} l :
  (forall x, P x -> Q x) -> (length (base.filter P l) <= length (base.filter Q l))%nat.
Proof.
  intros Himp. induction l as [|x l IH]; [done|]. rewrite !filter_cons.
  destruct (decide (P x)) as [Hp|Hp]; [rewrite decide_True by auto; cbn; lia|]. case_decide; cbn; lia.
Qed.

Lemma length_filter_sublist {A} (P : A -> Prop) `{!forall x, Decision (P x)} l k :
  sublist l k -> (length (base.filter P l) <= length (base.filter P k))%nat.
Proof. induction 1; rewrite ?filter_cons; repeat case_decide; cbn; lia. Qed.

(** A part of the pool holds no more than the pool. *)
Lemma connections_for_mono p s held conns next :
  sublist held (pl_held s) ->
  (forall c n, conns !! c = Some n -> exists n0, pl_conns s !! c = Some n0 /\ cn_protocol n0 = cn_protocol n) ->
  connections_for p (with_conns held conns next s) <= connections_for p s.
Proof.
  intros Hs Hc. rewrite !connections_for_alt. cbn. unfold len. apply inj_le.
  etrans; [|apply (length_filter_sublist _ _ _ Hs)].
  apply filter_ext_length. intros c. destruct (conns !! c) as [n|] eqn:E; [|done]. cbn. intros [= <-].
  destruct (Hc _ _ E) as (n0 & -> & <-). done.
Qed.

Lemma rode_none c t : (forall c', t <> Riding c') -> rode c (Some t) = 0.
Proof. intros H. destruct t; try done. by destruct (H c0). Qed.

Lemma counted_put s i t :
  counted s -> (forall c, rode c (pl_tasks s !! i) = 0) -> (forall c, t <> Riding c) ->
  (forall p c g, carries t = Some (p, c, g) -> exists n, pl_conns s !! c = Some n /\ cn_protocol n = p) ->
  counted (put i t s).
Proof.
  intros [H1 H2 H3 H4 H5 H6] Hr Ht Hc. split; cbn; try done.
  - intros j c. rewrite lookup_insert_Some. intros [[_ ->]|[_ H]]; [by destruct (Ht c)|eauto].
  - intros c n Hn. destruct (H3 _ _ Hn) as [-> Hm]. rewrite riders_put, Hr, rode_none by done. lia.
  - intros j u p c g. rewrite lookup_insert_Some. intros [[_ <-]|[_ H]]; eauto.
Qed.

Lemma counted_gone s i : counted s -> (forall c, rode c (pl_tasks s !! i) = 0) -> counted (gone i s).
Proof.
  intros [H1 H2 H3 H4 H5 H6] Hr. split; cbn; try done.
  - intros j c. rewrite lookup_delete_Some. intros [_ H]. eauto.
  - intros c n Hn. destruct (H3 _ _ Hn) as [-> Hm]. rewrite riders_gone, Hr. lia.
  - intros j t p c g. rewrite lookup_delete_Some. intros [_ H]. eauto.
Qed.

(** The part of the state that flows are counted in is the same. *)
Lemma counted_same s s' :
  counted s -> pl_conns s' = pl_conns s -> pl_next_conn s' = pl_next_conn s -> pl_tasks s' = pl_tasks s ->
  pl_held s' = pl_held s -> counted s'.
Proof.
  intros [H1 H2 H3 H4 H5 H6] E1 E2 E3 E4. split; rewrite ?E1, ?E2, ?E3; try done.
  - intros p. rewrite connections_for_alt, E1, E4, <- connections_for_alt. apply H5.
  - by rewrite E4.
Qed.

(** Connections changed quietly, and entries dropped. *)
Lemma counted_conns s held conns :
  counted s -> sublist held (pl_held s) ->
  (forall c, (fun n => (cn_borrows n, cn_protocol n)) <$> conns !! c =
             (fun n => (cn_borrows n, cn_protocol n)) <$> pl_conns s !! c) ->
  counted (with_conns held conns (pl_next_conn s) s).
Proof.
  intros [H1 H2 H3 H4 H5 H6] Hs Hq.
  assert (forall c n, conns !! c = Some n -> exists n0, pl_conns s !! c = Some n0 /\
            cn_borrows n0 = cn_borrows n /\ cn_protocol n0 = cn_protocol n) as Hb.
  { intros c n Hn. specialize (Hq c). rewrite Hn in Hq. destruct (pl_conns s !! c) as [n0|]; [|done].
    injection Hq as ? ?. by exists n0. }
  assert (forall c n, pl_conns s !! c = Some n -> exists n0, conns !! c = Some n0 /\ cn_protocol n0 = cn_protocol n) as Hf.
  { intros c n Hn. specialize (Hq c). rewrite Hn in Hq. destruct (conns !! c) as [n0|]; [|done].
    injection Hq as ? ?. by exists n0. }
  split; cbn.
  - intros c n Hn. destruct (Hb _ _ Hn) as (n0 & H0 & _). eauto.
  - intros i c Hi. destruct (H2 _ _ Hi) as [n Hn]. destruct (Hf _ _ Hn) as (n0 & -> & _). by eexists.
  - intros c n Hn. destruct (Hb _ _ Hn) as (n0 & H0 & <- & _). eauto.
  - intros i t p c g Hi Hc. destruct (H4 _ _ _ _ _ Hi Hc) as (n & Hn & <-). destruct (Hf _ _ Hn) as (n0 & -> & <-). eauto.
  - intros p. etrans; [|apply (H5 p)]. apply connections_for_mono; [done|].
    intros c n Hn. destruct (Hb _ _ Hn) as (n0 & H0 & _ & ?). eauto.
  - intros c Hc. destruct (H6 c) as [n Hn]; [by eapply elem_of_sublist|]. destruct (Hf _ _ Hn) as (n0 & -> & _). by eexists.
Qed.

Lemma counted_conn s f c : quiet f -> counted s -> counted (with_conn f c s).
Proof.
  intros Hq Hc. apply counted_conns; [done|done|]. intros c'. destruct (decide (c = c')) as [<-|Hne].
  - rewrite lookup_alter_eq. destruct (pl_conns s !! c) as [n|]; [|done]. cbn. by destruct (Hq n) as [-> ->].
  - by rewrite lookup_alter_ne.
Qed.

Lemma lookup_close_all l (m : gmap nat Conn) c :
  foldr (fun c m => alter conn_close c m) m l !! c = (if decide (c ∈ l) then conn_close else id) <$> m !! c.
Proof.
  induction l as [|d l IH]; cbn; [by rewrite decide_False, option_fmap_id by set_solver|].
  destruct (decide (d = c)) as [->|Hne].
  - rewrite lookup_alter_eq, IH, (decide_True (P := c ∈ c :: l)) by (by left).
    destruct (m !! c) as [n|]; cbn; [|done]. by case_decide.
  - rewrite lookup_alter_ne, IH by done.
    assert (c ∈ d :: l <-> c ∈ l) as Hiff by set_solver. by repeat case_decide; naive_solver.
Qed.

Lemma counted_closed s held l :
  counted s -> sublist held (pl_held s) ->
  counted (with_conns held (foldr (fun c m => alter conn_close c m) (pl_conns s) l) (pl_next_conn s) s).
Proof.
  intros Hc Hs. apply counted_conns; [done|done|]. intros c. rewrite lookup_close_all.
  destruct (pl_conns s !! c); [|done]. by case_decide.
Qed.

Lemma counted_stale s now : counted s -> counted (drop_stale_connections now s).
Proof. intros Hc. apply counted_closed; [done|]. apply sublist_filter. Qed.

Lemma counted_drop s : counted s -> counted (drop_connections s).
Proof. intros Hc. apply counted_closed; [done|]. apply sublist_nil_l. Qed.

Lemma counted_new_conn s p who g now : counted s -> counted (new_conn p who g now s).
Proof.
  intros [H1 H2 H3 H4 H5 H6].
  assert (pl_conns s !! pl_next_conn s = None) as Hn.
  { destruct (pl_conns s !! pl_next_conn s) as [n|] eqn:E; [|done]. apply H1 in E. lia. }
  split; cbn.
  - intros c n. rewrite lookup_insert_Some. intros [[<- _]|[_ H]]; [lia|]. apply H1 in H. lia.
  - intros i c Hi. destruct (H2 _ _ Hi) as [n ?]. rewrite lookup_insert_ne by congruence. eauto.
  - intros c n. rewrite lookup_insert_Some. intros [[<- <-]|[_ H]]; [|eauto]. cbn. split; [|done].
    symmetry. apply riders_none. intros i Hi. destruct (H2 _ _ Hi) as [n ?]. congruence.
  - intros i t p' c g' Hi Hc. destruct (H4 _ _ _ _ _ Hi Hc) as (n & Hc' & <-). exists n.
    rewrite lookup_insert_ne by congruence. done.
  - intros q. rewrite connections_for_alt. specialize (H5 q). rewrite connections_for_alt in H5. etrans; [|exact H5].
    cbn. unfold len. apply inj_le.
    assert (forall l, (forall c, c ∈ l -> is_Some (pl_conns s !! c)) ->
      (length (base.filter (fun c => cn_protocol <$> <[pl_next_conn s := conn_new p who g now]> (pl_conns s) !! c = Some q) l)
       <= length (base.filter (fun c => cn_protocol <$> pl_conns s !! c = Some q) l))%nat) as Hl; [|apply Hl, H6].
    induction l as [|c l IH]; intros Hk; [done|]. rewrite !filter_cons.
    rewrite lookup_insert_ne by (destruct (Hk c) as [n ?]; [by left|congruence]).
    assert (IH' := IH ltac:(intros d Hd; apply Hk; by right)). case_decide; cbn; lia.
  - intros c Hc. destruct (H6 c Hc) as [n ?]. rewrite lookup_insert_ne by congruence. eauto.
Qed.

Lemma riders_same c m i t : m !! i = Some t -> (forall c', t <> Riding c') -> riders c (delete i m) = riders c m.
Proof. intros Hi Ht. rewrite riders_gone, Hi, rode_none by done. lia. Qed.

(** A flow gets on. *)
Lemma counted_ride s i c n now n' :
  counted s -> (forall c, rode c (pl_tasks s !! i) = 0) -> pl_conns s !! c = Some n -> try_borrow now n = Some n' ->
  counted (put i (Riding c) (with_conns (pl_held s) (<[c := n']> (pl_conns s)) (pl_next_conn s) s)).
Proof.
  intros [H1 H2 H3 H4 H5 H6] Hr Hc Ht. unfold try_borrow in Ht. destruct (cn_saturated n); [done|].
  destruct (MAX_FLOWS_PER_CONNECTION <=? cn_borrows n) eqn:Em; [done|]. apply Z.leb_gt in Em. injection Ht as <-.
  set (n' := conn_touch now (conn_with_borrows (cn_borrows n + 1) n)).
  assert (forall d, is_Some (pl_conns s !! d) -> is_Some (<[c := n']> (pl_conns s) !! d)) as Hk.
  { intros d [x ?]. destruct (decide (c = d)) as [<-|]; [rewrite lookup_insert_eq|rewrite lookup_insert_ne by done]; eauto. }
  split; cbn.
  - intros d x. rewrite lookup_insert_Some. intros [[<- _]|[_ H]]; eauto.
  - intros j d. rewrite lookup_insert_Some. intros [[_ [= <-]]|[_ H]]; [rewrite lookup_insert_eq; eauto|]. eauto.
  - intros d x. rewrite riders_put, Hr, lookup_insert_Some. intros [[<- <-]|[Hne H]]; cbn.
    + rewrite bool_decide_eq_true_2 by done. destruct (H3 _ _ Hc) as [<- _]. lia.
    + rewrite bool_decide_eq_false_2 by congruence. destruct (H3 _ _ H) as [<- ?]. lia.
  - intros j t p d g. rewrite lookup_insert_Some. intros [[_ <-]|[_ H]]; [done|]. intros Hcar.
    destruct (H4 _ _ _ _ _ H Hcar) as (x & Hx & <-). destruct (decide (c = d)) as [<-|Hne].
    + exists n'. rewrite lookup_insert_eq. split; [done|]. assert (x = n) as -> by congruence. done.
    + exists x. by rewrite lookup_insert_ne.
  - intros p. etrans; [|apply (H5 p)].
    apply (connections_for_mono p s (pl_held s) (<[c := n']> (pl_conns s)) (pl_next_conn s)); [done|].
    intros d x. rewrite lookup_insert_Some. intros [[<- <-]|[_ H]]; eauto.
  - intros d Hd. auto.
Qed.

(** A flow gets off. *)
Lemma counted_release s i c : counted s -> pl_tasks s !! i = Some (Riding c) -> counted (on_release i c s).
Proof.
  intros Hs Hi. destruct (ct_riding _ Hs _ _ Hi) as [n Hn]. destruct (ct_borrows _ Hs _ _ Hn) as [Hb Hm].
  unfold on_release. rewrite Hn. cbn [fmap option_fmap option_map]. unfold release.
  assert (1 <= riders c (pl_tasks s)) as Hpos.
  { pose proof (riders_gone c i (pl_tasks s)) as H. rewrite Hi in H. cbn in H. rewrite bool_decide_eq_true_2 in H by done.
    unfold riders in *. lia. }
  rewrite (proj2 (Z.eqb_neq _ _)) by lia. set (n' := conn_with_borrows (cn_borrows n - 1) n).
  set (s1 := with_conns (pl_held s) (<[c := n']> (pl_conns s)) (pl_next_conn s) s).
  assert (forall m, (forall d, riders d m = riders d (delete i (pl_tasks s))) ->
    (forall j d, m !! j = Some (Riding d) -> exists j', pl_tasks s !! j' = Some (Riding d)) ->
    (forall j t q, m !! j = Some t -> carries t = Some q -> pl_tasks s !! j = Some t) -> counted (with_tasks m s1)) as Hgo.
  { intros m Hr Hrid Hcar. destruct Hs as [H1 H2 H3 H4 H5 H6].
    assert (forall d, is_Some (pl_conns s !! d) -> is_Some (<[c := n']> (pl_conns s) !! d)) as Hk.
    { intros d [x ?]. destruct (decide (c = d)) as [<-|]; [rewrite lookup_insert_eq|rewrite lookup_insert_ne by done]; eauto. }
    split; cbn.
    - intros d x. rewrite lookup_insert_Some. intros [[<- _]|[_ H]]; eauto.
    - intros j d Hj. apply Hrid in Hj as [j' Hj]. eauto.
    - intros d x. rewrite Hr, riders_gone, Hi, lookup_insert_Some. intros [[<- <-]|[Hne H]]; cbn.
      + rewrite bool_decide_eq_true_2 by done. lia.
      + rewrite bool_decide_eq_false_2 by congruence. destruct (H3 _ _ H) as [<- ?]. lia.
    - intros j t p d g Hj Hc. pose proof (Hcar _ _ _ Hj Hc) as Hj'. destruct (H4 _ _ _ _ _ Hj' Hc) as (x & Hx & <-).
      destruct (decide (c = d)) as [<-|Hne].
      + exists n'. rewrite lookup_insert_eq. split; [done|]. by assert (x = n) as -> by congruence.
      + exists x. by rewrite lookup_insert_ne.
    - intros p. etrans; [|apply (H5 p)].
      apply (connections_for_mono p s (pl_held s) (<[c := n']> (pl_conns s)) (pl_next_conn s)); [done|].
      intros d x. rewrite lookup_insert_Some. intros [[<- <-]|[_ H]]; eauto.
    - auto. }
  destruct (cn_borrows n =? 1); apply Hgo; cbn.
  - intros d. rewrite riders_put, riders_gone. cbn. lia.
  - intros j d. rewrite lookup_insert_Some. intros [[_ ?]|[_ ?]]; [done|eauto].
  - intros j t q. rewrite lookup_insert_Some. intros [[_ <-]|[_ ?]]; [done|eauto].
  - done.
  - intros j d. rewrite lookup_delete_Some. intros [_ ?]. eauto.
  - intros j t q. rewrite lookup_delete_Some. by intros [_ ?].
Qed.

Lemma counted_pooled s c p n :
  counted s -> pl_conns s !! c = Some n -> cn_protocol n = p -> may_pool p s = true -> counted (with_held (pl_held s ++ [c]) s).
Proof.
  intros [H1 H2 H3 H4 H5 H6] Hc Hp Hm. split; cbn; try done.
  - intros q. specialize (H5 q). unfold may_pool in Hm. apply Z.ltb_lt in Hm. rewrite connections_for_alt in *.
    cbn. rewrite filter_app, len_app. rewrite filter_cons, filter_nil, Hc. cbn.
    case_decide as E; [|rewrite len_nil; lia]. injection E as E. rewrite <- E, Hp in *. change (len [c]) with 1. lia.
  - intros d. rewrite elem_of_app, list_elem_of_singleton. intros [H| ->]; eauto.
Qed.

Lemma counted_finish s i p k o : counted s -> (forall c, rode c (pl_tasks s !! i) = 0) -> counted (finish i p k o s).
Proof. intros Hs Hr. destruct k; [by apply counted_put|by apply counted_gone]. Qed.

Lemma held_conns_spec s c n : (c, n) ∈ held_conns s <-> c ∈ pl_held s /\ pl_conns s !! c = Some n.
Proof.
  unfold held_conns. rewrite list_elem_of_omap. split.
  - intros (d & Hd & H). apply fmap_Some in H as (x & Hx & [= -> ->]). done.
  - intros [Hd Hn]. exists c. by rewrite Hn.
Qed.

Lemma least_in l c n : least l = Some (c, n) -> (c, n) ∈ l.
Proof.
  induction l as [|[d x] l IH]; cbn; [done|]. destruct (least l) as [[d' x']|].
  - case_match; intros [= <- <-]; [right; by apply IH|by left].
  - intros [= <- <-]. by left.
Qed.

Lemma counted_borrow s i p now : counted s -> (forall c, rode c (pl_tasks s !! i) = 0) -> counted (on_borrow i p now s).
Proof.
  intros Hs Hr. apply (counted_stale _ now) in Hs. unfold on_borrow. set (s1 := drop_stale_connections now s) in *.
  destruct (least _) as [[c n]|] eqn:El; [|by apply counted_put].
  apply least_in in El. apply list_elem_of_filter in El as [_ El]. apply held_conns_spec in El as [_ Hc].
  destruct (try_borrow now n) as [n'|] eqn:Et; [|by apply counted_put]. by eapply counted_ride.
Qed.

Lemma counted_pool s i p k c g :
  counted s -> pl_tasks s !! i = Some (Pooling p k c g) -> counted (on_pool i p k c g s).
Proof.
  intros Hs Hi. destruct (ct_carried _ Hs _ _ p c g Hi eq_refl) as (n & Hn & Hp).
  unfold on_pool, pool_connection. rewrite Hn.
  destruct (cn_closed n); [apply counted_finish; [done|intros; by rewrite Hi]|].
  destruct (negb _); [apply counted_finish; [by apply counted_conn|intros; cbn; by rewrite Hi]|].
  destruct (may_pool p s) eqn:Em; apply counted_finish; try (intros; cbn; by rewrite Hi); [by eapply counted_pooled|by apply counted_conn].
Qed.

Lemma counted_slot s i p : counted s -> (forall c, rode c (pl_tasks s !! i) = 0) -> counted (on_slot i p s).
Proof. intros Hs Hr. unfold on_slot. case_match; apply counted_put; try done. by eapply counted_same. Qed.

Lemma counted_clear s i p ch o : counted s -> (forall c, rode c (pl_tasks s !! i) = 0) -> counted (on_clear i p ch o s).
Proof.
  intros Hs Hr. assert (counted (clear_dial_slot p ch s) /\ pl_tasks (clear_dial_slot p ch s) = pl_tasks s) as [Hc Ht].
  { unfold clear_dial_slot. repeat case_match; split; try done. by eapply counted_same. }
  unfold on_clear. destruct o as [[c|e]|]; first [apply counted_put|apply counted_gone]; rewrite ?Ht; done.
Qed.

Lemma counted_write s auth : counted s -> counted (write_credential auth s).1.
Proof. intros Hs. by eapply counted_same. Qed.

Lemma counted_enrolled s i p k a now :
  counted s -> (forall c, rode c (pl_tasks s !! i) = 0) -> counted (on_enrolled i p k a now s).
Proof.
  intros Hs Hr. unfold on_enrolled. cbn. apply counted_put; cbn; try done.
  - by apply counted_new_conn, (counted_write s (Some a)).
  - intros c. by destruct (identity_changed _ _).
  - intros q c g H. exists (conn_new p (Some (identity a)) (pl_generation (write_credential (Some a) s).1) now).
    cbn. destruct (identity_changed _ _); cbn in H; injection H as <- <- _; by rewrite lookup_insert_eq.
Qed.

Lemma counted_step now s s' : counted s -> pool_step now s s' -> counted s'.
Proof.
  intros Hs [i p Hi|i Hi _|i p Hi|i p Hi|i p k Hi _|i t p k e Hi Hf|i p k Hi|i p k who g Hi|i p k a Hi _|i auth Hi _|i th Hi|i p k c g a Hi
    |i p k c g Hi|i p ch o Hi|i p ch o x Hi _ _|i p ch x Hi _ _ _|i p ch o Hi|i p c Hi|i c Hi|i c Hi|i c Hi| | |owns|e|c|c count].
  all: try (assert (forall d, rode d (pl_tasks s !! i) = 0) as Hr by (intros; rewrite Hi; try done; by destruct t)).
  all: eauto using counted_put, counted_borrow, counted_slot, counted_finish, counted_enrolled, counted_pool, counted_clear,
         counted_release, counted_conn, counted_stale, counted_drop, quiet_close, quiet_touch, quiet_saturate, quiet_paths.
  - by apply counted_put.
  - by apply counted_put.
  - unfold on_connect. case_match; by apply counted_put.
  - by apply counted_put.
  - unfold on_shaken. apply counted_put; [by apply counted_new_conn|done..|]. cbn. intros q c g' [= <- <- _].
    rewrite lookup_insert_eq. eauto.
  - pose proof (counted_write s auth Hs) as Hw. unfold on_write. cbn in *. destruct (identity_changed _ _); [|done].
    by apply counted_put.
  - unfold on_drop. pose proof (counted_drop _ Hs) as Hd.
    destruct th as [[[[[p k] c] g] a]|]; [|by apply counted_gone]. apply counted_put; try done.
    cbn. intros q d g' [= <- <- _]. rewrite lookup_close_all.
    destruct (ct_carried _ Hs _ _ p c g Hi eq_refl) as (n & -> & Hp). case_decide; eexists; (split; [done|exact Hp]).
  - unfold on_file. apply counted_put; try done; [by eapply counted_same|]. cbn. intros q d g' [= <- <- _].
    apply (ct_carried _ Hs _ _ p c g Hi eq_refl).
  - unfold on_tell. apply counted_put; try done. by eapply counted_same.
  - by apply counted_put.
  - by apply counted_put.
  - unfold on_ride. destruct (pl_conns s !! c) as [n|] eqn:Ec; cbn; [|by apply counted_put].
    destruct (try_borrow now n) as [n'|] eqn:Et; [by eapply counted_ride|by apply counted_put].
  - apply counted_gone; [by apply counted_conn, Hs|done].
  - unfold on_close_all. by eapply counted_same; [apply counted_drop, Hs|..].
  - by eapply counted_same.
Qed.

Lemma counted_cancel s i : counted s -> counted (on_cancel i s).
Proof.
  intros Hs. unfold on_cancel. destruct (pl_tasks s !! i) as [t|] eqn:Hi; [|done].
  assert ((exists c, t = Riding c) \/ forall c, t <> Riding c) as [[c ->]|Ht] by (destruct t; naive_solver).
  - by apply counted_release.
  - assert (forall c, rode c (pl_tasks s !! i) = 0) as Hr by (intros; rewrite Hi; by apply rode_none).
    assert (forall f ch, counted (gone i (with_channel f ch s))) by (intros; apply counted_gone; [by eapply counted_same|done]).
    pose proof (counted_gone _ _ Hs Hr). destruct t; cbn; try done; try by destruct (Ht c); repeat case_match.
    all: by repeat case_match.
Qed.

Lemma counted_run calm s : pool_run calm s -> counted s.
Proof.
  induction 1 as [|now s s' _ IH Hs|i s _ IH _]; [|by eapply counted_step|by apply counted_cancel].
  split; cbn; try done; by intros; try set_solver.
Qed.

(** ** Connections stand for the credential's identity *)

(** [who] is the identity of each generation of the credential. *)
Record stands (who : Z -> option Identity) (s : Pool) : Prop := {
  st_slot : identity <$> pl_slot s = who (pl_generation s);
  st_range : 0 <= pl_generation s < 2 ^ 64;
  st_shaking i p k w g : pl_tasks s !! i = Some (Shaking p k w g) -> w = who g /\ g <= pl_generation s;
  st_conn c n : pl_conns s !! c = Some n -> cn_identity n = who (cn_generation n) /\ cn_generation n <= pl_generation s;
  st_carried i t p c g n : pl_tasks s !! i = Some t -> carries t = Some (p, c, g) -> pl_conns s !! c = Some n ->
    cn_generation n = g;
  st_held c n : c ∈ pl_held s -> pl_conns s !! c = Some n -> cn_closed n = false ->
    cn_generation n = pl_generation s \/ exists i th, pl_tasks s !! i = Some (Dropping th);
}.

(** A task that is not dropping connections moves on. *)
Lemma stands_put who s i t :
  stands who s -> (forall th, pl_tasks s !! i <> Some (Dropping th)) ->
  (forall p k w g, t = Shaking p k w g -> w = who g /\ g <= pl_generation s) ->
  (forall p c g n, carries t = Some (p, c, g) -> pl_conns s !! c = Some n -> cn_generation n = g) ->
  stands who (put i t s).
Proof.
  intros [H1 H2 H3 H4 H5 H6] Hd Hs Hc. split; cbn; try done.
  - intros j p k w g. rewrite lookup_insert_Some. intros [[_ H]|[_ H]]; eauto.
  - intros j u p c g n. rewrite lookup_insert_Some. intros [[_ <-]|[_ H]]; eauto.
  - intros c n Hin Hn Hcl. destruct (H6 _ _ Hin Hn Hcl) as [?|(j & th & Hj)]; [by left|right]. exists j, th.
    rewrite lookup_insert_ne; [done|]. intros ->. by destruct (Hd th).
Qed.

Lemma stands_gone who s i :
  stands who s -> (forall th, pl_tasks s !! i <> Some (Dropping th)) -> stands who (gone i s).
Proof.
  intros [H1 H2 H3 H4 H5 H6] Hd. split; cbn; try done.
  - intros j p k w g. rewrite lookup_delete_Some. intros [_ H]; eauto.
  - intros j u p c g n. rewrite lookup_delete_Some. intros [_ H]; eauto.
  - intros c n Hin Hn Hcl. destruct (H6 _ _ Hin Hn Hcl) as [?|(j & th & Hj)]; [by left|right]. exists j, th.
    rewrite lookup_delete_ne; [done|]. intros ->. by destruct (Hd th).
Qed.

Lemma stands_same who s s' :
  stands who s -> pl_slot s' = pl_slot s -> pl_generation s' = pl_generation s -> pl_conns s' = pl_conns s ->
  pl_tasks s' = pl_tasks s -> pl_held s' = pl_held s -> stands who s'.
Proof. intros [H1 H2 H3 H4 H5 H6] E1 E2 E3 E4 E5. split; rewrite ?E1, ?E2, ?E3, ?E4, ?E5; done. Qed.

(** Connections changed otherwise than in what they stand for, none reopened. *)
Lemma stands_conns who s held conns next :
  stands who s ->
  (forall c n, conns !! c = Some n -> exists n0, pl_conns s !! c = Some n0 /\ cn_identity n = cn_identity n0 /\
     cn_generation n = cn_generation n0 /\ (cn_closed n = false -> cn_closed n0 = false)) ->
  (forall c n, c ∈ held -> conns !! c = Some n -> cn_closed n = false -> c ∈ pl_held s) ->
  stands who (with_conns held conns next s).
Proof.
  intros [H1 H2 H3 H4 H5 H6] Hc Hh. split; cbn; try done.
  - intros c n Hn. destruct (Hc _ _ Hn) as (n0 & H0 & -> & -> & _). eauto.
  - intros i t p c g n Hi Hcar Hn. destruct (Hc _ _ Hn) as (n0 & H0 & _ & -> & _). eauto.
  - intros c n Hin Hn Hcl. destruct (Hc _ _ Hn) as (n0 & H0 & _ & -> & Ho). eauto.
Qed.

(** What a change of a connection leaves alone. *)
Definition faithful (f : Conn -> Conn) : Prop :=
  forall n, cn_identity (f n) = cn_identity n /\ cn_generation (f n) = cn_generation n /\
    (cn_closed (f n) = false -> cn_closed n = false).

Lemma stands_conn who s f c : faithful f -> stands who s -> stands who (with_conn f c s).
Proof.
  intros Hf Hs. apply stands_conns; [done| |done]. intros d n. destruct (decide (c = d)) as [<-|Hne].
  - rewrite lookup_alter_eq. intros (x & Hx & ->)%fmap_Some. exists x. by destruct (Hf x) as (-> & -> & ?).
  - rewrite lookup_alter_ne by done. eauto.
Qed.

Lemma stands_insert who s c n n' :
  stands who s -> pl_conns s !! c = Some n -> cn_identity n' = cn_identity n -> cn_generation n' = cn_generation n ->
  cn_closed n' = cn_closed n -> stands who (with_conns (pl_held s) (<[c := n']> (pl_conns s)) (pl_next_conn s) s).
Proof.
  intros Hs Hn E1 E2 E3. apply stands_conns; [done| |done]. intros d x. rewrite lookup_insert_Some.
  intros [[<- <-]|[_ H]]; [|eauto]. exists n. by rewrite E1, E2, E3.
Qed.

Lemma stands_closed who s held l :
  stands who s -> sublist held (pl_held s) ->
  stands who (with_conns held (foldr (fun c m => alter conn_close c m) (pl_conns s) l) (pl_next_conn s) s).
Proof.
  intros Hs Hl. apply stands_conns; [done| |].
  - intros c n. rewrite lookup_close_all. intros (x & Hx & ->)%fmap_Some. exists x. split; [done|]. by case_decide.
  - intros c n Hc _ _. by eapply elem_of_sublist.
Qed.

Lemma stands_stale who s now : stands who s -> stands who (drop_stale_connections now s).
Proof. intros Hs. apply stands_closed; [done|]. apply sublist_filter. Qed.

(** With nothing held, no drop is owed. *)
Lemma stands_drop who s i :
  stands who s -> stands who (gone i (drop_connections s)).
Proof.
  intros Hs. pose proof (stands_closed who s [] (pl_held s) Hs (sublist_nil_l _)) as [H1 H2 H3 H4 H5 H6].
  split; cbn in *; try done.
  - intros j p k w g. rewrite lookup_delete_Some. intros [_ H]; eauto.
  - intros j u p c g n. rewrite lookup_delete_Some. intros [_ H]; eauto.
  - set_solver.
Qed.

Lemma put_gone i t s : put i t (gone i s) = put i t s.
Proof. unfold put, gone, with_tasks. cbn. by rewrite insert_delete_eq. Qed.

(** A handshake for a generation that has been. *)
Lemma stands_new_conn who s p w g now :
  stands who s -> counted s -> w = who g -> g <= pl_generation s -> stands who (new_conn p w g now s).
Proof.
  intros [H1 H2 H3 H4 H5 H6] Hs Hw Hg.
  assert (forall c, is_Some (pl_conns s !! c) -> pl_next_conn s <> c) as Hne.
  { intros c [n Hn] <-. pose proof (ct_fresh _ Hs _ _ Hn). lia. }
  split; cbn; try done.
  - intros c n. rewrite lookup_insert_Some. intros [[_ <-]|[_ H]]; [done|eauto].
  - intros i t q c g' n Hi Hc. destruct (ct_carried _ Hs _ _ _ _ _ Hi Hc) as (x & Hx & _).
    rewrite lookup_insert_ne by (apply Hne; eauto). eauto.
  - intros c n Hc. rewrite lookup_insert_ne by (apply Hne, (ct_held _ Hs); eauto). eauto.
Qed.

(** A drop that is owed stays owed. *)
Lemma stands_owing who s i th :
  stands who s -> (forall p c g n, carries (Dropping th) = Some (p, c, g) -> pl_conns s !! c = Some n -> cn_generation n = g) ->
  stands who (put i (Dropping th) s).
Proof.
  intros [H1 H2 H3 H4 H5 H6] Hc. split; cbn; try done.
  - intros j p k w g. rewrite lookup_insert_Some. intros [[_ H]|[_ H]]; [done|eauto].
  - intros j u p c g n. rewrite lookup_insert_Some. intros [[_ <-]|[_ H]]; eauto.
  - intros c n _ _ _. right. exists i, th. apply lookup_insert_eq.
Qed.

(** Another identity: the next generation is its. *)
Lemma stands_write who s auth :
  stands who s -> writable auth s ->
  (identity_changed (pl_slot s) auth = true -> exists i th, pl_tasks s !! i = Some (Dropping th)) ->
  exists who', stands who' (write_credential auth s).1.
Proof.
  intros Hs Hw Hd. destruct (identity_changed (pl_slot s) auth) eqn:E.
  - destruct (Hd eq_refl) as (i & th & Hi). destruct Hs as [H1 H2 H3 H4 H5 H6]. specialize (Hw E).
    exists (fun g => if g =? pl_generation s + 1 then identity <$> auth else who g).
    assert (forall g, g <= pl_generation s -> (g =? pl_generation s + 1) = false) as Hg by (intros; lia).
    unfold write_credential. rewrite E.
    assert (wrapping 64 (pl_generation s + 1) = pl_generation s + 1) as Hwr by (apply Z.mod_small; lia).
    split; cbn; rewrite ?Hwr; try done.
    + by rewrite Z.eqb_refl.
    + lia.
    + intros j p k w g Hj. destruct (H3 _ _ _ _ _ Hj) as [-> Hle]. rewrite Hg by done. split; [done|lia].
    + intros c n Hn. destruct (H4 _ _ Hn) as [-> Hle]. rewrite Hg by done. split; [done|lia].
    + intros c n _ _ _. right. eauto.
  - exists who. unfold write_credential. rewrite E. unfold identity_changed in E. apply negb_false_iff, bool_decide_eq_true in E.
    destruct Hs as [H1 H2 H3 H4 H5 H6]. split; cbn; try done. by rewrite <- E.
Qed.

Lemma stands_pool who s i p k c g :
  stands who s -> pl_tasks s !! i = Some (Pooling p k c g) -> stands who (on_pool i p k c g s).
Proof.
  intros Hs Hi. assert (forall s' o, stands who s' -> pl_tasks s' = pl_tasks s -> stands who (finish i p k o s')) as Hf.
  { intros s' o Hs' E. destruct k; [apply stands_put|apply stands_gone]; try done; by rewrite E, Hi. }
  unfold on_pool, pool_connection. destruct (pl_conns s !! c) as [n|] eqn:Hn; [|by apply Hf].
  destruct (cn_closed n); [by apply Hf|]. destruct (pl_generation s =? g) eqn:Eg; cbn [negb].
  - destruct (may_pool p s); apply Hf; try done; [|by apply stands_conn].
    destruct Hs as [H1 H2 H3 H4 H5 H6]. split; cbn; try done. intros d x. rewrite elem_of_app, list_elem_of_singleton.
    intros [Hin| ->] Hx Hcl; [eauto|]. left. rewrite (H5 _ _ p c g _ Hi eq_refl Hx). lia.
  - apply Hf; [|done]. by apply stands_conn.
Qed.

Lemma stands_release who s i c :
  stands who s -> pl_tasks s !! i = Some (Riding c) -> stands who (on_release i c s).
Proof.
  intros Hs Hi. unfold on_release. destruct (pl_conns s !! c) as [n|] eqn:Hn; cbn; [|apply stands_gone; [done|by rewrite Hi]].
  destruct (release n) as [n' last] eqn:Er.
  assert (stands who (with_conns (pl_held s) (<[c := n']> (pl_conns s)) (pl_next_conn s) s)).
  { eapply stands_insert; [done|done|..]; unfold release in Er; destruct (_ =? 0); by injection Er as <- _. }
  destruct last; [apply stands_put|apply stands_gone]; try done; cbn; by rewrite Hi.
Qed.

Lemma stands_ride who s i c n now n' :
  stands who s -> (forall th, pl_tasks s !! i <> Some (Dropping th)) -> pl_conns s !! c = Some n -> try_borrow now n = Some n' ->
  stands who (put i (Riding c) (with_conns (pl_held s) (<[c := n']> (pl_conns s)) (pl_next_conn s) s)).
Proof.
  intros Hs Hd Hn Ht. apply stands_put; try done. eapply stands_insert; [done|done|..]; unfold try_borrow in Ht;
    repeat case_match; try done; by injection Ht as <-.
Qed.

Lemma stands_borrow who s i p now :
  stands who s -> (forall th, pl_tasks s !! i <> Some (Dropping th)) -> stands who (on_borrow i p now s).
Proof.
  intros Hs Hd. apply (stands_stale _ _ now) in Hs. unfold on_borrow. set (s1 := drop_stale_connections now s) in *.
  destruct (least _) as [[c n]|] eqn:El; [|by apply stands_put].
  apply least_in in El. apply list_elem_of_filter in El as [_ El]. apply held_conns_spec in El as [_ Hc].
  destruct (try_borrow now n) as [n'|] eqn:Et; [|by apply stands_put]. by eapply stands_ride.
Qed.

(** The connection an invitation was spent on is the new identity's. *)
Lemma stands_granted who s p a now :
  stands who s -> counted s -> writable (Some a) s ->
  (identity_changed (pl_slot s) (Some a) = true -> exists i th, pl_tasks s !! i = Some (Dropping th)) ->
  let s1 := (write_credential (Some a) s).1 in
  exists who', stands who' (new_conn p (Some (identity a)) (pl_generation s1) now s1).
Proof.
  intros Hs Hc Hw Hd s1. destruct (stands_write who s (Some a) Hs Hw Hd) as [who' H1].
  exists who'. apply stands_new_conn; [done|by apply counted_write|apply (st_slot _ _ H1)|done].
Qed.

Lemma stands_enrolled who s i p k a now :
  stands who s -> counted s -> pl_tasks s !! i = Some (Enrolling p k) -> writable (Some a) s ->
  exists who', stands who' (on_enrolled i p k a now s).
Proof.
  intros Hs Hc Hi Hw. unfold on_enrolled. cbn. destruct (identity_changed (pl_slot s) (Some a)) eqn:E.
  - assert (counted (put i (Dropping None) s)) as Hc1 by (apply counted_put; try done; intros; by rewrite Hi).
    destruct (stands_granted who (put i (Dropping None) s) p a now) as [who' H]; [by apply stands_owing|done|done| |].
    { intros _. exists i, None. apply lookup_insert_eq. }
    exists who'. cbn in H. rewrite E in H. apply (stands_owing who' _ i (Some (p, k, pl_next_conn s, wrapping 64 (pl_generation s + 1), a))) in H.
    + unfold put, with_tasks in *. cbn in *. by rewrite insert_insert_eq in H.
    + cbn. intros q c g n [= <- <- <-]. rewrite lookup_insert_eq. by intros [= <-].
  - destruct (stands_granted who s p a now Hs Hc Hw) as [who' H]; [by rewrite E|]. exists who'. cbn in H. rewrite E in H.
    apply stands_put; [done|cbn; by rewrite Hi|done|]. cbn. intros q c g n [= <- <- <-]. rewrite lookup_insert_eq. by intros [= <-].
Qed.

Lemma stands_written who s i auth :
  stands who s -> pl_tasks s !! i = None -> writable auth s -> exists who', stands who' (on_write i auth s).
Proof.
  intros Hs Hi Hw. unfold on_write. cbn. destruct (identity_changed (pl_slot s) auth) eqn:E.
  - destruct (stands_write who (put i (Dropping None) s) auth) as [who' H]; [by apply stands_owing|done| |].
    { intros _. exists i, None. apply lookup_insert_eq. }
    exists who'. unfold write_credential in H. cbn in H. by rewrite E in H.
  - destruct (stands_write who s auth Hs Hw) as [who' H]; [by rewrite E|]. exists who'. unfold write_credential in H. cbn in H. by rewrite E in H.
Qed.

Lemma stands_step now s s' who : counted s -> stands who s -> pool_step now s s' -> exists who', stands who' s'.
Proof.
  intros Hc Hs [i p Hi|i Hi _|i p Hi|i p Hi|i p k Hi _|i t p k e Hi Hf|i p k Hi|i p k w g Hi|i p k a Hi Hw|i auth Hi Hw|i th Hi|i p k c g a Hi
    |i p k c g Hi|i p ch o Hi|i p ch o x Hi _ _|i p ch x Hi _ _ _|i p ch o Hi|i p c Hi|i c Hi|i c Hi|i c Hi| | |owns|e|c|c count].
  all: try (assert (forall th, pl_tasks s !! i <> Some (Dropping th)) as Hd by (intros th; rewrite Hi; try done; by destruct t)).
  all: eauto using stands_borrow, stands_enrolled, stands_written, stands_pool, stands_release, stands_stale.
  all: exists who.
  - by apply stands_put.
  - by apply stands_put.
  - unfold on_slot. case_match; apply stands_put; try done. by eapply stands_same.
  - unfold on_connect. case_match; by apply stands_put.
  - destruct k; [by apply stands_put|by apply stands_gone].
  - apply stands_put; try done. intros q k' w g [= _ _ <- <-]. split; [apply (st_slot _ _ Hs)|done].
  - destruct (st_shaking _ _ Hs _ _ _ _ _ Hi) as [Hw Hg]. unfold on_shaken. apply stands_put; [by apply stands_new_conn|done..|].
    cbn. intros q c g' n [= <- <- <-]. rewrite lookup_insert_eq. by intros [= <-].
  - pose proof (stands_drop who s i Hs) as H. unfold on_drop. destruct th as [[[[[p k] c] g] a]|]; [|done].
    rewrite <- put_gone. apply stands_put; [done|cbn; by rewrite lookup_delete_eq|done|].
    cbn. intros q d g' n [= <- <- <-]. rewrite lookup_close_all. intros (x & Hx & ->)%fmap_Some.
    pose proof (st_carried _ _ Hs _ _ p c g _ Hi eq_refl Hx). by case_decide.
  - unfold on_file. apply stands_put; try done; [by eapply stands_same|]. cbn. intros q d g' n [= <- <- <-] Hx.
    apply (st_carried _ _ Hs _ _ p c g _ Hi eq_refl Hx).
  - unfold on_tell. apply stands_put; try done. by eapply stands_same.
  - by apply stands_put.
  - by apply stands_put.
  - assert (stands who (clear_dial_slot p ch s) /\ pl_tasks (clear_dial_slot p ch s) = pl_tasks s) as [Hk Ht].
    { unfold clear_dial_slot. repeat case_match; split; try done. by eapply stands_same. }
    unfold on_clear. destruct o as [[c|e]|]; [apply stands_put|apply stands_gone|apply stands_put]; rewrite ?Ht; done.
  - unfold on_ride. destruct (pl_conns s !! c) as [n|] eqn:Ec; cbn; [|by apply stands_put].
    destruct (try_borrow now n) as [n'|] eqn:Et; [by eapply stands_ride|by apply stands_put].
  - apply stands_gone; [by apply stands_conn|done].
  - by apply stands_conn.
  - by apply (stands_closed who s [] (pl_held s) Hs), sublist_nil_l.
  - unfold on_close_all. by eapply stands_same; [apply (stands_closed who s [] (pl_held s) Hs), sublist_nil_l|..].
  - by eapply stands_same.
  - by apply stands_conn.
  - by apply stands_conn.
Qed.

Lemma stands_cancel who s i :
  stands who s -> (forall t, pl_tasks s !! i = Some t -> ~ is_dropping t) -> stands who (on_cancel i s).
Proof.
  intros Hs Hd. unfold on_cancel. destruct (pl_tasks s !! i) as [t|] eqn:Hi; [|done].
  assert (forall th, pl_tasks s !! i <> Some (Dropping th)) as Hn.
  { intros th E. rewrite Hi in E. injection E as ->. by apply (Hd _ eq_refl). }
  assert (forall f ch, stands who (gone i (with_channel f ch s))) by (intros; apply stands_gone; [by eapply stands_same|done]).
  pose proof (stands_gone _ _ _ Hs Hn). destruct t; cbn; try done; try by repeat case_match.
  by apply stands_release.
Qed.

Lemma stands_run s : pool_run true s -> exists who, stands who s.
Proof.
  induction 1 as [|now s s' Hr [who IH] Hs|i s Hr [who IH] Hc].
  - exists (fun _ => None). split; cbn; try done; try set_solver.
  - eapply stands_step; [by eapply counted_run|done|done].
  - exists who. apply stands_cancel; [done|]. by apply Hc.
Qed.

(** ** One dial at a time *)

Definition awaited : Channel := {| ch_value := None; ch_sender := true |}.

(** Whether a task is the one that answers a channel. *)
Definition answers (t : Task) (p : Protocol) (ch : nat) : Prop := dial_of t = Some (p, Some ch).

Record shared (s : Pool) : Prop := {
  sh_fresh ch x : pl_channels s !! ch = Some x -> (ch < pl_next_channel s)%nat;
  sh_slots p q ch : pl_dialing s !! p = Some ch -> pl_dialing s !! q = Some ch -> p = q;
  sh_slot p ch : pl_dialing s !! p = Some ch -> is_Some (pl_channels s !! ch);
  sh_dialler i t p ch : pl_tasks s !! i = Some t -> answers t p ch ->
    pl_channels s !! ch = Some awaited /\ pl_dialing s !! p = Some ch;
  sh_one i j t u p q ch : pl_tasks s !! i = Some t -> pl_tasks s !! j = Some u -> answers t p ch -> answers u q ch -> i = j;
  sh_awaited ch : pl_channels s !! ch = Some awaited -> exists i t p, pl_tasks s !! i = Some t /\ answers t p ch;
  sh_waiting i p ch : pl_tasks s !! i = Some (Waiting p ch) ->
    is_Some (pl_channels s !! ch) /\ (pl_channels s !! ch = Some awaited -> pl_dialing s !! p = Some ch);
  sh_clearing i p ch o : pl_tasks s !! i = Some (Clearing p ch o) ->
    exists x, pl_channels s !! ch = Some x /\ (ch_value x <> None \/ ch_sender x = false);
}.

(** A task that moves on with the dial it is making, if any. *)
Lemma shared_put s i t :
  shared s ->
  (forall p ch, answers t p ch <-> exists t0, pl_tasks s !! i = Some t0 /\ answers t0 p ch) ->
  (forall p ch, t = Waiting p ch -> is_Some (pl_channels s !! ch) /\ (pl_channels s !! ch = Some awaited -> pl_dialing s !! p = Some ch)) ->
  (forall p ch o, t = Clearing p ch o -> exists x, pl_channels s !! ch = Some x /\ (ch_value x <> None \/ ch_sender x = false)) ->
  shared (put i t s).
Proof.
  intros [H1 H2 H3 H4 H5 H6 H7 H8] Ha Hw Hk.
  assert (forall j u p ch, pl_tasks (put i t s) !! j = Some u -> answers u p ch -> exists u0, pl_tasks s !! j = Some u0 /\ answers u0 p ch) as Hb.
  { intros j u p ch. cbn. rewrite lookup_insert_Some. intros [[<- <-]|[_ H]] Hu; [by apply Ha|eauto]. }
  split; try done.
  - intros j u p ch Hj Hu. destruct (Hb _ _ _ _ Hj Hu) as (u0 & ? & ?). eauto.
  - intros j j' u u' p q ch Hj Hj' Hu Hu'. destruct (Hb _ _ _ _ Hj Hu) as (? & ? & ?), (Hb _ _ _ _ Hj' Hu') as (? & ? & ?). eauto.
  - intros ch Hch. destruct (H6 ch Hch) as (j & u & p & Hj & Hu). cbn. destruct (decide (i = j)) as [<-|Hne].
    + exists i, t, p. rewrite lookup_insert_eq. split; [done|]. apply Ha. eauto.
    + exists j, u, p. by rewrite lookup_insert_ne.
  - intros j p ch. cbn. rewrite lookup_insert_Some. intros [[_ H]|[_ H]]; eauto.
  - intros j p ch o. cbn. rewrite lookup_insert_Some. intros [[_ H]|[_ H]]; eauto.
Qed.

(** A task that answers nobody ends. *)
Lemma shared_gone s i :
  shared s -> (forall t p ch, pl_tasks s !! i = Some t -> ~ answers t p ch) -> shared (gone i s).
Proof.
  intros [H1 H2 H3 H4 H5 H6 H7 H8] Ha. split; cbn; try done.
  - intros j u p ch. rewrite lookup_delete_Some. intros [_ H]; eauto.
  - intros j j' u u' p q ch. rewrite !lookup_delete_Some. intros [_ H] [_ H']; eauto.
  - intros ch Hch. destruct (H6 ch Hch) as (j & u & p & Hj & Hu). exists j, u, p. rewrite lookup_delete_ne; [done|].
    intros ->. by destruct (Ha _ _ _ Hj Hu).
  - intros j p ch. rewrite lookup_delete_Some. intros [_ H]; eauto.
  - intros j p ch o. rewrite lookup_delete_Some. intros [_ H]; eauto.
Qed.

Lemma shared_same s s' :
  shared s -> pl_channels s' = pl_channels s -> pl_next_channel s' = pl_next_channel s -> pl_dialing s' = pl_dialing s ->
  pl_tasks s' = pl_tasks s -> shared s'.
Proof. intros [H1 H2 H3 H4 H5 H6 H7 H8] E1 E2 E3 E4. split; rewrite ?E1, ?E2, ?E3, ?E4; done. Qed.

(** The dialler lets go of its channel, with an answer or without one. *)
Lemma shared_end s i t p ch x t' :
  shared s -> pl_tasks s !! i = Some t -> answers t p ch -> ch_sender x = false ->
  (t' = None \/ exists q o, t' = Some (Clearing q ch o)) ->
  shared (with_tasks (partial_alter (fun _ => t') i (pl_tasks s)) (with_channel (fun _ => x) ch s)).
Proof.
  intros [H1 H2 H3 H4 H5 H6 H7 H8] Hi Ha Hx Ht.
  assert (forall j u, partial_alter (fun _ => t') i (pl_tasks s) !! j = Some u ->
    (j = i /\ t' = Some u) \/ j <> i /\ pl_tasks s !! j = Some u) as Hb.
  { intros j u. destruct (decide (j = i)) as [->|Hne]; [rewrite lookup_partial_alter_eq|rewrite lookup_partial_alter_ne by done]; eauto. }
  assert (forall u q c, t' = Some u -> ~ answers u q c) as Hno by (destruct Ht as [->|(q & o & ->)]; [done|by intros ? ? ? [= <-]]).
  assert (forall d, is_Some (pl_channels s !! d) -> is_Some (alter (fun _ => x) ch (pl_channels s) !! d)) as Hk.
  { intros d [y Hy]. destruct (decide (ch = d)) as [<-|]; [rewrite lookup_alter_eq|rewrite lookup_alter_ne by done]; rewrite Hy; by eexists. }
  assert (forall d, alter (fun _ => x) ch (pl_channels s) !! d = Some awaited -> d <> ch /\ pl_channels s !! d = Some awaited) as Hw.
  { intros d. destruct (decide (ch = d)) as [<-|]; [|by rewrite lookup_alter_ne]. rewrite lookup_alter_eq.
    intros (y & _ & <-)%fmap_Some. done. }
  split; cbn.
  - intros d y. destruct (decide (ch = d)) as [<-|]; [|rewrite lookup_alter_ne by done; eauto].
    rewrite lookup_alter_eq. intros (z & Hz & _)%fmap_Some. eauto.
  - done.
  - intros q d Hd. eauto.
  - intros j u q d Hj Hu. destruct (Hb _ _ Hj) as [[-> Hu']|[Hne Hj']]; [by destruct (Hno _ _ _ Hu' Hu)|].
    rewrite lookup_alter_ne; [by eapply H4|]. intros ->. by destruct Hne, (H5 _ _ _ _ _ _ _ Hj' Hi Hu Ha).
  - intros j j' u u' q q' d Hj Hj' Hu Hu'.
    destruct (Hb _ _ Hj) as [[-> Hx1]|[_ Hx1]]; [by destruct (Hno _ _ _ Hx1 Hu)|].
    destruct (Hb _ _ Hj') as [[-> Hx2]|[_ Hx2]]; [by destruct (Hno _ _ _ Hx2 Hu')|]. eauto.
  - intros d Hd. destruct (Hw _ Hd) as [Hne Hd']. destruct (H6 _ Hd') as (j & u & q & Hj & Hu). exists j, u, q.
    rewrite lookup_partial_alter_ne; [done|]. intros ->. rewrite Hi in Hj. injection Hj as <-. unfold answers in *. congruence.
  - intros j q d Hj. destruct (Hb _ _ Hj) as [[_ E]|[_ Hj']]; [destruct Ht as [->|(q' & o & ->)]; done|].
    destruct (H7 _ _ _ Hj') as [? Hd]. split; [auto|]. intros E. apply Hd. by apply Hw.
  - intros j q d o Hj. assert (d = ch \/ exists y, d <> ch /\ pl_channels s !! d = Some y /\ (ch_value y <> None \/ ch_sender y = false)) as [->|(y & Hne & Hy & Hs)].
    { destruct (decide (d = ch)) as [|Hne]; [by left|right]. destruct (Hb _ _ Hj) as [[_ E]|[_ Hj']].
      - destruct Ht as [->|(q' & o' & ->)]; [done|]. congruence.
      - destruct (H8 _ _ _ _ Hj') as (y & ? & ?). eauto. }
    + destruct (H4 _ _ _ _ Hi Ha) as [Hch _]. rewrite lookup_alter_eq, Hch. exists x. eauto.
    + exists y. by rewrite lookup_alter_ne.
Qed.

(** The first to ask opens a channel, the others join it. *)
Lemma shared_slotted s i p : shared s -> pl_tasks s !! i = Some (Slotting p) -> shared (on_slot i p s).
Proof.
  intros Hs Hi. unfold on_slot. destruct (pl_dialing s !! p) as [ch|] eqn:Ed.
  - apply shared_put; try done.
    + intros q c. rewrite Hi. split; [done|]. by intros (? & [= <-] & ?).
    + intros q c [= <- <-]. split; [by eapply sh_slot|done].
  - destruct Hs as [H1 H2 H3 H4 H5 H6 H7 H8]. set (ch := pl_next_channel s).
    assert (pl_channels s !! ch = None) as Hn by (destruct (pl_channels s !! ch) eqn:E; [apply H1 in E; subst ch; lia|done]).
    assert (forall d, is_Some (pl_channels s !! d) -> ch <> d) as Hne by (intros d [y Hy] <-; congruence).
    assert (forall q, pl_dialing s !! q <> Some ch) as Hnd by (intros q Hq; apply H3 in Hq; by apply Hne in Hq).
    assert (forall j u, <[i := Dialling p (Some ch)]> (pl_tasks s) !! j = Some u ->
      (j = i /\ u = Dialling p (Some ch)) \/ pl_tasks s !! j = Some u) as Hb.
    { intros j u. rewrite lookup_insert_Some. intros [[<- <-]|[_ H]]; eauto. }
    assert (forall j u q c, pl_tasks s !! j = Some u -> answers u q c -> ch <> c /\ p <> q) as Hold.
    { intros j u q c Hj Hu. destruct (H4 _ _ _ _ Hj Hu) as [Hc Hq]. split; [apply Hne; by rewrite Hc|]. intros <-. congruence. }
    split; cbn; fold ch awaited.
    + intros d y. rewrite lookup_insert_Some. intros [[<- _]|[_ H]]; [lia|]. apply H1 in H. lia.
    + intros q r d. rewrite !lookup_insert_Some. intros [[<- <-]|[_ Hq]] [[<- Hd]|[_ Hr]]; try done; [by apply Hnd in Hr|subst; by apply Hnd in Hq|eauto].
    + intros q d. rewrite lookup_insert_Some. intros [[<- <-]|[_ H]]; [by rewrite lookup_insert_eq|].
      apply H3 in H. by rewrite lookup_insert_ne by (by apply Hne).
    + intros j u q d Hj Hu. destruct (Hb _ _ Hj) as [[-> ->]|Hj'].
      * injection Hu as <- <-. by rewrite !lookup_insert_eq.
      * destruct (Hold _ _ _ _ Hj' Hu) as [? ?]. rewrite !lookup_insert_ne by done. eauto.
    + intros j j' u u' q q' d Hj Hj' Hu Hu'. destruct (Hb _ _ Hj) as [[-> ->]|Hx1], (Hb _ _ Hj') as [[-> ->]|Hx2]; try done.
      * injection Hu as <- <-. by destruct (Hold _ _ _ _ Hx2 Hu').
      * injection Hu' as <- <-. by destruct (Hold _ _ _ _ Hx1 Hu).
      * eauto.
    + intros d. rewrite lookup_insert_Some. intros [[<- _]|[_ H]].
      * exists i, (Dialling p (Some ch)), p. by rewrite lookup_insert_eq.
      * destruct (H6 _ H) as (j & u & q & Hj & Hu). exists j, u, q. rewrite lookup_insert_ne; [done|]. intros <-. rewrite Hi in Hj. by injection Hj as <-.
    + intros j q d Hj. destruct (Hb _ _ Hj) as [[-> ?]|Hj']; [done|]. destruct (H7 _ _ _ Hj') as [Hd Hq].
      rewrite lookup_insert_ne by (by apply Hne). split; [done|]. intros E. rewrite lookup_insert_ne; [auto|].
      intros <-. specialize (Hq E). congruence.
    + intros j q d o Hj. destruct (Hb _ _ Hj) as [[-> ?]|Hj']; [done|]. destruct (H8 _ _ _ _ Hj') as (y & Hy & ?).
      exists y. rewrite lookup_insert_ne by (apply Hne; eauto). done.
Qed.

(** An answered or abandoned channel leaves its slot. *)
Lemma shared_clear_slot s p ch x :
  shared s -> pl_channels s !! ch = Some x -> ch_value x <> None \/ ch_sender x = false -> shared (clear_dial_slot p ch s).
Proof.
  intros Hs Hx Hv. unfold clear_dial_slot. destruct (pl_dialing s !! p) as [c|] eqn:Ed; [|done]. case_bool_decide; [subst c|done].
  assert (pl_channels s !! ch <> Some awaited) as Hna by (rewrite Hx; intros [= ->]; by destruct Hv).
  destruct Hs as [H1 H2 H3 H4 H5 H6 H7 H8].
  split; cbn; try done.
  - intros q r d. rewrite !lookup_delete_Some. intros [_ ?] [_ ?]; eauto.
  - intros q d. rewrite lookup_delete_Some. intros [_ ?]; eauto.
  - intros j u q d Hj Hu. destruct (H4 _ _ _ _ Hj Hu) as [Hc Hq]. split; [done|]. rewrite lookup_delete_ne; [done|].
    intros <-. congruence.
  - intros j q d Hj. destruct (H7 _ _ _ Hj) as [Hd Hq]. split; [done|]. intros E. rewrite lookup_delete_ne; [auto|].
    intros <-. specialize (Hq E). congruence.
Qed.

Lemma clear_dial_slot_tasks p ch s : pl_tasks (clear_dial_slot p ch s) = pl_tasks s.
Proof. unfold clear_dial_slot. by repeat case_match. Qed.

(** Steps that neither start nor end a dial. *)
Lemma shared_move s s1 i t t0 :
  shared s -> shared s1 -> pl_tasks s1 = pl_tasks s -> pl_tasks s !! i = Some t0 -> dial_of t0 = dial_of t ->
  (forall p ch, t <> Waiting p ch) -> (forall p ch o, t <> Clearing p ch o) -> shared (put i t s1).
Proof.
  intros Hs Hs1 E Hi Hd Hw Hk. apply shared_put; [done| |by intros p ch ->; destruct (Hw p ch)|by intros p ch o ->; destruct (Hk p ch o)].
  intros p ch. rewrite E, Hi. unfold answers. split; [rewrite <- Hd; eauto|]. intros (u & [= <-] & ?). congruence.
Qed.

Lemma shared_quit s s1 i t0 :
  shared s1 -> pl_tasks s1 = pl_tasks s -> pl_tasks s !! i = Some t0 -> (forall p ch, ~ answers t0 p ch) -> shared (gone i s1).
Proof. intros Hs1 E Hi Ha. apply shared_gone; [done|]. intros t p ch. rewrite E, Hi. intros [= <-]. apply Ha. Qed.

Lemma shared_ask s i t : shared s -> pl_tasks s !! i = None -> (forall p ch, ~ answers t p ch) -> 
  (forall p ch, t <> Waiting p ch) -> (forall p ch o, t <> Clearing p ch o) -> shared (put i t s).
Proof.
  intros Hs Hi Ha Hw Hk. apply shared_put; [done| |by intros p ch ->; destruct (Hw p ch)|by intros p ch o ->; destruct (Hk p ch o)].
  intros p ch. rewrite Hi. split; [by intros ?%Ha|naive_solver].
Qed.

Lemma shared_finish s s1 i t0 p k o :
  shared s -> shared s1 -> pl_tasks s1 = pl_tasks s -> pl_tasks s !! i = Some t0 -> dial_of t0 = Some (p, k) ->
  shared (finish i p k o s1).
Proof.
  intros Hs Hs1 E Hi Hd. destruct k as [ch|]; [by eapply (shared_move s s1)|].
  eapply shared_quit; [done|done|done|]. unfold answers. congruence.
Qed.

Lemma shared_cleared s i p ch o : shared s -> pl_tasks s !! i = Some (Clearing p ch o) -> shared (on_clear i p ch o s).
Proof.
  intros Hs Hi. destruct (sh_clearing _ Hs _ _ _ _ Hi) as (x & Hx & Hv). pose proof (shared_clear_slot _ p _ _ Hs Hx Hv) as H.
  pose proof (clear_dial_slot_tasks p ch s) as E.
  unfold on_clear. destruct o as [[c|e]|]; [by eapply (shared_move s)|by eapply (shared_quit s)|by eapply (shared_move s)].
Qed.

Lemma shared_step now s s' : shared s -> pool_step now s s' -> shared s'.
Proof.
  intros Hs [i p Hi|i Hi _|i p Hi|i p Hi|i p k Hi _|i t p k e Hi Hf|i p k Hi|i p k w g Hi|i p k a Hi Hw|i auth Hi Hw|i th Hi|i p k c g a Hi
    |i p k c g Hi|i p ch o Hi|i p ch o x Hi Hx Hv|i p ch x Hi Hx Hv Hn|i p ch o Hi|i p c Hi|i c Hi|i c Hi|i c Hi| | |owns|e|c|c count].
  all: eauto using shared_slotted, shared_cleared.
  all: try by eapply shared_same.
  - by apply shared_ask.
  - by apply shared_ask.
  - unfold on_borrow. repeat case_match; (eapply (shared_move s); [done|by eapply shared_same|done..]).
  - unfold on_connect. case_match; by eapply (shared_move s).
  - eapply (shared_finish s); try done. by destruct t.
  - by eapply (shared_move s).
  - by eapply (shared_move s); [done|by eapply shared_same|done..].
  - unfold on_enrolled. cbn. destruct (identity_changed _ _); (eapply (shared_move s); [done|by eapply shared_same|done..]).
  - unfold on_write. cbn. destruct (identity_changed _ _); [|by eapply shared_same].
    apply shared_ask; try done. by eapply shared_same.
  - unfold on_drop. destruct th as [[[[[p k] c] g] a]|].
    + by eapply (shared_move s); [done|by eapply shared_same|done..].
    + by eapply (shared_quit s); [by eapply shared_same|done..].
  - by eapply (shared_move s); [done|by eapply shared_same|done..].
  - unfold on_pool. destruct (pool_connection c p g s) as [s1 r] eqn:E.
    assert (shared s1 /\ pl_tasks s1 = pl_tasks s) as [? ?].
    { unfold pool_connection in E. repeat case_match; injection E as <- _; (split; [|done]); try done; by eapply shared_same. }
    by eapply (shared_finish s).
  - apply (shared_end s i _ p ch {| ch_value := Some o; ch_sender := false |} (Some (Clearing p ch (Some o))) Hs Hi eq_refl eq_refl). eauto.
  - apply shared_put; try done.
    + intros q d. rewrite Hi. split; [done|]. by intros (? & [= <-] & ?).
    + intros q d o' [= <- <- _]. exists x. split; [done|]. left. congruence.
  - apply shared_put; try done.
    + intros q d. rewrite Hi. split; [done|]. by intros (? & [= <-] & ?).
    + intros q d o' [= <- <- _]. exists x. split; [done|]. by right.
  - unfold on_ride. case_match; (eapply (shared_move s); [done|by eapply shared_same|done..]).
  - unfold on_release. repeat case_match; first [eapply (shared_move s); [done|by eapply shared_same|done..]|eapply (shared_quit s); [by eapply shared_same|done..]].
  - eapply (shared_quit s); [by eapply shared_same|done..].
Qed.

Lemma shared_cancel s i : shared s -> shared (on_cancel i s).
Proof.
  intros Hs. unfold on_cancel. destruct (pl_tasks s !! i) as [t|] eqn:Hi; [|done].
  assert (shared (match dial_of t with
          | Some (_, Some ch) => gone i (with_channel (fun x => {| ch_value := ch_value x; ch_sender := false |}) ch s)
          | _ => gone i s
          end)) as Hgo.
  { destruct (dial_of t) as [[p [ch|]]|] eqn:Ed; try (eapply (shared_quit s); [done|done|done|unfold answers; congruence]).
    destruct (sh_dialler _ Hs _ _ _ _ Hi Ed) as [Hch _].
    pose proof (shared_end s i t p ch {| ch_value := None; ch_sender := false |} None Hs Hi Ed eq_refl (or_introl eq_refl)) as H.
    eapply shared_same; [exact H|cbn|done..]. apply map_eq. intros d. destruct (decide (ch = d)) as [<-|];
      [by rewrite !lookup_alter_eq, Hch|by rewrite !lookup_alter_ne]. }
  destruct t; try exact Hgo. eapply (shared_step 0 s); [done|]. by apply ps_release.
Qed.

Lemma shared_run calm s : pool_run calm s -> shared s.
Proof.
  induction 1 as [|now s s' _ IH Hs|i s _ IH _]; [|by eapply shared_step|by apply shared_cancel].
  split; cbn; try done; intros; by rewrite ?lookup_empty in *.
Qed.

(** ** What the cleanup and the borrow do *)

Lemma held_stale now s c n :
  c ∈ pl_held s -> pl_conns s !! c = Some n -> keeps now n = true ->
  c ∈ pl_held (drop_stale_connections now s) /\ pl_conns (drop_stale_connections now s) !! c = Some n.
Proof.
  intros Hc Hn Hk. cbn. split.
  - apply list_elem_of_filter. split; [|done]. rewrite Hn. by rewrite Hk.
  - rewrite lookup_close_all, decide_False, option_fmap_id; [done|]. rewrite list_elem_of_filter. rewrite Hn, Hk. by intros [? _].
Qed.

Lemma stale_held now s c :
  c ∈ pl_held (drop_stale_connections now s) ->
  c ∈ pl_held s /\ pl_conns (drop_stale_connections now s) !! c = pl_conns s !! c /\
  forall n, pl_conns s !! c = Some n -> keeps now n = true.
Proof.
  cbn. rewrite list_elem_of_filter. intros [Hk Hc]. split; [done|]. split.
  - rewrite lookup_close_all, decide_False; [by rewrite option_fmap_id|]. rewrite list_elem_of_filter. intros [Hk' _].
    destruct (match pl_conns s !! c with Some n => _ | None => _ end); done.
  - intros n Hn. rewrite Hn in Hk. by destruct (keeps now n).
Qed.

Lemma keeps_ridden now n : is_live n = true -> 0 < cn_borrows n -> keeps now n = true.
Proof. intros Hl Hb. unfold keeps. rewrite Hl. cbn. rewrite (proj2 (Z.eqb_neq _ _)) by lia. by rewrite andb_false_r. Qed.

Lemma least_least l c n : least l = Some (c, n) -> forall d m, (d, m) ∈ l -> cn_borrows n <= cn_borrows m.
Proof.
  revert c n. induction l as [|[e x] l IH]; cbn; [done|]. intros c n Hl d m. rewrite elem_of_cons. intros Hin.
  destruct (least l) as [[e' x']|] eqn:El.
  - specialize (IH _ _ eq_refl). destruct (cn_borrows x' <? cn_borrows x) eqn:E; injection Hl as <- <-.
    + apply Z.ltb_lt in E. destruct Hin as [[= -> ->]|Hin]; [lia|eauto].
    + apply Z.ltb_ge in E. destruct Hin as [[= -> ->]|Hin]; [lia|]. specialize (IH _ _ Hin). lia.
  - injection Hl as <- <-. destruct l as [|[? ?] l]; [|cbn in El; repeat case_match; done].
    destruct Hin as [[= -> ->]|Hin]; [lia|]. set_solver.
Qed.

Lemma least_none l : least l = None -> l = [].
Proof. destruct l as [|[? ?] l]; [done|]. cbn. by repeat case_match. Qed.

(** A connection that a flow of the protocol may get on. *)
Definition offered (p : Protocol) (now : Z) (s : Pool) (c : nat) (n : Conn) : Prop :=
  c ∈ pl_held s /\ pl_conns s !! c = Some n /\ keeps now n = true /\ cn_protocol n = p /\ has_room n = true.

Lemma offered_spec p now s c n :
  offered p now s c n <->
  (c, n) ∈ base.filter (fun cn => bool_decide (cn_protocol cn.2 = p) && has_room cn.2) (held_conns (drop_stale_connections now s)).
Proof.
  rewrite list_elem_of_filter, held_conns_spec. unfold offered. split.
  - intros (Hc & Hn & Hk & Hp & Hr). cbn [fst snd]. rewrite (bool_decide_eq_true_2 _ Hp), Hr. split; [done|]. by apply held_stale.
  - intros (Hf & Hc & Hn). cbn [fst snd] in Hf. apply andb_prop_elim in Hf as [Hp Hr].
    destruct (stale_held _ _ _ Hc) as (Hc' & E & Hk). rewrite E in Hn. repeat split; eauto.
    + by apply bool_decide_spec in Hp.
    + by destruct (has_room n).
Qed.

(** A flow gets on one of the offered connections that carry the fewest flows, and
    dials only when none is offered. *)
Lemma borrow_least_loaded i p now s :
  (exists c n n', offered p now s c n /\ (forall d m, offered p now s d m -> cn_borrows n <= cn_borrows m) /\
     pl_tasks (on_borrow i p now s) !! i = Some (Riding c) /\
     pl_conns (on_borrow i p now s) !! c = Some n' /\ cn_borrows n' = cn_borrows n + 1) \/
  (forall c n, ~ offered p now s c n) /\ pl_tasks (on_borrow i p now s) !! i = Some (Slotting p).
Proof.
  unfold on_borrow. destruct (least _) as [[c n]|] eqn:El.
  - left. pose proof (least_in _ _ _ El) as Hin. apply offered_spec in Hin. destruct Hin as (Hc & Hn & Hk & Hp & Hr).
    pose proof Hr as Hr'. unfold has_room in Hr'. apply andb_true_iff in Hr' as [Hs Hb]. apply negb_true_iff in Hs. apply Z.ltb_lt in Hb.
    exists c, n. unfold try_borrow. rewrite Hs, (proj2 (Z.leb_gt _ _)) by done. eexists. split; [done|]. split.
    + intros d m Hd. apply (least_least _ _ _ El d m). by apply offered_spec.
    + cbn. by rewrite !lookup_insert_eq.
  - right. split; [|cbn; by rewrite lookup_insert_eq]. intros c n Ho%offered_spec. apply least_none in El. rewrite El in Ho. set_solver.
Qed.

End Pool.

(** In every run of the pool, whatever is cancelled where, the count of a connection
    is the number of flows on it and never passes [MAX_FLOWS_PER_CONNECTION], and a
    protocol never has more than [MAX_CONNECTIONS_PER_PROTOCOL] entries.  The cleanup
    of idle connections leaves a live connection with a flow on it alone.  A flow that
    asks gets on an entry of its protocol with room that carries the fewest flows, and
    goes on to dial only if there is none. *)
Theorem pool_counts_exact (dv : DeviceCrypto) (calm : bool) (s : Pool dv) (Hr : pool_run dv calm s) :
  (forall c n, pl_conns dv s !! c = Some n ->
     cn_borrows n = riders dv c (pl_tasks dv s) /\ cn_borrows n <= MAX_FLOWS_PER_CONNECTION) /\
  (forall p, connections_for dv p s <= MAX_CONNECTIONS_PER_PROTOCOL) /\
  (forall now c n, c ∈ pl_held dv s -> pl_conns dv s !! c = Some n -> is_live n = true -> 0 < riders dv c (pl_tasks dv s) ->
     c ∈ pl_held dv (drop_stale_connections dv now s) /\ pl_conns dv (drop_stale_connections dv now s) !! c = Some n) /\
  (forall i p now, pl_tasks dv s !! i = Some (Asking dv p) ->
     (exists c n n', offered dv p now s c n /\ (forall d m, offered dv p now s d m -> cn_borrows n <= cn_borrows m) /\
        pl_tasks dv (on_borrow dv i p now s) !! i = Some (Riding dv c) /\
        pl_conns dv (on_borrow dv i p now s) !! c = Some n' /\ cn_borrows n' = cn_borrows n + 1) \/
     (forall c n, ~ offered dv p now s c n) /\ pl_tasks dv (on_borrow dv i p now s) !! i = Some (Slotting dv p)).
Proof.
  pose proof (counted_run dv calm s Hr) as Hc. repeat split.
  - by apply (ct_borrows _ _ Hc).
  - by apply (ct_borrows _ _ Hc c).
  - apply (ct_ceiling _ _ Hc).
  - destruct (ct_borrows _ _ Hc _ _ H0) as [E _]. apply (held_stale dv now s c n); [done..|]. apply keeps_ridden; [done|lia].
  - destruct (ct_borrows _ _ Hc _ _ H0) as [E _]. apply (held_stale dv now s c n); [done..|]. apply keeps_ridden; [done|lia].
  - intros i p now _. apply borrow_least_loaded.
Qed.

(** C24: While no write of a credential is cut short, every open connection the pool
    holds was authenticated as the identity of the credential it has now, or the drop
    of the connections is about to happen; and a connection that has just been dialled
    enters the pool only as the current identity's, also when the credential was
    replaced during the dial. *)
Theorem pool_stands_for_identity (dv : DeviceCrypto) (s : Pool dv) (Hr : pool_run dv true s) :
  (forall c n, c ∈ pl_held dv s -> pl_conns dv s !! c = Some n -> cn_closed n = false ->
     cn_identity n = identity dv <$> pl_slot dv s \/ exists i th, pl_tasks dv s !! i = Some (Dropping dv th)) /\
  (forall i p k c g n, pl_tasks dv s !! i = Some (Pooling dv p k c g) -> pl_conns dv s !! c = Some n ->
     c ∈ pl_held dv (on_pool dv i p k c g s) -> c ∉ pl_held dv s -> cn_identity n = identity dv <$> pl_slot dv s).
Proof.
  destruct (stands_run dv s Hr) as [who Hs]. split.
  - intros c n Hc Hn Ho. destruct (st_held _ _ _ Hs _ _ Hc Hn Ho) as [E|Hd]; [left|by right].
    destruct (st_conn _ _ _ Hs _ _ Hn) as [-> _]. rewrite E. symmetry. apply (st_slot _ _ _ Hs).
  - intros i p k c g n Hi Hn Hin Hout. pose proof (st_carried _ _ _ Hs _ _ p c g _ Hi eq_refl Hn) as Hg.
    destruct (st_conn _ _ _ Hs _ _ Hn) as [-> _]. rewrite (st_slot _ _ _ Hs), Hg. f_equal. symmetry. apply Z.eqb_eq.
    destruct (pl_generation dv s =? g) eqn:E; [done|]. destruct Hout.
    unfold on_pool, pool_connection in Hin. rewrite Hn, E in Hin. cbn [negb] in Hin. by destruct (cn_closed n), k.
Qed.

(** In every run at most one task dials for the callers of a protocol, and a caller
    that waits for a dial waits for one of its protocol that is still going on, or has
    its answer, or finds that the dialler is gone and may try itself. *)
Theorem one_dial_per_protocol (dv : DeviceCrypto) (calm : bool) (s : Pool dv) (Hr : pool_run dv calm s) :
  (forall i j t u p ch ch', pl_tasks dv s !! i = Some t -> pl_tasks dv s !! j = Some u ->
     dial_of dv t = Some (p, Some ch) -> dial_of dv u = Some (p, Some ch') -> i = j) /\
  (forall i p ch, pl_tasks dv s !! i = Some (Waiting dv p ch) ->
     (exists j t, pl_tasks dv s !! j = Some t /\ dial_of dv t = Some (p, Some ch)) \/
     (exists now o, pool_step dv now s (put dv i (Clearing dv p ch o) s))).
Proof.
  pose proof (shared_run dv calm s Hr) as Hs. split.
  - intros i j t u p ch ch' Hi Hj Ht Hu.
    destruct (sh_dialler _ _ Hs _ _ _ _ Hi Ht) as [_ E], (sh_dialler _ _ Hs _ _ _ _ Hj Hu) as [_ E'].
    rewrite E in E'. injection E' as <-. by eapply (sh_one _ _ Hs).
  - intros i p ch Hi. destruct (sh_waiting _ _ Hs _ _ _ Hi) as [[x Hx] Hd]. destruct (ch_value x) as [o|] eqn:Ev.
    { right. exists 0, (Some o). by eapply ps_hear. }
    destruct (ch_sender x) eqn:Es; [|right; exists 0, None; by eapply ps_abandoned].
    assert (x = awaited) as -> by (destruct x as [v b]; cbn in Ev, Es; by subst v b). left.
    destruct (sh_awaited _ _ Hs _ Hx) as (j & t & q & Hj & Ht). exists j, t. split; [done|].
    destruct (sh_dialler _ _ Hs _ _ _ _ Hj Ht) as [_ E]. specialize (Hd Hx). by rewrite (sh_slots _ _ Hs _ _ _ Hd E).
Qed.

(** ** A small pool *)

Section Story.
(** No key is used in these runs. *)
Definition story_dv : DeviceCrypto :=
  {| SecretKey := unit; key_public := fun _ => []; key_sign := fun _ _ => []; hex_encode := fun b => b;
     base32_encode := fun b => b; totp_generate := fun _ _ _ _ _ => Err tt |}.

#[local] Abbreviation dv := story_dv.
Definition story_alice : TwoFactorAuth dv := {| tf_client_id := lit "alice"; tf_proof := Totp [] SHA1 30 6; tf_device_id := None |}.
Definition story_ada : TwoFactorAuth dv := {| tf_client_id := lit "ada"; tf_proof := Totp [] SHA1 30 6; tf_device_id := None |}.

(** Task 0 sets a credential, task 1 asks for a connection and dials for it, task 2
    joins the dial. *)
Definition story_dialling : Pool dv :=
  on_read dv 1 Http (Some 0%nat) (on_connect dv 1 Http (Some 0%nat) (on_slot dv 2 Http (on_slot dv 1 Http
    (on_borrow dv 2 Http 0 (on_borrow dv 1 Http 0 (put dv 2 (Asking dv Http) (put dv 1 (Asking dv Http)
      (on_drop dv 0 None (on_write dv 0 (Some story_alice) (pool_new dv)))))))))).
Definition story_told : Pool dv :=
  on_tell dv 1 Http 0 (Ok 0%nat) (on_pool dv 1 Http (Some 0%nat) 0 1
    (on_shaken dv 1 Http (Some 0%nat) (Some (identity dv story_alice)) 1 1 story_dialling)).
(** Both are on the connection. *)
Definition story_riding : Pool dv :=
  on_ride dv 2 Http 0 2 (on_ride dv 1 Http 0 2 (on_clear dv 2 Http 0 (Some (Ok 0%nat)) (on_clear dv 1 Http 0 (Some (Ok 0%nat))
    (put dv 2 (Clearing dv Http 0 (Some (Ok 0%nat))) story_told)))).

#[local] Ltac go tac := eapply pr_step; [|tac; vm_compute; done].

Lemma story_dialling_run calm : pool_run dv calm story_dialling.
Proof.
  unfold story_dialling. go ltac:(apply (ps_read dv 0)). go ltac:(apply (ps_connect dv 0)). go ltac:(apply (ps_slot dv 0)).
  go ltac:(apply (ps_slot dv 0)). go ltac:(apply (ps_borrow dv 0)). go ltac:(apply (ps_borrow dv 0)).
  go ltac:(apply (ps_ask dv 0)). go ltac:(apply (ps_ask dv 0)). go ltac:(apply (ps_drop dv 0)). go ltac:(apply (ps_write dv 0)).
  apply pr_new.
Qed.

Lemma story_told_run calm : pool_run dv calm story_told.
Proof.
  unfold story_told. go ltac:(apply (ps_tell dv 1)). go ltac:(apply (ps_pool dv 1)). go ltac:(apply (ps_shaken dv 1)).
  apply story_dialling_run.
Qed.

Lemma story_riding_run calm : pool_run dv calm story_riding.
Proof.
  unfold story_riding. go ltac:(apply (ps_ride dv 2)). go ltac:(apply (ps_ride dv 2)). go ltac:(apply (ps_clear dv 2)).
  go ltac:(apply (ps_clear dv 2)). eapply (pr_step _ _ 2); [apply story_told_run|].
  eapply ps_hear; vm_compute; done.
Qed.

Lemma pool_counts_exact_witness :
  (exists n, pl_conns dv story_riding !! 0%nat = Some n /\ cn_borrows n = riders dv 0 (pl_tasks dv story_riding) /\ cn_borrows n = 2) /\
  0%nat ∈ pl_held dv (drop_stale_connections dv 1000 story_riding).
Proof.
  pose proof (pool_counts_exact dv false story_riding (story_riding_run false)) as (H1 & _ & H3 & _).
  destruct (pl_conns dv story_riding !! 0%nat) as [n|] eqn:E; [|vm_compute in E; done]. split.
  - exists n. split; [done|]. split; [by apply H1|]. vm_compute in E. by injection E as <-.
  - refine (proj1 (H3 1000 _ n _ E _ _)).
    + vm_compute. by left.
    + vm_compute in E. by injection E as <-.
    + vm_compute. done.
Defined.

Lemma pool_stands_for_identity_witness :
  exists n, pl_conns dv story_riding !! 0%nat = Some n /\ cn_identity n = Some (identity dv story_alice).
Proof.
  pose proof (pool_stands_for_identity dv story_riding (story_riding_run true)) as (H1 & _).
  destruct (pl_conns dv story_riding !! 0%nat) as [n|] eqn:E; [|vm_compute in E; done]. exists n. split; [done|].
  destruct (H1 0%nat n) as [H|(i & th & H)]; [vm_compute; by left|done|vm_compute in E; by injection E as <-|exact H|].
  exfalso. assert (forall i t, pl_tasks dv story_riding !! i = Some t -> t = Riding dv 0) as Ht; [|by apply Ht in H].
  assert (pl_tasks dv story_riding = {[1%nat := Riding dv 0; 2%nat := Riding dv 0]}) as -> by (vm_compute; reflexivity).
  intros j t. rewrite lookup_insert_Some, lookup_singleton_Some. by intros [[_ <-]|[_ [_ <-]]].
Defined.

Lemma one_dial_per_protocol_witness :
  (forall j t ch, pl_tasks dv story_dialling !! j = Some t -> dial_of dv t = Some (Http, Some ch) -> 1%nat = j) /\
  exists j t, pl_tasks dv story_dialling !! j = Some t /\ dial_of dv t = Some (Http, Some 0%nat).
Proof.
  pose proof (one_dial_per_protocol dv false story_dialling (story_dialling_run false)) as (H1 & H2).
  assert (pl_tasks dv story_dialling !! 1%nat = Some (Shaking dv Http (Some 0%nat) (Some (identity dv story_alice)) 1)) as Hi
    by (vm_compute; reflexivity).
  split.
  - intros j t ch Hj Ht. exact (H1 1%nat j _ t Http 0%nat ch Hi Hj eq_refl Ht).
  - destruct (H2 2%nat Http 0%nat) as [H|_]; [vm_compute; reflexivity|exact H|]. by exists 1%nat, (Shaking dv Http (Some 0%nat) (Some (identity dv story_alice)) 1).
Defined.

(** ** Where cancellation and interleaving show *)

(** A dial that enrolls replaces alice by ada and is cancelled before it has dropped
    alice's connections. *)
Definition story_enrolling : Pool dv :=
  on_connect dv 3 L4 (Some 1%nat) (on_slot dv 3 L4 (on_borrow dv 3 L4 2 (put dv 3 (Asking dv L4)
    (set_enrollment dv (Some {| nv_client_id := lit "ada"; nv_token := lit "TOKEN"; nv_device_id := None; nv_key := None |})
      story_riding)))).

Lemma cancelled_enrollment_keeps_connections :
  let s := on_cancel dv 3 (on_enrolled dv 3 L4 (Some 1%nat) story_ada 3 story_enrolling) in
  pool_run dv false s /\ pl_tasks dv s = {[1%nat := Riding dv 0; 2%nat := Riding dv 0]} /\ pl_slot dv s = Some story_ada /\
  pl_held dv s = [0%nat] /\
  (fun n => (cn_identity n, is_live n)) <$> pl_conns dv s !! 0%nat = Some (Some (identity dv story_alice), true).
Proof.
  intros s. split; [|vm_compute; done]. subst s. apply pr_cancel; [|done].
  go ltac:(apply (ps_enrolled dv 3)). go ltac:(apply (ps_connect dv 2)). go ltac:(apply (ps_slot dv 2)).
  go ltac:(apply (ps_borrow dv 2)). go ltac:(apply (ps_ask dv 2)). eapply (pr_step _ _ 2); [|apply ps_invite].
  apply story_riding_run.
Qed.

(** A dialler that is cancelled between its answer and the clearing of its slot leaves
    the answer to whoever asks next, with nobody dialling. *)
Lemma answered_slot_stays :
  let s := on_cancel dv 2 (on_cancel dv 1 (on_tell dv 1 Http 0 (Err DE_failed)
    (finish dv 1 Http (Some 0%nat) (Err DE_failed) story_dialling))) in
  pool_run dv true s /\ pl_tasks dv s = ∅ /\ pl_dialing dv s !! Http = Some 0%nat /\
  ch_value <$> pl_channels dv s !! 0%nat = Some (Some (Err DE_failed)).
Proof.
  intros s. split; [|vm_compute; done]. subst s.
  apply pr_cancel; [apply pr_cancel|].
  2, 3: intros _ t Ht; vm_compute in Ht; injection Ht as <-; by intros [].
  go ltac:(apply (ps_tell dv 1)).
  eapply (pr_step _ _ 1); [apply story_dialling_run|]. eapply ps_fail; [vm_compute; reflexivity|done].
Qed.

(** A cleanup between the end of the last flow and its stamp takes the connection for
    one that has been idle since the flow began. *)
Lemma connection_closed_at_release :
  let s := on_release dv 2 0 (on_release dv 1 0 story_riding) in
  pool_run dv true s /\ pl_tasks dv s !! 2%nat = Some (Touching dv 0) /\
  cn_closed <$> pl_conns dv (drop_stale_connections dv 100 s) !! 0%nat = Some true /\
  cn_closed <$> pl_conns dv (drop_stale_connections dv 100 (gone dv 2 (with_conn dv (conn_touch 100) 0 s))) !! 0%nat = Some false.
Proof.
  intros s. split; [|vm_compute; done]. subst s. go ltac:(apply (ps_release dv 100)). go ltac:(apply (ps_release dv 100)).
  apply story_riding_run.
Qed.

End Story.
