(* ===== verification/EndpointGroup.v ===== *)
(** * The client's endpoint groups (nexapipe-client/src/endpoint_group/, lb.rs)

    A group maps the domains of a configuration to the backends that serve them, one
    connection pool per backend.  The index answers for a host with the most specific
    of the configured patterns (index.rs); the balancer of the domain picks one of its
    backends among those the health table does not call down (domain_pools.rs, lb.rs);
    the table is written by the probes and by the requests that failed (probe.rs).

    A [DomainPools] is shared between the map of domains and the index; here the index
    names the domain whose pools it shares.  The walk over a [HashMap] is a walk over
    its keys in any order.  Pools are numbered, and what a pool answers is an argument:
    ConnPool is its model. *)

From S2P Require Import Prelude RustStd Host ConnPool.

Definition EndpointId : Type := bytes.

(** ** Balancers *)

(** [RoundRobinBalancer::select], step by step: before each of its steps the shared
    counter has been moved on by other callers, as often as [gaps] says. *)
Fixpoint rr_loop (gaps : list Z) (candidates : list bool) (index : Z) : option nat * Z :=
  match gaps with
  | [] => (None, index)
  | gap :: gaps =>
      let current := wrapping 64 (index + gap) in
      let index := wrapping 64 (current + 1) in
      let i := Z.to_nat (current mod len candidates) in
      match candidates !! i with
      | Some true => (Some i, index)
      | _ => rr_loop gaps candidates index
      end
  end.

(** The call nobody interrupts. *)
Definition rr_select (candidates : list bool) (index : Z) : option nat * Z :=
  if len candidates =? 0 then (None, index) else rr_loop (replicate (length candidates) 0) candidates index.

(** The indices that are not known to be down, in order. *)
Definition usable (candidates : list bool) : list nat :=
  base.filter (fun i => candidates !! i = Some true) (seq 0 (length candidates)).

(** [RandomBalancer::select] with the number drawn below the count of the usable. *)
Definition random_select (draw : nat) (candidates : list bool) : option nat :=
  if bool_decide (length (base.filter (fun b => b = true) candidates) = 0%nat) then None else usable candidates !! draw.

Inductive Balancer := RoundRobin (index : Z) | Random.

(** [select], with the draw a random balancer would make. *)
Definition select (draw : nat) (candidates : list bool) (b : Balancer) : option nat * Balancer :=
  match b with
  | RoundRobin index => let '(r, index) := rr_select candidates index in (r, RoundRobin index)
  | Random => (random_select draw candidates, Random)
  end.

Inductive LoadBalancingStrategy := RoundRobinStrategy | RandomStrategy.

Inductive StrategyError := SE_least_conn | SE_unknown (name : bytes).

Definition strategy_from_name (name : bytes) : result LoadBalancingStrategy StrategyError :=
  let name := trim name in
  if bool_decide (name ∈ [lit "round_robin"; lit "RoundRobin"; lit "roundrobin"]) then Ok RoundRobinStrategy
  else if bool_decide (name ∈ [lit "random"; lit "Random"]) then Ok RandomStrategy
  else if bool_decide (name ∈ [lit "least_conn"; lit "LeastConn"; lit "leastconn"]) then Err SE_least_conn
  else Err (SE_unknown name).

(** ** Health *)

Record NodeHealth := {
  nh_reachable : bool;
  nh_consecutive_failures : Z;
  nh_last_ok : option Z;
  nh_last_probe : option Z;
}.

Definition HealthTable := gmap EndpointId NodeHealth.

Definition record_outcome (now : Z) (backend_id : EndpointId) (answered : bool) (health : HealthTable) : HealthTable :=
  let entry := default {| nh_reachable := false; nh_consecutive_failures := 0; nh_last_ok := None; nh_last_probe := None |}
                 (health !! backend_id) in
  <[backend_id :=
     if answered then
       {| nh_reachable := true; nh_consecutive_failures := 0; nh_last_ok := Some now; nh_last_probe := Some now |}
     else
       {| nh_reachable := false; nh_consecutive_failures := saturating_add 32 (nh_consecutive_failures entry) 1;
          nh_last_ok := nh_last_ok entry; nh_last_probe := Some now |}]> health.

(** [record_request_failures]: a backend is counted once however often it is named. *)
Fixpoint record_failures_loop (now : Z) (backends counted : list EndpointId) (health : HealthTable) : HealthTable :=
  match backends with
  | [] => health
  | backend :: backends =>
      if bool_decide (backend ∈ counted) then record_failures_loop now backends counted health
      else record_failures_loop now backends (counted ++ [backend]) (record_outcome now backend false health)
  end.
Definition record_request_failures (now : Z) (backends : list EndpointId) (health : HealthTable) : HealthTable :=
  record_failures_loop now backends [] health.

(** ** Domains and their pools *)

Record PoolRef := { pr_number : nat; pr_backend : EndpointId }.

Record DomainPools := { dp_pools : list PoolRef; dp_balancer : Balancer }.

Definition domain_pools_new (pools : list PoolRef) (strategy : LoadBalancingStrategy) : DomainPools :=
  {| dp_pools := pools; dp_balancer := match strategy with RoundRobinStrategy => RoundRobin 0 | RandomStrategy => Random end |}.

Definition candidates (health : HealthTable) (d : DomainPools) : list bool :=
  (fun p => match health !! pr_backend p with Some node => nh_reachable node | None => true end) <$> dp_pools d.

Inductive ChooseError := ChE_no_pools | ChE_nobody_answers (nodes : list EndpointId).

Definition choose (draw : nat) (health : HealthTable) (d : DomainPools) : result nat ChooseError * DomainPools :=
  if bool_decide (dp_pools d = []) then (Err ChE_no_pools, d)
  else
    let '(r, b) := select draw (candidates health d) (dp_balancer d) in
    let d := {| dp_pools := dp_pools d; dp_balancer := b |} in
    match r with
    | Some i => (Ok i, d)
    | None => if bool_decide (length (dp_pools d) = 1%nat) then (Ok 0%nat, d)
              else (Err (ChE_nobody_answers (pr_backend <$> dp_pools d)), d)
    end.

Inductive GroupError := GE_choose (e : ChooseError) | GE_dial (e : DialError) | GE_no_endpoint.

(** Whether a failure says something of the backend: not the client's own endpoint
    being gone, its pool being full or its credential having changed. *)
Definition blames_backend (e : DialError) : bool :=
  match e with DE_no_endpoint | DE_full | DE_replaced => false | DE_closed | DE_failed => true end.

(** [DomainPools::get_connection], with what the pool of each number answers. *)
Definition domain_get_connection {A} (now : Z) (draw : nat) (dial : nat -> result A DialError) (health : HealthTable)
    (d : DomainPools) : result (nat * A) GroupError * HealthTable * DomainPools :=
  match choose draw health d with
  | (Err e, d) => (Err (GE_choose e), health, d)
  | (Ok index, d) =>
      match dp_pools d !! index with
      | None => (Err (GE_choose ChE_no_pools), health, d)
      | Some pool =>
          match dial (pr_number pool) with
          | Ok a => (Ok (index, a), health, d)
          | Err e => (Err (GE_dial e), if blames_backend e then record_outcome now (pr_backend pool) false health else health, d)
          end
      end
  end.

(** ** The index *)

(** The key a pattern is indexed under, when it is a wildcard. *)
Definition wildcard_key (pattern : bytes) : option bytes :=
  match strip_prefix [STAR; DOT] pattern with
  | Some suffix => if bool_decide (suffix = []) then None else Some suffix
  | None => if bool_decide (pattern = [STAR]) then Some [] else None
  end.

(** [wildcards_of] over the patterns in the order the map is walked. *)
Definition wildcards_of (patterns : list bytes) : gmap bytes bytes :=
  foldl (fun m pattern => match wildcard_key pattern with Some key => <[key := pattern]> m | None => m end) ∅ patterns.

(** The name's suffixes after each of its dots, longest first. *)
Fixpoint walk_suffixes (fuel : nat) (wildcards : gmap bytes bytes) (suffix : bytes) : option bytes :=
  match fuel with
  | O => None
  | S fuel =>
      match split_once DOT suffix with
      | Some (_, rest) =>
          match wildcards !! rest with
          | Some pattern => Some pattern
          | None => walk_suffixes fuel wildcards rest
          end
      | None => None
      end
  end.

Record EndpointGroup := {
  eg_domains : gmap bytes DomainPools;
  eg_wildcards : gmap bytes bytes;
  eg_default : option DomainPools;
  eg_health : HealthTable;
}.

(** The domain whose pools serve a host. *)
Definition pools_for (g : EndpointGroup) (host : bytes) : option bytes :=
  let host := normalize_host host in
  match eg_domains g !! host with
  | Some _ => Some host
  | None =>
      match walk_suffixes (S (length host)) (eg_wildcards g) host with
      | Some pattern => Some pattern
      | None => eg_wildcards g !! []
      end
  end.

Definition with_domain (key : bytes) (d : DomainPools) (health : HealthTable) (g : EndpointGroup) : EndpointGroup :=
  {| eg_domains := <[key := d]> (eg_domains g); eg_wildcards := eg_wildcards g; eg_default := eg_default g; eg_health := health |}.
Definition with_default (d : DomainPools) (health : HealthTable) (g : EndpointGroup) : EndpointGroup :=
  {| eg_domains := eg_domains g; eg_wildcards := eg_wildcards g; eg_default := Some d; eg_health := health |}.

(** [EndpointGroup::get_connection]. *)
Definition group_get_connection {A} (now : Z) (draw : nat) (dial : nat -> result A DialError) (domain : bytes)
    (g : EndpointGroup) : result (nat * A) GroupError * EndpointGroup :=
  match pools_for g domain ≫= (fun key => pair key <$> eg_domains g !! key) with
  | Some (key, d) =>
      let '(r, health, d) := domain_get_connection now draw dial (eg_health g) d in (r, with_domain key d health g)
  | None =>
      match eg_default g with
      | Some d =>
          let '(r, health, d) := domain_get_connection now draw dial (eg_health g) d in (r, with_default d health g)
      | None => (Err GE_no_endpoint, g)
      end
  end.

(** ** Building a group *)

(** The addresses of iroh: the identity of a backend and the paths to it. *)
Record EndpointAddr := { ea_id : EndpointId; ea_addrs : list bytes }.

Inductive AddrError := AE_node_id | AE_ticket | AE_missing | AE_disagree.

Record DomainMapping := { dm_domain : bytes; dm_node_id : option bytes; dm_ticket : option bytes }.
Record NodeConfig := { nc_node_id : option bytes; nc_ticket : option bytes; nc_domains : list bytes }.

Definition to_domain_mappings (n : NodeConfig) : list DomainMapping :=
  (fun domain => {| dm_domain := domain; dm_node_id := nc_node_id n; dm_ticket := nc_ticket n |}) <$> nc_domains n.

Definition mapping_key (m : DomainMapping) : bytes :=
  match dm_node_id m with
  | Some id => lit "node_id:" ++ id
  | None => match dm_ticket m with Some ticket => lit "ticket:" ++ ticket | None => lit "unknown" end
  end.

Inductive BuildError := BE_addr (e : AddrError) | BE_bind.

Section Build.
(** The readers of a Node ID and of a ticket, and the endpoint that binds. *)
Variable parse_id : bytes -> option EndpointId.
Variable parse_ticket : bytes -> option EndpointAddr.

Definition parse_ticket_field (ticket : bytes) : result (option EndpointAddr) AddrError :=
  let trimmed := trim ticket in
  if bool_decide (trimmed = []) then Ok None
  else
    match parse_ticket trimmed with
    | Some addr => Ok (Some addr)
    | None => match parse_id trimmed with
              | Some id => Ok (Some {| ea_id := id; ea_addrs := [] |})
              | None => Err AE_ticket
              end
    end.

Definition parse_endpoint_addr (server_node_id server_ticket : option bytes) : result EndpointAddr AddrError :=
  let? node_id := match server_node_id with
                  | Some text => match parse_id (trim text) with Some id => Ok (Some id) | None => Err AE_node_id end
                  | None => Ok None
                  end in
  let? ticket_addr := match server_ticket with Some ticket => parse_ticket_field ticket | None => Ok None end in
  match node_id, ticket_addr with
  | None, None => Err AE_missing
  | Some id, None => Ok {| ea_id := id; ea_addrs := [] |}
  | None, Some addr => Ok addr
  | Some id, Some addr =>
      if negb (bool_decide (ea_id addr = id)) then Err AE_disagree else Ok {| ea_id := id; ea_addrs := ea_addrs addr |}
  end.

(** Whether a pool with an endpoint of its own can bind it; one that shares the
    caller's always comes about. *)
Variable binds : EndpointAddr -> bool.

Record Building := { bd_pools : gmap bytes PoolRef; bd_keys : gmap bytes (list bytes); bd_next : nat }.

Definition build_mapping (m : DomainMapping) (b : Building) : result Building BuildError :=
  let key := mapping_key m in
  let domain_key := normalize_pattern (dm_domain m) in
  let? b := match bd_pools b !! key with
            | Some _ => Ok b
            | None =>
                match parse_endpoint_addr (dm_node_id m) (dm_ticket m) with
                | Err e => Err (BE_addr e)
                | Ok addr =>
                    if binds addr then
                      Ok {| bd_pools := <[key := {| pr_number := bd_next b; pr_backend := ea_id addr |}]> (bd_pools b);
                            bd_keys := bd_keys b; bd_next := S (bd_next b) |}
                    else Err BE_bind
                end
            end in
  Ok {| bd_pools := bd_pools b; bd_keys := <[domain_key := default [] (bd_keys b !! domain_key) ++ [key]]> (bd_keys b);
        bd_next := bd_next b |}.

Fixpoint build_mappings (ms : list DomainMapping) (b : Building) : result Building BuildError :=
  match ms with
  | [] => Ok b
  | m :: ms => let? b := build_mapping m b in build_mappings ms b
  end.

Definition build_domains (strategy : LoadBalancingStrategy) (b : Building) : gmap bytes DomainPools :=
  omap (fun keys =>
    let pools := omap (fun key => bd_pools b !! key) keys in
    if bool_decide (pools = []) then None else Some (domain_pools_new pools strategy)) (bd_keys b).

(** [build], with the order in which the finished map of domains is walked. *)
Definition build (ms : list DomainMapping) (default_addr : option EndpointAddr) (strategy : LoadBalancingStrategy)
    (walk : gmap bytes DomainPools -> list bytes) : result EndpointGroup BuildError :=
  let? b := build_mappings ms {| bd_pools := ∅; bd_keys := ∅; bd_next := 0 |} in
  let domains := build_domains strategy b in
  let? default_pools :=
    match default_addr with
    | None => Ok None
    | Some addr =>
        if binds addr then Ok (Some (domain_pools_new [{| pr_number := bd_next b; pr_backend := ea_id addr |}] strategy))
        else Err BE_bind
    end in
  Ok {| eg_domains := domains; eg_wildcards := wildcards_of (walk domains); eg_default := default_pools; eg_health := ∅ |}.

Definition new_with_nodes (nodes : list NodeConfig) := build (nodes ≫= to_domain_mappings).
End Build.

(** ** Probes *)

(** Every pool, the domains' in the order the map is walked, and the first of each
    backend. *)
Definition all_pools (walk : list bytes) (g : EndpointGroup) : list PoolRef :=
  (walk ≫= (fun key => match eg_domains g !! key with Some d => dp_pools d | None => [] end)) ++
  match eg_default g with Some d => dp_pools d | None => [] end.

Fixpoint unique_loop (pools : list PoolRef) (seen : list EndpointId) : list (EndpointId * PoolRef) :=
  match pools with
  | [] => []
  | p :: pools =>
      if bool_decide (pr_backend p ∈ seen) then unique_loop pools seen
      else (pr_backend p, p) :: unique_loop pools (seen ++ [pr_backend p])
  end.
Definition unique_pools (walk : list bytes) (g : EndpointGroup) : list (EndpointId * PoolRef) :=
  unique_loop (all_pools walk g) [].

Record PreconnectReport := {
  rp_reachable : list EndpointId;
  rp_unreachable : list EndpointId;
  rp_auth_required : list EndpointId;
}.

(** What the tasks of the phase reported before its deadline: a backend and whether
    it answered, or a task that failed. *)
Definition Reported := option (EndpointId * bool).

Definition collect_reports (events : list Reported) : list EndpointId * list EndpointId * nat :=
  foldl (fun acc event =>
    let '(reachable, unreachable, probed) := acc in
    match event with
    | Some (id, true) => (reachable ++ [id], unreachable, S probed)
    | Some (id, false) => (reachable, unreachable ++ [id], S probed)
    | None => acc
    end) ([], [], O) events.

Definition record_probes (now : Z) (answered : bool) (ids : list EndpointId) (health : HealthTable) : HealthTable :=
  foldl (fun h id => record_outcome now id answered h) health ids.

(** [preconnect_report], with the reports and the pools that kept a refusal. *)
Definition preconnect_report (now : Z) (unique : list (EndpointId * PoolRef)) (events : list Reported)
    (wants_auth : nat -> bool) (health : HealthTable) : PreconnectReport * HealthTable :=
  if bool_decide (unique = []) then ({| rp_reachable := []; rp_unreachable := []; rp_auth_required := [] |}, health)
  else
    let seen_nodes := unique.*1 in
    let '(reachable, unreachable, probed) := collect_reports events in
    let unreachable :=
      if (probed <? length seen_nodes)%nat then
        unreachable ++ base.filter (fun id => id ∉ reachable ++ unreachable) seen_nodes
      else unreachable in
    let auth_required := (base.filter (fun ip : EndpointId * PoolRef => wants_auth (pr_number ip.2) = true) unique).*1 in
    let health := record_probes now true (reachable ++ auth_required) health in
    let health := record_probes now false (base.filter (fun id => id ∉ auth_required) unreachable) health in
    ({| rp_reachable := reachable; rp_unreachable := unreachable; rp_auth_required := auth_required |}, health).

(** [probe_round] after its first look at the flag: each result, and whether the group
    was closed when it came in. *)
Fixpoint probe_loop (now : Z) (results : list (bool * Reported)) (health : HealthTable) : HealthTable :=
  match results with
  | [] => health
  | (true, _) :: _ => health
  | (false, Some (id, answered)) :: results => probe_loop now results (record_outcome now id answered health)
  | (false, None) :: results => probe_loop now results health
  end.
Definition probe_round (now : Z) (stopped : bool) (results : list (bool * Reported)) (g : EndpointGroup) : EndpointGroup :=
  if stopped then g
  else {| eg_domains := eg_domains g; eg_wildcards := eg_wildcards g; eg_default := eg_default g;
          eg_health := probe_loop now results (eg_health g) |}.

(** The pools that [close_node_flows] drops the connections of, and those a credential
    is written to. *)
Definition dropped_for (walk : list bytes) (node : EndpointId) (g : EndpointGroup) : list PoolRef :=
  (base.filter (fun ip : EndpointId * PoolRef => ip.1 = node) (unique_pools walk g)).*2.
Definition credential_for (walk : list bytes) (node : EndpointId) (g : EndpointGroup) : list PoolRef :=
  base.filter (fun p => pr_backend p = node) (all_pools walk g).

(** ** The rotation *)

(** The place the counter points at. *)
Definition place (candidates : list bool) (index : Z) : nat := Z.to_nat (index mod len candidates).

Lemma rr_loop_skip k c index :
  0 <= index -> index + Z.of_nat k < 2 ^ 64 ->
  (forall j, (j < k)%nat -> c !! place c (index + Z.of_nat j) <> Some true) ->
  rr_loop (replicate k 0) c index = (None, index + Z.of_nat k).
Proof.
  revert index. induction k as [|k IH]; intros index H0 Hm Hno; [cbn; f_equal; lia|].
  cbn [replicate rr_loop]. rewrite Z.add_0_r, !wrapping_small by (unfold is_uint; lia).
  fold (place c index). specialize (IH (index + 1)). pose proof (Hno 0%nat ltac:(lia)) as H1. rewrite Z.add_0_r in H1.
  destruct (c !! place c index) as [[]|]; [done|..].
  all: rewrite IH; [f_equal; lia|lia|lia|]; intros j Hj; replace (index + 1 + Z.of_nat j) with (index + Z.of_nat (S j)) by lia; apply Hno; lia.
Qed.

Lemma rr_loop_find k j c index :
  0 <= index -> index + Z.of_nat k < 2 ^ 64 -> (j < k)%nat ->
  (forall i, (i < j)%nat -> c !! place c (index + Z.of_nat i) <> Some true) -> c !! place c (index + Z.of_nat j) = Some true ->
  rr_loop (replicate k 0) c index = (Some (place c (index + Z.of_nat j)), index + Z.of_nat j + 1).
Proof.
  revert index k. induction j as [|j IH]; intros index k H0 Hm Hk Hno Hyes; (destruct k as [|k]; [lia|]);
    cbn [replicate rr_loop]; rewrite Z.add_0_r, !wrapping_small by (unfold is_uint; lia); fold (place c index).
  - rewrite Z.add_0_r in *. by rewrite Hyes.
  - pose proof (Hno 0%nat ltac:(lia)) as H1. rewrite Z.add_0_r in H1.
    replace (index + Z.of_nat (S j)) with (index + 1 + Z.of_nat j) in * by lia.
    assert (rr_loop (replicate k 0) c (index + 1) = (Some (place c (index + 1 + Z.of_nat j)), index + 1 + Z.of_nat j + 1)) as E.
    { apply IH; try lia; [|done]. intros i Hi. replace (index + 1 + Z.of_nat i) with (index + Z.of_nat (S i)) by lia. apply Hno. lia. }
    by destruct (c !! place c index) as [[]|].
Qed.

(** A full turn passes every place. *)
Lemma place_reached c index i :
  (i < length c)%nat -> exists j, (j < length c)%nat /\ place c (index + Z.of_nat j) = i.
Proof.
  intros Hi. set (n := len c). assert (0 < n) as Hn by (unfold n, len; lia).
  exists (Z.to_nat ((Z.of_nat i - index) mod n)). pose proof (Z.mod_pos_bound (Z.of_nat i - index) n Hn) as Hb.
  split; [unfold n, len in *; lia|]. unfold place. fold n. rewrite Z2Nat.id by lia.
  rewrite Zplus_mod_idemp_r. replace (index + (Z.of_nat i - index)) with (Z.of_nat i) by lia.
  rewrite Z.mod_small by (unfold n, len; lia). lia.
Qed.

Lemma find_first (P : nat -> Prop) `{!forall n, Decision (P n)} n :
  (forall j, (j < n)%nat -> ~ P j) \/ exists j, (j < n)%nat /\ P j /\ forall i, (i < j)%nat -> ~ P i.
Proof.
  induction n as [|n [IH|(j & Hj & Hp & Hf)]]; [left; lia| |right; exists j; split; [lia|done]].
  destruct (decide (P n)) as [Hn|Hn]; [right; exists n; split; [lia|done]|left].
  intros j Hj. destruct (decide (j = n)) as [->|]; [done|]. apply IH. lia.
Qed.

(** A call that nobody interrupts takes the first usable place from where the counter
    stands, and leaves the counter behind it. *)
Lemma rr_select_spec c index :
  0 <= index -> index + len c < 2 ^ 64 ->
  (true ∉ c /\ (rr_select c index).1 = None) \/
  exists j, (j < length c)%nat /\ c !! place c (index + Z.of_nat j) = Some true /\
    (forall i, (i < j)%nat -> c !! place c (index + Z.of_nat i) <> Some true) /\
    rr_select c index = (Some (place c (index + Z.of_nat j)), index + Z.of_nat j + 1).
Proof.
  intros H0 Hm. unfold rr_select. destruct (len c =? 0) eqn:E.
  { left. apply Z.eqb_eq in E. destruct c; [|unfold len in E; cbn in E; lia]. split; [set_solver|done]. }
  destruct (find_first (fun j => c !! place c (index + Z.of_nat j) = Some true) (length c)) as [Hno|(j & Hj & Hp & Hf)].
  - left. split.
    + intros Hin. apply list_elem_of_lookup in Hin as [i Hi]. pose proof (lookup_lt_Some _ _ _ Hi) as Hl.
      destruct (place_reached c index i Hl) as (j & Hj & <-). by apply (Hno j).
    + by rewrite rr_loop_skip.
  - right. exists j. split; [done|]. split; [done|]. split; [done|]. by apply rr_loop_find.
Qed.

(** Successive calls. *)
Fixpoint rr_calls (m : nat) (c : list bool) (index : Z) : list (option nat) :=
  match m with
  | O => []
  | S m => let '(r, index) := rr_select c index in r :: rr_calls m c index
  end.

(** The rotation reaches every usable backend in as many calls as there are backends. *)
Lemma rr_fair c index i :
  0 <= index -> index + 2 * len c < 2 ^ 64 -> c !! i = Some true -> Some i ∈ rr_calls (length c) c index.
Proof.
  intros H0 Hm Hi. pose proof (lookup_lt_Some _ _ _ Hi) as Hl. destruct (place_reached c index i Hl) as (d & Hd & Hp).
  assert (forall d m index, 0 <= index -> index + Z.of_nat d + len c < 2 ^ 64 -> (d < m)%nat -> place c (index + Z.of_nat d) = i ->
    Some i ∈ rr_calls m c index) as H; [|by apply (H d); try lia; unfold len in *; lia].
  clear d Hd Hp index H0 Hm. induction d as [d IH] using lt_wf_ind. intros m index H0 Hm Hdm Hp.
  destruct m as [|m]; [lia|]. cbn [rr_calls].
  destruct (rr_select_spec c index) as [[Hno _]|(j & Hj & Hc & Hf & ->)]; [done|lia| |].
  { destruct Hno. by eapply list_elem_of_lookup_2. }
  destruct (decide (j = d)) as [->|Hne]; [rewrite Hp; by left|]. right.
  assert (j < d)%nat as Hjd.
  { destruct (decide (j < d)%nat); [done|]. exfalso. apply (Hf d); [lia|]. by rewrite Hp. }
  apply (IH (d - S j)%nat); try lia. rewrite <- Hp. f_equal. lia.
Qed.

(** Two callers can take turns so that one of them sees only the place that is down. *)
Lemma rr_interleaved_misses : rr_loop [1; 1] [true; false] 0 = (None, 4) /\ (rr_select [true; false] 0).1 = Some 0%nat.
Proof. split; reflexivity. Qed.

(** ** The random choice *)

Lemma filter_iff_in {A} (P Q : A -> Prop) `{!forall x, Decision (P x), !forall x, Decision (Q x)} (l : list A) :
  (forall x, x ∈ l -> P x <-> Q x) -> base.filter P l = base.filter Q l.
Proof.
  induction l as [|x l IH]; intros Hl; [done|]. rewrite !filter_cons, IH by (intros; apply Hl; by right).
  pose proof (Hl x (list_elem_of_here x l)). by repeat case_decide; try naive_solver.
Qed.

Lemma elem_of_usable c i : i ∈ usable c <-> c !! i = Some true.
Proof.
  unfold usable. rewrite list_elem_of_filter, elem_of_seq. split; [by intros [? _]|]. intros H. split; [done|].
  apply lookup_lt_Some in H. lia.
Qed.

Lemma length_usable c : length (usable c) = length (base.filter (fun b => b = true) c).
Proof.
  unfold usable. induction c as [|b c IH] using rev_ind; [done|].
  rewrite length_app, seq_app, !filter_app, !length_app, <- IH. cbn [seq length]. f_equal.
  - f_equal. apply filter_iff_in. intros i Hi. apply elem_of_seq in Hi. rewrite lookup_app_l by lia. done.
  - rewrite !filter_cons, !filter_nil. cbn. rewrite lookup_app_r, Nat.sub_diag by lia. cbn.
    destruct b; [by rewrite !decide_True|by rewrite !decide_False].
Qed.

(** Each draw below the count is one usable backend, and each usable backend is one
    draw. *)
Lemma random_select_spec draw c :
  (draw < length (base.filter (fun b => b = true) c))%nat ->
  exists i, random_select draw c = Some i /\ c !! i = Some true /\ forall draw', random_select draw' c = Some i -> draw' = draw.
Proof.
  intros Hd. unfold random_select. rewrite bool_decide_eq_false_2 by lia. rewrite <- length_usable in Hd.
  apply lookup_lt_is_Some in Hd as [i Hi]. exists i. split; [done|]. split.
  - apply elem_of_usable. by eapply list_elem_of_lookup_2.
  - intros draw' H'. eapply NoDup_lookup; [|done|done]. apply NoDup_filter, NoDup_seq.
Qed.

Lemma random_select_none draw c : true ∉ c -> random_select draw c = None.
Proof.
  intros Hn. unfold random_select. rewrite bool_decide_eq_true_2; [done|].
  destruct (base.filter (fun b => b = true) c) as [|b l] eqn:E; [done|].
  destruct Hn. assert (b ∈ base.filter (fun b => b = true) c) as H by (rewrite E; by left). apply list_elem_of_filter in H as [<- ?]. done.
Qed.

(** ** Choosing a backend *)

(** The balancer's state and the draw are such that a call decides. *)
Definition may_select (draw : nat) (c : list bool) (b : Balancer) : Prop :=
  match b with
  | RoundRobin index => 0 <= index /\ index + len c < 2 ^ 64
  | Random => true ∈ c -> (draw < length (base.filter (fun b => b = true) c))%nat
  end.

Lemma select_spec draw c b :
  may_select draw c b ->
  match (select draw c b).1 with
  | Some i => c !! i = Some true
  | None => true ∉ c
  end.
Proof.
  intros Hm. destruct b as [index|]; cbn in *.
  - destruct Hm as [H0 Hm]. destruct (rr_select_spec c index H0 Hm) as [[Hn E]|(j & Hj & Hc & Hf & E)].
    + destruct (rr_select c index) as [r x]. cbn in *. by subst r.
    + by rewrite E.
  - destruct (decide (true ∈ c)) as [Hin|Hn].
    + destruct (random_select_spec draw c (Hm Hin)) as (i & -> & Hc & _). done.
    + by rewrite random_select_none.
Qed.

Lemma select_pools draw c b : may_select draw c b -> forall i, (select draw c b).1 = Some i -> (i < length c)%nat.
Proof. intros Hm i E. pose proof (select_spec draw c b Hm) as H. rewrite E in H. by eapply lookup_lt_Some. Qed.

(** One of the backends that are not known to be down; the only one there is; or none,
    when several are there and all are down. *)
Lemma choose_spec draw health d :
  may_select draw (candidates health d) (dp_balancer d) ->
  let '(r, d') := choose draw health d in
  dp_pools d' = dp_pools d /\
  match r with
  | Ok i => exists p, dp_pools d !! i = Some p /\
      ((forall node, health !! pr_backend p = Some node -> nh_reachable node = true) \/ dp_pools d = [p])
  | Err ChE_no_pools => dp_pools d = []
  | Err (ChE_nobody_answers nodes) => nodes = pr_backend <$> dp_pools d /\ (2 <= length nodes)%nat /\
      forall p, p ∈ dp_pools d -> exists node, health !! pr_backend p = Some node /\ nh_reachable node = false
  end.
Proof.
  intros Hm. unfold choose. case_bool_decide as Hne; [done|].
  pose proof (select_spec _ _ _ Hm) as Hs. destruct (select draw (candidates health d) (dp_balancer d)) as [[i|] b]; cbn in Hs.
  - split; [done|]. unfold candidates in Hs. rewrite list_lookup_fmap in Hs. apply fmap_Some in Hs as (p & Hp & Hh).
    exists p. split; [done|]. left. intros node Hn. by rewrite Hn in Hh.
  - cbn. assert (forall p, p ∈ dp_pools d -> exists node, health !! pr_backend p = Some node /\ nh_reachable node = false) as Hdown.
    { intros p Hp. destruct (health !! pr_backend p) as [node|] eqn:En; [destruct (nh_reachable node) eqn:Er; [|eauto]|].
      all: destruct Hs; apply list_elem_of_fmap; exists p; by rewrite En. }
    destruct (dp_pools d) as [|p [|q l]] eqn:Ep; [done|..].
    + rewrite bool_decide_eq_true_2 by done. cbn. split; [done|]. exists p. split; [done|]. by right.
    + rewrite bool_decide_eq_false_2 by done. cbn. split; [done|]. split; [done|]. split; [cbn; lia|done].
Qed.

(** ** The index answers as the patterns do *)

Lemma wildcard_key_spec p key :
  wildcard_key p = Some key <-> (key <> [] /\ p = STAR :: DOT :: key) \/ (key = [] /\ p = [STAR]).
Proof.
  unfold wildcard_key. destruct (strip_prefix [STAR; DOT] p) as [suffix|] eqn:E.
  - apply strip_prefix_Some in E as ->. case_bool_decide; naive_solver.
  - assert (forall k, p <> STAR :: DOT :: k) as Hne.
    { intros k ->. assert (strip_prefix [STAR; DOT] (STAR :: DOT :: k) = Some k) by (by apply strip_prefix_Some). congruence. }
    case_bool_decide; naive_solver.
Qed.

Lemma wildcard_key_inj p q key : wildcard_key p = Some key -> wildcard_key q = Some key -> p = q.
Proof. rewrite !wildcard_key_spec. naive_solver. Qed.

(** Whatever the order of the walk, the index holds the wildcards. *)
Lemma wildcards_of_spec patterns key p :
  wildcards_of patterns !! key = Some p <-> p ∈ patterns /\ wildcard_key p = Some key.
Proof.
  unfold wildcards_of. induction patterns as [|q patterns IH] using rev_ind; [cbn; rewrite lookup_empty; set_solver|].
  rewrite foldl_app. cbn. rewrite elem_of_app, list_elem_of_singleton. destruct (wildcard_key q) as [k|] eqn:Eq.
  - destruct (decide (k = key)) as [->|Hne].
    + rewrite lookup_insert_eq. split; [intros [= <-]; eauto|]. intros [_ Hp]. f_equal. by eapply wildcard_key_inj.
    + rewrite lookup_insert_ne, IH by done. split; [naive_solver|]. intros [[Hp| ->] Hk]; [done|congruence].
  - rewrite IH. split; [naive_solver|]. intros [[Hp| ->] Hk]; [done|congruence].
Qed.

(** The walk finds the longest of the indexed suffixes. *)
Lemma walk_suffixes_spec fuel w s :
  (length s < fuel)%nat ->
  match walk_suffixes fuel w s with
  | Some p => exists label rest, s = label ++ DOT :: rest /\ w !! rest = Some p /\
      forall label' rest', s = label' ++ DOT :: rest' -> is_Some (w !! rest') -> (length rest' <= length rest)%nat
  | None => forall label rest, s = label ++ DOT :: rest -> w !! rest = None
  end.
Proof.
  revert s. induction fuel as [|fuel IH]; intros s Hf; [lia|]. cbn.
  destruct (split_once DOT s) as [[h rest]|] eqn:E.
  - apply split_once_Some in E as [-> Hh].
    assert (forall label' rest', h ++ DOT :: rest = label' ++ DOT :: rest' ->
      rest' = rest \/ exists l, rest = l ++ DOT :: rest') as Hcut.
    { intros label' rest' E. apply app_eq_inv in E as [(k & -> & E)|(k & -> & E)].
      - destruct k as [|x k]; cbn in E; [left; congruence|]. injection E as <- _. destruct Hh. set_solver.
      - destruct k as [|x k]; cbn in E; [left; congruence|]. injection E as _ E. right. eauto. }
    destruct (w !! rest) as [p|] eqn:Ew.
    + exists h, rest. split; [done|]. split; [done|]. intros label' rest' E _.
      destruct (Hcut _ _ E) as [->|[l ->]]; [lia|]. rewrite length_app. cbn. lia.
    + specialize (IH rest). rewrite length_app in Hf. cbn in Hf. specialize (IH ltac:(lia)).
      destruct (walk_suffixes fuel w rest) as [p|].
      * destruct IH as (label & r & -> & Hr & Hmax). exists (h ++ DOT :: label), r.
        split; [by rewrite <- app_assoc|]. split; [done|]. intros label' rest' E Hs.
        destruct (Hcut _ _ E) as [->|[l El]]; [by rewrite Ew in Hs; destruct Hs|]. by eapply Hmax.
      * intros label r E. destruct (Hcut _ _ E) as [->|[l El]]; [done|]. by eapply IH.
  - apply split_once_None in E. intros label rest ->. destruct E. set_solver.
Qed.

(** How much of a name a pattern fixes. *)
Definition rank (pattern : bytes) : Z :=
  if bool_decide (pattern = [STAR]) then 0
  else match strip_prefix [STAR; DOT] pattern with Some suffix => len suffix | None => 1 + len pattern end.

(** A host as a client names one: it does not begin with a star or end in a dot. *)
Definition nameable (host : bytes) : Prop :=
  starts_with_char STAR (normalize_host host) = false /\ ends_with_char DOT (normalize_host host) = false.

(** What may match such a host. *)
Lemma matches_nameable p h :
  starts_with_char STAR h = false -> ends_with_char DOT h = false -> host_matches p h = true ->
  p = h \/ (exists key, wildcard_key p = Some key /\
              ((key = [] /\ rank p = 0) \/ rank p = len key /\ exists label, h = label ++ DOT :: key)).
Proof.
  intros Hs Hd Hm. apply host_matches_spec in Hm as [->|[[_ ->]|(suffix & label & -> & ->)]]; [|by left|].
  - right. exists []. split; [done|]. by left.
  - right. exists suffix.
    assert (suffix <> []) as Hne.
    { intros ->. assert (ends_with_char DOT (label ++ [DOT]) = true) by (apply ends_with_char_true; eauto). congruence. }
    split; [apply wildcard_key_spec; eauto|]. right. split; [|eauto]. unfold rank.
    rewrite bool_decide_eq_false_2 by done. done.
Qed.

(** The exact name, then the longest wildcard, then the catch-all. *)
Lemma pools_for_spec g host walk :
  eg_wildcards g = wildcards_of walk -> (forall p, p ∈ walk <-> is_Some (eg_domains g !! p)) -> nameable host ->
  match pools_for g host with
  | Some pattern => is_Some (eg_domains g !! pattern) /\ host_matches pattern (normalize_host host) = true /\
      forall p, is_Some (eg_domains g !! p) -> host_matches p (normalize_host host) = true -> p = pattern \/ rank p < rank pattern
  | None => forall p, is_Some (eg_domains g !! p) -> host_matches p (normalize_host host) = false
  end.
Proof.
  intros Hw Hwalk [Hs Hd]. unfold pools_for. set (h := normalize_host host) in *. rewrite Hw.
  assert (forall p key, is_Some (eg_domains g !! p) -> wildcard_key p = Some key -> wildcards_of walk !! key = Some p) as Hix.
  { intros p key Hp Hk. apply wildcards_of_spec. split; [by apply Hwalk|done]. }
  assert (forall key p, wildcards_of walk !! key = Some p -> is_Some (eg_domains g !! p) /\ wildcard_key p = Some key) as Hxi.
  { intros key p H. apply wildcards_of_spec in H as [Hp Hk]. split; [by apply Hwalk|done]. }
  assert (forall p key, wildcard_key p = Some key -> key <> [] -> rank p = len key) as Hrank.
  { intros p key Hk Hne. apply wildcard_key_spec in Hk as [[_ ->]|[-> _]]; [|done]. unfold rank.
    by rewrite bool_decide_eq_false_2 by done. }
  destruct (eg_domains g !! h) as [d|] eqn:Eh.
  - split; [eauto|]. assert (rank h = 1 + len h) as Hrh.
    { unfold rank. destruct h as [|b h']; [done|]. cbn in Hs. rewrite bool_decide_eq_false_2 by (intros [= -> ->]; done).
      destruct (strip_prefix [STAR; DOT] (b :: h')) as [s|] eqn:E; [|done]. apply strip_prefix_Some in E. injection E as E _. rewrite E in Hs. done. }
    split; [apply host_matches_spec; eauto|]. intros p Hp Hm.
    destruct (matches_nameable p h Hs Hd Hm) as [->|(key & Hk & [[-> Hr]|[Hr [label E]]])]; [by left|right..].
    + rewrite Hr, Hrh. pose proof (len_nonneg h). lia.
    + rewrite Hr, Hrh, E, len_app, len_cons. pose proof (len_nonneg label). lia.
  - pose proof (walk_suffixes_spec (S (length h)) (wildcards_of walk) h ltac:(lia)) as Hws.
    destruct (walk_suffixes _ _ h) as [pattern|].
    + destruct Hws as (label & rest & E & Hr & Hmax). destruct (Hxi _ _ Hr) as [Hp Hk].
      assert (rest <> []) as Hne.
      { intros ->. assert (ends_with_char DOT h = true) by (apply ends_with_char_true; eauto). congruence. }
      split; [done|]. apply wildcard_key_spec in Hk as Hk'. destruct Hk' as [[_ ->]|[-> _]]; [|done].
      split; [apply host_matches_spec; right; right; eauto|]. intros p Hp' Hm.
      destruct (matches_nameable p h Hs Hd Hm) as [->|(key & Hk' & [[-> Hr']|[Hr' [label' E']]])]; [by rewrite Eh in Hp'; destruct Hp'|..].
      * right. rewrite Hr', (Hrank _ _ Hk Hne). destruct rest; [done|]. unfold len. cbn. lia.
      * pose proof (Hix _ _ Hp' Hk') as Hx. assert (length key <= length rest)%nat as Hle by (eapply Hmax; eauto).
        destruct (decide (key = rest)) as [->|Hkne]; [left; congruence|right]. rewrite Hr', (Hrank _ _ Hk Hne).
        assert (length key <> length rest); [|unfold len; lia]. intros El. apply Hkne.
        rewrite E in E'. apply app_inj_2 in E' as [_ E']; [congruence|cbn; lia].
    + destruct (wildcards_of walk !! []) as [pattern|] eqn:Ec.
      * destruct (Hxi _ _ Ec) as [Hp Hk]. apply wildcard_key_spec in Hk as [[? _]|[_ ->]]; [done|].
        split; [done|]. split; [done|]. intros p Hp' Hm.
        destruct (matches_nameable p h Hs Hd Hm) as [->|(key & Hk' & [[-> _]|[_ [label' E']]])]; [by rewrite Eh in Hp'; destruct Hp'|..].
        -- left. eapply wildcard_key_inj; [done|]. by apply wildcard_key_spec; right.
        -- pose proof (Hix _ _ Hp' Hk') as Hx. rewrite (Hws _ _ E') in Hx. done.
      * intros p Hp. destruct (host_matches p h) eqn:Hm; [|done].
        destruct (matches_nameable p h Hs Hd Hm) as [->|(key & Hk' & [[-> _]|[_ [label' E']]])]; [by rewrite Eh in Hp; destruct Hp|..].
        -- rewrite (Hix _ _ Hp Hk') in Ec. done.
        -- pose proof (Hix _ _ Hp Hk') as Hx. rewrite (Hws _ _ E') in Hx. done.
Qed.

(** ** What a configuration builds *)

Section Built.
Variable parse_id : bytes -> option EndpointId.
Variable parse_ticket : bytes -> option EndpointAddr.
Variable binds : EndpointAddr -> bool.

(** The backend a mapping names: its Node ID, or the identity of its ticket. *)
Definition names_backend (m : DomainMapping) (id : EndpointId) : Prop :=
  match dm_node_id m with
  | Some text => parse_id (trim text) = Some id
  | None => exists ticket addr, dm_ticket m = Some ticket /\ parse_ticket_field parse_id parse_ticket ticket = Ok (Some addr) /\ ea_id addr = id
  end.

Lemma parse_endpoint_addr_names m addr :
  parse_endpoint_addr parse_id parse_ticket (dm_node_id m) (dm_ticket m) = Ok addr -> names_backend m (ea_id addr).
Proof.
  unfold parse_endpoint_addr, names_backend. destruct (dm_node_id m) as [text|]; cbn.
  - destruct (parse_id (trim text)) as [id|]; cbn; [|done].
    destruct (dm_ticket m) as [ticket|]; cbn; [|by intros [= <-]].
    destruct (parse_ticket_field _ _ ticket) as [[a|]|]; cbn; [|by intros [= <-]|done]. case_bool_decide; cbn; [|done]. by intros [= <-].
  - destruct (dm_ticket m) as [ticket|]; cbn; [|done]. destruct (parse_ticket_field _ _ ticket) as [[a|]|] eqn:E; cbn; [|done..].
    intros [= <-]. eauto.
Qed.

(** One pool serves the mappings that spell the same backend. *)
Lemma names_backend_key m m' id : mapping_key m = mapping_key m' -> names_backend m id -> names_backend m' id.
Proof.
  unfold mapping_key, names_backend. destruct (dm_node_id m) as [a|], (dm_node_id m') as [b|].
  - intros E%app_inv_head. by subst.
  - destruct (dm_ticket m'); done.
  - destruct (dm_ticket m); done.
  - intros E (ticket & addr & Ht & Hp & Hi). rewrite Ht in E. destruct (dm_ticket m') as [ticket'|]; [|done].
    apply app_inv_head in E as <-. eauto.
Qed.

Definition for_pattern (pattern : bytes) (ms : list DomainMapping) : list DomainMapping :=
  base.filter (fun m => normalize_pattern (dm_domain m) = pattern) ms.

Record built (ms : list DomainMapping) (b : Building) : Prop := {
  bt_keys pattern : default [] (bd_keys b !! pattern) = mapping_key <$> for_pattern pattern ms;
  bt_some pattern ks : bd_keys b !! pattern = Some ks -> ks <> [];
  bt_pools m : m ∈ ms -> is_Some (bd_pools b !! mapping_key m);
  bt_names k p : bd_pools b !! k = Some p -> exists m, m ∈ ms /\ mapping_key m = k /\ names_backend m (pr_backend p);
}.

Lemma built_mapping ms m b b' :
  built ms b -> build_mapping parse_id parse_ticket binds m b = Ok b' -> built (ms ++ [m]) b'.
Proof.
  intros [H1 H2 H3 H4] Hb. unfold build_mapping in Hb.
  set (r := match bd_pools b !! mapping_key m with Some _ => Ok b | None => _ end) in Hb. destruct r as [b1|] eqn:Er; [|done].
  cbn in Hb. injection Hb as <-.
  assert (bd_keys b1 = bd_keys b /\ (forall k, is_Some (bd_pools b !! k) -> is_Some (bd_pools b1 !! k)) /\
    is_Some (bd_pools b1 !! mapping_key m) /\
    (forall k p, bd_pools b1 !! k = Some p -> bd_pools b !! k = Some p \/ k = mapping_key m /\ names_backend m (pr_backend p))) as (E & Hk & Hm & Hn).
  { subst r. destruct (bd_pools b !! mapping_key m) as [p|] eqn:Ep; [injection Er as <-; naive_solver|].
    destruct (parse_endpoint_addr _ _ _ _) as [addr|] eqn:Ea; [|done]. destruct (binds addr); [|done]. injection Er as <-. cbn.
    split; [done|]. split; [|split].
    - intros k Hk. destruct (decide (mapping_key m = k)) as [<-|]; [by rewrite lookup_insert_eq|by rewrite lookup_insert_ne].
    - by rewrite lookup_insert_eq.
    - intros k p. rewrite lookup_insert_Some. intros [[<- <-]|[_ ?]]; [right|by left]. split; [done|]. by apply parse_endpoint_addr_names. }
  split; cbn.
  - intros pattern. unfold for_pattern. rewrite filter_app, fmap_app, filter_cons, filter_nil. rewrite E.
    destruct (decide (normalize_pattern (dm_domain m) = pattern)) as [<-|Hne].
    + rewrite lookup_insert_eq. cbn. rewrite H1. done.
    + rewrite lookup_insert_ne by done. rewrite H1. cbn. by rewrite app_nil_r.
  - intros pattern ks. rewrite lookup_insert_Some, E. intros [[_ <-]|[_ ?]]; [|eauto]. by destruct (default [] _).
  - intros m'. rewrite elem_of_app, list_elem_of_singleton. intros [?| ->]; [|done]. apply Hk. auto.
  - intros k p Hp. destruct (Hn _ _ Hp) as [Ho|[-> ?]].
    + destruct (H4 _ _ Ho) as (m' & ? & ? & ?). exists m'. split; [set_solver|done].
    + exists m. split; [set_solver|done].
Qed.

Lemma built_mappings ms ms' b b' :
  built ms b -> build_mappings parse_id parse_ticket binds ms' b = Ok b' -> built (ms ++ ms') b'.
Proof.
  revert ms b. induction ms' as [|m ms' IH]; intros ms b Hb; cbn.
  - intros [= <-]. by rewrite app_nil_r.
  - destruct (build_mapping _ _ _ m b) as [b1|] eqn:E; [|done]. cbn. intros H.
    apply (built_mapping ms m) in E; [|done]. apply (IH _ _ E) in H. by rewrite <- app_assoc in H.
Qed.

(** The domains of a group are the folded patterns, each with the pools of its
    mappings in their order. *)
Lemma build_domains_spec ms default_addr strategy walk g :
  build parse_id parse_ticket binds ms default_addr strategy walk = Ok g ->
  (forall pattern, is_Some (eg_domains g !! pattern) <-> for_pattern pattern ms <> []) /\
  (forall pattern d, eg_domains g !! pattern = Some d ->
     Forall2 (fun m p => names_backend m (pr_backend p)) (for_pattern pattern ms) (dp_pools d)) /\
  eg_wildcards g = wildcards_of (walk (eg_domains g)).
Proof.
  unfold build. destruct (build_mappings _ _ _ ms _) as [b|] eqn:E; [|done]. cbn.
  apply (built_mappings []) in E; [|split; cbn; [intros; by rewrite lookup_empty|done|set_solver|done]].
  set (dp := match default_addr with None => _ | Some _ => _ end). destruct dp as [dp'|]; [|done]. cbn. intros [= <-]. cbn.
  destruct E as [H1 H2 H3 H4]. cbn [app] in *. unfold build_domains.
  assert (forall l, (forall m, m ∈ l -> m ∈ ms) ->
    Forall2 (fun m p => names_backend m (pr_backend p)) l (omap (fun key => bd_pools b !! key) (mapping_key <$> l))) as Hall.
  { induction l as [|m l IH]; intros Hin; [constructor|]. cbn. destruct (H3 m) as [p Hp]; [apply Hin; by left|].
    rewrite Hp. constructor; [|apply IH; intros; apply Hin; by right].
    destruct (H4 _ _ Hp) as (m' & _ & Hk & Hn). by eapply names_backend_key. }
  assert (forall pattern, (forall m, m ∈ for_pattern pattern ms -> m ∈ ms)) as Hsub by (intros pattern m; unfold for_pattern; rewrite list_elem_of_filter; tauto).
  assert (forall pattern ks, bd_keys b !! pattern = Some ks -> ks = mapping_key <$> for_pattern pattern ms) as Hks.
  { intros pattern ks E. rewrite <- H1, E. done. }
  split; [|split; [|done]].
  - intros pattern. rewrite lookup_omap. split.
    + destruct (bd_keys b !! pattern) as [ks|] eqn:Ek; [|by intros []]. intros _ En. pose proof (Hks _ _ Ek) as ->. rewrite En in Ek.
      by apply (H2 _ _ Ek).
    + intros Hne. destruct (bd_keys b !! pattern) as [ks|] eqn:Ek.
      * cbn. pose proof (Hks _ _ Ek) as ->. rewrite bool_decide_eq_false_2; [by eexists|].
        intros E0. pose proof (Hall _ (Hsub pattern)) as Hf. rewrite E0 in Hf. by inversion Hf.
      * specialize (H1 pattern). rewrite Ek in H1. cbn in H1. by destruct (for_pattern pattern ms).
  - intros pattern d. rewrite lookup_omap. destruct (bd_keys b !! pattern) as [ks|] eqn:Ek; [|done]. cbn.
    case_bool_decide; [done|]. intros [= <-]. cbn. rewrite (Hks _ _ Ek). apply Hall, Hsub.
Qed.

End Built.

(** A group answers for a host with the pools of the most specific configured
    pattern that covers it - the exact name before the longest wildcard before the
    catch-all - and finds none exactly when no pattern of the configuration matches the
    host by the rule the rest of the client uses; the pools of a pattern are those of
    the backends its mappings name, in their order.  Whatever the order in which the
    index was filled. *)
Theorem index_most_specific parse_id parse_ticket binds ms default_addr strategy walk g host
  (Hwalk : forall m p, p ∈ walk m <-> is_Some (m !! p))
  (Hb : build parse_id parse_ticket binds ms default_addr strategy walk = Ok g) (Hn : nameable host) :
  match pools_for g host with
  | Some pattern => exists d, eg_domains g !! pattern = Some d /\
      Forall2 (fun m p => names_backend parse_id parse_ticket m (pr_backend p)) (for_pattern pattern ms) (dp_pools d) /\
      host_matches pattern (normalize_host host) = true /\
      forall m, m ∈ ms -> host_matches (normalize_pattern (dm_domain m)) (normalize_host host) = true ->
        normalize_pattern (dm_domain m) = pattern \/ rank (normalize_pattern (dm_domain m)) < rank pattern
  | None => host_matches_any (dm_domain <$> ms) host = false
  end.
Proof.
  destruct (build_domains_spec _ _ _ _ _ _ _ _ Hb) as (Hd & Hp & Hw).
  pose proof (pools_for_spec g host _ Hw (Hwalk (eg_domains g)) Hn) as H.
  assert (forall m, m ∈ ms -> is_Some (eg_domains g !! normalize_pattern (dm_domain m))) as Hin.
  { intros m Hm. apply Hd. intros E. assert (m ∈ for_pattern (normalize_pattern (dm_domain m)) ms) as Hm'.
    { unfold for_pattern. by apply list_elem_of_filter. } rewrite E in Hm'. set_solver. }
  destruct (pools_for g host) as [pattern|].
  - destruct H as ([d Ed] & Hm & Hmax). exists d. split; [done|]. split; [by apply Hp|]. split; [done|].
    intros m Hm' Hc. by apply Hmax; [apply Hin|].
  - apply not_true_iff_false. unfold host_matches_any. rewrite existsb_Exists. intros (p & Hp' & Hm).
    apply list_elem_of_fmap in Hp' as (m & -> & Hm'). rewrite (H _ (Hin _ Hm')) in Hm. done.
Qed.

(** ** Requests *)

(** A backend that nothing has called down, or the only one. *)
Definition worth_dialling (health : HealthTable) (d : DomainPools) (p : PoolRef) : Prop :=
  (forall node, health !! pr_backend p = Some node -> nh_reachable node = true) \/ dp_pools d = [p].

Lemma domain_connection_spec {A} now draw (dial : nat -> result A DialError) health d :
  may_select draw (candidates health d) (dp_balancer d) ->
  let '(r, health', d') := domain_get_connection now draw dial health d in
  dp_pools d' = dp_pools d /\
  match r with
  | Ok (i, a) => health' = health /\ exists p, dp_pools d !! i = Some p /\ worth_dialling health d p /\ dial (pr_number p) = Ok a
  | Err (GE_dial e) => exists i p, dp_pools d !! i = Some p /\ worth_dialling health d p /\ dial (pr_number p) = Err e /\
      health' = if blames_backend e then record_outcome now (pr_backend p) false health else health
  | Err (GE_choose (ChE_nobody_answers nodes)) => health' = health /\ nodes = pr_backend <$> dp_pools d /\ (2 <= length nodes)%nat /\
      forall p, p ∈ dp_pools d -> exists node, health !! pr_backend p = Some node /\ nh_reachable node = false
  | Err (GE_choose ChE_no_pools) => health' = health /\ dp_pools d = []
  | Err GE_no_endpoint => False
  end.
Proof.
  intros Hm. pose proof (choose_spec draw health d Hm) as H. unfold domain_get_connection.
  destruct (choose draw health d) as [[i|[|nodes]] d'].
  - destruct H as (Ed & p & Hp & Hw). rewrite Ed, Hp. destruct (dial (pr_number p)) as [a|e] eqn:Er; (split; [done|]).
    + split; [done|]. by exists p.
    + by exists i, p.
  - by destruct H.
  - destruct H as (? & ? & ? & ?). done.
Qed.

Lemma recorded_failure now id health :
  exists node, record_outcome now id false health !! id = Some node /\ nh_reachable node = false.
Proof. unfold record_outcome. eexists. split; [apply lookup_insert_eq|done]. Qed.

(** A request for a covered host goes to a backend of its domain that the health
    table does not call down, or to the only one there is; when all of several are down
    it is refused without a dial, naming them.  A dial that failed for a reason of the
    backend's marks that backend down, one that failed for a reason of the client's own
    marks nobody, and the next request of a domain with several backends goes past the
    one that was marked. *)
Theorem group_connection_spec {A} (now draw : _) (dial : nat -> result A DialError) domain g key d
  (Hk : pools_for g domain = Some key) (Hd : eg_domains g !! key = Some d)
  (Hm : may_select draw (candidates (eg_health g) d) (dp_balancer d)) :
  let '(r, g') := group_get_connection now draw dial domain g in
  (exists d', eg_domains g' !! key = Some d' /\ dp_pools d' = dp_pools d) /\
  match r with
  | Ok (i, a) => eg_health g' = eg_health g /\
      exists p, dp_pools d !! i = Some p /\ worth_dialling (eg_health g) d p /\ dial (pr_number p) = Ok a
  | Err (GE_dial e) => exists i p, dp_pools d !! i = Some p /\ worth_dialling (eg_health g) d p /\ dial (pr_number p) = Err e /\
      if blames_backend e then
        eg_health g' = record_outcome now (pr_backend p) false (eg_health g) /\
        ((2 <= length (dp_pools d))%nat -> forall draw' d' j, eg_domains g' !! key = Some d' ->
           may_select draw' (candidates (eg_health g') d') (dp_balancer d') -> (choose draw' (eg_health g') d').1 = Ok j ->
           exists q, dp_pools d !! j = Some q /\ pr_backend q <> pr_backend p)
      else eg_health g' = eg_health g
  | Err (GE_choose (ChE_nobody_answers nodes)) => eg_health g' = eg_health g /\ nodes = pr_backend <$> dp_pools d /\
      forall p, p ∈ dp_pools d -> exists node, eg_health g !! pr_backend p = Some node /\ nh_reachable node = false
  | Err (GE_choose ChE_no_pools) => dp_pools d = []
  | Err GE_no_endpoint => False
  end.
Proof.
  unfold group_get_connection. rewrite Hk. cbn. rewrite Hd. cbn.
  pose proof (domain_connection_spec now draw dial (eg_health g) d Hm) as H.
  destruct (domain_get_connection now draw dial (eg_health g) d) as [[r health'] d']. destruct H as [Ed H].
  split; [exists d'; split; [apply lookup_insert_eq|done]|].
  destruct r as [[i a]|[[|nodes]|e|]]; cbn; [done|by destruct H|by destruct H as (? & ? & ? & ?)| |done].
  destruct H as (i & p & Hp & Hw & He & ->). exists i, p. split; [done|]. split; [done|]. split; [done|].
  destruct (blames_backend e); [|done]. split; [done|]. intros H2 draw' d2 j. rewrite lookup_insert_eq. intros [= <-] Hm' Hc.
  pose proof (choose_spec draw' _ d' Hm') as Hc'. destruct (choose draw' _ d') as [r' d3]. cbn in Hc. subst r'.
  destruct Hc' as (_ & q & Hq & Hgood). rewrite Ed in Hq, Hgood. exists q. split; [done|]. intros E.
  destruct Hgood as [Hgood|El]; [|rewrite El in H2; cbn in H2; lia].
  destruct (recorded_failure now (pr_backend p) (eg_health g)) as (node & Hn & Hr).
  rewrite (Hgood node) in Hr; [done|]. by rewrite E.
Qed.

(** ** The report of a start *)

Lemma unique_loop_spec pools seen :
  NoDup ((unique_loop pools seen).*1) /\
  (forall id, id ∈ (unique_loop pools seen).*1 <-> id ∈ pr_backend <$> pools /\ id ∉ seen).
Proof.
  revert seen. induction pools as [|p pools IH]; intros seen; cbn.
  - split; [constructor|]. set_solver.
  - destruct (bool_decide (pr_backend p ∈ seen)) eqn:E; [apply bool_decide_eq_true in E|apply bool_decide_eq_false in E].
    + destruct (IH seen) as [H1 H2]. split; [done|]. intros id. rewrite H2. set_solver.
    + destruct (IH (seen ++ [pr_backend p])) as [H1 H2]. cbn. split.
      * constructor; [|done]. rewrite H2. set_solver.
      * intros id. rewrite elem_of_cons, H2, elem_of_cons, elem_of_app, list_elem_of_singleton.
        destruct (decide (id = pr_backend p)) as [->|]; [|tauto]. split; [|by left]. intros _. split; [by left|done].
Qed.

(** What was reported, with the answer. *)
Definition reported (answer : bool) (events : list Reported) : list EndpointId :=
  omap (fun e : Reported => match e with Some (id, b) => if Bool.eqb b answer then Some id else None | None => None end) events.

Lemma collect_reports_spec events :
  let '(reachable, unreachable, probed) := collect_reports events in
  reachable = reported true events /\ unreachable = reported false events /\ probed = length (reachable ++ unreachable).
Proof.
  unfold collect_reports. assert (forall r u n, n = length (r ++ u) ->
    let '(reachable, unreachable, probed) := foldl (fun acc event =>
      let '(reachable, unreachable, probed) := acc in
      match event with
      | Some (id, true) => (reachable ++ [id], unreachable, S probed)
      | Some (id, false) => (reachable, unreachable ++ [id], S probed)
      | None => acc
      end) (r, u, n) events in
    reachable = r ++ reported true events /\ unreachable = u ++ reported false events /\
    probed = length (reachable ++ unreachable)) as H; [|apply (H [] [] O eq_refl)].
  induction events as [|[[id []]|] events IH]; intros r u n Hn; cbn.
  - by rewrite !app_nil_r.
  - specialize (IH (r ++ [id]) u (S n)). destruct (foldl _ _ events) as [[x y] z].
    destruct IH as (-> & -> & ->); [rewrite Hn, !length_app; cbn; lia|]. by rewrite <- !app_assoc.
  - specialize (IH r (u ++ [id]) (S n)). destruct (foldl _ _ events) as [[x y] z].
    destruct IH as (-> & -> & ->); [rewrite Hn, !length_app; cbn; lia|]. by rewrite <- !app_assoc.
  - specialize (IH r u n Hn). by destruct (foldl _ _ events) as [[x y] z].
Qed.

Lemma record_probes_spec now answered ids health id :
  record_probes now answered ids health !! id = health !! id /\ id ∉ ids \/
  id ∈ ids /\ exists node, record_probes now answered ids health !! id = Some node /\ nh_reachable node = answered.
Proof.
  unfold record_probes. revert health. induction ids as [|x ids IH]; intros health; cbn; [left; set_solver|].
  destruct (IH (record_outcome now x answered health)) as [[E Hn]|[Hin Hx]]; [|right; split; [by right|done]].
  rewrite E. unfold record_outcome. destruct (decide (x = id)) as [->|Hne].
  - right. split; [by left|]. eexists. split; [apply lookup_insert_eq|]. by destruct answered.
  - left. split; [by apply lookup_insert_ne|set_solver].
Qed.

(** A preconnect phase reports every backend of the group once: those that answered
    in time as reachable, and all the others - refused, timed out, cut off by the phase
    or lost with their task - as unreachable.  Afterwards the health table calls a
    backend reachable exactly when it answered or asked for a credential, and nothing
    else in it has changed. *)
Theorem preconnect_report_complete now walk g events wants_auth
  (Hids : NoDup (reported true events ++ reported false events))
  (Hsub : forall id, id ∈ reported true events ++ reported false events -> id ∈ (unique_pools walk g).*1) :
  let '(report, health) := preconnect_report now (unique_pools walk g) events wants_auth (eg_health g) in
  rp_reachable report = reported true events /\
  rp_reachable report ++ rp_unreachable report ≡ₚ (unique_pools walk g).*1 /\
  (forall id, id ∈ (unique_pools walk g).*1 <-> exists p, p ∈ all_pools walk g /\ pr_backend p = id) /\
  forall id, if bool_decide (id ∈ (unique_pools walk g).*1) then
      exists node, health !! id = Some node /\ nh_reachable node = bool_decide (id ∈ rp_reachable report ++ rp_auth_required report)
    else health !! id = eg_health g !! id.
Proof.
  destruct (unique_loop_spec (all_pools walk g) []) as [Hnd Hall]. fold (unique_pools walk g) in *.
  assert (forall id, id ∈ (unique_pools walk g).*1 <-> exists p, p ∈ all_pools walk g /\ pr_backend p = id) as Hbk.
  { intros id. rewrite Hall, list_elem_of_fmap. set_solver. }
  unfold preconnect_report. set (unique := unique_pools walk g) in *. case_bool_decide as Hu.
  { rewrite Hu in *. assert (reported true events = []) as Er.
    { destruct (reported true events) as [|id l]; [done|]. specialize (Hsub id ltac:(by left)). set_solver. }
    rewrite Er. cbn. split; [done|]. split; [done|]. split; [done|]. intros id. rewrite bool_decide_eq_false_2; [done|set_solver]. }
  pose proof (collect_reports_spec events) as Hc. destruct (collect_reports events) as [[r u] probed].
  destruct Hc as (-> & -> & ->). set (R := reported true events) in *. set (U := reported false events) in *.
  match goal with |- context [if ?b then U ++ ?x else U] => set (U' := if b then U ++ x else U) end. cbn [rp_reachable rp_unreachable rp_auth_required].
  assert (R ++ U' ≡ₚ unique.*1) as Hperm.
  { apply NoDup_Permutation; [| done|].
    - subst U'. case_match; [|done]. rewrite app_assoc. apply NoDup_app. split; [done|]. split; [|by apply NoDup_filter].
      intros x Hx. rewrite list_elem_of_filter. tauto.
    - intros id. subst U'. case_match eqn:El.
      + rewrite app_assoc, elem_of_app, list_elem_of_filter. split; [intros [?|[_ ?]]; [by apply Hsub|done]|]. intros Hid.
        destruct (decide (id ∈ R ++ U)); tauto.
      + split; [apply Hsub|]. intros Hid. apply Nat.ltb_ge in El. rewrite length_fmap in El.
        assert (R ++ U ⊆+ unique.*1) as Hs by (apply NoDup_submseteq; done).
        apply submseteq_length_Permutation in Hs; [by rewrite Hs|]. by rewrite length_fmap. }
  set (auth := (base.filter _ unique).*1).
  assert (forall id, id ∈ auth -> id ∈ unique.*1) as Hauth.
  { intros id. unfold auth. rewrite !list_elem_of_fmap. intros (x & -> & Hx). apply list_elem_of_filter in Hx. naive_solver. }
  split; [done|]. split; [done|]. split; [done|]. intros id.
  pose proof (record_probes_spec now true (R ++ auth) (eg_health g) id) as H1.
  pose proof (record_probes_spec now false (base.filter (fun id => id ∉ auth) U') (record_probes now true (R ++ auth) (eg_health g)) id) as H2.
  assert (id ∈ unique.*1 <-> id ∈ R \/ id ∈ U') as Hid by (rewrite <- Hperm, elem_of_app; done).
  assert (NoDup (R ++ U')) as Hnd' by (by rewrite Hperm).
  destruct H2 as [[-> H2]|[H2 (node & Hn & Hr)]]; rewrite list_elem_of_filter in H2.
  - destruct H1 as [[-> H1]|[H1 (node & Hn & Hr)]].
    + rewrite elem_of_app in H1. rewrite bool_decide_eq_false_2; [done|]. rewrite Hid. intros [?|?]; [tauto|].
      destruct (decide (id ∈ auth)); tauto.
    + rewrite (bool_decide_eq_true_2 (id ∈ R ++ auth)) by done.
      rewrite bool_decide_eq_true_2; [eauto|]. apply elem_of_app in H1 as [?|?]; [rewrite Hid; by left|by apply Hauth].
  - destruct H2 as [Ha HU]. rewrite bool_decide_eq_true_2 by (rewrite Hid; by right). exists node. split; [done|]. rewrite Hr.
    symmetry. apply bool_decide_eq_false. rewrite elem_of_app. intros [HR|?]; [|done].
    apply NoDup_app in Hnd' as (_ & Hd & _). by apply (Hd id).
Qed.

(** A request that failed counts once against each backend it was tried on. *)
Lemma record_failures_once now backends health id :
  record_request_failures now backends health !! id =
  if bool_decide (id ∈ backends) then record_outcome now id false health !! id else health !! id.
Proof.
  unfold record_request_failures.
  assert (forall counted h, record_failures_loop now backends counted h !! id =
    if bool_decide (id ∈ backends /\ id ∉ counted) then record_outcome now id false h !! id else h !! id) as H.
  { induction backends as [|b backends IH]; intros counted h; cbn [record_failures_loop]; [by rewrite bool_decide_eq_false_2 by set_solver|].
    destruct (bool_decide (b ∈ counted)) eqn:E; [apply bool_decide_eq_true in E|apply bool_decide_eq_false in E].
    - rewrite IH. erewrite bool_decide_ext; [done|]. set_solver.
    - rewrite IH. destruct (decide (id = b)) as [->|Hne].
      + rewrite bool_decide_eq_false_2 by set_solver. by rewrite bool_decide_eq_true_2 by set_solver.
      + assert (forall x, record_outcome now b x h !! id = h !! id) as Ho by (intros; by apply lookup_insert_ne).
        erewrite (bool_decide_ext _ (id ∈ b :: backends /\ id ∉ counted)) by set_solver.
        case_bool_decide; [|apply Ho]. unfold record_outcome at 1 3. etrans; [apply lookup_insert_eq|]. symmetry. etrans; [apply lookup_insert_eq|].
        by rewrite Ho. }
  rewrite H. erewrite bool_decide_ext; [done|]. set_solver.
Qed.

(** ** A small group *)

Definition sample_id (text : bytes) : option EndpointId := if bool_decide (text = []) then None else Some text.
Definition sample_ticket (text : bytes) : option EndpointAddr :=
  match strip_prefix (lit "ticket-") text with Some id => Some {| ea_id := id; ea_addrs := [lit "relay"] |} | None => None end.
Definition sample_walk (m : gmap bytes DomainPools) : list bytes := (map_to_list m).*1.

Definition sample_mappings : list DomainMapping :=
  [{| dm_domain := lit "*.Example.com"; dm_node_id := Some (lit "A"); dm_ticket := None |};
   {| dm_domain := lit "*.example.com"; dm_node_id := None; dm_ticket := Some (lit "ticket-B") |};
   {| dm_domain := lit "www.example.com"; dm_node_id := None; dm_ticket := Some (lit "ticket-A") |};
   {| dm_domain := lit "*"; dm_node_id := Some (lit "C"); dm_ticket := None |}].

Definition sample_built : result EndpointGroup BuildError :=
  build sample_id sample_ticket (fun _ => true) sample_mappings None RoundRobinStrategy sample_walk.
Definition sample_group : EndpointGroup :=
  match sample_built with Ok g => g | Err _ => {| eg_domains := ∅; eg_wildcards := ∅; eg_default := None; eg_health := ∅ |} end.

Lemma sample_walk_spec m p : p ∈ sample_walk m <-> is_Some (m !! p).
Proof.
  unfold sample_walk. rewrite list_elem_of_fmap. split.
  - intros ([q d] & -> & H). apply elem_of_map_to_list in H. by eexists.
  - intros [d H]. exists (p, d). split; [done|]. by apply elem_of_map_to_list.
Qed.

Lemma sample_built_ok : sample_built = Ok sample_group.
Proof. unfold sample_group. destruct sample_built eqn:E; [done|]. vm_compute in E. done. Qed.

Lemma sample_nameable : nameable (lit "a.b.EXAMPLE.com.").
Proof. split; vm_compute; reflexivity. Qed.

Lemma index_most_specific_witness :
  pools_for sample_group (lit "a.b.EXAMPLE.com.") = Some (lit "*.example.com") /\
  exists d, eg_domains sample_group !! lit "*.example.com" = Some d /\
    Forall2 (fun m p => names_backend sample_id sample_ticket m (pr_backend p))
      (for_pattern (lit "*.example.com") sample_mappings) (dp_pools d) /\
    forall m, m ∈ sample_mappings -> host_matches (normalize_pattern (dm_domain m)) (lit "a.b.example.com") = true ->
      normalize_pattern (dm_domain m) = lit "*.example.com" \/ rank (normalize_pattern (dm_domain m)) < rank (lit "*.example.com").
Proof.
  pose proof (index_most_specific sample_id sample_ticket (fun _ => true) sample_mappings None RoundRobinStrategy sample_walk
    sample_group (lit "a.b.EXAMPLE.com.") sample_walk_spec sample_built_ok sample_nameable) as H.
  assert (pools_for sample_group (lit "a.b.EXAMPLE.com.") = Some (lit "*.example.com")) as E by (vm_compute; reflexivity).
  rewrite E in H. split; [exact E|]. destruct H as (d & H1 & H2 & _ & H3). exists d. split; [exact H1|]. split; [exact H2|exact H3].
Defined.

Definition sample_domain : DomainPools :=
  match eg_domains sample_group !! lit "*.example.com" with Some d => d | None => {| dp_pools := []; dp_balancer := Random |} end.

Lemma sample_pools_for : pools_for sample_group (lit "x.example.com") = Some (lit "*.example.com").
Proof. vm_compute. reflexivity. Qed.
Lemma sample_domain_ok : eg_domains sample_group !! lit "*.example.com" = Some sample_domain.
Proof. vm_compute. reflexivity. Qed.
Lemma sample_may_select : may_select 0 (candidates (eg_health sample_group) sample_domain) (dp_balancer sample_domain).
Proof.
  assert (dp_balancer sample_domain = RoundRobin 0) as -> by (vm_compute; reflexivity). cbn [may_select].
  assert (candidates (eg_health sample_group) sample_domain = [true; true]) as -> by (vm_compute; reflexivity). split; [lia|done].
Qed.

Definition sample_dial (n : nat) : result unit DialError := match n with O => Err DE_failed | S _ => Ok tt end.

(** The first backend of the domain is marked when it fails. *)
Lemma group_connection_spec_witness :
  exists p, dp_pools sample_domain !! 0%nat = Some p /\
    eg_health (group_get_connection 5 0 sample_dial (lit "x.example.com") sample_group).2
      = record_outcome 5 (pr_backend p) false (eg_health sample_group).
Proof.
  pose proof (group_connection_spec 5 0 sample_dial (lit "x.example.com") sample_group (lit "*.example.com") sample_domain
    sample_pools_for sample_domain_ok sample_may_select) as H.
  assert ((group_get_connection 5 0 sample_dial (lit "x.example.com") sample_group).1 = Err (GE_dial DE_failed)) as Er
    by (vm_compute; reflexivity).
  assert (dp_pools sample_domain = [{| pr_number := 0; pr_backend := lit "A" |}; {| pr_number := 1; pr_backend := lit "B" |}]) as El
    by (vm_compute; reflexivity).
  destruct (group_get_connection 5 0 _ _ sample_group) as [r g']. cbn [fst snd] in *. subst r.
  destruct H as (_ & i & p & Hp & _ & Hd & Hh & _). exists p. split; [|exact Hh]. rewrite El in *.
  destruct i as [|[|i]]; [exact Hp|injection Hp as <-; discriminate Hd|discriminate Hp].
Defined.

Definition sample_unique : list (EndpointId * PoolRef) := unique_pools (sample_walk (eg_domains sample_group)) sample_group.
Definition sample_events : list Reported := [Some (lit "B", true); None; Some (lit "A", false)].

Lemma sample_unique_ids id : id ∈ [lit "A"; lit "B"; lit "C"] -> id ∈ sample_unique.*1.
Proof.
  assert ([lit "A"; lit "B"; lit "C"] ≡ₚ sample_unique.*1) as -> by (apply (bool_decide_unpack _); vm_compute; done). done.
Qed.

(** A, B and C are the backends; C's task is lost. *)
Lemma preconnect_report_complete_witness :
  rp_reachable (preconnect_report 7 sample_unique sample_events (fun _ => false) (eg_health sample_group)).1 = [lit "B"] /\
  exists node, (preconnect_report 7 sample_unique sample_events (fun _ => false) (eg_health sample_group)).2 !! lit "C" = Some node /\
    nh_reachable node = false.
Proof.
  pose proof (preconnect_report_complete 7 (sample_walk (eg_domains sample_group)) sample_group sample_events (fun _ => false)
    ltac:(apply (bool_decide_unpack _); vm_compute; done)
    ltac:(intros id Hid; apply sample_unique_ids; vm_compute in Hid |- *; set_solver)) as H.
  fold sample_unique in H.
  assert (lit "C" ∉ (rp_reachable (preconnect_report 7 sample_unique sample_events (fun _ => false) (eg_health sample_group)).1 ++
    rp_auth_required (preconnect_report 7 sample_unique sample_events (fun _ => false) (eg_health sample_group)).1)) as Hc
    by (apply (bool_decide_unpack _); vm_compute; done).
  destruct (preconnect_report 7 sample_unique _ _ _) as [report health]. cbn [fst snd] in *.
  destruct H as (H1 & _ & _ & H4). split; [exact H1|]. specialize (H4 (lit "C")).
  rewrite bool_decide_eq_true_2 in H4 by (apply sample_unique_ids; vm_compute; set_solver).
  destruct H4 as (node & Hn & Hr). exists node. split; [exact Hn|]. rewrite Hr. by apply bool_decide_eq_false.
Defined.

(** Two pools of one backend, one named by its Node ID and one by a ticket: closing the
    backend's flows drops the connections of the first alone, while its credential is
    written to both. *)
Lemma close_node_leaves_a_pool :
  length (dropped_for (sample_walk (eg_domains sample_group)) (lit "A") sample_group) = 1%nat /\
  length (credential_for (sample_walk (eg_domains sample_group)) (lit "A") sample_group) = 2%nat.
Proof. split; vm_compute; reflexivity. Qed.

(** A ticket that disagrees with its Node ID is refused, unless a mapping with the same
    Node ID came before it. *)
Lemma disagreeing_ticket_ignored :
  let bad := {| dm_domain := lit "b.com"; dm_node_id := Some (lit "A"); dm_ticket := Some (lit "ticket-B") |} in
  let good := {| dm_domain := lit "a.com"; dm_node_id := Some (lit "A"); dm_ticket := None |} in
  let built ms := is_ok (build sample_id sample_ticket (fun _ => true) ms None RandomStrategy sample_walk) in
  built [bad; good] = false /\ built [good; bad] = true.
Proof. split; vm_compute; reflexivity. Qed.
