(* ===== verification/Invite.v ===== *)
(** * Invitation links (nexapipe-client/src/provisioning/)

    One [nexapipe://] link carries what a client needs before it can talk to an endpoint:
    where it is, what it serves, and the credential or the token for one.  The link is
    written by [to_uri] and read back by [from_uri] (invite.rs), over the percent
    encoding and the query of uri.rs and the credentials of credential.rs and totp.rs.
    Errors are represented by their reason.  The readers of Node IDs, tickets and relay
    URLs belong to other crates and are parameters. *)

From S2P Require Import Prelude RustStd Host AuthConfig ClientAuth.

Definition PERCENT : Z := 37.
Definition COMMA : Z := 44.
Definition SLASH : Z := 47.
Definition EQUALS : Z := 61.
Definition QUESTION : Z := 63.
Definition AMP : Z := 38.
Definition HASH : Z := 35.

Inductive InviteError :=
| IE_domain | IE_parameter | IE_escape | IE_utf8 | IE_length | IE_scheme | IE_kind | IE_target | IE_version | IE_relay
| IE_totp | IE_enrollment.

(** ** The link's plumbing *)

Definition is_unreserved (b : Z) : bool :=
  is_ascii_digit b || is_ascii_uppercase b || is_ascii_lowercase b ||
  (b =? 45) || (b =? 46) || (b =? 95) || (b =? 126) || (b =? COMMA).

(** [{byte:02X}]. *)
Definition hex_upper (n : Z) : Z := if n <? 10 then 48 + n else 55 + n.

Definition percent_encode (value : bytes) : bytes :=
  value ≫= (fun b => if is_unreserved b then [b] else [PERCENT; hex_upper (b / 16); hex_upper (b mod 16)]).

Definition hex_value (b : Z) : option Z :=
  if is_ascii_digit b then Some (b - 48)
  else if (65 <=? b) && (b <=? 70) then Some (b - 55)
  else if (97 <=? b) && (b <=? 102) then Some (b - 87)
  else None.

(** [u8::from_str_radix] on two characters, the first of which may be a sign. *)
Definition from_str_radix (a b : Z) : option Z :=
  if a =? 43 then hex_value b
  else x ← hex_value a; y ← hex_value b; Some (16 * x + y).

Fixpoint decode_escapes (value : bytes) : result bytes InviteError :=
  match value with
  | [] => Ok []
  | b :: rest =>
      if b =? PERCENT then
        match rest with
        | x :: y :: rest =>
            match from_str_radix x y with
            | Some byte => let? out := decode_escapes rest in Ok (byte :: out)
            | None => Err IE_escape
            end
        | _ => Err IE_escape
        end
      else let? out := decode_escapes rest in Ok (b :: out)
  end.

Definition percent_decode (value : bytes) : result bytes InviteError :=
  let? out := decode_escapes value in ok_or (from_utf8 out) IE_utf8.

Definition Query := list (bytes * bytes).

Fixpoint first (params : Query) (key : bytes) : option bytes :=
  match params with
  | [] => None
  | kv :: params => if bool_decide (kv.1 = key) then Some kv.2 else first params key
  end.

Definition has_any (params : Query) (keys : list bytes) : bool := existsb (fun key => is_some (first params key)) keys.

Definition parse_pair (piece : bytes) : result (option (bytes * bytes)) InviteError :=
  if bool_decide (piece = []) then Ok None
  else
    let '(key, value) := default (piece, []) (split_once EQUALS piece) in
    if bool_decide (key = []) then Err IE_parameter
    else
      let? key := percent_decode key in
      let? value := percent_decode value in
      Ok (Some (to_ascii_lowercase key, value)).

Fixpoint parse_pairs (pairs : list bytes) : result Query InviteError :=
  match pairs with
  | [] => Ok []
  | piece :: pairs =>
      let? kv := parse_pair piece in
      let? rest := parse_pairs pairs in
      Ok (match kv with Some kv => kv :: rest | None => rest end)
  end.

Definition parse_query (query : bytes) : result Query InviteError :=
  if bool_decide (trim query = []) then Ok [] else parse_pairs (split_on AMP query).

Fixpoint comma_parts (parts : list bytes) : result (list bytes) InviteError :=
  match parts with
  | [] => Ok []
  | part :: parts =>
      if bool_decide (trim part = []) then Err IE_domain
      else let? rest := comma_parts parts in Ok (trim part :: rest)
  end.
Definition comma_list (raw : bytes) : result (list bytes) InviteError :=
  if bool_decide (trim raw = []) then Ok [] else comma_parts (split_on COMMA raw).

(** [chars().any(char::is_whitespace)]. *)
Definition has_ws (s : bytes) : bool := existsb (fun w => contains_str w s) ws_chars.

Definition valid_domain (domain : bytes) : bool :=
  negb (has_ws domain || contains_char SLASH domain || contains_char QUESTION domain || contains_char HASH domain).

Fixpoint normalize_domains_loop (domains out : list bytes) : result (list bytes) InviteError :=
  match domains with
  | [] => Ok out
  | raw :: domains =>
      let domain := normalize_pattern (trim raw) in
      if bool_decide (domain = []) then Err IE_domain
      else if negb (valid_domain domain) then Err IE_domain
      else normalize_domains_loop domains (if bool_decide (domain ∈ out) then out else out ++ [domain])
  end.
Definition normalize_domains (domains : list bytes) : result (list bytes) InviteError := normalize_domains_loop domains [].

(** ** Credentials *)

Record InviteTotp := {
  it_issuer : bytes;
  it_client_id : bytes;
  it_secret : bytes;
  it_algorithm : TotpAlgorithm;
  it_digits : Z;
  it_period : Z;
}.

Record InviteEnrollment := { ie_client_id : bytes; ie_token : bytes }.

Definition DEFAULT_ISSUER : bytes := lit "NexaPipe".

Definition is_base32 (b : Z) : bool := is_ascii_uppercase b || ((50 <=? b) && (b <=? 55)).

Definition normalize_secret (raw : bytes) : result bytes InviteError :=
  let compact := remove_ws (length raw) raw in
  let secret := to_ascii_uppercase (trim_end_matches (fun b => b =? EQUALS) compact) in
  if bool_decide (secret = []) then Err IE_totp
  else if len secret <? 8 then Err IE_totp
  else if negb (forallb is_base32 secret) then Err IE_totp
  else Ok secret.

Definition totp_with_params (issuer client_id secret : bytes) (algorithm : TotpAlgorithm) (digits period : Z)
    : result InviteTotp InviteError :=
  let issuer := trim issuer in
  if bool_decide (issuer = []) then Err IE_totp
  else
    let client_id := trim client_id in
    if bool_decide (client_id = []) then Err IE_totp
    else
      let? secret := normalize_secret secret in
      if negb ((6 <=? digits) && (digits <=? 8)) then Err IE_totp
      else if period =? 0 then Err IE_totp
      else Ok {| it_issuer := issuer; it_client_id := client_id; it_secret := secret; it_algorithm := algorithm;
                 it_digits := digits; it_period := period |}.

Definition enrollment_new (client_id token : bytes) : result InviteEnrollment InviteError :=
  let client_id := trim client_id in
  if bool_decide (client_id = []) then Err IE_enrollment
  else
    let token := trim token in
    if bool_decide (token = []) then Err IE_enrollment
    else Ok {| ie_client_id := client_id; ie_token := token |}.

Definition totp_new (client_id secret : bytes) : result InviteTotp InviteError :=
  totp_with_params DEFAULT_ISSUER client_id secret SHA1 6 30.

(** What the client's own codes, of six digits over thirty seconds, do not honour. *)
Inductive Warning := DigitsIgnored (digits : Z) | PeriodIgnored (period : Z).
Definition totp_warnings (t : InviteTotp) : list Warning :=
  (if negb (it_digits t =? 6) then [DigitsIgnored (it_digits t)] else []) ++
  (if negb (it_period t =? 30) then [PeriodIgnored (it_period t)] else []).

Definition totp_params (t : InviteTotp) : Query :=
  [(lit "client", it_client_id t); (lit "issuer", it_issuer t); (lit "secret", it_secret t);
   (lit "algorithm", to_ascii_uppercase (totp_algorithm_name (it_algorithm t)));
   (lit "digits", show_uint (it_digits t)); (lit "period", show_uint (it_period t))].

Definition enrollment_params (e : InviteEnrollment) : Query := [(lit "client", ie_client_id e); (lit "enroll", ie_token e)].

Definition parse_algorithm (name : option bytes) : result TotpAlgorithm InviteError :=
  match try_from_name (default [] name) with Ok a => Ok a | Err _ => Err IE_totp end.

Definition parse_number (value : option bytes) (dflt : Z) : result Z InviteError :=
  match value with
  | Some value => ok_or (parse_uint (umax 32) (trim value)) IE_totp
  | None => Ok dflt
  end.

(** [uri.get(..prefix.len())] is the prefix, in any case. *)
Definition has_prefix_ignore_case (prefix s : bytes) : bool :=
  (length prefix <=? length s)%nat && eq_ignore_ascii_case (take (length prefix) s) prefix.

(** [rsplit('/').next()]. *)
Definition after_last (c : Z) (s : bytes) : bytes := match rsplit_once c s with Some (_, r) => r | None => s end.

Definition otpauth_totp (uri : bytes) : result (option InviteTotp) InviteError :=
  let uri := trim uri in
  let prefix := lit "otpauth://" in
  if negb (has_prefix_ignore_case prefix uri) then Err IE_totp
  else
    let rest := drop (length prefix) uri in
    let '(label, query) := match split_once QUESTION rest with Some (label, query) => (label, Some query) | None => (rest, None) end in
    let? label := percent_decode (after_last SLASH label) in
    let '(issuer_label, client_id) :=
      match split_once COLON label with Some (issuer, client) => (Some issuer, client) | None => (None, label) end in
    let? params := match query with Some query => parse_query query | None => Ok [] end in
    match first params (lit "secret") with
    | None => Err IE_totp
    | Some secret =>
        let? algorithm := parse_algorithm (first params (lit "algorithm")) in
        let? digits := parse_number (first params (lit "digits")) 6 in
        let? period := parse_number (first params (lit "period")) 30 in
        let issuer := match issuer_label with Some i => i | None => default DEFAULT_ISSUER (first params (lit "issuer")) end in
        let? t := totp_with_params issuer client_id secret algorithm digits period in Ok (Some t)
    end.

Definition totp_from_params (params : Query) : result (option InviteTotp) InviteError :=
  if is_none (first params (lit "secret")) && is_some (first params (lit "otpauth"))
  then otpauth_totp (default [] (first params (lit "otpauth")))
  else if is_some (first params (lit "secret")) && is_none (first params (lit "client")) && is_none (first params (lit "otpauth"))
  then Err IE_totp
  else
    match first params (lit "secret") with
    | None =>
        if is_none (first params (lit "enroll")) &&
           has_any params [lit "client"; lit "issuer"; lit "algorithm"; lit "digits"; lit "period"]
        then Err IE_totp else Ok None
    | Some secret =>
        if is_none (first params (lit "client")) then Err IE_totp
        else
          let? algorithm := parse_algorithm (first params (lit "algorithm")) in
          let? digits := parse_number (first params (lit "digits")) 6 in
          let? period := parse_number (first params (lit "period")) 30 in
          let? t := totp_with_params (default DEFAULT_ISSUER (first params (lit "issuer")))
                      (default [] (first params (lit "client"))) secret algorithm digits period in
          Ok (Some t)
    end.

Definition INVITE_VERSION : Z := 1.
Definition ENROLLMENT_INVITE_VERSION : Z := 2.

Definition enrollment_from_params (params : Query) (version : Z) : result (option InviteEnrollment) InviteError :=
  match first params (lit "enroll") with
  | None => Ok None
  | Some token =>
      if version <? ENROLLMENT_INVITE_VERSION then Err IE_enrollment
      else if is_some (first params (lit "secret")) || is_some (first params (lit "otpauth")) then Err IE_enrollment
      else
        match first params (lit "client") with
        | None => Err IE_enrollment
        | Some client_id => let? e := enrollment_new client_id token in Ok (Some e)
        end
  end.

(** ** The invite *)

Inductive EndpointTarget := NodeId (id : bytes) | Ticket (ticket : bytes).

Record EndpointInvite := {
  iv_target : EndpointTarget;
  iv_name : option bytes;
  iv_domains : list bytes;
  iv_relay : option bytes;
  iv_totp : option InviteTotp;
  iv_enrollment : option InviteEnrollment;
}.

Definition INVITE_SCHEME : bytes := lit "nexapipe".
Definition NODE_ID_HOST : bytes := lit "endpoint".
Definition TICKET_HOST : bytes := lit "ticket".
Definition MAX_URI_LEN : Z := 4096.

Definition target_host (t : EndpointTarget) : bytes := match t with NodeId _ => NODE_ID_HOST | Ticket _ => TICKET_HOST end.
Definition target_str (t : EndpointTarget) : bytes := match t with NodeId id => id | Ticket ticket => ticket end.

Fixpoint join (sep : Z) (parts : list bytes) : bytes :=
  match parts with
  | [] => []
  | [part] => part
  | part :: parts => part ++ sep :: join sep parts
  end.

Definition invite_params (i : EndpointInvite) : Query :=
  (lit "v", show_uint (if is_some (iv_enrollment i) then ENROLLMENT_INVITE_VERSION else INVITE_VERSION)) ::
  (match iv_name i with Some name => [(lit "name", name)] | None => [] end ++
   (if bool_decide (iv_domains i = []) then [] else [(lit "domains", join COMMA (iv_domains i))]) ++
   match iv_relay i with Some relay => [(lit "relay", relay)] | None => [] end ++
   match iv_totp i with Some t => totp_params t | None => [] end ++
   match iv_enrollment i with Some e => enrollment_params e | None => [] end).

Definition render_pair (kv : bytes * bytes) : bytes := kv.1 ++ EQUALS :: percent_encode kv.2.

Definition to_uri (i : EndpointInvite) : bytes :=
  INVITE_SCHEME ++ lit "://" ++ target_host (iv_target i) ++ SLASH :: percent_encode (target_str (iv_target i)) ++
  QUESTION :: join AMP (render_pair <$> invite_params i).

Section Read.
(** [parse::<EndpointId>()], [parse::<EndpointTicket>()], and [parse::<RelayUrl>()] with
    the scheme and the host of the URL. *)
Variable is_node_id : bytes -> bool.
Variable is_ticket : bytes -> bool.
Variable relay_url : bytes -> option (bytes * option bytes).

Definition N0_RELAY_SUFFIX : bytes := lit ".relay.n0.iroh.link".

Definition is_n0_relay (host : bytes) : bool :=
  let host := to_ascii_lowercase (trim_end_matches is_dot host) in
  bool_decide (host = trim_start_matches is_dot N0_RELAY_SUFFIX) || is_some (strip_suffix N0_RELAY_SUFFIX host).

Definition is_usable_relay_hint (relay : bytes) : bool :=
  match relay_url relay with
  | None => false
  | Some (scheme, host) =>
      if negb (bool_decide (scheme ∈ [lit "http"; lit "https"; lit "ws"; lit "wss"])) then false
      else match host with
           | None => false
           | Some host => if bool_decide (host = []) then false else negb (is_n0_relay host)
           end
  end.

Definition node_id_target (id : bytes) : result EndpointTarget InviteError :=
  if is_node_id (trim id) then Ok (NodeId (trim id)) else Err IE_target.
Definition ticket_target (ticket : bytes) : result EndpointTarget InviteError :=
  if is_ticket (trim ticket) then Ok (Ticket (trim ticket)) else Err IE_target.

Definition match_percent_host (host value : bytes) : result EndpointTarget InviteError :=
  let host := trim host in
  if eq_ignore_ascii_case host NODE_ID_HOST then node_id_target value
  else if eq_ignore_ascii_case host TICKET_HOST then ticket_target value
  else Err IE_kind.

Definition invite_new (target : EndpointTarget) (domains : list bytes) : result EndpointInvite InviteError :=
  let? domains := normalize_domains domains in
  Ok {| iv_target := target; iv_name := None; iv_domains := domains; iv_relay := None; iv_totp := None; iv_enrollment := None |}.

Definition with_name (name : bytes) (i : EndpointInvite) : EndpointInvite :=
  {| iv_target := iv_target i; iv_name := if bool_decide (trim name = []) then None else Some (trim name);
     iv_domains := iv_domains i; iv_relay := iv_relay i; iv_totp := iv_totp i; iv_enrollment := iv_enrollment i |}.
Definition with_relay (relay : option bytes) (i : EndpointInvite) : EndpointInvite :=
  {| iv_target := iv_target i; iv_name := iv_name i; iv_domains := iv_domains i;
     iv_relay := match relay with
                 | Some relay => if negb (bool_decide (trim relay = [])) && is_usable_relay_hint (trim relay) then Some (trim relay) else None
                 | None => None
                 end;
     iv_totp := iv_totp i; iv_enrollment := iv_enrollment i |}.
Definition with_totp (totp : option InviteTotp) (i : EndpointInvite) : EndpointInvite :=
  {| iv_target := iv_target i; iv_name := iv_name i; iv_domains := iv_domains i; iv_relay := iv_relay i; iv_totp := totp;
     iv_enrollment := if is_some totp then None else iv_enrollment i |}.
Definition with_enrollment (enrollment : option InviteEnrollment) (i : EndpointInvite) : EndpointInvite :=
  {| iv_target := iv_target i; iv_name := iv_name i; iv_domains := iv_domains i; iv_relay := iv_relay i;
     iv_totp := if is_some enrollment then None else iv_totp i; iv_enrollment := enrollment |}.

Definition is_enrollment (i : EndpointInvite) : bool := is_some (iv_enrollment i).
Definition client_warnings (i : EndpointInvite) : list Warning := from_option totp_warnings [] (iv_totp i).

Definition read_version (params : Query) : result Z InviteError :=
  match first params (lit "v") with
  | Some version =>
      match parse_uint (umax 32) version with
      | Some v => if negb (v =? INVITE_VERSION) && negb (v =? ENROLLMENT_INVITE_VERSION) then Err IE_version else Ok v
      | None => Err IE_version
      end
  | None => Ok INVITE_VERSION
  end.

Definition read_relay (params : Query) : result (option bytes) InviteError :=
  match first params (lit "relay") with
  | Some relay =>
      if bool_decide (trim relay = []) then Ok None
      else if is_usable_relay_hint (trim relay) then Ok (Some (trim relay)) else Err IE_relay
  | None => Ok None
  end.

Definition read_params (target : EndpointTarget) (params : Query) : result EndpointInvite InviteError :=
  let? version := read_version params in
  let? domains := match first params (lit "domains") with Some raw => comma_list raw | None => Ok [] end in
  let? domains := normalize_domains domains in
  let? relay := read_relay params in
  let? totp := totp_from_params params in
  let? enrollment := enrollment_from_params params version in
  Ok {| iv_target := target; iv_name := trim <$> first params (lit "name"); iv_domains := domains; iv_relay := relay;
        iv_totp := totp; iv_enrollment := enrollment |}.

Definition from_uri (raw : bytes) : result EndpointInvite InviteError :=
  let raw := trim raw in
  if MAX_URI_LEN <? len raw then Err IE_length
  else
    let prefix := INVITE_SCHEME ++ lit "://" in
    if negb (has_prefix_ignore_case prefix raw) then Err IE_scheme
    else
      let body := drop (length prefix) raw in
      let body := match split_once HASH body with Some (head, _) => head | None => body end in
      let '(path, query) := match split_once QUESTION body with Some (path, query) => (path, Some query) | None => (body, None) end in
      let '(host, value) := default (path, []) (split_once SLASH path) in
      let? value := percent_decode (trim_end_matches (fun b => b =? SLASH) value) in
      let? target := match_percent_host host value in
      let? params := match query with Some query => parse_query query | None => Ok [] end in
      read_params target params.
End Read.

(** ** White space *)

Abbreviation graphic := (Forall (fun b => is_ascii_graphic b = true)).

(** No white-space character is at either end. *)
Definition no_edge_ws (s : bytes) : Prop :=
  forall w r, w ∈ ws_chars -> s <> w ++ r /\ s <> r ++ w.

Lemma strip_any_none strip ts s : (forall t, t ∈ ts -> strip t s = None) -> strip_any strip ts s = None.
Proof. induction ts as [|t ts IH]; intros H; [done|]. cbn. rewrite H by (by left). apply IH. intros u Hu. apply H. by right. Qed.

Lemma strip_all_none n strip s : strip_any strip ws_chars s = None -> strip_all n strip s = s.
Proof. intros H. destruct n; cbn [strip_all]; [done|]. by rewrite H. Qed.

Lemma trim_no_edge s : no_edge_ws s -> trim s = s.
Proof.
  intros H. assert (strip_all (length s) strip_prefix s = s) as E.
  { apply strip_all_none, strip_any_none. intros w Hw. destruct (strip_prefix w s) as [r|] eqn:Er; [|done].
    apply strip_prefix_Some in Er. by destruct (H w r Hw). }
  unfold trim. rewrite E. apply strip_all_none, strip_any_none. intros w Hw. destruct (strip_suffix w s) as [r|] eqn:Er; [|done].
  apply strip_suffix_Some in Er. by destruct (H w r Hw).
Qed.

(** The first and the last byte of a white-space character. *)
Lemma ws_ends w : w ∈ ws_chars -> exists b b' u u', w = b :: u /\ w = u' ++ [b'] /\ is_ascii_graphic b = false /\ is_ascii_graphic b' = false.
Proof.
  intros Hw. assert (forallb (fun w => match w, reverse w with
      | b :: _, b' :: _ => negb (is_ascii_graphic b) && negb (is_ascii_graphic b') | _, _ => false end) ws_chars = true) as H
    by (vm_compute; reflexivity).
  apply forallb_Forall in H. rewrite Forall_forall in H. specialize (H w Hw). destruct w as [|b u]; [done|].
  destruct (reverse (b :: u)) as [|b' u'] eqn:E; [done|]. apply andb_true_iff in H as [H1 H2]. apply negb_true_iff in H1, H2.
  exists b, b', u, (reverse u'). split; [done|]. split; [|done]. apply (f_equal reverse) in E. by rewrite reverse_involutive, reverse_cons in E.
Qed.

Lemma graphic_no_edge s : graphic s -> no_edge_ws s.
Proof.
  intros Hg w r Hw. destruct (ws_ends w Hw) as (b & b' & u & u' & E & E' & Hb & Hb'). split; intros ->.
  - rewrite E in Hg. inversion Hg. congruence.
  - rewrite E', app_assoc in Hg. apply Forall_app in Hg as [_ Hg]. inversion Hg. congruence.
Qed.

Lemma trim_graphic s : graphic s -> trim s = s.
Proof. intros. by apply trim_no_edge, graphic_no_edge. Qed.

Lemma contains_str_app w l r : contains_str w (l ++ w ++ r) = true.
Proof.
  induction l as [|b l IH].
  - cbn [app]. assert (starts_with w (w ++ r) = true) as H.
    { unfold starts_with. by rewrite (proj2 (strip_prefix_Some w (w ++ r) r)). }
    assert (forall s, starts_with w s = true -> contains_str w s = true) as Hc by (intros [|? ?] Hs; cbn [contains_str]; by rewrite Hs).
    by apply Hc.
  - cbn [app contains_str]. rewrite IH. by rewrite orb_true_r.
Qed.

Lemma has_ws_in s w l r : has_ws s = false -> w ∈ ws_chars -> s <> l ++ w ++ r.
Proof.
  intros H Hw ->. assert (has_ws (l ++ w ++ r) = true); [|congruence]. unfold has_ws. apply existsb_Exists. exists w.
  split; [done|]. apply contains_str_app.
Qed.

Lemma no_ws_no_edge s : has_ws s = false -> no_edge_ws s.
Proof.
  intros H w r Hw. split; intros E.
  - by apply (has_ws_in s w [] r H Hw).
  - apply (has_ws_in s w r [] H Hw). by rewrite app_nil_r.
Qed.

(** ** Escapes *)

Lemma unreserved_graphic b : is_unreserved b = true -> is_ascii_graphic b = true /\ b ≠ PERCENT.
Proof.
  unfold is_unreserved, is_ascii_graphic, is_ascii_digit, is_ascii_uppercase, is_ascii_lowercase, PERCENT, COMMA. intros H.
  repeat (apply orb_true_iff in H as [H|H]); bools; (split; [rewrite !(proj2 (Z.leb_le _ _)) by lia; done|lia]).
Qed.

Lemma hex_upper_spec n : 0 <= n < 16 -> hex_value (hex_upper n) = Some n /\ is_unreserved (hex_upper n) = true /\ hex_upper n <> 43.
Proof.
  intros H. assert (n ∈ seqZ 0 16) as Hin by (apply elem_of_seqZ; lia).
  assert (forallb (fun n => bool_decide (hex_value (hex_upper n) = Some n) && is_unreserved (hex_upper n) && negb (hex_upper n =? 43)) (seqZ 0 16) = true) as Ha
    by (vm_compute; reflexivity).
  apply forallb_Forall in Ha. rewrite Forall_forall in Ha. specialize (Ha n Hin). apply andb_true_iff in Ha as [Ha H3].
  apply andb_true_iff in Ha as [H1 H2]. apply bool_decide_eq_true in H1. apply negb_true_iff, Z.eqb_neq in H3. done.
Qed.

Lemma byte_nibbles b : is_u8 b -> 0 <= b / 16 < 16 /\ 0 <= b mod 16 < 16 /\ 16 * (b / 16) + b mod 16 = b.
Proof.
  intros [H0 H1]. change (2 ^ 8) with 256 in H1. pose proof (Z.div_mod b 16 ltac:(lia)). pose proof (Z.mod_pos_bound b 16 ltac:(lia)).
  split; [|split; [lia|lia]]. split; [apply Z.div_pos; lia|]. apply Z.div_lt_upper_bound; lia.
Qed.

Lemma percent_encode_cons b s :
  percent_encode (b :: s) = (if is_unreserved b then [b] else [PERCENT; hex_upper (b / 16); hex_upper (b mod 16)]) ++ percent_encode s.
Proof. done. Qed.

Lemma percent_roundtrip s : bytes_ok s -> utf8_valid s = true -> percent_decode (percent_encode s) = Ok s.
Proof.
  intros Hb Hu. unfold percent_decode. assert (decode_escapes (percent_encode s) = Ok s) as ->; [|cbn; unfold from_utf8; by rewrite Hu].
  clear Hu. induction Hb as [|b s Hb _ IH]; [done|]. rewrite percent_encode_cons.
  destruct (is_unreserved b) eqn:E.
  - destruct (unreserved_graphic b E) as [_ Hne]. cbn [app decode_escapes]. rewrite (proj2 (Z.eqb_neq _ _) Hne), IH. done.
  - destruct (byte_nibbles b Hb) as (Hh & Hl & Hs). destruct (hex_upper_spec _ Hh) as (E1 & _ & Hp), (hex_upper_spec _ Hl) as (E2 & _ & _).
    cbn [app decode_escapes]. rewrite Z.eqb_refl. unfold from_str_radix. rewrite (proj2 (Z.eqb_neq _ _) Hp), E1, E2. cbn. rewrite IH. cbn. by rewrite Hs.
Qed.

(** What an encoded value is made of. *)
Lemma percent_encode_bytes s : bytes_ok s -> Forall (fun b => is_unreserved b = true \/ b = PERCENT) (percent_encode s).
Proof.
  induction 1 as [|b s Hb _ IH]; [constructor|]. rewrite percent_encode_cons. apply Forall_app. split; [|done].
  destruct (is_unreserved b) eqn:E; [constructor; [by left|constructor]|].
  destruct (byte_nibbles b Hb) as (Hh & Hl & _). destruct (hex_upper_spec _ Hh) as (_ & ? & _), (hex_upper_spec _ Hl) as (_ & ? & _).
  apply Forall_cons. split; [by right|]. apply Forall_cons. split; [by left|]. apply Forall_cons. split; [by left|constructor].
Qed.

Lemma percent_encode_graphic s : bytes_ok s -> graphic (percent_encode s).
Proof.
  intros Hb. eapply Forall_impl; [by apply percent_encode_bytes|]. intros b [H| ->]; [by apply unreserved_graphic|done].
Qed.

Lemma percent_encode_without c s : bytes_ok s -> is_unreserved c = false -> c <> PERCENT -> c ∉ percent_encode s.
Proof.
  intros Hb Hc Hp Hin. pose proof (percent_encode_bytes s Hb) as H. rewrite Forall_forall in H. destruct (H c Hin); congruence.
Qed.

(** ** Pieces *)

Lemma split_on_join c parts : parts <> [] -> Forall (fun part => c ∉ part) parts -> split_on c (join c parts) = parts.
Proof.
  intros Hne H. induction parts as [|part parts IH]; [done|]. clear Hne. apply Forall_cons in H as [Hp H].
  assert (forall s t ts, c ∉ s -> split_on c t = ts -> split_on c (s ++ c :: t) = s :: ts) as Hcut.
  { intros s t ts Hs <-. induction s as [|b s IHs]; cbn; [by rewrite Z.eqb_refl|]. apply not_elem_of_cons in Hs as [Hb Hs].
    rewrite (proj2 (Z.eqb_neq b c)) by congruence. by rewrite IHs. }
  assert (forall s, c ∉ s -> split_on c s = [s]) as Hone.
  { induction s as [|b s IHs]; intros Hs; [done|]. cbn. apply not_elem_of_cons in Hs as [Hb Hs].
    rewrite (proj2 (Z.eqb_neq b c)) by congruence. by rewrite IHs. }
  destruct parts as [|q parts]; [by apply Hone|]. cbn [join]. apply Hcut; [done|]. by apply IH.
Qed.

Lemma elem_of_join b c parts : b ∈ join c parts -> b = c \/ exists part, part ∈ parts /\ b ∈ part.
Proof.
  induction parts as [|part parts IH]; cbn; [set_solver|]. destruct parts as [|q parts]; [right; exists part; split; [by left|done]|].
  rewrite elem_of_app, elem_of_cons. intros [H|[->|H]]; [right; exists part; split; [by left|done]|by left|].
  destruct (IH H) as [->|(part' & ? & ?)]; [by left|right; exists part'; split; [by right|done]].
Qed.

(** A link's own parameters. *)
Definition pair_ok (kv : bytes * bytes) : Prop :=
  kv.1 <> [] /\ Forall (fun b => is_ascii_lowercase b = true) kv.1 /\ bytes_ok kv.2 /\ utf8_valid kv.2 = true.

Lemma key_lower k : Forall (fun b => is_ascii_lowercase b = true) k -> to_ascii_lowercase k = k /\ graphic k /\ percent_encode k = k /\ bytes_ok k.
Proof.
  intros H. assert (forall b, is_ascii_lowercase b = true -> is_ascii_uppercase b = false /\ is_ascii_graphic b = true /\ is_unreserved b = true /\ is_u8 b) as Hb.
  { intros b Hb. assert (is_unreserved b = true) as Hun by (unfold is_unreserved; rewrite Hb, !orb_true_r; done).
    split; [|split; [by apply unreserved_graphic|split; [done|]]]; unfold is_ascii_uppercase, is_ascii_lowercase in *; bools.
    - apply andb_false_iff. right. apply Z.leb_gt. lia.
    - unfold is_u8, is_uint. lia. }
  split; [|split; [|split]].
  - apply to_ascii_lowercase_id. eapply Forall_impl; [exact H|]. intros b ?. by apply Hb.
  - eapply Forall_impl; [exact H|]. intros b ?. by apply Hb.
  - induction H as [|b k Hk _ IH]; [done|]. rewrite percent_encode_cons, IH. destruct (Hb b Hk) as (_ & _ & -> & _). done.
  - eapply Forall_impl; [exact H|]. intros b ?. by apply Hb.
Qed.

Lemma key_without c k : Forall (fun b => is_ascii_lowercase b = true) k -> is_ascii_lowercase c = false -> c ∉ k.
Proof. intros H Hc Hin. rewrite Forall_forall in H. specialize (H c Hin). congruence. Qed.

Lemma render_pair_ok kv : pair_ok kv -> parse_pair (render_pair kv) = Ok (Some kv) /\ AMP ∉ render_pair kv /\ graphic (render_pair kv) /\ render_pair kv <> [].
Proof.
  destruct kv as [k v]. intros (Hne & Hk & Hv & Hu). cbn [fst snd] in *. unfold render_pair. cbn [fst snd].
  destruct (key_lower k Hk) as (El & Hg & Ee & Hb). split; [|split; [|split]].
  - unfold parse_pair. rewrite bool_decide_eq_false_2 by (by destruct k).
    rewrite split_once_app by (by apply key_without). cbn [default from_option id]. rewrite bool_decide_eq_false_2 by done.
    assert (percent_decode k = Ok k) as -> by (rewrite <- Ee at 1; apply percent_roundtrip; [done|by apply utf8_valid_graphic]).
    cbn. rewrite percent_roundtrip by done. cbn. by rewrite El.
  - rewrite elem_of_app, elem_of_cons. intros [H|[H|H]]; [by apply (key_without AMP k Hk) in H|done|].
    by apply (percent_encode_without AMP v Hv) in H.
  - apply Forall_app. split; [done|]. constructor; [done|]. by apply percent_encode_graphic.
  - by destruct k.
Qed.

Lemma graphic_join c parts : is_ascii_graphic c = true -> Forall (fun s => graphic s) parts -> graphic (join c parts).
Proof.
  intros Hc H. apply Forall_forall. intros b Hb. apply elem_of_join in Hb as [->|(part & Hp & Hb)]; [done|].
  rewrite Forall_forall in H. specialize (H part Hp). rewrite Forall_forall in H. by apply H.
Qed.

(** What was written is what is read. *)
Lemma link_query_roundtrip params :
  params <> [] -> Forall pair_ok params -> parse_query (join AMP (render_pair <$> params)) = Ok params.
Proof.
  intros Hne H. assert (graphic (join AMP (render_pair <$> params))) as Hg.
  { apply graphic_join; [done|]. apply Forall_fmap. eapply Forall_impl; [exact H|]. intros kv ?. by apply render_pair_ok. }
  unfold parse_query. rewrite bool_decide_eq_false_2.
  - rewrite split_on_join; [|by destruct params|].
    + clear Hne Hg. induction H as [|kv params Hkv H IH]; [done|]. cbn [fmap list_fmap parse_pairs].
      destruct (render_pair_ok kv Hkv) as (-> & _). cbn. rewrite IH. done.
    + apply Forall_fmap. eapply Forall_impl; [exact H|]. intros kv ?. by apply render_pair_ok.
  - rewrite trim_graphic by done. destruct params as [|kv params]; [done|]. apply Forall_cons in H as [Hkv _].
    destruct (render_pair_ok kv Hkv) as (_ & _ & _ & Hr). cbn. destruct (render_pair <$> params); cbn; [done|].
    by destruct (render_pair kv).
Qed.

(** ** Domains *)

(** A domain as [normalize_domains] leaves it, which the list separator can hold. *)
Definition domain_ok (d : bytes) : Prop :=
  normalize_pattern d = d /\ d <> [] /\ valid_domain d = true /\ COMMA ∉ d /\ bytes_ok d /\ utf8_valid d = true.

Lemma domain_ok_ws d : domain_ok d -> has_ws d = false.
Proof.
  intros (_ & _ & H & _). unfold valid_domain in H. apply negb_true_iff in H. rewrite !orb_false_iff in H. tauto.
Qed.

Lemma ws_no_comma w : w ∈ ws_chars -> COMMA ∉ w.
Proof.
  intros Hw Hc. assert (forallb (fun w => negb (contains_char COMMA w)) ws_chars = true) as H by (vm_compute; reflexivity).
  apply forallb_Forall in H. rewrite Forall_forall in H. specialize (H w Hw). apply negb_true_iff, contains_char_false in H. done.
Qed.

(** A list of names has no white space at its ends. *)
Lemma domains_no_edge ds : ds <> [] -> Forall domain_ok ds -> no_edge_ws (join COMMA ds).
Proof.
  intros Hne H w r Hw.
  pose proof (ws_no_comma w Hw) as Hc. split.
  - destruct ds as [|d ds]; [done|]. apply Forall_cons in H as [Hd _]. pose proof (domain_ok_ws d Hd) as Hws.
    destruct ds as [|e ds]; [intros E; by apply (has_ws_in d w [] r Hws Hw)|]. cbn [join]. intros E.
    apply app_eq_inv in E as [(k & E & _)|(k & E & E2)]; [by apply (has_ws_in d w [] k Hws Hw)|].
    destruct k as [|b k]; [rewrite app_nil_r in E; subst w; by apply (has_ws_in d d [] [] Hws Hw); rewrite app_nil_r|].
    injection E2 as <- _. apply Hc. rewrite E. set_solver.
  - revert r. induction ds as [|d ds IH]; [done|]. intros r. apply Forall_cons in H as [Hd H]. pose proof (domain_ok_ws d Hd) as Hws.
    destruct ds as [|e ds]; [intros E; apply (has_ws_in d w r [] Hws Hw); by rewrite app_nil_r|]. cbn [join]. intros E.
    change (d ++ COMMA :: join COMMA (e :: ds) = r ++ w) in E.
    apply app_eq_inv in E as [(k & E & E2)|(k & E & E2)].
    + apply Hc. rewrite E2. set_solver.
    + destruct k as [|b k]; [apply Hc; cbn in E2; rewrite <- E2; by left|]. injection E2 as _ E2.
      by apply (IH ltac:(done) H k).
Qed.

Lemma normalize_domains_ok ds : Forall domain_ok ds -> NoDup ds -> normalize_domains ds = Ok ds.
Proof.
  intros H Hnd. unfold normalize_domains.
  assert (forall out, NoDup (out ++ ds) -> normalize_domains_loop ds out = Ok (out ++ ds)) as Hl; [|by apply (Hl [])].
  clear Hnd. induction H as [|d ds Hd H IH]; intros out Hnd; cbn [normalize_domains_loop]; [by rewrite app_nil_r|].
  pose proof (domain_ok_ws d Hd) as Hws. destruct Hd as (Hn & Hne & Hv & _).
  rewrite trim_no_edge by (by apply no_ws_no_edge). rewrite Hn, bool_decide_eq_false_2, Hv by done. cbn [negb].
  rewrite (bool_decide_eq_false_2 (d ∈ out)).
  - rewrite IH; rewrite <- app_assoc; done.
  - apply NoDup_app in Hnd as (_ & Hd & _). intros Hin. apply (Hd d Hin). by left.
Qed.

Lemma comma_list_ok ds : ds <> [] -> Forall domain_ok ds -> comma_list (join COMMA ds) = Ok ds.
Proof.
  intros Hne H. unfold comma_list. rewrite trim_no_edge by (by apply domains_no_edge).
  rewrite bool_decide_eq_false_2.
  - rewrite split_on_join; [|done|eapply Forall_impl; [exact H|]; intros d (_ & _ & _ & ? & _); done].
    clear Hne. induction H as [|d ds Hd H IH]; [done|]. cbn [comma_parts].
    rewrite trim_no_edge by (by apply no_ws_no_edge, domain_ok_ws). destruct Hd as (_ & Hd & _).
    rewrite bool_decide_eq_false_2 by done. rewrite IH. done.
  - destruct ds as [|d [|e ds]]; [done| |]; apply Forall_cons in H as [(_ & Hd & _) _]; cbn; [done|]. by destruct d.
Qed.

(** ** The fields *)

(** A text as the constructors leave it. *)
Definition text_ok (s : bytes) : Prop := bytes_ok s /\ utf8_valid s = true /\ trim s = s.

Record totp_ok (t : InviteTotp) : Prop := {
  to_issuer : text_ok (it_issuer t) /\ it_issuer t <> [];
  to_client : text_ok (it_client_id t) /\ it_client_id t <> [];
  to_secret : normalize_secret (it_secret t) = Ok (it_secret t);
  to_digits : 6 <= it_digits t <= 8;
  to_period : 0 < it_period t < 2 ^ 32;
}.

Lemma show_parse_u32 n : 0 <= n < 2 ^ 32 ->
  parse_uint (umax 32) (show_uint n) = Some n /\ graphic (show_uint n) /\ bytes_ok (show_uint n).
Proof.
  intros [H0 H1]. unfold show_uint.
  destruct (digits_of_spec 20 n []) as (Hd & Hne & Hv); [lia|constructor|lia|].
  specialize (Hv []). rewrite !app_nil_r in Hv. cbn [digits_value] in Hv.
  assert (forall b, is_ascii_digit b = true -> is_ascii_graphic b = true /\ is_u8 b) as Hb.
  { intros b Hb. unfold is_ascii_digit, is_ascii_graphic, is_u8, is_uint in *. bools.
    split; [rewrite !(proj2 (Z.leb_le _ _)) by lia; done|lia]. }
  split; [|split; (eapply Forall_impl; [exact Hd|]; intros b ?; by apply Hb)].
  remember (digits_of 20 n []) as s eqn:Es. clear Es. unfold parse_uint.
  destruct s as [|b t]; [done|].
  assert (b =? 43 = false) as ->.
  { apply Forall_cons in Hd as [Hb' _]. unfold is_ascii_digit in Hb'. bools. apply Z.eqb_neq. lia. }
  rewrite <- Hv. apply parse_digits_value; [lia|done|]. unfold umax. lia.
Qed.

Lemma secret_graphic s s' : normalize_secret s = Ok s' -> graphic s' /\ bytes_ok s'.
Proof.
  unfold normalize_secret. case_bool_decide; [done|]. case_match; [done|]. destruct (forallb is_base32 _) eqn:E; [|done]. intros [= <-].
  apply forallb_Forall in E. assert (forall b, is_base32 b = true -> is_ascii_graphic b = true /\ is_u8 b) as Hb.
  { intros b. unfold is_base32, is_ascii_uppercase, is_ascii_graphic, is_u8, is_uint. intros Hb. apply orb_true_iff in Hb as [Hb|Hb]; bools;
      (split; [rewrite !(proj2 (Z.leb_le _ _)) by lia; done|lia]). }
  split; (eapply Forall_impl; [exact E|]; intros b ?; by apply Hb).
Qed.

Lemma trim_end_absent c s : c ∉ s -> trim_end_matches (fun b => b =? c) s = s.
Proof.
  intros Hc. destruct (trim_end_matches_spec (fun b => b =? c) s) as (d & Hd & Hall). destruct d as [|b d]; [by rewrite app_nil_r in Hd|].
  apply Forall_cons in Hall as [Hb _]. apply Z.eqb_eq in Hb as ->. destruct Hc. rewrite Hd. set_solver.
Qed.

Section Roundtrip.
Variable is_node_id : bytes -> bool.
Variable is_ticket : bytes -> bool.
Variable relay_url : bytes -> option (bytes * option bytes).

(** An invite as its constructors leave it. *)
Record invite_ok (i : EndpointInvite) : Prop := {
  io_target : text_ok (target_str (iv_target i)) /\
    match iv_target i with NodeId id => is_node_id id = true | Ticket ticket => is_ticket ticket = true end;
  io_name name : iv_name i = Some name -> text_ok name;
  io_domains : Forall domain_ok (iv_domains i) /\ NoDup (iv_domains i);
  io_relay relay : iv_relay i = Some relay -> text_ok relay /\ relay <> [] /\ is_usable_relay_hint relay_url relay = true;
  io_totp t : iv_totp i = Some t -> totp_ok t;
  io_enrollment e : iv_enrollment i = Some e ->
    text_ok (ie_client_id e) /\ ie_client_id e <> [] /\ text_ok (ie_token e) /\ ie_token e <> [];
  io_one : iv_totp i = None \/ iv_enrollment i = None;
}.

Lemma join_ok ds : Forall domain_ok ds -> bytes_ok (join COMMA ds) /\ utf8_valid (join COMMA ds) = true.
Proof.
  intros H. split.
  - apply Forall_forall. intros b Hb. apply elem_of_join in Hb as [->|(d & Hd & Hb)]; [done|].
    rewrite Forall_forall in H. destruct (H d Hd) as (_ & _ & _ & _ & Hok & _). rewrite Forall_forall in Hok. by apply Hok.
  - unfold utf8_valid. assert (utf8_run U_start (join COMMA ds) = Some U_start) as ->; [|done].
    assert (forall d, domain_ok d -> utf8_run U_start d = Some U_start) as Hd.
    { intros d (_ & _ & _ & _ & _ & Hu). unfold utf8_valid in Hu. by destruct (utf8_run U_start d) as [[]|]. }
    induction H as [|d ds Hok H IH]; [done|]. destruct ds as [|e ds]; [by apply Hd|].
    cbn [join]. rewrite utf8_run_app, Hd by done. exact IH.
Qed.

Lemma pair_text k v : k <> [] -> Forall (fun b => is_ascii_lowercase b = true) k -> bytes_ok v -> utf8_valid v = true -> pair_ok (k, v).
Proof. by repeat split. Qed.

Lemma invite_params_ok i : invite_ok i -> Forall pair_ok (invite_params i).
Proof.
  intros [H1 H2 [H3 _] H4 H5 H6 _]. unfold invite_params.
  assert (forall k, forallb is_ascii_lowercase (lit k) = true -> lit k <> [] -> forall v, bytes_ok v -> utf8_valid v = true -> pair_ok (lit k, v)) as Hp.
  { intros k Hk Hne v Hv Hu. apply pair_text; [done| |done|done]. by apply forallb_Forall. }
  assert (forall n, 0 <= n < 2 ^ 32 -> bytes_ok (show_uint n) /\ utf8_valid (show_uint n) = true) as Hn.
  { intros n Hn. destruct (show_parse_u32 n Hn) as (_ & ? & ?). split; [done|]. by apply utf8_valid_graphic. }
  constructor; [|apply Forall_app; split; [|apply Forall_app; split; [|apply Forall_app; split; [|apply Forall_app; split]]]].
  - destruct (Hn (if is_some (iv_enrollment i) then ENROLLMENT_INVITE_VERSION else INVITE_VERSION)) as [? ?]; [destruct (is_some _); done|].
    by apply (Hp "v"%string).
  - destruct (iv_name i) as [name|]; [|constructor]. destruct (H2 name eq_refl) as (? & ? & _). constructor; [by apply (Hp "name"%string)|constructor].
  - case_bool_decide; constructor; [|constructor]. destruct (join_ok _ H3). by apply (Hp "domains"%string).
  - destruct (iv_relay i) as [relay|]; [|constructor]. destruct (H4 relay eq_refl) as [(? & ? & _) _]. constructor; [by apply (Hp "relay"%string)|constructor].
  - destruct (iv_totp i) as [t|]; [|constructor]. destruct (H5 t eq_refl) as [[(? & ? & _) _] [(? & ? & _) _] Hs Hd Hpr].
    destruct (secret_graphic _ _ Hs) as [Hg ?]. destruct (Hn (it_digits t)) as [Hd1 Hd2]; [lia|]. destruct (Hn (it_period t)) as [Hp1 Hp2]; [lia|].
    pose proof (utf8_valid_graphic _ Hg). assert (bytes_ok (to_ascii_uppercase (totp_algorithm_name (it_algorithm t))) /\
      utf8_valid (to_ascii_uppercase (totp_algorithm_name (it_algorithm t))) = true) as [? ?].
    { split; [|by destruct (it_algorithm t)]. destruct (it_algorithm t); apply (bool_decide_unpack _); vm_compute; done. }
    unfold totp_params. constructor; [by apply (Hp "client"%string)|]. constructor; [by apply (Hp "issuer"%string)|].
    constructor; [by apply (Hp "secret"%string)|]. constructor; [by apply (Hp "algorithm"%string)|].
    constructor; [exact (Hp "digits"%string eq_refl ltac:(done) _ Hd1 Hd2)|].
    constructor; [exact (Hp "period"%string eq_refl ltac:(done) _ Hp1 Hp2)|constructor].
  - destruct (iv_enrollment i) as [e|]; [|constructor]. destruct (H6 e eq_refl) as ((? & ? & _) & _ & (? & ? & _) & _).
    unfold enrollment_params. constructor; [by apply (Hp "client"%string)|]. constructor; [by apply (Hp "enroll"%string)|constructor].
Qed.

(** The parameters found again. *)
Lemma first_app p q key : first (p ++ q) key = match first p key with Some v => Some v | None => first q key end.
Proof. induction p as [|kv p IH]; [done|]. cbn. by case_bool_decide. Qed.

Lemma lit_inj a b : lit a = lit b -> a = b.
Proof.
  unfold lit. intros H. assert (Inj (=) (=) (Z.of_N ∘ N_of_ascii)) as Hi.
  { intros x y E. cbn in E. apply N2Z.inj in E. rewrite <- (ascii_N_embedding x), <- (ascii_N_embedding y). by rewrite E. }
  apply (list_fmap_eq_inj _ Hi) in H.
  rewrite <- (string_of_list_ascii_of_string a), <- (string_of_list_ascii_of_string b). by rewrite H.
Qed.

Lemma first_cons_lit a b v p : first ((lit a, v) :: p) (lit b) = if String.eqb a b then Some v else first p (lit b).
Proof.
  cbn [first fst snd]. destruct (String.eqb a b) eqn:E.
  - apply String.eqb_eq in E as ->. by rewrite bool_decide_eq_true_2.
  - apply String.eqb_neq in E. rewrite bool_decide_eq_false_2; [done|]. intros H. by apply E, lit_inj.
Qed.

Ltac lookups := unfold invite_params, totp_params, enrollment_params; rewrite ?first_cons_lit; cbn [String.eqb Ascii.eqb Bool.eqb]; cbn iota.

Lemma first_v i : first (invite_params i) (lit "v") = Some (show_uint (if is_some (iv_enrollment i) then ENROLLMENT_INVITE_VERSION else INVITE_VERSION)).
Proof. by lookups. Qed.

Ltac each i :=
  unfold invite_params; rewrite first_cons_lit, !first_app;
  destruct (iv_name i), (bool_decide (iv_domains i = [])), (iv_relay i), (iv_totp i), (iv_enrollment i);
  lookups; reflexivity.

Lemma first_name i : first (invite_params i) (lit "name") = iv_name i.
Proof. each i. Qed.
Lemma first_domains i : first (invite_params i) (lit "domains") = if bool_decide (iv_domains i = []) then None else Some (join COMMA (iv_domains i)).
Proof. each i. Qed.
Lemma first_relay i : first (invite_params i) (lit "relay") = iv_relay i.
Proof. each i. Qed.
Lemma first_otpauth i : first (invite_params i) (lit "otpauth") = None.
Proof. each i. Qed.
Lemma first_secret i : first (invite_params i) (lit "secret") = it_secret <$> iv_totp i.
Proof. each i. Qed.
Lemma first_issuer i : first (invite_params i) (lit "issuer") = it_issuer <$> iv_totp i.
Proof. each i. Qed.
Lemma first_algorithm i : first (invite_params i) (lit "algorithm") = (fun t => to_ascii_uppercase (totp_algorithm_name (it_algorithm t))) <$> iv_totp i.
Proof. each i. Qed.
Lemma first_digits i : first (invite_params i) (lit "digits") = (fun t => show_uint (it_digits t)) <$> iv_totp i.
Proof. each i. Qed.
Lemma first_period i : first (invite_params i) (lit "period") = (fun t => show_uint (it_period t)) <$> iv_totp i.
Proof. each i. Qed.
Lemma first_enroll i : first (invite_params i) (lit "enroll") = ie_token <$> iv_enrollment i.
Proof. each i. Qed.
Lemma first_client i : first (invite_params i) (lit "client") =
  match iv_totp i with Some t => Some (it_client_id t) | None => ie_client_id <$> iv_enrollment i end.
Proof. each i. Qed.

Lemma totp_with_params_ok t : totp_ok t ->
  totp_with_params (it_issuer t) (it_client_id t) (it_secret t) (it_algorithm t) (it_digits t) (it_period t) = Ok t.
Proof.
  intros [[(_ & _ & Ei) Hi] [(_ & _ & Ec) Hc] Hs Hd Hp]. unfold totp_with_params. rewrite Ei, Ec, Hs.
  rewrite !bool_decide_eq_false_2 by done. cbn.
  rewrite (proj2 (Z.leb_le 6 _)), (proj2 (Z.leb_le _ 8)), (proj2 (Z.eqb_neq _ 0)) by lia. cbn. by destruct t.
Qed.

Lemma parse_algorithm_ok a : parse_algorithm (Some (to_ascii_uppercase (totp_algorithm_name a))) = Ok a.
Proof. destruct a; vm_compute; reflexivity. Qed.

Lemma parse_number_ok n d : 0 <= n < 2 ^ 32 -> parse_number (Some (show_uint n)) d = Ok n.
Proof.
  intros Hn. destruct (show_parse_u32 n Hn) as (E & Hg & _). unfold parse_number. rewrite trim_graphic by done. by rewrite E.
Qed.

Lemma totp_from_params_ok i : invite_ok i -> totp_from_params (invite_params i) = Ok (iv_totp i).
Proof.
  intros Hok. unfold totp_from_params. rewrite first_secret, first_otpauth, first_client, first_enroll, first_algorithm, first_digits, first_period, first_issuer.
  pose proof (io_totp _ Hok) as Ht. destruct (iv_totp i) as [t|] eqn:Et; cbn [fmap option_fmap option_map is_none is_some negb andb].
  - specialize (Ht t eq_refl). pose proof (to_digits _ Ht). pose proof (to_period _ Ht).
    rewrite parse_algorithm_ok, !parse_number_ok by lia. cbn [default from_option id]. by rewrite totp_with_params_ok.
  - assert (iv_enrollment i = None -> has_any (invite_params i) [lit "client"; lit "issuer"; lit "algorithm"; lit "digits"; lit "period"] = false) as Hno.
    { intros He. unfold has_any. cbn [existsb]. rewrite first_client, first_issuer, first_algorithm, first_digits, first_period, Et, He. done. }
    destruct (iv_enrollment i) as [e|]; cbn [fmap option_fmap option_map is_none andb]; [done|]. by rewrite (Hno eq_refl).
Qed.

Lemma enrollment_from_params_ok i : invite_ok i ->
  enrollment_from_params (invite_params i) (if is_some (iv_enrollment i) then ENROLLMENT_INVITE_VERSION else INVITE_VERSION) = Ok (iv_enrollment i).
Proof.
  intros Hok. unfold enrollment_from_params. rewrite first_enroll, first_secret, first_otpauth, first_client.
  pose proof (io_enrollment _ Hok) as He. pose proof (io_one _ Hok) as H1.
  destruct (iv_enrollment i) as [e|]; [|done]. destruct H1 as [-> | ?]; [|done]. cbn.
  destruct (He e eq_refl) as ((_ & _ & Ec) & Hc & (_ & _ & Et) & Ht). unfold enrollment_new. rewrite Ec, Et.
  rewrite !bool_decide_eq_false_2 by done. by destruct e.
Qed.

Lemma read_params_ok i : invite_ok i -> read_params relay_url (iv_target i) (invite_params i) = Ok i.
Proof.
  intros Hok. unfold read_params, read_version, read_relay. rewrite first_v, first_domains, first_relay, first_name.
  assert (forall b : bool, match parse_uint (umax 32) (show_uint (if b then ENROLLMENT_INVITE_VERSION else INVITE_VERSION)) with
    | Some v => if negb (v =? INVITE_VERSION) && negb (v =? ENROLLMENT_INVITE_VERSION) then Err IE_version else Ok v
    | None => Err IE_version end = Ok (if b then ENROLLMENT_INVITE_VERSION else INVITE_VERSION)) as -> by (by intros []).
  cbv beta iota. destruct (io_domains _ Hok) as [Hd Hnd].
  assert (match (if bool_decide (iv_domains i = []) then None else Some (join COMMA (iv_domains i))) with
    | Some raw => comma_list raw | None => Ok [] end = Ok (iv_domains i)) as ->.
  { case_bool_decide as E; [by rewrite E|by apply comma_list_ok]. }
  cbv beta iota. rewrite normalize_domains_ok by done. cbv beta iota.
  assert (match iv_relay i with
    | Some relay => if bool_decide (trim relay = []) then Ok None else if is_usable_relay_hint relay_url (trim relay) then Ok (Some (trim relay)) else Err IE_relay
    | None => Ok None end = Ok (iv_relay i)) as ->.
  { pose proof (io_relay _ Hok) as Hr. destruct (iv_relay i) as [relay|]; [|done]. destruct (Hr relay eq_refl) as ((_ & _ & E) & Hne & Hu).
    by rewrite E, bool_decide_eq_false_2, Hu. }
  cbv beta iota. rewrite totp_from_params_ok, enrollment_from_params_ok by done. cbv beta iota.
  assert (trim <$> iv_name i = iv_name i) as ->.
  { pose proof (io_name _ Hok) as Hn. destruct (iv_name i) as [name|]; [|done]. destruct (Hn name eq_refl) as (_ & _ & E). cbn. by rewrite E. }
  by destruct i.
Qed.

Lemma from_to_uri i : invite_ok i -> len (to_uri i) <= MAX_URI_LEN -> from_uri is_node_id is_ticket relay_url (to_uri i) = Ok i.
Proof.
  intros Hok Hlen. pose proof (invite_params_ok i Hok) as Hp. destruct (io_target _ Hok) as [(Hb & Hu & Ht) Hk].
  set (enc := percent_encode (target_str (iv_target i))). set (query := join AMP (render_pair <$> invite_params i)).
  assert (graphic query) as Hq.
  { apply graphic_join; [done|]. apply Forall_fmap. eapply Forall_impl; [exact Hp|]. intros kv ?. by apply render_pair_ok. }
  assert (HASH ∉ query /\ True) as [Hh _].
  { split; [|done]. intros H. apply elem_of_join in H as [?|(piece & Hpc & H)]; [done|]. apply list_elem_of_fmap in Hpc as (kv & -> & Hkv).
    rewrite Forall_forall in Hp. destruct (Hp kv Hkv) as (_ & Hk1 & Hv & _). unfold render_pair in H.
    apply elem_of_app in H as [H|H]; [by apply (key_without HASH _ Hk1) in H|]. apply elem_of_cons in H as [?|H]; [done|].
    by apply (percent_encode_without HASH _ Hv) in H. }
  pose proof (percent_encode_graphic _ Hb) as Hge. fold enc in Hge.
  set (host := target_host (iv_target i)) in *. set (prefix := INVITE_SCHEME ++ lit "://").
  assert (to_uri i = prefix ++ (host ++ SLASH :: enc) ++ QUESTION :: query) as Euri.
  { unfold to_uri, prefix. fold host enc query. rewrite <- !app_assoc. done. }
  assert (graphic (to_uri i)) as Hgu.
  { rewrite Euri. apply Forall_app. split; [by apply forallb_Forall; vm_compute|]. apply Forall_app. split; [apply Forall_app; split|].
    - unfold host, target_host. destruct (iv_target i); apply forallb_Forall; vm_compute; done.
    - by constructor.
    - by constructor. }
  unfold from_uri. rewrite trim_graphic by done. rewrite (proj2 (Z.ltb_ge _ _)) by done.
  assert (has_prefix_ignore_case prefix (to_uri i) = true) as Hpre.
  { unfold has_prefix_ignore_case. rewrite Euri, take_app_len, length_app. rewrite (proj2 (Nat.leb_le _ _)) by lia.
    unfold eq_ignore_ascii_case. by rewrite bool_decide_eq_true_2. }
  fold prefix. rewrite Hpre. cbn [negb]. rewrite Euri, drop_app_len.
  assert (forall c, is_unreserved c = false -> c <> PERCENT -> c <> SLASH -> c ∉ host ++ SLASH :: enc) as Hwo.
  { intros c Hc Hcp Hcs. rewrite elem_of_app, elem_of_cons. intros [H|[H|H]]; [|done|by apply (percent_encode_without c _ Hb) in H].
    assert (forallb is_unreserved host = true) as Hhu by (unfold host, target_host; by destruct (iv_target i)).
    apply forallb_Forall in Hhu. rewrite Forall_forall in Hhu. specialize (Hhu c H). congruence. }
  assert (split_once HASH ((host ++ SLASH :: enc) ++ QUESTION :: query) = None) as ->.
  { apply split_once_None. rewrite elem_of_app, elem_of_cons. intros [H|[H|H]]; [|done|done]. by apply (Hwo HASH) in H. }
  rewrite split_once_app by (by apply Hwo). rewrite split_once_app.
  2: { assert (contains_char SLASH host = false) as H by (unfold host, target_host; by destruct (iv_target i)). by apply contains_char_false. }
  cbn [default from_option id]. rewrite trim_end_absent by (by apply percent_encode_without). unfold enc. rewrite percent_roundtrip by done. cbv beta iota.
  assert (match_percent_host is_node_id is_ticket host (target_str (iv_target i)) = Ok (iv_target i)) as ->.
  { unfold match_percent_host, host. assert (trim (target_host (iv_target i)) = target_host (iv_target i)) as ->
      by (by destruct (iv_target i)).
    destruct (iv_target i) as [id|ticket]; cbn [target_str target_host] in *; unfold node_id_target, ticket_target; rewrite Ht, Hk; reflexivity. }
  cbv beta iota. unfold query. rewrite link_query_roundtrip by done. cbv beta iota. by apply read_params_ok.
Qed.

End Roundtrip.

(** ** Every link that is read gives a well-formed invite *)

Lemma in_range_true lo hi b : in_range lo hi b = true -> lo <= b <= hi.
Proof. unfold in_range. intros H. bools. lia. Qed.

Lemma utf8_step_byte st b st' :
  utf8_step st b = Some st' -> (forall lo hi n, st = U_first lo hi n -> 0x80 <= lo /\ hi <= 0xbf) ->
  is_u8 b /\ (forall lo hi n, st' = U_first lo hi n -> 0x80 <= lo /\ hi <= 0xbf) /\ (st <> U_start -> 0x80 <= b <= 0xbf).
Proof.
  intros H Hst. unfold is_u8, is_uint. change (2 ^ 8) with 256. destruct st as [|n|lo hi n]; cbn in H.
  - repeat (case_match; [repeat match goal with E : in_range _ _ _ = true |- _ => apply in_range_true in E | E : (_ =? _) = true |- _ => apply Z.eqb_eq in E end;
      injection H as <-; split; [lia|]; split; [intros ? ? ? E'; try discriminate E'; injection E' as <- <- _; lia|done]|]). done.
  - case_match eqn:E; [|done]. apply in_range_true in E. injection H as <-. split; [lia|]. split; [by destruct n|lia].
  - case_match eqn:E; [|done]. apply in_range_true in E. destruct (Hst lo hi n eq_refl). injection H as <-. split; [lia|]. split; [by destruct n|lia].
Qed.

(** The states between the bytes of a character. *)
Definition utf8_sane (st : utf8_state) : Prop := forall lo hi n, st = U_first lo hi n -> 0x80 <= lo /\ hi <= 0xbf.

Lemma utf8_sane_start : utf8_sane U_start.
Proof. done. Qed.

Lemma utf8_run_sane st s st' : utf8_sane st -> utf8_run st s = Some st' -> utf8_sane st' /\ bytes_ok s.
Proof.
  revert st. induction s as [|b s IH]; intros st Hs H; cbn in H; [injection H as <-; split; [done|constructor]|].
  destruct (utf8_step st b) as [st1|] eqn:E; [|done]. destruct (utf8_step_byte _ _ _ E Hs) as (Hb & Hs1 & _).
  destruct (IH st1 Hs1 H) as [? ?]. split; [done|by constructor].
Qed.

Lemma utf8_valid_run s : utf8_valid s = true <-> utf8_run U_start s = Some U_start.
Proof. unfold utf8_valid. split; [by destruct (utf8_run U_start s) as [[]|]|by intros ->]. Qed.

Lemma utf8_valid_bytes s : utf8_valid s = true -> bytes_ok s.
Proof. intros H%utf8_valid_run. by eapply utf8_run_sane; [|exact H]. Qed.

(** A text is cut at a character: before a byte that starts one. *)
Lemma utf8_cut s b t :
  utf8_valid (s ++ b :: t) = true -> ~ (0x80 <= b <= 0xbf) -> utf8_valid s = true /\ utf8_valid (b :: t) = true.
Proof.
  rewrite !utf8_valid_run, utf8_run_app. destruct (utf8_run U_start s) as [st|] eqn:E; [|done]. intros H Hb.
  assert (st = U_start) as ->; [|split; [done|exact H]].
  destruct (utf8_run_sane U_start _ _ utf8_sane_start E) as [Hs _]. cbn in H. destruct (utf8_step st b) as [st1|] eqn:E1; [|done].
  destruct (utf8_step_byte _ _ _ E1 Hs) as (_ & _ & Hc). destruct st; [done|..]; exfalso; apply Hb, Hc; done.
Qed.

Lemma ws_valid w : w ∈ ws_chars -> exists b u, w = b :: u /\ ~ (0x80 <= b <= 0xbf) /\ utf8_run U_start w = Some U_start.
Proof.
  intros Hw. assert (forallb (fun w => match w with b :: _ => negb (in_range 0x80 0xbf b) && utf8_valid w | [] => false end) ws_chars = true) as H
    by (vm_compute; reflexivity).
  apply forallb_Forall in H. rewrite Forall_forall in H. specialize (H w Hw). destruct w as [|b u]; [done|].
  apply andb_true_iff in H as [H1 H2]. apply negb_true_iff in H1. exists b, u. split; [done|]. split; [|by apply utf8_valid_run].
  intros [? ?]. unfold in_range in H1. apply andb_false_iff in H1 as [H1|H1]; apply Z.leb_gt in H1; lia.
Qed.

Lemma strip_any_some strip ts s r : strip_any strip ts s = Some r -> exists t, t ∈ ts /\ strip t s = Some r.
Proof.
  induction ts as [|t ts IH]; cbn; [done|]. destruct (strip t s) as [r'|] eqn:E.
  - intros [= <-]. exists t. split; [by left|done].
  - intros H. destruct (IH H) as (u & ? & ?). exists u. split; [by right|done].
Qed.

(** What the two passes of [trim] leave. *)
Lemma strip_all_spec n strip s :
  (forall t s r, strip t s = Some r -> t <> [] -> (length r < length s)%nat) -> (length s <= n)%nat ->
  strip_any strip ws_chars (strip_all n strip s) = None.
Proof.
  intros Hs. revert s. induction n as [|n IH]; intros s Hl; cbn [strip_all].
  - destruct s; [|cbn in Hl; lia]. destruct (strip_any strip ws_chars []) as [r|] eqn:E; [|done].
    apply strip_any_some in E as (t & Ht & E). destruct (ws_valid t Ht) as (b & u & -> & _). apply Hs in E; [cbn in E; lia|done].
  - destruct (strip_any strip ws_chars s) as [r|] eqn:E; [|done]. apply IH. apply strip_any_some in E as (t & Ht & E).
    destruct (ws_valid t Ht) as (b & u & -> & _). apply Hs in E; [lia|done].
Qed.

Lemma strip_all_ind n strip s (P : bytes -> Prop) :
  P s -> (forall t s r, t ∈ ws_chars -> strip t s = Some r -> P s -> P r) -> P (strip_all n strip s).
Proof.
  intros H0 Hs. revert s H0. induction n as [|n IH]; intros s H0; cbn [strip_all]; [done|].
  destruct (strip_any strip ws_chars s) as [r|] eqn:E; [|done]. apply strip_any_some in E as (t & Ht & E). apply IH. by eapply Hs.
Qed.

Lemma trim_edges s : no_edge_ws (trim s).
Proof.
  unfold trim. set (s1 := strip_all (length s) strip_prefix s). set (s2 := strip_all (length s1) strip_suffix s1).
  assert (strip_any strip_prefix ws_chars s1 = None) as H1.
  { apply strip_all_spec; [|done]. intros t u r E Hne. apply strip_prefix_Some in E as ->. rewrite length_app. destruct t; [done|cbn; lia]. }
  assert (strip_any strip_suffix ws_chars s2 = None) as H2.
  { apply strip_all_spec; [|done]. intros t u r E Hne. apply strip_suffix_Some in E as ->. rewrite length_app. destruct t; [done|cbn; lia]. }
  assert (exists x, s1 = s2 ++ x) as [x Hx].
  { apply (strip_all_ind _ _ _ (fun u => exists x, s1 = u ++ x)); [exists []; by rewrite app_nil_r|].
    intros t u r Ht E [y Hy]. apply strip_suffix_Some in E as ->. exists (t ++ y). by rewrite <- app_assoc in Hy. }
  assert (forall strip ts u w r, w ∈ ts -> strip_any strip ts u = None -> strip w u = Some r -> False) as Hn.
  { intros strip ts u w r. induction ts as [|t ts IH]; [set_solver|]. rewrite elem_of_cons. cbn. intros [->|Hw] H E; [by rewrite E in H|].
    destruct (strip t u); [done|]. by apply IH. }
  intros w r Hw. split; intros E.
  - apply (Hn strip_prefix ws_chars s1 w (r ++ x) Hw H1). apply strip_prefix_Some. rewrite Hx, E. by rewrite <- app_assoc.
  - apply (Hn strip_suffix ws_chars s2 w r Hw H2). by apply strip_suffix_Some.
Qed.

Lemma trim_text s : utf8_valid s = true -> text_ok (trim s).
Proof.
  intros Hu. assert (utf8_valid (trim s) = true) as Ht.
  { unfold trim. apply strip_all_ind; [apply strip_all_ind; [done|]|].
    - intros w u r Hw E Hv. apply strip_prefix_Some in E as ->. destruct (ws_valid w Hw) as (_ & _ & _ & _ & Hr).
      rewrite utf8_valid_run in *. rewrite utf8_run_app, Hr in Hv. done.
    - intros w u r Hw E Hv. apply strip_suffix_Some in E as ->. destruct (ws_valid w Hw) as (b & v & -> & Hb & _).
      by apply utf8_cut in Hv as [? _]. }
  split; [by apply utf8_valid_bytes|]. split; [done|]. apply trim_no_edge, trim_edges.
Qed.

Lemma percent_decode_valid s r : percent_decode s = Ok r -> utf8_valid r = true.
Proof.
  unfold percent_decode. destruct (decode_escapes s) as [out|]; [|done]. unfold from_utf8. destruct (utf8_valid out) eqn:E; [|done]. by intros [= <-].
Qed.

Definition values_valid (params : Query) : Prop := Forall (fun kv => utf8_valid kv.2 = true) params.

Lemma parse_query_valid q params : parse_query q = Ok params -> values_valid params.
Proof.
  unfold parse_query. case_bool_decide; [intros [= <-]; constructor|]. generalize (split_on AMP q). intros pieces. revert params.
  induction pieces as [|piece pieces IH]; intros params; cbn [parse_pairs]; [intros [= <-]; constructor|].
  destruct (parse_pair piece) as [kv|] eqn:E; [|done]. destruct (parse_pairs pieces) as [rest|]; [|done]. intros [= <-].
  specialize (IH rest eq_refl). destruct kv as [kv|]; [|done]. constructor; [|done]. unfold parse_pair in E.
  case_bool_decide; [done|]. destruct (default _ _) as [key value]. case_bool_decide; [done|].
  destruct (percent_decode key); [|done]. destruct (percent_decode value) as [v|] eqn:Ev; [|done]. injection E as <-. by eapply percent_decode_valid.
Qed.

Lemma first_valid params key v : values_valid params -> first params key = Some v -> utf8_valid v = true.
Proof. intros H. induction H as [|kv params Hv _ IH]; [done|]. cbn. case_bool_decide; [by intros [= <-]|done]. Qed.

Lemma normalize_secret_idemp s s' : normalize_secret s = Ok s' -> normalize_secret s' = Ok s'.
Proof.
  intros H. destruct (secret_graphic _ _ H) as [Hg _]. unfold normalize_secret in H.
  case_bool_decide as Hne; [done|]. destruct (_ <? 8) eqn:E8; [done|]. destruct (forallb is_base32 _) eqn:Eb; [|done]. injection H as <-.
  set (s' := to_ascii_uppercase _) in *. unfold normalize_secret.
  assert (forall n u, graphic u -> (length u <= n)%nat -> remove_ws n u = u) as Hr.
  { induction n as [|n IH]; intros u Hu Hl; [destruct u; [done|cbn in Hl; lia]|]. destruct u as [|b u]; [done|]. cbn [remove_ws].
    assert (strip_any strip_prefix ws_chars (b :: u) = None) as ->.
    { apply strip_any_none. intros w Hw. destruct (strip_prefix w (b :: u)) as [r|] eqn:E; [|done]. apply strip_prefix_Some in E.
      by destruct (graphic_no_edge (b :: u) Hu w r Hw). }
    f_equal. inversion Hu; subst. apply IH; [done|]. cbn in Hl. lia. }
  rewrite Hr by done. apply forallb_Forall in Eb as Hb. rewrite trim_end_absent.
  2: { intros Hin. assert (forall x, x ∈ s' -> is_base32 x = true) as Hb' by (by apply Forall_forall). specialize (Hb' EQUALS Hin). done. }
  assert (to_ascii_uppercase s' = s') as ->.
  { unfold to_ascii_uppercase at 1. clear -Hb. induction Hb as [|b u Hbb _ IH]; [done|]. cbn. rewrite IH. f_equal. unfold ascii_upper.
    destruct (is_ascii_lowercase b) eqn:El; [|done]. exfalso. unfold is_base32, is_ascii_uppercase, is_ascii_lowercase in *.
    apply orb_true_iff in Hbb as [Hbb|Hbb]; bools; lia. }
  rewrite bool_decide_eq_false_2 by done. by rewrite E8, Eb.
Qed.

Lemma totp_with_params_wf issuer client secret a d p t :
  utf8_valid issuer = true -> utf8_valid client = true -> 0 <= p < 2 ^ 32 ->
  totp_with_params issuer client secret a d p = Ok t -> totp_ok t.
Proof.
  intros Hi Hc Hp. unfold totp_with_params. case_bool_decide; [done|]. case_bool_decide; [done|].
  destruct (normalize_secret secret) as [s|] eqn:Es; [|done]. destruct ((6 <=? d) && (d <=? 8)) eqn:Ed; [|done]. cbn [negb].
  destruct (p =? 0) eqn:Ep; [done|]. intros [= <-]. bools. split; cbn.
  - split; [by apply trim_text|done].
  - split; [by apply trim_text|done].
  - by eapply normalize_secret_idemp.
  - lia.
  - lia.
Qed.

Lemma parse_number_range v d n : 0 <= d < 2 ^ 32 -> parse_number v d = Ok n -> 0 <= n < 2 ^ 32.
Proof.
  intros Hd. unfold parse_number. destruct v as [v|]; [|intros [= <-]; done].
  destruct (parse_uint (umax 32) (trim v)) as [z|] eqn:E; [|done]. intros [= <-]. apply parse_uint_range in E; unfold umax in *; lia.
Qed.

Lemma split_once_valid c s h r : ~ (0x80 <= c <= 0xbf) -> c < 0x80 -> 0 <= c ->
  utf8_valid s = true -> split_once c s = Some (h, r) -> utf8_valid h = true /\ utf8_valid r = true.
Proof.
  intros Hc Hl H0 Hu E. apply split_once_Some in E as [-> _]. apply utf8_cut in Hu as [? Hu]; [|done]. split; [done|].
  rewrite utf8_valid_run in *. cbn in Hu. unfold in_range in Hu at 1. rewrite !(proj2 (Z.leb_le _ _)) in Hu by lia. done.
Qed.

Lemma otpauth_wf uri t : otpauth_totp uri = Ok (Some t) -> totp_ok t.
Proof.
  unfold otpauth_totp. destruct (has_prefix_ignore_case _ _); [|done]. cbn [negb].
  destruct (match split_once QUESTION _ with Some _ => _ | None => _ end) as [label query].
  destruct (percent_decode _) as [l|] eqn:El; [|done]. pose proof (percent_decode_valid _ _ El) as Hl.
  destruct (match split_once COLON l with Some _ => _ | None => _ end) as [issuer_label client] eqn:Es.
  assert ((forall i, issuer_label = Some i -> utf8_valid i = true) /\ utf8_valid client = true) as [Hi Hc].
  { destruct (split_once COLON l) as [[i c]|] eqn:E; injection Es as <- <-; [|done].
    apply split_once_valid in E as [? ?]; [|unfold COLON; lia..|done]. split; [|done]. by intros ? [= <-]. }
  destruct (match query with Some q => parse_query q | None => Ok [] end) as [params|] eqn:Eq; [|done].
  assert (values_valid params) as Hv by (destruct query; [by eapply parse_query_valid|injection Eq as <-; constructor]).
  destruct (first params (lit "secret")) as [secret|]; [|done].
  destruct (parse_algorithm _) as [a|]; [|done]. destruct (parse_number _ 6) as [d|]; [|done].
  destruct (parse_number _ 30) as [p|] eqn:Ep; [|done]. apply parse_number_range in Ep; [|done].
  destruct (totp_with_params _ _ _ _ _ _) as [t'|] eqn:Et; [|done]. intros [= <-].
  eapply totp_with_params_wf; [..|exact Et]; [|done|done]. destruct issuer_label as [i|]; [by apply Hi|].
  destruct (first params (lit "issuer")) as [i|] eqn:E; [by eapply first_valid|done].
Qed.

Lemma totp_from_params_wf params t : values_valid params -> totp_from_params params = Ok (Some t) -> totp_ok t.
Proof.
  intros Hv. unfold totp_from_params. destruct (is_none _ && is_some _); [apply otpauth_wf|].
  destruct (is_some _ && is_none _ && is_none _); [done|]. destruct (first params (lit "secret")) as [secret|]; [|by destruct (_ && _)].
  destruct (first params (lit "client")) as [client|] eqn:Ec; cbn [is_none]; [|done].
  destruct (parse_algorithm _) as [a|]; [|done]. destruct (parse_number _ 6) as [d|]; [|done].
  destruct (parse_number _ 30) as [p|] eqn:Ep; [|done]. apply parse_number_range in Ep; [|done].
  destruct (totp_with_params _ _ _ _ _ _) as [t'|] eqn:Et; [|done]. intros [= <-].
  eapply totp_with_params_wf; [..|exact Et]; [|by eapply first_valid|done].
  destruct (first params (lit "issuer")) as [i|] eqn:E; [by eapply first_valid|done].
Qed.

(** A part of a comma-separated text. *)
Definition part_ok (s : bytes) : Prop := utf8_valid s = true /\ COMMA ∉ s.

Lemma utf8_step_ascii st b st' : utf8_sane st -> 0 <= b < 0x80 -> utf8_step st b = Some st' -> st = U_start /\ st' = U_start.
Proof.
  intros Hs Hb H. destruct (utf8_step_byte _ _ _ H Hs) as (_ & _ & Hc). destruct st; [|destruct (Hc ltac:(done)); lia..].
  split; [done|]. cbn in H. unfold in_range in H at 1. rewrite !(proj2 (Z.leb_le _ _)) in H by lia. by injection H as <-.
Qed.

Lemma split_on_parts c s st : 0 <= c < 0x80 -> utf8_sane st -> utf8_run st s = Some U_start ->
  exists p rest, split_on c s = p :: rest /\ utf8_run st p = Some U_start /\ c ∉ p /\ Forall (fun p => utf8_valid p = true /\ c ∉ p) rest.
Proof.
  intros Hc. revert st. induction s as [|b s IH]; intros st Hs H; cbn [split_on].
  - exists [], []. split_and!; [done|done|apply not_elem_of_nil|constructor].
  - cbn [utf8_run] in H. destruct (utf8_step st b) as [st1|] eqn:E1; [|done]. destruct (utf8_step_byte _ _ _ E1 Hs) as (_ & Hs1 & _).
    destruct (IH st1 Hs1 H) as (p & rest & -> & Hp & Hcp & Hr). destruct (b =? c) eqn:Eb.
    + apply Z.eqb_eq in Eb as ->. destruct (utf8_step_ascii _ _ _ Hs Hc E1) as [-> ->]. exists [], (p :: rest).
      split_and!; [done|done|apply not_elem_of_nil|]. constructor; [|done]. split; [by apply utf8_valid_run|done].
    + apply Z.eqb_neq in Eb. exists (b :: p), rest. split_and!; [done| |set_solver|done]. cbn [utf8_run]. by rewrite E1.
Qed.

Lemma part_trim s : part_ok s -> part_ok (trim s).
Proof.
  intros [Hu Hc]. split; [by apply trim_text|]. unfold trim. apply strip_all_ind; [apply strip_all_ind; [done|]|].
  - intros w u r _ ->%strip_prefix_Some. set_solver.
  - intros w u r _ ->%strip_suffix_Some. set_solver.
Qed.

Lemma comma_list_parts raw parts : utf8_valid raw = true -> comma_list raw = Ok parts -> Forall part_ok parts.
Proof.
  intros Hu. unfold comma_list. case_bool_decide; [intros [= <-]; constructor|].
  destruct (split_on_parts COMMA raw U_start ltac:(unfold COMMA; lia) utf8_sane_start ltac:(by apply utf8_valid_run)) as (p & rest & -> & Hp & Hc & Hr).
  assert (Forall part_ok (p :: rest)) as Hall by (constructor; [split; [by apply utf8_valid_run|done]|done]). revert parts. clear -Hall.
  induction Hall as [|q qs Hq _ IH]; intros parts; cbn [comma_parts]; [intros [= <-]; constructor|]. case_bool_decide; [done|].
  destruct (comma_parts qs) as [rest'|]; [|done]. intros [= <-]. constructor; [by apply part_trim|by apply IH].
Qed.

Lemma part_drop_front p s : (forall b, p b = true -> 0 <= b < 0x80) -> part_ok s -> part_ok (drop_while p s).
Proof.
  intros Hp. induction s as [|b s IH]; cbn; [done|]. intros [Hu Hc]. destruct (p b) eqn:E; [|done]. apply IH. split; [|set_solver].
  apply utf8_valid_run in Hu. cbn [utf8_run] in Hu. destruct (utf8_step U_start b) as [st|] eqn:Es; [|done].
  destruct (utf8_step_ascii _ _ _ utf8_sane_start (Hp b E) Es) as [_ ->]. by apply utf8_valid_run.
Qed.

Lemma part_drop_back p s : (forall b, p b = true -> 0 <= b < 0x80) -> part_ok s -> part_ok (trim_end_matches p s).
Proof.
  intros Hp [Hu Hc]. destruct (trim_end_matches_spec p s) as (d & Hd & Hall). split; [|rewrite Hd in Hc; set_solver].
  destruct d as [|b d]; [by rewrite Hd, app_nil_r in Hu|]. apply Forall_cons in Hall as [Hb _]. rewrite Hd in Hu.
  apply utf8_cut in Hu as [? _]; [done|]. specialize (Hp b Hb). lia.
Qed.

Lemma ascii_lower_cases b : (is_ascii_uppercase b = true /\ 65 <= b <= 90 /\ 97 <= ascii_lower b <= 122) \/ ascii_lower b = b.
Proof. unfold ascii_lower. destruct (is_ascii_uppercase b) eqn:E; [|by right]. left. unfold is_ascii_uppercase in E. bools. split; [done|lia]. Qed.

Lemma part_lower s : part_ok s -> part_ok (to_ascii_lowercase s).
Proof.
  intros [Hu Hc]. split.
  - apply utf8_valid_run. apply utf8_valid_run in Hu. rewrite <- Hu. assert (forall st, utf8_sane st -> utf8_run st (to_ascii_lowercase s) = utf8_run st s) as H; [|by apply H].
    clear. induction s as [|b s IH]; intros st Hs; [done|]. unfold to_ascii_lowercase. rewrite fmap_cons. fold (to_ascii_lowercase s). cbn [utf8_run].
    assert (utf8_step st (ascii_lower b) = utf8_step st b) as ->.
    { destruct (ascii_lower_cases b) as [(_ & H1 & H2)| ->]; [|done].
      assert (forall c, 0 <= c < 0x80 -> utf8_step st c = match st with U_start => Some U_start | _ => None end) as Hasc; [|rewrite !Hasc by lia; done].
      intros c Hcr. destruct (utf8_step st c) as [st'|] eqn:E; [by destruct (utf8_step_ascii _ _ _ Hs Hcr E) as [-> ->]|].
      destruct st; [|done..]. cbn in E. unfold in_range in E at 1. by rewrite !(proj2 (Z.leb_le _ _)) in E by lia. }
    destruct (utf8_step st b) as [st1|] eqn:E; [|done]. apply IH. by destruct (utf8_step_byte _ _ _ E Hs) as (_ & ? & _).
  - unfold to_ascii_lowercase. intros (b & E & Hb)%list_elem_of_fmap. destruct (ascii_lower_cases b) as [(_ & _ & H)|H]; [unfold COMMA in E; lia|]. congruence.
Qed.

Lemma part_pattern s : part_ok s -> part_ok (normalize_pattern s) /\ to_ascii_lowercase (normalize_pattern s) = normalize_pattern s.
Proof.
  intros Hs. assert (forall b, is_dot b = true -> 0 <= b < 0x80) as Hd by (unfold is_dot, DOT; intros; bools; lia).
  assert (forall b, is_bracket b = true -> 0 <= b < 0x80) as Hb by (unfold is_bracket, LBRACKET, RBRACKET; intros b H; bools; destruct H; bools; lia).
  unfold normalize_pattern. destruct (_ && _); [split; [by apply part_lower|apply to_ascii_lowercase_idemp]|].
  rewrite normalize_host_lower. split; [|apply to_ascii_lowercase_idemp]. apply part_lower. unfold host_core, trim_matches, trim_start_matches.
  apply part_drop_front; [done|]. apply part_drop_back; [done|]. by apply part_drop_back.
Qed.

(** A domain of a link that was read. *)
Definition domain_wf (d : bytes) : Prop := d <> [] /\ valid_domain d = true /\ to_ascii_lowercase d = d /\ COMMA ∉ d /\ text_ok d.

Lemma normalize_domains_wf raw ds :
  Forall part_ok raw -> normalize_domains raw = Ok ds -> Forall domain_wf ds /\ NoDup ds.
Proof.
  intros Hraw. unfold normalize_domains. assert (forall out, Forall domain_wf out -> NoDup out ->
    normalize_domains_loop raw out = Ok ds -> Forall domain_wf ds /\ NoDup ds) as H.
  { induction Hraw as [|r raw Hr _ IH]; intros out Ho Hn; cbn [normalize_domains_loop]; [by intros [= <-]|].
    destruct (part_pattern (trim r) (part_trim r Hr)) as [[Hu Hc] Hlow].
    set (d := normalize_pattern (trim r)) in *. case_bool_decide; [done|]. destruct (valid_domain d) eqn:Ed; [|done]. cbn [negb].
    assert (domain_wf d) as Hd.
    { split_and!; try done. assert (has_ws d = false) as Hw by (unfold valid_domain in Ed; apply negb_true_iff in Ed; rewrite !orb_false_iff in Ed; tauto).
      split; [by apply utf8_valid_bytes|]. split; [done|]. by apply trim_no_edge, no_ws_no_edge. }
    apply IH; case_bool_decide; try done.
    - apply Forall_app. split; [done|]. by apply Forall_singleton.
    - apply NoDup_app. split; [done|]. split; [set_solver|apply NoDup_singleton]. }
  apply H; constructor.
Qed.

(** What a link that was read holds. *)
Record invite_wf (is_node_id is_ticket : bytes -> bool) (relay_url : bytes -> option (bytes * option bytes)) (i : EndpointInvite) : Prop := {
  iw_target : text_ok (target_str (iv_target i)) /\
    match iv_target i with NodeId id => is_node_id id = true | Ticket ticket => is_ticket ticket = true end;
  iw_name name : iv_name i = Some name -> text_ok name;
  iw_domains : Forall domain_wf (iv_domains i) /\ NoDup (iv_domains i);
  iw_relay relay : iv_relay i = Some relay -> text_ok relay /\ relay <> [] /\ is_usable_relay_hint relay_url relay = true;
  iw_totp t : iv_totp i = Some t -> totp_ok t;
  iw_enrollment e : iv_enrollment i = Some e ->
    text_ok (ie_client_id e) /\ ie_client_id e <> [] /\ text_ok (ie_token e) /\ ie_token e <> [];
  iw_one : iv_totp i = None \/ iv_enrollment i = None;
}.

Lemma enrollment_from_params_wf params version e :
  values_valid params -> enrollment_from_params params version = Ok (Some e) ->
  text_ok (ie_client_id e) /\ ie_client_id e <> [] /\ text_ok (ie_token e) /\ ie_token e <> [].
Proof.
  intros Hv. unfold enrollment_from_params, enrollment_new. destruct (first params (lit "enroll")) as [token|] eqn:Et; [|done].
  destruct (_ <? _); [done|]. destruct (_ || _); [done|]. destruct (first params (lit "client")) as [c|] eqn:Ec; [|done].
  case_bool_decide; [done|]. case_bool_decide; [done|]. intros [= <-]. cbn.
  split; [by eapply trim_text, first_valid|]. split; [done|]. split; [by eapply trim_text, first_valid|done].
Qed.

(** A token leaves no room for a credential: the keys of one are refused beside it. *)
Lemma one_credential params version t e :
  totp_from_params params = Ok t -> enrollment_from_params params version = Ok e -> t = None \/ e = None.
Proof.
  intros Ht He. unfold enrollment_from_params in He. destruct (first params (lit "enroll")) as [token|] eqn:Et; [|injection He as <-; by right].
  destruct (_ <? _); [done|]. left. unfold totp_from_params in Ht. rewrite Et in Ht.
  destruct (first params (lit "secret")); [by cbn in He|]. destruct (first params (lit "otpauth")); [by cbn in He|]. cbn in Ht. by injection Ht as <-.
Qed.

Lemma match_percent_host_wf is_node_id is_ticket host value t :
  utf8_valid value = true -> match_percent_host is_node_id is_ticket host value = Ok t ->
  text_ok (target_str t) /\ match t with NodeId id => is_node_id id = true | Ticket ticket => is_ticket ticket = true end.
Proof.
  intros Hv. unfold match_percent_host, node_id_target, ticket_target.
  destruct (eq_ignore_ascii_case _ _); [|destruct (eq_ignore_ascii_case _ _); [|done]]; case_match eqn:E; try done; intros [= <-];
    (split; [by apply trim_text|done]).
Qed.

Lemma read_params_wf is_node_id is_ticket relay_url target params i :
  values_valid params ->
  (text_ok (target_str target) /\ match target with NodeId id => is_node_id id = true | Ticket ticket => is_ticket ticket = true end) ->
  read_params relay_url target params = Ok i -> invite_wf is_node_id is_ticket relay_url i.
Proof.
  intros Hv Ht. unfold read_params. destruct (read_version params) as [version|]; [|done].
  destruct (match first params (lit "domains") with Some _ => _ | None => _ end) as [raw|] eqn:Eraw; [|done].
  assert (Forall part_ok raw) as Hraw.
  { destruct (first params (lit "domains")) as [text|] eqn:E; [|injection Eraw as <-; constructor]. by eapply comma_list_parts, Eraw; eapply first_valid. }
  destruct (normalize_domains raw) as [ds|] eqn:Ed; [|done]. destruct (read_relay relay_url params) as [relay|] eqn:Er; [|done].
  destruct (totp_from_params params) as [totp|] eqn:Et; [|done].
  destruct (enrollment_from_params params version) as [e|] eqn:Ee; [|done]. intros [= <-].
  split; cbn [iv_target iv_name iv_domains iv_relay iv_totp iv_enrollment].
  - done.
  - intros name Hn. destruct (first params (lit "name")) as [n|] eqn:E; [|done]. injection Hn as <-. by eapply trim_text, first_valid.
  - by eapply normalize_domains_wf, Ed.
  - intros r ->. unfold read_relay in Er. destruct (first params (lit "relay")) as [r'|] eqn:E; [|done]. case_bool_decide; [done|].
    destruct (is_usable_relay_hint relay_url (trim r')) eqn:Eu; [|done]. injection Er as <-. split; [by eapply trim_text, first_valid|done].
  - intros t ->. by eapply totp_from_params_wf.
  - intros e' ->. by eapply enrollment_from_params_wf.
  - by eapply one_credential.
Qed.

(** C36: Every link the reader accepts gives a well-formed invite, whatever its bytes: the target is one the
    Node ID's or the ticket's parser accepted, every text is trimmed and valid UTF-8, the domains among them,
    which are non-empty, in lower case, distinct, and hold no white space, no comma and none of
    the characters that end a part of a link; a relay hint is one the client can dial,
    the credential has a usable secret and ranges, and a token excludes a credential. *)
Theorem from_uri_wf is_node_id is_ticket relay_url raw i :
  from_uri is_node_id is_ticket relay_url raw = Ok i -> invite_wf is_node_id is_ticket relay_url i.
Proof.
  unfold from_uri. destruct (_ <? _); [done|]. destruct (negb _); [done|].
  destruct (match split_once QUESTION _ with Some _ => _ | None => _ end) as [path query].
  destruct (default _ _) as [host value]. destruct (percent_decode _) as [v|] eqn:Ev; [|done].
  destruct (match_percent_host _ _ _ _) as [t|] eqn:Et; [|done].
  destruct (match query with Some _ => _ | None => _ end) as [params|] eqn:Eq; [|done].
  apply read_params_wf.
  - destruct query; [by eapply parse_query_valid|injection Eq as <-; constructor].
  - by eapply match_percent_host_wf, Et; eapply percent_decode_valid.
Qed.

(** A link the client writes is read back to the invite it was written from: for every invite whose
    texts are as its constructors leave them and whose link fits the limit, reading what
    [to_uri] renders returns exactly that invite, credential, token, domains and relay hint. *)
Theorem invite_roundtrip is_node_id is_ticket relay_url i :
  invite_ok is_node_id is_ticket relay_url i -> len (to_uri i) <= MAX_URI_LEN ->
  from_uri is_node_id is_ticket relay_url (to_uri i) = Ok i.
Proof. apply from_to_uri. Qed.

(** ** On concrete links *)

Definition toy_relay (s : bytes) : option (bytes * option bytes) :=
  if bool_decide (s = lit "https://relay.example.org") then Some (lit "https", Some (lit "relay.example.org"))
  else if bool_decide (s = lit "https://euw1.relay.n0.iroh.link") then Some (lit "https", Some (lit "euw1.relay.n0.iroh.link"))
  else None.
Definition toy_id (s : bytes) : bool := bool_decide (s = lit "ab12").
Definition toy_invite : EndpointInvite :=
  {| iv_target := NodeId (lit "ab12"); iv_name := Some (lit "home & lab"); iv_domains := [lit "nas.lan"; lit "*.corp.lan"];
     iv_relay := Some (lit "https://relay.example.org");
     iv_totp := Some {| it_issuer := lit "NexaPipe"; it_client_id := lit "laptop"; it_secret := lit "JBSWY3DPEHPK3PXP";
                        it_algorithm := SHA1; it_digits := 6; it_period := 30 |};
     iv_enrollment := None |}.

Lemma text_ok_by s : forallb (fun b => (0 <=? b) && (b <? 256)) s && utf8_valid s && bool_decide (trim s = s) = true -> text_ok s.
Proof.
  intros H. apply andb_true_iff in H as [[Hb Hu]%andb_true_iff Ht]. split; [|split; [done|by apply bool_decide_eq_true in Ht]].
  apply Forall_forall. intros b Hin. eapply forallb_forall in Hb; [|by apply list_elem_of_In]. bools. split; [lia|]. change (2 ^ 8) with 256. lia.
Qed.

Lemma toy_invite_ok : invite_ok toy_id (fun _ => false) toy_relay toy_invite.
Proof.
  split; cbn [toy_invite iv_target iv_name iv_domains iv_relay iv_totp iv_enrollment target_str].
  - split; [by apply text_ok_by; vm_compute|by vm_compute].
  - intros name [= <-]. by apply text_ok_by; vm_compute.
  - split; [|by apply (bool_decide_unpack _); vm_compute]. apply Forall_cons; split; [|apply Forall_singleton];
      (split; [by vm_compute|]; split; [done|]; split; [by vm_compute|]; split; [by apply contains_char_false|];
       match goal with |- bytes_ok ?d /\ _ => assert (text_ok d) as (? & ? & _) by (apply text_ok_by; by vm_compute) end; done).
  - intros relay [= <-]. split; [by apply text_ok_by; vm_compute|]. split; [done|by vm_compute].
  - intros t [= <-]. split; cbn [it_issuer it_client_id it_secret it_digits it_period]; try (split; [by apply text_ok_by; vm_compute|done]); try lia.
    by vm_compute.
  - done.
  - by right.
Qed.

Lemma invite_roundtrip_witness : from_uri toy_id (fun _ => false) toy_relay (to_uri toy_invite) = Ok toy_invite.
Proof. apply invite_roundtrip; [exact toy_invite_ok|]. vm_compute. discriminate. Defined.

Definition toy_link : bytes :=
  lit "NexaPipe://endpoint/ab12/?v=2&name=%20home%20&domains=NAS.lan.,nas.lan&client=laptop&enroll=tok-1#qr".
Definition toy_read : EndpointInvite :=
  {| iv_target := NodeId (lit "ab12"); iv_name := Some (lit "home"); iv_domains := [lit "nas.lan"]; iv_relay := None; iv_totp := None;
     iv_enrollment := Some {| ie_client_id := lit "laptop"; ie_token := lit "tok-1" |} |}.

Lemma from_uri_wf_witness :
  from_uri toy_id (fun _ => false) toy_relay toy_link = Ok toy_read /\ invite_wf toy_id (fun _ => false) toy_relay toy_read.
Proof.
  assert (from_uri toy_id (fun _ => false) toy_relay toy_link = Ok toy_read) as H by (vm_compute; reflexivity).
  split; [exact H|]. exact (from_uri_wf _ _ _ _ _ H).
Defined.

(** A relay the project does not run is refused, and so is a token beside a secret. *)
Example refused_links :
  from_uri toy_id (fun _ => false) toy_relay (lit "nexapipe://endpoint/ab12?relay=https://euw1.relay.n0.iroh.link") = Err IE_relay /\
  from_uri toy_id (fun _ => false) toy_relay (lit "nexapipe://endpoint/ab12?v=2&client=a&secret=JBSWY3DPEHPK3PXP&enroll=t") = Err IE_enrollment /\
  from_uri toy_id (fun _ => false) toy_relay (lit "nexapipe://endpoint/ab12?v=3") = Err IE_version.
Proof. vm_compute. done. Qed.

(** A domain may hold the character the list is joined with, and is then read back as two. *)
Theorem comma_domain_splits :
  match invite_new (NodeId (lit "ab12")) [lit "a,b"] with
  | Ok i => iv_domains i = [lit "a,b"] /\
            from_uri toy_id (fun _ => false) toy_relay (to_uri i) =
              Ok {| iv_target := NodeId (lit "ab12"); iv_name := None; iv_domains := [lit "a"; lit "b"]; iv_relay := None;
                    iv_totp := None; iv_enrollment := None |}
  | Err _ => False
  end.
Proof. vm_compute. done. Qed.

(** An escape may carry a sign: [%+A] is read as a line feed. *)
Theorem signed_escape_read : percent_decode (lit "a%+Ab") = Ok [97; 10; 98].
Proof. vm_compute. done. Qed.
