(* ===== verification/DnsCache.v ===== *)
(** * The server's cache of resolved names (nexapipe/src/dns.rs)

    An answer is remembered for a while, a name that does not exist for less, and
    a resolver's failure not at all; a name is resolved once for all the callers
    that wait for it, through a [OnceCell] in the table of flights.

    Callers are tasks, and a step is what one of them does between two points at
    which another may run: taking the cached answer or joining the flight, getting
    the cell's permit, ending the resolution, taking the cell's value, dropping the
    guard, being cancelled.  The resolver is [getaddrinfo]: its result is an
    argument of the step.  Time is in nanoseconds. *)

From Stdlib Require Import Sorted.
From stdpp Require Import sorting.
From S2P Require Import Prelude RustStd Host L4.

Definition POSITIVE_TTL : Z := 30 * 1000000000.
Definition NEGATIVE_TTL : Z := 5 * 1000000000.
Definition MAX_ENTRIES : Z := 1024.

(** ** Failures *)

(** An [io::Error]: whether its kind is [NotFound], and its text. *)
Record IoError := { io_not_found : bool; io_message : bytes }.

Inductive ResolveError := NotFound (source : IoError) | Transient (source : IoError).

Definition is_not_found (e : ResolveError) : bool :=
  match e with NotFound _ => true | Transient _ => false end.

Definition NOT_FOUND_MESSAGES : list bytes := [
  lit "name or service not known";
  lit "name does not resolve";
  lit "nodename nor servname provided";
  lit "no address associated with hostname";
  lit "no such host is known"].

(** [to_lowercase] is the library's Unicode one. *)
Definition classify_error (to_lowercase : bytes -> bytes) (error : IoError) : ResolveError :=
  let lowered := to_lowercase (io_message error) in
  if io_not_found error || existsb (fun known => contains_str known lowered) NOT_FOUND_MESSAGES
  then NotFound error else Transient error.

(** What [spawn_blocking] brings back: the resolver's answer, or that it did not
    run. *)
Inductive Lookup := Resolved (r : result (list SocketAddr) ResolveError) | DidNotRun (error : bytes).

Definition system_resolve (to_lowercase : bytes -> bytes) (answer : result (list SocketAddr) IoError)
    : result (list SocketAddr) ResolveError :=
  match answer with
  | Ok addrs => Ok addrs
  | Err e => Err (classify_error to_lowercase e)
  end.

(** ** Entries *)

Inductive Answer := Addresses (addrs : list SocketAddr) | Failure (e : ResolveError).

Record Entry := { e_answer : Answer; e_expires_at : Z; e_last_used : Z }.

Abbreviation Outcome := (result (list SocketAddr) ResolveError).

Definition entry_answer (a : Answer) : Outcome :=
  match a with Addresses addrs => Ok addrs | Failure e => Err e end.

(** [started] is when the cache was created. *)
Definition used_at (started now : Z) : Z := Z.min (saturating_sub now started) (umax 64).

Definition touch (started now : Z) (e : Entry) : Entry :=
  {| e_answer := e_answer e; e_expires_at := e_expires_at e; e_last_used := used_at started now |}.

Definition lookup_entry (started now : Z) (host : bytes) (entries : gmap bytes Entry)
    : option Entry * gmap bytes Entry :=
  match entries !! host with
  | None => (None, entries)
  | Some entry =>
      if e_expires_at entry <=? now then (None, entries)
      else (Some entry, <[host := touch started now entry]> entries)
  end.

Definition evict (max_entries now : Z) (entries : gmap bytes Entry) : gmap bytes Entry :=
  let entries := filter (fun e : bytes * Entry => now < e_expires_at e.2) entries in
  if Z.of_nat (size entries) <? max_entries then entries
  else
    let to_drop := Z.of_nat (size entries) + 1 - max_entries in
    let by_age := (fun e => (e.1, e_last_used e.2)) <$> map_to_list entries in
    let oldest := take (Z.to_nat to_drop) (sort_by_key snd by_age) in
    foldr (fun e entries => delete e.1 entries) entries oldest.

Definition store_entry (max_entries now : Z) (host : bytes) (entry : Entry) (entries : gmap bytes Entry)
    : gmap bytes Entry :=
  let entries := if max_entries <=? Z.of_nat (size entries) then evict max_entries now entries else entries in
  <[host := entry]> entries.

Definition remember (max_entries started now : Z) (host : bytes) (answer : Answer) (ttl : Z) (entries : gmap bytes Entry)
    : gmap bytes Entry :=
  store_entry max_entries now host
    {| e_answer := answer; e_expires_at := now + ttl; e_last_used := used_at started now |} entries.

(** The end of [resolve_once]: what is answered, and what is remembered. *)
Definition no_such_name (host : bytes) : ResolveError :=
  NotFound {| io_not_found := true; io_message := host ++ lit " does not exist" |}.

Definition outcome_of (host : bytes) (l : Lookup) : Outcome :=
  match l with
  | DidNotRun e => Err (Transient {| io_not_found := false; io_message := lit "the resolver did not run: " ++ e |})
  | Resolved (Ok []) => Err (no_such_name host)
  | Resolved (Ok addrs) => Ok addrs
  | Resolved (Err e) => Err e
  end.

Definition settle (positive_ttl negative_ttl max_entries started now : Z) (host : bytes) (l : Lookup)
    (entries : gmap bytes Entry) : Outcome * gmap bytes Entry :=
  match l with
  | DidNotRun e => (outcome_of host l, entries)
  | Resolved (Ok []) =>
      (outcome_of host l, remember max_entries started now host (Failure (no_such_name host)) negative_ttl entries)
  | Resolved (Ok addrs) =>
      (outcome_of host l, remember max_entries started now host (Addresses addrs) positive_ttl entries)
  | Resolved (Err e) =>
      (outcome_of host l,
       if is_not_found e then remember max_entries started now host (Failure e) negative_ttl entries else entries)
  end.

(** ** Flights *)

(** The [OnceCell] of a flight: empty with its permit free, being initialised by
    a task, or set. *)
Inductive Cell := CellEmpty | CellRunning (task : nat) | CellSet (outcome : Outcome).

Inductive Task :=
| Waiting (host : bytes) (flight : nat)
| Resolving (host : bytes) (flight : nat)
| Returning (host : bytes) (flight : nat) (outcome : Outcome).

(** [answers] are the answers handed out: to which task, for which name, from
    the cache or from a flight, and when; [lookups] the resolver's results. *)
Record DnsCache := {
  entries : gmap bytes Entry;
  flights : gmap bytes nat;
  cells : gmap nat Cell;
  next_cell : nat;
  tasks : gmap nat Task;
  answers : list (nat * bytes * Outcome * bool * Z);
  lookups : list (bytes * Z * Lookup);
}.

Section Cache.
Variables positive_ttl negative_ttl max_entries started : Z.

Definition with_entries (m : gmap bytes Entry) (s : DnsCache) : DnsCache :=
  {| entries := m; flights := flights s; cells := cells s; next_cell := next_cell s; tasks := tasks s;
     answers := answers s; lookups := lookups s |}.
Definition with_flights (m : gmap bytes nat) (s : DnsCache) : DnsCache :=
  {| entries := entries s; flights := m; cells := cells s; next_cell := next_cell s; tasks := tasks s;
     answers := answers s; lookups := lookups s |}.
Definition with_cell (fl : nat) (c : Cell) (s : DnsCache) : DnsCache :=
  {| entries := entries s; flights := flights s; cells := <[fl := c]> (cells s); next_cell := next_cell s;
     tasks := tasks s; answers := answers s; lookups := lookups s |}.
Definition with_tasks (m : gmap nat Task) (s : DnsCache) : DnsCache :=
  {| entries := entries s; flights := flights s; cells := cells s; next_cell := next_cell s; tasks := m;
     answers := answers s; lookups := lookups s |}.
Definition answered (i : nat) (host : bytes) (o : Outcome) (hit : bool) (now : Z) (s : DnsCache) : DnsCache :=
  {| entries := entries s; flights := flights s; cells := cells s; next_cell := next_cell s; tasks := tasks s;
     answers := (i, host, o, hit, now) :: answers s; lookups := lookups s |}.

(** The flight of a name, or a new one. *)
Definition flight (host : bytes) (s : DnsCache) : nat * DnsCache :=
  match flights s !! host with
  | Some fl => (fl, s)
  | None =>
      let fl := next_cell s in
      (fl, {| entries := entries s; flights := <[host := fl]> (flights s); cells := <[fl := CellEmpty]> (cells s);
              next_cell := S fl; tasks := tasks s; answers := answers s; lookups := lookups s |})
  end.

(** The drop of a [FlightGuard]. *)
Definition end_flight (host : bytes) (fl : nat) (s : DnsCache) : DnsCache :=
  match flights s !! host with
  | Some current => if bool_decide (current = fl) then with_flights (delete host (flights s)) s else s
  | None => s
  end.

(** [resolve], up to the wait. *)
Definition on_resolve (i : nat) (host : bytes) (now : Z) (s : DnsCache) : DnsCache :=
  match lookup_entry started now host (entries s) with
  | (Some entry, m) => answered i host (entry_answer (e_answer entry)) true now (with_entries m s)
  | (None, m) =>
      let '(fl, s) := flight host (with_entries m s) in
      with_tasks (<[i := Waiting host fl]> (tasks s)) s
  end.

(** The permit of the cell: [resolve_once] looks again before it asks. *)
Definition on_permit (i : nat) (host : bytes) (fl : nat) (now : Z) (s : DnsCache) : DnsCache :=
  match lookup_entry started now host (entries s) with
  | (Some entry, m) =>
      let o := entry_answer (e_answer entry) in
      let s := with_cell fl (CellSet o) (with_entries m s) in
      with_tasks (<[i := Returning host fl o]> (tasks s)) s
  | (None, m) =>
      let s := with_cell fl (CellRunning i) (with_entries m s) in
      with_tasks (<[i := Resolving host fl]> (tasks s)) s
  end.

Definition on_resolved (i : nat) (host : bytes) (fl : nat) (l : Lookup) (now : Z) (s : DnsCache) : DnsCache :=
  let '(o, m) := settle positive_ttl negative_ttl max_entries started now host l (entries s) in
  let s := {| entries := m; flights := flights s; cells := <[fl := CellSet o]> (cells s); next_cell := next_cell s;
              tasks := <[i := Returning host fl o]> (tasks s); answers := answers s;
              lookups := (host, now, l) :: lookups s |} in
  s.

Definition on_set (i : nat) (host : bytes) (fl : nat) (o : Outcome) (s : DnsCache) : DnsCache :=
  with_tasks (<[i := Returning host fl o]> (tasks s)) s.

Definition on_return (i : nat) (host : bytes) (fl : nat) (o : Outcome) (now : Z) (s : DnsCache) : DnsCache :=
  answered i host o false now (end_flight host fl (with_tasks (delete i (tasks s)) s)).

(** A task dropped at its wait: its permit is given back, and its guard drops. *)
Definition on_cancel (i : nat) (s : DnsCache) : DnsCache :=
  match tasks s !! i with
  | Some (Waiting host fl) => end_flight host fl (with_tasks (delete i (tasks s)) s)
  | Some (Resolving host fl) => end_flight host fl (with_cell fl CellEmpty (with_tasks (delete i (tasks s)) s))
  | _ => s
  end.

(** Steps with the time they happen at. *)
Inductive dns_step (now : Z) (s : DnsCache) : DnsCache -> Prop :=
| dns_resolve i host :
    tasks s !! i = None -> dns_step now s (on_resolve i host now s)
| dns_permit i host fl :
    tasks s !! i = Some (Waiting host fl) -> cells s !! fl = Some CellEmpty ->
    dns_step now s (on_permit i host fl now s)
| dns_resolved i host fl l :
    tasks s !! i = Some (Resolving host fl) -> dns_step now s (on_resolved i host fl l now s)
| dns_set i host fl o :
    tasks s !! i = Some (Waiting host fl) -> cells s !! fl = Some (CellSet o) ->
    dns_step now s (on_set i host fl o s)
| dns_return i host fl o :
    tasks s !! i = Some (Returning host fl o) -> dns_step now s (on_return i host fl o now s).

Definition dns_new : DnsCache :=
  {| entries := ∅; flights := ∅; cells := ∅; next_cell := 0; tasks := ∅; answers := []; lookups := [] |}.

(** Runs in order of time; [calm] when no task is cancelled. *)
Inductive dns_run (calm : bool) : Z -> DnsCache -> Prop :=
| run_new now : dns_run calm now dns_new
| run_step now now' s s' : dns_run calm now s -> now <= now' -> dns_step now' s s' -> dns_run calm now' s'
| run_cancel now i s : calm = false -> dns_run calm now s -> dns_run calm now (on_cancel i s).
End Cache.

(** ** Eviction *)

Lemma lookup_delete_all {A} (l : list (bytes * Z)) (m : gmap bytes A) k :
  foldr (fun e m => delete e.1 m) m l !! k = if decide (k ∈ l.*1) then None else m !! k.
Proof.
  induction l as [|[k' x] l IH]; cbn; [done|]. destruct (decide (k = k')) as [->|Hne].
  - rewrite lookup_delete_eq, decide_True by (by left). done.
  - rewrite lookup_delete_ne, IH by done. apply decide_ext. rewrite elem_of_cons. naive_solver.
Qed.

Lemma elem_of_taken {A} (x : A) n l : x ∈ take n l -> x ∈ l.
Proof. intros H. rewrite <- (take_drop n l). apply elem_of_app. by left. Qed.

Section Evict.
Variables (max_entries now : Z) (m : gmap bytes Entry).

Definition unexpired : gmap bytes Entry := filter (fun e : bytes * Entry => now < e_expires_at e.2) m.
Definition by_age : list (bytes * Z) := sort_by_key snd ((fun e => (e.1, e_last_used e.2)) <$> map_to_list unexpired).
Definition surplus : nat := Z.to_nat (Z.of_nat (size unexpired) + 1 - max_entries).

Lemma evict_eq :
  evict max_entries now m =
  if Z.of_nat (size unexpired) <? max_entries then unexpired
  else foldr (fun e m => delete e.1 m) unexpired (take surplus by_age).
Proof. done. Qed.

Lemma by_age_perm : by_age ≡ₚ (fun e => (e.1, e_last_used e.2)) <$> map_to_list unexpired.
Proof. apply sort_by_key_spec. Qed.

Lemma elem_of_by_age k u : (k, u) ∈ by_age <-> exists e, unexpired !! k = Some e /\ e_last_used e = u.
Proof.
  rewrite by_age_perm, list_elem_of_fmap. split.
  - intros ([k' e] & [= -> ->] & H). apply elem_of_map_to_list in H. eauto.
  - intros (e & H & <-). exists (k, e). split; [done|]. by apply elem_of_map_to_list.
Qed.

Lemma by_age_keys : NoDup by_age.*1 /\ length by_age = size unexpired.
Proof.
  split.
  - rewrite by_age_perm, <- list_fmap_compose. apply NoDup_fst_map_to_list.
  - rewrite by_age_perm, length_fmap. by rewrite length_map_to_list.
Qed.

Lemma evict_subset : evict max_entries now m ⊆ unexpired.
Proof.
  rewrite evict_eq. case_match; [done|]. apply map_subseteq_spec. intros k e. rewrite lookup_delete_all. by case_decide.
Qed.

Lemma evict_size : Z.of_nat (size (evict max_entries now m)) <= Z.max 0 (max_entries - 1).
Proof.
  rewrite evict_eq. destruct (_ <? _) eqn:E; bools; [lia|].
  destruct by_age_keys as [Hnd Hlen].
  assert (dom (foldr (fun e m => delete e.1 m) unexpired (take surplus by_age)) =
          dom unexpired ∖ list_to_set (take surplus by_age).*1) as Hdom.
  { apply set_eq. intros k. rewrite elem_of_difference, !elem_of_dom, lookup_delete_all, elem_of_list_to_set.
    case_decide; naive_solver. }
  rewrite <- size_dom, Hdom, size_difference.
  - rewrite size_list_to_set, size_dom, length_fmap, length_take.
    + unfold surplus. lia.
    + rewrite <- (take_drop surplus by_age), fmap_app in Hnd. by apply NoDup_app in Hnd as [? _].
  - intros k. rewrite elem_of_list_to_set. intros ([k' u] & -> & Hin)%list_elem_of_fmap.
    apply elem_of_taken in Hin. apply elem_of_by_age in Hin as (e & He & _). apply elem_of_dom. by exists e.
Qed.

(** What goes was used no later than what stays. *)
Lemma evict_oldest k k' e e' :
  evict max_entries now m !! k = Some e -> unexpired !! k' = Some e' -> evict max_entries now m !! k' = None ->
  e_last_used e' <= e_last_used e.
Proof.
  rewrite evict_eq. case_match; [congruence|]. rewrite !lookup_delete_all.
  case_decide as Hk; [done|]. intros He He'. case_decide as Hk'; [|congruence]. intros _.
  apply list_elem_of_fmap in Hk' as ([x u'] & -> & Hin'). cbn in *.
  assert ((k, e_last_used e) ∈ drop surplus by_age) as Hin.
  { assert ((k, e_last_used e) ∈ by_age) as Ha by (apply elem_of_by_age; eauto).
    rewrite <- (take_drop surplus by_age) in Ha. apply elem_of_app in Ha as [Ha|Ha]; [|done].
    destruct Hk. apply list_elem_of_fmap. by exists (k, e_last_used e). }
  assert (u' = e_last_used e') as ->.
  { apply elem_of_taken, elem_of_by_age in Hin' as (e1 & ? & <-). congruence. }
  pose proof (proj2 (sort_by_key_spec snd ((fun e => (e.1, e_last_used e.2)) <$> map_to_list unexpired))) as Hs.
  fold by_age in Hs. rewrite <- (take_drop surplus by_age) in Hs.
  exact (StronglySorted_app_1_elem_of (key_le snd) _ _ _ _ Hs Hin' Hin).
Qed.
End Evict.

(** ** Where answers come from *)

Section Honest.
Variables positive_ttl negative_ttl max_entries started : Z.

(** What is remembered of a lookup, and for how long. *)
Definition remembered (host : bytes) (l : Lookup) : option (Answer * Z) :=
  match l with
  | DidNotRun _ => None
  | Resolved (Ok []) => Some (Failure (no_such_name host), negative_ttl)
  | Resolved (Ok addrs) => Some (Addresses addrs, positive_ttl)
  | Resolved (Err e) => if is_not_found e then Some (Failure e, negative_ttl) else None
  end.

Lemma remembered_outcome host l a ttl : remembered host l = Some (a, ttl) -> entry_answer a = outcome_of host l.
Proof. unfold remembered. intros H. repeat case_match; simplify_eq/=; done. Qed.

Lemma settle_spec now host l m :
  settle positive_ttl negative_ttl max_entries started now host l m =
  (outcome_of host l, match remembered host l with
                      | Some (a, ttl) => remember max_entries started now host a ttl m
                      | None => m
                      end).
Proof. destruct l as [[[|addr addrs]|e]|]; try done. cbn. by destruct (is_not_found e). Qed.

(** Something the resolver said of [host], at [t]. *)
Definition said (s : DnsCache) (host : bytes) (t : Z) (l : Lookup) : Prop := (host, t, l) ∈ lookups s.

(** An outcome of a lookup of [host] up to [now]. *)
Definition truthful (s : DnsCache) (now : Z) (host : bytes) (o : Outcome) : Prop :=
  exists t l, said s host t l /\ t <= now /\ o = outcome_of host l.

Definition entry_ok (s : DnsCache) (now : Z) (host : bytes) (e : Entry) : Prop :=
  exists t l ttl, said s host t l /\ t <= now /\ remembered host l = Some (e_answer e, ttl) /\ e_expires_at e = t + ttl.

Definition answer_ok (s : DnsCache) (a : nat * bytes * Outcome * bool * Z) : Prop :=
  let '(_, host, o, hit, at_) := a in
  exists t l, said s host t l /\ t <= at_ /\ o = outcome_of host l /\
    (hit = true -> exists a ttl, remembered host l = Some (a, ttl) /\ at_ < t + ttl).

Definition on_flight (t : Task) : bytes * nat :=
  match t with Waiting h fl | Resolving h fl | Returning h fl _ => (h, fl) end.

(** [owner] is the name a flight was opened for. *)
Record honest (owner : nat -> bytes) (now : Z) (s : DnsCache) : Prop := {
  ho_entries host e : entries s !! host = Some e -> entry_ok s now host e;
  ho_size : Z.of_nat (size (entries s)) <= Z.max 1 max_entries;
  ho_flights host fl : flights s !! host = Some fl -> owner fl = host /\ (fl < next_cell s)%nat;
  ho_tasks i t : tasks s !! i = Some t -> owner (on_flight t).2 = (on_flight t).1 /\ ((on_flight t).2 < next_cell s)%nat;
  ho_cells fl o : cells s !! fl = Some (CellSet o) -> truthful s now (owner fl) o;
  ho_returning i host fl o : tasks s !! i = Some (Returning host fl o) -> truthful s now host o;
  ho_answers a : a ∈ answers s -> answer_ok s a;
}.

Lemma truthful_later s now now' host o : now <= now' -> truthful s now host o -> truthful s now' host o.
Proof. intros Hle (t & l & ? & ? & ?). exists t, l. split_and!; [done|lia|done]. Qed.

Lemma honest_later owner now now' s : now <= now' -> honest owner now s -> honest owner now' s.
Proof.
  intros Hle [He Hz Hf Ht Hc Hr Ha]. split; try done.
  - intros host e H. destruct (He _ _ H) as (t & l & ttl & ? & ? & ? & ?). exists t, l, ttl. split_and!; (done || lia).
  - intros fl o H. by eapply truthful_later, Hc.
  - intros i host fl o H. by eapply truthful_later, Hr.
Qed.

(** A hit is something the resolver said, and it has not run out. *)
Lemma lookup_entry_spec now host m r m' :
  lookup_entry started now host m = (r, m') ->
  (r = None /\ m' = m) \/
  (exists e, r = Some e /\ m !! host = Some e /\ now < e_expires_at e /\ m' = <[host := touch started now e]> m).
Proof.
  unfold lookup_entry. destruct (m !! host) as [e|]; [|intros [= <- <-]; by left].
  destruct (_ <=? _) eqn:E; bools; intros [= <- <-]; [by left|]. right. exists e. split_and!; (done || lia).
Qed.

Lemma honest_touch owner now s host e :
  honest owner now s -> entries s !! host = Some e ->
  honest owner now (with_entries (<[host := touch started now e]> (entries s)) s).
Proof.
  intros [He Hz Hf Ht Hc Hr Ha] Hh. split; try done; cbn.
  - intros h x. rewrite lookup_insert_Some. intros [[<- <-]|[_ H]]; [|by apply He]. apply (He _ _ Hh).
  - rewrite map_size_insert_Some; [done|by exists e].
Qed.

Lemma honest_end owner now s host fl : honest owner now s -> honest owner now (end_flight host fl s).
Proof.
  intros [He Hz Hf Ht Hc Hr Ha]. unfold end_flight.
  destruct (flights s !! host) as [c|]; [|by split]. case_bool_decide as Hb; [|by split].
  split; try done; cbn. intros h x [_ H]%lookup_delete_Some. by apply Hf.
Qed.

Lemma honest_delete owner now s i : honest owner now s -> honest owner now (with_tasks (delete i (tasks s)) s).
Proof.
  intros [He Hz Hf Ht Hc Hr Ha]. split; try done; cbn; intros *; rewrite lookup_delete_Some; intros [_ H]; eauto.
Qed.

Lemma honest_task owner now s i t :
  honest owner now s -> owner (on_flight t).2 = (on_flight t).1 -> ((on_flight t).2 < next_cell s)%nat ->
  (forall host fl o, t = Returning host fl o -> truthful s now host o) ->
  honest owner now (with_tasks (<[i := t]> (tasks s)) s).
Proof.
  intros [He Hz Hf Ht Hc Hr Ha] Ho Hlt Hret. split; try done; cbn; intros *; rewrite lookup_insert_Some;
    intros [[_ H]|[_ H]]; subst; eauto.
Qed.

Lemma honest_cell owner now s fl c :
  honest owner now s -> (forall o, c = CellSet o -> truthful s now (owner fl) o) -> honest owner now (with_cell fl c s).
Proof.
  intros [He Hz Hf Ht Hc Hr Ha] H. split; try done; cbn. intros fl' o.
  rewrite lookup_insert_Some. intros [[<- Hs]|[_ Hs]]; [by apply H|by apply Hc].
Qed.

Lemma honest_answered owner now s i host o hit :
  honest owner now s ->
  (exists t l, said s host t l /\ t <= now /\ o = outcome_of host l /\
     (hit = true -> exists a ttl, remembered host l = Some (a, ttl) /\ now < t + ttl)) ->
  honest owner now (answered i host o hit now s).
Proof.
  intros [He Hz Hf Ht Hc Hr Ha] H. split; try done; cbn. intros a. rewrite elem_of_cons. intros [->|Hin]; [done|by apply Ha].
Qed.

Lemma honest_flight owner now s host fl s' :
  honest owner now s -> flight host s = (fl, s') ->
  exists owner', honest owner' now s' /\ owner' fl = host /\ (fl < next_cell s')%nat /\ tasks s' = tasks s.
Proof.
  intros Hs. unfold flight. destruct (flights s !! host) as [c|] eqn:Ef.
  - intros [= <- <-]. destruct (ho_flights _ _ _ Hs _ _ Ef). by exists owner.
  - intros [= <- <-]. destruct Hs as [He Hz Hf Ht Hc Hr Ha].
    exists (fun x => if decide (x = next_cell s) then host else owner x). split; [|rewrite decide_True by done; cbn; split_and!; done || lia].
    split; try done; cbn.
    + intros h x. rewrite lookup_insert_Some. intros [[<- <-]|[_ H]]; [rewrite decide_True by done; split; [done|lia]|].
      apply Hf in H as [? ?]. rewrite decide_False by lia. split; [done|lia].
    + intros i t H. apply Ht in H as [? ?]. rewrite decide_False by lia. split; [done|lia].
    + intros x o. rewrite lookup_insert_Some. intros [[_ ?]|[Hne H]]; [done|].
      rewrite decide_False by done. by apply Hc.
Qed.

Lemma store_size now host e m :
  Z.of_nat (size m) <= Z.max 1 max_entries -> Z.of_nat (size (store_entry max_entries now host e m)) <= Z.max 1 max_entries.
Proof.
  intros Hm. unfold store_entry. destruct (max_entries <=? Z.of_nat (size m)) eqn:E; bools;
    match goal with |- context [<[host := e]> ?x] =>
      assert (size (<[host := e]> x) <= S (size x))%nat as Hins by
        (destruct (x !! host) eqn:?; [rewrite map_size_insert_Some by eauto|rewrite map_size_insert_None by done]; lia)
    end.
  - pose proof (evict_size max_entries now m). lia.
  - lia.
Qed.

Lemma store_lookup now host e m h x :
  store_entry max_entries now host e m !! h = Some x -> (h = host /\ x = e) \/ m !! h = Some x.
Proof.
  unfold store_entry. rewrite lookup_insert_Some. intros [[-> ->]|[_ H]]; [by left|right]. case_match; [|done].
  assert (unexpired now m !! h = Some x) as Hu by (eapply lookup_weaken; [exact H|apply evict_subset]).
  by apply map_lookup_filter_Some in Hu as [? _].
Qed.

Lemma honest_resolved owner now s i host fl l :
  honest owner now s -> tasks s !! i = Some (Resolving host fl) ->
  honest owner now (on_resolved positive_ttl negative_ttl max_entries started i host fl l now s).
Proof.
  intros [He Hz Hf Ht Hc Hr Ha] Hi. unfold on_resolved. rewrite settle_spec.
  destruct (Ht _ _ Hi) as [Ho Hlt]. cbn in Ho, Hlt.
  set (s' := {| entries := _; flights := _; cells := _; next_cell := _; tasks := _; answers := _; lookups := _ |}).
  assert (forall h t k, said s h t k -> said s' h t k) as Hsaid by (intros; by right).
  assert (forall t h o, truthful s t h o -> truthful s' t h o) as Htr
    by (intros ? ? ? (t & k & ? & ? & ?); exists t, k; eauto).
  assert (truthful s' now host (outcome_of host l)) as Hnew by (exists now, l; split_and!; [by left|lia|done]).
  assert (forall h e, entry_ok s now h e -> entry_ok s' now h e) as Hent
    by (intros ? ? (t & k & ttl & ? & ?); exists t, k, ttl; eauto).
  split; cbn.
  - intros h e. destruct (remembered host l) as [[a ttl]|] eqn:Erem; [|intros H; by apply Hent, He].
    intros [[-> ->]|H]%store_lookup; [|by apply Hent, He]. exists now, l, ttl. split_and!; [by left|lia|done|done].
  - destruct (remembered host l) as [[a ttl]|]; [|done]. by apply store_size.
  - done.
  - intros j t. rewrite lookup_insert_Some. intros [[_ <-]|[_ H]]; [done|by apply (Ht j)].
  - intros x o. rewrite lookup_insert_Some. intros [[<- [= <-]]|[_ H]]; [by rewrite Ho|by apply Htr, Hc].
  - intros j h x o. rewrite lookup_insert_Some. intros [[_ [= <- <- <-]]|[_ H]]; [done|by eapply Htr, Hr].
  - intros [[[[j h] o] hit] t] H. apply Ha in H as (t0 & k & ? & ?). exists t0, k. eauto.
Qed.

Lemma honest_resolve owner now s i host :
  honest owner now s -> exists owner', honest owner' now (on_resolve started i host now s).
Proof.
  intros Hs. unfold on_resolve. destruct (lookup_entry started now host (entries s)) as [r m] eqn:El.
  apply lookup_entry_spec in El as [[-> ->]|(e & -> & Hh & Hlt & ->)].
  - replace (with_entries (entries s) s) with s by by destruct s.
    destruct (flight host s) as [fl s'] eqn:Ef. destruct (honest_flight _ _ _ _ _ _ Hs Ef) as (owner' & Hs' & Ho & Hfl & Et).
    exists owner'. by apply honest_task.
  - exists owner. pose proof (honest_touch _ _ _ _ _ Hs Hh) as Hs'. apply honest_answered; [done|].
    destruct (ho_entries _ _ _ Hs _ _ Hh) as (t & l & ttl & Hsd & Hle & Hrem & Hexp).
    exists t, l. split_and!; [done|done|by eapply remembered_outcome|]. intros _. exists (e_answer e), ttl. split; [done|lia].
Qed.

Lemma honest_permit owner now s i host fl :
  honest owner now s -> tasks s !! i = Some (Waiting host fl) -> honest owner now (on_permit started i host fl now s).
Proof.
  intros Hs Hi. unfold on_permit. destruct (ho_tasks _ _ _ Hs _ _ Hi) as [Ho Hlt]. cbn in Ho, Hlt.
  destruct (lookup_entry started now host (entries s)) as [r m] eqn:El.
  apply lookup_entry_spec in El as [[-> ->]|(e & -> & Hh & Hx & ->)].
  - replace (with_entries (entries s) s) with s by by destruct s.
    apply honest_task; [by apply honest_cell|done|done|done].
  - assert (truthful s now host (entry_answer (e_answer e))) as Htr.
    { destruct (ho_entries _ _ _ Hs _ _ Hh) as (t & l & ttl & ? & ? & ? & ?). exists t, l.
      split_and!; [done|done|by eapply remembered_outcome]. }
    apply honest_task; [|done|done|by intros ? ? ? [= <- <- <-]].
    apply honest_cell; [by apply honest_touch|]. rewrite Ho. by intros o [= <-].
Qed.

Lemma honest_step owner now s s' :
  honest owner now s -> dns_step positive_ttl negative_ttl max_entries started now s s' -> exists owner', honest owner' now s'.
Proof.
  intros Hs Hstep. destruct Hstep as [i host Hi|i host fl Hi Hc|i host fl l Hi|i host fl o Hi Hc|i host fl o Hi].
  - by eapply honest_resolve.
  - exists owner. by apply honest_permit.
  - exists owner. by apply honest_resolved.
  - exists owner. destruct (ho_tasks _ _ _ Hs _ _ Hi) as [Ho Hlt]. cbn in Ho, Hlt. apply honest_task; [done..|].
    intros ? ? ? [= <- <- <-]. rewrite <- Ho. by eapply ho_cells.
  - exists owner. unfold on_return. apply honest_answered; [by apply honest_end, honest_delete|].
    destruct (ho_returning _ _ _ Hs _ _ _ _ Hi) as (t & l & Hsd & Hle & ->). exists t, l. split_and!; try done.
    unfold said, end_flight. cbn. by repeat case_match.
Qed.

Lemma honest_cancel owner now s i : honest owner now s -> honest owner now (on_cancel i s).
Proof.
  intros Hs. unfold on_cancel. destruct (tasks s !! i) as [[]|]; try done; apply honest_end.
  - by apply honest_delete.
  - apply honest_cell; [by apply honest_delete|done].
Qed.

Lemma honest_run calm now s :
  dns_run positive_ttl negative_ttl max_entries started calm now s -> exists owner, honest owner now s.
Proof.
  induction 1 as [now|now now' s s' _ [owner IH] Hle Hstep|now i s _ _ [owner IH]].
  - exists (fun _ => []). split; cbn; intros *; rewrite ?lookup_empty; try done; [rewrite map_size_empty; lia|].
    by intros ?%not_elem_of_nil.
  - eapply honest_step; [|exact Hstep]. by eapply honest_later.
  - exists owner. by apply honest_cancel.
Qed.

(** C35: the cache says what the resolver said.  However the callers of names
    interleave, and whoever of them is cancelled, an answer handed out for a name
    is the outcome of a lookup of that very name, made before; one from the cache
    is of a lookup that is remembered, less than its time to live ago, so a
    resolver that could not answer is never remembered; and the table never holds
    more than its bound.  What an eviction drops that had not run out was used no
    later than anything that stays. *)
Theorem dns_answers_honest calm now s :
  dns_run positive_ttl negative_ttl max_entries started calm now s ->
  (forall a, a ∈ answers s -> answer_ok s a) /\
  Z.of_nat (size (entries s)) <= Z.max 1 max_entries /\
  (forall k k' e e', evict max_entries now (entries s) !! k = Some e ->
     entries s !! k' = Some e' -> now < e_expires_at e' -> evict max_entries now (entries s) !! k' = None ->
     e_last_used e' <= e_last_used e).
Proof.
  intros [owner Hs]%honest_run. split_and!; [apply Hs|apply Hs|]. intros k k' e e' Hk Hk' Hx Hn.
  eapply evict_oldest; [exact Hk| |exact Hn]. by apply map_lookup_filter_Some.
Qed.
End Honest.

(** ** One lookup at a time *)

Section Flights.
Variables positive_ttl negative_ttl max_entries started : Z.
#[local] Abbreviation step := (dns_step positive_ttl negative_ttl max_entries started).
#[local] Abbreviation run := (dns_run positive_ttl negative_ttl max_entries started).

(** A cell that is being set is being set by the task that says so; in a calm run
    that task's flight is the one new callers find. *)
Record flying (calm : bool) (s : DnsCache) : Prop := {
  fy_cells fl c : cells s !! fl = Some c -> (fl < next_cell s)%nat;
  fy_flights host fl : flights s !! host = Some fl -> is_Some (cells s !! fl);
  fy_waiting i host fl : tasks s !! i = Some (Waiting host fl) -> is_Some (cells s !! fl) /\
    (calm = true -> (forall o, cells s !! fl <> Some (CellSet o)) -> flights s !! host = Some fl);
  fy_running fl i : cells s !! fl = Some (CellRunning i) -> exists host, tasks s !! i = Some (Resolving host fl);
  fy_resolving i host fl : tasks s !! i = Some (Resolving host fl) ->
    cells s !! fl = Some (CellRunning i) /\ (calm = true -> flights s !! host = Some fl);
  fy_returning i host fl o : tasks s !! i = Some (Returning host fl o) -> cells s !! fl = Some (CellSet o);
}.

Lemma flying_entries calm s m : flying calm s -> flying calm (with_entries m s).
Proof. intros [H1 H2 H3 H4 H5 H6]. by split. Qed.

Lemma flying_answered calm s i host o hit now : flying calm s -> flying calm (answered i host o hit now s).
Proof. intros [H1 H2 H3 H4 H5 H6]. by split. Qed.

(** A task that does not resolve. *)
Lemma flying_task calm s i t :
  flying calm s ->
  (forall host fl, tasks s !! i <> Some (Resolving host fl)) ->
  match t with
  | Waiting host fl => is_Some (cells s !! fl) /\ flights s !! host = Some fl
  | Resolving _ _ => False
  | Returning _ fl o => cells s !! fl = Some (CellSet o)
  end ->
  flying calm (with_tasks (<[i := t]> (tasks s)) s).
Proof.
  intros [H1 H2 H3 H4 H5 H6] Hi Ht. split; cbn; try done.
  - intros j h fl. rewrite lookup_insert_Some. intros [[_ ->]|[_ H]]; [by destruct Ht|eauto].
  - intros fl j Hc. destruct (H4 _ _ Hc) as [h Hj]. exists h. rewrite lookup_insert_ne; [done|].
    intros ->. by apply Hi in Hj.
  - intros j h fl. rewrite lookup_insert_Some. intros [[_ ->]|[_ H]]; [done|eauto].
  - intros j h fl o. rewrite lookup_insert_Some. intros [[_ ->]|[_ H]]; [done|eauto].
Qed.

(** A cell no task is setting or has set gets its value or its task. *)
Lemma flying_cell calm s i fl c t :
  flying calm s -> tasks s !! i = Some t ->
  (forall o, cells s !! fl <> Some (CellSet o)) ->
  (forall j, cells s !! fl = Some (CellRunning j) -> j = i) ->
  (forall host fl', t = Resolving host fl' -> fl' = fl) -> is_Some (cells s !! fl) ->
  forall t', match t' with
    | Resolving host fl' => c = CellRunning i /\ fl' = fl /\ (calm = true -> flights s !! host = Some fl)
    | Returning _ fl' o => c = CellSet o /\ fl' = fl
    | Waiting _ _ => False
    end ->
  flying calm (with_tasks (<[i := t']> (tasks s)) (with_cell fl c s)).
Proof.
  intros [H1 H2 H3 H4 H5 H6] Hi Hset Hrun Hres [c0 Hc0] t' Ht'. split; cbn.
  - intros x y. rewrite lookup_insert_Some. intros [[<- _]|[_ H]]; eauto.
  - intros h x H. destruct (decide (fl = x)) as [->|Hne]; [rewrite lookup_insert_eq; eauto|].
    rewrite lookup_insert_ne by done. eauto.
  - intros j h x. rewrite lookup_insert_Some. intros [[_ ->]|[_ H]]; [done|].
    destruct (H3 _ _ _ H) as [Hsome Hw]. destruct (decide (fl = x)) as [->|Hne].
    + rewrite lookup_insert_eq. split; [eauto|]. intros E _. by apply Hw.
    + rewrite lookup_insert_ne by done. done.
  - intros x j. rewrite lookup_insert_Some. intros [[<- ->]|[Hne H]].
    + destruct t' as [|h y|h y o]; [done| |by destruct Ht']. destruct Ht' as ([= ->] & -> & _).
      exists h. by rewrite lookup_insert_eq.
    + destruct (H4 _ _ H) as [h Hj]. exists h. rewrite lookup_insert_ne; [done|]. intros <-.
      rewrite Hi in Hj. injection Hj as ->. by destruct Hne; symmetry; eapply Hres.
  - intros j h x. rewrite lookup_insert_Some. intros [[<- ->]|[Hne H]].
    + destruct Ht' as (-> & -> & ?). by rewrite lookup_insert_eq.
    + destruct (H5 _ _ _ H) as [Hc Hcalm]. rewrite lookup_insert_ne; [done|]. intros <-.
      by apply Hne, eq_sym, Hrun.
  - intros j h x o. rewrite lookup_insert_Some. intros [[<- ->]|[Hne H]].
    + destruct Ht' as (-> & ->). by rewrite lookup_insert_eq.
    + rewrite lookup_insert_ne; [eauto|]. intros <-. by eapply Hset, H6.
Qed.

Lemma flying_end calm s host fl :
  flying calm s ->
  (calm = true -> exists o, cells s !! fl = Some (CellSet o)) ->
  flying calm (end_flight host fl s).
Proof.
  intros Hs Hn. unfold end_flight. destruct (flights s !! host) as [c|] eqn:Ef; [|done].
  case_bool_decide as Hb; [subst c|done]. destruct Hs as [H1 H2 H3 H4 H5 H6]. split; try done; cbn.
  - intros h x [_ H]%lookup_delete_Some. eauto.
  - intros i h x H. destruct (H3 _ _ _ H) as [Hc Hcalm]. split; [done|]. intros E Hset. specialize (Hcalm E Hset).
    rewrite lookup_delete_ne; [done|]. intros <-. destruct (Hn E) as [o Ho]. apply (Hset o). congruence.
  - intros i h x H. destruct (H5 _ _ _ H) as [Hc Hcalm]. split; [done|]. intros E. specialize (Hcalm E).
    rewrite lookup_delete_ne; [done|]. intros <-. destruct (Hn E) as [o Ho]. congruence.
Qed.

Lemma flying_delete calm s i :
  flying calm s -> (forall host fl, tasks s !! i <> Some (Resolving host fl)) ->
  flying calm (with_tasks (delete i (tasks s)) s).
Proof.
  intros [H1 H2 H3 H4 H5 H6] Hi. split; cbn; try done; intros *; rewrite ?lookup_delete_Some; try (intros [_ H]; by eauto).
  intros Hc. destruct (H4 _ _ Hc) as [h Hj]. exists h. rewrite lookup_delete_ne; [done|]. intros <-. by apply Hi in Hj.
Qed.

Lemma flying_flight calm s host fl s' :
  flying calm s -> flight host s = (fl, s') -> flying calm s' /\ is_Some (cells s' !! fl) /\ tasks s' = tasks s /\
    flights s' !! host = Some fl.
Proof.
  intros Hs. unfold flight. destruct (flights s !! host) as [c|] eqn:Ef; intros [= <- <-].
  - split_and!; try done. by eapply fy_flights.
  - destruct Hs as [H1 H2 H3 H4 H5 H6]. cbn.
    assert (forall x c, cells s !! x = Some c -> x <> next_cell s) as Hx by (intros x c H ->; apply H1 in H; lia).
    rewrite !lookup_insert_eq. split_and!; [|by eauto|done|done]. split; cbn.
    + intros x c. rewrite lookup_insert_Some. intros [[<- _]|[_ H]]; [lia|]. apply H1 in H. lia.
    + intros h x. rewrite lookup_insert_Some. intros [[_ <-]|[_ H]]; [rewrite lookup_insert_eq; eauto|].
      destruct (H2 _ _ H) as [c Hc]. rewrite lookup_insert_ne; [by exists c|]. by apply not_eq_sym, (Hx _ c).
    + intros i h x H. destruct (H3 _ _ _ H) as [[c Hc] Hw]. rewrite lookup_insert_ne by (by apply not_eq_sym, (Hx _ c)).
      split; [by exists c|]. intros E Hset. specialize (Hw E Hset). rewrite lookup_insert_ne; [done|]. intros <-. congruence.
    + intros x i. rewrite lookup_insert_Some. intros [[_ ?]|[_ H]]; [done|eauto].
    + intros i h x H. destruct (H5 _ _ _ H) as [Hc Hcalm]. rewrite lookup_insert_ne by (by apply not_eq_sym, (Hx _ _ Hc)).
      split; [done|]. intros E. rewrite lookup_insert_ne; [by apply Hcalm|]. intros <-. rewrite Hcalm in Ef; done.
    + intros i h x o H. rewrite lookup_insert_ne; [eauto|]. apply not_eq_sym. by eapply Hx, H6.
Qed.

Lemma flying_step calm now s s' : flying calm s -> step now s s' -> flying calm s'.
Proof.
  intros Hs Hstep. destruct Hstep as [i host Hi|i host fl Hi Hc|i host fl l Hi|i host fl o Hi Hc|i host fl o Hi].
  - unfold on_resolve. destruct (lookup_entry _ _ _ _) as [[e|] m]; [by apply flying_answered, flying_entries|].
    destruct (flight host (with_entries m s)) as [fl s1] eqn:Ef.
    destruct (flying_flight calm _ _ _ _ (flying_entries _ _ m Hs) Ef) as (Hs1 & Hc & Et & Hf).
    apply flying_task; [done| |done]. rewrite Et. cbn. by rewrite Hi.
  - unfold on_permit. destruct (lookup_entry _ _ _ _) as [[e|] m];
      refine (flying_cell calm (with_entries m s) i fl _ _ (flying_entries _ _ m Hs) Hi _ _ _ _ _ _); cbn;
      rewrite ?Hc; try done; try by eauto.
    split_and!; [done|done|]. intros E. destruct (fy_waiting _ _ Hs _ _ _ Hi) as [_ Hw]. apply Hw; [done|]. by rewrite Hc.
  - unfold on_resolved. rewrite settle_spec. destruct (fy_resolving _ _ Hs _ _ _ Hi) as [Hc _].
    set (m := match remembered _ _ _ _ with Some _ => _ | None => _ end).
    pose proof (flying_cell calm (with_entries m s) i fl (CellSet (outcome_of host l)) _ (flying_entries _ _ m Hs) Hi) as H.
    cbn in H. rewrite Hc in H.
    specialize (H ltac:(done) ltac:(by intros ? [= ->]) ltac:(by intros ? ? [= _ ->]) ltac:(by eauto)
                  (Returning host fl (outcome_of host l)) (conj eq_refl eq_refl)).
    destruct H as [H1 H2 H3 H4 H5 H6]. by split.
  - apply flying_task; [done|by rewrite Hi|done].
  - unfold on_return. apply flying_answered, flying_end.
    + apply flying_delete; [done|by rewrite Hi].
    + intros _. exists o. exact (fy_returning _ _ Hs _ _ _ _ Hi).
Qed.

Lemma flying_cancel s i : flying false s -> flying false (on_cancel i s).
Proof.
  intros Hs. unfold on_cancel. destruct (tasks s !! i) as [[host fl|host fl|]|] eqn:Hi; try done; (apply flying_end; [|done]).
  - apply flying_delete; [done|by rewrite Hi].
  - destruct (fy_resolving _ _ Hs _ _ _ Hi) as [Hc _].
    destruct Hs as [H1 H2 H3 H4 H5 H6]. split; cbn.
    + intros x c. rewrite lookup_insert_Some. intros [[<- _]|[_ H]]; eauto.
    + intros h x H. destruct (decide (fl = x)) as [->|Hne]; [rewrite lookup_insert_eq; eauto|].
      rewrite lookup_insert_ne by done. eauto.
    + intros j h x [_ H]%lookup_delete_Some. split; [|done]. destruct (decide (fl = x)) as [->|Hne]; [rewrite lookup_insert_eq; eauto|].
      rewrite lookup_insert_ne by done. by apply (H3 j h).
    + intros x j. rewrite lookup_insert_Some. intros [[_ ?]|[Hne H]]; [done|]. destruct (H4 _ _ H) as [h Hj].
      exists h. rewrite lookup_delete_ne; [done|]. intros <-. congruence.
    + intros j h x [Hne H]%lookup_delete_Some. destruct (H5 _ _ _ H) as [Hc' _]. split; [|done].
      rewrite lookup_insert_ne; [done|]. intros <-. congruence.
    + intros j h x o [Hne H]%lookup_delete_Some. rewrite lookup_insert_ne; [eauto|]. intros <-.
      apply H6 in H. congruence.
Qed.

Lemma flying_run calm now s : run calm now s -> flying calm s.
Proof.
  induction 1 as [now|now now' s s' _ IH Hle Hstep|now i s Hcalm _ IH].
  - split; cbn; intros *; by rewrite lookup_empty.
  - by eapply flying_step.
  - subst calm. by apply flying_cancel.
Qed.

Lemma return_answers now s i host fl o :
  tasks s !! i = Some (Returning host fl o) ->
  exists s', step now s s' /\ (i, host, o, false, now) ∈ answers s' /\ lookups s' = lookups s.
Proof.
  intros Hi. exists (on_return i host fl o now s). split; [by constructor|]. split; [by left|].
  unfold on_return, end_flight. by repeat case_match.
Qed.

Lemma set_answers now s i host fl o :
  tasks s !! i = Some (Waiting host fl) -> cells s !! fl = Some (CellSet o) ->
  exists s', rtc (step now) s s' /\ (i, host, o, false, now) ∈ answers s' /\ lookups s' = lookups s.
Proof.
  intros Hi Hc. destruct (return_answers now (on_set i host fl o s) i host fl o) as (s' & Hs' & Ha).
  { cbn. by rewrite lookup_insert_eq. }
  exists s'. split; [|done]. eapply rtc_l; [by apply dns_set|]. by apply rtc_once.
Qed.

(** At most one more lookup, with the result [l], was made. *)
Definition one_lookup (now : Z) (l : Lookup) (s s' : DnsCache) : Prop :=
  lookups s' = lookups s \/ exists host, lookups s' = (host, now, l) :: lookups s.

(** Getting the permit ends in a value. *)
Lemma permit_returns now s i host fl l :
  tasks s !! i = Some (Waiting host fl) -> cells s !! fl = Some CellEmpty ->
  exists s' o, rtc (step now) s s' /\ tasks s' !! i = Some (Returning host fl o) /\ one_lookup now l s s'.
Proof.
  intros Hi Hc. pose proof (dns_permit positive_ttl negative_ttl max_entries started now s i host fl Hi Hc) as Hstep.
  unfold on_permit in Hstep. destruct (lookup_entry started now host (entries s)) as [[e|] m].
  - eexists _, _. split; [by apply rtc_once|]. split; [cbn; by rewrite lookup_insert_eq|]. by left.
  - eexists _, _. split.
    + eapply rtc_l; [exact Hstep|]. apply rtc_once. apply (dns_resolved _ _ _ _ now _ i host fl l).
      cbn. by rewrite lookup_insert_eq.
    + unfold on_resolved. rewrite settle_spec. split; [cbn; by rewrite lookup_insert_eq|]. right. by exists host.
Qed.

(** one lookup answers everybody who waits.  In a run in which no caller is
    cancelled, at most one lookup of a name is under way at any time.  And in
    every run, with any callers cancelled at any point, no name is ever stuck: a
    caller that waits can be answered, with at most one more lookup, whatever the
    resolver says. *)
Theorem single_flight calm now s :
  run calm now s ->
  (calm = true -> forall i j host fl fl',
     tasks s !! i = Some (Resolving host fl) -> tasks s !! j = Some (Resolving host fl') -> i = j) /\
  (forall i host fl l, tasks s !! i = Some (Waiting host fl) ->
     exists s' o, rtc (step now) s s' /\ (i, host, o, false, now) ∈ answers s' /\ one_lookup now l s s').
Proof.
  intros Hs%flying_run. split.
  - intros E i j host fl fl' Hi Hj. destruct (fy_resolving _ _ Hs _ _ _ Hi) as [Hci Hfi].
    destruct (fy_resolving _ _ Hs _ _ _ Hj) as [Hcj Hfj]. specialize (Hfi E). specialize (Hfj E). congruence.
  - intros i host fl l Hi. destruct (fy_waiting _ _ Hs _ _ _ Hi) as [[c Hc] _]. destruct c as [|j|o].
    + destruct (permit_returns now s i host fl l Hi Hc) as (s1 & o & Hr & Ho & Hl).
      destruct (return_answers now s1 i host fl o Ho) as (s2 & Hs2 & Ha & El). exists s2, o.
      split; [by eapply rtc_r|]. split; [done|]. unfold one_lookup in *. by rewrite El.
    + destruct (fy_running _ _ Hs _ _ Hc) as [h Hj].
      pose proof (dns_resolved positive_ttl negative_ttl max_entries started now s j h fl l Hj) as Hstep.
      unfold on_resolved in Hstep. rewrite settle_spec in Hstep.
      assert (j <> i) as Hne by (intros ->; congruence).
      match type of Hstep with dns_step _ _ _ _ _ _ ?s1 =>
        destruct (set_answers now s1 i host fl (outcome_of h l)) as (s2 & Hr & Ha & El) end.
      * cbn. by rewrite lookup_insert_ne.
      * cbn. by rewrite lookup_insert_eq.
      * exists s2, (outcome_of h l). split; [by eapply rtc_l|]. split; [done|]. right. exists h. by rewrite El.
    + destruct (set_answers now s i host fl o Hi Hc) as (s' & Hr & Ha & El). exists s', o. split_and!; [done|done|by left].
Qed.
End Flights.

(** ** Worked examples *)

Definition toy_addr : SocketAddr := {| sa_is_ipv4 := true; sa_ip := [10; 0; 0; 1]; sa_port := 0 |}.

(** A caller of ["db"] starts a lookup, which is answered. *)
Definition toy_run : DnsCache :=
  on_return 0 (lit "db") 0 (Ok [toy_addr]) 7
    (on_resolved POSITIVE_TTL NEGATIVE_TTL MAX_ENTRIES 0 0 (lit "db") 0 (Resolved (Ok [toy_addr])) 7
      (on_permit 0 0 (lit "db") 0 5 (on_resolve 0 0 (lit "db") 5 dns_new))).

Lemma toy_run_ok : dns_run POSITIVE_TTL NEGATIVE_TTL MAX_ENTRIES 0 true 7 toy_run.
Proof.
  eapply (run_step _ _ _ _ _ 7 7); [|lia|by apply dns_return]. eapply (run_step _ _ _ _ _ 5 7); [|lia|by apply dns_resolved].
  eapply (run_step _ _ _ _ _ 5 5); [|lia|by apply dns_permit]. eapply (run_step _ _ _ _ _ 0 5); [|lia|by apply dns_resolve].
  apply run_new.
Qed.

Lemma dns_answers_honest_witness :
  answers toy_run = [(0%nat, lit "db", Ok [toy_addr], false, 7)] /\ Z.of_nat (size (entries toy_run)) <= 1024.
Proof.
  split; [reflexivity|].
  exact (proj1 (proj2 (dns_answers_honest POSITIVE_TTL NEGATIVE_TTL MAX_ENTRIES 0 true 7 toy_run toy_run_ok))).
Defined.

Lemma single_flight_witness :
  let s := on_resolve 0 0 (lit "db") 5 dns_new in
  exists s' o, rtc (dns_step POSITIVE_TTL NEGATIVE_TTL MAX_ENTRIES 0 5) s s' /\
    (0%nat, lit "db", o, false, 5) ∈ answers s' /\ one_lookup 5 (Resolved (Ok [toy_addr])) s s'.
Proof.
  apply (single_flight POSITIVE_TTL NEGATIVE_TTL MAX_ENTRIES 0 true 5) with (fl := 0%nat); [|reflexivity].
  eapply (run_step _ _ _ _ _ 0 5); [apply run_new|lia|by apply dns_resolve].
Defined.

(** A caller that waits and is cancelled takes the flight with it, although the
    lookup goes on: the next caller opens another flight and starts a second
    lookup of the same name beside the first. *)
Theorem cancelled_waiter_doubles_the_lookup :
  exists s, dns_run POSITIVE_TTL NEGATIVE_TTL MAX_ENTRIES 0 false 5 s /\
    tasks s !! 0%nat = Some (Resolving (lit "db") 0) /\ tasks s !! 2%nat = Some (Resolving (lit "db") 1).
Proof.
  exists (on_permit 0 2 (lit "db") 1 5 (on_resolve 0 2 (lit "db") 5 (on_cancel 1 (on_resolve 0 1 (lit "db") 5
    (on_permit 0 0 (lit "db") 0 5 (on_resolve 0 0 (lit "db") 5 dns_new)))))).
  split; [|split; reflexivity].
  eapply (run_step _ _ _ _ _ 5 5); [|lia|by apply dns_permit]. eapply (run_step _ _ _ _ _ 5 5); [|lia|by apply dns_resolve].
  apply run_cancel; [done|]. eapply (run_step _ _ _ _ _ 5 5); [|lia|by apply dns_resolve].
  eapply (run_step _ _ _ _ _ 5 5); [|lia|by apply dns_permit]. eapply (run_step _ _ _ _ _ 5 5); [|lia|by apply dns_resolve].
  apply run_new.
Qed.
