(* ===== verification/Streams.v ===== *)
(** * The streams of a connection (nexapipe/src/conn/stream.rs, passthrough.rs)

    A stream's first byte, or the protocol the connection named, says what it
    carries; the bytes read to find out are handed on.  A TLS session is read up to
    the end of its first record, sent to the backend its SNI names, and copied; the
    copy itself is not modelled, nor is the HTTP server a request goes to. *)

From S2P Require Import Prelude RustStd Preface Udp Host Tls Alpn AuthCodec AuthConfig Lb Limits Routes Dial L4.

(** ** What a stream carries *)

Definition is_l4_stream (first_byte : Z) : bool := first_byte =? PREFACE_MAGIC.

Inductive StreamKind := KindL4 | KindTls | KindRequest.

Definition classify (protocol : Protocol) (first : bytes) : StreamKind :=
  match protocol with
  | Alpn.L4 => KindL4
  | Alpn.Tls => KindTls
  | Alpn.Http => KindRequest
  | Legacy =>
      match first with
      | byte :: _ =>
          if is_l4_stream byte then KindL4
          else if is_tls_handshake byte then KindTls
          else KindRequest
      | [] => KindRequest
      end
  end.

(** Deadlines in nanoseconds. *)
Record StreamBudgets := { sb_head : Z; sb_identify : Z; sb_open : Z }.

Definition stream_budgets_new (header tls_hello open : Z) : StreamBudgets :=
  {| sb_head := open + header; sb_identify := open + Z.max header tls_hello; sb_open := open |}.
Definition identify_budget (b : StreamBudgets) : Z := sb_identify b - sb_open b.
Definition head_budget (b : StreamBudgets) : Z := sb_head b - sb_open b.
Definition head_left (b : StreamBudgets) (now : Z) : Z :=
  saturating_sub (head_budget b) (saturating_sub now (sb_open b)).

(** [find_headers_end]: the first blank line at or after [from]. *)
Fixpoint find_blank_line (s : bytes) : option nat :=
  if bool_decide (take 4 s = [13; 10; 13; 10]) then Some 0%nat
  else match s with
       | [] => None
       | _ :: t => S <$> find_blank_line t
       end.
Definition find_headers_end (buf : bytes) (from : nat) : option nat :=
  if bool_decide (from <= length buf)%nat then (fun pos => (from + pos)%nat) <$> find_blank_line (drop from buf)
  else None.

(** ** The first record of a TLS session *)

Definition MAX_HANDSHAKE_LEN : Z := 16 * 1024.

Definition first_record_end (buf : bytes) : option Z :=
  match buf with
  | _ :: _ :: _ :: b3 :: b4 :: _ => Some (5 + Z.lor (Z.shiftl b3 8) b4)
  | _ => None
  end.

Inductive HelloError := HeaderNotReceived | RecordTooLarge | HelloIo.

(** The loop over the reads, with the events that were not needed; the deadline
    is the event after which nothing arrives. *)
Fixpoint read_tls_record (buf : bytes) (evs : list ReadEvent) : result (bytes * list ReadEvent) HelloError :=
  let read :=
    match evs with
    | [] => Ok (buf, [])
    | ev :: evs =>
        match read_more_by buf ev with
        | Err _ => Err HelloIo
        | Ok None => Ok (buf, evs)
        | Ok (Some buf) => read_tls_record buf evs
        end
    end in
  match first_record_end buf with
  | None => if MAX_HANDSHAKE_LEN <? len buf then Err HeaderNotReceived else read
  | Some record_end =>
      if record_end <=? len buf then Ok (buf, evs)
      else if MAX_HANDSHAKE_LEN <? record_end then Err RecordTooLarge
      else read
  end.

(** ** Where it goes *)

Definition passthrough_parse_backend_addr (n : Network) (backend : bytes) : option (bytes * Z) :=
  Routes.parse_backend_addr (net_url_parse n) backend (SchemeOrBare 443).

Record TlsTarget := { tt_host : bytes; tt_port : Z; tt_lease : Lease }.

(** A lease that is not returned is dropped; the outer [None] is a panic. *)
Definition resolve_backend (n : Network) (routes : list Route) (acl : option ClientAcl) (handshake : bytes)
    (now rand : Z) (pools : Pools) : option (Pools * option TlsTarget) :=
  match extract_sni handshake with
  | None => Some (pools, None)
  | Some sni =>
      if match acl with Some acl => negb (acl_allows acl sni) | None => false end then Some (pools, None)
      else
        match get_passthrough_backend routes pools sni now rand with
        | None => None
        | Some (pools, Found (backend, lease)) =>
            if match acl, backend_port (net_url_parse n) (be_url backend) with
               | Some acl, Some port => negb (allows_backend_port acl port)
               | _, _ => false
               end
            then Some (drop_lease lease pools, None)
            else
              match passthrough_parse_backend_addr n (be_url backend) with
              | None => Some (drop_lease lease pools, None)
              | Some (host, port) => Some (pools, Some {| tt_host := host; tt_port := port; tt_lease := lease |})
              end
        | Some (pools, _) => Some (pools, None)
        end
  end.

(** A session that is being copied: the backend, what was sent to it, what is
    still to be read, and the lease it holds. *)
Record TlsSession := { ts_peer : SocketAddr; ts_sent : bytes; ts_rest : list ReadEvent; ts_lease : Lease }.

(** How the opening ends: [handle_iroh_stream] returns [Ok(())] or an error, or
    the session runs. *)
Inductive TlsOpening := TlsClosed | TlsFailed | TlsRunning (session : TlsSession).

(** [handle_iroh_stream] of passthrough.rs, up to the copy; [sent] is whether the
    backend took the hello. *)
Definition handle_tls_stream (n : Network) (connect_timeout : Z) (routes : list Route) (acl : option ClientAcl)
    (initial : bytes) (evs : list ReadEvent) (sent : bool) (now rand : Z) (pools : Pools)
    : option (Pools * TlsOpening) :=
  match read_tls_record initial evs with
  | Err _ => Some (pools, TlsFailed)
  | Ok (handshake, rest) =>
      match resolve_backend n routes acl handshake now rand pools with
      | None => None
      | Some (pools, None) => Some (pools, TlsClosed)
      | Some (pools, Some t) =>
          match (connect (net_dial n) (net_resolve_to n) now connect_timeout (tt_host t) (tt_port t)).2 with
          | Err _ => Some (drop_lease (tt_lease t) pools, TlsFailed)
          | Ok addr =>
              if negb sent then Some (drop_lease (tt_lease t) pools, TlsFailed)
              else Some (pools, TlsRunning {| ts_peer := addr; ts_sent := handshake; ts_rest := rest;
                                              ts_lease := tt_lease t |})
          end
      end
  end.

(** The end of a session. *)
Definition session_ends (session : TlsSession) (pools : Pools) : Pools := drop_lease (ts_lease session) pools.

(** ** The dispatch *)

(** Where a stream goes, with the bytes handed on and the reads to come. *)
Inductive Dispatch :=
| ToL4 (first : bytes) (evs : list ReadEvent)
| ToTls (first : bytes) (evs : list ReadEvent)
| ToRequest (first : bytes) (evs : list ReadEvent) (head_timeout : Z)
| PeerGone
| NoFirstByte.

(** [read_first_bytes] and the match of [handle_bidi_stream]; [waited] is how long
    the first bytes took. *)
Definition handle_bidi_stream (protocol : Protocol) (header tls_hello open waited : Z) (evs : list ReadEvent)
    : Dispatch :=
  let budgets := stream_budgets_new header tls_hello open in
  match protocol with
  | Alpn.Http => ToRequest [] evs header
  | _ =>
      match evs with
      | RBytes first :: evs =>
          match classify protocol first with
          | KindL4 => ToL4 first evs
          | KindTls => ToTls first evs
          | KindRequest => ToRequest first evs (head_left budgets (open + waited))
          end
      | REof :: _ => PeerGone
      | RFailed :: _ => NoFirstByte
      | RIdle :: _ | [] => NoFirstByte
      end
  end.

(** ** Reading the hello *)

Lemma first_record_end_short buf : (length buf < 5)%nat -> first_record_end buf = None.
Proof. intros H. do 5 (destruct buf as [|? buf]; [done|]). cbn in H. lia. Qed.

Lemma first_record_end_app buf x : (5 <= length buf)%nat -> first_record_end (buf ++ x) = first_record_end buf.
Proof. intros H. do 5 (destruct buf as [|? buf]; [cbn in H; lia|]). done. Qed.

Lemma first_record_end_hello h junk :
  hello_ok h -> first_record_end (encode_hello h ++ junk) = Some (len (encode_hello h)).
Proof.
  intros Hh. pose proof (ok_record_version h Hh) as Hv. pose proof (ok_body h Hh) as Hb. unfold u16_long in Hb.
  unfold encode_hello, be16. generalize dependent (encode_hello_body h). intros body Hb.
  destruct (h_record_version h) as [|v0 [|v1 [|? ?]]]; try done.
  rewrite to_be_bytes_2 by (unfold is_uint, len in *; lia). cbn. f_equal.
  rewrite lor_shift8 by (apply Z.mod_pos_bound; lia).
  pose proof (Z.div_mod (Z.of_nat (length body)) 256). unfold len. cbn. lia.
Qed.

Lemma read_hello_chunks h payload chunks buf evs :
  hello_ok h -> len (encode_hello h) <= MAX_HANDSHAKE_LEN -> buf ++ concat chunks = encode_hello h ++ payload ->
  exists got chunks', read_tls_record buf ((RBytes <$> chunks) ++ evs) = Ok (got, (RBytes <$> chunks') ++ evs) /\
    got ++ concat chunks' = encode_hello h ++ payload /\ encode_hello h `prefix_of` got.
Proof.
  intros Hok Hmax. revert buf. set (w := encode_hello h) in *.
  assert (forall buf chunks, buf ++ concat chunks = w ++ payload -> (length w <= length buf)%nat ->
    read_tls_record buf ((RBytes <$> chunks) ++ evs) = Ok (buf, (RBytes <$> chunks) ++ evs) /\ w `prefix_of` buf) as Hdone.
  { intros buf cs Hcat Hle.
    assert (w `prefix_of` buf) as [x ->].
    { exists (drop (length w) buf). apply (f_equal (take (length w))) in Hcat.
      rewrite take_app_le, take_app_len in Hcat by done. rewrite <- Hcat at 1. by rewrite take_drop. }
    split; [|by exists x]. pose proof (first_record_end_hello h x Hok) as Hf. fold w in Hf.
    assert (len w <=? len (w ++ x) = true) as Hlx by (apply Z.leb_le; rewrite len_app; pose proof (len_nonneg x); lia).
    destruct ((RBytes <$> cs) ++ evs); cbn [read_tls_record]; by rewrite Hf, Hlx. }
  induction chunks as [|c chunks IH]; intros buf Hcat.
  - exists buf, []. assert (length w <= length buf)%nat.
    { apply (f_equal length) in Hcat. rewrite !length_app in Hcat. cbn [concat length] in Hcat. lia. }
    destruct (Hdone buf [] Hcat) as [-> ?]; [done|]. done.
  - destruct (decide (length w <= length buf)%nat) as [Hle|Hgt].
    + exists buf, (c :: chunks). destruct (Hdone buf (c :: chunks) Hcat Hle) as [-> ?]. done.
    + destruct (IH (buf ++ c)) as (got & chunks' & Hr & Hg); [by rewrite <- app_assoc|].
      exists got, chunks'. split; [|done].
      assert (exists x, w = buf ++ x) as [x Hx].
      { exists (drop (length buf) w). apply (f_equal (take (length buf))) in Hcat.
        rewrite take_app_len, take_app_le in Hcat by lia. rewrite Hcat at 1. by rewrite take_drop. }
      cbn [fmap list_fmap app read_tls_record read_more_by].
      assert (len buf < len w) as Hlen by (unfold len; lia).
      destruct (decide (5 <= length buf)%nat) as [H5|H5].
      * rewrite <- (first_record_end_app buf x) by done. rewrite <- Hx.
        rewrite <- (app_nil_r w). unfold w at 1. rewrite (first_record_end_hello h [] Hok). fold w.
        rewrite (proj2 (Z.leb_gt _ _)), (proj2 (Z.ltb_ge _ _)) by lia. exact Hr.
      * rewrite first_record_end_short by lia. rewrite (proj2 (Z.ltb_ge _ _)) by lia. exact Hr.
Qed.

Definition peer_bytes (evs : list ReadEvent) : bytes :=
  evs ≫= fun ev => match ev with RBytes c => c | _ => [] end.

(** Whatever comes back is the bytes that were read, in order. *)
Lemma read_tls_record_prefix buf evs got rest :
  read_tls_record buf evs = Ok (got, rest) ->
  exists used, (exists stop, evs = used ++ stop ++ rest /\ (stop = [] \/ stop = [REof] \/ stop = [RIdle])) /\
    got = buf ++ peer_bytes used.
Proof.
  revert buf. induction evs as [|ev evs IH]; intros buf.
  - cbn. intros H. exists []. cbn. rewrite app_nil_r. split; [exists []|]; repeat case_match; simplify_eq; eauto.
  - cbn [read_tls_record]. intros H.
    assert (forall r, match read_more_by buf ev with
            | Err _ => Err HelloIo | Ok None => Ok (buf, evs) | Ok (Some buf) => read_tls_record buf evs end = Ok r ->
            r = (got, rest) -> exists used, (exists stop, ev :: evs = used ++ stop ++ rest /\ (stop = [] \/ stop = [REof] \/ stop = [RIdle])) /\
              got = buf ++ peer_bytes used) as Hread.
    { intros r Hr ->. destruct ev as [c| | |]; cbn in Hr; try done.
      - apply IH in Hr as (used & (stop & -> & Hs) & ->). exists (RBytes c :: used). split; [by exists stop|].
        cbn. by rewrite <- app_assoc.
      - simplify_eq. exists []. split; [exists [REof]; eauto|]. cbn. by rewrite app_nil_r.
      - simplify_eq. exists []. split; [exists [RIdle]; eauto|]. cbn. by rewrite app_nil_r. }
    destruct (first_record_end buf).
    + destruct (_ <=? _).
      * simplify_eq. exists []. split; [exists []; eauto|]. cbn. by rewrite app_nil_r.
      * destruct (_ <? _); [done|]. by eapply Hread.
    + destruct (_ <? _); [done|]. by eapply Hread.
Qed.

(** ** The dispatch hands everything on *)

Lemma peer_bytes_chunks chunks evs : peer_bytes ((RBytes <$> chunks) ++ evs) = concat chunks ++ peer_bytes evs.
Proof. induction chunks as [|c chunks IH]; [done|]. cbn. unfold peer_bytes in IH. by rewrite IH, <- app_assoc. Qed.

(** What a dispatch hands on. *)
Definition handed_on (d : Dispatch) : option (StreamKind * bytes * list ReadEvent) :=
  match d with
  | ToL4 first evs => Some (KindL4, first, evs)
  | ToTls first evs => Some (KindTls, first, evs)
  | ToRequest first evs _ => Some (KindRequest, first, evs)
  | PeerGone | NoFirstByte => None
  end.

Lemma classify_first protocol c x : c <> [] -> classify protocol (c ++ x) = classify protocol c.
Proof. by destruct c. Qed.

Lemma handle_bidi_stream_first protocol header tls_hello open waited c chunks evs :
  protocol <> Alpn.Http -> c <> [] ->
  handed_on (handle_bidi_stream protocol header tls_hello open waited ((RBytes <$> (c :: chunks)) ++ evs)) =
  Some (classify protocol (concat (c :: chunks)), c, (RBytes <$> chunks) ++ evs).
Proof.
  intros Hp Hc. cbn [concat]. rewrite (classify_first protocol c (concat chunks) Hc).
  unfold handle_bidi_stream. cbn [fmap list_fmap app]. destruct protocol; [done|..]; by destruct (classify _ _).
Qed.

(** a stream goes where its first byte says, whole.  However the transport
    cuts a stream up, it is handled as what the connection named, or as what the
    stream's first byte says, and the handler gets every byte of it, in order; the
    head of a request has what is left of the header's budget, so that a slow
    first byte buys nothing.  In particular the hello of a TLS session, on a
    connection of the TLS or of the old protocol, is read to its end and the name
    that routes it is the one it carries, with all that follows still to come. *)
Theorem stream_bytes_intact protocol header tls_hello open waited c chunks evs :
  c <> [] ->
  let d := handle_bidi_stream protocol header tls_hello open waited ((RBytes <$> (c :: chunks)) ++ evs) in
  (exists first rest, handed_on d = Some (classify protocol (concat (c :: chunks)), first, rest) /\
     first ++ peer_bytes rest = concat (c :: chunks) ++ peer_bytes evs) /\
  (forall first rest head_timeout, d = ToRequest first rest head_timeout ->
     protocol <> Alpn.Http -> 0 <= waited -> head_timeout = Z.max 0 (header - waited)) /\
  (forall h payload, protocol = Alpn.Tls \/ protocol = Legacy ->
     hello_ok h -> len (encode_hello h) <= MAX_HANDSHAKE_LEN -> concat (c :: chunks) = encode_hello h ++ payload ->
     exists first rest got rest', d = ToTls first rest /\ read_tls_record first rest = Ok (got, rest') /\
       extract_sni got = hello_sni h /\ got ++ peer_bytes rest' = encode_hello h ++ payload ++ peer_bytes evs).
Proof.
  intros Hc d. split_and!.
  - destruct (decide (protocol = Alpn.Http)) as [->|Hp].
    + eexists _, _. split; [done|]. apply peer_bytes_chunks.
    + exists c, ((RBytes <$> chunks) ++ evs). split; [by apply handle_bidi_stream_first|].
      rewrite peer_bytes_chunks. cbn [concat]. by rewrite app_assoc.
  - intros first rest t Hd Hp Hw. unfold d, handle_bidi_stream in Hd. cbn [fmap list_fmap app] in Hd.
    assert (head_left (stream_budgets_new header tls_hello open) (open + waited) = t) as <-
      by (destruct protocol; [done|..]; destruct (classify _ _); by simplify_eq).
    unfold head_left, head_budget, saturating_sub. cbn. lia.
  - intros h payload Hp Hok Hmax Hcat.
    assert (classify protocol c = KindTls) as Hk.
    { destruct Hp as [-> | ->]; [done|]. rewrite <- (classify_first Legacy c (concat chunks)) by done.
      cbn [concat] in Hcat. by rewrite Hcat. }
    destruct (read_hello_chunks h payload chunks c evs Hok Hmax Hcat) as (got & chunks' & Hr & Hg & [x Hx]).
    exists c, ((RBytes <$> chunks) ++ evs), got, ((RBytes <$> chunks') ++ evs). split_and!.
    + unfold d, handle_bidi_stream. cbn [fmap list_fmap app]. rewrite Hk. by destruct Hp as [-> | ->].
    + done.
    + subst got. by apply extract_sni_hello.
    + rewrite peer_bytes_chunks, app_assoc, Hg. by rewrite <- app_assoc.
Qed.

Lemma stream_bytes_intact_witness :
  let hello := encode_hello sample_hello in
  exists first rest got rest',
    handle_bidi_stream Legacy 10 5 0 1 ((RBytes <$> [take 3 hello; drop 3 hello; [1; 2]]) ++ [REof]) = ToTls first rest /\
    read_tls_record first rest = Ok (got, rest') /\ extract_sni got = Some (lit "api.example.com") /\
    got ++ peer_bytes rest' = hello ++ [1; 2].
Proof.
  intros hello.
  destruct (stream_bytes_intact Legacy 10 5 0 1 (take 3 hello) [drop 3 hello; [1; 2]] [REof] ltac:(discriminate))
    as (_ & _ & H).
  destruct (H sample_hello [1; 2]) as (first & rest & got & rest' & H1 & H2 & H3 & H4).
  - by right.
  - apply sample_hello_ok.
  - vm_compute. discriminate.
  - reflexivity.
  - exists first, rest, got, rest'. split_and!; [exact H1|exact H2|rewrite H3; vm_compute; reflexivity|exact H4].
Defined.

(** ** What a TLS session holds *)

(** The route a TLS session is answered by. *)
Definition passthrough_route (routes : list Route) (sni : bytes) : option Route :=
  best_match routes ModePassthrough (fun r => serves_host r (normalize_host sni)).

Definition tls_opening_ok (n : Network) (routes : list Route) (acl : option ClientAcl) (initial : bytes)
    (evs : list ReadEvent) (pools : Pools) (outcome : option (Pools * TlsOpening)) : Prop :=
  match outcome with
  | None => False
  | Some (pools', TlsRunning t) =>
      exists sni r url, extract_sni (ts_sent t) = Some sni /\ acl_admits acl sni None /\
        passthrough_route routes sni = Some r /\ lease_pool (ts_lease t) = r_pool r /\
        leased_url pools (ts_lease t) = Some url /\ acl_admits_backend (net_url_parse n) acl url /\
        one_more (ts_lease t) (counts pools) (counts pools') /\
        counts (session_ends t pools') = counts pools /\
        read_tls_record initial evs = Ok (ts_sent t, ts_rest t)
  | Some (pools', _) => counts pools' = counts pools
  end.

Lemma passthrough_lookup_cases routes pools sni now rand :
  pools_ok pools routes ->
  match get_passthrough_backend routes pools sni now rand with
  | None => False
  | Some (pools', Found (e, l)) =>
      one_more l (counts pools) (counts pools') /\ leased_url pools l = Some (be_url e) /\
      exists r, passthrough_route routes sni = Some r /\ lease_pool l = r_pool r
  | Some (pools', _) => pools' = pools
  end.
Proof.
  intros [Hin _]. unfold get_passthrough_backend. fold (passthrough_route routes sni).
  destruct (passthrough_route routes sni) as [r|] eqn:Er; [|done].
  destruct (Hin r) as [p Hp]; [by eapply best_match_elem|].
  pose proof (select_in_cases pools _ p [] now rand Hp) as H.
  destruct (select_in pools (r_pool r) [] now rand) as [pools' [| |e l]]; [done|by destruct H|].
  destruct H as (Hl & Hm & (b & Hb & Hub & _) & _). split; [done|]. split; [|by exists r].
  unfold leased_url. rewrite Hl, Hp. cbn. rewrite Hb. cbn. by rewrite Hub.
Qed.

(** a TLS session is copied only where its client may go, and accounted for.
    The opening never panics.  A session runs only when its hello names a host the
    client's list allows and the best passthrough route of that name leads to the
    backend, whose own port a strict list allows too; it then holds exactly one
    request of that backend, which its end gives back, and the backend was sent
    exactly the bytes that were read.  However the opening ends otherwise, no
    backend is left with a request more. *)
Theorem tls_session_accounted n connect_timeout routes acl initial evs sent now rand pools :
  pools_ok pools routes ->
  tls_opening_ok n routes acl initial evs pools
    (handle_tls_stream n connect_timeout routes acl initial evs sent now rand pools).
Proof.
  intros Hok. unfold handle_tls_stream, tls_opening_ok.
  destruct (read_tls_record initial evs) as [[hello rest]|] eqn:Er; [|done].
  unfold resolve_backend. destruct (extract_sni hello) as [sni|] eqn:Es; [|done].
  pose proof (acl_gate (net_url_parse n) acl sni None) as Hg.
  destruct (match acl with Some acl => negb (acl_allows acl sni) | None => false end); [done|].
  assert (acl_admits acl sni None) as Hadm by (apply Hg; by destruct acl). clear Hg.
  pose proof (passthrough_lookup_cases routes pools sni now rand Hok) as Hl.
  destruct (get_passthrough_backend _ _ _ _ _) as [[pools' [| |[e l]]]|]; [by subst|by subst| |done].
  destruct Hl as (Hm & Hu & r & Hr & Hp).
  assert (counts (drop_lease l pools') = counts pools) as Hback by (eapply drop_lease_counts; [apply Hok|done]).
  pose proof (acl_backend_gate (net_url_parse n) acl (be_url e)) as Hb.
  destruct (match acl, backend_port _ _ with Some _, Some _ => _ | _, _ => _ end); [done|].
  destruct (passthrough_parse_backend_addr n (be_url e)) as [[host port]|]; [|done]. cbn [tt_host tt_port tt_lease].
  destruct (connect _ _ _ _ _ _).2 as [addr|]; [|done]. destruct sent; [|done].
  exists sni, r, (be_url e). cbn. split_and!; try done. by apply Hb.
Qed.

Definition tls_route : Route := {|
  r_host_pattern := lit "api.example.com"; r_path_pattern := lit "/"; r_path_is_prefix := true;
  r_modes := [ModePassthrough]; r_pool := 0; r_backend_protocol := Http1; r_path_rewrite := None;
  r_l4 := l4_default |}.

Lemma tls_session_accounted_witness :
  exists pools t,
    handle_tls_stream sample_network 10000000000 [tls_route] None (encode_hello sample_hello ++ [1; 2]) [] true 0 0
      {[ 0%nat := db_pool ]} = Some (pools, TlsRunning t) /\
    counts (session_ends t pools) = counts {[ 0%nat := db_pool ]}.
Proof.
  assert (pools_ok {[ 0%nat := db_pool ]} [tls_route]) as Hok.
  { split.
    - intros r ->%list_elem_of_singleton. exists db_pool. reflexivity.
    - intros k p e Hk He. apply lookup_singleton_Some in Hk as [_ <-].
      apply list_elem_of_singleton in He as ->. split; [discriminate|reflexivity]. }
  pose proof (tls_session_accounted sample_network 10000000000 [tls_route] None (encode_hello sample_hello ++ [1; 2]) [] true
    0 0 {[ 0%nat := db_pool ]} Hok) as H.
  set (o := handle_tls_stream _ _ _ _ _ _ _ _ _ _) in *.
  assert (match o with Some (_, TlsRunning _) => true | _ => false end = true) as E by (vm_compute; reflexivity).
  clearbody o. destruct o as [[pools [| |t]]|]; [discriminate E..| |discriminate E].
  exists pools, t. split; [reflexivity|]. destruct H as (? & ? & ? & _ & _ & _ & _ & _ & _ & _ & Hc & _). exact Hc.
Defined.
