(* ===== verification/Headers.v ===== *)
(** * The headers of a proxied message (nexapipe/src/http/: body.rs, response.rs, forward.rs, legacy.rs)

    What crosses the proxy and what stays on one hop: the headers a message's own
    [Connection] names, the fixed lists of each direction, and the length the proxy
    declares for the body it carries.  [http::HeaderMap] is not part of the
    repository: it is the interface [HeaderMap], whose laws are its documented
    behaviour, and everything here is proved against the laws. *)

From S2P Require Import Prelude RustStd Host Lb Routes.

(** ** The header map *)

(** [hm_iter] is every pair; a name's values come in the order they were added. *)
Class HeaderMap (H : Type) := {
  hm_new : H;
  hm_iter : H -> list (bytes * bytes);
  hm_append : bytes -> bytes -> H -> H;
  hm_insert : bytes -> bytes -> H -> H;
  hm_remove : bytes -> H -> H;
  value_to_str : bytes -> option bytes;
}.

Section Reading.
Context `{HeaderMap H}.

Definition get_all (name : bytes) (h : H) : list bytes :=
  snd <$> filter (fun p => p.1 = name) (hm_iter h).
Definition header_get (name : bytes) (h : H) : option bytes := head (get_all name h).
Definition contains_key (name : bytes) (h : H) : bool := negb (bool_decide (get_all name h = [])).
(** [headers.get(name).and_then(|v| v.to_str().ok())]. *)
Definition get_str (name : bytes) (h : H) : option bytes := header_get name h ≫= value_to_str.
End Reading.

Class HeaderMapLaws (H : Type) `{HeaderMap H} := {
  get_all_new : forall m, get_all m (hm_new : H) = [];
  get_all_append : forall n v m (h : H),
    get_all m (hm_append n v h) = get_all m h ++ (if bool_decide (m = n) then [v] else []);
  get_all_insert : forall n v m (h : H),
    get_all m (hm_insert n v h) = if bool_decide (m = n) then [v] else get_all m h;
  get_all_remove : forall n m (h : H),
    get_all m (hm_remove n h) = if bool_decide (m = n) then [] else get_all m h;
  value_to_str_same : forall v s, value_to_str v = Some s -> s = v;
}.

(** ** What one message says about its own hop (body.rs) *)

Section ConnectionNamed.
Context `{HeaderMap H}.

Definition COMMA : Z := 44.

Definition ConnectionNamed := list bytes.

Definition connection_named_of (headers : H) : ConnectionNamed :=
  get_all (lit "connection") headers ≫= fun value =>
    match value_to_str value with
    | None => []
    | Some value => filter (fun name => name <> []) (trim <$> split_on COMMA value)
    end.

Definition names (connection : ConnectionNamed) (name : bytes) : bool :=
  existsb (fun named => eq_ignore_ascii_case named name) connection.

Definition any_ignore_case (hops : list string) (name : bytes) : bool :=
  existsb (fun hop => eq_ignore_ascii_case name (lit hop)) hops.

Definition request_hops : list string :=
  ["connection"; "proxy-connection"; "proxy-authenticate"; "proxy-authorization"; "keep-alive";
   "transfer-encoding"; "te"; "trailer"; "upgrade"; "expect"]%string.
Definition forwards_request_header (name : bytes) (connection : ConnectionNamed) : bool :=
  negb (any_ignore_case request_hops name) && negb (names connection name).

Definition response_hops : list string :=
  ["connection"; "keep-alive"; "proxy-authenticate"; "proxy-authorization"; "te"; "trailer";
   "transfer-encoding"; "upgrade"]%string.
Definition forwards_response_header (name : bytes) (connection : ConnectionNamed) : bool :=
  negb (any_ignore_case response_hops name) && negb (names connection name).

(** websocket.rs: the upgrade request keeps [Connection] and [Upgrade]. *)
Definition upgrade_hops : list string :=
  ["proxy-connection"; "proxy-authenticate"; "proxy-authorization"; "keep-alive";
   "transfer-encoding"; "te"; "trailer"; "expect"]%string.
Definition forwards_upgrade_header (name : bytes) (connection : ConnectionNamed) : bool :=
  negb (any_ignore_case upgrade_hops name) &&
  negb (names connection name && negb (eq_ignore_ascii_case name (lit "upgrade"))
        && negb (eq_ignore_ascii_case name (lit "connection"))).

(** ** The two heads *)

(** The answer's headers, as the client sees them (response.rs); over the tunnel the
    request's own [x-request-id] takes the place of the backend's afterwards
    ([answer_headers] of [HttpForward]). *)
Definition forwarded_response_headers (headers : H) : H :=
  let connection := connection_named_of headers in
  let framed_by_encoding := contains_key (lit "transfer-encoding") headers in
  fold_left (fun forwarded '(name, value) =>
    if negb (forwards_response_header name connection) then forwarded
    else if framed_by_encoding && bool_decide (name = lit "content-length") then forwarded
    else hm_append name value forwarded) (hm_iter headers) hm_new.

Definition names_more_than_one_host (headers : H) : bool :=
  (1 <? len (get_all (lit "host") headers)).

(** The request's headers, as the backend sees them: the loop of
    [attempt_backend] and of [backend_request_builder], with the length the proxy
    declares (forward.rs). *)
Definition attempt_headers (headers : H) : H :=
  let connection := connection_named_of headers in
  fold_left (fun builder '(name, value) =>
    if negb (forwards_request_header name connection) then builder
    else hm_append name value builder) (hm_iter headers) hm_new.

Definition backend_request_headers (headers : H) (content_length : option Z) : H :=
  let declares_own_length := is_some content_length in
  let connection := connection_named_of headers in
  let builder :=
    fold_left (fun builder '(name, value) =>
      if negb (forwards_request_header name connection) then builder
      else if declares_own_length && eq_ignore_ascii_case name (lit "content-length") then builder
      else hm_append name value builder) (hm_iter headers) hm_new in
  match content_length with
  | Some n => hm_append (lit "content-length") (show_uint n) builder
  | None => builder
  end.
End ConnectionNamed.

(** ** What crosses *)

(** A header name as [HeaderName] keeps it. *)
Definition canonical (m : bytes) : Prop := to_ascii_lowercase m = m.

Lemma eq_ignore_case_spec s t :
  eq_ignore_ascii_case s t = true <-> to_ascii_lowercase s = to_ascii_lowercase t.
Proof. unfold eq_ignore_ascii_case. by rewrite bool_decide_eq_true. Qed.

Lemma any_ignore_case_spec hops m :
  canonical m -> Forall (fun hop => canonical (lit hop)) hops ->
  any_ignore_case hops m = true <-> m ∈ lit <$> hops.
Proof.
  unfold any_ignore_case, canonical. intros Hm Hh. rewrite existsb_exists, list_elem_of_fmap.
  rewrite Forall_forall in Hh.
  split; intros (hop & A & B).
  - apply list_elem_of_In in A. rewrite eq_ignore_case_spec, Hm, (Hh _ A) in B. eauto.
  - exists hop. subst m. split; [by apply list_elem_of_In|]. by rewrite eq_ignore_case_spec.
Qed.

Section Heads.
Context `{HeaderMapLaws H}.

(** A [Connection] value names the header: one of the pieces between its commas,
    white space aside, is the name up to case. *)
Definition named_by_connection (h : H) (m : bytes) : Prop :=
  exists value text piece, value ∈ get_all (lit "connection") h /\ value_to_str value = Some text /\
    piece ∈ split_on COMMA text /\ trim piece <> [] /\
    to_ascii_lowercase (trim piece) = to_ascii_lowercase m.

Lemma names_spec h m : names (connection_named_of h) m = true <-> named_by_connection h m.
Proof.
  unfold names, named_by_connection, connection_named_of. rewrite existsb_exists. split.
  - intros (named & Hin & He). apply list_elem_of_In, list_elem_of_bind in Hin as (value & Hin & Hv).
    destruct (value_to_str value) as [text|] eqn:Et; [|by apply elem_of_nil in Hin].
    apply list_elem_of_filter in Hin as [Hne (piece & -> & Hp)%list_elem_of_fmap].
    apply eq_ignore_case_spec in He. eauto 10.
  - intros (value & text & piece & Hv & Et & Hp & Hne & He). exists (trim piece).
    split; [|by apply eq_ignore_case_spec]. apply list_elem_of_In, list_elem_of_bind.
    exists value. split; [|done]. rewrite Et. apply list_elem_of_filter. split; [done|].
    apply list_elem_of_fmap. eauto.
Qed.

(** A loop that appends the pairs whose name it keeps. *)
Lemma fold_append_get_all (f : H -> bytes * bytes -> H) (keep : bytes -> bool) l (b : H) m :
  (forall b n v, f b (n, v) = if keep n then hm_append n v b else b) ->
  get_all m (fold_left f l b) =
  get_all m b ++ (if keep m then snd <$> filter (fun p => p.1 = m) l else []).
Proof.
  intros Hf. revert b. induction l as [|[n v] l IH]; intros b; cbn [fold_left].
  { cbn. destruct (keep m); by rewrite app_nil_r. }
  rewrite IH, Hf. destruct (keep n) eqn:En.
  - rewrite get_all_append, <- app_assoc. f_equal. rewrite filter_cons. cbn [fst].
    case_bool_decide as Hm; [subst n; rewrite En, decide_True by done; done|].
    rewrite decide_False by congruence. done.
  - f_equal. rewrite filter_cons. cbn [fst]. destruct (decide (n = m)) as [->|]; [by rewrite En|done].
Qed.

Lemma attempt_headers_get h m :
  get_all m (attempt_headers h) =
  if forwards_request_header m (connection_named_of h) then get_all m h else [].
Proof.
  unfold attempt_headers.
  erewrite (fold_append_get_all _ (fun n => forwards_request_header n (connection_named_of h)));
    [by rewrite get_all_new|]. intros b n v. by destruct (forwards_request_header _ _).
Qed.

Lemma backend_request_headers_get h cl m :
  canonical m ->
  get_all m (backend_request_headers h cl) =
  match cl with
  | Some n => if bool_decide (m = lit "content-length") then [show_uint n]
              else if forwards_request_header m (connection_named_of h) then get_all m h else []
  | None => if forwards_request_header m (connection_named_of h) then get_all m h else []
  end.
Proof.
  intros Hm. unfold backend_request_headers.
  set (keep n := forwards_request_header n (connection_named_of h) &&
                 negb (is_some cl && eq_ignore_ascii_case n (lit "content-length"))).
  match goal with |- context [fold_left ?f ?l ?b] =>
    assert (get_all m (fold_left f l b) = if keep m then get_all m h else []) as E end.
  { rewrite (fold_append_get_all _ keep), get_all_new; [done|]. intros b n v. unfold keep.
    destruct (forwards_request_header _ _), (is_some cl && _); done. }
  destruct cl as [n|].
  - rewrite get_all_append, E. unfold keep. cbn [is_some is_none negb andb].
    replace (eq_ignore_ascii_case m (lit "content-length")) with (bool_decide (m = lit "content-length")).
    2:{ unfold eq_ignore_ascii_case. rewrite Hm. by apply bool_decide_ext. }
    case_bool_decide; cbn; rewrite ?andb_false_r, ?andb_true_r, ?app_nil_r; done.
  - rewrite E. unfold keep. cbn. by rewrite andb_true_r.
Qed.

Lemma forwarded_response_headers_get h m :
  get_all m (forwarded_response_headers h) =
  if forwards_response_header m (connection_named_of h) then
    if bool_decide (m = lit "content-length") && contains_key (lit "transfer-encoding") h
    then [] else get_all m h
  else [].
Proof.
  unfold forwarded_response_headers.
  erewrite (fold_append_get_all _ (fun n => forwards_response_header n (connection_named_of h) &&
     negb (contains_key (lit "transfer-encoding") h && bool_decide (n = lit "content-length")))).
  2:{ intros b n v. destruct (forwards_response_header _ _), (contains_key _ _), (bool_decide _); done. }
  rewrite get_all_new. cbn [app]. rewrite andb_comm.
  destruct (forwards_response_header _ _), (contains_key _ _), (bool_decide _); done.
Qed.

Lemma forwards_request_spec h m :
  canonical m ->
  forwards_request_header m (connection_named_of h) = true <->
  m ∉ lit <$> request_hops /\ ~ named_by_connection h m.
Proof.
  intros Hm. unfold forwards_request_header. rewrite andb_true_iff, !negb_true_iff, <- !not_true_iff_false.
  rewrite names_spec, any_ignore_case_spec by (done || by repeat constructor). done.
Qed.

Lemma forwards_response_spec h m :
  canonical m ->
  forwards_response_header m (connection_named_of h) = true <->
  m ∉ lit <$> response_hops /\ ~ named_by_connection h m.
Proof.
  intros Hm. unfold forwards_response_header. rewrite andb_true_iff, !negb_true_iff, <- !not_true_iff_false.
  rewrite names_spec, any_ignore_case_spec by (done || by repeat constructor). done.
Qed.

End Heads.

(** A header map kept as the list of its pairs. *)
#[export] Instance header_list : HeaderMap (list (bytes * bytes)) := {
  hm_new := [];
  hm_iter h := h;
  hm_append n v h := h ++ [(n, v)];
  hm_insert n v h := filter (fun p => p.1 <> n) h ++ [(n, v)];
  hm_remove n h := filter (fun p => p.1 <> n) h;
  value_to_str v := if forallb (fun b => (b =? 9) || (32 <=? b) && (b <=? 126)) v then Some v else None;
}.

Lemma get_all_filter_ne n m (h : list (bytes * bytes)) :
  get_all m (filter (fun p => p.1 <> n) h) = if bool_decide (m = n) then [] else get_all m h.
Proof.
  unfold get_all. cbn. rewrite list_filter_filter. case_bool_decide as E.
  - subst n. induction h as [|[k v] h IH]; [done|]. rewrite filter_cons. by rewrite decide_False by naive_solver.
  - f_equal. apply list_filter_iff. naive_solver.
Qed.

Lemma get_all_snoc n v m (h : list (bytes * bytes)) :
  get_all m (h ++ [(n, v)]) = get_all m h ++ (if bool_decide (m = n) then [v] else []).
Proof.
  unfold get_all. cbn. rewrite filter_app, fmap_app. f_equal. rewrite filter_cons. cbn.
  case_bool_decide; [by rewrite decide_True by congruence|by rewrite decide_False by congruence].
Qed.

#[export] Instance header_list_laws : HeaderMapLaws (list (bytes * bytes)).
Proof.
  split.
  - done.
  - intros. apply get_all_snoc.
  - intros n v m h. etransitivity; [apply get_all_snoc|]. rewrite get_all_filter_ne.
    case_bool_decide; [done|by rewrite app_nil_r].
  - intros. apply get_all_filter_ne.
  - intros v s. cbn. by destruct (forallb _ v); intros; simplify_eq.
Qed.

Definition sample_headers : list (bytes * bytes) :=
  [(lit "host", lit "a.example.com"); (lit "connection", lit "close, X-Token"); (lit "x-token", lit "1");
   (lit "content-length", lit "+5"); (lit "content-length", lit "5"); (lit "cookie", lit "a=b")].

