(* ===== verification/HttpBody.v ===== *)
(** * The bodies of a request and of its answer (nexapipe/src/http/: body.rs, reader.rs, server/body.rs, server/report.rs)

    A request body is read whole, under a limit, a deadline and the byte budget, or
    left on the client's stream and read as the backend asks for it.  The stream is
    shared with the copies lent to the attempts through a cell the reader leaves and
    comes back to; the cell is a step relation over the tasks that poll it. *)

From S2P Require Import Prelude RustStd Limits L4 Headers.

(** What hyper's stream of frames has, and the moment each is ready. *)
Inductive FrameEvent := FData (data : bytes) | FTrailers | FFailed | FEnd.
Definition Timed := list (Z * FrameEvent).

(** ** A body read whole (body.rs) *)

Definition MAX_REQUEST_BODY : Z := 64 * 1024 * 1024.

Inductive BodyReadError := TooLarge (limit : Z) | BodyTimedOut (deadline : Z) | BodyFailed.

(** [ByteReservation]'s [Drop]. *)
Definition give_back (reservation : Z) (b : ByteBudget) : ByteBudget :=
  if 0 <? reservation then reservation_drop reservation b else b.

(** The loop of [read_body_limited]; an error drops the reservation. *)
Fixpoint read_frames (limit deadline_at body_deadline : Z) (bytes_ : bytes) (reservation : Z)
    (frames : Timed) (b : ByteBudget) : ByteBudget * result (bytes * Z) BodyReadError :=
  match frames with
  | [] => (give_back reservation b, Err (BodyTimedOut body_deadline))
  | (ready, frame) :: frames =>
      if deadline_at <? ready then (give_back reservation b, Err (BodyTimedOut body_deadline))
      else
        match frame with
        | FEnd => (b, Ok (bytes_, reservation))
        | FFailed => (give_back reservation b, Err BodyFailed)
        | FTrailers => read_frames limit deadline_at body_deadline bytes_ reservation frames b
        | FData data =>
            if limit <? len bytes_ + len data then (give_back reservation b, Err (TooLarge limit))
            else
              match grow b reservation (len data) with
              | Err _ => (give_back reservation b, Err BodyFailed)
              | Ok (b, reservation) =>
                  read_frames limit deadline_at body_deadline (bytes_ ++ data) reservation frames b
              end
        end
  end.

Definition read_body_limited (limit body_deadline now : Z) (frames : Timed) (b : ByteBudget)
    : ByteBudget * result (bytes * Z) BodyReadError :=
  read_frames limit (now + body_deadline) body_deadline [] 0 frames b.

(** ** The shape a body is sent in (server/body.rs) *)

Inductive RequestBody :=
| Whole (bytes_ : bytes) (reservation : Z)
| Streaming (deadline : Z) (frames : Timed).

(** The status a body that could not be read is answered with. *)
Definition body_failure_status (e : BodyReadError) : Z :=
  match e with TooLarge _ => 413 | BodyTimedOut _ => 408 | BodyFailed => 400 end.

Definition declared_length `{HeaderMap H} (headers : H) : option Z :=
  get_str (lit "content-length") headers ≫= parse_usize.

Definition read_request_body `{HeaderMap H} (headers : H) (frames : Timed) (body_deadline now : Z)
    (b : ByteBudget) : ByteBudget * result RequestBody Z :=
  match declared_length headers with
  | Some length =>
      if MAX_REQUEST_BODY <? length then (b, Err 413)
      else (b, Ok (Streaming (now + body_deadline) frames))
  | None =>
      match read_body_limited MAX_REQUEST_BODY body_deadline now frames b with
      | (b, Ok (bytes_, reservation)) => (b, Ok (Whole bytes_ reservation))
      | (b, Err e) => (b, Err (body_failure_status e))
      end
  end.

(** The length the proxy declares ([build_backend_request_from], forward.rs). *)
Definition body_content_length `{HeaderMap H} (headers : H) (body : RequestBody) : option Z :=
  match body with
  | Whole bytes_ _ => Some (len bytes_)
  | Streaming _ _ => declared_length headers
  end.

(** ** The cell the reader is shared through (reader.rs) *)

(** A waker is the task it wakes. *)
Record ReaderCell (B : Type) := { rc_reader : option B; rc_waiters : list nat }.
Arguments rc_reader {B}. Arguments rc_waiters {B}. Arguments Build_ReaderCell {B}.

Definition reader_new {B} (reader : B) : ReaderCell B := {| rc_reader := Some reader; rc_waiters := [] |}.

Definition reader_take {B} (waker : nat) (cell : ReaderCell B) : ReaderCell B * option B :=
  match rc_reader cell with
  | Some reader => ({| rc_reader := None; rc_waiters := rc_waiters cell |}, Some reader)
  | None =>
      (if existsb (Nat.eqb waker) (rc_waiters cell) then cell
       else {| rc_reader := None; rc_waiters := rc_waiters cell ++ [waker] |}, None)
  end.

(** The cell, and the tasks to wake once it is unlocked. *)
Definition reader_put_back {B} (reader : B) (cell : ReaderCell B) : ReaderCell B * list nat :=
  ({| rc_reader := Some reader; rc_waiters := [] |}, rc_waiters cell).

(** ** One poll of the copy a request carries (server/body.rs) *)

Record BodyState := { bs_read : bool; bs_timed_out : bool; bs_sent : bool }.
Definition body_state_default : BodyState := {| bs_read := false; bs_timed_out := false; bs_sent := false |}.
Definition mark_read (s : BodyState) : BodyState :=
  {| bs_read := true; bs_timed_out := bs_timed_out s; bs_sent := bs_sent s |}.
Definition mark_timed_out (s : BodyState) : BodyState :=
  {| bs_read := bs_read s; bs_timed_out := true; bs_sent := bs_sent s |}.
Definition mark_sent (s : BodyState) : BodyState :=
  {| bs_read := bs_read s; bs_timed_out := bs_timed_out s; bs_sent := true |}.

Inductive Polled := Pending | ReadyNone | ReadyErr | ReadyFrame (frame : FrameEvent).

(** Hyper's stream: a frame that is ready is handed over once. *)
Definition stream_poll (now : Z) (frames : Timed) : Timed * Polled :=
  match frames with
  | [] => (frames, Pending)
  | (ready, frame) :: rest =>
      if now <? ready then (frames, Pending)
      else match frame with
           | FEnd => (frames, ReadyNone)
           | FFailed => (frames, ReadyErr)
           | _ => (rest, ReadyFrame frame)
           end
  end.

(** What the copies of one body share ([IncomingBody]), and one copy ([LentBody]). *)
Record Shared := { sb_cell : ReaderCell Timed; sb_state : BodyState; sb_deadline : Z }.
Record LentBody := { lb_task : nat; lb_reservation : Z }.

Definition incoming_new (frames : Timed) (deadline : Z) : Shared :=
  {| sb_cell := reader_new frames; sb_state := body_state_default; sb_deadline := deadline |}.
Definition lend (task : nat) : LentBody := {| lb_task := task; lb_reservation := 0 |}.
Definition may_retry (s : Shared) : bool := negb (bs_read (sb_state s)).
Definition did_time_out (s : Shared) : bool := bs_timed_out (sb_state s).
Definition has_been_sent (s : Shared) : bool := bs_sent (sb_state s).

Record PollOutcome := {
  po_shared : Shared; po_lent : LentBody; po_budget : ByteBudget; po_polled : Polled; po_woken : list nat }.

(** The timer is ready from the deadline on. *)
Definition lent_poll_frame (now : Z) (s : Shared) (lent : LentBody) (b : ByteBudget) : PollOutcome :=
  if sb_deadline s <=? now then
    {| po_shared := {| sb_cell := sb_cell s; sb_state := mark_timed_out (sb_state s);
                       sb_deadline := sb_deadline s |};
       po_lent := lent; po_budget := b; po_polled := ReadyErr; po_woken := [] |}
  else
    match reader_take (lb_task lent) (sb_cell s) with
    | (cell, None) =>
        {| po_shared := {| sb_cell := cell; sb_state := sb_state s; sb_deadline := sb_deadline s |};
           po_lent := lent; po_budget := b; po_polled := Pending; po_woken := [] |}
    | (cell, Some reader) =>
        let '(reader, polled) := stream_poll now reader in
        let '(state, reservation, b, outcome) :=
          match polled with
          | ReadyFrame (FData data) =>
              match grow b (lb_reservation lent) (len data) with
              | Ok (b, reservation) => (mark_read (sb_state s), reservation, b, polled)
              | Err _ => (mark_read (sb_state s), lb_reservation lent, b, ReadyErr)
              end
          | ReadyNone => (mark_sent (sb_state s), lb_reservation lent, b, ReadyNone)
          | _ => (sb_state s, lb_reservation lent, b, polled)
          end in
        let '(cell, woken) := reader_put_back reader cell in
        {| po_shared := {| sb_cell := cell; sb_state := state; sb_deadline := sb_deadline s |};
           po_lent := {| lb_task := lb_task lent; lb_reservation := reservation |};
           po_budget := b; po_polled := outcome; po_woken := woken |}
    end.

(** ** One poll of the answer's body (server/report.rs) *)

(** [cb_timer] is when the backend has been silent too long. *)
Record CountedBody := { cb_frames : Timed; cb_sent : Z; cb_idle : Z; cb_timer : option Z }.

Definition counted_new (frames : Timed) (idle : Z) : CountedBody :=
  {| cb_frames := frames; cb_sent := 0; cb_idle := idle; cb_timer := None |}.

Definition counted_poll_frame (now : Z) (body : CountedBody) : CountedBody * Polled :=
  let timer := default (now + cb_idle body) (cb_timer body) in
  let with_ frames sent timer :=
    {| cb_frames := frames; cb_sent := sent; cb_idle := cb_idle body; cb_timer := Some timer |} in
  if timer <=? now then (with_ (cb_frames body) (cb_sent body) timer, ReadyErr)
  else
    match stream_poll now (cb_frames body) with
    | (frames, ReadyFrame frame) =>
        let sent := match frame with
                    | FData data => wrapping 64 (cb_sent body + len data)
                    | _ => cb_sent body
                    end in
        (with_ frames sent (now + cb_idle body), ReadyFrame frame)
    | (frames, polled) => (with_ frames (cb_sent body) timer, polled)
    end.

(** ** A body read whole is the body that was sent *)

Definition data_of (frames : Timed) : bytes :=
  frames ≫= fun e => match e.2 with FData data => data | _ => [] end.

(** Frames that arrive in time and do not end the body. *)
Definition carried (deadline : Z) (frames : Timed) : Prop :=
  Forall (fun e => e.1 <= deadline /\ match e.2 with FData _ | FTrailers => True | _ => False end) frames.

(** A reservation grown from nothing, and the budget it was taken from. *)
Definition charged (b b' : ByteBudget) (n : Z) : Prop :=
  b_max b' = b_max b /\ b_held b' = b_held b + n /\ b_held b' <= b_max b.

(** What a read under a limit, a deadline and a budget may come to. *)
Definition read_ok (limit deadline : Z) (frames : Timed) (b : ByteBudget)
    (outcome : ByteBudget * result (bytes * Z) BodyReadError) : Prop :=
  match outcome with
  | (b', Ok (body, reservation)) =>
      exists pre at_ post, frames = pre ++ (at_, FEnd) :: post /\ carried deadline pre /\ at_ <= deadline /\
        body = data_of pre /\ len body <= limit /\ reservation = len body /\ charged b b' (len body)
  | (b', Err e) =>
      b' = b /\ exists pre post, frames = pre ++ post /\ carried deadline pre /\
        match e, post with
        | TooLarge l, (_, FData data) :: _ => l = limit /\ limit < len (data_of pre ++ data)
        | BodyTimedOut _, [] => True
        | BodyTimedOut _, (at_, _) :: _ => deadline < at_
        | BodyFailed, (_, FFailed) :: _ => True
        | BodyFailed, (_, FData data) :: _ => b_max b < b_held b + len (data_of pre ++ data)
        | _, _ => False
        end
  end.

Lemma data_of_app l k : data_of (l ++ k) = data_of l ++ data_of k.
Proof. apply bind_app. Qed.

Lemma give_back_charged b b' n : 0 <= n -> 0 <= b_held b -> charged b b' n -> give_back n b' = b.
Proof.
  intros Hn H0 (Hm & Hh & _). destruct b, b'. unfold give_back, reservation_drop, saturating_sub. cbn in *.
  subst. destruct (Z.ltb_spec 0 n); f_equal; lia.
Qed.

Lemma grow_charged b b' n m :
  0 <= n -> 0 <= m -> 0 <= b_held b -> b_max b < umax 64 -> charged b b' n ->
  match grow b' n m with
  | Ok (b'', n') => n' = n + m /\ charged b b'' (n + m)
  | Err _ => b_max b < b_held b + n + m
  end.
Proof.
  intros Hn Hm H0 Hw (Hx & Hh & Hle). unfold grow, try_reserve, saturating_add, umax in *.
  destruct (Z.leb_spec (Z.min (b_held b' + m) (2 ^ 64 - 1)) (b_max b')) as [Hin|Hout].
  - split; [apply wrapping_small; split; lia|]. unfold charged. cbn. lia.
  - lia.
Qed.

Lemma read_frames_ok limit deadline d frames : forall pre b b' n,
  0 <= n -> 0 <= b_held b -> b_max b < umax 64 -> charged b b' n -> carried deadline pre ->
  len (data_of pre) = n -> n <= limit ->
  read_ok limit deadline (pre ++ frames) b
    (read_frames limit deadline d (data_of pre) n frames b').
Proof.
  induction frames as [|[at_ frame] frames IH]; intros pre b b' n Hn H0 Hw Hc Hp Hl Hlim;
    cbn [read_frames]; pose proof (give_back_charged b b' n Hn H0 Hc) as Hg.
  { rewrite Hg. split; [done|]. by exists pre, []. }
  assert (forall e, match e, frame with
    | TooLarge l, FData data => l = limit /\ limit < len (data_of pre ++ data)
    | BodyTimedOut _, _ => deadline < at_
    | BodyFailed, FFailed => True
    | BodyFailed, FData data => b_max b < b_held b + len (data_of pre ++ data)
    | _, _ => False end -> read_ok limit deadline (pre ++ (at_, frame) :: frames) b (give_back n b', Err e)) as Herr.
  { intros e He. rewrite Hg. split; [done|]. exists pre, ((at_, frame) :: frames). split; [done|].
    split; [done|]. by destruct e. }
  destruct (Z.ltb_spec deadline at_) as [Hlate|Hin]; [by apply Herr|].
  assert (forall f, match f with FData _ | FTrailers => True | _ => False end ->
          carried deadline (pre ++ [(at_, f)])) as Hsnoc.
  { intros f Hf. apply Forall_app_2; [done|]. by repeat constructor. }
  destruct frame as [data| | |].
  - destruct (Z.ltb_spec limit (len (data_of pre) + len data)) as [Hbig|Hfit].
    { apply Herr. rewrite len_app. auto. }
    pose proof (grow_charged b b' n (len data) Hn (len_nonneg data) H0 Hw Hc) as Hgrow.
    destruct (grow b' n (len data)) as [[b'' n']|].
    + destruct Hgrow as [-> Hc']. replace (data_of pre ++ data) with (data_of (pre ++ [(at_, FData data)])).
      2:{ rewrite data_of_app. cbn. by rewrite app_nil_r. }
      rewrite cons_middle, app_assoc. pose proof (len_nonneg data). apply IH; auto; try lia.
      rewrite data_of_app, len_app. cbn. rewrite app_nil_r. lia.
    + apply Herr. rewrite len_app. lia.
  - rewrite cons_middle, app_assoc.
    replace (data_of pre) with (data_of (pre ++ [(at_, FTrailers)])) in Hl |- *
      by (rewrite data_of_app; apply app_nil_r).
    apply IH; auto.
  - by apply Herr.
  - exists pre, at_, frames. rewrite Hl. split_and!; done.
Qed.

Lemma read_body_limited_ok limit d now frames b :
  0 <= limit -> 0 <= b_held b <= b_max b -> b_max b < umax 64 ->
  read_ok limit (now + d) frames b (read_body_limited limit d now frames b).
Proof.
  intros Hl Hb Hw. apply (read_frames_ok limit (now + d) d frames [] b b 0); try done; try lia.
  - unfold charged. lia.
  - constructor.
Qed.

(** ** The request on the backend's wire *)

(** C12: one framing.  Whatever the client sent (two lengths, a length and chunks, a
    length that is no number), a request that goes to a backend carries exactly one
    [Content-Length] and no [Transfer-Encoding].  For a body read whole it is the
    length of the bytes, which are those of the frames up to the end, all of them
    before the deadline, under the limit and charged to the budget; for one left on
    the stream it is the length the client declared, which is under the limit, and
    nothing is charged.  A refusal leaves the budget as it was. *)
Theorem request_framing_unambiguous `{HeaderMapLaws H} (headers : H) frames body_deadline now b :
  0 <= b_held b <= b_max b -> b_max b < umax 64 ->
  match read_request_body headers frames body_deadline now b with
  | (b', Err status) => b' = b /\ status ∈ [413; 408; 400]
  | (b', Ok body) =>
      let sent := backend_request_headers headers (body_content_length headers body) in
      get_all (lit "transfer-encoding") sent = [] /\
      exists n, get_all (lit "content-length") sent = [show_uint n] /\ 0 <= n <= MAX_REQUEST_BODY /\
        match body with
        | Whole bytes_ reservation =>
            n = len bytes_ /\ declared_length headers = None /\
            read_ok MAX_REQUEST_BODY (now + body_deadline) frames b (b', Ok (bytes_, reservation))
        | Streaming deadline stream =>
            declared_length headers = Some n /\ stream = frames /\ deadline = now + body_deadline /\ b' = b
        end
  end.
Proof.
  intros Hb Hw. unfold read_request_body.
  assert (forall n, get_all (lit "transfer-encoding") (backend_request_headers headers (Some n)) = [] /\
                    get_all (lit "content-length") (backend_request_headers headers (Some n)) = [show_uint n]) as Hg.
  { intros n. rewrite !backend_request_headers_get by done. split; [|by rewrite bool_decide_true].
    rewrite bool_decide_false by done. destruct (forwards_request_header _ _) eqn:E; [|done].
    apply forwards_request_spec in E as [E _]; [|done]. exfalso. apply E.
    apply list_elem_of_fmap. exists "transfer-encoding"%string. split; [done|]. do 5 right. left. }
  destruct (declared_length headers) as [n|] eqn:Ed.
  - destruct (Z.ltb_spec MAX_REQUEST_BODY n) as [|Hn]; [split; [done|]; by left|]. cbn [body_content_length].
    rewrite Ed. split; [apply Hg|]. exists n. split; [apply Hg|]. split; [|done]. split; [|done].
    unfold declared_length in Ed. destruct (get_str _ _) as [text|]; [|done]. cbn in Ed.
    apply parse_uint_range in Ed; [lia|done].
  - pose proof (read_body_limited_ok MAX_REQUEST_BODY body_deadline now frames b ltac:(done) Hb Hw) as Hr.
    destruct (read_body_limited _ _ _ _ _) as [b' [[bytes_ r]|e]].
    + split; [apply Hg|]. exists (len bytes_). split; [apply Hg|]. split; [|done].
      pose proof (len_nonneg bytes_). destruct Hr as (pre & at_ & post & _ & _ & _ & _ & Hle & _). lia.
    + destruct Hr as [-> _]. split; [done|]. destruct e; cbn; set_solver.
Qed.

Lemma request_framing_unambiguous_witness :
  exists n, get_all (lit "content-length")
    (backend_request_headers sample_headers (body_content_length sample_headers (Streaming 5 []))) = [show_uint n].
Proof.
  destruct (request_framing_unambiguous sample_headers [] 5 0 (budget_new 100)) as (_ & n & Hn & _).
  - split; discriminate.
  - reflexivity.
  - exists n. exact Hn.
Defined.

(** ** The reader is never lost, and nobody waits for nothing *)

(** A task that polls the body: between polls, holding the reader inside one,
    waiting for it, or out of [put_back]'s lock with these still to wake. *)
Inductive Task (B : Type) := Runnable | Holding (reader : B) | Parked | Waking (waiters : list nat).
Arguments Runnable {B}. Arguments Holding {B}. Arguments Parked {B}. Arguments Waking {B}.

Record Sharing (B : Type) := { sh_cell : ReaderCell B; sh_tasks : gmap nat (Task B) }.
Arguments sh_cell {B}. Arguments sh_tasks {B}. Arguments Build_Sharing {B}.

(** Waking a task that is not parked leaves it as it is. *)
Definition wake {B} (t : Task B) : Task B := match t with Parked => Runnable | t => t end.

Section Sharing.
Context {B : Type}.

Inductive share_step : Sharing B -> Sharing B -> Prop :=
| SH_take c c' ts t reader :
    ts !! t = Some Runnable -> reader_take t c = (c', Some reader) ->
    share_step {| sh_cell := c; sh_tasks := ts |} {| sh_cell := c'; sh_tasks := <[t := Holding reader]> ts |}
| SH_miss c c' ts t :
    ts !! t = Some Runnable -> reader_take t c = (c', None) ->
    share_step {| sh_cell := c; sh_tasks := ts |} {| sh_cell := c'; sh_tasks := <[t := Parked]> ts |}
| SH_put c c' ts t reader reader' woken :
    ts !! t = Some (Holding reader) -> reader_put_back reader' c = (c', woken) ->
    share_step {| sh_cell := c; sh_tasks := ts |} {| sh_cell := c'; sh_tasks := <[t := Waking woken]> ts |}
| SH_wake c ts t w ws :
    ts !! t = Some (Waking (w :: ws)) ->
    share_step {| sh_cell := c; sh_tasks := ts |}
               {| sh_cell := c; sh_tasks := alter wake w (<[t := Waking ws]> ts) |}
| SH_done c ts t :
    ts !! t = Some (Waking []) ->
    share_step {| sh_cell := c; sh_tasks := ts |} {| sh_cell := c; sh_tasks := <[t := Runnable]> ts |}
(** A parked task may be polled for another reason: its timer, a spurious wake. *)
| SH_spurious c ts t :
    ts !! t = Some Parked ->
    share_step {| sh_cell := c; sh_tasks := ts |} {| sh_cell := c; sh_tasks := <[t := Runnable]> ts |}
(** Another copy of the body is lent. *)
| SH_lend c ts t :
    ts !! t = None ->
    share_step {| sh_cell := c; sh_tasks := ts |} {| sh_cell := c; sh_tasks := <[t := Runnable]> ts |}.

Definition holds (s : Sharing B) (t : nat) : Prop := exists reader, sh_tasks s !! t = Some (Holding reader).
Definition will_wake (s : Sharing B) (t : nat) : Prop :=
  exists w ws, sh_tasks s !! w = Some (Waking ws) /\ t ∈ ws.

Record share_inv (s : Sharing B) : Prop := {
  (** The reader is in one place. *)
  si_one : (is_Some (rc_reader (sh_cell s)) /\ forall t, ~ holds s t) \/
           (rc_reader (sh_cell s) = None /\ exists t, holds s t /\ forall t', holds s t' -> t' = t);
  si_waiters : rc_waiters (sh_cell s) <> [] -> rc_reader (sh_cell s) = None;
  si_parked : forall t, sh_tasks s !! t = Some Parked -> t ∈ rc_waiters (sh_cell s) \/ will_wake s t;
}.

Lemma holds_insert c ts t k t' :
  holds {| sh_cell := c; sh_tasks := <[t := k]> ts |} t' <->
  (t' = t /\ exists reader, k = Holding reader) \/ (t' <> t /\ holds {| sh_cell := c; sh_tasks := ts |} t').
Proof.
  unfold holds. cbn. destruct (decide (t' = t)) as [->|Hne].
  - rewrite lookup_insert_eq. naive_solver.
  - rewrite lookup_insert_ne by congruence. naive_solver.
Qed.

Lemma holds_cell c c' ts t :
  holds {| sh_cell := c; sh_tasks := ts |} t <-> holds {| sh_cell := c'; sh_tasks := ts |} t.
Proof. done. Qed.

Lemma wake_holding (k : Task B) reader : wake k = Holding reader <-> k = Holding reader.
Proof. by destruct k. Qed.

Lemma holds_wake c ts w t :
  holds {| sh_cell := c; sh_tasks := alter wake w ts |} t <-> holds {| sh_cell := c; sh_tasks := ts |} t.
Proof.
  unfold holds. cbn. rewrite lookup_alter. destruct (decide (w = t)) as [->|]; [|done].
  destruct (ts !! t) as [k|]; cbn; [|naive_solver].
  split; intros [r Hr]; exists r; simplify_eq/=; f_equal; by apply wake_holding.
Qed.

Lemma will_wake_insert c c' ts t k x :
  (forall ws, ts !! t = Some (Waking ws) -> x ∈ ws -> exists ws', k = Waking ws' /\ x ∈ ws') ->
  will_wake {| sh_cell := c; sh_tasks := ts |} x ->
  will_wake {| sh_cell := c'; sh_tasks := <[t := k]> ts |} x.
Proof.
  intros Hk (w & ws & Hw & Hx). destruct (decide (w = t)) as [->|Hne].
  - destruct (Hk ws Hw Hx) as (ws' & -> & Hx'). exists t, ws'. cbn. by rewrite lookup_insert_eq.
  - exists w, ws. cbn in *. by rewrite lookup_insert_ne by congruence.
Qed.

Lemma will_wake_alter c ts w x :
  will_wake {| sh_cell := c; sh_tasks := ts |} x ->
  will_wake {| sh_cell := c; sh_tasks := alter wake w ts |} x.
Proof.
  intros (u & ws & Hu & Hx). exists u, ws. split; [|done]. cbn in *. rewrite lookup_alter.
  destruct (decide (w = u)) as [->|]; [by rewrite Hu|done].
Qed.

(** Whoever waits still waits when one task moves, as long as it wakes whom it had to. *)
Lemma parked_insert c c' ts t k x :
  share_inv {| sh_cell := c; sh_tasks := ts |} ->
  (forall y, y ∈ rc_waiters c -> y ∈ rc_waiters c') ->
  (k = Parked -> t ∈ rc_waiters c') ->
  (forall ws, ts !! t = Some (Waking ws) -> x ∈ ws -> exists ws', k = Waking ws' /\ x ∈ ws') ->
  <[t := k]> ts !! x = Some Parked ->
  x ∈ rc_waiters c' \/ will_wake {| sh_cell := c'; sh_tasks := <[t := k]> ts |} x.
Proof.
  intros [_ _ Hpark] Hsub Ht Hk Hx. destruct (decide (x = t)) as [->|Hne].
  { rewrite lookup_insert_eq in Hx. simplify_eq. auto. }
  rewrite lookup_insert_ne in Hx by congruence. destruct (Hpark x Hx) as [|Hw]; [left; auto|right].
  by eapply will_wake_insert.
Qed.

(** A task that neither had the reader nor gets it moves. *)
Lemma si_one_move c ts t k :
  (forall reader, ts !! t <> Some (Holding reader)) -> (forall reader, k <> Holding reader) ->
  share_inv {| sh_cell := c; sh_tasks := ts |} ->
  let s := {| sh_cell := c; sh_tasks := <[t := k]> ts |} in
  (is_Some (rc_reader c) /\ forall t, ~ holds s t) \/
  (rc_reader c = None /\ exists t, holds s t /\ forall t', holds s t' -> t' = t).
Proof.
  intros Ht Hk [Hone _ _]. cbn in *.
  assert (forall x, holds {| sh_cell := c; sh_tasks := <[t := k]> ts |} x <->
                    holds {| sh_cell := c; sh_tasks := ts |} x) as Hx.
  { intros x. rewrite holds_insert. unfold holds. cbn. split; [naive_solver|].
    intros [r Hr]. right. split; [|eauto]. intros ->. by eapply Ht. }
  setoid_rewrite Hx. done.
Qed.

Lemma share_inv_step s s' : share_step s s' -> share_inv s -> share_inv s'.
Proof.
  destruct 1 as [c c' ts t reader Ht E|c c' ts t Ht E|c c' ts t reader reader' woken Ht E|c ts t w ws Ht
                |c ts t Ht|c ts t Ht|c ts t Ht]; intros HI; pose proof HI as [Hone Hwait Hpark]; cbn in *.
  - unfold reader_take in E. destruct (rc_reader c) as [r|] eqn:Er; [|by destruct (existsb _ _)].
    simplify_eq. destruct Hone as [[_ Hno]|[[=] _]].
    assert (rc_waiters c = []) as Hw0 by (destruct (rc_waiters c); [done|by discriminate Hwait]).
    split; cbn; [right|done|].
    + split; [done|]. exists t. split; [apply holds_insert; eauto|]. intros t' [[-> _]|[_ Hh]]%holds_insert; [done|].
      by apply Hno in Hh.
    + intros x. apply (parked_insert c {| rc_reader := None; rc_waiters := rc_waiters c |});
        [done|done|done|congruence].
  - unfold reader_take in E. destruct (rc_reader c) as [r|] eqn:Er; [done|].
    assert (rc_reader c' = None /\ t ∈ rc_waiters c' /\ forall x, x ∈ rc_waiters c -> x ∈ rc_waiters c')
      as (Er' & Htw & Hsub).
    { destruct (existsb (Nat.eqb t) (rc_waiters c)) eqn:Ex; simplify_eq; cbn.
      - split; [done|]. split; [|done]. apply existsb_exists in Ex as (x & Hx%list_elem_of_In & ->%Nat.eqb_eq). done.
      - split; [done|]. set_solver. }
    split; cbn; [|done|].
    + pose proof (si_one_move c ts t Parked ltac:(congruence) ltac:(done) HI) as Hm. cbn in Hm.
      rewrite Er in Hm. rewrite Er'. exact Hm.
    + intros x. apply (parked_insert c); [done|done|done|congruence].
  - unfold reader_put_back in E. simplify_eq. split; cbn; [left|done|].
    + split; [by eexists|]. intros x [[-> [? [=]]]|[Hne Hh]]%holds_insert.
      destruct Hone as [[_ Hno]|[_ (u & _ & Hu)]]; [by eapply Hno|].
      apply Hne. rewrite (Hu x Hh). symmetry. apply Hu. by exists reader.
    + intros x Hx. right. destruct (decide (x = t)) as [->|Hne]; [by rewrite lookup_insert_eq in Hx|].
      rewrite lookup_insert_ne in Hx by congruence. destruct (Hpark x Hx) as [Hw|Hw].
      * exists t, (rc_waiters c). cbn. by rewrite lookup_insert_eq.
      * eapply will_wake_insert; [|exact Hw]. congruence.
  - split; cbn; [|done|].
    + setoid_rewrite holds_wake. apply si_one_move; [congruence|done|done].
    + intros x Hx. rewrite lookup_alter in Hx. destruct (decide (w = x)) as [->|Hwx].
      { destruct (<[t:=Waking ws]> ts !! x) as [k|]; [|done]. cbn in Hx. by destruct k. }
      destruct (decide (x = t)) as [->|Hne]; [by rewrite lookup_insert_eq in Hx|].
      rewrite lookup_insert_ne in Hx by congruence. destruct (Hpark x Hx) as [|Hw]; [by left|right].
      apply will_wake_alter. eapply will_wake_insert; [|exact Hw]. intros ws' Hws' Hin. simplify_eq.
      exists ws. split; [done|]. set_solver.
  - split; cbn; [by apply si_one_move; [congruence..|]|done|]. intros x. apply (parked_insert c); [done..|].
    intros ws Hws Hin. simplify_eq. by apply elem_of_nil in Hin.
  - split; cbn; [by apply si_one_move; [congruence..|]|done|]. intros x.
    apply (parked_insert c); [done|done|done|congruence].
  - split; cbn; [by apply si_one_move; [congruence..|]|done|]. intros x.
    apply (parked_insert c); [done|done|done|congruence].
Qed.

Lemma share_inv_new reader : share_inv {| sh_cell := reader_new reader; sh_tasks := ∅ |}.
Proof.
  split; cbn; [left|done|].
  - split; [by eexists|]. intros t [r Hr]. cbn in Hr. by rewrite lookup_empty in Hr.
  - intros t Ht. by rewrite lookup_empty in Ht.
Qed.

(** The wakes of one [put_back], one by one, reach whoever it took out of the cell. *)
Lemma waking_reaches c ts w ws t :
  ts !! w = Some (Waking ws) -> t ∈ ws -> ts !! t = Some Parked ->
  exists s', rtc share_step {| sh_cell := c; sh_tasks := ts |} s' /\ sh_tasks s' !! t = Some Runnable.
Proof.
  revert ts. induction ws as [|u ws IH]; intros ts Hw Hin Ht; [by apply elem_of_nil in Hin|].
  assert (w <> t) as Hwt by congruence.
  pose proof (SH_wake c ts w u ws Hw) as Hstep.
  destruct (decide (u = t)) as [->|Hut].
  - eexists. split; [by eapply rtc_once|]. cbn. by rewrite lookup_alter_eq, lookup_insert_ne, Ht by done.
  - edestruct (IH (alter wake u (<[w := Waking ws]> ts))) as (s' & Hs & Hr).
    + rewrite lookup_alter. destruct (decide (u = w)) as [->|]; by rewrite lookup_insert_eq.
    + set_solver.
    + by rewrite lookup_alter_ne, lookup_insert_ne by done.
    + exists s'. split; [by eapply rtc_l|done].
Qed.

(** the shared reader.  Whatever tasks poll copies of one body and however their
    takes, put-backs and wakes interleave, the reader is always in exactly one place,
    the cell or the hands of one task, and no task waits for nothing: from every
    reachable state in which one waits there are steps, none of them its own, after
    which it runs again; so when nobody holds the reader or is waking others, nobody
    waits. *)
Theorem reader_never_lost reader (s : Sharing B) :
  rtc share_step {| sh_cell := reader_new reader; sh_tasks := ∅ |} s ->
  ((is_Some (rc_reader (sh_cell s)) /\ forall t, ~ holds s t) \/
   (rc_reader (sh_cell s) = None /\ exists t, holds s t /\ forall t', holds s t' -> t' = t)) /\
  (forall t, sh_tasks s !! t = Some Parked ->
     ((exists u, holds s u) \/ will_wake s t) /\
     exists s', rtc share_step s s' /\ sh_tasks s' !! t = Some Runnable).
Proof.
  intros Hr. assert (share_inv s) as HI.
  { pose proof (share_inv_new reader) as H0. induction Hr; eauto using share_inv_step. }
  split; [apply HI|]. intros t Ht. destruct s as [c ts]. cbn in Ht.
  destruct (si_parked _ HI t Ht) as [Hw|Hw]; cbn in Hw.
  - assert (rc_reader c = None) as Hc by (apply (si_waiters _ HI); cbn; intros E; rewrite E in Hw; set_solver).
    destruct (si_one _ HI) as [[[r Hs] _]|[_ (u & [ru Hu] & _)]]; cbn in *; [congruence|].
    split; [left; by exists u, ru|].
    destruct (waking_reaches {| rc_reader := Some ru; rc_waiters := [] |}
                (<[u := Waking (rc_waiters c)]> ts) u (rc_waiters c) t) as (s' & Hs & Hrun).
    + by rewrite lookup_insert_eq.
    + done.
    + rewrite lookup_insert_ne; [done|]. congruence.
    + exists s'. split; [|done]. eapply rtc_l; [|exact Hs]. by eapply (SH_put _ _ _ _ ru ru).
  - split; [by right|]. destruct Hw as (w & ws & Hw & Hin). by eapply waking_reaches.
Qed.
End Sharing.

Lemma reader_never_lost_witness :
  exists s, rtc share_step {| sh_cell := reader_new tt; sh_tasks := ∅ |} s /\
    exists s', rtc share_step s s' /\ sh_tasks s' !! 1%nat = Some Runnable.
Proof.
  set (s := {| sh_cell := {| rc_reader := None; rc_waiters := [1%nat] |};
               sh_tasks := <[1%nat := Parked]> (<[0%nat := Holding tt]>
                             (<[1%nat := Runnable]> (<[0%nat := Runnable]> ∅))) |}).
  assert (rtc share_step {| sh_cell := reader_new tt; sh_tasks := ∅ |} s) as Hs.
  { eapply rtc_l; [apply (SH_lend _ _ 0%nat); reflexivity|].
    eapply rtc_l; [apply (SH_lend _ _ 1%nat); reflexivity|].
    eapply rtc_l; [eapply (SH_take _ _ _ 0%nat); reflexivity|].
    eapply rtc_l; [eapply (SH_miss _ _ _ 1%nat); reflexivity|]. apply rtc_refl. }
  exists s. split; [exact Hs|]. destruct (reader_never_lost tt s Hs) as [_ A].
  destruct (A 1%nat) as [_ Hr]; [reflexivity|]. exact Hr.
Defined.

(** ** What the attempts read is what the client sent, once *)

(** The bytes of a stream, up to its end. *)
Fixpoint body_data (frames : Timed) : bytes :=
  match frames with
  | (_, FData data) :: frames => data ++ body_data frames
  | (_, FTrailers) :: frames => body_data frames
  | _ => []
  end.

(** A body on the client's stream, the copies lent of it, the bytes handed to the
    backends so far, and whether a poll has failed. *)
Record Upload := {
  u_shared : Shared; u_copies : gmap nat LentBody; u_budget : ByteBudget;
  u_delivered : bytes; u_failed : bool }.

(** A copy is lent under a name no other copy has. *)
Inductive UploadOp := OpLend (t : nat) | OpPoll (t : nat) (now : Z) | OpDrop (t : nat).

Definition upload_new (frames : Timed) (deadline : Z) (b : ByteBudget) : Upload :=
  {| u_shared := incoming_new frames deadline; u_copies := ∅; u_budget := b;
     u_delivered := []; u_failed := false |}.

Definition upload_step (u : Upload) (op : UploadOp) : Upload :=
  match op with
  | OpLend t =>
      match u_copies u !! t with
      | Some _ => u
      | None =>
          {| u_shared := u_shared u; u_copies := <[t := lend t]> (u_copies u); u_budget := u_budget u;
             u_delivered := u_delivered u; u_failed := u_failed u |}
      end
  | OpDrop t =>
      {| u_shared := u_shared u; u_copies := delete t (u_copies u);
         u_budget := give_back (default 0 (lb_reservation <$> u_copies u !! t)) (u_budget u);
         u_delivered := u_delivered u; u_failed := u_failed u |}
  | OpPoll t now =>
      match u_copies u !! t with
      | None => u
      | Some lent =>
          let o := lent_poll_frame now (u_shared u) lent (u_budget u) in
          {| u_shared := po_shared o; u_copies := <[t := po_lent o]> (u_copies u); u_budget := po_budget o;
             u_delivered := u_delivered u ++ match po_polled o with ReadyFrame (FData data) => data | _ => [] end;
             u_failed := u_failed u || match po_polled o with ReadyErr => true | _ => false end |}
      end
  end.

Record upload_inv (frames : Timed) (u : Upload) : Prop := {
  ui_reader : exists rest, sb_cell (u_shared u) = reader_new rest /\
    (u_failed u = false -> u_delivered u ++ body_data rest = body_data frames) /\
    (may_retry (u_shared u) = true -> u_delivered u = [] /\ body_data rest = body_data frames) /\
    (has_been_sent (u_shared u) = true -> body_data rest = []);
}.

Lemma upload_inv_step frames u op : upload_inv frames u -> upload_inv frames (upload_step u op).
Proof.
  intros [(rest & Hc & Hf & Hr & Hs)]. destruct u as [[cell st dl] cs b dv fl]. unfold may_retry, has_been_sent in *.
  cbn in *. subst cell. destruct op as [t|t now|t]; cbn [upload_step u_copies];
    [destruct (cs !! t); by constructor; exists rest| |by constructor; exists rest]. destruct (cs !! t) as [lent|]; [|by constructor; exists rest].
  constructor. cbn [u_shared u_budget u_delivered u_failed]. unfold lent_poll_frame. cbn [sb_deadline sb_cell sb_state].
  destruct (dl <=? now); cbn.
  { exists rest. rewrite orb_true_r, app_nil_r. done. }
  destruct rest as [|[at_ f] rest]; cbn.
  { exists []. cbn in *. rewrite orb_false_r, !app_nil_r in *. done. }
  destruct (now <? at_); cbn.
  { exists ((at_, f) :: rest). rewrite orb_false_r, app_nil_r. done. }
  destruct f as [data| | |]; cbn.
  - destruct (grow b (lb_reservation lent) (len data)) as [[b' r']|]; cbn; exists rest; (split; [done|]).
    + split; [rewrite orb_false_r, <- app_assoc; exact Hf|]. split; [done|].
      intros Hsent. apply Hs in Hsent. cbn in Hsent. by apply app_eq_nil in Hsent as [_ ?].
    + split; [by rewrite orb_true_r|]. split; [done|].
      intros Hsent. apply Hs in Hsent. cbn in Hsent. by apply app_eq_nil in Hsent as [_ ?].
  - exists rest. rewrite orb_false_r, app_nil_r. done.
  - exists ((at_, FFailed) :: rest). cbn in *. rewrite orb_true_r, !app_nil_r in *. done.
  - exists ((at_, FEnd) :: rest). cbn in *. rewrite orb_false_r, !app_nil_r in *. done.
Qed.

(** a body left on the client's stream.  Whatever copies are lent, polled and
    dropped, in whatever order and at whatever times: as long as no poll has failed
    the bytes handed to the backends followed by those still on the stream are the
    client's, in order, none twice; a body that may be retried has had none of its
    bytes handed out, so the next attempt sends all of it; and a body marked sent,
    with no failure, was handed out whole. *)
Theorem streamed_body_intact frames deadline b ops :
  let u := foldl upload_step (upload_new frames deadline b) ops in
  exists rest, rc_reader (sb_cell (u_shared u)) = Some rest /\
    (u_failed u = false -> u_delivered u ++ body_data rest = body_data frames) /\
    (may_retry (u_shared u) = true -> u_delivered u = [] /\ body_data rest = body_data frames) /\
    (has_been_sent (u_shared u) = true -> u_failed u = false -> u_delivered u = body_data frames).
Proof.
  assert (upload_inv frames (foldl upload_step (upload_new frames deadline b) ops)) as [(rest & Hc & Hf & Hr & Hs)].
  { assert (upload_inv frames (upload_new frames deadline b)) as H0 by (constructor; by exists frames).
    revert H0. generalize (upload_new frames deadline b). induction ops as [|op ops IH]; intros u Hu; [done|].
    apply IH. by apply upload_inv_step. }
  exists rest. rewrite Hc. split_and!; try done. intros Hsent Hnf. specialize (Hf Hnf).
  rewrite (Hs Hsent), app_nil_r in Hf. exact Hf.
Qed.

(** ** What the copies of a body hold of the budget *)

(** The reservations of the copies that have not been dropped. *)
Definition copy_reservations (u : Upload) : list Z := lb_reservation <$> (map_to_list (u_copies u)).*2.

Lemma zsum_perm l k : l ≡ₚ k -> zsum l = zsum k.
Proof. induction 1; rewrite ?zsum_cons; lia. Qed.

Lemma reservations_insert t lent (copies : gmap nat LentBody) :
  lb_reservation <$> (map_to_list (<[t := lent]> copies)).*2 ≡ₚ
  lb_reservation lent :: (lb_reservation <$> (map_to_list (delete t copies)).*2).
Proof. rewrite <- insert_delete_eq, map_to_list_insert by apply lookup_delete_eq. done. Qed.

Lemma reservations_delete t lent (copies : gmap nat LentBody) : copies !! t = Some lent ->
  lb_reservation <$> (map_to_list copies).*2 ≡ₚ lb_reservation lent :: (lb_reservation <$> (map_to_list (delete t copies)).*2).
Proof. intros H. by rewrite <- (map_to_list_delete copies t lent H). Qed.

(** Given back one after another, they leave what was held before them. *)
Lemma give_back_all l : forall b b',
  Forall (fun n => 0 <= n) l -> 0 <= b_held b -> charged b b' (zsum l) -> foldr give_back b' l = b.
Proof.
  induction l as [|n l IH]; intros b b' Hl H0 Hc; cbn [foldr].
  { destruct Hc as (Hm & Hh & _). destruct b, b'. cbn in *. subst. f_equal. lia. }
  apply Forall_cons in Hl as [Hn Hl]. rewrite zsum_cons in Hc. destruct Hc as (Hm & Hh & Hle).
  pose proof (zsum_nonneg l Hl) as Hz.
  rewrite (IH {| b_held := b_held b + n; b_max := b_max b |} b'); [|done|cbn; lia|unfold charged; cbn; lia].
  apply give_back_charged; [done|done|]. unfold charged. cbn. lia.
Qed.

Record upload_charges (frames : Timed) (b : ByteBudget) (u : Upload) : Prop := {
  uc_charged : charged b (u_budget u) (zsum (copy_reservations u));
  uc_nonneg : Forall (fun n => 0 <= n) (copy_reservations u);
  uc_delivered : zsum (copy_reservations u) <= len (u_delivered u);
  uc_left : exists rest, sb_cell (u_shared u) = reader_new rest /\
    len (u_delivered u) + len (body_data rest) <= len (body_data frames);
}.

Lemma upload_charges_step frames b u op :
  0 <= b_held b -> b_max b < umax 64 -> upload_charges frames b u -> upload_charges frames b (upload_step u op).
Proof.
  intros H0 Hw [Hc Hn Hd (rest & Hcell & Hlen)]. destruct u as [[cell st dl] cs bu dv fl]. unfold copy_reservations in *. cbn in *. subst cell.
  destruct op as [t|t now|t]; cbn [upload_step u_copies]; (destruct (cs !! t) as [lent|] eqn:El; [|try by constructor; eauto]).
  - by constructor; eauto.
  - assert (forall lent', lb_reservation lent' = 0 ->
      lb_reservation <$> (map_to_list (<[t := lent']> cs)).*2 ≡ₚ 0 :: (lb_reservation <$> (map_to_list cs).*2)) as Hp.
    { intros lent' Hz. rewrite reservations_insert, Hz, delete_id by done. done. }
    specialize (Hp (lend t) eq_refl). constructor; unfold copy_reservations; cbn [u_copies u_budget u_delivered u_shared].
    + rewrite (zsum_perm _ _ Hp), zsum_cons, Z.add_0_l. done.
    + rewrite Hp. by constructor.
    + rewrite (zsum_perm _ _ Hp), zsum_cons. lia.
    + eauto.
  - pose proof (reservations_delete t lent cs El) as Hp. rewrite Hp in Hn. apply Forall_cons in Hn as [Hn0 Hn].
    rewrite (zsum_perm _ _ Hp), zsum_cons in Hc, Hd.
    set (others := lb_reservation <$> (map_to_list (delete t cs)).*2) in *.
    (** Every poll leaves the others alone and grows this copy's reservation by what it hands on. *)
    assert (forall shared' lent' b' out fl', charged b b' (lb_reservation lent' + zsum others) -> 0 <= lb_reservation lent' ->
      lb_reservation lent' + zsum others <= len (dv ++ out) ->
      (exists rest', sb_cell shared' = reader_new rest' /\ len (dv ++ out) + len (body_data rest') <= len (body_data frames)) ->
      upload_charges frames b {| u_shared := shared'; u_copies := <[t := lent']> cs; u_budget := b'; u_delivered := dv ++ out; u_failed := fl' |}) as Hgo.
    { intros shared' lent' b' out fl' Hc' Hn' Hd' Hr'. pose proof (reservations_insert t lent' cs) as Hp'. fold others in Hp'.
      constructor; unfold copy_reservations; cbn [u_copies u_budget u_delivered u_shared].
      - rewrite (zsum_perm _ _ Hp'), zsum_cons. done.
      - rewrite Hp'. by constructor.
      - rewrite (zsum_perm _ _ Hp'), zsum_cons. done.
      - done. }
    assert (len (dv ++ []) = len dv) as Hnil by (by rewrite app_nil_r).
    unfold lent_poll_frame. cbn [u_shared u_budget u_delivered u_failed sb_deadline sb_cell sb_state].
    destruct (dl <=? now); cbn; [apply Hgo; rewrite ?Hnil; eauto|].
    destruct rest as [|[at_ f] rest]; cbn; [apply Hgo; rewrite ?Hnil; eauto|].
    destruct (now <? at_); cbn; [apply Hgo; rewrite ?Hnil; eauto|].
    destruct f as [data| | |]; cbn; [|apply Hgo; rewrite ?Hnil; cbn in *; eauto..].
    cbn in Hlen. rewrite len_app in Hlen. pose proof (len_nonneg data) as Hdn. pose proof (zsum_nonneg _ Hn) as Hzn.
    pose proof (grow_charged b bu (lb_reservation lent + zsum others) (len data) ltac:(lia) Hdn H0 Hw Hc) as Hg.
    unfold grow in *. destruct (try_reserve (len data) bu) as [b'|]; cbn.
    + destruct Hg as [_ Hg]. rewrite wrapping_small by (unfold is_uint, charged, umax in *; lia). apply Hgo; cbn; rewrite ?len_app; [|lia|lia|].
      * replace (lb_reservation lent + len data + zsum others) with (lb_reservation lent + zsum others + len data) by lia. done.
      * exists rest. split; [done|]. lia.
    + apply Hgo; rewrite ?Hnil; [done|done|done|]. exists rest. split; [done|lia].
  - pose proof (reservations_delete t lent cs El) as Hp. rewrite Hp in Hn. apply Forall_cons in Hn as [Hn0 Hn].
    rewrite (zsum_perm _ _ Hp), zsum_cons in Hc, Hd. pose proof (zsum_nonneg _ Hn) as Hz.
    constructor; unfold copy_reservations; cbn [u_copies u_budget u_delivered u_shared].
    + rewrite (give_back_charged {| b_held := b_held b + zsum (lb_reservation <$> (map_to_list (delete t cs)).*2); b_max := b_max b |});
        cbn; [|done|lia|unfold charged in *; cbn; lia]. unfold charged in *. cbn. lia.
    + done.
    + lia.
    + eauto.
  - rewrite delete_id by done. cbn. constructor; unfold copy_reservations; cbn; eauto.
Qed.

Lemma upload_charges_run frames deadline b ops :
  0 <= b_held b <= b_max b -> b_max b < umax 64 ->
  upload_charges frames b (foldl upload_step (upload_new frames deadline b) ops).
Proof.
  intros Hb Hw.
  assert (upload_charges frames b (upload_new frames deadline b)) as Hnew.
  { constructor; unfold copy_reservations; cbn; rewrite ?map_to_list_empty; cbn; [unfold charged; lia|constructor|done|].
    exists frames. split; [done|]. rewrite len_nil. lia. }
  revert Hnew. generalize (upload_new frames deadline b). induction ops as [|op ops IH]; intros u Hu; [done|].
  apply IH. apply upload_charges_step; [lia|done|done].
Qed.

(** ** The bytes an answer is reported with *)

(** Polls of an answer's body at these moments: the body after them, and the bytes
    that went out. *)
Fixpoint counted_run (body : CountedBody) (polls : list Z) : CountedBody * bytes :=
  match polls with
  | [] => (body, [])
  | now :: polls =>
      let '(body, polled) := counted_poll_frame now body in
      let '(body, sent) := counted_run body polls in
      (body, match polled with ReadyFrame (FData data) => data | _ => [] end ++ sent)
  end.

Lemma counted_run_spec polls : forall body,
  let '(body', sent) := counted_run body polls in
  cb_sent body' mod 2 ^ 64 = (cb_sent body + len sent) mod 2 ^ 64 /\
  sent ++ body_data (cb_frames body') = body_data (cb_frames body).
Proof.
  induction polls as [|now polls IH]; intros [frames n idle timer]; cbn [counted_run].
  { cbn. by rewrite len_nil, Z.add_0_r. }
  unfold counted_poll_frame. cbn [cb_timer cb_idle cb_frames cb_sent].
  assert (forall f' n' t' p out, out = match p with ReadyFrame (FData data) => data | _ => [] end ->
     n' mod 2 ^ 64 = (n + len out) mod 2 ^ 64 -> out ++ body_data f' = body_data frames ->
     let '(body', sent) := (let '(body', sent) := counted_run
        {| cb_frames := f'; cb_sent := n'; cb_idle := idle; cb_timer := t' |} polls in (body', out ++ sent)) in
     cb_sent body' mod 2 ^ 64 = (n + len sent) mod 2 ^ 64 /\
     sent ++ body_data (cb_frames body') = body_data frames) as Hnext.
  { intros f' n' t' p out _ Hn Hb. specialize (IH {| cb_frames := f'; cb_sent := n'; cb_idle := idle; cb_timer := t' |}).
    destruct (counted_run _ polls) as [body' sent]. destruct IH as [IHn IHb]. cbn in IHn, IHb. split.
    - rewrite IHn, len_app, Z.add_assoc, <- (Z.add_mod_idemp_l n'), Hn by done. by rewrite Z.add_mod_idemp_l by done.
    - by rewrite <- app_assoc, IHb. }
  assert (n mod 2 ^ 64 = (n + len (@nil Z)) mod 2 ^ 64) as Hn0 by by rewrite len_nil, Z.add_0_r.
  destruct (_ <=? now); [by apply (Hnext _ _ _ ReadyErr [])|].
  destruct frames as [|[at_ f] frames]; cbn [stream_poll]; [by apply (Hnext _ _ _ Pending [])|].
  destruct (now <? at_); [by apply (Hnext _ _ _ Pending [])|].
  destruct f as [data| | |].
  - apply (Hnext _ _ _ (ReadyFrame (FData data)) data); [done| |done]. unfold wrapping. by rewrite Z.mod_mod.
  - by apply (Hnext _ _ _ (ReadyFrame FTrailers) []).
  - by apply (Hnext _ _ _ ReadyErr []).
  - by apply (Hnext _ _ _ ReadyNone []).
Qed.
