(* ===== verification/HttpForward.v ===== *)
(** * Forwarding a request (nexapipe/src/http/: forward.rs, response.rs, server/forward.rs, server/request.rs)

    One request: the verdict, the body, the attempts at one backend after another,
    the answer.  An attempt is the closure [proxy_to_backend] polls, one function of
    what it sees at each poll; an execution is any sequence of polls.  Hyper's client
    and the backends are what the polls see. *)

From S2P Require Import Prelude RustStd Host AuthConfig Lb Limits Routes L4 Headers HttpBody.

(** ** What may be done about a failure (body.rs, response.rs) *)

Inductive Retryability := Always | IfIdempotent | Never.
#[export] Instance Retryability_eq_dec : EqDecision Retryability.
Proof. solve_decision. Defined.

Inductive Method := GET | HEAD | POST | PUT | DELETE | CONNECT | OPTIONS | TRACE | PATCH | Extension (name : bytes).

Definition is_idempotent (method : Method) : bool :=
  match method with GET | HEAD | PUT | DELETE | OPTIONS | TRACE => true | _ => false end.

(** [Retryability::may_retry]. *)
Definition retryable (retry : Retryability) (method : Method) : bool :=
  match retry with Always => true | IfIdempotent => is_idempotent method | Never => false end.

Inductive FailureReason := BadBackend | BodyLate | NotSent | NoAnswer | BodyGone.
Record ProxySummary := { ps_status : Z; ps_bytes_sent : Z }.
Record ProxyFailure := { pf_reason : FailureReason; pf_partial : option ProxySummary; pf_retry : Retryability }.

Definition backend_is_down (f : ProxyFailure) : bool :=
  is_none (pf_partial f) && negb (bool_decide (pf_retry f = Never)).
(** [From<anyhow::Error>]. *)
Definition proxy_failure_from (reason : FailureReason) : ProxyFailure :=
  {| pf_reason := reason; pf_partial := None; pf_retry := Never |}.
Definition unanswered (reason : FailureReason) (retry : Retryability) : ProxyFailure :=
  {| pf_reason := reason; pf_partial := None; pf_retry := retry |}.

(** ** The waits (deadline.rs, config/schema.rs) *)

(** Durations in nanoseconds. *)
Record Deadlines := {
  dl_header : Z; dl_body : Z; dl_response_idle : Z; dl_l4_flow : Z; dl_l4_idle : Z; dl_tls_hello : Z }.
Record TimeoutsConfig := {
  connect_secs : option Z; response_secs : option Z; header_secs : option Z; body_secs : option Z;
  response_idle_secs : option Z; l4_flow_secs : option Z; l4_idle_secs : option Z; tls_hello_secs : option Z }.
Record Timeouts := { to_connect : Z; to_response : Z; to_deadlines : Deadlines }.

Definition DEFAULT_HEADER_SECS : Z := 30.
Definition DEFAULT_BODY_SECS : Z := 300.
Definition DEFAULT_RESPONSE_IDLE_SECS : Z := 120.
Definition DEFAULT_L4_FLOW_SECS : Z := 3600.
Definition DEFAULT_L4_IDLE_SECS : Z := 60.
Definition DEFAULT_TLS_HELLO_SECS : Z := 10.
Definition DEFAULT_CONNECT_SECS : Z := 10.
Definition DEFAULT_RESPONSE_SECS : Z := 30.

Definition MAX_SECS : Z := 86400.

Definition secs_or (value : option Z) (default_ : Z) : Z := from_secs (default default_ value).
(** [or] of deadline.rs. *)
Definition deadline_or (value : option Z) (default_ : Z) : Z :=
  from_secs (Z.min (default default_ value) MAX_SECS).

Definition deadlines_resolve (c : TimeoutsConfig) : Deadlines := {|
  dl_header := deadline_or (header_secs c) DEFAULT_HEADER_SECS;
  dl_body := deadline_or (body_secs c) DEFAULT_BODY_SECS;
  dl_response_idle := deadline_or (response_idle_secs c) DEFAULT_RESPONSE_IDLE_SECS;
  dl_l4_flow := deadline_or (l4_flow_secs c) DEFAULT_L4_FLOW_SECS;
  dl_l4_idle := deadline_or (l4_idle_secs c) DEFAULT_L4_IDLE_SECS;
  dl_tls_hello := deadline_or (tls_hello_secs c) DEFAULT_TLS_HELLO_SECS |}.

Definition timeouts_resolve (c : TimeoutsConfig) : Timeouts := {|
  to_connect := secs_or (connect_secs c) DEFAULT_CONNECT_SECS;
  to_response := secs_or (response_secs c) DEFAULT_RESPONSE_SECS;
  to_deadlines := deadlines_resolve c |}.
Definition to_body (t : Timeouts) : Z := dl_body (to_deadlines t).

Record RetryConfig := { rc_attempts : option Z; rc_backoff_ms : option Z }.
Record Retry := { r_attempts : Z; r_backoff : Z }.
Definition MAX_ATTEMPTS : Z := 16.
Definition DEFAULT_BACKOFF_MS : Z := 100.
Definition MAX_BACKOFF_MS : Z := 60000.
Definition retry_resolve (c : RetryConfig) : Retry := {|
  r_attempts := Z.min (default 0 (rc_attempts c)) MAX_ATTEMPTS;
  r_backoff := Z.min (default DEFAULT_BACKOFF_MS (rc_backoff_ms c)) MAX_BACKOFF_MS * 1000000 |}.

(** ** One attempt (forward.rs) *)

(** What one poll of the attempt sees: the moment, the request's own future, and
    the flags of the body. *)
Record Poll (R : Type) := {
  p_now : Z;
  p_request : option (result R bool);  (** an error says whether it was a connect error *)
  p_timed_out : bool;
  p_sent : bool;
}.
Arguments p_now {R}. Arguments p_request {R}. Arguments p_timed_out {R}. Arguments p_sent {R}.
Arguments Build_Poll {R}.

(** The two timers, and whether the answer's runs from the end of the body. *)
Record Race := { ra_streaming : bool; ra_upload_at : Z; ra_answer_at : Z; ra_armed : bool }.

Definition race_new (t : Timeouts) (streaming : bool) (now : Z) : Race :=
  let body_deadline_at := now + to_body t in
  {| ra_streaming := streaming; ra_upload_at := body_deadline_at;
     ra_answer_at := if streaming then body_deadline_at + to_response t else now + to_response t;
     ra_armed := false |}.

(** The closure given to [poll_fn]; [None] is [Poll::Pending]. *)
Definition race_poll {R} (t : Timeouts) (race : Race) (p : Poll R) : Race * option (result R ProxyFailure) :=
  match p_request p with
  | Some (Ok response) => (race, Some (Ok response))
  | Some (Err is_connect) =>
      (race, Some (Err (if p_timed_out p then unanswered BodyLate IfIdempotent
                        else unanswered NotSent (if is_connect then Always else IfIdempotent))))
  | None =>
      let race :=
        if negb (ra_armed race) && p_sent p
        then {| ra_streaming := ra_streaming race; ra_upload_at := ra_upload_at race;
                ra_answer_at := p_now p + to_response t; ra_armed := true |}
        else race in
      if ra_streaming race && (ra_upload_at race <=? p_now p)
      then (race, Some (Err (unanswered BodyLate IfIdempotent)))
      else if ra_answer_at race <=? p_now p
      then (race, Some (Err (unanswered NoAnswer IfIdempotent)))
      else (race, None)
  end.

Fixpoint race_run {R} (t : Timeouts) (race : Race) (polls : list (Poll R)) : option (result R ProxyFailure) :=
  match polls with
  | [] => None
  | p :: polls => match race_poll t race p with
                  | (_, Some outcome) => Some outcome
                  | (race, None) => race_run t race polls
                  end
  end.

(** What surrounds one attempt: when it starts, whether the address it builds is a
    URI, the polls it gets, whether the body has been read once it is over, and the
    clock and the random number of the lookup that may follow. *)
Record Attempt (R : Type) := {
  at_start : Z; at_uri_ok : bool; at_polls : list (Poll R); at_may_resend : bool; at_now : Z; at_rand : Z }.
Arguments at_start {R}. Arguments at_uri_ok {R}. Arguments at_polls {R}. Arguments at_may_resend {R}.
Arguments at_now {R}. Arguments at_rand {R}.

(** [proxy_to_backend], as far as its failures go; [None] is an attempt that is
    still waiting after its last poll. *)
Definition proxy_to_backend {R} (t : Timeouts) (streaming : bool) (info : BackendInfo) (a : Attempt R)
    : option (result R ProxyFailure) :=
  match i_origin info with
  | Err _ => Some (Err (proxy_failure_from BadBackend))
  | Ok _ =>
      if negb (at_uri_ok a) then Some (Err (proxy_failure_from BadBackend))
      else race_run t (race_new t streaming (at_start a)) (at_polls a)
  end.

(** The headers of the answer: the request's id is the only one. *)
Definition answer_headers `{HeaderMap H} (request_id : bytes) (headers : H) : H :=
  hm_insert (lit "x-request-id") request_id (hm_remove (lit "x-request-id") (forwarded_response_headers headers)).

(** ** The attempts (server/forward.rs, and the loop of [proxy_request]) *)

(** [BackendInfo::report_success] and [report_failure]. *)
Definition report_success (info : BackendInfo) (pools : Pools) : Pools :=
  alter (Lb.record_success (lease_idx (i_lease info))) (lease_pool (i_lease info)) pools.
Definition report_failure (now : Z) (info : BackendInfo) (pools : Pools) : Pools :=
  alter (Lb.record_failure now (lease_idx (i_lease info))) (lease_pool (i_lease info)) pools.

(** How the loop ends: an answer with the lease that goes with its body, a failure,
    an attempt still waiting, a panic of a lookup, or a loop that ran out of fuel. *)
Inductive ForwardEnd (R : Type) :=
| Answered (response : R) (backend : BackendInfo)
| Failed (failure : ProxyFailure)
| Waiting (backend : BackendInfo)
| Panicked
| Spun.
Arguments Answered {R}. Arguments Failed {R}. Arguments Waiting {R}. Arguments Panicked {R}. Arguments Spun {R}.

Section Forward.
Context {R : Type}.
(** One attempt at one backend; [None] is one that is still waiting. *)
Variable ask : BackendInfo -> Attempt R -> option (result R ProxyFailure).
Variable url_parse : bytes -> result ParsedUrl bytes.
Variable retry : Retry.
Variable routes : list Route.
Variable acl : option ClientAcl.
Variable host : option (bytes * option Z).
Variable path : bytes.
Variable method : Method.

(** One line of the history: the backend asked, and the failure it gave. *)
Definition History := list (BackendInfo * ProxyFailure).

Definition lookup_backend (pools : Pools) (exclude : list bytes) (now rand : Z)
    : option (Pools * BackendLookup BackendInfo) :=
  match host with
  | Some (h, port) => get_backend_with_acl_excluding url_parse routes pools h path port acl exclude now rand
  | None => Some (pools, NoRoute)
  end.

Fixpoint forward_loop (fuel : nat) (world : list (Attempt R)) (attempt : Z) (tried : list bytes)
    (backend : BackendInfo) (pools : Pools) : Pools * ForwardEnd R * History :=
  match fuel, world with
  | O, _ => (pools, Spun, [])
  | _, [] => (pools, Waiting backend, [])
  | S fuel, a :: world =>
      match ask backend a with
      | None => (pools, Waiting backend, [])
      | Some (Ok response) => (report_success backend pools, Answered response backend, [])
      | Some (Err failure) =>
          let pools := if backend_is_down failure then report_failure (at_now a) backend pools else pools in
          if (r_attempts retry <=? attempt) || negb (retryable (pf_retry failure) method) then
            (drop_lease (i_lease backend) pools, Failed failure, [(backend, failure)])
          else if negb (at_may_resend a) then
            (drop_lease (i_lease backend) pools, Failed (proxy_failure_from BodyGone), [(backend, failure)])
          else
            let tried := tried ++ [i_url backend] in
            match lookup_backend pools tried (at_now a) (at_rand a) with
            | None => (pools, Panicked, [(backend, failure)])
            | Some (pools, Found info) =>
                (** The assignment drops the backend that failed. *)
                let pools := drop_lease (i_lease backend) pools in
                let '(pools, out, history) := forward_loop fuel world (attempt + 1) tried info pools in
                (pools, out, (backend, failure) :: history)
            | Some (pools, _) => (drop_lease (i_lease backend) pools, Failed failure, [(backend, failure)])
            end
      end
  end.

Definition attempts (world : list (Attempt R)) (backend : BackendInfo) (pools : Pools)
    : Pools * ForwardEnd R * History :=
  forward_loop (S (Z.to_nat (r_attempts retry))) world 0 [] backend pools.
End Forward.

Definition forward {R} (url_parse : bytes -> result ParsedUrl bytes) (t : Timeouts) (retry : Retry)
    (routes : list Route) (acl : option ClientAcl) (host : option (bytes * option Z)) (path : bytes)
    (method : Method) (streaming : bool) (world : list (Attempt R)) (backend : BackendInfo) (pools : Pools)
    : Pools * ForwardEnd R * History :=
  attempts (proxy_to_backend t streaming) url_parse retry routes acl host path method world backend pools.

(** ** One request (server/request.rs) *)

(** What the client is answered, or what its connection becomes. *)
Inductive HttpAnswer (R : Type) :=
| Refused (status : Z)
| Upgrade (backend : BackendInfo)
| Proxied (response : R) (backend : BackendInfo)
| InProgress (backend : BackendInfo).
Arguments Refused {R}. Arguments Upgrade {R}. Arguments Proxied {R}. Arguments InProgress {R}.

Definition is_upgrade `{HeaderMap H} (headers : H) : bool :=
  match get_str (lit "upgrade") headers with
  | Some v => eq_ignore_ascii_case v (lit "websocket")
  | None => false
  end.

Definition request_host `{HeaderMap H} (headers : H) : option (bytes * option Z) :=
  host_and_port <$> get_str (lit "host") headers.

(** The budget, and what the body holds of it: while [forward] runs, and once [handle_one] has
    returned.  [uploads] is what hyper did with the copies lent of a body left on the
    client's stream. *)
Definition body_running (uploads : list UploadOp) (body : RequestBody) (b : ByteBudget) : ByteBudget * list Z :=
  match body with
  | Whole _ reservation => (b, [reservation])
  | Streaming deadline frames =>
      let u := foldl upload_step (upload_new frames deadline b) uploads in
      (u_budget u, copy_reservations u)
  end.

Definition body_returned (uploads : list UploadOp) (body : RequestBody) (b : ByteBudget) : ByteBudget * list Z :=
  match body with
  | Whole _ reservation => (give_back reservation b, [])
  | Streaming _ _ => body_running uploads body b
  end.

(** [handle_one], up to the upgrade; [None] is a panic.  [uploads] is what happened by the
    time the request is looked at; what the attempts see of the body is part of [world].
    Beside the budget comes the list of the reservations the request still holds of it: that of a body read
    whole, which is a local of [handle_one] and lives until it returns, or those of the
    copies, which are hyper's and go when it drops them. *)
Definition handle_one {R} `{HeaderMap H} (url_parse : bytes -> result ParsedUrl bytes) (t : Timeouts)
    (retry : Retry) (routes : list Route) (acl : option ClientAcl) (headers : H) (path : bytes)
    (method : Method) (frames : Timed) (uploads : list UploadOp) (world : list (Attempt R)) (now rand : Z) (pools : Pools)
    (b : ByteBudget) : option (Pools * (ByteBudget * list Z) * HttpAnswer R) :=
  let host := request_host headers in
  if names_more_than_one_host headers then Some (pools, (b, []), Refused 400)
  else
    match lookup_backend url_parse routes acl host path pools [] now rand with
    | None => None
    | Some (pools, NoRoute) => Some (pools, (b, []), Refused 404)
    | Some (pools, Unavailable) => Some (pools, (b, []), Refused 503)
    | Some (pools, Found info) =>
        if is_upgrade headers then Some (pools, (b, []), Upgrade info)
        else
          match read_request_body headers frames (to_body t) now b with
          | (b, Err status) => Some (drop_lease (i_lease info) pools, (b, []), Refused status)
          | (b, Ok body) =>
              let streaming := match body with Streaming _ _ => true | Whole _ _ => false end in
              match forward url_parse t retry routes acl host path method streaming world info pools with
              | (pools, Answered response info, _) => Some (pools, body_returned uploads body b, Proxied response info)
              | (pools, Failed f, _) =>
                  Some (pools, body_returned uploads body b, Refused (match pf_partial f with Some p => ps_status p | None => 502 end))
              | (pools, Waiting info, _) => Some (pools, body_running uploads body b, InProgress info)
              | (_, Panicked, _) | (_, Spun, _) => None
              end
          end
    end.

(** ** Leases across attempts *)

(** One request more or less on the entry a lease holds. *)
Definition bump (l : Lease) (d : Z) (c : gmap nat (list Z)) : gmap nat (list Z) :=
  alter (alter (fun n => wrapping 64 (n + d)) (lease_idx l)) (lease_pool l) c.
Definition counts_ok (c : gmap nat (list Z)) : Prop :=
  forall k l n, c !! k = Some l -> n ∈ l -> is_uint 64 n.

Lemma lookup_bump l d c k :
  bump l d c !! k =
  if decide (lease_pool l = k) then alter (fun n => wrapping 64 (n + d)) (lease_idx l) <$> c !! k else c !! k.
Proof. unfold bump. rewrite lookup_alter. by destruct (decide (lease_pool l = k)) as [->|]. Qed.

Lemma bump_comm l d l' d' c : bump l d (bump l' d' c) = bump l' d' (bump l d c).
Proof.
  apply map_eq. intros k. rewrite !lookup_bump.
  destruct (decide (lease_pool l = k)), (decide (lease_pool l' = k)); try done.
  destruct (c !! k) as [ns|]; [|done]. cbn. f_equal.
  apply list_eq. intros i. rewrite !list_lookup_alter.
  destruct (decide (lease_idx l = i)) as [El|], (decide (lease_idx l' = i)) as [El'|]; subst; try done;
    rewrite ?El', ?decide_True, ?decide_False by done; try done.
  destruct (ns !! lease_idx l) as [n|]; [|done]. cbn. f_equal. unfold wrapping.
  rewrite !Zplus_mod_idemp_l. f_equal. lia.
Qed.

Lemma bump_undo l c : counts_ok c -> bump l (-1) (bump l 1 c) = c.
Proof.
  intros Hok. apply map_eq. intros k. rewrite !lookup_bump. destruct (decide _); [|done].
  destruct (c !! k) as [ns|] eqn:Ek; [|done]. cbn. f_equal.
  apply list_eq. intros i. rewrite !list_lookup_alter.
  destruct (decide (lease_idx l = i)) as [<-|]; [rewrite decide_True by done|done].
  destruct (ns !! lease_idx l) as [n|] eqn:Ei; [|done]. cbn. f_equal. unfold wrapping. rewrite Zplus_mod_idemp_l.
  assert (is_uint 64 n) as Hn by (eapply Hok; [exact Ek|by eapply list_elem_of_lookup_2]).
  unfold is_uint in Hn. rewrite Z.mod_small; lia.
Qed.

Lemma bump_ok l d c : counts_ok c -> counts_ok (bump l d c).
Proof.
  intros Hok k ns n. rewrite lookup_bump. destruct (decide _); [|by apply Hok].
  destruct (c !! k) as [ms|] eqn:Ek; [|done]. cbn. intros [= <-] Hn.
  apply list_elem_of_lookup in Hn as (i & Hi). rewrite list_lookup_alter in Hi.
  destruct (decide _); [|eapply Hok; [exact Ek|by eapply list_elem_of_lookup_2]].
  destruct (ms !! lease_idx l); [|done]. cbn in Hi. simplify_eq. by apply wrapping_range.
Qed.

Lemma counts_alter f k (pools : Pools) g :
  (forall p, be_in_flight <$> backends (f p) = g (be_in_flight <$> backends p)) ->
  counts (alter f k pools) = alter g k (counts pools).
Proof.
  intros Hf. unfold counts. apply map_eq. intros j. rewrite lookup_fmap.
  destruct (decide (k = j)) as [<-|Hj].
  - rewrite !lookup_alter_eq, lookup_fmap. destruct (pools !! k); [|done]. cbn. by rewrite Hf.
  - by rewrite !lookup_alter_ne, lookup_fmap by done.
Qed.

Lemma drop_lease_bump l (pools : Pools) : counts (drop_lease l pools) = bump l (-1) (counts pools).
Proof.
  unfold drop_lease, bump. apply counts_alter. intros p. cbn. apply fmap_alter_commute. done.
Qed.

Lemma counts_report f l (pools : Pools) :
  (forall e, be_in_flight (f e) = be_in_flight e) ->
  counts (alter (update_entry f (lease_idx l)) (lease_pool l) pools) = counts pools.
Proof.
  intros Hf. rewrite (counts_alter _ _ _ id).
  - apply map_eq. intros k. rewrite lookup_alter. destruct (decide _) as [->|]; [|done]. by destruct (counts pools !! k).
  - intros p. cbn. rewrite (fmap_alter_commute _ _ id) by done. apply list_eq. intros i. rewrite list_lookup_alter.
    destruct (decide _) as [->|]; [|done]. by destruct (_ !! i).
Qed.

Lemma circuit_failed_flight now e : be_in_flight (circuit_failed now e) = be_in_flight e.
Proof. unfold circuit_failed. by repeat case_match. Qed.

Lemma report_failure_counts now info pools : counts (report_failure now info pools) = counts pools.
Proof. apply counts_report, circuit_failed_flight. Qed.
Lemma report_success_counts info pools : counts (report_success info pools) = counts pools.
Proof. by apply counts_report. Qed.

(** [pools_ok] is a statement about the counts. *)
Lemma pools_ok_counts (pools : Pools) routes :
  pools_ok pools routes <->
  (forall r, r ∈ routes -> is_Some (counts pools !! r_pool r)) /\ counts_ok (counts pools).
Proof.
  unfold pools_ok, counts_ok, counts. setoid_rewrite lookup_fmap. setoid_rewrite fmap_is_Some.
  split; intros [A B]; (split; [exact A|]).
  - intros k l n Hk Hn. destruct (pools !! k) as [p|] eqn:Ep; [|done]. cbn in Hk. simplify_eq.
    apply list_elem_of_fmap in Hn as (e & -> & He). eauto.
  - intros k p e Hk He. eapply (B k); [by rewrite Hk|]. apply list_elem_of_fmap. eauto.
Qed.

(** ** An attempt ends *)

(** The timers of an attempt fire: it is polled once its body's deadline has passed,
    or, for a body already here, once the answer's has. *)
Definition timers_fire {R} (t : Timeouts) (streaming : bool) (a : Attempt R) : Prop :=
  exists p, p ∈ at_polls a /\
    if streaming then at_start a + to_body t <= p_now p
    else exists p0, head (at_polls a) = Some p0 /\ p_sent p0 = true /\ p_now p0 + to_response t <= p_now p.

Lemma race_ends_upload {R} t (polls : list (Poll R)) : forall race p,
  ra_streaming race = true -> p ∈ polls -> ra_upload_at race <= p_now p -> race_run t race polls <> None.
Proof.
  induction polls as [|q polls IH]; intros race p Hs Hin Hp; [by apply elem_of_nil in Hin|].
  cbn [race_run]. unfold race_poll. destruct (p_request q) as [[r|c]|]; [done|done|].
  set (race' := if negb (ra_armed race) && p_sent q then _ else race).
  assert (ra_streaming race' = true /\ ra_upload_at race' = ra_upload_at race) as [Hs' Hu].
  { unfold race'. by destruct (negb (ra_armed race) && p_sent q). }
  rewrite Hs'. cbn [andb]. destruct (Z.leb_spec (ra_upload_at race') (p_now q)); [done|].
  destruct (ra_answer_at race' <=? p_now q); [done|].
  apply elem_of_cons in Hin as [->|Hin]; [lia|]. eapply IH; eauto. lia.
Qed.

Lemma race_ends_answer {R} t (polls : list (Poll R)) : forall race p,
  ra_armed race = true -> p ∈ polls -> ra_answer_at race <= p_now p -> race_run t race polls <> None.
Proof.
  induction polls as [|q polls IH]; intros race p Ha Hin Hp; [by apply elem_of_nil in Hin|].
  cbn [race_run]. unfold race_poll. destruct (p_request q) as [[r|c]|]; [done|done|].
  rewrite Ha. cbn [negb andb]. destruct (ra_streaming race && _); [done|].
  destruct (Z.leb_spec (ra_answer_at race) (p_now q)); [done|].
  apply elem_of_cons in Hin as [->|Hin]; [lia|]. eauto.
Qed.

Lemma attempt_ends {R} t streaming info (a : Attempt R) :
  0 < to_response t -> timers_fire t streaming a -> proxy_to_backend t streaming info a <> None.
Proof.
  intros Ht (p & Hin & Hp). unfold proxy_to_backend. destruct (i_origin info); [|done].
  destruct (negb (at_uri_ok a)); [done|]. destruct streaming.
  { eapply race_ends_upload; [done|exact Hin|exact Hp]. }
  destruct Hp as (p0 & Hh & Hs & Hp). destruct (at_polls a) as [|q polls]; [done|]. cbn in Hh. simplify_eq.
  cbn [race_run]. unfold race_poll. destruct (p_request p0) as [[r|c]|]; [done|done|].
  cbn [race_new ra_armed ra_streaming negb andb ra_answer_at]. rewrite Hs. cbn [ra_streaming ra_answer_at andb].
  destruct (Z.leb_spec (p_now p0 + to_response t) (p_now p0)); [done|].
  apply elem_of_cons in Hin as [->|Hin]; [lia|].
  eapply race_ends_answer; [done|exact Hin|exact Hp].
Qed.

(** ** The attempts of a request *)

Section Attempts.
Context {R : Type}.
Variable ask : BackendInfo -> Attempt R -> option (result R ProxyFailure).
Variable fires : Attempt R -> Prop.
Hypothesis ask_ends : forall b a, fires a -> ask b a <> None.
Variable url_parse : bytes -> result ParsedUrl bytes.
Variable retry : Retry.
Variable routes : list Route.
Variable acl : option ClientAcl.
Variable h path : bytes.
Variable port : option Z.
Variable method : Method.

(** A backend this client's request may go to: of the best route's pool, behind a
    port the ACL allows. *)
Definition may_serve (b : BackendInfo) : Prop :=
  acl_admits acl h port /\ acl_admits_backend url_parse acl (i_url b) /\
  exists r e, http_route routes h path = Some r /\ lease_pool (i_lease b) = r_pool r /\ b = info_of r e (i_lease b).

(** The failures another attempt followed. *)
Definition retried (out : ForwardEnd R) (history : History) : History :=
  match out with Failed _ => take (length history - 1) history | _ => history end.
Definition asked (out : ForwardEnd R) (history : History) : Z :=
  len history + match out with Failed _ => 0 | _ => 1 end.

Lemma asked_nil out : asked out [] <= 1.
Proof. by destruct out. Qed.

(** What the attempts from here on may come to. *)
Definition forward_ok (base : gmap nat (list Z)) (world : list (Attempt R)) (left : Z)
    (result_ : Pools * ForwardEnd R * History) : Prop :=
  let '(pools', out, history) := result_ in
  match out with
  | Answered _ b | Waiting b => counts pools' = bump (i_lease b) 1 base /\ may_serve b
  | Failed _ => counts pools' = base
  | Panicked | Spun => False
  end /\
  asked out history <= left + 1 /\
  Forall (fun '(b, _) => may_serve b) history /\
  Forall (fun '(_, f) => retryable (pf_retry f) method = true) (retried out history) /\
  Forall (fun a => at_may_resend a = true) (take (length (retried out history)) world) /\
  (Forall fires world -> left < len world -> forall b, out <> Waiting b).

Lemma lookup_kept base (pools : Pools) b exclude now rand :
  counts_ok base -> (forall r, r ∈ routes -> is_Some (base !! r_pool r)) ->
  counts pools = bump (i_lease b) 1 base ->
  match lookup_backend url_parse routes acl (Some (h, port)) path pools exclude now rand with
  | None => False
  | Some (pools', Found b') =>
      counts (drop_lease (i_lease b) pools') = bump (i_lease b') 1 base /\ may_serve b'
  | Some (pools', _) => counts (drop_lease (i_lease b) pools') = base
  end.
Proof.
  intros Hok Hin Hc. cbn [lookup_backend].
  assert (pools_ok pools routes) as Hp.
  { apply pools_ok_counts. rewrite Hc. split; [|by apply bump_ok]. intros r Hr. rewrite lookup_bump.
    destruct (Hin r Hr) as [ns ->]. by destruct (decide _); eexists. }
  pose proof (http_lookup_cases url_parse routes pools h path port acl exclude now rand Hp) as Hl.
  destruct (get_backend_with_acl_excluding _ _ _ _ _ _ _ _ _ _) as [[pools' [| |b']]|]; [| | |exact Hl].
  - destruct Hl as [Hn _]. by rewrite drop_lease_bump, Hn, Hc, bump_undo.
  - destruct Hl as [-> _]. by rewrite drop_lease_bump, Hc, bump_undo.
  - destruct Hl as (Ha & Hb & _ & Hm & r & e & Hr & Hlp & He). change (counts pools' = bump (i_lease b') 1 (counts pools)) in Hm.
    rewrite drop_lease_bump, Hm, Hc, (bump_comm (i_lease b)), bump_undo by done. split; [done|].
    split; [done|]. split; [done|]. by exists r, e.
Qed.

Lemma forward_loop_ok base : counts_ok base -> (forall r, r ∈ routes -> is_Some (base !! r_pool r)) ->
  forall fuel world attempt tried b pools,
  counts pools = bump (i_lease b) 1 base -> may_serve b -> 0 <= attempt <= r_attempts retry ->
  r_attempts retry - attempt < Z.of_nat fuel ->
  forward_ok base world (r_attempts retry - attempt)
    (forward_loop ask url_parse retry routes acl (Some (h, port)) path method fuel world attempt tried b pools).
Proof.
  intros Hok Hin. induction fuel as [|fuel IH]; intros world attempt tried b pools Hc Hb Ha Hf; [lia|].
  destruct world as [|a world]; cbn [forward_loop].
  { split; [done|]. split; [pose proof (asked_nil (Waiting b)); lia|].
    repeat (split; [constructor|]).
    intros _ Hlen. rewrite len_nil in Hlen. lia. }
  destruct (ask b a) as [[response|failure]|] eqn:Ep; cycle 2.
  { split; [done|]. split; [pose proof (asked_nil (Waiting b)); lia|].
    repeat (split; [constructor|]).
    intros Hfire _ b' _. apply Forall_cons in Hfire as [Hfire _]. by apply ask_ends in Ep. }
  { split; [by rewrite report_success_counts|]. split; [pose proof (asked_nil (Answered response b)); lia|].
    repeat (split; [constructor|]). done. }
  set (pools1 := if backend_is_down failure then _ else pools).
  assert (counts pools1 = bump (i_lease b) 1 base) as Hc1.
  { unfold pools1. destruct (backend_is_down failure); [by rewrite report_failure_counts|done]. }
  assert (forall pools' f, counts pools' = base ->
    forward_ok base (a :: world) (r_attempts retry - attempt) (pools', Failed f, [(b, failure)])) as Hfail.
  { intros pools' f Hp. split; [done|]. split; [unfold asked; rewrite len_cons, len_nil; lia|].
    split; [constructor; [exact Hb|constructor]|]. split; [constructor|]. split; [constructor|done]. }
  assert (counts (drop_lease (i_lease b) pools1) = base) as Hdrop by by rewrite drop_lease_bump, Hc1, bump_undo.
  destruct ((r_attempts retry <=? attempt) || negb (retryable (pf_retry failure) method)) eqn:Er; [by apply Hfail|].
  apply orb_false_iff in Er as [Hmore%Z.leb_gt Hre%negb_false_iff].
  destruct (at_may_resend a) eqn:Es; cbn [negb]; [|by apply Hfail].
  pose proof (lookup_kept base pools1 b (tried ++ [i_url b]) (at_now a) (at_rand a) Hok Hin Hc1) as Hl.
  destruct (lookup_backend _ _ _ _ _ _ _ _ _) as [[pools2 [| |b']]|]; [by apply Hfail|by apply Hfail| |done].
  destruct Hl as [Hc2 Hb']. specialize (IH world (attempt + 1) (tried ++ [i_url b]) b' _ Hc2 Hb').
  destruct (forward_loop _ _ _ _ _ _ _ _ _ _ _ _ _ _) as [[pools3 out] history].
  destruct IH as (Hout & Hasked & Hserve & Hretry & Hresend & Hwait); [lia|lia|].
  assert (retried out ((b, failure) :: history) = (b, failure) :: retried out history \/
          (retried out ((b, failure) :: history) = [] /\ history = [])) as Hcase.
  { unfold retried. destruct out; try (by left). destruct history as [|x history]; [by right|left].
    cbn. by rewrite Nat.sub_0_r. }
  split; [done|]. split; [unfold asked in *; rewrite len_cons; lia|]. split; [by constructor|].
  split; [destruct Hcase as [->|[-> _]]; [by constructor|constructor]|].
  split; [destruct Hcase as [->|[-> _]]; [by cbn; constructor|constructor]|].
  intros Hfire Hlen. apply Forall_cons in Hfire as [_ Hfire]. rewrite len_cons in Hlen. apply Hwait; [done|lia].
Qed.

(** The whole loop. *)
Definition attempts_ok (base : gmap nat (list Z)) (world : list (Attempt R))
    (r : Pools * ForwardEnd R * History) : Prop :=
  forward_ok base world (r_attempts retry) r /\
  (is_idempotent method = false -> Forall (fun '(_, f) => pf_retry f = Always) (retried r.1.2 r.2)).

Lemma attempts_safe base world (b : BackendInfo) (pools : Pools) :
  counts_ok base -> (forall r, r ∈ routes -> is_Some (base !! r_pool r)) ->
  counts pools = bump (i_lease b) 1 base -> may_serve b -> 0 <= r_attempts retry ->
  attempts_ok base world (attempts ask url_parse retry routes acl (Some (h, port)) path method world b pools).
Proof.
  intros Hok Hin Hc Hb Ha.
  pose proof (forward_loop_ok base Hok Hin (S (Z.to_nat (r_attempts retry))) world 0 [] b pools Hc Hb) as H.
  unfold attempts. destruct (forward_loop _ _ _ _ _ _ _ _ _ _ _ _ _ _) as [[pools' out] history].
  rewrite Z.sub_0_r in H. assert (forward_ok base world (r_attempts retry) (pools', out, history)) as Hr
    by (apply H; lia).
  split; [done|]. intros Hi. destruct Hr as (_ & _ & _ & Hre & _). eapply Forall_impl; [exact Hre|].
  intros [b' f] Hf. destruct (pf_retry f); [done|cbn in Hf; congruence|done].
Qed.
End Attempts.

(** C11: retrying a request.  Whatever the backends do, a request is sent at most once
    more than the configuration allows retries, only to backends of its own route
    that its ACL allows, and another attempt follows a failure only where the
    failure and the method permit it and the body had not been read: a request that
    is not idempotent is sent again only after attempts that never carried it.  The
    loop ends once the timers of the attempts fire, no lookup panics, and exactly one
    request is outstanding while it runs and after it: on the backend that answered,
    or none after a failure. *)
Theorem forward_retries_safely {R} url_parse t retry routes acl h path port method streaming base
    (world : list (Attempt R)) (b : BackendInfo) (pools : Pools) :
  counts_ok base -> (forall r, r ∈ routes -> is_Some (base !! r_pool r)) ->
  counts pools = bump (i_lease b) 1 base -> may_serve url_parse routes acl h path port b ->
  0 <= r_attempts retry -> 0 < to_response t ->
  attempts_ok (timers_fire t streaming) url_parse retry routes acl h path port method base world
    (forward url_parse t retry routes acl (Some (h, port)) path method streaming world b pools).
Proof.
  intros Hok Hin Hc Hb Ha Ht. apply attempts_safe; try done. intros b' a. by apply attempt_ends.
Qed.

(** ** One request, end to end *)

Section Request.
Context {R : Type} `{HeaderMapLaws H}.
Variable url_parse : bytes -> result ParsedUrl bytes.
Variable t : Timeouts.
Variable retry : Retry.
Variable routes : list Route.
Variable acl : option ClientAcl.

(** The one host a request names. *)
Definition one_host (headers : H) (h : bytes) (port : option Z) : Prop :=
  exists v, get_all (lit "host") headers = [v] /\ get_str (lit "host") headers = Some v /\ host_and_port v = (h, port).

(** What a backend is told of it when the request is forwarded.  An upgrade has a head of
    its own ([build_upgrade_request] of [WebSocket]), which takes its host from [get_str] and
    has no other ([upgrade_told_host]). *)
Definition told_host (headers : H) : Prop :=
  forall cl, get_all (lit "host") (backend_request_headers headers cl) =
    if names (connection_named_of headers) (lit "host") then [] else get_all (lit "host") headers.

Lemma backend_told_host headers : told_host headers.
Proof.
  intros cl. rewrite backend_request_headers_get by done.
  assert (forwards_request_header (lit "host") (connection_named_of headers) =
          negb (names (connection_named_of headers) (lit "host"))) as -> by done.
  destruct cl; destruct (names _ _); done.
Qed.

Lemma request_host_one headers h port :
  names_more_than_one_host headers = false -> request_host headers = Some (h, port) -> one_host headers h port.
Proof.
  unfold names_more_than_one_host, request_host, one_host, get_str, header_get. intros Hm Hh.
  destruct (get_all (lit "host") headers) as [|v l] eqn:E; [done|]. cbn in Hh |- *.
  destruct (value_to_str v) as [s|] eqn:Es; [|done]. apply value_to_str_same in Es as Hs. subst s. cbn in Hh.
  assert (l = []) as ->.
  { destruct l as [|w l]; [done|]. rewrite !len_cons in Hm. pose proof (len_nonneg l).
    apply Z.ltb_ge in Hm. lia. }
  exists v. split; [done|]. split; [done|]. congruence.
Qed.

(** What of the budget a request holds.  The budget is what it was and the reservations
    listed, which given back restore it.  A body read whole is reserved to the byte while
    the request is in progress, and nothing is once it is answered.  Of a body left on the
    client's stream the copies that are alive are reserved, for no more than the client
    sent. *)
Record request_holds (headers : H) (frames : Timed) (uploads : list UploadOp) (now : Z) (b : ByteBudget)
    (answer : HttpAnswer R) (b' : ByteBudget) (held : list Z) : Prop := {
  rh_charged : charged b b' (zsum held);
  rh_given_back : foldr give_back b' held = b;
  rh_whole : declared_length headers = None ->
    match answer with
    | InProgress _ => exists bytes_, (read_request_body headers frames (to_body t) now b).2 = Ok (Whole bytes_ (len bytes_)) /\
                        held = [len bytes_]
    | _ => held = []
    end;
  rh_streamed length_ : declared_length headers = Some length_ ->
    match answer with
    | Proxied _ _ | InProgress _ =>
        held = copy_reservations (foldl upload_step (upload_new frames (now + to_body t) b) uploads)
    | Refused _ => held = [] \/ held = copy_reservations (foldl upload_step (upload_new frames (now + to_body t) b) uploads)
    | Upgrade _ => held = []
    end;
  rh_sent : is_Some (declared_length headers) -> zsum held <= len (body_data frames);
}.

Lemma holds_nothing headers frames uploads now b (answer : HttpAnswer R) :
  0 <= b_held b <= b_max b -> match answer with Refused _ | Upgrade _ => True | _ => False end ->
  request_holds headers frames uploads now b answer b [].
Proof.
  intros Hb Ha. split.
  - unfold charged. cbn. lia.
  - done.
  - intros _. by destruct answer.
  - intros n _. destruct answer; auto; done.
  - intros _. apply len_nonneg.
Qed.

Lemma body_refused headers frames d now b b' status :
  0 <= b_held b <= b_max b -> b_max b < umax 64 ->
  read_request_body (H:=H) headers frames d now b = (b', Err status) -> b' = b.
Proof.
  intros Hb Hw E. unfold read_request_body in E. destruct (declared_length headers) as [n|].
  { destruct (MAX_REQUEST_BODY <? n); by simplify_eq. }
  pose proof (read_body_limited_ok MAX_REQUEST_BODY d now frames b ltac:(done) Hb Hw) as Hr.
  destruct (read_body_limited _ _ _ _ _) as [b1 [[bs r]|e]]; [done|]. destruct Hr as [-> _]. by simplify_eq.
Qed.

(** A body read whole is charged to the byte, and giving it back restores the budget. *)
Lemma body_whole headers frames d now b b' bytes_ reservation :
  0 <= b_held b <= b_max b -> b_max b < umax 64 ->
  read_request_body (H:=H) headers frames d now b = (b', Ok (Whole bytes_ reservation)) ->
  declared_length headers = None /\ reservation = len bytes_ /\ charged b b' reservation /\ give_back reservation b' = b.
Proof.
  intros Hb Hw E. unfold read_request_body in E. destruct (declared_length headers) as [n|].
  { by destruct (MAX_REQUEST_BODY <? n). }
  pose proof (read_body_limited_ok MAX_REQUEST_BODY d now frames b ltac:(done) Hb Hw) as Hr.
  destruct (read_body_limited _ _ _ _ _) as [b1 [[bs r]|e]]; [|done]. simplify_eq.
  destruct Hr as (pre & at_ & post & _ & _ & _ & _ & _ & -> & Hc).
  split; [done|]. split; [done|]. split; [done|]. eapply give_back_charged; [apply len_nonneg|lia|exact Hc].
Qed.

Lemma body_streaming headers frames d now b b' deadline frames' :
  read_request_body (H:=H) headers frames d now b = (b', Ok (Streaming deadline frames')) ->
  is_Some (declared_length headers) /\ b' = b /\ deadline = now + d /\ frames' = frames.
Proof.
  intros E. unfold read_request_body in E. destruct (declared_length headers) as [n|].
  { destruct (MAX_REQUEST_BODY <? n); simplify_eq. eauto. }
  by destruct (read_body_limited _ _ _ _ _) as [? [[? ?]|?]].
Qed.

(** The two shapes, while the request runs and once it is answered. *)
Lemma body_holds headers frames uploads now b b1 body :
  0 <= b_held b <= b_max b -> b_max b < umax 64 ->
  read_request_body (H:=H) headers frames (to_body t) now b = (b1, Ok body) ->
  let running := body_running uploads body b1 in
  let returned := body_returned uploads body b1 in
  (forall info, request_holds headers frames uploads now b (InProgress info) running.1 running.2) /\
  (forall response info, request_holds headers frames uploads now b (Proxied response info) returned.1 returned.2) /\
  (forall status, request_holds headers frames uploads now b (Refused status) returned.1 returned.2).
Proof.
  intros Hb Hw E. destruct body as [bytes_ reservation|deadline frames'].
  - pose proof (body_whole _ _ _ _ _ _ _ _ Hb Hw E) as (Hd & Hr & Hc & Hg). cbn [body_running body_returned fst snd]. rewrite Hg. split; [|split].
    + intros info. split.
      * cbn. by rewrite Z.add_0_r.
      * done.
      * intros _. exists bytes_. subst reservation. by rewrite E.
      * intros n Hn. congruence.
      * intros [n Hn]. congruence.
    + intros response info. split; [unfold charged; cbn; lia|done|done|congruence|intros [n Hn]; congruence].
    + intros status. by apply holds_nothing.
  - pose proof (body_streaming _ _ _ _ _ _ _ _ E) as ([n Hn] & -> & -> & ->). cbn [body_running body_returned fst snd].
    pose proof (upload_charges_run frames (now + to_body t) b uploads Hb Hw) as [Hc Hnn Hd (rest & _ & Hl)].
    pose proof (len_nonneg (body_data rest)) as Hrn.
    split; [|split]; intros; (split; [done|apply give_back_all; [done|lia|done]|congruence|auto|lia]).
Qed.

End Request.

(** A request to the sample table: one backend does not take the connection, the
    other answers. *)
Definition sample_timeouts : Timeouts :=
  timeouts_resolve {| connect_secs := None; response_secs := Some 600; header_secs := None; body_secs := None;
    response_idle_secs := None; l4_flow_secs := None; l4_idle_secs := None; tls_hello_secs := None |}.
Definition sample_retry : Retry := retry_resolve {| rc_attempts := Some 2; rc_backoff_ms := None |}.
Definition poll_at (now : Z) (request : option (result Z bool)) : Poll Z :=
  {| p_now := now; p_request := request; p_timed_out := false; p_sent := true |}.
Definition attempt_of (polls : list (Poll Z)) : Attempt Z :=
  {| at_start := 0; at_uri_ok := true; at_polls := polls; at_may_resend := true; at_now := 1; at_rand := 0 |}.
Definition sample_world : list (Attempt Z) :=
  [attempt_of [poll_at 0 None; poll_at 1 (Some (Err true))]; attempt_of [poll_at 2 (Some (Ok 200))]].
Definition sample_info : BackendInfo :=
  info_of sample_route (sample_entry (lit "a") true) {| lease_pool := 0; lease_idx := 0 |}.
Definition sample_leased : Pools := {[ 0%nat := fst (lease 0 sample_pool) ]}.

Lemma forward_retries_safely_witness :
  let '(_, out, history) :=
    forward (fun _ => Err []) sample_timeouts sample_retry [sample_route] None (Some (lit "a.example.com", None))
      (lit "/api/x") POST false sample_world sample_info sample_leased in
  Forall (fun '(_, f) => pf_retry f = Always) (retried out history) /\
  exists b, out = Answered 200 b /\ i_url b = lit "c".
Proof.
  assert (counts_ok (counts sample_pools) /\
          forall r, r ∈ [sample_route] -> is_Some (counts sample_pools !! r_pool r)) as [Hok Hin].
  { destruct (proj1 (pools_ok_counts sample_pools [sample_route]) sample_pools_ok). done. }
  pose proof (forward_retries_safely (fun _ => Err []) sample_timeouts sample_retry [sample_route] None
    (lit "a.example.com") (lit "/api/x") None POST false (counts sample_pools) sample_world sample_info sample_leased
    Hok Hin eq_refl) as A.
  assert (may_serve (fun _ => Err []) [sample_route] None (lit "a.example.com") (lit "/api/x") None sample_info) as Hs.
  { split; [intros a; discriminate|]. split; [intros a p; discriminate|].
    exists sample_route, (sample_entry (lit "a") true). split_and!; reflexivity. }
  specialize (A Hs ltac:(discriminate) eq_refl).
  destruct (forward _ _ _ _ _ _ _ _ _ _ _ _) as [[pools' out] history] eqn:E.
  destruct A as [_ A]. split; [apply A; reflexivity|].
  apply (f_equal (fun x => x.1.2)) in E. cbn [fst snd] in E. rewrite <- E. eexists. split; reflexivity.
Defined.

(** A body that declares its length, of which one copy has read two bytes. *)
Definition sample_upload : Timed := [(0, FData [104; 105]); (5, FData [33]); (5, FEnd)].
Definition sample_headers : list (bytes * bytes) := [(lit "host", lit "a.example.com"); (lit "content-length", lit "3")].


(** The same request with a body of unknown length holds it while the backends are asked. *)
Example whole_body_held :
  let ask world := (fun x : Pools * (ByteBudget * list Z) * HttpAnswer Z => x.1.2) <$>
    handle_one (fun _ => Err []) sample_timeouts sample_retry [sample_route] None
      [(lit "host", lit "a.example.com")] (lit "/api/x") GET sample_upload [] world 0 0 sample_pools (budget_new 100) in
  ask [] = Some ({| b_held := 3; b_max := 100 |}, [3]) /\ ask sample_world = Some (budget_new 100, []).
Proof. vm_compute. done. Qed.

(** ** The upload's deadline, once the upload is over *)

(** A body that was sent in full still has its deadline polled: a backend that has
    the body and is within its own deadline is cut off, and the failure counts
    against it. *)
Lemma sent_body_fails_at_upload_deadline {R} t race (p : Poll R) :
  ra_streaming race = true -> p_request p = None -> p_sent p = true -> ra_upload_at race <= p_now p ->
  snd (race_poll t race p) = Some (Err (unanswered BodyLate IfIdempotent)) /\
  backend_is_down (unanswered BodyLate IfIdempotent) = true.
Proof.
  intros Hs Hq Hsent Hu. unfold race_poll. rewrite Hq, Hsent. destruct (ra_armed race); cbn; rewrite Hs; cbn;
    (destruct (Z.leb_spec (ra_upload_at race) (p_now p)); [done|lia]).
Qed.

(** The same over a whole attempt: the body is sent within a second, the answer's
    ten minutes are not over, and the attempt fails after five. *)
Lemma slow_answer_blamed_on_upload :
  proxy_to_backend sample_timeouts true sample_info (attempt_of [poll_at (from_secs 1) None; poll_at (from_secs 300) None])
  = Some (Err (unanswered BodyLate IfIdempotent)).
Proof. reflexivity. Qed.
