(* ===== verification/RouteConfig.v ===== *)
(** * Routes as the configuration writes them (nexapipe/src/config/{validate,routes}.rs,
      and [RouteSpec] and [get_backend_protocol] of nexapipe/src/config/schema.rs)

    A configuration is refused or becomes the routes of the table, with a fresh pool each.
    Errors are represented by their reason; the URL parser is a parameter, with the path
    of a URL beside what [Lb] reads of one.

    The file shows that a configuration which starts is one that runs: the backends of
    an accepted route are addresses its modes can dial, the same ones its health probe
    dials (with the exceptions [l4_shape] spells out), its pool is in the store, and its limits are in range. *)

From S2P Require Import Prelude RustStd Host Lb Routes Health L4 Streams HttpForward.

#[global] Instance BackendProtocol_eq_dec : EqDecision BackendProtocol.
Proof. solve_decision. Defined.

Inductive ConfigError :=
| CE_health | CE_timeouts | CE_default_backend | CE_strategy | CE_mode | CE_pattern (e : PatternError) | CE_no_backends
| CE_ports | CE_idle | CE_flow | CE_ceiling | CE_backend | CE_protocol | CE_h2c | CE_totp.

(** ** Keys (validate.rs, schema.rs) *)

Definition get_strategy (s : option bytes) : result LoadBalancingStrategy ConfigError :=
  match s with
  | None => Ok RoundRobin
  | Some s =>
      if bool_decide (s ∈ [lit "random"; lit "Random"]) then Ok Random
      else if bool_decide (s ∈ [lit "round_robin"; lit "RoundRobin"; lit "roundrobin"]) then Ok RoundRobin
      else if bool_decide (s ∈ [lit "least_conn"; lit "LeastConn"; lit "leastconn"]) then Ok LeastConn
      else Err CE_strategy
  end.

Definition parse_route_mode (mode : bytes) : result RouteMode ConfigError :=
  if bool_decide (mode ∈ [lit "http"; lit "Http"; lit "HTTP"]) then Ok ModeHttp
  else if bool_decide (mode ∈ [lit "passthrough"; lit "Passthrough"]) then Ok ModePassthrough
  else if bool_decide (mode ∈ [lit "tcp"; lit "Tcp"; lit "TCP"]) then Ok ModeTcp
  else if bool_decide (mode ∈ [lit "udp"; lit "Udp"; lit "UDP"]) then Ok ModeUdp
  else Err CE_mode.

Definition push_mode (resolved : list RouteMode) (mode : RouteMode) : list RouteMode :=
  if bool_decide (mode ∈ resolved) then resolved else resolved ++ [mode].

Fixpoint push_modes (names : list bytes) (resolved : list RouteMode) : result (list RouteMode) ConfigError :=
  match names with
  | [] => Ok resolved
  | name :: names => let? mode := parse_route_mode name in push_modes names (push_mode resolved mode)
  end.

Definition get_route_modes (mode : option bytes) (modes : option (list bytes)) : result (list RouteMode) ConfigError :=
  let? resolved := match mode with
                   | Some single => let? mode := parse_route_mode single in Ok (push_mode [] mode)
                   | None => Ok []
                   end in
  let? resolved := push_modes (default [] modes) resolved in
  Ok (if bool_decide (resolved = []) then [ModeHttp] else resolved).

Definition get_backend_protocol (value : option bytes) : result BackendProtocol ConfigError :=
  match trim <$> value with
  | None => Ok Http1
  | Some s => if bool_decide (s ∈ [[]; lit "http1"]) then Ok Http1 else if bool_decide (s = lit "h2c") then Ok H2c else Err CE_protocol
  end.

Definition DIAL_MAX_SECS : Z := 3600.

(** One wait of [timeouts]: absent, or a whole number of seconds in range. *)
Fixpoint validate_waits (ceiling : Z) (waits : list (option Z)) : result unit ConfigError :=
  match waits with
  | [] => Ok tt
  | None :: waits => validate_waits ceiling waits
  | Some secs :: waits =>
      if secs =? 0 then Err CE_timeouts
      else if ceiling <? secs then Err CE_timeouts
      else validate_waits ceiling waits
  end.

Definition validate_timeouts (t : TimeoutsConfig) : result unit ConfigError :=
  let? _ := validate_waits DIAL_MAX_SECS [connect_secs t; response_secs t] in
  validate_waits MAX_SECS [header_secs t; body_secs t; response_idle_secs t; l4_flow_secs t; l4_idle_secs t; tls_hello_secs t].

Definition validate_health_check (h : HealthCheckConfig) : result unit ConfigError :=
  if hcc_interval h =? 0 then Err CE_health
  else if hcc_timeout h =? 0 then Err CE_health
  else if hcc_threshold h =? 0 then Err CE_health
  else Ok tt.

Definition validate_totp_parameters (time_step digits window : Z) : result unit ConfigError :=
  if time_step =? 0 then Err CE_totp
  else if negb ((6 <=? digits) && (digits <=? 8)) then Err CE_totp
  else if umax 8 <? window then Err CE_totp
  else Ok tt.

(** The window reaches the TOTP library as a [u8], whole. *)
Lemma accepted_window_fits time_step digits window :
  0 <= window -> validate_totp_parameters time_step digits window = Ok tt -> wrapping 8 window = window.
Proof.
  intros H0. unfold validate_totp_parameters. destruct (_ =? 0); [done|]. destruct (negb _); [done|]. destruct (umax 8 <? window) eqn:E; [done|].
  intros _. apply Z.ltb_ge in E. apply wrapping_small. unfold umax in E. split; [done|]. lia.
Qed.

Record RouteSpec := {
  rs_host_pattern : bytes;
  rs_path_pattern : bytes;
  rs_path_is_prefix : option bool;
  rs_strategy : option bytes;
  rs_backends : list bytes;
  rs_backend_protocol : option bytes;
  rs_mode : option bytes;
  rs_modes : option (list bytes);
  rs_path_rewrite : option bytes;
  rs_client_ports : option (list Z);
  rs_idle_timeout_secs : option Z;
  rs_flow_timeout_secs : option Z;
}.

(** What [build_routes] reads of the file. *)
Record ProxyConfig := {
  pc_default_backend : bool;
  pc_routes : option (list RouteSpec);
  pc_health_check : HealthCheckConfig;
  pc_timeouts : TimeoutsConfig;
  pc_circuit_breaker : CircuitBreakerConfig;
}.

Section Config.
Variable url_parse : bytes -> result ParsedUrl bytes.
Variable url_path : bytes -> bytes.

(** ** Backends *)

Definition validate_l4_backend (backend : bytes) : result unit ConfigError :=
  let trimmed := trim backend in
  if bool_decide (trimmed = []) then Err CE_backend
  else
    let? port :=
      if contains_str (lit "://") trimmed then
        match url_parse trimmed with
        | Err _ => Err CE_backend
        | Ok url =>
            if bool_decide (default [] (u_host url) = []) then Err CE_backend
            else if negb (bool_decide (url_path trimmed ∈ [[]; lit "/"])) then Err CE_backend
            else Ok (u_port url)
        end
      else
        Ok (match rsplit_once COLON trimmed with
            | Some (host, port) =>
                if negb (bool_decide (host = []))
                then match parse_u16 port with Some port => if negb (port =? 0) then Some port else None | None => None end
                else None
            | None => None
            end) in
    match port with Some _ => Ok tt | None => Err CE_backend end.

Definition validate_backend (mode : RouteMode) (backend : bytes) : result unit ConfigError :=
  if bool_decide (mode = ModePassthrough) then
    match parse_backend_addr url_parse backend (SchemeOrBare 443) with
    | Some (host, port) => if negb (bool_decide (host = [])) && negb (port =? 0) then Ok tt else Err CE_backend
    | None => Err CE_backend
    end
  else if is_l4 mode then validate_l4_backend backend
  else
    match url_parse backend with
    | Err _ => Err CE_backend
    | Ok url => if bool_decide (u_scheme url ∈ [lit "http"; lit "https"]) then Ok tt else Err CE_backend
    end.

Fixpoint each {A} (f : A -> result unit ConfigError) (xs : list A) : result unit ConfigError :=
  match xs with
  | [] => Ok tt
  | x :: xs => let? _ := f x in each f xs
  end.

Definition validate_backends (modes : list RouteMode) (backends_ : list bytes) : result unit ConfigError :=
  each (fun backend => each (fun mode => validate_backend mode backend) modes) backends_.

Definition is_https (backend : bytes) : bool :=
  match url_parse backend with Ok url => bool_decide (u_scheme url = lit "https") | Err _ => false end.

Definition validate_ports (ports : option (list Z)) : result unit ConfigError :=
  match ports with
  | None => Ok tt
  | Some ports => if bool_decide (ports = []) then Err CE_ports else if bool_decide (0 ∈ ports) then Err CE_ports else Ok tt
  end.

Definition past_ceiling (secs : option Z) : bool := match secs with Some secs => MAX_SECS <? secs | None => false end.

(** ** A route *)

Definition with_l4_options (o : L4Options) (r : Route) : Route :=
  {| r_host_pattern := r_host_pattern r; r_path_pattern := r_path_pattern r; r_path_is_prefix := r_path_is_prefix r;
     r_modes := r_modes r; r_pool := r_pool r; r_backend_protocol := r_backend_protocol r; r_path_rewrite := r_path_rewrite r; r_l4 := o |}.
Definition with_backend_protocol (p : BackendProtocol) (r : Route) : Route :=
  {| r_host_pattern := r_host_pattern r; r_path_pattern := r_path_pattern r; r_path_is_prefix := r_path_is_prefix r;
     r_modes := r_modes r; r_pool := r_pool r; r_backend_protocol := p; r_path_rewrite := r_path_rewrite r; r_l4 := r_l4 r |}.

(** The store of pools, and the name the next one gets.  [modes[0]] below is in range:
    [get_route_modes] never returns an empty list. *)
Record Store := { st_pools : Pools; st_next : nat }.

Definition try_from (spec : RouteSpec) (s : Store) : result (Route * Store) ConfigError :=
  let? strategy := get_strategy (rs_strategy spec) in
  let? modes := get_route_modes (rs_mode spec) (rs_modes spec) in
  let path_is_prefix := default true (rs_path_is_prefix spec) in
  match pattern_error (rs_host_pattern spec) with
  | Some why => Err (CE_pattern why)
  | None =>
      if bool_decide (rs_backends spec = []) then Err CE_no_backends
      else
        let? _ := validate_ports (rs_client_ports spec) in
        if bool_decide (rs_idle_timeout_secs spec = Some 0) then Err CE_idle
        else if bool_decide (rs_flow_timeout_secs spec = Some 0) then Err CE_flow
        else if past_ceiling (rs_idle_timeout_secs spec) || past_ceiling (rs_flow_timeout_secs spec) then Err CE_ceiling
        else
          let? _ := validate_backends modes (rs_backends spec) in
          let? backend_protocol := get_backend_protocol (rs_backend_protocol spec) in
          if bool_decide (backend_protocol = H2c) && bool_decide (ModeHttp ∈ modes) && existsb is_https (rs_backends spec) then Err CE_h2c
          else
            let l4_options := {| client_ports := rs_client_ports spec; idle_timeout := from_secs <$> rs_idle_timeout_secs spec;
                                 flow_timeout := from_secs <$> rs_flow_timeout_secs spec |} in
            let '(route, pools) := route_new url_parse (st_next s) (st_pools s) (rs_host_pattern spec) (rs_path_pattern spec) path_is_prefix
                                     (rs_backends spec) strategy (default ModeHttp (head modes)) (rs_path_rewrite spec) in
            Ok (with_backend_protocol backend_protocol (with_modes modes (with_l4_options l4_options route)),
                {| st_pools := pools; st_next := S (st_next s) |})
  end.

Definition with_circuit_breaker (b : CircuitBreaker) (r : Route) (s : Store) : Store :=
  {| st_pools := alter (set_circuit_breaker b) (r_pool r) (st_pools s); st_next := st_next s |}.

Fixpoint build_each (breaker : CircuitBreaker) (specs : list RouteSpec) (s : Store) : result (list Route * Store) ConfigError :=
  match specs with
  | [] => Ok ([], s)
  | spec :: specs =>
      let? '(route, s) := try_from spec s in
      let? '(routes, s) := build_each breaker specs (with_circuit_breaker breaker route s) in
      Ok (route :: routes, s)
  end.

Definition build_routes (c : ProxyConfig) (s : Store) : result (list Route * Store) ConfigError :=
  let? _ := validate_health_check (pc_health_check c) in
  let? _ := validate_timeouts (pc_timeouts c) in
  if pc_default_backend c then Err CE_default_backend
  else build_each (circuit_breaker_resolve (pc_circuit_breaker c)) (default [] (pc_routes c)) s.

(** ** Addresses *)

(** The port a bare address leaves out is the only thing the two readers differ in. *)
Lemma required_everywhere backend default_ x :
  parse_backend_addr url_parse backend Required = Some x -> parse_backend_addr url_parse backend default_ = Some x.
Proof.
  unfold parse_backend_addr. case_bool_decide; [done|]. destruct (contains_str _ _).
  - destruct (url_parse _) as [url|]; [|done]. destruct (u_host url) as [host|]; [|done]. cbn. case_bool_decide; [done|].
    by destruct (u_port url).
  - destruct (strip_prefix_char _ _) as [rest|].
    + destruct (split_once _ _) as [[host tail]|]; [|done]. cbn. case_bool_decide; [done|]. by destruct (strip_prefix_char COLON tail).
    + destruct (rsplit_once _ _) as [[host port]|]; [|done]. done.
Qed.

Lemma rsplit_once_app c h r : c ∉ r -> rsplit_once c (h ++ c :: r) = Some (h, r).
Proof.
  intros H. unfold rsplit_once. rewrite reverse_app, reverse_cons, <- app_assoc. cbn [app]. rewrite split_once_app by set_solver.
  by rewrite !reverse_involutive.
Qed.

Lemma parse_digits_colon max acc s n : parse_digits max acc s = Some n -> COLON ∉ s.
Proof.
  revert acc. induction s as [|b s IH]; intros acc; cbn; [set_solver|]. destruct (is_ascii_digit b) eqn:E; [|done].
  case_match; [|done]. intros Hp%IH [<-|?]%elem_of_cons; [done|done].
Qed.

Lemma parse_u16_colon s n : parse_u16 s = Some n -> COLON ∉ s.
Proof.
  unfold parse_u16, parse_uint. destruct s as [|b s]; [done|]. case_match eqn:E.
  - apply Z.eqb_eq in E as ->. destruct s as [|b s]; [done|]. intros H%parse_digits_colon [?|?]%elem_of_cons; [done|done].
  - apply parse_digits_colon.
Qed.

(** What a text has to be beyond what [validate_l4_backend] asks: a URL that names a port
    other than zero (and a host that is not brackets alone, which a URL parser does not
    give), or, when it begins with a bracket, exactly [[host]:port]. *)
Definition l4_shape (backend : bytes) : Prop :=
  let trimmed := trim backend in
  if contains_str (lit "://") trimmed
  then forall url host, url_parse trimmed = Ok url -> u_host url = Some host -> u_port url <> Some 0 /\ strip_ipv6_brackets host <> []
  else strip_prefix_char LBRACKET trimmed = None \/
    exists host port, trimmed = LBRACKET :: host ++ RBRACKET :: COLON :: port /\ host <> [] /\ RBRACKET ∉ host /\ COLON ∉ port.

Definition dials_to (backend : bytes) (default_ : PortDefault) : Prop :=
  exists host port, parse_backend_addr url_parse backend default_ = Some (host, port) /\ host <> [] /\ port <> 0.

(** Of the texts [validate_l4_backend] accepts, exactly those of that shape can be dialled. *)
Lemma l4_accepted_dials backend :
  validate_l4_backend backend = Ok tt -> dials_to backend Required <-> l4_shape backend.
Proof.
  intros H. unfold validate_l4_backend in H. unfold dials_to, parse_backend_addr, l4_shape. case_bool_decide as Hne; [done|].
  destruct (contains_str _ _) eqn:Ec.
  - destruct (url_parse (trim backend)) as [url|]; [|done]. case_bool_decide as Hh; [done|]. destruct (negb _); [done|].
    destruct (u_host url) as [host|] eqn:Eh; [|done]. cbn in Hh |- *. rewrite bool_decide_eq_false_2 by done. destruct (u_port url) as [port|] eqn:Ep; [|done].
    split.
    + intros (h & n & [= <- <-] & Hhn & Hn) ?? [= <-]. rewrite Eh, Ep. intros [= <-]. split; [congruence|done].
    + intros Hw. destruct (Hw url host eq_refl Eh) as [Hn Hhn]. rewrite Ep in Hn. exists (strip_ipv6_brackets host), port. split; [done|]. split; [done|congruence].
  - destruct (rsplit_once COLON (trim backend)) as [[host port]|] eqn:Er; [|done]. case_bool_decide as Hh; [done|]. cbn [negb] in H.
    destruct (parse_u16 port) as [n|] eqn:Ep; [|done]. destruct (n =? 0) eqn:En; [done|]. apply Z.eqb_neq in En.
    destruct (strip_prefix_char LBRACKET (trim backend)) as [rest|] eqn:Eb.
    2: { split; [by left|]. intros _. by exists host, n. }
    assert (trim backend = LBRACKET :: rest) as Ht.
    { destruct (trim backend) as [|b t]; [done|]. cbn in Eb. case_match eqn:E; [|done]. apply Z.eqb_eq in E. congruence. }
    split.
    + intros (h & m & Hp & Hhn & Hm). right. destruct (split_once RBRACKET rest) as [[h' tail]|] eqn:Es; [|done]. apply split_once_Some in Es as [-> Hnb].
      cbn [option_bind mbind] in Hp. case_bool_decide; [done|]. destruct tail as [|b tail]; [done|]. cbn [strip_prefix_char] in Hp.
      destruct (b =? COLON) eqn:E; [|done]. apply Z.eqb_eq in E as ->. destruct (parse_u16 tail) as [k|] eqn:Ek; [|done].
      exists h', tail. split; [done|]. split; [done|]. split; [done|]. by eapply parse_u16_colon.
    + intros [?|(h & p & Heq & Hhn & Hnb & Hnc)]; [done|]. rewrite Ht in Heq. injection Heq as ->. rewrite split_once_app by done. cbn [option_bind mbind].
      rewrite bool_decide_eq_false_2 by done. cbn. rewrite Ht in Er.
      replace (LBRACKET :: h ++ RBRACKET :: COLON :: p) with ((LBRACKET :: h ++ [RBRACKET]) ++ COLON :: p) in Er by (cbn; by rewrite <- app_assoc).
      rewrite rsplit_once_app in Er by done. injection Er as _ ->. rewrite Ep. by exists h, n.
Qed.

(** ** What an accepted route is *)

(** The address a mode sends a flow to has a host and a port other than zero; for an L4
    mode it is also the one a probe asks. *)
Definition dials (mode : RouteMode) (backend : bytes) : Prop :=
  match mode with
  | ModeHttp => exists url, url_parse backend = Ok url /\ u_scheme url ∈ [lit "http"; lit "https"]
  | ModePassthrough => dials_to backend (SchemeOrBare 443)
  | _ => dials_to backend Required /\
           parse_backend_addr url_parse backend (SchemeOrBare 443) = parse_backend_addr url_parse backend Required
  end.

Lemma validate_backend_dials mode backend :
  validate_backend mode backend = Ok tt -> dials mode backend <-> (is_l4 mode = true -> l4_shape backend).
Proof.
  intros H. unfold validate_backend in H.
  assert (validate_l4_backend backend = Ok tt ->
    (dials_to backend Required /\ parse_backend_addr url_parse backend (SchemeOrBare 443) = parse_backend_addr url_parse backend Required) <->
    (true = true -> l4_shape backend)) as Hl4.
  { intros Hv. rewrite <- (l4_accepted_dials backend Hv). split; [tauto|]. intros Hd. specialize (Hd eq_refl). split; [done|].
    destruct Hd as (host & port & Hp & _). rewrite Hp. by apply required_everywhere. }
  destruct mode; first [rewrite bool_decide_eq_false_2 in H by done | rewrite bool_decide_eq_true_2 in H by done]; cbn [is_l4 dials] in *.
  - split; [done|]. intros _. destruct (url_parse backend) as [url|]; [|done]. exists url. split; [done|]. by case_bool_decide.
  - split; [done|]. intros _. unfold dials_to. destruct (parse_backend_addr _ _ _) as [[host port]|]; [|done]. exists host, port. split; [done|].
    destruct (_ && _) eqn:E; [|done]. apply andb_true_iff in E as [E1%negb_true_iff E2%negb_true_iff].
    apply bool_decide_eq_false in E1. by apply Z.eqb_neq in E2.
  - by apply Hl4.
  - by apply Hl4.
Qed.

Lemma each_ok {A} (f : A -> result unit ConfigError) xs : each f xs = Ok tt <-> forall x, x ∈ xs -> f x = Ok tt.
Proof.
  induction xs as [|x xs IH]; cbn; [split; [set_solver|done]|]. destruct (f x) as [[]|] eqn:E.
  - rewrite IH. setoid_rewrite elem_of_cons. split; [intros H y [->|?]; auto|auto].
  - split; [done|]. intros H. rewrite <- E. apply H. by left.
Qed.

Lemma push_modes_spec names resolved modes :
  NoDup resolved -> push_modes names resolved = Ok modes -> NoDup modes.
Proof.
  revert resolved. induction names as [|name names IH]; intros resolved Hn; cbn; [by intros [= <-]|].
  destruct (parse_route_mode name) as [mode|]; [|done]. apply IH. unfold push_mode. case_bool_decide; [done|].
  apply NoDup_app. split; [done|]. split; [set_solver|apply NoDup_singleton].
Qed.

Lemma get_route_modes_ok mode modes ms : get_route_modes mode modes = Ok ms -> ms <> [] /\ NoDup ms.
Proof.
  unfold get_route_modes. destruct (match mode with Some _ => _ | None => _ end) as [first|] eqn:E; [|done].
  assert (NoDup first) as Hf.
  { destruct mode as [m|]; [|injection E as <-; constructor]. destruct (parse_route_mode m); [|done]. injection E as <-. apply NoDup_singleton. }
  destruct (push_modes _ _) as [resolved|] eqn:Er; [|done]. apply push_modes_spec in Er; [|done]. intros [= <-].
  case_bool_decide; [split; [done|apply NoDup_singleton]|done].
Qed.

Lemma with_modes_id ms r : ms <> [] -> NoDup ms -> r_modes (with_modes ms r) = ms.
Proof.
  intros Hne Hnd. unfold with_modes.
  assert (forall done_ rest, NoDup (done_ ++ rest) ->
    fold_left (fun (merged : list RouteMode) mode => if bool_decide (mode ∈ merged) then merged else merged ++ [mode]) rest done_ = done_ ++ rest) as Hf.
  { intros done_ rest. revert done_. induction rest as [|m rest IH]; intros done_ H; cbn; [by rewrite app_nil_r|].
    rewrite bool_decide_eq_false_2.
    - rewrite IH; by rewrite <- app_assoc.
    - apply NoDup_app in H as (_ & H & _). intros Hm. apply (H m Hm). by left. }
  rewrite (Hf [] ms) by done. cbn. by rewrite bool_decide_eq_false_2.
Qed.

Record route_ok (breaker : CircuitBreaker) (pools : Pools) (spec : RouteSpec) (r : Route) : Prop := {
  ro_pattern : r_host_pattern r = normalize_pattern (rs_host_pattern spec) /\ pattern_error (rs_host_pattern spec) = None;
  ro_pool : exists p, pools !! r_pool r = Some p /\ pool_backends p = rs_backends spec /\ backends p <> [] /\
    forall e, e ∈ backends p -> be_healthy e = true /\ be_in_flight e = 0 /\ be_breaker e = Some breaker;
  ro_modes : r_modes r <> [] /\ NoDup (r_modes r);
  ro_dials mode backend : mode ∈ r_modes r -> backend ∈ rs_backends spec -> dials mode backend <-> (is_l4 mode = true -> l4_shape backend);
  ro_h2c backend : r_backend_protocol r = H2c -> ModeHttp ∈ r_modes r -> backend ∈ rs_backends spec -> is_https backend = false;
  ro_ports ports : client_ports (r_l4 r) = Some ports -> ports <> [] /\ 0 ∉ ports;
  ro_idle : idle_timeout (r_l4 r) = from_secs <$> rs_idle_timeout_secs spec /\
    forall secs, rs_idle_timeout_secs spec = Some secs -> secs <> 0 /\ secs <= MAX_SECS;
  ro_flow : flow_timeout (r_l4 r) = from_secs <$> rs_flow_timeout_secs spec /\
    forall secs, rs_flow_timeout_secs spec = Some secs -> secs <> 0 /\ secs <= MAX_SECS;
}.

(** A store whose names are below the next one, with no count past a [usize]. *)
Definition store_ok (s : Store) : Prop :=
  (forall k, is_Some (st_pools s !! k) -> (k < st_next s)%nat) /\
  (forall k p e, st_pools s !! k = Some p -> e ∈ backends p -> is_uint 64 (be_in_flight e)).

(** What [try_from] and [with_circuit_breaker] add to the store. *)
Lemma try_from_ok breaker spec s r s1 :
  try_from spec s = Ok (r, s1) ->
  let s2 := with_circuit_breaker breaker r s1 in
  r_pool r = st_next s /\ st_next s2 = S (st_next s) /\
  (forall k, k <> st_next s -> st_pools s2 !! k = st_pools s !! k) /\
  forall pools, pools !! st_next s = st_pools s2 !! st_next s -> route_ok breaker pools spec r.
Proof.
  unfold try_from. destruct (get_strategy _) as [strat|]; [|done]. destruct (get_route_modes _ _) as [modes|] eqn:Em; [|done].
  destruct (pattern_error _) eqn:Ep; [done|]. case_bool_decide as Hb; [done|].
  destruct (validate_ports _) as [[]|] eqn:Epo; [|done]. case_bool_decide as Hi; [done|]. case_bool_decide as Hf; [done|].
  destruct (_ || _) eqn:Ec; [done|]. apply orb_false_iff in Ec as [Hci Hcf].
  destruct (validate_backends _ _) as [[]|] eqn:Ev; [|done]. destruct (get_backend_protocol _) as [proto|]; [|done].
  destruct (_ && existsb _ _) eqn:Eh; [done|]. intros [= <- <-]. apply get_route_modes_ok in Em as [Hmne Hmnd].
  assert (forall r0, r_modes (with_backend_protocol proto (with_modes modes r0)) = modes) as Hmodes by (intros r0; by apply with_modes_id).
  assert (forall r0, r_pool (with_modes modes r0) = r_pool r0 /\ r_l4 (with_modes modes r0) = r_l4 r0 /\ r_host_pattern (with_modes modes r0) = r_host_pattern r0)
    as Hw by (intros r0; unfold with_modes; case_match; by repeat split).
  split; [cbn; by rewrite (proj1 (Hw _))|]. split; [done|].
  assert (forall (m : Pools) k p (f : BackendPool -> BackendPool), alter f k (<[k := p]> m) = <[k := f p]> m) as Hal.
  { intros m k p f. apply map_eq. intros j. destruct (decide (k = j)) as [->|]; [by rewrite lookup_alter_eq, !lookup_insert_eq|].
    by rewrite lookup_alter_ne, !lookup_insert_ne. }
  unfold with_circuit_breaker. cbn [st_pools r_pool with_backend_protocol]. rewrite (proj1 (Hw _)). cbn [r_pool with_l4_options]. rewrite Hal.
  split; [intros k Hk; by rewrite lookup_insert_ne|]. intros pools. rewrite lookup_insert_eq. intros Hpool. split.
  - cbn. by rewrite (proj2 (proj2 (Hw _))).
  - eexists. cbn [r_pool with_backend_protocol]. rewrite (proj1 (Hw _)). cbn [r_pool with_l4_options]. split; [exact Hpool|].
    unfold pool_backends, set_circuit_breaker, pool_new. cbn [backends with_backends]. split; [|split].
    + rewrite <- !list_fmap_compose. by rewrite list_fmap_id.
    + by destruct (rs_backends spec).
    + intros e (e0 & -> & (url & -> & _)%list_elem_of_fmap)%list_elem_of_fmap. done.
  - by rewrite Hmodes.
  - intros mode backend Hmode Hback. rewrite Hmodes in Hmode. apply validate_backend_dials.
    unfold validate_backends in Ev. rewrite each_ok in Ev. specialize (Ev backend Hback). rewrite each_ok in Ev. by apply Ev.
  - intros backend Hp Hm Hback. rewrite Hmodes in Hm. cbn in Hp. subst proto.
    rewrite bool_decide_eq_true_2, bool_decide_eq_true_2 in Eh by done. cbn [andb] in Eh.
    destruct (is_https backend) eqn:E; [|done]. rewrite <- Eh. symmetry. apply existsb_exists. exists backend. by rewrite <- list_elem_of_In.
  - cbn. rewrite (proj1 (proj2 (Hw _))). cbn. intros ports Hpo. rewrite Hpo in Epo. cbn in Epo. revert Epo. by repeat case_bool_decide.
  - cbn. rewrite (proj1 (proj2 (Hw _))). split; [done|]. intros secs Hs. rewrite Hs in Hi, Hci. cbn in Hci. apply Z.ltb_ge in Hci. split; [congruence|done].
  - cbn. rewrite (proj1 (proj2 (Hw _))). split; [done|]. intros secs Hs. rewrite Hs in Hf, Hcf. cbn in Hcf. apply Z.ltb_ge in Hcf. split; [congruence|done].
Qed.

Lemma build_each_ok breaker specs s routes s' :
  build_each breaker specs s = Ok (routes, s') ->
  r_pool <$> routes = seq (st_next s) (length specs) /\ st_next s' = (st_next s + length specs)%nat /\
  (forall k, (k < st_next s)%nat -> st_pools s' !! k = st_pools s !! k) /\
  (forall k, (st_next s' <= k)%nat -> st_pools s' !! k = st_pools s !! k) /\
  Forall2 (route_ok breaker (st_pools s')) specs routes.
Proof.
  revert s routes s'. induction specs as [|spec specs IH]; intros s routes s'; cbn [build_each].
  { intros [= <- <-]. cbn. split; [done|]. split; [lia|]. split; [done|]. split; [done|constructor]. }
  destruct (try_from spec s) as [[r s1]|] eqn:E; [|done]. destruct (try_from_ok breaker _ _ _ _ E) as (Hp & Hn & Hk & Hr).
  set (s2 := with_circuit_breaker breaker r s1) in *. destruct (build_each breaker specs s2) as [[routes' s3]|] eqn:E2; [|done]. intros [= <- <-].
  destruct (IH s2 routes' s3 E2) as (Hps & Hns & Hlow & Hhigh & Hall). rewrite Hn in Hps, Hns, Hlow. cbn [fmap list_fmap length seq].
  split; [by rewrite Hp; f_equal|]. split; [lia|]. split; [|split].
  - intros k Hlt. rewrite Hlow by lia. apply Hk. lia.
  - intros k Hge. rewrite Hhigh by lia. apply Hk. lia.
  - constructor; [|done]. apply Hr. by rewrite Hlow by lia.
Qed.


Lemma validate_waits_ok ceiling waits :
  validate_waits ceiling waits = Ok tt -> forall secs, Some secs ∈ waits -> secs <> 0 /\ secs <= ceiling.
Proof.
  induction waits as [|[secs|] waits IH]; cbn; [set_solver| |].
  - destruct (secs =? 0) eqn:E0; [done|]. destruct (ceiling <? secs) eqn:E1; [done|]. intros H x [[= ->]|Hin]%elem_of_cons; [|by apply IH].
    apply Z.eqb_neq in E0. apply Z.ltb_ge in E1. done.
  - intros H x [?|Hin]%elem_of_cons; [done|by apply IH].
Qed.

(** A wait that was accepted is the wait the server keeps: none is zero, and none is
    shortened by the ceiling the resolution has of its own. *)
Theorem accepted_waits_kept t :
  validate_timeouts t = Ok tt ->
  Forall (fun vd => (forall secs, vd.1 = Some secs -> 0 <= secs) -> 0 < deadline_or vd.1 vd.2 /\ deadline_or vd.1 vd.2 = secs_or vd.1 vd.2)
    [(header_secs t, DEFAULT_HEADER_SECS); (body_secs t, DEFAULT_BODY_SECS); (response_idle_secs t, DEFAULT_RESPONSE_IDLE_SECS);
     (l4_flow_secs t, DEFAULT_L4_FLOW_SECS); (l4_idle_secs t, DEFAULT_L4_IDLE_SECS); (tls_hello_secs t, DEFAULT_TLS_HELLO_SECS)].
Proof.
  unfold validate_timeouts. destruct (validate_waits DIAL_MAX_SECS _) as [[]|]; [|done]. intros H.
  pose proof (validate_waits_ok _ _ H) as Hok. clear H.
  assert (forall v d, v ∈ [header_secs t; body_secs t; response_idle_secs t; l4_flow_secs t; l4_idle_secs t; tls_hello_secs t] -> 0 < d <= MAX_SECS ->
    (forall secs, v = Some secs -> 0 <= secs) -> 0 < deadline_or v d /\ deadline_or v d = secs_or v d) as Hone.
  { intros v d Hv Hd Hnn. unfold deadline_or, secs_or, from_secs. destruct v as [secs|]; cbn [default from_option id].
    - destruct (Hok secs Hv). specialize (Hnn secs eq_refl). split; [|rewrite Z.min_l by done; done]. lia.
    - split; [|rewrite Z.min_l by lia; done]. lia. }
  repeat constructor; cbn [fst snd]; apply Hone; try (vm_compute; split; congruence); set_solver.
Qed.
End Config.

(** ** On concrete configurations *)

Definition toy_parse (s : bytes) : result ParsedUrl bytes :=
  if bool_decide (s = lit "http://10.0.0.5:8080")
  then Ok {| u_scheme := lit "http"; u_host := Some (lit "10.0.0.5"); u_port := Some 8080; u_port_or_known_default := Some 8080 |}
  else if bool_decide (s = lit "tcp://db:0")
  then Ok {| u_scheme := lit "tcp"; u_host := Some (lit "db"); u_port := Some 0; u_port_or_known_default := Some 0 |}
  else Err [].

Definition toy_spec (mode : option bytes) (modes : option (list bytes)) (backends_ : list bytes) : RouteSpec :=
  {| rs_host_pattern := lit "*.Corp.lan"; rs_path_pattern := lit "/"; rs_path_is_prefix := None; rs_strategy := Some (lit "least_conn");
     rs_backends := backends_; rs_backend_protocol := None; rs_mode := mode; rs_modes := modes; rs_path_rewrite := None;
     rs_client_ports := Some [22]; rs_idle_timeout_secs := Some 60; rs_flow_timeout_secs := None |}.
Definition toy_config (specs : list RouteSpec) : ProxyConfig :=
  {| pc_default_backend := false; pc_routes := Some specs; pc_health_check := probing;
     pc_timeouts := {| connect_secs := None; response_secs := Some 10; header_secs := None; body_secs := None; response_idle_secs := None;
                       l4_flow_secs := Some 86400; l4_idle_secs := None; tls_hello_secs := None |};
     pc_circuit_breaker := default_breaker |}.
Definition no_pools : Store := {| st_pools := ∅; st_next := 0 |}.
Definition two_modes : RouteSpec := toy_spec (Some (lit "http")) (Some [lit "tcp"; lit "HTTP"]) [lit "http://10.0.0.5:8080"].


Lemma accepted_waits_kept_witness :
  validate_timeouts (pc_timeouts (toy_config [])) = Ok tt /\ 0 < deadline_or (Some 86400) DEFAULT_L4_FLOW_SECS.
Proof.
  split; [reflexivity|]. pose proof (accepted_waits_kept (pc_timeouts (toy_config [])) eq_refl) as H.
  apply Forall_cons in H as [_ H]. apply Forall_cons in H as [_ H]. apply Forall_cons in H as [_ H]. apply Forall_cons in H as [H _].
  apply H. intros secs [= <-]. lia.
Defined.

Example refused_configs :
  build_routes toy_parse (fun _ => []) (toy_config [toy_spec None None []]) no_pools = Err CE_no_backends /\
  build_routes toy_parse (fun _ => []) (toy_config [toy_spec (Some (lit "tcp")) None [lit "db.lan"]]) no_pools = Err CE_backend /\
  build_routes toy_parse (fun _ => []) (toy_config [toy_spec (Some (lit "icmp")) None [lit "db.lan:1"]]) no_pools = Err CE_mode.
Proof. vm_compute. done. Qed.

(** An L4 backend that begins with a bracket is accepted whether or not the bracket is
    closed, holds a host, or is followed by the port, and no flow can dial it. *)
Theorem unclosed_bracket_accepted :
  Forall (fun backend => validate_l4_backend toy_parse (fun _ => []) backend = Ok tt /\ parse_backend_addr toy_parse backend Required = None)
    [lit "[db:5432"; lit "[]:5432"; lit "[a]b:5432"].
Proof. repeat constructor; vm_compute; done. Qed.

(** Port zero is refused in a bare address and accepted in a URL. *)
Theorem port_zero_accepted :
  validate_l4_backend toy_parse (fun _ => []) (lit "db:0") = Err CE_backend /\
  validate_l4_backend toy_parse (fun _ => []) (lit "tcp://db:0") = Ok tt /\
  parse_backend_addr toy_parse (lit "tcp://db:0") Required = Some (lit "db", 0).
Proof. vm_compute. done. Qed.
