(* ===== verification/HttpPlain.v ===== *)
(** * The plaintext listener's requests (nexapipe/src/http/: forward.rs, response.rs, body.rs)

    [proxy_request] buffers the body, runs the same attempts as the tunnel path over
    its own [attempt_backend], and compresses the answer where the client, the
    backend and the size allow it.  The gzip encoder is a parameter. *)

From S2P Require Import Prelude RustStd Host AuthConfig Lb Limits Routes L4 Headers HttpBody HttpForward.

(** ** One attempt *)

Fixpoint timeout_run {R} (deadline : Z) (polls : list (Poll R)) : option (result R ProxyFailure) :=
  match polls with
  | [] => None
  | p :: polls =>
      match p_request p with
      | Some (Ok response) => Some (Ok response)
      | Some (Err is_connect) => Some (Err (unanswered NotSent (if is_connect then Always else IfIdempotent)))
      | None => if deadline <=? p_now p then Some (Err (unanswered NoAnswer IfIdempotent))
                else timeout_run deadline polls
      end
  end.

Definition attempt_backend {R} (t : Timeouts) (info : BackendInfo) (a : Attempt R) : option (result R ProxyFailure) :=
  match i_origin info with
  | Err _ => Some (Err (proxy_failure_from BadBackend))
  | Ok _ =>
      if negb (at_uri_ok a) then Some (Err (proxy_failure_from BadBackend))
      else timeout_run (at_start a + to_response t) (at_polls a)
  end.

(** ** What is compressed *)

Definition should_compress (content_type : option bytes) : bool :=
  match content_type with
  | Some ct =>
      starts_with (lit "text/") ct || contains_str (lit "application/json") ct
      || contains_str (lit "application/javascript") ct || contains_str (lit "application/xml") ct
      || contains_str (lit "application/xhtml") ct
  | None => false
  end.

(** The digits a string starts with, and the rest. *)
Fixpoint span_digits (s : bytes) : bytes * bytes :=
  match s with
  | b :: t => if is_ascii_digit b then let '(d, r) := span_digits t in (b :: d, r) else ([], s)
  | [] => ([], [])
  end.

Definition take_sign (s : bytes) : bool * bytes :=
  match s with 43 :: t => (false, t) | 45 :: t => (true, t) | _ => (false, s) end.

(** [m] tenth-powers [e], rounded to [f32], is above zero: it is more than half the
    smallest subnormal, [2 ^ -150]. *)
Definition f32_above_zero (digits : bytes) (e : Z) : bool :=
  let m := digits_value 0 digits in
  (0 <? m) && ((0 <=? e) || ((- e <? len digits + 46) && (10 ^ (- e) <? m * 2 ^ 150))).

(** [s.parse::<f32>().is_ok_and(|q| q > 0.0)]. *)
Definition f32_positive (s : bytes) : bool :=
  let '(negative, s) := take_sign s in
  if eq_ignore_ascii_case s (lit "inf") || eq_ignore_ascii_case s (lit "infinity") then negb negative
  else
    let '(whole, s) := span_digits s in
    let '(fraction, s) := match s with 46 :: t => span_digits t | _ => ([], s) end in
    if bool_decide (whole ++ fraction = []) then false
    else
      let above e := negb negative && f32_above_zero (whole ++ fraction) (e - len fraction) in
      match s with
      | [] => above 0
      | c :: t =>
          if (c =? 101) || (c =? 69) then
            let '(minus, t) := take_sign t in
            match t with
            | [] => false
            | _ => match span_digits t with
                   | (e, []) => above (if minus : bool then - digits_value 0 e else digits_value 0 e)
                   | _ => false
                   end
            end
          else false
      end.

Definition SEMICOLON : Z := 59.
Definition EQUALS : Z := 61.

(** The first parameter that is a quality. *)
Fixpoint quality_of (parameters : list bytes) : option bytes :=
  match parameters with
  | [] => None
  | parameter :: parameters =>
      match split_once EQUALS parameter with
      | Some (name, value) =>
          if eq_ignore_ascii_case (trim name) (lit "q") then Some (trim value) else quality_of parameters
      | None => quality_of parameters
      end
  end.

Definition accepts_gzip (accept_encoding : option bytes) : bool :=
  match accept_encoding with
  | None => false
  | Some header =>
      existsb (fun coding =>
        match split_on SEMICOLON coding with
        | [] => false
        | name :: parameters =>
            if negb (eq_ignore_ascii_case (trim name) (lit "gzip")) then false
            else match quality_of parameters with
                 | None => true
                 | Some value => f32_positive value
                 end
        end) (split_on COMMA header)
  end.

(** ** The answer's body *)

Inductive BodyItem := Item (data : bytes) | BodyIdle | BodyBroken.

(** [idle_bounded]: the data of the frames, up to the first gap longer than [idle]
    or the first failure. *)
Fixpoint idle_bounded (idle last : Z) (frames : Timed) : list BodyItem :=
  match frames with
  | [] => [BodyIdle]
  | (ready, frame) :: frames =>
      if last + idle <? ready then [BodyIdle]
      else match frame with
           | FEnd => []
           | FFailed => [BodyBroken]
           | FTrailers => idle_bounded idle last frames
           | FData data => Item data :: idle_bounded idle ready frames
           end
  end.

Definition MAX_COMPRESS_SIZE : Z := 1024 * 1024.

(** What [compress_response] hands on: the whole body, compressed; or what was read,
    and the rest as it comes; or an error. *)
Inductive Compression := Compressed (bytes_ : bytes) | PassedOn (items : list BodyItem) | CompressFailed.

(** An answer of a backend, after [forwarded_response_headers]. *)
Record Response (H : Type) := { rs_status : Z; rs_headers : H; rs_at : Z; rs_frames : Timed }.
Arguments rs_status {H}. Arguments rs_headers {H}. Arguments rs_at {H}. Arguments rs_frames {H}.

(** What the client is handed. *)
Inductive PlainAnswer (H : Type) :=
| PRefused (status : Z)
| PFailed
| PAnswer (status : Z) (headers : H) (items : list BodyItem) (lease : option Lease)
| PWaiting (backend : BackendInfo).
Arguments PRefused {H}. Arguments PFailed {H}. Arguments PAnswer {H}. Arguments PWaiting {H}.

Section Compress.
Variable gzip : bytes -> bytes.

Fixpoint compress_frames (idle last : Z) (bytes_ : bytes) (frames : Timed) : Compression :=
  match frames with
  | [] => CompressFailed
  | (ready, frame) :: frames =>
      if last + idle <? ready then CompressFailed
      else
        match frame with
        | FEnd => Compressed (gzip bytes_)
        | FFailed => CompressFailed
        | FTrailers => compress_frames idle ready bytes_ frames
        | FData data =>
            let bytes_ := bytes_ ++ data in
            if MAX_COMPRESS_SIZE <? len bytes_ then PassedOn (Item bytes_ :: idle_bounded idle ready frames)
            else compress_frames idle ready bytes_ frames
        end
  end.

Definition compressed_headers `{HeaderMap H} (headers : H) : H :=
  hm_insert (lit "content-encoding") (lit "gzip") (hm_remove (lit "content-length") (hm_remove (lit "content-encoding") headers)).

Definition is_partial `{HeaderMap H} (r : Response H) : bool :=
  (rs_status r =? 206) || contains_key (lit "content-range") (rs_headers r).

Definition answer_of `{HeaderMap H} (accept_encoding : option bytes) (idle : Z) (r : Response H) (lease : Lease)
    (pools : Pools) : Pools * PlainAnswer H :=
  if negb (contains_key (lit "content-encoding") (rs_headers r)) && negb (is_partial r)
     && should_compress (get_str (lit "content-type") (rs_headers r)) && accepts_gzip accept_encoding
  then
    (drop_lease lease pools,
     match compress_frames idle (rs_at r) [] (rs_frames r) with
     | Compressed bytes_ => PAnswer (rs_status r) (compressed_headers (rs_headers r)) [Item bytes_] None
     | PassedOn items => PAnswer (rs_status r) (rs_headers r) items None
     | CompressFailed => PFailed
     end)
  else (pools, PAnswer (rs_status r) (rs_headers r) (idle_bounded idle (rs_at r) (rs_frames r)) (Some lease)).

Definition always_resend {R} (a : Attempt R) : Attempt R :=
  {| at_start := at_start a; at_uri_ok := at_uri_ok a; at_polls := at_polls a; at_may_resend := true;
     at_now := at_now a; at_rand := at_rand a |}.

(** [proxy_request]; [None] is a panic. *)
Definition proxy_request `{HeaderMap H} (url_parse : bytes -> result ParsedUrl bytes) (t : Timeouts) (retry : Retry)
    (routes : list Route) (headers : H) (path : bytes) (method : Method) (frames : Timed)
    (world : list (Attempt (Response H))) (now rand : Z) (pools : Pools) (b : ByteBudget)
    : option (Pools * ByteBudget * PlainAnswer H) :=
  match fst <$> request_host headers with
  | None => Some (pools, b, PRefused 404)
  | Some host =>
      match lookup_backend url_parse routes None (Some (host, None)) path pools [] now rand with
      | None => None
      | Some (pools, NoRoute) => Some (pools, b, PRefused 404)
      | Some (pools, Unavailable) => Some (pools, b, PRefused 503)
      | Some (pools, Found info) =>
          match read_body_limited MAX_REQUEST_BODY (to_body t) now frames b with
          | (b, Err e) => Some (drop_lease (i_lease info) pools, b, PRefused (body_failure_status e))
          | (b, Ok (_, reservation)) =>
              (** The reservation lives until the function returns. *)
              let returned := give_back reservation b in
              match attempts (attempt_backend t) url_parse retry routes None (Some (host, None)) path method
                      (always_resend <$> world) info pools with
              | (pools, Answered response info, _) =>
                  let '(pools, answer) :=
                    answer_of (get_str (lit "accept-encoding") headers) (dl_response_idle (to_deadlines t)) response
                      (i_lease info) pools in
                  Some (pools, returned, answer)
              | (pools, Failed _, _) => Some (pools, returned, PFailed)
              | (pools, Waiting info, _) => Some (pools, b, PWaiting info)
              | (_, Panicked, _) | (_, Spun, _) => None
              end
          end
      end
  end.
End Compress.

(** ** The body the client gets is the body the backend sent *)

Definition items_data (items : list BodyItem) : bytes :=
  items ≫= fun i => match i with Item data => data | _ => [] end.
Definition complete (items : list BodyItem) : Prop :=
  Forall (fun i => match i with Item _ => True | _ => False end) items.

Lemma idle_bounded_data idle frames : forall last,
  items_data (idle_bounded idle last frames) `prefix_of` body_data frames /\
  (complete (idle_bounded idle last frames) -> items_data (idle_bounded idle last frames) = body_data frames).
Proof.
  induction frames as [|[ready f] frames IH]; intros last; cbn [idle_bounded].
  { split; [done|]. intros Hc. by apply Forall_cons in Hc as [[] _]. }
  destruct (last + idle <? ready).
  { split; [apply prefix_nil|]. intros Hc. by apply Forall_cons in Hc as [[] _]. }
  destruct f as [data| | |].
  - destruct (IH ready) as [IHp IHc]. cbn. split; [by apply prefix_app|]. intros [_ Hc]%Forall_cons.
    by rewrite <- IHc.
  - apply IH.
  - split; [done|]. intros Hc. by apply Forall_cons in Hc as [[] _].
  - done.
Qed.

Lemma compress_frames_data gzip idle frames : forall last bytes_,
  len bytes_ <= MAX_COMPRESS_SIZE ->
  match compress_frames gzip idle last bytes_ frames with
  | Compressed out => out = gzip (bytes_ ++ body_data frames) /\ len (bytes_ ++ body_data frames) <= MAX_COMPRESS_SIZE
  | PassedOn items =>
      items_data items `prefix_of` bytes_ ++ body_data frames /\
      (complete items -> items_data items = bytes_ ++ body_data frames)
  | CompressFailed => True
  end.
Proof.
  induction frames as [|[ready f] frames IH]; intros last bytes_ Hl; cbn [compress_frames]; [done|].
  destruct (last + idle <? ready); [done|]. destruct f as [data| | |]; cbn [body_data].
  - rewrite app_assoc. destruct (Z.ltb_spec MAX_COMPRESS_SIZE (len (bytes_ ++ data))) as [|Hfit]; [|by apply IH].
    destruct (idle_bounded_data idle frames ready) as [Hp Hc]. cbn. split; [by apply prefix_app|].
    intros [_ Hcomp]%Forall_cons. by rewrite <- Hc.
  - by apply IH.
  - done.
  - by rewrite app_nil_r.
Qed.

(** What may reach the client of a backend's answer. *)
Definition answer_ok (gzip : bytes -> bytes) `{HeaderMap H} (r : Response H) (answer : PlainAnswer H) : Prop :=
  match answer with
  | PAnswer status headers items lease =>
      status = rs_status r /\
      ((headers = rs_headers r /\ items_data items `prefix_of` body_data (rs_frames r) /\
        (complete items -> items_data items = body_data (rs_frames r))) \/
       (is_partial r = false /\ get_all (lit "content-encoding") (rs_headers r) = [] /\
        items = [Item (gzip (body_data (rs_frames r)))] /\ lease = None /\
        get_all (lit "content-encoding") headers = [lit "gzip"] /\ get_all (lit "content-length") headers = []))
  | PFailed => True
  | PRefused _ | PWaiting _ => False
  end.

Lemma answer_of_ok gzip `{HeaderMapLaws H} accept idle (r : Response H) lease pools :
  let '(pools', answer) := answer_of gzip accept idle r lease pools in
  answer_ok gzip r answer /\
  match answer with
  | PAnswer _ _ _ (Some l) => l = lease /\ pools' = pools
  | _ => pools' = drop_lease lease pools
  end.
Proof.
  unfold answer_of. destruct (negb (contains_key _ _) && negb (is_partial r) && _ && _) eqn:E.
  - repeat rewrite andb_true_iff in E. rewrite !negb_true_iff in E. destruct E as [[[Hce Hpart] _] _].
    pose proof (compress_frames_data gzip idle (rs_frames r) (rs_at r) [] ltac:(done)) as Hd.
    destruct (compress_frames _ _ _ _ _) as [out|items|]; [| |done].
    + destruct Hd as [-> _]. split; [|done]. split; [done|]. right. split_and!; try done.
      * unfold contains_key in Hce. apply negb_false_iff, bool_decide_eq_true in Hce. done.
      * unfold compressed_headers. rewrite get_all_insert. by rewrite bool_decide_true.
      * unfold compressed_headers. rewrite get_all_insert, bool_decide_false, get_all_remove by done.
        by rewrite bool_decide_true.
    + split; [|done]. split; [done|]. by left.
  - split; [|done]. split; [done|]. left. split; [done|]. apply idle_bounded_data.
Qed.

Lemma plain_attempt_ends {R} t info (a : Attempt R) :
  (exists p, p ∈ at_polls a /\ at_start a + to_response t <= p_now p) -> attempt_backend t info a <> None.
Proof.
  intros (p & Hin & Hp). unfold attempt_backend. destruct (i_origin info); [|done].
  destruct (negb (at_uri_ok a)); [done|].
  induction (at_polls a) as [|q polls IH]; [by apply elem_of_nil in Hin|]. cbn [timeout_run].
  destruct (p_request q) as [[|]|]; [done|done|]. destruct (Z.leb_spec (at_start a + to_response t) (p_now q)); [done|].
  apply elem_of_cons in Hin as [->|Hin]; [lia|]. auto.
Qed.

(** a plaintext request.  It never panics; the budget holds its body while it waits for a
    backend and is as it was when it ends,
    and the one request it counts is on the backend whose body is still being
    streamed, or on none.  The answer has the status of some backend of the host's
    best route and its headers and bytes: a prefix of what the backend sent, all of
    it unless the body says it was cut; or, for a whole answer that was not encoded
    already, the bytes compressed, declared so, with no stale length. *)
Theorem plain_request_faithful gzip `{HeaderMapLaws H} url_parse t retry routes (headers : H) path method frames
    (world : list (Attempt (Response H))) now rand pools b :
  pools_ok pools routes -> 0 <= b_held b <= b_max b -> b_max b < umax 64 -> 0 <= r_attempts retry ->
  match proxy_request gzip url_parse t retry routes headers path method frames world now rand pools b with
  | None => False
  | Some (pools', b', answer) =>
      match answer with
      | PWaiting _ => exists body, (read_body_limited MAX_REQUEST_BODY (to_body t) now frames b).2 = Ok (body, len body) /\
                        charged b b' (len body) /\ give_back (len body) b' = b
      | _ => b' = b
      end /\
      match answer with
      | PRefused _ | PFailed => counts pools' = counts pools
      | PWaiting info => counts pools' = bump (i_lease info) 1 (counts pools)
      | PAnswer _ _ _ lease =>
          (exists r, answer_ok gzip r answer) /\
          counts pools' = match lease with Some l => bump l 1 (counts pools) | None => counts pools end
      end
  end.
Proof.
  intros Hp Hb Hw Ha. unfold proxy_request.
  destruct (request_host headers) as [[h port]|]; cbn [fmap option_fmap option_map fst lookup_backend]; [|done].
  pose proof (http_lookup_cases url_parse routes pools h path None None [] now rand Hp) as Hl.
  destruct (get_backend_with_acl_excluding _ _ _ _ _ _ _ _ _ _) as [[pools1 [| |info]]|]; [| | |done].
  { by destruct Hl as [Hn _]. }
  { by destruct Hl as [-> _]. }
  destruct Hl as (Hadm & Hbk & _ & Hm & r & e & Hr & Hlp & He).
  change (counts pools1 = bump (i_lease info) 1 (counts pools)) in Hm.
  assert (may_serve url_parse routes None h path None info) as Hs by (split_and!; eauto).
  apply pools_ok_counts in Hp as [Hin Hok].
  pose proof (read_body_limited_ok MAX_REQUEST_BODY (to_body t) now frames b ltac:(done) Hb Hw) as Hrd.
  destruct (read_body_limited _ _ _ _ _) as [b1 [[body reservation]|err]].
  2:{ destruct Hrd as [-> _]. split; [done|]. by rewrite drop_lease_bump, Hm, bump_undo. }
  destruct Hrd as (pre & at_ & post & _ & _ & _ & _ & _ & -> & Hc).
  pose proof (give_back_charged b b1 _ (len_nonneg body) ltac:(lia) Hc) as Hg. rewrite Hg.
  pose proof (attempts_safe (attempt_backend t) _ (fun b' a => plain_attempt_ends t b' a) url_parse retry routes None
                h path None method (counts pools) (always_resend <$> world) info pools1 Hok Hin Hm Hs Ha) as Hf.
  destruct (attempts _ _ _ _ _ _ _ _ _ _ _) as [[pools2 out] history]. destruct Hf as [(Hout & _) _].
  destruct out as [resp info'|f|info'| |]; try done; [|split; [by exists body|by destruct Hout]].
  destruct Hout as [Hc2 _].
  pose proof (answer_of_ok gzip (get_str (lit "accept-encoding") headers) (dl_response_idle (to_deadlines t)) resp
                (i_lease info') pools2) as Hans.
  destruct (answer_of _ _ _ _ _ _) as [pools3 answer]. destruct Hans as [Hok' Hl3].
  assert (counts (drop_lease (i_lease info') pools2) = counts pools) as Hdrop
    by by rewrite drop_lease_bump, Hc2, bump_undo.
  destruct answer as [| |status hs items [l|]|]; try done; (split; [done|]); try (by subst).
  - split; [by exists resp|]. by destruct Hl3 as [-> ->].
  - split; [by exists resp|]. by rewrite Hl3.
Qed.

Definition plain_world : list (Attempt (Response (list (bytes * bytes)))) :=
  [{| at_start := 0; at_uri_ok := true; at_may_resend := true; at_now := 1; at_rand := 0;
      at_polls := [{| p_now := 1; p_timed_out := false; p_sent := true;
        p_request := Some (Ok {| rs_status := 200; rs_headers := [(lit "content-type", lit "text/plain")];
                                 rs_at := 1; rs_frames := [(1, FData (lit "hi")); (2, FEnd)] |}) |}] |}].

Lemma plain_request_faithful_witness :
  proxy_request (fun s => 31 :: 139 :: s) (fun _ => Err []) sample_timeouts sample_retry [sample_route]
    [(lit "host", lit "a.example.com"); (lit "accept-encoding", lit "br, gzip;q=0.5")] (lit "/api/x") GET [(0, FEnd)]
    plain_world 0 0 sample_pools (budget_new 100) <> None.
Proof.
  intros E. pose proof (plain_request_faithful (fun s => 31 :: 139 :: s) (fun _ => Err []) sample_timeouts sample_retry
    [sample_route] [(lit "host", lit "a.example.com"); (lit "accept-encoding", lit "br, gzip;q=0.5")] (lit "/api/x") GET
    [(0, FEnd)] plain_world 0 0 sample_pools (budget_new 100)
    sample_pools_ok ltac:(split; discriminate) ltac:(reflexivity) ltac:(discriminate)) as A.
  rewrite E in A. exact A.
Defined.

(** The quality of a coding, on the inputs of the tests. *)
Example accepts_gzip_cases :
  (fun s => accepts_gzip (Some (lit s))) <$>
    ["gzip"; "br, gzip;q=0.5"; "gzip;q=0"; "gzip; q=0.000"; "gzip;q=1e-46"; "gzip;q=x"; "br"]%string
  = [true; true; false; false; false; false; false].
Proof. vm_compute. reflexivity. Qed.
