(* ===== verification/WebSocket.v ===== *)
(** * A WebSocket upgrade (nexapipe/src/http/websocket.rs, legacy.rs)

    The request a backend is sent, the head of its answer, and the body of a
    refusal, which is read by hand under the framing the backend chose.  The reads of
    the backend's connection are events; a loop that turns on bytes and reads takes
    fuel, the bytes and the reads there are. *)

From S2P Require Import Prelude RustStd Udp Host Lb Routes L4 Streams Headers HttpForward.

Definition MAX_REFUSAL_BODY : Z := 16 * 1024.
Definition MAX_CHUNK_SIZE_LINE : Z := 1024.
Definition MAX_TRAILER_LINE : Z := 64 * 1024.

(** ** The framing of a refusal *)

Definition status_may_have_body (status : Z) : bool :=
  negb ((101 <=? status) && (status <=? 199) || (status =? 204) || (status =? 304)).

Section Framing.
Context `{HeaderMap H}.

(** [value.rsplit(',').next()]: the last piece. *)
Definition last_piece (value : bytes) : bytes := default [] (last (split_on COMMA value)).

Definition is_chunked (headers : H) : bool :=
  existsb (fun value =>
    match value_to_str value with
    | Some value => eq_ignore_ascii_case (trim (last_piece value)) (lit "chunked")
    | None => false
    end) (get_all (lit "transfer-encoding") headers).

Definition content_length (headers : H) : option Z :=
  match mapM (fun value => value_to_str value ≫= fun value => parse_usize (trim value))
          (get_all (lit "content-length") headers) with
  | Some (first :: rest) => if existsb (fun other => negb (other =? first)) rest then None else Some first
  | _ => None
  end.

Inductive Framing := FLength (n : Z) | FChunked | FUntilClose.

Definition framing_of (headers : H) : Framing :=
  if is_chunked headers then FChunked
  else match content_length headers with Some n => FLength n | None => FUntilClose end.
End Framing.

(** [u64::from_str_radix(text, 16)]. *)
Definition hex_digit (b : Z) : option Z :=
  if is_ascii_digit b then Some (b - 48)
  else if (97 <=? b) && (b <=? 102) then Some (b - 87)
  else if (65 <=? b) && (b <=? 70) then Some (b - 55)
  else None.
Fixpoint parse_hex_digits (acc : Z) (s : bytes) : option Z :=
  match s with
  | [] => Some acc
  | b :: s =>
      let! d := hex_digit b in
      if umax 64 <? acc * 16 + d then None else parse_hex_digits (acc * 16 + d) s
  end.
Definition parse_hex_u64 (s : bytes) : option Z :=
  match s with
  | [] | [43] | [45] => None
  | 43 :: s => parse_hex_digits 0 s
  | s => parse_hex_digits 0 s
  end.

Definition chunk_size (line : bytes) : option Z :=
  let size := match find_char 59 line with Some at_ => take at_ line | None => line end in
  let! text := from_utf8 size in
  parse_hex_u64 (trim text).

(** ** The backend's bytes, a piece at a time *)

Record BodyReader := { br_buffered : bytes; br_used : nat; br_reads : list ReadEvent }.

Definition body_reader_new (buffered : bytes) (reads : list ReadEvent) : BodyReader :=
  {| br_buffered := buffered; br_used := 0; br_reads := reads |}.
Definition pending (r : BodyReader) : bytes := drop (br_used r) (br_buffered r).

Definition reader_take_n (n : nat) (r : BodyReader) : BodyReader * bytes :=
  let end_ := Nat.min (br_used r + n) (length (br_buffered r)) in
  ({| br_buffered := br_buffered r; br_used := end_; br_reads := br_reads r |},
   take (end_ - br_used r) (drop (br_used r) (br_buffered r))).

(** [Some true] is more bytes, [Some false] the end, [None] an error; with no read
    left the deadline passes. *)
Definition reader_fill (r : BodyReader) : BodyReader * option bool :=
  let '(buffered, used) :=
    if (br_used r =? length (br_buffered r))%nat then ([], 0%nat) else (br_buffered r, br_used r) in
  let with_ buffered reads := {| br_buffered := buffered; br_used := used; br_reads := reads |} in
  match br_reads r with
  | [] => (with_ buffered [], None)
  | RBytes chunk :: reads => (with_ (buffered ++ chunk) reads, Some true)
  | REof :: reads => (with_ buffered reads, Some false)
  | (RFailed | RIdle) :: reads => (with_ buffered reads, None)
  end.

(** Fills an empty buffer; [Ok] to go on, [Err] with what ended the connection. *)
Definition need_bytes (r : BodyReader) : BodyReader * result unit (option bool) :=
  if bool_decide (pending r = []) then
    match reader_fill r with
    | (r, Some true) => (r, Ok tt)
    | (r, e) => (r, Err e)
    end
  else (r, Ok tt).

(** The loops; the outer [None] is out of fuel. *)
Fixpoint read_exact (fuel : nat) (n : nat) (out : bytes) (r : BodyReader) : option (BodyReader * bytes * bool) :=
  match fuel with
  | O => None
  | S fuel =>
      if (n <=? length out)%nat then Some (r, out, true)
      else
        match need_bytes r with
        | (r, Err _) => Some (r, out, false)
        | (r, Ok _) =>
            let '(r, taken) := reader_take_n (Nat.min (n - length out) (length (pending r))) r in
            read_exact fuel n (out ++ taken) r
        end
  end.

Inductive Line := LineIs (line : bytes) | LineEnd | LineError.

Definition strip_cr (rest : bytes) : bytes :=
  match last rest with Some 13 => take (length rest - 1) rest | _ => rest end.

Fixpoint read_line (fuel : nat) (max_ : Z) (line : bytes) (r : BodyReader) : option (BodyReader * Line) :=
  match fuel with
  | O => None
  | S fuel =>
      match need_bytes r with
      | (r, Err (Some _)) => Some (r, if bool_decide (line = []) then LineEnd else LineIs line)
      | (r, Err None) => Some (r, LineError)
      | (r, Ok _) =>
          match find_char 10 (pending r) with
          | Some at_ =>
              let '(r, rest) := reader_take_n (at_ + 1) r in
              let line := line ++ strip_cr (take (length rest - 1) rest) in
              Some (r, if max_ <? len line then LineError else LineIs line)
          | None =>
              let '(r, taken) := reader_take_n (length (pending r)) r in
              let line := line ++ taken in
              if max_ <? len line then Some (r, LineError) else read_line fuel max_ line r
          end
      end
  end.

(** Every turn of a loop uses up a byte or a read. *)
Fixpoint reads_size (reads : list ReadEvent) : nat :=
  match reads with
  | [] => 0
  | RBytes chunk :: reads => S (length chunk + reads_size reads)
  | _ :: reads => S (reads_size reads)
  end.
Definition measure (r : BodyReader) : nat := (length (pending r) + reads_size (br_reads r))%nat.
Definition reader_fuel (r : BodyReader) : nat := S (measure r).

Definition read_length (len_ : Z) (r : BodyReader) : option (bytes * bool) :=
  let want := Z.min len_ MAX_REFUSAL_BODY in
  let! '(_, bytes_, complete) := read_exact (S (reader_fuel r)) (Z.to_nat want) [] r in
  Some (bytes_, negb complete || (want <? len_)).

Fixpoint read_until_close (fuel : nat) (body : bytes) (r : BodyReader) : option (bytes * bool) :=
  match fuel with
  | O => None
  | S fuel =>
      match need_bytes r with
      | (_, Err (Some _)) => Some (body, false)
      | (_, Err None) => Some (body, true)
      | (r, Ok _) =>
          let room := MAX_REFUSAL_BODY - len body in
          if room =? 0 then Some (body, true)
          else
            let '(r, taken) := reader_take_n (Nat.min (Z.to_nat room) (length (pending r))) r in
            read_until_close fuel (body ++ taken) r
      end
  end.

(** The trailers, up to the empty line; the answer is whether the body is short. *)
Fixpoint read_trailers (fuel : nat) (r : BodyReader) : option bool :=
  match fuel with
  | O => None
  | S fuel =>
      let! '(r, line) := read_line (reader_fuel r) MAX_TRAILER_LINE [] r in
      match line with
      | LineIs [] => Some false
      | LineIs _ => read_trailers fuel r
      | LineEnd | LineError => Some true
      end
  end.

Fixpoint read_chunked (fuel : nat) (body : bytes) (r : BodyReader) : option (bytes * bool) :=
  match fuel with
  | O => None
  | S fuel =>
      let! '(r, line) := read_line (reader_fuel r) MAX_CHUNK_SIZE_LINE [] r in
      match line with
      | LineEnd | LineError => Some (body, true)
      | LineIs line =>
          match chunk_size line with
          | None => Some (body, true)
          | Some size =>
              if size =? 0 then
                let! short := read_trailers (reader_fuel r) r in Some (body, short)
              else
                let room := MAX_REFUSAL_BODY - len body in
                if room =? 0 then Some (body, true)
                else
                  let want := Z.min size room in
                  let! '(r, data, complete) := read_exact (S (reader_fuel r)) (Z.to_nat want) [] r in
                  let body := body ++ data in
                  if negb complete || negb (want =? size) then Some (body, true)
                  else
                    let! '(r, ending, complete) := read_exact (S (reader_fuel r)) 2 [] r in
                    if negb complete || negb (bool_decide (ending = [13; 10])) then Some (body, true)
                    else read_chunked fuel body r
          end
      end
  end.

(** The body of a refusal, and whether it is short; [None] is a loop that did not end. *)
Definition read_refusal_body `{HeaderMap H} (status : Z) (headers : H) (trailing : bytes) (reads : list ReadEvent)
    : option (bytes * bool) :=
  if negb (status_may_have_body status) then Some ([], false)
  else
    let r := body_reader_new trailing reads in
    match framing_of headers with
    | FLength n => read_length n r
    | FChunked => read_chunked (reader_fuel r) [] r
    | FUntilClose => read_until_close (reader_fuel r) [] r
    end.

(** ** The request a backend is sent *)

Section Upgrade.
Context `{HeaderMap H}.

Definition header_line (name value : bytes) : bytes := name ++ lit ": " ++ value ++ [13; 10].

(** The headers that go on, the host aside. *)
Definition upgrade_headers (headers : H) : list (bytes * bytes) :=
  let connection := connection_named_of headers in
  filter (fun p => negb (eq_ignore_ascii_case p.1 (lit "host")) && forwards_upgrade_header p.1 connection = true)
    (hm_iter headers).

Definition build_upgrade_request (method path : bytes) (headers : H) (info : BackendInfo) (backend_host : bytes)
    : bytes :=
  let original_host := default backend_host (get_str (lit "host") headers) in
  method ++ lit " " ++ rewritten_path info path ++ lit " HTTP/1.1" ++ [13; 10]
  ++ header_line (lit "Host") original_host
  ++ concat ((fun '(name, value) => header_line name value) <$> upgrade_headers headers) ++ [13; 10].

(** Of a request that names one host, the backend of the upgrade is told that host, and
    by no other line. *)
Lemma upgrade_told_host (headers : H) h port method path info backend_host :
  one_host headers h port ->
  exists v rest, host_and_port v = (h, port) /\
    build_upgrade_request method path headers info backend_host =
      (method ++ lit " " ++ rewritten_path info path ++ lit " HTTP/1.1" ++ [13; 10]) ++ header_line (lit "Host") v ++
      concat ((fun '(name, value) => header_line name value) <$> rest) ++ [13; 10] /\
    Forall (fun p => eq_ignore_ascii_case p.1 (lit "host") = false) rest.
Proof.
  intros (v & _ & Hv & Hp). exists v, (upgrade_headers headers). split; [done|]. split.
  - unfold build_upgrade_request. by rewrite Hv, <- !app_assoc.
  - apply Forall_forall. intros p (Hf & _)%list_elem_of_filter. apply andb_true_iff in Hf as [Hf _]. by apply negb_true_iff.
Qed.
End Upgrade.

(** ** The head of its answer *)

Inductive HandshakeRead :=
| HsRead (head trailing : bytes) (unread : list ReadEvent)
| HsFailed
| HsTimedOut.

(** The loop of [handshake]; [searched] is where the marker may still begin. *)
Fixpoint read_handshake (buf : bytes) (searched : nat) (reads : list ReadEvent) : HandshakeRead :=
  match reads with
  | [] | RIdle :: _ => HsTimedOut
  | RFailed :: _ => HsFailed
  | REof :: reads => HsRead buf [] reads
  | RBytes chunk :: reads =>
      let buf := buf ++ chunk in
      match find_headers_end buf searched with
      | Some pos => HsRead (take (pos + 4) buf) (drop (pos + 4) buf) reads
      | None =>
          if 64 * 1024 <? len buf then HsRead buf [] reads
          else read_handshake buf (length buf - 3) reads
      end
  end.

(** ** The session *)

Definition LINGERING_MS : Z := 30 * 1000.
Definition NOT_ENDED : Z := umax 64.

(** [mark_first_end]: the exchange, and whether it was made. *)
Definition mark_first_end (now first_end : Z) : Z * bool :=
  if first_end =? NOT_ENDED then (now, true) else (first_end, false).

(** Milliseconds. *)
Definition wait_for (now first_end idle : Z) : Z :=
  if first_end =? NOT_ENDED then idle
  else
    let elapsed := saturating_sub now first_end in
    if LINGERING_MS <=? elapsed then 0 else Z.min idle (LINGERING_MS - elapsed).

Inductive DirectionEnd := Finished | ReadFailed | WriteFailed | Idle | Lingering.

(** One turn of [copy_one_way]: what the clock and the shared [first_end] say as it
    starts, what the read comes back with, whether the write went through, and what
    the clock and the shared [last_traffic] say after a quiet window. *)
Record Turn := {
  tn_now : Z; tn_first_end : Z; tn_read : ReadEvent; tn_wrote : bool; tn_after : Z; tn_last_traffic : Z }.

(** The bytes that crossed, and the end; [None] while it runs. *)
Fixpoint copy_one_way (idle : Z) (turns : list Turn) : bytes * option DirectionEnd :=
  match turns with
  | [] => ([], None)
  | turn :: turns =>
      if wait_for (tn_now turn) (tn_first_end turn) idle =? 0 then ([], Some Lingering)
      else
        match tn_read turn with
        | REof => ([], Some Finished)
        | RFailed => ([], Some ReadFailed)
        | RBytes chunk =>
            if negb (tn_wrote turn) then ([], Some WriteFailed)
            else let '(out, e) := copy_one_way idle turns in (chunk ++ out, e)
        | RIdle =>
            if idle <=? saturating_sub (tn_after turn) (tn_last_traffic turn) then ([], Some Idle)
            else copy_one_way idle turns
        end
  end.

(** ** The loops end, and hold no more than the limit *)

(** A reader whose position is inside its buffer. *)
Definition reader_ok (r : BodyReader) : Prop := (br_used r <= length (br_buffered r))%nat.

Lemma reader_take_n_spec n r r' taken :
  reader_ok r -> (n <= length (pending r))%nat -> reader_take_n n r = (r', taken) ->
  reader_ok r' /\ taken = take n (pending r) /\ pending r' = drop n (pending r) /\ br_reads r' = br_reads r /\
  (measure r' + n = measure r)%nat.
Proof.
  unfold reader_ok, reader_take_n, pending, measure. rewrite length_drop. intros Hok Hn [= <- <-]. cbn [br_used br_buffered br_reads].
  replace (Nat.min (br_used r + n) (length (br_buffered r))) with (br_used r + n)%nat by lia.
  replace (br_used r + n - br_used r)%nat with n by lia. rewrite drop_drop.
  split; [lia|]. split; [done|]. split; [done|]. split; [done|].
  unfold pending. cbn [br_used br_buffered]. rewrite !length_drop. lia.
Qed.

Lemma reader_fill_spec r r' e :
  reader_ok r -> pending r = [] -> reader_fill r = (r', e) ->
  reader_ok r' /\
  match br_reads r with
  | RBytes chunk :: reads => e = Some true /\ pending r' = chunk /\ br_reads r' = reads
  | REof :: reads => e = Some false /\ pending r' = [] /\ br_reads r' = reads
  | _ :: reads => e = None /\ pending r' = [] /\ br_reads r' = reads
  | [] => e = None /\ r' = {| br_buffered := []; br_used := 0; br_reads := [] |}
  end.
Proof.
  unfold reader_ok, reader_fill, pending. intros Hok Hp.
  assert (br_used r = length (br_buffered r)) as Hu.
  { apply (f_equal length) in Hp. rewrite length_drop in Hp. cbn in Hp. lia. }
  rewrite Hu, Nat.eqb_refl. destruct (br_reads r) as [|[chunk| | |] reads]; intros [= <- <-]; cbn; auto with lia.
Qed.

Lemma need_bytes_spec r r' e :
  reader_ok r -> need_bytes r = (r', e) ->
  reader_ok r' /\ (measure r' <= measure r)%nat /\
  match e with
  | Ok _ => pending r' <> [] \/ (measure r' < measure r)%nat
  | Err e => pending r = [] /\ (is_Some e -> measure r' < measure r)%nat
  end.
Proof.
  intros Hok. unfold need_bytes. case_bool_decide as Hp; [|intros [= <- <-]; auto].
  destruct (reader_fill r) as [r1 e1] eqn:Ef. apply reader_fill_spec in Ef as [Hok1 Hc]; [|done|done].
  assert (match br_reads r with
          | [] => measure r1 = 0%nat /\ e1 = None
          | RBytes _ :: _ => e1 = Some true /\ (measure r1 < measure r)%nat
          | _ => e1 <> Some true /\ (measure r1 < measure r)%nat
          end) as Hm.
  { unfold measure. rewrite Hp. destruct (br_reads r) as [|[chunk| | |] reads].
    - destruct Hc as [-> ->]. done.
    - destruct Hc as (-> & -> & ->). cbn. split; [done|lia].
    - destruct Hc as (-> & -> & ->). cbn. split; [done|lia].
    - destruct Hc as (-> & -> & ->). cbn. split; [done|lia].
    - destruct Hc as (-> & -> & ->). cbn. split; [done|lia]. }
  destruct (br_reads r) as [|[chunk| | |] reads]; destruct e1 as [[]|]; intros [= <- <-]; naive_solver lia.
Qed.

(** A turn of a loop that takes something of what is there. *)
Lemma turn_measure r n r1 u r2 taken :
  reader_ok r -> need_bytes r = (r1, Ok u) -> (n <= length (pending r1))%nat ->
  (pending r1 <> [] -> n <> 0)%nat -> reader_take_n n r1 = (r2, taken) ->
  reader_ok r2 /\ taken = take n (pending r1) /\ (measure r2 < measure r)%nat /\ pending r2 = drop n (pending r1).
Proof.
  intros Hok Hn Hle Hne Ht. apply need_bytes_spec in Hn as (Hok1 & Hm1 & Hp); [|done].
  apply reader_take_n_spec in Ht as (Hok2 & -> & Hp2 & _ & Hm2); [|done|done].
  split_and!; try done. destruct Hp as [Hp%Hne|]; lia.
Qed.

Lemma nonempty_length {A} (l : list A) : l <> [] -> (0 < length l)%nat.
Proof. destruct l; [done|cbn; lia]. Qed.

Lemma read_exact_total n fuel : forall out r,
  reader_ok r -> (measure r < fuel)%nat ->
  exists r' data complete, read_exact fuel n out r = Some (r', data, complete) /\
    reader_ok r' /\ (measure r' <= measure r)%nat /\ (length data <= Nat.max n (length out))%nat.
Proof.
  induction fuel as [|fuel IH]; intros out r Hok Hf; [lia|]. cbn [read_exact].
  destruct (Nat.leb_spec n (length out)). { eexists _, _, _. split_and!; [done|done|lia|lia]. }
  destruct (need_bytes r) as [r1 [u|e]] eqn:En; cycle 1.
  { apply need_bytes_spec in En as (Hok1 & Hm1 & _); [|done]. eexists _, _, _. split_and!; [done|done|lia|lia]. }
  destruct (reader_take_n _ r1) as [r2 taken] eqn:Et.
  eapply turn_measure in Et as (Hok2 & -> & Hm2 & _); [|done|done|lia|intros ?%nonempty_length; lia].
  destruct (IH (out ++ take (Nat.min (n - length out) (length (pending r1))) (pending r1)) r2)
    as (r3 & data & c & E & Hok3 & Hm3 & Hl); [done|lia|].
  eexists _, _, _. split; [done|]. rewrite length_app, length_take in Hl. split_and!; [done|lia|lia].
Qed.

Lemma read_line_total max_ fuel : forall line r,
  reader_ok r -> (measure r < fuel)%nat ->
  exists r' l, read_line fuel max_ line r = Some (r', l) /\ reader_ok r' /\
    (forall x, l = LineIs x -> measure r' < measure r)%nat.
Proof.
  induction fuel as [|fuel IH]; intros line r Hok Hf; [lia|]. cbn [read_line].
  destruct (need_bytes r) as [r1 [u|[e|]]] eqn:En.
  - destruct (find_char 10 (pending r1)) as [at_|] eqn:Ec.
    + apply find_char_Some in Ec as (a & b & Hp & Hl & _).
      assert (at_ + 1 <= length (pending r1))%nat by (rewrite Hp, length_app; cbn; lia).
      destruct (reader_take_n (at_ + 1) r1) as [r2 rest] eqn:Et.
      eapply turn_measure in Et as (Hok2 & _ & Hm2 & _); [|done|done|done|lia].
      eexists _, _. split_and!; [done|done|]. intros x _. lia.
    + destruct (reader_take_n _ r1) as [r2 taken] eqn:Et.
      eapply turn_measure in Et as (Hok2 & _ & Hm2 & _); [|done|done|lia|intros ?%nonempty_length; lia].
      destruct (max_ <? len (line ++ taken)); [by eexists _, _|].
      destruct (IH (line ++ taken) r2 Hok2) as (r3 & l & E & Hok3 & Hl); [lia|].
      eexists _, _. split_and!; [done|done|]. intros x Hx. specialize (Hl x Hx). lia.
  - apply need_bytes_spec in En as (Hok1 & Hm1 & _ & Hs); [|done]. eexists _, _. split_and!; [done|done|].
    intros x _. by apply Hs.
  - apply need_bytes_spec in En as (Hok1 & _); [|done]. by eexists _, _.
Qed.

Lemma read_trailers_total fuel : forall r,
  reader_ok r -> (measure r < fuel)%nat -> is_Some (read_trailers fuel r).
Proof.
  induction fuel as [|fuel IH]; intros r Hok Hf; [lia|]. cbn [read_trailers].
  destruct (read_line_total MAX_TRAILER_LINE (reader_fuel r) [] r Hok) as (r' & l & -> & Hok' & Hm);
    [unfold reader_fuel; lia|].
  destruct l as [[|b line]| |]; try by eexists. apply IH; [done|]. specialize (Hm _ eq_refl). lia.
Qed.

Lemma read_until_close_total fuel : forall body r,
  reader_ok r -> (measure r < fuel)%nat -> len body <= MAX_REFUSAL_BODY ->
  exists out short, read_until_close fuel body r = Some (out, short) /\ len out <= MAX_REFUSAL_BODY.
Proof.
  induction fuel as [|fuel IH]; intros body r Hok Hf Hl; [lia|]. cbn [read_until_close].
  destruct (need_bytes r) as [r1 [u|[e|]]] eqn:En; [|by eexists _, _|by eexists _, _].
  destruct (Z.eqb_spec (MAX_REFUSAL_BODY - len body) 0) as [|Hroom]; [by eexists _, _|].
  destruct (reader_take_n _ r1) as [r2 taken] eqn:Et.
  eapply turn_measure in Et as (Hok2 & -> & Hm2 & _); [|done|done|lia|intros ?%nonempty_length; lia].
  apply IH; [done|lia|]. rewrite len_app. unfold len at 2. rewrite length_take. lia.
Qed.

Lemma read_chunked_total fuel : forall body r,
  reader_ok r -> (measure r < fuel)%nat -> len body <= MAX_REFUSAL_BODY ->
  exists out short, read_chunked fuel body r = Some (out, short) /\ len out <= MAX_REFUSAL_BODY.
Proof.
  induction fuel as [|fuel IH]; intros body r Hok Hf Hl; [lia|]. cbn [read_chunked].
  destruct (read_line_total MAX_CHUNK_SIZE_LINE (reader_fuel r) [] r Hok) as (r1 & l & -> & Hok1 & Hm1);
    [unfold reader_fuel; lia|].
  destruct l as [line| |]; [|by eexists _, _|by eexists _, _]. specialize (Hm1 _ eq_refl).
  destruct (chunk_size line) as [size|]; [|by eexists _, _].
  destruct (size =? 0).
  { destruct (read_trailers_total (reader_fuel r1) r1 Hok1) as [short ->];
      [unfold reader_fuel; lia|by eexists _, _]. }
  destruct (Z.eqb_spec (MAX_REFUSAL_BODY - len body) 0) as [|Hroom]; [by eexists _, _|].
  destruct (read_exact_total (Z.to_nat (Z.min size (MAX_REFUSAL_BODY - len body))) (S (reader_fuel r1)) [] r1 Hok1)
    as (r2 & data & c & -> & Hok2 & Hm2 & Hd); [unfold reader_fuel; lia|].
  assert (len (body ++ data) <= MAX_REFUSAL_BODY) as Hb by (rewrite len_app; unfold len at 2; cbn [length] in Hd; lia).
  destruct (negb c || _); [by eexists _, _|].
  destruct (read_exact_total 2 (S (reader_fuel r2)) [] r2 Hok2) as (r3 & ending & c3 & -> & Hok3 & Hm3 & _);
    [unfold reader_fuel; lia|].
  destruct (negb c3 || _); [by eexists _, _|]. apply IH; [done|lia|done].
Qed.

Lemma read_refusal_body_total `{HeaderMap H} status (headers : H) trailing reads :
  exists out short, read_refusal_body status headers trailing reads = Some (out, short) /\
    len out <= MAX_REFUSAL_BODY.
Proof.
  unfold read_refusal_body. destruct (negb _); [by eexists _, _|].
  set (r := body_reader_new trailing reads). assert (reader_ok r) as Hok by (unfold reader_ok; cbn; lia).
  assert (measure r < reader_fuel r)%nat as Hf by (unfold reader_fuel; lia).
  destruct (framing_of headers) as [n| |]; [|by apply read_chunked_total|by apply read_until_close_total].
  unfold read_length. destruct (read_exact_total (Z.to_nat (Z.min n MAX_REFUSAL_BODY)) (S (reader_fuel r)) [] r Hok)
    as (r' & data & c & -> & _ & _ & Hd); [lia|].
  eexists _, _. split; [done|]. unfold len, MAX_REFUSAL_BODY in *. cbn [length] in Hd. lia.
Qed.

(** ** A chunked refusal, however it is cut into reads *)

(** The reader has these bytes ahead, the rest of them in these reads. *)
Record feeds (r : BodyReader) (cs : list bytes) (after : list ReadEvent) (s : bytes) : Prop := {
  fd_ok : reader_ok r;
  fd_reads : br_reads r = (RBytes <$> cs) ++ after;
  fd_nonempty : Forall (fun c => c <> []) cs;
  fd_bytes : pending r ++ concat cs = s;
}.

(** One read ends [k] bytes ahead. *)
Definition cut (r : BodyReader) (cs : list bytes) (k : nat) : Prop :=
  exists i, length (pending r ++ concat (take i cs)) = k.

Lemma need_bytes_feeds r cs after s :
  feeds r cs after s -> s <> [] ->
  exists r1 cs1, need_bytes r = (r1, Ok tt) /\ feeds r1 cs1 after s /\ pending r1 <> [] /\
    (measure r1 <= measure r)%nat /\ (forall k, cut r1 cs1 k -> cut r cs k).
Proof.
  intros [Hok Hr Hne Hb] Hs. unfold need_bytes. case_bool_decide as Hp.
  2:{ exists r, cs. split; [done|]. by split_and!. }
  destruct cs as [|c cs]; [by rewrite Hp in Hb; subst s|].
  destruct (reader_fill r) as [r1 e] eqn:Ef. apply reader_fill_spec in Ef as [Hok1 Hc]; [|done|done].
  rewrite Hr in Hc. cbn in Hc. destruct Hc as (-> & Hp1 & Hr1). apply Forall_cons in Hne as [Hc Hne].
  exists r1, cs. split; [done|]. split; [split; try done|].
  - rewrite Hp1. rewrite Hp in Hb. exact Hb.
  - split; [by rewrite Hp1|]. split.
    + unfold measure. rewrite Hp, Hr, Hp1, Hr1. cbn. lia.
    + intros k [i Hi]. exists (S i). rewrite Hp. rewrite Hp1 in Hi. exact Hi.
Qed.

Lemma take_feeds r cs after s n r' taken :
  feeds r cs after s -> (n <= length (pending r))%nat -> reader_take_n n r = (r', taken) ->
  taken = take n s /\ feeds r' cs after (drop n s) /\ (measure r' + n = measure r)%nat /\
  (forall k, cut r' cs k -> cut r cs (n + k)).
Proof.
  intros [Hok Hr Hne Hb] Hn Ht. apply reader_take_n_spec in Ht as (Hok' & -> & Hp' & Hr' & Hm); [|done|done].
  subst s. rewrite take_app_le, drop_app_le by done. split; [done|]. split; [|split; [done|]].
  - split; [done|congruence|done|by rewrite Hp'].
  - intros k [i Hi]. exists i. rewrite Hp' in Hi. rewrite length_app, length_drop in Hi. rewrite length_app. lia.
Qed.

Lemma read_exact_feeds after fuel n : forall out r cs x rest,
  feeds r cs after (x ++ rest) -> (length out + length x = n)%nat -> (measure r < fuel)%nat ->
  exists r' cs', read_exact fuel n out r = Some (r', out ++ x, true) /\ feeds r' cs' after rest /\
    (measure r' <= measure r)%nat /\ (forall k, cut r' cs' k -> cut r cs (length x + k)).
Proof.
  induction fuel as [|fuel IH]; intros out r cs x rest Hf Hn Hfuel; [lia|]. cbn [read_exact].
  destruct (Nat.leb_spec n (length out)).
  { assert (x = []) as -> by (destruct x; [done|cbn in Hn; lia]). exists r, cs. by rewrite app_nil_r. }
  assert (x ++ rest <> []) as Hne by (destruct x; [cbn in Hn; lia|done]).
  destruct (need_bytes_feeds _ _ _ _ Hf Hne) as (r1 & cs1 & -> & Hf1 & Hp1 & Hm1 & Hc1).
  set (m := Nat.min (n - length out) (length (pending r1))).
  destruct (reader_take_n m r1) as [r2 taken] eqn:Et.
  apply nonempty_length in Hp1.
  eapply take_feeds in Et as (-> & Hf2 & Hm2 & Hc2); [|exact Hf1|lia].
  assert (m <= length x)%nat as Hmx by lia. rewrite take_app_le, drop_app_le in * by done.
  destruct (IH (out ++ take m x) r2 cs1 (drop m x) rest Hf2) as (r3 & cs3 & -> & Hf3 & Hm3 & Hc3).
  - rewrite length_app, length_take, length_drop. lia.
  - lia.
  - exists r3, cs3. rewrite <- app_assoc, take_drop. split; [done|]. split; [done|]. split; [lia|].
    intros k Hk. apply Hc1. replace (length x + k)%nat with (m + (length (drop m x) + k))%nat
      by (rewrite length_drop; lia). auto.
Qed.

Lemma strip_cr_snoc l : strip_cr (l ++ [13]) = l.
Proof.
  unfold strip_cr. rewrite last_snoc, length_app. cbn. rewrite Nat.add_sub. apply take_app_len.
Qed.

Lemma strip_cr_app p m : m <> [] -> strip_cr (p ++ m) = p ++ strip_cr m.
Proof.
  intros Hm. destruct (exists_last Hm) as (m' & b & ->). unfold strip_cr. rewrite app_assoc, !last_snoc.
  assert (forall q : bytes, take (length (q ++ [b]) - 1) (q ++ [b]) = q) as Ht.
  { intros q. rewrite length_app. cbn. rewrite Nat.add_sub. apply take_app_len. }
  destruct (decide (b = 13)) as [->|Hb]; [by rewrite !Ht|]. repeat case_match; simplify_eq; by rewrite app_assoc.
Qed.

Lemma read_line_feeds after max_ fuel : forall line r cs m rest,
  feeds r cs after (m ++ 10 :: rest) -> 10 ∉ m -> len line + len m <= max_ -> (measure r < fuel)%nat ->
  exists r' cs' l, read_line fuel max_ line r = Some (r', LineIs (line ++ l)) /\ feeds r' cs' after rest /\
    (l = strip_cr m \/ (l = m /\ cut r cs (length m))) /\
    (measure r' < measure r)%nat /\ (forall k, cut r' cs' k -> cut r cs (S (length m) + k)).
Proof.
  induction fuel as [|fuel IH]; intros line r cs m rest Hf Hm Hl Hfuel; [lia|]. cbn [read_line].
  destruct (need_bytes_feeds _ _ _ _ Hf ltac:(by destruct m)) as (r1 & cs1 & -> & Hf1 & Hp1 & Hm1 & Hc1).
  destruct (find_char 10 (pending r1)) as [at_|] eqn:Ec.
  - apply find_char_Some in Ec as (a & b & Hp & Hat & Ha).
    assert (a = m /\ b ++ concat cs1 = rest) as [-> Hb].
    { pose proof (fd_bytes _ _ _ _ Hf1) as E. rewrite Hp, <- app_assoc in E. cbn in E.
      clear -E Ha Hm. revert m E Hm. induction a as [|x a IH]; intros [|y m] E Hm; cbn in E; simplify_eq; auto.
      - by apply not_elem_of_cons in Hm as [].
      - by apply not_elem_of_cons in Ha as [].
      - apply not_elem_of_cons in Ha as [_ Ha]. apply not_elem_of_cons in Hm as [_ Hm].
        destruct (IH Ha m) as [-> ?]; auto. }
    destruct (reader_take_n (at_ + 1) r1) as [r2 taken] eqn:Et.
    eapply take_feeds in Et as (-> & Hf2 & Hm2 & Hc2); [|exact Hf1|rewrite Hp, length_app; cbn; lia].
    assert (take (at_ + 1) (m ++ 10 :: rest) = m ++ [10]) as ->.
    { rewrite cons_middle, app_assoc. rewrite take_app_le by (rewrite length_app; cbn; lia).
      apply take_ge. rewrite length_app. cbn. lia. }
    assert (drop (at_ + 1) (m ++ 10 :: rest) = rest) as Hd.
    { rewrite cons_middle, app_assoc. apply drop_app_length'. rewrite length_app. cbn. lia. }
    rewrite Hd in Hf2. rewrite length_app. cbn [length]. rewrite Nat.add_sub, take_app_len.
    assert (len (line ++ strip_cr m) <= max_) as Hle.
    { rewrite len_app. assert (len (strip_cr m) <= len m); [|lia]. unfold strip_cr.
      repeat case_match; try lia. unfold len. rewrite length_take. lia. }
    destruct (Z.ltb_spec max_ (len (line ++ strip_cr m))); [lia|].
    exists r2, cs1, (strip_cr m). split_and!; auto; [lia|].
    intros k Hk. apply Hc1. replace (S (length m) + k)%nat with (at_ + 1 + k)%nat by lia. auto.
  - apply find_char_none in Ec. destruct (reader_take_n (length (pending r1)) r1) as [r2 taken] eqn:Et.
    eapply take_feeds in Et as (-> & Hf2 & Hm2 & Hc2); [|exact Hf1|done].
    pose proof (fd_bytes _ _ _ _ Hf1) as E.
    assert (exists m', m = pending r1 ++ m') as [m' Em].
    { clear -E Ec. revert m E. induction (pending r1) as [|x p IH]; intros m E; [by exists m|].
      apply not_elem_of_cons in Ec as [Hx Ec]. destruct m as [|y m]; cbn in E; simplify_eq.
      destruct (IH Ec m) as [m' ->]; auto. by exists m'. }
    subst m. rewrite <- app_assoc, take_app_len, drop_app_len in *. apply nonempty_length in Hp1.
    rewrite len_app in Hl. pose proof (len_nonneg m').
    destruct (Z.ltb_spec max_ (len (line ++ pending r1))) as [Hbad|_]; [rewrite len_app in Hbad; lia|].
    destruct (IH (line ++ pending r1) r2 cs1 m' rest Hf2) as (r3 & cs3 & l & -> & Hf3 & Hcase & Hm3 & Hc3).
    { intros Hin. apply Hm. apply elem_of_app. auto. }
    { rewrite len_app. lia. }
    { lia. }
    exists r3, cs3, (pending r1 ++ l). rewrite <- app_assoc. split; [done|]. split; [done|].
    rewrite !length_app. split; [|split; [lia|]].
    + destruct (decide (m' = [])) as [->|Hm'].
      * right. assert (l = []) as -> by (destruct Hcase as [->|[-> _]]; done). split; [done|].
        apply Hc1. exists 0%nat. cbn. by rewrite !app_nil_r, Nat.add_0_r.
      * destruct Hcase as [->|[-> Hcut]]; [left; by rewrite strip_cr_app|right]. split; [done|]. apply Hc1. auto.
    + intros k Hk. apply Hc1. replace (S (length (pending r1) + length m') + k)%nat
        with (length (pending r1) + (S (length m') + k))%nat by lia. auto.
Qed.

(** A size line: hexadecimal digits, and maybe an extension. *)
Definition is_hex (b : Z) : bool := is_some (hex_digit b).
Definition size_line (line : bytes) (size : Z) : Prop :=
  exists digits ext, line = digits ++ ext /\ digits <> [] /\ Forall (fun b => is_hex b = true) digits /\
    (ext = [] \/ exists e, ext = 59 :: e) /\ parse_hex_digits 0 digits = Some size.

Lemma is_hex_range b : is_hex b = true -> 48 <= b <= 57 \/ 65 <= b <= 70 \/ 97 <= b <= 102.
Proof.
  unfold is_hex, hex_digit, is_ascii_digit. repeat case_match; bools; cbn; try done; lia.
Qed.

Lemma strip_any_None (strip : bytes -> bytes -> option bytes) ts s :
  Forall (fun w => strip w s = None) ts -> strip_any strip ts s = None.
Proof. induction 1 as [|w ts Hw _ IH]; [done|]. cbn. by rewrite Hw. Qed.

Lemma strip_prefix_hex b s : is_hex b = true -> strip_any strip_prefix ws_chars (b :: s) = None.
Proof.
  intros Hb%is_hex_range. apply strip_any_None. unfold ws_chars.
  repeat constructor; cbn; repeat case_match; try done; bools; lia.
Qed.

Lemma strip_suffix_hex s b : is_hex b = true -> strip_any strip_suffix ws_chars (s ++ [b]) = None.
Proof.
  intros Hb%is_hex_range. apply strip_any_None. unfold ws_chars, strip_suffix.
  repeat constructor; rewrite reverse_snoc; cbn; repeat case_match; try done; bools; lia.
Qed.

Lemma strip_suffix_cr s : strip_any strip_suffix ws_chars (s ++ [13]) = Some s.
Proof.
  unfold ws_chars, strip_suffix. cbn. rewrite reverse_snoc. cbn. by rewrite reverse_involutive.
Qed.

Lemma strip_all_None fuel strip s : strip_any strip ws_chars s = None -> strip_all fuel strip s = s.
Proof. intros E. destruct fuel; [done|]. cbn [strip_all]. by rewrite E. Qed.

Lemma trim_hex digits :
  digits <> [] -> Forall (fun b => is_hex b = true) digits ->
  trim digits = digits /\ trim (digits ++ [13]) = digits.
Proof.
  intros Hne Hall. destruct digits as [|b d]; [done|].
  assert (is_hex b = true) as Hb by by inversion Hall.
  destruct (exists_last Hne) as (d' & z & Ez). rewrite Ez in Hall.
  assert (is_hex z = true) as Hz by (apply Forall_app in Hall as [_ Hz]; by inversion Hz).
  unfold trim. rewrite (strip_all_None _ strip_prefix (b :: d)) by by apply strip_prefix_hex.
  change ((b :: d) ++ [13]) with (b :: (d ++ [13])).
  rewrite (strip_all_None _ strip_prefix (b :: (d ++ [13]))) by by apply strip_prefix_hex.
  change (b :: (d ++ [13])) with ((b :: d) ++ [13]). rewrite Ez. split.
  - apply strip_all_None. by apply strip_suffix_hex.
  - rewrite length_app, Nat.add_comm. cbn [length Nat.add strip_all]. rewrite strip_suffix_cr.
    apply strip_all_None. by apply strip_suffix_hex.
Qed.

Lemma hex_ascii digits : Forall (fun b => is_hex b = true) digits -> 59 ∉ digits /\ utf8_valid digits = true.
Proof.
  intros Hall. split.
  - intros Hin. rewrite Forall_forall in Hall. by specialize (Hall _ Hin).
  - apply utf8_valid_ascii. eapply Forall_impl; [exact Hall|]. intros b Hb%is_hex_range. unfold in_range. lia.
Qed.

Lemma parse_hex_line digits :
  digits <> [] -> Forall (fun b => is_hex b = true) digits -> parse_hex_u64 digits = parse_hex_digits 0 digits.
Proof.
  intros Hne Hall. destruct digits as [|b d]; [done|]. inversion Hall as [|? ? Hb]; subst. unfold parse_hex_u64.
  repeat case_match; subst; done.
Qed.

Lemma chunk_size_line line size :
  size_line line size -> chunk_size line = Some size /\ chunk_size (line ++ [13]) = Some size.
Proof.
  intros (digits & ext & -> & Hne & Hall & Hext & Hp).
  destruct (hex_ascii _ Hall) as [Hsemi Hutf]. destruct (trim_hex _ Hne Hall) as [Ht Ht13].
  assert (forall e, chunk_size (digits ++ 59 :: e) = Some size) as Hx.
  { intros e. unfold chunk_size. rewrite find_char_app, take_app_len by done. unfold from_utf8. rewrite Hutf, Ht.
    by rewrite parse_hex_line. }
  destruct Hext as [->|[e ->]].
  - rewrite app_nil_r. assert (forall s, 59 ∉ s -> find_char 59 s = None) as Hn.
    { intros s Hs. destruct (find_char 59 s) eqn:E; [|done]. apply find_char_Some in E as (h & r & -> & _ & _).
      set_solver. }
    unfold chunk_size. rewrite !Hn by set_solver. unfold from_utf8.
    rewrite Hutf. replace (utf8_valid (digits ++ [13])) with true.
    2:{ symmetry. apply utf8_valid_ascii. apply Forall_app. split; [|by repeat constructor].
        eapply Forall_impl; [exact Hall|]. intros b Hb%is_hex_range. unfold in_range. lia. }
    by rewrite Ht, Ht13, parse_hex_line.
  - rewrite <- app_assoc. cbn. by split; apply Hx.
Qed.

Definition CRLF : bytes := [13; 10].
Definition encode_chunk (c : bytes * bytes) : bytes := c.1 ++ CRLF ++ c.2 ++ CRLF.
Definition encode_trailers (trailers : list bytes) : bytes := concat ((fun l => l ++ CRLF) <$> trailers) ++ CRLF.
Definition encode_chunked (chunks : list (bytes * bytes)) (last_ : bytes) (trailers : list bytes) : bytes :=
  concat (encode_chunk <$> chunks) ++ last_ ++ CRLF ++ encode_trailers trailers.

Definition line_ok (max_ : Z) (line : bytes) : Prop := 10 ∉ line /\ len line < max_.
Definition chunk_ok (c : bytes * bytes) : Prop :=
  c.2 <> [] /\ line_ok MAX_CHUNK_SIZE_LINE c.1 /\ size_line c.1 (len c.2).

(** A cut at the same place, counted another way. *)
Ltac same_cut Hcut :=
  repeat (progress (rewrite ?length_app in Hcut; rewrite ?length_app; cbn [CRLF length] in *));
  match goal with |- cut _ _ ?a =>
    match type of Hcut with cut _ _ ?b => replace a with b by lia; exact Hcut end end.

(** A line that ends in a carriage return and a line feed. *)
Lemma read_line_crlf after max_ r cs line rest :
  feeds r cs after (line ++ CRLF ++ rest) -> line_ok max_ line ->
  exists r' cs' l, read_line (reader_fuel r) max_ [] r = Some (r', LineIs l) /\ feeds r' cs' after rest /\
    (l = line \/ (l = line ++ [13] /\ cut r cs (S (length line)))) /\
    (measure r' < measure r)%nat /\ (forall k, cut r' cs' k -> cut r cs (length (line ++ CRLF) + k)).
Proof.
  intros Hf [Hline Hlen].
  replace (line ++ CRLF ++ rest) with ((line ++ [13]) ++ 10 :: rest) in Hf by by rewrite <- app_assoc.
  destruct (read_line_feeds after max_ (reader_fuel r) [] r cs (line ++ [13]) rest Hf)
    as (r' & cs' & l & E & Hf' & Hl & Hm & Hc).
  - set_solver.
  - rewrite len_app, !len_cons, !len_nil. lia.
  - unfold reader_fuel. lia.
  - rewrite strip_cr_snoc in Hl. rewrite length_app in Hl, Hc. cbn [length] in Hl, Hc.
    rewrite Nat.add_1_r in Hl, Hc. exists r', cs', l. split; [exact E|]. split; [done|]. split; [done|].
    split; [done|]. intros k Hk. rewrite length_app. cbn [CRLF length].
    replace (length line + 2 + k)%nat with (S (S (length line) + k)) by lia. exact (Hc k Hk).
Qed.

Lemma read_trailers_feeds after fuel trailers : forall r cs rest,
  feeds r cs after (encode_trailers trailers ++ rest) ->
  Forall (fun l => l <> [] /\ line_ok MAX_TRAILER_LINE l) trailers -> (measure r < fuel)%nat ->
  exists short, read_trailers fuel r = Some short /\
    (~ cut r cs (length (encode_trailers trailers) - 1) -> short = false).
Proof.
  revert fuel. induction trailers as [|t trailers IH]; intros [|fuel] r cs rest Hf Hall Hfuel; try lia.
  - pose proof (read_trailers_total (S fuel) r (fd_ok _ _ _ _ Hf) Hfuel) as [short Hs].
    exists short. split; [done|]. intros Hcut. cbn [read_trailers] in Hs.
    destruct (read_line_crlf after MAX_TRAILER_LINE r cs [] rest Hf) as (r' & cs' & l & E & _ & Hl & _).
    { split; [set_solver|done]. }
    rewrite E in Hs. destruct Hl as [->|[-> Hbad]]; [by simplify_eq|]. by destruct Hcut.
  - apply Forall_cons in Hall as [[Hne Hok] Hall]. unfold encode_trailers in Hf. rewrite fmap_cons in Hf.
    cbn [concat] in Hf. rewrite <- !app_assoc in Hf.
    destruct (read_line_crlf _ _ _ _ _ _ Hf Hok) as (r' & cs' & l & E & Hf' & Hl & Hm & Hc).
    cbn [read_trailers]. rewrite E.
    assert (l <> []) as Hlne by (destruct Hl as [->|[-> _]]; [done|by destruct t]).
    destruct l as [|b l]; [done|].
    destruct (IH fuel r' cs' rest) as (short & -> & Hs); [|done|lia|].
    + unfold encode_trailers. by rewrite <- app_assoc.
    + exists short. split; [done|]. intros Hcut. apply Hs. intros Hbad. apply Hcut. apply Hc in Hbad.
      unfold encode_trailers in *. rewrite fmap_cons. cbn [concat]. same_cut Hbad.
Qed.

Lemma read_chunked_feeds after chunks last_ trailers rest :
  Forall chunk_ok chunks -> line_ok MAX_CHUNK_SIZE_LINE last_ -> size_line last_ 0 ->
  Forall (fun l => l <> [] /\ line_ok MAX_TRAILER_LINE l) trailers ->
  forall fuel body r cs,
  feeds r cs after (encode_chunked chunks last_ trailers ++ rest) -> (measure r < fuel)%nat ->
  len body + len (concat (snd <$> chunks)) <= MAX_REFUSAL_BODY ->
  exists short, read_chunked fuel body r = Some (body ++ concat (snd <$> chunks), short) /\
    (~ cut r cs (length (encode_chunked chunks last_ trailers) - 1) -> short = false).
Proof.
  intros Hchunks Hlast Hsize Htrail. induction chunks as [|[line data] chunks IH];
    intros [|fuel] body r cs Hf Hfuel Hlen; try lia; unfold encode_chunked in Hf; cbn [read_chunked].
  - cbn [fmap list_fmap concat app] in Hf. rewrite <- !app_assoc in Hf.
    destruct (read_line_crlf _ _ _ _ _ _ Hf Hlast) as (r1 & cs1 & l & -> & Hf1 & Hl & Hm1 & Hc1).
    destruct (chunk_size_line _ _ Hsize) as [Hs1 Hs2].
    assert (chunk_size l = Some 0) as -> by (destruct Hl as [->|[-> _]]; done). cbn [Z.eqb].
    destruct (read_trailers_feeds after (reader_fuel r1) trailers r1 cs1 rest Hf1 Htrail) as (short & -> & Hs);
      [unfold reader_fuel; lia|].
    exists short. cbn. rewrite app_nil_r. split; [done|]. intros Hcut. apply Hs. intros Hbad. apply Hcut.
    apply Hc1 in Hbad. unfold encode_chunked. cbn [fmap list_fmap concat app].
    unfold encode_trailers in *. same_cut Hbad.
  - apply Forall_cons in Hchunks as [(Hne & Hline & Hsz) Hchunks]. specialize (IH Hchunks). cbn [fst snd] in *.
    rewrite fmap_cons in Hf. cbn [concat] in Hf. unfold encode_chunk at 1 in Hf. cbn [fst snd] in Hf.
    rewrite <- !app_assoc in Hf.
    destruct (read_line_crlf _ _ _ _ _ _ Hf Hline) as (r1 & cs1 & l & -> & Hf1 & Hl & Hm1 & Hc1).
    destruct (chunk_size_line _ _ Hsz) as [Hs1 Hs2].
    assert (chunk_size l = Some (len data)) as -> by (destruct Hl as [->|[-> _]]; done).
    rewrite !fmap_cons in *. cbn [concat snd] in *. rewrite len_app in Hlen.
    pose proof (len_nonneg (concat (snd <$> chunks))).
    assert (0 < len data) as Hpos by (apply nonempty_length in Hne; unfold len; lia).
    destruct (Z.eqb_spec (len data) 0); [lia|].
    destruct (Z.eqb_spec (MAX_REFUSAL_BODY - len body) 0); [lia|].
    rewrite Z.min_l by lia.
    destruct (read_exact_feeds after (S (reader_fuel r1)) (Z.to_nat (len data)) [] r1 cs1 data _ Hf1)
      as (r2 & cs2 & -> & Hf2 & Hm2 & Hc2); [unfold len; cbn; lia|unfold reader_fuel; lia|].
    cbn [negb orb app]. rewrite Z.eqb_refl. cbn [negb orb].
    destruct (read_exact_feeds after (S (reader_fuel r2)) 2 [] r2 cs2 CRLF _ Hf2)
      as (r3 & cs3 & -> & Hf3 & Hm3 & Hc3); [done|unfold reader_fuel; lia|].
    cbn [negb orb app]. rewrite bool_decide_true by done. cbn [negb].
    destruct (IH fuel (body ++ data) r3 cs3) as (short & -> & Hs); [|lia|rewrite len_app; lia|].
    + unfold encode_chunked. by rewrite <- !app_assoc.
    + exists short. rewrite <- app_assoc. split; [done|]. intros Hcut. apply Hs. intros Hbad. apply Hcut.
      apply Hc3, Hc2, Hc1 in Hbad. unfold encode_chunked in *. rewrite fmap_cons. cbn [concat].
      unfold encode_chunk at 1. cbn [fst snd]. unfold encode_trailers in *.
      same_cut Hbad.
Qed.

(** the body of a refused upgrade.  Reading it ends, whatever the backend sends
    and however it is cut into reads, and holds at most sixteen kilobytes.  A chunked
    refusal within that limit, with any extensions and trailers, comes out as exactly
    the bytes of its chunks wherever the reads cut it; and it is known to be whole
    unless a read ends between the carriage return and the line feed of the last
    line. *)
Theorem refusal_body_intact `{HeaderMap H} (headers : H) status trailing reads :
  (exists out short, read_refusal_body status headers trailing reads = Some (out, short) /\
     len out <= MAX_REFUSAL_BODY) /\
  (forall chunks last_ trailers pieces after rest,
     status_may_have_body status = true -> is_chunked headers = true ->
     Forall chunk_ok chunks -> line_ok MAX_CHUNK_SIZE_LINE last_ -> size_line last_ 0 ->
     Forall (fun l => l <> [] /\ line_ok MAX_TRAILER_LINE l) trailers ->
     len (concat (snd <$> chunks)) <= MAX_REFUSAL_BODY ->
     reads = (RBytes <$> pieces) ++ after -> Forall (fun c => c <> []) pieces ->
     trailing ++ concat pieces = encode_chunked chunks last_ trailers ++ rest ->
     exists short, read_refusal_body status headers trailing reads = Some (concat (snd <$> chunks), short) /\
       ((forall i, length (trailing ++ concat (take i pieces)) <>
                   (length (encode_chunked chunks last_ trailers) - 1)%nat) -> short = false)).
Proof.
  split; [apply read_refusal_body_total|].
  intros chunks last_ trailers pieces after rest Hst Hch Hck Hlast Hsize Htr Hlen -> Hne Hbytes.
  unfold read_refusal_body, framing_of. rewrite Hst, Hch. cbn [negb].
  set (r := body_reader_new trailing ((RBytes <$> pieces) ++ after)).
  destruct (read_chunked_feeds after chunks last_ trailers rest Hck Hlast Hsize Htr (reader_fuel r) [] r pieces)
    as (short & -> & Hs).
  - split; [unfold reader_ok; cbn; lia|done|done|exact Hbytes].
  - unfold reader_fuel. lia.
  - done.
  - exists short. split; [done|]. intros Hno. apply Hs. intros [i Hi]. by eapply Hno.
Qed.

(** The same refusal, its last line cut in two: the client is told the body is
    short, and the read has waited for more. *)
Lemma refusal_cut_in_the_last_line :
  let headers := [(lit "transfer-encoding", lit "chunked")] in
  let sent := lit "2" ++ CRLF ++ lit "no" ++ CRLF ++ lit "0" ++ CRLF in
  read_refusal_body 403 headers [] [RBytes (sent ++ [13; 10])] = Some (lit "no", false) /\
  read_refusal_body 403 headers [] [RBytes (sent ++ [13]); RBytes [10]; RIdle] = Some (lit "no", true).
Proof. vm_compute. done. Qed.

(** ** The head, however it is cut *)

Lemma find_blank_line_spec s pos :
  find_blank_line s = Some pos <->
  take 4 (drop pos s) = [13; 10; 13; 10] /\ forall i, (i < pos)%nat -> take 4 (drop i s) <> [13; 10; 13; 10].
Proof.
  revert pos. induction s as [|b s IH]; intros pos; cbn [find_blank_line]; case_bool_decide as E.
  - done.
  - split; [done|]. intros [Hp _]. by destruct pos.
  - split; [intros [= <-]; split; [done|lia]|]. intros [Hp Hno]. destruct pos; [done|].
    by destruct (Hno 0%nat ltac:(lia)).
  - destruct (find_blank_line s) as [q|] eqn:Eq; cbn.
    + destruct (proj1 (IH q) eq_refl) as [Hq Hno]. split.
      * intros [= <-]. split; [done|]. intros [|i] Hi; [done|]. apply Hno. lia.
      * intros [Hp Hnop]. destruct pos as [|pos]; [done|]. do 2 f_equal.
        destruct (Nat.lt_trichotomy q pos) as [Hlt|[->|Hlt]]; [|done|].
        -- by destruct (Hnop (S q) ltac:(lia)).
        -- by destruct (Hno pos Hlt).
    + split; [done|]. intros [Hp Hnop]. destruct pos as [|pos]; [done|].
      assert (None = Some pos) as [=]. apply IH. split; [done|]. intros i Hi. by apply (Hnop (S i)); lia.
Qed.

(** Searching from where the marker may still begin finds what searching it all finds. *)
Lemma find_headers_end_from buf chunk :
  find_blank_line buf = None ->
  find_headers_end (buf ++ chunk) (length buf - 3) = find_blank_line (buf ++ chunk).
Proof.
  intros Hnone. unfold find_headers_end. rewrite bool_decide_true by (rewrite length_app; lia).
  assert (forall i, (i < length buf - 3)%nat -> take 4 (drop i (buf ++ chunk)) <> [13; 10; 13; 10]) as Hbefore.
  { intros i Hi Hm. rewrite drop_app_le, take_app_le in Hm by (rewrite ?length_drop; lia).
    assert (exists p, find_blank_line buf = Some p) as [p Hp]; [|congruence].
    assert (forall l k, take 4 (drop k l) = [13; 10; 13; 10] -> exists p, find_blank_line l = Some p) as Hex.
    { clear. induction l as [|b l IH]; intros k Hk; [by destruct k|]. cbn [find_blank_line].
      case_bool_decide as E; [by eexists|]. destruct k as [|k]; [done|]. destruct (IH k Hk) as [p ->]. by eexists. }
    by eapply Hex. }
  destruct (find_blank_line (drop (length buf - 3) (buf ++ chunk))) as [p|] eqn:E; cbn.
  - symmetry. apply find_blank_line_spec in E as [Hp Hno]. rewrite drop_drop in Hp.
    apply find_blank_line_spec. split; [done|]. intros i Hi.
    destruct (Nat.lt_ge_cases i (length buf - 3)) as [|Hge]; [by apply Hbefore|].
    specialize (Hno (i - (length buf - 3))%nat). rewrite drop_drop in Hno.
    replace (length buf - 3 + (i - (length buf - 3)))%nat with i in Hno by lia. apply Hno. lia.
  - destruct (find_blank_line (buf ++ chunk)) as [p|] eqn:E'; [|done].
    apply find_blank_line_spec in E' as [Hp Hno].
    destruct (Nat.lt_ge_cases p (length buf - 3)) as [Hlt|Hge]; [by destruct (Hbefore p Hlt)|].
    assert (find_blank_line (drop (length buf - 3) (buf ++ chunk)) = Some (p - (length buf - 3))%nat); [|congruence].
    apply find_blank_line_spec. rewrite drop_drop.
    replace (length buf - 3 + (p - (length buf - 3)))%nat with p by lia. split; [done|].
    intros i Hi. rewrite drop_drop. apply Hno. lia.
Qed.

Lemma find_blank_line_app s t pos : find_blank_line s = Some pos -> find_blank_line (s ++ t) = Some pos.
Proof.
  intros [Hp Hno]%find_blank_line_spec. assert (pos + 4 <= length s)%nat as Hlen.
  { apply (f_equal length) in Hp. rewrite length_take, length_drop in Hp. cbn [length] in Hp. lia. }
  apply find_blank_line_spec. split.
  - rewrite drop_app_le, take_app_le by (rewrite ?length_drop; lia). done.
  - intros i Hi. rewrite drop_app_le, take_app_le by (rewrite ?length_drop; lia). auto.
Qed.

Lemma read_handshake_head cs : forall buf after pos,
  find_blank_line buf = None -> find_blank_line (buf ++ concat cs) = Some pos ->
  len (buf ++ concat cs) <= 64 * 1024 ->
  exists i, read_handshake buf (length buf - 3) ((RBytes <$> cs) ++ after) =
    HsRead (take (pos + 4) (buf ++ concat cs)) (drop (pos + 4) (buf ++ concat (take i cs)))
      ((RBytes <$> drop i cs) ++ after).
Proof.
  induction cs as [|c cs IH]; intros buf after pos Hnone Hsome Hlen; cbn [concat] in *.
  { rewrite app_nil_r in Hsome. congruence. }
  cbn [fmap list_fmap app read_handshake]. rewrite find_headers_end_from by done. rewrite app_assoc in *.
  destruct (find_blank_line (buf ++ c)) as [p|] eqn:E.
  - assert (p = pos) as -> by (apply (find_blank_line_app _ (concat cs)) in E; congruence).
    apply find_blank_line_spec in E as [Hp _]. apply (f_equal length) in Hp.
    rewrite length_take, length_drop in Hp. change (length [13; 10; 13; 10]) with 4%nat in Hp.
    exists 1%nat. cbn [take drop concat]. rewrite app_nil_r, (take_app_le (buf ++ c)) by lia. done.
  - rewrite len_app in Hlen. pose proof (len_nonneg (concat cs)).
    destruct (Z.ltb_spec (64 * 1024) (len (buf ++ c))); [lia|].
    destruct (IH (buf ++ c) after pos E Hsome) as [i ->]; [rewrite len_app; lia|].
    exists (S i). cbn [take drop concat]. by rewrite app_assoc.
Qed.

(** ** A quiet direction *)

Lemma wait_for_bound now first_end idle :
  0 <= idle -> first_end <= now -> first_end <> NOT_ENDED ->
  0 <= wait_for now first_end idle <= idle /\ now + wait_for now first_end idle <= Z.max now (first_end + LINGERING_MS).
Proof.
  intros Hi Hn Hf. unfold wait_for, saturating_sub. destruct (Z.eqb_spec first_end NOT_ENDED); [done|].
  unfold LINGERING_MS. destruct (Z.leb_spec (30 * 1000) (Z.max (now - first_end) 0)); lia.
Qed.

(** The window of a read is taken as the read starts: the other direction's end does
    not shorten it.  With the default window of two minutes, a direction that began
    to wait before the other ended is still waiting a minute and a half after the
    thirty seconds it is to be given, and ends as [Idle]. *)
Lemma lingering_outlived :
  let waiting := {| tn_now := 0; tn_first_end := NOT_ENDED; tn_read := RIdle; tn_wrote := true;
                    tn_after := 120000; tn_last_traffic := 0 |} in
  let other_ended_at := 1 in
  wait_for (tn_now waiting) (tn_first_end waiting) 120000 = 120000 /\
  other_ended_at + LINGERING_MS < tn_after waiting /\
  copy_one_way 120000 [waiting] = ([], Some Idle).
Proof. by vm_compute. Qed.
