(* ===== verification/LocalHttp.v ===== *)
(** * The client's local proxy: one HTTP connection (nexapipe-client/src/http.rs and
      nexapipe-client/src/local_proxy/{http_head,plaintext,connection}.rs)

    A program on the device speaks HTTP to the local proxy, which reads one head, asks the
    list of proxied domains about the host it names, and forwards that request and its
    body, and nothing else.  The parts of a request that the [http] crate reads (methods,
    URIs, header names and values) are parameters with what their documentation says; the
    socket is the reads it answers.

    The file shows that what is read as the head does not depend on how it arrives, which
    lines of it are forwarded, that the bytes behind a forwarded head are its own body's
    and no second request's, and when that head still declares that body, by the rules this
    proxy reads a head with.  How a server reads it is in [LocalServer]. *)

From S2P Require Import Prelude RustStd Host Tls VirtualIp Invite Headers WebSocket.

Definition CR : Z := 13.
Definition LF : Z := 10.
Definition CRLF : bytes := [CR; LF].

(** ** Standard library *)

(** [s.split("\r\n")]. *)
Fixpoint split_crlf (s : bytes) : list bytes :=
  match s with
  | [] => [[]]
  | b :: t =>
      let rest := split_crlf t in
      match t with
      | c :: u => if (b =? CR) && (c =? LF) then [] :: split_crlf u
                  else match rest with l :: ls => (b :: l) :: ls | [] => [[b]] end
      | [] => match rest with l :: ls => (b :: l) :: ls | [] => [[b]] end
      end
  end.

(** [s.split_once(t)]: at the first occurrence of [t]. *)
Fixpoint split_once_str (t s : bytes) : option (bytes * bytes) :=
  match strip_prefix t s with
  | Some rest => Some ([], rest)
  | None =>
      match s with
      | [] => None
      | b :: s => '(h, r) ← split_once_str t s; Some (b :: h, r)
      end
  end.

(** [s.split_whitespace()], with what has been read of the current word. *)
Fixpoint words (fuel : nat) (word s : bytes) : list bytes :=
  let flush := if bool_decide (word = []) then [] else [word] in
  match fuel with
  | O => flush
  | S fuel =>
      match s with
      | [] => flush
      | b :: t =>
          match strip_any strip_prefix ws_chars s with
          | Some rest => flush ++ words fuel [] rest
          | None => words fuel (word ++ [b]) t
          end
      end
  end.
Definition split_whitespace (s : bytes) : list bytes := words (S (length s)) [] s.

(** [String::from_utf8_lossy]: every maximal piece that is not a character becomes
    U+FFFD.  [pending] are the bytes of the character being read. *)
Definition REPLACEMENT : bytes := [239; 191; 189].
Fixpoint lossy_run (st : utf8_state) (pending s : bytes) : bytes :=
  match s with
  | [] => if bool_decide (pending = []) then [] else REPLACEMENT
  | b :: t =>
      let at_start :=
        match utf8_step U_start b with
        | Some U_start => b :: lossy_run U_start [] t
        | Some st' => lossy_run st' [b] t
        | None => REPLACEMENT ++ lossy_run U_start [] t
        end in
      match st with
      | U_start => at_start
      | _ =>
          match utf8_step st b with
          | Some U_start => pending ++ b :: lossy_run U_start [] t
          | Some st' => lossy_run st' (pending ++ [b]) t
          | None => REPLACEMENT ++ at_start
          end
      end
  end.
Definition from_utf8_lossy (s : bytes) : bytes := lossy_run U_start [] s.

(** [u8::is_ascii_whitespace]. *)
Definition is_ascii_whitespace (b : Z) : bool := (b =? 32) || (b =? 9) || (b =? 10) || (b =? 12) || (b =? 13).

(** ** The body a head declares (http.rs) *)

Inductive ChunkState := CsSize | CsData (togo : Z) | CsChunkEnd | CsTrailer | CsDone.
Record Chunked := { ck_state : ChunkState; ck_line : bytes }.
Definition chunked_default : Chunked := {| ck_state := CsSize; ck_line := [] |}.

Definition MAX_CHUNK_SIZE_LINE : Z := 1024.
Definition MAX_TRAILER_LINE : Z := 64 * 1024.

Definition size_of_line (line : bytes) : option Z :=
  match strip_suffix [LF] line with
  | None => None
  | Some line =>
      let line := default line (strip_suffix [CR] line) in
      let size := match split_once 59 line with Some (size, _) => size | None => line end in
      match from_utf8 size with Some text => parse_hex_u64 (trim text) | None => None end
  end.

Definition is_empty_line (line : bytes) : bool := bool_decide (line = CRLF) || bool_decide (line = [LF]).

(** One byte of [Chunked::take], of a body that is not over. *)
Definition chunk_byte (byte : Z) (c : Chunked) : Chunked :=
  match ck_state c with
  | CsSize =>
      let line := ck_line c ++ [byte] in
      if byte =? LF then
        match size_of_line line with
        | Some size => if size =? 0 then {| ck_state := CsTrailer; ck_line := [] |} else {| ck_state := CsData size; ck_line := [] |}
        | None => {| ck_state := CsDone; ck_line := line |}
        end
      else if MAX_CHUNK_SIZE_LINE <? len line then {| ck_state := CsDone; ck_line := line |}
      else {| ck_state := CsSize; ck_line := line |}
  | CsData togo => {| ck_state := if togo - 1 =? 0 then CsChunkEnd else CsData (togo - 1); ck_line := ck_line c |}
  | CsChunkEnd => {| ck_state := if byte =? LF then CsSize else CsChunkEnd; ck_line := ck_line c |}
  | CsTrailer =>
      let line := ck_line c ++ [byte] in
      if byte =? LF then
        if is_empty_line line then {| ck_state := CsDone; ck_line := line |} else {| ck_state := CsTrailer; ck_line := [] |}
      else if MAX_TRAILER_LINE <? len line then {| ck_state := CsDone; ck_line := line |}
      else {| ck_state := CsTrailer; ck_line := line |}
  | CsDone => c
  end.

Definition chunked_complete (c : Chunked) : bool := match ck_state c with CsDone => true | _ => false end.

Fixpoint chunked_take (bytes_ : bytes) (c : Chunked) : nat * Chunked :=
  match bytes_ with
  | [] => (O, c)
  | byte :: rest =>
      if chunked_complete c then (O, c)
      else let '(taken, c) := chunked_take rest (chunk_byte byte c) in (S taken, c)
  end.

Inductive Body := BNone | BLength (togo : Z) | BChunked (c : Chunked).

Definition body_take (bytes_ : bytes) (b : Body) : nat * Body :=
  match b with
  | BNone => (O, BNone)
  | BLength togo => let taken := Z.min togo (len bytes_) in (Z.to_nat taken, BLength (togo - taken))
  | BChunked c => let '(taken, c) := chunked_take bytes_ c in (taken, BChunked c)
  end.

Definition body_complete (b : Body) : bool :=
  match b with BNone => true | BLength togo => togo =? 0 | BChunked c => chunked_complete c end.

(** ** Reading a head (http_head.rs) *)

Definition MAX_REQUEST_HEADER : Z := 64 * 1024.

Definition request_line_end (request : bytes) : nat := default O (find_char LF request).

(** [windows(4).position(|w| w == b"\r\n\r\n")]. *)
Fixpoint find_head_end (s : bytes) : option nat :=
  if starts_with (CRLF ++ CRLF) s then Some O
  else match s with
       | [] => None
       | _ :: t => S <$> find_head_end t
       end.

Definition header_over_limit (request : bytes) (header_end : option nat) : bool :=
  MAX_REQUEST_HEADER <? Z.of_nat (default (length request) header_end).

Inductive HeaderOutcome := HeadComplete (header_end : nat) | HeadClosed.

(** What the socket answers to a read: bytes, its end, a failure, or nothing before the
    deadline. *)
Inductive SockRead := SockData (bs : bytes) | SockEof | SockFailed | SockLate.

Fixpoint read_head_loop (reads : list SockRead) (request_buf : bytes) : bytes * HeaderOutcome :=
  match reads with
  | SockData chunk :: reads =>
      if bool_decide (chunk = []) then (request_buf, HeadClosed)
      else
        let search_start := (length request_buf - 3)%nat in
        let request_buf := request_buf ++ chunk in
        let header_end := (fun pos => search_start + pos + 4)%nat <$> find_head_end (drop search_start request_buf) in
        if header_over_limit request_buf header_end then (request_buf, HeadClosed)
        else match header_end with
             | Some pos => (request_buf, HeadComplete pos)
             | None => read_head_loop reads request_buf
             end
  | _ => (request_buf, HeadClosed)
  end.

Definition read_http_header (reads : list SockRead) (request_buf : bytes) : bytes * HeaderOutcome :=
  let header_end := (fun pos => pos + 4)%nat <$> find_head_end request_buf in
  if header_over_limit request_buf header_end then (request_buf, HeadClosed)
  else match header_end with
       | Some pos => (request_buf, HeadComplete pos)
       | None => read_head_loop reads request_buf
       end.

(** ** What is forwarded of a head (http_head.rs) *)

Definition HOP_BY_HOP_HEADERS : list bytes :=
  [lit "connection"; lit "keep-alive"; lit "proxy-authenticate"; lit "proxy-authorization"; lit "proxy-connection"; lit "te";
   lit "trailer"; lit "upgrade"].

(** The lines of a block that its loops walk: those that end in a line break. *)
Definition block_lines (block : bytes) : list bytes := removelast (split_crlf block).

Definition line_name (line : bytes) : option bytes :=
  match split_once COLON line with
  | Some (name, _) => if bool_decide (name = []) || existsb is_ascii_whitespace name then None else Some (to_ascii_lowercase name)
  | None => None
  end.

Definition line_value (name line : bytes) : option bytes :=
  match split_once COLON line with
  | Some (n, value) => if eq_ignore_ascii_case n name then Some value else None
  | None => None
  end.

Definition nominated_tokens (value : bytes) : list bytes :=
  filter (fun token => token <> [])
    ((fun token => to_ascii_lowercase (List.filter (fun b => negb (is_ascii_whitespace b)) token)) <$> split_on 44 value).

Definition nominated_hop_by_hop (block : bytes) : list bytes :=
  block_lines block ≫= fun line => match line_value (lit "connection") line with Some value => nominated_tokens value | None => [] end.

Definition starts_with_ignore_case (line prefix : bytes) : bool :=
  (length prefix <=? length line)%nat && eq_ignore_ascii_case (take (length prefix) line) prefix.

Definition is_cache_validation_header (line : bytes) : bool :=
  starts_with_ignore_case line (lit "if-modified-since:") || starts_with_ignore_case line (lit "if-none-match:").

Definition is_dropped_header (line : bytes) (keep_upgrade : bool) (nominated : list bytes) : bool :=
  if is_cache_validation_header line then true
  else match line_name line with
       | None => false
       | Some name =>
           if keep_upgrade && (bool_decide (name = lit "upgrade") || bool_decide (name = lit "connection")) then false
           else if bool_decide (name ∈ HOP_BY_HOP_HEADERS) then true
           else bool_decide (name ∈ nominated)
       end.

Definition filter_request_headers (block : bytes) (keep_upgrade : bool) : bytes :=
  let nominated := nominated_hop_by_hop block in
  block_lines block ≫= fun line => if negb (is_dropped_header line keep_upgrade nominated) then line ++ CRLF else [].

(** ** Parsing a head, and what is made of it *)

Section Proxy.
(** [Method::from_bytes], [Uri::try_from] with the text and the path of what it read,
    [HeaderName::try_from] and [HeaderValue::try_from]. *)
Variable method_ok : bytes -> bool.
Variable uri_ok : bytes -> bool.
Variable uri_string : bytes -> bytes.
Variable path_and_query : bytes -> bytes.
Variable header_name_of : bytes -> option bytes.
Variable value_ok : bytes -> bool.
Context `{HL : HeaderMapLaws H}.

Record Request := { rq_method : bytes; rq_uri : bytes; rq_headers : H }.

Fixpoint parse_header_lines (lines : list bytes) (headers : H) : option H :=
  match lines with
  | [] => Some headers
  | line :: lines =>
      if bool_decide (line = []) then Some headers
      else match split_once COLON line with
           | None => parse_header_lines lines headers
           | Some (name, value) =>
               match header_name_of (trim name) with
               | Some name => if value_ok (trim value) then parse_header_lines lines (hm_append name (trim value) headers) else None
               | None => None
               end
           end
  end.

Definition parse_http_request_legacy (buf : bytes) : option Request :=
  match split_crlf (from_utf8_lossy buf) with
  | [] => None
  | request_line :: lines =>
      match split_whitespace request_line with
      | method :: uri :: _ =>
          if method_ok method && uri_ok uri then
            headers ← parse_header_lines lines hm_new; Some {| rq_method := method; rq_uri := uri; rq_headers := headers |}
          else None
      | _ => None
      end
  end.

(** The loop over the lengths: [None] is a request that cannot be framed. *)
Fixpoint declared_length (values : list bytes) (length_ : option Z) : option (option Z) :=
  match values with
  | [] => Some length_
  | value :: values =>
      text ← value_to_str value;
      number ← parse_uint (umax 64) (trim text);
      match length_ with
      | Some seen => if negb (seen =? number) then None else declared_length values (Some number)
      | None => declared_length values (Some number)
      end
  end.

Definition declared (headers : H) : Body :=
  if contains_key (lit "transfer-encoding") headers then BChunked chunked_default
  else match declared_length (get_all (lit "content-length") headers) None with
       | Some (Some togo) => BLength togo
       | _ => BNone
       end.

Definition is_websocket_request_static (headers : H) : bool :=
  match get_str (lit "upgrade") headers with
  | Some upgrade =>
      bool_decide (to_ascii_lowercase upgrade = lit "websocket") &&
      match get_str (lit "connection") headers with
      | Some connection => contains_str (lit "upgrade") (to_ascii_lowercase connection)
      | None => false
      end
  | None => false
  end.

Definition parse_connect_target (target : bytes) : option (bytes * Z) :=
  let trimmed := trim target in
  '(host, port) ← match strip_prefix_char LBRACKET trimmed with
                  | Some rest => split_once_str [RBRACKET; COLON] rest
                  | None => RustStd.rsplit_once COLON trimmed
                  end;
  if bool_decide (host = []) then None
  else port ← parse_u16 port; if negb (port =? 0) then Some (host, port) else None.

(** ** The ordinary request (plaintext.rs) *)

(** The loop that relays the body: what the socket answers, and, of the write that follows,
    [Some sent] when it fails after that many bytes.  A list that ends is a task that is
    aborted. *)
Fixpoint client_to_backend (turns : list (SockRead * option nat)) (body : Body) : bytes :=
  if body_complete body then []
  else match turns with
       | (SockData buf, fails) :: turns =>
           if bool_decide (buf = []) then []
           else
             let '(body_bytes, body) := body_take buf body in
             match fails with
             | Some sent => take sent (take body_bytes buf)
             | None => take body_bytes buf ++ (if (body_bytes <? length buf)%nat then [] else client_to_backend turns body)
             end
       | _ => []
       end.

Inductive PlainOutcome := PlainRefused | PlainUnopened | PlainForwarded (sent : bytes).

Definition handle_plain_request (headers : H) (request_buf : bytes) (header_end : nat) (opened : bool) (turns : list (SockRead * option nat))
    : PlainOutcome :=
  let carried := drop header_end request_buf in
  let '(carried_body, body) := body_take carried (declared headers) in
  if (carried_body <? length carried)%nat then PlainRefused
  else
    let request_to_send := filter_request_headers (take header_end request_buf) false ++ carried in
    if negb opened then PlainUnopened
    else PlainForwarded (request_to_send ++ client_to_backend turns body).

(** ** The connection (connection.rs) *)

Inductive Disposition :=
| D_closed
| D_tls (hello : bytes)
| D_answer (status : bytes)
| D_connect (host : bytes) (port : Z) (carried : bytes)
| D_websocket (host request_to_send : bytes)
| D_plain (host : bytes) (headers : H) (request_buf : bytes) (header_end : nat).

Fixpoint first_proxied_host (values : list bytes) (proxy_domains : list bytes) : option bytes :=
  match values with
  | [] => None
  | value :: values =>
      match value_to_str value with
      | Some h =>
          let h := (host_and_port h).1 in
          if should_proxy_domain h proxy_domains then Some h else first_proxied_host values proxy_domains
      | None => first_proxied_host values proxy_domains
      end
  end.

(** The head that goes out for a WebSocket, with an absolute target, and the bytes that
    came with it. *)
Definition websocket_request (r : Request) (request_buf : bytes) (header_end first_line_end : nat) (host : bytes) : bytes :=
  let new_line := rq_method r ++ lit " http://" ++ host ++ path_and_query (rq_uri r) ++ lit " HTTP/1.1" ++ CRLF in
  let rest_start := S first_line_end in
  new_line ++
  (if (rest_start <? header_end)%nat
   then filter_request_headers (drop rest_start (take header_end request_buf)) true else []) ++
  drop header_end request_buf.

(** A request that is not a [CONNECT]: its host, and which of the two paths it takes. *)
Definition dispatch (r : Request) (request_buf : bytes) (header_end : nat) (proxy_domains : list bytes) : Disposition :=
  if 1 <? len (get_all (lit "host") (rq_headers r)) then D_answer (lit "400 Bad Request")
  else
    match first_proxied_host (get_all (lit "host") (rq_headers r)) proxy_domains with
    | None => D_closed
    | Some host =>
        let first_line_end := request_line_end (take header_end request_buf) in
        if is_websocket_request_static (rq_headers r) && (0 <? Z.of_nat first_line_end)
        then D_websocket host (websocket_request r request_buf header_end first_line_end host)
        else D_plain host (rq_headers r) request_buf header_end
    end.

(** [connects] is whether the tunnel of a [CONNECT] opens. *)
Definition handle_local_connection (reads : list SockRead) (proxy_domains : list bytes) (connects : bytes -> Z -> bool) : Disposition :=
  match reads with
  | SockData first_chunk :: reads =>
      match first_chunk with
      | [] => D_closed
      | b :: _ =>
          if is_tls_handshake b then D_tls first_chunk
          else
            match read_http_header reads first_chunk with
            | (_, HeadClosed) => D_closed
            | (request_buf, HeadComplete header_end) =>
                match parse_http_request_legacy (take header_end request_buf) with
                | None => D_closed
                | Some r =>
                    if bool_decide (rq_method r = lit "CONNECT") then
                      match parse_connect_target (uri_string (rq_uri r)) with
                      | None => D_answer (lit "400 Bad Request")
                      | Some (host, port) =>
                          if negb (should_proxy_domain host proxy_domains) then D_answer (lit "403 Forbidden")
                          else if negb (connects host port) then D_answer (lit "502 Bad Gateway")
                          else D_connect host port (drop header_end request_buf)
                      end
                    else dispatch r request_buf header_end proxy_domains
                end
            end
      end
  | _ => D_closed
  end.
End Proxy.

(** ** Lines *)

(** A line holds no line break. *)
Definition one_line (l : bytes) : Prop := split_crlf l = [l].

Lemma split_crlf_ne s : split_crlf s <> [].
Proof. destruct s as [|b [|c t]]; cbn; [done|done|]. case_match; [done|]. by case_match. Qed.

Lemma split_crlf_cons b s :
  ~ (b = CR /\ exists t, s = LF :: t) -> split_crlf (b :: s) = match split_crlf s with l :: ls => (b :: l) :: ls | [] => [[b]] end.
Proof.
  intros H. destruct s as [|c t]; [done|]. cbn [split_crlf].
  destruct ((b =? CR) && (c =? LF)) eqn:E; [|done]. exfalso. apply H. apply andb_true_iff in E as [->%Z.eqb_eq ->%Z.eqb_eq]. split; [done|]. by exists t.
Qed.

Lemma one_line_cons b l : one_line (b :: l) -> one_line l /\ ~ (b = CR /\ exists t, l = LF :: t).
Proof.
  unfold one_line. destruct l as [|c t].
  - intros _. split; [done|]. by intros [_ [? ?]].
  - intros H. destruct ((b =? CR) && (c =? LF)) eqn:E.
    + exfalso. cbn in H. rewrite E in H. by injection H.
    + assert (~ (b = CR /\ exists u, c :: t = LF :: u)) as Hn.
      { intros [-> [u [= -> ->]]]. cbn in E. done. }
      split; [|done]. rewrite split_crlf_cons in H by done. destruct (split_crlf (c :: t)) as [|l ls]; [done|]. by injection H as -> ->.
Qed.

Lemma split_crlf_line l t : one_line l -> split_crlf (l ++ CRLF ++ t) = l :: split_crlf t.
Proof.
  induction l as [|b l IH]; intros Hl; [done|]. apply one_line_cons in Hl as [Hl Hb].
  change ((b :: l) ++ CRLF ++ t) with (b :: l ++ CRLF ++ t). rewrite split_crlf_cons.
  - by rewrite IH.
  - intros [-> [u Hu]]. destruct l as [|c l]; [done|]. cbn in Hu. injection Hu as -> _. apply Hb. split; [done|]. by eexists.
Qed.

(** Every text is lines, the last of them without its break. *)
Lemma split_crlf_first s : one_line s \/ exists l t, s = l ++ CRLF ++ t /\ one_line l.
Proof.
  induction s as [|b s IH]; [by left|].
  assert ((b = CR /\ exists t, s = LF :: t) \/ ~ (b = CR /\ exists t, s = LF :: t)) as [[-> [t ->]]|Hn].
  { destruct s as [|c t]; [right; by intros [_ [? ?]]|]. destruct (decide (b = CR)); [|right; tauto].
    destruct (decide (c = LF)) as [->|]; [left; split; [done|by eexists]|right; intros [_ [? [= ? _]]]; done]. }
  { right. by exists [], t. }
  destruct IH as [Hs|(l & t & -> & Hl)].
  - left. unfold one_line in *. rewrite split_crlf_cons by done. by rewrite Hs.
  - right. exists (b :: l), t. split; [done|]. unfold one_line in *. rewrite split_crlf_cons; [by rewrite Hl|].
    intros [-> [u ->]]. apply Hn. split; [done|]. by eexists.
Qed.

Definition unlines (ls : list bytes) : bytes := ls ≫= fun l => l ++ CRLF.

Lemma unlines_cons l ls : unlines (l :: ls) = l ++ CRLF ++ unlines ls.
Proof. unfold unlines. cbn [mbind list_bind]. by rewrite <- app_assoc. Qed.

Lemma split_unlines ls t : Forall one_line ls -> split_crlf (unlines ls ++ t) = ls ++ split_crlf t.
Proof.
  induction 1 as [|l ls Hl _ IH]; [done|]. rewrite unlines_cons, <- !app_assoc, split_crlf_line by done. by rewrite IH.
Qed.

Lemma block_lines_unlines ls : Forall one_line ls -> block_lines (unlines ls) = ls.
Proof.
  intros H. unfold block_lines. pose proof (split_unlines ls [] H) as E. rewrite app_nil_r in E. rewrite E. cbn [split_crlf].
  by rewrite removelast_last.
Qed.

Lemma filter_unlines ls keep_upgrade :
  Forall one_line ls ->
  filter_request_headers (unlines ls) keep_upgrade =
  unlines (filter (fun l => is_dropped_header l keep_upgrade (nominated_hop_by_hop (unlines ls)) = false) ls).
Proof.
  intros H. unfold filter_request_headers. rewrite block_lines_unlines by done. generalize (nominated_hop_by_hop (unlines ls)) as nom. intros nom.
  unfold unlines. clear H. induction ls as [|l ls IH]; [done|]. cbn [mbind list_bind]. rewrite filter_cons, IH.
  destruct (is_dropped_header l keep_upgrade nom); cbn [negb]; [by rewrite decide_False by done|]. rewrite decide_True by done. done.
Qed.

(** ** The end of a head *)

Lemma starts_crlf t : starts_with CRLF t = true <-> exists u, t = CRLF ++ u.
Proof.
  unfold starts_with. destruct (strip_prefix CRLF t) as [r|] eqn:E; cbn [is_some].
  - split; [intros _; exists r; by apply strip_prefix_Some|done].
  - split; [done|]. intros [u ->]. assert (strip_prefix CRLF (CRLF ++ u) = Some u) by (by apply strip_prefix_Some). congruence.
Qed.

Lemma starts_crlf2 t : starts_with (CRLF ++ CRLF) t = true <-> exists u, t = CRLF ++ CRLF ++ u.
Proof.
  unfold starts_with. destruct (strip_prefix (CRLF ++ CRLF) t) as [r|] eqn:E; cbn [is_some].
  - split; [intros _; exists r; apply strip_prefix_Some in E; by rewrite <- app_assoc in E|done].
  - split; [done|]. intros [u ->]. rewrite app_assoc in E.
    assert (strip_prefix (CRLF ++ CRLF) ((CRLF ++ CRLF) ++ u) = Some u) by (by apply strip_prefix_Some). congruence.
Qed.

Lemma find_head_end_cons b t :
  find_head_end (b :: t) = if starts_with (CRLF ++ CRLF) (b :: t) then Some O else S <$> find_head_end t.
Proof. done. Qed.

Lemma find_line l t :
  one_line l ->
  find_head_end (l ++ CRLF ++ t) = if starts_with CRLF t then Some (length l) else (fun p => length l + 2 + p)%nat <$> find_head_end t.
Proof.
  induction l as [|b l IH]; intros Hl.
  - cbn [app CRLF]. rewrite find_head_end_cons. destruct (starts_with CRLF t) eqn:E.
    + apply starts_crlf in E as [u ->]. done.
    + assert (starts_with (CRLF ++ CRLF) (CR :: LF :: t) = false) as ->.
      { apply not_true_iff_false. intros [u [= ->]]%starts_crlf2. by rewrite (proj2 (starts_crlf _)) in E by (by exists u). }
      rewrite find_head_end_cons. assert (starts_with (CRLF ++ CRLF) (LF :: t) = false) as ->.
      { apply not_true_iff_false. by intros [u [=]]%starts_crlf2. }
      by destruct (find_head_end t).
  - apply one_line_cons in Hl as [Hl Hb]. change ((b :: l) ++ CRLF ++ t) with (b :: l ++ CRLF ++ t). rewrite find_head_end_cons, (IH Hl).
    assert (starts_with (CRLF ++ CRLF) (b :: l ++ CRLF ++ t) = false) as ->.
    { apply not_true_iff_false. intros [u [= -> Hu]]%starts_crlf2. apply Hb. split; [done|]. destruct l as [|c l]; [done|].
      cbn in Hu. injection Hu as -> _. by eexists. }
    destruct (starts_with CRLF t); [done|]. by destruct (find_head_end t).
Qed.

Lemma line_starts_no_break l t : one_line l -> l <> [] -> starts_with CRLF (l ++ CRLF ++ t) = false.
Proof.
  intros Hl Hne. apply not_true_iff_false. intros [u Hu]%starts_crlf. destruct l as [|b l]; [done|].
  apply one_line_cons in Hl as [_ Hb]. cbn in Hu. injection Hu as -> Hu. apply Hb. split; [done|].
  destruct l as [|c l]; [done|]. cbn in Hu. injection Hu as -> _. by eexists.
Qed.

(** A head: its request line, its fields, and the empty line. *)
Definition fields_ok (ls : list bytes) : Prop := Forall (fun l => one_line l /\ l <> []) ls.
Definition head_of (l0 : bytes) (ls : list bytes) : bytes := unlines (l0 :: ls ++ [[]]).

Lemma fields_lines ls : fields_ok ls -> Forall one_line (ls ++ [[]]).
Proof. intros H. apply Forall_app. split; [|by repeat constructor]. eapply Forall_impl; [exact H|]. by intros l [? _]. Qed.

Lemma find_head_shape s p :
  find_head_end s = Some p -> exists l0 ls, take (p + 4) s = head_of l0 ls /\ one_line l0 /\ fields_ok ls.
Proof.
  remember (length s) as n eqn:En. revert s p En. induction n as [n IH] using lt_wf_ind. intros s p ->.
  destruct (split_crlf_first s) as [Hs|(l0 & t & -> & Hl)].
  - intros Hf. exfalso. revert p Hf. clear IH. induction s as [|b s IHs]; intros p; [done|]. rewrite find_head_end_cons.
    apply one_line_cons in Hs as [Hs Hb]. destruct (starts_with _ _) eqn:E.
    + apply starts_crlf2 in E as [u [= -> ->]]. destruct Hb. split; [done|]. by eexists.
    + destruct (find_head_end s) as [q|] eqn:Eq; [|done]. intros _. by apply (IHs Hs q).
  - rewrite find_line by done. destruct (starts_with CRLF t) eqn:E.
    + intros [= <-]. apply starts_crlf in E as [u ->]. exists l0, []. split; [|by split; [|constructor]].
      unfold head_of, unlines. cbn. rewrite take_app_add'  by done. cbn. by rewrite <- app_assoc.
    + destruct (find_head_end t) as [q|] eqn:Eq; [|done]. intros [= <-].
      destruct (IH (length t) ltac:(rewrite !length_app; cbn; lia) t q eq_refl Eq) as (l1 & ls & Ht & Hl1 & Hls).
      exists l0, (l1 :: ls). split; [|split; [done|]].
      * replace (length l0 + 2 + q + 4)%nat with (length l0 + (2 + (q + 4)))%nat by lia. rewrite take_app_add' by done.
        change (CRLF ++ t) with (CR :: LF :: t). cbn [Nat.add take]. rewrite Ht. unfold head_of. cbn [app]. by rewrite !unlines_cons.
      * constructor; [|done]. split; [done|]. intros ->. unfold head_of in Ht. rewrite unlines_cons in Ht.
        assert (starts_with CRLF t = true); [|congruence]. apply starts_crlf. exists (unlines (ls ++ [[]]) ++ drop (q + 4) t).
        rewrite <- (take_drop (q + 4) t) at 1. by rewrite Ht, <- !app_assoc.
Qed.

Lemma shape_find l0 ls rest :
  one_line l0 -> fields_ok ls -> find_head_end (head_of l0 ls ++ rest) = Some (length (head_of l0 ls) - 4)%nat.
Proof.
  intros Hl0 Hls. unfold head_of. revert l0 Hl0. induction Hls as [|l ls [Hl Hne] Hls IH]; intros l0 Hl0; cbn [app]; rewrite unlines_cons, <- !app_assoc, find_line by done.
  - unfold unlines. cbn. rewrite !length_app. cbn. f_equal. lia.
  - rewrite unlines_cons, <- !app_assoc, line_starts_no_break by done. specialize (IH l Hl). rewrite unlines_cons, <- !app_assoc in IH. rewrite IH. cbn.
    f_equal. rewrite !length_app. cbn. rewrite !length_app. cbn.
    assert (2 <= length (unlines (ls ++ [[]])))%nat; [|lia]. unfold unlines. rewrite bind_app, length_app. cbn. lia.
Qed.

(** ** Reading a head does not depend on how it arrives *)

Lemma starts_app a b : starts_with (CRLF ++ CRLF) a = true -> starts_with (CRLF ++ CRLF) (a ++ b) = true.
Proof. intros [u ->]%starts_crlf2. apply starts_crlf2. by exists (u ++ b). Qed.

Lemma starts_app_inv a b : (4 <= length a)%nat -> starts_with (CRLF ++ CRLF) (a ++ b) = true -> starts_with (CRLF ++ CRLF) a = true.
Proof.
  intros Hl [u Hu]%starts_crlf2. do 4 (destruct a as [|? a]; [cbn in Hl; lia|]). cbn in Hu. injection Hu as -> -> -> -> _.
  apply starts_crlf2. by exists a.
Qed.

Lemma find_skip k s :
  (k <= length s)%nat -> (forall q, (q < k)%nat -> starts_with (CRLF ++ CRLF) (drop q s) = false) ->
  find_head_end s = (fun p => k + p)%nat <$> find_head_end (drop k s).
Proof.
  revert s. induction k as [|k IH]; intros s Hl H; [rewrite drop_0; by destruct (find_head_end s)|].
  destruct s as [|b s]; [cbn in Hl; lia|]. rewrite find_head_end_cons. pose proof (H O ltac:(lia)) as H0. rewrite drop_0 in H0. rewrite H0. cbn [drop]. rewrite IH.
  - by destruct (find_head_end (drop k s)).
  - cbn in Hl. lia.
  - intros q Hq. apply (H (S q)). lia.
Qed.

Lemma find_none s q : find_head_end s = None -> starts_with (CRLF ++ CRLF) (drop q s) = false.
Proof.
  revert q. induction s as [|b s IH]; intros q; [by destruct q|]. rewrite find_head_end_cons.
  destruct (starts_with _ (b :: s)) eqn:E; [done|]. destruct (find_head_end s); [done|]. intros _. destruct q; [done|]. by apply IH.
Qed.

Lemma find_some s p :
  find_head_end s = Some p -> starts_with (CRLF ++ CRLF) (drop p s) = true /\ (p + 4 <= length s)%nat /\
  forall q, (q < p)%nat -> starts_with (CRLF ++ CRLF) (drop q s) = false.
Proof.
  revert p. induction s as [|b s IH]; intros p; [done|]. rewrite find_head_end_cons. destruct (starts_with _ (b :: s)) eqn:E.
  - intros [= <-]. split; [done|]. split; [|lia]. apply starts_crlf2 in E as [u ->]. rewrite !length_app. cbn. lia.
  - destruct (find_head_end s) as [q|]; [|done]. intros [= <-]. destruct (IH q eq_refl) as (H1 & H2 & H3). split; [done|]. split; [cbn; lia|].
    intros [|q'] Hq; [done|]. apply H3. lia.
Qed.

Lemma find_head_end_app a b p : find_head_end a = Some p -> find_head_end (a ++ b) = Some p.
Proof.
  intros H. destruct (find_some a p H) as (Hs & Hl & Hq). rewrite (find_skip p (a ++ b)).
  - rewrite drop_app_le by lia. destruct (drop p a) as [|x t] eqn:E; [done|]. change ((x :: t) ++ b) with (x :: t ++ b).
    rewrite find_head_end_cons. change (x :: t ++ b) with ((x :: t) ++ b). rewrite starts_app by done. cbn. f_equal. lia.
  - rewrite length_app. lia.
  - intros q Hlt. rewrite drop_app_le by lia. apply not_true_iff_false. intros H'. apply starts_app_inv in H'; [|rewrite length_drop; lia].
    rewrite Hq in H'; [done|lia].
Qed.

(** The search that resumes three bytes before the new data misses nothing. *)
Lemma find_resume a b :
  find_head_end a = None ->
  find_head_end (a ++ b) = (fun p => (length a - 3) + p)%nat <$> find_head_end (drop (length a - 3) (a ++ b)).
Proof.
  intros H. apply find_skip; [rewrite length_app; lia|]. intros q Hq. rewrite drop_app_le by lia. apply not_true_iff_false.
  intros H'. apply starts_app_inv in H'; [|rewrite length_drop; lia]. by rewrite find_none in H'.
Qed.

(** What the bytes of a connection say of its head. *)
Definition head_verdict (all : bytes) : HeaderOutcome :=
  match find_head_end all with
  | Some p => if MAX_REQUEST_HEADER <? Z.of_nat (p + 4) then HeadClosed else HeadComplete (p + 4)
  | None => HeadClosed
  end.

Lemma read_head_loop_chunks chunks buf :
  Forall (fun c => c <> []) chunks -> find_head_end buf = None -> Z.of_nat (length buf) <= MAX_REQUEST_HEADER ->
  (read_head_loop (SockData <$> chunks) buf).2 = head_verdict (buf ++ concat chunks).
Proof.
  intros H. revert buf. induction H as [|c chunks Hc _ IH]; intros buf Hf Hl.
  { cbn. unfold head_verdict. by rewrite app_nil_r, Hf. }
  cbn [fmap list_fmap read_head_loop concat]. rewrite bool_decide_eq_false_2 by done.
  set (k := (length buf - 3)%nat). rewrite app_assoc. pose proof (find_resume buf c Hf) as Hr. fold k in Hr.
  unfold header_over_limit. destruct (find_head_end (drop k (buf ++ c))) as [q|]; cbn in Hr |- *.
  - unfold head_verdict. rewrite (find_head_end_app _ _ _ Hr). by destruct (MAX_REQUEST_HEADER <? _).
  - destruct (MAX_REQUEST_HEADER <? _) eqn:E; [|apply IH; [done|by apply Z.ltb_ge]].
    cbn. unfold head_verdict. destruct (find_head_end ((buf ++ c) ++ concat chunks)) as [q|] eqn:Eq; [|done].
    assert ((length (buf ++ c) - 3 <= q)%nat) as Hq.
    { apply Nat.le_ngt. intros Hlt. destruct (find_some _ _ Eq) as (Hs & _). rewrite drop_app_le in Hs by lia.
      apply starts_app_inv in Hs; [|rewrite length_drop; lia]. by rewrite (find_none _ q Hr) in Hs. }
    apply Z.ltb_lt in E. rewrite (proj2 (Z.ltb_lt _ _)) by lia. done.
Qed.

(** The head of a connection is that of its bytes, however they are cut into reads. *)
Theorem head_chunking chunks buf :
  Forall (fun c => c <> []) chunks -> (read_http_header (SockData <$> chunks) buf).2 = head_verdict (buf ++ concat chunks).
Proof.
  intros Hc. unfold read_http_header, header_over_limit. destruct (find_head_end buf) as [p|] eqn:E; cbn.
  - unfold head_verdict. rewrite (find_head_end_app _ _ _ E). by destruct (MAX_REQUEST_HEADER <? _).
  - destruct (MAX_REQUEST_HEADER <? _) eqn:El.
    + cbn. unfold head_verdict. destruct (find_head_end (buf ++ concat chunks)) as [q|] eqn:Eq; [|done].
      assert ((length buf - 3 <= q)%nat) as Hq.
      { apply Nat.le_ngt. intros Hlt. destruct (find_some _ _ Eq) as (Hs & _). rewrite drop_app_le in Hs by lia.
        apply starts_app_inv in Hs; [|rewrite length_drop; lia]. by rewrite (find_none _ q E) in Hs. }
      apply Z.ltb_lt in El. rewrite (proj2 (Z.ltb_lt _ _)) by lia. done.
    + apply read_head_loop_chunks; [done|done|by apply Z.ltb_ge].
Qed.

(** What a complete head is, whatever the reads were. *)
Lemma read_head_complete reads buf b p :
  read_http_header reads buf = (b, HeadComplete p) -> find_head_end b = Some (p - 4)%nat /\ (4 <= p <= length b)%nat.
Proof.
  assert (forall b q, find_head_end b = Some q -> find_head_end b = Some (q + 4 - 4)%nat /\ (4 <= q + 4 <= length b)%nat) as Hone.
  { intros b' q H. destruct (find_some _ _ H) as (_ & Hl & _). rewrite Nat.add_sub. split; [done|lia]. }
  unfold read_http_header. destruct (find_head_end buf) as [q|] eqn:E; cbn.
  - destruct (header_over_limit _ _); [done|]. intros [= <- <-]. by apply Hone.
  - destruct (header_over_limit _ _); [done|]. clear -Hone E. revert buf E. induction reads as [|[c| | |] reads IH]; intros buf E; try done.
    cbn [read_head_loop]. case_bool_decide; [done|]. set (k := (length buf - 3)%nat). pose proof (find_resume buf c E) as Hr. fold k in Hr.
    destruct (find_head_end (drop k (buf ++ c))) as [q|]; cbn in Hr |- *; (destruct (header_over_limit _ _); [done|]).
    + intros [= <- <-]. by apply Hone.
    + by apply IH.
Qed.

(** ** Lossy decoding keeps the ASCII of a text in its place *)

Definition ascii (c : Z) : Prop := 0 <= c < 128.

(** Between two bytes: at a character's start with nothing pending, or inside one. *)
Definition decoding (st : utf8_state) (pending : bytes) : Prop :=
  utf8_sane st /\ match st with U_start => pending = [] | _ => pending <> [] /\ Forall (fun b => ~ ascii b) pending end.

Lemma step_ascii c : ascii c -> utf8_step U_start c = Some U_start.
Proof. intros [? ?]. cbn. unfold in_range. rewrite !(proj2 (Z.leb_le _ _)) by lia. done. Qed.

Lemma step_inside st c : utf8_sane st -> st <> U_start -> ascii c -> utf8_step st c = None.
Proof.
  intros Hs Hne [? ?]. destruct (utf8_step st c) as [st'|] eqn:E; [|done]. destruct (utf8_step_byte _ _ _ E Hs) as (_ & _ & Hc). specialize (Hc Hne). lia.
Qed.

Lemma step_start_cases b st : utf8_step U_start b = Some st -> utf8_sane st /\ (st <> U_start -> ~ ascii b).
Proof.
  intros H. destruct (utf8_step_byte _ _ _ H utf8_sane_start) as (_ & Hs & _). split; [exact Hs|]. intros Hne Ha. rewrite step_ascii in H by done. by injection H as <-.
Qed.

Lemma step_cont b st st' : utf8_sane st -> st <> U_start -> utf8_step st b = Some st' -> utf8_sane st' /\ ~ ascii b.
Proof.
  intros Hs Hne H. destruct (utf8_step_byte _ _ _ H Hs) as (_ & Hs' & Hb). split; [exact Hs'|]. specialize (Hb Hne). unfold ascii. lia.
Qed.

(** What one byte does: the output it settles, and where the decoder is then. *)
Lemma lossy_byte st pending b :
  decoding st pending ->
  exists out st' pending', decoding st' pending' /\
    (forall t, lossy_run st pending (b :: t) = out ++ lossy_run st' pending' t) /\
    (~ ascii b -> Forall (fun x => ~ ascii x) out) /\
    (ascii b -> st' = U_start /\ pending' = [] /\ exists o, out = o ++ [b] /\ o = lossy_run st pending []).
Proof.
  intros [Hs Hp].
  assert (exists out st' pending', decoding st' pending' /\
    (forall t, match utf8_step U_start b with Some U_start => b :: lossy_run U_start [] t | Some st' => lossy_run st' [b] t | None => REPLACEMENT ++ lossy_run U_start [] t end
       = out ++ lossy_run st' pending' t) /\ (~ ascii b -> Forall (fun x => ~ ascii x) out) /\ (ascii b -> st' = U_start /\ pending' = [] /\ out = [b]))
    as (out & st' & pending' & Hd & Hr & Hna & Ha).
  { assert (Forall (fun x => ~ ascii x) REPLACEMENT) as Hrep by (unfold ascii; repeat constructor; lia).
    destruct (utf8_step U_start b) as [st1|] eqn:E.
    - destruct (step_start_cases b st1 E) as [Hs1 Hn1]. destruct st1.
      + exists [b], U_start, []. split; [done|]. split; [done|]. split; [by repeat constructor|done].
      + exists [], (U_cont n), [b]. split; [split; [done|]; split; [done|]; repeat constructor; by apply Hn1|]. split; [done|]. split; [constructor|].
        intros Hb. by destruct (Hn1 ltac:(done) Hb).
      + exists [], (U_first lo hi n), [b]. split; [split; [done|]; split; [done|]; repeat constructor; by apply Hn1|]. split; [done|]. split; [constructor|].
        intros Hb. by destruct (Hn1 ltac:(done) Hb).
    - exists REPLACEMENT, U_start, []. split; [done|]. split; [done|]. split; [done|]. intros Hb. by rewrite step_ascii in E. }
  assert (st = U_start \/ st <> U_start) as [->|Hne] by (destruct st; [by left|by right..]).
  { subst pending. exists out, st', pending'. split; [done|]. split; [done|]. split; [done|]. intros Hb. destruct (Ha Hb) as (? & ? & ->).
    split; [done|]. split; [done|]. by exists []. }
  assert (pending <> [] /\ Forall (fun x => ~ ascii x) pending) as [Hpn Hpa] by (by destruct st).
  assert (forall t, lossy_run st pending (b :: t) =
    match utf8_step st b with
    | Some U_start => pending ++ b :: lossy_run U_start [] t
    | Some st' => lossy_run st' (pending ++ [b]) t
    | None => REPLACEMENT ++ out ++ lossy_run st' pending' t
    end) as Heq by (intros t; rewrite <- Hr; by destruct st).
  setoid_rewrite Heq. destruct (utf8_step st b) as [st1|] eqn:E.
  - destruct (step_cont b st st1 Hs Hne E) as [Hs1 Hb]. assert (Forall (fun x => ~ ascii x) (pending ++ [b])) by (apply Forall_app; split; [done|by repeat constructor]).
    assert (pending ++ [b] <> []) by (by destruct pending).
    destruct st1 as [|n|lo hi n].
    + exists (pending ++ [b]), U_start, []. split; [done|]. split; [intros t; by rewrite <- app_assoc|]. split; [done|]. by intros ?.
    + exists [], (U_cont n), (pending ++ [b]). split; [done|]. split; [done|]. split; [constructor|by intros ?].
    + exists [], (U_first lo hi n), (pending ++ [b]). split; [done|]. split; [done|]. split; [constructor|by intros ?].
  - exists (REPLACEMENT ++ out), st', pending'. split; [done|]. split; [intros t; by rewrite <- app_assoc|]. split.
    + intros Hb. apply Forall_app. split; [unfold ascii; repeat constructor; lia|by apply Hna].
    + intros Hb. destruct (Ha Hb) as (? & ? & ->). split; [done|]. split; [done|]. exists REPLACEMENT. split; [done|]. cbn. by rewrite bool_decide_eq_false_2.
Qed.

Lemma lossy_app st pending s c t :
  decoding st pending -> ascii c -> lossy_run st pending (s ++ c :: t) = lossy_run st pending s ++ c :: from_utf8_lossy t.
Proof.
  intros Hd Hc. revert st pending Hd. induction s as [|b s IH]; intros st pending Hd.
  - destruct (lossy_byte st pending c Hd) as (out & st' & pending' & _ & Hr & _ & Ha). destruct (Ha Hc) as (-> & -> & o & -> & Ho).
    cbn [app]. rewrite Hr, <- app_assoc, Ho. done.
  - destruct (lossy_byte st pending b Hd) as (out & st' & pending' & Hd' & Hr & _). change ((b :: s) ++ c :: t) with (b :: (s ++ c :: t)).
    by rewrite !Hr, IH, app_assoc by done.
Qed.

Lemma decoding_start : decoding U_start [].
Proof. done. Qed.

Lemma from_utf8_lossy_app s c t : ascii c -> from_utf8_lossy (s ++ c :: t) = from_utf8_lossy s ++ c :: from_utf8_lossy t.
Proof. apply lossy_app, decoding_start. Qed.

(** An ASCII byte of the output is one of the input. *)
Lemma lossy_elem c s : ascii c -> c ∈ from_utf8_lossy s -> c ∈ s.
Proof.
  intros Hc. unfold from_utf8_lossy. generalize decoding_start. generalize U_start as st. generalize (@nil Z) as pending.
  induction s as [|b s IH]; intros pending st Hd.
  - cbn. case_bool_decide; [done|]. unfold REPLACEMENT, ascii in *. rewrite !elem_of_cons. intros [?|[?|[?|?]]]; [lia..|]. set_solver.
  - destruct (lossy_byte st pending b Hd) as (out & st' & pending' & Hd' & Hr & Hna & Ha). rewrite Hr, elem_of_app.
    intros [Ho|Ho]; [|right; by apply (IH pending' st')]. destruct (decide (c = b)) as [->|Hne]; [by left|]. exfalso.
    assert (ascii b \/ ~ ascii b) as [Hb|Hb] by (unfold ascii; lia).
    + destruct (Ha Hb) as (_ & _ & o & -> & ->). apply elem_of_app in Ho as [Ho|Ho]; [|set_solver]. cbn in Ho. case_bool_decide; [set_solver|].
      unfold REPLACEMENT, ascii in *. rewrite !elem_of_cons in Ho. destruct Ho as [?|[?|[?|?]]]; [lia..|]. set_solver.
    + specialize (Hna Hb). rewrite Forall_forall in Hna. by apply (Hna c).
Qed.

Lemma lossy_pending s st pending : decoding st pending -> pending <> [] -> lossy_run st pending s <> [].
Proof.
  revert st pending. induction s as [|b s IH]; intros st pending [Hs Hd] Hne; [cbn; by rewrite bool_decide_eq_false_2|].
  assert (st <> U_start) as Hst by (by intros ->). assert (Forall (fun x => ~ ascii x) pending) as Hpa by (by destruct st as [| |]; [|destruct Hd..]).
  destruct (utf8_step st b) as [st1|] eqn:E.
  - destruct (step_cont b st st1 Hs Hst E) as [Hs1 Hb].
    assert (lossy_run st pending (b :: s) = match st1 with U_start => pending ++ b :: lossy_run U_start [] s | _ => lossy_run st1 (pending ++ [b]) s end) as ->
      by (destruct st; [done|cbn [lossy_run]; by rewrite E..]).
    assert (Forall (fun x => ~ ascii x) (pending ++ [b])) by (apply Forall_app; split; [done|by repeat constructor]).
    assert (pending ++ [b] <> []) by (by destruct pending).
    destruct st1; [by destruct pending|by apply IH..].
  - destruct st; [done|cbn [lossy_run]; by rewrite E..].
Qed.

Lemma lossy_nil s : from_utf8_lossy s = [] -> s = [].
Proof.
  destruct s as [|b s]; [done|]. unfold from_utf8_lossy. cbn [lossy_run]. destruct (utf8_step U_start b) as [st1|] eqn:E; [|done].
  destruct (step_start_cases b st1 E) as [Hs1 Hn1]. destruct st1; [done|..]; intros H; exfalso; revert H; apply lossy_pending; try done;
    (split; [done|]; split; [done|]; repeat constructor; by apply Hn1).
Qed.

Lemma lossy_head c s y : ascii c -> from_utf8_lossy s = c :: y -> exists t, s = c :: t.
Proof.
  intros Hc Heq. assert (c ∈ s) as Hin by (apply lossy_elem; [done|rewrite Heq; by left]).
  destruct (split_once c s) as [[u v]|] eqn:Eu; [|by apply split_once_None in Eu].
  apply split_once_Some in Eu as [-> Hu]. rewrite from_utf8_lossy_app in Heq by done. destruct (from_utf8_lossy u) as [|w ws] eqn:Ew.
  - apply lossy_nil in Ew as ->. by exists v.
  - cbn in Heq. injection Heq as -> _. destruct Hu. apply lossy_elem; [done|]. rewrite Ew. by left.
Qed.

Lemma one_line_suffix a l : one_line (a ++ l) -> one_line l.
Proof. induction a as [|z a IH]; [done|]. intros H. apply one_line_cons in H as [H _]. by apply IH. Qed.

Lemma one_line_no_break a b : ~ one_line (a ++ CR :: LF :: b).
Proof. intros H. apply one_line_suffix, one_line_cons in H as [_ H]. apply H. split; [done|]. by eexists. Qed.

(** A line stays a line. *)
Lemma lossy_no_break n l : (length l < n)%nat -> one_line l -> forall x y, from_utf8_lossy l <> x ++ CR :: LF :: y.
Proof.
  assert (ascii CR /\ ascii LF) as [Hcr Hlf] by (unfold ascii, CR, LF; lia).
  revert l. induction n as [|n IH]; intros l Hn Hl x y Heq; [lia|]. destruct (split_once CR l) as [[a b]|] eqn:Es.
  - apply split_once_Some in Es as [-> Ha]. rewrite from_utf8_lossy_app in Heq by done.
    assert (CR ∉ from_utf8_lossy a) as Hca by (intros H; by apply lossy_elem in H).
    assert (forall y, from_utf8_lossy b <> LF :: y) as Hb by (intros y' [t ->]%lossy_head; [by apply one_line_no_break in Hl|done]).
    apply app_eq_app in Heq as (k & [[Hk1 Hk2]|[Hk1 Hk2]]); destruct k as [|z k]; cbn in Hk2.
    + injection Hk2 as Hk2. by apply (Hb y).
    + injection Hk2 as <- _. rewrite Hk1 in Hca. set_solver.
    + injection Hk2 as Hk2. by apply (Hb y).
    + injection Hk2 as <- Hk2. rewrite length_app in Hn. cbn in Hn. apply (IH b ltac:(lia)) in Hk2; [done|].
      apply one_line_suffix in Hl. by apply one_line_cons in Hl as [? _].
  - apply split_once_None in Es. apply Es, lossy_elem; [done|]. rewrite Heq. set_solver.
Qed.

Lemma lossy_one_line l : one_line l -> one_line (from_utf8_lossy l).
Proof.
  intros Hl. destruct (split_crlf_first (from_utf8_lossy l)) as [?|(x & y & Heq & Hx)]; [done|].
  by destruct (lossy_no_break (S (length l)) l ltac:(lia) Hl x y).
Qed.

Lemma lossy_unlines ls t : from_utf8_lossy (unlines ls ++ t) = unlines (from_utf8_lossy <$> ls) ++ from_utf8_lossy t.
Proof.
  induction ls as [|l ls IH]; [done|]. cbn [fmap list_fmap]. rewrite !unlines_cons, <- !app_assoc. change (CRLF ++ unlines ls ++ t) with (CR :: LF :: unlines ls ++ t).
  rewrite from_utf8_lossy_app by (unfold ascii, CR; lia). change (LF :: unlines ls ++ t) with ([] ++ LF :: unlines ls ++ t).
  rewrite from_utf8_lossy_app by (unfold ascii, LF; lia). by rewrite IH.
Qed.

Lemma lossy_graphic n : Forall (fun b => is_ascii_graphic b = true) n -> from_utf8_lossy n = n.
Proof.
  induction 1 as [|b n Hb _ IH]; [done|]. change (b :: n) with ([] ++ b :: n). rewrite from_utf8_lossy_app; [by rewrite IH|].
  unfold is_ascii_graphic in Hb. bools. unfold ascii. lia.
Qed.

(** ** The request a forwarded head makes *)

Section Forwarded.
Variable method_ok : bytes -> bool.
Variable uri_ok : bytes -> bool.
Variable header_name_of : bytes -> option bytes.
Variable value_ok : bytes -> bool.
Context `{HL : HeaderMapLaws H}.
(** A method is a token, and a header name is its text in lower case. *)
Hypothesis method_token : forall m, method_ok m = true -> COLON ∉ m.
Hypothesis name_lower : forall s n, header_name_of s = Some n -> n = to_ascii_lowercase s.

Abbreviation parse := (parse_http_request_legacy (H := H) method_ok uri_ok header_name_of value_ok).

Definition line_ok (l : bytes) : bool :=
  match split_once COLON l with Some (n, v) => is_some (header_name_of (trim n)) && value_ok (trim v) | None => true end.
Definition line_values (name l : bytes) : list bytes :=
  match split_once COLON l with
  | Some (n, v) => if bool_decide (header_name_of (trim n) = Some name) then [trim v] else []
  | None => []
  end.

Lemma parse_lines_ok ls tail hs h :
  Forall (fun l => l <> []) ls -> parse_header_lines header_name_of value_ok (ls ++ [] :: tail) hs = Some h ->
  Forall (fun l => line_ok l = true) ls.
Proof.
  intros Hne. revert hs. induction Hne as [|l ls Hl _ IH]; intros hs; cbn; [constructor|]. rewrite bool_decide_eq_false_2 by done.
  unfold line_ok. destruct (split_once COLON l) as [[n v]|] eqn:E; [|intros Hp; constructor; [by rewrite E|by eapply IH]].
  destruct (header_name_of (trim n)) as [name|] eqn:En; [|done]. destruct (value_ok (trim v)) eqn:Ev; [|done]. intros Hp.
  constructor; [by rewrite E, En, Ev|by eapply IH].
Qed.

Lemma parse_lines_values ls tail (hs : H) :
  Forall (fun l => l <> []) ls -> Forall (fun l => line_ok l = true) ls ->
  exists h, parse_header_lines header_name_of value_ok (ls ++ [] :: tail) hs = Some h /\
    forall m, get_all m h = get_all m hs ++ (ls ≫= line_values m).
Proof.
  intros Hne Hok. revert hs Hok. induction Hne as [|l ls Hl _ IH]; intros hs Hok; cbn.
  { exists hs. split; [done|]. intros m. by rewrite app_nil_r. }
  apply Forall_cons in Hok as [Hlo Hok]. rewrite bool_decide_eq_false_2 by done. unfold line_ok in Hlo.
  destruct (split_once COLON l) as [[n v]|] eqn:E.
  - destruct (header_name_of (trim n)) as [name|] eqn:En; [|done]. destruct (value_ok (trim v)) eqn:Ev; [|done].
    destruct (IH (hm_append name (trim v) hs) Hok) as (h & Hp & Hg). exists h. split; [done|]. intros m. rewrite Hg, get_all_append, <- app_assoc.
    f_equal. f_equal. unfold line_values. rewrite E, En. destruct (decide (m = name)) as [->|Hm].
    + by rewrite !bool_decide_eq_true_2.
    + rewrite !bool_decide_eq_false_2; [done|congruence|done].
  - destruct (IH hs Hok) as (h & Hp & Hg). exists h. split; [done|]. intros m. rewrite Hg. unfold line_values at 2. by rewrite E.
Qed.

Lemma values_fmap m ls : (from_utf8_lossy <$> ls) ≫= line_values m = ls ≫= fun l => line_values m (from_utf8_lossy l).
Proof. induction ls as [|l ls IH]; [done|]. cbn [fmap list_fmap mbind list_bind]. f_equal. exact IH. Qed.

Lemma split_head l0 ls :
  one_line l0 -> fields_ok ls ->
  split_crlf (from_utf8_lossy (head_of l0 ls)) = from_utf8_lossy l0 :: (from_utf8_lossy <$> ls) ++ [[]; []].
Proof.
  intros Hl0 Hls. unfold head_of. pose proof (lossy_unlines (l0 :: ls ++ [[]]) []) as Hu. rewrite !app_nil_r in Hu. rewrite Hu.
  assert (Forall one_line (from_utf8_lossy <$> (l0 :: ls ++ [[]]))) as Hall.
  { apply Forall_fmap. eapply Forall_impl; [|intros l Hl; by apply lossy_one_line]. constructor; [done|by apply fields_lines]. }
  pose proof (split_unlines _ [] Hall) as Hs. rewrite app_nil_r in Hs. rewrite Hs. cbn [fmap list_fmap]. rewrite fmap_app. cbn.
  by rewrite <- app_assoc.
Qed.

Lemma lossy_fields ls : fields_ok ls -> Forall (fun l => l <> []) (from_utf8_lossy <$> ls).
Proof. intros Hf. apply Forall_fmap. eapply Forall_impl; [exact Hf|]. intros l [_ Hl] E. by apply lossy_nil in E. Qed.

(** A head parses when its request line and its fields do, and its headers are those of
    its fields. *)
Lemma parse_head l0 ls r :
  one_line l0 -> fields_ok ls -> parse (head_of l0 ls) = Some r ->
  Forall (fun l => line_ok (from_utf8_lossy l) = true) ls /\
  (forall m, get_all m (rq_headers r) = ls ≫= fun l => line_values m (from_utf8_lossy l)) /\
  (exists rest, split_whitespace (from_utf8_lossy l0) = rq_method r :: rq_uri r :: rest) /\ method_ok (rq_method r) = true /\
  forall ls', fields_ok ls' -> Forall (fun l => line_ok (from_utf8_lossy l) = true) ls' ->
    exists r', parse (head_of l0 ls') = Some r' /\ rq_method r' = rq_method r /\ rq_uri r' = rq_uri r /\
      forall m, get_all m (rq_headers r') = ls' ≫= fun l => line_values m (from_utf8_lossy l).
Proof.
  intros Hl0 Hls. unfold parse_http_request_legacy. rewrite split_head by done.
  destruct (split_whitespace (from_utf8_lossy l0)) as [|method [|uri rest]] eqn:Ew; [done|done|].
  destruct (method_ok method) eqn:Em; [|done]. destruct (uri_ok uri) eqn:Eu; [|done]. cbn [andb].
  change [[]; []] with ([] :: [[]] : list bytes). destruct (parse_header_lines _ _ _ _) as [h|] eqn:Ep; [|done].
  cbn [mbind option_bind]. intros [= <-]. cbn [rq_method rq_uri rq_headers].
  pose proof (parse_lines_ok _ _ _ _ (lossy_fields ls Hls) Ep) as Hok.
  destruct (parse_lines_values _ [[]] hm_new (lossy_fields ls Hls) Hok) as (h' & Hp' & Hg). rewrite Hp' in Ep. injection Ep as ->.
  split; [by apply Forall_fmap in Hok|]. split; [intros m; by rewrite Hg, get_all_new, values_fmap|].
  split; [by exists rest|]. split; [done|]. intros ls' Hls' Hok'. rewrite split_head, Ew, Em, Eu by done. cbn [andb].
  assert (Forall (fun l => line_ok l = true) (from_utf8_lossy <$> ls')) as Hok2 by (by apply Forall_fmap).
  destruct (parse_lines_values _ [[]] hm_new (lossy_fields ls' Hls') Hok2) as (h2 & Hp2 & Hg2).
  change [[]; []] with ([] :: [[]] : list bytes). rewrite Hp2. cbn [mbind option_bind].
  eexists. split; [reflexivity|]. split; [done|]. split; [done|]. intros m. cbn [rq_headers]. by rewrite Hg2, get_all_new, values_fmap.
Qed.

Lemma lower_graphic n c : Forall (fun b => is_ascii_graphic b = true) c -> to_ascii_lowercase n = c -> Forall (fun b => is_ascii_graphic b = true) n.
Proof.
  intros Hc <-. unfold to_ascii_lowercase in Hc. apply Forall_fmap in Hc. eapply Forall_impl; [exact Hc|]. intros b Hb. cbn in Hb.
  unfold ascii_lower in Hb. destruct (is_ascii_uppercase b) eqn:E; [|done]. unfold is_ascii_uppercase, is_ascii_graphic in *. bools.
  apply andb_true_iff. split; apply Z.leb_le; lia.
Qed.

(** A name of the fixed lists, in any case, is read by the parser as that name. *)
Lemma fixed_name n c v l name :
  l = n ++ COLON :: v -> COLON ∉ n -> Forall (fun b => is_ascii_graphic b = true) c -> to_ascii_lowercase n = c ->
  line_values name (from_utf8_lossy l) <> [] -> name = c.
Proof.
  intros -> Hn Hc Hlow. rewrite from_utf8_lossy_app by (unfold ascii, COLON; lia).
  pose proof (lower_graphic n c Hc Hlow) as Hg. rewrite lossy_graphic by done. unfold line_values. rewrite split_once_app by done.
  rewrite trim_graphic by done. case_bool_decide as E; [|done]. intros _. apply name_lower in E. congruence.
Qed.

Lemma lower_colon b : ascii_lower b = COLON <-> b = COLON.
Proof. unfold ascii_lower, is_ascii_uppercase, COLON. destruct ((65 <=? b) && (b <=? 90)) eqn:E; [bools; lia|done]. Qed.

Lemma colon_lower n : COLON ∉ to_ascii_lowercase n -> COLON ∉ n.
Proof. intros Hn Hin. apply Hn. unfold to_ascii_lowercase. apply list_elem_of_fmap. by exists COLON. Qed.

Lemma starts_ignore_case l name :
  starts_with_ignore_case l (name ++ [COLON]) = true -> to_ascii_lowercase name = name -> COLON ∉ name ->
  exists n v, l = n ++ COLON :: v /\ COLON ∉ n /\ to_ascii_lowercase n = name.
Proof.
  intros Hs Hlow Hc. unfold starts_with_ignore_case in Hs. apply andb_true_iff in Hs as [Hl He]. apply Nat.leb_le in Hl.
  unfold eq_ignore_ascii_case in He. apply bool_decide_eq_true in He. unfold to_ascii_lowercase in He at 2. rewrite fmap_app in He.
  fold (to_ascii_lowercase name) in He. rewrite Hlow in He. cbn in He.
  unfold to_ascii_lowercase in He. apply fmap_app_inv in He as (n & c & Hn & Hcc & Ht). destruct c as [|x [|]]; [done| |done].
  cbn in Hcc. injection Hcc as Hx. symmetry in Hx. apply (proj1 (lower_colon x)) in Hx as ->.
  exists n, (drop (length (name ++ [COLON])) l). split; [|split; [|done]].
  - rewrite <- (take_drop (length (name ++ [COLON])) l) at 1. rewrite Ht. by rewrite <- app_assoc.
  - apply colon_lower. unfold to_ascii_lowercase. by rewrite <- Hn.
Qed.

(** The fields the framing of a request and its host are read from. *)
Definition FRAMING : list bytes := [lit "content-length"; lit "transfer-encoding"; lit "host"].

(** [Connection] names none of them, nor the request line. *)
Definition calm_connection (l0 : bytes) (ls : list bytes) : Prop :=
  forall l n, l = l0 \/ (l ∈ ls /\ exists name, name ∈ FRAMING /\ line_values name (from_utf8_lossy l) <> []) ->
    line_name l = Some n -> n ∉ nominated_hop_by_hop (head_of l0 ls).

Lemma line_name_split l n : line_name l = Some n -> exists raw v, l = raw ++ COLON :: v /\ COLON ∉ raw /\ to_ascii_lowercase raw = n.
Proof.
  unfold line_name. destruct (split_once COLON l) as [[raw v]|] eqn:E; [|done]. apply split_once_Some in E as [-> Hc].
  destruct (_ || _); [done|]. intros [= <-]. by exists raw, v.
Qed.

(** A line whose name is on a fixed list starts with that name and a colon. *)
Lemma dropped_fixed l nominated :
  is_dropped_header l false nominated = true -> (forall n, line_name l = Some n -> n ∉ nominated) ->
  exists n v c, l = n ++ COLON :: v /\ COLON ∉ n /\ to_ascii_lowercase n = c /\ Forall (fun b => is_ascii_graphic b = true) c /\ c ∉ FRAMING.
Proof.
  intros Hd Hnom. unfold is_dropped_header in Hd. destruct (is_cache_validation_header l) eqn:Ec.
  - unfold is_cache_validation_header in Ec. apply orb_true_iff in Ec as [Ec|Ec].
    + destruct (starts_ignore_case l (lit "if-modified-since") Ec) as (n & v & -> & Hn & Hl); [done|by apply contains_char_false|].
      exists n, v, (lit "if-modified-since"). split; [done|]. split; [done|]. split; [done|]. split; [by repeat constructor|].
      apply (bool_decide_unpack _). by vm_compute.
    + destruct (starts_ignore_case l (lit "if-none-match") Ec) as (n & v & -> & Hn & Hl); [done|by apply contains_char_false|].
      exists n, v, (lit "if-none-match"). split; [done|]. split; [done|]. split; [done|]. split; [by repeat constructor|].
      apply (bool_decide_unpack _). by vm_compute.
  - destruct (line_name l) as [name|] eqn:En; [|done]. cbn [andb] in Hd. destruct (line_name_split l name En) as (raw & v & -> & Hr & Hl).
    case_bool_decide as Hh; [|by apply bool_decide_eq_true in Hd; destruct (Hnom name eq_refl)].
    exists raw, v, name. split; [done|]. split; [done|]. split; [done|]. clear -Hh. unfold HOP_BY_HOP_HEADERS in Hh.
    rewrite !elem_of_cons in Hh. destruct Hh as [->|[->|[->|[->|[->|[->|[->|[->|Hh]]]]]]]]; [..|by apply not_elem_of_nil in Hh];
      (split; [by repeat constructor|apply (bool_decide_unpack _); by vm_compute]).
Qed.

Lemma framing_kept l0 ls l name :
  calm_connection l0 ls -> l ∈ ls -> name ∈ FRAMING -> line_values name (from_utf8_lossy l) <> [] ->
  is_dropped_header l false (nominated_hop_by_hop (head_of l0 ls)) = false.
Proof.
  intros Hcalm Hl Hname Hv. apply not_true_iff_false. intros Hd.
  destruct (dropped_fixed l _ Hd) as (n & v & c & Heq & Hn & Hlow & Hg & Hc); [intros n Hn; apply (Hcalm l n); [right; by eauto|done]|].
  apply Hc. by rewrite <- (fixed_name n c v l name).
Qed.

Lemma graphic_not_space b t : is_ascii_graphic b = true -> strip_any strip_prefix ws_chars (b :: t) = None.
Proof.
  intros Hb. apply strip_any_none. intros w Hw. destruct (strip_prefix w (b :: t)) as [r|] eqn:Er; [|done].
  apply strip_prefix_Some in Er. destruct (ws_ends w Hw) as (c & _ & u & _ & -> & _ & Hc & _). injection Er as <- _. congruence.
Qed.

Lemma words_graphic g word fuel s :
  Forall (fun b => is_ascii_graphic b = true) g -> words (length g + fuel) word (g ++ s) = words fuel (word ++ g) s.
Proof.
  intros Hg. revert word. induction Hg as [|b g Hb _ IH]; intros word; cbn [length Nat.add app]; [by rewrite app_nil_r|].
  cbn [words]. rewrite graphic_not_space by done. rewrite IH. by rewrite <- app_assoc.
Qed.

Lemma words_prefix fuel word s : word <> [] -> exists w rest, words fuel word s = (word ++ w) :: rest.
Proof.
  revert word s. induction fuel as [|fuel IH]; intros word s Hw; cbn [words].
  { rewrite bool_decide_eq_false_2 by done. exists [], []. by rewrite app_nil_r. }
  destruct s as [|b t]; [rewrite bool_decide_eq_false_2 by done; exists [], []; by rewrite app_nil_r|].
  destruct (strip_any _ _ _) as [r|].
  - rewrite bool_decide_eq_false_2 by done. exists [], (words fuel [] r). by rewrite app_nil_r.
  - destruct (IH (word ++ [b]) t) as (w & rest & ->); [by destruct word|]. exists (b :: w), rest. by rewrite <- app_assoc.
Qed.

(** A text that starts with printable ASCII has it at the start of its first word. *)
Lemma first_word_graphic g s : Forall (fun b => is_ascii_graphic b = true) g -> g <> [] -> exists w rest, split_whitespace (g ++ s) = (g ++ w) :: rest.
Proof.
  intros Hg Hne. unfold split_whitespace. rewrite length_app, <- Nat.add_succ_r, words_graphic by done. by apply words_prefix.
Qed.

Lemma request_line_kept l0 ls m rest :
  calm_connection l0 ls -> split_whitespace (from_utf8_lossy l0) = m :: rest -> method_ok m = true ->
  is_dropped_header l0 false (nominated_hop_by_hop (head_of l0 ls)) = false.
Proof.
  intros Hcalm Hw Hm. apply not_true_iff_false. intros Hd.
  destruct (dropped_fixed l0 _ Hd) as (n & v & c & Heq & Hn & Hlow & Hg & _); [intros n Hn; apply (Hcalm l0 n); [by left|done]|].
  rewrite Heq, from_utf8_lossy_app in Hw by (unfold ascii, COLON; lia). rewrite lossy_graphic in Hw by (by eapply lower_graphic).
  destruct (first_word_graphic (n ++ [COLON]) (from_utf8_lossy v)) as (w & rest' & Hw').
  { apply Forall_app. split; [by eapply lower_graphic|by repeat constructor]. }
  { by destruct n. }
  rewrite <- app_assoc in Hw'. cbn [app] in Hw'. rewrite Hw' in Hw. injection Hw as Hw _. apply (method_token m Hm). rewrite <- Hw. set_solver.
Qed.

Lemma filter_bind {A B} (P : A -> Prop) `{!forall x, Decision (P x)} (f : A -> list B) l :
  (forall x, x ∈ l -> f x <> [] -> P x) -> filter P l ≫= f = l ≫= f.
Proof.
  induction l as [|x l IH]; intros Hk; [done|]. rewrite filter_cons. assert (filter P l ≫= f = l ≫= f) as E by (apply IH; intros y Hy; apply Hk; by right).
  destruct (decide (P x)) as [Hp|Hp]; cbn [mbind list_bind]; [f_equal; exact E|].
  destruct (f x) as [|y ys] eqn:Ef; [exact E|]. destruct Hp. apply Hk; [by left|by rewrite Ef].
Qed.

Lemma Forall_kept {A} (P Q : A -> Prop) `{!forall x, Decision (P x)} l : Forall Q l -> Forall Q (filter P l).
Proof. rewrite !Forall_forall. intros Hq x [_ Hx]%list_elem_of_filter. by apply Hq. Qed.

(** The fields that are forwarded of a head. *)
Definition kept_fields (l0 : bytes) (ls : list bytes) : list bytes :=
  filter (fun l => is_dropped_header l false (nominated_hop_by_hop (head_of l0 ls)) = false) ls.

Lemma kept_fields_ok l0 ls : fields_ok ls -> fields_ok (kept_fields l0 ls).
Proof. apply Forall_kept. Qed.

(** The head that goes out is the request line and the fields that were kept. *)
Lemma forwarded_head l0 ls m rest :
  one_line l0 -> fields_ok ls -> calm_connection l0 ls -> split_whitespace (from_utf8_lossy l0) = m :: rest -> method_ok m = true ->
  filter_request_headers (head_of l0 ls) false = head_of l0 (kept_fields l0 ls).
Proof.
  intros Hl0 Hls Hcalm Hw Hm. unfold head_of. rewrite filter_unlines by (constructor; [done|by apply fields_lines]).
  rewrite filter_cons, decide_True by (by eapply request_line_kept). by rewrite filter_app.
Qed.

(** What it declares is what was read. *)
Lemma declared_get_all (h h' : H) : (forall m, m ∈ FRAMING -> get_all m h' = get_all m h) -> declared h' = declared h.
Proof using Type.
  intros Hg. unfold declared. unfold contains_key. rewrite !Hg by (clear; unfold FRAMING; set_solver). done.
Qed.

Lemma forwarded_parse l0 ls r :
  one_line l0 -> fields_ok ls -> calm_connection l0 ls -> parse (head_of l0 ls) = Some r ->
  exists r', filter_request_headers (head_of l0 ls) false = head_of l0 (kept_fields l0 ls) /\
    parse (head_of l0 (kept_fields l0 ls)) = Some r' /\ rq_method r' = rq_method r /\ rq_uri r' = rq_uri r /\
    forall m, m ∈ FRAMING -> get_all m (rq_headers r') = get_all m (rq_headers r).
Proof.
  intros Hl0 Hls Hcalm Hp. destruct (parse_head l0 ls r Hl0 Hls Hp) as (Hok & Hg & (rest & Hw) & Hm & Hre).
  destruct (Hre (kept_fields l0 ls)) as (r' & Hp' & Hme & Hu & Hg'); [by apply kept_fields_ok|by apply Forall_kept|].
  exists r'. split; [by eapply forwarded_head|]. split; [done|]. split; [done|]. split; [done|].
  intros m Hin. rewrite Hg', Hg. apply filter_bind. intros l Hl Hv. by eapply framing_kept.
Qed.
End Forwarded.

(** ** The body *)

Definition body_wf (b : Body) : Prop := match b with BLength togo => 0 <= togo | _ => True end.

Lemma chunked_take_app a s c n c' :
  chunked_take a c = (n, c') -> n = length a -> chunked_take (a ++ s) c = ((n + (chunked_take s c').1)%nat, (chunked_take s c').2).
Proof.
  revert c n c'. induction a as [|b a IH]; intros c n c'; cbn [chunked_take app length].
  { intros [= <- <-] _. by destruct (chunked_take s c). }
  destruct (chunked_complete c); [intros [= <- <-]; done|]. destruct (chunked_take a (chunk_byte b c)) as [m d] eqn:E.
  intros [= <- <-] [= Hm]. by rewrite (IH _ _ _ E Hm).
Qed.

Lemma chunked_take_le a c : ((chunked_take a c).1 <= length a)%nat.
Proof.
  revert c. induction a as [|b a IH]; intros c; cbn [chunked_take length]; [done|]. destruct (chunked_complete c); [cbn; lia|].
  specialize (IH (chunk_byte b c)). destruct (chunked_take a _). cbn in *. lia.
Qed.

Lemma chunked_take_take a c : chunked_take (take (chunked_take a c).1 a) c = chunked_take a c.
Proof.
  revert c. induction a as [|b a IH]; intros c; cbn [chunked_take]; [done|]. destruct (chunked_complete c) eqn:E; [done|].
  specialize (IH (chunk_byte b c)). destruct (chunked_take a (chunk_byte b c)) as [m d]. cbn [fst take chunked_take] in *. rewrite E. by rewrite IH.
Qed.

Lemma body_take_le a body : body_wf body -> ((body_take a body).1 <= length a)%nat.
Proof.
  destruct body as [|togo|c]; cbn; [lia|unfold len; lia|]. pose proof (chunked_take_le a c). by destruct (chunked_take a c).
Qed.

Lemma body_take_wf a body : body_wf body -> body_wf (body_take a body).2.
Proof. destruct body as [|togo|c]; cbn; [done|lia|]. by destruct (chunked_take a c). Qed.

Lemma body_take_take a body n body' : body_wf body -> body_take a body = (n, body') -> body_take (take n a) body = (n, body').
Proof.
  destruct body as [|togo|c]; cbn; intros Hw.
  - by intros [= <- <-].
  - intros [= <- <-]. unfold len in *. rewrite length_take. f_equal; [lia|]. f_equal. lia.
  - pose proof (chunked_take_take a c) as E. destruct (chunked_take a c) as [m d]. intros [= <- <-]. cbn in E. by rewrite E.
Qed.

Lemma body_take_app a s body body' :
  body_wf body -> body_take a body = (length a, body') ->
  body_take (a ++ s) body = ((length a + (body_take s body').1)%nat, (body_take s body').2).
Proof.
  destruct body as [|togo|c]; cbn; intros Hw.
  - intros [= Ha <-]. destruct a; done.
  - intros [= Ha <-]. unfold len in *. cbn [body_take fst snd]. unfold len. rewrite length_app. f_equal; [lia|]. f_equal. lia.
  - destruct (chunked_take a c) as [m d] eqn:E. intros [= -> <-]. rewrite (chunked_take_app _ s _ _ _ E eq_refl). cbn. by destruct (chunked_take s d).
Qed.

Lemma chunked_take_prefix k a c : (chunked_take a c).1 = length a -> (chunked_take (take k a) c).1 = length (take k a).
Proof.
  revert a c. induction k as [|k IH]; intros a c; [done|]. destruct a as [|b a]; [done|]. cbn [take chunked_take length].
  destruct (chunked_complete c); [done|]. specialize (IH a (chunk_byte b c)). destruct (chunked_take a _), (chunked_take (take k a) _).
  cbn in *. intros [= Ha]. by rewrite IH.
Qed.

Lemma body_take_prefix k a body : body_wf body -> (body_take a body).1 = length a -> (body_take (take k a) body).1 = length (take k a).
Proof.
  destruct body as [|togo|c]; cbn [body_wf body_take fst]; intros Hw.
  - intros Ha. destruct a; [by rewrite take_nil|done].
  - unfold len. rewrite length_take. lia.
  - pose proof (chunked_take_prefix k a c) as Hp. destruct (chunked_take a c), (chunked_take (take k a) c). exact Hp.
Qed.

(** What the relay sends is a piece of the body. *)
Lemma client_to_backend_body turns body :
  body_wf body -> (body_take (client_to_backend turns body) body).1 = length (client_to_backend turns body).
Proof.
  assert (forall body, body_wf body -> (body_take [] body).1 = O) as Hnil by (intros b Hb; pose proof (body_take_le [] b Hb) as Hle; cbn in Hle; lia).
  revert body. induction turns as [|[rd fails] turns IH]; intros body Hw; cbn [client_to_backend].
  { destruct (body_complete body); by apply Hnil. }
  destruct (body_complete body); [by apply Hnil|]. destruct rd as [buf| | |]; try by apply Hnil. case_bool_decide; [by apply Hnil|].
  pose proof (body_take_le buf body Hw) as Hle. pose proof (body_take_wf buf body Hw) as Hw'.
  destruct (body_take buf body) as [n body'] eqn:E. cbn [fst snd] in *.
  assert (length (take n buf) = n) as Hn by (rewrite length_take; lia).
  pose proof (body_take_take buf body n body' Hw E) as Et. rewrite <- Hn in Et at 2.
  destruct fails as [sent|]; [apply body_take_prefix; [done|by rewrite Et]|].
  rewrite (body_take_app _ _ _ _ Hw Et). cbn [fst]. rewrite length_app. f_equal. destruct (_ <? _)%nat; [by apply Hnil|by apply IH].
Qed.

Lemma declared_length_nonneg `{HL : HeaderMapLaws H} values seen togo :
  (forall n, seen = Some n -> 0 <= n) -> declared_length (H := H) values seen = Some (Some togo) -> 0 <= togo.
Proof.
  revert seen. induction values as [|v values IH]; intros seen Hs; cbn [declared_length]; [intros [= ->]; by apply Hs|].
  destruct (value_to_str v) as [t|]; [|done]. cbn [mbind option_bind]. destruct (parse_uint (umax 64) (trim t)) as [n|] eqn:E; [|done].
  cbn [mbind option_bind]. assert (forall k, Some n = Some k -> 0 <= k) as Hk.
  { intros k [= <-]. apply parse_uint_range in E; [lia|]. by vm_compute. }
  destruct seen as [k|]; [destruct (negb _); [done|]|]; by apply IH.
Qed.

Lemma declared_wf `{HL : HeaderMapLaws H} (h : H) : body_wf (declared h).
Proof.
  unfold declared. destruct (contains_key _ h); [done|]. destruct (declared_length _ None) as [[togo|]|] eqn:E; [|done..].
  eapply (declared_length_nonneg (H := H)); [|exact E]. by intros n.
Qed.

(** ** One connection, one request, one of the proxied names *)

Lemma first_proxied_host_some `{HL : HeaderMapLaws H} values domains host :
  first_proxied_host (H := H) values domains = Some host ->
  exists value text, value ∈ values /\ value_to_str (H := H) value = Some text /\ (host_and_port text).1 = host /\ should_proxy_domain host domains = true.
Proof.
  induction values as [|v values IH]; cbn [first_proxied_host]; [done|]. destruct (value_to_str v) as [t|] eqn:E.
  - destruct (should_proxy_domain (host_and_port t).1 domains) eqn:Ed; intros Hf.
    + injection Hf as <-. exists v, t. split; [by left|done].
    + destruct (IH Hf) as (v' & t' & ? & ?). exists v', t'. split; [by right|done].
  - intros Hf. destruct (IH Hf) as (v' & t' & ? & ?). exists v', t'. split; [by right|done].
Qed.

Section Bounded.
Variable method_ok : bytes -> bool.
Variable uri_ok : bytes -> bool.
Variable uri_string : bytes -> bytes.
Variable path_and_query : bytes -> bytes.
Variable header_name_of : bytes -> option bytes.
Variable value_ok : bytes -> bool.
Context `{HL : HeaderMapLaws H}.

Abbreviation parse := (parse_http_request_legacy (H := H) method_ok uri_ok header_name_of value_ok).
Abbreviation connection := (handle_local_connection (H := H) method_ok uri_ok uri_string path_and_query header_name_of value_ok).

(** The first request of what a backend was sent, as this proxy would read it back, lines
    ending at CRLF and nowhere else: its head, the part of its body that arrived, and what
    follows it. *)
Definition reread (sent : bytes) : option (Request (H := H) * bytes * bytes) :=
  p ← find_head_end sent;
  r ← parse (take (p + 4) sent);
  let rest := drop (p + 4) sent in
  let taken := (body_take rest (declared (rq_headers r))).1 in
  Some (r, take taken rest, drop taken rest).

(** No [Connection] of the head names the request line or a field that frames the request
    or says its host. *)
Definition connection_calm (block : bytes) : Prop :=
  match block_lines block with
  | [] => True
  | l0 :: ls =>
      forall l n, l = l0 \/ (l ∈ ls /\ exists name, name ∈ FRAMING /\ line_values header_name_of name (from_utf8_lossy l) <> []) ->
        line_name l = Some n -> n ∉ nominated_hop_by_hop block
  end.

Lemma connection_calm_head l0 ls :
  one_line l0 -> fields_ok ls -> connection_calm (head_of l0 ls) -> calm_connection header_name_of l0 ls.
Proof.
  intros Hl0 Hls. unfold connection_calm. unfold head_of at 1. rewrite block_lines_unlines by (constructor; [done|by apply fields_lines]).
  intros Hc l n Hl Hn. apply (Hc l n); [|done]. destruct Hl as [->|[Hl Hv]]; [by left|]. right. split; [|done]. apply elem_of_app. by left.
Qed.

Lemma connection_plain reads domains connects host headers buf he :
  connection reads domains connects = D_plain host headers buf he ->
  exists r, headers = rq_headers r /\ parse (take he buf) = Some r /\ find_head_end buf = Some (he - 4)%nat /\ (4 <= he <= length buf)%nat /\
    len (get_all (lit "host") headers) <= 1 /\ first_proxied_host (H := H) (get_all (lit "host") headers) domains = Some host.
Proof.
  unfold handle_local_connection. destruct reads as [|[[|b c]| | |] reads]; try done. destruct (is_tls_handshake b); [done|].
  destruct (read_http_header reads (b :: c)) as [request_buf [e|]] eqn:E; [|done]. destruct (read_head_complete _ _ _ _ E) as [Hf Hl].
  destruct (parse (take e request_buf)) as [r|] eqn:Ep; [|done]. case_bool_decide.
  { destruct (parse_connect_target _) as [[? ?]|]; [|done]. destruct (negb _); [done|]. by destruct (negb _). }
  unfold dispatch. destruct (1 <? _) eqn:E1; [done|]. destruct (first_proxied_host _ _) as [h|] eqn:Eh; [|done].
  destruct (_ && _); [done|]. intros [= <- <- <- <-]. exists r. apply Z.ltb_ge in E1. done.
Qed.

(** What leaves a plain request, of a head of the given shape. *)
Lemma plain_sent l0 ls rest headers opened turns sent :
  handle_plain_request headers (head_of l0 ls ++ rest) (length (head_of l0 ls)) opened turns = PlainForwarded sent ->
  exists w, sent = filter_request_headers (head_of l0 ls) false ++ w /\ (body_take w (declared headers)).1 = length w.
Proof.
  unfold handle_plain_request. rewrite drop_app_length, take_app_length. pose proof (declared_wf headers) as Hw.
  pose proof (body_take_le rest _ Hw) as Hle. pose proof (body_take_wf rest _ Hw) as Hw'.
  destruct (body_take rest (declared headers)) as [n body] eqn:E. cbn [fst snd] in *.
  destruct (n <? length rest)%nat eqn:En; [done|]. apply Nat.ltb_ge in En. destruct opened; [|done]. cbn [negb]. intros [= <-].
  exists (rest ++ client_to_backend turns body). split; [by rewrite <- app_assoc|]. replace n with (length rest) in E by lia.
  rewrite (body_take_app _ _ _ _ Hw E). cbn [fst]. rewrite length_app, client_to_backend_body by done. done.
Qed.

Hypothesis method_token : forall m, method_ok m = true -> COLON ∉ m.
Hypothesis name_lower : forall s n, header_name_of s = Some n -> n = to_ascii_lowercase s.

Lemma reread_sent l0 ls r w :
  one_line l0 -> fields_ok ls -> connection_calm (head_of l0 ls) -> parse (head_of l0 ls) = Some r ->
  (body_take w (declared (rq_headers r))).1 = length w ->
  exists r', reread (filter_request_headers (head_of l0 ls) false ++ w) = Some (r', w, []) /\ rq_method r' = rq_method r /\ rq_uri r' = rq_uri r /\
    forall m, m ∈ FRAMING -> get_all m (rq_headers r') = get_all m (rq_headers r).
Proof.
  intros Hl0 Hls Hcalm Hp Hw.
  destruct (forwarded_parse method_ok uri_ok header_name_of value_ok method_token name_lower l0 ls r Hl0 Hls) as (r' & Hf & Hp' & Hm & Hu & Hg);
    [by apply connection_calm_head|done|].
  exists r'. split; [|done]. pose proof (kept_fields_ok l0 ls Hls) as Hk. rewrite Hf. unfold reread. rewrite shape_find by done. cbn [mbind option_bind].
  set (hd := head_of l0 (kept_fields l0 ls)) in *. assert (length hd - 4 + 4 = length hd)%nat as ->.
  { assert (4 <= length hd)%nat; [|lia]. subst hd. unfold head_of. rewrite unlines_cons, length_app. unfold unlines. rewrite bind_app, !length_app. cbn. lia. }
  rewrite take_app_length, drop_app_length, Hp'. cbn [mbind option_bind]. rewrite (declared_get_all _ _ Hg), Hw. by rewrite take_ge, drop_ge.
Qed.

(** What a plain connection sends: a head of the request line and the fields that were kept,
    and bytes of the body the head that was read declares. *)
Lemma plain_forwarded reads domains connects host headers buf he opened turns sent :
  connection reads domains connects = D_plain host headers buf he ->
  connection_calm (take he buf) ->
  handle_plain_request headers buf he opened turns = PlainForwarded sent ->
  exists r l0 ls w text,
    take he buf = head_of l0 ls /\ one_line l0 /\ fields_ok ls /\ parse (head_of l0 ls) = Some r /\
    sent = filter_request_headers (head_of l0 ls) false ++ w /\ filter_request_headers (head_of l0 ls) false = head_of l0 (kept_fields l0 ls) /\
    (body_take w (declared (rq_headers r))).1 = length w /\
    get_all (lit "host") (rq_headers r) = [text] /\ (host_and_port text).1 = host /\ should_proxy_domain host domains = true.
Proof.
  intros Hc Hcalm Hs. destruct (connection_plain _ _ _ _ _ _ _ Hc) as (r & -> & Hp & Hf & Hlen & Hhost & Hfirst).
  destruct (find_head_shape _ _ Hf) as (l0 & ls & Ht & Hl0 & Hls). replace (he - 4 + 4)%nat with he in Ht by lia.
  rewrite <- (take_drop he buf), Ht in Hs. assert (length (head_of l0 ls) = he) as Hhe by (rewrite <- Ht, length_take; lia).
  rewrite <- Hhe in Hs at 2. destruct (plain_sent _ _ _ _ _ _ _ Hs) as (w & -> & Hw). rewrite Ht in *.
  destruct (forwarded_parse method_ok uri_ok header_name_of value_ok method_token name_lower l0 ls r Hl0 Hls) as (r' & Hfil & _);
    [by apply connection_calm_head|done|].
  destruct (first_proxied_host_some _ _ _ Hfirst) as (value & text & Hin & Htext%value_to_str_same & Hh & Hd). subst text.
  exists r, l0, ls, w, value. split_and!; try done.
  destruct (get_all (lit "host") (rq_headers r)) as [|v [|v2 vs]]; [by apply not_elem_of_nil in Hin|set_solver|unfold len in Hhost; cbn in Hhost; lia].
Qed.
End Bounded.
