(* ===== verification/LocalServer.v ===== *)
(** * A server's reading of what the local proxy sends

    [LocalHttp] shows what leaves the proxy.  A server need not read a head with the
    proxy's own parser: RFC 9112 (2.2) lets it end a line at a bare line feed.  The file
    has such a reader, with the grammar of RFC 9112 for the rest (one space between the
    words of the request line, names that are tokens up to their colon, values without
    control characters, a length of digits, [chunked] last), which refuses what the
    grammar does not have.  It shows that this server reads one request, for the name the
    proxy let through, of every head without a bare line feed, and that a bare line feed
    hides from the proxy the host such a server reads. *)

From S2P Require Import Prelude RustStd Host Tls VirtualIp Invite Headers WebSocket LocalHttp.

(** ** The server *)

Definition SP : Z := 32.
(** Tokens of RFC 9110, the bytes of a field's value, and the white space around it. *)
Definition is_tchar (b : Z) : bool :=
  is_ascii_digit b || is_ascii_uppercase b || is_ascii_lowercase b || bool_decide (b ∈ lit "!#$%&'*+-.^_`|~").
Definition is_token (s : bytes) : bool := negb (bool_decide (s = [])) && forallb is_tchar s.
Definition is_field_value (s : bytes) : bool := forallb (fun b => (b =? 9) || (32 <=? b) && negb (b =? 127)) s.
Definition is_ows (b : Z) : bool := (b =? 32) || (b =? 9).
Definition is_graphic (s : bytes) : bool := forallb is_ascii_graphic s.

Definition strip_cr (line : bytes) : bytes :=
  match reverse line with c :: t => if c =? CR then reverse t else line | [] => line end.

(** The lines up to the empty one, and what follows it. *)
Fixpoint server_lines (fuel : nat) (s : bytes) : option (list bytes * bytes) :=
  match fuel with
  | O => None
  | S fuel =>
      '(line, rest) ← split_once LF s;
      let line := strip_cr line in
      if bool_decide (line = []) then Some ([], rest)
      else '(lines, rest) ← server_lines fuel rest; Some (line :: lines, rest)
  end.

Record ServerRequest := { sr_method : bytes; sr_target : bytes; sr_fields : list (bytes * bytes) }.

Definition server_request_line (line : bytes) : option (bytes * bytes) :=
  '(method, rest) ← split_once SP line;
  '(target, version) ← split_once SP rest;
  if is_token method && negb (bool_decide (target = [])) && is_graphic target && starts_with (lit "HTTP/") version && is_graphic version
  then Some (method, target) else None.

Definition server_field (line : bytes) : option (bytes * bytes) :=
  '(name, value) ← split_once COLON line;
  if is_token name && is_field_value value then Some (to_ascii_lowercase name, trim_matches is_ows value) else None.

Definition server_head (lines : list bytes) : option ServerRequest :=
  match lines with
  | [] => None
  | request_line :: lines =>
      '(method, target) ← server_request_line request_line;
      fields ← mapM server_field lines;
      Some {| sr_method := method; sr_target := target; sr_fields := fields |}
  end.

Definition server_values (name : bytes) (fields : list (bytes * bytes)) : list bytes := snd <$> filter (fun f => f.1 = name) fields.

Definition server_framing (q : ServerRequest) : option Body :=
  match server_values (lit "transfer-encoding") (sr_fields q) with
  | [] =>
      match server_values (lit "content-length") (sr_fields q) with
      | [] => Some BNone
      | value :: values =>
          if negb (bool_decide (value = [])) && forallb is_ascii_digit value && forallb (fun v => bool_decide (v = value)) values
          then BLength <$> parse_uint (umax 64) value else None
      end
  | codings =>
      if bool_decide (to_ascii_lowercase <$> (trim_matches is_ows <$> (last codings ≫= fun v => last (split_on 44 v))) = Some (lit "chunked"))
      then Some (BChunked chunked_default) else None
  end.

(** The first request of a stream of bytes, the part of its body that arrived, and what
    follows it; a host is visible ASCII.  [None] is a request that is refused or not over. *)
Definition server_reads (sent : bytes) : option (ServerRequest * bytes * bytes) :=
  '(lines, rest) ← server_lines (S (length sent)) sent;
  q ← server_head lines;
  if forallb is_graphic (server_values (lit "host") (sr_fields q)) then
    body ← server_framing q;
    let taken := (body_take rest body).1 in Some (q, take taken rest, drop taken rest)
  else None.

(** ** Its lines *)

Lemma strip_cr_line l : strip_cr (l ++ [CR]) = l.
Proof. unfold strip_cr. rewrite reverse_snoc. cbn. by rewrite reverse_involutive. Qed.

(** A head of lines without a line feed is read as those lines. *)
Lemma server_lines_head ls w fuel :
  Forall (fun l => l <> [] /\ LF ∉ l) ls -> (length ls < fuel)%nat -> server_lines fuel (unlines (ls ++ [[]]) ++ w) = Some (ls, w).
Proof.
  intros Hls. revert fuel. induction Hls as [|l ls [Hne Hlf] _ IH]; intros fuel Hf; (destruct fuel as [|fuel]; [cbn in Hf; lia|]); cbn [app length] in *.
  - unfold unlines. cbn. done.
  - rewrite unlines_cons. cbn [server_lines].
    replace ((l ++ CRLF ++ unlines (ls ++ [[]])) ++ w) with ((l ++ [CR]) ++ LF :: unlines (ls ++ [[]]) ++ w) by (by rewrite <- !app_assoc).
    rewrite split_once_app by (unfold CR, LF in *; set_solver). cbn [mbind option_bind]. rewrite strip_cr_line, bool_decide_eq_false_2 by done.
    rewrite IH by lia. done.
Qed.

(** ** Words and values *)

Lemma token_graphic s : is_token s = true -> graphic s /\ s <> [] /\ COLON ∉ s.
Proof.
  unfold is_token. intros [Hne%negb_true_iff%bool_decide_eq_false Hs]%andb_true_iff. apply forallb_Forall in Hs.
  assert (forall b, is_tchar b = true -> is_ascii_graphic b = true /\ b <> COLON) as Hb.
  { intros b. unfold is_tchar, is_ascii_graphic, is_ascii_digit, is_ascii_uppercase, is_ascii_lowercase, COLON.
    rewrite !orb_true_iff, !andb_true_iff. intros [[[H|H]|H]|H]; [bools; rewrite !Z.leb_le; lia..|].
    apply bool_decide_eq_true in H. assert (forallb (fun b => (33 <=? b) && (b <=? 126) && negb (b =? 58)) (lit "!#$%&'*+-.^_`|~") = true) as Ha by reflexivity.
    apply forallb_Forall in Ha. rewrite Forall_forall in Ha. specialize (Ha b H). cbn beta in Ha. bools. rewrite !Z.leb_le. lia. }
  split; [|split; [done|]].
  - eapply Forall_impl; [exact Hs|]. intros b Hc. by apply Hb.
  - intros Hin. rewrite Forall_forall in Hs. by destruct (Hb COLON (Hs COLON Hin)).
Qed.

Lemma is_graphic_spec s : is_graphic s = true <-> graphic s.
Proof. unfold is_graphic. apply forallb_Forall. Qed.

(** The first word is what stands before the first space. *)
Lemma words_space g fuel s :
  graphic g -> g <> [] -> words (length g + S fuel) [] (g ++ SP :: s) = g :: words fuel [] s.
Proof.
  intros Hg Hne. rewrite words_graphic by done. cbn [app words].
  assert (strip_any strip_prefix ws_chars (SP :: s) = Some s) as -> by reflexivity. by rewrite bool_decide_eq_false_2.
Qed.

Lemma split_whitespace_line method target version :
  graphic method -> method <> [] -> graphic target -> target <> [] ->
  exists rest, split_whitespace (method ++ SP :: target ++ SP :: version) = method :: target :: rest.
Proof.
  intros Hm Hmn Ht Htn. unfold split_whitespace.
  replace (S (length (method ++ SP :: target ++ SP :: version))) with (length method + S (length target + S (S (length version))))%nat
    by (rewrite !length_app; cbn; rewrite length_app; cbn; lia).
  rewrite words_space by done. rewrite words_space by done. by eexists.
Qed.

Lemma ows_ascii b : is_ows b = true -> ascii b /\ (b = 9 \/ b = 32).
Proof. unfold is_ows, ascii. intros H%orb_true_iff. bools. lia. Qed.

Lemma lossy_ascii s : Forall ascii s -> from_utf8_lossy s = s.
Proof.
  induction 1 as [|b n Hb _ IH]; [done|]. change (b :: n) with ([] ++ b :: n). rewrite from_utf8_lossy_app by done. by rewrite IH.
Qed.

Lemma strip_all_front fuel d s : Forall (fun b => is_ows b = true) d -> strip_all (length d + fuel) strip_prefix (d ++ s) = strip_all fuel strip_prefix s.
Proof.
  induction 1 as [|b d Hb _ IH]; [done|]. cbn [length Nat.add app strip_all].
  assert (strip_any strip_prefix ws_chars (b :: d ++ s) = Some (d ++ s)) as -> by (apply ows_ascii in Hb as [_ [-> | ->]]; reflexivity). exact IH.
Qed.

Lemma strip_suffix_one b s : strip_suffix [b] (s ++ [b]) = Some s.
Proof. apply strip_suffix_Some. done. Qed.

Lemma strip_suffix_other b c s : b <> c -> strip_suffix [c] (s ++ [b]) = None.
Proof.
  intros Hne. destruct (strip_suffix [c] (s ++ [b])) as [r|] eqn:E; [|done]. apply strip_suffix_Some in E. apply app_inj_tail in E as [_ ?]. done.
Qed.

Lemma strip_all_back fuel d s : Forall (fun b => is_ows b = true) d -> strip_all (length d + fuel) strip_suffix (s ++ d) = strip_all fuel strip_suffix s.
Proof.
  induction d as [|b d IH] using rev_ind; intros Hd; [by rewrite app_nil_r|]. apply Forall_app in Hd as [Hd Hb]. apply Forall_cons in Hb as [Hb _].
  replace (length (d ++ [b]) + fuel)%nat with (S (length d + fuel)) by (rewrite length_app; cbn; lia). cbn [strip_all].
  assert (strip_any strip_suffix ws_chars (s ++ d ++ [b]) = Some (s ++ d)) as ->; [|by apply IH].
  rewrite app_assoc. unfold ws_chars. cbn [app strip_any]. apply ows_ascii in Hb as [_ [-> | ->]];
    repeat (rewrite strip_suffix_other by done); by rewrite strip_suffix_one.
Qed.

(** White space of a field around visible ASCII is what [trim] takes off. *)
Lemma trim_ows v : graphic (trim_matches is_ows v) -> trim (from_utf8_lossy v) = trim_matches is_ows v.
Proof.
  intros Hg. unfold trim_matches, trim_start_matches in *. set (s := trim_end_matches is_ows v) in *.
  destruct (trim_end_matches_spec is_ows v) as (d & Hv & Hd). fold s in Hv.
  assert (exists d1, s = d1 ++ drop_while is_ows s /\ Forall (fun b => is_ows b = true) d1) as (d1 & Hs & Hd1).
  { clear. induction s as [|b s (d1 & Hs & Hd1)]; [by exists []|]. cbn. destruct (is_ows b) eqn:E; [|by exists []].
    exists (b :: d1). cbn. rewrite <- Hs. split; [done|by constructor]. }
  set (g := drop_while is_ows s) in *. rewrite Hv, Hs.
  assert (forall l, Forall (fun b => is_ows b = true) l -> Forall ascii l) as Hoa by (intros l Hl; eapply Forall_impl; [exact Hl|]; intros b Hb; by apply ows_ascii).
  rewrite lossy_ascii.
  2:{ rewrite !Forall_app. split; [split; [by apply Hoa|]|by apply Hoa]. eapply Forall_impl; [exact Hg|]. intros b Hb. unfold is_ascii_graphic, ascii in *. bools. lia. }
  unfold trim. rewrite <- app_assoc, length_app, strip_all_front by done.
  assert (strip_all (length (g ++ d)) strip_prefix (g ++ d) = if bool_decide (g = []) then [] else g ++ d) as ->.
  { case_bool_decide as Hgn.
    - rewrite Hgn. cbn [app]. pose proof (strip_all_front 0 d [] Hd) as E. by rewrite Nat.add_0_r, app_nil_r in E.
    - apply strip_all_none. destruct g as [|b g']; [done|]. cbn [app]. apply graphic_not_space. by inversion Hg. }
  case_bool_decide as Hgn; [by rewrite Hgn|]. rewrite length_app, Nat.add_comm, strip_all_back by done.
  apply strip_all_none, strip_any_none. intros w Hw. destruct (strip_suffix w g) as [r|] eqn:Er; [|done].
  apply strip_suffix_Some in Er. by destruct (graphic_no_edge g Hg w r Hw).
Qed.

(** ** Its request *)

Section Read.
Variable method_ok : bytes -> bool.
Variable uri_ok : bytes -> bool.
Variable uri_string : bytes -> bytes.
Variable path_and_query : bytes -> bytes.
Variable header_name_of : bytes -> option bytes.
Variable value_ok : bytes -> bool.
Context `{HL : HeaderMapLaws H}.
(** A method is a token, a header name is its text in lower case, and visible ASCII is
    text. *)
Hypothesis method_token : forall m, method_ok m = true -> COLON ∉ m.
Hypothesis name_lower : forall s n, header_name_of s = Some n -> n = to_ascii_lowercase s.
Hypothesis visible_text : forall v, graphic v -> value_to_str (H := H) v = Some v.

Abbreviation parse := (parse_http_request_legacy (H := H) method_ok uri_ok header_name_of value_ok).
Abbreviation connection := (handle_local_connection (H := H) method_ok uri_ok uri_string path_and_query header_name_of value_ok).

Lemma server_line_same l0 method target :
  server_request_line l0 = Some (method, target) -> exists rest, split_whitespace (from_utf8_lossy l0) = method :: target :: rest.
Proof using Type.
  unfold server_request_line. destruct (split_once SP l0) as [[m rest]|] eqn:E1; [|done]. cbn [mbind option_bind].
  destruct (split_once SP rest) as [[t v]|] eqn:E2; [|done]. cbn [mbind option_bind]. apply split_once_Some in E1 as [-> _]. apply split_once_Some in E2 as [-> _].
  destruct (is_token m) eqn:Em; [|done]. destruct (bool_decide (t = [])) eqn:Et; [done|]. destruct (is_graphic t) eqn:Eg; [|done]. cbn [andb negb].
  destruct (_ && _); [|done]. intros [= <- <-]. apply token_graphic in Em as (Hm & Hmn & _). apply is_graphic_spec in Eg. apply bool_decide_eq_false in Et.
  rewrite !from_utf8_lossy_app by (unfold ascii, SP; lia). rewrite !lossy_graphic by done. by apply split_whitespace_line.
Qed.

(** A field the server reads is one the proxy reads, with the same value where that is
    visible ASCII. *)
Lemma server_field_same l name value m :
  server_field l = Some (name, value) -> line_ok header_name_of value_ok (from_utf8_lossy l) = true ->
  if bool_decide (name = m) then exists v, line_values header_name_of m (from_utf8_lossy l) = [v] /\ (graphic value -> v = value)
  else line_values header_name_of m (from_utf8_lossy l) = [].
Proof using name_lower.
  unfold server_field. destruct (split_once COLON l) as [[n v]|] eqn:E; [|done]. cbn [mbind option_bind]. apply split_once_Some in E as [-> _].
  destruct (is_token n) eqn:En; [|done]. destruct (is_field_value v); [|done]. cbn [andb]. intros [= <- <-]. apply token_graphic in En as (Hg & _ & Hc).
  rewrite from_utf8_lossy_app by (unfold ascii, COLON; lia). rewrite lossy_graphic by done. unfold line_ok, line_values. rewrite split_once_app by done.
  rewrite trim_graphic by done. destruct (header_name_of n) as [n'|] eqn:Eh; [|done]. apply name_lower in Eh as ->. intros _.
  destruct (decide (to_ascii_lowercase n = m)) as [->|Hne].
  - rewrite !bool_decide_eq_true_2 by done. eexists. split; [done|]. apply trim_ows.
  - rewrite !bool_decide_eq_false_2; [done|congruence|done].
Qed.

Lemma server_values_same m ls fields :
  mapM server_field ls = Some fields -> Forall (fun l => line_ok header_name_of value_ok (from_utf8_lossy l) = true) ls ->
  Forall2 (fun value v => graphic value -> v = value) (server_values m fields) (ls ≫= fun l => line_values header_name_of m (from_utf8_lossy l)).
Proof using name_lower.
  revert fields. induction ls as [|l ls IH]; intros fields; cbn [mapM]; [intros [= <-] _; constructor|].
  destruct (server_field l) as [[name value]|] eqn:E; [|done]. cbn [mbind option_bind]. destruct (mapM server_field ls) as [fs|]; [|done].
  intros [= <-] [Hl Hls]%Forall_cons. specialize (IH fs eq_refl Hls). pose proof (server_field_same l name value m E Hl) as Hs.
  unfold server_values in *. rewrite filter_cons. cbn [fst]. cbn [mbind list_bind]. case_bool_decide as Hm.
  - rewrite decide_True by done. destruct Hs as (v & -> & Hv). cbn [fmap list_fmap app]. by constructor.
  - rewrite decide_False, Hs by done. done.
Qed.

Lemma same_all value values vs :
  Forall (fun v => v = value) values -> graphic value -> Forall2 (fun value v => graphic value -> v = value) values vs -> Forall (fun v => v = value) vs.
Proof using Type. intros Hall Hg H2. induction H2 as [|x v xs vs Hv _ IH]; [constructor|]. apply Forall_cons in Hall as [-> Hall]. constructor; [by apply Hv|by apply IH]. Qed.

(** The body it waits for is the one the proxy measured. *)
Lemma server_framing_same q (h : H) body :
  (forall m, Forall2 (fun value v => graphic value -> v = value) (server_values m (sr_fields q)) (get_all m h)) ->
  server_framing q = Some body -> body = declared h.
Proof using visible_text.
  intros Hsame. unfold server_framing, declared, contains_key. pose proof (Hsame (lit "transfer-encoding")) as Hte.
  destruct (server_values (lit "transfer-encoding") (sr_fields q)) as [|te tes].
  2:{ inversion Hte as [|? ? ? ? ? ? E1 E2]. case_bool_decide; [|done]. intros [= <-]. by rewrite bool_decide_eq_false_2. }
  apply Forall2_nil_inv_l in Hte as ->. rewrite bool_decide_eq_true_2 by done. cbn [negb]. pose proof (Hsame (lit "content-length")) as Hcl.
  destruct (server_values (lit "content-length") (sr_fields q)) as [|value values].
  { apply Forall2_nil_inv_l in Hcl as ->. by intros [= <-]. }
  destruct (bool_decide (value = [])) eqn:Ev; [done|]. destruct (forallb is_ascii_digit value) eqn:Ed; [|done].
  destruct (forallb (fun v => bool_decide (v = value)) values) eqn:Ea; [|done]. cbn [andb negb].
  assert (graphic value) as Hg.
  { apply forallb_Forall in Ed. eapply Forall_impl; [exact Ed|]. intros b Hb. unfold is_ascii_digit, is_ascii_graphic in *. bools. rewrite andb_true_iff, !Z.leb_le. lia. }
  apply Forall2_cons_inv_l in Hcl as (v & vs & Hv & Hvs & ->). rewrite (Hv Hg).
  assert (Forall (fun v => v = value) vs) as Hall.
  { eapply same_all; [|exact Hg|exact Hvs]. apply forallb_Forall in Ea. eapply Forall_impl; [exact Ea|]. intros x Hx. by apply bool_decide_eq_true in Hx. }
  destruct (parse_uint (umax 64) value) as [n|] eqn:En; [|done]. cbn. intros [= <-].
  rewrite visible_text by done. cbn [mbind option_bind]. rewrite trim_graphic, En by done. cbn [mbind option_bind].
  assert (declared_length (H := H) vs (Some n) = Some (Some n)) as ->; [|done].
  clear Hvs. induction Hall as [|x vs -> _ IH]; [done|]. cbn [declared_length]. rewrite visible_text by done. cbn [mbind option_bind].
  rewrite trim_graphic, En by done. cbn [mbind option_bind]. by rewrite Z.eqb_refl.
Qed.

(** No line of a head holds a line feed that does not end it. *)
Definition no_bare_lf (block : bytes) : Prop := Forall (fun l => LF ∉ l) (block_lines block).

(** C31: what a plain connection of the local proxy sends to a backend is one request and
    nothing behind it, however the bytes of the connection arrive and wherever the relay
    stops, unless a [Connection] field names the framing away.  By the proxy's own rules,
    under which only CRLF ends a line, it always is: its only [Host] is one of the proxied
    names, its method and target are those that were read, and every byte after its head is
    of the body that head declares.  A server that also ends its lines at a bare line feed,
    and refuses what is not of the grammar of RFC 9112, reads no other request than that, with
    that one [Host] and nothing behind it, of every head that holds no bare line feed. *)
Theorem local_request_bounded reads domains connects host headers buf he opened turns sent :
  connection reads domains connects = D_plain host headers buf he ->
  connection_calm header_name_of (take he buf) ->
  handle_plain_request headers buf he opened turns = PlainForwarded sent ->
  exists r0 text,
    parse (take he buf) = Some r0 /\ (host_and_port text).1 = host /\ should_proxy_domain host domains = true /\
    (exists r body, reread (H := H) method_ok uri_ok header_name_of value_ok sent = Some (r, body, []) /\
       rq_method r = rq_method r0 /\ rq_uri r = rq_uri r0 /\ get_all (lit "host") (rq_headers r) = [text]) /\
    (no_bare_lf (take he buf) -> forall q body rest, server_reads sent = Some (q, body, rest) ->
       rest = [] /\ sr_method q = rq_method r0 /\ sr_target q = rq_uri r0 /\ server_values (lit "host") (sr_fields q) = [text]).
Proof.
  intros Hc Hcalm Hs.
  destruct (plain_forwarded method_ok uri_ok uri_string path_and_query header_name_of value_ok method_token name_lower _ _ _ _ _ _ _ _ _ _ Hc Hcalm Hs)
    as (r0 & l0 & ls & w & text & Ht & Hl0 & Hls & Hp & -> & Hf & Hw & Hhost & Hh & Hd).
  rewrite Ht in *. exists r0, text. split; [done|]. split; [done|]. split; [done|]. split.
  { destruct (reread_sent method_ok uri_ok header_name_of value_ok method_token name_lower l0 ls r0 w Hl0 Hls Hcalm Hp Hw) as (r & Hr & Hm & Hu & Hg).
    exists r, w. split; [done|]. split; [done|]. split; [done|]. rewrite Hg by (unfold FRAMING; set_solver). done. }
  intros Hlf q body rest. rewrite Hf.
  destruct (parse_head method_ok uri_ok header_name_of value_ok l0 ls r0 Hl0 Hls Hp) as (Hok & Hg & (words_ & Hwords) & _ & _).
  destruct (forwarded_parse method_ok uri_ok header_name_of value_ok method_token name_lower l0 ls r0 Hl0 Hls) as (r' & _ & Hp' & _ & _ & Hkept);
    [by apply connection_calm_head|done|].
  pose proof (kept_fields_ok l0 ls Hls) as Hk.
  destruct (parse_head method_ok uri_ok header_name_of value_ok l0 _ r' Hl0 Hk Hp') as (Hokk & Hgk & _).
  assert (Forall (fun l => l <> [] /\ LF ∉ l) (l0 :: kept_fields l0 ls)) as Hlines.
  { unfold no_bare_lf, head_of in Hlf. rewrite block_lines_unlines in Hlf by (constructor; [done|by apply fields_lines]).
    apply Forall_cons in Hlf as [Hlf0 Hlf]. apply Forall_app in Hlf as [Hlf _]. constructor.
    - split; [|done]. intros ->. by vm_compute in Hwords.
    - apply Forall_forall. intros l Hin. split; [by apply (proj1 (Forall_forall _ _) Hk l Hin)|]. rewrite Forall_forall in Hlf. apply Hlf.
      unfold kept_fields in Hin. by apply list_elem_of_filter in Hin as [_ ?]. }
  unfold server_reads, head_of. change (l0 :: kept_fields l0 ls ++ [[]]) with ((l0 :: kept_fields l0 ls) ++ [[]]).
  rewrite server_lines_head; [|done|].
  2:{ rewrite length_app. unfold unlines. clear. generalize (l0 :: kept_fields l0 ls) as k. induction k as [|l k IH]; cbn [length app mbind list_bind] in *; [lia|].
      rewrite length_app, length_app in *. cbn in *. lia. }
  cbn [mbind option_bind server_head]. destruct (server_request_line l0) as [[method target]|] eqn:El; [|done]. cbn [mbind option_bind].
  destruct (mapM server_field (kept_fields l0 ls)) as [fields|] eqn:Em; [|done]. cbn [mbind option_bind].
  destruct (server_line_same l0 method target El) as (rest' & Hw'). rewrite Hwords in Hw'. injection Hw' as Hmethod Htarget _.
  assert (forall m, Forall2 (fun value v => graphic value -> v = value) (server_values m fields) (get_all m (rq_headers r'))) as Hsame.
  { intros m. rewrite Hgk. by apply server_values_same. }
  destruct (forallb is_graphic _) eqn:Ehosts; [|done]. cbn [sr_fields] in Ehosts. set (q0 := {| sr_method := method; sr_target := target; sr_fields := fields |}).
  destruct (server_framing q0) as [b|] eqn:Eb; [|done]. cbn [mbind option_bind]. intros [= <- <- <-].
  pose proof (server_framing_same q0 (rq_headers r') b Hsame Eb) as Hb. rewrite (declared_get_all _ _ Hkept) in Hb. subst b.
  split; [rewrite Hw; by apply drop_ge|]. split; [done|]. split; [done|]. cbn [sr_fields q0].
  pose proof (Hsame (lit "host")) as Hhosts. rewrite Hkept, Hhost in Hhosts by (unfold FRAMING; set_solver).
  destruct (server_values (lit "host") fields) as [|x xs]; [by inversion Hhosts|]. apply Forall2_cons in Hhosts as [Hx Hxs].
  apply Forall2_nil_inv_r in Hxs as ->. cbn in Ehosts. apply andb_true_iff in Ehosts as [Eg%is_graphic_spec _]. by rewrite (Hx Eg).
Qed.
End Read.

(** ** A connection, played *)

Definition played_name (s : bytes) : option bytes := if is_token s then Some (to_ascii_lowercase s) else None.

Lemma played_name_lower s n : played_name s = Some n -> n = to_ascii_lowercase s.
Proof. unfold played_name. destruct (is_token s); [by intros [= <-]|done]. Qed.

Lemma played_method_token m : is_token m = true -> COLON ∉ m.
Proof. intros H. by apply token_graphic in H as (_ & _ & ?). Qed.

Lemma played_text v : graphic v -> value_to_str (H := list (bytes * bytes)) v = Some v.
Proof.
  intros Hg. cbn. assert (forallb (fun b => (b =? 9) || (32 <=? b) && (b <=? 126)) v = true) as ->; [|done].
  apply forallb_Forall. eapply Forall_impl; [exact Hg|]. intros b Hb. unfold is_ascii_graphic in Hb. bools. apply orb_true_iff. right. apply andb_true_iff. rewrite !Z.leb_le. lia.
Qed.

Abbreviation played_connection :=
  (handle_local_connection (H := list (bytes * bytes)) is_token (fun _ => true) (fun s => s) (fun s => s) played_name is_field_value).
Abbreviation played_reread := (reread (H := list (bytes * bytes)) is_token (fun _ => true) played_name is_field_value).

Definition line_of (s : string) : bytes := lit s ++ CRLF.

(** A post whose body ends in a later read. *)
Definition upload_head : bytes :=
  line_of "POST /up HTTP/1.1" ++ line_of "Host: nas.lan:8080" ++ line_of "Connection: keep-alive, x-hop" ++ line_of "X-Hop: 1" ++
  line_of "Content-Length: 5" ++ CRLF.
Definition upload_sent : bytes :=
  line_of "POST /up HTTP/1.1" ++ line_of "Host: nas.lan:8080" ++ line_of "Content-Length: 5" ++ CRLF ++ lit "hello".

Lemma upload_calm : connection_calm played_name upload_head.
Proof.
  assert (nominated_hop_by_hop upload_head = [lit "keep-alive"; lit "x-hop"]) as En by (vm_compute; reflexivity).
  assert (block_lines upload_head =
    [lit "POST /up HTTP/1.1"; lit "Host: nas.lan:8080"; lit "Connection: keep-alive, x-hop"; lit "X-Hop: 1"; lit "Content-Length: 5"; []]) as Eb
    by (vm_compute; reflexivity).
  assert (forall name, name ∈ FRAMING -> line_values played_name name (from_utf8_lossy (lit "X-Hop: 1")) = []) as Hx.
  { intros name Hn. unfold FRAMING in Hn. rewrite !elem_of_cons in Hn. destruct Hn as [->|[->|[->|Hn]]]; [by vm_compute..|by apply not_elem_of_nil in Hn]. }
  unfold connection_calm. rewrite Eb, En. intros l n Hl Hn. assert (n ∈ [lit "keep-alive"; lit "x-hop"] -> l = lit "X-Hop: 1") as Hk.
  { intros Hin. destruct Hl as [->|[Hl _]]; [by vm_compute in Hn|]. rewrite !elem_of_cons in Hl.
    destruct Hl as [->|[->|[->|[->|[->|Hl]]]]]; [..|by apply not_elem_of_nil in Hl]; vm_compute in Hn; try done; injection Hn as <-; exfalso; revert Hin;
      by apply (bool_decide_unpack _). }
  intros Hin. specialize (Hk Hin). subst l. destruct Hl as [Hl|[_ (name & Hname & Hv)]]; [by vm_compute in Hl|]. by destruct Hv; apply Hx.
Qed.

Lemma local_request_bounded_witness :
  exists q, server_reads upload_sent = Some (q, lit "hello", []) /\ sr_method q = lit "POST" /\ sr_target q = lit "/up" /\
    server_values (lit "host") (sr_fields q) = [lit "nas.lan:8080"] /\ should_proxy_domain (lit "nas.lan") [lit "*.lan"] = true.
Proof.
  destruct (local_request_bounded is_token (fun _ => true) (fun s => s) (fun s => s) played_name is_field_value played_method_token played_name_lower played_text
    [SockData (take 30 upload_head); SockData (drop 30 upload_head ++ lit "he")] [lit "*.lan"] (fun _ _ => true) (lit "nas.lan")
    [(lit "host", lit "nas.lan:8080"); (lit "connection", lit "keep-alive, x-hop"); (lit "x-hop", lit "1"); (lit "content-length", lit "5")]
    (upload_head ++ lit "he") (length upload_head) true [(SockData (lit "llo GET /x"), None)] upload_sent) as (r0 & text & Hp & Hh & Hd & _ & Hserver).
  - vm_compute. reflexivity.
  - rewrite take_app_length. exact upload_calm.
  - vm_compute. reflexivity.
  - assert (no_bare_lf (take (length upload_head) (upload_head ++ lit "he"))) as Hlf.
    { unfold no_bare_lf. rewrite take_app_length. apply (bool_decide_unpack _). vm_compute. exact I. }
    destruct (server_reads upload_sent) as [[[q body] rest]|] eqn:E; [|vm_compute in E; discriminate].
    destruct (Hserver Hlf q body rest eq_refl) as (-> & Hm & Ht & Hv). exists q.
    assert (body = lit "hello" /\ text = lit "nas.lan:8080" /\ rq_method r0 = lit "POST" /\ rq_uri r0 = lit "/up") as (-> & -> & Hm0 & Hu0).
    { rewrite take_app_length in Hp. vm_compute in Hp. injection Hp as <-. vm_compute in E. injection E as <- <-. vm_compute in Hv. injection Hv as <-.
      repeat split; reflexivity. }
    split; [reflexivity|]. split; [congruence|]. split; [congruence|]. split; [exact Hv|exact Hd].
Defined.

(** ** A framing that is named away *)

(** Two requests in one connection: the body of the first, for a proxied name, is a request
    for a name that is not. *)
Definition second_request : bytes := line_of "GET /x HTTP/1.1" ++ line_of "Host: secret.lan" ++ CRLF.
Definition named_away : bytes :=
  line_of "POST / HTTP/1.1" ++ line_of "Host: ok.lan" ++ line_of "Connection: content-length" ++ lit "Content-Length: " ++ show_uint (len second_request) ++ CRLF ++
  CRLF ++ second_request.

(** [Connection: content-length] drops the length from the head that is forwarded, after
    the body was measured by it: the backend reads the body as a second request, for a name
    that the list of proxied domains does not hold. *)
Theorem connection_names_framing_away :
  exists headers e sent r,
    played_connection [SockData named_away] [lit "ok.lan"] (fun _ _ => true) = D_plain (lit "ok.lan") headers named_away e /\
    handle_plain_request headers named_away e true [] = PlainForwarded sent /\
    played_reread sent = Some (r, [], second_request) /\
    (exists r2, played_reread second_request = Some (r2, [], []) /\ get_all (lit "host") (rq_headers r2) = [lit "secret.lan"]) /\
    should_proxy_domain (lit "secret.lan") [lit "ok.lan"] = false.
Proof.
  eexists _, _, _, _. split; [vm_compute; reflexivity|]. split; [vm_compute; reflexivity|]. split; [vm_compute; reflexivity|].
  split; [|vm_compute; reflexivity]. eexists. split; vm_compute; reflexivity.
Qed.

(** ** A line feed of its own *)

(** The request line of the proxy is a whole request to a server that ends its lines at a
    line feed; the other head hides a host in the value of a field. *)
Definition hidden_request : bytes :=
  lit "GET / HTTP/1.1" ++ [LF] ++ lit "Host: secret.lan" ++ [LF; LF] ++ CRLF ++ line_of "Host: nas.lan" ++ CRLF.
Definition hidden_host : bytes :=
  line_of "GET / HTTP/1.1" ++ lit "X:" ++ [LF] ++ line_of "Host: secret.lan" ++ line_of "Host: nas.lan" ++ CRLF.

(** Both are forwarded whole, for the proxied name; such a server reads a request for the
    name that is not, alone or first. *)
Theorem bare_lf_hides_a_host :
  Forall (fun '(head, hosts) =>
    (exists headers, played_connection [SockData head] [lit "nas.lan"] (fun _ _ => true) = D_plain (lit "nas.lan") headers head (length head) /\
       handle_plain_request headers head (length head) true [] = PlainForwarded head) /\
    (fun x => server_values (lit "host") (sr_fields x.1.1)) <$> server_reads head = Some hosts /\ should_proxy_domain (lit "secret.lan") [lit "nas.lan"] = false)
  [(hidden_request, [lit "secret.lan"]); (hidden_host, [lit "secret.lan"; lit "nas.lan"])].
Proof.
  repeat constructor; try (vm_compute; reflexivity); eexists; (split; [vm_compute; reflexivity|vm_compute; reflexivity]).
Qed.
