(* ===== verification/TunUdp.v ===== *)
(** * The UDP half of the TUN proxy (nexapipe-client/src/tun_proxy/udp.rs)

    A datagram of an application is queued for its flow; the flow frames it into its
    tunnel and hands the frames that come back to the TUN.  Three parts:
    the queue of one flow with the counter of its bytes, the table of flows with
    the count of them, and the loop of one flow.  The queue and the table are shared by
    tasks, so their operations are the atomic steps of a relation; the loop is a fold over
    what its [select] gives it.

    The file shows that the bytes waiting in a queue stay under their bound and are given
    back exactly, that a flow is refused when and only when [MAX_UDP_FLOWS] are running,
    and that the tunnel with the server's two pumps at its other end carries both
    directions' datagrams whole and in order. *)

From S2P Require Import Prelude RustStd Preface Udp.

Definition DNS_PORT : Z := 53.
Definition UDP_FLOW_QUEUE : Z := 256.
Definition UDP_FLOW_QUEUE_BYTES : Z := 1024 * 1024.
Definition MAX_UDP_FLOWS : Z := 128.
Definition MAX_UDP_PARTIAL : Z := 2 * (MAX_UDP_PAYLOAD + Z.of_nat FRAME_HEADER_LEN).
Definition READ_BUF : Z := MAX_UDP_PAYLOAD + Z.of_nat FRAME_HEADER_LEN.

(** ** Where a datagram goes *)

Inductive Destination := ToDns | ToFlow (domain : bytes) | ToNowhere.

(** [lookup] is the table of virtual addresses, of either family. *)
Definition destination {ip : Type} `{EqDecision ip} (dns_ip : ip) (lookup : ip -> option bytes) (dst : ip * Z) : Destination :=
  if bool_decide (dst.1 = dns_ip) && (dst.2 =? DNS_PORT) then ToDns
  else match lookup dst.1 with Some domain => ToFlow domain | None => ToNowhere end.

(** ** The queue of a flow *)

Inductive UdpSendError := NoRoom | Full | Closed.

(** The sender is between two steps of [send]; the receiver is between taking a datagram
    and giving its bytes back. *)
Inductive Sending := SIdle | SReserved (payload : bytes) | SGiveBack (len_ : Z) (e : UdpSendError).
Inductive Taking := TIdle | TTook (datagram : bytes).

Record UdpQueue := {
  u_queued : Z;
  u_channel : list bytes;
  u_closed : bool;
  u_sending : Sending;
  u_taking : Taking;
}.

(** [UdpQueue::new] of a fresh channel. *)
Definition queue_new : UdpQueue :=
  {| u_queued := 0; u_channel := []; u_closed := false; u_sending := SIdle; u_taking := TIdle |}.

(** [send], its first step: [reserve] adds the bytes and looks at what the counter holds. *)
Definition reserve (payload : bytes) (q : UdpQueue) : UdpQueue :=
  let queued := u_queued q + len payload in
  {| u_queued := queued; u_channel := u_channel q; u_closed := u_closed q;
     u_sending := if UDP_FLOW_QUEUE_BYTES <? queued then SGiveBack (len payload) NoRoom else SReserved payload;
     u_taking := u_taking q |}.

(** [sender.try_send], with the bytes reserved. *)
Definition try_send (payload : bytes) (q : UdpQueue) : UdpQueue :=
  if u_closed q then
    {| u_queued := u_queued q; u_channel := u_channel q; u_closed := true; u_sending := SGiveBack (len payload) Closed; u_taking := u_taking q |}
  else if UDP_FLOW_QUEUE <=? Z.of_nat (length (u_channel q)) then
    {| u_queued := u_queued q; u_channel := u_channel q; u_closed := false; u_sending := SGiveBack (len payload) Full; u_taking := u_taking q |}
  else
    {| u_queued := u_queued q; u_channel := u_channel q ++ [payload]; u_closed := false; u_sending := SIdle; u_taking := u_taking q |}.

(** [release], by the sender. *)
Definition release (len_ : Z) (q : UdpQueue) : UdpQueue :=
  {| u_queued := u_queued q - len_; u_channel := u_channel q; u_closed := u_closed q; u_sending := SIdle; u_taking := u_taking q |}.

(** [datagrams.recv()], then [take_from_queue]. *)
Definition recv (datagram : bytes) (rest : list bytes) (q : UdpQueue) : UdpQueue :=
  {| u_queued := u_queued q; u_channel := rest; u_closed := u_closed q; u_sending := u_sending q; u_taking := TTook datagram |}.
Definition take_from_queue (datagram : bytes) (q : UdpQueue) : UdpQueue :=
  {| u_queued := u_queued q - len datagram; u_channel := u_channel q; u_closed := u_closed q; u_sending := u_sending q; u_taking := TIdle |}.

(** The flow's task is over: its receiver goes with what is in it. *)
Definition close (q : UdpQueue) : UdpQueue :=
  {| u_queued := u_queued q; u_channel := []; u_closed := true; u_sending := u_sending q; u_taking := TIdle |}.

(** One sender, the demultiplexer, and one receiver, the flow, in any order. *)
Inductive queue_step : UdpQueue -> UdpQueue -> Prop :=
| Q_reserve q payload : u_sending q = SIdle -> queue_step q (reserve payload q)
| Q_try_send q payload : u_sending q = SReserved payload -> queue_step q (try_send payload q)
| Q_release q n e : u_sending q = SGiveBack n e -> queue_step q (release n q)
| Q_recv q d rest : u_closed q = false -> u_taking q = TIdle -> u_channel q = d :: rest -> queue_step q (recv d rest q)
| Q_taken q d : u_taking q = TTook d -> queue_step q (take_from_queue d q)
| Q_close q : u_closed q = false -> queue_step q (close q).

Fixpoint sum_len (ds : list bytes) : Z := match ds with [] => 0 | d :: ds => len d + sum_len ds end.
Definition held_by_sender (s : Sending) : Z := match s with SIdle => 0 | SReserved p => len p | SGiveBack n _ => n end.
Definition held_by_receiver (t : Taking) : Z := match t with TIdle => 0 | TTook d => len d end.

(** The bytes of datagrams that wait for the flow. *)
Definition waiting (q : UdpQueue) : Z := sum_len (u_channel q) + held_by_receiver (u_taking q).

Lemma sum_len_app a b : sum_len (a ++ b) = sum_len a + sum_len b.
Proof. induction a as [|d a IH]; cbn; [done|]. lia. Qed.

Lemma sum_len_nonneg a : 0 <= sum_len a.
Proof. induction a as [|d a IH]; cbn; [done|]. pose proof (len_nonneg d). lia. Qed.

Definition queue_inv (q : UdpQueue) : Prop :=
  (u_closed q = false -> u_queued q = waiting q + held_by_sender (u_sending q)) /\
  waiting q + held_by_sender (u_sending q) <= u_queued q /\
  Z.of_nat (length (u_channel q)) <= UDP_FLOW_QUEUE /\
  0 <= held_by_sender (u_sending q) /\
  match u_sending q with
  | SReserved p => waiting q + len p <= UDP_FLOW_QUEUE_BYTES
  | SIdle | SGiveBack _ _ => waiting q <= UDP_FLOW_QUEUE_BYTES
  end.

Lemma queue_inv_new : queue_inv queue_new.
Proof. unfold queue_inv, waiting, queue_new, UDP_FLOW_QUEUE, UDP_FLOW_QUEUE_BYTES. cbn. lia. Qed.

Lemma queue_inv_step q q' : queue_step q q' -> queue_inv q -> queue_inv q'.
Proof.
  intros Hs (He & Hle & Hc & Hn & Hb). unfold queue_inv, waiting in *. destruct Hs as [q p Hp|q p Hp|q n e Hp|q d rest Hcl Ht Hch|q d Ht|q Hcl].
  - rewrite Hp in *. cbn in *. pose proof (len_nonneg p). destruct (UDP_FLOW_QUEUE_BYTES <? _) eqn:E; [apply Z.ltb_lt in E|apply Z.ltb_ge in E]; cbn;
      (split_and!; [intros; rewrite He by done; lia|lia..]).
  - rewrite Hp in *. unfold try_send. destruct (u_closed q) eqn:Ec; [cbn in *; split_and!; try done; lia|].
    destruct (UDP_FLOW_QUEUE <=? _) eqn:El; cbn in *; [split_and!; try done; try lia; by intros _; apply He|].
    rewrite sum_len_app, length_app. cbn. apply Z.leb_gt in El. rewrite He by done. split_and!; intros; lia.
  - rewrite Hp in *. cbn in *. split_and!; intros; [rewrite He by done|..]; lia.
  - rewrite Ht, Hch in *. cbn [recv u_queued u_channel u_closed u_sending u_taking sum_len held_by_receiver length] in *.
    split_and!; [intros; rewrite He by done; lia|lia|lia|lia|]. destruct (u_sending q); lia.
  - rewrite Ht in *. cbn in *. pose proof (len_nonneg d). split_and!; [intros; rewrite He by done; lia|lia|lia|lia|]. destruct (u_sending q); lia.
  - pose proof (sum_len_nonneg (u_channel q)). assert (0 <= held_by_receiver (u_taking q)) by (destruct (u_taking q); [done|apply len_nonneg]).
    cbn. split_and!; [done|lia| |lia|]; [|destruct (u_sending q); lia]. unfold UDP_FLOW_QUEUE. lia.
Qed.

(** over any interleaving of the demultiplexer's sends and the flow's receives, the
    datagrams waiting for a flow are at most 256 and their bytes at most 1 MiB; while the
    flow lives, the counter is exactly those bytes and what the sender holds, so a datagram
    is turned away for its bytes only when they would not fit, and a counter whose queue is
    empty and idle is back at zero. *)
Theorem udp_queue_exact q :
  rtc queue_step queue_new q ->
  waiting q <= UDP_FLOW_QUEUE_BYTES /\ Z.of_nat (length (u_channel q)) <= UDP_FLOW_QUEUE /\
  (u_closed q = false -> u_queued q = waiting q + held_by_sender (u_sending q)) /\
  (forall payload, u_closed q = false -> u_sending q = SIdle ->
     u_sending (reserve payload q) = SGiveBack (len payload) NoRoom <-> UDP_FLOW_QUEUE_BYTES < waiting q + len payload).
Proof.
  intros Hr. assert (queue_inv q) as (He & _ & Hc & _ & Hb).
  { revert Hr. generalize queue_inv_new. generalize queue_new. intros q0 H0 Hr. induction Hr as [|q0 q1 q Hs _ IH]; [done|].
    apply IH. by eapply queue_inv_step. }
  split; [destruct (u_sending q); [..|done]; try done; pose proof (len_nonneg payload); lia|]. split; [done|]. split; [done|].
  intros payload Hcl Hi. cbn [reserve u_sending]. rewrite (He Hcl), Hi. cbn [held_by_sender].
  destruct (UDP_FLOW_QUEUE_BYTES <? _) eqn:E; [apply Z.ltb_lt in E|apply Z.ltb_ge in E]; split; try done; lia.
Qed.

Lemma udp_queue_exact_witness :
  let q := recv (lit "one") [] (try_send (lit "one") (reserve (lit "one") queue_new)) in
  waiting q <= UDP_FLOW_QUEUE_BYTES /\ Z.of_nat (length (u_channel q)) <= UDP_FLOW_QUEUE /\
  (u_closed q = false -> u_queued q = waiting q + held_by_sender (u_sending q)) /\
  (forall payload, u_closed q = false -> u_sending q = SIdle ->
     u_sending (reserve payload q) = SGiveBack (len payload) NoRoom <-> UDP_FLOW_QUEUE_BYTES < waiting q + len payload).
Proof.
  apply udp_queue_exact. eapply rtc_l; [by apply (Q_reserve _ (lit "one"))|]. eapply rtc_l; [by apply Q_try_send|].
  eapply rtc_l; [by apply (Q_recv _ (lit "one") [])|]. apply rtc_refl.
Defined.

(** ** The table of flows *)

Section Flows.
Context `{Countable Key}.

(** A queue is the number of its channel; [t_open] are the channels whose receiver lives.
    [t_tasks] are the flows that run and have not let go of their entry; [t_wanted] is the
    demultiplexer between finding no live flow and making one. *)
Record FlowTable := {
  t_flows : gmap Key nat;
  t_active : Z;
  t_open : gset nat;
  t_tasks : list (Key * nat);
  t_next : nat;
  t_wanted : option Key;
}.

Definition table_new : FlowTable :=
  {| t_flows := ∅; t_active := 0; t_open := ∅; t_tasks := []; t_next := 0; t_wanted := None |}.

(** The entry of a flow that still has its receiver. *)
Definition existing (key : Key) (t : FlowTable) : option nat :=
  match t_flows t !! key with Some c => if bool_decide (c ∈ t_open t) then Some c else None | None => None end.

Definition insert_flow (key : Key) (queue : nat) (flows : gmap Key nat) (active : Z) : gmap Key nat * Z :=
  (<[key := queue]> flows, match flows !! key with None => active + 1 | Some _ => active end).

Definition release_flow (key : Key) (mine : nat) (flows : gmap Key nat) (active : Z) : gmap Key nat * Z :=
  if bool_decide (flows !! key = Some mine) then (delete key flows, active - 1) else (flows, active).

(** [flows.retain(..)] and the count that follows it, when the ceiling is reached. *)
Definition sweep (open : gset nat) (flows : gmap Key nat) (active : Z) : gmap Key nat * Z :=
  if MAX_UDP_FLOWS <=? active then
    let flows := filter (fun kc => kc.2 ∈ open) flows in (flows, Z.of_nat (size flows))
  else (flows, active).

(** The lock section of [run_udp_demux] that makes a flow, or drops the datagram. *)
Definition create (key : Key) (t : FlowTable) : bool * FlowTable :=
  let '(flows, active) := sweep (t_open t) (t_flows t) (t_active t) in
  if MAX_UDP_FLOWS <=? active then
    (false, {| t_flows := flows; t_active := active; t_open := t_open t; t_tasks := t_tasks t; t_next := t_next t; t_wanted := None |})
  else
    let queue := t_next t in
    let '(flows, active) := insert_flow key queue flows active in
    (true, {| t_flows := flows; t_active := active; t_open := {[ queue ]} ∪ t_open t; t_tasks := (key, queue) :: t_tasks t;
              t_next := S queue; t_wanted := None |}).

(** A flow lets go of its entry, on any of the ways out of [run_udp_flow]. *)
Definition finish (i : nat) (key : Key) (mine : nat) (t : FlowTable) : FlowTable :=
  let '(flows, active) := release_flow key mine (t_flows t) (t_active t) in
  {| t_flows := flows; t_active := active; t_open := t_open t; t_tasks := delete i (t_tasks t); t_next := t_next t; t_wanted := t_wanted t |}.

(** A receiver is dropped. *)
Definition drop_receiver (c : nat) (t : FlowTable) : FlowTable :=
  {| t_flows := t_flows t; t_active := t_active t; t_open := t_open t ∖ {[ c ]}; t_tasks := t_tasks t; t_next := t_next t; t_wanted := t_wanted t |}.

(** A task that ends without letting go: its receiver is dropped as it unwinds. *)
Definition die (i : nat) (c : nat) (t : FlowTable) : FlowTable :=
  {| t_flows := t_flows t; t_active := t_active t; t_open := t_open t ∖ {[ c ]}; t_tasks := delete i (t_tasks t); t_next := t_next t; t_wanted := t_wanted t |}.

Definition want (key : Key) (t : FlowTable) : FlowTable :=
  {| t_flows := t_flows t; t_active := t_active t; t_open := t_open t; t_tasks := t_tasks t; t_next := t_next t; t_wanted := Some key |}.

Inductive table_step : FlowTable -> FlowTable -> Prop :=
| T_want t key : t_wanted t = None -> existing key t = None -> table_step t (want key t)
| T_create t key : t_wanted t = Some key -> table_step t (create key t).2
| T_finish t i key c : t_tasks t !! i = Some (key, c) -> table_step t (finish i key c t)
| T_drop t c : c ∉ (t_tasks t).*2 -> table_step t (drop_receiver c t)
| T_die t i key c : t_tasks t !! i = Some (key, c) -> table_step t (die i c t).

(** Every entry with a receiver is the entry of a running flow, and the other way round. *)
Record table_inv (t : FlowTable) : Prop := {
  ti_count : t_active t = Z.of_nat (size (t_flows t));
  ti_bound : Z.of_nat (size (t_flows t)) <= MAX_UDP_FLOWS;
  ti_nodup : NoDup (t_tasks t).*2;
  ti_running : forall key c, (key, c) ∈ t_tasks t -> t_flows t !! key = Some c /\ c ∈ t_open t;
  ti_entry : forall key c, t_flows t !! key = Some c -> c ∈ t_open t -> (key, c) ∈ t_tasks t;
  ti_fresh : forall key c, t_flows t !! key = Some c -> (c < t_next t)%nat;
  ti_wanted : forall key, t_wanted t = Some key -> existing key t = None;
}.

Lemma existing_none key t : existing key t = None <-> forall c, t_flows t !! key = Some c -> c ∉ t_open t.
Proof.
  unfold existing. destruct (t_flows t !! key) as [c|]; [|naive_solver]. case_bool_decide; naive_solver.
Qed.

Lemma table_inv_new : table_inv table_new.
Proof.
  constructor; cbn; try done; try (by intros ?? ?%elem_of_nil); try constructor; by (intros key c E; rewrite lookup_empty in E).
Qed.

(** The sweep takes no entry of a running flow. *)
Lemma sweep_spec open (flows : gmap Key nat) active flows' active' :
  active = Z.of_nat (size flows) -> Z.of_nat (size flows) <= MAX_UDP_FLOWS -> sweep open flows active = (flows', active') ->
  active' = Z.of_nat (size flows') /\ Z.of_nat (size flows') <= MAX_UDP_FLOWS /\
  (forall key c, flows' !! key = Some c -> flows !! key = Some c) /\
  (forall key c, flows !! key = Some c -> c ∈ open -> flows' !! key = Some c) /\
  (MAX_UDP_FLOWS <= active' -> forall key c, flows' !! key = Some c -> c ∈ open).
Proof.
  intros Ha Hb. unfold sweep. destruct (MAX_UDP_FLOWS <=? active) eqn:E.
  - intros [= <- <-]. split; [done|]. split.
    { pose proof (map_subseteq_size (filter (fun kc => kc.2 ∈ open) flows) flows (map_filter_subseteq _ _)). lia. }
    split; [intros key c Hk; by apply map_lookup_filter_Some in Hk as [? _]|].
    split; [intros key c Hk Ho; by apply map_lookup_filter_Some|]. intros _ key c Hk. by apply map_lookup_filter_Some in Hk as [_ ?].
  - intros [= <- <-]. apply Z.leb_gt in E. split_and!; try done. lia.
Qed.

Lemma inv_create t key : t_wanted t = Some key -> table_inv t -> table_inv (create key t).2.
Proof.
  intros Hw [Hc Hb Hn Hr He Hf Hx]. specialize (Hx key Hw). rewrite existing_none in Hx. unfold create.
  destruct (sweep _ _ _) as [flows active] eqn:Es. destruct (sweep_spec _ _ _ _ _ Hc Hb Es) as (Ha & Hsz & Hsub & Hkeep & _).
  destruct (MAX_UDP_FLOWS <=? active) eqn:El.
  { constructor; cbn; try done; eauto. intros k c Hk. destruct (Hr k c Hk). by eauto. }
  apply Z.leb_gt in El. cbn [insert_flow].
  assert (forall k c, flows !! k = Some c -> (c < t_next t)%nat) as Hlt by eauto.
  assert (forall k c, (k, c) ∈ t_tasks t -> k <> key /\ c <> t_next t) as Hne.
  { intros k c Hk. destruct (Hr k c Hk) as [Hk1 Hk2]. split; [intros ->; by apply (Hx c)|]. pose proof (Hf _ _ Hk1). lia. }
  constructor; cbn.
  - destruct (flows !! key) as [c|] eqn:Ek; [rewrite map_size_insert_Some by (by eexists); done|]. rewrite map_size_insert_None by done. lia.
  - rewrite map_size_insert. destruct (flows !! key); cbn; lia.
  - constructor; [|done]. intros (p & Hp1 & Hp2)%list_elem_of_fmap. destruct p as [k c]. cbn in Hp1. destruct (Hne k c Hp2). congruence.
  - intros k c [[= -> ->]|Hk]%elem_of_cons; [rewrite lookup_insert_eq; set_solver|]. destruct (Hr k c Hk). destruct (Hne k c Hk).
    rewrite lookup_insert_ne by done. split; [by apply Hkeep|set_solver].
  - intros k c Hk Ho. destruct (decide (k = key)) as [->|Hd].
    + rewrite lookup_insert_eq in Hk. injection Hk as <-. by left.
    + rewrite lookup_insert_ne in Hk by done. right. apply He; [by apply Hsub|]. pose proof (Hlt _ _ Hk). set_solver by lia.
  - intros k c Hk. destruct (decide (k = key)) as [->|Hd].
    + rewrite lookup_insert_eq in Hk. injection Hk as <-. lia.
    + rewrite lookup_insert_ne in Hk by done. pose proof (Hlt _ _ Hk). lia.
  - done.
Qed.

Lemma task_delete i key c t k d :
  NoDup (t_tasks t).*2 -> t_tasks t !! i = Some (key, c) -> (k, d) ∈ delete i (t_tasks t) <-> (k, d) ∈ t_tasks t /\ d <> c.
Proof.
  intros Hn Hi. pose proof (delete_Permutation _ _ _ Hi) as Hp. set (rest := delete i (t_tasks t)) in *. clearbody rest.
  rewrite Hp in Hn |- *. cbn in Hn. apply NoDup_cons in Hn as [Hnc _]. rewrite elem_of_cons. split.
  - intros Hk. split; [by right|]. intros ->. apply Hnc. apply list_elem_of_fmap. by exists (k, c).
  - intros [[[= -> ->]|Hk] Hd]; done.
Qed.

Lemma delete_nodup i (l : list (Key * nat)) : NoDup l.*2 -> NoDup (delete i l).*2.
Proof. intros Hn. eapply sublist_NoDup; [exact Hn|]. apply fmap_sublist, sublist_delete. Qed.

Lemma inv_finish t i key c : t_tasks t !! i = Some (key, c) -> table_inv t -> table_inv (finish i key c t).
Proof.
  intros Hi [Hc Hb Hn Hr He Hf Hx]. pose proof (list_elem_of_lookup_2 _ _ _ Hi) as Hin. destruct (Hr key c Hin) as [Hk Ho].
  unfold finish, release_flow. rewrite bool_decide_eq_true_2 by done. pose proof (map_size_delete_Some key (t_flows t) ltac:(by eexists)) as Hs.
  constructor; cbn.
  - rewrite Hc. rewrite Hs. pose proof (map_size_ne_0_lookup_2 (t_flows t) key ltac:(by eexists)). lia.
  - lia.
  - by apply delete_nodup.
  - intros k d Hd. apply (task_delete _ _ _ _ _ _ Hn Hi) in Hd as [Hd Hne]. destruct (Hr k d Hd) as [H1 H2]. split; [|done].
    rewrite lookup_delete_ne; [done|]. intros ->. congruence.
  - intros k d Hd Hod. apply lookup_delete_Some in Hd as [Hne Hd]. apply (task_delete _ _ _ _ _ _ Hn Hi). split; [by apply He|].
    intros ->. pose proof (He k c Hd Hod) as Hkc. destruct Hne. apply list_elem_of_lookup in Hkc as [j Hj].
    assert (i = j) as ->; [|congruence]. eapply (NoDup_lookup (t_tasks t).*2 i j c); [done|..]; by rewrite list_lookup_fmap, ?Hi, ?Hj.
  - intros k d [_ Hd]%lookup_delete_Some. by eapply Hf.
  - intros k Hw. specialize (Hx k Hw). rewrite existing_none in Hx |- *. cbn. intros d [_ Hd]%lookup_delete_Some. by apply Hx.
Qed.

Lemma inv_die t i key c : t_tasks t !! i = Some (key, c) -> table_inv t -> table_inv (die i c t).
Proof.
  intros Hi [Hc Hb Hn Hr He Hf Hx]. constructor; cbn; try done.
  - by apply delete_nodup.
  - intros k d Hd. apply (task_delete _ _ _ _ _ _ Hn Hi) in Hd as [Hd Hne]. destruct (Hr k d Hd). set_solver.
  - intros k d Hd [Ho Hne]%elem_of_difference. apply (task_delete _ _ _ _ _ _ Hn Hi). split; [by apply He|set_solver].
  - intros k Hk. specialize (Hx k Hk). rewrite existing_none in Hx |- *. cbn. intros d Hd. specialize (Hx d Hd). set_solver.
Qed.

Lemma inv_drop t c : c ∉ (t_tasks t).*2 -> table_inv t -> table_inv (drop_receiver c t).
Proof.
  intros Hnc [Hc Hb Hn Hr He Hf Hx]. constructor; cbn; try done.
  - intros k d Hd. destruct (Hr k d Hd) as [H1 H2]. split; [done|]. apply elem_of_difference. split; [done|].
    intros ->%elem_of_singleton. apply Hnc, list_elem_of_fmap. by exists (k, c).
  - intros k d Hd [Ho _]%elem_of_difference. by apply He.
  - intros k Hk. specialize (Hx k Hk). rewrite existing_none in Hx |- *. cbn. intros d Hd. specialize (Hx d Hd). set_solver.
Qed.

Lemma table_inv_step t t' : table_step t t' -> table_inv t -> table_inv t'.
Proof.
  intros [] Hi; [|by apply inv_create|by apply inv_finish|by apply inv_drop|by eapply inv_die].
  destruct Hi. constructor; cbn; try done. by intros k [= <-].
Qed.

Lemma table_inv_reachable t : rtc table_step table_new t -> table_inv t.
Proof.
  generalize table_inv_new. generalize table_new. intros t0 H0 Hr. induction Hr as [|t0 t1 t Hs _ IH]; [done|]. apply IH. by eapply table_inv_step.
Qed.

Lemma tasks_le t (flows : gmap Key nat) :
  NoDup (t_tasks t).*2 -> (forall key c, (key, c) ∈ t_tasks t -> flows !! key = Some c) -> (length (t_tasks t) <= size flows)%nat.
Proof.
  intros Hn Hr. rewrite <- length_map_to_list. apply submseteq_length, NoDup_submseteq; [by eapply NoDup_fmap_1|].
  intros [k c] Hk. apply elem_of_map_to_list. by apply Hr.
Qed.

Lemma entries_le t (flows : gmap Key nat) :
  (forall key c, flows !! key = Some c -> (key, c) ∈ t_tasks t) -> (size flows <= length (t_tasks t))%nat.
Proof.
  intros He. rewrite <- length_map_to_list. apply submseteq_length, NoDup_submseteq; [apply NoDup_map_to_list|].
  intros [k c] Hk. apply He. by apply elem_of_map_to_list.
Qed.

Lemma tasks_keys t : table_inv t -> NoDup (t_tasks t).*1.
Proof.
  intros [_ _ Hn Hr _ _ _]. apply NoDup_alt. intros i j k Hi Hj. rewrite list_lookup_fmap in Hi, Hj.
  destruct (t_tasks t !! i) as [[k1 c1]|] eqn:Ei; [|done]. destruct (t_tasks t !! j) as [[k2 c2]|] eqn:Ej; [|done]. cbn in Hi, Hj. simplify_eq.
  destruct (Hr k c1) as [H1 _]; [by eapply list_elem_of_lookup_2|]. destruct (Hr k c2) as [H2 _]; [by eapply list_elem_of_lookup_2|]. simplify_eq.
  eapply (NoDup_lookup (t_tasks t).*2 i j _); [done|..]; rewrite list_lookup_fmap, ?Ei, ?Ej; done.
Qed.

(** the table of UDP flows keeps its ceiling, over any interleaving of the
    demultiplexer with flows that end, are replaced, or die without letting go: at most
    [MAX_UDP_FLOWS] flows run at once, no two of them for one pair of addresses, the count
    is the number of entries, and a datagram that needs a new flow is refused one exactly
    when that many are running — an entry whose flow is gone never costs a slot. *)
Theorem udp_flow_ceiling t :
  rtc table_step table_new t ->
  Z.of_nat (length (t_tasks t)) <= MAX_UDP_FLOWS /\ NoDup (t_tasks t).*1 /\ t_active t = Z.of_nat (size (t_flows t)) /\
  (forall key, t_wanted t = Some key -> (create key t).1 = false <-> Z.of_nat (length (t_tasks t)) = MAX_UDP_FLOWS).
Proof.
  intros Hr%table_inv_reachable. pose proof (tasks_keys t Hr) as Hk. destruct Hr as [Hc Hb Hn Hrun He Hf Hx].
  pose proof (tasks_le t (t_flows t) Hn (fun k c Hkc => proj1 (Hrun k c Hkc))) as Hle. split; [lia|]. split; [done|]. split; [done|].
  intros key _. unfold create. destruct (sweep _ _ _) as [flows active] eqn:Es.
  destruct (sweep_spec _ _ _ _ _ Hc Hb Es) as (Ha & Hsz & Hsub & Hkeep & Hopen).
  assert (length (t_tasks t) <= size flows)%nat as Hle'.
  { apply tasks_le; [done|]. intros k c Hkc. destruct (Hrun k c Hkc). by apply Hkeep. }
  destruct (MAX_UDP_FLOWS <=? active) eqn:El; [apply Z.leb_le in El|apply Z.leb_gt in El; cbn; split; [done|lia]].
  cbn. split; [intros _|done]. assert (size flows <= length (t_tasks t))%nat; [|lia].
  apply entries_le. intros k c Hkc. apply He; [by apply Hsub|by eapply Hopen].
Qed.
End Flows.

(** A flow for key 7 dies, and the next datagram replaces its entry. *)
Lemma udp_flow_ceiling_witness :
  let t0 := (create 7%nat (want 7%nat (table_new (Key := nat)))).2 in
  let t := want 7%nat (die 0 0 t0) in
  Z.of_nat (length (t_tasks t)) <= MAX_UDP_FLOWS /\ NoDup (t_tasks t).*1 /\ t_active t = Z.of_nat (size (t_flows t)) /\
  (forall key, t_wanted t = Some key -> (create key t).1 = false <-> Z.of_nat (length (t_tasks t)) = MAX_UDP_FLOWS).
Proof.
  intros t0 t. apply udp_flow_ceiling. eapply rtc_l; [by apply (T_want _ 7%nat)|]. eapply rtc_l; [by apply T_create|].
  eapply rtc_l; [by apply (T_die _ 0 7%nat 0)|]. eapply rtc_l; [by apply (T_want _ 7%nat)|]. apply rtc_refl.
Defined.

(** ** The loop of a flow *)

(** What [next_activity] gives, and [Idle] for the window that passed without anything;
    a read carries the bytes it put into the buffer. *)
Inductive Activity :=
| Application (datagram : option bytes)
| Tunnel (read : result (option bytes) unit)
| Cancelled
| Stopped
| Idle.

Inductive FlowEnd := E_replaced | E_tunnel_gone | E_closed | E_partial | E_tun_gone | E_oversized | E_failed | E_cancelled | E_stopped | E_idle.

(** [f_up] is what was written into the tunnel, [f_tun] what the TUN writer took. *)
Record UdpFlow := { f_partial : bytes; f_up : bytes; f_tun : list bytes; f_end : option FlowEnd }.

Definition flow_new : UdpFlow := {| f_partial := []; f_up := []; f_tun := []; f_end := None |}.

Definition ends (e : FlowEnd) (f : UdpFlow) : UdpFlow :=
  {| f_partial := f_partial f; f_up := f_up f; f_tun := f_tun f; f_end := Some e |}.

(** A datagram of the application. *)
Definition on_datagram (write_ok : bytes -> bool) (datagram : bytes) (f : UdpFlow) : UdpFlow :=
  match encode_frame datagram [] with
  | Ok encoded =>
      if write_ok encoded then {| f_partial := f_partial f; f_up := f_up f ++ encoded; f_tun := f_tun f; f_end := None |}
      else ends E_tunnel_gone f
  | Err _ => f
  end.

(** Bytes of the tunnel.  The loop over the frames is the one of the server's pump. *)
Definition on_bytes (tun_ok : bytes -> bool) (chunk : bytes) (f : UdpFlow) : UdpFlow :=
  let partial := f_partial f ++ chunk in
  if MAX_UDP_PARTIAL <? len partial then {| f_partial := partial; f_up := f_up f; f_tun := f_tun f; f_end := Some E_partial |}
  else
    let '(tun, consumed, e) := drain_frames (S (length partial)) tun_ok partial 0 (f_tun f) in
    {| f_partial := drop consumed partial; f_up := f_up f; f_tun := tun;
       f_end := match e with EndSendFailed => Some E_tun_gone | EndOversize => Some E_oversized | _ => None end |}.

Definition flow_step (write_ok tun_ok : bytes -> bool) (f : UdpFlow) (a : Activity) : UdpFlow :=
  match f_end f with
  | Some _ => f
  | None =>
      match a with
      | Application None => ends E_replaced f
      | Application (Some datagram) => on_datagram write_ok datagram f
      | Tunnel (Ok None) => ends E_closed f
      | Tunnel (Ok (Some [])) => f
      | Tunnel (Ok (Some chunk)) => on_bytes tun_ok chunk f
      | Tunnel (Err _) => ends E_failed f
      | Cancelled => ends E_cancelled f
      | Stopped => ends E_stopped f
      | Idle => ends E_idle f
      end
  end.

Definition run_udp_flow (write_ok tun_ok : bytes -> bool) (acts : list Activity) : UdpFlow :=
  foldl (flow_step write_ok tun_ok) flow_new acts.

(** ** A flow that is let run *)

(** The datagrams and the bytes of a sequence without an end in it. *)
Fixpoint sent_by_application (acts : list Activity) : list bytes :=
  match acts with
  | [] => []
  | Application (Some d) :: acts => d :: sent_by_application acts
  | _ :: acts => sent_by_application acts
  end.
Fixpoint read_from_tunnel (acts : list Activity) : list bytes :=
  match acts with
  | [] => []
  | Tunnel (Ok (Some c)) :: acts => c :: read_from_tunnel acts
  | _ :: acts => read_from_tunnel acts
  end.

Definition quiet (a : Activity) : Prop :=
  match a with
  | Application (Some d) => bytes_ok d
  | Tunnel (Ok (Some c)) => bytes_ok c /\ len c <= READ_BUF
  | _ => False
  end.

(** What an honest stream leaves unread is less than one frame. *)
Lemma framed_incomplete_short ds p rest :
  Forall fits ds -> framed ds = p ++ rest -> decode_frame p = Incomplete -> len p < READ_BUF.
Proof.
  intros Hds Heq Hi. destruct Hds as [|d ds Hd Hds].
  { destruct p; [|done]. unfold READ_BUF, MAX_UDP_PAYLOAD, len, FRAME_HEADER_LEN. cbn. lia. }
  rewrite framed_cons in Heq. destruct (decide (length p < length (frame_of d))%nat) as [Hl|Hl].
  - rewrite length_frame_of in Hl. unfold fits, READ_BUF, FRAME_HEADER_LEN, len in *. lia.
  - exfalso. assert (p = frame_of d ++ drop (length (frame_of d)) p) as Hp.
    { rewrite <- (take_drop (length (frame_of d)) p) at 1. f_equal.
      assert (take (length (frame_of d)) (p ++ rest) = frame_of d) as Ht by (rewrite <- Heq; apply take_app_length).
      by rewrite take_app_le in Ht by lia. }
    rewrite Hp, decode_frame_of in Hi by done. done.
Qed.

Lemma on_bytes_framed ds f c rest :
  Forall fits ds -> Forall fits (f_tun f) -> bytes_ok (f_partial f) -> bytes_ok c -> len c <= READ_BUF -> f_end f = None ->
  decode_frame (f_partial f) = Incomplete -> framed ds = framed (f_tun f) ++ f_partial f ++ c ++ rest ->
  let f' := on_bytes (fun _ => true) c f in
  f_end f' = None /\ f_up f' = f_up f /\ bytes_ok (f_partial f') /\ decode_frame (f_partial f') = Incomplete /\ Forall fits (f_tun f') /\
  framed ds = framed (f_tun f') ++ f_partial f' ++ rest.
Proof.
  intros Hds Ht Hp Hc Hsz Hend Hi Heq. unfold on_bytes.
  destruct (framed_prefix ds (f_tun f) _ Hds Ht Heq) as (ds1 & -> & Hds1). apply Forall_app in Hds as [_ Hds].
  assert (len (f_partial f) < READ_BUF) as Hlt by (eapply framed_incomplete_short; [exact Hds|symmetry; exact Hds1|done]).
  rewrite (proj2 (Z.ltb_ge _ _)) by (unfold MAX_UDP_PARTIAL, READ_BUF in *; rewrite len_app; lia).
  set (p := f_partial f ++ c) in *. assert (bytes_ok p) as Hpok by (unfold p; auto with rs).
  destruct (drain_frames _ _ _ _ _) as [[tun consumed] e] eqn:E.
  apply drain_frames_spec in E as (new & -> & Hnew & Hcut & He); [|done|lia]. rewrite drop_0 in Hcut.
  rewrite app_assoc in Hds1. fold p in Hds1. rewrite Hcut, <- app_assoc in Hds1. symmetry in Hds1.
  destruct (framed_prefix ds1 new _ Hds Hnew Hds1) as (ds2 & -> & Hds2). apply Forall_app in Hds as [_ Hds].
  assert (e = NeedRead) as ->.
  { destruct e; try done.
    - destruct He as (big & k & Hrd & Hbig). exfalso. apply Hbig. apply (decode_frame_app _ rest) in Hrd. rewrite Hds2 in Hrd.
      destruct Hds as [|d ds2 Hd Hds]; [done|]. rewrite framed_cons, decode_frame_of in Hrd by done. congruence.
    - destruct He as (? & ? & _ & ?). done. }
  cbn. split_and!; try done; [by apply Forall_drop|by apply Forall_app|]. fold (framed (f_tun f ++ new)).
  by rewrite !framed_app, <- app_assoc, Hds2.
Qed.

Lemma flow_step_datagram write_ok tun_ok f d :
  f_end f = None -> flow_step write_ok tun_ok f (Application (Some d)) = on_datagram write_ok d f.
Proof. unfold flow_step. by intros ->. Qed.

Lemma flow_step_bytes write_ok tun_ok f c :
  f_end f = None -> flow_step write_ok tun_ok f (Tunnel (Ok (Some c))) = match c with [] => f | _ => on_bytes tun_ok c f end.
Proof. unfold flow_step. by intros ->. Qed.

Lemma flow_delivers_inv ds acts f rest :
  Forall fits ds -> Forall quiet acts -> f_end f = None -> Forall fits (f_tun f) -> bytes_ok (f_partial f) ->
  decode_frame (f_partial f) = Incomplete -> framed ds = framed (f_tun f) ++ f_partial f ++ concat (read_from_tunnel acts) ++ rest ->
  let f' := foldl (flow_step (fun _ => true) (fun _ => true)) f acts in
  f_end f' = None /\ f_up f' = f_up f ++ framed (filter fits (sent_by_application acts)) /\ Forall fits (f_tun f') /\
  decode_frame (f_partial f') = Incomplete /\ framed ds = framed (f_tun f') ++ f_partial f' ++ rest.
Proof.
  intros Hds Hq. revert f. induction Hq as [|a acts Ha _ IH]; intros f Hend Ht Hp Hi Heq.
  { cbn in *. by rewrite app_nil_r. }
  destruct a as [[d|]|[[c|]|]| | |]; try done; cbn [foldl sent_by_application]; cbv zeta.
  - rewrite (flow_step_datagram _ _ f d Hend). unfold on_datagram. destruct (decide (fits d)) as [Hd|Hd].
    + assert (encode_frame d [] = Ok (frame_of d)) as -> by by apply encode_frame_ok. rewrite filter_cons_True, framed_cons by done.
      destruct (IH {| f_partial := f_partial f; f_up := f_up f ++ frame_of d; f_tun := f_tun f; f_end := None |}) as (? & Hup & ?); [done..|].
      cbn [f_up] in Hup. split; [done|]. split; [by rewrite Hup, <- app_assoc|done].
    + rewrite encode_frame_big, filter_cons_False by done. by apply IH.
  - destruct Ha as [Hc Hsz]. cbn [read_from_tunnel concat] in Heq. rewrite <- app_assoc in Heq.
    rewrite (flow_step_bytes _ _ f c Hend). destruct c as [|b c]; [by apply IH|].
    destruct (on_bytes_framed ds f (b :: c) _ Hds Ht Hp Hc Hsz Hend Hi Heq) as (H1 & H2 & H3 & H4 & H5 & H6).
    destruct (IH (on_bytes (fun _ => true) (b :: c) f)) as (? & Hup & ?); [done..|]. split; [done|]. split; [by rewrite Hup, H2|done].
Qed.

(** C15: one UDP flow from end to end.  The client's loop, given the application's
    datagrams and reads of the tunnel in any order and cut anyhow, and the server's two
    pumps at the other end, fed the client's bytes cut anyhow and the backend's datagrams,
    carry exactly what the other side sent: the backend is sent the application's datagrams
    that fit a frame and the TUN is handed the backend's, each in order, none merged or
    split, and neither loop ends by a bound of its own. *)
Theorem udp_flow_end_to_end acts evs up_chunks :
  Forall quiet acts -> Forall bytes_ok (received evs) ->
  concat (read_from_tunnel acts) = (backend_to_client (fun _ => true) [] evs).1 ->
  Forall (fun c => len c <= UDP_SEND_BUFFER_BYTES) up_chunks ->
  let f := run_udp_flow (fun _ => true) (fun _ => true) acts in
  concat up_chunks = f_up f ->
  f_end f = None /\ f_tun f = filter fits (received evs) /\ f_partial f = [] /\
  client_to_backend (fun _ => true) [] (RBytes <$> up_chunks) = mkPump [] (filter fits (sent_by_application acts)) NeedRead.
Proof.
  intros Hq Hok Hdown Hsz f Hup. destruct (backend_to_client_frames (fun _ => true) [] evs) as (k & Hk & Hall).
  rewrite Hall in Hk by done. cbn [app] in Hk. set (ds := filter fits (received evs)) in *.
  assert (Forall fits ds) as Hds by (apply Forall_forall; intros d Hd; by apply list_elem_of_filter in Hd as [? _]).
  destruct (flow_delivers_inv ds acts flow_new []) as (H1 & H2 & H3 & H4 & H5); [done|done|done|constructor|constructor|done| |].
  { cbn. rewrite app_nil_r. congruence. }
  fold (run_udp_flow (fun _ => true) (fun _ => true) acts) in *. fold f in H1, H2, H3, H4, H5. rewrite app_nil_r in H5.
  destruct (framed_prefix ds _ _ Hds H3 H5) as (ds' & Hd & Hp). rewrite Hp in H4. rewrite Hd in Hds. apply Forall_app in Hds as [_ Hds'].
  apply framed_Incomplete in H4; [|done]. subst ds'. rewrite app_nil_r in Hd. split; [done|]. split; [done|]. split; [done|].
  cbn [f_up flow_new app] in H2. apply udp_pump_delivers; [..|done|].
  - apply Forall_forall. intros d' Hd'. by apply list_elem_of_filter in Hd' as [? _].
  - constructor.
  - assert (bytes_ok (concat up_chunks)) as Hb.
    { rewrite Hup, H2. clear -Hq. induction Hq as [|a acts Ha _ IH]; [constructor|]. destruct a as [[d|]|[[c|]|]| | |]; try done; cbn [sent_by_application].
      rewrite filter_cons. destruct (decide (fits d)); [|done]. rewrite framed_cons. unfold frame_of. cbn in Ha. auto with rs. }
    clear -Hb. induction up_chunks as [|c cs IH]; [constructor|]. cbn in Hb. apply Forall_app in Hb as [? ?]. constructor; [done|by apply IH].
  - cbn [app]. congruence.
Qed.

Lemma udp_flow_end_to_end_witness :
  let acts := [Application (Some (lit "ask")); Tunnel (Ok (Some [0; 2; 104])); Application (Some []); Tunnel (Ok (Some [105; 0; 0]))] in
  let f := run_udp_flow (fun _ => true) (fun _ => true) acts in
  f_end f = None /\ f_tun f = [lit "hi"; []] /\ f_partial f = [] /\
  client_to_backend (fun _ => true) [] (RBytes <$> [[0]; [3; 97; 115]; [107; 0; 0]]) = mkPump [] [lit "ask"; []] NeedRead.
Proof.
  apply (udp_flow_end_to_end
    [Application (Some (lit "ask")); Tunnel (Ok (Some [0; 2; 104])); Application (Some []); Tunnel (Ok (Some [105; 0; 0]))]
    [Datagram (lit "hi"); Datagram []; RecvIdle] [[0]; [3; 97; 115]; [107; 0; 0]]).
  - apply Forall_cons_2; [cbn [quiet]; repeat constructor; unfold is_uint; vm_compute; done|].
    apply Forall_cons_2; [split; [repeat constructor; unfold is_uint; lia|by vm_compute]|].
    apply Forall_cons_2; [cbn [quiet]; apply Forall_nil_2|].
    apply Forall_cons_2; [split; [repeat constructor; unfold is_uint; lia|by vm_compute]|]. apply Forall_nil_2.
  - repeat constructor; unfold is_uint; vm_compute; done.
  - vm_compute. reflexivity.
  - repeat constructor; by vm_compute.
  - vm_compute. reflexivity.
Defined.

