(* ===== verification/Tunnel.v ===== *)
(** * Opening a tunnel (nexapipe-client/src/local_proxy/{tunnel,response,mod}.rs and
      nexapipe-client/src/l4.rs)

    A request or a flow of the client is given a stream of a connection of the group, with
    its first bytes written, in three attempts under one deadline; an L4 flow then reads the
    status byte of the server off the front of the answer.  The group and its health table
    are EndpointGroup.v's; the connections, and what QUIC answers, are arguments.  The
    response of a plain request is relayed until the backend is quiet for too long, and the
    listener of the local proxy serves a bounded number of connections.

    The file shows which backends an opening charges and which connections it throws away,
    that the status byte costs the payload behind it nothing however the answer is cut,
    and what the relay and the listener keep. *)

From S2P Require Import Prelude RustStd Preface ConnPool EndpointGroup.

(** ** A stream, in three attempts (tunnel.rs) *)

Section Opening.
(** A connection of the group, and the backend whose health somebody keeps. *)
Context {Conn : Type}.
Variable node : Conn -> option EndpointId.

Definition OPEN_ATTEMPTS : nat := 3.

(** What [open_bi] and the initial write come back with under the deadline. *)
Inductive StepOutcome := St_done | St_failed | St_late.

(** One attempt: whether the deadline has passed before it, the clock and the draw of the
    balancer and the pools behind [get_connection], the stream and the write. *)
Record Attempt := {
  at_late : bool;
  at_now : Z;
  at_draw : nat;
  at_dial : nat -> result Conn DialError;
  at_open : StepOutcome;
  at_write : StepOutcome;
}.

Inductive TunnelError := TE_timeout | TE_group (e : GroupError) | TE_open | TE_write | TE_exhausted.

Definition with_health (health : HealthTable) (g : EndpointGroup) : EndpointGroup :=
  {| eg_domains := eg_domains g; eg_wildcards := eg_wildcards g; eg_default := eg_default g; eg_health := health |}.

(** What an opening leaves: its answer, the group, and the connections it discarded. *)
Record Opening := { op_result : result Conn TunnelError; op_group : EndpointGroup; op_discarded : list Conn }.

(** The attempts are spent or cut short: those that were tried are charged. *)
Definition refuse_opening (ended : Z) (tried : list EndpointId) (discarded : list Conn) (e : TunnelError) (g : EndpointGroup) : Opening :=
  {| op_result := Err e; op_group := with_health (record_request_failures ended tried (eg_health g)) g; op_discarded := discarded |}.

Fixpoint attempts_loop (attempts : nat) (tries : nat -> Attempt) (host : bytes) (initial_data : bool) (ended : Z) (i : nat)
    (last_err : option TunnelError) (tried : list EndpointId) (discarded : list Conn) (g : EndpointGroup) : Opening :=
  match attempts with
  | O => refuse_opening ended tried discarded (default TE_exhausted last_err) g
  | S attempts =>
      let t := tries i in
      if at_late t then refuse_opening ended tried discarded TE_timeout g
      else
        match group_get_connection (at_now t) (at_draw t) (at_dial t) host g with
        | (Err e, g) => refuse_opening ended tried discarded (TE_group e) g
        | (Ok (_, conn), g) =>
            let again e := attempts_loop attempts tries host initial_data ended (S i) (Some e) (tried ++ option_list (node conn)) (discarded ++ [conn]) g in
            match at_open t with
            | St_failed => again TE_open
            | St_late => again TE_timeout
            | St_done =>
                if initial_data then
                  match at_write t with
                  | St_done => {| op_result := Ok conn; op_group := g; op_discarded := discarded |}
                  | St_failed => again TE_write
                  | St_late => again TE_timeout
                  end
                else {| op_result := Ok conn; op_group := g; op_discarded := discarded |}
            end
        end
  end.

Definition open_stream_with_retry_until (tries : nat -> Attempt) (host : bytes) (initial_data : bool) (ended : Z) (g : EndpointGroup) : Opening :=
  attempts_loop OPEN_ATTEMPTS tries host initial_data ended 0 None [] [] g.

(** ** The flow behind the preface (l4.rs) *)

Definition FIRST_READ : nat := 4096.

(** What the server's stream still holds, and the bytes that came with the status. *)
Record TunnelReader := { tr_recv : bytes; tr_leftover : bytes; tr_offset : nat }.

Definition reader_new (recv : bytes) : TunnelReader := {| tr_recv := recv; tr_leftover := []; tr_offset := 0 |}.

(** A read of the stream: at most the buffer and at most what has arrived, which is
    something unless the stream is over. *)
Definition stream_read (size arrived : nat) (recv : bytes) : option (bytes * bytes) :=
  match recv with
  | [] => None
  | _ => let n := Nat.min size (S arrived) in Some (take n recv, drop n recv)
  end.

(** How the wait for the status ends: a read, a stream that failed, or the deadline. *)
Inductive StatusWait := W_read (arrived : nat) | W_failed | W_late.

Inductive L4Error := LE_unannounced | LE_late | LE_status (s : Status) | LE_preface (e : ProtoError) | LE_open (e : TunnelError) | LE_write.

Definition read_status (wait : StatusWait) (r : TunnelReader) : result Status L4Error * TunnelReader :=
  match wait with
  | W_failed => (Err LE_unannounced, r)
  | W_late => (Err LE_late, r)
  | W_read arrived =>
      match stream_read FIRST_READ arrived (tr_recv r) with
      | Some (b :: rest, recv) =>
          (Ok (status_from_byte b), {| tr_recv := recv; tr_leftover := tr_leftover r ++ rest; tr_offset := tr_offset r |})
      | _ => (Err LE_unannounced, r)
      end
  end.

Definition reader_read (size arrived : nat) (r : TunnelReader) : option bytes * TunnelReader :=
  if (tr_offset r <? length (tr_leftover r))%nat then
    let n := Nat.min size (length (tr_leftover r) - tr_offset r) in
    (Some (take n (drop (tr_offset r) (tr_leftover r))), {| tr_recv := tr_recv r; tr_leftover := tr_leftover r; tr_offset := tr_offset r + n |})
  else
    match stream_read size arrived (tr_recv r) with
    | Some (chunk, recv) => (Some chunk, {| tr_recv := recv; tr_leftover := tr_leftover r; tr_offset := tr_offset r |})
    | None => (None, r)
    end.

(** What an answer does to the connection it came on. *)
Inductive OnConnection := Kept | Saturated | ClosedConn.

Definition accept_tunnel (wait : StatusWait) (now : Z) (pooled : Conn) (r : TunnelReader) (g : EndpointGroup)
    : result unit L4Error * TunnelReader * OnConnection * EndpointGroup :=
  match read_status wait r with
  | (Ok status, r) =>
      if status_is_ok status then (Ok tt, r, Kept, g)
      else if bool_decide (status = StTooManyFlows) then (Err (LE_status StTooManyFlows), r, Saturated, g)
      else (Err (LE_status status), r, Kept, g)
  | (Err e, r) =>
      (Err e, r, ClosedConn,
       match node pooled with Some n => with_health (record_request_failures now [n] (eg_health g)) g | None => g end)
  end.

(** [open]: the preface, then a stream with it written.  [answer] is what the server sends
    on the stream that was opened. *)
Definition open (proto : L4Proto) (host : bytes) (port : Z) (tries : nat -> Attempt) (ended : Z) (answer : bytes) (g : EndpointGroup)
    : result (Conn * TunnelReader) L4Error * EndpointGroup :=
  match preface_to_bytes {| pf_proto := proto; pf_host := host; pf_port := port |} with
  | Err e => (Err (LE_preface e), g)
  | Ok _ =>
      let o := open_stream_with_retry_until tries host true ended g in
      (match op_result o with Ok conn => Ok (conn, reader_new answer) | Err e => Err (LE_open e) end, op_group o)
  end.

Definition open_tcp_checked (host : bytes) (port : Z) (tries : nat -> Attempt) (ended : Z) (answer : bytes) (wait : StatusWait) (now : Z)
    (g : EndpointGroup) : result (Conn * TunnelReader) L4Error * EndpointGroup :=
  match open Tcp host port tries ended answer g with
  | (Err e, g) => (Err e, g)
  | (Ok (conn, r), g) =>
      match accept_tunnel wait now conn r g with
      | (Ok _, r, _, g) => (Ok (conn, r), g)
      | (Err e, _, _, g) => (Err e, g)
      end
  end.
End Opening.

(** ** What an opening charges *)

Section Charged.
Context {Conn : Type}.
Variable node : Conn -> option EndpointId.

(** A request for a connection changes the health of at most the backend it could not
    reach. *)
Definition charged_dial (e : GroupError) (health health' : HealthTable) : Prop :=
  health' = health \/ exists d id now, e = GE_dial d /\ blames_backend d = true /\ health' = record_outcome now id false health.

Lemma domain_health {A} now draw (dial : nat -> result A DialError) health d r health' d' :
  domain_get_connection now draw dial health d = (r, health', d') ->
  match r with Ok _ => health' = health | Err e => charged_dial e health health' end.
Proof.
  unfold domain_get_connection, charged_dial. destruct (choose draw health d) as [[i|e] d1]; [|intros [= <- <- <-]; by left].
  destruct (dp_pools d1 !! i) as [pool|]; [|intros [= <- <- <-]; by left]. destruct (dial (pr_number pool)) as [a|e]; intros [= <- <- <-]; [done|].
  destruct (blames_backend e) eqn:E; [right; by eauto 10|by left].
Qed.

Lemma group_health {A} now draw (dial : nat -> result A DialError) host g r g' :
  group_get_connection now draw dial host g = (r, g') ->
  match r with Ok _ => eg_health g' = eg_health g | Err e => charged_dial e (eg_health g) (eg_health g') end.
Proof.
  unfold group_get_connection. destruct (_ ≫= _) as [[key d]|].
  - destruct (domain_get_connection _ _ _ _ d) as [[r0 h] d'] eqn:E. intros [= <- <-]. exact (domain_health _ _ _ _ _ _ _ _ E).
  - destruct (eg_default g) as [d|]; [|intros [= <- <-]; by left].
    destruct (domain_get_connection _ _ _ _ d) as [[r0 h] d'] eqn:E. intros [= <- <-]. exact (domain_health _ _ _ _ _ _ _ _ E).
Qed.

(** What an opening that started with [tried] and [discarded] leaves. *)
Definition accounted (ended : Z) (discarded : list Conn) (g : EndpointGroup) (attempts : nat) (o : Opening (Conn := Conn)) : Prop :=
  exists more, op_discarded o = discarded ++ more /\ (length more <= attempts)%nat /\
  match op_result o with
  | Ok conn => eg_health (op_group o) = eg_health g /\ (length more < attempts)%nat
  | Err e => exists mid,
      match e with TE_group ge => charged_dial ge (eg_health g) mid | _ => mid = eg_health g end /\
      eg_health (op_group o) = record_request_failures ended (op_discarded o ≫= fun c => option_list (node c)) mid
  end.

Lemma refuse_opening_accounted ended discarded e mid g (g' : EndpointGroup) attempts :
  match e with TE_group ge => charged_dial ge (eg_health g) mid | _ => mid = eg_health g end -> eg_health g' = mid ->
  accounted ended discarded g attempts (refuse_opening ended (discarded ≫= fun c => option_list (node c)) discarded e g').
Proof.
  intros He Hm. exists []. cbn. rewrite app_nil_r. split; [done|]. split; [lia|]. exists mid. by rewrite Hm.
Qed.

Lemma accounted_again ended discarded conn (g g' : EndpointGroup) attempts o :
  eg_health g' = eg_health g -> accounted ended (discarded ++ [conn]) g' attempts o -> accounted ended discarded g (S attempts) o.
Proof.
  intros Hg (more & Hd & Hl & Hr). exists (conn :: more). rewrite Hd, <- app_assoc. split; [done|]. cbn. split; [lia|].
  destruct (op_result o) as [c|e]; rewrite Hg in Hr; [split; [tauto|lia]|]. destruct Hr as (mid & Hm & ->). exists mid. rewrite Hd, <- app_assoc. done.
Qed.

Lemma attempts_loop_accounted attempts tries host data ended i last_err discarded g :
  last_err <> Some TE_exhausted -> (attempts = 0%nat -> is_Some last_err) ->
  let o := attempts_loop node attempts tries host data ended i last_err (discarded ≫= fun c => option_list (node c)) discarded g in
  accounted ended discarded g attempts o /\ op_result o <> Err TE_exhausted.
Proof.
  revert i last_err discarded g. induction attempts as [|attempts IH]; intros i last_err discarded g Hx H0; cbn [attempts_loop]; cbv zeta.
  { destruct (H0 eq_refl) as [e ->]. cbn [default]. split; [|cbn; congruence]. apply (refuse_opening_accounted _ _ _ (eg_health g)); [|done].
    destruct e; try done. by left. }
  destruct (at_late (tries i)); [split; [by apply (refuse_opening_accounted _ _ _ (eg_health g))|done]|].
  destruct (group_get_connection _ _ _ host g) as [[[k conn]|e] g1] eqn:Eg; pose proof (group_health _ _ _ _ _ _ _ Eg) as Hh; cbn in Hh.
  2:{ split; [by apply (refuse_opening_accounted _ _ _ (eg_health g1))|done]. }
  assert (forall e, e <> TE_exhausted ->
    let o := attempts_loop node attempts tries host data ended (S i) (Some e) ((discarded ≫= fun c => option_list (node c)) ++ option_list (node conn)) (discarded ++ [conn]) g1 in
    accounted ended discarded g (S attempts) o /\ op_result o <> Err TE_exhausted) as Hagain.
  { intros e He. destruct (IH (S i) (Some e) (discarded ++ [conn]) g1) as [Ha Hn]; [congruence|by eexists|].
    rewrite bind_app in Ha, Hn. cbn [mbind list_bind] in Ha, Hn. rewrite app_nil_r in Ha, Hn. split; [by eapply accounted_again|done]. }
  assert (let o := {| op_result := Ok conn; op_group := g1; op_discarded := discarded |} in
    accounted ended discarded g (S attempts) o /\ op_result o <> Err TE_exhausted) as Hok.
  { split; [|done]. exists []. cbn. rewrite app_nil_r. split; [done|]. split; [lia|]. split; [done|lia]. }
  destruct (at_open (tries i)); [|by apply Hagain..]. destruct data; [|done]. by destruct (at_write (tries i)); [|apply Hagain..].
Qed.

(** A stream that was given charges nobody. *)
Lemma opened_charges_nobody tries host data ended g conn :
  op_result (open_stream_with_retry_until node tries host data ended g) = Ok conn ->
  eg_health (op_group (open_stream_with_retry_until node tries host data ended g)) = eg_health g.
Proof.
  intros Hok. destruct (attempts_loop_accounted OPEN_ATTEMPTS tries host data ended 0 None [] g) as [(more & _ & _ & Hr) _]; [done|done|].
  cbn [mbind list_bind] in Hr. fold (open_stream_with_retry_until node tries host data ended g) in Hr. rewrite Hok in Hr. by destruct Hr.
Qed.

(** what an opening costs.  In at most three attempts it either gives a stream or
    refuses; every connection it took and did not give is discarded.  A stream that was
    given charges nobody, however many connections were discarded on the way; a refusal
    charges, once each, exactly the backends of the discarded connections, besides the one
    a failed dial already charged, and the refusal names a reason. *)
Theorem open_stream_accounted tries host data ended g :
  let o := open_stream_with_retry_until node tries host data ended g in
  op_result o <> Err TE_exhausted /\ (length (op_discarded o) <= 3)%nat /\
  match op_result o with
  | Ok conn => eg_health (op_group o) = eg_health g /\ (length (op_discarded o) <= 2)%nat
  | Err e => exists mid,
      match e with TE_group ge => charged_dial ge (eg_health g) mid | _ => mid = eg_health g end /\
      forall id, eg_health (op_group o) !! id =
        if bool_decide (Some id ∈ node <$> op_discarded o) then record_outcome ended id false mid !! id else mid !! id
  end.
Proof.
  destruct (attempts_loop_accounted OPEN_ATTEMPTS tries host data ended 0 None [] g) as [(more & Hd & Hl & Hr) Hx]; [done|done|].
  cbn [mbind list_bind app] in Hd, Hl, Hr, Hx. fold (open_stream_with_retry_until node tries host data ended g) in *.
  set (o := open_stream_with_retry_until node tries host data ended g) in *. cbv zeta. unfold OPEN_ATTEMPTS in *. rewrite Hd. split; [done|]. split; [done|].
  destruct (op_result o) as [c|e]; [destruct Hr; split; [done|lia]|]. destruct Hr as (mid & Hm & ->). exists mid. split; [done|].
  intros id. rewrite record_failures_once. erewrite bool_decide_ext; [done|]. rewrite Hd, list_elem_of_bind, list_elem_of_fmap.
  split.
  - intros (c & Hc & Hin). exists c. destruct (node c) as [n|]; cbn in Hc; [|by apply not_elem_of_nil in Hc].
    apply list_elem_of_singleton in Hc as ->. done.
  - intros (c & Hc & Hin). exists c. rewrite <- Hc. split; [by left|done].
Qed.
End Charged.

(** ** The status byte costs the payload nothing *)

(** What is still to be read behind the status. *)
Definition reader_rest (r : TunnelReader) : bytes := drop (tr_offset r) (tr_leftover r) ++ tr_recv r.

Fixpoint read_all (turns : list (nat * nat)) (r : TunnelReader) : list (option bytes) * TunnelReader :=
  match turns with
  | [] => ([], r)
  | (size, arrived) :: turns =>
      let '(got, r) := reader_read size arrived r in
      let '(more, r) := read_all turns r in
      (got :: more, r)
  end.

Lemma reader_read_spec size arrived r :
  (0 < size)%nat -> (tr_offset r <= length (tr_leftover r))%nat ->
  let '(got, r') := reader_read size arrived r in
  (tr_offset r' <= length (tr_leftover r'))%nat /\ default [] got ++ reader_rest r' = reader_rest r /\
  match got with Some chunk => chunk <> [] /\ (length chunk <= size)%nat | None => reader_rest r = [] end.
Proof.
  intros Hs Ho. unfold reader_read, reader_rest. destruct (_ <? _)%nat eqn:E.
  - apply Nat.ltb_lt in E. cbn. split; [lia|]. split.
    + rewrite app_assoc, <- drop_drop, take_drop. done.
    + rewrite length_take, length_drop. split; [|lia]. intros Hn%(f_equal length). rewrite length_take, length_drop in Hn. cbn in Hn. lia.
  - apply Nat.ltb_ge in E. rewrite (drop_ge (tr_leftover r)) by lia. destruct (tr_recv r) as [|b rest] eqn:Er; cbn [stream_read].
    + cbn. rewrite Er, drop_ge by lia. done.
    + cbn -[take drop Nat.min]. rewrite drop_ge by lia. cbn -[take drop Nat.min]. split; [lia|]. rewrite take_drop. split; [done|].
      rewrite length_take. split; [|lia]. destruct size; [lia|]. done.
Qed.

Lemma read_all_spec turns r :
  Forall (fun t => (0 < t.1)%nat) turns -> (tr_offset r <= length (tr_leftover r))%nat ->
  let '(got, r') := read_all turns r in
  concat (omap id got) ++ reader_rest r' = reader_rest r /\ (None ∈ got -> reader_rest r' = []) /\ [] ∉ omap id got.
Proof.
  intros Ht. revert r. induction Ht as [|[size arrived] turns Hs _ IH]; intros r Ho; cbn [read_all].
  { cbn. split; [done|]. split; [by intros ?%not_elem_of_nil|apply not_elem_of_nil]. }
  pose proof (reader_read_spec size arrived r Hs Ho) as Hr. destruct (reader_read size arrived r) as [got r1]. destruct Hr as (Ho1 & Hcat & Hg).
  specialize (IH r1 Ho1). destruct (read_all turns r1) as [more r2]. destruct IH as (Hc & Hn & He).
  destruct got as [chunk|]; cbn in *.
  - split; [by rewrite <- app_assoc, Hc|]. split; [intros [?|?]%elem_of_cons; [done|by apply Hn]|]. rewrite not_elem_of_cons. destruct Hg. by split.
  - split; [by rewrite Hc|]. split; [|done]. intros _. rewrite Hcat, Hg in Hc. by apply app_eq_nil in Hc as [_ ?].
Qed.

(** the status byte of the server is read off the front of the answer and nothing is
    lost behind it: whatever part of the payload arrives with the status, and whatever the
    sizes of the reads that follow, they give the payload's bytes in order, never an empty
    piece, and the end only after all of it. *)
Theorem tunnel_reader_exact byte payload arrived turns :
  Forall (fun t => (0 < t.1)%nat) turns ->
  let '(status, r) := read_status (W_read arrived) (reader_new (byte :: payload)) in
  let '(got, r') := read_all turns r in
  status = Ok (status_from_byte byte) /\ concat (omap id got) ++ reader_rest r' = payload /\
  (None ∈ got -> concat (omap id got) = payload) /\ [] ∉ omap id got.
Proof.
  intros Ht. unfold read_status, reader_new. cbn [tr_recv tr_leftover tr_offset stream_read]. unfold FIRST_READ.
  change (Nat.min 4096 (S arrived)) with (S (Nat.min 4095 arrived)). cbn [take drop]. set (n := Nat.min 4095 arrived).
  set (r := {| tr_recv := drop n payload; tr_leftover := [] ++ take n payload; tr_offset := 0 |}).
  assert (reader_rest r = payload) as Hp by (unfold reader_rest, r; cbn [tr_recv tr_leftover tr_offset app]; by rewrite drop_0, take_drop).
  pose proof (read_all_spec turns r Ht) as Hr. destruct (read_all turns r) as [got r']. destruct Hr as (Hc & Hn & He); [cbn; lia|]. rewrite Hp in Hc.
  split; [done|]. split; [done|]. split; [|done]. intros H. by rewrite (Hn H), app_nil_r in Hc.
Qed.

Lemma tunnel_reader_exact_witness :
  let '(status, r) := read_status (W_read 1) (reader_new (1 :: lit "abc")) in
  let '(got, r') := read_all [(2%nat, 5%nat); (2%nat, 0%nat); (2%nat, 9%nat); (2%nat, 9%nat)] r in
  status = Ok (status_from_byte 1) /\ concat (omap id got) ++ reader_rest r' = lit "abc" /\
  (None ∈ got -> concat (omap id got) = lit "abc") /\ [] ∉ omap id got.
Proof. apply (tunnel_reader_exact 1 (lit "abc") 1). repeat constructor. Defined.

(** A tunnel that is promised to a client: the preface could be sent, the first byte of the
    server is its consent, and the reader holds the bytes behind it and no others; no
    backend is charged. *)
Theorem checked_tunnel_promise {Conn} (node : Conn -> option EndpointId) host port tries ended answer wait now g conn r g' :
  open_tcp_checked node host port tries ended answer wait now g = (Ok (conn, r), g') ->
  is_ok (preface_to_bytes {| pf_proto := Tcp; pf_host := host; pf_port := port |}) = true /\
  answer = status_as_byte StOk :: reader_rest r /\ eg_health g' = eg_health g.
Proof.
  unfold open_tcp_checked, open. destruct (preface_to_bytes _) as [pre|e] eqn:Ep; [|done].
  pose proof (opened_charges_nobody node tries host true ended g) as Ho.
  set (o := open_stream_with_retry_until node tries host true ended g) in *. destruct (op_result o) as [c|e]; [|done]. specialize (Ho c eq_refl).
  unfold accept_tunnel, read_status, reader_new. destruct wait as [arrived| |]; try done. cbn [tr_recv tr_leftover tr_offset].
  destruct answer as [|b payload]; [done|]. cbn [stream_read]. unfold FIRST_READ.
  change (Nat.min 4096 (S arrived)) with (S (Nat.min 4095 arrived)). cbn [take drop].
  destruct (status_is_ok (status_from_byte b)) eqn:Es; [|by case_bool_decide]. intros [= <- <- <-].
  split; [done|]. split; [|done]. apply status_ok_iff in Es as ->. f_equal. unfold reader_rest. cbn [tr_recv tr_leftover tr_offset app].
  by rewrite drop_0, take_drop.
Qed.

(** ** The answer of a plain request (response.rs) *)

Inductive ResponseRelay := RelayComplete | RelayQuiet | RelayFailed | RelayClientGone.

(** A read of the backend under the quiet window. *)
Inductive BackendRead := BR_bytes (chunk : bytes) | BR_end | BR_failed | BR_quiet.

(** One turn: the read, how many bytes a write that fails has sent, whether the flush
    fails.  The result is [None] while the relay runs, with what the client was sent and
    what was counted. *)
Fixpoint relay_the_response (turns : list (BackendRead * option nat * bool)) (sent : bytes) (counted : Z)
    : option ResponseRelay * bytes * Z :=
  match turns with
  | [] => (None, sent, counted)
  | (BR_end, _, _) :: _ => (Some RelayComplete, sent, counted)
  | (BR_failed, _, _) :: _ => (Some RelayFailed, sent, counted)
  | (BR_quiet, _, _) :: _ => (Some RelayQuiet, sent, counted)
  | (BR_bytes chunk, fails, flush_fails) :: turns =>
      if bool_decide (chunk = []) then (Some RelayComplete, sent, counted)
      else
        match fails with
        | Some n => (Some RelayClientGone, sent ++ take n chunk, counted)
        | None =>
            if flush_fails : bool then (Some RelayClientGone, sent ++ chunk, counted)
            else relay_the_response turns (sent ++ chunk) (counted + len chunk)
        end
  end.

(** What the backend sent before the relay's own end. *)
Fixpoint answered (turns : list (BackendRead * option nat * bool)) : bytes :=
  match turns with
  | (BR_bytes chunk, _, _) :: turns => if bool_decide (chunk = []) then [] else chunk ++ answered turns
  | _ => []
  end.

(** The client is sent a prefix of the answer, all of it unless the client itself is gone,
    and no byte is counted that it was not sent. *)
Theorem relay_exact turns :
  let '(outcome, sent, counted) := relay_the_response turns [] 0 in
  sent `prefix_of` answered turns /\ counted <= len sent /\ (outcome <> Some RelayClientGone -> sent = answered turns /\ counted = len sent).
Proof.
  assert (forall pre counted, let '(outcome, sent, counted') := relay_the_response turns pre counted in
    (exists k, sent = pre ++ take k (answered turns) /\ counted' <= counted + (len sent - len pre)) /\
    (outcome <> Some RelayClientGone -> sent = pre ++ answered turns /\ counted' = counted + (len sent - len pre))) as H.
  { induction turns as [|[[[chunk| | |] fails] flush_fails] turns IH]; intros pre counted; cbn [relay_the_response answered];
      try (rewrite app_nil_r; split; [exists 0%nat; rewrite app_nil_r; split; [done|lia]|intros _; split; [done|lia]]).
    case_bool_decide.
    { rewrite app_nil_r. split; [exists 0%nat; rewrite app_nil_r; split; [done|lia]|intros _; split; [done|lia]]. }
    destruct fails as [n|]; [|destruct flush_fails].
    - split; [|done]. exists (Nat.min n (length chunk)). rewrite take_app_le by lia. rewrite <- take_take, (take_ge chunk (length chunk)) by lia.
      split; [done|]. rewrite len_app. pose proof (len_nonneg (take n chunk)). lia.
    - split; [|done]. exists (length chunk). rewrite take_app_length. split; [done|]. rewrite len_app. pose proof (len_nonneg chunk). lia.
    - specialize (IH (pre ++ chunk) (counted + len chunk)). destruct (relay_the_response turns _ _) as [[outcome sent] counted'].
      destruct IH as ((k & -> & Hk) & Hall). rewrite !len_app in Hk, Hall |- *. pose proof (len_nonneg chunk). split.
      + exists (length chunk + k)%nat. rewrite take_app_add, <- app_assoc. split; [done|]. lia.
      + intros Ho. destruct (Hall Ho) as [Hs Hc]. rewrite Hs, <- app_assoc. split; [done|]. lia. }
  specialize (H [] 0). destruct (relay_the_response turns [] 0) as [[outcome sent] counted]. destruct H as ((k & -> & Hk) & Hall). cbn [app] in *.
  split; [apply prefix_take|]. change (len []) with 0 in *. split; [lia|]. intros Ho. destruct (Hall Ho) as [H1 H2]. split; [done|]. lia.
Qed.

(** ** The listener (mod.rs) *)

Definition MAX_CONCURRENT_CONNECTIONS : nat := 256.
Definition MAX_CONSECUTIVE_ACCEPT_ERRORS : nat := 10.

(** Whether an address may be served. *)
Definition may_bind_local_proxy (is_loopback exposed : bool) : bool := exposed || is_loopback.

(** Where [run] is: at the top of its loop, waiting for a connection, or between spawning
    a handler and tracking it. *)
Inductive RunAt := AtTop | AtAccept | AtTrack (conn : nat) | AtEnd.

(** [lp_alive] are the handlers that hold a permit; [lp_aborting] is [stop] between its
    flag and the handles. *)
Record LocalProxy := {
  lp_at : RunAt;
  lp_stopped : bool;
  lp_aborting : bool;
  lp_alive : gset nat;
  lp_tracked : list nat;
  lp_errors : nat;
  lp_next : nat;
}.

Definition proxy_new : LocalProxy :=
  {| lp_at := AtTop; lp_stopped := false; lp_aborting := false; lp_alive := ∅; lp_tracked := []; lp_errors := 0; lp_next := 0 |}.

Definition on_top (p : LocalProxy) : LocalProxy :=
  {| lp_at := if lp_stopped p then AtEnd else AtAccept; lp_stopped := lp_stopped p; lp_aborting := lp_aborting p; lp_alive := lp_alive p;
     lp_tracked := lp_tracked p; lp_errors := lp_errors p; lp_next := lp_next p |}.

(** A connection is accepted: it takes a permit and a handler, or it is dropped. *)
Definition on_accept (p : LocalProxy) : LocalProxy :=
  if (MAX_CONCURRENT_CONNECTIONS <=? size (lp_alive p))%nat then
    {| lp_at := AtTop; lp_stopped := lp_stopped p; lp_aborting := lp_aborting p; lp_alive := lp_alive p; lp_tracked := lp_tracked p;
       lp_errors := 0; lp_next := S (lp_next p) |}
  else
    {| lp_at := AtTrack (lp_next p); lp_stopped := lp_stopped p; lp_aborting := lp_aborting p; lp_alive := {[ lp_next p ]} ∪ lp_alive p;
       lp_tracked := lp_tracked p; lp_errors := 0; lp_next := S (lp_next p) |}.

Definition on_accept_error (p : LocalProxy) : LocalProxy :=
  let errors := S (lp_errors p) in
  {| lp_at := if lp_stopped p then AtEnd else if (MAX_CONSECUTIVE_ACCEPT_ERRORS <? errors)%nat then AtEnd else AtTop;
     lp_stopped := lp_stopped p; lp_aborting := lp_aborting p; lp_alive := lp_alive p; lp_tracked := lp_tracked p; lp_errors := errors;
     lp_next := lp_next p |}.

Definition on_notified (p : LocalProxy) : LocalProxy :=
  {| lp_at := AtEnd; lp_stopped := lp_stopped p; lp_aborting := lp_aborting p; lp_alive := lp_alive p; lp_tracked := lp_tracked p;
     lp_errors := lp_errors p; lp_next := lp_next p |}.

Definition track_connection (conn : nat) (p : LocalProxy) : LocalProxy :=
  {| lp_at := AtTop; lp_stopped := lp_stopped p; lp_aborting := lp_aborting p; lp_alive := lp_alive p;
     lp_tracked := filter (fun c => c ∈ lp_alive p) (lp_tracked p) ++ [conn]; lp_errors := lp_errors p; lp_next := lp_next p |}.

(** A handler is over, and its permit with it. *)
Definition on_handled (conn : nat) (p : LocalProxy) : LocalProxy :=
  {| lp_at := lp_at p; lp_stopped := lp_stopped p; lp_aborting := lp_aborting p; lp_alive := lp_alive p ∖ {[ conn ]}; lp_tracked := lp_tracked p;
     lp_errors := lp_errors p; lp_next := lp_next p |}.

Definition stop (p : LocalProxy) : LocalProxy :=
  {| lp_at := lp_at p; lp_stopped := true; lp_aborting := true; lp_alive := lp_alive p; lp_tracked := lp_tracked p; lp_errors := lp_errors p;
     lp_next := lp_next p |}.
Definition abort_connections (p : LocalProxy) : LocalProxy :=
  {| lp_at := lp_at p; lp_stopped := lp_stopped p; lp_aborting := false; lp_alive := lp_alive p ∖ list_to_set (lp_tracked p); lp_tracked := [];
     lp_errors := lp_errors p; lp_next := lp_next p |}.

Inductive proxy_step : LocalProxy -> LocalProxy -> Prop :=
| L_top p : lp_at p = AtTop -> proxy_step p (on_top p)
| L_accept p : lp_at p = AtAccept -> proxy_step p (on_accept p)
| L_error p : lp_at p = AtAccept -> proxy_step p (on_accept_error p)
| L_notified p : lp_at p = AtAccept -> lp_stopped p = true -> proxy_step p (on_notified p)
| L_track p conn : lp_at p = AtTrack conn -> proxy_step p (track_connection conn p)
| L_handled p conn : conn ∈ lp_alive p -> proxy_step p (on_handled conn p)
| L_stop p : proxy_step p (stop p)
| L_abort p : lp_aborting p = true -> proxy_step p (abort_connections p).

(** The permits hold the ceiling, and until [stop] every handler is one it can reach or the
    one that is being tracked. *)
Lemma proxy_inv_reachable p : rtc proxy_step proxy_new p -> (size (lp_alive p) <= MAX_CONCURRENT_CONNECTIONS)%nat /\
  (lp_stopped p = false -> forall c, c ∈ lp_alive p -> c ∈ lp_tracked p \/ lp_at p = AtTrack c).
Proof.
  assert ((size (lp_alive proxy_new) <= MAX_CONCURRENT_CONNECTIONS)%nat /\
    (lp_stopped proxy_new = false -> forall c, c ∈ lp_alive proxy_new -> c ∈ lp_tracked proxy_new \/ lp_at proxy_new = AtTrack c)) as H0.
  { cbn. rewrite size_empty. split; [lia|]. set_solver. }
  revert H0. generalize proxy_new. intros p0 H0 Hr. induction Hr as [|p0 p1 p Hs _ IH]; [done|]. apply IH. clear IH. destruct H0 as [Hsz Ht].
  destruct Hs as [q Hq|q Hq|q Hq|q Hq ?|q conn Hq|q conn Hq|q|q Hq]; cbn in *.
  - split; [done|]. intros E. rewrite E. intros c Hc. destruct (Ht E c Hc) as [?|?]; [by left|congruence].
  - unfold on_accept. destruct (_ <=? _)%nat eqn:E; cbn.
    + split; [done|]. intros Es c Hc. destruct (Ht Es c Hc) as [?|?]; [by left|congruence].
    + apply Nat.leb_gt in E. split.
      { rewrite size_union_alt, size_singleton. pose proof (subseteq_size (lp_alive q ∖ {[lp_next q]}) (lp_alive q) ltac:(set_solver)). lia. }
      intros Es c [->%elem_of_singleton|Hc]%elem_of_union; [by right|]. destruct (Ht Es c Hc) as [?|?]; [by left|congruence].
  - split; [done|]. intros Es c Hc. destruct (Ht Es c Hc) as [?|?]; [by left|congruence].
  - split; [done|]. intros Es c Hc. destruct (Ht Es c Hc) as [?|?]; [by left|congruence].
  - split; [done|]. intros Es c Hc. left. rewrite elem_of_app, list_elem_of_filter, list_elem_of_singleton. destruct (Ht Es c Hc) as [?|E]; [by left|].
    right. congruence.
  - split; [pose proof (subseteq_size (lp_alive q ∖ {[conn]}) (lp_alive q) ltac:(set_solver)); lia|]. intros Es c Hc. apply Ht; [done|set_solver].
  - split; [done|done].
  - split; [pose proof (subseteq_size (lp_alive q ∖ list_to_set (lp_tracked q)) (lp_alive q) ltac:(set_solver)); lia|].
    intros Es c Hc. destruct (Ht Es c ltac:(set_solver)) as [?|?]; [set_solver|by right].
Qed.

(** Until it is stopped the listener serves at most 256 connections at once, and
    [stop] reaches every handler but one: the handler that was spawned and is not tracked
    yet. *)
Theorem listener_bounded p :
  rtc proxy_step proxy_new p ->
  (size (lp_alive p) <= MAX_CONCURRENT_CONNECTIONS)%nat /\
  (lp_stopped p = false -> forall c, c ∈ lp_alive (abort_connections (stop p)) -> lp_at p = AtTrack c).
Proof.
  intros [Hs Ht]%proxy_inv_reachable. split; [done|]. intros E c Hc. cbn in Hc. destruct (Ht E c ltac:(set_solver)); [set_solver|done].
Qed.

(** A connection that is accepted while [stop] runs is tracked after the handles were
    aborted: the listener is over, and its handler is not. *)
Theorem stop_misses_a_connection :
  exists p, rtc proxy_step proxy_new p /\ lp_at p = AtEnd /\ lp_stopped p = true /\ lp_aborting p = false /\ lp_alive p = {[ 0%nat ]}.
Proof.
  exists (on_top (track_connection 0 (abort_connections (stop (on_accept (on_top proxy_new)))))). split; [|by vm_compute].
  eapply rtc_l; [by apply L_top|]. eapply rtc_l; [by apply L_accept|]. eapply rtc_l; [apply L_stop|]. eapply rtc_l; [by apply L_abort|].
  eapply rtc_l; [by apply L_track|]. eapply rtc_l; [by apply L_top|]. apply rtc_refl.
Qed.
