(* ===== verification/TunTcp.v ===== *)
(** * The TCP half of the TUN proxy (nexapipe-client/src/tun_proxy/{tcp,mod}.rs)

    A connection that comes out of the stack is sorted by the address it was opened to: an
    address of the mapping names a domain, the legacy address is served by the local
    proxy's own handler, and any other is dropped.  A flow takes one of a fixed number of
    slots and is carried in a tunnel: one half reads the application and writes the tunnel,
    the other reads the status of the server, then its bytes, and writes the application.

    The file shows where each connection goes and that the slots are exact, that a flow
    carries the bytes of both directions in order and counts what it carried, that a
    refused tunnel gives the application nothing, and that the window the stack is built
    with is usable. *)

From S2P Require Import Prelude RustStd Preface ConnPool EndpointGroup VirtualIp Tunnel.

Definition MAX_TCP_FLOWS : Z := 64.
Definition COPY_BUF_SIZE : nat := 16 * 1024.
Definition DEFAULT_TCP_WINDOW : Z := 128 * 1024.
Definition MIN_TCP_WINDOW : Z := 16 * 1024.

(** ** The window *)

Definition resolve_tcp_window (requested : option Z) (from_env : option bytes) : Z :=
  match requested with
  | Some window => if window <? MIN_TCP_WINDOW then DEFAULT_TCP_WINDOW else window
  | None =>
      match from_env with
      | None => DEFAULT_TCP_WINDOW
      | Some raw =>
          match parse_uint (umax 32) (trim raw) with
          | Some window => if MIN_TCP_WINDOW <=? window then window else DEFAULT_TCP_WINDOW
          | None => DEFAULT_TCP_WINDOW
          end
      end
  end.

(** the window is at least the floor and a [u32] whatever was asked for; it is the
    caller's when that reaches the floor, and the environment is read only when the caller
    asks for none. *)
Theorem window_usable requested from_env :
  (forall w, requested = Some w -> is_u32 w) ->
  MIN_TCP_WINDOW <= resolve_tcp_window requested from_env < 2 ^ 32 /\
  (forall w, requested = Some w -> resolve_tcp_window requested from_env = if MIN_TCP_WINDOW <=? w then w else DEFAULT_TCP_WINDOW) /\
  (forall raw w, requested = None -> from_env = Some raw -> parse_uint (umax 32) (trim raw) = Some w -> MIN_TCP_WINDOW <= w ->
    resolve_tcp_window requested from_env = w).
Proof.
  intros Hu. unfold resolve_tcp_window. destruct requested as [w|].
  - specialize (Hu w eq_refl). unfold is_uint in Hu. split; [|split; [|done]]; [|intros w' [= <-]];
      unfold MIN_TCP_WINDOW, DEFAULT_TCP_WINDOW in *; repeat case_match; lia.
  - destruct from_env as [raw|]; [|done]. destruct (parse_uint _ _) as [w|] eqn:Ep; [|split; [done|split; [done|]]; intros raw' w' _ [= <-]; congruence].
    pose proof Ep as Hr. apply parse_uint_range in Hr; [|done]. change (umax 32) with (2 ^ 32 - 1) in Hr. split; [|split; [done|]].
    + unfold MIN_TCP_WINDOW, DEFAULT_TCP_WINDOW in *; case_match; lia.
    + intros raw' w' _ [= <-] Ep' Hw. assert (w' = w) as -> by congruence. by rewrite (proj2 (Z.leb_le _ _)).
Qed.

(** ** The acceptor *)

Inductive IpAddr := V4 (a : Z) | V6 (a : Z).

#[export] Instance IpAddr_eq_dec : EqDecision IpAddr.
Proof. solve_decision. Defined.

Inductive Accepted := Serve (domain : bytes) (port : Z) | Legacy | Unmapped | Refused.

(** The slots left, whether the last refusal was logged, the mapping, and the tasks that
    hold a slot. *)
Record Acceptor := {
  ac_slots : Z;
  ac_warned : bool;
  ac_mapping : IpMapping;
  ac_flows : list nat;
}.

Definition acceptor_new (mapping : IpMapping) : Acceptor :=
  {| ac_slots := MAX_TCP_FLOWS; ac_warned := false; ac_mapping := mapping; ac_flows := [] |}.

(** [try_acquire_owned] for the task that will serve the flow. *)
Definition take_tcp_slot (task : nat) (a : Acceptor) : bool * Acceptor :=
  if 0 <? ac_slots a then
    (true, {| ac_slots := ac_slots a - 1; ac_warned := false; ac_mapping := ac_mapping a; ac_flows := task :: ac_flows a |})
  else (false, {| ac_slots := ac_slots a; ac_warned := true; ac_mapping := ac_mapping a; ac_flows := ac_flows a |}).

Definition with_mapping (m : IpMapping) (a : Acceptor) : Acceptor :=
  {| ac_slots := ac_slots a; ac_warned := ac_warned a; ac_mapping := m; ac_flows := ac_flows a |}.

Definition with_slot (task : nat) (served : Accepted) (a : Acceptor) : Accepted * Acceptor :=
  let '(slot, a) := take_tcp_slot task a in (if slot then served else Refused, a).

(** One turn of [run_tcp_acceptor]. *)
Definition accept_connection (legacy_proxy_ip : option Z) (task : nat) (dest : IpAddr) (dest_port : Z) (a : Acceptor) : Accepted * Acceptor :=
  match dest with
  | V6 v6 =>
      let '(domain, m) := lookup_domain_v6 v6 (ac_mapping a) in
      let a := with_mapping m a in
      match domain with
      | None => (Unmapped, a)
      | Some domain => with_slot task (Serve domain dest_port) a
      end
  | V4 dest_ip =>
      if bool_decide (legacy_proxy_ip = Some dest_ip) then with_slot task Legacy a
      else
        let '(domain, m) := lookup_domain dest_ip (ac_mapping a) in
        let a := with_mapping m a in
        match domain with
        | None => (Unmapped, a)
        | Some domain => with_slot task (Serve domain dest_port) a
        end
  end.

(** The task of a flow ends, however it ends, and its permit with it. *)
Definition flow_ends (task : nat) (a : Acceptor) : Acceptor :=
  {| ac_slots := ac_slots a + 1; ac_warned := ac_warned a; ac_mapping := ac_mapping a;
     ac_flows := list_difference (ac_flows a) [task] |}.

Inductive acceptor_step (legacy : option Z) : Acceptor -> Acceptor -> Prop :=
| AS_accept a task dest port : task ∉ ac_flows a -> acceptor_step legacy a (accept_connection legacy task dest port a).2
| AS_end a task : task ∈ ac_flows a -> acceptor_step legacy a (flow_ends task a)
| AS_mapping a m : acceptor_step legacy a (with_mapping m a).

Inductive acceptor_runs (legacy : option Z) (mapping : IpMapping) : Acceptor -> Prop :=
| AR_new : acceptor_runs legacy mapping (acceptor_new mapping)
| AR_step a a' : acceptor_runs legacy mapping a -> acceptor_step legacy a a' -> acceptor_runs legacy mapping a'.

Definition slots_exact (a : Acceptor) : Prop :=
  NoDup (ac_flows a) /\ ac_slots a + len (ac_flows a) = MAX_TCP_FLOWS /\ 0 <= ac_slots a.

Lemma take_tcp_slot_exact task a : task ∉ ac_flows a -> slots_exact a -> slots_exact (take_tcp_slot task a).2.
Proof.
  intros Ht (Hn & Hs & H0). unfold take_tcp_slot. destruct (0 <? ac_slots a) eqn:E; [|done]. split; [by constructor|].
  cbn. rewrite len_cons. lia.
Qed.

Lemma with_slot_exact task served a : task ∉ ac_flows a -> slots_exact a -> slots_exact (with_slot task served a).2.
Proof. intros Ht Ha. unfold with_slot. pose proof (take_tcp_slot_exact task a Ht Ha). by destruct (take_tcp_slot task a). Qed.

Lemma length_without (task : nat) l : NoDup l -> task ∈ l -> len (list_difference l [task]) = len l - 1.
Proof.
  intros Hn Hin. induction Hn as [|x l Hx Hn IH]; [by apply not_elem_of_nil in Hin|]. cbn [list_difference].
  destruct (decide_rel _ x [task]) as [Heq|Hne]; cbn.
  - apply list_elem_of_singleton in Heq as ->. replace (list_difference l [task]) with l; [rewrite len_cons; lia|].
    clear -Hx. induction l as [|y l IH]; [done|]. cbn. destruct (decide_rel _ y [task]) as [->%list_elem_of_singleton|_]; [set_solver|]. f_equal. apply IH. set_solver.
  - rewrite !len_cons, IH; [lia|]. set_solver.
Qed.

Lemma acceptor_exact legacy mapping a : acceptor_runs legacy mapping a -> slots_exact a.
Proof.
  induction 1 as [|a a' _ IH Hs]; [split; [constructor|done]|]. destruct Hs as [a task dest port Ht|a task Ht|a m]; [| |done].
  - unfold accept_connection. destruct dest as [ip|ip].
    + case_bool_decide; [by apply with_slot_exact|]. destruct (lookup_domain ip _) as [[domain|] m]; [|done]. by apply with_slot_exact.
    + destruct (lookup_domain_v6 ip _) as [[domain|] m]; [|done]. by apply with_slot_exact.
  - destruct IH as (Hn & Hs & H0). split; [by apply NoDup_list_difference|]. cbn. rewrite length_without by done. lia.
Qed.

(** What the mapping says of an address. *)
Definition domain_of (m : IpMapping) (dest : IpAddr) : option bytes :=
  match dest with V4 a => (lookup_domain a m).1 | V6 a => (lookup_domain_v6 a m).1 end.

(** over any sequence of connections and endings, the flows running and the slots left
    are 64 together, so at most 64 run; a connection to the legacy address is served by
    the local proxy, one to a mapped address is carried to its domain at its own port, and
    any other is dropped without a slot; one of the first two is refused when and only
    when 64 flows run, and a slot is taken exactly when it is served. *)
Theorem tcp_flow_ceiling legacy mapping a task dest port :
  acceptor_runs legacy mapping a -> task ∉ ac_flows a ->
  ac_slots a = MAX_TCP_FLOWS - len (ac_flows a) /\ len (ac_flows a) <= MAX_TCP_FLOWS /\
  let full := len (ac_flows a) =? MAX_TCP_FLOWS in
  let '(accepted, a') := accept_connection legacy task dest port a in
  accepted = (if bool_decide (Some dest = V4 <$> legacy) then if full then Refused else Legacy
              else match domain_of (ac_mapping a) dest with
                   | None => Unmapped
                   | Some domain => if full then Refused else Serve domain port
                   end) /\
  ac_flows a' = match accepted with Serve _ _ | Legacy => task :: ac_flows a | Unmapped | Refused => ac_flows a end.
Proof.
  intros Hruns Ht. destruct (acceptor_exact _ _ _ Hruns) as (Hn & Hs & H0). pose proof (len_nonneg (ac_flows a)). split; [lia|]. split; [lia|]. cbn zeta.
  assert (Hslot : forall served m, with_slot task served (with_mapping m a) =
    (if len (ac_flows a) =? MAX_TCP_FLOWS then Refused else served, (take_tcp_slot task (with_mapping m a)).2) /\
    ac_flows (take_tcp_slot task (with_mapping m a)).2 = if len (ac_flows a) =? MAX_TCP_FLOWS then ac_flows a else task :: ac_flows a).
  { intros served m. unfold with_slot, take_tcp_slot. cbn. destruct (0 <? ac_slots a) eqn:E; destruct (len (ac_flows a) =? MAX_TCP_FLOWS) eqn:F; try done; lia. }
  assert (Hsame : with_mapping (ac_mapping a) a = a) by (by destruct a).
  unfold accept_connection, domain_of. destruct dest as [ip|ip].
  - case_bool_decide as El.
    + rewrite bool_decide_eq_true_2 by (by rewrite El). rewrite <- Hsame. destruct (Hslot Legacy (ac_mapping a)) as [-> Hf]. cbn in *. rewrite Hf.
      by destruct (_ =? _).
    + rewrite bool_decide_eq_false_2 by (destruct legacy; cbn; congruence). destruct (lookup_domain ip _) as [[domain|] m]; [|done]. cbn [fst].
      destruct (Hslot (Serve domain port) m) as [-> Hf]. rewrite Hf. by destruct (_ =? _).
  - rewrite bool_decide_eq_false_2 by (destruct legacy; cbn; congruence). destruct (lookup_domain_v6 ip _) as [[domain|] m]; [|done]. cbn [fst].
    destruct (Hslot (Serve domain port) m) as [-> Hf]. rewrite Hf. by destruct (_ =? _).
Qed.

Lemma tcp_flow_ceiling_witness :
  let mapping := (allocate (fun d => d) (lit "db.test") 0 (with_range 16 254)).2 in
  let '(accepted, a') := accept_connection (Some 3) 1 (V4 16) 5432 (acceptor_new mapping) in
  accepted = Serve (lit "db.test") 5432 /\ ac_flows a' = [1%nat].
Proof.
  cbn zeta.
  set (mapping := (allocate (fun d => d) (lit "db.test") 0 (with_range 16 254)).2).
  pose proof (tcp_flow_ceiling (Some 3) mapping (acceptor_new mapping) 1 (V4 16) 5432 (AR_new _ _) ltac:(apply not_elem_of_nil)) as (_ & _ & Hw).
  vm_compute in Hw. vm_compute. exact Hw.
Defined.

(** ** One flow *)

(** A read of the application's half, and how the write behind it ends: whole, or failed
    after some bytes. *)
Inductive AppRead := AR_data (chunk : bytes) | AR_end | AR_failed.

Record Carried := { cr_bytes : bytes; cr_counted : Z; cr_ended : bool }.

Definition carry (chunk : bytes) (c : Carried) : Carried :=
  {| cr_bytes := cr_bytes c ++ chunk; cr_counted := cr_counted c + len chunk; cr_ended := cr_ended c |}.
Definition carry_part (chunk : bytes) (n : nat) (c : Carried) : Carried :=
  {| cr_bytes := cr_bytes c ++ take n chunk; cr_counted := cr_counted c; cr_ended := cr_ended c |}.
Definition finish (c : Carried) : Carried := {| cr_bytes := cr_bytes c; cr_counted := cr_counted c; cr_ended := true |}.
Definition carried_none : Carried := {| cr_bytes := []; cr_counted := 0; cr_ended := false |}.

(** The half from the application.  The turns run out when the flow is ended from outside;
    [cr_ended] says that [tunnel_send.finish()] was reached. *)
Fixpoint app_to_tunnel (turns : list (AppRead * option nat)) (c : Carried) : Carried :=
  match turns with
  | [] => c
  | (AR_end, _) :: _ => finish c
  | (AR_failed, _) :: _ => finish c
  | (AR_data chunk, None) :: turns => app_to_tunnel turns (carry chunk c)
  | (AR_data chunk, Some n) :: _ => finish (carry_part chunk n c)
  end.

(** A read of the tunnel gives what has arrived, or fails. *)
Inductive TunnelTurn := TT_read (arrived : nat) (write : option nat) | TT_failed.

(** The loop of the half from the tunnel; [cr_ended] says that the application's side was
    shut down. *)
Fixpoint tunnel_loop (turns : list TunnelTurn) (r : TunnelReader) (c : Carried) : Carried :=
  match turns with
  | [] => c
  | TT_failed :: _ => finish c
  | TT_read arrived write :: turns =>
      match reader_read COPY_BUF_SIZE arrived r with
      | (None, _) => finish c
      | (Some chunk, r) =>
          match write with
          | None => tunnel_loop turns r (carry chunk c)
          | Some n => finish (carry_part chunk n c)
          end
      end
  end.

Section Flow.
Context {Conn : Type}.
Variable node : Conn -> option EndpointId.

(** Which arm of the [select!] ended the flow. *)
Inductive FlowEnd := BothHalves | Stopped | Cancelled | Abandoned.

Record Served := {
  sv_to_tunnel : Carried;
  sv_to_app : Carried;
  sv_cancelled : bool;
  sv_connection : OnConnection;
  sv_group : EndpointGroup;
}.

Definition tunnel_to_app (wait : StatusWait) (now : Z) (pooled : Conn) (turns : list TunnelTurn) (r : TunnelReader) (g : EndpointGroup)
    : Carried * bool * OnConnection * EndpointGroup :=
  match accept_tunnel node wait now pooled r g with
  | (Err _, _, on, g) => (carried_none, true, on, g)
  | (Ok _, r, on, g) => (tunnel_loop turns r carried_none, false, on, g)
  end.

(** [answer] is what the server sends on the stream; the turns are those the two halves
    take before the flow is ended. *)
Definition serve_tcp_flow (domain : bytes) (port : Z) (tries : nat -> Attempt) (ended : Z) (answer : bytes)
    (app_turns : list (AppRead * option nat)) (wait : StatusWait) (now : Z) (tunnel_turns : list TunnelTurn) (g : EndpointGroup)
    : option Served * EndpointGroup :=
  match open node Tcp domain port tries ended answer g with
  | (Err _, g) => (None, g)
  | (Ok (pooled, reader), g) =>
      let '(to_app, cancelled, on, g) := tunnel_to_app wait now pooled tunnel_turns reader g in
      (Some {| sv_to_tunnel := app_to_tunnel app_turns carried_none; sv_to_app := to_app; sv_cancelled := cancelled;
               sv_connection := on; sv_group := g |}, g)
  end.

(** What the application sent before its end or its failure. *)
Fixpoint app_sent (turns : list (AppRead * option nat)) : bytes :=
  match turns with
  | (AR_data chunk, _) :: turns => chunk ++ app_sent turns
  | _ => []
  end.

Definition writes_whole (turns : list (AppRead * option nat)) : Prop := Forall (fun t => t.2 = None) turns.

Lemma app_to_tunnel_spec turns c :
  exists sent, cr_bytes (app_to_tunnel turns c) = cr_bytes c ++ sent /\ sent `prefix_of` app_sent turns /\
    0 <= cr_counted (app_to_tunnel turns c) - cr_counted c <= len sent /\
    (writes_whole turns -> sent = app_sent turns /\ cr_counted (app_to_tunnel turns c) = cr_counted c + len sent) /\
    ((exists w, (AR_end, w) ∈ turns) -> cr_ended (app_to_tunnel turns c) = true).
Proof.
  revert c. induction turns as [|[[chunk| |] [n|]] turns IH]; intros c; cbn [app_to_tunnel app_sent].
  - exists []. rewrite app_nil_r. change (len (@nil Z)) with 0. split_and!; try done; try lia; [intros _; split; [done|lia]|]. by intros [w ?%not_elem_of_nil].
  - exists (take n chunk). cbn. pose proof (len_nonneg (take n chunk)). split_and!; try done; try lia.
    + etrans; [apply prefix_take|by apply prefix_app_r].
    + intros Hw. by inversion Hw.
  - destruct (IH (carry chunk c)) as (sent & Hb & Hp & Hc & Hw & He). exists (chunk ++ sent). cbn in *. rewrite len_app. pose proof (len_nonneg chunk). split_and!.
    + by rewrite Hb, (assoc_L (++)).
    + by apply prefix_app.
    + lia.
    + lia.
    + intros Hwh. inversion Hwh; subst. destruct Hw as [-> ->]; [done|]. split; [done|lia].
    + intros [w [?|?]%elem_of_cons]; [done|eauto].
  - exists []. change (len (@nil Z)) with 0. cbn. rewrite app_nil_r. split_and!; try done; try lia. intros _. split; [done|lia].
  - exists []. change (len (@nil Z)) with 0. cbn. rewrite app_nil_r. split_and!; try done; try lia. intros _. split; [done|lia].
  - exists []. change (len (@nil Z)) with 0. cbn. rewrite app_nil_r. split_and!; try done; try lia. intros _. split; [done|lia].
  - exists []. change (len (@nil Z)) with 0. cbn. rewrite app_nil_r. split_and!; try done; try lia. intros _. split; [done|lia].
Qed.

Definition tunnel_writes_whole (turns : list TunnelTurn) : Prop := Forall (fun t => exists arrived, t = TT_read arrived None) turns.

Lemma tunnel_loop_spec turns r c : (tr_offset r <= length (tr_leftover r))%nat ->
  exists got, cr_bytes (tunnel_loop turns r c) = cr_bytes c ++ got /\ got `prefix_of` reader_rest r /\
    0 <= cr_counted (tunnel_loop turns r c) - cr_counted c <= len got /\
    (tunnel_writes_whole turns -> cr_counted (tunnel_loop turns r c) = cr_counted c + len got /\
      (cr_ended c = false -> cr_ended (tunnel_loop turns r c) = true -> got = reader_rest r)).
Proof.
  revert r c. induction turns as [|[arrived write|] turns IH]; intros r c Ho; cbn [tunnel_loop].
  - exists []. rewrite app_nil_r. change (len (@nil Z)) with 0. split_and!; try done; try lia; [by apply prefix_nil|]. intros _. split; [lia|congruence].
  - pose proof (reader_read_spec COPY_BUF_SIZE arrived r ltac:(unfold COPY_BUF_SIZE; lia) Ho) as Hr.
    destruct (reader_read COPY_BUF_SIZE arrived r) as [[chunk|] r']; destruct Hr as (Ho' & Hcat & Hg); cbn [default from_option] in Hcat.
    + destruct write as [n|].
      * exists (take n chunk). cbn. pose proof (len_nonneg (take n chunk)). split_and!; try done; try lia.
        -- rewrite <- Hcat. etrans; [apply prefix_take|by apply prefix_app_r].
        -- intros Hw. apply Forall_cons in Hw as [[? [=]] _].
      * destruct (IH r' (carry chunk c) Ho') as (got & Hb & Hp & Hc & Hw). exists (chunk ++ got). cbn in *. rewrite len_app. pose proof (len_nonneg chunk). split_and!.
        -- by rewrite Hb, (assoc_L (++)).
        -- rewrite <- Hcat. by apply prefix_app.
        -- lia.
        -- lia.
        -- intros Hwh. apply Forall_cons in Hwh as [_ Hwh]. destruct (Hw Hwh) as [Hn He]. split; [lia|]. intros Hc1 Hc2. by rewrite (He Hc1 Hc2).
    + exists []. change (len (@nil Z)) with 0. cbn. rewrite app_nil_r. split_and!; try done; try lia; [by apply prefix_nil|]. intros _. split; [lia|done].
  - exists []. change (len (@nil Z)) with 0. cbn. rewrite app_nil_r. split_and!; try done; try lia; [by apply prefix_nil|]. intros Hw. by apply Forall_cons in Hw as [[? [=]] _].
Qed.

(** a flow whose tunnel could be opened gives the tunnel the application's bytes in order
    and counts no more than it wrote; without a failed write it gives and counts all of
    them, and when the application ends its side the tunnel is told.  The server's first
    byte is its consent and is not shown to the application: without it the application
    gets nothing and the flow is cancelled, and with it the application gets the bytes
    behind it in order, all of them when the tunnel ended and every write went through;
    then nobody is charged and the connection is kept. *)
Theorem tcp_flow_exact domain port tries ended answer app_turns wait now tunnel_turns g :
  match serve_tcp_flow domain port tries ended answer app_turns wait now tunnel_turns g with
  | (None, _) => True
  | (Some sv, g') =>
      cr_bytes (sv_to_tunnel sv) `prefix_of` app_sent app_turns /\
      cr_counted (sv_to_tunnel sv) <= len (cr_bytes (sv_to_tunnel sv)) /\
      (writes_whole app_turns ->
        cr_bytes (sv_to_tunnel sv) = app_sent app_turns /\ cr_counted (sv_to_tunnel sv) = len (app_sent app_turns)) /\
      ((exists w, (AR_end, w) ∈ app_turns) -> cr_ended (sv_to_tunnel sv) = true) /\
      match answer with
      | byte :: payload =>
          if sv_cancelled sv then sv_to_app sv = carried_none
          else
            byte = status_as_byte StOk /\ sv_connection sv = Kept /\ eg_health g' = eg_health g /\
            cr_bytes (sv_to_app sv) `prefix_of` payload /\
            cr_counted (sv_to_app sv) <= len (cr_bytes (sv_to_app sv)) /\
            (tunnel_writes_whole tunnel_turns -> cr_ended (sv_to_app sv) = true ->
              cr_bytes (sv_to_app sv) = payload /\ cr_counted (sv_to_app sv) = len payload)
      | [] => sv_cancelled sv = true /\ sv_to_app sv = carried_none /\ sv_connection sv = ClosedConn
      end
  end.
Proof.
  unfold serve_tcp_flow, open. destruct (preface_to_bytes _) as [pre|e]; [|done].
  pose proof (opened_charges_nobody node tries domain true ended g) as Hhealth.
  set (o := open_stream_with_retry_until node tries domain true ended g) in *.
  destruct (op_result o) as [pooled|e]; [|done]. specialize (Hhealth pooled eq_refl).
  destruct (tunnel_to_app _ _ _ _ _ _) as [[[to_app cancelled] on] g1] eqn:Et. cbn.
  destruct (app_to_tunnel_spec app_turns carried_none) as (sent & Hb & Hp & Hc & Hw & He). cbn [carried_none cr_bytes cr_counted app] in *.
  rewrite Hb. split; [done|]. split; [lia|]. split; [|split; [done|]].
  { intros Hwh. destruct (Hw Hwh) as [-> ->]. split; [done|lia]. }
  unfold tunnel_to_app, accept_tunnel, read_status, reader_new in Et. cbn [tr_recv tr_leftover tr_offset] in Et.
  destruct answer as [|byte payload].
  { destruct wait; cbn in Et; by injection Et as <- <- <- <-. }
  destruct wait as [arrived| |]; [|by injection Et as <- <- <- <-..]. cbn [stream_read] in Et. unfold FIRST_READ in Et.
  change (Nat.min 4096 (S arrived)) with (S (Nat.min 4095 arrived)) in Et. cbn [take drop] in Et. set (n := Nat.min 4095 arrived) in *.
  destruct (status_is_ok (status_from_byte byte)) eqn:Es; [|by case_bool_decide; injection Et as <- <- <- <-].
  injection Et as <- <- <- <-. apply status_ok_iff in Es.
  destruct (tunnel_loop_spec tunnel_turns {| tr_recv := drop n payload; tr_leftover := [] ++ take n payload; tr_offset := 0 |} carried_none) as (got & Hgb & Hgp & Hgc & Hgw);
    [cbn; lia|].
  unfold reader_rest in *. cbn [tr_recv tr_leftover tr_offset app carried_none cr_bytes cr_counted cr_ended] in *. rewrite drop_0, take_drop in *.
  rewrite Hgb. split_and!; try done; [lia|]. intros Hwh Hend. destruct (Hgw Hwh) as [Hn Hall]. rewrite (Hall eq_refl Hend) in *. split; [done|lia].
Qed.
End Flow.
