(* ===== verification/NetTcp.v ===== *)
(** * The TCP flows of the TUN's stack
      (nexapipe-client/src/tun_proxy/netstack/{tcp,runner}.rs)

    A connection the device opens is a socket of smoltcp, which the runner owns, and a
    stream, which a task of the proxy owns.  Between them is a block of state behind one
    lock: a queue for each direction and the wakers of whoever waits.  The runner moves
    bytes between the sockets and the queues, and decides when a flow is over.

    smoltcp is not part of the repository: it is the class [Socket], with what its
    documentation says as [SocketLaws].  The runner takes the lock once for every question
    it asks, and the application may run between any two: [sched] says what it does before
    each of them, so a theorem over every [sched] is one over every interleaving.

    The file shows that no byte is lost, repeated or reordered in either direction while a
    flow is open, that the FIN goes out behind the last byte the application wrote, that
    nobody is left waiting, and that the runner's tables agree with each other and give
    back every flow whose peer or application is gone. *)

From S2P Require Import Prelude RustStd Slices.

Definition SocketAddr : Type := bytes * Z.

(** ** The queue of one direction *)

Record ByteRing := { br_bytes : bytes; br_head : Z; br_limit : Z }.

(** [ByteRing::new] *)
Definition ring_new (limit : Z) : ByteRing := {| br_bytes := []; br_head := 0; br_limit := limit |}.

(** [len], [window], [is_empty], [is_full] *)
Definition ring_len (r : ByteRing) : Z := len (br_bytes r) - br_head r.
Definition window (r : ByteRing) : Z := br_limit r - ring_len r.
Definition ring_is_empty (r : ByteRing) : bool := ring_len r =? 0.
Definition is_full (r : ByteRing) : bool := br_limit r <=? ring_len r.

Definition enqueue_slice (r : ByteRing) (data : bytes) : run (Z * ByteRing) :=
  let room := window r in
  let taken := Z.min room (len data) in
  let r := if (0 <? br_head r) && (br_head r =? len (br_bytes r)) then {| br_bytes := []; br_head := 0; br_limit := br_limit r |} else r in
  let* added := slice data 0 taken in
  Val (taken, {| br_bytes := br_bytes r ++ added; br_head := br_head r; br_limit := br_limit r |}).

(** [into] is a buffer of [room] bytes; what is written to its front is returned. *)
Definition dequeue_slice (r : ByteRing) (room : Z) : run (bytes * ByteRing) :=
  let taken := Z.min room (ring_len r) in
  let* out := slice (br_bytes r) (br_head r) (br_head r + taken) in
  let head := br_head r + taken in
  Val (out, if head =? len (br_bytes r) then {| br_bytes := []; br_head := 0; br_limit := br_limit r |}
            else {| br_bytes := br_bytes r; br_head := head; br_limit := br_limit r |}).

(** What waits, and what a queue is: the specification is a list under a bound. *)
Definition waiting (r : ByteRing) : bytes := drop (Z.to_nat (br_head r)) (br_bytes r).

Definition ring_ok (r : ByteRing) : Prop := 0 <= br_head r <= len (br_bytes r) /\ ring_len r <= br_limit r.

Lemma ring_len_waiting r : ring_ok r -> ring_len r = len (waiting r).
Proof. intros [[??] ?]. unfold ring_len, waiting, len in *. rewrite length_drop. lia. Qed.

Lemma ring_is_empty_waiting r : ring_ok r -> ring_is_empty r = true <-> waiting r = [].
Proof.
  intros H. unfold ring_is_empty. rewrite (ring_len_waiting r H), Z.eqb_eq. unfold len.
  rewrite <- length_zero_iff_nil. lia.
Qed.

Lemma ring_new_ok limit : 0 <= limit -> ring_ok (ring_new limit).
Proof. intros. unfold ring_ok, ring_len, len. cbn. lia. Qed.

Lemma slice_front {A} (s : list A) n : 0 <= n <= len s -> slice s 0 n = Val (take (Z.to_nat n) s).
Proof.
  intros [? ?]. unfold slice. rewrite (proj2 (Z.leb_le 0 n)), (proj2 (Z.leb_le n (len s))) by lia. cbn.
  by rewrite Z.sub_0_r.
Qed.

Lemma enqueue_spec r data : ring_ok r ->
  exists r', enqueue_slice r data = Val (Z.min (window r) (len data), r') /\ ring_ok r' /\ br_limit r' = br_limit r /\
    0 <= Z.min (window r) (len data) /\
    waiting r' = waiting r ++ take (Z.to_nat (Z.min (window r) (len data))) data.
Proof.
  intros Hok. pose proof (ring_len_waiting r Hok) as Hw. destruct Hok as [[Hh Hh'] Hl]. pose proof (len_nonneg data) as Hd.
  unfold enqueue_slice. unfold window in *. rewrite slice_front by lia.
  eexists. split; [reflexivity|]. set (t := Z.min _ _) in *.
  assert (Ht : len (take (Z.to_nat t) data) = t) by (unfold len in *; rewrite length_take; lia).
  destruct ((0 <? br_head r) && (br_head r =? len (br_bytes r))) eqn:E.
  - apply andb_true_iff in E as [E1 E2]. apply Z.ltb_lt in E1. apply Z.eqb_eq in E2.
    assert (Hnil : waiting r = []) by (apply length_zero_iff_nil; unfold ring_len, len in *; lia).
    rewrite Hnil. unfold ring_ok, ring_len, waiting in *. cbn [br_bytes br_head br_limit app Z.to_nat drop] in *.
    rewrite Ht. split_and!; try done; lia.
  - unfold ring_ok, ring_len, waiting in *. cbn [br_bytes br_head br_limit].
    rewrite len_app, Ht, drop_app_le by (unfold len in *; lia). split_and!; try done; lia.
Qed.

Lemma dequeue_spec r room : ring_ok r -> 0 <= room ->
  exists r', dequeue_slice r room = Val (take (Z.to_nat (Z.min room (ring_len r))) (waiting r), r') /\ ring_ok r' /\
    br_limit r' = br_limit r /\ ring_len r' = ring_len r - Z.min room (ring_len r) /\
    waiting r = take (Z.to_nat (Z.min room (ring_len r))) (waiting r) ++ waiting r'.
Proof.
  intros Hok Hroom. pose proof (ring_len_waiting r Hok) as Hw. destruct Hok as [[Hh Hh'] Hl].
  unfold dequeue_slice. set (t := Z.min room (ring_len r)) in *.
  assert (Ht : 0 <= t <= ring_len r) by (unfold ring_len in *; lia).
  unfold slice. rewrite (proj2 (Z.leb_le _ _)), (proj2 (Z.leb_le _ (len _))) by (unfold ring_len in *; lia). cbn [andb].
  replace (br_head r + t - br_head r) with t by lia. fold (waiting r). eexists. split; [reflexivity|].
  destruct (br_head r + t =? len (br_bytes r)) eqn:E.
  - apply Z.eqb_eq in E. assert (t = ring_len r) as -> by (unfold ring_len in *; lia).
    unfold ring_ok, ring_len at 1 2, waiting at 3. cbn [br_bytes br_head br_limit drop Z.to_nat].
    unfold len at 1 2 3. cbn [length]. split_and!; try done; try lia.
    rewrite app_nil_r, take_ge; [done|]. unfold len in Hw. lia.
  - apply Z.eqb_neq in E. unfold ring_ok, ring_len, waiting in *. cbn [br_bytes br_head br_limit].
    split_and!; try done; try lia. rewrite <- (take_drop (Z.to_nat t) (drop (Z.to_nat (br_head r)) (br_bytes r))) at 1.
    f_equal. rewrite drop_drop. f_equal. lia.
Qed.

(** A queue that is used without running dry keeps every byte that ever passed through
    it: [ring_turn] takes one byte out and puts one in. *)
Definition ring_turn (b : Z) (r : ByteRing) : run ByteRing :=
  let* '(_, r) := dequeue_slice r 1 in
  let* '(_, r) := enqueue_slice r [b] in
  Val r.

Fixpoint ring_turns (n : nat) (b : Z) (r : ByteRing) : run ByteRing :=
  match n with O => Val r | S n => let* r := ring_turn b r in ring_turns n b r end.

Lemma ring_turn_keeps b r : 0 <= br_head r -> ring_len r = 2 -> br_limit r = 2 ->
  ring_turn b r = Val {| br_bytes := br_bytes r ++ [b]; br_head := br_head r + 1; br_limit := 2 |}.
Proof.
  intros Hh Hl Hlim. unfold ring_turn, dequeue_slice. rewrite Hl. change (Z.min 1 2) with 1. unfold ring_len in Hl.
  unfold slice at 1. rewrite (proj2 (Z.leb_le _ _)), (proj2 (Z.leb_le _ (len _))) by lia. cbn [andb].
  rewrite (proj2 (Z.eqb_neq _ (len _))) by lia. unfold enqueue_slice, window, ring_len. cbn [br_bytes br_head br_limit].
  rewrite (proj2 (Z.eqb_neq _ (len _))), andb_false_r by lia. cbn [br_bytes br_head br_limit].
  replace (Z.min _ _) with 1 by (unfold len at 2; cbn; lia). by rewrite Hlim.
Qed.

(** a queue whose window is two bytes, written and read one byte at a time and never
    quite emptied, holds at most two bytes and keeps an allocation as long as all the
    bytes that went through it: the space before the head is given back only when the
    queue runs dry. *)
Theorem busy_ring_grows (n : nat) b :
  exists r, ring_turns n b {| br_bytes := [b; b]; br_head := 0; br_limit := 2 |} = Val r /\
    len (waiting r) = 2 /\ len (br_bytes r) = Z.of_nat n + 2.
Proof.
  assert (H : forall r, 0 <= br_head r -> ring_len r = 2 -> br_limit r = 2 ->
    exists r', ring_turns n b r = Val r' /\ ring_ok r' /\ ring_len r' = 2 /\ len (br_bytes r') = len (br_bytes r) + Z.of_nat n).
  { induction n as [|n IH]; intros r Hh Hl Hlim; cbn [ring_turns].
    - exists r. unfold ring_ok, ring_len in *. split_and!; try done; lia.
    - rewrite ring_turn_keeps by done. destruct (IH {| br_bytes := br_bytes r ++ [b]; br_head := br_head r + 1; br_limit := 2 |}) as (r' & E & Ho & Hl' & Hs); cbn; try done.
      + lia.
      + unfold ring_len in *. cbn. rewrite len_app, len_cons, len_nil. lia.
      + exists r'. split_and!; try done. rewrite Hs. cbn. rewrite len_app, len_cons, len_nil. lia. }
  destruct (H {| br_bytes := [b; b]; br_head := 0; br_limit := 2 |}) as (r & E & Ho & Hl & Hs); try done.
  exists r. rewrite <- ring_len_waiting by done. rewrite Hs. cbn. split_and!; [done..|]. unfold len. cbn. lia.
Qed.

(** ** What the two ends of a flow share *)

Record FlowState := {
  recv : ByteRing;
  send : ByteRing;
  recv_closed : bool;
  send_closed : bool;
  fin_sent : bool;
  socket_closed : bool;
  recv_waker : option nat;
  send_waker : option nat;
  close_waker : option nat;
}.

(** The state with its [Notify]: whether it holds a permit for the runner, and the wakers
    that were woken.  [sc_attached] says that the application still holds its half of the
    [Arc], and the four texts are the history of the flow: what the runner moved in, what
    the application read, what it wrote and was told is taken, and what the runner moved
    out. *)
Record SocketControl := {
  sc_state : FlowState;
  sc_notified : bool;
  sc_woken : list nat;
  sc_attached : bool;
  sc_in : bytes;
  sc_read : bytes;
  sc_written : bytes;
  sc_out : bytes;
}.

(** [SocketControl::new] *)
Definition control_new (recv_capacity send_capacity : Z) : SocketControl :=
  {| sc_state := {| recv := ring_new recv_capacity; send := ring_new send_capacity; recv_closed := false; send_closed := false;
                    fin_sent := false; socket_closed := false; recv_waker := None; send_waker := None; close_waker := None |};
     sc_notified := false; sc_woken := []; sc_attached := true; sc_in := []; sc_read := []; sc_written := []; sc_out := [] |}.

Definition with_state (st : FlowState) (c : SocketControl) : SocketControl :=
  {| sc_state := st; sc_notified := sc_notified c; sc_woken := sc_woken c; sc_attached := sc_attached c;
     sc_in := sc_in c; sc_read := sc_read c; sc_written := sc_written c; sc_out := sc_out c |}.
Definition notify_one (c : SocketControl) : SocketControl :=
  {| sc_state := sc_state c; sc_notified := true; sc_woken := sc_woken c; sc_attached := sc_attached c;
     sc_in := sc_in c; sc_read := sc_read c; sc_written := sc_written c; sc_out := sc_out c |}.
Definition with_woken (w : list nat) (c : SocketControl) : SocketControl :=
  {| sc_state := sc_state c; sc_notified := sc_notified c; sc_woken := w; sc_attached := sc_attached c;
     sc_in := sc_in c; sc_read := sc_read c; sc_written := sc_written c; sc_out := sc_out c |}.
Definition with_inbound (moved_in read : bytes) (c : SocketControl) : SocketControl :=
  {| sc_state := sc_state c; sc_notified := sc_notified c; sc_woken := sc_woken c; sc_attached := sc_attached c;
     sc_in := moved_in; sc_read := read; sc_written := sc_written c; sc_out := sc_out c |}.
Definition with_outbound (written out : bytes) (c : SocketControl) : SocketControl :=
  {| sc_state := sc_state c; sc_notified := sc_notified c; sc_woken := sc_woken c; sc_attached := sc_attached c;
     sc_in := sc_in c; sc_read := sc_read c; sc_written := written; sc_out := out |}.
Definition detach (c : SocketControl) : SocketControl :=
  {| sc_state := sc_state c; sc_notified := sc_notified c; sc_woken := sc_woken c; sc_attached := false;
     sc_in := sc_in c; sc_read := sc_read c; sc_written := sc_written c; sc_out := sc_out c |}.

Definition set_rings (r s : ByteRing) (st : FlowState) : FlowState :=
  {| recv := r; send := s; recv_closed := recv_closed st; send_closed := send_closed st; fin_sent := fin_sent st;
     socket_closed := socket_closed st; recv_waker := recv_waker st; send_waker := send_waker st; close_waker := close_waker st |}.
Definition set_wakers (r s k : option nat) (st : FlowState) : FlowState :=
  {| recv := recv st; send := send st; recv_closed := recv_closed st; send_closed := send_closed st; fin_sent := fin_sent st;
     socket_closed := socket_closed st; recv_waker := r; send_waker := s; close_waker := k |}.
Definition set_flags (rc sc fs sk : bool) (st : FlowState) : FlowState :=
  {| recv := recv st; send := send st; recv_closed := rc; send_closed := sc; fin_sent := fs; socket_closed := sk;
     recv_waker := recv_waker st; send_waker := send_waker st; close_waker := close_waker st |}.

(** [wake_reader], [wake_writer], [wake_closer] *)
Definition wake_reader (c : SocketControl) : SocketControl :=
  let st := sc_state c in
  with_woken (option_list (recv_waker st) ++ sc_woken c) (with_state (set_wakers None (send_waker st) (close_waker st) st) c).
Definition wake_writer (c : SocketControl) : SocketControl :=
  let st := sc_state c in
  with_woken (option_list (send_waker st) ++ sc_woken c) (with_state (set_wakers (recv_waker st) None (close_waker st) st) c).
Definition wake_closer (c : SocketControl) : SocketControl :=
  let st := sc_state c in
  with_woken (option_list (close_waker st) ++ sc_woken c) (with_state (set_wakers (recv_waker st) (send_waker st) None st) c).

(** *** The runner's side *)

Definition recv_space (c : SocketControl) : Z := window (recv (sc_state c)).

Definition copy_in (from : bytes) (limit : Z) (c : SocketControl) : run (Z * SocketControl) :=
  let st := sc_state c in
  let space := Z.min limit (window (recv st)) in
  if space =? 0 then Val (0, c)
  else
    let take_ := Z.min space (len from) in
    let* data := slice from 0 take_ in
    let* '(written, r) := enqueue_slice (recv st) data in
    let c := with_inbound (sc_in c ++ take (Z.to_nat written) from) (sc_read c) (with_state (set_rings r (send st) st) c) in
    Val (written, if 0 <? written then wake_reader c else c).

Definition copy_out (room : Z) (c : SocketControl) : run (bytes * SocketControl) :=
  let st := sc_state c in
  if ring_is_empty (send st) then Val ([], c)
  else
    let* '(out, s) := dequeue_slice (send st) room in
    let c := with_outbound (sc_written c) (sc_out c ++ out) (with_state (set_rings (recv st) s st) c) in
    Val (out, if 0 <? len out then wake_writer c else c).

Definition mark_recv_closed (c : SocketControl) : SocketControl :=
  let st := sc_state c in
  if negb (recv_closed st) then wake_reader (with_state (set_flags true (send_closed st) (fin_sent st) (socket_closed st) st) c) else c.

Definition mark_fin_sent (c : SocketControl) : SocketControl :=
  let st := sc_state c in
  wake_closer (with_state (set_flags (recv_closed st) (send_closed st) true (socket_closed st) st) c).

Definition mark_socket_closed (c : SocketControl) : SocketControl :=
  let st := sc_state c in
  wake_closer (wake_writer (wake_reader (with_state (set_flags true (send_closed st) (fin_sent st) true st) c))).

Definition send_is_empty (c : SocketControl) : bool := ring_is_empty (send (sc_state c)).

(** *** The application's side *)

Inductive Poll (A : Type) : Type := Pending | Ready (a : A).
Arguments Pending {A}.
Arguments Ready {A} a.

Inductive BrokenPipe := broken_pipe.

(** The bytes read; none is the end of the stream. *)
Definition poll_read (task : nat) (room : Z) (c : SocketControl) : run (Poll bytes * SocketControl) :=
  let st := sc_state c in
  if ring_is_empty (recv st) then
    if recv_closed st then Val (Ready [], c)
    else Val (Pending, with_state (set_wakers (Some task) (send_waker st) (close_waker st) st) c)
  else
    let* '(moved, r) := dequeue_slice (recv st) room in
    let c := with_inbound (sc_in c) (sc_read c ++ moved) (with_state (set_rings r (send st) st) c) in
    Val (Ready moved, if 0 <? len moved then notify_one c else c).

Definition poll_write (task : nat) (data : bytes) (c : SocketControl) : run (Poll (result Z BrokenPipe) * SocketControl) :=
  let st := sc_state c in
  if send_closed st || socket_closed st then Val (Ready (Err broken_pipe), c)
  else if is_full (send st) then
    Val (Pending, with_state (set_wakers (recv_waker st) (Some task) (close_waker st) st) c)
  else
    let* '(written, s) := enqueue_slice (send st) data in
    Val (Ready (Ok written),
         notify_one (with_outbound (sc_written c ++ take (Z.to_nat written) data) (sc_out c) (with_state (set_rings (recv st) s st) c))).

Definition poll_shutdown (task : nat) (c : SocketControl) : Poll unit * SocketControl :=
  let st := set_flags (recv_closed (sc_state c)) true (fin_sent (sc_state c)) (socket_closed (sc_state c)) (sc_state c) in
  if fin_sent st || socket_closed st then (Ready tt, with_state st c)
  else (Pending, notify_one (with_state (set_wakers (recv_waker st) (send_waker st) (Some task) st) c)).

(** [TcpStream]'s [drop] *)
Definition stream_drop (c : SocketControl) : SocketControl := notify_one (detach c).

(** What an application does with its stream. *)
Inductive AppOp :=
| A_read (task : nat) (room : Z)
| A_write (task : nat) (data : bytes)
| A_shutdown (task : nat)
| A_drop.

Definition app_op (op : AppOp) (c : SocketControl) : run SocketControl :=
  if negb (sc_attached c) then Val c
  else match op with
  | A_read task room => let* '(_, c) := poll_read task (Z.max 0 room) c in Val c
  | A_write task data => let* '(_, c) := poll_write task data c in Val c
  | A_shutdown task => Val (poll_shutdown task c).2
  | A_drop => Val (stream_drop c)
  end.

Fixpoint app_ops (ops : list AppOp) (c : SocketControl) : run SocketControl :=
  match ops with
  | [] => Val c
  | op :: ops => let* c := app_op op c in app_ops ops c
  end.

(** ** The flow's invariant *)

Record flow_inv (c : SocketControl) : Prop := {
  fi_recv : ring_ok (recv (sc_state c));
  fi_send : ring_ok (send (sc_state c));
  fi_in : sc_in c = sc_read c ++ waiting (recv (sc_state c));
  fi_out : sc_written c = sc_out c ++ waiting (send (sc_state c));
  fi_fin : fin_sent (sc_state c) = true -> send_closed (sc_state c) = true /\ waiting (send (sc_state c)) = [];
  fi_closed : socket_closed (sc_state c) = true -> recv_closed (sc_state c) = true;
  fi_reader : recv_waker (sc_state c) <> None -> waiting (recv (sc_state c)) = [] /\ recv_closed (sc_state c) = false;
  fi_writer : send_waker (sc_state c) <> None -> is_full (send (sc_state c)) = true /\ socket_closed (sc_state c) = false;
  fi_closer : close_waker (sc_state c) <> None -> send_closed (sc_state c) = true /\ fin_sent (sc_state c) = false /\ socket_closed (sc_state c) = false;
}.

(** What nothing takes back: the flags, and the histories as prefixes.  Once the sending
    side is closed the application adds nothing to it. *)
Record grows (c c' : SocketControl) : Prop := {
  gr_recv_closed : recv_closed (sc_state c) = true -> recv_closed (sc_state c') = true;
  gr_send_closed : send_closed (sc_state c) = true -> send_closed (sc_state c') = true;
  gr_socket_closed : socket_closed (sc_state c) = true -> socket_closed (sc_state c') = true;
  gr_attached : sc_attached c = false -> sc_attached c' = false;
  gr_read : sc_read c `prefix_of` sc_read c';
  gr_in : sc_in c `prefix_of` sc_in c';
  gr_out : sc_out c `prefix_of` sc_out c';
  gr_written : sc_written c `prefix_of` sc_written c';
  gr_done : send_closed (sc_state c) = true -> sc_written c' = sc_written c;
  gr_limits : br_limit (recv (sc_state c')) = br_limit (recv (sc_state c)) /\ br_limit (send (sc_state c')) = br_limit (send (sc_state c));
}.

#[export] Instance grows_preorder : PreOrder grows.
Proof.
  split.
  - intros c. by split.
  - intros a b c [] []. split; eauto; try (by etrans).
    + intros H. rewrite gr_done1 by auto. auto.
    + destruct gr_limits0, gr_limits1. split; congruence.
Qed.

(** The application alone: what the runner owns stays. *)
Record app_only (c c' : SocketControl) : Prop := {
  ao_grows : grows c c';
  ao_in : sc_in c' = sc_in c;
  ao_out : sc_out c' = sc_out c;
  ao_fin : fin_sent (sc_state c') = fin_sent (sc_state c);
  ao_recv_closed : recv_closed (sc_state c') = recv_closed (sc_state c);
  ao_socket_closed : socket_closed (sc_state c') = socket_closed (sc_state c);
  ao_drained : send_closed (sc_state c) = true -> send (sc_state c') = send (sc_state c);
}.

#[export] Instance app_only_preorder : PreOrder app_only.
Proof.
  split.
  - intros c. split; try done.
  - intros a b c [G1 ? ? ? ? ? D1] [G2 ? ? ? ? ? D2]. split; try congruence; [by etrans|].
    intros H. rewrite D2 by (by apply (gr_send_closed a b)). auto.
Qed.

Lemma ring_not_empty r : ring_ok r -> ring_is_empty r = false -> waiting r <> [].
Proof. intros Hok E H. apply (ring_is_empty_waiting r Hok) in H. congruence. Qed.

(** A flow's fields are compared one by one. *)
Ltac flow_fields :=
  cbn [sc_state sc_notified sc_woken sc_attached sc_in sc_read sc_written sc_out recv send recv_closed send_closed fin_sent socket_closed
       recv_waker send_waker close_waker with_state notify_one with_woken with_inbound with_outbound detach set_rings set_wakers set_flags
       wake_reader wake_writer wake_closer stream_drop fst snd] in *.
Ltac flow_split := split; flow_fields; eauto; try done; try (by apply prefix_app_r).

Lemma poll_read_step task room c : 0 <= room -> flow_inv c ->
  exists p c', poll_read task room c = Val (p, c') /\ flow_inv c' /\ app_only c c' /\
    (p = Pending <-> waiting (recv (sc_state c)) = [] /\ recv_closed (sc_state c) = false) /\
    (forall bs, p = Ready bs -> sc_read c' = sc_read c ++ bs /\ (waiting (recv (sc_state c)) = [] -> bs = [])).
Proof.
  intros Hroom Hinv0. pose proof Hinv0 as [Hr Hs Hi Ho Hf Hc Hrw Hsw Hcw]. unfold poll_read. destruct (ring_is_empty (recv (sc_state c))) eqn:E.
  - apply (ring_is_empty_waiting _ Hr) in E. destruct (recv_closed (sc_state c)) eqn:Erc; do 2 eexists; (split; [reflexivity|]).
    + split_and!; try done; [split; [done|by intros [_ ?]]|intros bs [= <-]; by rewrite app_nil_r].
    + split_and!; try done; flow_split; try flow_split; congruence.
  - pose proof (ring_not_empty _ Hr E) as Hne. destruct (dequeue_spec _ room Hr Hroom) as (r' & -> & Hr' & Hlim & Hlen & Hw).
    set (out := take _ _) in *. do 2 eexists. split; [reflexivity|].
    assert (Hinv : flow_inv (with_inbound (sc_in c) (sc_read c ++ out) (with_state (set_rings r' (send (sc_state c)) (sc_state c)) c))).
    { flow_split; [by rewrite <- (assoc_L (++)), <- Hw|]. intros Hwk. by destruct (Hrw Hwk) as [? ?]. }
    assert (Happ : app_only c (with_inbound (sc_in c) (sc_read c ++ out) (with_state (set_rings r' (send (sc_state c)) (sc_state c)) c))).
    { flow_split. flow_split. }
    split_and!.
    + destruct (0 <? _); [|done]. destruct Hinv. by split.
    + destruct (0 <? _); [|done]. destruct Happ as [[]]. split; done.
    + split; [done|]. by intros [? _].
    + intros bs [= <-]. split; [by destruct (0 <? _)|done].
Qed.

Lemma poll_write_step task data c : flow_inv c ->
  exists p c', poll_write task data c = Val (p, c') /\ flow_inv c' /\ app_only c c' /\
    (p = Pending <-> is_full (send (sc_state c)) = true /\ send_closed (sc_state c) = false /\ socket_closed (sc_state c) = false) /\
    (forall n, p = Ready (Ok n) -> sc_written c' = sc_written c ++ take (Z.to_nat n) data) /\
    (p = Ready (Err broken_pipe) -> c' = c).
Proof.
  intros Hinv0. unfold poll_write. destruct (send_closed (sc_state c)) eqn:Esc; cbn [orb].
  { do 2 eexists. split; [reflexivity|]. split_and!; try done; naive_solver. }
  destruct (socket_closed (sc_state c)) eqn:Ekc.
  { do 2 eexists. split; [reflexivity|]. split_and!; try done; naive_solver. }
  destruct (is_full (send (sc_state c))) eqn:Efull.
  { do 2 eexists. split; [reflexivity|]. destruct Hinv0. split_and!; try done; flow_split; try flow_split; congruence. }
  destruct Hinv0 as [Hr Hs Hi Ho Hf Hc Hrw Hsw Hcw]. destruct (enqueue_spec _ data Hs) as (s' & -> & Hs' & Hlim & Hpos & Hw). do 2 eexists. split; [reflexivity|].
  split_and!; try done.
  - flow_split.
    + rewrite Hw, Ho. by rewrite (assoc_L (++)).
    + intros Hfs. destruct (Hf Hfs). congruence.
    + intros Hwk. destruct (Hsw Hwk). congruence.
  - flow_split; [|congruence]. flow_split. congruence.
  - split; [done|]. by intros (? & _).
  - by intros n [= <-].
Qed.

Lemma poll_shutdown_step task c p c' : flow_inv c -> poll_shutdown task c = (p, c') ->
  flow_inv c' /\ app_only c c' /\ (p = Pending <-> fin_sent (sc_state c) = false /\ socket_closed (sc_state c) = false) /\
  send_closed (sc_state c') = true.
Proof.
  intros Hinv0 E. unfold poll_shutdown in E. flow_fields.
  destruct (fin_sent (sc_state c)) eqn:Ef; [|destruct (socket_closed (sc_state c)) eqn:Ek]; cbn [orb] in E; injection E as <- <-; destruct Hinv0 as [Hr Hs Hi Ho Hf Hc Hrw Hsw Hcw].
  all: split_and!; try done; flow_split; try flow_split; naive_solver congruence.
Qed.

Lemma app_op_step op c : flow_inv c -> exists c', app_op op c = Val c' /\ flow_inv c' /\ app_only c c'.
Proof.
  intros Hinv. unfold app_op. destruct (sc_attached c) eqn:Ea; cbn [negb]; [|by exists c].
  destruct op as [task room|task data|task|].
  - destruct (poll_read_step task (Z.max 0 room) c) as (p & c' & -> & ? & ? & _); [lia|done|]. by exists c'.
  - destruct (poll_write_step task data c) as (p & c' & -> & ? & ? & _); [done|]. by exists c'.
  - destruct (poll_shutdown task c) as [p c'] eqn:E. destruct (poll_shutdown_step task c p c') as (? & ? & _); try done. by exists c'.
  - exists (stream_drop c). destruct Hinv. split_and!; [done|by flow_split|]. flow_split; flow_split.
Qed.

Lemma app_ops_step ops c : flow_inv c -> exists c', app_ops ops c = Val c' /\ flow_inv c' /\ app_only c c'.
Proof.
  revert c. induction ops as [|op ops IH]; intros c Hinv; cbn [app_ops]; [by exists c|].
  destruct (app_op_step op c Hinv) as (c1 & -> & H1 & G1). destruct (IH c1 H1) as (c2 & E & H2 & G2).
  exists c2. split_and!; try done. by etrans.
Qed.

Lemma control_new_inv recv_capacity send_capacity : 0 <= recv_capacity -> 0 <= send_capacity -> flow_inv (control_new recv_capacity send_capacity).
Proof. intros. split; cbn; try done; by apply ring_new_ok. Qed.

Lemma copy_in_step from limit c : 0 <= limit -> flow_inv c ->
  exists n c', copy_in from limit c = Val (n, c') /\ flow_inv c' /\ grows c c' /\ 0 <= n <= Z.min limit (len from) /\
    sc_in c' = sc_in c ++ take (Z.to_nat n) from /\ sc_out c' = sc_out c /\ sc_attached c' = sc_attached c /\
    fin_sent (sc_state c') = fin_sent (sc_state c) /\ recv_closed (sc_state c') = recv_closed (sc_state c) /\
    socket_closed (sc_state c') = socket_closed (sc_state c) /\
    (0 < limit -> from <> [] -> limit <= recv_space c -> 0 < n).
Proof.
  intros Hlim [Hr Hs Hi Ho Hf Hc Hrw Hsw Hcw]. unfold copy_in.
  assert (Hwin : 0 <= window (recv (sc_state c))) by (destruct Hr; unfold window; lia).
  destruct (Z.min limit _ =? 0) eqn:E.
  { apply Z.eqb_eq in E. exists 0, c. cbn [Z.to_nat take]. rewrite app_nil_r. pose proof (len_nonneg from).
    split_and!; try done; try lia. unfold recv_space. lia. }
  apply Z.eqb_neq in E. pose proof (len_nonneg from) as Hfrom. rewrite slice_front by lia.
  set (t := Z.min (Z.min limit _) (len from)) in *.
  assert (Ht : len (take (Z.to_nat t) from) = t) by (unfold len in *; rewrite length_take; lia).
  destruct (enqueue_spec _ (take (Z.to_nat t) from) Hr) as (r' & -> & Hr' & Hlim' & Hpos & Hw). rewrite Ht in *.
  replace (Z.min (window (recv (sc_state c))) t) with t in * by lia. rewrite take_take, Nat.min_id in Hw.
  assert (Hn : 0 < limit -> from <> [] -> limit <= recv_space c -> 0 < t).
  { intros ? Hne Hsp. unfold recv_space in Hsp. assert (0 < len from) by (destruct from; [done|unfold len; cbn; lia]). lia. }
  exists t. eexists. split; [reflexivity|]. destruct (0 <? t) eqn:Et; [apply Z.ltb_lt in Et|apply Z.ltb_ge in Et];
    (split_and!; [flow_split|flow_split|..]; flow_fields; try done; try lia).
  - rewrite Hw, Hi. by rewrite (assoc_L (++)).
  - rewrite Hw, Hi. by rewrite (assoc_L (++)).
  - replace (Z.to_nat t) with 0%nat in Hw by lia. rewrite take_0, app_nil_r in Hw. by rewrite Hw.
Qed.

Lemma copy_out_step room c : 0 <= room -> flow_inv c ->
  exists out c', copy_out room c = Val (out, c') /\ flow_inv c' /\ grows c c' /\ len out <= room /\
    sc_out c' = sc_out c ++ out /\ sc_in c' = sc_in c /\ sc_written c' = sc_written c /\ sc_attached c' = sc_attached c /\
    fin_sent (sc_state c') = fin_sent (sc_state c) /\ recv_closed (sc_state c') = recv_closed (sc_state c) /\
    socket_closed (sc_state c') = socket_closed (sc_state c) /\
    (out = [] -> 0 < room -> waiting (send (sc_state c)) = []).
Proof.
  intros Hroom [Hr Hs Hi Ho Hf Hc Hrw Hsw Hcw]. unfold copy_out. pose proof (ring_len_waiting _ Hs) as Hlw.
  destruct (ring_is_empty (send (sc_state c))) eqn:E.
  { apply (ring_is_empty_waiting _ Hs) in E. exists [], c. rewrite app_nil_r. split_and!; try done. }
  pose proof (ring_not_empty _ Hs E) as Hne.
  destruct (dequeue_spec _ room Hs Hroom) as (s' & -> & Hs' & Hlim' & Hlen' & Hw).
  pose proof (len_nonneg (waiting (send (sc_state c)))) as Hnn.
  assert (Hlo : len (take (Z.to_nat (Z.min room (ring_len (send (sc_state c))))) (waiting (send (sc_state c)))) = Z.min room (ring_len (send (sc_state c))))
    by (unfold len in *; rewrite length_take; lia).
  set (out := take _ _) in *. exists out. eexists. split; [reflexivity|].
  assert (Hfin : fin_sent (sc_state c) = true -> send_closed (sc_state c) = true ∧ waiting s' = []).
  { intros H. by destruct (Hf H). }
  assert (Hwake : 0 <? len out = false -> send_waker (sc_state c) ≠ None -> is_full s' = true ∧ socket_closed (sc_state c) = false).
  { intros Hz Hwk. apply Z.ltb_ge in Hz. destruct (Hsw Hwk) as [Hfull Hk]. split; [|done].
    unfold is_full in *. apply Z.leb_le in Hfull. apply Z.leb_le. lia. }
  assert (Hnil : out = [] -> 0 < room -> waiting (send (sc_state c)) = []).
  { intros Hz ?. rewrite Hz in Hlo. change (len (@nil Z)) with 0 in Hlo. apply length_zero_iff_nil. unfold len in *. lia. }
  assert (Hout : sc_written c = (sc_out c ++ out) ++ waiting s') by (by rewrite <- (assoc_L (++)), <- Hw).
  destruct (0 <? len out) eqn:Eo; (split_and!; [flow_split|flow_split|..]; flow_fields; try done; lia).
Qed.

Lemma mark_recv_closed_step c : flow_inv c -> flow_inv (mark_recv_closed c) /\ grows c (mark_recv_closed c) /\
  recv_closed (sc_state (mark_recv_closed c)) = true /\ sc_in (mark_recv_closed c) = sc_in c /\ sc_out (mark_recv_closed c) = sc_out c /\
  sc_attached (mark_recv_closed c) = sc_attached c /\ fin_sent (sc_state (mark_recv_closed c)) = fin_sent (sc_state c).
Proof.
  intros Hinv. unfold mark_recv_closed. destruct (recv_closed (sc_state c)) eqn:E; cbn [negb]; [by split_and!|].
  destruct Hinv. split_and!; try done; flow_split.
Qed.

Lemma mark_fin_sent_step c : flow_inv c -> send_closed (sc_state c) = true -> waiting (send (sc_state c)) = [] ->
  flow_inv (mark_fin_sent c) /\ grows c (mark_fin_sent c).
Proof. intros [] ? ?. split; unfold mark_fin_sent; flow_split. Qed.

Lemma mark_socket_closed_step c : flow_inv c -> flow_inv (mark_socket_closed c) /\ grows c (mark_socket_closed c) /\
  socket_closed (sc_state (mark_socket_closed c)) = true /\ sc_in (mark_socket_closed c) = sc_in c /\ sc_out (mark_socket_closed c) = sc_out c.
Proof. intros []. split_and!; try done; unfold mark_socket_closed; flow_split. Qed.

(** a reader of one flow is told to wait exactly when nothing waits for it and more may
    come, a writer exactly when its window is full, and a closer until the FIN is with the
    stack; and in every state that the application and the runner can bring a flow to,
    whoever is registered as waiting has nothing to be woken for: a reader's queue is
    empty and open, a writer's is full and open, a closer's FIN is still to be sent.
    When the socket is closed nobody is registered and no poll waits. *)
Theorem nobody_waits_in_vain c task room data :
  flow_inv c -> 0 <= room ->
  (recv_waker (sc_state c) <> None -> sc_read c = sc_in c /\ recv_closed (sc_state c) = false) /\
  (send_waker (sc_state c) <> None -> window (send (sc_state c)) = 0 /\ socket_closed (sc_state c) = false) /\
  (close_waker (sc_state c) <> None -> fin_sent (sc_state c) = false /\ socket_closed (sc_state c) = false) /\
  (exists p q c1 c2, poll_read task room c = Val (p, c1) /\ poll_write task data c = Val (q, c2) /\
    (p = Pending <-> sc_read c = sc_in c /\ recv_closed (sc_state c) = false) /\
    (q = Pending <-> window (send (sc_state c)) = 0 /\ send_closed (sc_state c) = false /\ socket_closed (sc_state c) = false)) /\
  ((poll_shutdown task c).1 = Pending <-> fin_sent (sc_state c) = false /\ socket_closed (sc_state c) = false) /\
  (socket_closed (sc_state c) = true ->
    recv_waker (sc_state c) = None /\ send_waker (sc_state c) = None /\ close_waker (sc_state c) = None).
Proof.
  intros Hinv Hroom.
  assert (Hempty : waiting (recv (sc_state c)) = [] <-> sc_read c = sc_in c).
  { rewrite (fi_in c Hinv). split; [intros ->; by rewrite app_nil_r|]. intros H. apply (f_equal length) in H. rewrite length_app in H. apply length_zero_iff_nil. lia. }
  assert (Hfull : is_full (send (sc_state c)) = true <-> window (send (sc_state c)) = 0).
  { destruct (fi_send c Hinv). unfold is_full, window. rewrite Z.leb_le. lia. }
  rewrite <- Hempty, <- Hfull. split; [apply Hinv|]. split; [apply Hinv|]. split; [apply Hinv|]. split; [|split].
  - destruct (poll_read_step task room c) as (p & c1 & -> & _ & _ & Hp & _); [done..|].
    destruct (poll_write_step task data c) as (q & c2 & -> & _ & _ & Hq & _); [done|]. exists p, q, c1, c2. by rewrite <- Hempty, <- Hfull.
  - destruct (poll_shutdown task c) as [p c'] eqn:E. by destruct (poll_shutdown_step task c p c') as (_ & _ & ? & _).
  - intros Hk. pose proof (fi_closed c Hinv Hk) as Hrc. split_and!.
    + destruct (recv_waker (sc_state c)) eqn:E; [|done]. destruct (fi_reader c Hinv); [by rewrite E|congruence].
    + destruct (send_waker (sc_state c)) eqn:E; [|done]. destruct (fi_writer c Hinv); [by rewrite E|congruence].
    + destruct (close_waker (sc_state c)) eqn:E; [|done]. destruct (fi_closer c Hinv) as (_ & _ & ?); [by rewrite E|congruence].
Qed.

(** ** The runner *)

(** The states of a TCP connection, as smoltcp names them. *)
Inductive State :=
| Closed | Listen | SynSent | SynReceived | Established | FinWait1 | FinWait2 | CloseWait | Closing | LastAck | TimeWait.

#[export] Instance State_eq_dec : EqDecision State.
Proof. solve_decision. Defined.

(** A socket of smoltcp.  [recv] shows the caller a slice of what was received and takes
    from it what the caller says it moved; [send] shows a slice of room and sends what the
    caller put in its front. *)
Class Socket (S : Type) := {
  sk_listen : SocketAddr -> option S;
  sk_state : S -> State;
  may_recv : S -> bool;
  can_recv : S -> bool;
  can_send : S -> bool;
  recv_slice : S -> option bytes;
  recv_taken : Z -> S -> S;
  send_room : S -> option Z;
  send_put : bytes -> S -> S;
  sk_close : S -> S;
  sk_abort : S -> S;
  received : S -> bytes;
  send_free : S -> Z;
}.

(** The documentation of the operations: a socket that can receive shows a slice of the
    octets it has not handed over, the first of them first; it may receive as long as it
    has any; one that can send has room, and the room is what its capacity leaves beside
    the octets it has queued; nothing but the taking of octets takes them. *)
Class SocketLaws (S : Type) `{Socket S} : Prop := {
  recv_slice_front s : can_recv s = true -> exists buf, recv_slice s = Some buf /\ buf <> [] /\ buf `prefix_of` received s;
  recv_taken_rest n s : received (recv_taken n s) = drop (Z.to_nat n) (received s);
  may_recv_held s : may_recv s = false -> received s = [];
  can_recv_held s : can_recv s = false -> may_recv s = true -> received s = [];
  send_room_some s : can_send s = true -> exists room, send_room s = Some room /\ 0 < room <= send_free s;
  send_put_free bs s : len bs <= send_free s -> send_free (send_put bs s) = send_free s - len bs;
  recv_taken_free n s : send_free (recv_taken n s) = send_free s;
  send_put_received bs s : received (send_put bs s) = received s;
  close_received s : received (sk_close s) = received s;
}.

Definition TCP_HANDSHAKE_GRACE : Z := 10 * 10 ^ 6.
Definition TCP_FIN_TIMEOUT : Z := 30 * 10 ^ 6.

(** Times are the microseconds of smoltcp's [Instant]. *)
Record Flow := {
  f_control : SocketControl;
  f_handshake : option (SocketAddr * SocketAddr);
  f_opened_at : Z;
  f_closed_at : option Z;
}.

Section runner.
Context {S : Type} `{Socket S}.

(** What the application does before the runner's [n]th look at the flow. *)
Variable sched : nat -> list AppOp.

Record Pumping := { p_control : SocketControl; p_socket : S; p_looks : nat }.

Definition at_look (p : Pumping) : run Pumping :=
  let* c := app_ops (sched (p_looks p)) (p_control p) in
  Val {| p_control := c; p_socket := p_socket p; p_looks := Nat.succ (p_looks p) |}.
Definition with_control (c : SocketControl) (p : Pumping) : Pumping := {| p_control := c; p_socket := p_socket p; p_looks := p_looks p |}.
Definition with_socket (s : S) (p : Pumping) : Pumping := {| p_control := p_control p; p_socket := s; p_looks := p_looks p |}.

(** The first loop of [pump]: what the peer sent, into the application's buffer. *)
Fixpoint pump_recv (fuel : nat) (p : Pumping) : run Pumping :=
  match fuel with
  | O => Spins
  | Datatypes.S fuel =>
      if can_recv (p_socket p) then
        let* p := at_look p in
        let space := recv_space (p_control p) in
        if space =? 0 then Val p
        else match recv_slice (p_socket p) with
        | None => Val p
        | Some buf =>
            let* p := at_look p in
            let* '(moved, c) := copy_in buf space (p_control p) in
            let p := with_control c (with_socket (recv_taken moved (p_socket p)) p) in
            if 0 <? moved then pump_recv fuel p else Val p
        end
      else Val p
  end.

(** The second: what the application wrote, into the socket. *)
Fixpoint pump_send (fuel : nat) (p : Pumping) : run Pumping :=
  match fuel with
  | O => Spins
  | Datatypes.S fuel =>
      if can_send (p_socket p) then
        match send_room (p_socket p) with
        | None => Val p
        | Some room =>
            let* p := at_look p in
            let* '(out, c) := copy_out room (p_control p) in
            let p := with_control c (with_socket (send_put out (p_socket p)) p) in
            if 0 <? len out then pump_send fuel p else Val p
        end
      else Val p
  end.

Definition peer_closed (s : S) : bool :=
  negb (may_recv s) &&
  match sk_state s with Listen | SynReceived | Established | FinWait1 | FinWait2 => false | _ => true end.

Definition pump_peer_closed (p : Pumping) : run Pumping :=
  if peer_closed (p_socket p) then let* p := at_look p in Val (with_control (mark_recv_closed (p_control p)) p) else Val p.

(** [control.send_closed() && control.send_is_empty() && !control.fin_sent()], each under
    its own lock. *)
Definition ready_to_close (p : Pumping) : run (bool * Pumping) :=
  let* p := at_look p in
  if negb (send_closed (sc_state (p_control p))) then Val (false, p)
  else
    let* p := at_look p in
    if negb (send_is_empty (p_control p)) then Val (false, p)
    else
      let* p := at_look p in
      Val (negb (fin_sent (sc_state (p_control p))), p).

Definition pump_fin (now : Z) (closed_at : option Z) (p : Pumping) : run (option Z * Pumping) :=
  let* '(ready, p) := ready_to_close p in
  if ready then
    let* p := at_look (with_socket (sk_close (p_socket p)) p) in
    Val (Some now, with_control (mark_fin_sent (p_control p)) p)
  else Val (closed_at, p).

(** The handshake is over: the key its flow gives back, if it had one. *)
Definition handshake_over (s : S) : bool := match sk_state s with Listen | SynReceived => false | _ => true end.

Definition abort_socket (p : Pumping) : Pumping := with_socket (sk_abort (p_socket p)) p.
Definition tell_closed (p : Pumping) : run Pumping := let* p := at_look p in Val (with_control (mark_socket_closed (p_control p)) p).

(** [Arc::strong_count(control) == 1] *)
Definition app_gone (p : Pumping) : run (bool * Pumping) := let* p := at_look p in Val (negb (sc_attached (p_control p)), p).

(** The last part of one turn: whether the flow is finished. *)
Definition pump_verdict (now opened_at : Z) (closed_at : option Z) (p : Pumping) : run (bool * Pumping) :=
  if bool_decide (sk_state (p_socket p) = Closed) then let* p := tell_closed p in Val (true, p)
  else if bool_decide (sk_state (p_socket p) = Listen) && (opened_at + TCP_HANDSHAKE_GRACE <=? now) then
    let* p := tell_closed (abort_socket p) in Val (true, p)
  else
    let* '(gone, p) := app_gone p in
    let* '(dropped, p) := (if gone then let* p := at_look p in Val (negb (fin_sent (sc_state (p_control p))), p) else Val (false, p)) in
    if dropped then Val (true, abort_socket p)
    else match closed_at with
    | Some t =>
        if t + TCP_FIN_TIMEOUT <=? now then
          let* '(gone, p) := app_gone p in
          if gone then Val (true, abort_socket p) else Val (false, p)
        else Val (false, p)
    | None => Val (false, p)
    end.

(** One turn of the loop over the flows: the flow and its socket as the turn leaves them,
    the key that was given back, and whether the flow is finished.  A turn of the first
    byte loop takes an octet of the socket and one of the second fills one of its free
    places, and smoltcp does not run in between. *)
Record Turn := { t_flow : Flow; t_socket : S; t_released : option (SocketAddr * SocketAddr); t_finished : bool }.

Definition turns (s : S) : nat := (length (received s) + Z.to_nat (send_free s) + 1)%nat.

Definition pump_flow (now : Z) (f : Flow) (s : S) : run Turn :=
  let p := {| p_control := f_control f; p_socket := s; p_looks := 0 |} in
  let* p := pump_recv (turns s) p in
  let* p := pump_send (turns s) p in
  let* p := pump_peer_closed p in
  let* '(closed_at, p) := pump_fin now (f_closed_at f) p in
  let over := handshake_over (p_socket p) in
  let* '(finished, p) := pump_verdict now (f_opened_at f) closed_at p in
  Val {| t_flow := {| f_control := p_control p; f_handshake := if over then None else f_handshake f;
                      f_opened_at := f_opened_at f; f_closed_at := closed_at |};
         t_socket := p_socket p;
         t_released := if over then f_handshake f else None;
         t_finished := finished |}.

(** *** One turn *)

Context `{!SocketLaws S}.

(** What a part of the turn keeps: the invariant, and every octet of the peer. *)
Record part (p p' : Pumping) : Prop := {
  pt_inv : flow_inv (p_control p');
  pt_grows : grows (p_control p) (p_control p');
  pt_octets : sc_in (p_control p') ++ received (p_socket p') = sc_in (p_control p) ++ received (p_socket p);
}.

(** A part that also leaves what the runner says about the flow. *)
Record quiet (p p' : Pumping) : Prop := {
  qt_part : part p p';
  qt_fin : fin_sent (sc_state (p_control p')) = fin_sent (sc_state (p_control p));
  qt_recv_closed : recv_closed (sc_state (p_control p')) = recv_closed (sc_state (p_control p));
  qt_socket_closed : socket_closed (sc_state (p_control p')) = socket_closed (sc_state (p_control p));
}.

Lemma part_trans p q r : part p q -> part q r -> part p r.
Proof. intros [] []. split; [done|by etrans|congruence]. Qed.

Lemma quiet_trans p q r : quiet p q -> quiet q r -> quiet p r.
Proof. intros [] []. split; [by eapply part_trans|congruence..]. Qed.

Lemma quiet_refl p : flow_inv (p_control p) -> quiet p p.
Proof. done. Qed.

Lemma at_look_ok p : flow_inv (p_control p) ->
  exists p', at_look p = Val p' /\ quiet p p' /\ p_socket p' = p_socket p /\ app_only (p_control p) (p_control p').
Proof.
  intros Hinv. unfold at_look. destruct (app_ops_step (sched (p_looks p)) (p_control p) Hinv) as (c & -> & Hinv' & Ha).
  eexists. split; [reflexivity|]. split_and!; try done. destruct Ha as [? Hin ?]. split; cbn; try done. split; cbn; try done. by rewrite Hin.
Qed.

Lemma pump_recv_ok fuel p : flow_inv (p_control p) -> (length (received (p_socket p)) < fuel)%nat ->
  exists p', pump_recv fuel p = Val p' /\ quiet p p' /\ send_free (p_socket p') = send_free (p_socket p).
Proof.
  revert p. induction fuel as [|fuel IH]; intros p Hinv Hfuel; [lia|]. cbn [pump_recv].
  destruct (can_recv (p_socket p)) eqn:Ecan; [|by exists p].
  destruct (at_look_ok p Hinv) as (p1 & -> & Q1 & Es1 & A1). pose proof (pt_inv _ _ (qt_part _ _ Q1)) as Hinv1.
  destruct (recv_space (p_control p1) =? 0) eqn:Esp; [by exists p1; rewrite Es1|]. apply Z.eqb_neq in Esp.
  assert (Hsp : 0 <= recv_space (p_control p1)) by (destruct (fi_recv _ Hinv1); unfold recv_space, window; lia).
  destruct (recv_slice_front _ Ecan) as (buf & Hbuf & Hne & [rest Hrest]). rewrite Es1, Hbuf.
  destruct (at_look_ok p1 Hinv1) as (p2 & -> & Q2 & Es2 & A2). pose proof (pt_inv _ _ (qt_part _ _ Q2)) as Hinv2.
  destruct (copy_in_step buf (recv_space (p_control p1)) (p_control p2) Hsp Hinv2) as (n & c & -> & Hinv3 & G3 & Hn & Hin & Hout & Hatt & Hfin & Hrc & Hkc & _).
  rewrite Es2, Es1. set (p3 := with_control _ _).
  assert (Q3 : quiet p2 p3).
  { split; [split|..]; cbn; try done. rewrite recv_taken_rest, Hin, Es2, Es1, Hrest, drop_app_le by (unfold len in Hn; lia).
    by rewrite <- (assoc_L (++)), (assoc_L (++) (take _ buf)), take_drop. }
  assert (Q : quiet p p3) by (eapply quiet_trans; [done|by eapply quiet_trans]).
  destruct (0 <? n) eqn:En; [|by exists p3; cbn; rewrite recv_taken_free]. apply Z.ltb_lt in En.
  destruct (IH p3) as (p' & -> & Q' & Hf); [done| |].
  { cbn. rewrite recv_taken_rest, length_drop. assert (length buf <= length (received (p_socket p)))%nat by (rewrite Hrest, length_app; lia).
    unfold len in Hn. lia. }
  exists p'. split_and!; [done|by eapply quiet_trans|]. rewrite Hf. cbn. by rewrite recv_taken_free.
Qed.

Lemma pump_send_ok fuel p : flow_inv (p_control p) -> (Z.to_nat (send_free (p_socket p)) < fuel)%nat ->
  exists p', pump_send fuel p = Val p' /\ quiet p p' /\ received (p_socket p') = received (p_socket p).
Proof.
  revert p. induction fuel as [|fuel IH]; intros p Hinv Hfuel; [lia|]. cbn [pump_send].
  destruct (can_send (p_socket p)) eqn:Ecan; [|by exists p].
  destruct (send_room_some _ Ecan) as (room & -> & Hroom).
  destruct (at_look_ok p Hinv) as (p1 & -> & Q1 & Es1 & A1). pose proof (pt_inv _ _ (qt_part _ _ Q1)) as Hinv1.
  destruct (copy_out_step room (p_control p1)) as (out & c & -> & Hinv2 & G2 & Hlen & Hout & Hin & Hwr & Hatt & Hfin & Hrc & Hkc & _); [lia|done|].
  rewrite Es1. set (p2 := with_control _ _).
  assert (Q : quiet p p2).
  { eapply quiet_trans; [done|]. split; [split|..]; cbn; try done. by rewrite Hin, send_put_received, Es1. }
  destruct (0 <? len out) eqn:En; [|by exists p2; cbn; rewrite send_put_received]. apply Z.ltb_lt in En.
  destruct (IH p2) as (p' & -> & Q' & Hf); [done| |].
  { cbn. rewrite send_put_free by lia. lia. }
  exists p'. split_and!; [done|by eapply quiet_trans|]. rewrite Hf. cbn. by rewrite send_put_received.
Qed.

Lemma peer_closed_received s : peer_closed s = true -> received s = [].
Proof. unfold peer_closed. intros E. apply andb_true_iff in E as [E _]. apply may_recv_held. by destruct (may_recv s). Qed.

Lemma pump_peer_closed_ok p : flow_inv (p_control p) ->
  exists p', pump_peer_closed p = Val p' /\ part p p' /\ p_socket p' = p_socket p /\
    fin_sent (sc_state (p_control p')) = fin_sent (sc_state (p_control p)) /\
    (recv_closed (sc_state (p_control p')) = true -> recv_closed (sc_state (p_control p)) = true \/ received (p_socket p) = []).
Proof.
  intros Hinv. unfold pump_peer_closed. destruct (peer_closed (p_socket p)) eqn:E; [|exists p; split_and!; by auto].
  destruct (at_look_ok p Hinv) as (p1 & -> & Q1 & Es1 & A1). destruct (mark_recv_closed_step (p_control p1)) as (I & G & _ & Hin & _ & _ & Hfin); [apply Q1|].
  eexists. split; [reflexivity|]. split_and!; cbn.
  - eapply part_trans; [apply Q1|]. split; cbn; try done. by rewrite Hin.
  - done.
  - rewrite Hfin. apply Q1.
  - right. by apply peer_closed_received.
Qed.

Lemma ready_to_close_ok p : flow_inv (p_control p) ->
  exists ready p', ready_to_close p = Val (ready, p') /\ quiet p p' /\ p_socket p' = p_socket p /\
    (ready = true -> send_closed (sc_state (p_control p')) = true /\ waiting (send (sc_state (p_control p'))) = [] /\ fin_sent (sc_state (p_control p')) = false).
Proof.
  intros Hinv. unfold ready_to_close. destruct (at_look_ok p Hinv) as (p1 & -> & Q1 & Es1 & A1).
  destruct (send_closed (sc_state (p_control p1))) eqn:Esc; cbn [negb]; [|by eexists _, _].
  destruct (at_look_ok p1) as (p2 & -> & Q2 & Es2 & A2); [apply Q1|].
  destruct (send_is_empty (p_control p2)) eqn:Eem; cbn [negb].
  2:{ eexists _, _. split_and!; [done|by eapply quiet_trans|congruence|done]. }
  destruct (at_look_ok p2) as (p3 & -> & Q3 & Es3 & A3); [apply Q2|].
  eexists _, p3. split_and!; [done|eapply quiet_trans; [done|by eapply quiet_trans]|congruence|].
  intros Ef. pose proof (gr_send_closed _ _ (ao_grows _ _ A2) Esc) as Esc2. split_and!.
  - by apply (gr_send_closed _ _ (ao_grows _ _ A3)).
  - rewrite (ao_drained _ _ A3 Esc2). apply ring_is_empty_waiting; [|done]. apply fi_send, Q2.
  - by destruct (fin_sent _).
Qed.

Lemma pump_fin_ok now closed_at p : flow_inv (p_control p) -> fin_sent (sc_state (p_control p)) = is_some closed_at ->
  exists closed_at' p', pump_fin now closed_at p = Val (closed_at', p') /\ part p p' /\ received (p_socket p') = received (p_socket p) /\
    fin_sent (sc_state (p_control p')) = is_some closed_at' /\
    recv_closed (sc_state (p_control p')) = recv_closed (sc_state (p_control p)) /\
    (closed_at' = closed_at \/ closed_at = None /\ closed_at' = Some now).
Proof.
  intros Hinv Hfin. unfold pump_fin. destruct (ready_to_close_ok p Hinv) as (ready & p1 & -> & Q1 & Es1 & Hr). destruct ready.
  - destruct (Hr eq_refl) as (Esc & Ew & Ef). destruct (at_look_ok (with_socket (sk_close (p_socket p1)) p1)) as (p2 & -> & Q2 & Es2 & A2); [apply Q1|].
    cbn in *. destruct (mark_fin_sent_step (p_control p2)) as [I G]; [apply Q2|by apply (gr_send_closed _ _ (ao_grows _ _ A2))|by rewrite (ao_drained _ _ A2 Esc)|].
    eexists _, _. split; [reflexivity|]. split_and!; cbn; try done.
    + eapply part_trans; [apply Q1|]. split; cbn; [done|etrans; [apply A2|done]|]. rewrite Es2, close_received. by rewrite (ao_in _ _ A2).
    + by rewrite Es2, close_received, Es1.
    + rewrite (ao_recv_closed _ _ A2). apply Q1.
    + right. split; [|done]. rewrite (qt_fin _ _ Q1), Hfin in Ef. by destruct closed_at.
  - eexists _, _. split; [reflexivity|]. split_and!; try apply Q1; [by rewrite Es1|rewrite (qt_fin _ _ Q1)|left]; done.
Qed.

Lemma app_gone_ok p : flow_inv (p_control p) ->
  exists gone p', app_gone p = Val (gone, p') /\ quiet p p' /\ p_socket p' = p_socket p /\
    (gone = true -> sc_attached (p_control p') = false) /\ (sc_attached (p_control p) = false -> gone = true).
Proof.
  intros Hinv. unfold app_gone. destruct (at_look_ok p Hinv) as (p1 & -> & Q1 & Es1 & A1).
  eexists _, p1. split_and!; try done; [by destruct (sc_attached _)|]. intros Ha. by rewrite (gr_attached _ _ (ao_grows _ _ A1) Ha).
Qed.

Lemma tell_closed_ok p : flow_inv (p_control p) ->
  exists p', tell_closed p = Val p' /\ flow_inv (p_control p') /\ grows (p_control p) (p_control p') /\
    fin_sent (sc_state (p_control p')) = fin_sent (sc_state (p_control p)) /\ socket_closed (sc_state (p_control p')) = true.
Proof.
  intros Hinv. unfold tell_closed. destruct (at_look_ok p Hinv) as (p1 & -> & Q1 & Es1 & A1).
  destruct (mark_socket_closed_step (p_control p1)) as (I & G & K & _ & _); [apply Q1|].
  eexists. split; [reflexivity|]. split_and!; cbn; try done; [etrans; [apply A1|done]|]. apply (ao_fin _ _ A1).
Qed.

(** What a turn says of a flow it keeps: the socket is not closed, it does not listen past
    the grace of its handshake, and when the application was gone its FIN is with the
    stack and still within its time. *)
Definition may_stay (now opened_at : Z) (closed_at : option Z) (gone : bool) (s : S) : Prop :=
  sk_state s <> Closed /\ (sk_state s = Listen -> now < opened_at + TCP_HANDSHAKE_GRACE) /\
  (gone = true -> exists t, closed_at = Some t /\ now < t + TCP_FIN_TIMEOUT).

Lemma pump_verdict_ok now opened_at closed_at p : flow_inv (p_control p) -> fin_sent (sc_state (p_control p)) = is_some closed_at ->
  exists finished p', pump_verdict now opened_at closed_at p = Val (finished, p') /\ flow_inv (p_control p') /\ grows (p_control p) (p_control p') /\
    fin_sent (sc_state (p_control p')) = is_some closed_at /\
    if finished : bool then socket_closed (sc_state (p_control p')) = true \/ sc_attached (p_control p') = false
    else quiet p p' /\ p_socket p' = p_socket p /\ may_stay now opened_at closed_at (negb (sc_attached (p_control p))) (p_socket p).
Proof.
  intros Hinv Hfin. unfold pump_verdict. case_bool_decide as Ec.
  { destruct (tell_closed_ok p Hinv) as (p' & -> & I & G & F & K). eexists _, p'. split_and!; try done; [congruence|by left]. }
  destruct (bool_decide (sk_state (p_socket p) = Listen) && (opened_at + TCP_HANDSHAKE_GRACE <=? now)) eqn:El.
  { destruct (tell_closed_ok (abort_socket p) Hinv) as (p' & -> & I & G & F & K). cbn in F. eexists _, p'. split_and!; try done; [congruence|by left]. }
  assert (Hl : sk_state (p_socket p) = Listen -> now < opened_at + TCP_HANDSHAKE_GRACE).
  { intros El'. rewrite bool_decide_eq_true_2 in El by done. cbn in El. lia. }
  destruct (app_gone_ok p Hinv) as (gone & p1 & -> & Q1 & Es1 & Hg & Hg').
  assert (Hdrop : exists dropped p2, (if gone then let* p := at_look p1 in Val (negb (fin_sent (sc_state (p_control p))), p) else Val (false, p1)) = Val (dropped, p2) /\
    quiet p1 p2 /\ p_socket p2 = p_socket p1 /\ (dropped = true -> sc_attached (p_control p2) = false) /\ (gone = true -> dropped = negb (is_some closed_at))).
  { destruct gone; [|eexists _, p1; split_and!; try done; apply quiet_refl, Q1]. destruct (at_look_ok p1) as (p2 & -> & Q2 & Es2 & A2); [apply Q1|].
    eexists _, p2. split_and!; try done; [intros _; apply (gr_attached _ _ (ao_grows _ _ A2)); auto|]. intros _. by rewrite (qt_fin _ _ Q2), (qt_fin _ _ Q1), Hfin. }
  destruct Hdrop as (dropped & p2 & -> & Q2 & Es2 & Hd & Hd'). pose proof (quiet_trans _ _ _ Q1 Q2) as Q.
  destruct dropped.
  { eexists _, (abort_socket p2). split; [reflexivity|]. split; [apply Q|]. split; [apply Q|]. split; [cbn; by rewrite (qt_fin _ _ Q)|]. right. by apply Hd. }
  assert (Hstay : (negb (sc_attached (p_control p)) = true -> exists t, closed_at = Some t /\ now < t + TCP_FIN_TIMEOUT) ->
    may_stay now opened_at closed_at (negb (sc_attached (p_control p))) (p_socket p)) by done.
  assert (Hgone : negb (sc_attached (p_control p)) = true -> is_some closed_at = true).
  { intros Ha%negb_true_iff. specialize (Hd' (Hg' Ha)). by destruct (is_some closed_at). }
  destruct closed_at as [t|].
  2:{ eexists _, p2. split; [reflexivity|]. split; [apply Q|]. split; [apply Q|]. split; [by rewrite (qt_fin _ _ Q)|]. split; [done|]. split; [congruence|]. apply Hstay. intros Ha. by specialize (Hgone Ha). }
  destruct (t + TCP_FIN_TIMEOUT <=? now) eqn:Et.
  2:{ apply Z.leb_gt in Et. eexists _, p2. split; [reflexivity|]. split; [apply Q|]. split; [apply Q|]. split; [by rewrite (qt_fin _ _ Q)|]. split; [done|]. split; [congruence|]. apply Hstay. eauto. }
  destruct (app_gone_ok p2) as (gone2 & p3 & -> & Q3 & Es3 & Hg3 & Hg3'); [apply Q2|]. pose proof (quiet_trans _ _ _ Q Q3) as Q'.
  destruct gone2.
  - eexists _, (abort_socket p3). split; [reflexivity|]. split; [apply Q'|]. split; [apply Q'|]. split; [cbn; by rewrite (qt_fin _ _ Q')|]. right. by apply Hg3.
  - eexists _, p3. split; [reflexivity|]. split; [apply Q'|]. split; [apply Q'|]. split; [by rewrite (qt_fin _ _ Q')|]. split; [done|]. split; [congruence|]. apply Hstay.
    intros Ha%negb_true_iff. by specialize (Hg3' (gr_attached _ _ (pt_grows _ _ (qt_part _ _ Q)) Ha)).
Qed.

(** What holds of a flow between two turns. *)
Definition flow_ok (f : Flow) : Prop := flow_inv (f_control f) /\ fin_sent (sc_state (f_control f)) = is_some (f_closed_at f).

(** What a turn makes of a flow. *)
Definition turned (now : Z) (finished : bool) (f : Flow) (s : S) (f' : Flow) (s' : S) : Prop :=
  grows (f_control f) (f_control f') /\
  if finished then socket_closed (sc_state (f_control f')) = true \/ sc_attached (f_control f') = false
  else
    sc_in (f_control f') ++ received s' = sc_in (f_control f) ++ received s /\
    (recv_closed (sc_state (f_control f')) = true -> recv_closed (sc_state (f_control f)) = true \/ received s' = []) /\
    may_stay now (f_opened_at f) (f_closed_at f') (negb (sc_attached (f_control f))) s'.

(** One turn over a flow ends, and this is what it leaves. *)
Lemma pump_flow_ok now f s : flow_ok f ->
  exists t, pump_flow now f s = Val t /\ flow_ok (t_flow t) /\
    (f_handshake f = match t_released t with Some k => Some k | None => f_handshake (t_flow t) end) /\
    (t_released t <> None -> f_handshake (t_flow t) = None) /\
    turned now (t_finished t) f s (t_flow t) (t_socket t).
Proof.
  intros [Hinv Hfin]. unfold pump_flow. set (p := {| p_control := f_control f; p_socket := s; p_looks := 0 |}).
  destruct (pump_recv_ok (turns s) p) as (p1 & -> & Q1 & Hfree); [done|unfold turns, p; cbn [p_socket]; lia|].
  destruct (pump_send_ok (turns s) p1) as (p2 & -> & Q2 & Hrcv); [apply Q1|rewrite Hfree; unfold turns, p; cbn [p_socket]; lia|].
  destruct (pump_peer_closed_ok p2) as (p3 & -> & P3 & Es3 & F3 & R3); [apply Q2|].
  assert (Hfin3 : fin_sent (sc_state (p_control p3)) = is_some (f_closed_at f)) by (rewrite F3, (qt_fin _ _ Q2), (qt_fin _ _ Q1); done).
  destruct (pump_fin_ok now (f_closed_at f) p3) as (closed_at & p4 & -> & P4 & Hrcv4 & F4 & R4 & C4); [apply P3|done|].
  destruct (pump_verdict_ok now (f_opened_at f) closed_at p4) as (finished & p5 & -> & I5 & G5 & F5 & V5); [apply P4|done|].
  assert (P : part p p4) by (eapply part_trans; [apply Q1|eapply part_trans; [apply Q2|by eapply part_trans]]).
  eexists. split; [reflexivity|]. cbn. split_and!.
  - by split.
  - destruct (handshake_over _); [by destruct (f_handshake f)|done].
  - by destruct (handshake_over _).
  - split; [etrans; [apply P|done]|]. cbn. destruct finished; [done|]. destruct V5 as (Q5 & Es5 & V5). rewrite Es5. split_and!.
    + rewrite <- Es5. rewrite (pt_octets _ _ (qt_part _ _ Q5)). apply P.
    + rewrite (qt_recv_closed _ _ Q5), R4. intros Hrc. destruct (R3 Hrc) as [Hrc'|Hrc'].
      * left. by rewrite (qt_recv_closed _ _ Q2), (qt_recv_closed _ _ Q1) in Hrc'.
      * right. by rewrite Hrcv4, Es3.
    + destruct V5 as (V1 & V2 & V3). split_and!; try done. intros Ha%negb_true_iff. apply V3.
      by rewrite (gr_attached _ _ (pt_grows _ _ P) Ha).
Qed.
End runner.

(** ** The tables of the runner *)

Section tables.
Context {S : Type} `{Socket S}.

(** [r_left] are the controls of the flows that are over, which their applications may
    still hold. *)
Record Runner := {
  r_flows : gmap nat Flow;
  r_handshaking : gmap (SocketAddr * SocketAddr) nat;
  r_sockets : gmap nat S;
  r_left : list SocketControl;
}.

Definition runner_new : Runner := {| r_flows := ∅; r_handshaking := ∅; r_sockets := ∅; r_left := [] |}.

Record Syn := { syn_src : SocketAddr; syn_dst : SocketAddr }.

(** [h] is the handle [sockets.add] answers; [accepting] says that somebody takes the
    stream that is announced. *)
Definition open_flow (capacity now : Z) (accepting : bool) (h : nat) (syn : Syn) (r : Runner) : Runner :=
  let key := (syn_src syn, syn_dst syn) in
  match r_handshaking r !! key with
  | Some _ => r
  | None =>
      match sk_listen (syn_dst syn) with
      | None => r
      | Some socket =>
          let control := control_new capacity capacity in
          let control := if accepting then control else stream_drop control in
          {| r_flows := <[h := {| f_control := control; f_handshake := Some key; f_opened_at := now; f_closed_at := None |}]> (r_flows r);
             r_handshaking := <[key := h]> (r_handshaking r);
             r_sockets := <[h := socket]> (r_sockets r);
             r_left := r_left r |}
      end
  end.

(** The loop of [pump] over the flows, in the order the map walks them. *)
Fixpoint pump_each (scheds : nat -> nat -> list AppOp) (now : Z) (order : list nat) (finished : list nat) (r : Runner) : run (list nat * Runner) :=
  match order with
  | [] => Val (finished, r)
  | h :: order =>
      match r_flows r !! h, r_sockets r !! h with
      | Some f, Some s =>
          let* t := pump_flow (scheds h) now f s in
          pump_each scheds now order (if t_finished t then finished ++ [h] else finished)
            {| r_flows := <[h := t_flow t]> (r_flows r);
               r_handshaking := match t_released t with Some key => delete key (r_handshaking r) | None => r_handshaking r end;
               r_sockets := <[h := t_socket t]> (r_sockets r);
               r_left := r_left r |}
      | _, _ => Panics
      end
  end.

(** The flows that are finished leave the tables; [sockets.remove] panics on a handle
    that is not in the set. *)
Fixpoint remove_finished (finished : list nat) (r : Runner) : run Runner :=
  match finished with
  | [] => Val r
  | h :: finished =>
      let r := match r_flows r !! h with
        | Some f =>
            {| r_flows := delete h (r_flows r);
               r_handshaking := match f_handshake f with Some key => delete key (r_handshaking r) | None => r_handshaking r end;
               r_sockets := r_sockets r;
               r_left := f_control f :: r_left r |}
        | None => r
        end in
      match r_sockets r !! h with
      | None => Panics
      | Some _ =>
          remove_finished finished
            {| r_flows := r_flows r; r_handshaking := r_handshaking r; r_sockets := delete h (r_sockets r); r_left := r_left r |}
      end
  end.

Definition pump (scheds : nat -> nat -> list AppOp) (now : Z) (order : list nat) (r : Runner) : run Runner :=
  let* '(finished, r) := pump_each scheds now order [] r in
  remove_finished finished r.

(** An application uses the stream of a running flow, or of one that is over. *)
Definition app_on (h : nat) (op : AppOp) (r : Runner) : run Runner :=
  match r_flows r !! h with
  | Some f =>
      let* c := app_op op (f_control f) in
      Val {| r_flows := <[h := {| f_control := c; f_handshake := f_handshake f; f_opened_at := f_opened_at f; f_closed_at := f_closed_at f |}]> (r_flows r);
             r_handshaking := r_handshaking r; r_sockets := r_sockets r; r_left := r_left r |}
  | None => Val r
  end.
Definition app_left (i : nat) (op : AppOp) (r : Runner) : run Runner :=
  match r_left r !! i with
  | Some c =>
      let* c := app_op op c in
      Val {| r_flows := r_flows r; r_handshaking := r_handshaking r; r_sockets := r_sockets r; r_left := <[i := c]> (r_left r) |}
  | None => Val r
  end.

(** [order] names every flow once. *)
Definition walk (order : list nat) (r : Runner) : Prop := NoDup order /\ forall h, h ∈ order <-> is_Some (r_flows r !! h).

(** What happens to the runner: a segment opens a connection, smoltcp works on its sockets
    and may bring octets behind those it holds, the sockets are pumped, applications run. *)
Inductive runner_step (capacity : Z) : Runner -> Runner -> Prop :=
| R_open r now accepting h syn : r_sockets r !! h = None -> runner_step capacity r (open_flow capacity now accepting h syn r)
| R_stack r sockets :
    (forall h, is_Some (sockets !! h) <-> is_Some (r_sockets r !! h)) ->
    (forall h s s', r_sockets r !! h = Some s -> sockets !! h = Some s' -> received s `prefix_of` received s') ->
    runner_step capacity r {| r_flows := r_flows r; r_handshaking := r_handshaking r; r_sockets := sockets; r_left := r_left r |}
| R_pump r scheds now order r' : walk order r -> pump scheds now order r = Val r' -> runner_step capacity r r'
| R_app r h op r' : app_on h op r = Val r' -> runner_step capacity r r'
| R_left r i op r' : app_left i op r = Val r' -> runner_step capacity r r'.

Inductive runs (capacity : Z) : Runner -> Prop :=
| Runs_new : runs capacity runner_new
| Runs_step r r' : runs capacity r -> runner_step capacity r r' -> runs capacity r'.

Record runner_inv (r : Runner) : Prop := {
  ri_sockets : forall h, is_Some (r_flows r !! h) <-> is_Some (r_sockets r !! h);
  ri_handshaking : forall key h, r_handshaking r !! key = Some h <-> exists f, r_flows r !! h = Some f /\ f_handshake f = Some key;
  ri_flows : forall h f, r_flows r !! h = Some f -> flow_ok f;
  ri_left : Forall (fun c => flow_inv c /\ (socket_closed (sc_state c) = true \/ sc_attached c = false)) (r_left r);
}.

(** One flow of the tables takes another value, and may give its key back. *)
Lemma put_flow r h f f' s' released :
  runner_inv r -> r_flows r !! h = Some f -> flow_ok f' ->
  f_handshake f = match released with Some k => Some k | None => f_handshake f' end -> (released <> None -> f_handshake f' = None) ->
  runner_inv {| r_flows := <[h := f']> (r_flows r);
                r_handshaking := match released with Some key => delete key (r_handshaking r) | None => r_handshaking r end;
                r_sockets := <[h := s']> (r_sockets r); r_left := r_left r |}.
Proof.
  intros [Hs Hk Hf Hl] Ef Hok Erel Hrel. split; cbn; [..|done].
  - intros h'. destruct (decide (h' = h)) as [->|Hne]; [|by rewrite !lookup_insert_ne by done].
    rewrite !lookup_insert_eq. by split.
  - intros key h'. assert (Hold : forall k, r_handshaking r !! k = Some h <-> f_handshake f = Some k).
    { intros k. rewrite Hk. split; [intros (f0 & E0 & ?); congruence|eauto]. }
    destruct released as [k|].
    + rewrite lookup_delete_Some, Hk. specialize (Hrel ltac:(done)). split.
      * intros (Hne & f0 & E0 & Ek). exists f0. split; [|done]. rewrite lookup_insert_ne; [done|]. intros ->. congruence.
      * intros (f0 & E0 & Ek). destruct (decide (h' = h)) as [->|Hne]; [rewrite lookup_insert_eq in E0; congruence|].
        rewrite lookup_insert_ne in E0 by done. split; [|eauto]. intros ->.
        assert (r_handshaking r !! key = Some h') by (apply Hk; eauto). assert (r_handshaking r !! key = Some h) by (by apply Hold). congruence.
    + rewrite Hk. split; intros (f0 & E0 & Ek).
      * destruct (decide (h' = h)) as [->|Hne]; [exists f'; rewrite lookup_insert_eq; split; [done|congruence]|].
        exists f0. by rewrite lookup_insert_ne.
      * destruct (decide (h' = h)) as [->|Hne]; [exists f; rewrite lookup_insert_eq in E0; split; congruence|].
        exists f0. by rewrite lookup_insert_ne in E0.
  - intros h' f0. rewrite lookup_insert_Some. intros [[<- <-]|[_ E0]]; [done|eauto].
Qed.

Lemma open_flow_inv capacity now accepting h syn r : 0 <= capacity -> runner_inv r -> r_sockets r !! h = None ->
  runner_inv (open_flow capacity now accepting h syn r).
Proof.
  intros Hcap [Hs Hk Hf Hl] Hfree. unfold open_flow. destruct (r_handshaking r !! (syn_src syn, syn_dst syn)) eqn:Ek; [done|].
  destruct (sk_listen (syn_dst syn)) as [s|]; [|done].
  assert (Hnone : r_flows r !! h = None).
  { destruct (r_flows r !! h) eqn:E; [|done]. destruct (proj1 (Hs h)) as [? ?]; [by rewrite E|congruence]. }
  split; cbn; [..|done].
  - intros h'. destruct (decide (h' = h)) as [->|Hne]; [|by rewrite !lookup_insert_ne by done]. rewrite !lookup_insert_eq. by split.
  - intros key h'. destruct (decide (key = (syn_src syn, syn_dst syn))) as [->|Hne].
    + rewrite lookup_insert_eq. split.
      * intros [= <-]. eexists. by rewrite lookup_insert_eq.
      * intros (f0 & E0 & E1). destruct (decide (h' = h)) as [->|Hne]; [done|]. rewrite lookup_insert_ne in E0 by done.
        assert (r_handshaking r !! (syn_src syn, syn_dst syn) = Some h') by (apply Hk; eauto). congruence.
    + rewrite lookup_insert_ne by done. rewrite Hk. split; intros (f0 & E0 & E1); exists f0.
      * rewrite lookup_insert_ne; [done|]. intros <-. congruence.
      * destruct (decide (h' = h)) as [->|Hne']; [rewrite lookup_insert_eq in E0; injection E0 as <-; cbn in E1; congruence|].
        by rewrite lookup_insert_ne in E0.
  - intros h' f0. rewrite lookup_insert_Some. intros [[<- <-]|[_ E0]]; [|eauto].
    pose proof (control_new_inv capacity capacity Hcap Hcap) as I. split; cbn; [|by destruct accepting].
    destruct accepting; [done|]. destruct I. by flow_split.
Qed.

Lemma remove_one r h f s : runner_inv r -> r_flows r !! h = Some f -> r_sockets r !! h = Some s ->
  (socket_closed (sc_state (f_control f)) = true \/ sc_attached (f_control f) = false) ->
  runner_inv {| r_flows := delete h (r_flows r);
                r_handshaking := match f_handshake f with Some key => delete key (r_handshaking r) | None => r_handshaking r end;
                r_sockets := delete h (r_sockets r); r_left := f_control f :: r_left r |}.
Proof.
  intros [Hs Hk Hf Hl] Ef Es Hover. split; cbn.
  - intros h'. destruct (decide (h' = h)) as [->|Hne]; [|by rewrite !lookup_delete_ne by done]. rewrite !lookup_delete_eq. by split; intros [? ?].
  - intros key h'. assert (Hiff : r_handshaking r !! key = Some h' /\ h' <> h <-> exists f0, delete h (r_flows r) !! h' = Some f0 /\ f_handshake f0 = Some key).
    { rewrite Hk. split; [intros [(f0 & ? & ?) ?]|intros (f0 & [? ?]%lookup_delete_Some & ?)]; [exists f0; by rewrite lookup_delete_ne|by eauto]. }
    rewrite <- Hiff. destruct (f_handshake f) as [k|] eqn:Ek.
    + assert (Hkh : r_handshaking r !! k = Some h) by (apply Hk; eauto). rewrite lookup_delete_Some. split; [|naive_solver].
      intros [Hne E]. split; [done|]. intros ->. apply Hk in E as (f0 & ? & ?). congruence.
    + split; [|naive_solver]. intros E. split; [done|]. intros ->. apply Hk in E as (f0 & ? & ?). congruence.
  - intros h' f0 [_ E]%lookup_delete_Some. eauto.
  - constructor; [|done]. split; [|done]. by apply (Hf h).
Qed.

Context `{!SocketLaws S}.

(** Every flow of [order] had its turn, those in [finished] to their end, and the others
    were left alone. *)
Definition turned_all (now : Z) (order finished : list nat) (r r' : Runner) : Prop :=
  forall h f s, r_flows r !! h = Some f -> r_sockets r !! h = Some s ->
    exists f' s', r_flows r' !! h = Some f' /\ r_sockets r' !! h = Some s' /\
      if bool_decide (h ∈ order) then turned now (bool_decide (h ∈ finished)) f s f' s' else f' = f /\ s' = s.

Lemma pump_each_ok scheds now order : forall finished r, runner_inv r -> NoDup order ->
  (forall h, h ∈ order -> is_Some (r_flows r !! h)) -> (forall h, h ∈ order -> h ∉ finished) -> NoDup finished ->
  exists finished' r', pump_each scheds now order finished r = Val (finished', r') /\ runner_inv r' /\ NoDup finished' /\
    (forall h, h ∈ finished' <-> h ∈ finished \/ h ∈ finished' /\ h ∈ order) /\
    (forall h, is_Some (r_flows r' !! h) <-> is_Some (r_flows r !! h)) /\
    r_left r' = r_left r /\ turned_all now order finished' r r'.
Proof.
  induction order as [|h order IH]; intros finished r Hinv Hnd Hin Hfin Hndf; cbn [pump_each].
  { exists finished, r. split_and!; try done; [set_solver|]. intros h f s Ef Es. exists f, s. by rewrite bool_decide_eq_false_2 by set_solver. }
  apply NoDup_cons in Hnd as [Hh Hnd]. destruct (Hin h ltac:(set_solver)) as [f Ef].
  destruct (proj1 (ri_sockets r Hinv h) ltac:(by rewrite Ef)) as [s Es]. rewrite Ef, Es.
  destruct (pump_flow_ok (scheds h) now f s) as (t & -> & Hok & Hrel & Hrel' & Ht); [by eapply ri_flows|].
  set (finished1 := if t_finished t then finished ++ [h] else finished). set (r1 := Build_Runner _ _ _ _).
  assert (Hinv1 : runner_inv r1) by (by eapply put_flow).
  assert (Hfin1 : forall x, x ∈ finished1 <-> x ∈ finished \/ x = h /\ t_finished t = true).
  { intros x. unfold finished1. destruct (t_finished t); set_solver. }
  assert (Hhf : h ∉ finished) by (apply Hfin; set_solver).
  assert (Hsome : forall x, is_Some (r_flows r1 !! x) <-> is_Some (r_flows r !! x)).
  { intros x. cbn. destruct (decide (x = h)) as [->|?]; [|by rewrite lookup_insert_ne]. rewrite lookup_insert_eq, Ef. by split. }
  destruct (IH finished1 r1) as (finished' & r' & -> & Hinv' & Hnd' & Hf' & Hs' & Hl' & Hall).
  - done.
  - done.
  - intros x Hx. apply Hsome, Hin. set_solver.
  - intros x Hx [?|[-> _]]%Hfin1; [|done]. apply (Hfin x); [set_solver|done].
  - unfold finished1. destruct (t_finished t); [|done]. apply NoDup_app. split_and!; [done|set_solver|apply NoDup_singleton].
  - exists finished', r'. split_and!; try done.
    + intros x. rewrite Hf', Hfin1. destruct (decide (x ∈ finished')); set_solver.
    + intros x. by rewrite Hs', Hsome.
    + intros x fx sx Efx Esx. destruct (decide (x = h)) as [->|Hne].
      * destruct (Hall h (t_flow t) (t_socket t)) as (f' & s' & E1 & E2 & Hu); [cbn; by rewrite lookup_insert_eq..|].
        rewrite bool_decide_eq_false_2 in Hu by done. destruct Hu as [-> ->]. do 2 eexists. split_and!; [done..|].
        rewrite bool_decide_eq_true_2 by set_solver. assert (fx = f) as -> by congruence. assert (sx = s) as -> by congruence.
        replace (bool_decide (h ∈ finished')) with (t_finished t); [done|]. symmetry.
        destruct (t_finished t) eqn:Ed; [apply bool_decide_eq_true_2, Hf'; left; by apply Hfin1; right|].
        apply bool_decide_eq_false_2. rewrite Hf', Hfin1. intros [[?|[_ ?]]|[_ ?]]; done.
      * destruct (Hall x fx sx) as (f' & s' & E1 & E2 & Hu); [cbn; by rewrite lookup_insert_ne..|]. exists f', s'. split_and!; [done..|].
        destruct (decide (x ∈ order)) as [Hx|Hx].
        -- rewrite bool_decide_eq_true_2 in Hu by done. by rewrite bool_decide_eq_true_2 by set_solver.
        -- rewrite bool_decide_eq_false_2 in Hu by done. by rewrite bool_decide_eq_false_2 by set_solver.
Qed.

Lemma remove_finished_ok finished : forall r, runner_inv r -> NoDup finished ->
  (forall h, h ∈ finished -> exists f, r_flows r !! h = Some f /\ (socket_closed (sc_state (f_control f)) = true \/ sc_attached (f_control f) = false)) ->
  exists r', remove_finished finished r = Val r' /\ runner_inv r' /\
    forall h, r_flows r' !! h = (if bool_decide (h ∈ finished) then None else r_flows r !! h) /\
              r_sockets r' !! h = (if bool_decide (h ∈ finished) then None else r_sockets r !! h).
Proof.
  induction finished as [|h finished IH]; intros r Hinv Hnd Hover; cbn [remove_finished].
  { by exists r. }
  apply NoDup_cons in Hnd as [Hh Hnd]. destruct (Hover h ltac:(set_solver)) as (f & Ef & Ho). rewrite Ef. cbn [r_flows r_handshaking r_sockets r_left].
  destruct (proj1 (ri_sockets r Hinv h) ltac:(by rewrite Ef)) as [s Es]. rewrite Es.
  set (r1 := Build_Runner _ _ _ _). assert (Hinv1 : runner_inv r1) by (by eapply remove_one).
  destruct (IH r1 Hinv1 Hnd) as (r' & -> & Hinv' & Hlook).
  { intros x Hx. destruct (Hover x ltac:(set_solver)) as (fx & Ex & ?). exists fx. split; [|done]. cbn. rewrite lookup_delete_ne; [done|]. intros ->. done. }
  exists r'. split_and!; try done. intros x. destruct (Hlook x) as [-> ->]. cbn. destruct (decide (x = h)) as [->|Hne].
  - rewrite bool_decide_eq_false_2, bool_decide_eq_true_2 by set_solver. by rewrite !lookup_delete_eq.
  - rewrite !lookup_delete_ne by done. destruct (decide (x ∈ finished)).
    + rewrite !bool_decide_eq_true_2 by set_solver. done.
    + rewrite !bool_decide_eq_false_2 by set_solver. done.
Qed.

Lemma pump_ok scheds now order r : runner_inv r -> walk order r ->
  exists r', pump scheds now order r = Val r' /\ runner_inv r' /\
    forall h f' s', r_flows r' !! h = Some f' -> r_sockets r' !! h = Some s' ->
      exists f s, r_flows r !! h = Some f /\ r_sockets r !! h = Some s /\ turned now false f s f' s'.
Proof.
  intros Hinv [Hnd Hwalk]. unfold pump.
  destruct (pump_each_ok scheds now order [] r Hinv Hnd) as (finished & r1 & -> & Hinv1 & Hndf & Hfin & Hsome & _ & Hall);
    [intros h; apply Hwalk|set_solver|apply NoDup_nil_2|].
  assert (Horder : forall h, h ∈ finished -> h ∈ order) by (intros h Hh; destruct (proj1 (Hfin h) Hh) as [?|[_ ?]]; [set_solver|done]).
  destruct (remove_finished_ok finished r1 Hinv1 Hndf) as (r' & -> & Hinv' & Hlook).
  { intros h Hh. destruct (proj1 (Hwalk h) (Horder h Hh)) as [f Ef]. destruct (proj1 (ri_sockets r Hinv h) ltac:(by rewrite Ef)) as [s Es].
    destruct (Hall h f s Ef Es) as (f' & s' & Ef' & _ & Ht). exists f'. split; [done|].
    rewrite bool_decide_eq_true_2 in Ht by auto. rewrite bool_decide_eq_true_2 in Ht by done. by destruct Ht. }
  exists r'. split_and!; try done. intros h f' s' Ef' Es'. destruct (Hlook h) as [E1 E2]. rewrite E1 in Ef'. rewrite E2 in Es'.
  destruct (decide (h ∈ finished)) as [Hh|Hh]; [by rewrite bool_decide_eq_true_2 in Ef'|]. rewrite bool_decide_eq_false_2 in Ef', Es' by done.
  destruct (proj1 (Hsome h) ltac:(by rewrite Ef')) as [f Ef]. destruct (proj1 (ri_sockets r Hinv h) ltac:(by rewrite Ef)) as [s Es].
  destruct (Hall h f s Ef Es) as (f1 & s1 & Ef1 & Es1 & Ht). exists f, s. split_and!; [done..|].
  rewrite bool_decide_eq_true_2 in Ht by (by apply Hwalk; rewrite Ef). rewrite bool_decide_eq_false_2 in Ht by done. congruence.
Qed.

Lemma app_on_inv h op r : runner_inv r -> exists r', app_on h op r = Val r' /\ runner_inv r'.
Proof.
  intros Hinv. unfold app_on. destruct (r_flows r !! h) as [f|] eqn:Ef; [|by exists r].
  destruct (ri_flows r Hinv h f Ef) as [I F]. destruct (app_op_step op (f_control f) I) as (c & -> & I' & A).
  eexists. split; [reflexivity|]. destruct (proj1 (ri_sockets r Hinv h) ltac:(by rewrite Ef)) as [s Es].
  set (f' := {| f_control := c; f_handshake := f_handshake f; f_opened_at := f_opened_at f; f_closed_at := f_closed_at f |}).
  assert (Hok : flow_ok f') by (split; [done|]; unfold f'; cbn; by rewrite (ao_fin _ _ A)).
  pose proof (put_flow r h f f' s None Hinv Ef Hok eq_refl ltac:(done)) as Hput. cbn in Hput. by rewrite (insert_id (r_sockets r)) in Hput.
Qed.

Lemma app_left_inv i op r : runner_inv r -> exists r', app_left i op r = Val r' /\ runner_inv r'.
Proof.
  intros [Hs Hk Hf Hl]. unfold app_left. destruct (r_left r !! i) as [c|] eqn:Ec; [|by exists r].
  destruct (Forall_lookup_1 _ _ _ _ Hl Ec) as [I O]. destruct (app_op_step op c I) as (c' & -> & I' & A).
  eexists. split; [reflexivity|]. split; cbn; try done. apply Forall_insert; [done|]. split; [done|].
  destruct O as [O|O]; [left; by rewrite (ao_socket_closed _ _ A)|right; by apply (gr_attached _ _ (ao_grows _ _ A))].
Qed.

Lemma runs_inv capacity r : 0 <= capacity -> runs capacity r -> runner_inv r.
Proof.
  intros Hcap. induction 1 as [|r r' _ IH Hstep].
  { split; cbn; [| | |apply Forall_nil_2]; intros; rewrite ?lookup_empty in *; [done| |done]. split; [done|]. by intros (f & ? & _). }
  destruct Hstep as [r now accepting h syn Hfree|r sockets Hdom _|r scheds now order r' Hwalk E|r h op r' E|r i op r' E].
  - by apply open_flow_inv.
  - destruct IH as [Hs Hk Hf Hl]. split; cbn; try done. intros h. by rewrite Hdom.
  - destruct (pump_ok scheds now order r IH Hwalk) as (r1 & E1 & ? & _). congruence.
  - destruct (app_on_inv h op r IH) as (r1 & E1 & ?). congruence.
  - destruct (app_left_inv i op r IH) as (r1 & E1 & ?). congruence.
Qed.

(** C16: over every sequence of segments, turns of the stack and of the applications, and for
    every interleaving of the applications with the pump itself: the pump ends without a
    panic, and no octet of a flow it keeps is lost, repeated or reordered.  What the peer
    sent is what the application has read, then what waits for it, then what the socket
    still holds; what the application wrote and was told is taken is what the socket was
    given, then what waits.  The FIN is handed to the stack only when nothing waits, and
    after it nothing is accepted; the end of the peer's stream is shown to the application
    only when the socket holds nothing. *)
Theorem stack_bytes_exact capacity r scheds now order :
  0 <= capacity -> runs capacity r -> walk order r ->
  exists r', pump scheds now order r = Val r' /\
    forall h f' s', r_flows r' !! h = Some f' -> r_sockets r' !! h = Some s' ->
      exists f s, r_flows r !! h = Some f /\ r_sockets r !! h = Some s /\
        let c := f_control f in let c' := f_control f' in
        sc_in c' ++ received s' = sc_in c ++ received s /\
        sc_in c' = sc_read c' ++ waiting (recv (sc_state c')) /\
        sc_written c' = sc_out c' ++ waiting (send (sc_state c')) /\
        sc_read c `prefix_of` sc_read c' /\ sc_out c `prefix_of` sc_out c' /\
        len (waiting (recv (sc_state c'))) <= br_limit (recv (sc_state c')) /\
        len (waiting (send (sc_state c'))) <= br_limit (send (sc_state c')) /\
        (fin_sent (sc_state c') = true -> sc_out c' = sc_written c') /\
        (fin_sent (sc_state c) = true -> sc_written c' = sc_written c) /\
        (recv_closed (sc_state c') = true -> recv_closed (sc_state c) = true \/ received s' = []).
Proof.
  intros Hcap Hruns Hwalk. pose proof (runs_inv _ _ Hcap Hruns) as Hinv.
  destruct (pump_ok scheds now order r Hinv Hwalk) as (r' & E & Hinv' & Hturned). exists r'. split; [done|].
  intros h f' s' Ef' Es'. destruct (Hturned h f' s' Ef' Es') as (f & s & Ef & Es & [G (Hoct & Heof & _)]).
  exists f, s. destruct (ri_flows r' Hinv' h f' Ef') as [I' _]. destruct (ri_flows r Hinv h f Ef) as [I _].
  cbn zeta. split_and!; try done; try apply I'; try apply G.
  - rewrite <- ring_len_waiting by apply I'. apply I'.
  - rewrite <- ring_len_waiting by apply I'. apply I'.
  - intros Hfin. rewrite (fi_out _ I'). destruct (fi_fin _ I' Hfin) as [_ ->]. by rewrite app_nil_r.
  - intros Hfin. apply G. by apply I.
Qed.

(** C17: in every state the runner reaches, its tables agree: each flow has a socket and each
    socket a flow, a pair of addresses is registered exactly while one flow holds it as its
    unfinished handshake, a segment that is sent again opens nothing, and any other opens
    one flow when its address can be listened on.  A pump keeps no flow whose socket is
    closed, that has listened past its grace, or whose application is gone unless its FIN
    was handed over less than the timeout ago; and a flow that left the tables has no task
    that waits, and none that can start to. *)
Theorem stack_flows_given_back capacity r scheds now order :
  0 <= capacity -> runs capacity r -> walk order r ->
  (forall h, is_Some (r_flows r !! h) <-> is_Some (r_sockets r !! h)) /\
  (forall key h, r_handshaking r !! key = Some h <-> exists f, r_flows r !! h = Some f /\ f_handshake f = Some key) /\
  (forall now accepting h syn,
    (is_Some (r_handshaking r !! (syn_src syn, syn_dst syn)) -> open_flow capacity now accepting h syn r = r) /\
    (r_handshaking r !! (syn_src syn, syn_dst syn) = None -> is_Some (sk_listen (syn_dst syn)) ->
      r_handshaking (open_flow capacity now accepting h syn r) !! (syn_src syn, syn_dst syn) = Some h)) /\
  Forall (fun c => sc_attached c = true ->
    recv_waker (sc_state c) = None /\ send_waker (sc_state c) = None /\ close_waker (sc_state c) = None /\
    forall task room data, 0 <= room ->
      (exists p c', poll_read task room c = Val (p, c') /\ p <> Pending) /\
      poll_write task data c = Val (Ready (Err broken_pipe), c) /\ (poll_shutdown task c).1 = Ready tt) (r_left r) /\
  exists r', pump scheds now order r = Val r' /\
    forall h f' s', r_flows r' !! h = Some f' -> r_sockets r' !! h = Some s' ->
      sk_state s' <> Closed /\
      exists f, r_flows r !! h = Some f /\
        (sk_state s' = Listen -> now < f_opened_at f + TCP_HANDSHAKE_GRACE) /\
        (sc_attached (f_control f) = false ->
          fin_sent (sc_state (f_control f')) = true /\ exists t, f_closed_at f' = Some t /\ now < t + TCP_FIN_TIMEOUT).
Proof.
  intros Hcap Hruns Hwalk. pose proof (runs_inv _ _ Hcap Hruns) as Hinv. split; [apply Hinv|]. split; [apply Hinv|]. split; [|split].
  - intros now0 accepting h syn. unfold open_flow. split; [by intros [? ->]|]. intros -> [s ->]. cbn. by rewrite lookup_insert_eq.
  - apply (Forall_impl _ _ _ (ri_left r Hinv)). intros c [I O] Ha. destruct O as [O|O]; [|congruence].
    destruct (nobody_waits_in_vain c 0 0 [] I) as (_ & _ & _ & _ & _ & Hw); [done|]. destruct (Hw O) as (? & ? & ?). split_and!; try done.
    intros task room data Hroom. destruct (nobody_waits_in_vain c task room data I Hroom) as (_ & _ & _ & (p & q & c1 & c2 & E1 & _ & Hp & _) & Hs & _).
    split_and!.
    + exists p, c1. split; [done|]. intros Hpend. apply Hp in Hpend as [_ Hrc]. pose proof (fi_closed c I O). congruence.
    + unfold poll_write. by rewrite O, orb_true_r.
    + unfold poll_shutdown. cbn. by rewrite O, orb_true_r.
  - destruct (pump_ok scheds now order r Hinv Hwalk) as (r' & E & Hinv' & Hturned). exists r'. split; [done|].
    intros h f' s' Ef' Es'. destruct (Hturned h f' s' Ef' Es') as (f & s & Ef & Es & [G (_ & _ & (V1 & V2 & V3))]).
    split; [done|]. exists f. split_and!; try done. intros Ha. rewrite Ha in V3. destruct (V3 eq_refl) as (t & Et & Hnow).
    split; [|eauto]. destruct (ri_flows r' Hinv' h f' Ef') as [_ ->]. by rewrite Et.
Qed.
End tables.

(** ** A socket *)

(** A socket that keeps its octets in two lists, with [ps_free] places to send from. *)
Record PlainSocket := { ps_state : State; ps_rx : bytes; ps_free : Z; ps_sent : bytes }.

Definition plain_closed (st : State) : State :=
  match st with Established | SynReceived => FinWait1 | CloseWait => LastAck | Listen => Closed | st => st end.
Definition non_empty (bs : bytes) : bool := match bs with [] => false | _ => true end.

#[export] Instance plain_socket : Socket PlainSocket := {
  sk_listen _ := Some {| ps_state := Listen; ps_rx := []; ps_free := 4; ps_sent := [] |};
  sk_state := ps_state;
  may_recv s := match ps_state s with Established | FinWait1 | FinWait2 => true | _ => non_empty (ps_rx s) end;
  can_recv s := non_empty (ps_rx s);
  can_send s := match ps_state s with Established | CloseWait => 0 <? ps_free s | _ => false end;
  recv_slice s := Some (ps_rx s);
  recv_taken n s := {| ps_state := ps_state s; ps_rx := drop (Z.to_nat n) (ps_rx s); ps_free := ps_free s; ps_sent := ps_sent s |};
  send_room s := Some (ps_free s);
  send_put bs s := {| ps_state := ps_state s; ps_rx := ps_rx s; ps_free := ps_free s - len bs; ps_sent := ps_sent s ++ bs |};
  sk_close s := {| ps_state := plain_closed (ps_state s); ps_rx := ps_rx s; ps_free := ps_free s; ps_sent := ps_sent s |};
  sk_abort s := {| ps_state := Closed; ps_rx := ps_rx s; ps_free := ps_free s; ps_sent := ps_sent s |};
  received := ps_rx;
  send_free := ps_free;
}.

#[export] Instance plain_socket_laws : SocketLaws PlainSocket.
Proof.
  split; cbn; try done.
  - intros s Hc. exists (ps_rx s). split_and!; [done|by destruct (ps_rx s)|done].
  - intros s. destruct (ps_state s); try done; by destruct (ps_rx s).
  - intros s Hc _. by destruct (ps_rx s).
  - intros s. exists (ps_free s). split; [done|]. destruct (ps_state s); try done; lia.
Qed.

(** A flow that was opened and established, with three octets of the peer and a window of
    four; the application reads one, writes three and shuts down between the looks of the
    pump. *)
Definition sample_syn : Syn := {| syn_src := ([10; 0; 0; 2], 40000); syn_dst := ([198; 18; 0; 16], 443) |}.
Definition sample_opened : Runner := open_flow (S := PlainSocket) 4 0 true 7 sample_syn runner_new.
Definition sample_runner : Runner :=
  {| r_flows := r_flows sample_opened; r_handshaking := r_handshaking sample_opened;
     r_sockets := {[7%nat := {| ps_state := Established; ps_rx := [1; 2; 3]; ps_free := 4; ps_sent := [] |}]}; r_left := [] |}.
Definition sample_scheds (_ : nat) (n : nat) : list AppOp :=
  match n with 1%nat => [A_write 1 [8; 9; 7]] | 2%nat => [A_read 1 1; A_shutdown 1] | _ => [] end.

Lemma sample_sockets : r_sockets sample_opened = {[7%nat := {| ps_state := Listen; ps_rx := []; ps_free := 4; ps_sent := [] |}]}.
Proof. reflexivity. Qed.

Lemma sample_flows : exists f, r_flows sample_runner = {[7%nat := f]}.
Proof. eexists. reflexivity. Qed.

Lemma sample_runs : runs 4 sample_runner.
Proof.
  apply (Runs_step 4 sample_opened).
  - apply (Runs_step 4 runner_new); [constructor|]. by apply R_open.
  - apply (R_stack 4 sample_opened); intros h; rewrite sample_sockets; destruct (decide (h = 7%nat)) as [->|Hne].
    + rewrite !lookup_singleton_eq. by split.
    + by rewrite !lookup_singleton_ne.
    + intros s s'. rewrite lookup_singleton_eq. intros [= <-] _. apply prefix_nil.
    + intros s s'. by rewrite lookup_singleton_ne.
Qed.

Lemma sample_walk : walk [7%nat] sample_runner.
Proof.
  split; [apply NoDup_singleton|]. intros h. destruct sample_flows as [f ->].
  rewrite list_elem_of_singleton, lookup_singleton_is_Some. split; by intros ->.
Qed.

Lemma stack_bytes_exact_witness : exists r', pump sample_scheds 5 [7%nat] sample_runner = Val r' /\
  exists f', r_flows r' !! 7%nat = Some f' /\ sc_read (f_control f') = [1] /\ sc_out (f_control f') = [8; 9; 7] /\
    fin_sent (sc_state (f_control f')) = true /\ f_handshake f' = None.
Proof.
  destruct (stack_bytes_exact 4 sample_runner sample_scheds 5 [7%nat]) as (r' & E & _); [lia|apply sample_runs|apply sample_walk|].
  exists r'. split; [exact E|]. vm_compute in E. injection E as <-. eexists. split_and!; vm_compute; reflexivity.
Defined.

Lemma stack_flows_given_back_witness : exists r', pump (fun _ _ => [A_drop]) 5 [7%nat] sample_runner = Val r' /\
  r_flows r' !! 7%nat = None /\ r_sockets r' !! 7%nat = None /\ r_handshaking r' !! (syn_src sample_syn, syn_dst sample_syn) = None.
Proof.
  destruct (stack_flows_given_back 4 sample_runner (fun _ _ => [A_drop]) 5 [7%nat]) as (_ & _ & _ & _ & r' & E & _); [lia|apply sample_runs|apply sample_walk|].
  exists r'. split; [exact E|]. vm_compute in E. injection E as <-. split_and!; vm_compute; reflexivity.
Defined.

(** the socket is closed while it still holds an octet the application's full queue had no
    room for: the pump ends the flow and the socket goes with its octet; the application
    reads what was queued and then the end of the stream, as if the peer had sent no
    more. *)
Theorem closed_socket_drops_its_octets :
  let full := {| br_bytes := [1; 2]; br_head := 0; br_limit := 2 |} in
  let c := {| sc_state := {| recv := full; send := ring_new 2; recv_closed := false; send_closed := true; fin_sent := true; socket_closed := false;
                             recv_waker := None; send_waker := None; close_waker := None |};
              sc_notified := false; sc_woken := []; sc_attached := true; sc_in := [1; 2]; sc_read := []; sc_written := []; sc_out := [] |} in
  let f := {| f_control := c; f_handshake := None; f_opened_at := 0; f_closed_at := Some 1 |} in
  let s := {| ps_state := Closed; ps_rx := [3]; ps_free := 2; ps_sent := [] |} in
  flow_ok f /\
  exists t c1 c2, pump_flow (fun _ => []) 5 f s = Val t /\ t_finished t = true /\ received (t_socket t) = [3] /\
    poll_read 1 2 (f_control (t_flow t)) = Val (Ready [1; 2], c1) /\ poll_read 1 2 c1 = Val (Ready [], c2).
Proof.
  cbn zeta. split.
  - split; [|done]. split; cbn; try done; unfold ring_ok, ring_len, len; cbn; lia.
  - do 3 eexists. split_and!; vm_compute; reflexivity.
Qed.
