(* ===== verification/NetFrames.v ===== *)
(** * The frames of the TUN's stack
      (nexapipe-client/src/tun_proxy/netstack/{packet,mod,device,udp}.rs)

    The device hands the stack one IP frame at a time.  A UDP frame goes to the UDP half,
    any other to the runner, each through a bounded queue; a frame that finds its queue
    full is kept and is handed over later.  Frames leave through one queue, in which room
    is reserved before the stack is asked for a frame.  Reading IP, TCP and UDP headers is
    smoltcp's work and building them etherparse's: both are parameters.

    The file shows which frames open a connection or carry a datagram, that the sink loses,
    repeats and reorders nothing whatever its queues do, and that a frame is never taken
    from the device without room for its answer. *)

From S2P Require Import Prelude RustStd NetTcp.

(** ** Reading a frame (packet.rs) *)

Inductive IpProtocol := P_tcp | P_udp | P_other (number : Z).
Inductive IpVersion := Ipv4 | Ipv6.

#[export] Instance IpProtocol_eq_dec : EqDecision IpProtocol.
Proof. solve_decision. Defined.

(** What smoltcp reads of a header it has checked. *)
Record Ipv4Header := { h4_more_frags : bool; h4_frag_offset : Z; h4_next : IpProtocol; h4_src : bytes; h4_dst : bytes; h4_payload : bytes }.
Record Ipv6Header := { h6_next : IpProtocol; h6_src : bytes; h6_dst : bytes; h6_payload : bytes }.
Record TcpHeader := { ht_syn : bool; ht_ack : bool; ht_src_port : Z; ht_dst_port : Z }.
Record UdpHeader := { hu_src_port : Z; hu_dst_port : Z; hu_payload : bytes }.

Class Wire := {
  ip_version : bytes -> option IpVersion;
  ipv4_checked : bytes -> option Ipv4Header;
  ipv6_checked : bytes -> option Ipv6Header;
  tcp_checked : bytes -> option TcpHeader;
  udp_checked : bytes -> option UdpHeader;
}.

Record Split := { sp_protocol : IpProtocol; sp_src : bytes; sp_dst : bytes; sp_payload : bytes }.

Section packet.
Context `{Wire}.

Definition split_frame (frame : bytes) : option Split :=
  match frame with
  | [] => None
  | _ =>
      let! version := ip_version frame in
      match version with
      | Ipv4 =>
          let! packet := ipv4_checked frame in
          if h4_more_frags packet || negb (h4_frag_offset packet =? 0) then None
          else Some {| sp_protocol := h4_next packet; sp_src := h4_src packet; sp_dst := h4_dst packet; sp_payload := h4_payload packet |}
      | Ipv6 =>
          let! packet := ipv6_checked frame in
          Some {| sp_protocol := h6_next packet; sp_src := h6_src packet; sp_dst := h6_dst packet; sp_payload := h6_payload packet |}
      end
  end.

Definition protocol (frame : bytes) : option IpProtocol := sp_protocol <$> split_frame frame.
Definition is_udp (frame : bytes) : bool := bool_decide (protocol frame = Some P_udp).

Definition tcp_syn (frame : bytes) : option Syn :=
  let! s := split_frame frame in
  if negb (bool_decide (sp_protocol s = P_tcp)) then None
  else
    let! tcp := tcp_checked (sp_payload s) in
    if negb (ht_syn tcp) || ht_ack tcp then None
    else Some {| syn_src := (sp_src s, ht_src_port tcp); syn_dst := (sp_dst s, ht_dst_port tcp) |}.

Record UdpDatagram := { ud_payload : bytes; ud_src : SocketAddr; ud_dst : SocketAddr }.

Definition udp_datagram (frame : bytes) : option UdpDatagram :=
  let! s := split_frame frame in
  if negb (bool_decide (sp_protocol s = P_udp)) then None
  else
    let! udp := udp_checked (sp_payload s) in
    Some {| ud_payload := hu_payload udp; ud_src := (sp_src s, hu_src_port udp); ud_dst := (sp_dst s, hu_dst_port udp) |}.

(** [take_frame]: a frame that opens a connection opens it before the stack sees it. *)
Definition take_frame {S} `{Socket S} (tcp_enabled : bool) (capacity now : Z) (accepting : bool) (h : nat) (frame : bytes) (r : Runner) (device : list bytes)
    : Runner * list bytes :=
  let r := match (if tcp_enabled then tcp_syn frame else None) with Some syn => open_flow capacity now accepting h syn r | None => r end in
  (r, device ++ [frame]).

(** a frame opens a connection only when it is a whole TCP segment with SYN and without
    ACK, and carries a datagram only when it is a whole UDP one: never both, and a
    fragment of either is neither and is not sent to the UDP half. *)
Theorem frames_told_apart frame :
  (is_Some (tcp_syn frame) -> is_udp frame = false /\ udp_datagram frame = None) /\
  (is_Some (udp_datagram frame) -> is_udp frame = true /\ tcp_syn frame = None) /\
  (forall packet, ip_version frame = Some Ipv4 -> ipv4_checked frame = Some packet -> h4_more_frags packet = true \/ h4_frag_offset packet <> 0 ->
    tcp_syn frame = None /\ udp_datagram frame = None /\ is_udp frame = false) /\
  (forall syn s tcp, tcp_syn frame = Some syn -> split_frame frame = Some s -> tcp_checked (sp_payload s) = Some tcp ->
    ht_syn tcp = true /\ ht_ack tcp = false).
Proof.
  unfold tcp_syn, udp_datagram, is_udp, protocol. destruct (split_frame frame) as [s|] eqn:Es.
  2:{ split_and!; try done; by intros [? ?]. }
  cbn [fmap option_fmap option_map]. split_and!.
  - intros [syn Hsyn]. destruct (sp_protocol s) eqn:Ep; try done.
  - intros [d Hd]. destruct (sp_protocol s) eqn:Ep; try done.
  - intros packet Hv Hc Hfrag. exfalso. unfold split_frame in Es. destruct frame as [|b frame]; [done|]. rewrite Hv, Hc in Es.
    destruct Hfrag as [Hf|Hf]; [by rewrite Hf in Es|]. rewrite (proj2 (Z.eqb_neq _ 0) Hf), orb_true_r in Es. done.
  - intros syn s0 tcp Hsyn [= <-] Ht. rewrite Ht in Hsyn. destruct (sp_protocol s); try done. cbn in Hsyn.
    by destruct (ht_syn tcp), (ht_ack tcp).
Qed.

(** ** The sink (mod.rs) *)

(** A bounded channel: what waits in it, what its receiver has taken, and whether the
    receiver is there. *)
Record Channel := { ch_queue : list bytes; ch_taken : list bytes; ch_capacity : nat; ch_open : bool }.

Definition channel_new (capacity : nat) : Channel := {| ch_queue := []; ch_taken := []; ch_capacity := capacity; ch_open := true |}.

(** [poll_reserve] with [send_item] behind it. *)
Inductive Reserved := Res_room | Res_closed | Res_pending.
Definition poll_reserve (c : Channel) : Reserved :=
  if negb (ch_open c) then Res_closed else if (length (ch_queue c) <? ch_capacity c)%nat then Res_room else Res_pending.
Definition send_item (frame : bytes) (c : Channel) : Channel :=
  {| ch_queue := ch_queue c ++ [frame]; ch_taken := ch_taken c; ch_capacity := ch_capacity c; ch_open := ch_open c |}.

Record Stack := { st_ingress : Channel; st_udp : option Channel; st_pending : option (bytes * bool) }.

Definition INGRESS_QUEUE : nat := 64.
Definition UDP_QUEUE : nat := 512.
Definition stack_new (udp : bool) : Stack :=
  {| st_ingress := channel_new INGRESS_QUEUE; st_udp := if udp then Some (channel_new UDP_QUEUE) else None; st_pending := None |}.

Inductive StackPoll := SP_ready | SP_closed | SP_pending.

Definition flush (s : Stack) : StackPoll * Stack :=
  match st_pending s with
  | None => (SP_ready, s)
  | Some (frame, udp) =>
      let taken := {| st_ingress := st_ingress s; st_udp := st_udp s; st_pending := None |} in
      if udp then
        match st_udp s with
        | None => (SP_ready, taken)
        | Some tx =>
            match poll_reserve tx with
            | Res_room => (SP_ready, {| st_ingress := st_ingress s; st_udp := Some (send_item frame tx); st_pending := None |})
            | Res_closed => (SP_closed, taken)
            | Res_pending => (SP_pending, s)
            end
        end
      else
        match poll_reserve (st_ingress s) with
        | Res_room => (SP_ready, {| st_ingress := send_item frame (st_ingress s); st_udp := st_udp s; st_pending := None |})
        | Res_closed => (SP_closed, taken)
        | Res_pending => (SP_pending, s)
        end
  end.

Definition start_send (item : bytes) (s : Stack) : Stack :=
  {| st_ingress := st_ingress s; st_udp := st_udp s; st_pending := Some (item, is_some (st_udp s) && is_udp item) |}.

(** A receiver takes the frame at the front of its queue. *)
Definition recv_frame (c : Channel) : Channel :=
  match ch_queue c with
  | [] => c
  | frame :: rest => {| ch_queue := rest; ch_taken := ch_taken c ++ [frame]; ch_capacity := ch_capacity c; ch_open := ch_open c |}
  end.

(** The device's pump sends one frame at a time, as [Sink] asks: a frame is started only
    behind a [poll_ready] that was ready, and then flushed; the receivers run when they
    like.  [sent] is what was started. *)
Inductive stack_step : list bytes * Stack -> list bytes * Stack -> Prop :=
| S_send sent s item s1 : flush s = (SP_ready, s1) -> stack_step (sent, s) (sent ++ [item], start_send item s1)
| S_flush sent s p s1 : flush s = (p, s1) -> p <> SP_closed -> stack_step (sent, s) (sent, s1)
| S_ingress sent s : stack_step (sent, s) (sent, {| st_ingress := recv_frame (st_ingress s); st_udp := st_udp s; st_pending := st_pending s |})
| S_udp sent s tx : st_udp s = Some tx ->
    stack_step (sent, s) (sent, {| st_ingress := st_ingress s; st_udp := Some (recv_frame tx); st_pending := st_pending s |}).

Inductive stack_runs (udp : bool) : list bytes * Stack -> Prop :=
| SR_new : stack_runs udp ([], stack_new udp)
| SR_step x y : stack_runs udp x -> stack_step x y -> stack_runs udp y.

(** What passed through a channel, and what of [sent] belongs to it. *)
Definition passed (c : Channel) : list bytes := ch_taken c ++ ch_queue c.
Definition waiting_for (udp : bool) (pending : option (bytes * bool)) : list bytes :=
  match pending with Some (frame, u) => if eqb u udp then [frame] else [] | None => [] end.
Definition for_udp (with_udp : bool) (frame : bytes) : bool := with_udp && is_udp frame.

Record stack_inv (with_udp : bool) (sent : list bytes) (s : Stack) : Prop := {
  si_udp : is_some (st_udp s) = with_udp;
  si_ingress : passed (st_ingress s) ++ waiting_for false (st_pending s) = filter (fun f => for_udp with_udp f = false) sent;
  si_datagrams : forall tx, st_udp s = Some tx -> passed tx ++ waiting_for true (st_pending s) = filter (fun f => for_udp with_udp f = true) sent;
  si_pending : forall frame, st_pending s = Some (frame, true) -> with_udp = true;
  si_bound : (length (ch_queue (st_ingress s)) <= INGRESS_QUEUE)%nat /\ ch_capacity (st_ingress s) = INGRESS_QUEUE /\
    forall tx, st_udp s = Some tx -> (length (ch_queue tx) <= UDP_QUEUE)%nat /\ ch_capacity tx = UDP_QUEUE;
}.

Lemma passed_send frame c : passed (send_item frame c) = passed c ++ [frame].
Proof. unfold passed. cbn. by rewrite (assoc_L (++)). Qed.

Lemma passed_recv c : passed (recv_frame c) = passed c.
Proof. unfold passed, recv_frame. destruct (ch_queue c) as [|f q] eqn:E; [by rewrite E|]. cbn. by rewrite <- (assoc_L (++)). Qed.

Lemma recv_frame_bound c n : (length (ch_queue c) <= n)%nat /\ ch_capacity c = n ->
  (length (ch_queue (recv_frame c)) <= n)%nat /\ ch_capacity (recv_frame c) = n.
Proof. unfold recv_frame. destruct (ch_queue c) eqn:E; cbn; [by rewrite E|]. lia. Qed.

Lemma poll_reserve_room c frame n : poll_reserve c = Res_room -> ch_capacity c = n -> (length (ch_queue (send_item frame c)) <= n)%nat.
Proof. unfold poll_reserve. destruct (ch_open c); [|done]. cbn [negb]. destruct (_ <? _)%nat eqn:E; [|done]. intros _ <-. unfold send_item. cbn [ch_queue]. rewrite length_app. apply Nat.ltb_lt in E. cbn. lia. Qed.

Ltac stack_cbn := cbn [st_ingress st_udp st_pending waiting_for eqb is_some is_none negb start_send] in *.

Lemma flush_inv with_udp sent s p s1 : stack_inv with_udp sent s -> flush s = (p, s1) -> p <> SP_closed ->
  stack_inv with_udp sent s1 /\ (p = SP_ready -> st_pending s1 = None).
Proof.
  intros Hinv. pose proof Hinv as [Hu Hi Hd Hp (Hb & Hcap & Hbu)]. unfold flush.
  destruct (st_pending s) as [[frame udp]|] eqn:Ep; [|by intros [= <- <-]]. destruct udp.
  - destruct (st_udp s) as [tx|] eqn:Et; [|by rewrite <- Hu in Hp; specialize (Hp frame eq_refl)]. destruct (Hbu tx eq_refl) as [Htx Hcx].
    destruct (poll_reserve tx) eqn:Er; intros [= <- <-]; try done. intros _. split; [|done]. specialize (Hd tx eq_refl). stack_cbn.
    split; stack_cbn; try done.
    + intros tx' [= <-]. by rewrite app_nil_r, passed_send.
    + split_and!; try done. intros tx' [= <-]. split; [by apply poll_reserve_room|done].
  - destruct (poll_reserve (st_ingress s)) eqn:Er; intros [= <- <-]; try done. intros _. split; [|done]. stack_cbn. split; stack_cbn; try done.
    + by rewrite app_nil_r, passed_send.
    + split_and!; try done. by apply poll_reserve_room.
Qed.

Lemma stack_inv_step with_udp x y : stack_step x y -> stack_inv with_udp x.1 x.2 -> stack_inv with_udp y.1 y.2.
Proof.
  intros Hs Hinv. destruct Hs as [sent s item s1 Ef|sent s p s1 Ef Hne|sent s|sent s tx Et]; cbn [fst snd] in *.
  - destruct (flush_inv with_udp sent s SP_ready s1 Hinv Ef) as [[Hu Hi Hd Hp Hb] Hn]; [done|]. specialize (Hn eq_refl). rewrite Hn in *. stack_cbn.
    split; stack_cbn; try done.
    + rewrite filter_app, Hu, <- Hi, app_nil_r. f_equal. unfold for_udp. cbn. destruct (with_udp && is_udp item); cbn; [by rewrite decide_False|by rewrite decide_True].
    + intros tx Htx. rewrite filter_app, Hu, <- (Hd tx Htx), app_nil_r. f_equal. unfold for_udp. cbn. destruct (with_udp && is_udp item); cbn; [by rewrite decide_True|by rewrite decide_False].
    + intros frame [= <- E]. rewrite Hu in E. by apply andb_true_iff in E as [? _].
  - by destruct (flush_inv with_udp sent s p s1 Hinv Ef Hne).
  - destruct Hinv as [Hu Hi Hd Hp (Hb & Hcap & Hbu)]. split; stack_cbn; try done; [by rewrite passed_recv|].
    destruct (recv_frame_bound (st_ingress s) INGRESS_QUEUE); [done|]. by split_and!.
  - destruct Hinv as [Hu Hi Hd Hp (Hb & Hcap & Hbu)]. rewrite Et in *. split; stack_cbn; try done.
    + intros tx' [= <-]. rewrite passed_recv. by apply Hd.
    + split_and!; try done. intros tx' [= <-]. apply recv_frame_bound, Hbu. done.
Qed.

(** whatever the receivers do and whenever the device's pump is told to wait, as long as
    both receivers are there every frame that was sent is in exactly one place: taken by
    its receiver, in its queue, or pending in the sink, in the order they were sent.  UDP
    frames go to the UDP half when there is one and all others to the runner, and no queue
    is longer than its bound. *)
Theorem stack_sink_exact udp sent s :
  stack_runs udp (sent, s) ->
  passed (st_ingress s) ++ waiting_for false (st_pending s) = filter (fun f => for_udp udp f = false) sent /\
  (forall tx, st_udp s = Some tx -> passed tx ++ waiting_for true (st_pending s) = filter (fun f => for_udp udp f = true) sent) /\
  (length (ch_queue (st_ingress s)) <= INGRESS_QUEUE)%nat /\
  (forall tx, st_udp s = Some tx -> (length (ch_queue tx) <= UDP_QUEUE)%nat) /\
  is_some (st_udp s) = udp.
Proof.
  intros Hruns. assert (Hinv : stack_inv udp (sent, s).1 (sent, s).2).
  { induction Hruns as [|x y _ IH Hs]; [|by eapply stack_inv_step]. destruct udp; split; cbn; try done; unfold INGRESS_QUEUE, UDP_QUEUE.
    - by intros tx [= <-].
    - split_and!; [lia|done|]. intros tx [= <-]. cbn. split; [lia|done].
    - split_and!; [lia|done|done]. }
  destruct Hinv as [Hu Hi Hd Hp (Hb & Hcap & Hbu)]. cbn in *. split_and!; try done. intros tx Ht. by destruct (Hbu tx Ht).
Qed.
End packet.

(** ** The device (device.rs) *)

(** The frames waiting for the stack, and the queue out of it with the permits held. *)
Record FrameDevice := { fd_rx : list bytes; fd_out : list bytes; fd_permits : nat }.
Definition EGRESS_QUEUE : nat := 1024.

Definition push (frame : bytes) (d : FrameDevice) : FrameDevice :=
  {| fd_rx := fd_rx d ++ [frame]; fd_out := fd_out d; fd_permits := fd_permits d |}.
Definition try_reserve (d : FrameDevice) : option FrameDevice :=
  if (length (fd_out d) + fd_permits d <? EGRESS_QUEUE)%nat then Some {| fd_rx := fd_rx d; fd_out := fd_out d; fd_permits := fd_permits d + 1 |} else None.

(** A permit that is dropped gives its place back. *)
Definition drop_permit (d : FrameDevice) : FrameDevice := {| fd_rx := fd_rx d; fd_out := fd_out d; fd_permits := fd_permits d - 1 |}.

(** The frame and a permit for its answer; a permit without a frame is dropped. *)
Definition receive (d : FrameDevice) : option bytes * FrameDevice :=
  match try_reserve d with
  | None => (None, d)
  | Some d =>
      match fd_rx d with
      | [] => (None, drop_permit d)
      | frame :: rest => (Some frame, {| fd_rx := rest; fd_out := fd_out d; fd_permits := fd_permits d |})
      end
  end.
Definition transmit (d : FrameDevice) : bool * FrameDevice :=
  match try_reserve d with Some d => (true, d) | None => (false, d) end.

(** [consume] of a permit: the frame goes out in the place it was promised. *)
Definition consume (frame : bytes) (d : FrameDevice) : FrameDevice :=
  {| fd_rx := fd_rx d; fd_out := fd_out d ++ [frame]; fd_permits := fd_permits d - 1 |}.

Inductive device_step : FrameDevice -> FrameDevice -> Prop :=
| D_push d frame : device_step d (push frame d)
| D_receive d : device_step d (receive d).2
| D_transmit d : device_step d (transmit d).2
| D_consume d frame : (0 < fd_permits d)%nat -> device_step d (consume frame d)
| D_drop d : (0 < fd_permits d)%nat -> device_step d (drop_permit d)
| D_out d frame rest : fd_out d = frame :: rest -> device_step d {| fd_rx := fd_rx d; fd_out := rest; fd_permits := fd_permits d |}.

Inductive device_runs : FrameDevice -> Prop :=
| DR_new : device_runs {| fd_rx := []; fd_out := []; fd_permits := 0 |}
| DR_step d d' : device_runs d -> device_step d d' -> device_runs d'.

Lemma device_bound d : device_runs d -> (length (fd_out d) + fd_permits d <= EGRESS_QUEUE)%nat.
Proof.
  assert (Hres : forall d d', try_reserve d = Some d' -> fd_out d' = fd_out d /\ fd_rx d' = fd_rx d /\ fd_permits d' = (fd_permits d + 1)%nat /\ (length (fd_out d) + fd_permits d < EGRESS_QUEUE)%nat).
  { intros d0 d'. unfold try_reserve. destruct (_ <? _)%nat eqn:E; [|done]. intros [= <-]. apply Nat.ltb_lt in E. done. }
  induction 1 as [|d d' _ IH Hs]; [cbn; unfold EGRESS_QUEUE; lia|]. destruct Hs as [d frame|d|d|d frame Hp|d Hp|d frame rest Ho]; cbn; try lia.
  - unfold receive. destruct (try_reserve d) as [d1|] eqn:E; [|done]. destruct (Hres d d1 E) as (-> & Hrx & Hpm & Hlt). destruct (fd_rx d1); cbn; rewrite ?Hpm; try lia.
    all: destruct (Hres d d1 E) as (-> & _ & _ & _); lia.
  - unfold transmit. destruct (try_reserve d) as [d1|] eqn:E; [|done]. destruct (Hres d d1 E) as (Ho & Hrx & Hpm & Hlt). cbn. rewrite Ho, Hpm. lia.
  - rewrite length_app. cbn. lia.
  - rewrite Ho in IH. cbn in IH. lia.
Qed.

(** over any sequence of frames, turns of the stack and readers of its output: a frame the
    stack takes has its place in the output queue already reserved, the queue with the
    places promised never exceeds its bound, and a frame for which there is no room stays
    at the front where it was. *)
Theorem device_promises_room d :
  device_runs d ->
  (length (fd_out d) + fd_permits d <= EGRESS_QUEUE)%nat /\
  match receive d with
  | (Some frame, d') => fd_rx d = frame :: fd_rx d' /\ fd_permits d' = Datatypes.S (fd_permits d) /\ fd_out d' = fd_out d /\
      forall answer, (length (fd_out (consume answer d')) + fd_permits (consume answer d') <= EGRESS_QUEUE)%nat
  | (None, d') => d' = d /\ (fd_rx d = [] \/ (length (fd_out d) + fd_permits d = EGRESS_QUEUE)%nat)
  end.
Proof.
  intros Hruns. pose proof (device_bound d Hruns) as Hb. split; [done|]. unfold receive, try_reserve.
  destruct (_ <? _)%nat eqn:E; [apply Nat.ltb_lt in E|apply Nat.ltb_ge in E]; [|split; [done|right; lia]].
  cbn [fd_rx]. destruct d as [rx out permits]. cbn in *. destruct rx as [|frame rest]; cbn.
  - split; [|by left]. unfold drop_permit. cbn. f_equal. lia.
  - split_and!; try done; [lia|]. intros answer. rewrite length_app. cbn. lia.
Qed.

(** ** The UDP halves (udp.rs) *)

Section udp.
Context `{Wire}.

(** [poll_next] of the read half over the frames that are queued: the first that carries a
    datagram, and what is left behind it. *)
Fixpoint read_datagram (frames : list bytes) : option UdpDatagram * list bytes :=
  match frames with
  | [] => (None, [])
  | frame :: rest =>
      match udp_datagram frame with
      | Some datagram => (Some datagram, rest)
      | None => read_datagram rest
      end
  end.

(** The demultiplexer reads until nothing is left. *)
Fixpoint read_datagrams (turns : nat) (frames : list bytes) : list UdpDatagram :=
  match turns with
  | O => []
  | Datatypes.S turns =>
      match read_datagram frames with
      | (Some datagram, rest) => datagram :: read_datagrams turns rest
      | (None, _) => []
      end
  end.

Inductive SendError := Families | NotBuilt | StackGone.

(** [etherparse]'s builder: the packet of a datagram between two addresses of one family,
    with a time to live. *)
Variable packet_of : Z -> SocketAddr -> SocketAddr -> bytes -> option bytes.
Definition TTL : Z := 64.

Definition same_family (a b : SocketAddr) : bool := Nat.eqb (length a.1) (length b.1).

Definition build (datagram : UdpDatagram) : result bytes SendError :=
  if same_family (ud_src datagram) (ud_dst datagram)
  then ok_or (packet_of TTL (ud_src datagram) (ud_dst datagram) (ud_payload datagram)) NotBuilt
  else Err Families.

(** [start_send] of the write half; the room was reserved by [poll_ready]. *)
Definition send_datagram (item : UdpDatagram) (egress : Channel) : result Channel SendError :=
  match ud_payload item with
  | [] => Ok egress
  | _ =>
      let? frame := build item in
      if ch_open egress then Ok (send_item frame egress) else Err StackGone
  end.

Lemma read_datagram_spec frames :
  match read_datagram frames with
  | (Some d, rest) => omap udp_datagram frames = d :: omap udp_datagram rest /\ (length rest < length frames)%nat
  | (None, _) => omap udp_datagram frames = []
  end.
Proof.
  induction frames as [|frame frames IH]; [done|]. cbn. destruct (udp_datagram frame) as [d|]; [split; [done|lia]|].
  destruct (read_datagram frames) as [[d|] rest]; [|done]. destruct IH as [-> ?]. split; [done|lia].
Qed.

(** the read half yields the datagrams of the frames it was given, all of them and in
    order, and passes over the frames that carry none. *)
Theorem read_half_exact frames turns :
  (length frames < turns)%nat -> read_datagrams turns frames = omap udp_datagram frames.
Proof.
  revert frames. induction turns as [|turns IH]; intros frames Ht; [lia|]. cbn. pose proof (read_datagram_spec frames) as Hs.
  destruct (read_datagram frames) as [[d|] rest]; [|done]. destruct Hs as [-> Hlt]. f_equal. apply IH. lia.
Qed.

(** A datagram goes out as one frame, at the end of the queue, or not at all: an empty one
    is passed over, and one between two families is refused. *)
Theorem write_half_exact item egress :
  match send_datagram item egress with
  | Ok egress' =>
      (ud_payload item = [] /\ egress' = egress) \/
      exists frame, passed egress' = passed egress ++ [frame] /\ same_family (ud_src item) (ud_dst item) = true /\
        packet_of TTL (ud_src item) (ud_dst item) (ud_payload item) = Some frame
  | Err e => ud_payload item <> [] /\ (same_family (ud_src item) (ud_dst item) = false <-> e = Families)
  end.
Proof.
  unfold send_datagram, build. destruct (ud_payload item) as [|b payload]; [by left|].
  destruct (same_family _ _) eqn:Ef; [|done]. destruct (packet_of _ _ _ _) as [frame|] eqn:Ep; cbn; [|done].
  destruct (ch_open egress); [|done]. right. exists frame. by rewrite passed_send.
Qed.
End udp.
