(* ===== verification/Relay.v ===== *)
(** * Which relays an endpoint uses (nexapipe-client/src/relay.rs and discovery.rs)

    A configuration names a relay mode; the mode decides which relays the endpoint
    registers with, and [custom] also which addresses of a peer may be dialled.  Errors are
    represented by their reason; the URL parser is a parameter, and a URL is the scheme,
    the host and the port the code asks it for.

    The file shows that a mode is never replaced by another one, and that under [custom]
    no relay that n0 operates is used or dialled by an address that was handed over. *)

From S2P Require Import Prelude RustStd Host Invite.

Record RelayUrl := { ru_scheme : bytes; ru_host : option bytes; ru_port : option Z }.

#[export] Instance RelayUrl_eq_dec : EqDecision RelayUrl.
Proof. solve_decision. Defined.

Inductive RelayModeSpec := Disabled | Default | Pinned | Custom (url : RelayUrl) (auth_token : option bytes).
Inductive RelayError := RE_no_url | RE_unknown_mode | RE_bad_url | RE_n0.

(** [opt.map(str::trim).filter(|s| !s.is_empty())] *)
Definition named (value : option bytes) : option bytes :=
  let! v := value in if bool_decide (trim v = []) then None else Some (trim v).

Definition url_is_n0 (url : RelayUrl) : bool := match ru_host url with None => false | Some host => is_n0_relay host end.

Section relay.
Variable parse_url : bytes -> option RelayUrl.
Variable pinned_url : RelayUrl.

Definition custom (url : bytes) (auth_token : option bytes) : result RelayModeSpec RelayError :=
  match parse_url url with
  | None => Err RE_bad_url
  | Some url => if url_is_n0 url then Err RE_n0 else Ok (Custom url (named auth_token))
  end.

(** [RelayModeSpec::parse] *)
Definition parse_mode (mode url auth_token : option bytes) : result (option RelayModeSpec) RelayError :=
  match named mode with
  | None =>
      match named url with
      | Some url => let? m := custom url auth_token in Ok (Some m)
      | None => Ok None
      end
  | Some mode =>
      let url := named url in
      if bool_decide (mode = lit "disabled") then Ok (Some Disabled)
      else if bool_decide (mode = lit "default") then Ok (Some Default)
      else if bool_decide (mode = lit "pinned") then Ok (Some Pinned)
      else if bool_decide (mode = lit "custom") then
        let? url := ok_or url RE_no_url in
        let? m := custom url auth_token in Ok (Some m)
      else Err RE_unknown_mode
  end.

(** iroh's [RelayMode]: none, its own, or the relays of a map with their tokens. *)
Inductive RelayMode := M_disabled | M_default | M_custom (relays : list (RelayUrl * option bytes)).

Definition relay_mode (m : RelayModeSpec) : RelayMode :=
  match m with
  | Disabled => M_disabled
  | Default => M_default
  | Pinned => M_custom [(pinned_url, None)]
  | Custom url auth_token => M_custom [(url, auth_token)]
  end.

Definition uses_url (m : RelayModeSpec) : bool := match m with Custom _ _ => true | _ => false end.

(** ** Discovery *)

Inductive DiscoveryMode := N0 | NoDiscovery.

Definition discovery_parse (value : bytes) : option DiscoveryMode :=
  if bool_decide (trim value = lit "n0") then Some N0
  else if bool_decide (trim value = lit "none") then Some NoDiscovery
  else None.
Definition discovery_parse_or_default (value : bytes) : option DiscoveryMode :=
  if bool_decide (trim value = []) then Some N0 else discovery_parse value.

(** ** The restriction on dialling *)

Record RelayRestriction := { rr_relay : RelayUrl; rr_may_look_up : bool }.

Definition through (relay : RelayUrl) (discovery : DiscoveryMode) : RelayRestriction :=
  {| rr_relay := relay; rr_may_look_up := match discovery with N0 => true | NoDiscovery => false end |}.

Definition dial_restriction (m : RelayModeSpec) (discovery : DiscoveryMode) : option RelayRestriction :=
  match m with Custom url _ => Some (through url discovery) | Default | Pinned | Disabled => None end.

Definition dial_scheme (url : RelayUrl) : option bytes :=
  if bool_decide (ru_scheme url ∈ [lit "http"; lit "ws"]) then Some (lit "ws")
  else if bool_decide (ru_scheme url ∈ [lit "https"; lit "wss"; lit "ftp"; lit "file"]) then Some (lit "wss")
  else None.

Definition relay_host (url : RelayUrl) : option bytes := (fun h => to_ascii_lowercase (trim_end_matches is_dot h)) <$> ru_host url.

Definition same_relay (a b : RelayUrl) : bool :=
  match dial_scheme a, dial_scheme b with
  | Some scheme_a, Some scheme_b =>
      bool_decide (scheme_a = scheme_b) && bool_decide (relay_host a = relay_host b) && bool_decide (ru_port a = ru_port b)
  | _, _ => false
  end.

(** An address of a peer: the relays and the socket addresses it names. *)
Record EndpointAddr := { ea_relays : list RelayUrl; ea_ips : list (bytes * Z) }.

Inductive DialError := DE_relay | DE_lookup.

Definition permits (r : RelayRestriction) (addr : EndpointAddr) : result unit DialError :=
  match ea_relays addr with
  | _ :: _ => if forallb (fun other => same_relay other (rr_relay r)) (ea_relays addr) then Ok tt else Err DE_relay
  | [] =>
      match ea_ips addr with
      | _ :: _ => Ok tt
      | [] => if rr_may_look_up r then Ok tt else Err DE_lookup
      end
  end.

(** ** Lemmas and theorems *)

Lemma named_spec value v : named value = Some v <-> exists raw, value = Some raw /\ v = trim raw /\ v <> [].
Proof.
  unfold named. destruct value as [raw|]; [|naive_solver]. case_bool_decide as E; split; try naive_solver.
Qed.

Lemma same_relay_n0 a b : same_relay a b = true -> url_is_n0 a = url_is_n0 b.
Proof.
  unfold same_relay. destruct (dial_scheme a), (dial_scheme b); try done. intros [[_ H]%andb_true_iff _]%andb_true_iff.
  apply bool_decide_eq_true in H. unfold relay_host in H. unfold url_is_n0, is_n0_relay.
  destruct (ru_host a) as [ha|], (ru_host b) as [hb|]; try done. cbn in H. injection H as ->. done.
Qed.

(** a relay mode is what the configuration says or an error: nothing is configured exactly
    when neither a mode nor a URL is, a mode that is spelled is the mode that results, a
    URL without a mode means custom, and custom without a usable URL is refused and never
    replaced. *)
Theorem relay_mode_exact mode url auth_token :
  match parse_mode mode url auth_token with
  | Ok None => named mode = None /\ named url = None
  | Ok (Some Disabled) => named mode = Some (lit "disabled")
  | Ok (Some Default) => named mode = Some (lit "default")
  | Ok (Some Pinned) => named mode = Some (lit "pinned")
  | Ok (Some (Custom u token)) =>
      (named mode = Some (lit "custom") \/ named mode = None) /\ token = named auth_token /\
      exists raw, named url = Some raw /\ parse_url raw = Some u /\ url_is_n0 u = false
  | Err RE_unknown_mode => exists m, named mode = Some m /\ m ∉ [lit "disabled"; lit "default"; lit "pinned"; lit "custom"]
  | Err RE_no_url => named mode = Some (lit "custom") /\ named url = None
  | Err RE_bad_url => (named mode = Some (lit "custom") \/ named mode = None) /\ exists raw, named url = Some raw /\ parse_url raw = None
  | Err RE_n0 => (named mode = Some (lit "custom") \/ named mode = None) /\ exists raw u, named url = Some raw /\ parse_url raw = Some u /\ url_is_n0 u = true
  end.
Proof.
  unfold parse_mode, custom. destruct (named mode) as [m|] eqn:Em.
  - destruct (bool_decide (m = lit "disabled")) eqn:E1; [by apply bool_decide_eq_true in E1 as ->|].
    destruct (bool_decide (m = lit "default")) eqn:E2; [by apply bool_decide_eq_true in E2 as ->|].
    destruct (bool_decide (m = lit "pinned")) eqn:E3; [by apply bool_decide_eq_true in E3 as ->|].
    destruct (bool_decide (m = lit "custom")) eqn:E4.
    + apply bool_decide_eq_true in E4 as ->. destruct (named url) as [raw|] eqn:Eu; cbn [ok_or]; [|done].
      destruct (parse_url raw) as [u|] eqn:Ep; [destruct (url_is_n0 u) eqn:En|]; split_and!; eauto 10.
    + apply bool_decide_eq_false in E1, E2, E3, E4. exists m. split; [done|]. set_solver.
  - destruct (named url) as [raw|] eqn:Eu; [|done].
    destruct (parse_url raw) as [u|] eqn:Ep; [destruct (url_is_n0 u) eqn:En|]; split_and!; eauto 10.
Qed.

(** an endpoint whose configuration resolves to custom registers with one relay, the one
    that was named, which n0 does not operate; it dials a peer that names relays exactly
    when all of them are that relay, so never through a relay of n0; and without lookups
    it dials only a peer that names that relay or a direct address. *)
Theorem custom_relay_exclusive mode url auth_token u token discovery addr :
  parse_mode mode url auth_token = Ok (Some (Custom u token)) ->
  relay_mode (Custom u token) = M_custom [(u, token)] /\ url_is_n0 u = false /\
  exists r, dial_restriction (Custom u token) discovery = Some r /\
    (is_ok (permits r addr) = true ->
      Forall (fun other => same_relay other u = true /\ url_is_n0 other = false) (ea_relays addr) /\
      (discovery = NoDiscovery -> ea_relays addr <> [] \/ ea_ips addr <> [])) /\
    (ea_relays addr <> [] -> Forall (fun other => same_relay other u = true) (ea_relays addr) -> permits r addr = Ok tt).
Proof.
  intros Hp. pose proof (relay_mode_exact mode url auth_token) as Hm. rewrite Hp in Hm. destruct Hm as (_ & _ & raw & _ & _ & Hn0).
  split; [done|]. split; [done|]. eexists. split; [reflexivity|]. unfold permits, through. cbn [rr_relay rr_may_look_up].
  assert (Hall : forall l, forallb (fun other => same_relay other u) l = true <-> Forall (fun other => same_relay other u = true) l).
  { intros l. rewrite forallb_forall, Forall_forall. setoid_rewrite list_elem_of_In. done. }
  split.
  - destruct (ea_relays addr) as [|x l] eqn:Er.
    + intros Hok. split; [constructor|]. intros ->. destruct (ea_ips addr); [done|]. by right.
    + destruct (forallb _ (x :: l)) eqn:Ef; [|done]. intros _. split; [|intros _; by left].
      apply Hall in Ef. eapply Forall_impl; [exact Ef|]. intros other Ho. split; [done|]. by rewrite (same_relay_n0 other u Ho).
  - intros Hne Hf. destruct (ea_relays addr) as [|x l]; [done|]. apply Hall in Hf. by rewrite Hf.
Qed.
End relay.

Lemma custom_relay_exclusive_witness :
  let relay := {| ru_scheme := lit "https"; ru_host := Some (lit "relay.example.com"); ru_port := None |} in
  let spelled := {| ru_scheme := lit "wss"; ru_host := Some (lit "Relay.example.com."); ru_port := None |} in
  exists r, dial_restriction (Custom relay None) NoDiscovery = Some r /\
    permits r {| ea_relays := [spelled]; ea_ips := [] |} = Ok tt /\ permits r {| ea_relays := []; ea_ips := [] |} = Err DE_lookup.
Proof.
  cbn zeta. set (relay := {| ru_scheme := lit "https"; ru_host := Some (lit "relay.example.com"); ru_port := None |}).
  set (spelled := {| ru_scheme := lit "wss"; ru_host := Some (lit "Relay.example.com."); ru_port := None |}).
  destruct (custom_relay_exclusive (fun _ => Some relay) relay None (Some (lit "https://relay.example.com")) None relay None NoDiscovery
    {| ea_relays := [spelled]; ea_ips := [] |}) as (_ & _ & r & Hr & _ & Hp); [vm_compute; reflexivity|].
  exists r. split; [exact Hr|]. injection Hr as <-. split; [|reflexivity]. apply Hp; [done|]. repeat constructor.
Defined.
