(* ===== verification/Identity.v ===== *)
(** * The endpoint's identity and its credentials (nexapipe/src/config/identity.rs, and
      [check_credential_file_permissions] of nexapipe/src/config/auth_file.rs)

    The endpoint's key is in the environment, in a file the environment or the
    configuration names, or in the configuration itself; when there is none the first start
    makes one and keeps it where the configuration points.  Errors are represented by their
    reason.  A path is its text, absolute when it starts with a slash; the file system is a
    map from paths to a mode and a text, or to something that cannot be read.  Parsing a key
    is a parameter, and a key that is generated is an argument.

    The file shows that a credential has one source, that one read from a file was private
    to its owner, that an existing key is never replaced, and that an endpoint that
    generated its key starts with the same key again. *)

From S2P Require Import Prelude RustStd.

Inductive CredentialSource := Inline | Env | File.

Record IrohConfig := {
  secret_key : option bytes;
  secret_key_file : option bytes;
  secret_key_source : CredentialSource;
  relay_auth_token : option bytes;
  relay_auth_token_file : option bytes;
  relay_auth_token_source : CredentialSource;
}.

Definition iroh_default : IrohConfig :=
  {| secret_key := None; secret_key_file := None; secret_key_source := Inline;
     relay_auth_token := None; relay_auth_token_file := None; relay_auth_token_source := Inline |}.

Definition with_key (key : bytes) (source : CredentialSource) (i : IrohConfig) : IrohConfig :=
  {| secret_key := Some key; secret_key_file := secret_key_file i; secret_key_source := source;
     relay_auth_token := relay_auth_token i; relay_auth_token_file := relay_auth_token_file i; relay_auth_token_source := relay_auth_token_source i |}.
Definition with_key_file (file : bytes) (i : IrohConfig) : IrohConfig :=
  {| secret_key := secret_key i; secret_key_file := Some file; secret_key_source := secret_key_source i;
     relay_auth_token := relay_auth_token i; relay_auth_token_file := relay_auth_token_file i; relay_auth_token_source := relay_auth_token_source i |}.
Definition with_token (token : bytes) (source : CredentialSource) (i : IrohConfig) : IrohConfig :=
  {| secret_key := secret_key i; secret_key_file := secret_key_file i; secret_key_source := secret_key_source i;
     relay_auth_token := Some token; relay_auth_token_file := relay_auth_token_file i; relay_auth_token_source := source |}.

(** The environment: the variables the code reads, and the working directory. *)
Record Environment := {
  e_key : option bytes;
  e_key_file : option bytes;
  e_token : option bytes;
  e_no_persist : option bytes;
  e_cwd : bytes;
}.

(** A file: its mode, and its text when it can be read. *)
Record Stored := { s_mode : Z; s_text : option bytes }.
Abbreviation Files := (gmap bytes Stored).

Inductive IdentityError := IE_ambiguous | IE_relative | IE_unreadable | IE_blank | IE_permissions | IE_no_token | IE_bad_key | IE_write.

Definition slash : Z := 47.
Definition is_absolute (path : bytes) : bool := match path with b :: _ => b =? slash | [] => false end.
Definition join_path (dir path : bytes) : bytes := if is_absolute path then path else dir ++ slash :: path.

Definition persistence_disabled (value : option bytes) : bool :=
  match value with
  | None => false
  | Some value =>
      let value := trim value in
      negb (bool_decide (value = []) || bool_decide (value = lit "0") || eq_ignore_ascii_case value (lit "false"))
  end.

(** A value that is there and not blank, trimmed. *)
Definition named_value (raw : option bytes) : option bytes :=
  let! v := raw in if bool_decide (trim v = []) then None else Some (trim v).

Definition environment_names_iroh_credential (env : Environment) : bool :=
  is_some (named_value (e_key env)) || is_some (named_value (e_key_file env)) || is_some (named_value (e_token env)).

Fixpoint count_true (bs : list bool) : nat := match bs with [] => 0 | b :: bs => (if b then 1 else 0) + count_true bs end.

Definition refuse_ambiguous_credential_sources (sources : list bool) : result unit IdentityError :=
  if (1 <? count_true sources)%nat then Err IE_ambiguous else Ok tt.

Definition absolute_env_path (cwd path : bytes) : bytes := if is_absolute path then path else join_path cwd path.

Definition credential_file_path (config_dir : option bytes) (path : bytes) : result bytes IdentityError :=
  if is_absolute path then Ok path
  else match config_dir with None => Err IE_relative | Some dir => Ok (join_path dir path) end.

(** [mode & 0o077] *)
Definition check_credential_file_permissions (f : Stored) : result unit IdentityError :=
  if negb (Z.land (s_mode f) 63 =? 0) then Err IE_permissions else Ok tt.

Definition read_credential_file (fs : Files) (full : bytes) : result (option bytes) IdentityError :=
  match fs !! full with
  | None => Ok None
  | Some f =>
      match s_text f with
      | None => Err IE_unreadable
      | Some text =>
          if bool_decide (trim text = []) then Err IE_blank
          else let? _ := check_credential_file_permissions f in Ok (Some (trim text))
      end
  end.

Definition resolve_secret_key_source (config_dir : option bytes) (env_raw env_file : option bytes) (fs : Files) (iroh : IrohConfig)
    : result (option (bytes * CredentialSource)) IdentityError :=
  let env := named_value env_raw in
  let? _ := refuse_ambiguous_credential_sources
    [is_some env; is_some env_file; is_some (secret_key_file iroh); is_some (secret_key iroh)] in
  match env with
  | Some key => Ok (Some (key, Env))
  | None =>
      let? config_file :=
        match secret_key_file iroh with
        | Some file => let? full := credential_file_path config_dir file in Ok (Some full)
        | None => Ok None
        end in
      match (match env_file with Some f => Some f | None => config_file end) with
      | Some full =>
          let? read := read_credential_file fs full in
          Ok ((fun key => (key, File)) <$> read)
      | None => Ok ((fun key => (key, Inline)) <$> secret_key iroh)
      end
  end.

Definition resolve_relay_auth_token_source (config_dir : option bytes) (env_raw : option bytes) (fs : Files) (iroh : IrohConfig)
    : result (option (bytes * CredentialSource)) IdentityError :=
  let env := named_value env_raw in
  let? _ := refuse_ambiguous_credential_sources [is_some env; is_some (relay_auth_token_file iroh); is_some (relay_auth_token iroh)] in
  match env with
  | Some token => Ok (Some (token, Env))
  | None =>
      match relay_auth_token_file iroh with
      | Some file =>
          let? full := credential_file_path config_dir file in
          let? read := read_credential_file fs full in
          match read with Some token => Ok (Some (token, File)) | None => Err IE_no_token end
      | None => Ok ((fun token => (token, Inline)) <$> relay_auth_token iroh)
      end
  end.

(** The [[iroh]] table as the load leaves it. *)
Definition resolve_external_credentials (env : Environment) (config_dir : option bytes) (fs : Files) (config : option IrohConfig)
    : result (option IrohConfig) IdentityError :=
  let config := if is_none config && environment_names_iroh_credential env then Some iroh_default else config in
  match config with
  | None => Ok None
  | Some iroh =>
      let env_key_file := absolute_env_path (e_cwd env) <$> named_value (e_key_file env) in
      let? key := resolve_secret_key_source config_dir (e_key env) env_key_file fs iroh in
      let resolved :=
        match key with
        | Some (key, source) => with_key key source iroh
        | None => match env_key_file with Some f => with_key_file f iroh | None => iroh end
        end in
      let? token := resolve_relay_auth_token_source config_dir (e_token env) fs resolved in
      Ok (Some match token with Some (token, source) => with_token token source resolved | None => resolved end)
  end.

Section identity.
Variable parse_key : bytes -> bool.

Inductive IdentityAction := ActConfigured (key : bytes) | ActIntoFile (path : bytes) | ActIntoConfig | ActEphemeral.

Definition identity_action (env : Environment) (base_dir : option bytes) (config : option IrohConfig) : result IdentityAction IdentityError :=
  match (let! iroh := config in secret_key iroh) with
  | Some configured => if parse_key configured then Ok (ActConfigured configured) else Err IE_bad_key
  | None =>
      match (let! iroh := config in secret_key_file iroh) with
      | Some file =>
          let? full := credential_file_path base_dir file in
          if persistence_disabled (e_no_persist env) then Ok ActEphemeral else Ok (ActIntoFile full)
      | None => if persistence_disabled (e_no_persist env) then Ok ActEphemeral else Ok ActIntoConfig
      end
  end.

(** [write_key_file] with the key it generated: [wrote] says that the new file could be
    created, written and flushed; a write that failed is taken back. *)
Definition write_key_file (wrote : bool) (hex : bytes) (path : bytes) (fs : Files) : result bytes IdentityError * Files :=
  match fs !! path with
  | None => if wrote then (Ok hex, <[path := {| s_mode := 384; s_text := Some hex |}]> fs) else (Err IE_write, fs)
  | Some f =>
      (match s_text f with
       | None => Err IE_unreadable
       | Some text =>
           if bool_decide (trim text = []) then Err IE_blank
           else let? _ := check_credential_file_permissions f in Ok (trim text)
       end, fs)
  end.

Inductive EndpointIdentity := Configured (key : bytes) | Generated (key : bytes) | Ephemeral (key : bytes).

Definition identity_key (i : EndpointIdentity) : bytes := match i with Configured k | Generated k | Ephemeral k => k end.

(** What is on disk: the [[iroh]] table of the configuration, and the files. *)
Record Disk := { d_config : option IrohConfig; d_files : Files }.

(** The edit of the configuration that keeps a key in it. *)
Definition write_endpoint_key (hex : bytes) (config : option IrohConfig) : option IrohConfig :=
  Some (with_key hex Inline (default iroh_default config)).

(** A start: the load, then [ensure_iroh_secret_key].  [hex] is the key that is generated
    to be kept and [throwaway] the one that is not; [may_write] says whether the
    configuration, or the key file, can be written. *)
Definition ensure_iroh_secret_key (env : Environment) (base_dir : option bytes) (may_write : bool) (hex throwaway : bytes) (d : Disk)
    : result (EndpointIdentity * Disk) IdentityError :=
  let? config := resolve_external_credentials env base_dir (d_files d) (d_config d) in
  let? action := identity_action env base_dir config in
  match action with
  | ActConfigured key => Ok (Configured key, d)
  | ActEphemeral => Ok (Ephemeral throwaway, d)
  | ActIntoFile full =>
      match write_key_file may_write hex full (d_files d) with
      | (Ok key, fs) => Ok (Generated key, {| d_config := d_config d; d_files := fs |})
      | (Err _, fs) => Ok (Ephemeral throwaway, {| d_config := d_config d; d_files := fs |})
      end
  | ActIntoConfig =>
      if may_write then Ok (Generated hex, {| d_config := write_endpoint_key hex (d_config d); d_files := d_files d |})
      else Ok (Ephemeral throwaway, d)
  end.

(** [holds_credentials]: what an account that reads the configuration would obtain. *)
Definition holds_credentials (config : option IrohConfig) : bool :=
  match config with
  | None => false
  | Some iroh =>
      (is_some (secret_key iroh) && match secret_key_source iroh with Inline => true | _ => false end) ||
      (is_some (relay_auth_token iroh) && match relay_auth_token_source iroh with Inline => true | _ => false end)
  end.

(** ** Lemmas *)

Lemma some_is_some {A} (o : option A) : is_some o = true <-> exists a, o = Some a.
Proof. destruct o as [a|]; cbn; split; try done; [by eauto|by intros [? ?]]. Qed.

Lemma unambiguous sources : refuse_ambiguous_credential_sources sources = Ok tt <->
  (count_true sources <= 1)%nat.
Proof. unfold refuse_ambiguous_credential_sources. destruct (_ <? _)%nat eqn:E; [apply Nat.ltb_lt in E|apply Nat.ltb_ge in E]; split; try done; lia. Qed.

Lemma read_credential_spec fs full key : read_credential_file fs full = Ok (Some key) ->
  exists f text, fs !! full = Some f /\ s_text f = Some text /\ key = trim text /\ key <> [] /\ Z.land (s_mode f) 63 = 0.
Proof.
  unfold read_credential_file, check_credential_file_permissions. destruct (fs !! full) as [f|]; [|done].
  destruct (s_text f) as [text|] eqn:Et; [|done]. case_bool_decide; [done|]. destruct (Z.land _ _ =? 0) eqn:Em; [|done]. cbn. intros [= <-].
  apply Z.eqb_eq in Em. eauto 10.
Qed.

Lemma read_credential_none fs full : read_credential_file fs full = Ok None -> fs !! full = None.
Proof.
  unfold read_credential_file. destruct (fs !! full) as [f|]; [|done]. destruct (s_text f); [|done]. case_bool_decide; [done|].
  by destruct (check_credential_file_permissions f).
Qed.

(** a credential that is resolved comes from the one source that is named: with two named
    the load is refused, whichever they are; the value is the environment's, the
    configuration's own, or the trimmed text of a file that no other account may read or
    write, and only in the second case does the configuration hold it. *)
Theorem secret_key_has_one_source config_dir env_raw env_file fs iroh key source :
  resolve_secret_key_source config_dir env_raw env_file fs iroh = Ok (Some (key, source)) ->
  (count_true ([is_some (named_value env_raw); is_some env_file; is_some (secret_key_file iroh); is_some (secret_key iroh)]) = 1)%nat /\
  match source with
  | Env => named_value env_raw = Some key
  | Inline => secret_key iroh = Some key
  | File => exists full f text, (env_file = Some full \/ exists file, secret_key_file iroh = Some file /\ credential_file_path config_dir file = Ok full) /\
      fs !! full = Some f /\ s_text f = Some text /\ key = trim text /\ key <> [] /\ Z.land (s_mode f) 63 = 0
  end.
Proof.
  unfold resolve_secret_key_source. destruct (refuse_ambiguous_credential_sources _) as [[]|] eqn:Ea; [|done]. apply unambiguous in Ea.
  assert (Hone : is_some (named_value env_raw) || is_some env_file || is_some (secret_key_file iroh) || is_some (secret_key iroh) = true ->
    (count_true ([is_some (named_value env_raw); is_some env_file; is_some (secret_key_file iroh); is_some (secret_key iroh)]) = 1)%nat).
  { destruct (is_some (named_value env_raw)), (is_some env_file), (is_some (secret_key_file iroh)), (is_some (secret_key iroh)); cbn in *; try done; lia. }
  destruct (named_value env_raw) as [e|] eqn:Ee.
  { intros [= <- <-]. split; [by apply Hone|done]. }
  destruct (secret_key_file iroh) as [file|] eqn:Ef.
  - destruct (credential_file_path config_dir file) as [full|] eqn:Ep; [|done].
    destruct env_file as [ef|]; [cbn in Ea; lia|]. destruct (read_credential_file fs full) as [[k|]|] eqn:Er; cbn; try done. intros [= <- <-].
    split; [by apply Hone|]. apply read_credential_spec in Er as (f & text & ?). exists full, f, text. split; [right; eauto|done].
  - destruct env_file as [ef|].
    + destruct (read_credential_file fs ef) as [[k|]|] eqn:Er; cbn; try done. intros [= <- <-].
      split; [by apply Hone|]. apply read_credential_spec in Er as (f & text & ?). exists ef, f, text. split; [by left|done].
    + destruct (secret_key iroh) as [k|]; [|done]. cbn. intros [= <- <-]. split; [by apply Hone|done].
Qed.

(** The file a generated key is kept in is never one that was there. *)
Lemma write_key_file_keeps wrote hex path fs : 
  let '(r, fs') := write_key_file wrote hex path fs in
  (forall p f, fs !! p = Some f -> fs' !! p = Some f) /\
  (forall key, r = Ok key -> exists f text, fs' !! path = Some f /\ s_text f = Some text /\ (fs !! path = None -> text = hex /\ key = hex) /\
     (fs !! path <> None -> key = trim text) /\ Z.land (s_mode f) 63 = 0).
Proof.
  unfold write_key_file. destruct (fs !! path) as [f|] eqn:Ef.
  - split; [done|]. destruct (s_text f) as [text|] eqn:Et; [|done]. case_bool_decide; [done|].
    unfold check_credential_file_permissions. destruct (Z.land (s_mode f) 63 =? 0) eqn:Em; [|done]. apply Z.eqb_eq in Em.
    intros key [= <-]. exists f, text. done.
  - destruct wrote; [|done]. split.
    + intros p f Hp. rewrite lookup_insert_ne; [done|]. congruence.
    + intros key [= <-]. exists {| s_mode := 384; s_text := Some hex |}, hex. rewrite lookup_insert_eq. done.
Qed.

(** A new file changes no credential that was read. *)
Lemma read_credential_new fs path f full key : fs !! path = None -> read_credential_file fs full = Ok (Some key) ->
  read_credential_file (<[path := f]> fs) full = Ok (Some key).
Proof.
  intros Hn Hr. unfold read_credential_file in *. destruct (decide (full = path)) as [->|Hne]; [by rewrite Hn in Hr|]. by rewrite lookup_insert_ne by done.
Qed.

Lemma token_new config_dir raw fs path f i token : fs !! path = None ->
  resolve_relay_auth_token_source config_dir raw fs i = Ok token ->
  resolve_relay_auth_token_source config_dir raw (<[path := f]> fs) i = Ok token.
Proof.
  intros Hn. unfold resolve_relay_auth_token_source. destruct (refuse_ambiguous_credential_sources _); [|done].
  destruct (named_value raw); [done|]. destruct (relay_auth_token_file i); [|done]. destruct (credential_file_path _ _) as [full|]; [|done].
  destruct (read_credential_file fs full) as [[key|]|] eqn:Er; cbn; try done. by rewrite (read_credential_new _ _ _ _ _ Hn Er).
Qed.

(** Where a key file is looked for: the path, and that the environment's own is absolute. *)
Lemma env_path_absolute cwd p : is_absolute cwd = true -> is_absolute (absolute_env_path cwd p) = true.
Proof. intros Hc. unfold absolute_env_path, join_path. destruct (is_absolute p) eqn:E; [done|]. by destruct cwd. Qed.

Definition key_fits (hex : bytes) : Prop := parse_key hex = true /\ trim hex = hex /\ hex <> [].

Lemma read_own_key fs path hex : key_fits hex ->
  read_credential_file (<[path := {| s_mode := 384; s_text := Some hex |}]> fs) path = Ok (Some hex).
Proof. intros (_ & Ht & Hne). unfold read_credential_file. rewrite lookup_insert_eq. cbn [s_text]. rewrite Ht, bool_decide_eq_false_2 by done. done. Qed.

(** With no source that gives a key, the sources that are named. *)
Lemma no_key_cases config_dir env_raw env_file fs iroh : resolve_secret_key_source config_dir env_raw env_file fs iroh = Ok None ->
  refuse_ambiguous_credential_sources [is_some (named_value env_raw); is_some env_file; is_some (secret_key_file iroh); is_some (secret_key iroh)] = Ok tt /\
  named_value env_raw = None /\ secret_key iroh = None /\
  match env_file, secret_key_file iroh with
  | Some full, None => fs !! full = None
  | None, Some file => exists full, credential_file_path config_dir file = Ok full /\ fs !! full = None
  | None, None => True
  | Some _, Some _ => False
  end.
Proof.
  unfold resolve_secret_key_source. destruct (refuse_ambiguous_credential_sources _) as [[]|] eqn:Ea; [|done]. apply unambiguous in Ea.
  destruct (named_value env_raw) as [e|]; [done|]. destruct (secret_key_file iroh) as [file|].
  - destruct (credential_file_path config_dir file) as [full|]; [|done]. destruct env_file as [ef|]; [cbn in Ea; lia|].
    destruct (read_credential_file fs full) as [[k|]|] eqn:Er; cbn; try done. intros _. apply read_credential_none in Er.
    destruct (secret_key iroh); [cbn in Ea; lia|]. split_and!; eauto.
  - destruct env_file as [ef|].
    + destruct (read_credential_file fs ef) as [[k|]|] eqn:Er; cbn; try done. intros _. apply read_credential_none in Er.
      destruct (secret_key iroh); [cbn in Ea; lia|]. done.
    + by destruct (secret_key iroh).
Qed.

(** The second start finds the key in the file the first one wrote it to. *)
Lemma key_found_in_file config_dir env_raw env_file fs iroh full hex : key_fits hex ->
  resolve_secret_key_source config_dir env_raw env_file fs iroh = Ok None ->
  (env_file = Some full \/ env_file = None /\ exists file, secret_key_file iroh = Some file /\ credential_file_path config_dir file = Ok full) ->
  resolve_secret_key_source config_dir env_raw env_file (<[full := {| s_mode := 384; s_text := Some hex |}]> fs) iroh = Ok (Some (hex, File)).
Proof.
  intros Hfit Hnone Hpath. apply no_key_cases in Hnone as (Ha & He & Hk & Hm). unfold resolve_secret_key_source. rewrite Ha, He.
  destruct Hpath as [->|(-> & file & -> & ->)].
  - destruct (secret_key_file iroh); [done|]. by rewrite read_own_key.
  - by rewrite read_own_key.
Qed.

Definition env_key_file (env : Environment) : option bytes := absolute_env_path (e_cwd env) <$> named_value (e_key_file env).

(** The table the load works on. *)
Definition loaded (env : Environment) (config : option IrohConfig) : option IrohConfig :=
  if is_none config && environment_names_iroh_credential env then Some iroh_default else config.

Lemma resolve_external_none env dir fs config r : resolve_external_credentials env dir fs config = Ok r -> (let! i := r in secret_key i) = None ->
  match loaded env config with
  | None => r = None /\ config = None /\ environment_names_iroh_credential env = false
  | Some iroh =>
      resolve_secret_key_source dir (e_key env) (env_key_file env) fs iroh = Ok None /\
      (exists token, resolve_relay_auth_token_source dir (e_token env) fs iroh = Ok token) /\
      (let! i := r in secret_key_file i) = match env_key_file env with Some f => Some f | None => secret_key_file iroh end
  end.
Proof.
  unfold resolve_external_credentials. fold (loaded env config) (env_key_file env). intros Hr Hk. destruct (loaded env config) as [iroh|] eqn:El.
  - destruct (resolve_secret_key_source _ _ _ _ _) as [[[key source]|]|]; cbn in Hr; [| |done].
    + destruct (resolve_relay_auth_token_source _ _ _ _) as [[[token tsource]|]|]; try done; injection Hr as <-; done.
    + destruct (env_key_file env) as [f|].
      * destruct (resolve_relay_auth_token_source _ _ _ _) as [[[token tsource]|]|] eqn:Et; try done; injection Hr as <-; (split; [done|]); (split; [by eexists|done]).
      * destruct (resolve_relay_auth_token_source _ _ _ _) as [[[token tsource]|]|] eqn:Et; try done; injection Hr as <-; (split; [done|]); (split; [by eexists|done]).
  - injection Hr as <-. unfold loaded in El. destruct config; [done|]. cbn in El. by destruct (environment_names_iroh_credential env).
Qed.

(** A load that finds the key ends in a start on it. *)
Lemma found_key_starts env dir w hex throwaway d iroh source :
  key_fits hex -> loaded env (d_config d) = Some iroh ->
  resolve_secret_key_source dir (e_key env) (env_key_file env) (d_files d) iroh = Ok (Some (hex, source)) ->
  (exists token, resolve_relay_auth_token_source dir (e_token env) (d_files d) iroh = Ok token) ->
  forall hex', ensure_iroh_secret_key env dir w hex' throwaway d = Ok (Configured hex, d).
Proof.
  intros (Hp & _ & _) El Hkey [token Ht] hex'. unfold ensure_iroh_secret_key, resolve_external_credentials.
  fold (loaded env (d_config d)) (env_key_file env). rewrite El, Hkey.
  change (resolve_relay_auth_token_source dir (e_token env) (d_files d) (with_key hex source iroh))
    with (resolve_relay_auth_token_source dir (e_token env) (d_files d) iroh). rewrite Ht.
  destruct token as [[token tsource]|]; unfold identity_action; cbn; by rewrite Hp.
Qed.

(** an endpoint that generated its key starts with that key again: whichever of the
    configuration and the key file the key went to, the next start under the same
    environment is configured with exactly it and writes nothing.  A start that generated
    nothing leaves the disk as it found it, and a file that was there is never changed. *)
Theorem identity_stable env dir w hex throwaway d identity d' :
  key_fits hex -> is_absolute (e_cwd env) = true ->
  ensure_iroh_secret_key env dir w hex throwaway d = Ok (identity, d') ->
  (forall p f, d_files d !! p = Some f -> d_files d' !! p = Some f) /\
  match identity with
  | Generated key => key = hex /\
      forall w' hex' throwaway', ensure_iroh_secret_key env dir w' hex' throwaway' d' = Ok (Configured hex, d')
  | Configured _ => d' = d
  | Ephemeral key => key = throwaway /\ d' = d
  end.
Proof.
  intros Hfit Hcwd Hs. unfold ensure_iroh_secret_key in Hs.
  destruct (resolve_external_credentials env dir (d_files d) (d_config d)) as [config|] eqn:Er; [|done].
  unfold identity_action in Hs. destruct (let! iroh := config in secret_key iroh) as [k|] eqn:Ek.
  { destruct (parse_key k); [|done]. by injection Hs as <- <-. }
  pose proof (resolve_external_none _ _ _ _ _ Er Ek) as Hnone.
  destruct (let! iroh := config in secret_key_file iroh) as [file|] eqn:Ef.
  - destruct (credential_file_path dir file) as [full|] eqn:Ep; [|done].
    destruct (persistence_disabled (e_no_persist env)); [by injection Hs as <- <-|].
    destruct (loaded env (d_config d)) as [iroh|] eqn:El; [|by destruct Hnone as (-> & _)]. destruct Hnone as (Hkey & [token Ht] & Hfile).
    assert (Hpath : env_key_file env = Some full \/ env_key_file env = None /\ exists file, secret_key_file iroh = Some file /\ credential_file_path dir file = Ok full).
    { destruct (env_key_file env) as [ef|] eqn:Ee; [left|right; split; [done|]; exists file; by rewrite <- Hfile].
      injection Hfile as ->. unfold env_key_file in Ee. destruct (named_value _) as [p|]; [|done]. cbn in Ee. injection Ee as <-.
      unfold credential_file_path in Ep. by rewrite (env_path_absolute _ _ Hcwd) in Ep; injection Ep as <-. }
    assert (Hfree : d_files d !! full = None).
    { apply no_key_cases in Hkey as (_ & _ & _ & Hm). destruct Hpath as [Hp|(Hp & f & Hf & Hfp)]; rewrite Hp in Hm.
      - by destruct (secret_key_file iroh).
      - rewrite Hf in Hm. destruct Hm as (full' & Hfp' & ?). congruence. }
    unfold write_key_file in Hs. rewrite Hfree in Hs. destruct w; injection Hs as <- <-; [|by destruct d]. cbn [d_files].
    split; [intros p f Hf; rewrite lookup_insert_ne; [done|congruence]|]. split; [done|]. intros w' hex' throwaway'.
    apply (found_key_starts _ _ _ _ _ _ iroh File); [done|done| |].
    + by apply key_found_in_file.
    + exists token. by apply token_new.
  - destruct (persistence_disabled (e_no_persist env)); [by injection Hs as <- <-|]. destruct w; injection Hs as <- <-; [|done].
    split; [done|]. split; [done|]. intros w' hex' throwaway'.
    apply (found_key_starts _ _ _ _ _ _ (with_key hex Inline (default iroh_default (d_config d))) Inline); [done|done| |]; cbn [d_files].
    + destruct (loaded env (d_config d)) as [iroh|] eqn:El.
      * destruct Hnone as (Hkey & _ & Hfile). apply no_key_cases in Hkey as (_ & He & _ & _).
        assert (Hef : env_key_file env = None) by (by destruct (env_key_file env)). rewrite Hef in *.
        assert (Hd : default iroh_default (d_config d) = iroh).
        { unfold loaded in El. destruct (d_config d); cbn in *; [congruence|]. destruct (environment_names_iroh_credential env); congruence. }
        unfold resolve_secret_key_source. rewrite Hd, He. cbn. rewrite <- Hfile. done.
      * destruct Hnone as (_ & Hc & Hn). rewrite Hc. unfold environment_names_iroh_credential in Hn.
        apply orb_false_iff in Hn as [[H1 H2]%orb_false_iff _]. unfold resolve_secret_key_source, env_key_file. cbn.
        destruct (named_value (e_key env)); [done|]. by destruct (named_value (e_key_file env)).
    + destruct (loaded env (d_config d)) as [iroh|] eqn:El.
      * destruct Hnone as (_ & Ht & _). replace (default iroh_default (d_config d)) with iroh; [done|].
        unfold loaded in El. destruct (d_config d); cbn in *; [congruence|]. destruct (environment_names_iroh_credential env); congruence.
      * destruct Hnone as (_ & Hc & Hn). rewrite Hc. unfold environment_names_iroh_credential in Hn.
        apply orb_false_iff in Hn as [_ H3]. exists None. unfold resolve_relay_auth_token_source. cbn. by destruct (named_value (e_token env)).
Qed.
End identity.

Lemma identity_stable_witness :
  let env := {| e_key := None; e_key_file := Some (lit "keys/iroh"); e_token := None; e_no_persist := Some (lit "0"); e_cwd := lit "/srv" |} in
  let d' := {| d_config := None; d_files := {[lit "/srv/keys/iroh" := {| s_mode := 384; s_text := Some (lit "ab12") |}]} |} in
  ensure_iroh_secret_key (fun _ => true) env (Some (lit "/etc")) true (lit "ab12") (lit "ff") {| d_config := None; d_files := ∅ |} =
    Ok (Generated (lit "ab12"), d') /\
  ensure_iroh_secret_key (fun _ => true) env (Some (lit "/etc")) true (lit "cd34") (lit "ff") d' = Ok (Configured (lit "ab12"), d').
Proof.
  cbn zeta. set (env := {| e_key := None; e_key_file := Some (lit "keys/iroh"); e_token := None; e_no_persist := Some (lit "0"); e_cwd := lit "/srv" |}).
  set (d' := {| d_config := None; d_files := {[lit "/srv/keys/iroh" := {| s_mode := 384; s_text := Some (lit "ab12") |}]} |}).
  assert (Hfirst : ensure_iroh_secret_key (fun _ => true) env (Some (lit "/etc")) true (lit "ab12") (lit "ff") {| d_config := None; d_files := ∅ |} =
    Ok (Generated (lit "ab12"), d')) by (vm_compute; reflexivity).
  split; [exact Hfirst|].
  assert (Hfit : key_fits (fun _ => true) (lit "ab12")) by (split; [reflexivity|]; split; [vm_compute; reflexivity|done]).
  destruct (identity_stable (fun _ => true) env (Some (lit "/etc")) true (lit "ab12") (lit "ff") _ _ _ Hfit eq_refl Hfirst) as (_ & _ & Hnext).
  apply Hnext.
Defined.
