(* ===== verification/ClientTls.v ===== *)
(** * A TLS session through the local proxy (nexapipe-client/src/local_proxy/tls.rs)

    A client that speaks TLS to the local proxy is carried to the backend its hello names.
    The hello is read up to the end of its record, under one deadline; then the two
    directions are copied side by side, with one clock for both: a direction that has read
    nothing for a whole window ends when the other has moved nothing either.  The first
    direction to end bounds the other one.

    The reads of the client are events, a read that does not come back being the deadline.
    The copy is a step relation over time: a step is a read that comes back, with its write,
    or a timer that fires, and no timer is passed over; writes take no time.  Milliseconds.

    The file shows that the session is decided by the hello alone however it is cut, that
    every byte of the client goes to the backend once, and when a silent session ends. *)

From S2P Require Import Prelude RustStd Host Tls VirtualIp Streams EndpointGroup Tunnel.

(** ** The hello *)

Inductive HelloRead := More (chunk : bytes) | Ended | Failed | TimedOut.

(** [while data.len() < need]: what was read, and the reads that are left; [None] when the
    deadline passed. *)
Fixpoint read_until (need : nat) (data : bytes) (reads : list HelloRead) : option (bytes * list HelloRead) :=
  if (need <=? length data)%nat then Some (data, reads)
  else match reads with
  | More chunk :: reads => read_until need (data ++ chunk) reads
  | Ended :: reads | Failed :: reads => Some (data, reads)
  | TimedOut :: _ | [] => None
  end.

(** [5 + (((data[3] as usize) << 8) | (data[4] as usize))] *)
Definition total_needed (data : bytes) : nat :=
  (5 + Z.to_nat (Z.lor (Z.shiftl (default 0%Z (data !! 3)) 8) (default 0%Z (data !! 4))))%nat.

Definition read_hello (initial_data : bytes) (reads : list HelloRead) : option (bytes * list HelloRead) :=
  match read_until 5 initial_data reads with
  | None => None
  | Some (data, reads) => if (5 <=? length data)%nat then read_until (total_needed data) data reads else Some (data, reads)
  end.

Inductive TlsDecision :=
| Late | NoName | NotProxied (sni : bytes)
| Forward (sni : bytes) (initial_data : bytes) (rest : list HelloRead).

Definition decide_tunnel (initial_data : bytes) (proxy_domains : list bytes) (reads : list HelloRead) : TlsDecision :=
  match read_hello initial_data reads with
  | None => Late
  | Some (data, rest) =>
      match extract_sni data with
      | None => NoName
      | Some sni => if should_proxy_domain sni proxy_domains then Forward sni data rest else NotProxied sni
      end
  end.

(** [handle_tls_tunnel] up to the copy: the connection the session rides on, the bytes it
    was opened with, which are counted, and the group. *)
Definition handle_tls_tunnel {Conn} (node : Conn -> option EndpointId) (initial_data : bytes) (proxy_domains : list bytes) (reads : list HelloRead)
    (tries : nat -> Attempt) (ended : Z) (g : EndpointGroup) : option (result (Conn * bytes * Z) TunnelError) * EndpointGroup :=
  match decide_tunnel initial_data proxy_domains reads with
  | Forward sni data _ =>
      let o := open_stream_with_retry_until node tries sni true ended g in
      (Some (match op_result o with Ok conn => Ok (conn, data, len data) | Err e => Err e end), op_group o)
  | _ => (None, g)
  end.

Lemma hello_has_head h : hello_ok h -> (5 <= length (encode_hello h))%nat.
Proof.
  intros Hok. pose proof (first_record_end_hello h [] Hok) as Hf. rewrite app_nil_r in Hf.
  destruct (decide (5 <= length (encode_hello h))%nat) as [?|Hn]; [done|]. by rewrite first_record_end_short in Hf by lia.
Qed.

Lemma total_needed_hello h data x : hello_ok h -> (5 <= length data)%nat -> data ++ x = encode_hello h ++ drop (length (encode_hello h)) (data ++ x) ->
  total_needed data = length (encode_hello h).
Proof.
  intros Hok H5 Hx. pose proof (first_record_end_hello h (drop (length (encode_hello h)) (data ++ x)) Hok) as Hf. rewrite <- Hx in Hf.
  rewrite first_record_end_app in Hf by done. do 5 (destruct data as [|? data]; [cbn in H5; lia|]). cbn [first_record_end] in Hf. injection Hf as Hf.
  unfold total_needed. cbn [lookup list_lookup default from_option id]. unfold len in Hf. pose proof (hello_has_head h Hok). lia.
Qed.

(** Reading until [need] bytes of a client that sends enough of them. *)
Lemma read_until_chunks need all chunks data later : data ++ concat chunks = all -> (need <= length all)%nat ->
  exists got chunks', read_until need data ((More <$> chunks) ++ later) = Some (got, (More <$> chunks') ++ later) /\
    got ++ concat chunks' = all /\ (need <= length got)%nat.
Proof.
  revert data. induction chunks as [|c chunks IH]; intros data Hcat Hneed.
  - exists data, []. cbn in *. rewrite app_nil_r in Hcat. subst data. destruct later; cbn [read_until]; rewrite (proj2 (Nat.leb_le _ _)) by lia; by rewrite app_nil_r.
  - cbn [fmap list_fmap app read_until]. destruct (need <=? length data)%nat eqn:E.
    + apply Nat.leb_le in E. by exists data, (c :: chunks).
    + apply IH; [|done]. by rewrite <- app_assoc.
Qed.

(** a hello is read whole however the client cuts it and whatever follows it, so the
    session is decided by the hello alone: it is forwarded exactly when its name is one of
    the proxied domains, and then what the tunnel is opened with and what is left to read
    are the client's bytes, each once and in order; no other cut, and no byte behind the
    hello, changes the decision. *)
Theorem tls_tunnel_intact h payload initial chunks later proxy_domains :
  hello_ok h -> initial ++ concat chunks = encode_hello h ++ payload ->
  exists data chunks', data ++ concat chunks' = encode_hello h ++ payload /\ encode_hello h `prefix_of` data /\
    decide_tunnel initial proxy_domains ((More <$> chunks) ++ later) =
      match hello_sni h with
      | None => NoName
      | Some sni => if should_proxy_domain sni proxy_domains then Forward sni data ((More <$> chunks') ++ later) else NotProxied sni
      end.
Proof.
  intros Hok Hcat. set (w := encode_hello h) in *.
  pose proof (hello_has_head h Hok) as Hw5. fold w in Hw5.
  assert (Hall : (length w <= length (w ++ payload))%nat) by (rewrite length_app; lia).
  destruct (read_until_chunks 5 (w ++ payload) chunks initial later Hcat) as (d1 & c1 & E1 & Hd1 & H5); [lia|].
  assert (Hn : total_needed d1 = length w).
  { apply (total_needed_hello h d1 (concat c1)); [done|done|]. rewrite Hd1. fold w. by rewrite drop_app_length. }
  destruct (read_until_chunks (length w) (w ++ payload) c1 d1 later Hd1 Hall) as (data & chunks' & E2 & Hd2 & Hlen).
  assert (Hpre : w `prefix_of` data).
  { exists (drop (length w) data). apply (f_equal (take (length w))) in Hd2.
    rewrite take_app_le, take_app_length in Hd2 by done. rewrite <- Hd2 at 1. by rewrite take_drop. }
  exists data, chunks'. split; [done|]. split; [done|]. unfold decide_tunnel, read_hello. rewrite E1, (proj2 (Nat.leb_le _ _) H5), Hn, E2.
  destruct Hpre as [x ->]. unfold w. by rewrite (extract_sni_hello h x Hok).
Qed.

Lemma tls_tunnel_intact_witness :
  let hello := encode_hello sample_hello in
  exists data chunks', data ++ concat chunks' = hello ++ [1; 2] /\
    decide_tunnel (take 3 hello) [lit "*.example.com"] ((More <$> [take 4 (drop 3 hello); drop 7 hello; [1; 2]]) ++ [Ended]) =
      Forward (lit "api.example.com") data ((More <$> chunks') ++ [Ended]).
Proof.
  cbn zeta. destruct (tls_tunnel_intact sample_hello [1; 2] (take 3 (encode_hello sample_hello))
    [take 4 (drop 3 (encode_hello sample_hello)); drop 7 (encode_hello sample_hello); [1; 2]] [Ended] [lit "*.example.com"])
    as (data & chunks' & H1 & _ & H2); [apply sample_hello_ok|vm_compute; reflexivity|].
  exists data, chunks'. split; [exact H1|]. rewrite H2. vm_compute. reflexivity.
Defined.

(** ** The copy *)

Definition LINGERING_MS : Z := 30 * 1000.

Inductive Leg := ClientToIroh | IrohToClient.
Inductive DirectionEnd := Finished | ReadFailed | WriteFailed | Idle.

#[export] Instance Leg_eq_dec : EqDecision Leg.
Proof. solve_decision. Defined.

(** A direction: when its present read began, how it ended, what it read, and what it wrote
    and counted. *)
Record Direction := { dn_since : Z; dn_end : option DirectionEnd; dn_read : bytes; dn_written : bytes; dn_counted : Z }.

(** Both, the clock they share, and the end that was reported first. *)
Record Copying := { cp_client : Direction; cp_backend : Direction; cp_last : Z; cp_first : option (Z * DirectionEnd) }.

Definition direction_new : Direction := {| dn_since := 0; dn_end := None; dn_read := []; dn_written := []; dn_counted := 0 |}.
Definition copying_new : Copying := {| cp_client := direction_new; cp_backend := direction_new; cp_last := 0; cp_first := None |}.

Definition direction (leg : Leg) (s : Copying) : Direction := match leg with ClientToIroh => cp_client s | IrohToClient => cp_backend s end.
Definition with_direction (leg : Leg) (d : Direction) (s : Copying) : Copying :=
  match leg with
  | ClientToIroh => {| cp_client := d; cp_backend := cp_backend s; cp_last := cp_last s; cp_first := cp_first s |}
  | IrohToClient => {| cp_client := cp_client s; cp_backend := d; cp_last := cp_last s; cp_first := cp_first s |}
  end.

(** [TunnelClock::touch] and [is_idle] *)
Definition touch (now : Z) (s : Copying) : Copying :=
  {| cp_client := cp_client s; cp_backend := cp_backend s; cp_last := now; cp_first := cp_first s |}.
Definition is_idle (idle now : Z) (s : Copying) : bool := idle <=? saturating_sub now (cp_last s).

Inductive CopyEvent := C_read (chunk : bytes) (wrote : bool) | C_eof | C_failed | C_timer.

(** The direction ends and tells the tunnel, which keeps the first report. *)
Definition direction_ends (now : Z) (leg : Leg) (e : DirectionEnd) (s : Copying) : Copying :=
  let d := direction leg s in
  let s := with_direction leg {| dn_since := dn_since d; dn_end := Some e; dn_read := dn_read d; dn_written := dn_written d; dn_counted := dn_counted d |} s in
  {| cp_client := cp_client s; cp_backend := cp_backend s; cp_last := cp_last s;
     cp_first := match cp_first s with None => Some (now, e) | first => first end |}.

(** One turn of [copy_one_way]. *)
Definition copy_turn (idle now : Z) (leg : Leg) (ev : CopyEvent) (s : Copying) : Copying :=
  let d := direction leg s in
  match ev with
  | C_eof => direction_ends now leg Finished s
  | C_failed => direction_ends now leg ReadFailed s
  | C_timer =>
      if is_idle idle now s then direction_ends now leg Idle s
      else with_direction leg {| dn_since := now; dn_end := None; dn_read := dn_read d; dn_written := dn_written d; dn_counted := dn_counted d |} s
  | C_read chunk wrote =>
      let s := touch now s in
      if wrote then
        with_direction leg {| dn_since := now; dn_end := None; dn_read := dn_read d ++ chunk; dn_written := dn_written d ++ chunk;
                              dn_counted := dn_counted d + len chunk |} s
      else
        direction_ends now leg WriteFailed
          (with_direction leg {| dn_since := dn_since d; dn_end := None; dn_read := dn_read d ++ chunk; dn_written := dn_written d; dn_counted := dn_counted d |} s)
  end.

(** Until when [forward_tunnel] runs: as long as nothing has ended, not at all after a
    failure, and [LINGERING] after a clean end, unless both have ended. *)
Definition runs_at (now : Z) (s : Copying) : Prop :=
  match cp_first s with
  | None => True
  | Some (_, (ReadFailed | WriteFailed)) => False
  | Some (t, (Finished | Idle)) => now <= t + LINGERING_MS
  end.

(** No timer of a direction that still reads is passed over. *)
Definition timers_hold (idle now : Z) (s : Copying) : Prop :=
  forall leg, dn_end (direction leg s) = None -> now <= dn_since (direction leg s) + idle.

Inductive copy_step (idle : Z) : Z * Copying -> Z * Copying -> Prop :=
| CS t now leg ev s :
    t <= now -> runs_at now s -> timers_hold idle now s -> dn_end (direction leg s) = None ->
    (ev = C_timer -> now = dn_since (direction leg s) + idle) ->
    copy_step idle (t, s) (now, copy_turn idle now leg ev s).

Inductive copies (idle : Z) : Z -> Copying -> Prop :=
| CR_new : copies idle 0 copying_new
| CR_step t s t' s' : copies idle t s -> copy_step idle (t, s) (t', s') -> copies idle t' s'.

Record copy_inv (idle t : Z) (s : Copying) : Prop := {
  ci_time : 0 <= cp_last s <= t;
  ci_since : forall leg, dn_since (direction leg s) <= t;
  ci_bytes : forall leg, dn_written (direction leg s) `prefix_of` dn_read (direction leg s) /\
    dn_counted (direction leg s) = len (dn_written (direction leg s)) /\
    (dn_end (direction leg s) <> Some WriteFailed -> dn_written (direction leg s) = dn_read (direction leg s));
  ci_first : cp_first s = None -> (forall leg, dn_end (direction leg s) = None) /\ exists leg, dn_since (direction leg s) = cp_last s;
  ci_ended : forall t0 e, cp_first s = Some (t0, e) -> t0 <= cp_last s + idle /\ t0 <= t /\ t <= t0 + LINGERING_MS;
}.

Lemma direction_with leg leg' d s : direction leg (with_direction leg' d s) = if decide (leg = leg') then d else direction leg s.
Proof. by destruct leg, leg'. Qed.

Lemma direction_touch now leg s : direction leg (touch now s) = direction leg s.
Proof. by destruct leg. Qed.

Lemma direction_ends_dir now leg e s leg' : direction leg' (direction_ends now leg e s) =
  if decide (leg' = leg) then {| dn_since := dn_since (direction leg s); dn_end := Some e; dn_read := dn_read (direction leg s);
    dn_written := dn_written (direction leg s); dn_counted := dn_counted (direction leg s) |} else direction leg' s.
Proof. by destruct leg, leg'. Qed.

Lemma direction_ends_inv idle now leg e s : e <> WriteFailed ->
  copy_inv idle now s -> (cp_first s = None -> now <= cp_last s + idle) -> dn_end (direction leg s) = None ->
  copy_inv idle now (direction_ends now leg e s).
Proof.
  intros He [Ht Hs Hb Hf Hen] Hlast Hn. split.
  - by destruct leg.
  - intros leg'. rewrite direction_ends_dir. destruct (decide _); [apply Hs|apply Hs].
  - intros leg'. rewrite direction_ends_dir. destruct (decide _) as [->|_]; [|apply Hb]. cbn. destruct (Hb leg) as (? & ? & Hw). split_and!; try done.
    intros _. apply Hw. by rewrite Hn.
  - by destruct leg; cbn; destruct (cp_first s) as [[? ?]|].
  - intros t0 e0. assert (Heq : cp_first (direction_ends now leg e s) = match cp_first s with None => Some (now, e) | first => first end) by (by destruct leg).
    assert (Hl : cp_last (direction_ends now leg e s) = cp_last s) by (by destruct leg). rewrite Heq, Hl.
    destruct (cp_first s) as [[t1 e1]|]; [apply Hen|]. intros [= <- <-]. specialize (Hlast eq_refl). unfold LINGERING_MS. lia.
Qed.

(** Time passes and nothing happens. *)
Lemma copy_inv_wait idle t now s : copy_inv idle t s -> t <= now -> runs_at now s -> timers_hold idle now s ->
  copy_inv idle now s /\ (cp_first s = None -> now <= cp_last s + idle).
Proof.
  intros [Ht Hs Hb Hf Hen] Hle Hrun Htm. split.
  - split; try done; [lia| |].
    + intros leg. specialize (Hs leg). lia.
    + intros t0 e E. destruct (Hen t0 e E) as (? & ? & ?). unfold runs_at in Hrun. rewrite E in Hrun. destruct e; try done; lia.
  - intros E. destruct (Hf E) as [Hnone [leg Hleg]]. specialize (Htm leg (Hnone leg)). lia.
Qed.

Lemma copy_inv_step idle x y : 0 < idle -> copy_step idle x y -> copy_inv idle x.1 x.2 -> copy_inv idle y.1 y.2.
Proof.
  intros Hidle [t now leg ev s Hle Hrun Htm Hn Htimer] Hinv. cbn [fst snd] in *.
  destruct (copy_inv_wait idle t now s Hinv Hle Hrun Htm) as [Hinv' Hlast]. pose proof Hinv' as [Ht Hs Hb Hf Hen].
  destruct ev as [chunk wrote| | |]; cbn [copy_turn].
  - assert (Htouch : forall d, dn_end d = None -> dn_since d <= now -> (dn_written d `prefix_of` dn_read d /\ dn_counted d = len (dn_written d)) ->
      (dn_since d = now \/ cp_first s <> None) -> dn_written d = dn_read d -> copy_inv idle now (with_direction leg d (touch now s))).
    { intros d Hd1 Hd2 [Hd3 Hd4] Hd5 Hd6. split.
      - destruct leg; cbn; lia.
      - intros leg'. rewrite direction_with. destruct (decide _); [done|]. rewrite direction_touch. apply Hs.
      - intros leg'. rewrite direction_with. destruct (decide _); [done|]. rewrite direction_touch. apply Hb.
      - intros E. assert (Es : cp_first s = None) by (by destruct leg). destruct (Hf Es) as [Hnone _]. split.
        + intros leg'. rewrite direction_with. destruct (decide _); [done|]. rewrite direction_touch. apply Hnone.
        + exists leg. rewrite direction_with, decide_True by done. destruct Hd5 as [->|?]; [by destruct leg|done].
      - intros t0 e E. assert (Es : cp_first s = Some (t0, e)) by (by destruct leg). destruct (Hen t0 e Es) as (? & ? & ?). destruct leg; cbn; lia. }
    destruct (Hb leg) as (Hp & Hc & Hw). specialize (Hw ltac:(by rewrite Hn)). destruct wrote.
    + apply Htouch; cbn; try done; [|by left|by rewrite Hw]. rewrite Hw, Hc, Hw, len_app. done.
    + assert (Hx : forall leg', direction leg' (direction_ends now leg WriteFailed
        (with_direction leg {| dn_since := dn_since (direction leg s); dn_end := None; dn_read := dn_read (direction leg s) ++ chunk;
           dn_written := dn_written (direction leg s); dn_counted := dn_counted (direction leg s) |} (touch now s))) =
        if decide (leg' = leg) then {| dn_since := dn_since (direction leg s); dn_end := Some WriteFailed; dn_read := dn_read (direction leg s) ++ chunk;
           dn_written := dn_written (direction leg s); dn_counted := dn_counted (direction leg s) |} else direction leg' s).
      { by intros leg'; destruct leg, leg'. }
      split.
      * destruct leg; cbn; lia.
      * intros leg'. rewrite Hx. destruct (decide _); apply Hs.
      * intros leg'. rewrite Hx. destruct (decide _); [|apply Hb]. cbn. split_and!; [|done|done]. rewrite Hw. by apply prefix_app_r.
      * by destruct leg; cbn; destruct (cp_first s) as [[? ?]|].
      * intros t0 e E. assert (E' : match cp_first s with None => Some (now, WriteFailed) | first => first end = Some (t0, e)) by (by destruct leg).
        assert (Hl : cp_last (direction_ends now leg WriteFailed (with_direction leg {| dn_since := dn_since (direction leg s); dn_end := None;
          dn_read := dn_read (direction leg s) ++ chunk; dn_written := dn_written (direction leg s); dn_counted := dn_counted (direction leg s) |} (touch now s))) = now) by (by destruct leg).
        rewrite Hl. destruct (cp_first s) as [[t1 e1]|]; [injection E' as -> ->; destruct (Hen t0 e eq_refl) as (? & ? & ?); lia|].
        injection E' as <- <-. unfold LINGERING_MS. lia.
  - by apply direction_ends_inv.
  - by apply direction_ends_inv.
  - destruct (is_idle idle now s) eqn:Ei; [by apply direction_ends_inv|].
    specialize (Htimer eq_refl). unfold is_idle, saturating_sub in Ei. apply Z.leb_gt in Ei. split.
    + destruct leg; cbn; lia.
    + intros leg'. rewrite direction_with. destruct (decide _); [done|apply Hs].
    + intros leg'. rewrite direction_with. destruct (decide _) as [->|_]; [|apply Hb]. cbn. destruct (Hb leg) as (? & ? & Hw). split_and!; try done.
      intros _. apply Hw. by rewrite Hn.
    + intros E. assert (Es : cp_first s = None) by (by destruct leg). destruct (Hf Es) as [Hnone [mover Hm]]. split.
      * intros leg'. rewrite direction_with. destruct (decide _); [done|apply Hnone].
      * exists mover. rewrite direction_with. destruct (decide _) as [->|_]; [lia|]. by destruct leg.
    + intros t0 e E. assert (Es : cp_first s = Some (t0, e)) by (by destruct leg). destruct leg; cbn; apply (Hen t0 e Es).
Qed.

(** over every run of the two directions: while neither has ended the session was never
    silent for longer than the window, and no run goes on more than the window and
    [LINGERING] after the last byte moved; a direction ends for idleness exactly when
    nothing has moved in either for a whole window; and each direction wrote what it read,
    in order, all of it unless a write failed, and counted what it wrote. *)
Theorem tls_copy_bounded idle t s :
  0 < idle -> copies idle t s ->
  (cp_first s = None -> t <= cp_last s + idle) /\
  t <= cp_last s + idle + LINGERING_MS /\
  (forall leg, dn_written (direction leg s) `prefix_of` dn_read (direction leg s) /\
    dn_counted (direction leg s) = len (dn_written (direction leg s)) /\
    (dn_end (direction leg s) <> Some WriteFailed -> dn_written (direction leg s) = dn_read (direction leg s))) /\
  (forall leg now, t <= now -> dn_end (direction leg s) = None ->
    (dn_end (direction leg (copy_turn idle now leg C_timer s)) = Some Idle <-> cp_last s + idle <= now)).
Proof.
  intros Hidle Hc.
  assert (Hboth : copy_inv idle t s /\ (cp_first s = None -> t <= cp_last s + idle)).
  { induction Hc as [|t s t' s' _ [IH _] Hs].
    - split; [|cbn; lia]. split; cbn; try done; try lia; [by intros []..|]. intros _. split; [by intros []|]. by exists ClientToIroh.
    - pose proof (copy_inv_step idle (t, s) (t', s') Hidle Hs IH) as Hinv'. cbn in Hinv'. split; [done|]. intros E.
      inversion Hs as [? now leg ev ? Hle Hrun Htm Hn Htimer]; subst. destruct (copy_inv_wait idle t t' s IH Hle Hrun Htm) as [_ Hl].
      destruct ev as [chunk wrote| | |]; cbn [copy_turn] in *.
      + destruct wrote; [destruct leg; cbn; lia|]. destruct leg; cbn in E; by destruct (cp_first s) as [[? ?]|].
      + destruct leg; cbn in E; by destruct (cp_first s) as [[? ?]|].
      + destruct leg; cbn in E; by destruct (cp_first s) as [[? ?]|].
      + destruct (is_idle idle t' s); [destruct leg; cbn in E; by destruct (cp_first s) as [[? ?]|]|]. destruct leg; cbn in *; auto. }
  destruct Hboth as [[Ht Hs Hb Hf Hen] Hlast]. split; [done|]. split.
  { destruct (cp_first s) as [[t0 e]|] eqn:E; [destruct (Hen t0 e eq_refl); lia|]. specialize (Hlast eq_refl). unfold LINGERING_MS. lia. }
  split; [done|]. intros leg now Hle Hn. cbn [copy_turn]. unfold is_idle, saturating_sub. destruct (idle <=? _) eqn:Ei.
  - apply Z.leb_le in Ei. rewrite direction_ends_dir, decide_True by done. cbn. split; [lia|done].
  - apply Z.leb_gt in Ei. rewrite direction_with, decide_True by done. cbn. split; [done|lia].
Qed.
