(* ===== verification/Metrics.v ===== *)
(** * The counters of the instance (nexapipe/src/metrics.rs)

    Every number the process keeps about itself is an atomic of its own, and all of them
    are relaxed: the additions of one recording are seen in any order, and so are the loads
    of one scrape.  A recording is therefore the additions it makes, a step performs any of
    those that are left of any recording, and a scrape is handed, for each counter, the
    value it had at some moment between its beginning and its end.  What a scrape loads
    twice is handed to it twice.

    The file shows that a scrape reports between what was finished when it began and what
    was begun when it ended, that its histograms never descend, that the exposition names
    each series once and under its type, and that the connections of each path are those
    whose ticket says so. *)

From Stdlib Require Import Sorted.
From S2P Require Import Prelude RustStd Limits Peers.

(** ** The counters *)

Inductive L4Phase := L4Open | L4Route | L4Backend.

(** The fields of [Metrics] and of its three [DurationHistogram]s. *)
Inductive Counter :=
| ConnectionsTotal | MaxConnectionsPerPeer | MaxConnectionsGlobal
| Path (kind : PathKind)
| Requests (class : nat) | RequestDurationMs | RequestBucket (index : nat)
| BytesSent | BytesReceived
| Flow (proto class : nat)
| HistCount (h : L4Phase) | HistSum (h : L4Phase) | HistBucket (h : L4Phase) (index : nat).

#[export] Instance L4Phase_eq_dec : EqDecision L4Phase.
Proof. solve_decision. Defined.
#[export] Instance Counter_eq_dec : EqDecision Counter.
Proof. solve_decision. Defined.

Definition Metrics : Type := Counter -> Z.
Definition metrics_new : Metrics := fun _ => 0.

(** [fetch_add] and [store] of one atomic; [fetch_sub] adds the negation. *)
Definition fetch_add (c : Counter) (n : Z) (m : Metrics) : Metrics :=
  fun c' => if decide (c' = c) then wrapping 64 (m c + n) else m c'.
Definition store (c : Counter) (n : Z) (m : Metrics) : Metrics :=
  fun c' => if decide (c' = c) then n else m c'.

Definition CLASS_LABELS : list bytes := [lit "1xx"; lit "2xx"; lit "3xx"; lit "4xx"; lit "5xx"; lit "other"].
Definition L4_LABELS : list bytes := [lit "tcp"; lit "udp"].
Definition DURATION_BUCKET_LE_MS : list Z := [1; 5; 10; 25; 50; 100; 250; 500; 1000; 2500; 5000; 10000].

Definition status_class (status : Z) : nat :=
  let hundreds := status / 100 in
  if hundreds =? 1 then 0%nat else if hundreds =? 2 then 1%nat else if hundreds =? 3 then 2%nat
  else if hundreds =? 4 then 3%nat else if hundreds =? 5 then 4%nat else 5%nat.

(** [partition_point(|le| *le < duration)] of a sorted slice *)
Fixpoint partition_point (les : list Z) (duration : Z) : nat :=
  match les with
  | [] => 0
  | le :: les => if le <? duration then S (partition_point les duration) else 0
  end.

Definition bucket_of (duration_ms : Z) (bucket : nat -> Counter) : list (Counter * Z) :=
  let index := partition_point DURATION_BUCKET_LE_MS duration_ms in
  if (index <? length DURATION_BUCKET_LE_MS)%nat then [(bucket index, 1)] else [].

(** [DurationHistogram::record] *)
Definition hist_record (h : L4Phase) (duration_ms : Z) : list (Counter * Z) :=
  (HistCount h, 1) :: (HistSum h, duration_ms) :: bucket_of duration_ms (HistBucket h).

Definition connection_opened : list (Counter * Z) := [(ConnectionsTotal, 1)].

Definition record_request (status duration_ms : Z) : list (Counter * Z) :=
  (Requests (status_class status), 1) :: (RequestDurationMs, duration_ms) :: bucket_of duration_ms RequestBucket.

Definition record_l4_flow (proto : bytes) (status : Z) : list (Counter * Z) :=
  let proto := if bool_decide (to_ascii_lowercase proto = lit "udp") then 1%nat else 0%nat in
  [(Flow proto (status_class status), 1)].

Definition record_l4_open (open_ms route_ms backend_ms : Z) : list (Counter * Z) :=
  hist_record L4Open open_ms ++ hist_record L4Route route_ms ++ hist_record L4Backend backend_ms.

Definition record_bytes_sent (n : Z) : list (Counter * Z) := [(BytesSent, n)].
Definition record_bytes_received (n : Z) : list (Counter * Z) := [(BytesReceived, n)].

Inductive CopyLeg := LegClient | LegBackend.

Definition record_tunnel_bytes (leg : CopyLeg) (n : Z) : list (Counter * Z) :=
  match leg with LegClient => record_bytes_received n | LegBackend => record_bytes_sent n end.

(** A [usize] has 64 bits, so neither conversion fails. *)
Definition record_connection_limits (per_peer global : Z) (m : Metrics) : Metrics :=
  store MaxConnectionsGlobal (if global <? umax 64 then global else 0) (store MaxConnectionsPerPeer per_peer m).

(** ** Reading them *)

Definition wrapping_sum (l : list Z) : Z := foldl (fun acc n => wrapping 64 (acc + n)) 0 l.

Definition connections_active (rd : Metrics) : Z := wrapping_sum [rd (Path PathDirect); rd (Path PathRelay); rd (Path PathUnknown)].
Definition requests_total (rd : Metrics) : Z := wrapping_sum ((fun class => rd (Requests class)) <$> seq 0 (length CLASS_LABELS)).

Record Snapshot := {
  sn_connections_total : Z; sn_connections_active : Z;
  sn_direct : Z; sn_relayed : Z; sn_unknown : Z;
  sn_requests_by_class : list (bytes * Z);
  sn_request_duration_ms : Z; sn_bytes_sent : Z; sn_bytes_received : Z;
  sn_l4_flows : list (bytes * bytes * Z);
}.

Definition flow_list {A} (f : bytes -> bytes -> Z -> A) (rd : Metrics) : list A :=
  concat (imap (fun proto proto_label => imap (fun class label => f proto_label label (rd (Flow proto class))) CLASS_LABELS) L4_LABELS).

(** [active] is what [connections_active] loads. *)
Definition snapshot (active rd : Metrics) : Snapshot := {|
  sn_connections_total := rd ConnectionsTotal; sn_connections_active := connections_active active;
  sn_direct := rd (Path PathDirect); sn_relayed := rd (Path PathRelay); sn_unknown := rd (Path PathUnknown);
  sn_requests_by_class := imap (fun class label => (label, rd (Requests class))) CLASS_LABELS;
  sn_request_duration_ms := rd RequestDurationMs; sn_bytes_sent := rd BytesSent; sn_bytes_received := rd BytesReceived;
  sn_l4_flows := flow_list (fun proto label n => (proto, label, n)) rd;
|}.

(** ** The exposition *)

Inductive Line :=
| HELP (name text : bytes)
| TYPE (name kind : bytes)
| Series (name : bytes) (labels : list (bytes * bytes)) (value : Z).

Definition QUOTE : bytes := [34].
Definition show_label (l : bytes * bytes) : bytes := l.1 ++ lit "=" ++ QUOTE ++ l.2 ++ QUOTE.

Fixpoint show_labels (ls : list (bytes * bytes)) : bytes :=
  match ls with [] => [] | [l] => show_label l | l :: ls => show_label l ++ lit "," ++ show_labels ls end.

Definition show_line (l : Line) : bytes :=
  match l with
  | HELP name text => lit "# HELP " ++ name ++ lit " " ++ text
  | TYPE name kind => lit "# TYPE " ++ name ++ lit " " ++ kind
  | Series name [] value => name ++ lit " " ++ show_uint value
  | Series name labels value => name ++ lit "{" ++ show_labels labels ++ lit "} " ++ show_uint value
  end ++ [10].

Definition gauge (name help : bytes) (value : Z) : list Line := [HELP name help; TYPE name (lit "gauge"); Series name [] value].
Definition counter (name help : bytes) (value : Z) : list Line := [HELP name help; TYPE name (lit "counter"); Series name [] value].

(** [cumulative += bucket], bound by bound *)
Fixpoint cumulate (acc : Z) (buckets : list Z) : list Z :=
  match buckets with [] => [] | b :: buckets => let acc := wrapping 64 (acc + b) in acc :: cumulate acc buckets end.

Definition bucket_loads (bucket : nat -> Z) : list Z := bucket <$> seq 0 (length DURATION_BUCKET_LE_MS).

(** The series of a histogram: the bounds, [+Inf], the sum and the count, which is never
    below the widest bound. *)
Definition histogram (name help : bytes) (bucket : nat -> Z) (sum count : Z) : list Line :=
  let cumulative := cumulate 0 (bucket_loads bucket) in
  let count := Z.max count (List.last cumulative 0) in
  [HELP name help; TYPE name (lit "histogram")] ++
  zip_with (fun le c => Series (name ++ lit "_bucket") [(lit "le", show_uint le)] c) DURATION_BUCKET_LE_MS cumulative ++
  [Series (name ++ lit "_bucket") [(lit "le", lit "+Inf")] count;
   Series (name ++ lit "_sum") [] sum; Series (name ++ lit "_count") [] count].

(** [DurationHistogram::render] *)
Definition hist_render (h : L4Phase) (rd : Metrics) (name help : bytes) : list Line :=
  histogram name help (fun i => rd (HistBucket h i)) (rd (HistSum h)) (rd (HistCount h)).

Record InstanceView := { in_flight : Z; backends_up : Z; backends_down : Z }.

(** [early] is what the first load of a counter sees and [late] the second: the paths are
    loaded for the number of connections and then one by one, the classes one by one and
    then for the number of requests. *)
Definition render (early late : Metrics) (uptime : Z) (version : bytes) (view : InstanceView) : list Line :=
  gauge (lit "nexapipe_up") (lit "1 while this instance is serving.") 1 ++
  gauge (lit "nexapipe_uptime_seconds") (lit "Seconds since the process started.") uptime ++
  counter (lit "nexapipe_connections_total") (lit "Connections accepted since startup.") (early ConnectionsTotal) ++
  gauge (lit "nexapipe_connections_active") (lit "Connections open right now.") (connections_active early) ++
  gauge (lit "nexapipe_connections_limit_per_peer") (lit "Concurrent connections one peer may hold; a connection past this is refused.") (early MaxConnectionsPerPeer) ++
  gauge (lit "nexapipe_connections_limit_global") (lit "Concurrent connections the whole process may hold; a connection past this is refused whatever the peer is at.") (early MaxConnectionsGlobal) ++
  [HELP (lit "nexapipe_connections_by_path") (lit "Connections by the kind of network path they currently use. Direct means hole punching succeeded; relayed means traffic crosses a relay server.");
   TYPE (lit "nexapipe_connections_by_path") (lit "gauge")] ++
  ((fun k : PathKind * bytes => Series (lit "nexapipe_connections_by_path") [(lit "kind", k.2)] (late (Path k.1)))
    <$> [(PathDirect, lit "direct"); (PathRelay, lit "relayed"); (PathUnknown, lit "unknown")]) ++
  [HELP (lit "nexapipe_requests_total") (lit "Requests answered, by status class."); TYPE (lit "nexapipe_requests_total") (lit "counter")] ++
  imap (fun class label => Series (lit "nexapipe_requests_total") [(lit "status_class", label)] (early (Requests class))) CLASS_LABELS ++
  histogram (lit "nexapipe_request_duration_ms") (lit "How long requests took to answer, in milliseconds.")
    (fun i => early (RequestBucket i)) (early RequestDurationMs) (requests_total late) ++
  [HELP (lit "nexapipe_traffic_bytes_total") (lit "Bytes that crossed the client leg of a connection. Sent reached the client; received came from it.");
   TYPE (lit "nexapipe_traffic_bytes_total") (lit "counter");
   Series (lit "nexapipe_traffic_bytes_total") [(lit "direction", lit "sent")] (early BytesSent);
   Series (lit "nexapipe_traffic_bytes_total") [(lit "direction", lit "received")] (early BytesReceived)] ++
  [HELP (lit "nexapipe_l4_flows_total") (lit "L4 flows that ended, by protocol and status."); TYPE (lit "nexapipe_l4_flows_total") (lit "counter")] ++
  flow_list (fun proto label n => Series (lit "nexapipe_l4_flows_total") [(lit "proto", proto); (lit "status_class", label)] n) early ++
  hist_render L4Open early (lit "nexapipe_l4_open_duration_ms") (lit "How long it took to open an L4 flow, in milliseconds.") ++
  hist_render L4Route early (lit "nexapipe_l4_route_duration_ms") (lit "How long the route lookup inside an L4 flow's opening took, in milliseconds.") ++
  hist_render L4Backend early (lit "nexapipe_l4_backend_duration_ms") (lit "How long the backend connection inside an L4 flow's opening took, in milliseconds.") ++
  gauge (lit "nexapipe_backends_up") (lit "Backends currently in rotation.") (backends_up view) ++
  gauge (lit "nexapipe_backends_down") (lit "Backends taken out of rotation by failed health checks.") (backends_down view) ++
  gauge (lit "nexapipe_in_flight") (lit "Connections the process is still holding, which a shutdown waits for.") (in_flight view) ++
  [HELP (lit "nexapipe_build_info") (lit "One series identifying the build."); TYPE (lit "nexapipe_build_info") (lit "gauge");
   Series (lit "nexapipe_build_info") [(lit "version", version)] 1].

(** ** Everything that runs at once *)

Inductive Recording :=
| RConnection
| RRequest (status duration_ms : Z)
| RFlow (proto : bytes) (status : Z)
| ROpen (open_ms route_ms backend_ms : Z)
| RTunnel (leg : CopyLeg) (n : Z)
| RSent (n : Z)
| RReceived (n : Z).

Definition recording_ops (r : Recording) : list (Counter * Z) :=
  match r with
  | RConnection => connection_opened
  | RRequest status ms => record_request status ms
  | RFlow proto status => record_l4_flow proto status
  | ROpen o r b => record_l4_open o r b
  | RTunnel leg n => record_tunnel_bytes leg n
  | RSent n => record_bytes_sent n
  | RReceived n => record_bytes_received n
  end.

Definition recording_ok (r : Recording) : Prop := Forall (fun op => is_u64 op.2) (recording_ops r).

(** A recording under way: the additions that were made and those that are left. *)
Record Task := { k_what : Recording; k_done : list (Counter * Z); k_left : list (Counter * Z) }.

(** A [PathTicket]: counted under a kind, or between the two additions of [set]. *)
Inductive PathTicket := TicketAt (kind : PathKind) | TicketMoving (to : PathKind).
#[export] Instance PathTicket_eq_dec : EqDecision PathTicket.
Proof. solve_decision. Defined.

Record World := { w_metrics : Metrics; w_finished : list Recording; w_tasks : list Task; w_tickets : list PathTicket }.

Definition world_new : World := {| w_metrics := metrics_new; w_finished := []; w_tasks := []; w_tickets := [] |}.

Definition ticket_new (kind : PathKind) (w : World) : World :=
  {| w_metrics := fetch_add (Path kind) 1 (w_metrics w); w_finished := w_finished w; w_tasks := w_tasks w;
     w_tickets := TicketAt kind :: w_tickets w |}.

Inductive step : World -> World -> Prop :=
| S_begin r w : recording_ok r ->
    step w {| w_metrics := w_metrics w; w_finished := w_finished w;
              w_tasks := {| k_what := r; k_done := []; k_left := recording_ops r |} :: w_tasks w; w_tickets := w_tickets w |}
| S_add m fin l1 r d a c n b l2 ts :
    step {| w_metrics := m; w_finished := fin; w_tasks := l1 ++ {| k_what := r; k_done := d; k_left := a ++ (c, n) :: b |} :: l2; w_tickets := ts |}
      {| w_metrics := fetch_add c n m; w_finished := fin; w_tasks := l1 ++ {| k_what := r; k_done := (c, n) :: d; k_left := a ++ b |} :: l2; w_tickets := ts |}
| S_end m fin l1 r d l2 ts :
    step {| w_metrics := m; w_finished := fin; w_tasks := l1 ++ {| k_what := r; k_done := d; k_left := [] |} :: l2; w_tickets := ts |}
      {| w_metrics := m; w_finished := r :: fin; w_tasks := l1 ++ l2; w_tickets := ts |}
| S_limits per_peer global w :
    step w {| w_metrics := record_connection_limits per_peer global (w_metrics w); w_finished := w_finished w; w_tasks := w_tasks w; w_tickets := w_tickets w |}
| S_ticket kind w : step w (ticket_new kind w)
| S_set_out m fin ts l1 kind to l2 : kind <> to ->
    step {| w_metrics := m; w_finished := fin; w_tasks := ts; w_tickets := l1 ++ TicketAt kind :: l2 |}
      {| w_metrics := fetch_add (Path kind) (-1) m; w_finished := fin; w_tasks := ts; w_tickets := l1 ++ TicketMoving to :: l2 |}
| S_set_in m fin ts l1 to l2 :
    step {| w_metrics := m; w_finished := fin; w_tasks := ts; w_tickets := l1 ++ TicketMoving to :: l2 |}
      {| w_metrics := fetch_add (Path to) 1 m; w_finished := fin; w_tasks := ts; w_tickets := l1 ++ TicketAt to :: l2 |}
| S_drop m fin ts l1 kind l2 :
    step {| w_metrics := m; w_finished := fin; w_tasks := ts; w_tickets := l1 ++ TicketAt kind :: l2 |}
      {| w_metrics := fetch_add (Path kind) (-1) m; w_finished := fin; w_tasks := ts; w_tickets := l1 ++ l2 |}.

Definition steps : World -> World -> Prop := rtc step.
Definition runs (w : World) : Prop := steps world_new w.

(** What a scrape between [w] and [w'] may load. *)
Definition sees (w w' : World) (rd : Metrics) : Prop :=
  forall c, exists between, steps w between /\ steps between w' /\ rd c = w_metrics between c.

Definition begun (w : World) : list Recording := w_finished w ++ (k_what <$> w_tasks w).

(** What additions, and recordings, come to for one counter. *)
Definition added (c : Counter) (ops : list (Counter * Z)) : Z := zsum ((fun op : Counter * Z => if decide (op.1 = c) then op.2 else 0) <$> ops).
Definition amount (c : Counter) (rs : list Recording) : Z := zsum ((fun r => added c (recording_ops r)) <$> rs).
Definition performed (c : Counter) (w : World) : Z := amount c (w_finished w) + zsum ((fun k => added c (k_done k)) <$> w_tasks w).

Definition tickets_at (kind : PathKind) (ts : list PathTicket) : Z := len (filter (fun t => t = TicketAt kind) ts).

Definition plain (c : Counter) : Prop := match c with Path _ | MaxConnectionsPerPeer | MaxConnectionsGlobal => False | _ => True end.

Record world_inv (w : World) : Prop := {
  wi_counted : forall c, plain c -> w_metrics w c = wrapping 64 (performed c w);
  wi_paths : forall kind, w_metrics w (Path kind) = wrapping 64 (tickets_at kind (w_tickets w));
  wi_tasks : Forall (fun k => recording_ops (k_what k) ≡ₚ k_done k ++ k_left k) (w_tasks w);
  wi_ok : Forall recording_ok (begun w);
}.

Lemma added_app c a b : added c (a ++ b) = added c a + added c b.
Proof. unfold added. by rewrite fmap_app, zsum_app. Qed.

Lemma added_cons c op ops : added c (op :: ops) = (if decide (op.1 = c) then op.2 else 0) + added c ops.
Proof. done. Qed.

#[export] Instance zsum_perm : Proper ((≡ₚ) ==> eq) zsum.
Proof. intros l k H. induction H; rewrite ?zsum_cons in *; lia. Qed.

Lemma added_perm c a b : a ≡ₚ b -> added c a = added c b.
Proof. unfold added. by intros ->. Qed.

Lemma amount_app c a b : amount c (a ++ b) = amount c a + amount c b.
Proof. unfold amount. by rewrite fmap_app, zsum_app. Qed.

Lemma amount_cons c r rs : amount c (r :: rs) = added c (recording_ops r) + amount c rs.
Proof. done. Qed.

Lemma added_nonneg c ops : Forall (fun op : Counter * Z => is_u64 op.2) ops -> 0 <= added c ops.
Proof.
  induction 1 as [|op ops Hop _ IH]; [done|]. rewrite added_cons. unfold is_uint in Hop. case_decide; lia.
Qed.

Lemma amount_nonneg c rs : Forall recording_ok rs -> 0 <= amount c rs.
Proof. induction 1 as [|r rs Hr _ IH]; [done|]. rewrite amount_cons. pose proof (added_nonneg c _ Hr). lia. Qed.

(** The additions of a recording, spelled out. *)
Ltac spell_ops := cbn [recording_ops]; unfold record_tunnel_bytes, connection_opened, record_request, record_l4_flow, record_l4_open, record_bytes_received, record_bytes_sent.

Lemma recording_ok_amounts r : match r with
    | RConnection | RFlow _ _ => True | RRequest _ n | RTunnel _ n | RSent n | RReceived n => is_u64 n
    | ROpen a b c => is_u64 a /\ is_u64 b /\ is_u64 c end -> recording_ok r.
Proof.
  assert (is_u64 1) by (unfold is_uint; lia).
  assert (forall d b, Forall (fun op : Counter * Z => is_u64 op.2) (bucket_of d b)) as Hb
    by (intros d b; unfold bucket_of; case_match; [by apply Forall_singleton|by apply Forall_nil]).
  assert (forall h d, is_u64 d -> Forall (fun op : Counter * Z => is_u64 op.2) (hist_record h d)) as Hh
    by (intros h d Hd; unfold hist_record; by rewrite !Forall_cons).
  destruct r as [|st ms|p st|o r b|[] n|n|n]; unfold recording_ok; spell_ops.
  all: rewrite ?Forall_app, ?Forall_cons; naive_solver.
Qed.

Lemma fetch_add_eq c n m : fetch_add c n m c = wrapping 64 (m c + n).
Proof. unfold fetch_add. by rewrite decide_True. Qed.

Lemma fetch_add_ne c n m c' : c' <> c -> fetch_add c n m c' = m c'.
Proof. intros. unfold fetch_add. by rewrite decide_False. Qed.

Lemma wrapping_plus a b : wrapping 64 (wrapping 64 a + b) = wrapping 64 (a + b).
Proof. unfold wrapping. apply Z.add_mod_idemp_l. lia. Qed.

(** Only a path's own tickets change its counter. *)
Lemma tickets_at_app kind a b : tickets_at kind (a ++ b) = tickets_at kind a + tickets_at kind b.
Proof. unfold tickets_at. rewrite filter_app. unfold len. rewrite length_app. lia. Qed.

Lemma tickets_at_cons kind t ts : tickets_at kind (t :: ts) = (if decide (t = TicketAt kind) then 1 else 0) + tickets_at kind ts.
Proof. unfold tickets_at. rewrite filter_cons. case_decide; unfold len; cbn [length]; lia. Qed.

Lemma performed_task c m fin l1 k l2 ts :
  performed c {| w_metrics := m; w_finished := fin; w_tasks := l1 ++ k :: l2; w_tickets := ts |} =
  added c (k_done k) + performed c {| w_metrics := m; w_finished := fin; w_tasks := l1 ++ l2; w_tickets := ts |}.
Proof. unfold performed. cbn. rewrite !fmap_app, fmap_cons, !zsum_app, zsum_cons. lia. Qed.

Lemma begun_task m fin l1 k l2 ts m' ts' :
  begun {| w_metrics := m; w_finished := fin; w_tasks := l1 ++ k :: l2; w_tickets := ts |} ≡ₚ
  k_what k :: begun {| w_metrics := m'; w_finished := fin; w_tasks := l1 ++ l2; w_tickets := ts' |}.
Proof. unfold begun. cbn. rewrite !fmap_app, fmap_cons. by rewrite <- !Permutation_middle. Qed.

(** An addition that belongs to a recording is to a counter that recordings share. *)
Lemma ops_plain r op : op ∈ recording_ops r -> plain op.1.
Proof.
  assert (forall d b, (forall i, plain (b i)) -> op ∈ bucket_of d b -> plain op.1) as Hb.
  { intros d b Hp. unfold bucket_of. case_match; [|by rewrite elem_of_nil]. rewrite list_elem_of_singleton. intros ->. apply Hp. }
  assert (forall h d, op ∈ hist_record h d -> plain op.1) as Hh.
  { intros h d. unfold hist_record. rewrite !elem_of_cons. intros [->|[->|H]]; [done..|]. by apply (Hb d (HistBucket h)). }
  destruct r as [|st ms|p st|o r b|[] n|n|n]; spell_ops.
  all: rewrite ?elem_of_app, ?elem_of_cons, ?elem_of_nil; try naive_solver.
  intros [->|[->|H]]; [done..|]. by apply (Hb ms RequestBucket).
Qed.

(** The additions of a ticket: one path's counter moves with its tickets. *)
Lemma ticket_inv m fin ks ts ts' kind n :
  world_inv {| w_metrics := m; w_finished := fin; w_tasks := ks; w_tickets := ts |} ->
  (forall k, tickets_at k ts' = tickets_at k ts + (if decide (k = kind) then n else 0)) ->
  world_inv {| w_metrics := fetch_add (Path kind) n m; w_finished := fin; w_tasks := ks; w_tickets := ts' |}.
Proof.
  intros [Hc Hp Ht Ho] Hts. split; cbn [w_metrics w_finished w_tasks w_tickets] in *; try done.
  - intros c Hpl. rewrite fetch_add_ne by (by intros ->). by apply Hc.
  - intros k. rewrite Hts. case_decide as E.
    + subst k. by rewrite fetch_add_eq, Hp, wrapping_plus.
    + rewrite fetch_add_ne by congruence. rewrite Hp. f_equal. lia.
Qed.

(** One addition of a recording. *)
Lemma add_inv m fin l1 r d a c n b l2 ts :
  world_inv {| w_metrics := m; w_finished := fin; w_tasks := l1 ++ {| k_what := r; k_done := d; k_left := a ++ (c, n) :: b |} :: l2; w_tickets := ts |} ->
  world_inv {| w_metrics := fetch_add c n m; w_finished := fin; w_tasks := l1 ++ {| k_what := r; k_done := (c, n) :: d; k_left := a ++ b |} :: l2; w_tickets := ts |}.
Proof.
  intros [Hc Hp Ht Ho]. cbn [w_metrics w_finished w_tasks w_tickets] in *.
  rewrite Forall_app, Forall_cons in Ht. cbn [k_what k_done k_left] in Ht. destruct Ht as (H1 & Hperm & H3).
  assert (plain c) as Hcp by (apply (ops_plain r (c, n)); rewrite Hperm; set_solver).
  split; cbn [w_metrics w_finished w_tasks w_tickets].
  - intros c' Hpl. specialize (Hc c' Hpl). rewrite performed_task in *. cbn [k_done] in *. rewrite added_cons. cbn [fst snd].
    unfold performed in *. cbn [w_finished w_tasks] in *. case_decide as E.
    + subst c'. rewrite fetch_add_eq, Hc, wrapping_plus. f_equal. lia.
    + rewrite fetch_add_ne by done. rewrite Hc. f_equal.
  - intros kind. rewrite fetch_add_ne; [apply Hp|]. by intros <-.
  - rewrite Forall_app, Forall_cons. cbn [k_what k_done k_left]. split_and!; [done| |done].
    rewrite Hperm. cbn. by rewrite (assoc_L app), <- Permutation_middle, <- (assoc_L app).
  - unfold begun in *. cbn in *. by rewrite fmap_app, fmap_cons in *.
Qed.

Lemma step_inv w w' : step w w' -> world_inv w -> world_inv w'.
Proof.
  intros Hstep Hinv. destruct Hstep as [r w Hr|m fin l1 r d a c n b l2 ts|m fin l1 r d l2 ts|pp g w|kind w|m fin ts l1 kind to l2 Hne|m fin ts l1 to l2|m fin ts l1 kind l2].
  - destruct Hinv as [Hc Hp Ht Ho]. split; cbn [w_metrics w_finished w_tasks w_tickets] in *; [|done|by constructor|].
    + intros c Hpl. by rewrite Hc.
    + unfold begun in *. cbn. rewrite <- Permutation_middle. by constructor.
  - by eapply add_inv.
  - destruct Hinv as [Hc Hp Ht Ho]. cbn [w_metrics w_finished w_tasks w_tickets] in *. rewrite (begun_task _ _ _ _ _ _ m ts) in Ho.
    rewrite Forall_app, Forall_cons in Ht. cbn [k_what k_done k_left] in Ht. rewrite app_nil_r in Ht. destruct Ht as (H1 & Hperm & H3).
    split; cbn [w_metrics w_finished w_tasks w_tickets]; [|done|by apply Forall_app|done].
    intros c Hpl. rewrite Hc by done. f_equal. rewrite performed_task. unfold performed. cbn [k_done w_finished w_tasks].
    rewrite amount_cons, (added_perm c _ _ Hperm). lia.
  - destruct Hinv as [Hc Hp Ht Ho]. split; cbn [w_metrics w_finished w_tasks w_tickets] in *; try done.
    intros c Hpl. unfold record_connection_limits, store. destruct c; try done; rewrite !decide_False by done; by apply Hc.
  - destruct w as [m fin ks ts]. apply ticket_inv with ts; [done|]. intros k. cbn. rewrite tickets_at_cons. repeat case_decide; try lia; congruence.
  - eapply ticket_inv; [done|]. intros k. rewrite !tickets_at_app, !tickets_at_cons. repeat case_decide; try lia; congruence.
  - eapply ticket_inv; [done|]. intros k. rewrite !tickets_at_app, !tickets_at_cons. repeat case_decide; try lia; congruence.
  - eapply ticket_inv; [done|]. intros k. rewrite !tickets_at_app, !tickets_at_cons. repeat case_decide; try lia; congruence.
Qed.

Lemma steps_inv w w' : steps w w' -> world_inv w -> world_inv w'.
Proof. induction 1; [done|]. intros. eauto using step_inv. Qed.

Lemma world_runs_inv w : runs w -> world_inv w.
Proof. intros H. apply (steps_inv _ _ H). split; [done..|constructor|constructor]. Qed.

(** What was finished stays finished, and what was begun stays begun. *)
Lemma step_grows w w' : step w w' -> world_inv w' ->
  (exists more, w_finished w' = more ++ w_finished w) /\ (exists more, begun w' ≡ₚ more ++ begun w).
Proof.
  intros Hstep _. destruct Hstep as [r w Hr|m fin l1 r d a c n b l2 ts|m fin l1 r d l2 ts| | | | |]; split; try by exists [].
  - exists [r]. unfold begun. cbn. by rewrite <- Permutation_middle.
  - exists []. unfold begun. cbn. by rewrite !fmap_app.
  - by exists [r].
  - exists []. unfold begun. cbn. rewrite !fmap_app, fmap_cons. cbn. by rewrite <- !Permutation_middle.
Qed.

Lemma steps_grow w w' : steps w w' -> world_inv w ->
  (exists more, w_finished w' = more ++ w_finished w) /\ (exists more, begun w' ≡ₚ more ++ begun w).
Proof.
  induction 1 as [w|w w1 w' H _ IH]; intros Hi; [split; by exists []|].
  pose proof (step_inv _ _ H Hi) as Hi1. destruct (step_grows _ _ H Hi1) as [[a Ha] [b Hb]], (IH Hi1) as [[a' Ha'] [b' Hb']].
  split; [exists (a' ++ a); by rewrite Ha', Ha, (assoc_L app)|exists (b' ++ b); by rewrite Hb', Hb, (assoc_L app)].
Qed.

#[export] Instance amount_perm c : Proper ((≡ₚ) ==> eq) (amount c).
Proof. unfold amount. by intros a b ->. Qed.

(** A counter is between what was finished and what was begun. *)
Lemma performed_between c w : world_inv w -> amount c (w_finished w) <= performed c w <= amount c (begun w).
Proof.
  intros [_ _ Ht Ho]. unfold performed, begun in *. rewrite amount_app, Forall_app in *. destruct Ho as [_ Ho].
  enough (0 <= zsum ((fun k => added c (k_done k)) <$> w_tasks w) <= amount c (k_what <$> w_tasks w)) by lia.
  induction (w_tasks w) as [|k ks IH]; [done|]. cbn [fmap list_fmap] in *. rewrite zsum_cons, amount_cons.
  apply Forall_cons in Ht as [Hk Ht], Ho as [Hok Ho]. specialize (IH Ht Ho).
  unfold recording_ok in Hok. rewrite Hk, Forall_app in Hok. rewrite (added_perm c _ _ Hk), added_app.
  pose proof (added_nonneg c _ (proj1 Hok)). pose proof (added_nonneg c _ (proj2 Hok)). lia.
Qed.

(** What a scrape loads of a counter that does not wrap. *)
Lemma seen_between c w w' rd : plain c -> world_inv w -> steps w w' -> sees w w' rd -> amount c (begun w') < 2 ^ 64 ->
  amount c (w_finished w) <= rd c <= amount c (begun w').
Proof.
  intros Hpl Hi Hs Hsee Hw. destruct (Hsee c) as (wi & H1 & H2 & ->).
  pose proof (steps_inv _ _ H1 Hi) as Hi1. pose proof (steps_inv _ _ H2 Hi1) as Hi2.
  destruct (steps_grow _ _ H1 Hi) as [[a Ha] _]. destruct (steps_grow _ _ H2 Hi1) as [_ [b Hb]].
  pose proof (performed_between c _ Hi1) as Hp. pose proof (wi_ok _ Hi2) as Hok. rewrite Hb, Forall_app in Hok. destruct Hok as [Hokb Hok1].
  pose proof (amount_nonneg c _ Hokb). pose proof (amount_nonneg c _ Hok1) as Hn1.
  unfold begun in Hok1. rewrite Ha, !Forall_app in Hok1. destruct Hok1 as [[Hoka Hok0] _].
  pose proof (amount_nonneg c _ Hoka). pose proof (amount_nonneg c _ Hok0).
  rewrite Ha, amount_app in Hp. rewrite Hb, amount_app in *.
  rewrite (wi_counted _ Hi1) by done. rewrite wrapping_small by (unfold is_uint; lia). lia.
Qed.

(** ** Histograms *)

Lemma partition_point_spec les d i le : StronglySorted Z.lt les -> les !! i = Some le -> (partition_point les d <= i)%nat <-> d <= le.
Proof.
  intros Hs. revert i. induction Hs as [|le0 les Hs IH Hall]; intros i Hi; [done|]. cbn.
  destruct (le0 <? d) eqn:E; [apply Z.ltb_lt in E|apply Z.ltb_ge in E]; destruct i as [|i]; cbn in Hi; simplify_eq.
  - lia.
  - rewrite <- (IH i Hi). lia.
  - lia.
  - rewrite Forall_forall in Hall. assert (le0 < le) by (apply Hall; by eapply list_elem_of_lookup_2). lia.
Qed.

Lemma bounds_sorted : StronglySorted Z.lt DURATION_BUCKET_LE_MS.
Proof. unfold DURATION_BUCKET_LE_MS. repeat constructor; lia. Qed.

Inductive Histogram := HRequest | HPhase (h : L4Phase).

(** What a recording puts into a histogram, and where. *)
Definition observed (h : Histogram) (r : Recording) : option Z :=
  match h, r with
  | HRequest, RRequest _ ms => Some ms
  | HPhase L4Open, ROpen ms _ _ => Some ms
  | HPhase L4Route, ROpen _ ms _ => Some ms
  | HPhase L4Backend, ROpen _ _ ms => Some ms
  | _, _ => None
  end.

Definition bucket_counter (h : Histogram) : nat -> Counter := match h with HRequest => RequestBucket | HPhase h => HistBucket h end.

Definition hist_name (h : Histogram) : bytes :=
  match h with
  | HRequest => lit "nexapipe_request_duration_ms"
  | HPhase L4Open => lit "nexapipe_l4_open_duration_ms"
  | HPhase L4Route => lit "nexapipe_l4_route_duration_ms"
  | HPhase L4Backend => lit "nexapipe_l4_backend_duration_ms"
  end.

(** How many recordings a histogram has, and how many took at most [le]. *)
Definition recorded (h : Histogram) (rs : list Recording) : Z := len (omap (observed h) rs).
Definition within (h : Histogram) (le : Z) (rs : list Recording) : Z := len (filter (fun d => d <= le) (omap (observed h) rs)).

Lemma added_bucket_of c d b : added c (bucket_of d b) =
  if decide (b (partition_point DURATION_BUCKET_LE_MS d) = c /\ (partition_point DURATION_BUCKET_LE_MS d < length DURATION_BUCKET_LE_MS)%nat) then 1 else 0.
Proof.
  unfold bucket_of. destruct (_ <? _)%nat eqn:E; [apply Nat.ltb_lt in E|apply Nat.ltb_ge in E].
  - rewrite added_cons. cbn [fst snd]. unfold added. cbn [fmap list_fmap zsum foldr]. repeat case_decide; naive_solver lia.
  - case_decide; [lia|done].
Qed.

Lemma added_hist_record c h d : added c (hist_record h d) =
  (if decide (HistCount h = c) then 1 else 0) + (if decide (HistSum h = c) then d else 0) + added c (bucket_of d (HistBucket h)).
Proof. unfold hist_record. rewrite !added_cons. cbn [fst snd]. lia. Qed.

Ltac spell_added := spell_ops; rewrite ?added_app, ?added_hist_record, ?added_cons, ?added_bucket_of; cbn [fst snd].

Lemma bucket_added h i r : added (bucket_counter h i) (recording_ops r) =
  match observed h r with
  | Some d => if decide (partition_point DURATION_BUCKET_LE_MS d = i /\ (i < length DURATION_BUCKET_LE_MS)%nat) then 1 else 0
  | None => 0
  end.
Proof.
  destruct r as [|st ms|p st|o r b|[] n|n|n]; spell_added.
  all: destruct h as [|[]]; cbn [bucket_counter observed]; repeat (case_decide; destruct_and?; simplify_eq); try lia; tauto.
Qed.

Lemma zsum_indicator p n : zsum ((fun j => if decide (p = j) then 1 else 0) <$> seq 0 n) = if decide (p < n)%nat then 1 else 0.
Proof.
  induction n as [|n IH]; [done|]. rewrite seq_S, fmap_app, zsum_app, IH. cbn. repeat case_decide; lia.
Qed.

Lemma zsum_fmap_add {A} (f g : A -> Z) l : zsum ((fun x => f x + g x) <$> l) = zsum (f <$> l) + zsum (g <$> l).
Proof. induction l as [|x l IH]; [done|]. cbn [fmap list_fmap]. rewrite !zsum_cons, IH. lia. Qed.

Lemma zsum_fmap_le {A} (f g : A -> Z) l : (forall x, x ∈ l -> f x <= g x) -> zsum (f <$> l) <= zsum (g <$> l).
Proof.
  induction l as [|x l IH]; intros H; [done|]. cbn [fmap list_fmap]. rewrite !zsum_cons.
  pose proof (H x ltac:(set_solver)). specialize (IH ltac:(set_solver)). lia.
Qed.

Lemma zsum_fmap_zero {A} (l : list A) : zsum ((fun _ => 0) <$> l) = 0.
Proof. induction l as [|x l IH]; [done|]. cbn [fmap list_fmap]. by rewrite zsum_cons, IH. Qed.

(** The buckets up to a bound hold what took no longer than it. *)
Lemma buckets_within h rs i le : DURATION_BUCKET_LE_MS !! i = Some le ->
  zsum ((fun j => amount (bucket_counter h j) rs) <$> seq 0 (S i)) = within h le rs.
Proof.
  intros Hle. pose proof (lookup_lt_Some _ _ _ Hle) as Hi.
  induction rs as [|r rs IH]; [unfold amount; apply zsum_fmap_zero|].
  rewrite (list_fmap_ext _ (fun j => added (bucket_counter h j) (recording_ops r) + amount (bucket_counter h j) rs)) by done.
  rewrite zsum_fmap_add, IH. unfold within. cbn [omap list_omap].
  rewrite (list_fmap_ext _ (fun j => match observed h r with Some d => if decide (partition_point DURATION_BUCKET_LE_MS d = j) then 1 else 0 | None => 0 end)).
  2: { intros k j [-> Hk]%lookup_seq. rewrite bucket_added. case_match; [|done]. repeat case_decide; try done; lia. }
  destruct (observed h r) as [d|]; [|by rewrite zsum_fmap_zero].
  rewrite zsum_indicator, filter_cons. pose proof (partition_point_spec _ d i le bounds_sorted Hle).
  repeat case_decide; unfold len; cbn [length]; lia.
Qed.

Lemma within_recorded h le rs : within h le rs <= recorded h rs.
Proof. unfold within, recorded, len. pose proof (length_filter (fun d => d <= le) (omap (observed h) rs)). lia. Qed.

Lemma recorded_length h rs : recorded h rs <= len rs.
Proof.
  unfold recorded, len. induction rs as [|r rs IH]; [done|]. cbn [omap list_omap length]. case_match; cbn [length]; lia.
Qed.

(** The counter, or the counters, a histogram's count is read from. *)
Definition count_counters (h : Histogram) : list Counter :=
  match h with HRequest => Requests <$> seq 0 (length CLASS_LABELS) | HPhase h => [HistCount h] end.

Lemma status_class_lt status : (status_class status < length CLASS_LABELS)%nat.
Proof. unfold status_class. repeat case_match; cbn; lia. Qed.

Lemma count_added h r : zsum ((fun c => added c (recording_ops r)) <$> count_counters h) = if is_some (observed h r) then 1 else 0.
Proof.
  destruct h as [|h]; cbn [count_counters].
  - rewrite <- list_fmap_compose. unfold compose.
    rewrite (list_fmap_ext _ (fun j => match observed HRequest r with Some _ => if decide (match r with RRequest st _ => status_class st | _ => 0%nat end = j) then 1 else 0 | None => 0 end)).
    + destruct r as [|st ms| | | | |]; cbn [observed is_some]; rewrite ?zsum_fmap_zero; try done.
      rewrite zsum_indicator. by rewrite decide_True by apply status_class_lt.
    + intros _ j _. destruct r as [|st ms|p st|o r b|[] n|n|n]; spell_added; cbn [observed].
      all: repeat (case_decide; destruct_and?; simplify_eq); try done; try lia.
  - cbn. rewrite Z.add_0_r. destruct r as [|st ms|p st|o r b|[] n|n|n]; spell_added.
    all: destruct h; cbn [observed is_some]; repeat (case_decide; destruct_and?; simplify_eq); try done; try lia.
Qed.

Lemma counts_recorded h rs : zsum ((fun c => amount c rs) <$> count_counters h) = recorded h rs.
Proof.
  induction rs as [|r rs IH]; [unfold amount; apply zsum_fmap_zero|].
  rewrite (list_fmap_ext _ (fun c => added c (recording_ops r) + amount c rs)) by done.
  rewrite zsum_fmap_add, IH, count_added. unfold recorded. cbn [omap list_omap].
  destruct (observed h r); unfold len; cbn; lia.
Qed.

Lemma last_cons {A} (a d : A) l : List.last (a :: l) d = List.last l a.
Proof.
  revert a d. induction l as [|b l IH]; intros a d; [done|]. change (List.last (a :: b :: l) d) with (List.last (b :: l) d). by rewrite !IH.
Qed.

Lemma sorted_snoc l x d : Sorted Z.le l -> List.last l d <= x -> Sorted Z.le (l ++ [x]).
Proof.
  intros Hs. revert d. induction Hs as [|a l Hs IH Ha]; intros d Hd; [by repeat constructor|]. rewrite last_cons in Hd.
  constructor; [by apply (IH a)|]. destruct Ha; constructor; [done|]. done.
Qed.

(** The sums do not wrap while the whole does not. *)
Lemma cumulate_spec acc l : Forall (fun b => 0 <= b) l -> 0 <= acc -> acc + zsum l < 2 ^ 64 ->
  (forall i, (i < length l)%nat -> cumulate acc l !! i = Some (acc + zsum (take (S i) l))) /\
  Sorted Z.le (acc :: cumulate acc l) /\ length (cumulate acc l) = length l /\ List.last (cumulate acc l) acc = acc + zsum l.
Proof.
  revert acc. induction l as [|b l IH]; intros acc Hl Hacc Hw; cbn [cumulate].
  { split_and!; [cbn; lia|by repeat constructor|done|cbn; lia]. }
  apply Forall_cons in Hl as [Hb Hl]. rewrite zsum_cons in Hw. pose proof (zsum_nonneg l Hl).
  rewrite wrapping_small by (unfold is_uint; lia).
  destruct (IH (acc + b) Hl ltac:(lia) ltac:(lia)) as (H1 & H2 & H3 & H4). split_and!.
  - intros [|i] Hi; cbn [lookup list_lookup take]; rewrite zsum_cons; [rewrite take_0; f_equal; unfold zsum; cbn [foldr]; lia|].
    rewrite H1 by (cbn in Hi; lia). f_equal. lia.
  - constructor; [done|]. constructor. lia.
  - cbn. by rewrite H3.
  - rewrite last_cons, zsum_cons, H4. lia.
Qed.

Lemma wrapping_sum_spec l : Forall (fun b => 0 <= b) l -> zsum l < 2 ^ 64 -> wrapping_sum l = zsum l.
Proof.
  intros Hl. unfold wrapping_sum. enough (forall acc, 0 <= acc -> acc + zsum l < 2 ^ 64 -> foldl (fun acc n => wrapping 64 (acc + n)) acc l = acc + zsum l) as H by (intros; rewrite H; lia).
  induction Hl as [|b l Hb Hl IH]; intros acc Hacc Hw; [cbn; lia|]. cbn [foldl]. rewrite zsum_cons in *. pose proof (zsum_nonneg l Hl).
  rewrite wrapping_small by (unfold is_uint; lia). rewrite IH by lia. lia.
Qed.

Definition values (name : bytes) (lines : list Line) : list Z :=
  omap (fun l => match l with Series n _ v => if decide (n = name) then Some v else None | _ => None end) lines.

(** The count a histogram is rendered with. *)
Definition count_load (h : Histogram) (early late : Metrics) : Z :=
  match h with HRequest => requests_total late | HPhase h => early (HistCount h) end.

Lemma render_values h early late uptime version view :
  let cumulative := cumulate 0 (bucket_loads (fun i => early (bucket_counter h i))) in
  let count := Z.max (count_load h early late) (List.last cumulative 0) in
  values (hist_name h ++ lit "_bucket") (render early late uptime version view) = cumulative ++ [count] /\
  values (hist_name h ++ lit "_count") (render early late uptime version view) = [count].
Proof. destruct h as [|[]]; split; reflexivity. Qed.

Section scrape.
Context (w w' : World) (early late : Metrics).
Hypothesis Hruns : runs w.
Hypothesis Hsteps : steps w w'.
Hypothesis Hearly : sees w w' early.
Hypothesis Hlate : sees w w' late.
Hypothesis Hfew : len (begun w') < 2 ^ 64.

(** The loads of several counters together, and no single one wraps. *)
Lemma seen_sum cs rd most : Forall plain cs -> sees w w' rd -> zsum ((fun c => amount c (begun w')) <$> cs) <= most -> most < 2 ^ 64 ->
  zsum ((fun c => amount c (w_finished w)) <$> cs) <= zsum (rd <$> cs) <= zsum ((fun c => amount c (begun w')) <$> cs) /\
  Forall (fun n => 0 <= n) (rd <$> cs).
Proof using Hruns Hsteps.
  intros Hpl Hsee Hmost Hw. pose proof (world_runs_inv _ Hruns) as Hi. pose proof (steps_inv _ _ Hsteps Hi) as Hi'.
  induction Hpl as [|c cs Hc Hpl IH]; [by repeat constructor|]. cbn [fmap list_fmap] in *. rewrite !zsum_cons in *.
  pose proof (amount_nonneg c _ (wi_ok _ Hi')).
  assert (0 <= zsum ((fun c => amount c (begun w')) <$> cs)).
  { apply zsum_nonneg, Forall_fmap, Forall_true. intros x. apply amount_nonneg, (wi_ok _ Hi'). }
  destruct (IH ltac:(lia)) as [IH1 IH2]. pose proof (seen_between c w w' rd Hc Hi Hsteps Hsee ltac:(lia)) as Hb.
  assert (0 <= amount c (w_finished w)) by (apply amount_nonneg; pose proof (wi_ok _ Hi) as Hok; unfold begun in Hok; by apply Forall_app in Hok as [? _]).
  split; [lia|]. constructor; [lia|done].
Qed.

Lemma count_between h : recorded h (w_finished w) <= count_load h early late <= recorded h (begun w').
Proof using All.
  pose proof (recorded_length h (begun w')).
  assert (Forall plain (count_counters h)) as Hpl by (destruct h; repeat constructor).
  assert (exists rd, sees w w' rd /\ count_load h early late = wrapping_sum (rd <$> count_counters h)) as (rd & Hsee & ->).
  { destruct h as [|p]; [exists late|exists early]; (split; [done|]).
    - unfold requests_total. cbn [count_load count_counters]. by rewrite <- list_fmap_compose.
    - cbn. destruct (Hearly (HistCount p)) as (wi & H1 & _ & ->). pose proof (steps_inv _ _ H1 (world_runs_inv _ Hruns)) as Hi.
      rewrite (wi_counted _ Hi) by done. rewrite Z.add_0_l. unfold wrapping. by rewrite Z.mod_mod. }
  destruct (seen_sum _ rd (recorded h (begun w')) Hpl Hsee ltac:(by rewrite counts_recorded) ltac:(lia)) as [H1 H2].
  rewrite !counts_recorded in H1. rewrite wrapping_sum_spec by (done || lia). done.
Qed.

Lemma buckets_seen h i le : DURATION_BUCKET_LE_MS !! i = Some le ->
  within h le (w_finished w) <= zsum (take (S i) (bucket_loads (fun j => early (bucket_counter h j)))) <= within h le (begun w').
Proof using Hruns Hsteps Hearly Hfew.
  intros Hle. pose proof (lookup_lt_Some _ _ _ Hle) as Hi. unfold bucket_loads. rewrite <- fmap_take, take_seq, Nat.min_l by lia.
  pose proof (within_recorded h le (begun w')). pose proof (recorded_length h (begun w')).
  assert (Forall plain (bucket_counter h <$> seq 0 (S i))) as Hpl by (apply Forall_fmap, Forall_true; by destruct h).
  destruct (seen_sum _ early (within h le (begun w')) Hpl Hearly) as [H1 _]; rewrite <- ?list_fmap_compose in *; unfold compose in *.
  - by rewrite (buckets_within _ _ _ _ Hle).
  - lia.
  - by rewrite !(buckets_within _ _ _ _ Hle) in H1.
Qed.

Lemma bucket_loads_ok h : Forall (fun n => 0 <= n) (bucket_loads (fun j => early (bucket_counter h j))) /\
  zsum (bucket_loads (fun j => early (bucket_counter h j))) <= within h 10000 (begun w').
Proof using Hruns Hsteps Hearly Hfew.
  pose proof (buckets_seen h 11 10000 eq_refl) as H. rewrite take_ge in H by done. split; [|lia].
  apply Forall_fmap, Forall_true. intros j. cbn. destruct (Hearly (bucket_counter h j)) as (wi & H1 & _ & ->).
  pose proof (steps_inv _ _ H1 (world_runs_inv _ Hruns)) as Hi. rewrite (wi_counted _ Hi) by (by destruct h). apply wrapping_range. lia.
Qed.

End scrape.

(** C32: a scrape that runs while requests and flows are being recorded reports, for every
    histogram and every bound, at least what had been recorded when it began and at most
    what had been started when it ended; the series never descends, and the count is the
    widest of them. *)
Theorem scrape_histograms h w w' early late uptime version view :
  runs w -> steps w w' -> sees w w' early -> sees w w' late -> len (begun w') < 2 ^ 64 ->
  exists series count,
    values (hist_name h ++ lit "_bucket") (render early late uptime version view) = series ++ [count] /\
    values (hist_name h ++ lit "_count") (render early late uptime version view) = [count] /\
    Sorted Z.le (series ++ [count]) /\
    (forall i le, DURATION_BUCKET_LE_MS !! i = Some le ->
      exists n, series !! i = Some n /\ within h le (w_finished w) <= n <= within h le (begun w')) /\
    recorded h (w_finished w) <= count <= recorded h (begun w').
Proof.
  intros Hr Hs He Hl Hw. destruct (render_values h early late uptime version view) as [Hb Hc].
  pose proof (count_between w w' early late Hr Hs He Hl Hw h) as Hcount. destruct (bucket_loads_ok w w' early Hr Hs He Hw h) as [Hn Hz].
  pose proof (within_recorded h 10000 (begun w')). pose proof (recorded_length h (begun w')).
  destruct (cumulate_spec 0 _ Hn ltac:(lia) ltac:(lia)) as (H1 & H2 & H3 & H4).
  eexists _, _. split_and!; [apply Hb|apply Hc| | |lia..].
  - apply Sorted_inv in H2 as [H2 _]. apply (sorted_snoc _ _ 0); [done|]. lia.
  - intros i le Hle. pose proof (lookup_lt_Some _ _ _ Hle). eexists. split; [apply H1; done|].
    rewrite Z.add_0_l. by apply buckets_seen.
Qed.

(** ** At rest *)

Definition bytes_of (leg : CopyLeg) (r : Recording) : Z :=
  match leg, r with
  | LegBackend, (RSent n | RTunnel LegBackend n) | LegClient, (RReceived n | RTunnel LegClient n) => n
  | _, _ => 0
  end.
Definition answered (class : nat) (r : Recording) : Prop := match r with RRequest st _ => status_class st = class | _ => False end.
#[export] Instance answered_dec class r : Decision (answered class r).
Proof. destruct r; cbn; apply _. Defined.

Lemma amount_by c rs (f : Recording -> Z) : (forall r, added c (recording_ops r) = f r) -> amount c rs = zsum (f <$> rs).
Proof. intros H. unfold amount. f_equal. by apply list_fmap_ext. Qed.

Lemma zsum_count {A} (P : A -> Prop) `{!forall x, Decision (P x)} l : zsum ((fun x => if decide (P x) then 1 else 0) <$> l) = len (filter P l).
Proof.
  induction l as [|x l IH]; [done|]. cbn [fmap list_fmap]. rewrite zsum_cons, IH, filter_cons. case_decide; unfold len; cbn [length]; lia.
Qed.

Lemma bytes_added leg r : added (match leg with LegBackend => BytesSent | LegClient => BytesReceived end) (recording_ops r) = bytes_of leg r.
Proof. destruct leg, r as [|st ms|p st|o r b|[] n|n|n]; spell_added; cbn; repeat (case_decide; destruct_and?; simplify_eq); lia. Qed.

Lemma answered_added class r : added (Requests class) (recording_ops r) = if decide (answered class r) then 1 else 0.
Proof.
  destruct r as [|st ms|p st|o r b|[] n|n|n]; spell_added; cbn [answered].
  all: repeat (case_decide; destruct_and?; simplify_eq); try lia; try done.
Qed.

Lemma at_rest w c : runs w -> w_tasks w = [] -> plain c -> w_metrics w c = wrapping 64 (amount c (w_finished w)).
Proof. intros Hr Ht Hc. rewrite (wi_counted _ (world_runs_inv _ Hr)) by done. unfold performed. rewrite Ht. cbn. by rewrite Z.add_0_r. Qed.

Lemma tickets_split ts :
  tickets_at PathDirect ts + tickets_at PathRelay ts + tickets_at PathUnknown ts <= len ts /\
  ((forall to, TicketMoving to ∉ ts) -> tickets_at PathDirect ts + tickets_at PathRelay ts + tickets_at PathUnknown ts = len ts).
Proof.
  induction ts as [|t ts [IH1 IH2]]; [done|]. rewrite !tickets_at_cons. unfold len in *. cbn [length].
  split; [destruct t as [[]|]; repeat case_decide; simplify_eq; lia|].
  intros Hm. specialize (IH2 ltac:(set_solver)). destruct t as [[]|to]; [..|exfalso; apply (Hm to); set_solver]; repeat case_decide; simplify_eq; lia.
Qed.

Lemma tickets_nonneg kind ts : 0 <= tickets_at kind ts.
Proof. unfold tickets_at, len. lia. Qed.

(** when no recording is under way the numbers of the management surface are those of what
    was recorded, and each path holds the connections whose ticket says so; with no ticket
    between two paths these are all of them. *)
Theorem snapshot_exact w : runs w -> w_tasks w = [] -> len (w_finished w) < 2 ^ 64 -> len (w_tickets w) < 2 ^ 64 ->
  let sn := snapshot (w_metrics w) (w_metrics w) in
  (forall class label n, sn_requests_by_class sn !! class = Some (label, n) ->
    CLASS_LABELS !! class = Some label /\ n = len (filter (answered class) (w_finished w))) /\
  sn_bytes_sent sn = wrapping 64 (zsum (bytes_of LegBackend <$> w_finished w)) /\
  sn_bytes_received sn = wrapping 64 (zsum (bytes_of LegClient <$> w_finished w)) /\
  sn_direct sn = tickets_at PathDirect (w_tickets w) /\ sn_relayed sn = tickets_at PathRelay (w_tickets w) /\
  sn_unknown sn = tickets_at PathUnknown (w_tickets w) /\
  sn_connections_active sn = sn_direct sn + sn_relayed sn + sn_unknown sn /\
  sn_connections_active sn <= len (w_tickets w) /\
  ((forall to, TicketMoving to ∉ w_tickets w) -> sn_connections_active sn = len (w_tickets w)).
Proof.
  intros Hr Ht Hf Htk. cbn [sn_requests_by_class sn_bytes_sent sn_bytes_received sn_direct sn_relayed sn_unknown sn_connections_active snapshot].
  assert (forall k, w_metrics w (Path k) = tickets_at k (w_tickets w)) as Hp.
  { intros k. rewrite (wi_paths _ (world_runs_inv _ Hr)). apply wrapping_small. unfold is_uint. pose proof (tickets_nonneg k (w_tickets w)).
    assert (tickets_at k (w_tickets w) <= len (w_tickets w)) by (unfold tickets_at, len; pose proof (length_filter (fun t => t = TicketAt k) (w_tickets w)); lia). lia. }
  destruct (tickets_split (w_tickets w)) as [Hle Hall].
  assert (connections_active (w_metrics w) = w_metrics w (Path PathDirect) + w_metrics w (Path PathRelay) + w_metrics w (Path PathUnknown)) as Hact.
  { unfold connections_active. rewrite wrapping_sum_spec; rewrite !Hp; unfold zsum; cbn [foldr]; [lia|..|lia].
    repeat constructor; apply tickets_nonneg. }
  rewrite Hact, !Hp. split_and!; try done.
  - intros class label n (label' & Hl & Heq)%list_lookup_imap_Some. simplify_eq. split; [done|].
    rewrite (at_rest w) by done. rewrite (amount_by _ _ _ (answered_added class)), zsum_count. apply wrapping_small.
    unfold is_uint, len in *. pose proof (length_filter (answered class) (w_finished w)). lia.
  - rewrite (at_rest w) by done. by rewrite (amount_by BytesSent _ _ (bytes_added LegBackend)).
  - rewrite (at_rest w) by done. by rewrite (amount_by BytesReceived _ _ (bytes_added LegClient)).
Qed.

(** ** The text *)

Definition series_keys (lines : list Line) : list (bytes * list (bytes * bytes)) :=
  omap (fun l => match l with Series n ls _ => Some (n, ls) | _ => None end) lines.

(** The metric a series belongs to, given the types that were announced. *)
Definition belongs (name : bytes) (announced : bytes * bytes) : bool :=
  let '(family, kind) := announced in
  if bool_decide (kind = lit "histogram") then bool_decide (name ∈ [family ++ lit "_bucket"; family ++ lit "_sum"; family ++ lit "_count"])
  else bool_decide (name = family).

Fixpoint typed (announced : list (bytes * bytes)) (lines : list Line) : bool :=
  match lines with
  | [] => true
  | HELP _ _ :: lines => typed announced lines
  | TYPE family kind :: lines => typed ((family, kind) :: announced) lines
  | Series name _ _ :: lines => existsb (belongs name) announced && typed announced lines
  end.

Lemma typed_before announced lines before name labels value after : typed announced lines = true ->
  lines = before ++ Series name labels value :: after ->
  exists family kind, belongs name (family, kind) = true /\ ((family, kind) ∈ announced \/ TYPE family kind ∈ before).
Proof.
  intros Ht ->. revert announced Ht. induction before as [|l before IH]; intros announced; cbn.
  { intros [Hex _]%andb_prop. apply existsb_exists in Hex as ([family kind] & Hin & Hb). exists family, kind. split; [done|]. left. by apply list_elem_of_In. }
  destruct l as [n t|family kind|n ls v].
  - intros Ht. destruct (IH _ Ht) as (f & k & Hb & [?|?]); exists f, k; set_solver.
  - intros Ht. destruct (IH _ Ht) as (f & k & Hb & [Hin|?]); exists f, k; [|set_solver].
    apply elem_of_cons in Hin as [[= -> ->]|?]; set_solver.
  - intros [_ Ht]%andb_prop. destruct (IH _ Ht) as (f & k & Hb & [?|?]); exists f, k; set_solver.
Qed.

Lemma series_distinct early late uptime version view : bool_decide (NoDup (series_keys (render early late uptime version view))) = true.
Proof. vm_compute. reflexivity. Qed.

Lemma series_typed early late uptime version view : typed [] (render early late uptime version view) = true.
Proof. vm_compute. reflexivity. Qed.

(** the exposition names every series once, and each after the type of the metric it
    belongs to, whatever the numbers are. *)
Theorem exposition_wellformed early late uptime version view :
  NoDup (series_keys (render early late uptime version view)) /\
  forall before name labels value after, render early late uptime version view = before ++ Series name labels value :: after ->
    exists family kind, TYPE family kind ∈ before /\ belongs name (family, kind) = true.
Proof.
  split; [by eapply bool_decide_eq_true_1, series_distinct|].
  intros before name labels value after Heq.
  destruct (typed_before _ _ _ _ _ _ _ (series_typed early late uptime version view) Heq) as (f & k & Hb & [Hin|Hin]); [by apply elem_of_nil in Hin|]. by exists f, k.
Qed.

(** ** An instance *)

Definition slow_request : Recording := RRequest 200 7.
Definition world_begun : World :=
  {| w_metrics := metrics_new; w_finished := []; w_tasks := [{| k_what := slow_request; k_done := []; k_left := recording_ops slow_request |}]; w_tickets := [] |}.
Definition world_counted : World :=
  {| w_metrics := fetch_add (Requests 1) 1 metrics_new; w_finished := [];
     w_tasks := [{| k_what := slow_request; k_done := [(Requests 1, 1)]; k_left := [(RequestDurationMs, 7); (RequestBucket 2, 1)] |}]; w_tickets := [] |}.

Lemma world_begun_runs : runs world_begun.
Proof.
  eapply rtc_l; [|apply rtc_refl]. apply (S_begin slow_request world_new). apply recording_ok_amounts. cbn. unfold is_uint. lia.
Qed.

Lemma world_counts : steps world_begun world_counted.
Proof.
  eapply rtc_l; [|apply rtc_refl].
  apply (S_add metrics_new [] [] slow_request [] [] (Requests 1) 1 [(RequestDurationMs, 7); (RequestBucket 2, 1)] [] []).
Qed.

(** A scrape that sees the request counted in the one load and not in the other. *)
Lemma scrape_histograms_witness :
  Sorted Z.le (values (hist_name HRequest ++ lit "_bucket")
    (render (w_metrics world_counted) (w_metrics world_begun) 0 [] {| in_flight := 0; backends_up := 0; backends_down := 0 |})).
Proof.
  destruct (scrape_histograms HRequest world_begun world_counted (w_metrics world_counted) (w_metrics world_begun) 0 []
    {| in_flight := 0; backends_up := 0; backends_down := 0 |}) as (series & count & Hb & _ & Hs & _).
  - exact world_begun_runs.
  - exact world_counts.
  - intros c. exists world_counted. split_and!; [exact world_counts|apply rtc_refl|reflexivity].
  - intros c. exists world_begun. split_and!; [apply rtc_refl|exact world_counts|reflexivity].
  - vm_compute. reflexivity.
  - rewrite Hb. exact Hs.
Defined.
