(* ===== verification/Admin.v ===== *)
(** * The management listener (nexapipe/src/admin/, and the request of nexapipe/src/status.rs)

    A second listener answers questions about the process: whether it lives, its metrics,
    and under [/v1/] the routes, the clients, the connections and the backends, which needs
    a token.  The token is made on the first start and kept in a file beside the
    configuration.  What the handler reads is an argument: the live tables, and a [Moment]
    with the clock, the loads of the counters and the order in which the clients are
    iterated.  A JSON value is a tree; its text is serde's, a parameter, as is the check
    that a header value is text.

    The file shows that nothing under [/v1/] is answered without the token and that the
    refusals say nothing about what exists, that the answers do not depend on a secret, that
    the token is kept over restarts, and what the backend counts are. *)

From Stdlib Require Import Sorted.
From stdpp Require Import sorting.
From S2P Require Import Prelude RustStd AuthConfig Authenticator Lb Routes Peers Identity Metrics.

(** ** The token (token.rs) *)

Definition TOKEN_FILE_SUFFIX : bytes := lit ".admin-token".
Definition token_file_path (config_path : bytes) : bytes := config_path ++ TOKEN_FILE_SUFFIX.

Inductive TokenError := TE_permissions | TE_unreadable | TE_empty | TE_write.

(** [token::load]; the error for a file that is not there is that of the permission check,
    which fails to read its metadata. *)
Definition load (fs : Files) (path : bytes) : result bytes TokenError :=
  match fs !! path with
  | None => Err TE_permissions
  | Some f =>
      match check_credential_file_permissions f with
      | Err _ => Err TE_permissions
      | Ok _ =>
          match s_text f with
          | None => Err TE_unreadable
          | Some raw => if bool_decide (trim raw = []) then Err TE_empty else Ok (trim raw)
          end
      end
  end.

(** What the file system makes of a new file: it is not created, its writing fails after
    some bytes, or it is written; [mode] is what the file has after [set_permissions]. *)
Inductive Creation := NotCreated | CutAt (n : nat) | Written (mode : Z).

(** [write_token]: [create_new], the write, and the check of the mode. *)
Definition write_token (outcome : Creation) (path token : bytes) (fs : Files) : result unit TokenError * Files :=
  match fs !! path with
  | Some _ => (Err TE_write, fs)
  | None =>
      match outcome with
      | NotCreated => (Err TE_write, fs)
      | CutAt n => (Err TE_write, <[path := {| s_mode := 384; s_text := Some (take n token) |}]> fs)
      | Written mode =>
          let f := {| s_mode := mode; s_text := Some token |} in
          (match check_credential_file_permissions f with Ok _ => Ok tt | Err _ => Err TE_permissions end, <[path := f]> fs)
      end
  end.

(** [FileStorage::admin_token] and [put_admin_token] *)
Definition admin_token (fs : Files) (config_path : bytes) : result (option bytes) TokenError :=
  match fs !! token_file_path config_path with
  | None => Ok None
  | Some _ => match load fs (token_file_path config_path) with Ok token => Ok (Some token) | Err e => Err e end
  end.
Definition put_admin_token (outcome : Creation) (config_path token : bytes) (fs : Files) : result unit TokenError * Files :=
  write_token outcome (token_file_path config_path) token fs.

(** [load_or_create_from] a file store, with the token that would be generated. *)
Definition load_or_create_from (outcome : Creation) (generated config_path : bytes) (fs : Files) : option bytes * Files :=
  match admin_token fs config_path with
  | Err _ => (None, fs)
  | Ok (Some token) => (Some token, fs)
  | Ok None =>
      match put_admin_token outcome config_path generated fs with
      | (Ok _, fs) => (Some generated, fs)
      | (Err _, fs) => (None, fs)
      end
  end.

Definition matches_token (provided expected : bytes) : bool := constant_time_eq provided expected.

Definition BEARER_PREFIX : bytes := lit "bearer ".

(** [str::get(..n)]: nothing when the text is shorter, or [n] is inside a character. *)
Definition str_get_to (n : nat) (s : bytes) : option bytes :=
  if (length s <? n)%nat then None
  else match s !! n with
  | Some b => if (128 <=? b) && (b <? 192) then None else Some (take n s)
  | None => Some (take n s)
  end.

Definition bearer_token (header : bytes) : option bytes :=
  let! rest := str_get_to (length BEARER_PREFIX) header in
  if negb (eq_ignore_ascii_case rest BEARER_PREFIX) then None
  else
    let token := trim (drop (length BEARER_PREFIX) header) in
    if bool_decide (token = []) then None else Some token.

(** ** JSON, as [serde_json::Value] *)

Inductive Json :=
| JNull | JBool (b : bool) | JNum (z : Z) | JStr (s : bytes) | JArr (l : list Json) | JObj (fields : list (bytes * Json)).

Definition jopt {A} (f : A -> Json) (o : option A) : Json := match o with Some a => f a | None => JNull end.

(** [value[name].as_str().unwrap_or_default()] *)
Definition field_str (name : bytes) (v : Json) : bytes :=
  match v with
  | JObj fields => match list_find (fun f => f.1 = name) fields with Some (_, (_, JStr s)) => s | _ => [] end
  | _ => []
  end.

(** [str::cmp] is that of the bytes. *)
Fixpoint str_le (a b : bytes) : bool :=
  match a, b with
  | [], _ => true
  | _ :: _, [] => false
  | x :: a, y :: b => (x <? y) || (x =? y) && str_le a b
  end.

(** [sort_by(|a, b| a[name].cmp(b[name]))], which is stable *)
Fixpoint insert_by_field (name : bytes) (v : Json) (l : list Json) : list Json :=
  match l with
  | [] => [v]
  | u :: rest => if str_le (field_str name v) (field_str name u) then v :: l else u :: insert_by_field name v rest
  end.
Definition sort_by_field (name : bytes) (l : list Json) : list Json := foldr (insert_by_field name) [] l.

(** ** What is read *)

Record AdminState := {
  ad_routes : list Route;
  ad_pools : Pools;
  ad_in_flight : Z;
  ad_peers : PeerRegistry;
  ad_auth : option AuthConfig;
  ad_metrics_enabled : bool;
  ad_token : option bytes;
}.

Record Moment := {
  mo_now : Z;
  mo_uptime : Z;
  mo_version : bytes;
  mo_early : Metrics;
  mo_late : Metrics;
  mo_order : list (bytes * ClientAuth);
}.

Definition statuses_of (pools : Pools) (r : Route) : list (bytes * bool) :=
  match pools !! r_pool r with Some p => get_backend_statuses p | None => [] end.

(** [backend_view], route by route *)
Definition view_status (acc : gset bytes * gset bytes) (status : bytes * bool) : gset bytes * gset bytes :=
  let '(up, down) := acc in
  let '(url, healthy) := status in
  if healthy then ({[url]} ∪ up, down) else (up ∖ {[url]}, {[url]} ∪ down).
Definition view_sets (routes : list Route) (pools : Pools) : gset bytes * gset bytes :=
  foldl (fun acc r => if negb (serves r ModeHttp) then acc else foldl view_status acc (statuses_of pools r)) (∅, ∅) routes.
Definition backend_view (s : AdminState) : InstanceView :=
  let '(up, down) := view_sets (ad_routes s) (ad_pools s) in
  {| in_flight := ad_in_flight s; backends_up := Z.of_nat (size up); backends_down := Z.of_nat (size down) |}.

Definition backend_json (status : bytes * bool) : Json := JObj [(lit "url", JStr status.1); (lit "healthy", JBool status.2)].

Definition routes_json (routes : list Route) (pools : Pools) : Json :=
  JObj [(lit "routes", JArr ((fun r => JObj [
    (lit "host_pattern", JStr (r_host_pattern r));
    (lit "path_pattern", JStr (r_path_pattern r));
    (lit "modes", JArr (JStr ∘ mode_name <$> r_modes r));
    (lit "priority", JNum (priority r));
    (lit "health_checked", JBool (serves r ModeHttp));
    (lit "backends", JArr (backend_json <$> statuses_of pools r))]) <$> routes))].

Definition client_json (entry : bytes * ClientAuth) : Json :=
  let '(id, c) := entry in
  JObj [(lit "id", JStr id);
        (lit "has_secret", JBool (negb (bool_decide (c_secret c = []))));
        (lit "created_at", JStr (c_created_at c));
        (lit "allow_hosts", jopt (fun l => JArr (JStr <$> l)) (c_allow_hosts c));
        (lit "allow_ports", jopt (fun l => JArr (JNum <$> l)) (c_allow_ports c));
        (lit "allow_ports_strict", JBool (c_allow_ports_strict c));
        (lit "last_used", jopt JNum (c_last_used c));
        (lit "failed_attempts", JNum (c_failed_attempts c));
        (lit "locked_until", jopt JNum (c_locked_until c));
        (lit "enrollment_failed_attempts", JNum (c_enrollment_failed_attempts c));
        (lit "enrollment_locked_until", jopt JNum (c_enrollment_locked_until c));
        (lit "enrollment_pending", JBool (is_some (c_pending_enrollment c)))].

(** The clients are iterated in the order of a hash map. *)
Definition clients_json (order : list (bytes * ClientAuth)) (auth : option AuthConfig) : Json :=
  match auth with
  | None => JObj [(lit "enabled", JBool false); (lit "clients", JArr [])]
  | Some config => JObj [(lit "enabled", JBool (a_enabled config)); (lit "clients", JArr (sort_by_field (lit "id") (client_json <$> order)))]
  end.

Definition path_label (k : PathKind) : bytes := match k with PathDirect => lit "direct" | PathRelay => lit "relayed" | PathUnknown => lit "unknown" end.

(** [show_id] is the text of an endpoint id, and [as_secs] cuts to seconds. *)
Definition connections_json (show_id : bytes -> bytes) (as_secs : Z -> Z) (now : Z) (peers : PeerRegistry) : Json :=
  JObj [(lit "peers", JArr (sort_by_field (lit "endpoint_id") ((fun p => JObj [
    (lit "endpoint_id", JStr (show_id (i_endpoint_id p)));
    (lit "client_id", jopt JStr (pi_client_id (i_identity p)));
    (lit "device", jopt JStr (pi_device (i_identity p)));
    (lit "connected_for_seconds", JNum (as_secs (i_connected_for p)));
    (lit "path", JStr (path_label (i_path p)))]) <$> snapshot_peers now peers)))].

(** [health_json]: the two sets over every route, and then what is down is not up. *)
Definition health_status (acc : gset bytes * gset bytes) (status : bytes * bool) : gset bytes * gset bytes :=
  let '(up, down) := acc in
  let '(url, healthy) := status in
  if healthy then ({[url]} ∪ up, down) else (up, {[url]} ∪ down).
Definition health_sets (routes : list Route) (pools : Pools) : gset bytes * gset bytes :=
  let '(up, down) := foldl (fun acc r => if negb (serves r ModeHttp) then acc else foldl health_status acc (statuses_of pools r)) (∅, ∅) routes in
  (up ∖ down, down).
Definition health_json (routes : list Route) (pools : Pools) : Json :=
  let '(up, down) := health_sets routes pools in
  JObj [(lit "backends_up", JNum (Z.of_nat (size up)));
        (lit "backends_down", JNum (Z.of_nat (size down)));
        (lit "routes", JArr (sort_by_field (lit "host_pattern")
          ((fun r => JObj [(lit "host_pattern", JStr (r_host_pattern r));
                           (lit "backends", JArr (sort_by_field (lit "url") (backend_json <$> statuses_of pools r)))])
            <$> filter (fun r => serves r ModeHttp = true) routes)))].

Definition auth_view (auth : option AuthConfig) : Json :=
  match auth with
  | Some config => JObj [(lit "enabled", JBool (a_enabled config)); (lit "clients", JNum (Z.of_nat (size (a_clients config))))]
  | None => JObj [(lit "enabled", JBool false); (lit "clients", JNum 0)]
  end.

Definition status_json (mo : Moment) (s : AdminState) : Json :=
  let counters := snapshot (mo_early mo) (mo_late mo) in
  let view := backend_view s in
  JObj [(lit "version", JStr (mo_version mo));
        (lit "uptime_seconds", JNum (mo_uptime mo));
        (lit "connections", JObj [
          (lit "total", JNum (sn_connections_total counters)); (lit "active", JNum (sn_connections_active counters));
          (lit "direct", JNum (sn_direct counters)); (lit "relayed", JNum (sn_relayed counters)); (lit "unknown", JNum (sn_unknown counters))]);
        (lit "requests", JArr ((fun e : bytes * Z => JObj [(lit "class", JStr e.1); (lit "count", JNum e.2)]) <$> sn_requests_by_class counters));
        (lit "request_duration_ms", JNum (sn_request_duration_ms counters));
        (lit "traffic", JObj [(lit "sent_bytes", JNum (sn_bytes_sent counters)); (lit "received_bytes", JNum (sn_bytes_received counters))]);
        (lit "l4_flows", JArr ((fun e : bytes * bytes * Z => JObj [(lit "proto", JStr e.1.1); (lit "class", JStr e.1.2); (lit "count", JNum e.2)]) <$> sn_l4_flows counters));
        (lit "backends", JObj [(lit "up", JNum (backends_up view)); (lit "down", JNum (backends_down view))]);
        (lit "in_flight", JNum (in_flight view));
        (lit "routes", JNum (len (ad_routes s)));
        (lit "peers", JNum (registry_len (ad_peers s)));
        (lit "auth", auth_view (ad_auth s))].

(** ** The handler *)

Record Response := { rs_status : Z; rs_headers : list (bytes * bytes); rs_body : bytes }.

Definition METRICS_CONTENT_TYPE : bytes := lit "text/plain; version=0.0.4; charset=utf-8".
Definition JSON_CONTENT_TYPE : bytes := lit "application/json".
Definition WWW_AUTHENTICATE : bytes := lit "Bearer realm=" ++ QUOTE ++ lit "nexapipe-admin" ++ QUOTE.

Definition respond (status : Z) (content_type body : bytes) : Response :=
  {| rs_status := status; rs_headers := [(lit "content-type", content_type)]; rs_body := body |}.
Definition text (status : Z) (body : bytes) : Response := respond status (lit "text/plain; charset=utf-8") body.
(** [HeaderMap::insert] replaces what has the name. *)
Definition with_header (r : Response) (name value : bytes) : Response :=
  {| rs_status := rs_status r; rs_headers := filter (fun h => h.1 <> name) (rs_headers r) ++ [(name, value)]; rs_body := rs_body r |}.

(** [IpAddr::is_loopback] *)
Definition is_loopback (is_ipv4 : bool) (ip : bytes) : bool :=
  if is_ipv4 then match ip with a :: _ => a =? 127 | [] => false end
  else bool_decide (ip = replicate 15 0 ++ [1]).
Definition may_bind_admin (is_ipv4 : bool) (ip : bytes) : bool := is_loopback is_ipv4 ip.

Record Request := { rq_get : bool; rq_path : bytes; rq_authorization : option bytes }.

Section handler.
Context (to_str : bytes -> option bytes) (to_text : Json -> bytes) (show_id : bytes -> bytes) (as_secs : Z -> Z).

Definition json (v : Json) : Response := respond 200 JSON_CONTENT_TYPE (to_text v).

(** Whether a request presented the token. *)
Definition presents (token : bytes) (authorization : option bytes) : bool :=
  match (let! value := authorization in let! header := to_str value in bearer_token header) with Some presented => matches_token presented token | None => false end.

Definition managed_response (authorization : option bytes) (path : bytes) (is_get : bool) (mo : Moment) (s : AdminState) : Response :=
  match ad_token s with
  | None => text 503 (lit "no admin token: /v1/* is unavailable")
  | Some token =>
      if negb (presents token authorization) then with_header (text 401 (lit "unauthorized")) (lit "www-authenticate") WWW_AUTHENTICATE
      else if negb is_get then text 405 (lit "GET only")
      else if bool_decide (path = lit "status") then json (status_json mo s)
      else if bool_decide (path = lit "routes") then json (routes_json (ad_routes s) (ad_pools s))
      else if bool_decide (path = lit "clients") then json (clients_json (mo_order mo) (ad_auth s))
      else if bool_decide (path = lit "connections") then json (connections_json show_id as_secs (mo_now mo) (ad_peers s))
      else if bool_decide (path = lit "health") then json (health_json (ad_routes s) (ad_pools s))
      else text 404 (lit "not found")
  end.

Definition handle (req : Request) (mo : Moment) (s : AdminState) : Response :=
  match strip_prefix (lit "/v1/") (rq_path req) with
  | Some managed => managed_response (rq_authorization req) managed (rq_get req) mo s
  | None =>
      if bool_decide (rq_path req = lit "/healthz") && rq_get req then text 200 (lit "ok")
      else if bool_decide (rq_path req = lit "/metrics") && (rq_get req && ad_metrics_enabled s) then
        respond 200 METRICS_CONTENT_TYPE (concat (show_line <$> render (mo_early mo) (mo_late mo) (mo_uptime mo) (mo_version mo) (backend_view s)))
      else text 404 (lit "not found")
  end.

(** [nexapipe status]: the request for one section. *)
Definition status_request (name token : bytes) : Request :=
  {| rq_get := true; rq_path := lit "/v1/" ++ name; rq_authorization := Some (lit "Bearer " ++ token) |}.

Definition managed (req : Request) : bool := is_some (strip_prefix (lit "/v1/") (rq_path req)).
Definition authorized (s : AdminState) (req : Request) : bool :=
  match ad_token s with Some token => presents token (rq_authorization req) | None => false end.

Definition SECTIONS : list bytes := [lit "status"; lit "routes"; lit "clients"; lit "connections"; lit "health"].

Lemma presents_spec token authorization : presents token authorization = true <->
  exists value header, authorization = Some value /\ to_str value = Some header /\ bearer_token header = Some token.
Proof using Type.
  unfold presents, matches_token. destruct authorization as [value|]; cbn; [|split; [done|by intros (? & ? & ? & ? & ?); simplify_eq]].
  destruct (to_str value) as [header|] eqn:Eh; cbn; [|split; [done|by intros (? & ? & ? & ? & ?); simplify_eq]].
  destruct (bearer_token header) as [presented|] eqn:Eb; [|split; [done|by intros (? & ? & ? & ? & ?); simplify_eq]].
  rewrite constant_time_eq_spec. split; [intros ->; by eauto|by intros (? & ? & ? & ? & ?); simplify_eq].
Qed.

Lemma section_path name : lit "/v1/" ++ name ∈ ((lit "/v1/" ++.) <$> SECTIONS) <-> name ∈ SECTIONS.
Proof.
  rewrite list_elem_of_fmap. split; [|by eauto]. intros (y & Hy & Hin). by apply app_inv_head in Hy as ->.
Qed.

(** nothing under [/v1/] is answered without the token: a request that does not present it
    gets an answer in which neither its path, nor its method, nor anything the process
    knows shows; one that does is answered with a section, or told what is wrong with it. *)
Theorem admin_gate req mo s : managed req = true ->
  (authorized s req = false ->
    (forall req' mo' s', managed req' = true -> authorized s' req' = false -> is_some (ad_token s') = is_some (ad_token s) ->
      handle req' mo' s' = handle req mo s) /\
    rs_status (handle req mo s) = (if is_some (ad_token s) then 401 else 503)) /\
  (authorized s req = true ->
    rs_status (handle req mo s) =
      if negb (rq_get req) then 405
      else if bool_decide (rq_path req ∈ ((lit "/v1/" ++.) <$> SECTIONS)) then 200 else 404) /\
  (authorized s req = true <-> exists token value header,
    ad_token s = Some token /\ rq_authorization req = Some value /\ to_str value = Some header /\ bearer_token header = Some token).
Proof.
  unfold managed, authorized, handle. destruct (strip_prefix (lit "/v1/") (rq_path req)) as [name|] eqn:Ep; [|done]. intros _.
  unfold managed_response. split_and!.
  - intros Hno. destruct (ad_token s) as [token|] eqn:Et.
    + rewrite Hno. split; [|done]. intros req' mo' s' Hm Hno' Ht. destruct (strip_prefix _ (rq_path req')); [|done].
      destruct (ad_token s') as [token'|]; [|done]. by rewrite Hno'.
    + split; [|done]. intros req' mo' s' Hm _ Ht. destruct (strip_prefix _ (rq_path req')); [|done]. by destruct (ad_token s').
  - intros Hyes. destruct (ad_token s) as [token|]; [|done]. rewrite Hyes. cbn [negb].
    apply strip_prefix_Some in Ep as ->. destruct (rq_get req); cbn [negb]; [|done].
    rewrite (bool_decide_ext _ _ (section_path name)).
    unfold SECTIONS. repeat case_bool_decide; try done; set_solver.
  - destruct (ad_token s) as [token|]; [|naive_solver]. rewrite presents_spec. naive_solver.
Qed.

End handler.

(** ** The token over restarts *)

(** a start changes no file that is there; the token it serves with is in its file, which
    only its owner can read, and every later start serves with the same one, whatever
    it would generate.  A token a user finds there gets them in. *)
Theorem admin_token_stable outcome generated config_path fs :
  generated <> [] -> trim generated = generated ->
  let '(token, fs') := load_or_create_from outcome generated config_path fs in
  (forall path f, fs !! path = Some f -> fs' !! path = Some f) /\
  (forall t, token = Some t ->
    (exists f, fs' !! token_file_path config_path = Some f /\ Z.land (s_mode f) 63 = 0) /\
    admin_token fs' config_path = Ok (Some t) /\
    forall outcome' generated', load_or_create_from outcome' generated' config_path fs' = (Some t, fs')).
Proof.
  intros Hne Htrim.
  assert (forall fs t, admin_token fs config_path = Ok (Some t) ->
    (exists f, fs !! token_file_path config_path = Some f /\ Z.land (s_mode f) 63 = 0) /\
    forall outcome' generated', load_or_create_from outcome' generated' config_path fs = (Some t, fs)) as Hread.
  { intros fs0 t Ht. split; [|intros; unfold load_or_create_from; by rewrite Ht]. unfold admin_token, load in Ht.
    destruct (fs0 !! token_file_path config_path) as [f|]; [|done]. exists f. split; [done|].
    unfold check_credential_file_permissions in Ht. destruct (Z.land (s_mode f) 63 =? 0) eqn:E; [by apply Z.eqb_eq|done]. }
  unfold load_or_create_from. destruct (admin_token fs config_path) as [[t|]|e] eqn:Et.
  - split; [done|]. intros ? [= <-]. destruct (Hread _ _ Et) as [H1 H2]. by rewrite Et.
  - assert (fs !! token_file_path config_path = None) as Hfs.
    { unfold admin_token in Et. destruct (fs !! token_file_path config_path); [by case_match|done]. }
    unfold put_admin_token, write_token. rewrite Hfs. destruct outcome as [|n|mode]; [done|..].
    + split; [|done]. intros path f Hf. rewrite lookup_insert_ne; [done|]. congruence.
    + unfold check_credential_file_permissions. cbn [s_mode]. destruct (Z.land mode 63 =? 0) eqn:Em; cbn [negb].
      * split; [intros path f Hf; rewrite lookup_insert_ne; [done|congruence]|]. intros ? [= <-].
        assert (admin_token (<[token_file_path config_path := {| s_mode := mode; s_text := Some generated |}]> fs) config_path = Ok (Some generated)) as Ha.
        { unfold admin_token, load, check_credential_file_permissions. rewrite lookup_insert_eq. cbn. rewrite Em. cbn. rewrite Htrim, bool_decide_false; done. }
        destruct (Hread _ _ Ha) as [H1 H2]. done.
      * split; [|done]. intros path f Hf. rewrite lookup_insert_ne; [done|congruence].
  - split; [done|]. done.
Qed.

Lemma str_get_to_app n s t : length s = n -> (forall b, head t = Some b -> 0 <= b < 128) -> str_get_to n (s ++ t) = Some s.
Proof.
  intros <- Ht. unfold str_get_to. rewrite length_app. destruct (_ <? _)%nat eqn:E; [apply Nat.ltb_lt in E; lia|].
  rewrite take_app_length. rewrite lookup_app_r by lia. rewrite Nat.sub_diag. destruct t as [|b t]; [done|]. cbn.
  specialize (Ht b eq_refl). destruct (128 <=? b) eqn:E1; [apply Z.leb_le in E1; lia|done].
Qed.

(** What [nexapipe status] sends is read back as the token it found. *)
Lemma bearer_roundtrip token : token <> [] -> trim token = token -> (forall b, head token = Some b -> 0 <= b < 128) ->
  bearer_token (lit "Bearer " ++ token) = Some token.
Proof.
  intros Hne Htrim Hhead. unfold bearer_token. rewrite str_get_to_app by done. cbn [mbind option_bind].
  replace (eq_ignore_ascii_case (lit "Bearer ") BEARER_PREFIX) with true by done. cbn [negb].
  change (length BEARER_PREFIX) with (length (lit "Bearer ")). rewrite drop_app_length, Htrim, bool_decide_false; done.
Qed.

(** the token the server made on its first start is the one [nexapipe status] finds, and
    every section it asks for is answered. *)
Theorem status_gets_in to_str to_text show_id as_secs generated config_path fs fs' token mode mo s name :
  generated <> [] -> trim generated = generated -> (forall b, head generated = Some b -> 0 <= b < 128) ->
  to_str (lit "Bearer " ++ generated) = Some (lit "Bearer " ++ generated) ->
  fs !! token_file_path config_path = None -> Z.land mode 63 = 0 ->
  load_or_create_from (Written mode) generated config_path fs = (ad_token s, fs') ->
  admin_token fs' config_path = Ok (Some token) -> name ∈ SECTIONS ->
  rs_status (handle to_str to_text show_id as_secs (status_request name token) mo s) = 200.
Proof.
  intros Hne Htrim Hhead Hstr Hfs Hmode Hstart Hread Hname.
  assert (ad_token s = Some generated /\ token = generated) as [Htok ->].
  { unfold load_or_create_from, admin_token in Hstart. rewrite Hfs in Hstart. unfold put_admin_token, write_token, check_credential_file_permissions in Hstart.
    rewrite Hfs in Hstart. cbn [s_mode] in Hstart. rewrite Hmode in Hstart. cbn in Hstart. injection Hstart as <- <-. split; [done|].
    unfold admin_token, load, check_credential_file_permissions in Hread. rewrite lookup_insert_eq in Hread. cbn in Hread. rewrite Hmode in Hread.
    cbn in Hread. rewrite Htrim, bool_decide_false in Hread by done. by injection Hread. }
  unfold handle, status_request. cbn [rq_path rq_get rq_authorization]. replace (strip_prefix (lit "/v1/") (lit "/v1/" ++ name)) with (Some name) by (symmetry; by apply strip_prefix_Some).
  unfold managed_response. rewrite Htok. replace (presents to_str generated (Some (lit "Bearer " ++ generated))) with true.
  - unfold SECTIONS in Hname. cbn [negb]. repeat case_bool_decide; try done. set_solver.
  - symmetry. apply presents_spec. eexists _, _. split_and!; [done|done|]. by apply bearer_roundtrip.
Qed.

(** ** Sorting *)

Lemma str_le_refl a : str_le a a = true.
Proof. induction a as [|x a IH]; cbn; [done|]. rewrite Z.eqb_refl, IH. by rewrite orb_true_r. Qed.

Lemma str_le_total a b : str_le a b = false -> str_le b a = true.
Proof.
  revert b. induction a as [|x a IH]; intros [|y b]; cbn; try done. intros [Hlt H]%orb_false_elim. apply Z.ltb_ge in Hlt.
  apply andb_false_iff in H as [H|H]; [apply Z.eqb_neq in H; replace (y <? x) with true by (symmetry; apply Z.ltb_lt; lia); done|].
  rewrite (IH b H). destruct (y <? x) eqn:E; [done|]. apply Z.ltb_ge in E. replace (y =? x) with true by (symmetry; apply Z.eqb_eq; lia). done.
Qed.

Lemma str_le_antisym a b : str_le a b = true -> str_le b a = true -> a = b.
Proof.
  revert b. induction a as [|x a IH]; intros [|y b]; cbn; try done. intros H1 H2.
  apply orb_prop in H1 as [H1|[H1 H1']%andb_prop]; apply orb_prop in H2 as [H2|[H2 H2']%andb_prop]; bools; try lia.
  by rewrite (IH b H1' H2'), H1.
Qed.

Lemma str_le_trans a b c : str_le a b = true -> str_le b c = true -> str_le a c = true.
Proof.
  revert b c. induction a as [|x a IH]; intros [|y b] [|z c]; cbn; try done. intros H1 H2.
  apply orb_prop in H1 as [H1|[H1 H1']%andb_prop]; apply orb_prop in H2 as [H2|[H2 H2']%andb_prop]; bools; apply orb_true_iff.
  1-3: left; apply Z.ltb_lt; lia.
  right. rewrite (IH b c H1' H2'), andb_true_r. apply Z.eqb_eq. lia.
Qed.

Definition field_le (name : bytes) (u v : Json) : Prop := str_le (field_str name u) (field_str name v) = true.

Lemma insert_by_field_perm name v l : insert_by_field name v l ≡ₚ v :: l.
Proof. induction l as [|u l IH]; cbn; [done|]. case_match; [done|]. rewrite IH. constructor. Qed.

Lemma sort_by_field_spec name l : sort_by_field name l ≡ₚ l /\ StronglySorted (field_le name) (sort_by_field name l).
Proof.
  induction l as [|v l [IHp IHs]]; [by repeat constructor|]. cbn [sort_by_field foldr]. fold (sort_by_field name l).
  split; [by rewrite insert_by_field_perm, IHp|]. clear IHp. induction IHs as [|u k Hs IH Hall]; cbn; [by repeat constructor|].
  destruct (str_le (field_str name v) (field_str name u)) eqn:E.
  - constructor; [by constructor|]. constructor; [done|]. eapply Forall_impl; [exact Hall|]. intros z Hz. by eapply str_le_trans.
  - constructor; [done|]. rewrite insert_by_field_perm. constructor; [by apply str_le_total|done].
Qed.

(** Values that the field tells apart are sorted in one way. *)
Lemma sort_by_field_unique name l k : l ≡ₚ k -> (forall u v, u ∈ l -> v ∈ l -> field_str name u = field_str name v -> u = v) ->
  sort_by_field name l = sort_by_field name k.
Proof.
  intros Hp Hinj. destruct (sort_by_field_spec name l) as [Hl1 Hl2], (sort_by_field_spec name k) as [Hk1 Hk2].
  apply (StronglySorted_unique_strong (field_le name)); [|done|done|by rewrite Hl1, Hk1].
  intros u v Hu Hv Huv Hvu. apply Hinj; [by rewrite <- Hl1|by rewrite Hp, <- Hk1|]. by apply str_le_antisym.
Qed.

(** ** The secrets *)

(** What is left of a client when nobody may know its secrets: whether there is one, whether
    an invitation is open, and what is not a secret. *)
Definition redact (c : ClientAuth) : ClientAuth := {|
  c_secret := if bool_decide (c_secret c = []) then [] else lit "*";
  c_created_at := c_created_at c; c_allow_hosts := c_allow_hosts c; c_allow_ports := c_allow_ports c;
  c_allow_ports_strict := c_allow_ports_strict c;
  c_pending_enrollment := (fun _ => lit "*") <$> c_pending_enrollment c;
  c_devices := ∅; c_unnamed_device_allowed := false; c_last_used := c_last_used c; c_last_used_step := None;
  c_failed_attempts := c_failed_attempts c; c_locked_until := c_locked_until c;
  c_enrollment_failed_attempts := c_enrollment_failed_attempts c; c_enrollment_locked_until := c_enrollment_locked_until c |}.

Definition with_auth (auth : option AuthConfig) (s : AdminState) : AdminState :=
  {| ad_routes := ad_routes s; ad_pools := ad_pools s; ad_in_flight := ad_in_flight s; ad_peers := ad_peers s;
     ad_auth := auth; ad_metrics_enabled := ad_metrics_enabled s; ad_token := ad_token s |}.
Definition with_order (order : list (bytes * ClientAuth)) (mo : Moment) : Moment :=
  {| mo_now := mo_now mo; mo_uptime := mo_uptime mo; mo_version := mo_version mo; mo_early := mo_early mo; mo_late := mo_late mo; mo_order := order |}.

Lemma client_json_redact id c : client_json (id, redact c) = client_json (id, c).
Proof.
  destruct c as [secret created hosts ports strict pending devices unnamed used step failed until efailed euntil].
  destruct secret, pending; reflexivity.
Qed.

Lemma clients_json_redact a b order order' :
  a_enabled a = a_enabled b -> redact <$> a_clients a = redact <$> a_clients b ->
  order ≡ₚ map_to_list (a_clients a) -> order' ≡ₚ map_to_list (a_clients b) ->
  clients_json order (Some a) = clients_json order' (Some b).
Proof.
  intros He Hc Ho Ho'. unfold clients_json. rewrite He.
  enough (sort_by_field (lit "id") (client_json <$> order) = sort_by_field (lit "id") (client_json <$> order')) as -> by done.
  assert (forall m o, o ≡ₚ map_to_list m -> client_json <$> o ≡ₚ client_json <$> map_to_list (redact <$> m)) as Hred.
  { intros m o ->. rewrite map_to_list_fmap, <- list_fmap_compose. apply reflexive_eq, list_fmap_ext.
    intros _ [id c] _. symmetry. apply client_json_redact. }
  apply sort_by_field_unique.
  - rewrite (Hred _ _ Ho), (Hred _ _ Ho'). by rewrite Hc.
  - intros u v ([id c] & -> & Hu)%list_elem_of_fmap ([id' c'] & -> & Hv)%list_elem_of_fmap.
    change (id = id' -> client_json (id, c) = client_json (id', c')). intros <-.
    rewrite Ho in Hu, Hv. apply elem_of_map_to_list in Hu, Hv. by simplify_eq.
Qed.

(** no answer, to anybody, depends on a secret: two configurations that differ in nothing
    but the secrets of the clients, their devices and the tokens of their invitations
    are answered for alike, and in whichever order the clients are iterated. *)
Theorem admin_hides_secrets to_str to_text show_id as_secs req mo s a b order order' :
  a_enabled a = a_enabled b -> redact <$> a_clients a = redact <$> a_clients b ->
  order ≡ₚ map_to_list (a_clients a) -> order' ≡ₚ map_to_list (a_clients b) ->
  handle to_str to_text show_id as_secs req (with_order order mo) (with_auth (Some a) s) =
  handle to_str to_text show_id as_secs req (with_order order' mo) (with_auth (Some b) s).
Proof.
  intros He Hc Ho Ho'. pose proof (clients_json_redact a b order order' He Hc Ho Ho') as Hj.
  assert (size (a_clients a) = size (a_clients b)) as Hs by (by rewrite <- (map_size_fmap redact (a_clients a)), Hc, map_size_fmap).
  unfold handle, managed_response, status_json, auth_view. cbn [ad_auth ad_token ad_routes ad_pools ad_peers ad_metrics_enabled with_auth mo_order mo_now mo_early mo_late mo_uptime mo_version with_order].
  rewrite Hj, Hs, He. reflexivity.
Qed.

(** ** The backend counts *)

(** What the pools of the probed routes say, in the order of the routes. *)
Definition mentions (routes : list Route) (pools : Pools) : list (bytes * bool) :=
  concat ((fun r => if serves r ModeHttp then statuses_of pools r else []) <$> routes).

Lemma fold_mentions {A} (f : A -> bytes * bool -> A) pools acc routes :
  foldl (fun acc r => if negb (serves r ModeHttp) then acc else foldl f acc (statuses_of pools r)) acc routes = foldl f acc (mentions routes pools).
Proof.
  revert acc. induction routes as [|r routes IH]; intros acc; [done|]. cbn [foldl]. rewrite IH. unfold mentions. cbn [fmap list_fmap concat].
  rewrite foldl_app. by destruct (serves r ModeHttp).
Qed.

Lemma health_fold ms :
  (forall url, url ∈ (foldl health_status (∅, ∅) ms).1 <-> (url, true) ∈ ms) /\
  (forall url, url ∈ (foldl health_status (∅, ∅) ms).2 <-> (url, false) ∈ ms).
Proof.
  induction ms as [|[url0 healthy] ms [IH1 IH2]] using rev_ind; [split; intros; cbn; set_solver|].
  rewrite foldl_app. cbn [foldl]. destruct (foldl health_status (∅, ∅) ms) as [up down]. cbn [fst snd] in *.
  destruct healthy; cbn [health_status fst snd]; split; intros url; rewrite ?elem_of_union, ?IH1, ?IH2; set_solver.
Qed.

(** The latest word about a backend. *)
Definition last_word (ms : list (bytes * bool)) (url : bytes) : option bool :=
  foldl (fun word m => if bool_decide (m.1 = url) then Some m.2 else word) None ms.

Lemma last_word_snoc ms url0 b url : last_word (ms ++ [(url0, b)]) url = if bool_decide (url0 = url) then Some b else last_word ms url.
Proof. unfold last_word. by rewrite foldl_app. Qed.

Lemma view_fold ms :
  (forall url, url ∈ (foldl view_status (∅, ∅) ms).1 <-> last_word ms url = Some true) /\
  (forall url, url ∈ (foldl view_status (∅, ∅) ms).2 <-> (url, false) ∈ ms).
Proof.
  induction ms as [|[url0 healthy] ms [IH1 IH2]] using rev_ind; [split; intros; cbn; set_solver|].
  rewrite foldl_app. cbn [foldl]. destruct (foldl view_status (∅, ∅) ms) as [up down]. cbn [fst snd] in *.
  destruct healthy; cbn [view_status fst snd]; split; intros url; rewrite ?elem_of_union, ?elem_of_difference, ?IH1, ?IH2, ?last_word_snoc.
  all: try case_bool_decide; set_solver.
Qed.

Lemma last_word_said ms url b : last_word ms url = Some b -> (url, b) ∈ ms.
Proof.
  induction ms as [|[u b'] ms IH] using rev_ind; [done|]. rewrite last_word_snoc. case_bool_decide; [intros [= ->]; subst|intros]; set_solver.
Qed.

Lemma said_last_word ms url b : (url, b) ∈ ms -> exists b', last_word ms url = Some b'.
Proof.
  induction ms as [|[u b'] ms IH] using rev_ind; [set_solver|]. rewrite last_word_snoc. case_bool_decide; [by eauto|]. intros. apply IH. set_solver.
Qed.

(** the counts of [/v1/health] split the probed backends: one is down when any route says
    so, and up when one says so and none disagrees.  Those of [/v1/status] and [/metrics]
    have the same backends down, but count as up what the last route to mention it calls
    healthy, and so agree only where no route calls healthy what an earlier one called
    down. *)
Theorem backend_counts_exact routes pools :
  let ms := mentions routes pools in
  let '(up, down) := health_sets routes pools in
  let '(up', down') := view_sets routes pools in
  (forall url, url ∈ down <-> (url, false) ∈ ms) /\
  (forall url, url ∈ up <-> (url, true) ∈ ms /\ (url, false) ∉ ms) /\
  down' = down /\ (forall url, url ∈ up' <-> last_word ms url = Some true) /\
  (up' = up <-> forall url, last_word ms url = Some true -> (url, false) ∉ ms).
Proof.
  cbn zeta. unfold health_sets, view_sets. rewrite !fold_mentions. set (ms := mentions routes pools).
  destruct (view_fold ms) as [Hu' Hd'], (health_fold ms) as [Hu Hd].
  destruct (foldl view_status (∅, ∅) ms) as [up' down'], (foldl health_status (∅, ∅) ms) as [up down]. cbn [fst snd] in *.
  split_and!; [done| | |done|].
  - intros url. by rewrite elem_of_difference, Hu, Hd.
  - apply set_eq. intros url. by rewrite Hd, Hd'.
  - rewrite set_eq. setoid_rewrite elem_of_difference. setoid_rewrite Hu. setoid_rewrite Hd. setoid_rewrite Hu'. split.
    + intros H url Hl. by apply H in Hl as [_ ?].
    + intros H url. split; [intros Hl; split; [by apply last_word_said|by apply H]|].
      intros [Ht Hf]. destruct (said_last_word _ _ _ Ht) as [[] Hl]; [done|]. by apply last_word_said in Hl.
Qed.

(** Two routes that share a backend, of which the first has it out of rotation: it is counted
    both as up and as down, and only as down when the routes come the other way round. *)
Definition shared_pool (healthy : bool) : BackendPool := {| backends := [sample_entry (lit "http://a") healthy]; strategy := RoundRobin; round_robin_index := 0 |}.
Definition shared_pools : Pools := {[ 0%nat := shared_pool false; 1%nat := shared_pool true ]}.
Definition shared_state (pools_of : list nat) : AdminState := {|
  ad_routes := (fun p => with_pool p sample_route) <$> pools_of; ad_pools := shared_pools; ad_in_flight := 0; ad_peers := registry_new;
  ad_auth := None; ad_metrics_enabled := true; ad_token := None |}.

Example shared_backend_counted_twice :
  backend_view (shared_state [0; 1]%nat) = {| in_flight := 0; backends_up := 1; backends_down := 1 |} /\
  backend_view (shared_state [1; 0]%nat) = {| in_flight := 0; backends_up := 0; backends_down := 1 |}.
Proof. vm_compute. done. Qed.

(** A token whose writing was cut short is left in its file, and the next start serves with
    what is there. *)
Example cut_token_is_served :
  let '(token, fs) := load_or_create_from (CutAt 1) (lit "c0ffee") (lit "c.toml") ∅ in
  token = None /\ (load_or_create_from (Written 384) (lit "decade") (lit "c.toml") fs).1 = Some (lit "c").
Proof. vm_compute. done. Qed.
