(* ===== verification/Shutdown.v ===== *)
(** * Stopping the process (nexapipe/src/shutdown/mod.rs, and the accept loops of
      nexapipe/src/proxy/{server,plaintext}.rs)

    A request to stop is a value on a watch channel that every accept loop waits for beside
    its next connection.  A connection that is accepted takes a guard before its task is
    spawned, and the guards are counted; when both loops have stopped the process waits for
    the count, for a bounded time.

    The steps are what the tasks do to the channel and to the count.  A loop that has not
    looked at the channel yet is [Fresh]; one that found no request waits for a version of the
    value it has not seen.  The select of a loop may see a connection before it looks.

    The file shows that no loop misses a request whenever it was made, that the count is the
    number of connections alive, that after the loops have stopped it only falls, and that
    the wait for it ends in time and says idle only when nothing was left. *)

From S2P Require Import Prelude.

(** [tokio::sync::watch], as far as it is used: the value, and how often it was changed. *)
Record ShutdownSignal := { shutdown_requested : bool; requested_value : bool; requested_version : Z }.

Definition signal_new : ShutdownSignal := {| shutdown_requested := false; requested_value := false; requested_version := 0 |}.

(** The two writes of [request_shutdown]. *)
Definition store_requested (s : ShutdownSignal) : ShutdownSignal :=
  {| shutdown_requested := true; requested_value := requested_value s; requested_version := requested_version s |}.
Definition send_requested (s : ShutdownSignal) : ShutdownSignal :=
  {| shutdown_requested := shutdown_requested s; requested_value := true; requested_version := requested_version s + 1 |}.
Definition request_shutdown (s : ShutdownSignal) : ShutdownSignal := send_requested (store_requested s).

(** An accept loop: at the top of a turn, parked in [changed] having seen a version, or out. *)
Inductive AcceptLoop := Fresh | Parked (seen : Z) | Stopped.

(** A poll of [requested]: [subscribe] and [borrow_and_update] the first time, [changed]
    from then on. *)
Definition poll_requested (s : ShutdownSignal) (l : AcceptLoop) : AcceptLoop :=
  match l with
  | Fresh => if requested_value s then Stopped else Parked (requested_version s)
  | Parked seen => if requested_version s =? seen then Parked seen else Stopped
  | Stopped => Stopped
  end.

(** [InFlight]: the count is a [usize]. *)
Definition enter (count : Z) : Z := wrapping 64 (count + 1).
Definition guard_drop (count : Z) : Z := wrapping 64 (count - 1).

Record Process := { pr_signal : ShutdownSignal; pr_loops : list AcceptLoop; pr_count : Z; pr_guards : nat }.

Definition process_new (loops : nat) : Process :=
  {| pr_signal := signal_new; pr_loops := replicate loops Fresh; pr_count := 0; pr_guards := 0 |}.

Inductive process_step : Process -> Process -> Prop :=
| PS_store p : process_step p {| pr_signal := store_requested (pr_signal p); pr_loops := pr_loops p; pr_count := pr_count p; pr_guards := pr_guards p |}
| PS_send p : process_step p {| pr_signal := send_requested (pr_signal p); pr_loops := pr_loops p; pr_count := pr_count p; pr_guards := pr_guards p |}
| PS_poll s a l b count guards :
    process_step {| pr_signal := s; pr_loops := a ++ l :: b; pr_count := count; pr_guards := guards |}
      {| pr_signal := s; pr_loops := a ++ poll_requested s l :: b; pr_count := count; pr_guards := guards |}
| PS_accept s a l b count guards : l <> Stopped ->
    process_step {| pr_signal := s; pr_loops := a ++ l :: b; pr_count := count; pr_guards := guards |}
      {| pr_signal := s; pr_loops := a ++ Fresh :: b; pr_count := enter count; pr_guards := S guards |}
| PS_closed s a l b count guards :
    process_step {| pr_signal := s; pr_loops := a ++ l :: b; pr_count := count; pr_guards := guards |}
      {| pr_signal := s; pr_loops := a ++ Stopped :: b; pr_count := count; pr_guards := guards |}
| PS_drop s loops count guards :
    process_step {| pr_signal := s; pr_loops := loops; pr_count := count; pr_guards := S guards |}
      {| pr_signal := s; pr_loops := loops; pr_count := guard_drop count; pr_guards := guards |}.

Inductive process_runs (loops : nat) : Process -> Prop :=
| PR_new : process_runs loops (process_new loops)
| PR_step p q : process_runs loops p -> process_step p q -> process_runs loops q.

(** A loop that parked had seen no request, so a request is a version it has not seen. *)
Definition not_missed (s : ShutdownSignal) (l : AcceptLoop) : Prop :=
  match l with Parked seen => seen <= requested_version s /\ (requested_value s = true -> seen < requested_version s) | _ => True end.

Record process_inv (p : Process) : Prop := {
  pi_loops : Forall (not_missed (pr_signal p)) (pr_loops p);
  pi_count : pr_count p = wrapping 64 (Z.of_nat (pr_guards p));
}.

Lemma poll_not_missed s l : not_missed s l -> not_missed s (poll_requested s l).
Proof. destruct l as [|seen|]; cbn; [destruct (requested_value s) eqn:E; cbn; [done|split; [lia|by rewrite E]]| |done]. by destruct (_ =? _). Qed.

Lemma Forall_middle_1 {A} (P : A -> Prop) a l b : Forall P (a ++ l :: b) -> P l.
Proof. intros [_ H]%Forall_app. by apply Forall_cons in H as [? _]. Qed.

Lemma Forall_middle {A} (P : A -> Prop) a l l' b : Forall P (a ++ l :: b) -> P l' -> Forall P (a ++ l' :: b).
Proof. intros [Ha Hb]%Forall_app Hl. apply Forall_app. split; [done|]. apply Forall_cons in Hb as [_ Hb]. by constructor. Qed.

Lemma wrapping_step a n : wrapping 64 (wrapping 64 a + n) = wrapping 64 (a + n).
Proof. unfold wrapping. apply Z.add_mod_idemp_l. lia. Qed.

Lemma process_step_inv p q : process_step p q -> process_inv p -> process_inv q.
Proof.
  intros Hs [Hl Hc]. destruct Hs; cbn [pr_signal pr_loops pr_count pr_guards] in *; split; cbn [pr_signal pr_loops pr_count pr_guards].
  - eapply Forall_impl; [exact Hl|]. by intros [].
  - done.
  - eapply Forall_impl; [exact Hl|]. intros []; cbn; [done| |done]. intros [? _]. split; intros; lia.
  - done.
  - apply (Forall_middle _ _ _ _ _ Hl), poll_not_missed. by apply Forall_middle_1 in Hl.
  - done.
  - by apply (Forall_middle _ _ _ _ _ Hl).
  - unfold enter. rewrite Hc, wrapping_step. f_equal. lia.
  - by apply (Forall_middle _ _ _ _ _ Hl).
  - done.
  - done.
  - unfold guard_drop. rewrite Hc. unfold Z.sub. rewrite wrapping_step. f_equal. lia.
Qed.

Lemma process_runs_inv loops p : process_runs loops p -> process_inv p.
Proof.
  induction 1; [|by eapply process_step_inv]. split; [|done]. cbn. by apply Forall_replicate.
Qed.

(** the count is the number of connections alive, whatever the tasks do in between; a
    request to stop is never missed, as the next poll of every loop finds it, whether it was
    made before the loop looked, while it was parked or in between. *)
Theorem shutdown_not_missed loops p : process_runs loops p -> Z.of_nat (pr_guards p) < 2 ^ 64 ->
  pr_count p = Z.of_nat (pr_guards p) /\
  (requested_value (pr_signal p) = true -> forall l, l ∈ pr_loops p -> poll_requested (pr_signal p) l = Stopped).
Proof.
  intros Hr Hg. destruct (process_runs_inv _ _ Hr) as [Hl Hc]. split; [rewrite Hc; apply wrapping_small; unfold is_uint; lia|].
  intros Hv l Hin. rewrite Forall_forall in Hl. specialize (Hl l Hin). destruct l as [|seen|]; cbn in *; [by rewrite Hv| |done].
  destruct Hl as [_ Hlt]. specialize (Hlt Hv). by replace (requested_version (pr_signal p) =? seen) with false by (symmetry; apply Z.eqb_neq; lia).
Qed.

(** The request is not taken back. *)
Lemma requested_stays p q : rtc process_step p q -> requested_value (pr_signal p) = true -> requested_value (pr_signal q) = true.
Proof. induction 1 as [|p p' q Hs _ IH]; [done|]. intros H. apply IH. by destruct Hs. Qed.

(** with every loop stopped the connections are a countdown: none is added, and no loop
    starts again. *)
Theorem drain_only_falls p q : rtc process_step p q -> Forall (eq Stopped) (pr_loops p) ->
  Forall (eq Stopped) (pr_loops q) /\ (pr_guards q <= pr_guards p)%nat.
Proof.
  induction 1 as [p|p p' q Hs _ IH]; intros Hst; [by split|].
  assert (Forall (eq Stopped) (pr_loops p') /\ (pr_guards p' <= pr_guards p)%nat) as [H1 H2].
  { destruct Hs as [p|p|s a l b c g|s a l b c g Hne|s a l b c g|s l c g]; cbn [pr_loops pr_guards] in *; try by split; [|lia].
    - split; [|lia]. pose proof (Forall_middle_1 _ _ _ _ Hst) as <-. by apply (Forall_middle _ _ _ _ _ Hst).
    - by pose proof (Forall_middle_1 _ _ _ _ Hst) as <-.
    - split; [|lia]. by apply (Forall_middle _ _ _ _ _ Hst). }
  destruct (IH H1). split; [done|lia].
Qed.

(** ** The wait *)

Definition DRAIN_TIMEOUT_MS : Z := 30 * 1000.
Definition POLL_MS : Z := 100.

Inductive Drained := Idle | GaveUp.

(** [wait_until_idle]: [count] and [now] are what each turn sees, the time in milliseconds;
    [deadline] is the time of the call and the limit. *)
Fixpoint wait_until_idle (fuel : nat) (count now : nat -> Z) (deadline : Z) (turn : nat) : option (Drained * nat) :=
  match fuel with
  | O => None
  | S fuel =>
      if count turn =? 0 then Some (Idle, turn)
      else if deadline <=? now turn then Some (GaveUp, turn)
      else wait_until_idle fuel count now deadline (S turn)
  end.

(** A sleep lasts at least as long as it was asked to. *)
Definition sleeps (now : nat -> Z) : Prop := forall turn, now turn + POLL_MS <= now (S turn).

Lemma wait_spec fuel count now deadline turn : sleeps now -> deadline - now turn <= POLL_MS * (Z.of_nat fuel - 1) -> (1 <= fuel)%nat ->
  exists r n, wait_until_idle fuel count now deadline turn = Some (r, n) /\ (turn <= n < turn + fuel)%nat /\
    (forall k, (turn <= k < n)%nat -> count k <> 0 /\ now k < deadline) /\
    match r with Idle => count n = 0 | GaveUp => count n <> 0 /\ deadline <= now n end.
Proof.
  intros Hsl. revert turn. induction fuel as [|fuel IH]; intros turn Hd Hf; [lia|]. cbn [wait_until_idle].
  destruct (count turn =? 0) eqn:Ec; [apply Z.eqb_eq in Ec; exists Idle, turn; split_and!; try done; lia|]. apply Z.eqb_neq in Ec.
  destruct (deadline <=? now turn) eqn:Et; [apply Z.leb_le in Et; exists GaveUp, turn; split_and!; try done; lia|]. apply Z.leb_gt in Et.
  destruct (IH (S turn)) as (r & n & H1 & H2 & H3 & H4); [specialize (Hsl turn); lia|unfold POLL_MS in *; lia|].
  exists r, n. split_and!; [done|lia|lia| |done]. intros k Hk. destruct (decide (k = turn)) as [->|]; [done|]. apply H3. lia.
Qed.

(** the drain ends: in at most as many turns as the limit has tenths of a second and one
    more, it says idle only when it saw no connection, and gives up only when the limit has
    passed with one still open; before that every turn saw one. *)
Theorem drain_ends count now start limit : sleeps now -> start <= now 0%nat -> 0 <= limit ->
  exists r n, wait_until_idle (Z.to_nat (limit / POLL_MS) + 2) count now (start + limit) 0 = Some (r, n) /\
    Z.of_nat n <= limit / POLL_MS + 1 /\
    (forall k, (k < n)%nat -> count k <> 0 /\ now k < start + limit) /\
    match r with Idle => count n = 0 | GaveUp => count n <> 0 /\ start + limit <= now n end.
Proof.
  intros Hsl Hs Hl. assert (0 <= limit / POLL_MS) by (apply Z.div_pos; unfold POLL_MS; lia).
  pose proof (Z.mul_succ_div_gt limit POLL_MS ltac:(unfold POLL_MS; lia)).
  destruct (wait_spec (Z.to_nat (limit / POLL_MS) + 2) count now (start + limit) 0 Hsl) as (r & n & H1 & H2 & H3 & H4); [unfold POLL_MS in *; lia|lia|].
  exists r, n. split_and!; [done|lia| |done]. intros k Hk. apply H3. lia.
Qed.
