(* ===== verification/Connection.v ===== *)
(** * One connection (nexapipe/src/conn/mod.rs, limits/streams.rs)

    A connection that arrives holds a guard of the process's in-flight count; once it is
    established it takes a place of the connection limiter or is closed, and in the task
    that serves it the protocol is read off its ALPN, the handshake is run where the gate is
    on, and its streams are accepted, each with a permit of the process and a slot of the
    connection.  A stream's task keeps its permits when the connection is over.

    [open_connection] is the decision, a function of what was negotiated, what the gate said
    at its two looks and how the handshake ended ([None] past its deadline).  The rest is a
    step relation over all connections and their streams.

    The file shows who is served and with which code the others are closed, and that
    the four counts are exact in every interleaving, with everything given back. *)

From S2P Require Import Prelude RustStd AuthConfig Alpn Handshake Limits Peers.

(** ** Who is served *)

Definition protocol_of (alpn_ : bytes) : option Protocol := if bool_decide (alpn_ = []) then Some Legacy else from_alpn alpn_.

Record Serving := { sv_protocol : Protocol; sv_identity : PeerIdentity; sv_acl : option ClientAcl }.

(** A connection is let go without a code when its protocol is not known. *)
Inductive Opening := Dropped | ClosedWith (code : Z) (reason : bytes) | Serve (how : Serving).

Definition open_connection (alpn_ : bytes) (enabled : bool) (handshake : option (result AuthenticatedPeer AuthFailure)) (gated_now : bool) : Opening :=
  match protocol_of alpn_ with
  | None => Dropped
  | Some protocol =>
      if enabled then
        match handshake with
        | Some (Ok peer) =>
            Serve {| sv_protocol := protocol; sv_identity := {| pi_client_id := Some (ap_client_id peer); pi_device := ap_device peer |}; sv_acl := Some (ap_acl peer) |}
        | Some (Err (Rejected _)) => ClosedWith CLOSE_REJECTED (lit "2FA authentication failed")
        | Some (Err (NotStarted _)) | None => ClosedWith CLOSE_REQUIRED (lit "2FA required")
        end
      else if gated_now then ClosedWith CLOSE_REQUIRED (lit "2FA required")
      else Serve {| sv_protocol := protocol; sv_identity := anonymous; sv_acl := None |}
  end.

(** a connection is served exactly when its protocol is one the server offers or names
    none, and either the handshake let its client in, under the access list it was given, or
    the gate was off at both looks; it is anonymous exactly when nobody authenticated. *)
Theorem opening_gated alpn_ enabled handshake gated_now how :
  open_connection alpn_ enabled handshake gated_now = Serve how <->
  (alpn_ = [] \/ alpn_ ∈ accepted_alpns) /\ protocol_of alpn_ = Some (sv_protocol how) /\
  ((enabled = true /\ exists peer, handshake = Some (Ok peer) /\ sv_acl how = Some (ap_acl peer) /\
      sv_identity how = {| pi_client_id := Some (ap_client_id peer); pi_device := ap_device peer |}) \/
   (enabled = false /\ gated_now = false /\ sv_acl how = None /\ sv_identity how = anonymous)).
Proof.
  assert (forall p, protocol_of alpn_ = Some p -> alpn_ = [] \/ alpn_ ∈ accepted_alpns) as Hp.
  { intros p. unfold protocol_of, from_alpn. repeat case_bool_decide; subst; try done; [by left|..]; intros _; right; vm_compute; set_solver. }
  unfold open_connection. destruct how as [protocol identity acl]. cbn [sv_protocol sv_identity sv_acl].
  destruct (protocol_of alpn_) as [p|]; [|naive_solver]. specialize (Hp p eq_refl).
  destruct enabled; [destruct handshake as [[peer|[]]|]|destruct gated_now]; naive_solver.
Qed.

(** ** Streams *)

Definition MAX_CONCURRENT_STREAMS_PER_CONNECTION : Z := 256.

(** A semaphore is the permits that are left. *)
Definition sem_try_acquire (permits : Z) : option Z := if 0 <? permits then Some (permits - 1) else None.
Definition sem_release (permits : Z) : Z := permits + 1.

Record StreamLimiter := { sl_slots : Z; sl_max_global : Z }.

(** [max_permits] is the most a semaphore takes. *)
Definition stream_limiter_new (max_permits max_global : Z) : StreamLimiter :=
  let max_global := Z.min max_global max_permits in {| sl_slots := max_global; sl_max_global := max_global |}.
Definition stream_try_acquire (l : StreamLimiter) : option StreamLimiter :=
  let! slots := sem_try_acquire (sl_slots l) in Some {| sl_slots := slots; sl_max_global := sl_max_global l |}.
Definition stream_release (l : StreamLimiter) : StreamLimiter :=
  {| sl_slots := sem_release (sl_slots l); sl_max_global := sl_max_global l |}.

(** One accepted stream: the permit of the process, then the slot of the connection; without
    the slot the permit goes back.  [None] is a stream that is finished unserved. *)
Definition admit_stream (l : StreamLimiter) (slots : Z) : StreamLimiter * option Z :=
  match stream_try_acquire l with
  | None => (l, None)
  | Some taken =>
      match sem_try_acquire slots with
      | None => (stream_release taken, None)
      | Some slots => (taken, Some slots)
      end
  end.

(** ** All of them at once *)

(** The limiter counts by the bytes of an endpoint id. *)
Abbreviation Limiter := (@ConnectionLimiter (list Z) list_eq_dec list_countable).

Inductive Phase := Accepting | Holding (peer : EndpointId) | Served (peer : EndpointId) | Over.

Record Conn := { cn_phase : Phase; cn_slots : Z; cn_tasks : nat }.

Record Server := { se_limiter : Limiter; se_in_flight : Z; se_streams : StreamLimiter; se_conns : list Conn }.

Definition conn_new : Conn := {| cn_phase := Accepting; cn_slots := MAX_CONCURRENT_STREAMS_PER_CONNECTION; cn_tasks := 0 |}.
Definition with_phase (p : Phase) (c : Conn) : Conn := {| cn_phase := p; cn_slots := cn_slots c; cn_tasks := cn_tasks c |}.

Definition server_new (per_peer_cap global_cap max_permits max_streams : Z) : Server :=
  {| se_limiter := with_caps per_peer_cap global_cap; se_in_flight := 0; se_streams := stream_limiter_new max_permits max_streams; se_conns := [] |}.

(** What a connection's guards give back when its task ends. *)
Definition drop_guards (p : Phase) (l : Limiter) (in_flight : Z) : Limiter * Z :=
  match p with
  | Accepting => (l, wrapping 64 (in_flight - 1))
  | Holding peer | Served peer => (release peer l, wrapping 64 (in_flight - 1))
  | Over => (l, in_flight)
  end.

(** [handle_incoming], once the connection is established. *)
Definition established (peer : EndpointId) (c : Conn) (l : Limiter) (in_flight : Z) : Conn * Limiter * Z :=
  match try_acquire peer l with
  | None => let '(l, n) := drop_guards Accepting l in_flight in (with_phase Over c, l, n)
  | Some (l, _) => (with_phase (Holding peer) c, l, in_flight)
  end.

Inductive server_step : Server -> Server -> Prop :=
| SS_arrive l n st cs :
    server_step {| se_limiter := l; se_in_flight := n; se_streams := st; se_conns := cs |}
      {| se_limiter := l; se_in_flight := wrapping 64 (n + 1); se_streams := st; se_conns := conn_new :: cs |}
| SS_established peer l n st a c b c' l' n' : cn_phase c = Accepting -> established peer c l n = (c', l', n') ->
    server_step {| se_limiter := l; se_in_flight := n; se_streams := st; se_conns := a ++ c :: b |}
      {| se_limiter := l'; se_in_flight := n'; se_streams := st; se_conns := a ++ c' :: b |}
| SS_serve peer l n st a c b : cn_phase c = Holding peer ->
    server_step {| se_limiter := l; se_in_flight := n; se_streams := st; se_conns := a ++ c :: b |}
      {| se_limiter := l; se_in_flight := n; se_streams := st; se_conns := a ++ with_phase (Served peer) c :: b |}
| SS_stream peer l n st a c b st' slots : cn_phase c = Served peer -> admit_stream st (cn_slots c) = (st', slots) ->
    server_step {| se_limiter := l; se_in_flight := n; se_streams := st; se_conns := a ++ c :: b |}
      {| se_limiter := l; se_in_flight := n; se_streams := st';
         se_conns := a ++ (match slots with Some slots => {| cn_phase := cn_phase c; cn_slots := slots; cn_tasks := S (cn_tasks c) |} | None => c end) :: b |}
| SS_stream_over l n st a p slots tasks b :
    server_step {| se_limiter := l; se_in_flight := n; se_streams := st; se_conns := a ++ {| cn_phase := p; cn_slots := slots; cn_tasks := S tasks |} :: b |}
      {| se_limiter := l; se_in_flight := n; se_streams := stream_release st; se_conns := a ++ {| cn_phase := p; cn_slots := sem_release slots; cn_tasks := tasks |} :: b |}
| SS_over l n st a c b l' n' : cn_phase c <> Over -> drop_guards (cn_phase c) l n = (l', n') ->
    server_step {| se_limiter := l; se_in_flight := n; se_streams := st; se_conns := a ++ c :: b |}
      {| se_limiter := l'; se_in_flight := n'; se_streams := st; se_conns := a ++ with_phase Over c :: b |}.

Definition guards_of (p : Phase) : list (@Guard EndpointId) :=
  match p with Holding peer | Served peer => [Limits.PeerGuard peer] | _ => [] end.
Definition all_guards (cs : list Conn) : list (@Guard EndpointId) := cs ≫= (fun c => guards_of (cn_phase c)).
Definition is_live (p : Phase) : nat := match p with Over => 0 | _ => 1 end.
Definition live_conns (cs : list Conn) : nat := sum_list_with (fun c => is_live (cn_phase c)) cs.
Definition all_tasks (cs : list Conn) : nat := sum_list_with cn_tasks cs.

Record server_inv (per_peer_cap global_cap streams_cap : Z) (s : Server) : Prop := {
  si_limiter : limiter_inv {| limiter := se_limiter s; guards := all_guards (se_conns s) |};
  si_caps : max_per_peer (se_limiter s) = per_peer_cap /\ max_global (se_limiter s) = global_cap;
  si_in_flight : se_in_flight s = wrapping 64 (Z.of_nat (live_conns (se_conns s)));
  si_streams : sl_slots (se_streams s) = streams_cap - Z.of_nat (all_tasks (se_conns s)) /\ 0 <= sl_slots (se_streams s);
  si_slots : Forall (fun c => cn_slots c = MAX_CONCURRENT_STREAMS_PER_CONNECTION - Z.of_nat (cn_tasks c) /\ 0 <= cn_slots c) (se_conns s);
}.

Lemma all_guards_middle a c b : all_guards (a ++ c :: b) ≡ₚ guards_of (cn_phase c) ++ all_guards (a ++ b).
Proof. unfold all_guards. rewrite !bind_app, bind_cons, !(assoc_L app). by rewrite (Permutation_app_comm (a ≫= _)). Qed.

Lemma live_middle a c b : live_conns (a ++ c :: b) = (is_live (cn_phase c) + live_conns (a ++ b))%nat.
Proof. unfold live_conns. rewrite !sum_list_with_app. cbn. lia. Qed.

Lemma tasks_middle a c b : all_tasks (a ++ c :: b) = (cn_tasks c + all_tasks (a ++ b))%nat.
Proof. unfold all_tasks. rewrite !sum_list_with_app. cbn. lia. Qed.

Lemma limiter_inv_perm (l : Limiter) gs gs' : gs ≡ₚ gs' ->
  limiter_inv {| limiter := l; guards := gs |} -> limiter_inv {| limiter := l; guards := gs' |}.
Proof.
  intros Hp [Ht Hpp Hc Hg]. cbn in *. assert (forall p, alive p gs = alive p gs') as Ha by (intros p; unfold alive, len; by rewrite Hp).
  assert (len gs = len gs') as Hl by (unfold len; by rewrite Hp).
  split; cbn; [by rewrite <- Hl|by intros; rewrite <- Ha|by intros; rewrite <- Ha|by rewrite <- Hl].
Qed.

(** Dropping what a connection holds leaves what the others hold. *)
Lemma drop_guards_inv p (l : Limiter) n gs l' n' : drop_guards p l n = (l', n') ->
  limiter_inv {| limiter := l; guards := guards_of p ++ gs |} ->
  limiter_inv {| limiter := l'; guards := gs |} /\ max_per_peer l' = max_per_peer l /\ max_global l' = max_global l /\
  n' = (match p with Over => n | _ => wrapping 64 (n - 1) end).
Proof.
  intros Hd Hi. destruct p as [|peer|peer|]; cbn in Hd; simplify_eq; try done.
  all: split_and!; try done; apply (limiter_inv_step _ _ (L_drop l (Limits.PeerGuard peer) [] gs) Hi).
Qed.

Lemma wrapping_in_flight k n : wrapping 64 (wrapping 64 (Z.of_nat (S k)) - 1) = wrapping 64 (Z.of_nat k) /\ wrapping 64 (wrapping 64 (Z.of_nat n) + 1) = wrapping 64 (Z.of_nat (S n)).
Proof.
  unfold wrapping. split; [|rewrite Z.add_mod_idemp_l by lia; f_equal; lia].
  unfold Z.sub. rewrite Z.add_mod_idemp_l by lia. f_equal. lia.
Qed.

Lemma admit_stream_spec st slots st' r cap tasks : admit_stream st slots = (st', r) ->
  sl_slots st = cap - tasks -> 0 <= sl_slots st -> 0 <= slots ->
  match r with
  | Some slots' => sl_slots st' = cap - (tasks + 1) /\ 0 <= sl_slots st' /\ slots' = slots - 1 /\ 0 <= slots'
  | None => sl_slots st' = sl_slots st /\ (sl_slots st = 0 \/ slots = 0)
  end.
Proof.
  unfold admit_stream, stream_try_acquire, sem_try_acquire. intros Ha Hs Hn Hl.
  destruct (0 <? sl_slots st) eqn:E1; cbn in Ha; [apply Z.ltb_lt in E1|apply Z.ltb_ge in E1; simplify_eq; split; [done|lia]].
  destruct (0 <? slots) eqn:E2; cbn in Ha; [apply Z.ltb_lt in E2|apply Z.ltb_ge in E2]; simplify_eq; cbn; [lia|]. unfold sem_release. lia.
Qed.

(** A step of one connection: what it means for the limiter, the count, the streams and its
    own slots. *)
Lemma server_inv_replace pc gc sc l n st a c b l' n' st' c' :
  server_inv pc gc sc {| se_limiter := l; se_in_flight := n; se_streams := st; se_conns := a ++ c :: b |} ->
  (limiter_inv {| limiter := l; guards := guards_of (cn_phase c) ++ all_guards (a ++ b) |} ->
    limiter_inv {| limiter := l'; guards := guards_of (cn_phase c') ++ all_guards (a ++ b) |} /\
    max_per_peer l' = max_per_peer l /\ max_global l' = max_global l) ->
  (forall k, n = wrapping 64 (Z.of_nat (is_live (cn_phase c) + k)) -> n' = wrapping 64 (Z.of_nat (is_live (cn_phase c') + k))) ->
  (forall k, sl_slots st = k - Z.of_nat (cn_tasks c) -> 0 <= sl_slots st -> sl_slots st' = k - Z.of_nat (cn_tasks c') /\ 0 <= sl_slots st') ->
  (cn_slots c = MAX_CONCURRENT_STREAMS_PER_CONNECTION - Z.of_nat (cn_tasks c) /\ 0 <= cn_slots c ->
    cn_slots c' = MAX_CONCURRENT_STREAMS_PER_CONNECTION - Z.of_nat (cn_tasks c') /\ 0 <= cn_slots c') ->
  server_inv pc gc sc {| se_limiter := l'; se_in_flight := n'; se_streams := st'; se_conns := a ++ c' :: b |}.
Proof.
  intros [Hl [Hc1 Hc2] Hn [Hst1 Hst2] Hsl] Hlim Hfl Hstr Hslot. cbn [se_limiter se_in_flight se_streams se_conns] in *.
  destruct (Hlim (limiter_inv_perm _ _ _ (all_guards_middle a c b) Hl)) as (Hl' & H1 & H2).
  rewrite live_middle in Hn. rewrite tasks_middle in Hst1.
  destruct (Hstr (sc - Z.of_nat (all_tasks (a ++ b))) ltac:(lia) Hst2) as [Hs1 Hs2].
  apply Forall_app in Hsl as [Ha Hb]. apply Forall_cons in Hb as [Hc Hb].
  split; cbn [se_limiter se_in_flight se_streams se_conns].
  - eapply limiter_inv_perm; [symmetry; apply all_guards_middle|done].
  - by rewrite H1, H2.
  - rewrite live_middle. by apply Hfl.
  - rewrite tasks_middle. lia.
  - apply Forall_app. split; [done|]. constructor; [by apply Hslot|done].
Qed.

Lemma server_step_inv pc gc sc s s' : server_step s s' -> server_inv pc gc sc s -> server_inv pc gc sc s'.
Proof.
  intros Hstep Hi. destruct Hstep as [l n st cs|peer l n st a c b c' l' n' Hp He|peer l n st a c b Hp|peer l n st a c b st' slots Hp Ha|l n st a p slots tasks b|l n st a c b l' n' Hp Hd].
  - destruct Hi as [Hl Hcaps Hn Hst Hsl]. split; cbn [se_limiter se_in_flight se_streams se_conns] in *; [done|done| |done|by constructor].
    rewrite Hn. apply (wrapping_in_flight 0).
  - unfold established in He. destruct (try_acquire peer l) as [[l1 g]|] eqn:Et; cbn in He; simplify_eq.
    + apply (server_inv_replace _ _ _ _ _ _ _ _ _ _ _ _ _ Hi); cbn; rewrite ?Hp; cbn; try done.
      intros Hl. pose proof (L_acquire peer l l' g (all_guards (a ++ b)) Et) as Hs.
      assert (g = Limits.PeerGuard peer) as -> by (unfold try_acquire in Et; case_match; by simplify_eq).
      destruct (limiter_step_caps _ _ Hs). split_and!; [by apply (limiter_inv_step _ _ Hs)|done|done].
    + apply (server_inv_replace _ _ _ _ _ _ _ _ _ _ _ _ _ Hi); cbn; rewrite ?Hp; cbn; try done.
      intros k ->. apply (wrapping_in_flight k 0).
  - apply (server_inv_replace _ _ _ _ _ _ _ _ _ _ _ _ _ Hi); cbn; rewrite ?Hp; cbn; done.
  - pose proof (si_slots _ _ _ _ Hi) as Hsl. cbn in Hsl. apply Forall_app in Hsl as [_ Hsl]. apply Forall_cons in Hsl as [[_ Hsl] _].
    destruct slots as [slots|]; apply (server_inv_replace _ _ _ _ _ _ _ _ _ _ _ _ _ Hi); cbn; try done.
    + intros k H1 H2. destruct (admit_stream_spec _ _ _ _ _ _ Ha H1 H2 Hsl) as (H3 & H4 & _). lia.
    + intros [Hs1 Hs2]. destruct (si_streams _ _ _ _ Hi) as [H1 H2]. destruct (admit_stream_spec _ _ _ _ _ _ Ha H1 H2 Hsl) as (_ & _ & H3 & H4). lia.
    + intros k H1 H2. destruct (admit_stream_spec _ _ _ _ _ _ Ha H1 H2 Hsl) as (H3 & _). lia.
  - apply (server_inv_replace _ _ _ _ _ _ _ _ _ _ _ _ _ Hi); cbn; unfold sem_release; try done; lia.
  - apply (server_inv_replace _ _ _ _ _ _ _ _ _ _ _ _ _ Hi); cbn; try done.
    + intros Hl. by destruct (drop_guards_inv _ _ _ _ _ _ Hd Hl) as (H1 & H2 & H3 & _).
    + intros k ->. destruct (cn_phase c); cbn in Hd; simplify_eq; try done; apply (wrapping_in_flight k 0).
Qed.

Inductive server_runs (per_peer_cap global_cap max_permits max_streams : Z) : Server -> Prop :=
| SR_new : server_runs per_peer_cap global_cap max_permits max_streams (server_new per_peer_cap global_cap max_permits max_streams)
| SR_step s s' : server_runs per_peer_cap global_cap max_permits max_streams s -> server_step s s' -> server_runs per_peer_cap global_cap max_permits max_streams s'.

Lemma server_runs_inv pc gc mp ms s : 0 <= pc -> 0 <= gc -> 0 <= mp -> 0 <= ms -> server_runs pc gc mp ms s -> server_inv pc gc (Z.min ms mp) s.
Proof.
  intros Hpc Hgc Hmp Hms. induction 1 as [|s s' _ IH Hs]; [|by eapply server_step_inv]. split; cbn; try done; first [by split|lia].
Qed.

(** C33: the counts are exact, however connections and streams come and go at once: the
    limiter's are the connections that were let in, in all and by peer, and within the caps;
    the count a shutdown waits for is the connections that are not over; the permits taken
    of the process are the streams being served, and the slots taken of a connection are
    its own, so there are never more than either allows and a place that is given back can
    be taken again.  When all is over everything is as at the start. *)
Theorem connection_counts_exact pc gc mp ms s :
  0 <= pc -> 0 <= gc -> 0 <= mp -> 0 <= ms -> server_runs pc gc mp ms s -> Z.of_nat (live_conns (se_conns s)) < 2 ^ 64 ->
  let held := all_guards (se_conns s) in
  total (counts (se_limiter s)) = len held /\ len held <= gc /\
  (forall peer, limiter_count peer (se_limiter s) = alive peer held /\ alive peer held <= pc) /\
  se_in_flight s = Z.of_nat (live_conns (se_conns s)) /\
  sl_slots (se_streams s) = Z.min ms mp - Z.of_nat (all_tasks (se_conns s)) /\ Z.of_nat (all_tasks (se_conns s)) <= Z.min ms mp /\
  (forall c, c ∈ se_conns s -> cn_slots c = MAX_CONCURRENT_STREAMS_PER_CONNECTION - Z.of_nat (cn_tasks c) /\
     Z.of_nat (cn_tasks c) <= MAX_CONCURRENT_STREAMS_PER_CONNECTION) /\
  ((forall c, c ∈ se_conns s -> cn_phase c = Over /\ cn_tasks c = 0%nat) ->
    se_limiter s = with_caps pc gc /\ se_in_flight s = 0 /\ sl_slots (se_streams s) = Z.min ms mp /\
    forall c, c ∈ se_conns s -> cn_slots c = MAX_CONCURRENT_STREAMS_PER_CONNECTION).
Proof.
  intros Hpc Hgc Hmp Hms Hr Hlive. destruct (server_runs_inv _ _ _ _ _ Hpc Hgc Hmp Hms Hr) as [[Ht Hpp Hc Hg] [Hc1 Hc2] Hn [Hst1 Hst2] Hsl]. cbn in Ht, Hpp, Hc, Hg.
  rewrite wrapping_small in Hn by (unfold is_uint; lia). cbn zeta. rewrite Hc1 in Hc. rewrite Hc2 in Hg. split_and!; [done|done| |done|lia|lia| |].
  - intros peer. split; [|done]. unfold limiter_count. rewrite Hpp. apply default_counted, alive_nonneg.
  - intros c Hin. rewrite Forall_forall in Hsl. destruct (Hsl c Hin). lia.
  - intros Hover. assert (forall cs, (forall c, c ∈ cs -> cn_phase c = Over /\ cn_tasks c = 0%nat) ->
      all_guards cs = [] /\ live_conns cs = 0%nat /\ all_tasks cs = 0%nat) as Hz.
    { induction cs as [|c cs IH]; [done|]. intros H. destruct (H c ltac:(set_solver)) as [H1 H2], (IH ltac:(set_solver)) as (H3 & H4 & H5).
      unfold all_guards, live_conns, all_tasks in *. cbn. rewrite H1, H2. cbn. done. }
    destruct (Hz _ Hover) as (Hg0 & Hl0 & Ht0). rewrite Hg0 in *. rewrite Hl0 in Hn. rewrite Ht0 in Hst1.
    split_and!; [|done|lia|intros c Hin; rewrite Forall_forall in Hsl; destruct (Hsl c Hin) as [Hs _], (Hover c Hin) as [_ H0]; rewrite Hs, H0; cbn; lia].
    destruct (se_limiter s) as [[pp t] mpp mg]. cbn in *. unfold with_caps. subst. f_equal. f_equal. by apply map_eq.
Qed.

(** One peer, let in and served, with one stream. *)
Definition one_served : Server := {|
  se_limiter := {| counts := {| per_peer := <[ [7] := 1 ]> ∅; total := 1 |}; max_per_peer := 1; max_global := 1 |};
  se_in_flight := 1; se_streams := {| sl_slots := 0; sl_max_global := 1 |};
  se_conns := [{| cn_phase := Served [7]; cn_slots := 255; cn_tasks := 1 |}] |}.

Lemma one_served_runs : server_runs 1 1 1 1 one_served.
Proof.
  pose proof (SR_new 1 1 1 1) as H.
  pose proof (SR_step _ _ _ _ _ _ H (SS_arrive _ _ _ _)) as H1.
  pose proof (SR_step _ _ _ _ _ _ H1 (SS_established [7] (with_caps 1 1) 1 _ [] conn_new []
    (with_phase (Holding [7]) conn_new) (se_limiter one_served) 1 eq_refl eq_refl)) as H2.
  pose proof (SR_step _ _ _ _ _ _ H2 (SS_serve [7] _ _ _ [] (with_phase (Holding [7]) conn_new) [] eq_refl)) as H3.
  exact (SR_step _ _ _ _ _ _ H3 (SS_stream [7] _ _ (stream_limiter_new 1 1) [] (with_phase (Served [7]) (with_phase (Holding [7]) conn_new)) []
    (se_streams one_served) (Some 255) eq_refl eq_refl)).
Qed.

Lemma connection_counts_exact_witness : se_in_flight one_served = 1 /\ sl_slots (se_streams one_served) = 1 - Z.of_nat (all_tasks (se_conns one_served)).
Proof.
  pose proof (connection_counts_exact 1 1 1 1 one_served) as H.
  destruct (H ltac:(lia) ltac:(lia) ltac:(lia) ltac:(lia) one_served_runs ltac:(vm_compute; reflexivity)) as (_ & _ & _ & H1 & H2 & _).
  split; [exact H1|exact H2].
Defined.
