(* ===== verification/DesktopService.v ===== *)
(** * The elevated service of the desktop (ui-desktop/src-tauri/src/service/)

    The desktop asks a service that runs elevated to start and stop the proxy, over a local
    socket.  The service speaks first, with a nonce; the caller answers with a MAC of both
    nonces under a token that is in a file of its account, and the service proves itself back.
    Nothing is done for a caller before, and the account on the other end has to be the one
    the service was installed for.

    HMAC is a parameter, with its text, and so are the reading of JSON and of a socket address.
    A socket is what its buffer is filled with: a chunk, a failure, or a silence as long as
    the deadline; the candidates are the token files the service found and trusts.  The
    manager of the proxy is the class [Manager].

    The file shows that no command is done for a caller that has not proved both the token and
    the account, that the two sides of the handshake agree, which lines are read and how much
    is ever held, and what a start request has to satisfy. *)

From S2P Require Import Prelude RustStd Authenticator VirtualBlock EndpointGroup.

(** ** Lines (runner/client.rs) *)

Definition MAX_IPC_LINE : Z := 64 * 1024.

Inductive Fill := Chunk (bytes_ : bytes) | Broken | Silent.

Inductive LineRead := LineOk (line : bytes) | TooLong | ReadFailed | TimedOut.

(** [pop] of the terminators, newest first *)
Definition pop_byte (b : Z) (buf : bytes) : bytes := match List.rev buf with c :: rest => if c =? b then List.rev rest else buf | [] => buf end.

(** What is left of a buffer after [consume]. *)
Definition consume (n : nat) (available : bytes) (rest : list Fill) : list Fill :=
  match drop n available with [] => rest | more => Chunk more :: rest end.

(** [read_ipc_line], under a deadline or not. *)
Fixpoint read_ipc_line (deadline : bool) (fills : list Fill) (buf : bytes) : LineRead * list Fill :=
  match fills with
  | [] | Chunk [] :: _ => (LineOk buf, [])
  | Broken :: rest => (ReadFailed, rest)
  | Silent :: rest => if deadline then (TimedOut, rest) else read_ipc_line deadline rest buf
  | Chunk available :: rest =>
      match find_char 10 available with
      | Some at_ =>
          if saturating_sub MAX_IPC_LINE (len buf) <? Z.of_nat (S at_) then (TooLong, fills)
          else (LineOk (pop_byte 13 (pop_byte 10 (buf ++ take (S at_) available))), consume (S at_) available rest)
      | None =>
          if saturating_sub MAX_IPC_LINE (len buf) <? len available then (TooLong, fills)
          else read_ipc_line deadline rest (buf ++ available)
      end
  end.

(** ** The handshake (ipc_token/) *)

Inductive AccountId := Unix (uid : Z) | Windows (sid : bytes).
#[export] Instance AccountId_eq_dec : EqDecision AccountId.
Proof. solve_decision. Defined.

(** [account::allows] *)
Definition allows (installed_by : option AccountId) (peer token_owner : AccountId) : bool :=
  match installed_by with
  | Some installer => bool_decide (peer = installer) && bool_decide (token_owner = installer)
  | None => bool_decide (peer = token_owner)
  end.

Definition mode_is_private (mode : Z) : bool := Z.land mode 18 =? 0.
Definition chain_is_trusted (modes : list Z) : bool := forallb (fun mode => Z.land mode 2 =? 0) modes.

(** What the file system answers about the directory of a token, and about a token. *)
Record Directory := { dir_owner : option AccountId; dir_mode : option Z; dir_chain_modes : option (list Z) }.
Inductive Contents := ReadAs (text : bytes) | NotFound | Unreadable.
Record TokenPath := { tp_contents : Contents; tp_mode : option Z; tp_owner : option AccountId; tp_directory : option Directory }.

Definition reject_world_readable (mode : option Z) : bool :=
  match mode with Some mode => negb (Z.land mode 63 =? 0) | None => false end.

(** [read_token_at]: [None] is the error that is logged and left out. *)
Definition read_token_at (p : TokenPath) : option (option bytes) :=
  match tp_contents p with
  | ReadAs text =>
      let token := trim text in
      if bool_decide (token = []) then Some None else if reject_world_readable (tp_mode p) then None else Some (Some token)
  | NotFound => Some None
  | Unreadable => None
  end.

Definition token_directory_is_trusted (unix : bool) (p : TokenPath) (owner : AccountId) : bool :=
  match tp_directory p with
  | None => false
  | Some d =>
      if negb (bool_decide (dir_owner d = Some owner)) then false
      else if unix then
        match dir_mode d with Some mode => mode_is_private mode | None => false end &&
        match dir_chain_modes d with Some modes => chain_is_trusted modes | None => false end
      else true
  end.

Record TokenCandidate := { tc_token : bytes; tc_owner : AccountId }.

Definition read_candidate_at (unix : bool) (p : TokenPath) : option (option TokenCandidate) :=
  match read_token_at p with
  | None => None
  | Some None => Some None
  | Some (Some token) =>
      match tp_owner p with
      | None => Some None
      | Some owner =>
          if negb (token_directory_is_trusted unix p owner) then Some None
          else Some (Some {| tc_token := token; tc_owner := owner |})
      end
  end.

Definition read_candidates (unix : bool) (service_token_paths : list TokenPath) : list TokenCandidate :=
  omap (fun p => mjoin (read_candidate_at unix p)) service_token_paths.

(** a token is believed only from a file and a directory nobody else could have written: each
    candidate is the trimmed text of a file that only its owner may read, in a directory of
    the same owner; on Unix that directory is writable by nobody else and no directory above
    is writable by everybody. *)
Theorem candidates_private unix paths c : c ∈ read_candidates unix paths ->
  exists p text d, p ∈ paths /\ tp_contents p = ReadAs text /\ tc_token c = trim text /\ tc_token c <> [] /\
    (forall mode, tp_mode p = Some mode -> Z.land mode 63 = 0) /\
    tp_owner p = Some (tc_owner c) /\ tp_directory p = Some d /\ dir_owner d = Some (tc_owner c) /\
    (unix = true -> exists mode modes, dir_mode d = Some mode /\ Z.land mode 18 = 0 /\ dir_chain_modes d = Some modes /\
                      Forall (fun m => Z.land m 2 = 0) modes).
Proof.
  unfold read_candidates. rewrite list_elem_of_omap. intros (p & Hp & Hc). exists p. unfold read_candidate_at, read_token_at in Hc.
  destruct (tp_contents p) as [text| |] eqn:Et; [|done..]. case_bool_decide as Hempty; [done|].
  destruct (reject_world_readable (tp_mode p)) eqn:Er; [done|]. destruct (tp_owner p) as [owner|] eqn:Eo; [|done].
  unfold token_directory_is_trusted in Hc. destruct (tp_directory p) as [d|] eqn:Ed; [|done]. case_bool_decide as Hown; [|done]. cbn [negb] in Hc.
  exists text, d. destruct unix.
  - destruct (dir_mode d) as [mode|] eqn:Em, (dir_chain_modes d) as [modes|] eqn:Ec; cbn in Hc; try done; [|by destruct (mode_is_private mode)].
    destruct (mode_is_private mode) eqn:Hm; [|done]. destruct (chain_is_trusted modes) eqn:Hch; [|done]. cbn in Hc. injection Hc as <-. cbn.
    split_and!; try done.
    + intros m Hm'. rewrite Hm' in Er. cbn in Er. apply negb_false_iff in Er. by apply Z.eqb_eq.
    + intros _. exists mode, modes. split_and!; try done; [by apply Z.eqb_eq|]. apply forallb_Forall in Hch. eapply Forall_impl; [exact Hch|]. intros m. by rewrite Z.eqb_eq.
  - cbn in Hc. injection Hc as <-. cbn. split_and!; try done. intros m Hm'. rewrite Hm' in Er. cbn in Er. apply negb_false_iff in Er. by apply Z.eqb_eq.
Qed.

Section handshake.
(** The lower-case hex of HMAC-SHA256 of a message under a key. *)
Variable hmac_hex : bytes -> bytes -> bytes.

Definition mac_hex (token first second : bytes) : bytes := hmac_hex token (first ++ lit "." ++ second).
Definition auth_mac (token service_nonce caller_nonce : bytes) : bytes := mac_hex token service_nonce caller_nonce.
Definition proof_mac (token service_nonce caller_nonce : bytes) : bytes := mac_hex token caller_nonce service_nonce.

Definition token_for_auth (candidates : list TokenCandidate) (service_nonce caller_nonce presented : bytes) : option TokenCandidate :=
  snd <$> list_find (fun c => constant_time_eq (auth_mac (tc_token c) service_nonce caller_nonce) presented = true) candidates.
Definition proof_matches (token service_nonce caller_nonce presented : bytes) : bool :=
  constant_time_eq (proof_mac token service_nonce caller_nonce) presented.
End handshake.

(** ** The checks on a start (runner/validation.rs) *)

(** [StartError], whose variants have a code each *)
Inductive StartError := NoReachableBackend | TwoFactorRequired | OtherStart.

Inductive AppError :=
| E_unauthorized | E_ipc_token | E_malformed_request | E_no_nodes | E_load_balancing | E_local_addr | E_dns_addr | E_dns_strategy | E_tun_name
| E_node_id | E_not_running | E_start (code : StartError) (detail : bytes).

(** What the caller's side reports, an answer of the service among it. *)
Inductive ClientError := C_unavailable | C_protocol_mismatch | C_ipc_token | C_io_error | C_unauthorized | C_malformed_response | C_answered (e : AppError).

(** An address that was read: the version, the octets as a number, the port. *)
Record SocketAddr := { sa_v4 : bool; sa_ip : Z; sa_port : Z }.

Definition is_loopback (a : SocketAddr) : bool := if sa_v4 a then sa_ip a / 2 ^ 24 =? 127 else sa_ip a =? 1.

Definition require_loopback (addr : option SocketAddr) : result unit AppError :=
  match addr with Some a => if is_loopback a then Ok tt else Err E_local_addr | None => Err E_local_addr end.

Definition require_tun_subnet (addr : option SocketAddr) : result unit AppError :=
  match addr with
  | Some a => if sa_v4 a && existsb (fun base => Z.land (sa_ip a) 0xFFFFFF00 =? base) TUN_BASE_CANDIDATES then Ok tt else Err E_dns_addr
  | None => Err E_dns_addr
  end.

Definition MAX_TUN_NAME_LEN : nat := 64.

Definition is_tun_name_char (c : Z) : bool :=
  is_ascii_digit c || is_ascii_lowercase c || is_ascii_uppercase c || (c =? 45) || (c =? 95) || (c =? 46).

(** [chars().count()]: the bytes that begin a character *)
Definition char_count (s : bytes) : nat := length (filter (fun b => ~ (128 <= b < 192)) s).

Definition require_tun_name (name : bytes) : result unit AppError :=
  if (char_count name =? 0)%nat then Err E_tun_name
  else if (MAX_TUN_NAME_LEN <? char_count name)%nat then Err E_tun_name
  else if existsb (fun c => negb (is_tun_name_char c)) name then Err E_tun_name
  else if starts_with_char 45 name then Err E_tun_name
  else if forallb (fun c => c =? 46) name then Err E_tun_name
  else Ok tt.

Inductive DnsStrategy := Scoped | Global | NoDns.

(** [DnsStrategy::parse] *)
Definition dns_strategy_parse (value : bytes) : option DnsStrategy :=
  let value := to_ascii_lowercase (trim value) in
  if bool_decide (value = lit "scoped") then Some Scoped
  else if bool_decide (value = lit "global") then Some Global
  else if bool_decide (value = lit "none") then Some NoDns
  else None.

(** ** The start request (ipc.rs, runner/messages.rs) *)

Record NodeInput := {
  ni_connection_type : bytes; ni_ticket : bytes; ni_endpoint_id : bytes; ni_domains : list bytes;
  ni_two_factor_client_id : option bytes; ni_two_factor_secret : option bytes; ni_two_factor_algorithm : option bytes;
  ni_two_factor_device : option bytes; ni_device_key : option bytes;
  ni_enrollment_client_id : option bytes; ni_enrollment_token : option bytes; ni_enrollment_device : option bytes;
}.

Record NodeTwoFactor := { tf_client_id : bytes; tf_secret : bytes; tf_algorithm : bytes; tf_device : option bytes }.
Record NodeEnrollment := { ne_client_id : bytes; ne_token : bytes; ne_device : option bytes }.

Definition node_enrollment (n : NodeInput) : option NodeEnrollment :=
  let token := trim (default [] (ni_enrollment_token n)) in
  if bool_decide (token = []) then None
  else Some {| ne_client_id := default [] (ni_enrollment_client_id n); ne_token := token; ne_device := ni_enrollment_device n |}.

Definition node_two_factor (n : NodeInput) : option NodeTwoFactor :=
  let secret := trim (default [] (ni_two_factor_secret n)) in
  if bool_decide (secret = []) && is_none (ni_device_key n) then None
  else Some {| tf_client_id := default [] (ni_two_factor_client_id n); tf_secret := secret;
               tf_algorithm := default (lit "sha1") (ni_two_factor_algorithm n); tf_device := ni_two_factor_device n |}.

Inductive ConnectionConfig := Ticket (ticket : bytes) | EndpointIdOf (id : bytes).

Record ProxyNodeConfig := {
  pn_connection : ConnectionConfig; pn_domains : list bytes; pn_two_factor : option NodeTwoFactor;
  pn_enrollment : option NodeEnrollment; pn_device_key : option bytes;
}.

(** A global domain goes behind the node's own, once. *)
Definition merge_domain (merged : list bytes) (g : bytes) : list bytes := if bool_decide (g ∈ merged) then merged else merged ++ [g].

Definition parse_node (global_domains : list bytes) (n : NodeInput) : ProxyNodeConfig := {|
  pn_connection := if bool_decide (ni_connection_type n = lit "ticket") || negb (bool_decide (ni_ticket n = [])) then Ticket (ni_ticket n) else EndpointIdOf (ni_endpoint_id n);
  pn_domains := foldl merge_domain (ni_domains n) global_domains;
  pn_two_factor := node_two_factor n; pn_enrollment := node_enrollment n; pn_device_key := ni_device_key n |}.

Record StartProxyRequest := {
  sp_nodes : list NodeInput; sp_domains : list bytes; sp_local_addr : option bytes; sp_dns_addr : option bytes; sp_upstream_dns : option bytes;
  sp_dns_strategy : option bytes; sp_load_balancing : option bytes; sp_tun_name : option bytes; sp_use_tun : option bool; sp_use_ipv6 : option bool;
  sp_relay_mode : option bytes; sp_relay_url : option bytes; sp_relay_auth_token : option bytes; sp_discovery_mode : option bytes;
}.

Record ProxyManagerConfig := {
  pc_nodes : list ProxyNodeConfig; pc_local_proxy_addr : bytes; pc_dns_listen_addr : bytes; pc_upstream_dns : bytes; pc_dns_strategy : DnsStrategy;
  pc_load_balancing : LoadBalancingStrategy; pc_tun_name : bytes; pc_use_tun : bool; pc_use_ipv6 : bool;
  pc_relay_mode : bytes; pc_relay_url : bytes; pc_relay_auth_token : bytes; pc_discovery_mode : bytes;
}.

Section start.
Variable parse_addr : bytes -> option SocketAddr.

(** [handle_start_proxy], up to the manager *)
Definition start_config (req : StartProxyRequest) : result ProxyManagerConfig AppError :=
  let global_domains := filter (fun d => trim d <> []) (sp_domains req) in
  let nodes := parse_node global_domains <$> filter (fun n => ni_ticket n <> [] \/ ni_endpoint_id n <> []) (sp_nodes req) in
  if bool_decide (nodes = []) then Err E_no_nodes
  else match strategy_from_name (default (lit "round_robin") (sp_load_balancing req)) with
  | Err _ => Err E_load_balancing
  | Ok load_balancing =>
      let local_addr := default (lit "127.0.0.1:8080") (sp_local_addr req) in
      let? _ := require_loopback (parse_addr local_addr) in
      let dns_addr := default (lit "198.18.0.254:53") (sp_dns_addr req) in
      let? _ := require_tun_subnet (parse_addr dns_addr) in
      match (match sp_dns_strategy req with Some value => dns_strategy_parse value | None => Some Scoped end) with
      | None => Err E_dns_strategy
      | Some dns_strategy =>
          let tun_name := default (lit "nexa-tun") (sp_tun_name req) in
          let? _ := require_tun_name tun_name in
          Ok {| pc_nodes := nodes; pc_local_proxy_addr := local_addr; pc_dns_listen_addr := dns_addr;
                pc_upstream_dns := default (lit "8.8.8.8:53") (sp_upstream_dns req); pc_dns_strategy := dns_strategy;
                pc_load_balancing := load_balancing; pc_tun_name := tun_name; pc_use_tun := default false (sp_use_tun req);
                pc_use_ipv6 := default false (sp_use_ipv6 req); pc_relay_mode := default (lit "pinned") (sp_relay_mode req);
                pc_relay_url := default [] (sp_relay_url req); pc_relay_auth_token := default [] (sp_relay_auth_token req);
                pc_discovery_mode := default (lit "n0") (sp_discovery_mode req) |}
      end
  end.
End start.

(** ** The commands (runner/messages.rs) *)

Inductive Reading := EndpointLinks | NodeHealthOf | NodeTraffic | ActiveFlows.

(** What the proxy's manager promises: [m_stop] takes its tunnel down. *)
Class Manager (M D C : Type) := {
  m_new : ProxyManagerConfig -> M;
  m_mode : M -> option bytes;
  m_node_id : M -> option bytes;
  m_reading : Reading -> M -> D;
  m_empty : Reading -> D;
  m_close_flow : Z -> M -> bool * M;
  m_close_node_flows : bytes -> M -> option Z * M;
  m_take_issued : M -> option C * M;
}.

Inductive IpcMessage :=
| Auth (nonce mac : bytes)
| StartProxy (request : StartProxyRequest)
| StopProxy
| GetStatus
| GetNodeId
| GetReading (what : Reading)
| CloseFlow (id : Z)
| CloseNodeFlows (connection : bytes)
| GetIssuedCredential
| GetStartupError
| GetVersion.

Inductive ProxyStatus := Stopped | Starting | RunningWith (mode : bytes).

Inductive IpcResponse (D C : Type) :=
| R_ok
| R_challenge (nonce : bytes)
| R_auth_ok (mac : bytes)
| R_error (e : AppError)
| R_status (status : ProxyStatus)
| R_node_id (id : bytes)
| R_reading (what : Reading) (d : D)
| R_flow_closed (closed : bool)
| R_node_flows_closed (closed : option Z)
| R_startup_error (e : option AppError)
| R_issued (c : option C)
| R_version (version : bytes).
Arguments R_ok {D C}.
Arguments R_challenge {D C}.
Arguments R_auth_ok {D C}.
Arguments R_error {D C}.
Arguments R_status {D C}.
Arguments R_node_id {D C}.
Arguments R_reading {D C}.
Arguments R_flow_closed {D C}.
Arguments R_node_flows_closed {D C}.
Arguments R_startup_error {D C}.
Arguments R_issued {D C}.
Arguments R_version {D C}.

Section service.
Context {M D C : Type} `{!Manager M D C}.
Variable hmac_hex : bytes -> bytes -> bytes.
Variable parse_addr : bytes -> option SocketAddr.
Variable from_slice : bytes -> option IpcMessage.
Variable BUILD_VERSION : bytes.

(** The registered manager, with the number that stands for its address, the slots beside
    it, and the managers that were started and neither stopped nor failed. *)
Record ServiceState := {
  ss_manager : option (nat * M);
  ss_next : nat;
  ss_startup_error : option AppError;
  ss_stashed : option C;
  ss_alive : list nat;
}.

Definition service_new : ServiceState := {| ss_manager := None; ss_next := 0; ss_startup_error := None; ss_stashed := None; ss_alive := [] |}.

Definition stop_registered (s : ServiceState) : list nat :=
  match ss_manager s with Some (id, _) => filter (fun i => i <> id) (ss_alive s) | None => ss_alive s end.

Definition handle_start_proxy (req : StartProxyRequest) (s : ServiceState) : IpcResponse D C * ServiceState :=
  match start_config parse_addr req with
  | Err e => (R_error e, {| ss_manager := ss_manager s; ss_next := ss_next s; ss_startup_error := None; ss_stashed := None; ss_alive := ss_alive s |})
  | Ok config =>
      (R_ok, {| ss_manager := Some (ss_next s, m_new config); ss_next := S (ss_next s); ss_startup_error := None; ss_stashed := None;
                ss_alive := ss_next s :: stop_registered s |})
  end.

(** The spawned start that failed: its own manager is unregistered, and no other. *)
Definition on_start_failed (id : nat) (code : StartError) (why : bytes) (issued : option C) (s : ServiceState) : ServiceState :=
  {| ss_manager := match ss_manager s with Some (id', m) => if bool_decide (id' = id) then None else Some (id', m) | None => None end;
     ss_next := ss_next s; ss_startup_error := Some (E_start code why); ss_stashed := match issued with Some c => Some c | None => ss_stashed s end;
     ss_alive := filter (fun i => i <> id) (ss_alive s) |}.

Definition handle_stop_proxy (s : ServiceState) : IpcResponse D C * ServiceState :=
  (R_ok, {| ss_manager := None; ss_next := ss_next s; ss_startup_error := None; ss_stashed := ss_stashed s; ss_alive := stop_registered s |}).

Definition with_manager (m : M) (id : nat) (s : ServiceState) : ServiceState :=
  {| ss_manager := Some (id, m); ss_next := ss_next s; ss_startup_error := ss_startup_error s; ss_stashed := ss_stashed s; ss_alive := ss_alive s |}.

Definition handle_get_status (s : ServiceState) : IpcResponse D C :=
  R_status (match ss_manager s with
            | Some (_, m) => match m_mode m with Some mode => RunningWith mode | None => Starting end
            | None => Stopped
            end).

Definition handle_get_issued_credential (s : ServiceState) : IpcResponse D C * ServiceState :=
  match ss_stashed s with
  | Some c => (R_issued (Some c), {| ss_manager := ss_manager s; ss_next := ss_next s; ss_startup_error := ss_startup_error s; ss_stashed := None; ss_alive := ss_alive s |})
  | None =>
      match ss_manager s with
      | Some (id, m) => let '(issued, m) := m_take_issued m in (R_issued issued, with_manager m id s)
      | None => (R_issued None, s)
      end
  end.

(** The match over the messages of a caller that has proved itself. *)
Definition handle_message (msg : IpcMessage) (s : ServiceState) : IpcResponse D C * ServiceState :=
  match msg with
  | StartProxy req => handle_start_proxy req s
  | StopProxy => handle_stop_proxy s
  | GetStatus => (handle_get_status s, s)
  | GetNodeId =>
      (match ss_manager s with
       | Some (_, m) => match m_node_id m with Some id => R_node_id id | None => R_error E_node_id end
       | None => R_error E_not_running
       end, s)
  | GetReading what => (R_reading what (match ss_manager s with Some (_, m) => m_reading what m | None => m_empty what end), s)
  | CloseFlow flow =>
      match ss_manager s with
      | Some (id, m) => let '(closed, m) := m_close_flow flow m in (R_flow_closed closed, with_manager m id s)
      | None => (R_flow_closed false, s)
      end
  | CloseNodeFlows connection =>
      match ss_manager s with
      | Some (id, m) => let '(closed, m) := m_close_node_flows connection m in (R_node_flows_closed closed, with_manager m id s)
      | None => (R_node_flows_closed None, s)
      end
  | GetIssuedCredential => handle_get_issued_credential s
  | GetStartupError => (R_startup_error (ss_startup_error s), s)
  | GetVersion => (R_version BUILD_VERSION, s)
  | Auth _ _ => (R_error E_unauthorized, s)
  end.

(** ** One connection (runner/client.rs) *)

(** What the service knows when a caller connects. *)
Record Caller := { ca_candidates : list TokenCandidate; ca_peer : option AccountId; ca_installed_by : option AccountId; ca_nonce : bytes }.

(** The answer to the first message: the proof, or the refusal with which it ends. *)
Definition authenticate_caller (who : Caller) (msg : IpcMessage) : result (IpcResponse D C) AppError :=
  match msg with
  | Auth caller_nonce presented =>
      let matched := token_for_auth hmac_hex (ca_candidates who) (ca_nonce who) caller_nonce presented in
      match ca_peer who with
      | None => Err E_unauthorized
      | Some peer =>
          match matched with
          | Some candidate =>
              if negb (allows (ca_installed_by who) peer (tc_owner candidate)) then Err E_unauthorized
              else Ok (R_auth_ok (proof_mac hmac_hex (tc_token candidate) (ca_nonce who) caller_nonce))
          | None => if bool_decide (ca_candidates who = []) then Err E_ipc_token else Err E_unauthorized
          end
      end
  | _ => Err E_unauthorized
  end.

(** What happened on a connection, newest last. *)
Inductive Happened := Wrote (r : IpcResponse D C) | Did (msg : IpcMessage).

(** The loop of [handle_client]; [writes] is how many responses the socket still takes. *)
Fixpoint client_loop (fuel : nat) (who : Caller) (authenticated : bool) (writes : nat) (fills : list Fill) (s : ServiceState) : option (list Happened * ServiceState) :=
  match fuel with
  | O => None
  | S fuel =>
      let malformed rest :=
        if negb authenticated then Some ([], s)
        else match writes with
        | O => Some ([], s)
        | S writes => '(t, s') ← client_loop fuel who authenticated writes rest s; Some (Wrote (R_error E_malformed_request) :: t, s')
        end in
      match read_ipc_line (negb authenticated) fills [] with
      | (TimedOut, _) => Some ([], s)
      | (LineOk [], _) => Some ([], s)
      | (ReadFailed, rest) | (TooLong, rest) => malformed rest
      | (LineOk line, rest) =>
          match from_slice line with
          | None => malformed rest
          | Some msg =>
              if negb authenticated then
                match authenticate_caller who msg with
                | Err e => Some (match writes with O => [] | S _ => [Wrote (R_error e)] end, s)
                | Ok proof =>
                    match writes with
                    | O => Some ([], s)
                    | S writes => '(t, s') ← client_loop fuel who true writes rest s; Some (Wrote proof :: t, s')
                    end
                end
              else
                let '(response, s') := handle_message msg s in
                match writes with
                | O => Some ([Did msg], s')
                | S writes => '(t, s'') ← client_loop fuel who true writes rest s'; Some (Did msg :: Wrote response :: t, s'')
                end
          end
      end
  end.

(** [handle_client]: the challenge, and the loop. *)
Definition handle_client (fuel : nat) (who : Caller) (writes : nat) (fills : list Fill) (s : ServiceState) : option (list Happened * ServiceState) :=
  match writes with
  | O => Some ([], s)
  | S writes => '(t, s') ← client_loop fuel who false writes fills s; Some (Wrote (R_challenge (ca_nonce who)) :: t, s')
  end.

(** The first line of a connection is an answer to the challenge under a token that is on
    file, from an account that may. *)
Definition proved (who : Caller) (fills : list Fill) (proof : IpcResponse D C) : Prop :=
  exists line rest caller_nonce candidate peer,
    read_ipc_line true fills [] = (LineOk line, rest) /\
    from_slice line = Some (Auth caller_nonce (auth_mac hmac_hex (tc_token candidate) (ca_nonce who) caller_nonce)) /\
    candidate ∈ ca_candidates who /\ ca_peer who = Some peer /\ allows (ca_installed_by who) peer (tc_owner candidate) = true /\
    proof = R_auth_ok (proof_mac hmac_hex (tc_token candidate) (ca_nonce who) caller_nonce).

Lemma authenticate_caller_ok who msg proof : authenticate_caller who msg = Ok proof ->
  exists caller_nonce candidate peer, msg = Auth caller_nonce (auth_mac hmac_hex (tc_token candidate) (ca_nonce who) caller_nonce) /\
    candidate ∈ ca_candidates who /\ ca_peer who = Some peer /\ allows (ca_installed_by who) peer (tc_owner candidate) = true /\
    proof = R_auth_ok (proof_mac hmac_hex (tc_token candidate) (ca_nonce who) caller_nonce).
Proof.
  unfold authenticate_caller. destruct msg as [caller_nonce presented| | | | | | | | | |]; try done.
  destruct (ca_peer who) as [peer|]; [|done]. unfold token_for_auth.
  destruct (list_find _ (ca_candidates who)) as [[i candidate]|] eqn:Ef; cbn; [|by case_bool_decide].
  apply list_find_Some in Ef as (Hin & Hmac & _). apply constant_time_eq_spec in Hmac.
  destruct (allows _ _ _) eqn:Ea; cbn; [|done]. intros [= <-]. exists caller_nonce, candidate, peer. rewrite Hmac. split_and!; try done.
  by eapply list_elem_of_lookup_2.
Qed.

(** C37: nothing is done for a caller that has not proved itself: whatever is sent, either the
    first line answers the challenge under a token on file, from the account the service
    serves, and is answered with the proof; or no command is done, nothing changes, and the
    caller hears the challenge and at most one refusal. *)
Theorem ipc_gate fuel who writes fills s t s' : handle_client fuel who writes fills s = Some (t, s') ->
  (exists proof later, proved who fills proof /\ t = Wrote (R_challenge (ca_nonce who)) :: Wrote proof :: later) \/
  (s' = s /\ (forall msg, Did msg ∉ t) /\
   (t = [] \/ t = [Wrote (R_challenge (ca_nonce who))] \/ exists e, t = [Wrote (R_challenge (ca_nonce who)); Wrote (R_error e)])).
Proof.
  unfold handle_client. destruct writes as [|writes]; [intros [= <- <-]; right; split_and!; [done|set_solver|by left]|].
  destruct (client_loop fuel who false writes fills s) as [[t0 s0]|] eqn:El; [|done]. cbn. intros [= <- <-].
  destruct fuel as [|fuel]; [done|]. cbn [client_loop negb] in El.
  assert (forall r, (t0, s0) = (r, s) -> r = [] \/ (exists e, r = [Wrote (R_error e)]) ->
    s0 = s /\ (forall msg, Did msg ∉ Wrote (R_challenge (ca_nonce who)) :: t0) /\
    (Wrote (R_challenge (ca_nonce who)) :: t0 = [] \/ Wrote (R_challenge (ca_nonce who)) :: t0 = [Wrote (R_challenge (ca_nonce who))] \/
     exists e, Wrote (R_challenge (ca_nonce who)) :: t0 = [Wrote (R_challenge (ca_nonce who)); Wrote (R_error e)])) as Hend.
  { intros r [= -> ->] [->|[e ->]]; split_and!; try done; [set_solver|by right; left|set_solver|right; right; by exists e]. }
  destruct (read_ipc_line true fills []) as [r rest] eqn:Er.
  destruct r as [line| | |]; [|right; injection El as <- <-; eapply Hend; [done|by left]..].
  destruct line as [|b line]; [right; injection El as <- <-; eapply Hend; [done|by left]|].
  destruct (from_slice (b :: line)) as [msg|] eqn:Em; [|right; injection El as <- <-; eapply Hend; [done|by left]].
  destruct (authenticate_caller who msg) as [proof|e] eqn:Ea.
  - destruct (authenticate_caller_ok _ _ _ Ea) as (cn & candidate & peer & -> & Hin & Hp & Hal & ->).
    destruct writes as [|writes]; [right; injection El as <- <-; eapply Hend; [done|by left]|].
    destruct (client_loop fuel who true writes rest s) as [[t1 s1]|]; [|done]. cbn in El. injection El as <- <-.
    left. eexists _, t1. split; [|done]. exists (b :: line), rest, cn, candidate, peer. split_and!; done.
  - right. injection El as <- <-. eapply Hend; [done|]. destruct writes; [by left|right; by exists e].
Qed.

(** ** The connection ends *)

Definition fill_size (f : Fill) : nat := match f with Chunk b => S (length b) | _ => 1 end.
Definition fills_size (fills : list Fill) : nat := sum_list_with fill_size fills.
(** The buffer of a reader is far smaller than the longest line. *)
Definition buffered (fills : list Fill) : Prop := Forall (fun f => match f with Chunk b => len b <= MAX_IPC_LINE | _ => True end) fills.

Lemma consume_size n available rest : (0 < n <= length available)%nat ->
  (fills_size (consume n available rest) < fills_size (Chunk available :: rest))%nat.
Proof.
  intros Hn. unfold consume, fills_size. pose proof (length_drop available n) as H.
  destruct (drop n available) as [|x more]; cbn [sum_list_with fill_size length] in *; lia.
Qed.

Lemma consume_buffered n available rest : buffered (Chunk available :: rest) -> buffered (consume n available rest).
Proof.
  intros [H1 H2]%Forall_cons. unfold consume. pose proof (length_drop available n). destruct (drop n available) as [|x more]; [done|].
  constructor; [unfold len in *; lia|done].
Qed.

Lemma find_char_lt c s at_ : find_char c s = Some at_ -> (at_ < length s)%nat.
Proof. intros (h & r & -> & <- & _)%find_char_Some. rewrite length_app. cbn. lia. Qed.

(** A read takes something off the socket, unless the connection is over. *)
Lemma read_progress d fills buf r rest : read_ipc_line d fills buf = (r, rest) -> buffered fills ->
  buffered rest /\ (fills_size rest <= fills_size fills)%nat /\
  (buf = [] -> r = LineOk [] \/ r = TimedOut \/ (fills_size rest < fills_size fills)%nat).
Proof.
  revert buf. induction fills as [|f fills IH]; intros buf; cbn [read_ipc_line].
  { intros [= <- <-] _. split_and!; [constructor|lia|]. intros ->. by left. }
  intros Hr Hb. pose proof Hb as [Hf Hfs]%Forall_cons. destruct f as [available| |].
  - destruct available as [|x available']; [simplify_eq; split_and!; [constructor|unfold fills_size; cbn; lia|intros ->; by left]|].
    set (available := x :: available') in *. destruct (find_char 10 available) as [at_|] eqn:Ef; destruct (_ <? _) eqn:Ec; simplify_eq.
    + split_and!; [done|lia|]. intros ->. apply Z.ltb_lt in Ec. apply find_char_lt in Ef. unfold saturating_sub, len in *. cbn [length] in Ec. lia.
    + apply find_char_lt in Ef. split_and!; [by apply consume_buffered|pose proof (consume_size (S at_) available fills ltac:(lia)); lia|].
      intros _. right; right. apply consume_size. lia.
    + split_and!; [done|lia|]. intros ->. apply Z.ltb_lt in Ec. unfold saturating_sub, len in *. cbn [length] in Ec. lia.
    + destruct (IH _ Hr Hfs) as (H1 & H2 & _). unfold fills_size in *. cbn [sum_list_with fill_size] in *. split_and!; [done|lia|]. intros _. right; right. lia.
  - simplify_eq. unfold fills_size. cbn [sum_list_with fill_size]. split_and!; [done|lia|]. intros _. right; right. lia.
  - destruct d; [simplify_eq; unfold fills_size; cbn [sum_list_with fill_size]; split_and!; [done|lia|]; intros _; by right; left|].
    destruct (IH _ Hr Hfs) as (H1 & H2 & _). unfold fills_size in *. cbn [sum_list_with fill_size] in *. split_and!; [done|lia|]. intros _. right; right. lia.
Qed.

(** a connection is served to its end: with a turn for each byte and each fill of its socket
    the loop has stopped by itself, whatever was sent. *)
Theorem client_ends who authenticated writes fills s : buffered fills ->
  exists t s', client_loop (S (fills_size fills)) who authenticated writes fills s = Some (t, s').
Proof.
  assert (forall fuel fills authenticated writes s, buffered fills -> (fills_size fills < fuel)%nat ->
    exists t s', client_loop fuel who authenticated writes fills s = Some (t, s')) as H; [|intros Hb; apply H; [done|lia]].
  clear. induction fuel as [|fuel IH]; intros fills authenticated writes s Hb Hlt; [lia|]. cbn [client_loop].
  destruct (read_ipc_line (negb authenticated) fills []) as [r rest] eqn:Er. destruct (read_progress _ _ _ _ _ Er Hb) as (Hb' & _ & Hp). specialize (Hp eq_refl).
  assert (r <> LineOk [] -> r <> TimedOut -> forall a w s, exists t s', client_loop fuel who a w rest s = Some (t, s')) as Hrec.
  { intros H1 H2 a w s1. apply IH; [done|]. destruct Hp as [?|[?|?]]; [done|done|lia]. }
  assert (r <> LineOk [] -> r <> TimedOut -> exists t s', (if negb authenticated then Some ([], s) else match writes with
      | O => Some ([], s) | S writes => '(t, s') ← client_loop fuel who authenticated writes rest s; Some (Wrote (R_error E_malformed_request) :: t, s') end) = Some (t, s')) as Hmal.
  { intros H1 H2. destruct authenticated; cbn; [|by eauto]. destruct writes as [|w]; [by eauto|]. destruct (Hrec H1 H2 true w s) as (t & s' & ->). by eauto. }
  destruct r as [line| | |]; [|by apply Hmal|by apply Hmal|by eauto]. destruct line as [|b line]; [by eauto|].
  destruct (from_slice (b :: line)) as [msg|]; [|by apply Hmal]. destruct authenticated; cbn [negb].
  - destruct (handle_message msg s) as [response s1]. destruct writes as [|w]; [by eauto|]. destruct (Hrec ltac:(done) ltac:(done) true w s1) as (t & s' & ->). by eauto.
  - destruct (authenticate_caller who msg) as [proof|e]; [|by eauto]. destruct writes as [|w]; [by eauto|].
    destruct (Hrec ltac:(done) ltac:(done) true w s) as (t & s' & ->). by eauto.
Qed.

(** ** One manager at a time *)

(** [shutdown]: the manager is taken out, and stopped. *)
Definition service_shutdown (s : ServiceState) : ServiceState :=
  {| ss_manager := None; ss_next := ss_next s; ss_startup_error := ss_startup_error s; ss_stashed := ss_stashed s; ss_alive := stop_registered s |}.

(** The states of a service, over its callers and the starts that fail behind them. *)
Inductive service_runs : ServiceState -> Prop :=
| sr_new : service_runs service_new
| sr_message s msg : service_runs s -> service_runs (snd (handle_message msg s))
| sr_failed s id code why issued : service_runs s -> (id < ss_next s)%nat -> service_runs (on_start_failed id code why issued s)
| sr_shutdown s : service_runs s -> service_runs (service_shutdown s).

Definition registered (s : ServiceState) : list nat := match ss_manager s with Some (id, _) => [id] | None => [] end.

Lemma stop_registered_nil s : ss_alive s = registered s -> stop_registered s = [].
Proof.
  unfold stop_registered, registered. intros ->. destruct (ss_manager s) as [[id m]|]; [|done].
  rewrite filter_cons. by case_decide.
Qed.

(** a manager that was started and neither stopped nor failed is the registered one, so a
    stop reaches every tunnel there is: through any commands of any callers, any starts over
    one another, and any start that fails late. *)
Theorem one_manager s : service_runs s -> ss_alive s = registered s.
Proof.
  induction 1 as [|s msg Hs IH|s id code why issued Hs IH Hid|s Hs IH]; [done| | |cbn; by rewrite stop_registered_nil].
  - pose proof (stop_registered_nil s IH) as Hnil. destruct msg; cbn; try done.
    + unfold handle_start_proxy. destruct (start_config parse_addr request); cbn; [by rewrite Hnil|done].
    + unfold registered in IH. unfold registered. destruct (ss_manager s) as [[i m]|] eqn:E; cbn; [|by rewrite E]. destruct (m_close_flow id m); cbn. done.
    + unfold registered in IH. unfold registered. destruct (ss_manager s) as [[i m]|] eqn:E; cbn; [|by rewrite E]. destruct (m_close_node_flows connection m); cbn. done.
    + unfold handle_get_issued_credential. destruct (ss_stashed s); cbn; [done|]. unfold registered in *.
      destruct (ss_manager s) as [[i m]|] eqn:E; cbn; [|by rewrite E]. destruct (m_take_issued m); cbn. done.
  - unfold registered in *. cbn. rewrite IH. destruct (ss_manager s) as [[i m]|]; [|done]. rewrite filter_cons. repeat case_decide; case_bool_decide; try done; congruence.
Qed.

(** A start that was replaced and fails afterwards still leaves its failure on file, under
    the start that replaced it: the slot is guarded by nothing, the registration is. *)
Theorem replaced_start_leaves_its_failure s old next code why issued config config' :
  start_config parse_addr old = Ok config -> start_config parse_addr next = Ok config' ->
  let s1 := snd (handle_message (StartProxy old) s) in
  let s2 := snd (handle_message (StartProxy next) s1) in
  let s3 := on_start_failed (ss_next s) code why issued s2 in
  ss_manager s3 = Some (S (ss_next s), m_new config') /\
  handle_message GetStartupError s3 = (R_startup_error (Some (E_start code why)), s3).
Proof.
  intros Ho Hn. cbn. unfold handle_start_proxy. rewrite Ho. cbn. rewrite Hn. cbn. split; [|done].
  case_bool_decide; [lia|done].
Qed.

(** a refused start changes nothing but the slots: what is running goes on. *)
Theorem refused_start_keeps_running req s e : start_config parse_addr req = Err e ->
  let '(response, s') := handle_message (StartProxy req) s in
  response = R_error e /\ ss_manager s' = ss_manager s /\ ss_alive s' = ss_alive s /\ ss_startup_error s' = None /\ ss_stashed s' = None.
Proof. intros He. cbn. unfold handle_start_proxy. rewrite He. by split_and!. Qed.

(** A credential is handed out once: the next question finds the slot empty. *)
Theorem stashed_credential_once s c : ss_stashed s = Some c -> ss_manager s = None ->
  let '(response, s') := handle_message GetIssuedCredential s in
  response = R_issued (Some c) /\ handle_message GetIssuedCredential s' = (R_issued None, s').
Proof. intros Hs Hm. cbn. unfold handle_get_issued_credential. rewrite Hs. cbn. by rewrite Hm. Qed.

(** ** The caller's side (service/ipc_client.rs) *)

(** How a step of the handshake ends for the caller. *)
Inductive Heard := Answer (r : IpcResponse D C) | HeardError (e : ClientError) | NoAnswer.

Definition unexpected : ClientError := C_malformed_response.

(** [IpcClient::handshake]: what is written, and the outcome; [nonce] is the OS's randomness,
    [can_write] the socket. *)
Definition ipc_handshake (token : bytes) (nonce : option bytes) (can_write : bool) (challenge proof : Heard) : list IpcMessage * result unit ClientError :=
  match challenge with
  | NoAnswer => ([], Err C_protocol_mismatch)
  | HeardError e => ([], Err e)
  | Answer (R_challenge service_nonce) =>
      match nonce with
      | None => ([], Err C_ipc_token)
      | Some caller_nonce =>
          if negb can_write then ([], Err C_io_error)
          else
            ([Auth caller_nonce (auth_mac hmac_hex token service_nonce caller_nonce)],
             match proof with
             | NoAnswer => Err C_unauthorized
             | HeardError e => Err e
             | Answer (R_auth_ok mac) => if negb (proof_matches hmac_hex token service_nonce caller_nonce mac) then Err C_unauthorized else Ok tt
             | Answer (R_error e) => Err (C_answered e)
             | Answer _ => Err unexpected
             end)
      end
  | Answer (R_error e) => ([], Err (C_answered e))
  | Answer _ => ([], Err unexpected)
  end.

(** The answer of the service to what a caller wrote. *)
Definition service_answers (who : Caller) (msg : IpcMessage) : Heard :=
  match authenticate_caller who msg with Ok r => Answer r | Err e => Answer (R_error e) end.

(** the two sides of the handshake agree: a caller whose token is on file, from the account
    the service serves, is let in and recognises the service, when no other token on file
    gives the same MAC. *)
Theorem handshake_agrees who token caller_nonce candidate peer :
  candidate ∈ ca_candidates who -> tc_token candidate = token -> ca_peer who = Some peer ->
  (forall c, c ∈ ca_candidates who -> auth_mac hmac_hex (tc_token c) (ca_nonce who) caller_nonce = auth_mac hmac_hex token (ca_nonce who) caller_nonce ->
    tc_token c = token /\ allows (ca_installed_by who) peer (tc_owner c) = true) ->
  let mac := auth_mac hmac_hex token (ca_nonce who) caller_nonce in
  authenticate_caller who (Auth caller_nonce mac) = Ok (R_auth_ok (proof_mac hmac_hex token (ca_nonce who) caller_nonce)) /\
  ipc_handshake token (Some caller_nonce) true (Answer (R_challenge (ca_nonce who))) (service_answers who (Auth caller_nonce mac)) = ([Auth caller_nonce mac], Ok tt).
Proof.
  intros Hin Ht Hp Huniq mac.
  assert (authenticate_caller who (Auth caller_nonce mac) = Ok (R_auth_ok (proof_mac hmac_hex token (ca_nonce who) caller_nonce))) as Hok.
  { cbn. rewrite Hp. unfold token_for_auth. destruct (list_find _ (ca_candidates who)) as [[i c]|] eqn:Ef; cbn.
    - apply list_find_Some in Ef as (Hi & Hm & _). apply constant_time_eq_spec in Hm. destruct (Huniq c) as [-> ->]; [by eapply list_elem_of_lookup_2|done|done].
    - apply list_find_None in Ef. rewrite Forall_forall in Ef. destruct (Ef _ Hin). rewrite Ht. by apply constant_time_eq_spec. }
  split; [done|]. cbn [ipc_handshake negb]. f_equal. unfold service_answers. rewrite Hok.
  assert (proof_matches hmac_hex token (ca_nonce who) caller_nonce (proof_mac hmac_hex token (ca_nonce who) caller_nonce) = true) as ->; [|done].
  by apply constant_time_eq_spec.
Qed.

(** The two nonces read as one text the other way round only when one was chosen knowing the
    other. *)
Lemma nonces_directed service_nonce caller_nonce : 46 ∉ caller_nonce -> ~ caller_nonce `prefix_of` service_nonce ->
  service_nonce ++ lit "." ++ caller_nonce <> caller_nonce ++ lit "." ++ service_nonce.
Proof.
  intros Hdot Hpre Heq. destruct (decide (length caller_nonce <= length service_nonce)%nat) as [Hle|Hgt].
  - apply Hpre. exists (drop (length caller_nonce) service_nonce). apply (f_equal (take (length caller_nonce))) in Heq.
    rewrite take_app_le in Heq by lia. rewrite take_app_length in Heq. by rewrite <- Heq at 1; rewrite take_drop.
  - apply Hdot. apply (f_equal (.!! length service_nonce)) in Heq. cbn beta in Heq. change (lit ".") with [46] in Heq. cbn [app] in Heq. rewrite list_lookup_middle in Heq by done.
    rewrite lookup_app_l in Heq by lia. by eapply list_elem_of_lookup_2.
Qed.

(** what a caller accepts as the service is the MAC of its own nonce under its own token, and
    an echo of its answer is not that: under a MAC that differs on different texts, a peer
    that sends the caller's own answer back is refused, when it chose its nonce without
    knowing the caller's. *)
Theorem caller_accepts_only_proof token caller_nonce w challenge proof written :
  ipc_handshake token (Some caller_nonce) w challenge proof = (written, Ok tt) ->
  exists service_nonce, challenge = Answer (R_challenge service_nonce) /\ proof = Answer (R_auth_ok (proof_mac hmac_hex token service_nonce caller_nonce)) /\
    written = [Auth caller_nonce (auth_mac hmac_hex token service_nonce caller_nonce)] /\
    ((forall a b, hmac_hex token a = hmac_hex token b -> a = b) -> 46 ∉ caller_nonce -> ~ caller_nonce `prefix_of` service_nonce ->
     forall mac, Auth caller_nonce mac ∈ written -> proof <> Answer (R_auth_ok mac)).
Proof.
  destruct challenge as [r|e|]; cbn; [|done..]. destruct r as [|service_nonce| | | | | | | | | |]; try done. destruct w; cbn; [|done].
  destruct proof as [r|e|]; [|done..]. destruct r as [| |mac| | | | | | | | |]; try done.
  destruct (proof_matches _ _ _ _ _) eqn:Hm; cbn; [|done]. intros [= <-]. apply constant_time_eq_spec in Hm as <-. exists service_nonce. split_and!; try done.
  intros Hinj Hdot Hpre mac [= ->]%list_elem_of_singleton [= H]. unfold proof_mac, auth_mac, mac_hex in H. by apply (nonces_directed service_nonce caller_nonce), Hinj.
Qed.

(** [IpcClient::send_message]: what is written, and the outcome, [None] when the last answer
    never comes: nothing bounds the wait for that one. *)
Definition send_message (connected : bool) (token : result bytes ClientError) (nonce : option bytes) (can_write : bool) (challenge proof : Heard)
    (can_send : bool) (response : Heard) (msg : IpcMessage) : list IpcMessage * option (result (IpcResponse D C) ClientError) :=
  if negb connected then ([], Some (Err C_unavailable))
  else match token with
  | Err e => ([], Some (Err e))
  | Ok token =>
      let '(written, outcome) := ipc_handshake token nonce can_write challenge proof in
      match outcome with
      | Err e => (written, Some (Err e))
      | Ok _ =>
          if negb can_send then (written, Some (Err C_io_error))
          else (written ++ [msg], match response with Answer r => Some (Ok r) | HeardError e => Some (Err e) | NoAnswer => None end)
      end
  end.

(** a command leaves the desktop only towards a peer that has proved the token: whatever the
    peer says before, all it gets is at most one answer to its own challenge. *)
Theorem command_only_to_service connected token nonce can_write challenge proof can_send response msg written outcome :
  send_message connected token nonce can_write challenge proof can_send response msg = (written, outcome) ->
  (exists t service_nonce caller_nonce, token = Ok t /\ nonce = Some caller_nonce /\ challenge = Answer (R_challenge service_nonce) /\
     proof = Answer (R_auth_ok (proof_mac hmac_hex t service_nonce caller_nonce)) /\
     prefix written [Auth caller_nonce (auth_mac hmac_hex t service_nonce caller_nonce); msg]) \/
  ((exists e, outcome = Some (Err e)) /\ (written = [] \/ exists caller_nonce mac, written = [Auth caller_nonce mac])).
Proof.
  unfold send_message. destruct connected; cbn; [|intros [= <- <-]; right; eauto]. destruct token as [t|e]; [|intros [= <- <-]; right; eauto].
  destruct nonce as [cn|].
  - destruct (ipc_handshake t (Some cn) can_write challenge proof) as [w [[]|e]] eqn:Eh.
    + apply caller_accepts_only_proof in Eh as (sn & -> & -> & -> & _). intros H. left. exists t, sn, cn. split_and!; try done.
      destruct can_send; simplify_eq/=; [by exists []|by eexists].
    + intros [= <- <-]. right. split; [by eauto|]. destruct challenge as [r| |]; cbn in Eh; simplify_eq; [|by left..].
      destruct r; simplify_eq; try by left. destruct can_write; cbn in Eh; simplify_eq; [right; by eauto|by left].
  - destruct challenge as [r| |]; cbn; [destruct r|..]; intros [= <- <-]; right; split; by eauto.
Qed.
End service.

(** ** Reading lines *)

Definition chunks (cs : list bytes) : list Fill := Chunk <$> cs.

(** A terminated line without its carriage return. *)
Definition strip_cr (line : bytes) : bytes := pop_byte 13 line.

Lemma pop_byte_last b buf : pop_byte b (buf ++ [b]) = buf.
Proof. unfold pop_byte. rewrite rev_app_distr. cbn. rewrite Z.eqb_refl. apply rev_involutive. Qed.

Lemma consume_chunks n available rest : Forall (fun c => c <> []) rest -> exists rest', consume n available (chunks rest) = chunks rest' /\
  Forall (fun c => c <> []) rest' /\ concat rest' = drop n available ++ concat rest.
Proof.
  intros Hr. unfold consume. destruct (drop n available) as [|x more]; [by exists rest|]. exists ((x :: more) :: rest). split_and!; try done. by constructor.
Qed.

(** One fill with no newline in it, with room for it. *)
Lemma read_partial d c fills buf : c <> [] -> 10 ∉ c -> len buf + len c <= MAX_IPC_LINE ->
  read_ipc_line d (Chunk c :: fills) buf = read_ipc_line d fills (buf ++ c).
Proof.
  intros Hc Hnl Hlen. cbn [read_ipc_line]. destruct c as [|x c]; [done|]. rewrite (proj2 (find_char_none 10 (x :: c)) Hnl).
  replace (_ <? _) with false; [done|]. symmetry. apply Z.ltb_ge. unfold saturating_sub. lia.
Qed.

(** One fill with a newline in it. *)
Lemma read_complete d line k fills buf : 10 ∉ line -> len buf + len line + 1 <= MAX_IPC_LINE ->
  read_ipc_line d (Chunk (line ++ 10 :: k) :: fills) buf = (LineOk (strip_cr (buf ++ line)), consume (S (length line)) (line ++ 10 :: k) fills).
Proof.
  intros Hnl Hlen. cbn [read_ipc_line]. pose proof (find_char_app 10 line k Hnl) as Hf.
  destruct (line ++ 10 :: k) as [|x c] eqn:E; [by destruct line|]. rewrite Hf.
  replace (_ <? _) with false; [|symmetry; apply Z.ltb_ge; unfold saturating_sub, len in *; lia]. rewrite <- E. f_equal. f_equal. unfold strip_cr. f_equal.
  rewrite cons_middle, app_assoc, take_app_length' by (rewrite length_app; cbn; lia). rewrite app_assoc. apply pop_byte_last.
Qed.

(** one line is read as it was written, however the socket cuts it: without its newline and a
    carriage return before it, and what follows stays to be read. *)
Theorem line_read_exact d cs buf line rest : Forall (fun c => c <> []) cs -> concat cs = line ++ 10 :: rest -> 10 ∉ line ->
  len buf + len line + 1 <= MAX_IPC_LINE ->
  exists cs', read_ipc_line d (chunks cs) buf = (LineOk (strip_cr (buf ++ line)), chunks cs') /\ Forall (fun c => c <> []) cs' /\ concat cs' = rest.
Proof.
  revert buf line. induction cs as [|c cs IH]; intros buf line Hne Heq Hnl Hlen; [by destruct line|].
  apply Forall_cons in Hne as [Hc Hne]. cbn in Heq. unfold chunks. rewrite fmap_cons. fold (chunks cs).
  assert (forall l, line = c ++ l -> concat cs = l ++ 10 :: rest ->
    exists cs', read_ipc_line d (Chunk c :: chunks cs) buf = (LineOk (strip_cr (buf ++ line)), chunks cs') /\ Forall (fun c => c <> []) cs' /\ concat cs' = rest) as Hmore.
  { intros l -> Hl. rewrite len_app in Hlen. rewrite not_elem_of_app in Hnl. destruct Hnl as [Hn1 Hn2]. pose proof (len_nonneg l).
    rewrite read_partial by (try done; lia). rewrite app_assoc. apply (IH (buf ++ c) l Hne Hl Hn2). rewrite len_app. lia. }
  apply app_eq_inv in Heq as [(k & Hk & Hr)|(k & Hk & Hr)]; [|by apply (Hmore k)].
  destruct k as [|y k]; [rewrite app_nil_r in Hk; subst c; apply (Hmore []); [by rewrite app_nil_r|done]|]. injection Hr as <- Hr. subst c.
  destruct (consume_chunks (S (length line)) (line ++ 10 :: k) cs Hne) as (cs' & H1 & H2 & H3). exists cs'. split_and!; [|done|].
  - by rewrite read_complete, H1.
  - rewrite H3, Hr. f_equal. rewrite cons_middle, app_assoc, drop_app_length' by (rewrite length_app; cbn; lia). done.
Qed.

Lemma len_pop_byte b buf : len (pop_byte b buf) <= len buf.
Proof.
  unfold pop_byte, len. destruct (List.rev buf) as [|c rest] eqn:E; [lia|]. destruct (c =? b); [|lia].
  apply (f_equal length) in E. rewrite length_rev in E. rewrite E, length_rev. cbn. lia.
Qed.

(** no line is ever held beyond the limit, whatever is sent. *)
Theorem line_bounded d fills buf line rest : read_ipc_line d fills buf = (LineOk line, rest) -> len buf <= MAX_IPC_LINE -> len line <= MAX_IPC_LINE.
Proof.
  revert buf. induction fills as [|f fills IH]; intros buf; cbn [read_ipc_line]; [by intros [= <- _]|].
  destruct f as [available| |]; [|done|destruct d; [done|by apply IH]]. destruct available as [|x a]; [by intros [= <- _]|]. set (available := x :: a).
  destruct (find_char 10 available) as [at_|] eqn:Ef; destruct (_ <? _) eqn:Ec; try done; apply Z.ltb_ge in Ec; unfold saturating_sub in Ec; intros Hr Hb.
  - injection Hr as <- _. apply find_char_lt in Ef.
    etrans; [apply len_pop_byte|]. etrans; [apply len_pop_byte|]. rewrite len_app. unfold len in *. cbn [length] in *. rewrite length_take. lia.
  - apply (IH _ Hr). rewrite len_app. lia.
Qed.

(** The end of a line that was too long is read as the next line: what was refused is not
    skipped up to its newline. *)
Theorem too_long_tail_is_next d a c tail k : len a = MAX_IPC_LINE -> 10 ∉ a -> c = tail ++ 10 :: k -> 10 ∉ tail -> len tail + 1 <= MAX_IPC_LINE ->
  read_ipc_line d [Chunk a; Chunk c] [] = (TooLong, [Chunk c]) /\
  read_ipc_line d [Chunk c] [] = (LineOk (strip_cr tail), consume (S (length tail)) c []).
Proof.
  intros Ha Hna -> Hnt Ht. split.
  - rewrite read_partial; [|by intros ->|done|rewrite Ha; rewrite len_nil; lia]. cbn [app]. cbn [read_ipc_line].
    pose proof (find_char_app 10 tail k Hnt) as Hf. destruct (tail ++ 10 :: k) as [|x c] eqn:E; [by destruct tail|]. rewrite Hf.
    replace (_ <? _) with true; [done|]. symmetry. apply Z.ltb_lt. unfold saturating_sub. rewrite Ha. lia.
  - rewrite read_complete; [done|done|]. rewrite len_nil. lia.
Qed.

(** An empty line ends the connection as the end of the stream does: both are a line of no
    bytes, and what was sent behind it is never read. *)
Example empty_line_ends_connection d k : read_ipc_line d [Chunk (10 :: k)] [] = (LineOk [], consume 1 (10 :: k) []) /\ read_ipc_line d [] [] = (LineOk [], []).
Proof. done. Qed.

(** ** What a start has to satisfy *)

Lemma tun_name_char_count name : forallb is_tun_name_char name = true -> char_count name = length name.
Proof.
  rewrite forallb_Forall. unfold char_count. induction 1 as [|c name Hc H IH]; [done|]. rewrite filter_cons_True; [cbn; by rewrite IH|].
  unfold is_tun_name_char, is_ascii_digit, is_ascii_lowercase, is_ascii_uppercase in Hc. bools; lia.
Qed.

(** the names a TUN device may have, and no others: one to 64 ASCII letters, digits, dashes,
    underscores and dots, no dash first, not dots only. *)
Theorem require_tun_name_iff name : require_tun_name name = Ok tt <->
  (1 <= length name <= 64)%nat /\ Forall (fun c => is_tun_name_char c = true) name /\ head name <> Some 45 /\ ~ Forall (fun c => c = 46) name.
Proof.
  unfold require_tun_name. assert (existsb (fun c => negb (is_tun_name_char c)) name = negb (forallb is_tun_name_char name)) as ->.
  { induction name as [|c name IH]; cbn; [done|]. rewrite IH. by destruct (is_tun_name_char c). }
  assert (Forall (fun c => is_tun_name_char c = true) name <-> forallb is_tun_name_char name = true) as ->; [by rewrite forallb_Forall|].
  assert (Forall (fun c => c = 46) name <-> forallb (fun c => c =? 46) name = true) as ->.
  { rewrite forallb_Forall. apply Forall_proper; [intros c; by rewrite Z.eqb_eq|done]. }
  assert (head name <> Some 45 <-> starts_with_char 45 name = false) as ->.
  { destruct name as [|c name]; cbn; [done|]. rewrite Z.eqb_neq. split; [by intros H ->; apply H|intros H [= ?]; by subst]. }
  destruct (forallb is_tun_name_char name) eqn:Ef; cbn [negb].
  - rewrite tun_name_char_count by done. unfold MAX_TUN_NAME_LEN. destruct (Nat.eqb_spec (length name) 0); [split; [done|lia]|].
    destruct (Nat.ltb_spec 64 (length name)); [split; [done|lia]|].
    destruct (starts_with_char 45 name); [split; [done|by intros (_ & _ & [=] & _)]|]. destruct (forallb (fun c => c =? 46) name); [split; [done|by intros (_ & _ & _ & [])]|].
    split; [intros _|done]. split_and!; try done; lia.
  - split; [|by intros (_ & [=] & _)]. repeat case_match; done.
Qed.

Lemma merge_domains_elem (global_domains merged : list bytes) d : d ∈ merged \/ d ∈ global_domains -> d ∈ foldl merge_domain merged global_domains.
Proof.
  revert merged. induction global_domains as [|g gs IH]; intros merged; cbn; [by intros [?|?%elem_of_nil]|].
  intros H. apply IH. unfold merge_domain. case_bool_decide; set_solver.
Qed.

(** what reaches the manager is safe to run elevated: at least one node that names a server,
    a local proxy on the loopback, a DNS server inside a block of the tunnel, a name the
    device may have; and every global domain is a domain of every node. *)
Theorem start_config_safe parse_addr req config : start_config parse_addr req = Ok config ->
  pc_nodes config <> [] /\
  (exists a, parse_addr (pc_local_proxy_addr config) = Some a /\ is_loopback a = true) /\
  (exists a base, parse_addr (pc_dns_listen_addr config) = Some a /\ sa_v4 a = true /\ base ∈ TUN_BASE_CANDIDATES /\ Z.land (sa_ip a) 0xFFFFFF00 = base) /\
  require_tun_name (pc_tun_name config) = Ok tt /\
  (forall n d, n ∈ pc_nodes config -> d ∈ sp_domains req -> trim d <> [] -> d ∈ pn_domains n).
Proof.
  unfold start_config. case_bool_decide as Hn; [done|]. destruct (strategy_from_name _) as [lb|]; [|done].
  destruct (require_loopback _) as [[]|] eqn:Hl; cbn beta iota; [|done]. destruct (require_tun_subnet _) as [[]|] eqn:Hs; cbn beta iota; [|done].
  destruct (match sp_dns_strategy req with Some value => dns_strategy_parse value | None => Some Scoped end) as [ds|]; [|done].
  destruct (require_tun_name _) as [[]|] eqn:Ht; cbn beta iota; [|done]. intros [= <-]. cbn [pc_nodes pc_local_proxy_addr pc_dns_listen_addr pc_tun_name]. split_and!; [done|..|done|].
  - unfold require_loopback in Hl. destruct (parse_addr _) as [a|]; [|done]. exists a. by destruct (is_loopback a).
  - clear Hl. unfold require_tun_subnet in Hs. destruct (parse_addr _) as [a|]; [|done]. destruct (sa_v4 a) eqn:E4; cbn [andb] in Hs; [|done].
    destruct (existsb _ _) eqn:Ee; [|done]. apply existsb_exists in Ee as (base & Hin & Hb). exists a, base. bools. split_and!; try done. by apply list_elem_of_In.
  - intros n d (i & -> & _)%list_elem_of_fmap Hd Hne. cbn. apply merge_domains_elem. right. apply list_elem_of_filter. by split.
Qed.

(** ** A run *)

(** A manager with nothing in it, and two lines. *)
Definition idle_manager : Manager unit unit unit := {|
  m_new := fun _ => tt; m_mode := fun _ => Some (lit "tun"); m_node_id := fun _ => None; m_reading := fun _ _ => tt; m_empty := fun _ => tt;
  m_close_flow := fun _ m => (false, m); m_close_node_flows := fun _ m => (None, m); m_take_issued := fun m => (None, m) |}.
Definition tagged (key text : bytes) : bytes := key ++ lit "#" ++ text.
Definition two_lines (line : bytes) : option IpcMessage :=
  if bool_decide (line = lit "auth") then Some (Auth (lit "cc") (lit "k#ss.cc")) else if bool_decide (line = lit "status") then Some GetStatus else None.
Definition owner_calls : Caller := {|
  ca_candidates := [{| tc_token := lit "j"; tc_owner := Unix 7 |}; {| tc_token := lit "k"; tc_owner := Unix 1000 |}];
  ca_peer := Some (Unix 1000); ca_installed_by := Some (Unix 1000); ca_nonce := lit "ss" |}.
Definition auth_then_status : list Fill := [Chunk (lit "au"); Chunk (lit "th" ++ [13; 10] ++ lit "sta"); Chunk (lit "tus" ++ [10])].

Definition gate_trace : list (@Happened unit unit) := [Wrote (R_challenge (lit "ss")); Wrote (R_auth_ok (lit "k#cc.ss")); Did GetStatus; Wrote (R_status Stopped)].

(** The owner of the token answers the challenge and asks for the status; the service
    answers with its proof first. *)
Lemma ipc_gate_witness :
  let run := @handle_client unit unit unit idle_manager tagged (fun _ => None) two_lines (lit "1") 9 owner_calls 9 auth_then_status service_new in
  run = Some (gate_trace, service_new) /\
  exists proof later, proved tagged two_lines owner_calls auth_then_status proof /\
    gate_trace = Wrote (R_challenge (lit "ss")) :: Wrote proof :: later.
Proof.
  assert (@handle_client unit unit unit idle_manager tagged (fun _ => None) two_lines (lit "1") 9 owner_calls 9 auth_then_status service_new =
    Some (gate_trace, service_new)) as H by (vm_compute; reflexivity).
  split; [exact H|]. destruct (ipc_gate _ _ _ _ _ _ _ _ _ _ _ H) as [Hp|(_ & Hd & _)]; [exact Hp|]. destruct (Hd GetStatus). unfold gate_trace. set_solver.
Defined.

(** The same answer from another account is refused: the token alone does not open. *)
Example other_account_refused :
  @handle_client unit unit unit idle_manager tagged (fun _ => None) two_lines (lit "1") 9
    {| ca_candidates := ca_candidates owner_calls; ca_peer := Some (Unix 1001); ca_installed_by := Some (Unix 1000); ca_nonce := lit "ss" |} 9 auth_then_status service_new =
  Some ([Wrote (R_challenge (lit "ss")); Wrote (R_error E_unauthorized)], service_new).
Proof. by vm_compute. Qed.
