(* ===== verification/Storage.v ===== *)
(** * The configuration on disk (nexapipe/src/storage/file.rs)

    What the server learns while it runs - a secret, an enrollment token, a device, its own
    identity - is written back into the operator's configuration, one entity at a time.  A
    document is a tree of tables; [toml_edit], which parses and renders it, is a pair of
    functions with their round trip.  The file system is a map from paths to files and
    links, and a write passes through the states that a reader, or a process killed at that
    point, would find.

    The file shows that every edit changes its own entity and nothing else of the document
    and that a refused one changes nothing, that a reader finds the old configuration or
    the new one at every moment of a write whose rename is taken, and that writers which
    take the lock and write this way lose none of each other's edits.  Where the rename is
    refused the file is written in place, and the examples at the end show what that
    gives up. *)

From S2P Require Import Prelude RustStd AuthCodec.

(** ** Documents *)

(** What is not table-like - a value, an array - is a leaf; the entries of a table keep the
    order of the file. *)
Inductive Item :=
| Leaf (v : bytes)
| Tbl (entries : list (bytes * Item)).

Definition table : Type := list (bytes * Item).

Fixpoint tget (key : bytes) (t : table) : option Item :=
  match t with
  | [] => None
  | (k, i) :: t => if bool_decide (k = key) then Some i else tget key t
  end.

Definition contains_entry (key : bytes) (t : table) : bool := is_some (tget key t).

(** [insert]: in the place of the entry that is there, or behind the others. *)
Fixpoint tinsert (key : bytes) (i : Item) (t : table) : table :=
  match t with
  | [] => [(key, i)]
  | (k, j) :: t => if bool_decide (k = key) then (key, i) :: t else (k, j) :: tinsert key i t
  end.

Fixpoint tremove (key : bytes) (t : table) : table :=
  match t with
  | [] => []
  | (k, j) :: t => if bool_decide (k = key) then tremove key t else (k, j) :: tremove key t
  end.

Inductive StorageError :=
| SE_read | SE_parse | SE_not_table | SE_exists | SE_no_secret | SE_nothing | SE_credential | SE_device_name | SE_write | SE_lock.

(** An edit of a table, with its answer. *)
Definition Edit (A : Type) : Type := table -> result (table * A) StorageError.

(** [sub_table] and [device_table]: the table at a key, made when it is missing, and what is
    done with it. *)
Definition sub_table {A} (key : bytes) (k : Edit A) : Edit A := fun parent =>
  match tget key parent with
  | Some (Tbl t) => match k t with Ok (t, a) => Ok (tinsert key (Tbl t) parent, a) | Err e => Err e end
  | Some (Leaf _) => Err SE_not_table
  | None => match k [] with Ok (t, a) => Ok (tinsert key (Tbl t) parent, a) | Err e => Err e end
  end.

(** [get_mut(..).and_then(as_table_like_mut)], which makes nothing. *)
Definition existing_table {A} (key : bytes) (k : Edit A) : Edit A := fun parent =>
  match tget key parent with
  | Some (Tbl t) => match k t with Ok (t, a) => Ok (tinsert key (Tbl t) parent, a) | Err e => Err e end
  | _ => Err SE_nothing
  end.

(** ** The edits *)

Inductive ClientSecretWrite := Added | Replaced.

Inductive DeviceCredential := DC_secret (secret : bytes) | DC_public_key (text : bytes).

Section Edits.
(** [parse_public_key] and [public_key_hex] of device_key.rs in one, and the clock of
    [created_at], as the text of its value. *)
Variable canonical_key : bytes -> option bytes.
Variable created_at : bytes.

Definition client_table {A} (client_id : bytes) (k : Edit A) : Edit A :=
  sub_table (lit "auth") (sub_table (lit "clients") (sub_table client_id k)).

Definition write_client_secret (client_id secret : bytes) (force : bool) : Edit ClientSecretWrite :=
  client_table client_id (fun client =>
    let replaced := contains_entry (lit "secret") client in
    if replaced && negb force then Err SE_exists
    else Ok (tinsert (lit "secret") (Leaf secret) client, if replaced then Replaced else Added)).

Definition write_pending_enrollment (client_id token : bytes) : Edit unit :=
  client_table client_id (fun client =>
    if negb (contains_entry (lit "secret") client) then Err SE_no_secret
    else Ok (tinsert (lit "pending_enrollment") (Leaf token) client, tt)).

Definition complete_enrollment (client_id secret : bytes) : Edit unit :=
  client_table client_id (fun client =>
    Ok (tremove (lit "pending_enrollment") (tinsert (lit "secret") (Leaf secret) client), tt)).

Definition device_entry (credential : DeviceCredential) : result Item StorageError :=
  match credential with
  | DC_secret secret =>
      if bool_decide (secret = []) then Err SE_credential
      else Ok (Tbl [(lit "secret", Leaf secret); (lit "created_at", Leaf created_at)])
  | DC_public_key text =>
      match canonical_key text with
      | Some key => Ok (Tbl [(lit "public_key", Leaf key); (lit "created_at", Leaf created_at)])
      | None => Err SE_credential
      end
  end.

Definition complete_device_enrollment (client_id device : bytes) (credential : DeviceCredential) : Edit unit :=
  client_table client_id (fun client =>
    match sub_table (lit "devices") (fun devices =>
            match device_entry credential with Ok e => Ok (tinsert device e devices, tt) | Err e => Err e end) client with
    | Ok (client, _) => Ok (tremove (lit "pending_enrollment") client, tt)
    | Err e => Err e
    end).

Definition write_device_credential (client_id device : bytes) (credential : DeviceCredential) (force : bool) : Edit ClientSecretWrite := fun doc =>
  if negb (is_presentable_device_id device) then Err SE_device_name
  else
    client_table client_id (fun client =>
      if negb (contains_entry (lit "secret") client) then Err SE_no_secret
      else
        sub_table (lit "devices") (fun devices =>
          let replaced := contains_entry device devices in
          if replaced && negb force then Err SE_exists
          else match device_entry credential with
               | Ok e => Ok (tinsert device e devices, if replaced then Replaced else Added)
               | Err e => Err e
               end) client) doc.

Definition remove_device (client_id device : bytes) : Edit unit :=
  existing_table (lit "auth") (existing_table (lit "clients") (existing_table client_id (existing_table (lit "devices") (fun devices =>
    if contains_entry device devices then Ok (tremove device devices, tt) else Err SE_nothing)))).

Definition remove_client (client_id : bytes) : Edit unit :=
  existing_table (lit "auth") (existing_table (lit "clients") (fun clients =>
    if contains_entry client_id clients then Ok (tremove client_id clients, tt) else Err SE_nothing)).

Definition write_endpoint_key (key : bytes) : Edit unit :=
  sub_table (lit "iroh") (fun iroh_table => Ok (tinsert (lit "secret_key") (Leaf key) iroh_table, tt)).
End Edits.

(** ** What an edit touches *)

(** The value at a path of keys. *)
Fixpoint leaf_at (p : list bytes) (t : table) : option bytes :=
  match p with
  | [] => None
  | key :: p =>
      match tget key t with
      | None => None
      | Some (Leaf v) => if bool_decide (p = []) then Some v else None
      | Some (Tbl t) => leaf_at p t
      end
  end.

Definition changes_only (S : list bytes -> Prop) (t t' : table) : Prop := forall p, ~ S p -> leaf_at p t' = leaf_at p t.

Lemma tget_insert key i t k : tget k (tinsert key i t) = if bool_decide (k = key) then Some i else tget k t.
Proof.
  induction t as [|[k' j] t IH]; cbn.
  - destruct (decide (key = k)) as [->|Hn]; [by rewrite !bool_decide_eq_true_2|]. by rewrite !bool_decide_eq_false_2.
  - destruct (decide (k' = key)) as [->|Hn].
    + rewrite bool_decide_eq_true_2 by done. cbn. destruct (decide (k = key)) as [->|Hk]; [by rewrite !bool_decide_eq_true_2|].
      by rewrite !bool_decide_eq_false_2 by done.
    + rewrite (bool_decide_eq_false_2 (k' = key)) by done. cbn. destruct (decide (k' = k)) as [->|Hk].
      * rewrite (bool_decide_eq_true_2 (k = k)) by done. by rewrite bool_decide_eq_false_2.
      * by rewrite (bool_decide_eq_false_2 (k' = k)) by done.
Qed.

Lemma tget_remove key t k : tget k (tremove key t) = if bool_decide (k = key) then None else tget k t.
Proof.
  induction t as [|[k' j] t IH]; cbn; [by case_bool_decide|]. destruct (decide (k' = key)) as [->|Hn].
  - rewrite (bool_decide_eq_true_2 (key = key)), IH by done. case_bool_decide as E; [done|]. by rewrite bool_decide_eq_false_2 by done.
  - rewrite (bool_decide_eq_false_2 (k' = key)) by done. cbn. destruct (decide (k' = k)) as [->|Hk].
    + rewrite (bool_decide_eq_true_2 (k = k)) by done. by rewrite bool_decide_eq_false_2.
    + by rewrite (bool_decide_eq_false_2 (k' = k)).
Qed.

Lemma leaf_at_insert_ne key i t k p : k <> key -> leaf_at (k :: p) (tinsert key i t) = leaf_at (k :: p) t.
Proof. intros Hk. cbn. by rewrite tget_insert, bool_decide_eq_false_2. Qed.

Lemma leaf_at_remove_ne key t k p : k <> key -> leaf_at (k :: p) (tremove key t) = leaf_at (k :: p) t.
Proof. intros Hk. cbn. by rewrite tget_remove, bool_decide_eq_false_2. Qed.

(** The paths at a key and under it. *)
Definition under (path : list bytes) (p : list bytes) : Prop := path `prefix_of` p.
Definition below (key : bytes) (S : list bytes -> Prop) (p : list bytes) : Prop := exists q, p = key :: q /\ S q.

Lemma changes_insert key i t : changes_only (under [key]) t (tinsert key i t).
Proof.
  intros p Hp. destruct p as [|k p]; [done|]. apply leaf_at_insert_ne. intros ->. apply Hp. by exists p.
Qed.

Lemma changes_remove key t : changes_only (under [key]) t (tremove key t).
Proof. intros p Hp. destruct p as [|k p]; [done|]. apply leaf_at_remove_ne. intros ->. apply Hp. by exists p. Qed.

Lemma changes_trans (S T : list bytes -> Prop) t u v : changes_only S t u -> changes_only T u v -> changes_only (fun p => S p \/ T p) t v.
Proof. intros H1 H2 p Hp. rewrite H2 by tauto. apply H1. tauto. Qed.

Lemma changes_weaken (S T : list bytes -> Prop) t u : (forall p, S p -> T p) -> changes_only S t u -> changes_only T t u.
Proof. intros Hs H1 p Hp. apply H1. intros Hsp. by apply Hp, Hs. Qed.

(** An edit of the table at a key changes what it changes there, and answers what it
    answers. *)
Lemma sub_table_spec {A} key (k : Edit A) t t' a :
  sub_table key k t = Ok (t', a) ->
  exists u u', k u = Ok (u', a) /\ tget key t' = Some (Tbl u') /\ (tget key t = Some (Tbl u) \/ tget key t = None /\ u = []) /\
    forall S, changes_only S u u' -> changes_only (below key S) t t'.
Proof.
  assert (forall u u', (tget key t = Some (Tbl u) \/ tget key t = None /\ u = []) -> forall S, changes_only S u u' ->
    changes_only (below key S) t (tinsert key (Tbl u') t)) as Hc.
  { intros u u' Hu S HS p Hp. destruct p as [|k' p]; [done|]. destruct (decide (k' = key)) as [->|Hk]; [|by apply leaf_at_insert_ne].
    cbn. rewrite tget_insert, bool_decide_eq_true_2 by done. rewrite HS by (intros Hs; apply Hp; by exists p).
    destruct Hu as [->|[-> ->]]; [done|]. by destruct p. }
  unfold sub_table. destruct (tget key t) as [[v|u]|] eqn:E; [done|..].
  - destruct (k u) as [[u' a']|e] eqn:Ek; [|done]. intros [= <- <-]. exists u, u'. rewrite tget_insert, bool_decide_eq_true_2 by done. split; [done|].
    split; [done|]. split; [by left|]. apply Hc. by left.
  - destruct (k []) as [[u' a']|e] eqn:Ek; [|done]. intros [= <- <-]. exists [], u'. rewrite tget_insert, bool_decide_eq_true_2 by done. split; [done|].
    split; [done|]. split; [by right|]. apply Hc. by right.
Qed.

Lemma existing_table_sub {A} key (k : Edit A) t t' a : existing_table key k t = Ok (t', a) -> sub_table key k t = Ok (t', a).
Proof. unfold existing_table, sub_table. by destruct (tget key t) as [[]|]. Qed.

Lemma leaf_at_cons key u p t : tget key t = Some (Tbl u) -> leaf_at (key :: p) t = leaf_at p u.
Proof. intros H. cbn. by rewrite H. Qed.

Lemma sub_table_leaves {A} key (k : Edit A) t t' a :
  sub_table key k t = Ok (t', a) ->
  exists u u', k u = Ok (u', a) /\ (forall p, leaf_at (key :: p) t' = leaf_at p u') /\ (forall p, leaf_at (key :: p) t = leaf_at p u) /\
    forall S, changes_only S u u' -> changes_only (below key S) t t'.
Proof.
  intros (u & u' & Hk & Hg & Hu & Hc)%sub_table_spec. exists u, u'. split; [done|]. split; [intros p; by apply leaf_at_cons|]. split; [|done].
  intros p. destruct Hu as [Hu|[Hu ->]]; [by apply leaf_at_cons|]. cbn. rewrite Hu. by destruct p.
Qed.

Definition client_path (client_id : bytes) : list bytes := [lit "auth"; lit "clients"; client_id].

Lemma client_table_leaves {A} c (k : Edit A) t t' a :
  client_table c k t = Ok (t', a) ->
  exists u u', k u = Ok (u', a) /\ (forall p, leaf_at (client_path c ++ p) t' = leaf_at p u') /\ (forall p, leaf_at (client_path c ++ p) t = leaf_at p u) /\
    forall S, changes_only S u u' -> changes_only (fun p => exists q, p = client_path c ++ q /\ S q) t t'.
Proof.
  intros (u1 & u1' & H1 & L1 & M1 & C1)%sub_table_leaves. apply sub_table_leaves in H1 as (u2 & u2' & H2 & L2 & M2 & C2).
  apply sub_table_leaves in H2 as (u3 & u3' & H3 & L3 & M3 & C3). exists u3, u3'. split; [done|].
  split; [intros p; cbn [client_path app]; by rewrite L1, L2, L3|]. split; [intros p; cbn [client_path app]; by rewrite M1, M2, M3|].
  intros S HS. eapply changes_weaken; [|apply C1, C2, C3, HS]. unfold below. intros p (q1 & -> & q2 & -> & q3 & -> & Hq). by exists q3.
Qed.

(** The edits as operations, and the paths each may change. *)
Inductive StorageOp :=
| OpSecret (client_id secret : bytes) (force : bool)
| OpPending (client_id token : bytes)
| OpComplete (client_id secret : bytes)
| OpCompleteDevice (client_id device : bytes) (credential : DeviceCredential)
| OpDevice (client_id device : bytes) (credential : DeviceCredential) (force : bool)
| OpRemoveDevice (client_id device : bytes)
| OpRemoveClient (client_id : bytes)
| OpEndpointKey (key : bytes).

Section Ops.
Variable canonical_key : bytes -> option bytes.
Variable created_at : bytes.

Definition document {A} (r : result (table * A) StorageError) : result table StorageError :=
  match r with Ok (t, _) => Ok t | Err e => Err e end.

Definition apply_op (op : StorageOp) (doc : table) : result table StorageError :=
  match op with
  | OpSecret c s force => document (write_client_secret c s force doc)
  | OpPending c token => document (write_pending_enrollment c token doc)
  | OpComplete c s => document (complete_enrollment c s doc)
  | OpCompleteDevice c d cred => document (complete_device_enrollment canonical_key created_at c d cred doc)
  | OpDevice c d cred force => document (write_device_credential canonical_key created_at c d cred force doc)
  | OpRemoveDevice c d => document (remove_device c d doc)
  | OpRemoveClient c => document (remove_client c doc)
  | OpEndpointKey key => document (write_endpoint_key key doc)
  end.

Definition touches (op : StorageOp) (p : list bytes) : Prop :=
  match op with
  | OpSecret c _ _ => under (client_path c ++ [lit "secret"]) p
  | OpPending c _ => under (client_path c ++ [lit "pending_enrollment"]) p
  | OpComplete c _ => under (client_path c ++ [lit "secret"]) p \/ under (client_path c ++ [lit "pending_enrollment"]) p
  | OpCompleteDevice c d _ => under (client_path c ++ [lit "devices"; d]) p \/ under (client_path c ++ [lit "pending_enrollment"]) p
  | OpDevice c d _ _ | OpRemoveDevice c d => under (client_path c ++ [lit "devices"; d]) p
  | OpRemoveClient c => under (client_path c) p
  | OpEndpointKey _ => under [lit "iroh"; lit "secret_key"] p
  end.

(** A device of the document has this credential and no other. *)
Definition holds_credential (path : list bytes) (credential : DeviceCredential) (doc : table) : Prop :=
  match credential with
  | DC_secret secret => secret <> [] /\ leaf_at (path ++ [lit "secret"]) doc = Some secret /\ leaf_at (path ++ [lit "public_key"]) doc = None
  | DC_public_key text =>
      exists key, canonical_key text = Some key /\ leaf_at (path ++ [lit "public_key"]) doc = Some key /\ leaf_at (path ++ [lit "secret"]) doc = None
  end.

(** What an edit promises of the document it made from another. *)
Definition promised (op : StorageOp) (before after : table) : Prop :=
  match op with
  | OpSecret c s force =>
      leaf_at (client_path c ++ [lit "secret"]) after = Some s /\ (force = false -> leaf_at (client_path c ++ [lit "secret"]) before = None)
  | OpPending c token => leaf_at (client_path c ++ [lit "pending_enrollment"]) after = Some token
  | OpComplete c s =>
      leaf_at (client_path c ++ [lit "secret"]) after = Some s /\ leaf_at (client_path c ++ [lit "pending_enrollment"]) after = None
  | OpCompleteDevice c d cred =>
      holds_credential (client_path c ++ [lit "devices"; d]) cred after /\ leaf_at (client_path c ++ [lit "pending_enrollment"]) after = None
  | OpDevice c d cred _ => is_presentable_device_id d = true /\ holds_credential (client_path c ++ [lit "devices"; d]) cred after
  | OpRemoveDevice c d => forall q, leaf_at (client_path c ++ lit "devices" :: d :: q) after = None
  | OpRemoveClient c => forall q, leaf_at (client_path c ++ q) after = None
  | OpEndpointKey key => leaf_at [lit "iroh"; lit "secret_key"] after = Some key
  end.

Lemma leaf_insert key v t : leaf_at [key] (tinsert key (Leaf v) t) = Some v.
Proof. cbn. by rewrite tget_insert, bool_decide_eq_true_2. Qed.

Lemma leaf_removed key t q : leaf_at (key :: q) (tremove key t) = None.
Proof. cbn. by rewrite tget_remove, bool_decide_eq_true_2. Qed.

Lemma absent_leaf key t q : contains_entry key t = false -> leaf_at (key :: q) t = None.
Proof. unfold contains_entry. cbn. by destruct (tget key t). Qed.

Lemma entry_credential d cred e t path (doc : table) :
  device_entry canonical_key created_at cred = Ok e -> (forall q, leaf_at (path ++ q) doc = leaf_at (d :: q) (tinsert d e t)) ->
  holds_credential path cred doc.
Proof.
  intros He Hl. assert (forall q, leaf_at (path ++ q) doc = match e with Tbl u => leaf_at q u | Leaf v => if bool_decide (q = []) then Some v else None end) as Hq.
  { intros q. rewrite Hl. cbn. by rewrite tget_insert, bool_decide_eq_true_2. }
  unfold device_entry in He. destruct cred as [secret|text]; cbn [holds_credential].
  - case_bool_decide as Hs; [done|]. injection He as <-. split; [done|]. by rewrite !Hq.
  - destruct (canonical_key text) as [key|]; [|done]. injection He as <-. exists key. split; [done|]. by rewrite !Hq.
Qed.

(** The edits that put a device, on the table of its client. *)
Lemma device_put {A} d cred (k : Edit A) client client' a :
  (forall u u' a, k u = Ok (u', a) -> exists e, device_entry canonical_key created_at cred = Ok e /\ u' = tinsert d e u) ->
  sub_table (lit "devices") k client = Ok (client', a) ->
  exists e t, device_entry canonical_key created_at cred = Ok e /\ (forall q, leaf_at (lit "devices" :: d :: q) client' = leaf_at (d :: q) (tinsert d e t)) /\
    changes_only (under [lit "devices"; d]) client client'.
Proof.
  intros Hput (u & u' & Hk & Hl & _ & Hc)%sub_table_leaves. destruct (Hput _ _ _ Hk) as (e & He & ->).
  exists e, u. split; [done|]. split; [intros q; apply Hl|]. eapply changes_weaken; [|apply Hc, changes_insert].
  intros p (q & -> & [r ->]). by exists r.
Qed.

Lemma existing_table_leaves {A} key (k : Edit A) t t' a :
  existing_table key k t = Ok (t', a) ->
  exists u u', k u = Ok (u', a) /\ (forall p, leaf_at (key :: p) t' = leaf_at p u') /\
    forall S, changes_only S u u' -> changes_only (below key S) t t'.
Proof. intros (u & u' & Hk & Hl & _ & Hc)%existing_table_sub%sub_table_leaves. by exists u, u'. Qed.

Lemma under_client c q p : (exists r, p = client_path c ++ r /\ under q r) -> under (client_path c ++ q) p.
Proof. intros (r & -> & [s ->]). exists s. by rewrite <- app_assoc. Qed.

Definition edited (op : StorageOp) (doc doc' : table) : Prop := changes_only (touches op) doc doc' /\ promised op doc doc'.

Lemma edited_secret c s force doc doc' a : write_client_secret c s force doc = Ok (doc', a) -> edited (OpSecret c s force) doc doc'.
Proof.
  intros (u & u' & Hk & Hl & Hm & Hc)%client_table_leaves. cbv beta zeta in Hk. destruct (contains_entry (lit "secret") u && negb force) eqn:E; [done|]. injection Hk as <- _.
  split; [|split].
  - eapply changes_weaken; [|apply Hc, changes_insert]. apply under_client.
  - rewrite Hl. apply leaf_insert.
  - intros ->. rewrite Hm. apply absent_leaf. by rewrite andb_true_r in E.
Qed.

Lemma edited_pending c token doc doc' a : write_pending_enrollment c token doc = Ok (doc', a) -> edited (OpPending c token) doc doc'.
Proof.
  intros (u & u' & Hk & Hl & Hm & Hc)%client_table_leaves. cbv beta zeta in Hk. destruct (negb _); [done|]. injection Hk as <- _. split.
  - eapply changes_weaken; [|apply Hc, changes_insert]. apply under_client.
  - cbn [promised]. rewrite Hl. apply leaf_insert.
Qed.

Lemma edited_complete c s doc doc' a : complete_enrollment c s doc = Ok (doc', a) -> edited (OpComplete c s) doc doc'.
Proof.
  intros (u & u' & Hk & Hl & Hm & Hc)%client_table_leaves. cbv beta zeta in Hk. injection Hk as <- _. split; [|split].
  - eapply changes_weaken; [|apply Hc; eapply changes_trans; [apply changes_insert|apply changes_remove]].
    intros p (q & -> & [Hq|Hq]); [left|right]; apply under_client; by eexists.
  - rewrite Hl, leaf_at_remove_ne by done. apply leaf_insert.
  - rewrite Hl. apply leaf_removed.
Qed.

Lemma edited_complete_device c d cred doc doc' a :
  complete_device_enrollment canonical_key created_at c d cred doc = Ok (doc', a) -> edited (OpCompleteDevice c d cred) doc doc'.
Proof.
  intros (u & u' & Hk & Hl & Hm & Hc)%client_table_leaves. cbv beta zeta in Hk. destruct (sub_table _ _ u) as [[v b]|] eqn:E; [|done]. injection Hk as <- _.
  apply (device_put d cred) in E as (e & t & He & Hd & Hch).
  2:{ intros w w' b'. destruct (device_entry _ _ cred) as [e|]; [|done]. intros [= <- _]. by exists e. }
  split; [|split].
  - eapply changes_weaken; [|apply Hc; eapply changes_trans; [exact Hch|apply changes_remove]].
    intros p (q & -> & [Hq|Hq]); [left|right]; apply under_client; by eexists.
  - eapply entry_credential; [exact He|]. intros q. rewrite <- app_assoc, Hl. cbn [app]. rewrite leaf_at_remove_ne by done. apply Hd.
  - rewrite Hl. apply leaf_removed.
Qed.

Lemma edited_device c d cred force doc doc' a :
  write_device_credential canonical_key created_at c d cred force doc = Ok (doc', a) -> edited (OpDevice c d cred force) doc doc'.
Proof.
  unfold write_device_credential. destruct (is_presentable_device_id d) eqn:Ed; [|done]. cbn [negb].
  intros (u & u' & Hk & Hl & Hm & Hc)%client_table_leaves. cbv beta zeta in Hk. destruct (negb _); [done|]. apply (device_put d cred) in Hk as (e & t & He & Hd & Hch).
  2:{ intros w w' b'. destruct (_ && _); [done|]. destruct (device_entry _ _ cred) as [e|]; [|done]. intros [= <- _]. by exists e. }
  split; [|split; [done|]].
  - eapply changes_weaken; [|apply Hc; exact Hch]. apply under_client.
  - eapply entry_credential; [exact He|]. intros q. rewrite <- app_assoc, Hl. apply Hd.
Qed.

Lemma edited_remove_device c d doc doc' a : remove_device c d doc = Ok (doc', a) -> edited (OpRemoveDevice c d) doc doc'.
Proof.
  intros (u1 & u1' & H1 & L1 & C1)%existing_table_leaves. apply existing_table_leaves in H1 as (u2 & u2' & H2 & L2 & C2).
  apply existing_table_leaves in H2 as (u3 & u3' & H3 & L3 & C3). apply existing_table_leaves in H3 as (u4 & u4' & H4 & L4 & C4).
  destruct (contains_entry d u4); [|done]. injection H4 as <- _. split.
  - eapply changes_weaken; [|apply C1, C2, C3, C4, changes_remove]. unfold below. intros p (q1 & -> & q2 & -> & q3 & -> & q4 & -> & [r ->]). by exists r.
  - intros q. cbn [client_path app]. rewrite L1, L2, L3, L4. apply leaf_removed.
Qed.

Lemma edited_remove_client c doc doc' a : remove_client c doc = Ok (doc', a) -> edited (OpRemoveClient c) doc doc'.
Proof.
  intros (u1 & u1' & H1 & L1 & C1)%existing_table_leaves. apply existing_table_leaves in H1 as (u2 & u2' & H2 & L2 & C2).
  destruct (contains_entry c u2); [|done]. injection H2 as <- _. split.
  - eapply changes_weaken; [|apply C1, C2, changes_remove]. unfold below. intros p (q1 & -> & q2 & -> & [r ->]). by exists r.
  - intros q. cbn [client_path app]. rewrite L1, L2. apply leaf_removed.
Qed.

Lemma edited_endpoint_key key doc doc' a : write_endpoint_key key doc = Ok (doc', a) -> edited (OpEndpointKey key) doc doc'.
Proof.
  intros (u & u' & Hk & Hl & _ & Hc)%sub_table_leaves. injection Hk as <- _. split.
  - eapply changes_weaken; [|apply Hc, changes_insert]. intros p (q & -> & [r ->]). by exists r.
  - cbn [promised]. rewrite Hl. apply leaf_insert.
Qed.

(** C27: an edit of the configuration that succeeds does to its own entity what it promises
    - the secret, the token, the device with this credential and no other, or nothing left
    of what was revoked - and every other value of the document, at whatever path, is the
    one it was. *)
Theorem storage_edit_exact op doc doc' :
  apply_op op doc = Ok doc' -> (forall p, ~ touches op p -> leaf_at p doc' = leaf_at p doc) /\ promised op doc doc'.
Proof.
  assert (forall A (r : result (table * A) StorageError), document r = Ok doc' -> exists a, r = Ok (doc', a)) as Hd.
  { intros A [[t a]|e]; [|done]. intros [= ->]. by exists a. }
  destruct op; cbn [apply_op]; intros H; apply Hd in H as [a H].
  - by eapply edited_secret.
  - by eapply edited_pending.
  - by eapply edited_complete.
  - by eapply edited_complete_device.
  - by eapply edited_device.
  - by eapply edited_remove_device.
  - by eapply edited_remove_client.
  - by eapply edited_endpoint_key.
Qed.
End Ops.

(** ** Replacing the file *)

(** A path, after joining: a link holds the path it leads to from its own directory. *)
Inductive Node := File (contents : bytes) (mode : Z) | Link (dest : bytes).
Abbreviation FileSystem := (gmap bytes Node).

Definition PRIVATE : Z := 0x180.
(** How many links the system follows. *)
Definition MAX_LINKS : nat := 40.

Fixpoint resolve (fuel : nat) (fs : FileSystem) (p : bytes) : bytes :=
  match fuel with
  | O => p
  | S fuel => match fs !! p with Some (Link d) => resolve fuel fs d | _ => p end
  end.

(** [fs::read_to_string]. *)
Definition read_file (fs : FileSystem) (p : bytes) : option bytes :=
  match fs !! resolve MAX_LINKS fs p with Some (File c _) => Some c | _ => None end.

(** How the calls of one write come out: the bytes a write has put down when it fails. *)
Record Disk := {
  dk_open : bool;
  dk_write : option nat;
  dk_sync : bool;
  dk_remove : bool;
  dk_rename : bool;
  dk_chmod : bool;
  dk_open_in_place : bool;
  dk_in_place : option nat;
  dk_chmod_after : bool;
  dk_umask_mode : Z;
}.

(** The states a file passes through as its contents are written. *)
Definition growing (p : bytes) (mode : Z) (contents : bytes) (n : nat) (fs : FileSystem) : list FileSystem :=
  (fun k => <[p := File (take k contents) mode]> fs) <$> seq 0 (S n).

(** [let _ = fs::remove_file(&temp)]: whether it worked is not looked at. *)
Definition remove_temp (dk : Disk) (temp : bytes) (fs : FileSystem) : FileSystem := if dk_remove dk then delete temp fs else fs.

(** Writing in place, when the rename is refused. *)
Definition write_in_place (dk : Disk) (target contents : bytes) (fs : FileSystem) : list FileSystem * result unit StorageError :=
  let real := resolve MAX_LINKS fs target in
  let write (mode : Z) (before : list FileSystem) (fs : FileSystem) :=
    if negb (dk_open_in_place dk) then (before, Err SE_write)
    else match dk_in_place dk with
    | Some n => (before ++ growing real mode contents n fs, Err SE_write)
    | None =>
        let states := before ++ growing real mode contents (length contents) fs in
        if dk_chmod_after dk then (states ++ [<[real := File contents PRIVATE]> fs], Ok tt) else (states, Err SE_write)
    end in
  match fs !! real with
  | Some (File old _) =>
      if dk_chmod dk then let fs := <[real := File old PRIVATE]> fs in write PRIVATE [fs] fs else ([], Err SE_write)
  | _ => write (dk_umask_mode dk) [] fs
  end.

(** [write_file], with the states it passes through, oldest first. *)
Definition write_file (dk : Disk) (temp target contents : bytes) (fs : FileSystem) : list FileSystem * result unit StorageError :=
  if negb (dk_open dk) then ([remove_temp dk temp fs], Err SE_write)
  else match dk_write dk with
  | Some n => (growing temp PRIVATE contents n fs ++ [remove_temp dk temp (<[temp := File (take n contents) PRIVATE]> fs)], Err SE_write)
  | None =>
      let written := growing temp PRIVATE contents (length contents) fs in
      let fs' := <[temp := File contents PRIVATE]> fs in
      if negb (dk_sync dk) then (written ++ [remove_temp dk temp fs'], Err SE_write)
      else
        let destination := match fs !! target with Some (Link d) => d | _ => target end in
        if dk_rename dk then (written ++ [<[destination := File contents PRIVATE]> (delete temp fs')], Ok tt)
        else
          let fs' := remove_temp dk temp fs' in
          let '(states, r) := write_in_place dk target contents fs' in (written ++ [fs'] ++ states, r)
  end.

(** Where a write through one link, or none, lands. *)
Definition destination (fs : FileSystem) (target : bytes) : bytes := match fs !! target with Some (Link d) => d | _ => target end.

(** Two file systems that differ at one name at most, where there is then a private file. *)
Definition same_off (temp : bytes) (st fs : FileSystem) : Prop :=
  (forall p, p <> temp -> st !! p = fs !! p) /\ (st !! temp = None \/ exists c, st !! temp = Some (File c PRIVATE)).

Lemma resolve_destination fs target : (forall d, fs !! destination fs target <> Some (Link d)) -> resolve MAX_LINKS fs target = destination fs target.
Proof.
  unfold destination, MAX_LINKS. cbn [resolve]. intros Hl. destruct (fs !! target) as [[c m|d]|]; [done| |done].
  destruct (fs !! d) as [[c m|d']|] eqn:Ed; [done| |done]. by destruct (Hl d').
Qed.

Lemma read_destination fs target : (forall d, fs !! destination fs target <> Some (Link d)) ->
  read_file fs target = match fs !! destination fs target with Some (File c _) => Some c | _ => None end.
Proof. intros Hl. unfold read_file. by rewrite resolve_destination. Qed.

Lemma destination_same temp st fs target : (forall p, p <> temp -> st !! p = fs !! p) -> target <> temp -> destination st target = destination fs target.
Proof. intros Hs Ht. unfold destination. by rewrite Hs. Qed.

(** What is at another name is of no matter to a reader. *)
Lemma read_same temp st fs target :
  (forall p, p <> temp -> st !! p = fs !! p) -> target <> temp -> destination fs target <> temp -> (forall d, fs !! destination fs target <> Some (Link d)) ->
  read_file st target = read_file fs target.
Proof.
  intros Hs Ht Hd Hl. pose proof (destination_same _ _ _ _ Hs Ht) as E. rewrite !read_destination; rewrite ?E; [by rewrite Hs|done|]. by rewrite Hs.
Qed.

(** A file that takes its place at the destination is the one that is read. *)
Lemma destination_replaced fs target c m : (forall d, fs !! destination fs target <> Some (Link d)) ->
  destination (<[destination fs target := File c m]> fs) target = destination fs target.
Proof.
  intros Hl. unfold destination at 1. destruct (decide (destination fs target = target)) as [E|E]; [by rewrite E, lookup_insert_eq|].
  rewrite lookup_insert_ne by done. done.
Qed.

Lemma read_replaced fs target c m : (forall d, fs !! destination fs target <> Some (Link d)) ->
  read_file (<[destination fs target := File c m]> fs) target = Some c.
Proof.
  intros Hl. rewrite read_destination; rewrite destination_replaced by done; [by rewrite lookup_insert_eq|]. intros d. by rewrite lookup_insert_eq.
Qed.

Lemma growing_same temp contents n fs st : st ∈ growing temp PRIVATE contents n fs -> same_off temp st fs.
Proof.
  intros (k & -> & _)%list_elem_of_fmap. split; [intros p Hp; by rewrite lookup_insert_ne|]. right. exists (take k contents). by rewrite lookup_insert_eq.
Qed.

Lemma remove_temp_same dk temp fs c : fs !! temp = None -> same_off temp (remove_temp dk temp (<[temp := File c PRIVATE]> fs)) fs.
Proof.
  intros Ht. unfold remove_temp. destruct (dk_remove dk).
  - rewrite delete_insert_id by done. split; [done|by left].
  - split; [intros p Hp; by rewrite lookup_insert_ne|]. right. exists c. by rewrite lookup_insert_eq.
Qed.

(** What a write whose rename is taken passes through: nothing but its own temporary file
    until the last state, which has the new file in its place. *)
Lemma write_file_states dk temp target contents fs states r :
  fs !! temp = None -> dk_rename dk = true -> write_file dk temp target contents fs = (states, r) ->
  (exists e, r = Err e /\ states <> [] /\ (forall st, st ∈ states -> same_off temp st fs) /\ (dk_remove dk = true -> last states = Some fs)) \/
  (r = Ok tt /\ exists before, states = before ++ [<[destination fs target := File contents PRIVATE]> fs] /\ forall st, st ∈ before -> same_off temp st fs).
Proof.
  intros Ht Hren. unfold write_file. rewrite Hren.
  assert (forall n c, (exists e, @Err unit StorageError SE_write = Err e /\
      growing temp PRIVATE contents n fs ++ [remove_temp dk temp (<[temp := File c PRIVATE]> fs)] <> [] /\
      (forall st, st ∈ growing temp PRIVATE contents n fs ++ [remove_temp dk temp (<[temp := File c PRIVATE]> fs)] -> same_off temp st fs) /\
      (dk_remove dk = true -> last (growing temp PRIVATE contents n fs ++ [remove_temp dk temp (<[temp := File c PRIVATE]> fs)]) = Some fs))) as Hfail.
  { intros n c. exists SE_write. split; [done|]. split; [by destruct (growing temp PRIVATE contents n fs)|]. split.
    - intros st [Hst| ->%list_elem_of_singleton]%elem_of_app; [by eapply growing_same|by apply remove_temp_same].
    - intros Hr. rewrite last_snoc. unfold remove_temp. by rewrite Hr, delete_insert_id. }
  destruct (dk_open dk); cbn [negb]; [|intros [= <- <-]].
  2:{ left. exists SE_write. unfold remove_temp. rewrite delete_id by done. split; [done|]. split; [done|].
      split; [|intros ->; done]. intros st ->%list_elem_of_singleton. destruct (dk_remove dk); (split; [done|by left]). }
  destruct (dk_write dk) as [n|]; [intros [= <- <-]; left; apply Hfail|].
  destruct (dk_sync dk); cbn [negb]; intros [= <- <-]; [|left; apply Hfail]. right. split; [done|].
  exists (growing temp PRIVATE contents (length contents) fs). split; [|by intros st; apply growing_same]. rewrite delete_insert_id by done. done.
Qed.

(** C26: replacing the configuration is atomic.  In every state a write passes through -
    what another process reads, and what is left when this one is killed - the
    configuration is the old one or the new one, whole; it is the new one exactly when the
    write succeeds, and then private to its owner; a write that fails leaves everything as
    it was but for the temporary file, which is left behind only when removing it fails too;
    and the temporary file is never readable by others.  The temporary name must be free,
    the rename must not be refused, and the configuration must not be behind more than one
    link. *)
Theorem write_file_atomic dk temp target contents fs states r :
  fs !! temp = None -> target <> temp -> destination fs target <> temp -> (forall d, fs !! destination fs target <> Some (Link d)) -> dk_rename dk = true ->
  write_file dk temp target contents fs = (states, r) ->
  (forall st, st ∈ states ->
     (read_file st target = read_file fs target \/ read_file st target = Some contents) /\
     (forall p, p <> temp -> p <> destination fs target -> st !! p = fs !! p) /\
     (forall c m, st !! temp = Some (File c m) -> m = PRIVATE)) /\
  exists st, last states = Some st /\
  match r with
  | Ok _ => read_file st target = Some contents /\ st !! destination fs target = Some (File contents PRIVATE) /\ st !! temp = None
  | Err _ => read_file st target = read_file fs target /\ (forall p, p <> temp -> st !! p = fs !! p) /\ (dk_remove dk = true -> st = fs)
  end.
Proof.
  intros Htemp Htt Hdt Hlink Hren Hw.
  assert (forall st, same_off temp st fs -> read_file st target = read_file fs target /\ (forall p, p <> temp -> st !! p = fs !! p) /\
    (forall c m, st !! temp = Some (File c m) -> m = PRIVATE)) as Hsame.
  { intros st [Hs Ht]. split; [by apply (read_same temp)|]. split; [done|]. intros c m Hc. destruct Ht as [Ht|[c' Ht]]; congruence. }
  destruct (write_file_states _ _ _ _ _ _ _ Htemp Hren Hw) as [(e & -> & Hne & Hall & Hrem)|(-> & before & -> & Hall)].
  - split; [intros st (H1 & H2 & H3)%Hall%Hsame; split_and!; [by left|by intros p Hp _; apply H2|done]|].
    destruct (last states) as [st|] eqn:El; [|by apply last_None in El]. exists st. split; [done|].
    apply last_Some_elem_of in El as Hin. destruct (Hsame _ (Hall _ Hin)) as (H1 & H2 & _). split_and!; [done|done|]. intros Hr. specialize (Hrem Hr). congruence.
  - pose proof (read_replaced fs target contents PRIVATE Hlink) as Hr.
    assert (<[destination fs target := File contents PRIVATE]> fs !! temp = None) as Ht by (by rewrite lookup_insert_ne).
    split; [|eexists; split; [apply last_snoc|]; split_and!; [done|by rewrite lookup_insert_eq|done]].
    intros st [Hst| ->%list_elem_of_singleton]%elem_of_app.
    + destruct (Hsame _ (Hall _ Hst)) as (H1 & H2 & H3). split_and!; [by left|by intros p Hp _; apply H2|done].
    + split_and!; [by right|intros p _ Hp; by rewrite lookup_insert_ne|]. intros c m. by rewrite Ht.
Qed.

Definition good_disk : Disk :=
  {| dk_open := true; dk_write := None; dk_sync := true; dk_remove := true; dk_rename := true; dk_chmod := true; dk_open_in_place := true; dk_in_place := None; dk_chmod_after := true;
     dk_umask_mode := 0x1a4 |}.

(** A configuration behind one link. *)
Definition linked : FileSystem := {[ lit "c" := Link (lit "real"); lit "real" := File (lit "old") 0x1a4 ]}.

(** A disk that fills up after one byte, and on which the rest cannot be removed either. *)
Definition full_disk : Disk :=
  {| dk_open := true; dk_write := Some 1%nat; dk_sync := true; dk_remove := false; dk_rename := true; dk_chmod := true; dk_open_in_place := true;
     dk_in_place := None; dk_chmod_after := true; dk_umask_mode := 0x1a4 |}.

Lemma write_file_atomic_witness :
  let w := write_file full_disk (lit ".c.tmp") (lit "c") (lit "ab") linked in
  snd w = Err SE_write /\ (st ← last (fst w); st !! lit ".c.tmp") = Some (File (lit "a") PRIVATE) /\
  forall st, st ∈ fst w -> read_file st (lit "c") = read_file linked (lit "c") \/ read_file st (lit "c") = Some (lit "ab").
Proof.
  intros w. split; [vm_compute; reflexivity|]. split; [vm_compute; reflexivity|]. intros st Hst.
  eapply (write_file_atomic full_disk (lit ".c.tmp") (lit "c") (lit "ab") linked (fst w) (snd w));
    [vm_compute; reflexivity|vm_compute; discriminate|vm_compute; discriminate|intros d; vm_compute; discriminate|reflexivity|apply surjective_pairing|exact Hst].
Defined.

(** Behind two links, the second one is replaced by a file of its own: the real
    configuration keeps its old contents, and is no longer the one that is read. *)
Lemma second_link_replaced :
  let fs : FileSystem := {[ lit "c" := Link (lit "b"); lit "b" := Link (lit "real"); lit "real" := File (lit "old") 0x180 ]} in
  let '(states, r) := write_file good_disk (lit ".c.tmp") (lit "c") (lit "new") fs in
  r = Ok tt /\ match last states with
               | Some st => st !! lit "real" = Some (File (lit "old") 0x180) /\ st !! lit "b" = Some (File (lit "new") PRIVATE) /\
                   read_file st (lit "c") = Some (lit "new")
               | None => False
               end.
Proof. vm_compute. done. Qed.

(** ** Writers that take the lock *)

Section Locked.
Variable canonical_key : bytes -> option bytes.
Variable created_at : bytes.
(** What [toml_edit] makes of a text, and the text of a document. *)
Variable parse : bytes -> option table.
Variable render : table -> bytes.
(** The configuration, the temporary names the writers draw, and how disks behave. *)
Variable target : bytes.
Variable temp : nat -> bytes.
Variable disks : Disk -> Prop.

(** A writer: waiting for the lock, holding it, with the document it read, amid the states
    of its write, done, or killed.  Nobody else writes meanwhile, so the states that are to
    come follow from the file system the write began with. *)
Inductive Writer :=
| W_waiting (op : StorageOp)
| W_locked (op : StorageOp)
| W_has_read (op : StorageOp) (doc : table)
| W_writing (op : StorageOp) (doc : table) (todo : list FileSystem) (r : result unit StorageError)
| W_done (op : StorageOp) (r : result unit StorageError)
| W_killed (op : StorageOp).

(** [d_log] are the edits whose file took its place, in their order. *)
Record OnDisk := { d_fs : FileSystem; d_holder : option nat; d_writers : gmap nat Writer; d_log : list (nat * StorageOp) }.

Definition with_writer (i : nat) (w : Writer) (holder : option nat) (d : OnDisk) : OnDisk :=
  {| d_fs := d_fs d; d_holder := holder; d_writers := <[i := w]> (d_writers d); d_log := d_log d |}.

(** [ConfigLock::acquire]. *)
Definition acquire (i : nat) (op : StorageOp) (d : OnDisk) : OnDisk := with_writer i (W_locked op) (Some i) d.

(** [read_document]. *)
Definition read_document (i : nat) (op : StorageOp) (d : OnDisk) : OnDisk :=
  match read_file (d_fs d) target with
  | None => with_writer i (W_done op (Err SE_read)) None d
  | Some text =>
      match parse text with
      | Some doc => with_writer i (W_has_read op doc) (Some i) d
      | None => with_writer i (W_done op (Err SE_parse)) None d
      end
  end.

(** The edit, and the beginning of [write_document]. *)
Definition write_document (i : nat) (op : StorageOp) (doc : table) (dk : Disk) (d : OnDisk) : OnDisk :=
  match apply_op canonical_key created_at op doc with
  | Err e => with_writer i (W_done op (Err e)) None d
  | Ok doc' =>
      let '(states, r) := write_file dk (temp i) target (render doc') (d_fs d) in with_writer i (W_writing op doc' states r) (Some i) d
  end.

(** The next state of a write. *)
Definition write_on (i : nat) (op : StorageOp) (doc : table) (st : FileSystem) (todo : list FileSystem) (r : result unit StorageError) (d : OnDisk) : OnDisk :=
  {| d_fs := st; d_holder := d_holder d; d_writers := <[i := W_writing op doc todo r]> (d_writers d);
     d_log := d_log d ++ match todo, r with [], Ok _ => [(i, op)] | _, _ => [] end |}.

(** [write_document] returns, and the lock is let go. *)
Definition write_returns (i : nat) (op : StorageOp) (r : result unit StorageError) (d : OnDisk) : OnDisk := with_writer i (W_done op r) None d.

Definition writer_op (w : Writer) : StorageOp :=
  match w with W_waiting op | W_locked op | W_has_read op _ | W_writing op _ _ _ | W_done op _ | W_killed op => op end.

(** Anything may be killed; the system lets go of its lock. *)
Definition kill (i : nat) (w : Writer) (d : OnDisk) : OnDisk :=
  with_writer i (W_killed (writer_op w)) (if bool_decide (d_holder d = Some i) then None else d_holder d) d.

Inductive disk_step : OnDisk -> OnDisk -> Prop :=
| D_acquire d i op : d_holder d = None -> d_writers d !! i = Some (W_waiting op) -> disk_step d (acquire i op d)
| D_no_lock d i op : d_writers d !! i = Some (W_waiting op) -> disk_step d (with_writer i (W_done op (Err SE_lock)) (d_holder d) d)
| D_read d i op : d_writers d !! i = Some (W_locked op) -> disk_step d (read_document i op d)
| D_write d i op doc dk : d_writers d !! i = Some (W_has_read op doc) -> disks dk -> disk_step d (write_document i op doc dk d)
| D_state d i op doc st todo r : d_writers d !! i = Some (W_writing op doc (st :: todo) r) -> disk_step d (write_on i op doc st todo r d)
| D_return d i op doc r : d_writers d !! i = Some (W_writing op doc [] r) -> disk_step d (write_returns i op r d)
| D_kill d i w : d_writers d !! i = Some w -> (forall op r, w <> W_done op r) -> disk_step d (kill i w d).

Definition disk_start (fs : FileSystem) (ops : list StorageOp) : OnDisk :=
  {| d_fs := fs; d_holder := None; d_writers := map_seq 0 (W_waiting <$> ops); d_log := [] |}.

(** The document that a list of edits makes, one after another. *)
Fixpoint run_ops (ops : list StorageOp) (doc : table) : option table :=
  match ops with
  | [] => Some doc
  | op :: ops => match apply_op canonical_key created_at op doc with Ok doc => run_ops ops doc | Err _ => None end
  end.

Lemma run_ops_snoc ops op doc doc' doc'' :
  run_ops ops doc = Some doc' -> apply_op canonical_key created_at op doc' = Ok doc'' -> run_ops (ops ++ [op]) doc = Some doc''.
Proof.
  revert doc. induction ops as [|o ops IH]; intros doc; cbn [run_ops app].
  - intros [= ->] ->. done.
  - destruct (apply_op canonical_key created_at o doc); [apply IH|done].
Qed.

(** The document a reader finds. *)
Definition current (fs : FileSystem) : option table := text ← read_file fs target; parse text.

Context (parse_render : forall doc, parse (render doc) = Some doc).
Context (rename_taken : forall dk, disks dk -> dk_rename dk = true).

(** A place for the configuration and names for the temporary files: one link at most, and
    names of their own. *)
Record places (fs : FileSystem) : Prop := {
  pl_link : forall d, fs !! destination fs target <> Some (Link d);
  pl_target : forall i, target <> temp i;
  pl_destination : forall i, destination fs target <> temp i;
  pl_own : forall i j, temp i = temp j -> i = j;
}.

(** What a write has still to do, seen from where it is. *)
Definition plan (i : nat) (op : StorageOp) (doc' : table) (todo : list FileSystem) (r : result unit StorageError) (d : OnDisk) : Prop :=
  ((exists doc, current (d_fs d) = Some doc /\ apply_op canonical_key created_at op doc = Ok doc') /\ i ∉ (d_log d).*1 /\
   ((exists e, r = Err e /\ forall st, st ∈ todo -> same_off (temp i) st (d_fs d)) \/
    (r = Ok tt /\ exists before last, todo = before ++ [last] /\ (forall st, st ∈ before -> same_off (temp i) st (d_fs d)) /\
       same_off (temp i) last (<[destination (d_fs d) target := File (render doc') PRIVATE]> (d_fs d))))) \/
  (todo = [] /\ r = Ok tt /\ (i, op) ∈ d_log d).

Definition unwritten (w : Writer) : Prop := match w with W_waiting _ | W_locked _ | W_has_read _ _ => True | _ => False end.
Definition holding (w : Writer) : Prop := match w with W_locked _ | W_has_read _ _ | W_writing _ _ _ _ => True | _ => False end.

Record disk_inv (doc0 : table) (d : OnDisk) : Prop := {
  di_places : places (d_fs d);
  di_file : exists doc, current (d_fs d) = Some doc /\ run_ops (d_log d).*2 doc0 = Some doc;
  di_temp : forall i w, d_writers d !! i = Some w -> unwritten w -> d_fs d !! temp i = None;
  di_unwritten : forall i w, d_writers d !! i = Some w -> unwritten w -> i ∉ (d_log d).*1;
  di_holder : forall i w, d_writers d !! i = Some w -> holding w -> d_holder d = Some i;
  di_read : forall i op doc, d_writers d !! i = Some (W_has_read op doc) -> current (d_fs d) = Some doc;
  di_writing : forall i op doc todo r, d_writers d !! i = Some (W_writing op doc todo r) -> plan i op doc todo r d;
  di_log : forall i op, (i, op) ∈ d_log d -> exists w, d_writers d !! i = Some w /\
    (w = W_done op (Ok tt) \/ w = W_killed op \/ exists doc, w = W_writing op doc [] (Ok tt));
  di_done : forall i op, d_writers d !! i = Some (W_done op (Ok tt)) -> (i, op) ∈ d_log d;
  di_once : NoDup (d_log d).*1;
}.

Lemma places_same i st fs : places fs -> (forall p, p <> temp i -> st !! p = fs !! p) -> places st /\ current st = current fs /\ destination st target = destination fs target.
Proof.
  intros [Hl Ht Hd Ho] Hs. pose proof (destination_same _ _ _ _ Hs (Ht i)) as E. split_and!; [|unfold current; by rewrite (read_same (temp i) st fs target)|done].
  split; rewrite ?E; try done. intros d. by rewrite Hs.
Qed.

Lemma places_replaced fs doc : places fs ->
  let fs' := <[destination fs target := File (render doc) PRIVATE]> fs in places fs' /\ current fs' = Some doc /\ destination fs' target = destination fs target.
Proof.
  intros [Hl Ht Hd Ho] fs'. pose proof (destination_replaced fs target (render doc) PRIVATE Hl) as E. fold fs' in E. split_and!; [|unfold current, fs'; rewrite read_replaced by done; apply parse_render|done].
  split; rewrite ?E; try done. intros d. unfold fs'. by rewrite lookup_insert_eq.
Qed.

(** A step that changes one writer and perhaps the lock. *)
Lemma inv_with_writer doc0 d i w0 w holder :
  disk_inv doc0 d -> d_writers d !! i = Some w0 -> (forall op, w0 <> W_done op (Ok tt)) -> (unwritten w -> unwritten w0) -> (holding w -> holder = Some i) ->
  (holder = d_holder d \/ d_holder d = None \/ d_holder d = Some i) ->
  (forall op doc, w = W_has_read op doc -> current (d_fs d) = Some doc) ->
  (forall op doc todo r, w = W_writing op doc todo r -> plan i op doc todo r d) ->
  (forall op, w = W_done op (Ok tt) -> (i, op) ∈ d_log d) ->
  (forall op, (i, op) ∈ d_log d -> w = W_done op (Ok tt) \/ w = W_killed op \/ exists doc, w = W_writing op doc [] (Ok tt)) ->
  disk_inv doc0 (with_writer i w holder d).
Proof.
  intros Hi Hw0 Hnd Hun Hhold Hh Hrd Hpl Hdone Hlog. destruct Hi as [Hp Hf Ht Hu Hho Hr Hwr Hl Hd Ho].
  assert (forall j w', <[i := w]> (d_writers d) !! j = Some w' -> j = i /\ w' = w \/ j <> i /\ d_writers d !! j = Some w') as Hcase.
  { intros j w'. destruct (decide (j = i)) as [->|Hj]; [rewrite lookup_insert_eq; intros [= <-]; by left|]. rewrite lookup_insert_ne by done. by right. }
  constructor; cbn; [done|done|..|done].
  - intros j w' [[-> ->]|[Hj Hj']]%Hcase; [intros Huw; by apply (Ht i w0), Hun|by apply (Ht j w')].
  - intros j w' [[-> ->]|[Hj Hj']]%Hcase; [intros Huw; by apply (Hu i w0), Hun|by apply (Hu j w')].
  - intros j w' [[-> ->]|[Hj Hj']]%Hcase; [done|]. intros Hw'. pose proof (Hho j w' Hj' Hw'). destruct Hh as [->|[?|?]]; congruence.
  - intros j op doc [[-> <-]|[Hj Hj']]%Hcase; [by eapply Hrd|by eapply Hr].
  - intros j op doc todo r [[-> <-]|[Hj Hj']]%Hcase; [by apply Hpl|by apply Hwr].
  - intros j op Hj. destruct (decide (j = i)) as [->|Hne]; [exists w; rewrite lookup_insert_eq; split; [done|by apply Hlog]|]. rewrite lookup_insert_ne by done. by apply Hl.
  - intros j op [[-> <-]|[Hj Hj']]%Hcase; [by apply Hdone|by apply Hd].
Qed.

Lemma plan_start i op doc doc' dk states r d :
  disk_inv doc d -> d_fs d !! temp i = None -> i ∉ (d_log d).*1 -> dk_rename dk = true -> (exists doc, current (d_fs d) = Some doc /\ apply_op canonical_key created_at op doc = Ok doc') ->
  write_file dk (temp i) target (render doc') (d_fs d) = (states, r) -> plan i op doc' states r d.
Proof.
  intros Hi Ht Hn Hren Hc Hw. left. split; [done|]. split; [done|].
  destruct (write_file_states _ _ _ _ _ _ _ Ht Hren Hw) as [(e & -> & _ & Hall & _)|(-> & before & -> & Hall)]; [left; by exists e|].
  right. split; [done|]. eexists before, _. split; [done|]. split; [done|]. split; [done|]. left. pose proof (pl_destination _ (di_places _ _ Hi) i). by rewrite lookup_insert_ne.
Qed.

(** The file system of a write moves on, within its plan. *)
Lemma inv_write_on doc0 d i op doc st todo r :
  disk_inv doc0 d -> d_writers d !! i = Some (W_writing op doc (st :: todo) r) -> disk_inv doc0 (write_on i op doc st todo r d).
Proof.
  intros Hi Hw. pose proof (di_writing _ _ Hi _ _ _ _ _ Hw) as [(Hcur & Hn & Hplan)|(? & _)]; [|done].
  pose proof (di_holder _ _ Hi i _ Hw I) as Hh. pose proof (pl_own _ (di_places _ _ Hi)) as Hown.
  assert (forall w j w', <[i := w]> (d_writers d) !! j = Some w' -> holding w' -> j = i /\ w' = w) as Hcase.
  { intros w j w'. destruct (decide (j = i)) as [->|Hj]; [rewrite lookup_insert_eq; by intros [= <-]|]. rewrite lookup_insert_ne by done.
    intros Hj' Hw'. pose proof (di_holder _ _ Hi j w' Hj' Hw'). congruence. }
  assert (forall l, (forall p, p <> temp i -> p <> destination (d_fs d) target -> st !! p = d_fs d !! p) -> places st ->
    (exists doc', current st = Some doc' /\ run_ops (d_log d ++ l).*2 doc0 = Some doc') -> (l = [] \/ l = [(i, op)] /\ todo = [] /\ r = Ok tt) ->
    plan i op doc todo r {| d_fs := st; d_holder := d_holder d; d_writers := <[i := W_writing op doc todo r]> (d_writers d); d_log := d_log d ++ l |} ->
    disk_inv doc0 {| d_fs := st; d_holder := d_holder d; d_writers := <[i := W_writing op doc todo r]> (d_writers d); d_log := d_log d ++ l |}) as Hgo.
  { intros l Hst Hpl Hrun Hlog Hnext.
    assert (forall j op', (j, op') ∈ d_log d ++ l -> (j, op') ∈ d_log d \/ j = i /\ op' = op /\ todo = [] /\ r = Ok tt) as Hl.
    { intros j op' [?|Hj]%elem_of_app; [by left|right]. destruct Hlog as [->|(-> & ? & ?)]; [by apply not_elem_of_nil in Hj|]. apply list_elem_of_singleton in Hj. naive_solver. }
    assert (forall j, j <> i -> j ∉ (d_log d).*1 -> j ∉ (d_log d ++ l).*1) as Hl1.
    { intros j Hj Hnj [[j' op'] [-> Hin]]%list_elem_of_fmap. cbn in *. destruct (Hl _ _ Hin) as [Hin'|(-> & _)]; [|done]. apply Hnj, list_elem_of_fmap. by exists (j', op'). }
    constructor; cbn; [done|done|..].
    - intros j w'. destruct (decide (j = i)) as [->|Hj]; [rewrite lookup_insert_eq; by intros [= <-]|]. rewrite lookup_insert_ne by done. intros Hj' Hw'.
      rewrite Hst; [by apply (di_temp _ _ Hi j w')|intros E; apply Hj; by apply Hown|]. apply not_eq_sym, (pl_destination _ (di_places _ _ Hi) j).
    - intros j w'. destruct (decide (j = i)) as [->|Hj]; [rewrite lookup_insert_eq; by intros [= <-]|]. rewrite lookup_insert_ne by done. intros Hj' Hw'.
      apply Hl1; [done|]. by apply (di_unwritten _ _ Hi j w').
    - intros j w' Hj Hw'. destruct (Hcase _ _ _ Hj Hw') as [-> ->]. done.
    - intros j op' doc' Hj. by destruct (Hcase _ _ _ Hj I) as [-> [=]].
    - intros j op' doc' todo' r' Hj. destruct (Hcase _ _ _ Hj I) as [-> [= -> -> -> ->]]. done.
    - intros j op' [Hin|(-> & -> & -> & ->)]%Hl; [|exists (W_writing op doc [] (Ok tt)); rewrite lookup_insert_eq; by eauto 6].
      destruct (decide (j = i)) as [->|Hj]; [destruct Hn; apply list_elem_of_fmap; by exists (i, op')|]. rewrite lookup_insert_ne by done. by apply (di_log _ _ Hi).
    - intros j op'. destruct (decide (j = i)) as [->|Hj]; [by rewrite lookup_insert_eq|]. rewrite lookup_insert_ne by done. intros Hj'. apply elem_of_app. left. by apply (di_done _ _ Hi).
    - destruct Hlog as [->|(-> & _)]; [rewrite app_nil_r; by apply (di_once _ _ Hi)|]. rewrite fmap_app. apply NoDup_app. split; [by apply (di_once _ _ Hi)|].
      split; [|apply NoDup_singleton]. by intros j Hj ->%list_elem_of_singleton. }
  unfold write_on. destruct (di_file _ _ Hi) as (docf & Hcf & Hrunf). destruct Hcur as (doc1 & Hc1 & Ha).
  assert (same_off (temp i) st (d_fs d) -> (forall l, l = [] -> (exists doc', current st = Some doc' /\ run_ops (d_log d ++ l).*2 doc0 = Some doc')) /\ places st /\
    current st = current (d_fs d) /\ destination st target = destination (d_fs d) target) as Hsame.
  { intros [Hs _]. destruct (places_same i st (d_fs d) (di_places _ _ Hi) Hs) as (Hp & Hc & Hd). split_and!; try done. intros l ->. rewrite app_nil_r, Hc. by exists docf. }
  destruct Hplan as [(e & -> & Hall)|(-> & before & fin & Hb & Hall & Hfin)].
  - replace (match todo with [] => _ | _ => _ end) with (@nil (nat * StorageOp)) by by destruct todo. pose proof (Hall st ltac:(left)) as Hst.
    destruct (Hsame Hst) as (Hrun & Hp & Hc & Hd). apply Hgo; [intros p Hp' _; by apply Hst|done|by apply Hrun|by left|].
    left. cbn. rewrite app_nil_r. split; [rewrite Hc; by exists doc1|]. split; [done|]. left. exists e. split; [done|]. intros st' Hin.
    destruct (Hall st' ltac:(by right)) as [H1 H2]. split; [|done]. intros p Hp'. rewrite H1, (proj1 Hst) by done. done.
  - destruct before as [|b before]; injection Hb as <- ->.
    + destruct (places_replaced (d_fs d) doc (di_places _ _ Hi)) as (Hp & Hc & Hd). destruct (places_same i st _ Hp (proj1 Hfin)) as (Hp' & Hc' & Hd').
      apply Hgo; [|done| |by right|].
      * intros p H1 H2. rewrite (proj1 Hfin) by done. by rewrite lookup_insert_ne.
      * exists doc. split; [congruence|]. rewrite fmap_app. eapply run_ops_snoc; [exact Hrunf|]. assert (docf = doc1) as -> by congruence. exact Ha.
      * right. split_and!; try done. cbn. apply elem_of_app. right. by left.
    + replace (match before ++ [fin] with [] => _ | _ => _ end) with (@nil (nat * StorageOp)) by by destruct before. pose proof (Hall st ltac:(left)) as Hst.
      destruct (Hsame Hst) as (Hrun & Hp & Hc & Hd). apply Hgo; [intros p Hp' _; by apply Hst|done|by apply Hrun|by left|].
      left. cbn. rewrite app_nil_r. split; [rewrite Hc; by exists doc1|]. split; [done|]. right. split; [done|]. exists before, fin. split; [done|]. split.
      * intros st' Hin. destruct (Hall st' ltac:(by right)) as [H1 H2]. split; [|done]. intros p Hp'. rewrite H1, (proj1 Hst) by done. done.
      * destruct Hfin as [H1 H2]. split; [|done]. intros p Hp'. rewrite H1 by done. rewrite Hd. destruct (decide (p = destination (d_fs d) target)) as [->|Hne];
          [by rewrite !lookup_insert_eq|]. rewrite !lookup_insert_ne by done. symmetry. by apply Hst.
Qed.

Lemma disk_inv_step doc0 d d' : disk_step d d' -> disk_inv doc0 d -> disk_inv doc0 d'.
Proof.
  intros Hs Hi.
  assert (forall i w op, d_writers d !! i = Some w -> unwritten w -> (i, op) ∈ d_log d -> False) as Hnot.
  { intros i w op Hw Hu Hin. apply (di_unwritten _ _ Hi i w Hw Hu), list_elem_of_fmap. by exists (i, op). }
  assert (forall i w0 e op' holder, d_writers d !! i = Some w0 -> unwritten w0 -> (holder = d_holder d \/ d_holder d = None \/ d_holder d = Some i) ->
    disk_inv doc0 (with_writer i (W_done op' (Err e)) holder d)) as Hrefuse.
  { intros i w0 e op' holder Hw Hu Hh. apply (inv_with_writer _ _ i w0); try done; [by intros op ->|]. intros op Hin. by destruct (Hnot _ _ _ Hw Hu Hin). }
  destruct Hs as [d i op Hh Hw|d i op Hw|d i op Hw|d i op doc dk Hw Hdk|d i op doc st todo r Hw|d i op doc r Hw|d i w Hw Hd].
  - apply (inv_with_writer _ _ i (W_waiting op)); try done; [by right; left|]. intros o Hin. by destruct (Hnot _ _ _ Hw I Hin).
  - apply (Hrefuse i (W_waiting op)); try done. by left.
  - pose proof (di_holder _ _ Hi i _ Hw I) as Eh. unfold read_document.
    destruct (read_file (d_fs d) target) as [text|] eqn:Er; [|apply (Hrefuse i (W_locked op)); cbn; auto].
    destruct (parse text) as [doc|] eqn:Ep; [|apply (Hrefuse i (W_locked op)); cbn; auto].
    apply (inv_with_writer _ _ i (W_locked op)); try done; [by right; right| |intros o Hin; by destruct (Hnot _ _ _ Hw I Hin)].
    intros o doc' [= _ <-]. unfold current. by rewrite Er.
  - pose proof (di_holder _ _ Hi i _ Hw I) as Eh. unfold write_document.
    destruct (apply_op canonical_key created_at op doc) as [doc'|e] eqn:Ea; [|apply (Hrefuse i (W_has_read op doc)); cbn; auto].
    destruct (write_file dk (temp i) target (render doc') (d_fs d)) as [states r] eqn:Ew.
    apply (inv_with_writer _ _ i (W_has_read op doc)); try done; [by right; right| |intros o Hin; by destruct (Hnot _ _ _ Hw I Hin)].
    intros o doc1 todo r' [= <- <- <- <-]. eapply plan_start; [done|by apply (di_temp _ _ Hi i _ Hw)|by apply (di_unwritten _ _ Hi i _ Hw)|by apply rename_taken| |done].
    exists doc. split; [by eapply di_read|done].
  - by apply inv_write_on.
  - pose proof (di_holder _ _ Hi i _ Hw I) as Eh.
    pose proof (di_writing _ _ Hi _ _ _ _ _ Hw) as Hp. apply (inv_with_writer _ _ i (W_writing op doc [] r)); try done; [by right; right|..].
    + intros o [= <- ->]. destruct Hp as [(_ & _ & [(e & ? & _)|(_ & b & l & E & _)])|(_ & _ & ?)]; [done|by destruct b|done].
    + intros o Hin. left. destruct (di_log _ _ Hi _ _ Hin) as (w & Hw' & [->|[->|[doc' ->]]]); rewrite Hw in Hw'; by simplify_eq.
  - assert (forall o, (i, o) ∈ d_log d -> writer_op w = o) as Ho.
    { intros o Hin. destruct (di_log _ _ Hi _ _ Hin) as (w' & Hw' & [->|[->|[doc' ->]]]); rewrite Hw in Hw'; by simplify_eq. }
    apply (inv_with_writer _ _ i w); try done; [case_bool_decide; [by right; right|by left]|]. intros o Hin. right; left. by rewrite (Ho o Hin).
Qed.

(** C25: writers of the configuration lose none of each other's edits.  Over any
    interleaving of any number of them, with some refused, some failing to write - in the
    midst of it, and with their temporary file left behind or not - and some killed at any
    point of their write, a reader finds at every moment a whole document: the one that the
    edits whose file took its place make of the first, applied one after another.  An edit
    whose writer was told of success is one of them, once; one whose writer was told of a
    failure is not; and the others are those of writers that were killed, or have not
    returned, after their rename.  The renames must not be refused, and the file may be
    behind one link. *)
Theorem storage_serial fs doc0 ops d :
  places fs -> (forall i, fs !! temp i = None) -> current fs = Some doc0 -> rtc disk_step (disk_start fs ops) d ->
  (exists doc, current (d_fs d) = Some doc /\ run_ops (d_log d).*2 doc0 = Some doc) /\
  (forall i op, d_writers d !! i = Some (W_done op (Ok tt)) -> (i, op) ∈ d_log d) /\
  (forall i op e, d_writers d !! i = Some (W_done op (Err e)) -> i ∉ (d_log d).*1) /\
  (forall i op, (i, op) ∈ d_log d -> d_writers d !! i = Some (W_done op (Ok tt)) \/ d_writers d !! i = Some (W_killed op) \/
     exists doc, d_writers d !! i = Some (W_writing op doc [] (Ok tt))) /\
  NoDup (d_log d).*1.
Proof.
  intros Hpl Htemp Hc Hr. assert (disk_inv doc0 (disk_start fs ops)) as H0.
  { assert (forall i w, (map_seq 0 (W_waiting <$> ops) : gmap nat Writer) !! i = Some w -> exists op, w = W_waiting op) as Hs.
    { intros i w. rewrite lookup_map_seq_0, list_lookup_fmap. destruct (ops !! i) as [op|]; [|done]. intros [= <-]. by exists op. }
    constructor; cbn; [done|by exists doc0| | | | | | | |constructor].
    - done.
    - intros i w _ _. apply not_elem_of_nil.
    - by intros i w [o ->]%Hs.
    - by intros i op doc [o E]%Hs.
    - by intros i op doc todo r [o E]%Hs.
    - by intros i op ?%not_elem_of_nil.
    - by intros i op [o E]%Hs. }
  assert (disk_inv doc0 d) as Hi by (induction Hr as [|d0 d1 d Hs _ IH]; [done|]; apply IH; by eapply disk_inv_step).
  split_and!; [apply Hi|apply Hi| | |apply Hi].
  - intros i op e Hw [[j o] [-> Hin]]%list_elem_of_fmap. cbn in Hw. destruct (di_log _ _ Hi _ _ Hin) as (w & Hw' & [->|[->|[doc' ->]]]); congruence.
  - intros i op (w & Hw & [->|[->|[doc' ->]]])%(di_log _ _ Hi); eauto.
Qed.
End Locked.

(** ** A text form for documents *)

Fixpoint show_item (i : Item) : bytes :=
  match i with
  | Leaf v => 0 :: len v :: v
  | Tbl entries => 1 :: len entries :: (fix go es := match es with [] => [] | (k, j) :: es => len k :: k ++ show_item j ++ go es end) entries
  end.

Fixpoint show_entries (es : table) : bytes := match es with [] => [] | (k, j) :: es => len k :: k ++ show_item j ++ show_entries es end.

Definition take_text (bs : bytes) : option (bytes * bytes) :=
  match bs with n :: bs => Some (take (Z.to_nat n) bs, drop (Z.to_nat n) bs) | [] => None end.

Fixpoint scan_item (fuel : nat) (bs : bytes) : option (Item * bytes) :=
  match fuel with
  | O => None
  | S fuel =>
      match bs with
      | 0 :: bs => '(v, bs) ← take_text bs; Some (Leaf v, bs)
      | 1 :: n :: bs =>
          '(es, bs) ← (fix go (n : nat) (bs : bytes) : option (table * bytes) :=
             match n with
             | O => Some ([], bs)
             | S n => '(k, bs) ← take_text bs; '(j, bs) ← scan_item fuel bs; '(es, bs) ← go n bs; Some ((k, j) :: es, bs)
             end) (Z.to_nat n) bs;
          Some (Tbl es, bs)
      | _ => None
      end
  end.

Definition show_table (t : table) : bytes := show_item (Tbl t).
Definition scan_table (bs : bytes) : option table :=
  match scan_item (S (length bs)) bs with Some (Tbl t, []) => Some t | _ => None end.

Lemma take_text_app v bs : take_text (len v :: v ++ bs) = Some (v, bs).
Proof. cbn. unfold len. rewrite Nat2Z.id, take_app_length, drop_app_length. done. Qed.

Lemma scan_show i fuel bs : (length (show_item i) <= fuel)%nat -> scan_item fuel (show_item i ++ bs) = Some (i, bs).
Proof.
  revert i bs. induction fuel as [|fuel IH]; intros i bs; [by destruct i; cbn; lia|].
  destruct i as [v|es]; [intros _; cbn [show_item app scan_item]; by rewrite take_text_app|].
  change (show_item (Tbl es)) with (1 :: len es :: show_entries es). cbn [app length scan_item]. unfold len. rewrite Nat2Z.id. intros Hl.
  match goal with |- (y ← ?go (length es) (show_entries es ++ bs); _) = _ =>
    assert (forall es, (length (show_entries es) <= fuel)%nat -> go (length es) (show_entries es ++ bs) = Some (es, bs)) as Hgo end.
  { clear es Hl. induction es as [|[k j] es IHes]; cbn [show_entries length]; [done|]. rewrite !length_app. cbn [app]. intros Hl.
    rewrite <- !app_assoc, take_text_app. cbn [mbind option_bind]. rewrite IH by lia. cbn [mbind option_bind]. rewrite IHes by lia. done. }
  rewrite Hgo by lia. done.
Qed.

Lemma scan_show_table t : scan_table (show_table t) = Some t.
Proof.
  unfold scan_table, show_table. pose proof (scan_show (Tbl t) (S (length (show_item (Tbl t)))) []) as H. rewrite app_nil_r in H. by rewrite H by lia.
Qed.

(** ** Runs *)

(** The states of a write, one after another. *)
Fixpoint drain (i : nat) (op : StorageOp) (doc : table) (todo : list FileSystem) (r : result unit StorageError) (d : OnDisk) : OnDisk :=
  match todo with [] => d | st :: todo => drain i op doc todo r (write_on i op doc st todo r d) end.

Lemma drain_steps ck ca parse render target temp disks i op doc todo r d : d_writers d !! i = Some (W_writing op doc todo r) ->
  rtc (disk_step ck ca parse render target temp disks) d (drain i op doc todo r d).
Proof.
  revert d. induction todo as [|st todo IH]; intros d Hw; cbn [drain]; [apply rtc_refl|].
  eapply rtc_l; [by apply D_state|]. apply IH. cbn. by rewrite lookup_insert_eq.
Qed.

Definition one_file : FileSystem := {[ lit "c" := File (show_table []) PRIVATE ]}.
Definition temp_name (i : nat) : bytes := lit ".c." ++ replicate i 48.

(** A writer up to its write; what is left of it then; and the whole of it. *)
Definition begun (i : nat) (op : StorageOp) (doc : table) (d : OnDisk) : OnDisk :=
  write_document Some [] show_table (lit "c") temp_name i op doc good_disk (read_document scan_table (lit "c") i op (acquire i op d)).
Definition amid (i : nat) (d : OnDisk) : option (StorageOp * table * list FileSystem * result unit StorageError) :=
  match d_writers d !! i with Some (W_writing op doc todo r) => Some (op, doc, todo, r) | _ => None end.
Definition cut_short (i : nat) (d : OnDisk) : OnDisk :=
  match amid i d with Some (op, doc, st :: todo, r) => kill i (W_writing op doc todo r) (write_on i op doc st todo r d) | _ => d end.
Definition finished (i : nat) (d : OnDisk) : OnDisk :=
  match amid i d with Some (op, doc, todo, r) => write_returns i op r (drain i op doc todo r d) | None => d end.

Local Abbreviation step_of := (disk_step Some [] scan_table show_table (lit "c") temp_name (fun dk => dk_rename dk = true)).

Lemma begun_steps i op doc d : d_holder d = None -> d_writers d !! i = Some (W_waiting op) -> current scan_table (lit "c") (d_fs d) = Some doc -> rtc step_of d (begun i op doc d).
Proof.
  intros Hh Hw Hc. eapply rtc_l; [by apply (D_acquire _ _ _ _ _ _ _ _ i op)|]. eapply rtc_l; [apply (D_read _ _ _ _ _ _ _ _ i op); cbn; by rewrite lookup_insert_eq|].
  apply rtc_once. apply D_write; [|done]. unfold current in Hc. unfold read_document. change (d_fs (acquire i op d)) with (d_fs d).
  destruct (read_file (d_fs d) (lit "c")) as [text|]; [|done]. cbn [mbind option_bind] in Hc. rewrite Hc. cbn [with_writer d_writers]. by rewrite lookup_insert_eq.
Qed.

Lemma cut_short_steps i d : rtc step_of d (cut_short i d).
Proof.
  unfold cut_short, amid. destruct (d_writers d !! i) as [[| | |op doc [|st todo] r| |]|] eqn:E; try apply rtc_refl.
  eapply rtc_l; [by apply (D_state _ _ _ _ _ _ _ _ i)|]. apply rtc_once. apply D_kill; [cbn; by rewrite lookup_insert_eq|done].
Qed.

Lemma finished_steps i d : rtc step_of d (finished i d).
Proof.
  unfold finished, amid. destruct (d_writers d !! i) as [[| | |op doc todo r| |]|] eqn:E; try apply rtc_refl.
  eapply rtc_r; [by apply drain_steps|]. apply (D_return _ _ _ _ _ _ _ _ i op doc r).
  revert d E. induction todo as [|st todo IH]; intros d E; [done|]. cbn [drain]. apply IH. cbn. by rewrite lookup_insert_eq.
Qed.

(** The first writer is killed amid its write, the second one goes through. *)
Definition ann_op : StorageOp := OpSecret (lit "ann") (lit "s1") false.
Definition bob_op : StorageOp := OpSecret (lit "bob") (lit "s2") false.
Definition after_ann : OnDisk := cut_short 0 (begun 0 ann_op [] (disk_start one_file [ann_op; bob_op])).
Definition after_bob : OnDisk := finished 1 (begun 1 bob_op [] after_ann).

Lemma storage_serial_witness :
  (exists st, after_ann = st /\ d_fs st !! temp_name 0 = Some (File [] PRIVATE) /\ d_log st = []) /\ d_log after_bob = [(1%nat, bob_op)] /\
  exists doc, current scan_table (lit "c") (d_fs after_bob) = Some doc /\ run_ops Some [] [bob_op] [] = Some doc.
Proof.
  split; [by eexists; vm_compute|]. assert (d_log after_bob = [(1%nat, bob_op)]) as El by (vm_compute; reflexivity). split; [exact El|].
  change [bob_op] with ([(1%nat, bob_op)].*2). rewrite <- El.
  apply (storage_serial Some [] scan_table show_table (lit "c") temp_name (fun dk => dk_rename dk = true) scan_show_table (fun _ H => H) one_file [] [ann_op; bob_op]).
  - split; [intros d; by vm_compute|intros i; by destruct i|intros i; by destruct i|]. intros i j E. apply (f_equal length) in E. unfold temp_name in E.
    rewrite !length_app, !length_replicate in E. lia.
  - intros i. apply lookup_singleton_ne. by destruct i.
  - vm_compute. reflexivity.
  - unfold after_bob. etrans; [|apply finished_steps]. etrans; [|apply begun_steps; vm_compute; reflexivity].
    unfold after_ann. etrans; [|apply cut_short_steps]. apply begun_steps; vm_compute; reflexivity.
Defined.

(** ** Where the rename is refused *)

(** The configuration is a mount of its own, and the write in place fails after a byte, or
    the mode cannot be set behind it. *)
Definition mounted (in_place : option nat) (chmod_after : bool) : Disk :=
  {| dk_open := true; dk_write := None; dk_sync := true; dk_remove := true; dk_rename := false; dk_chmod := true; dk_open_in_place := true;
     dk_in_place := in_place; dk_chmod_after := chmod_after; dk_umask_mode := 0x1a4 |}.

(** A write in place that fails leaves a cut configuration. *)
Example in_place_write_cut :
  let '(states, r) := write_file (mounted (Some 1%nat) true) (lit ".c.tmp") (lit "c") (lit "new") linked in
  r = Err SE_write /\ (st ← last states; read_file st (lit "c")) = Some (lit "n").
Proof. by vm_compute. Qed.

(** A mode that cannot be set behind the write is reported as a failure of a write that was
    done. *)
Example in_place_write_done_but_refused :
  let '(states, r) := write_file (mounted None false) (lit ".c.tmp") (lit "c") (lit "new") linked in
  r = Err SE_write /\ (st ← last states; read_file st (lit "c")) = Some (lit "new").
Proof. by vm_compute. Qed.

Lemma storage_edit_exact_witness :
  let doc := [(lit "auth", Tbl [(lit "clients", Tbl [(lit "ann", Tbl [(lit "secret", Leaf (lit "s0"))])])])] in
  exists doc', apply_op Some [] (OpDevice (lit "ann") (lit "laptop") (DC_secret (lit "s1")) false) doc = Ok doc' /\
    (forall p, ~ touches (OpDevice (lit "ann") (lit "laptop") (DC_secret (lit "s1")) false) p -> leaf_at p doc' = leaf_at p doc) /\
    promised Some (OpDevice (lit "ann") (lit "laptop") (DC_secret (lit "s1")) false) doc doc'.
Proof.
  intros doc. eexists. split; [vm_compute; reflexivity|].
  apply (storage_edit_exact Some [] (OpDevice (lit "ann") (lit "laptop") (DC_secret (lit "s1")) false) doc). vm_compute. reflexivity.
Defined.
