(* ===== verification/Flows.v ===== *)
(** * Flows and what they carry (nexapipe-client/src/{flow,traffic}.rs)

    Every flow of the client is counted against the backend it rides to, listed under a
    number the user interface shows, and can be asked to end by that number.  The counters
    are atomics and the list is behind its own lock, so opening and dropping a flow are
    several steps each, between which anything may happen; a flow that waits to be
    cancelled registers with a [Notify] and reads a flag.

    The file shows that the counts are exactly those of the flows that are open, that no
    byte is counted twice or in one place only, and that a flow that is asked to end is
    never left waiting. *)

From S2P Require Import Prelude RustStd EndpointGroup.

Abbreviation FlowId := Z (only parsing).

Inductive FlowKind := FK_Http | FK_Connect | FK_WebSocket | FK_TlsPassthrough | FK_TunTcp | FK_TunUdp.
Record FlowMeta := { fm_kind : FlowKind; fm_target : option bytes; fm_source : option bytes }.

(** What is kept of a flow while anybody holds it. *)
Record FlowEntry := { fe_node : EndpointId; fe_meta : FlowMeta; fe_sent : Z; fe_received : Z; fe_cancelled : bool }.

Record NodeTraffic := { nt_sent : Z; nt_received : Z; nt_active : Z }.
Definition traffic_default : NodeTraffic := {| nt_sent := 0; nt_received := 0; nt_active := 0 |}.

(** [fetch_add] on an [AtomicU64]. *)
Definition add64 (a b : Z) : Z := wrapping 64 (a + b).

Definition record_sent (bytes_ : Z) (t : NodeTraffic) : NodeTraffic :=
  if bytes_ =? 0 then t else {| nt_sent := add64 (nt_sent t) bytes_; nt_received := nt_received t; nt_active := nt_active t |}.
Definition record_received (bytes_ : Z) (t : NodeTraffic) : NodeTraffic :=
  if bytes_ =? 0 then t else {| nt_sent := nt_sent t; nt_received := add64 (nt_received t) bytes_; nt_active := nt_active t |}.
Definition entry_sent (bytes_ : Z) (e : FlowEntry) : FlowEntry :=
  if bytes_ =? 0 then e
  else {| fe_node := fe_node e; fe_meta := fe_meta e; fe_sent := add64 (fe_sent e) bytes_; fe_received := fe_received e; fe_cancelled := fe_cancelled e |}.
Definition entry_received (bytes_ : Z) (e : FlowEntry) : FlowEntry :=
  if bytes_ =? 0 then e
  else {| fe_node := fe_node e; fe_meta := fe_meta e; fe_sent := fe_sent e; fe_received := add64 (fe_received e) bytes_; fe_cancelled := fe_cancelled e |}.
Definition enter (t : NodeTraffic) : NodeTraffic :=
  {| nt_sent := nt_sent t; nt_received := nt_received t; nt_active := add64 (nt_active t) 1 |}.
Definition leave (t : NodeTraffic) : NodeTraffic :=
  {| nt_sent := nt_sent t; nt_received := nt_received t; nt_active := saturating_sub (nt_active t) 1 |}.

(** Where a flow is between its steps: it has its number, it is listed, it is counted, it
    is no longer counted, it is gone. *)
Inductive FlowAt := F_numbered | F_listed | F_open | F_left | F_gone.

(** Bytes that reached the node's counter and not yet the flow's. *)
Record Pending := { pd_id : FlowId; pd_node : EndpointId; pd_sent : bool; pd_bytes : Z }.

(** The registry, the table of traffic, every entry that was made - which its holders keep
    after it left the list - and where each flow is. *)
Record Flows := {
  fl_next : Z;
  fl_listed : gset FlowId;
  fl_entries : gmap FlowId (FlowEntry * FlowAt);
  fl_traffic : gmap EndpointId NodeTraffic;
  fl_pending : list Pending;
}.

Definition flows_new : Flows := {| fl_next := 0; fl_listed := ∅; fl_entries := ∅; fl_traffic := ∅; fl_pending := [] |}.

(** [traffic::of]: the node's counters, made at the first use. *)
Definition traffic_of (node : EndpointId) (s : Flows) : NodeTraffic := default traffic_default (fl_traffic s !! node).

Definition with_entry (id : FlowId) (e : FlowEntry) (at_ : FlowAt) (s : Flows) : Flows :=
  {| fl_next := fl_next s; fl_listed := fl_listed s; fl_entries := <[id := (e, at_)]> (fl_entries s); fl_traffic := fl_traffic s; fl_pending := fl_pending s |}.
Definition with_traffic (node : EndpointId) (f : NodeTraffic -> NodeTraffic) (s : Flows) : Flows :=
  {| fl_next := fl_next s; fl_listed := fl_listed s; fl_entries := fl_entries s; fl_traffic := <[node := f (traffic_of node s)]> (fl_traffic s); fl_pending := fl_pending s |}.
Definition with_listed (f : gset FlowId -> gset FlowId) (s : Flows) : Flows :=
  {| fl_next := fl_next s; fl_listed := f (fl_listed s); fl_entries := fl_entries s; fl_traffic := fl_traffic s; fl_pending := fl_pending s |}.

(** [Flow::listed]: [FlowRegistry::open] takes a number and inserts the entry, and then the
    node's count goes up. *)
Definition open_number (node : EndpointId) (meta : FlowMeta) (s : Flows) : Flows :=
  let id := fl_next s + 1 in
  let e := {| fe_node := node; fe_meta := meta; fe_sent := 0; fe_received := 0; fe_cancelled := false |} in
  {| fl_next := id; fl_listed := fl_listed s; fl_entries := <[id := (e, F_numbered)]> (fl_entries s); fl_traffic := fl_traffic s; fl_pending := fl_pending s |}.
Definition open_list (id : FlowId) (e : FlowEntry) (s : Flows) : Flows := with_entry id e F_listed (with_listed (fun l => {[ id ]} ∪ l) s).
Definition open_enter (id : FlowId) (e : FlowEntry) (s : Flows) : Flows := with_entry id e F_open (with_traffic (fe_node e) enter s).

(** Dropping it: the flow leaves its count, then its [ListedFlow] leaves the list. *)
Definition drop_leave (id : FlowId) (e : FlowEntry) (s : Flows) : Flows := with_entry id e F_left (with_traffic (fe_node e) leave s).
Definition drop_remove (id : FlowId) (e : FlowEntry) (s : Flows) : Flows := with_entry id e F_gone (with_listed (fun l => l ∖ {[ id ]}) s).

(** [FlowCounter], which may outlive its flow: the node's counter, then the flow's. *)
Definition count_node (sent : bool) (bytes_ : Z) (id : FlowId) (e : FlowEntry) (s : Flows) : Flows :=
  let s := with_traffic (fe_node e) (if sent then record_sent bytes_ else record_received bytes_) s in
  {| fl_next := fl_next s; fl_listed := fl_listed s; fl_entries := fl_entries s; fl_traffic := fl_traffic s;
     fl_pending := {| pd_id := id; pd_node := fe_node e; pd_sent := sent; pd_bytes := bytes_ |} :: fl_pending s |}.
Definition count_entry (i : nat) (p : Pending) (e : FlowEntry) (at_ : FlowAt) (s : Flows) : Flows :=
  let s := with_entry (pd_id p) (if pd_sent p then entry_sent (pd_bytes p) e else entry_received (pd_bytes p) e) at_ s in
  {| fl_next := fl_next s; fl_listed := fl_listed s; fl_entries := fl_entries s; fl_traffic := fl_traffic s; fl_pending := delete i (fl_pending s) |}.

Definition cancel_entry (e : FlowEntry) : FlowEntry :=
  {| fe_node := fe_node e; fe_meta := fe_meta e; fe_sent := fe_sent e; fe_received := fe_received e; fe_cancelled := true |}.

(** [FlowRegistry::close]: a number that is listed is cancelled. *)
Definition close (id : FlowId) (s : Flows) : bool * Flows :=
  if bool_decide (id ∈ fl_listed s) then
    match fl_entries s !! id with Some (e, at_) => (true, with_entry id (cancel_entry e) at_ s) | None => (false, s) end
  else (false, s).

(** [close_node]: every listed flow of a node is cancelled, one by one. *)
Definition of_node (node : EndpointId) (s : Flows) (id : FlowId) : bool :=
  bool_decide (id ∈ fl_listed s) && match fl_entries s !! id with Some (e, _) => bool_decide (fe_node e = node) | None => false end.
Definition close_node (node : EndpointId) (s : Flows) : nat * Flows :=
  let ids := List.filter (of_node node s) (elements (fl_listed s)) in
  (length ids, foldl (fun s id => match fl_entries s !! id with Some (e, at_) => with_entry id (cancel_entry e) at_ s | None => s end) s ids).

Inductive flows_step : Flows -> Flows -> Prop :=
| FS_number s node meta : fl_next s < umax 64 -> flows_step s (open_number node meta s)
| FS_list s id e : fl_entries s !! id = Some (e, F_numbered) -> flows_step s (open_list id e s)
| FS_enter s id e : fl_entries s !! id = Some (e, F_listed) -> flows_step s (open_enter id e s)
| FS_leave s id e : fl_entries s !! id = Some (e, F_open) -> flows_step s (drop_leave id e s)
| FS_remove s id e : fl_entries s !! id = Some (e, F_left) -> flows_step s (drop_remove id e s)
| FS_count s id e at_ sent bytes_ : fl_entries s !! id = Some (e, at_) -> 0 <= bytes_ -> flows_step s (count_node sent bytes_ id e s)
| FS_counted s i p e at_ : fl_pending s !! i = Some p -> fl_entries s !! pd_id p = Some (e, at_) -> flows_step s (count_entry i p e at_ s)
| FS_close s id : flows_step s (close id s).2.

(** ** Sums over the entries *)

Definition msum (f : FlowEntry * FlowAt -> Z) (m : gmap FlowId (FlowEntry * FlowAt)) : Z := map_fold (fun _ x acc => f x + acc) 0 m.

Lemma msum_insert f m id x : m !! id = None -> msum f (<[id := x]> m) = f x + msum f m.
Proof. intros H. unfold msum. rewrite map_fold_insert_L; [done| |done]. intros. lia. Qed.

Lemma msum_update f m id x y : m !! id = Some x -> msum f (<[id := y]> m) = msum f m - f x + f y.
Proof.
  intros H. rewrite <- (insert_delete_id m id x H) at 2. rewrite <- insert_delete_eq. rewrite !msum_insert by apply lookup_delete_eq. lia.
Qed.

Lemma msum_same f m id x y : m !! id = Some x -> f x = f y -> msum f (<[id := y]> m) = msum f m.
Proof. intros H E. rewrite (msum_update f m id x y H). lia. Qed.

Lemma msum_le f m : (forall x, 0 <= f x <= 1) -> 0 <= msum f m <= Z.of_nat (size m).
Proof.
  intros Hf. induction m as [|id x m Hn IH] using map_ind; [by rewrite map_size_empty|].
  rewrite msum_insert, map_size_insert_None by done. specialize (Hf x). lia.
Qed.

Definition counts_open (node : EndpointId) (x : FlowEntry * FlowAt) : Z :=
  if bool_decide (fe_node x.1 = node) then match x.2 with F_open => 1 | _ => 0 end else 0.
Definition counts_bytes (sent : bool) (node : EndpointId) (x : FlowEntry * FlowAt) : Z :=
  if bool_decide (fe_node x.1 = node) then (if sent then fe_sent x.1 else fe_received x.1) else 0.
Definition node_bytes (sent : bool) (t : NodeTraffic) : Z := if sent then nt_sent t else nt_received t.

Fixpoint pending_bytes (sent : bool) (node : EndpointId) (ps : list Pending) : Z :=
  match ps with
  | [] => 0
  | p :: ps => (if bool_decide (pd_node p = node /\ pd_sent p = sent) then pd_bytes p else 0) + pending_bytes sent node ps
  end.

Lemma pending_delete sent node ps i p :
  ps !! i = Some p -> pending_bytes sent node (delete i ps) = pending_bytes sent node ps - (if bool_decide (pd_node p = node /\ pd_sent p = sent) then pd_bytes p else 0).
Proof.
  revert i. induction ps as [|q ps IH]; intros [|i]; [done|done|intros [= ->]; cbn; lia|]. intros H. change (delete (S i) (q :: ps)) with (q :: delete i ps). cbn [pending_bytes]. rewrite (IH i H). lia.
Qed.

(** Equal as 64-bit counters. *)
Definition same64 (a b : Z) : Prop := exists k, a = b + k * 2 ^ 64.

Lemma add64_same a b c : same64 a b -> same64 (add64 a c) (b + c).
Proof.
  intros [k ->]. unfold add64, wrapping. pose proof (Z.div_mod (b + k * 2 ^ 64 + c) (2 ^ 64) ltac:(lia)) as H.
  exists (k - (b + k * 2 ^ 64 + c) / 2 ^ 64). lia.
Qed.

Definition is_listed (at_ : FlowAt) : bool := match at_ with F_listed | F_open | F_left => true | _ => false end.

Record flows_inv (s : Flows) : Prop := {
  fi_next : fl_next s = Z.of_nat (size (fl_entries s)) /\ fl_next s <= umax 64;
  fi_ids : forall id x, fl_entries s !! id = Some x -> 1 <= id <= fl_next s;
  fi_listed : forall id, id ∈ fl_listed s <-> exists e at_, fl_entries s !! id = Some (e, at_) /\ is_listed at_ = true;
  fi_active : forall node, nt_active (traffic_of node s) = msum (counts_open node) (fl_entries s);
  fi_bytes : forall node sent, same64 (node_bytes sent (traffic_of node s)) (msum (counts_bytes sent node) (fl_entries s) + pending_bytes sent node (fl_pending s));
  fi_pending : forall p, p ∈ fl_pending s -> exists e at_, fl_entries s !! pd_id p = Some (e, at_) /\ fe_node e = pd_node p;
}.

Lemma traffic_with node node' f s : traffic_of node' (with_traffic node f s) = if bool_decide (node' = node) then f (traffic_of node s) else traffic_of node' s.
Proof.
  unfold traffic_of at 1. cbn. destruct (decide (node' = node)) as [->|Hn].
  - rewrite lookup_insert_eq, bool_decide_eq_true_2 by done. done.
  - rewrite lookup_insert_ne, bool_decide_eq_false_2 by done. done.
Qed.

Lemma flows_inv_new : flows_inv flows_new.
Proof.
  constructor; cbn.
  - rewrite map_size_empty. split; [done|]. unfold umax. lia.
  - intros id x. by rewrite lookup_empty.
  - intros id. split; [set_solver|]. intros (e & at_ & H & _). by rewrite lookup_empty in H.
  - intros node. unfold traffic_of. cbn. rewrite lookup_empty. done.
  - intros node sent. unfold traffic_of. cbn. rewrite lookup_empty. exists 0. by destruct sent.
  - intros p Hp. by apply not_elem_of_nil in Hp.
Qed.

(** The parts of the invariant that an entry changing its place or its flag keeps. *)
Lemma inv_entry_ids s id e at_ e' at' :
  flows_inv s -> fl_entries s !! id = Some (e, at_) -> fe_node e' = fe_node e ->
  (fl_next s = Z.of_nat (size (<[id := (e', at')]> (fl_entries s))) /\ fl_next s <= umax 64) /\
  (forall i x, <[id := (e', at')]> (fl_entries s) !! i = Some x -> 1 <= i <= fl_next s) /\
  (forall p, p ∈ fl_pending s -> exists e1 at1, <[id := (e', at')]> (fl_entries s) !! pd_id p = Some (e1, at1) /\ fe_node e1 = pd_node p).
Proof.
  intros [Hn Hi Hl Ha Hb Hp] He Hnode. split; [rewrite map_size_insert_Some by (by eexists); done|]. split.
  - intros i x. destruct (decide (i = id)) as [->|Hd]; [intros _; by eapply Hi|]. rewrite lookup_insert_ne by done. apply Hi.
  - intros p Hin. destruct (Hp p Hin) as (e1 & at1 & H1 & H2). destruct (decide (pd_id p = id)) as [Heq|Hd].
    + rewrite Heq, lookup_insert_eq. exists e', at'. split; [done|]. rewrite Heq, He in H1. injection H1 as <- <-. congruence.
    + rewrite lookup_insert_ne by done. by exists e1, at1.
Qed.

(** A flow goes from one place to another: what is listed and what is counted follows. *)
Lemma inv_moves s id e at_ at' listed traffic :
  flows_inv s -> fl_entries s !! id = Some (e, at_) ->
  (forall i, i ∈ listed <-> if bool_decide (i = id) then is_listed at' = true else i ∈ fl_listed s) ->
  (forall node, nt_sent (default traffic_default (traffic !! node)) = nt_sent (traffic_of node s) /\
     nt_received (default traffic_default (traffic !! node)) = nt_received (traffic_of node s) /\
     nt_active (default traffic_default (traffic !! node)) = nt_active (traffic_of node s) - counts_open node (e, at_) + counts_open node (e, at')) ->
  flows_inv {| fl_next := fl_next s; fl_listed := listed; fl_entries := <[id := (e, at')]> (fl_entries s); fl_traffic := traffic; fl_pending := fl_pending s |}.
Proof.
  intros Hinv He Hlist Ht. destruct (inv_entry_ids s id e at_ e at' Hinv He eq_refl) as (H1 & H2 & H3). destruct Hinv as [Hn Hi Hl Ha Hb Hp].
  constructor; cbn; [done|done| | | |done].
  - intros i. rewrite Hlist. destruct (decide (i = id)) as [->|Hd].
    + rewrite lookup_insert_eq, bool_decide_eq_true_2 by done. split; [by eauto|]. by intros (e1 & at1 & [= <- <-] & ?).
    + rewrite lookup_insert_ne, bool_decide_eq_false_2 by done. apply Hl.
  - intros node. unfold traffic_of. cbn. destruct (Ht node) as (_ & _ & ->). rewrite (msum_update _ _ _ _ _ He), Ha. done.
  - intros node sent. unfold traffic_of. cbn. rewrite (msum_same _ _ _ _ _ He) by done. destruct (Ht node) as (Hs & Hr & _).
    assert (node_bytes sent (default traffic_default (traffic !! node)) = node_bytes sent (traffic_of node s)) as -> by (destruct sent; [exact Hs|exact Hr]). apply Hb.
Qed.

Lemma inv_number s node meta : fl_next s < umax 64 -> flows_inv s -> flows_inv (open_number node meta s).
Proof.
  intros Hlt [Hn Hi Hl Ha Hb Hp]. assert (fl_entries s !! (fl_next s + 1) = None) as Hfresh.
  { destruct (fl_entries s !! (fl_next s + 1)) eqn:E; [|done]. apply Hi in E. lia. }
  constructor; cbn.
  - rewrite map_size_insert_None by done. lia.
  - intros id x. destruct (decide (id = fl_next s + 1)) as [->|Hd]; [intros _; lia|]. rewrite lookup_insert_ne by done. intros H. apply Hi in H. lia.
  - intros id. rewrite Hl. destruct (decide (id = fl_next s + 1)) as [->|Hd].
    + split; intros (e & at_ & H & Hx); [congruence|]. rewrite lookup_insert_eq in H. injection H as <- <-. done.
    + by rewrite lookup_insert_ne.
  - intros n. change (traffic_of n (open_number node meta s)) with (traffic_of n s). rewrite msum_insert, Ha by done. unfold counts_open at 2. cbn.
    by case_bool_decide.
  - intros n sent. change (traffic_of n (open_number node meta s)) with (traffic_of n s). rewrite msum_insert by done.
    assert (counts_bytes sent n ({| fe_node := node; fe_meta := meta; fe_sent := 0; fe_received := 0; fe_cancelled := false |}, F_numbered) = 0) as ->
      by (unfold counts_bytes; cbn; case_bool_decide; by destruct sent). apply Hb.
  - intros p Hin. destruct (Hp p Hin) as (e & at_ & H1 & H2). exists e, at_. split; [|done]. rewrite lookup_insert_ne; [done|]. apply Hi in H1. lia.
Qed.

Lemma counts_open_at node e at_ : counts_open node (e, at_) = if bool_decide (fe_node e = node) then match at_ with F_open => 1 | _ => 0 end else 0.
Proof. done. Qed.

Lemma inv_list s id e : fl_entries s !! id = Some (e, F_numbered) -> flows_inv s -> flows_inv (open_list id e s).
Proof.
  intros He Hinv. apply (inv_moves s id e F_numbered F_listed ({[ id ]} ∪ fl_listed s) (fl_traffic s)); [done|done| |].
  - intros i. cbn. case_bool_decide; set_solver.
  - intros node. split; [done|]. split; [done|]. rewrite !counts_open_at. unfold traffic_of. cbn. case_bool_decide; lia.
Qed.

Lemma inv_remove s id e : fl_entries s !! id = Some (e, F_left) -> flows_inv s -> flows_inv (drop_remove id e s).
Proof.
  intros He Hinv. apply (inv_moves s id e F_left F_gone (fl_listed s ∖ {[ id ]}) (fl_traffic s)); [done|done| |].
  - intros i. cbn. case_bool_decide; set_solver.
  - intros node. split; [done|]. split; [done|]. rewrite !counts_open_at. unfold traffic_of. cbn. case_bool_decide; lia.
Qed.

(** An entry between the two lists keeps its place in the list. *)
Lemma stays_listed s id e at_ at' :
  flows_inv s -> fl_entries s !! id = Some (e, at_) -> is_listed at_ = true -> is_listed at' = true ->
  forall i, i ∈ fl_listed s <-> if bool_decide (i = id) then is_listed at' = true else i ∈ fl_listed s.
Proof. intros Hinv He H1 H2 i. case_bool_decide as E; [|done]. subst i. split; [done|]. intros _. apply (fi_listed s Hinv). by eauto. Qed.

Lemma open_bounded s node : flows_inv s -> 0 <= nt_active (traffic_of node s) <= umax 64.
Proof.
  intros [[Hn Hx] _ _ Ha _ _]. rewrite Ha. assert (forall x, 0 <= counts_open node x <= 1) as Hc by (intros [e []]; rewrite counts_open_at; case_bool_decide; lia).
  pose proof (msum_le (counts_open node) (fl_entries s) Hc). lia.
Qed.

Lemma inv_enter s id e : fl_entries s !! id = Some (e, F_listed) -> flows_inv s -> flows_inv (open_enter id e s).
Proof.
  intros He Hinv. assert (nt_active (traffic_of (fe_node e) s) + 1 <= umax 64) as Hmax.
  { destruct Hinv as [[Hn Hx] _ _ Ha _ _]. rewrite Ha.
    assert (forall x, 0 <= counts_open (fe_node e) x <= 1) as Hc by (intros [e1 []]; rewrite counts_open_at; case_bool_decide; lia).
    pose proof (msum_le (counts_open (fe_node e)) (<[id := (e, F_open)]> (fl_entries s)) Hc) as Hle. rewrite (msum_update _ _ _ _ _ He) in Hle.
    rewrite map_size_insert_Some in Hle by (by eexists). rewrite !counts_open_at, !bool_decide_eq_true_2 in Hle by done. lia. }
  pose proof (open_bounded s (fe_node e) Hinv) as Hb. apply (inv_moves s id e F_listed F_open (fl_listed s) (fl_traffic (with_traffic (fe_node e) enter s))); [done|done|by eapply stays_listed|].
  intros node. change (default traffic_default (_ !! node)) with (traffic_of node (with_traffic (fe_node e) enter s)). rewrite traffic_with, !counts_open_at.
  destruct (decide (node = fe_node e)) as [->|Hd].
  - rewrite !bool_decide_eq_true_2 by done. cbn. split; [done|]. split; [done|]. unfold add64. rewrite wrapping_small by (unfold is_uint, umax in *; lia). lia.
  - rewrite !bool_decide_eq_false_2 by congruence. split; [done|]. split; [done|]. lia.
Qed.

Lemma inv_leave s id e : fl_entries s !! id = Some (e, F_open) -> flows_inv s -> flows_inv (drop_leave id e s).
Proof.
  intros He Hinv. assert (1 <= nt_active (traffic_of (fe_node e) s)) as Hmin.
  { destruct Hinv as [_ _ _ Ha _ _]. rewrite Ha.
    assert (forall x, 0 <= counts_open (fe_node e) x <= 1) as Hc by (intros [e1 []]; rewrite counts_open_at; case_bool_decide; lia).
    pose proof (msum_le (counts_open (fe_node e)) (<[id := (e, F_left)]> (fl_entries s)) Hc) as Hle. rewrite (msum_update _ _ _ _ _ He) in Hle.
    rewrite !counts_open_at, !bool_decide_eq_true_2 in Hle by done. lia. }
  apply (inv_moves s id e F_open F_left (fl_listed s) (fl_traffic (with_traffic (fe_node e) leave s))); [done|done|by eapply stays_listed|].
  intros node. change (default traffic_default (_ !! node)) with (traffic_of node (with_traffic (fe_node e) leave s)). rewrite traffic_with, !counts_open_at.
  destruct (decide (node = fe_node e)) as [->|Hd].
  - rewrite !bool_decide_eq_true_2 by done. cbn. split; [done|]. split; [done|]. unfold saturating_sub. lia.
  - rewrite !bool_decide_eq_false_2 by congruence. split; [done|]. split; [done|]. lia.
Qed.

Lemma record_node (sent : bool) (bytes_ : Z) (b : bool) (t : NodeTraffic) :
  let t' := (if sent then record_sent bytes_ else record_received bytes_) t in
  nt_active t' = nt_active t /\ forall x, same64 (node_bytes b t) x -> same64 (node_bytes b t') (x + if bool_decide (sent = b) then bytes_ else 0).
Proof.
  assert (forall (b1 b2 : bool), b1 <> b2 -> bool_decide (b1 = b2) = false) as Hne by (intros; by apply bool_decide_eq_false_2).
  destruct sent, b; cbn; unfold record_sent, record_received; (destruct (bytes_ =? 0) eqn:E; [apply Z.eqb_eq in E as ->|]); cbn;
    (split; [done|]); intros x Hx; rewrite ?Z.add_0_r; try done; by apply add64_same.
Qed.

Lemma inv_count s id e at_ sent bytes_ :
  fl_entries s !! id = Some (e, at_) -> flows_inv s -> flows_inv (count_node sent bytes_ id e s).
Proof.
  intros He [Hn Hi Hl Ha Hb Hp]. constructor; cbn; [done|done|done| | |].
  - intros node. change (traffic_of node (count_node sent bytes_ id e s)) with
      (traffic_of node (with_traffic (fe_node e) (if sent then record_sent bytes_ else record_received bytes_) s)).
    rewrite traffic_with. case_bool_decide as E; [|apply Ha]. rewrite (proj1 (record_node sent bytes_ true _)), <- E. apply Ha.
  - intros node b. change (traffic_of node (count_node sent bytes_ id e s)) with
      (traffic_of node (with_traffic (fe_node e) (if sent then record_sent bytes_ else record_received bytes_) s)).
    rewrite traffic_with. destruct (decide (node = fe_node e)) as [->|Hd].
    + rewrite bool_decide_eq_true_2 by done. pose proof (proj2 (record_node sent bytes_ b (traffic_of (fe_node e) s)) _ (Hb (fe_node e) b)) as H.
      replace (bool_decide (fe_node e = fe_node e /\ sent = b)) with (bool_decide (sent = b)) by (apply bool_decide_ext; tauto).
      destruct H as [k Hk]. exists k. rewrite Hk. lia.
    + rewrite bool_decide_eq_false_2 by done. rewrite bool_decide_eq_false_2 by naive_solver. apply Hb.
  - intros p [->|Hin]%elem_of_cons; [by exists e, at_|by apply Hp].
Qed.

Lemma entry_counted (sent : bool) (bytes_ : Z) (b : bool) node e at_ :
  let e' := if sent then entry_sent bytes_ e else entry_received bytes_ e in
  fe_node e' = fe_node e /\
  same64 (counts_bytes b node (e', at_)) (counts_bytes b node (e, at_) + if bool_decide (fe_node e = node /\ sent = b) then bytes_ else 0).
Proof.
  assert (forall a, same64 a a) as Hrefl by (intros a; exists 0; lia).
  cbv zeta. assert (fe_node (if sent then entry_sent bytes_ e else entry_received bytes_ e) = fe_node e) as Hnode.
  { unfold entry_sent, entry_received. by destruct sent; destruct (bytes_ =? 0). }
  split; [done|]. unfold counts_bytes. cbn [fst]. rewrite Hnode. destruct (decide (fe_node e = node)) as [Hn|Hn].
  2:{ rewrite bool_decide_eq_false_2 by done. rewrite bool_decide_eq_false_2 by tauto. apply Hrefl. }
  rewrite bool_decide_eq_true_2 by done. replace (bool_decide (fe_node e = node /\ sent = b)) with (bool_decide (sent = b)) by (apply bool_decide_ext; tauto).
  unfold entry_sent, entry_received. destruct sent, b; destruct (bytes_ =? 0) eqn:E; try apply Z.eqb_eq in E as ->; cbn; rewrite ?Z.add_0_r; try apply Hrefl;
    by apply add64_same.
Qed.

Lemma inv_counted s i p e at_ :
  fl_pending s !! i = Some p -> fl_entries s !! pd_id p = Some (e, at_) -> flows_inv s -> flows_inv (count_entry i p e at_ s).
Proof.
  intros Hpi He Hinv. pose proof (entry_counted (pd_sent p) (pd_bytes p)) as Hc. set (e' := if pd_sent p then entry_sent (pd_bytes p) e else entry_received (pd_bytes p) e).
  assert (fe_node e' = fe_node e) as Hnode by (destruct (Hc true (fe_node e) e at_); done).
  assert (fe_node e = pd_node p) as Hpn.
  { destruct (fi_pending s Hinv p) as (e1 & at1 & H1 & H2); [by eapply list_elem_of_lookup_2|]. congruence. }
  destruct (inv_entry_ids s (pd_id p) e at_ e' at_ Hinv He Hnode) as (H1 & H2 & H3). destruct Hinv as [Hn Hi Hl Ha Hb Hp].
  constructor; cbn; fold e'; [done|done| | | |].
  - intros j. rewrite Hl. destruct (decide (j = pd_id p)) as [->|Hd]; [|by rewrite lookup_insert_ne]. rewrite lookup_insert_eq.
    split; [intros (e1 & at1 & E1 & ?); rewrite He in E1; injection E1 as <- <-; by eauto|]. intros (e1 & at1 & [= <- <-] & ?). by eauto.
  - intros node. change (traffic_of node (count_entry i p e at_ s)) with (traffic_of node s). rewrite (msum_same _ _ _ _ _ He); [apply Ha|].
    rewrite !counts_open_at. by rewrite Hnode.
  - intros node b. change (traffic_of node (count_entry i p e at_ s)) with (traffic_of node s). rewrite (msum_update _ _ _ _ _ He), (pending_delete _ _ _ _ _ Hpi).
    destruct (Hc b node e at_) as [_ [k Hk]]. fold e' in Hk. rewrite Hk, Hpn. destruct (Hb node b) as [k' Hk']. exists (k' - k). rewrite Hk'. lia.
  - intros q Hq. apply H3. eapply elem_of_sublist; [exact Hq|]. apply sublist_delete.
Qed.

Lemma inv_cancel s id e at_ : fl_entries s !! id = Some (e, at_) -> flows_inv s -> flows_inv (with_entry id (cancel_entry e) at_ s).
Proof.
  intros He Hinv. destruct (inv_entry_ids s id e at_ (cancel_entry e) at_ Hinv He eq_refl) as (H1 & H2 & H3). destruct Hinv as [Hn Hi Hl Ha Hb Hp].
  constructor; cbn; [done|done| | | |done].
  - intros j. rewrite Hl. destruct (decide (j = id)) as [->|Hd]; [|by rewrite lookup_insert_ne]. rewrite lookup_insert_eq.
    split; [intros (e1 & at1 & E1 & ?); rewrite He in E1; injection E1 as <- <-; by eauto|]. intros (e1 & at1 & [= <- <-] & ?). by eauto.
  - intros node. change (traffic_of node (with_entry id (cancel_entry e) at_ s)) with (traffic_of node s). by rewrite (msum_same _ _ _ _ _ He).
  - intros node b. change (traffic_of node (with_entry id (cancel_entry e) at_ s)) with (traffic_of node s). by rewrite (msum_same _ _ _ _ _ He).
Qed.

Lemma flows_inv_step s s' : flows_step s s' -> flows_inv s -> flows_inv s'.
Proof.
  intros Hs Hi. destruct Hs; [by apply inv_number|by apply inv_list|by apply inv_enter|by apply inv_leave|by apply inv_remove|by eapply inv_count|by eapply inv_counted|].
  unfold close. case_bool_decide; [|done]. destruct (fl_entries s !! id) as [[e at_]|] eqn:E; [|done]. by apply inv_cancel.
Qed.

(** the numbers the client shows are the flows it has.  Over any interleaving of flows
    that open, carry bytes, are cancelled and end, a backend's count of open flows is the
    number of flows that were counted in and not out, the list holds exactly the flows
    between their listing and their removal, under numbers never given twice, and a
    backend's bytes, each way, are those of its flows and the ones on their way to a flow's
    own counter, as 64-bit counters. *)
Theorem flows_accounted s :
  rtc flows_step flows_new s ->
  (forall node, nt_active (traffic_of node s) = msum (counts_open node) (fl_entries s)) /\
  (forall id, id ∈ fl_listed s <-> exists e at_, fl_entries s !! id = Some (e, at_) /\ is_listed at_ = true) /\
  (forall node meta, fl_entries s !! fl_next (open_number node meta s) = None) /\
  (forall node sent, exists k, node_bytes sent (traffic_of node s) =
     msum (counts_bytes sent node) (fl_entries s) + pending_bytes sent node (fl_pending s) + k * 2 ^ 64).
Proof.
  intros Hr. assert (flows_inv s) as [Hn Hi Hl Ha Hb _].
  { generalize flows_inv_new. revert Hr. generalize flows_new. intros s0 Hr H0. induction Hr as [|s0 s1 s Hs _ IH]; [done|]. apply IH. by eapply flows_inv_step. }
  split; [done|]. split; [done|]. split; [|done]. intros node meta. cbn. destruct (fl_entries s !! (fl_next s + 1)) eqn:E; [|done]. apply Hi in E. lia.
Qed.

Lemma flows_accounted_witness :
  let meta := {| fm_kind := FK_Http; fm_target := None; fm_source := None |} in
  let e := {| fe_node := lit "n"; fe_meta := meta; fe_sent := 0; fe_received := 0; fe_cancelled := false |} in
  let s := count_node true 7 1 e (open_enter 1 e (open_list 1 e (open_number (lit "n") meta flows_new))) in
  (forall node, nt_active (traffic_of node s) = msum (counts_open node) (fl_entries s)) /\
  (forall id, id ∈ fl_listed s <-> exists e at_, fl_entries s !! id = Some (e, at_) /\ is_listed at_ = true) /\
  (forall node meta, fl_entries s !! fl_next (open_number node meta s) = None) /\
  (forall node sent, exists k, node_bytes sent (traffic_of node s) =
     msum (counts_bytes sent node) (fl_entries s) + pending_bytes sent node (fl_pending s) + k * 2 ^ 64).
Proof.
  intros meta e s. apply flows_accounted. eapply rtc_l; [apply (FS_number _ (lit "n") meta); by vm_compute|].
  eapply rtc_l; [apply (FS_list _ 1 e); by vm_compute|]. eapply rtc_l; [apply (FS_enter _ 1 e); by vm_compute|].
  eapply rtc_l; [apply (FS_count _ 1 e F_open true 7); by vm_compute|]. apply rtc_refl.
Defined.

(** ** Asking a flow to end *)

(** The waiting side of [cancelled]: before it registers, registered at a count of wake-ups,
    waiting since that count, and told. *)
Inductive Waiter := V_top | V_registered (epoch : nat) | V_waiting (epoch : nat) | V_told.

(** [c_epoch] counts the calls of [notify_waiters]; [c_stored] is a [cancel] between its
    flag and its wake-up. *)
Record Cancelling := { c_flag : bool; c_epoch : nat; c_stored : bool; c_waiter : Waiter }.

Definition cancelling_new : Cancelling := {| c_flag := false; c_epoch := 0; c_stored := false; c_waiter := V_top |}.

Definition with_waiter (w : Waiter) (c : Cancelling) : Cancelling :=
  {| c_flag := c_flag c; c_epoch := c_epoch c; c_stored := c_stored c; c_waiter := w |}.

(** One step of the waiter, when it has one. *)
Definition waiter_step (c : Cancelling) : option Cancelling :=
  match c_waiter c with
  | V_top => Some (with_waiter (V_registered (c_epoch c)) c)
  | V_registered e => Some (with_waiter (if c_flag c then V_told else V_waiting e) c)
  | V_waiting e => if (e <? c_epoch c)%nat then Some (with_waiter (if c_flag c then V_told else V_top) c) else None
  | V_told => None
  end.

(** [cancel]: the flag, then the wake-up. *)
Definition cancel_store (c : Cancelling) : Cancelling :=
  {| c_flag := true; c_epoch := c_epoch c; c_stored := true; c_waiter := c_waiter c |}.
Definition cancel_notify (c : Cancelling) : Cancelling :=
  {| c_flag := c_flag c; c_epoch := S (c_epoch c); c_stored := false; c_waiter := c_waiter c |}.

Inductive cancel_step : Cancelling -> Cancelling -> Prop :=
| CS_waiter c c' : waiter_step c = Some c' -> cancel_step c c'
| CS_store c : c_stored c = false -> cancel_step c (cancel_store c)
| CS_notify c : c_stored c = true -> cancel_step c (cancel_notify c).

Definition cancel_inv (c : Cancelling) : Prop :=
  match c_waiter c with
  | V_top => True
  | V_registered e => (e <= c_epoch c)%nat
  | V_waiting e => (e <= c_epoch c)%nat /\ (c_flag c = true -> c_stored c = false -> (e < c_epoch c)%nat)
  | V_told => c_flag c = true
  end.

Lemma cancel_inv_step c c' : cancel_step c c' -> cancel_inv c -> cancel_inv c'.
Proof.
  intros Hs. unfold cancel_inv. destruct Hs as [c c' Hw|c Hst|c Hst]; cbn.
  - unfold waiter_step in Hw. destruct (c_waiter c) as [|e|e|] eqn:E; [..|done].
    + injection Hw as <-. cbn. lia.
    + injection Hw as <-. cbn. destruct (c_flag c) eqn:Ef; [done|]. intros He. split; [done|]. cbn. congruence.
    + destruct (_ <? _)%nat; [|done]. injection Hw as <-. cbn. by destruct (c_flag c).
  - destruct (c_waiter c) as [|e|e|]; [done|done| |done]. intros [He _]. split; [done|]. done.
  - destruct (c_waiter c) as [|e|e|]; [done|lia| |done]. intros [He _]. split; [lia|]. intros. lia.
Qed.

(** The waiter, left alone. *)
Fixpoint waiter_run (n : nat) (c : Cancelling) : Cancelling :=
  match n with O => c | S n => match waiter_step c with Some c => waiter_run n c | None => c end end.

(** A flow that was asked to end is told: wherever the request found the waiter, once it is
    complete the waiter is never stuck and is told within three steps of its own; and a
    waiter is told only when somebody asked. *)
Theorem cancel_not_lost c :
  rtc cancel_step cancelling_new c ->
  (c_flag c = true -> c_stored c = false -> c_waiter (waiter_run 3 c) = V_told) /\ (c_waiter c = V_told -> c_flag c = true).
Proof.
  intros Hr. assert (cancel_inv c) as Hi.
  { assert (cancel_inv cancelling_new) as H0 by done. revert H0 Hr. generalize cancelling_new. intros c0 H0 Hr.
    induction Hr as [|c0 c1 c Hs _ IH]; [done|]. apply IH. by eapply cancel_inv_step. }
  unfold cancel_inv in Hi. destruct c as [flag epoch stored w]. cbn in Hi. split.
  - intros Hf Hs. cbn in Hf, Hs. subst. destruct w as [|e|e|]; [done|done| |done]. destruct Hi as [_ Hlt]. specialize (Hlt eq_refl eq_refl).
    cbn [waiter_run]. unfold waiter_step at 1. cbn [c_waiter c_epoch c_flag]. by rewrite (proj2 (Nat.ltb_lt _ _)) by done.
  - cbn. intros ->. done.
Qed.
