(* ===== verification/Copy.v ===== *)
(** * Copying a stream both ways (nexapipe/src/stream_util.rs)

    The TLS and L4 tunnels end in [copy_both_ways_until_with_budget]: two buffers are
    paid for ([copy_buffers_take] of [L4]), two directions run, and the copy ends with both of them, with the first
    failure, a bounded wait after the first clean end, or its deadline.  A direction
    is the timed reads of its peer; the three arms of the [select!] are the moments
    each would end the copy, and the copy ends with one of the earliest. *)

From Stdlib Require Import Sorted.
From S2P Require Import Prelude RustStd Udp Limits L4 HttpBody.

(** Nanoseconds. *)
Definition LINGERING : Z := 30 * 1000000000.

Inductive CopyError := Broken | TimedOut_ | NoRoom.

(** ** One direction *)

(** A read of the peer: when it comes back, with what, and whether what it brought
    could be written and flushed. *)
Record PeerRead := { pr_at : Z; pr_event : ReadEvent; pr_written : bool }.

(** The loop of [copy_one_way]: the bytes that went out, and when and how it ended;
    a peer with no read left is silent.  [RIdle] does not occur: the read has no
    deadline of its own. *)
Fixpoint copy_one_way (reads : list PeerRead) : bytes * option (Z * result unit CopyError) :=
  match reads with
  | [] => ([], None)
  | r :: reads =>
      match pr_event r with
      | REof => ([], Some (pr_at r, Ok tt))
      | RFailed | RIdle => ([], Some (pr_at r, Err Broken))
      | RBytes chunk =>
          if negb (pr_written r) then ([], Some (pr_at r, Err Broken))
          else let '(out, e) := copy_one_way reads in (chunk ++ out, e)
      end
  end.

(** The bytes that are out when the copy is cut at a moment. *)
Fixpoint reads_by (cut_at : Z) (reads : list PeerRead) : list PeerRead :=
  match reads with
  | [] => []
  | r :: reads => if pr_at r <=? cut_at then r :: reads_by cut_at reads else []
  end.
Definition copied_by (cut_at : Z) (reads : list PeerRead) : bytes := (copy_one_way (reads_by cut_at reads)).1.

(** ** Both directions *)

Definition lingering (deadline : option Z) : Z :=
  match deadline with Some limit => Z.min limit LINGERING | None => LINGERING end.

Definition Ended := option (Z * result unit CopyError).

(** [tokio::join!] of the two directions. *)
Definition join_arm (client backend : Ended) : Ended :=
  match client, backend with
  | Some (tc, rc), Some (tb, rb) => Some (Z.max tc tb, match rc with Ok _ => rb | Err e => Err e end)
  | _, _ => None
  end.

(** One direction that ended first: a failure ends the copy, a clean end starts the
    clock. *)
Definition ended_arm (deadline : option Z) (direction : Ended) : Ended :=
  match direction with
  | Some (t, Err e) => Some (t, Err e)
  | Some (t, Ok _) => Some (t + lingering deadline, Err TimedOut_)
  | None => None
  end.

(** The directions that may have ended first, which the channel hands over. *)
Definition first_ended (client backend : Ended) : list Ended :=
  match client, backend with
  | Some (tc, rc), Some (tb, rb) =>
      (if tc <=? tb then [client] else []) ++ (if tb <=? tc then [backend] else [])
  | None, e | e, None => [e]
  end.

Definition deadline_arm (deadline : option Z) : Ended :=
  match deadline with Some limit => Some (limit, Err TimedOut_) | None => None end.

Definition arms (deadline : option Z) (client backend : Ended) : list (Z * result unit CopyError) :=
  omap id (join_arm client backend :: deadline_arm deadline :: (ended_arm deadline <$> first_ended client backend)).

(** How the copy may end: any of the arms that are ready first. *)
Definition copy_ends (deadline : option Z) (client backend : Ended) : list (Z * result unit CopyError) :=
  let l := arms deadline client backend in
  filter (fun a => Forall (fun b => a.1 <= b.1) l) l.

(** The whole copy, from the moment it starts: the budget after it, the bytes each
    way, and the end; [None] while it runs.  [pick] chooses among the arms that are
    ready together. *)
Definition copy_both_ways_until_with_budget (deadline : option Z) (client backend : list PeerRead) (pick : nat)
    (b : ByteBudget) : ByteBudget * option (bytes * bytes * Z * result unit CopyError) :=
  match copy_buffers_take b with
  | (b, None) => (b, Some ([], [], 0, Err NoRoom))
  | (b, Some (to_backend, to_client)) =>
      match copy_ends deadline (copy_one_way client).2 (copy_one_way backend).2 !! pick with
      | None => (b, None)
      | Some (t, outcome) =>
          (give_back to_client (give_back to_backend b),
           Some (copied_by t client, copied_by t backend, t, outcome))
      end
  end.

(** ** The copy ends in time, and gives back what it took *)

(** What a peer sent. *)
Definition peer_sent (reads : list PeerRead) : bytes :=
  reads ≫= fun r => match pr_event r with RBytes chunk => chunk | _ => [] end.

Lemma copied_prefix cut_at reads : copied_by cut_at reads `prefix_of` peer_sent reads.
Proof.
  unfold copied_by. induction reads as [|r reads IH]; [done|]. cbn. destruct (pr_at r <=? cut_at); [|apply prefix_nil].
  cbn. destruct (pr_event r) as [chunk| | |]; try apply prefix_nil.
  destruct (negb (pr_written r)); [apply prefix_nil|]. destruct (copy_one_way _) as [out e]. by apply prefix_app.
Qed.

(** The reads of a peer come one after the other. *)
Definition in_order (reads : list PeerRead) : Prop := StronglySorted (fun r r' => pr_at r <= pr_at r') reads.

Lemma copy_end_after lo reads t e :
  Forall (fun r => lo <= pr_at r) reads -> (copy_one_way reads).2 = Some (t, e) -> lo <= t.
Proof.
  induction 1 as [|r reads Hr _ IH]; [done|]. cbn. destruct (pr_event r) as [chunk| | |];
    try (intros ?; by simplify_eq/=).
  destruct (negb (pr_written r)); [intros ?; by simplify_eq/=|]. by destruct (copy_one_way reads).
Qed.

Lemma copied_whole reads t e cut_at :
  in_order reads -> (copy_one_way reads).2 = Some (t, e) -> t <= cut_at ->
  copied_by cut_at reads = (copy_one_way reads).1.
Proof.
  intros Hord. unfold copied_by. induction Hord as [|r reads Hord IH Hall]; intros He Ht; [done|].
  assert (pr_at r <= t) as Hr.
  { eapply (copy_end_after _ (r :: reads)); [|exact He]. by constructor. }
  cbn. destruct (Z.leb_spec (pr_at r) cut_at); [|lia]. cbn in He |- *.
  destruct (pr_event r) as [chunk| | |]; try done. destruct (negb (pr_written r)); [done|].
  destruct (copy_one_way reads) as [out e'] eqn:E. cbn in *. specialize (IH He Ht).
  destruct (copy_one_way (reads_by cut_at reads)) as [out' e'']. cbn in *. by subst.
Qed.

(** When the first direction of the two ended. *)
Definition first_end (client backend : Ended) : option Z :=
  match client, backend with
  | Some (tc, _), Some (tb, _) => Some (Z.min tc tb)
  | Some (t, _), None | None, Some (t, _) => Some t
  | None, None => None
  end.

Lemma first_ended_at client backend e t r :
  e ∈ first_ended client backend -> e = Some (t, r) -> first_end client backend = Some t.
Proof.
  destruct client as [[tc rc]|], backend as [[tb rb]|]; cbn; intros Hin ->; try set_solver.
  apply elem_of_app in Hin as [Hin|Hin].
  - destruct (Z.leb_spec tc tb); [|set_solver]. apply list_elem_of_singleton in Hin. simplify_eq. f_equal. lia.
  - destruct (Z.leb_spec tb tc); [|set_solver]. apply list_elem_of_singleton in Hin. simplify_eq. f_equal. lia.
Qed.

Lemma first_ended_some client backend t :
  first_end client backend = Some t -> exists r, Some (t, r) ∈ first_ended client backend.
Proof.
  destruct client as [[tc rc]|], backend as [[tb rb]|]; cbn; intros [= <-]; try (eexists; by left).
  destruct (Z.leb_spec tc tb).
  - exists rc. rewrite Z.min_l by lia. by left.
  - exists rb. rewrite Z.min_r by lia. destruct (Z.leb_spec tb tc); [by left|lia].
Qed.

Lemma elem_of_arms deadline client backend a :
  a ∈ arms deadline client backend <->
  join_arm client backend = Some a \/ deadline_arm deadline = Some a \/
  exists e, e ∈ first_ended client backend /\ ended_arm deadline e = Some a.
Proof.
  unfold arms. rewrite list_elem_of_omap. setoid_rewrite elem_of_cons. setoid_rewrite elem_of_cons.
  setoid_rewrite list_elem_of_fmap. naive_solver.
Qed.

Lemma earliest_exists {A} (l : list (Z * A)) :
  l <> [] -> exists a, a ∈ l /\ Forall (fun b => a.1 <= b.1) l.
Proof.
  induction l as [|a l IH]; [done|]. intros _. destruct l as [|b l].
  { exists a. split; [by left|]. by repeat constructor. }
  destruct IH as (m & Hm & Hall); [done|]. destruct (Z.le_gt_cases a.1 m.1).
  - exists a. split; [by left|]. constructor; [done|]. eapply Forall_impl; [exact Hall|]. cbn. intros; lia.
  - exists m. split; [by right|]. constructor; [lia|done].
Qed.

Lemma copy_ends_first deadline client backend :
  copy_ends deadline client backend !! 0%nat = None -> deadline = None /\ first_end client backend = None.
Proof.
  intros E. destruct (arms deadline client backend) as [|a l] eqn:Ea.
  - split.
    + destruct deadline as [limit|]; [|done]. exfalso.
      eapply not_elem_of_nil. rewrite <- Ea. apply elem_of_arms. right. by left.
    + destruct (first_end client backend) as [t|] eqn:Ef; [|done]. exfalso. apply first_ended_some in Ef as [[u|e] Hr];
        (eapply not_elem_of_nil; rewrite <- Ea; apply elem_of_arms; eauto 6).
  - exfalso. destruct (earliest_exists (arms deadline client backend)) as (m & Hm & Hall); [by rewrite Ea|].
    assert (m ∈ copy_ends deadline client backend) as Hin by by apply list_elem_of_filter.
    destruct (copy_ends deadline client backend); [by apply elem_of_nil in Hin|done].
Qed.

(** a copy.  It is refused, and the budget left as it was, exactly when two
    buffers do not fit.  Otherwise it ends, unless it has no deadline and neither
    direction ever does: by its deadline, and within thirty seconds of the first
    direction's end.  It gives both buffers back, and what went out each way is a
    prefix of what came in.  It ends well only when both directions closed cleanly,
    always so when they did within the bounds, and then nothing is missing. *)
Theorem copy_bounded deadline client backend pick b :
  0 <= b_held b <= b_max b -> b_max b < umax 64 ->
  let ec := (copy_one_way client).2 in
  let eb := (copy_one_way backend).2 in
  match copy_both_ways_until_with_budget deadline client backend pick b with
  | (b', None) =>
      charged b b' COPY_BUFFER_BYTES /\ (pick = 0%nat -> deadline = None /\ first_end ec eb = None)
  | (b', Some (to_backend, to_client, t, outcome)) =>
      b' = b /\ to_backend `prefix_of` peer_sent client /\ to_client `prefix_of` peer_sent backend /\
      (outcome = Err NoRoom /\ b_max b < b_held b + COPY_BUFFER_BYTES \/
       b_held b + COPY_BUFFER_BYTES <= b_max b /\
       (forall limit, deadline = Some limit -> t <= limit) /\
       (forall t0, first_end ec eb = Some t0 -> t <= t0 + LINGERING) /\
       (outcome = Ok tt -> exists tc tb, ec = Some (tc, Ok tt) /\ eb = Some (tb, Ok tt) /\
          (in_order client -> to_backend = (copy_one_way client).1) /\
          (in_order backend -> to_client = (copy_one_way backend).1)) /\
       (forall tc tb, ec = Some (tc, Ok tt) -> eb = Some (tb, Ok tt) ->
          Z.max tc tb < Z.min tc tb + lingering deadline ->
          (forall limit, deadline = Some limit -> Z.max tc tb < limit) -> outcome = Ok tt))
  end.
Proof.
  intros Hb Hw. cbn zeta. unfold copy_both_ways_until_with_budget.
  pose proof (copy_buffers_take_spec b Hb Hw) as Ht.
  destruct (copy_buffers_take b) as [b1 [[r1 r2]|]].
  2:{ destruct Ht as [-> Ht]. split; [done|]. split; [apply prefix_nil|]. split; [apply prefix_nil|]. auto. }
  destruct Ht as (-> & -> & Ht). assert (charged b b1 COPY_BUFFER_BYTES) as Hc by (unfold charged; lia). clear Ht. pose proof (copy_ends_first deadline (copy_one_way client).2 (copy_one_way backend).2) as Hfirst.
  destruct (copy_ends deadline _ _ !! pick) as [[t outcome]|] eqn:Ee; [|split; [done|by intros ->; auto]].
  apply list_elem_of_lookup_2, list_elem_of_filter in Ee as [Hmin Hin]. cbn [fst] in Hmin.
  rewrite Forall_forall in Hmin. split.
  { assert (charged b (give_back COPY_BUF_SIZE b1) COPY_BUF_SIZE) as Hc1.
    { unfold charged, COPY_BUFFER_BYTES, give_back, reservation_drop, saturating_sub in *.
      destruct (Z.ltb_spec 0 COPY_BUF_SIZE); [|by exfalso]. cbn. assert (0 < COPY_BUF_SIZE) by done. lia. }
    by eapply give_back_charged; [|lia|]. }
  split; [apply copied_prefix|]. split; [apply copied_prefix|]. right.
  split; [unfold charged in Hc; lia|]. split; [|split; [|split]].
  - intros limit ->. apply (Hmin (limit, Err TimedOut_)). apply elem_of_arms. auto.
  - intros t0 Ht0. apply first_ended_some in Ht0 as [r Hr]. destruct r as [u|e].
    + etransitivity; [apply (Hmin (t0 + lingering deadline, Err TimedOut_)), elem_of_arms; eauto 6|].
      cbn. unfold lingering. destruct deadline; lia.
    + etransitivity; [apply (Hmin (t0, Err e)), elem_of_arms; eauto 6|]. cbn. unfold LINGERING. lia.
  - intros ->. apply elem_of_arms in Hin as [Hj|[Hd|(e & He & Harm)]].
    + unfold join_arm in Hj. destruct (copy_one_way client).2 as [[tc [[]|]]|] eqn:Ec,
        (copy_one_way backend).2 as [[tb rb]|] eqn:Eb; simplify_eq.
      exists tc, tb. split_and!; try done; intros Hord; eapply copied_whole; eauto; lia.
    + unfold deadline_arm in Hd. by destruct deadline; simplify_eq.
    + unfold ended_arm in Harm. by destruct e as [[te [u|]]|]; simplify_eq.
  - intros tc tb Hec Heb Hlin Hdl. rewrite Hec, Heb in *.
    assert (t <= Z.max tc tb) as Hle by (apply (Hmin (Z.max tc tb, Ok tt)), elem_of_arms; by left).
    apply elem_of_arms in Hin as [Hj|[Hd|(e & He & Harm)]].
    + by simplify_eq/=.
    + unfold deadline_arm in Hd. destruct deadline as [limit|]; simplify_eq. specialize (Hdl _ eq_refl). lia.
    + unfold ended_arm in Harm. destruct e as [[te [u|]]|] eqn:E; simplify_eq.
      * pose proof (first_ended_at _ _ _ _ _ He eq_refl) as Hf. cbn in Hf. simplify_eq. lia.
      * exfalso. cbn in He. destruct (tc <=? tb), (tb <=? tc); set_solver.
Qed.

Lemma copy_bounded_witness :
  let read at_ ev := {| pr_at := at_; pr_event := ev; pr_written := true |} in
  exists t, copy_both_ways_until_with_budget (Some 100) [read 1 (RBytes [7]); read 2 REof] [read 5 REof] 0
    (budget_new 100000) = (budget_new 100000, Some ([7], [], t, Ok tt)) /\ t <= 100.
Proof.
  intros read. set (client := [read 1 (RBytes [7]); read 2 REof]). set (backend := [read 5 REof]).
  exists 5. split; [reflexivity|].
  pose proof (copy_bounded (Some 100) client backend 0 (budget_new 100000) ltac:(split; discriminate) eq_refl) as A.
  destruct A as (_ & _ & _ & [[A _]|(_ & A & _)]); [discriminate|]. exact (A 100 eq_refl).
Defined.
